(* ===== verification/_CoqProject ===== *)
-Q . S2P
Prelude.v
Core.v
Protocol.v
Payload.v
Frame.v
Messages.v
Schemas.v
EntryBatch.v
Session.v
Service.v
ServiceTotal.v
ServiceDispatch.v
ServiceWire.v
ServiceSample.v
SaveBytes.v
SaveContainer.v
SaveFile.v
MediaPath.v
Catalog.v
ResultSession.v
ResultRuns.v
SourceBroker.v
FrameChannel.v
Handshake.v
ParentSession.v
ParentPhases.v
Explode.v
ExplodeSpec.v
ExplodeRuns.v
IszArchive.v
IszRead.v
IszOpen.v
IszSample.v
PayloadPath.v
PayloadLayout.v
PayloadSelection.v
WiseCrc.v
Wise.v
WiseOverlay.v
BackendWindow.v
BackendSpelling.v
WiseStream.v
WiseInflate.v
WiseChain.v
WiseWalk.v
WiseScript.v
WiseExtract.v
WisePackage.v
WiseMemory.v
WiseRead.v
WiseSample.v
BackendWise.v
BackendMimic.v
BackendAlike.v
BackendWalk.v
BackendScript.v
BackendReady.v
BackendAgree.v
BackendEntries.v
BackendBuffer.v
BackendDispatcher.v
BackendServe.v
BackendEnumerate.v
BackendImport.v
BackendStream.v
BackendDispatch.v
CabFormat.v
CabParse.v
CabMszip.v
CabLzx.v
CabExtract.v
CabWindow.v
CabBits.v
CabBlocks.v
CabContents.v
CabFile.v
CabWriter.v
BackendCabinet.v
CabSample.v
BackendSample.v
