(* ===== verification/Prelude.v ===== *)
(** * Open Half-Life: verification library

    Open Half-Life is a Rust port of a game whose data comes from an installer
    the user supplies. Everything read from that medium is untrusted, so it is
    parsed by a separate, sandboxed worker process that speaks a small binary
    protocol, OWP/1, with the parent. This library models that trust boundary
    from end to end: the protocol, the worker's service loop, and the whole
    parent side up to the session an importer drives; three of the archive formats
    the worker decodes, with their decompressors, down to the bytes of a file; the
    back ends that join them to the service; and the save files of the game.

    ** How the parts fit together

<<
      worker process                    |   parent process
                                        |
      Dispatcher (parser back ends)     |   ParserSession   parent_session.rs
         |                              |      |       |          |
      ParserWorkerService  service.rs   |   ResultSession  |   SourceReadBroker
         |                              |   Catalog       |        |
      session validator + codecs        |   session validator + codecs
         |                              |      |
      Transport  ==== OWP/1 frames ====== FrameChannel over ExactIo
>>

    Both peers run the same session validator over every header in both
    directions, and the same typed encoders and decoders over every payload.
    The worker asks the parent to read the medium for it ([read_request] and
    [read_reply]); the parent verifies the pinned source around each read. What
    the worker enumerates becomes a catalog only once it is complete and was
    checked entry by entry, and what it streams goes to the caller's sink.

    ** Conventions

    An unsigned integer of [w] bits is an [N] and [fits w n] says that it is in
    range; arithmetic the code checks is checked in the model ([Core.v]) and
    arithmetic it saturates or wraps is written out. [usize] has 64 bits. A byte
    is a [Byte.byte], a slice or a string (as UTF-8) a list of them. [Result<A,
    E>] is [result E A]. A method over [&mut self] is a computation of the state
    and error monad [M S E A], whose state is kept when it fails, as in the
    code; [zoom] runs a method of a field, [attempt] is a call whose [Result] is
    matched and not propagated. [wp] is the weakest precondition of a
    computation, and the tactic [wp_step] follows the code. Records have the
    code's fields, enumerations its variants, each with a prefix. Code outside
    the repository and resources of the operating system are classes with
    operations and, where something is relied upon, a class of laws, each with
    an executable instance: [HeaderImage] (the wire image the zerocopy crate
    gives a header), [Sha2] (the sha2 crate), [Toml] (toml), [Inflater] and
    [RawInflater] (miniz_oxide), the section codec of save files
    (postcard), [Transport], [Dispatcher], [ExactIo], [SourceOps], [ByteSink],
    [VolumeSource].

    ** The files

    Shared: [Prelude.v] (this file: results, options, the monad and its program
    logic, bytes and little-endian integers, list lemmas, tactics) and [Core.v]
    (ohl-core: error.rs, checked.rs, and hash.rs, the digest seam).

    Protocol, crate ohl-parser-protocol. [Protocol.v] is lib.rs: constants,
    message kinds and codes with their wire tables. [Payload.v] is payload.rs:
    the two sticky cursors; it proves that a script of reads accepts exactly the
    images a script of writes produces. [Frame.v] is frame.rs: the 32-byte
    header, and that decoding accepts exactly the images of legal frames.
    [Messages.v] is messages.rs without batches, and [Schemas.v] the contract
    all of its families satisfy: the encoder writes the image or nothing, the
    decoder accepts exactly the images, the two are inverse. [EntryBatch.v] is
    the batch family with its budgets. [Session.v] is session.rs: the validator,
    the automaton it refines, the pairing of requests and answers, budgets and
    identifiers, and the stickiness of its first failure.

    Worker, crate ohl-parser-worker-service. [Service.v] is capability.rs
    and service.rs: the whole lifetime [run_parser_worker_service],
    generic in transport and dispatcher. [ServiceTotal.v] proves that it ends,
    [ServiceDispatch.v] the discipline it keeps towards its dispatcher and the
    teardown of its transport on every path, [ServiceWire.v] that a clean
    lifetime is byte for byte a complete legal session. [ServiceSample.v]
    evaluates one and applies the theorems to it.

    Parent, crate ohl-import. [MediaPath.v] (path.rs of ohl-media-archive) is
    the path normaliser; [Catalog.v] (catalog.rs) the planner of an enumeration
    and the token index; [ResultSession.v] (result_session.rs) the validation
    of every worker result; [ResultRuns.v] its reachable states and end-to-end
    guarantees: a completed enumeration promotes exactly the plan of the batches
    received, a completed stream delivered exactly the planned bytes, the first
    failure is final. [SourceBroker.v] (source_read_broker.rs) answers reads:
    replies attest a verified source and stay within quotas. [FrameChannel.v]
    (io.rs, frame_channel.rs) frames a transport: the first failure is retained
    under every interleaving of the sections that hold its lock, what is sent is
    what is received. [Handshake.v] (handshake.rs) opens a session and leaves
    the proof a session is built from. [ParentSession.v] (parent_session.rs)
    composes them; [ParentPhases.v] proves that the phase in a session's type is
    the state of its validator in every session an importer can reach, and that
    a session that ended has no authority left.

    Import, crate ohl-payload. [PayloadPath.v] (path.rs) is the policy for
    destination names, [PayloadLayout.v] (layout.rs) plans destinations that no
    file system can confuse, in an order that does not depend on the input, and
    [PayloadSelection.v] (selection.rs) applies a user's recipe and proves what
    its published identity binds.

    Save files, crate ohl-save. [SaveBytes.v] holds the cursors, header and table rows, [SaveContainer.v]
    (container.rs) the writer and reader, [SaveFile.v] what they promise: which
    files [open] accepts, that sections are verified, that a finished file
    reads back as what was put in.

    Installer archives, crate ohl-isz. [Explode.v] (explode.rs) is the resumable
    decompressor with its codebooks; [ExplodeSpec.v] says what an imploded stream
    is, a prefix code of literals and back references, and follows the decoder
    through it bit by bit; [ExplodeRuns.v] concludes that pieces and budgets do
    not matter, that every stream is finished, and when the one-shot wrapper
    fails. [IszArchive.v] holds the rest of the crate (limits.rs, header.rs,
    source.rs, toc.rs, archive.rs); over a source that may read short,
    [IszRead.v] is the reader of an entry, [IszOpen.v] header, table of contents,
    [open_entry] and the search for the signature, and [IszSample.v] a container
    on which they run.

    Wise packages, crate ohl-wise. [WiseCrc.v] (crc32.rs) is the checksum, with
    what it detects; [Wise.v] the errors, limits, sources and sinks of the crate
    and the loop of a method; [WiseOverlay.v] (overlay.rs) finds the data behind
    a PE image. [WiseStream.v] (stream.rs) inflates one stream in bounded steps
    and [WiseInflate.v] proves, over a source that may fail and be tried again,
    that what is handed out is the decoding of exactly the bytes consumed.
    [WiseChain.v] (header.rs, chain.rs) walks the chain of streams, and
    [WiseWalk.v] states the walk as rules and proves that the code follows
    them, and what measuring and locating do over a source that stays where it
    is. [WiseScript.v] (script.rs) recognises file records and
    [WiseExtract.v] (extract.rs) maps them to streams. [WisePackage.v]
    (package.rs) is the pass over a whole package; [WiseMemory.v] says what it
    reports of an image in memory, [WiseRead.v] joins it to reading a file out
    of the package, and [WiseSample.v] runs all of it on a small package.

    Back ends, crate ohl-parser-backends. [BackendWindow.v] (window.rs) is the
    window that turns a decoder's reads into requests of the protocol, and
    [BackendSpelling.v] (spelling.rs) decides which recorded names are offered.
    [BackendWise.v] (wise.rs) is the Wise back end, the walk of a package as a
    state machine over that window: a call advances one bounded unit, and where
    the window misses it arms a read and is called again. [BackendMimic.v] shows
    that a call over the window does what it does over the source in memory or
    stops at a miss, [BackendAlike.v] that the pinned calls do not tell the two
    apart. [BackendWalk.v], [BackendScript.v] and [BackendReady.v] follow the
    stages, the parent answering each read, and conclude that the back end comes
    to an end and in which state. [BackendAgree.v] compares it with the blocking
    reader of [WisePackage.v], and [BackendEntries.v] says what is offered. The
    hypotheses ([servable_source]) are that the PE headers end within the window
    and that a chunk is no larger than the window; without the first the worker
    panics ([overlay_stage_panics]). What the first stream needs is stated where it
    matters ([located_in_window]). [BackendBuffer.v] (buffered.rs) holds a
    container that is read whole and the InstallShield 3 back end over it; the
    Microsoft cabinet back end is a class there and an instance in
    [BackendCabinet.v], which says exactly which files it extracts, where their
    folder lies whole in the cabinet. [BackendDispatcher.v] (dispatcher.rs)
    is the dispatcher of the shipped worker, the [Dispatcher] the service is
    proved over: it recognises the container, offers its entries in batches and
    streams them. [BackendServe.v] drives it with a parent that answers each
    read and says what its loops offer, [BackendEnumerate.v] follows the stages of
    an enumeration and [BackendImport.v] concludes what a whole one offers;
    [BackendStream.v] follows a stream that inflates over the window. The three
    guarantees are in [BackendDispatch.v]: an enumeration offers what the
    container resolves to, and a stream delivers the entry that was offered.
    [BackendSample.v] applies all of it to small containers.

    Microsoft cabinets, crate ohl-mscab. [CabFormat.v] holds the errors, limits,
    field reader and volumes of the crate and its tables (cabinet.rs), and
    [CabParse.v] says which images have them: parsing accepts exactly those.
    [CabMszip.v] (mszip.rs) decodes a block with the raw inflater, [CabLzx.v]
    (lzx.rs) is the LZX decoder. [CabWindow.v] proves that it ends, stays in
    bounds and that its window is the history. [CabBits.v] reads a block as bits,
    independently of the decoder's bit buffer, with canonical prefix codes read
    off their lengths, and [CabBlocks.v] says in these terms what the fields,
    trees and tokens of a block mean ([lzx_meaning]); the decoder, in debug and
    release builds, yields that meaning or refuses a block that has none, for
    windows up to 2^19 bytes, whose offsets fit a read. [CabExtract.v] (data.rs, extract.rs) verifies data
    blocks and reads a folder as one stream, across segments and volumes, and a
    file as a range of it. [CabContents.v] specifies what a folder holds and
    that a stream follows it; [CabFile.v] concludes that extraction delivers
    exactly the file's range, or that the folder cannot be decoded that far.
    [CabWriter.v] (lzx_writer.rs) is the encoder of the crate's tests, whose
    translation of x86 calls the decoder undoes, and [CabSample.v] runs decoder
    against encoder.

    ** Fuel and bounds

    The loops that are not structural take fuel. The service loop [run] takes fuel, and
    [None] is running out of it: [service_terminates] gives a bound computed
    from the limits ([service_fuel]) with which it always returns, and more
    fuel changes nothing. The binary search of [catalog_find] takes the length
    of the list as fuel, which halves in every step; [catalog_find_exact] is
    proved through it, so it cannot stop early. In the archive crate a refill
    takes a turn for each bit needed, the token loop one for each byte of the
    output budget, an exact read or a window one for each byte of its buffer and
    a scan one for each byte of its budget; their lemmas carry these bounds, so
    none of them is cut short. A loop of the Wise reader
    ([loop_W]) has the fuel [WISE_FUEL], two to the power 72 as a binary number,
    more than the 64-bit counters that bound its turns can take: [loop_W_wp] asks
    for a measure below it that falls with every turn, so running out is
    excluded wherever it is used. The scan of a script takes a turn for each
    byte. A step of the dispatcher takes fuel for the turns of its loop;
    [serves_to] asks that some number of turns is enough and that more change
    nothing. [explode_to_vec] needs one turn
    ([explode_to_vec_exact]), and [isz_entry_read] bounds the turns of the reader
    by the recorded sizes. All other recursion is structural.

    ** What modelling showed

    The planner's check that no file is a directory of another looks at
    neighbours in byte order only, and a name that continues with a byte below
    the slash can stand between them: the example [plan_catalog_misses_alias] is a
    planned catalog with such an alias, and [plan_catalog_aliases] shows that
    nothing else is missed. Over a source window the broker's policy is the
    whole medium's and not the one of the handshake. A cancelling session never
    reports a read reply, although it has a step for it. A reader of an archive
    entry whose source failed hands the zeros it had made room for to the next
    caller ([failed_read_serves_zeros]). A decoder of an
    imploded stream that is fed single bytes never gets past the header, which it
    wants whole (the example [single_bytes_stick]; [explode_finishes] asks for
    pieces of six bytes). [explode_to_vec] calls a well-formed
    stream malformed when its expansion leaves less than one match of room. The
    rules of a payload path are tried in another order than documented, and
    selection depends on the order of entries that share token and destination.
    The aliases the catalog misses are refused by layout planning, which is exact
    ([plan_payload_layout_exact]). The worker's own filter of names has the same
    gap (the example [accept_misses_alias]; [accept_exact] says what the filter
    does), so that it can offer an enumeration the parent
    refuses. The pinned window of the header walk panics on an executable whose
    header lies behind it ([overlay_stage_panics]). Between origins of stored
    offsets that explain equally many records the last one wins
    ([choose_origin_best]). The Wise back end finds the first stream within one
    window, so it passes over a package whose first stream is longer, which the
    blocking reader accepts ([located_in_window]). Under a policy that allows
    only reads shorter than the smallest window the dispatcher asks for a read
    the protocol refuses ([small_policy_refused]). Offsets of the largest LZX
    windows are read with more bits than the bit buffer takes: a release build
    reads them out of place ([wide_read_garbled]), a debug build panics
    ([wide_read_asserts]); a cabinet stream read on after a refused block panics
    ([read_after_failure_panics]); and a file of a folder that another cabinet
    begins is not refused but read from the wrong place
    ([continued_file_extracted]).

    ** Not modelled

    Deadlines, the cancellation flag and thread scheduling are part of what a
    transport answers; the mutex of a frame channel is modelled by its sections.
    Processes, the pinned file and directory publication (ohl-platform,
    pipeline.rs, process_session.rs) are bindings to the operating system.
    Allocation does not fail in the cabinet decoder, and the cabinet builder of
    its tests (test_support.rs) is left out. The InstallShield cabinet formats
    (ohl-cabinet, ohl-cabinet-format), save slots and the parent's source window
    are candidates for extension; staging and publishing a payload are
    file-system transactions. The game itself (formats, simulation, engine, rendering,
    interface) is not modelled; the manifest lists its parts. *)

From Stdlib Require Export Sorting.Sorted Init.Byte.
From Stdlib.Strings Require Byte.
From stdpp Require Export base tactics option list numbers.

#[global] Open Scope N_scope.

(** ** Rust's [Result] *)

(** [Result<A, E>], error type first so that [result E] is a monad. *)
Inductive result (E A : Type) : Type :=
| Ok (a : A)
| Err (e : E).

Arguments Ok {E A} a.
Arguments Err {E A} e.

#[export] Instance result_ret E : MRet (result E) := λ A a, Ok a.
#[export] Instance result_bind E : MBind (result E) := λ A B k m,
  match m with Ok a => k a | Err e => Err e end.
#[export] Instance result_fmap E : FMap (result E) := λ A B f m,
  match m with Ok a => Ok (f a) | Err e => Err e end.

(** [Result::map_err], [Option::ok_or] and [Result::is_ok_and]. *)
Definition map_err {E F A} (f : E → F) (m : result E A) : result F A :=
  match m with Ok a => Ok a | Err e => Err (f e) end.

Definition ok_or {E A} (o : option A) (e : E) : result E A :=
  match o with Some a => Ok a | None => Err e end.

Definition is_ok_and {E A} (m : result E A) (p : A → bool) : bool :=
  match m with Ok a => p a | Err _ => false end.

(** [if c { return Err(e) }] as a statement. *)
Definition guard_err {E} (c : bool) (e : E) : result E unit :=
  if c then Err e else Ok tt.

#[export] Instance result_eq_dec {E A} `{EqDecision E, EqDecision A} :
  EqDecision (result E A).
Proof. solve_decision. Defined.

(** ** Methods over [&mut self]

    [M S E A] is a Rust method that takes [&mut S] and returns [Result<A, E>]:
    the state survives an error, as a Rust mutation before a [return Err]
    does. *)
Definition M (S E A : Type) : Type := S → S * result E A.

#[export] Instance M_ret S E : MRet (M S E) := λ A a s, (s, Ok a).
#[export] Instance M_bind S E : MBind (M S E) := λ A B k m s,
  match m s with
  | (s', Ok a) => k a s'
  | (s', Err e) => (s', Err e)
  end.

Definition get {S E} : M S E S := λ s, (s, Ok s).
Definition modify {S E} (f : S → S) : M S E unit := λ s, (f s, Ok tt).
Definition throw {S E A} (e : E) : M S E A := λ s, (s, Err e).

(** A method whose [Result] is inspected with [match] rather than [?]. *)
Definition attempt {S E F A} (m : M S E A) : M S F (result E A) :=
  λ s, let '(s', r) := m s in (s', Ok r).

(** A [Result] computed without touching the state, used with [?]. *)
Definition lift {S E A} (m : result E A) : M S E A := λ s, (s, m).

(** A method of a field of the state. *)
Definition zoom {S S' E A} (view : S → S') (put : S' → S → S) (m : M S' E A) : M S E A :=
  λ s, let '(s', r) := m (view s) in (put s' s, r).

(** [.map_err(f)?] on a method call. *)
Definition map_errM {S E F A} (f : E → F) (m : M S E A) : M S F A :=
  λ s, let '(s', r) := m s in (s', map_err f r).

(** ** Unsigned machine integers

    A [w]-bit unsigned integer is an [N]; [u8]..[u64] and [usize] (64 bits)
    are recorded by [fits w]. *)
Definition fits (w v : N) : Prop := v < 2 ^ w.

#[export] Instance fits_dec w v : Decision (fits w v) := N.lt_dec v (2 ^ w).

(** [checked_add], [checked_sub] and [checked_mul]. *)
Definition checked_add (w a b : N) : option N :=
  if a + b <? 2 ^ w then Some (a + b) else None.
Definition checked_sub (a b : N) : option N :=
  if b <=? a then Some (a - b) else None.
Definition checked_mul (w a b : N) : option N :=
  if a * b <? 2 ^ w then Some (a * b) else None.

(** The arithmetic of [+], [-] in a build without overflow checks, and of
    [wrapping_add], [saturating_add]. *)
Definition wrapping_add (w a b : N) : N := (a + b) mod 2 ^ w.
Definition wrapping_sub (w a b : N) : N := (a + (2 ^ w - b mod 2 ^ w)) mod 2 ^ w.
Definition saturating_add (w a b : N) : N := N.min (a + b) (2 ^ w - 1).

(** [uN::try_from] out of a wider unsigned type. *)
Definition try_from (w v : N) : option N := if v <? 2 ^ w then Some v else None.

(** ** Bytes and slices *)

#[export] Instance byte_eq_dec : EqDecision byte := Byte.byte_eq_dec.

(** [slice.len()] as a [usize]. *)
Definition len {A} (l : list A) : N := N.of_nat (length l).

(** [l[start..start + size]], which the callers keep in range. *)
Definition subslice {A} (start size : N) (l : list A) : list A :=
  take (N.to_nat size) (drop (N.to_nat start) l).

(** [l.get(start..end)]. *)
Definition get_range {A} (start stop : N) (l : list A) : option (list A) :=
  if (start <=? stop) && (stop <=? len l) then Some (subslice start (stop - start) l)
  else None.

(** [l[at..at + v.len()].copy_from_slice(v)]. *)
Definition splice {A} (at_ : N) (v l : list A) : list A :=
  take (N.to_nat at_) l ++ v ++ drop (N.to_nat at_ + length v) l.

(** [let d = destination.get_mut(..n).ok_or(e)?; body(d)]: [body] mutates the
    prefix, the rest of the buffer is not reachable from it. *)
Definition in_prefix {A E B} (n : N) (e : E) (body : M (list A) E B) : M (list A) E B :=
  λ dest,
    if n <=? len dest then
      let '(d, r) := body (take (N.to_nat n) dest) in
      (d ++ drop (N.to_nat n) dest, r)
    else (dest, Err e).

(** [to_le_bytes] and [from_le_bytes]. *)
Definition byte_of_N (v : N) : byte :=
  match Byte.of_N (v mod 256) with Some b => b | None => x00 end.

Fixpoint le_bytes (n : nat) (v : N) : list byte :=
  match n with
  | O => []
  | S n => byte_of_N v :: le_bytes n (v / 256)
  end.

Fixpoint of_le_bytes (l : list byte) : N :=
  match l with
  | [] => 0
  | b :: l => Byte.to_N b + 256 * of_le_bytes l
  end.

(** ** Monad laws and inversion *)

Lemma bind_Ok {E A B} (m : result E A) (k : A → result E B) b :
  m ≫= k = Ok b ↔ ∃ a, m = Ok a ∧ k a = Ok b.
Proof. destruct m; naive_solver. Qed.

Lemma bind_Err {E A B} (m : result E A) (k : A → result E B) e :
  m ≫= k = Err e ↔ m = Err e ∨ ∃ a, m = Ok a ∧ k a = Err e.
Proof. destruct m; naive_solver. Qed.

Lemma M_bind_Ok {S E A B} (m : M S E A) (k : A → M S E B) s s' b :
  (m ≫= k) s = (s', Ok b) ↔ ∃ s1 a, m s = (s1, Ok a) ∧ k a s1 = (s', Ok b).
Proof. unfold mbind, M_bind. destruct (m s) as [? [|]]; naive_solver. Qed.

Lemma M_bind_Err {S E A B} (m : M S E A) (k : A → M S E B) s s' e :
  (m ≫= k) s = (s', Err e) ↔
  m s = (s', Err e) ∨ ∃ s1 a, m s = (s1, Ok a) ∧ k a s1 = (s', Err e).
Proof. unfold mbind, M_bind. destruct (m s) as [? [|]]; naive_solver. Qed.

Lemma M_bind_step {S E A B} (m : M S E A) (k : A → M S E B) s s1 a :
  m s = (s1, Ok a) → (m ≫= k) s = k a s1.
Proof. unfold mbind, M_bind. by intros ->. Qed.

Lemma M_bind_fail {S E A B} (m : M S E A) (k : A → M S E B) s s1 e :
  m s = (s1, Err e) → (m ≫= k) s = (s1, Err e).
Proof. unfold mbind, M_bind. by intros ->. Qed.

Lemma guard_err_Ok {E} (c : bool) (e : E) u : guard_err c e = Ok u ↔ c = false.
Proof. destruct c, u; naive_solver. Qed.

Lemma guard_seq {E A} c (e : E) (k : result E A) a :
  (guard_err c e;; k) = Ok a ↔ c = false ∧ k = Ok a.
Proof. destruct c; naive_solver. Qed.

Lemma map_err_Ok {E F A} (f : E → F) (m : result E A) a : map_err f m = Ok a ↔ m = Ok a.
Proof. destruct m; naive_solver. Qed.

Lemma ok_or_Ok {E A} (o : option A) (e : E) a : ok_or o e = Ok a ↔ o = Some a.
Proof. destruct o; naive_solver. Qed.

(** ** Weakest preconditions

    [wp m Q R s]: run from [s], the method ends in a state satisfying [Q] on
    success and [R] on an error. *)
Definition wp {S E A} (m : M S E A) (Q : A → S → Prop) (R : E → S → Prop) (s : S) : Prop :=
  match m s with (s', Ok a) => Q a s' | (s', Err e) => R e s' end.

Section wp.
Context {S E : Type}.
Implicit Types s : S.

Lemma wp_bind {A B} (m : M S E A) (k : A → M S E B) Q R s :
  wp m (λ a, wp (k a) Q R) R s → wp (m ≫= k) Q R s.
Proof. unfold wp, mbind, M_bind. by destruct (m s) as [s' [a|e]]. Qed.

Lemma wp_ret {A} (a : A) (Q : A → S → Prop) (R : E → S → Prop) s : Q a s → wp (mret a) Q R s.
Proof. done. Qed.
Lemma wp_get (Q : S → S → Prop) (R : E → S → Prop) s : Q s s → wp get Q R s.
Proof. done. Qed.
Lemma wp_modify f (Q : unit → S → Prop) (R : E → S → Prop) s :
  Q tt (f s) → wp (modify f) Q R s.
Proof. done. Qed.
Lemma wp_throw {A} (e : E) (Q : A → S → Prop) (R : E → S → Prop) s : R e s → wp (throw e) Q R s.
Proof. done. Qed.
Lemma wp_lift {A} (m : result E A) (Q : A → S → Prop) (R : E → S → Prop) s :
  (∀ a, m = Ok a → Q a s) → (∀ e, m = Err e → R e s) → wp (lift m) Q R s.
Proof. unfold wp, lift. destruct m; auto. Qed.
Lemma wp_zoom {S' A} (view : S → S') put (m : M S' E A) Q R s :
  wp m (λ a t, Q a (put t s)) (λ e t, R e (put t s)) (view s) → wp (zoom view put m) Q R s.
Proof. unfold wp, zoom. by destruct (m (view s)) as [s' [a|e]]. Qed.
Lemma wp_map_errM {F A} (f : F → E) (m : M S F A) Q R s :
  wp m Q (λ e, R (f e)) s → wp (map_errM f m) Q R s.
Proof. unfold wp, map_errM. by destruct (m s) as [s' [a|e]]. Qed.
Lemma wp_attempt {F A} (m : M S F A) (Q : result F A → S → Prop) (R : E → S → Prop) s :
  wp m (λ a, Q (Ok a)) (λ e, Q (Err e)) s → wp (attempt m) Q R s.
Proof. unfold wp, attempt. by destruct (m s) as [s' [a|e]]. Qed.
Lemma wp_mono {A} (m : M S E A) (Q Q' : A → S → Prop) (R R' : E → S → Prop) s :
  wp m Q R s → (∀ a s', Q a s' → Q' a s') → (∀ e s', R e s' → R' e s') → wp m Q' R' s.
Proof. unfold wp. destruct (m s) as [s' [a|e]]; auto. Qed.

(** The run itself, as a weakest precondition's strongest premise. *)
Lemma wp_run {A} (m : M S E A) (Q : A → S → Prop) (R : E → S → Prop) s :
  (∀ a s', m s = (s', Ok a) → Q a s') → (∀ e s', m s = (s', Err e) → R e s') → wp m Q R s.
Proof. unfold wp. destruct (m s) as [s' [a|e]]; auto. Qed.
End wp.

(** *** Relations every run respects

    [keeps Rel m]: whatever the outcome, the final state is [Rel]-reachable
    from the initial one. *)
Definition keeps {S E A} (Rel : S → S → Prop) (m : M S E A) : Prop := ∀ s, Rel s (fst (m s)).

Section keeps.
Context {S E : Type} (Rel : S → S → Prop) `{!PreOrder Rel}.

Lemma keeps_bind {A B} (m : M S E A) (k : A → M S E B) :
  keeps Rel m → (∀ a, keeps Rel (k a)) → keeps Rel (m ≫= k).
Proof.
  intros Hm Hk s. unfold mbind, M_bind. specialize (Hm s).
  destruct (m s) as [s1 [a|e]]; [|done]. etrans; [exact Hm|apply Hk].
Qed.
Lemma keeps_pure {A} (m : result E A) : keeps Rel (lift m).
Proof. by intros s. Qed.
Lemma keeps_ret {A} (a : A) : keeps Rel (mret a : M S E A).
Proof. by intros s. Qed.
Lemma keeps_throw {A} (e : E) : keeps Rel (throw e : M S E A).
Proof. by intros s. Qed.
Lemma keeps_get : keeps Rel (get : M S E S).
Proof. by intros s. Qed.
Lemma keeps_modify f : (∀ s, Rel s (f s)) → keeps Rel (modify f : M S E unit).
Proof. by intros Hf s. Qed.
Lemma keeps_map_errM {F A} (f : F → E) (m : M S F A) : keeps Rel m → keeps Rel (map_errM f m).
Proof. intros Hm s. specialize (Hm s). unfold map_errM. by destruct (m s). Qed.
Lemma keeps_zoom {T A} (RelT : T → T → Prop) view put (m : M T E A) :
  keeps RelT m → (∀ s t, RelT (view s) t → Rel s (put t s)) → keeps Rel (zoom view put m).
Proof.
  intros Hm Hput s. unfold zoom. specialize (Hm (view s)).
  destruct (m (view s)) as [t r]. by apply Hput.
Qed.
End keeps.

Ltac keeps_step :=
  lazymatch goal with
  | |- keeps _ (_ ≫= _) => apply keeps_bind; [apply _|..|intro]
  | |- keeps _ (lift _) => apply keeps_pure; apply _
  | |- keeps _ (mret _) => apply keeps_ret; apply _
  | |- keeps _ (throw _) => apply keeps_throw; apply _
  | |- keeps _ get => apply keeps_get; apply _
  | |- keeps _ (modify _) => apply keeps_modify; intro
  | |- keeps _ (map_errM _ _) => apply keeps_map_errM
  | |- keeps _ (let '(_, _) := ?x in _) => destruct x
  | |- keeps _ (if ?c then _ else _) => destruct c
  | |- keeps _ (match ?x with _ => _ end) => destruct x
  end.

(** One step of a monadic method under [wp]. *)
Ltac wp_step :=
  match goal with
  | |- wp (_ ≫= _) _ _ _ => apply wp_bind
  | |- wp (mret _) _ _ _ => apply wp_ret
  | |- wp get _ _ _ => apply wp_get
  | |- wp (modify _) _ _ _ => apply wp_modify
  | |- wp (throw _) _ _ _ => apply wp_throw
  | |- wp (zoom _ _ _) _ _ _ => apply wp_zoom
  | |- wp (map_errM _ _) _ _ _ => apply wp_map_errM
  | |- wp (attempt _) _ _ _ => apply wp_attempt
  end.

(** ** Machine integers *)

Lemma checked_add_Some w a b c : checked_add w a b = Some c ↔ a + b < 2 ^ w ∧ c = a + b.
Proof. unfold checked_add. destruct (N.ltb_spec (a + b) (2 ^ w)); naive_solver lia. Qed.

Lemma checked_sub_Some a b c : checked_sub a b = Some c ↔ b ≤ a ∧ c = a - b.
Proof. unfold checked_sub. destruct (N.leb_spec b a); naive_solver lia. Qed.

Lemma try_from_Some w v c : try_from w v = Some c ↔ v < 2 ^ w ∧ c = v.
Proof. unfold try_from. destruct (N.ltb_spec v (2 ^ w)); naive_solver lia. Qed.

Lemma wrapping_add_small w a b : a + b < 2 ^ w → wrapping_add w a b = a + b.
Proof. intros. by apply N.mod_small. Qed.

Lemma wrapping_sub_small w a b : b ≤ a → a < 2 ^ w → wrapping_sub w a b = a - b.
Proof.
  intros Hb Ha. unfold wrapping_sub. rewrite (N.mod_small b) by lia.
  replace (a + (2 ^ w - b)) with ((a - b) + 1 * 2 ^ w) by lia.
  rewrite N.Div0.mod_add. apply N.mod_small. lia.
Qed.

(** ** Bytes *)

(** Disjoint bits add up. *)
Lemma lor_shiftl a b n : a < 2 ^ n → N.lor a (N.shiftl b n) = a + 2 ^ n * b.
Proof.
  intros Ha. assert (N.land a (N.shiftl b n) = 0) as Hl.
  { apply N.bits_inj_0. intros i. rewrite N.land_spec. destruct (N.lt_ge_cases i n) as [Hi|Hi].
    - by rewrite N.shiftl_spec_low, andb_false_r.
    - rewrite <-(N.mod_small _ _ Ha), N.mod_pow2_bits_high by done. done. }
  rewrite <-N.lxor_lor, <-N.add_nocarry_lxor by done. by rewrite N.shiftl_mul_pow2, (N.mul_comm b).
Qed.

Lemma byte_to_N_lt b : Byte.to_N b < 256.
Proof. pose proof (Byte.to_N_bounded b). lia. Qed.

Lemma byte_of_to_N b : byte_of_N (Byte.to_N b) = b.
Proof.
  unfold byte_of_N. rewrite N.mod_small by apply byte_to_N_lt. by rewrite Byte.of_to_N.
Qed.

Lemma byte_to_of_N v : Byte.to_N (byte_of_N v) = v mod 256.
Proof.
  unfold byte_of_N. destruct (Byte.of_N (v mod 256)) as [b|] eqn:E.
  - by apply Byte.to_of_N.
  - apply Byte.of_N_None_iff in E. pose proof (N.mod_lt v 256). lia.
Qed.

Lemma length_le_bytes n v : length (le_bytes n v) = n.
Proof. revert v; induction n; intros; simpl; auto. Qed.

Lemma of_le_bytes_lt l : of_le_bytes l < 256 ^ len l.
Proof.
  unfold len. induction l as [|b l IH]; simpl length; [cbn; lia|].
  rewrite Nat2N.inj_succ, N.pow_succ_r'. cbn [of_le_bytes].
  pose proof (byte_to_N_lt b). lia.
Qed.

Lemma of_le_bytes_le_bytes n v : of_le_bytes (le_bytes n v) = v mod 256 ^ N.of_nat n.
Proof.
  revert v; induction n as [|n IH]; intros v.
  - cbn. by rewrite N.mod_1_r.
  - cbn [le_bytes of_le_bytes]. rewrite IH, byte_to_of_N, Nat2N.inj_succ, N.pow_succ_r'.
    by rewrite N.Div0.mod_mul_r.
Qed.

Lemma le_bytes_of_le_bytes l : le_bytes (length l) (of_le_bytes l) = l.
Proof.
  induction l as [|b l IH]; [done|]. cbn [length le_bytes of_le_bytes].
  pose proof (byte_to_N_lt b).
  assert ((Byte.to_N b + 256 * of_le_bytes l) / 256 = of_le_bytes l) as ->.
  { rewrite N.mul_comm, N.div_add, N.div_small by lia. lia. }
  rewrite IH. f_equal. rewrite <- (byte_of_to_N b) at 2. unfold byte_of_N.
  rewrite N.mul_comm, N.Div0.mod_add. done.
Qed.

Lemma of_le_bytes_id (n : nat) w v :
  w = 8 * N.of_nat n → fits w v → of_le_bytes (le_bytes n v) = v.
Proof.
  intros -> Hv. rewrite of_le_bytes_le_bytes. apply N.mod_small.
  unfold fits in Hv. by rewrite N.pow_mul_r in Hv.
Qed.

Lemma le_bytes_inj_len n (l : list byte) :
  length l = n → le_bytes n (of_le_bytes l) = l.
Proof. intros <-. apply le_bytes_of_le_bytes. Qed.

Lemma of_le_bytes_fits n (l : list byte) : length l = n → fits (8 * N.of_nat n) (of_le_bytes l).
Proof.
  intros <-. unfold fits. rewrite N.pow_mul_r. apply of_le_bytes_lt.
Qed.

Lemma of_le_bytes_singleton b : of_le_bytes [b] = Byte.to_N b.
Proof. cbn. lia. Qed.

#[global] Opaque le_bytes of_le_bytes.

(** ** Slices *)

Lemma len_nil {A} : len (A:=A) [] = 0.
Proof. done. Qed.
Lemma len_cons {A} (x : A) l : len (x :: l) = 1 + len l.
Proof. unfold len. simpl length. lia. Qed.
Lemma len_app {A} (l k : list A) : len (l ++ k) = len l + len k.
Proof. unfold len. rewrite length_app. lia. Qed.
Lemma len_le_bytes n v : len (le_bytes n v) = N.of_nat n.
Proof. unfold len. by rewrite length_le_bytes. Qed.
Lemma len_0_nil {A} (l : list A) : len l = 0 ↔ l = [].
Proof. unfold len. destruct l; simpl; naive_solver lia. Qed.

Lemma len_to_nat {A} (l : list A) : N.to_nat (len l) = length l.
Proof. unfold len. lia. Qed.

Lemma len_take_le {A} n (l : list A) : n ≤ len l → len (take (N.to_nat n) l) = n.
Proof. unfold len. intros. rewrite length_take. lia. Qed.

Lemma len_subslice {A} start size (l : list A) :
  start + size ≤ len l → len (subslice start size l) = size.
Proof. unfold len, subslice. intros. rewrite length_take, length_drop. lia. Qed.

Lemma subslice_app_mid {A} (l k m : list A) : subslice (len l) (len k) (l ++ k ++ m) = k.
Proof. unfold subslice. by rewrite !len_to_nat, drop_app_length, take_app_length. Qed.

Lemma subslice_app_r {A} (l k : list A) : subslice (len l) (len k) (l ++ k) = k.
Proof. unfold subslice. rewrite !len_to_nat, drop_app_length. by apply take_ge. Qed.

Lemma get_range_Some {A} start stop (l k : list A) :
  get_range start stop l = Some k ↔
  start ≤ stop ∧ stop ≤ len l ∧ k = subslice start (stop - start) l.
Proof.
  unfold get_range.
  destruct (N.leb_spec start stop), (N.leb_spec stop (len l)); simpl; naive_solver lia.
Qed.

Lemma length_splice {A} at_ (v l : list A) :
  at_ + len v ≤ len l → length (splice at_ v l) = length l.
Proof. unfold splice, len. intros. rewrite !length_app, length_take, length_drop. lia. Qed.

Lemma splice_nil {A} at_ (l : list A) : splice at_ [] l = l.
Proof. unfold splice. simpl. rewrite Nat.add_0_r. apply take_drop. Qed.

Lemma splice_app {A} at_ (v w l : list A) :
  at_ + len v + len w ≤ len l →
  splice (at_ + len v) w (splice at_ v l) = splice at_ (v ++ w) l.
Proof.
  unfold splice, len. intros Hle.
  replace (N.to_nat (at_ + N.of_nat (length v))) with (N.to_nat at_ + length v)%nat by lia.
  rewrite !app_assoc, take_app_le.
  - rewrite take_ge by (rewrite length_app, length_take; lia).
    rewrite drop_app_ge by (rewrite length_app, length_take; lia).
    rewrite length_app, length_take, drop_drop, length_app.
    rewrite <-!app_assoc. do 3 f_equal. f_equal. lia.
  - rewrite length_app, length_take. lia.
Qed.

Lemma splice_full {A} (v l : list A) : length v = length l → splice 0 v l = v.
Proof. intros E. unfold splice. simpl. rewrite drop_ge by lia. apply app_nil_r. Qed.

(** ** Sliding windows

    What a match appends to what was produced so far: it copies byte by byte, so
    that it may overlap what it produces. *)
Fixpoint copied (length : nat) (distance : N) (out : list byte) : option (list byte) :=
  match length with
  | O => Some out
  | S length =>
      if (1 <=? distance) && (distance <=? len out) then
        b ← out !! N.to_nat (len out - distance);
        copied length distance (out ++ [b])
      else None
  end.

(** Two places of a ring that are close enough are not the same. *)
Lemma mod_distinct j l m : j < l → l < j + m → j mod m ≠ l mod m.
Proof.
  intros Hj Hl E. assert (m ≠ 0) as Hm by lia.
  pose proof (N.div_mod j m Hm). pose proof (N.div_mod l m Hm). rewrite E in *.
  assert (l / m ≤ j / m ∨ j / m + 1 ≤ l / m) as [H1|H1] by lia; nia.
Qed.

(** ** Automation *)

Create HintDb ohl.
Create Rewrite HintDb ohl.

#[export] Hint Rewrite @len_nil @len_cons @len_app len_le_bytes @len_to_nat length_le_bytes : ohl.

(** Splits a successful run of a monadic method into its steps. *)
Ltac inv_run :=
  repeat match goal with
  | H : mbind _ _ _ = (_, Ok _) |- _ => apply M_bind_Ok in H as (? & ? & ? & ?)
  | H : mbind _ _ = Ok _ |- _ => apply bind_Ok in H as (? & ? & ?)
  | H : guard_err _ _ = Ok _ |- _ => apply guard_err_Ok in H
  | H : map_err _ _ = Ok _ |- _ => apply map_err_Ok in H
  | H : ok_or _ _ = Ok _ |- _ => apply ok_or_Ok in H
  | H : lift _ _ = (_, Ok _) |- _ => unfold lift in H
  | H : mret _ _ = (_, Ok _) |- _ => unfold mret, M_ret in H
  | H : mret _ = Ok _ |- _ => unfold mret, result_ret in H
  | H : (_, _) = (_, _) |- _ => injection H as ? ?; subst
  | H : Ok _ = Ok _ |- _ => injection H as ?; subst
  | H : Err _ = Ok _ |- _ => discriminate H
  end.

(** Unfolds the monad of [&mut self] methods. *)
Ltac run_M :=
  cbv beta iota zeta delta [mbind M_bind mret M_ret get modify throw lift attempt zoom map_errM].
Tactic Notation "run_M" "in" hyp(H) :=
  cbv beta iota zeta delta [mbind M_bind mret M_ret get modify throw lift attempt zoom map_errM] in H.

(** Case analysis on a comparison of the goal. *)
Ltac case_cmp :=
  match goal with
  | |- context [?a <? ?b] => destruct (N.ltb_spec a b)
  | |- context [?a <=? ?b] => destruct (N.leb_spec a b)
  | |- context [?a =? ?b] => destruct (N.eqb_spec a b)
  end.

(** Turns the boolean tests of the code into propositions. *)
Ltac bool_to_prop :=
  repeat match goal with
  | H : _ || _ = false |- _ => apply orb_false_iff in H as [? ?]
  | H : _ && _ = true |- _ => apply andb_true_iff in H as [? ?]
  | H : negb _ = true |- _ => apply negb_true_iff in H
  | H : negb _ = false |- _ => apply negb_false_iff in H
  | H : (_ <=? _) = true |- _ => apply N.leb_le in H
  | H : (_ <=? _) = false |- _ => apply N.leb_gt in H
  | H : (_ <? _) = true |- _ => apply N.ltb_lt in H
  | H : (_ <? _) = false |- _ => apply N.ltb_ge in H
  | H : (_ =? _) = true |- _ => apply N.eqb_eq in H
  | H : (_ =? _) = false |- _ => apply N.eqb_neq in H
  | H : bool_decide _ = true |- _ => apply bool_decide_eq_true in H
  | H : bool_decide _ = false |- _ => apply bool_decide_eq_false in H
  end.
