(* ===== verification/Core.v ===== *)
(** * [ohl-core]: sanitized errors, bounded arithmetic and the digest seam

    [crates/ohl-core/src/error.rs], [checked.rs] and [hash.rs]: the payload-free
    error codes shared by every crate, the checked operations they report, and
    the wrapper around the digest. *)

From S2P Require Export Prelude.

(** [SanitizedError]. *)
Inductive SanitizedError : Type :=
| SE_ArithmeticOverflow
| SE_ArithmeticUnderflow
| SE_InvalidInput
| SE_NotFound
| SE_Unsupported
| SE_Internal.

#[export] Instance SanitizedError_eq_dec : EqDecision SanitizedError.
Proof. solve_decision. Defined.

(** [impl CheckedArithmetic for uN]: the macro body for the unsigned types,
    [w] being the width ([64] for [usize]). *)
Definition checked_add_bounded (w a b : N) : result SanitizedError N :=
  ok_or (checked_add w a b) SE_ArithmeticOverflow.

Definition checked_sub_bounded (a b : N) : result SanitizedError N :=
  ok_or (checked_sub a b) SE_ArithmeticUnderflow.

Definition checked_mul_bounded (w a b : N) : result SanitizedError N :=
  ok_or (checked_mul w a b) SE_ArithmeticOverflow.

(** The generic [ohl_core::checked::{add, sub, mul}]. *)
Definition checked_add_fn := checked_add_bounded.
Definition checked_sub_fn := checked_sub_bounded.
Definition checked_mul_fn := checked_mul_bounded.

Lemma checked_add_bounded_Ok w a b c :
  checked_add_bounded w a b = Ok c ↔ a + b < 2 ^ w ∧ c = a + b.
Proof. unfold checked_add_bounded. by rewrite ok_or_Ok, checked_add_Some. Qed.

Lemma checked_sub_bounded_Ok a b c :
  checked_sub_bounded a b = Ok c ↔ b ≤ a ∧ c = a - b.
Proof. unfold checked_sub_bounded. by rewrite ok_or_Ok, checked_sub_Some. Qed.

Lemma checked_add_bounded_Err w a b e :
  checked_add_bounded w a b = Err e ↔ 2 ^ w ≤ a + b ∧ e = SE_ArithmeticOverflow.
Proof.
  unfold checked_add_bounded, checked_add.
  destruct (N.ltb_spec (a + b) (2 ^ w)); simpl; naive_solver lia.
Qed.

(** * The digest seam

    [crates/ohl-core/src/hash.rs]: [StreamingSha256], the wrapper through which
    the workspace reaches the [sha2] crate. The crate's hasher is a parameter
    (class [Sha2]); what the clients rely on of it is [Sha2Laws]. *)

(** The hasher of the [sha2] crate: [new], [update], [finalize]. *)
Class Sha2 : Type := {
  sha2_state : Type;
  sha2_new : sha2_state;
  sha2_update : list byte → sha2_state → sha2_state;
  sha2_finalize : sha2_state → list byte
}.

(** A 32-byte digest of the concatenation of the updates. *)
Class Sha2Laws `{Sha2} : Prop := {
  sha2_finalize_length h : length (sha2_finalize h) = 32%nat;
  sha2_update_app a b h : sha2_update (a ++ b) h = sha2_update b (sha2_update a h);
  sha2_update_nil h : sha2_update [] h = h
}.

Section hash.
Context `{Sha2}.

Record StreamingSha256 : Type := { sha_inner : sha2_state }.

Definition sha256_new : StreamingSha256 := {| sha_inner := sha2_new |}.
Definition sha256_update (bytes : list byte) (self : StreamingSha256) : StreamingSha256 :=
  {| sha_inner := sha2_update bytes (sha_inner self) |}.
Definition sha256_finalize (self : StreamingSha256) : list byte := sha2_finalize (sha_inner self).

(** [StreamingSha256::digest]. *)
Definition digest (bytes : list byte) : list byte :=
  let hasher := sha256_update bytes sha256_new in sha256_finalize hasher.

Lemma length_digest `{!Sha2Laws} bytes : length (digest bytes) = 32%nat.
Proof. apply sha2_finalize_length. Qed.

Lemma len_digest `{!Sha2Laws} bytes : len (digest bytes) = 32.
Proof. unfold len. by rewrite length_digest. Qed.

(** Streaming a buffer in chunks digests the buffer. *)
Lemma digest_chunks `{!Sha2Laws} chunks :
  sha256_finalize (foldl (λ h c, sha256_update c h) sha256_new chunks) = digest (concat chunks).
Proof.
  unfold digest. generalize sha256_new. induction chunks as [|c l IH]; intros [h]; simpl.
  - unfold sha256_update. simpl. by rewrite sha2_update_nil.
  - rewrite IH. unfold sha256_update. simpl. by rewrite sha2_update_app.
Qed.
End hash.

#[export] Hint Rewrite @len_digest using typeclasses eauto : ohl.
