(* ===== verification/Protocol.v ===== *)
(** * OWP/1 vocabulary

    [crates/ohl-parser-protocol/src/lib.rs]: the wire constants, the message
    kinds, status and phase codes with their wire tables, and the protocol's
    error codes. *)

From S2P Require Export Core.

(** ** Constants *)

Definition FRAME_HEADER_BYTES : N := 32.
(** [*b"OHLP"]. *)
Definition FRAME_MAGIC : list byte := [x4f; x48; x4c; x50].
Definition PROTOCOL_MAJOR_VERSION : N := 1.
Definition PROTOCOL_MINOR_VERSION : N := 0.
Definition MAXIMUM_FRAME_PAYLOAD_BYTES : N := 2 ^ 20.
Definition MAXIMUM_PROTOCOL_MESSAGES : N := 2 ^ 20.
Definition MAXIMUM_CUMULATIVE_PAYLOAD_BYTES : N := 64 * 1024 * 1024 * 1024.

(** ** Error codes *)

(** [ProtocolError]. *)
Inductive ProtocolError : Type :=
| TruncatedHeader
| InvalidMagic
| UnsupportedVersion
| UnknownMessageType
| ReservedFlags
| PayloadTooLarge
| TruncatedPayload
| TrailingBytes
| InvalidSessionId
| InvalidRequestId
| WrongSessionId
| WrongRequestId
| RequestIdNotMonotonic
| UnexpectedMessage
| RequestAlreadyActive
| ReadAlreadyActive
| NoReadInFlight
| MessageBudgetExceeded
| ByteBudgetExceeded
| InvalidBudget
| OutputTooSmall
| PayloadUnderflow
| PayloadTrailingBytes
| NoncanonicalValue
| TerminalState.

#[export] Instance ProtocolError_eq_dec : EqDecision ProtocolError.
Proof. solve_decision. Defined.

(** [impl From<ProtocolError> for ohl_core::SanitizedError]. *)
Definition sanitize_protocol_error (error : ProtocolError) : SanitizedError :=
  match error with
  | MessageBudgetExceeded | ByteBudgetExceeded | PayloadTooLarge => SE_Unsupported
  | TerminalState => SE_NotFound
  | _ => SE_InvalidInput
  end.

(** ** Message kinds *)

(** [MessageType]. *)
Inductive MessageType : Type :=
| MT_Hello
| MT_Ready
| MT_Enumerate
| MT_StreamEntry
| MT_ReadRequest
| MT_ReadReply
| MT_EntryBatch
| MT_DataChunk
| MT_Complete
| MT_Cancel
| MT_CancelAck
| MT_Shutdown.

#[export] Instance MessageType_eq_dec : EqDecision MessageType.
Proof. solve_decision. Defined.

(** [MessageType::to_wire], the [#[repr(u16)]] discriminant. *)
Definition message_type_to_wire (t : MessageType) : N :=
  match t with
  | MT_Hello => 0x0001
  | MT_Ready => 0x0002
  | MT_Enumerate => 0x0010
  | MT_StreamEntry => 0x0011
  | MT_ReadRequest => 0x0020
  | MT_ReadReply => 0x0021
  | MT_EntryBatch => 0x0030
  | MT_DataChunk => 0x0031
  | MT_Complete => 0x0032
  | MT_Cancel => 0x0040
  | MT_CancelAck => 0x0041
  | MT_Shutdown => 0x0042
  end.

(** [MessageType::from_wire]. *)
Definition message_type_from_wire (value : N) : result ProtocolError MessageType :=
  match value with
  | 0x0001 => Ok MT_Hello
  | 0x0002 => Ok MT_Ready
  | 0x0010 => Ok MT_Enumerate
  | 0x0011 => Ok MT_StreamEntry
  | 0x0020 => Ok MT_ReadRequest
  | 0x0021 => Ok MT_ReadReply
  | 0x0030 => Ok MT_EntryBatch
  | 0x0031 => Ok MT_DataChunk
  | 0x0032 => Ok MT_Complete
  | 0x0040 => Ok MT_Cancel
  | 0x0041 => Ok MT_CancelAck
  | 0x0042 => Ok MT_Shutdown
  | _ => Err UnknownMessageType
  end.

(** [MessageType::requires_zero_request_id]. *)
Definition requires_zero_request_id (t : MessageType) : bool :=
  match t with
  | MT_Hello | MT_Ready | MT_Shutdown => true
  | _ => false
  end.

(** ** Status codes *)

(** [ProtocolStatus]. *)
Inductive ProtocolStatus : Type :=
| PS_Ok
| PS_Unsupported
| PS_InvalidRequest
| PS_ParserRejected
| PS_BudgetExceeded
| PS_Cancelled
| PS_SourceChanged
| PS_SourceReadFailed
| PS_ResultValidationFailed
| PS_InternalFailure.

#[export] Instance ProtocolStatus_eq_dec : EqDecision ProtocolStatus.
Proof. solve_decision. Defined.

(** [ProtocolStatus::to_wire]. *)
Definition status_to_wire (s : ProtocolStatus) : N :=
  match s with
  | PS_Ok => 0
  | PS_Unsupported => 1
  | PS_InvalidRequest => 2
  | PS_ParserRejected => 3
  | PS_BudgetExceeded => 4
  | PS_Cancelled => 5
  | PS_SourceChanged => 6
  | PS_SourceReadFailed => 7
  | PS_ResultValidationFailed => 8
  | PS_InternalFailure => 9
  end.

(** [ProtocolStatus::from_wire]. *)
Definition status_from_wire (value : N) : result ProtocolError ProtocolStatus :=
  match value with
  | 0 => Ok PS_Ok
  | 1 => Ok PS_Unsupported
  | 2 => Ok PS_InvalidRequest
  | 3 => Ok PS_ParserRejected
  | 4 => Ok PS_BudgetExceeded
  | 5 => Ok PS_Cancelled
  | 6 => Ok PS_SourceChanged
  | 7 => Ok PS_SourceReadFailed
  | 8 => Ok PS_ResultValidationFailed
  | 9 => Ok PS_InternalFailure
  | _ => Err NoncanonicalValue
  end.

(** ** Phase codes *)

(** [ProtocolPhase]. *)
Inductive ProtocolPhase : Type :=
| PP_Handshake
| PP_Enumerate
| PP_Stream
| PP_SourceRead
| PP_Complete.

#[export] Instance ProtocolPhase_eq_dec : EqDecision ProtocolPhase.
Proof. solve_decision. Defined.

(** [ProtocolPhase::to_wire]. *)
Definition phase_to_wire (p : ProtocolPhase) : N :=
  match p with
  | PP_Handshake => 0
  | PP_Enumerate => 1
  | PP_Stream => 2
  | PP_SourceRead => 3
  | PP_Complete => 4
  end.

(** [ProtocolPhase::from_wire]. *)
Definition phase_from_wire (value : N) : result ProtocolError ProtocolPhase :=
  match value with
  | 0 => Ok PP_Handshake
  | 1 => Ok PP_Enumerate
  | 2 => Ok PP_Stream
  | 3 => Ok PP_SourceRead
  | 4 => Ok PP_Complete
  | _ => Err NoncanonicalValue
  end.

(** ** Wire tables *)

(** One enumeration of the protocol with its 16-bit wire table: [from_wire]
    accepts exactly the image of [to_wire], so codes and constructors are in
    bijection. *)
Class WireCode (T : Type) (to_wire : T → N) (from_wire : N → result ProtocolError T) : Prop := {
  wire_code_fits t : fits 16 (to_wire t);
  wire_code_from_wire v t : from_wire v = Ok t ↔ v = to_wire t
}.

Ltac solve_wire_code from_wire :=
  split; [intros []; reflexivity|];
  intros v t; split; [|by intros ->; destruct t];
  unfold from_wire; intros Hv; repeat (case_match; try discriminate Hv); by injection Hv as <-.

#[export] Instance message_type_wire : WireCode MessageType message_type_to_wire message_type_from_wire.
Proof. solve_wire_code message_type_from_wire. Qed.

#[export] Instance status_wire : WireCode ProtocolStatus status_to_wire status_from_wire.
Proof. solve_wire_code status_from_wire. Qed.

#[export] Instance phase_wire : WireCode ProtocolPhase phase_to_wire phase_from_wire.
Proof. solve_wire_code phase_from_wire. Qed.

Lemma wire_code_to_from `{WireCode T to_wire from_wire} t : from_wire (to_wire t) = Ok t.
Proof. by apply wire_code_from_wire. Qed.
