(* ===== verification/Payload.v ===== *)
(** * Bounded payload writers and readers

    [crates/ohl-parser-protocol/src/payload.rs].  Both cursors are sticky: the
    first failure is recorded and every later operation returns it without
    touching the buffer.  A [usize] field is an [N]; a method over [&mut self]
    is a computation of the monad [M]. *)

From S2P Require Export Protocol.

(** ** [PayloadWriter] *)

Record PayloadWriter : Type := {
  pw_destination : list byte;
  pw_capacity : N;
  pw_position : N;
  pw_error : option ProtocolError
}.

Definition pw_set_destination (d : list byte) (w : PayloadWriter) : PayloadWriter :=
  {| pw_destination := d; pw_capacity := pw_capacity w;
     pw_position := pw_position w; pw_error := pw_error w |}.
Definition pw_set_position (p : N) (w : PayloadWriter) : PayloadWriter :=
  {| pw_destination := pw_destination w; pw_capacity := pw_capacity w;
     pw_position := p; pw_error := pw_error w |}.
Definition pw_set_error (e : ProtocolError) (w : PayloadWriter) : PayloadWriter :=
  {| pw_destination := pw_destination w; pw_capacity := pw_capacity w;
     pw_position := pw_position w; pw_error := Some e |}.

Definition writer_new (destination : list byte) : PayloadWriter :=
  {| pw_destination := destination;
     pw_capacity := N.min (len destination) MAXIMUM_FRAME_PAYLOAD_BYTES;
     pw_position := 0;
     pw_error := None |}.

Definition Writes (A : Type) : Type := M PayloadWriter ProtocolError A.

Definition reserve (size : N) : M PayloadWriter ProtocolError N :=
  w ← get;
  match pw_error w with
  | Some error => throw error
  | None =>
      if pw_capacity w - pw_position w <? size then
        modify (pw_set_error OutputTooSmall);; throw OutputTooSmall
      else
        let start := pw_position w in
        modify (λ w, pw_set_position (pw_position w + size) w);;
        mret start
  end.

(** [self.destination[at..at + value.len()].copy_from_slice(value)]. *)
Definition copy_at (at_ : N) (value : list byte) : M PayloadWriter ProtocolError unit :=
  modify (λ w, pw_set_destination (splice at_ value (pw_destination w)) w).

Definition write_u8 (value : N) : M PayloadWriter ProtocolError unit :=
  at_ ← reserve 1; copy_at at_ [byte_of_N value].
Definition write_u16 (value : N) : M PayloadWriter ProtocolError unit :=
  at_ ← reserve 2; copy_at at_ (le_bytes 2 value).
Definition write_u32 (value : N) : M PayloadWriter ProtocolError unit :=
  at_ ← reserve 4; copy_at at_ (le_bytes 4 value).
Definition write_u64 (value : N) : M PayloadWriter ProtocolError unit :=
  at_ ← reserve 8; copy_at at_ (le_bytes 8 value).
Definition write_bool (value : bool) : M PayloadWriter ProtocolError unit :=
  write_u8 (if value then 1 else 0).
Definition write_status (value : ProtocolStatus) : M PayloadWriter ProtocolError unit :=
  write_u16 (status_to_wire value).
Definition write_phase (value : ProtocolPhase) : M PayloadWriter ProtocolError unit :=
  write_u16 (phase_to_wire value).
Definition write_bytes (value : list byte) : M PayloadWriter ProtocolError unit :=
  at_ ← reserve (len value); copy_at at_ value.

(** [PayloadWriter::len] and [written]. *)
Definition writer_len (w : PayloadWriter) : N := pw_position w.
Definition written (w : PayloadWriter) : list byte :=
  take (N.to_nat (pw_position w)) (pw_destination w).

(** A writer that borrows [destination] for the extent of [body]. *)
Definition with_writer {A} (body : M PayloadWriter ProtocolError A) :
    M (list byte) ProtocolError A :=
  λ destination,
    let '(w, r) := body (writer_new destination) in (pw_destination w, r).

(** ** [PayloadReader] *)

Record PayloadReader : Type := {
  pr_payload : list byte;
  pr_position : N;
  pr_error : option ProtocolError
}.

Definition pr_set_position (p : N) (r : PayloadReader) : PayloadReader :=
  {| pr_payload := pr_payload r; pr_position := p; pr_error := pr_error r |}.
Definition pr_set_error (e : ProtocolError) (r : PayloadReader) : PayloadReader :=
  {| pr_payload := pr_payload r; pr_position := pr_position r; pr_error := Some e |}.

Definition reader_new (payload : list byte) : PayloadReader :=
  {| pr_payload := payload;
     pr_position := 0;
     pr_error := if MAXIMUM_FRAME_PAYLOAD_BYTES <? len payload
                 then Some PayloadTooLarge else None |}.

(** [PayloadReader::take]. *)
Definition take_bytes (size : N) : M PayloadReader ProtocolError (list byte) :=
  r ← get;
  match pr_error r with
  | Some error => throw error
  | None =>
      if len (pr_payload r) - pr_position r <? size then
        modify (pr_set_error PayloadUnderflow);; throw PayloadUnderflow
      else
        let start := pr_position r in
        modify (λ r, pr_set_position (pr_position r + size) r);;
        mret (subslice start size (pr_payload r))
  end.

(** [slice.try_into().unwrap_or([0; n])]. *)
Definition to_array (n : nat) (bytes : list byte) : list byte :=
  if decide (length bytes = n) then bytes else replicate n x00.

Definition read_u8 : M PayloadReader ProtocolError N :=
  bytes ← take_bytes 1; mret (Byte.to_N (hd x00 bytes)).
Definition read_u16 : M PayloadReader ProtocolError N :=
  bytes ← take_bytes 2; mret (of_le_bytes (to_array 2 bytes)).
Definition read_u32 : M PayloadReader ProtocolError N :=
  bytes ← take_bytes 4; mret (of_le_bytes (to_array 4 bytes)).
Definition read_u64 : M PayloadReader ProtocolError N :=
  bytes ← take_bytes 8; mret (of_le_bytes (to_array 8 bytes)).

Definition read_bool : M PayloadReader ProtocolError bool :=
  encoded ← read_u8;
  if 1 <? encoded then
    modify (pr_set_error NoncanonicalValue);; throw NoncanonicalValue
  else mret (negb (encoded =? 0)).

(** [from_wire(encoded).inspect_err(|error| self.error = Some( *error))]. *)
Definition inspect_err {A} (decoded : result ProtocolError A) : M PayloadReader ProtocolError A :=
  match decoded with
  | Ok a => mret a
  | Err error => modify (pr_set_error error);; throw error
  end.

Definition read_status : M PayloadReader ProtocolError ProtocolStatus :=
  encoded ← read_u16; inspect_err (status_from_wire encoded).
Definition read_phase : M PayloadReader ProtocolError ProtocolPhase :=
  encoded ← read_u16; inspect_err (phase_from_wire encoded).
Definition read_bytes (size : N) : M PayloadReader ProtocolError (list byte) := take_bytes size.

Definition reader_finish : M PayloadReader ProtocolError unit :=
  r ← get;
  match pr_error r with
  | Some error => throw error
  | None =>
      if negb (pr_position r =? len (pr_payload r)) then
        modify (pr_set_error PayloadTrailingBytes);; throw PayloadTrailingBytes
      else mret tt
  end.

Definition reader_remaining (r : PayloadReader) : N := len (pr_payload r) - pr_position r.

(** [reader.read_bytes(reader.remaining())]. *)
Definition read_remaining : M PayloadReader ProtocolError (list byte) :=
  r ← get; read_bytes (reader_remaining r).

(** A reader over [payload] used for the extent of [body]. *)
Definition with_reader {A} (payload : list byte) (body : M PayloadReader ProtocolError A) :
    result ProtocolError A :=
  snd (body (reader_new payload)).

(** ** Writing scripts

    The operations a schema is written with, as data, and the run a caller
    makes that ignores the individual results and looks at [error()] once at
    the end. *)
Inductive WriteOp : Type :=
| OpU8 (v : N) | OpU16 (v : N) | OpU32 (v : N) | OpU64 (v : N)
| OpBool (b : bool) | OpStatus (s : ProtocolStatus) | OpPhase (p : ProtocolPhase)
| OpBytes (l : list byte).

Definition write_op (o : WriteOp) : M PayloadWriter ProtocolError unit :=
  match o with
  | OpU8 v => write_u8 v
  | OpU16 v => write_u16 v
  | OpU32 v => write_u32 v
  | OpU64 v => write_u64 v
  | OpBool b => write_bool b
  | OpStatus s => write_status s
  | OpPhase p => write_phase p
  | OpBytes l => write_bytes l
  end.

(** The wire image of an operation. *)
Definition op_image (o : WriteOp) : list byte :=
  match o with
  | OpU8 v => le_bytes 1 v
  | OpU16 v => le_bytes 2 v
  | OpU32 v => le_bytes 4 v
  | OpU64 v => le_bytes 8 v
  | OpBool b => le_bytes 1 (if b then 1 else 0)
  | OpStatus s => le_bytes 2 (status_to_wire s)
  | OpPhase p => le_bytes 2 (phase_to_wire p)
  | OpBytes l => l
  end.

Fixpoint run_script (l : list WriteOp) (w : PayloadWriter) : PayloadWriter :=
  match l with
  | [] => w
  | o :: l => run_script l (fst (write_op o w))
  end.

(** What the script writes: the images up to the first one that does not fit
    in [room] bytes, and whether everything fitted. *)
Fixpoint script_image (room : N) (l : list WriteOp) : list byte * bool :=
  match l with
  | [] => ([], true)
  | o :: l =>
      if room <? len (op_image o) then ([], false)
      else let '(k, ok) := script_image (room - len (op_image o)) l in
           (op_image o ++ k, ok)
  end.

(** ** The writer's specification *)

(** A writer advanced past [img]. *)
Definition pw_emit (img : list byte) (w : PayloadWriter) : PayloadWriter :=
  {| pw_destination := splice (pw_position w) img (pw_destination w);
     pw_capacity := pw_capacity w;
     pw_position := pw_position w + len img;
     pw_error := pw_error w |}.

Definition pw_wf (w : PayloadWriter) : Prop :=
  pw_position w ≤ pw_capacity w ∧ pw_capacity w ≤ len (pw_destination w).

(** [m] writes exactly [img] whenever it fits. *)
Definition emits (m : M PayloadWriter ProtocolError unit) (img : list byte) : Prop :=
  ∀ w, pw_wf w → pw_error w = None → pw_position w + len img ≤ pw_capacity w →
  m w = (pw_emit img w, Ok tt).

(** ** The reader's specification *)

Definition pr_wf (r : PayloadReader) : Prop := pr_position r ≤ len (pr_payload r).

(** The bytes not yet consumed. *)
Definition pr_rest (r : PayloadReader) : list byte :=
  drop (N.to_nat (pr_position r)) (pr_payload r).

(** [m] accepts exactly the images of the values satisfying [P]: an error-free
    reader positioned before [img a] yields [a] and stands after it, and every
    success arises so. *)
Record parses {A} (m : M PayloadReader ProtocolError A) (img : A → list byte) (P : A → Prop)
  : Prop := {
  parses_complete r a rest :
    pr_wf r → pr_error r = None → pr_rest r = img a ++ rest → P a →
    m r = (pr_set_position (pr_position r + len (img a)) r, Ok a);
  parses_sound r r' a :
    pr_wf r → pr_error r = None → m r = (r', Ok a) →
    P a ∧ pr_rest r = img a ++ pr_rest r' ∧
    r' = pr_set_position (pr_position r + len (img a)) r ∧ pr_wf r'
}.

(** ** Writer lemmas *)

Section writer.
Implicit Types w : PayloadWriter.

Lemma writer_new_wf d : pw_wf (writer_new d).
Proof. unfold pw_wf, writer_new. simpl. lia. Qed.

Lemma pw_emit_wf img w :
  pw_wf w → pw_position w + len img ≤ pw_capacity w → pw_wf (pw_emit img w).
Proof.
  unfold pw_wf, pw_emit. simpl. intros [??] ?. unfold len at 2.
  rewrite length_splice by lia. split; [lia|]. fold (len (pw_destination w)). done.
Qed.

Lemma emits_reserve_copy size img :
  len img = size → emits (at_ ← reserve size; copy_at at_ img) img.
Proof.
  intros <- w [Hpos Hcap] Herr Hfit. unfold reserve, copy_at. run_M. rewrite Herr. destruct (N.ltb_spec (pw_capacity w - pw_position w) (len img)); [lia|].
  unfold pw_emit. simpl. done.
Qed.

Lemma emits_mret : emits (mret tt) [].
Proof.
  intros w ? Herr ?. unfold mret, M_ret, pw_emit. rewrite splice_nil, len_nil, N.add_0_r.
  by destruct w.
Qed.

Lemma emits_bind m1 m2 i1 i2 :
  emits m1 i1 → emits m2 i2 → emits (m1;; m2) (i1 ++ i2).
Proof.
  intros H1 H2 w Hw Herr Hfit. rewrite len_app in Hfit.
  erewrite M_bind_step; [|apply H1; [done..|lia]].
  rewrite H2; [|by apply pw_emit_wf; [done|lia]|done|simpl; lia].
  unfold pw_emit. simpl. destruct Hw. rewrite splice_app by lia.
  by rewrite len_app, N.add_assoc.
Qed.

Lemma emits_op o : emits (write_op o) (op_image o).
Proof.
  destruct o; simpl; unfold write_bool, write_status, write_phase;
    by apply emits_reserve_copy.
Qed.

(** A sticky writer is left as it is by every operation. *)
Lemma write_op_sticky o w e : pw_error w = Some e → write_op o w = (w, Err e).
Proof.
  intros Herr. by destruct o; simpl; unfold write_bool, write_status, write_phase,
    write_u8, write_u16, write_u32, write_u64, write_bytes, reserve; run_M; rewrite Herr.
Qed.

Lemma write_op_overflow o w :
  pw_error w = None → pw_capacity w - pw_position w < len (op_image o) →
  write_op o w = (pw_set_error OutputTooSmall w, Err OutputTooSmall).
Proof.
  intros Herr Hlt. destruct o; simpl in *; unfold write_bool, write_status, write_phase,
    write_u8, write_u16, write_u32, write_u64, write_bytes, reserve; run_M; rewrite Herr;
    autorewrite with ohl in Hlt;
    (case_cmp; [done|simpl in *; lia]).
Qed.

Lemma run_script_sticky l w e : pw_error w = Some e → run_script l w = w.
Proof.
  revert w. induction l as [|o l IH]; intros w Herr; [done|]. simpl.
  rewrite (write_op_sticky _ _ _ Herr). simpl. auto.
Qed.

Lemma script_image_len room l : len (script_image room l).1 ≤ room.
Proof.
  revert room; induction l as [|o l IH]; intros room; simpl; [rewrite len_nil; lia|].
  destruct (N.ltb_spec room (len (op_image o))); simpl; [rewrite len_nil; lia|].
  specialize (IH (room - len (op_image o))).
  destruct (script_image _ l) as [k ok]. simpl in *. rewrite len_app. lia.
Qed.

Lemma run_script_spec l w :
  pw_wf w → pw_error w = None →
  let '(img, ok) := script_image (pw_capacity w - pw_position w) l in
  run_script l w = (if ok then id else pw_set_error OutputTooSmall) (pw_emit img w).
Proof.
  revert w; induction l as [|o l IH]; intros w Hw Herr; simpl.
  { unfold pw_emit. rewrite splice_nil, len_nil, N.add_0_r. by destruct w. }
  destruct (N.ltb_spec (pw_capacity w - pw_position w) (len (op_image o))) as [Hlt|Hge].
  - rewrite write_op_overflow by done. simpl.
    rewrite (run_script_sticky _ _ OutputTooSmall) by done.
    unfold pw_emit. rewrite splice_nil, len_nil, N.add_0_r. by destruct w.
  - assert (pw_position w + len (op_image o) ≤ pw_capacity w)
      by (destruct Hw; lia).
    rewrite emits_op by done. simpl.
    specialize (IH (pw_emit (op_image o) w)).
    pose proof (script_image_len (pw_capacity w - pw_position w - len (op_image o)) l) as Hk.
    assert (pw_capacity (pw_emit (op_image o) w) - pw_position (pw_emit (op_image o) w) =
            pw_capacity w - pw_position w - len (op_image o)) as Hroom by (simpl; lia).
    rewrite Hroom in IH. destruct (script_image _ l) as [k ok]. simpl in Hk.
    rewrite IH by (first [by apply pw_emit_wf|done]). f_equal. unfold pw_emit. simpl.
    destruct Hw. rewrite splice_app by lia. by rewrite len_app, N.add_assoc.
Qed.

Lemma with_writer_emits (body : M PayloadWriter ProtocolError unit) img dest :
  emits body img → length img = length dest → len dest ≤ MAXIMUM_FRAME_PAYLOAD_BYTES →
  with_writer body dest = (img, Ok tt).
Proof.
  intros Hb Hlen Hmax. unfold with_writer. rewrite Hb; [| apply writer_new_wf | done |].
  - simpl. by rewrite splice_full.
  - simpl. unfold len in *. lia.
Qed.
End writer.

(** ** Reader lemmas *)

Section reader.
Implicit Types r : PayloadReader.

Lemma reader_new_wf payload : pr_wf (reader_new payload).
Proof. unfold pr_wf. simpl. lia. Qed.

Lemma pr_rest_new payload : pr_rest (reader_new payload) = payload.
Proof. done. Qed.

Lemma pr_rest_len r : pr_wf r → len (pr_rest r) = len (pr_payload r) - pr_position r.
Proof. unfold pr_wf, pr_rest, len. rewrite length_drop. lia. Qed.

Lemma pr_rest_advance r bs rest :
  pr_rest r = bs ++ rest → pr_rest (pr_set_position (pr_position r + len bs) r) = rest.
Proof.
  unfold pr_rest. simpl. intros Hr.
  replace (N.to_nat (pr_position r + len bs)) with (N.to_nat (pr_position r) + length bs)%nat
    by (unfold len; lia).
  by rewrite <-drop_drop, Hr, drop_app_length.
Qed.

Lemma pr_advance_wf r bs rest :
  pr_wf r → pr_rest r = bs ++ rest → pr_wf (pr_set_position (pr_position r + len bs) r).
Proof.
  intros Hw Hr. pose proof (pr_rest_len r Hw) as Hl. rewrite Hr, len_app in Hl.
  unfold pr_wf in *. simpl. lia.
Qed.

Lemma subslice_rest r bs rest :
  pr_rest r = bs ++ rest → subslice (pr_position r) (len bs) (pr_payload r) = bs.
Proof. unfold pr_rest, subslice. intros ->. rewrite len_to_nat. apply take_app_length. Qed.

Lemma take_bytes_complete r bs rest :
  pr_wf r → pr_error r = None → pr_rest r = bs ++ rest →
  take_bytes (len bs) r = (pr_set_position (pr_position r + len bs) r, Ok bs).
Proof.
  intros Hw Herr Hr. pose proof (pr_rest_len r Hw) as Hl. rewrite Hr, len_app in Hl.
  unfold take_bytes. run_M. rewrite Herr.
  case_cmp; [lia|].
  by rewrite (subslice_rest _ _ rest).
Qed.

Lemma take_bytes_sound size r r' bs :
  pr_wf r → take_bytes size r = (r', Ok bs) →
  pr_error r = None ∧ len bs = size ∧ pr_rest r = bs ++ pr_rest r' ∧
  r' = pr_set_position (pr_position r + size) r ∧ pr_wf r'.
Proof.
  unfold take_bytes. run_M. intros Hw.
  destruct (pr_error r) eqn:Herr; [done|].
  case_cmp; simpl; [done|]. intros [= <- <-].
  unfold pr_wf in *. simpl. split_and!; [done|apply len_subslice; lia| |done|lia].
  unfold pr_rest, subslice. simpl.
  replace (N.to_nat (pr_position r + size)) with (N.to_nat (pr_position r) + N.to_nat size)%nat
    by lia.
  by rewrite <-drop_drop, take_drop.
Qed.

Lemma take_bytes_parses size :
  parses (take_bytes size) id (λ bs, len bs = size).
Proof.
  split.
  - intros r a rest Hw Herr Hr <-. by eapply take_bytes_complete.
  - intros r r' a Hw _ H. apply take_bytes_sound in H as (?&<-&?&?&?); auto.
Qed.

Lemma parses_le (n : nat) w :
  w = 8 * N.of_nat n →
  parses (bytes ← take_bytes (N.of_nat n); mret (of_le_bytes (to_array n bytes)))
         (le_bytes n) (fits w).
Proof.
  intros Hwn. split.
  - intros r a rest Hw Herr Hr Ha.
    assert (N.of_nat n = len (le_bytes n a)) as En by (by rewrite len_le_bytes).
    rewrite En at 1. erewrite M_bind_step; [|by eapply take_bytes_complete].
    unfold mret, M_ret, to_array. rewrite decide_True by apply length_le_bytes.
    by rewrite (of_le_bytes_id n w).
  - intros r r' a Hw _ H. apply M_bind_Ok in H as (r1 & bs & Ht & H).
    apply take_bytes_sound in Ht as (?&Hl&?&?&?); [|done].
    unfold mret, M_ret in H. injection H as <- <-.
    assert (length bs = n) as Hn by (unfold len in Hl; lia).
    unfold to_array. rewrite decide_True by done. rewrite le_bytes_inj_len by done.
    split_and!; try done; [by subst w; apply of_le_bytes_fits|by rewrite Hl].
Qed.

Lemma read_u16_parses : parses read_u16 (le_bytes 2) (fits 16).
Proof. by apply (parses_le 2). Qed.
Lemma read_u32_parses : parses read_u32 (le_bytes 4) (fits 32).
Proof. by apply (parses_le 4). Qed.
Lemma read_u64_parses : parses read_u64 (le_bytes 8) (fits 64).
Proof. by apply (parses_le 8). Qed.

(** Reading a coded enumeration inverts its wire table. *)
Lemma parses_wire_code `{WireCode T to_wire from_wire} :
  parses (encoded ← read_u16; inspect_err (from_wire encoded))
         (λ t, le_bytes 2 (to_wire t)) (λ _, True).
Proof.
  split.
  - intros r t rest Hw Herr Hr _.
    erewrite M_bind_step; [|eapply (parses_complete _ _ _ read_u16_parses); try done;
      apply wire_code_fits].
    by rewrite wire_code_to_from.
  - intros r r' t Hw Herr Hm. apply M_bind_Ok in Hm as (r1 & v & Hv & Hm).
    apply (parses_sound _ _ _ read_u16_parses) in Hv as (?&?&?&?); [|done..].
    unfold inspect_err in Hm. destruct (from_wire v) as [t'|] eqn:Ev; [|done].
    unfold mret, M_ret in Hm. injection Hm as -> ->.
    apply wire_code_from_wire in Ev as ->. auto.
Qed.

Lemma read_status_parses : parses read_status (λ s, le_bytes 2 (status_to_wire s)) (λ _, True).
Proof. apply parses_wire_code. Qed.
Lemma read_phase_parses : parses read_phase (λ p, le_bytes 2 (phase_to_wire p)) (λ _, True).
Proof. apply parses_wire_code. Qed.

(** Sequencing: [fa] recovers the first result from the final one, so the
    images concatenate. *)
Lemma parses_bind {A C} (m : M PayloadReader ProtocolError A)
    (k : A → M PayloadReader ProtocolError C) imgA PA img P (fa : C → A) :
  (∀ a c, P a c → fa c = a) →
  parses m imgA PA → (∀ a, parses (k a) (img a) (P a)) →
  parses (m ≫= k) (λ c, imgA (fa c) ++ img (fa c) c) (λ c, PA (fa c) ∧ P (fa c) c).
Proof.
  intros Hfa Hm Hk. split.
  - intros r c rest Hw Herr Hr [HA HC]. rewrite <-app_assoc in Hr.
    rewrite (M_bind_step _ _ _ _ _ (parses_complete _ _ _ Hm _ _ _ Hw Herr Hr HA)).
    rewrite (parses_complete _ _ _ (Hk _) _ c rest); try done.
    + unfold pr_set_position. simpl. by rewrite len_app, N.add_assoc.
    + by eapply pr_advance_wf.
    + by eapply pr_rest_advance.
  - intros r r' c Hw Herr H. apply M_bind_Ok in H as (r1 & a & Ha & H).
    apply (parses_sound _ _ _ Hm) in Ha as (? & Hr & -> & Hw1); [|done..].
    apply (parses_sound _ _ _ (Hk _)) in H as (HC & Hr1 & -> & Hw2); [|done..].
    simpl in *. rewrite (Hfa _ _ HC). split_and!; try done.
    + by rewrite Hr, Hr1, app_assoc.
    + unfold pr_set_position. simpl. by rewrite len_app, N.add_assoc.
Qed.

Lemma parses_mret {A} (x : A) : parses (mret x) (λ _, []) (λ c, c = x).
Proof.
  split.
  - intros r a rest Hw Herr _ ->. rewrite len_nil, N.add_0_r. by destruct r.
  - intros r r' a Hw Herr H. run_M in H. injection H as <- <-. rewrite len_nil, N.add_0_r.
    split_and!; try done. by destruct r.
Qed.

Lemma reader_finish_Ok r r' u :
  reader_finish r = (r', Ok u) ↔
  r' = r ∧ pr_error r = None ∧ pr_position r = len (pr_payload r).
Proof.
  unfold reader_finish. run_M.
  destruct (pr_error r); [naive_solver|].
  destruct (N.eqb_spec (pr_position r) (len (pr_payload r))); simpl; destruct u; naive_solver.
Qed.

Lemma reader_finish_rest r r' u :
  pr_wf r → reader_finish r = (r', Ok u) → pr_rest r = [].
Proof.
  intros Hw (_&_&E)%reader_finish_Ok. apply len_0_nil. rewrite pr_rest_len by done. lia.
Qed.

(** [read_remaining] takes whatever is left. *)
Lemma read_remaining_rest r :
  pr_wf r → pr_error r = None →
  read_remaining r = (pr_set_position (len (pr_payload r)) r, Ok (pr_rest r)).
Proof.
  intros Hw Herr. unfold read_remaining, read_bytes. run_M.
  assert (reader_remaining r = len (pr_rest r)) as -> by (by rewrite pr_rest_len).
  rewrite (take_bytes_complete _ (pr_rest r) []); [|done..|by rewrite app_nil_r].
  rewrite pr_rest_len by done. unfold pr_wf in Hw. by replace (pr_position r + _) with
    (len (pr_payload r)) by lia.
Qed.
(** *** Readers that consume the payload to its end *)

(** [m] succeeds with [c] exactly when the unread bytes are [img c]. *)
Record finishes {A} (m : M PayloadReader ProtocolError A) (img : A → list byte)
    (P : A → Prop) : Prop := {
  finishes_iff r c :
    pr_wf r → pr_error r = None → snd (m r) = Ok c ↔ pr_rest r = img c ∧ P c
}.

Lemma finishes_bind {A C} (m : M PayloadReader ProtocolError A)
    (k : A → M PayloadReader ProtocolError C) imgA PA img P (fa : C → A) :
  parses m imgA PA → (∀ a, finishes (k a) (img a) (P a)) →
  (∀ a c, P a c → fa c = a) →
  finishes (m ≫= k) (λ c, imgA (fa c) ++ img (fa c) c) (λ c, PA (fa c) ∧ P (fa c) c).
Proof.
  intros Hm Hk Hfa. split. intros r c Hw Herr. split.
  - intros Hc. destruct (m r) as [r1 [a|e]] eqn:Ha.
    2:{ by rewrite (M_bind_fail _ _ _ _ _ Ha) in Hc. }
    rewrite (M_bind_step _ _ _ _ _ Ha) in Hc.
    apply (parses_sound _ _ _ Hm) in Ha as (HA & Hr & -> & Hw1); [|done..].
    apply (finishes_iff _ _ _ (Hk _)) in Hc as [Hr1 HC]; [|done..]. rewrite (Hfa _ _ HC). by rewrite Hr, Hr1.
  - intros (Hr & HA & HC).
    rewrite (M_bind_step _ _ _ _ _ (parses_complete _ _ _ Hm _ _ _ Hw Herr Hr HA)).
    apply (finishes_iff _ _ _ (Hk _)); [by eapply pr_advance_wf|done|]. by rewrite (pr_rest_advance _ _ _ Hr).
Qed.

Lemma finishes_done {A} (x : A) : finishes (reader_finish;; mret x) (λ _, []) (λ c, c = x).
Proof.
  split. intros r c Hw Herr. unfold reader_finish. run_M. rewrite Herr.
  pose proof (pr_rest_len r Hw) as Hl. unfold pr_wf in Hw.
  case_cmp; simpl; split; intros Hc; simplify_eq.
  - split; [|done]. apply len_0_nil. lia.
  - by destruct Hc as [_ ->].
  - destruct Hc as [Hr _]. rewrite Hr, len_nil in Hl. lia.
Qed.

Lemma finishes_remaining {A} (g : list byte → A) (f : A → list byte) :
  (∀ data, f (g data) = data) →
  finishes (data ← read_remaining; reader_finish;; mret (g data)) f (λ c, c = g (f c)).
Proof.
  intros Hfg. split. intros r c Hw Herr.
  rewrite (M_bind_step _ _ _ _ _ (read_remaining_rest _ Hw Herr)).
  assert (pr_wf (pr_set_position (len (pr_payload r)) r)) as Hw' by (unfold pr_wf; simpl; lia).
  rewrite (finishes_iff _ _ _ (finishes_done _) _ c Hw' Herr).
  assert (pr_rest (pr_set_position (len (pr_payload r)) r) = []) as ->.
  { unfold pr_rest. simpl. rewrite len_to_nat. by apply drop_ge. }
  split; [intros [_ ->]; by rewrite Hfg|]. intros [-> Hc]. done.
Qed.

Lemma finishes_ext {A} (m : M PayloadReader ProtocolError A) img img' P P' :
  finishes m img P → (∀ c, P c → img c = img' c) → (∀ c, P c ↔ P' c) → finishes m img' P'.
Proof.
  intros Hm Himg HP. split. intros r c Hw Herr. rewrite (finishes_iff _ _ _ Hm r c Hw Herr). split; intros [Hr Hc].
  - rewrite <-Himg by done. by rewrite <-HP.
  - apply HP in Hc. by rewrite Himg by done.
Qed.

(** A schema read to the end of the payload: success exactly on the images. *)
Lemma with_reader_finishes {A} (m : M PayloadReader ProtocolError A) img P payload c :
  finishes m img P → len payload ≤ MAXIMUM_FRAME_PAYLOAD_BYTES →
  with_reader payload m = Ok c ↔ payload = img c ∧ P c.
Proof.
  intros Hm Hmax. unfold with_reader. apply (finishes_iff _ _ _ Hm); [apply reader_new_wf|].
  simpl. case_cmp; [lia|done].
Qed.
End reader.

#[export] Hint Resolve writer_new_wf reader_new_wf emits_op emits_mret emits_bind : ohl.

(** A fixed-size field block written to the front of a destination. *)
Lemma in_prefix_emits body img n dest :
  emits body img → len img = n → n ≤ MAXIMUM_FRAME_PAYLOAD_BYTES →
  in_prefix n OutputTooSmall (with_writer body) dest =
    if n <=? len dest then (img ++ drop (N.to_nat n) dest, Ok tt)
    else (dest, Err OutputTooSmall).
Proof.
  intros Hb Hn Hmax. unfold in_prefix. case_cmp; [|done].
  rewrite (with_writer_emits _ img); [done|done| |].
  - pose proof (len_take_le _ _ H). unfold len in *. lia.
  - by rewrite len_take_le.
Qed.

(** ** Reading scripts

    The reading counterpart of a writing script: one read per operation of the
    expected shape, then the mandatory [finish]. *)
Definition read_op (shape : WriteOp) : M PayloadReader ProtocolError WriteOp :=
  match shape with
  | OpU8 _ => v ← read_u8; mret (OpU8 v)
  | OpU16 _ => v ← read_u16; mret (OpU16 v)
  | OpU32 _ => v ← read_u32; mret (OpU32 v)
  | OpU64 _ => v ← read_u64; mret (OpU64 v)
  | OpBool _ => b ← read_bool; mret (OpBool b)
  | OpStatus _ => s ← read_status; mret (OpStatus s)
  | OpPhase _ => p ← read_phase; mret (OpPhase p)
  | OpBytes l => k ← read_bytes (len l); mret (OpBytes k)
  end.

Fixpoint read_script (shape : list WriteOp) : M PayloadReader ProtocolError (list WriteOp) :=
  match shape with
  | [] => reader_finish;; mret []
  | o :: shape => v ← read_op o; l ← read_script shape; mret (v :: l)
  end.

Definition op_typed (o : WriteOp) : Prop :=
  match o with
  | OpU8 v => fits 8 v | OpU16 v => fits 16 v | OpU32 v => fits 32 v | OpU64 v => fits 64 v
  | _ => True
  end.

(** Two operations of the same kind, and of the same size for raw bytes. *)
Definition same_shape (o o' : WriteOp) : Prop :=
  match o, o' with
  | OpU8 _, OpU8 _ | OpU16 _, OpU16 _ | OpU32 _, OpU32 _ | OpU64 _, OpU64 _
  | OpBool _, OpBool _ | OpStatus _, OpStatus _ | OpPhase _, OpPhase _ => True
  | OpBytes l, OpBytes k => len k = len l
  | _, _ => False
  end.

Section scripts.

(** Wrapping a read value in a constructor that [g] inverts. *)
Lemma parses_wrap {A C} (m : M PayloadReader ProtocolError A) (c : A → C) imgA PA
    (img : C → list byte) (P : C → Prop) :
  parses m imgA PA → (∀ a, img (c a) = imgA a) →
  (∀ x, P x ↔ ∃ a, x = c a ∧ PA a) →
  parses (a ← m; mret (c a)) img P.
Proof.
  intros Hm Himg HP. split.
  - intros r x rest Hw Herr Hr Hx. apply HP in Hx as (a & -> & Ha). rewrite Himg in *.
    by rewrite (M_bind_step _ _ _ _ _ (parses_complete _ _ _ Hm _ _ _ Hw Herr Hr Ha)).
  - intros r r' x Hw Herr H. apply M_bind_Ok in H as (r1 & a & Ha & H).
    apply (parses_sound _ _ _ Hm) in Ha as (? & ? & -> & ?); [|done..].
    unfold mret, M_ret in H. injection H as <- <-. rewrite Himg.
    split_and!; try done. apply HP. eauto.
Qed.

Lemma of_le_bytes_to_array1 b : of_le_bytes (to_array 1 [b]) = Byte.to_N b.
Proof. apply of_le_bytes_singleton. Qed.

Lemma read_u8_parses : parses read_u8 (le_bytes 1) (fits 8).
Proof.
  split.
  - intros r a rest Hw Herr Hr Ha.
    apply (parses_complete _ _ _ (parses_le 1 8 eq_refl) r a rest Hw Herr Hr) in Ha as Hp.
    revert Hp. unfold read_u8. change (N.of_nat 1) with 1. run_M.
    destruct (take_bytes 1 r) as [r1 [bs|]] eqn:E; [|done].
    apply take_bytes_sound in E as (_&Hl&_); [|done].
    destruct bs as [|b [|]]; try (unfold len in Hl; simpl in Hl; lia).
    cbn [to_array]. rewrite of_le_bytes_to_array1. by intros [= -> <-].
  - intros r r' a Hw Herr H. apply (parses_sound _ _ _ (parses_le 1 8 eq_refl)); [done..|].
    revert H. unfold read_u8. change (N.of_nat 1) with 1. run_M.
    destruct (take_bytes 1 r) as [r1 [bs|]] eqn:E; [|done].
    apply take_bytes_sound in E as (_&Hl&_); [|done].
    destruct bs as [|b [|]]; try (unfold len in Hl; simpl in Hl; lia).
    cbn [to_array]. rewrite of_le_bytes_to_array1. by intros [= -> <-].
Qed.

Lemma read_bool_parses : parses read_bool (λ b, le_bytes 1 (if b : bool then 1 else 0)) (λ _, True).
Proof.
  split.
  - intros r b rest Hw Herr Hr _. unfold read_bool.
    rewrite (M_bind_step _ _ _ _ _ (parses_complete _ _ _ read_u8_parses _ (if b then 1 else 0)
      rest Hw Herr Hr ltac:(by destruct b))).
    by destruct b.
  - intros r r' b Hw Herr H. unfold read_bool in H. apply M_bind_Ok in H as (r1 & v & Hv & H).
    apply (parses_sound _ _ _ read_u8_parses) in Hv as (?&?&?&?); [|done..].
    destruct (N.ltb_spec 1 v); [by run_M in H|].
    unfold mret, M_ret in H. injection H as <- <-.
    assert (v = 0 ∨ v = 1) as [-> | ->] by lia; auto.
Qed.

Lemma read_op_parses o : parses (read_op o) op_image (λ o', same_shape o o' ∧ op_typed o').
Proof.
  destruct o; simpl.
  - eapply parses_wrap; [apply read_u8_parses|done|]. intros []; naive_solver.
  - eapply parses_wrap; [apply read_u16_parses|done|]. intros []; naive_solver.
  - eapply parses_wrap; [apply read_u32_parses|done|]. intros []; naive_solver.
  - eapply parses_wrap; [apply read_u64_parses|done|]. intros []; naive_solver.
  - eapply parses_wrap; [apply read_bool_parses|done|]. intros []; naive_solver.
  - eapply parses_wrap; [apply read_status_parses|done|]. intros []; naive_solver.
  - eapply parses_wrap; [apply read_phase_parses|done|]. intros []; naive_solver.
  - eapply parses_wrap; [apply take_bytes_parses|done|]. intros []; naive_solver.
Qed.

Lemma finishes_cons {A} (v : A) (m : M PayloadReader ProtocolError (list A)) img P :
  finishes m img P →
  finishes (l ← m; mret (v :: l)) (λ l, img (tail l)) (λ l, ∃ k, l = v :: k ∧ P k).
Proof.
  intros Hm. split. intros r l Hw Herr. split.
  - intros H. destruct (m r) as [r1 [k|e]] eqn:E; [|by rewrite (M_bind_fail _ _ _ _ _ E) in H].
    rewrite (M_bind_step _ _ _ _ _ E) in H. simpl in H. injection H as <-.
    destruct (proj1 (finishes_iff _ _ _ Hm r k Hw Herr)); [by rewrite E|]. eauto.
  - intros (Hr & k & -> & Hk). simpl in Hr.
    pose proof (proj2 (finishes_iff _ _ _ Hm r k Hw Herr) (conj Hr Hk)) as E.
    destruct (m r) as [r1 x] eqn:Em. simpl in E. subst x.
    by rewrite (M_bind_step _ _ _ _ _ Em).
Qed.

Lemma read_script_finishes shape :
  finishes (read_script shape) (λ l, concat (op_image <$> l))
    (λ l, Forall2 same_shape shape l ∧ Forall op_typed l).
Proof.
  induction shape as [|o shape IH]; simpl.
  - eapply finishes_ext; [apply finishes_done| |].
    + by intros c ->.
    + intros c. split; [intros ->; split; constructor|]. intros [H _]. by inversion H.
  - eapply finishes_ext.
    + eapply (finishes_bind _ _ _ _ (λ _ l, concat (op_image <$> list.tail l))
        (λ v l, ∃ k, l = v :: k ∧ Forall2 same_shape shape k ∧ Forall op_typed k)
        (hd (OpU8 0)));
        [apply read_op_parses|intros v; apply (finishes_cons v _ _ _ IH)|].
      by intros a c (k & -> & _).
    + intros c (_ & k & -> & _). done.
    + intros c. split.
      * intros ((?&?) & k & -> & ?&?). simpl in *. auto.
      * intros [Hs Ht]. inversion Hs as [|?? y k]; subst. inversion Ht; subst. simpl. eauto 10.
Qed.

(** A sticky reader is left as it is by every operation. *)
Lemma read_op_sticky o r e : pr_error r = Some e → read_op o r = (r, Err e).
Proof.
  intros Herr. assert (∀ n, take_bytes n r = (r, Err e)) as Ht
    by (intros n; unfold take_bytes; run_M; by rewrite Herr).
  by destruct o; simpl; unfold read_bool, read_status, read_phase, read_u8, read_u16, read_u32,
    read_u64, read_bytes; run_M; rewrite Ht.
Qed.

Lemma read_script_sticky shape r e : pr_error r = Some e → read_script shape r = (r, Err e).
Proof.
  intros Herr. destruct shape as [|o shape]; simpl.
  - unfold reader_finish. run_M. by rewrite Herr.
  - apply M_bind_fail. by apply read_op_sticky.
Qed.
End scripts.

(** ** Properties of the payload cursors *)

(** A fresh writer, driven by any sequence of typed writes, holds exactly
    the images of the writes up to the first one that does not fit below the
    frame ceiling and the destination's end; the bytes behind them are
    untouched, and the recorded error says whether everything was written. *)
Theorem writer_script_run l dest :
  let w := run_script l (writer_new dest) in
  let '(img, ok) := script_image (N.min (len dest) MAXIMUM_FRAME_PAYLOAD_BYTES) l in
  written w = img ∧
  pw_destination w = img ++ drop (length img) dest ∧
  writer_len w = len img ∧
  pw_error w = (if ok then None else Some OutputTooSmall).
Proof.
  pose proof (run_script_spec l (writer_new dest) (writer_new_wf dest) eq_refl) as H.
  simpl in H. rewrite N.sub_0_r in H.
  pose proof (script_image_len (N.min (len dest) MAXIMUM_FRAME_PAYLOAD_BYTES) l) as Hl.
  destruct (script_image _ l) as [img ok]. simpl in *. rewrite H. unfold written.
  destruct ok; simpl; unfold pw_emit, splice; simpl;
    by rewrite N.add_0_l, len_to_nat, take_app_length.
Qed.

(** Reading back a shape of typed fields and finishing succeeds exactly on
    the concatenated images of values of that shape, each within its width:
    writing and reading are inverse, booleans, statuses and phases have one
    encoding each, and no byte is left over. *)
Theorem reader_script_canonical payload shape l :
  with_reader payload (read_script shape) = Ok l ↔
  len payload ≤ MAXIMUM_FRAME_PAYLOAD_BYTES ∧ payload = concat (op_image <$> l) ∧
  Forall2 same_shape shape l ∧ Forall op_typed l.
Proof.
  destruct (decide (len payload ≤ MAXIMUM_FRAME_PAYLOAD_BYTES)) as [Hle|Hgt].
  - rewrite (with_reader_finishes _ _ _ _ _ (read_script_finishes shape) Hle). tauto.
  - split; [|naive_solver]. intros H. exfalso. revert H. unfold with_reader.
    assert (pr_error (reader_new payload) = Some PayloadTooLarge) as Herr
      by (simpl; case_cmp; [done|lia]).
    by rewrite (read_script_sticky _ _ _ Herr).
Qed.
