(* ===== verification/Frame.v ===== *)
(** * Frames

    [crates/ohl-parser-protocol/src/frame.rs]: the fixed 32-byte header and
    the encoder and decoder of exactly one frame.  The header's wire image is
    produced and viewed by the [zerocopy] crate, which is not part of the
    repository: it is the parameter [HeaderImage], with the documented layout
    of the [#[repr(C)]] little-endian struct as its law. *)

From S2P Require Export Payload.

(** ** The wire image of the header *)

Record RawFrameHeader : Type := {
  raw_magic : list byte;
  raw_major_version : N;
  raw_minor_version : N;
  raw_message_type : N;
  raw_flags : N;
  raw_payload_length : N;
  raw_session_id : N;
  raw_request_id : N
}.

(** The fields hold values of their declared types. *)
Definition raw_typed (raw : RawFrameHeader) : Prop :=
  length (raw_magic raw) = 4%nat ∧
  fits 16 (raw_major_version raw) ∧ fits 16 (raw_minor_version raw) ∧
  fits 16 (raw_message_type raw) ∧ fits 16 (raw_flags raw) ∧
  fits 32 (raw_payload_length raw) ∧
  fits 64 (raw_session_id raw) ∧ fits 64 (raw_request_id raw).

(** Declared order, no padding, every integer little-endian. *)
Definition raw_layout (raw : RawFrameHeader) : list byte :=
  raw_magic raw ++ le_bytes 2 (raw_major_version raw) ++
  le_bytes 2 (raw_minor_version raw) ++ le_bytes 2 (raw_message_type raw) ++
  le_bytes 2 (raw_flags raw) ++ le_bytes 4 (raw_payload_length raw) ++
  le_bytes 8 (raw_session_id raw) ++ le_bytes 8 (raw_request_id raw).

(** [IntoBytes::as_bytes] and [FromBytes::ref_from_bytes] of the struct. *)
Class HeaderImage : Type := {
  as_bytes : RawFrameHeader → list byte;
  ref_from_bytes : list byte → option RawFrameHeader
}.

Class HeaderImageLaws `{HeaderImage} : Prop := {
  as_bytes_layout raw : raw_typed raw → as_bytes raw = raw_layout raw;
  ref_from_bytes_layout raw : raw_typed raw → ref_from_bytes (raw_layout raw) = Some raw
}.

(** ** [FrameHeader] *)

Record FrameHeader : Type := {
  major_version : N;
  minor_version : N;
  message_type : MessageType;
  flags : N;
  payload_length : N;
  session_id : N;
  request_id : N
}.

#[export] Instance FrameHeader_eq_dec : EqDecision FrameHeader.
Proof. solve_decision. Defined.

(** [FrameHeader::new]. *)
Definition frame_header_new (ty : MessageType) (session_id request_id payload_length : N)
  : FrameHeader :=
  {| major_version := PROTOCOL_MAJOR_VERSION;
     minor_version := PROTOCOL_MINOR_VERSION;
     message_type := ty;
     flags := 0;
     payload_length := payload_length;
     session_id := session_id;
     request_id := request_id |}.

(** [FrameHeader::validate]. *)
Definition header_validate (h : FrameHeader) : result ProtocolError unit :=
  guard_err (negb (major_version h =? PROTOCOL_MAJOR_VERSION) ||
             negb (minor_version h =? PROTOCOL_MINOR_VERSION)) UnsupportedVersion;;
  guard_err (negb (flags h =? 0)) ReservedFlags;;
  guard_err (MAXIMUM_FRAME_PAYLOAD_BYTES <? payload_length h) PayloadTooLarge;;
  guard_err (session_id h =? 0) InvalidSessionId;;
  let zero_request := requires_zero_request_id (message_type h) in
  guard_err ((zero_request && negb (request_id h =? 0)) ||
             (negb zero_request && (request_id h =? 0))) InvalidRequestId.

Definition raw_of_header (h : FrameHeader) : RawFrameHeader :=
  {| raw_magic := FRAME_MAGIC;
     raw_major_version := major_version h;
     raw_minor_version := minor_version h;
     raw_message_type := message_type_to_wire (message_type h);
     raw_flags := flags h;
     raw_payload_length := payload_length h;
     raw_session_id := session_id h;
     raw_request_id := request_id h |}.

(** [FrameView]. *)
Record FrameView : Type := {
  fv_header : FrameHeader;
  fv_payload : list byte
}.

Definition frame_view_new (header : FrameHeader) (payload : list byte) : FrameView :=
  {| fv_header := header; fv_payload := payload |}.

Section codec.
Context `{HeaderImage}.

(** [FrameHeader::encode], over the borrowed 32-byte array. *)
Definition header_encode (h : FrameHeader) : M (list byte) ProtocolError unit :=
  lift (header_validate h);;
  let raw := raw_of_header h in
  modify (λ destination, as_bytes raw).

Definition encode_frame_header (h : FrameHeader) : M (list byte) ProtocolError unit :=
  header_encode h.

Definition decode_frame_header (bytes : list byte) : result ProtocolError FrameHeader :=
  raw ← ok_or (ref_from_bytes bytes) TruncatedHeader;
  guard_err (negb (bool_decide (raw_magic raw = FRAME_MAGIC))) InvalidMagic;;
  let major := raw_major_version raw in
  let minor := raw_minor_version raw in
  guard_err (negb (major =? PROTOCOL_MAJOR_VERSION) ||
             negb (minor =? PROTOCOL_MINOR_VERSION)) UnsupportedVersion;;
  ty ← message_type_from_wire (raw_message_type raw);
  let header := {| major_version := major; minor_version := minor;
                   message_type := ty; flags := raw_flags raw;
                   payload_length := raw_payload_length raw;
                   session_id := raw_session_id raw;
                   request_id := raw_request_id raw |} in
  header_validate header;;
  mret header.

(** [encode_frame]: the destination is split at the header, the header half
    is encoded in place and the payload copied behind it. *)
Definition encode_frame (header : FrameHeader) (payload : list byte)
  : M (list byte) ProtocolError N :=
  lift (guard_err (MAXIMUM_FRAME_PAYLOAD_BYTES <? len payload) PayloadTooLarge);;
  lift (guard_err (negb (payload_length header =? len payload)) NoncanonicalValue);;
  lift (header_validate header);;
  let frame_size := FRAME_HEADER_BYTES + len payload in
  destination ← get;
  lift (guard_err (len destination <? frame_size) OutputTooSmall);;
  in_prefix FRAME_HEADER_BYTES OutputTooSmall (header_encode header);;
  modify (splice FRAME_HEADER_BYTES payload);;
  mret frame_size.

Definition decode_frame (bytes : list byte) (expected_session_id : N)
  : result ProtocolError FrameView :=
  header_bytes ← ok_or (get_range 0 FRAME_HEADER_BYTES bytes) TruncatedHeader;
  header ← decode_frame_header header_bytes;
  guard_err (negb (expected_session_id =? 0) &&
             negb (session_id header =? expected_session_id)) WrongSessionId;;
  let frame_size := FRAME_HEADER_BYTES + payload_length header in
  guard_err (len bytes <? frame_size) TruncatedPayload;;
  guard_err (negb (len bytes =? frame_size)) TrailingBytes;;
  mret (frame_view_new header
          (subslice FRAME_HEADER_BYTES (payload_length header) bytes)).
End codec.

(** A concrete view of the header that satisfies the laws. *)
Definition raw_view (bytes : list byte) : option RawFrameHeader :=
  if decide (length bytes = 32%nat) then
    Some {| raw_magic := subslice 0 4 bytes;
            raw_major_version := of_le_bytes (subslice 4 2 bytes);
            raw_minor_version := of_le_bytes (subslice 6 2 bytes);
            raw_message_type := of_le_bytes (subslice 8 2 bytes);
            raw_flags := of_le_bytes (subslice 10 2 bytes);
            raw_payload_length := of_le_bytes (subslice 12 4 bytes);
            raw_session_id := of_le_bytes (subslice 16 8 bytes);
            raw_request_id := of_le_bytes (subslice 24 8 bytes) |}
  else None.

Definition packed_image : HeaderImage :=
  {| as_bytes := raw_layout; ref_from_bytes := raw_view |}.

(** ** Specification *)

(** The frame of a header and a payload, as the protocol's table lays it
    out. *)
Definition frame_image (h : FrameHeader) (payload : list byte) : list byte :=
  raw_layout (raw_of_header h) ++ payload.

(** A header with fields of their declared types: what a [FrameHeader] value
    is. *)
Definition header_typed (h : FrameHeader) : Prop :=
  fits 16 (major_version h) ∧ fits 16 (minor_version h) ∧ fits 16 (flags h) ∧
  fits 32 (payload_length h) ∧ fits 64 (session_id h) ∧ fits 64 (request_id h).

(** The rules a canonical header obeys. *)
Definition header_ok (h : FrameHeader) : Prop :=
  major_version h = PROTOCOL_MAJOR_VERSION ∧ minor_version h = PROTOCOL_MINOR_VERSION ∧
  flags h = 0 ∧ payload_length h ≤ MAXIMUM_FRAME_PAYLOAD_BYTES ∧ session_id h ≠ 0 ∧
  (requires_zero_request_id (message_type h) = true ↔ request_id h = 0).

#[export] Instance header_typed_dec h : Decision (header_typed h).
Proof. unfold header_typed. apply _. Defined.

Arguments raw_layout : simpl never.
Arguments frame_image : simpl never.

(** ** Lemmas *)

Lemma header_validate_Ok h u : header_validate h = Ok u ↔ header_ok h.
Proof.
  unfold header_validate, header_ok. rewrite !guard_seq, guard_err_Ok.
  rewrite !orb_false_iff, !andb_false_iff, !negb_false_iff, !N.eqb_eq, N.ltb_ge, !N.eqb_neq.
  destruct (requires_zero_request_id _); naive_solver.
Qed.

Lemma header_validate_version h :
  negb (major_version h =? PROTOCOL_MAJOR_VERSION) ||
  negb (minor_version h =? PROTOCOL_MINOR_VERSION) = true →
  header_validate h = Err UnsupportedVersion.
Proof. unfold header_validate. by intros ->. Qed.

Lemma header_validate_tt h u : header_validate h = Ok u → header_validate h = Ok tt.
Proof. by destruct u. Qed.

Lemma length_raw_layout raw : raw_typed raw → length (raw_layout raw) = 32%nat.
Proof.
  intros [Hm _]. unfold raw_layout. rewrite !length_app, !length_le_bytes, Hm. done.
Qed.

Lemma raw_of_header_typed h : header_typed h → raw_typed (raw_of_header h).
Proof.
  unfold header_typed, raw_typed. simpl. pose proof (wire_code_fits (message_type h)).
  naive_solver.
Qed.

Lemma header_validate_typed h u :
  header_validate h = Ok u → fits 64 (session_id h) → fits 64 (request_id h) → header_typed h.
Proof.
  intros (E1 & E2 & E3 & ? & _)%header_validate_Ok ??. unfold header_typed.
  rewrite E1, E2, E3. split_and!; try done. unfold fits, MAXIMUM_FRAME_PAYLOAD_BYTES in *.
  assert (2 ^ 20 < 2 ^ 32) by done. lia.
Qed.

Lemma len_raw_of_header h : len (raw_layout (raw_of_header h)) = FRAME_HEADER_BYTES.
Proof. unfold raw_layout. by rewrite !len_app, !len_le_bytes. Qed.

(** The laws are satisfied by the packed little-endian struct. *)
Lemma packed_image_laws : HeaderImageLaws (H:=packed_image).
Proof.
  split; [done|]. intros raw Ht. simpl. unfold raw_view.
  rewrite decide_True by (by apply length_raw_layout).
  destruct Ht as (Hm & ? & ? & ? & ? & ? & ? & ?). destruct raw as [mg ma mi ty fl pl si ri].
  simpl in *. destruct mg as [|b0 [|b1 [|b2 [|b3 [|]]]]]; try done.
  unfold raw_layout, subslice. simpl raw_magic. cbn [raw_major_version raw_minor_version
    raw_message_type raw_flags raw_payload_length raw_session_id raw_request_id].
  repeat match goal with |- context [le_bytes ?n ?v] =>
    let l := fresh "l" in let E := fresh "E" in
    pose proof (length_le_bytes n v) as E;
    pose proof (of_le_bytes_id n (8 * N.of_nat n) v eq_refl);
    set (l := le_bytes n v) in *; clearbody l;
    repeat (destruct l as [|? l]; [done|]); destruct l; [|done]; clear E
  end.
  cbn. f_equal. f_equal;
    match goal with E : _ → _ = ?v |- _ = ?v => by apply E end.
Qed.

#[export] Existing Instance packed_image_laws.

Section codec_lemmas.
Context `{HeaderImageLaws}.

Lemma header_encode_run h d :
  header_typed h →
  header_encode h d = match header_validate h with
                      | Ok _ => (raw_layout (raw_of_header h), Ok tt)
                      | Err e => (d, Err e)
                      end.
Proof.
  intros Ht. unfold header_encode. run_M. destruct (header_validate h) as [[]|]; [|done].
  by rewrite as_bytes_layout by (by apply raw_of_header_typed).
Qed.

Lemma decode_frame_header_layout h :
  header_typed h →
  decode_frame_header (raw_layout (raw_of_header h)) =
    match header_validate h with Ok _ => Ok h | Err e => Err e end.
Proof.
  intros Ht. unfold decode_frame_header.
  rewrite ref_from_bytes_layout by (by apply raw_of_header_typed).
  destruct h as [ma mi ty fl pl si ri].
  cbn [ok_or mbind result_bind raw_of_header raw_magic raw_major_version raw_minor_version
    raw_message_type raw_flags raw_payload_length raw_session_id raw_request_id
    message_type major_version minor_version flags payload_length session_id request_id].
  rewrite wire_code_to_from, bool_decide_true by done.
  set (h := {| major_version := ma |}).
  destruct (negb (ma =? _) || negb (mi =? _)) eqn:E.
  - simpl. by rewrite (header_validate_version h E).
  - simpl. unfold h. by destruct (header_validate _).
Qed.

(** Every 32-byte array is the layout of a typed raw header. *)
Lemma raw_layout_surj bytes :
  length bytes = 32%nat → ∃ raw, raw_typed raw ∧ raw_layout raw = bytes.
Proof.
  intros Hl.
  do 32 (destruct bytes as [|? bytes]; [done|]). destruct bytes; [|done]. clear Hl.
  match goal with |- context [_ = [?a0; ?a1; ?a2; ?a3; ?b0; ?b1; ?c0; ?c1; ?d0; ?d1; ?e0; ?e1;
    ?f0; ?f1; ?f2; ?f3; ?g0; ?g1; ?g2; ?g3; ?g4; ?g5; ?g6; ?g7;
    ?h0; ?h1; ?h2; ?h3; ?h4; ?h5; ?h6; ?h7]] =>
    exists {| raw_magic := [a0; a1; a2; a3];
      raw_major_version := of_le_bytes [b0; b1];
      raw_minor_version := of_le_bytes [c0; c1];
      raw_message_type := of_le_bytes [d0; d1];
      raw_flags := of_le_bytes [e0; e1];
      raw_payload_length := of_le_bytes [f0; f1; f2; f3];
      raw_session_id := of_le_bytes [g0; g1; g2; g3; g4; g5; g6; g7];
      raw_request_id := of_le_bytes [h0; h1; h2; h3; h4; h5; h6; h7] |}
  end.
  split.
  - unfold raw_typed. simpl. split_and!; try done;
      match goal with |- fits ?w (of_le_bytes ?l) =>
        exact (of_le_bytes_fits (length l) l eq_refl) end.
  - unfold raw_layout. cbn [raw_magic raw_major_version raw_minor_version raw_message_type
      raw_flags raw_payload_length raw_session_id raw_request_id].
    by rewrite !le_bytes_inj_len by done.
Qed.

Lemma decode_frame_header_Ok bytes h :
  length bytes = 32%nat →
  decode_frame_header bytes = Ok h ↔
  header_typed h ∧ header_ok h ∧ bytes = raw_layout (raw_of_header h).
Proof.
  intros Hl. split.
  - destruct (raw_layout_surj bytes Hl) as (raw & Ht & <-). unfold decode_frame_header.
    rewrite ref_from_bytes_layout by done. simpl. rewrite !guard_seq.
    intros (Hm & _ & Hd). bool_to_prop.
    apply bind_Ok in Hd as (ty & Hty & Hd). apply bind_Ok in Hd as (u & Hv & Hd).
    apply wire_code_from_wire in Hty. injection Hd as <-.
    pose proof (proj1 (header_validate_Ok _ _) Hv) as Hok. destruct Ht as (?&?&?&?&?&?&?&?).
    split_and!; [done|done|]. unfold raw_of_header. simpl. rewrite <-Hm, <-Hty. by destruct raw.
  - intros (Ht & Hok & ->). rewrite decode_frame_header_layout by done.
    by rewrite (proj2 (header_validate_Ok h tt) Hok).
Qed.
End codec_lemmas.

(** ** Properties of the frame codec *)

Section properties.
Context `{HeaderImageLaws}.

Lemma encode_frame_branches h payload dest :
  header_typed h →
  encode_frame h payload dest =
    if MAXIMUM_FRAME_PAYLOAD_BYTES <? len payload then (dest, Err PayloadTooLarge)
    else if negb (payload_length h =? len payload) then (dest, Err NoncanonicalValue)
    else match header_validate h with
         | Err e => (dest, Err e)
         | Ok _ =>
             if len dest <? FRAME_HEADER_BYTES + len payload then (dest, Err OutputTooSmall)
             else (frame_image h payload ++
                     drop (N.to_nat (FRAME_HEADER_BYTES + len payload)) dest,
                   Ok (FRAME_HEADER_BYTES + len payload))
         end.
Proof.
  intros Ht. unfold encode_frame, guard_err. run_M.
  destruct (_ <? len payload); [done|]. destruct (negb (payload_length h =? len payload)); [done|].
  destruct (header_validate h) as [[]|e] eqn:Hv; [|done].
  case_cmp; [done|]. unfold in_prefix.
  assert (FRAME_HEADER_BYTES ≤ len dest) as Hh by lia.
  rewrite (proj2 (N.leb_le _ _) Hh), header_encode_run, Hv by done.
  do 2 f_equal. unfold frame_image, splice. rewrite <-(len_raw_of_header h) at 1.
  rewrite len_to_nat, take_app_length, <-app_assoc. do 2 f_equal.
  pose proof (len_raw_of_header h) as Hl.
  assert (length (raw_layout (raw_of_header h)) = N.to_nat FRAME_HEADER_BYTES) as Hl'
    by (unfold len in Hl; lia).
  rewrite drop_app_ge by lia. rewrite Hl', drop_drop. f_equal. unfold len. lia.
Qed.

(** On every branch, [encode_frame] reports the first violated rule in the
    order payload ceiling, declared length, header rules, destination size,
    and leaves the destination untouched; otherwise it writes exactly the
    frame's wire image to the front of the destination, keeps every byte
    behind it, and returns the image's length. *)
Theorem encode_frame_spec h payload dest :
  header_typed h →
  encode_frame h payload dest =
    if MAXIMUM_FRAME_PAYLOAD_BYTES <? len payload then (dest, Err PayloadTooLarge)
    else if negb (payload_length h =? len payload) then (dest, Err NoncanonicalValue)
    else match header_validate h with
         | Err e => (dest, Err e)
         | Ok _ =>
             if len dest <? FRAME_HEADER_BYTES + len payload then (dest, Err OutputTooSmall)
             else (frame_image h payload ++
                     drop (N.to_nat (FRAME_HEADER_BYTES + len payload)) dest,
                   Ok (FRAME_HEADER_BYTES + len payload))
         end.
Proof. apply encode_frame_branches. Qed.

Lemma decode_frame_Ok bytes expected v :
  decode_frame bytes expected = Ok v ↔
  header_typed (fv_header v) ∧ header_ok (fv_header v) ∧
  payload_length (fv_header v) = len (fv_payload v) ∧
  (expected = 0 ∨ session_id (fv_header v) = expected) ∧
  bytes = frame_image (fv_header v) (fv_payload v).
Proof.
  unfold decode_frame. split.
  - intros (hb & (_ & Hlen & ->)%ok_or_Ok%get_range_Some & Hd)%bind_Ok.
    apply bind_Ok in Hd as (h & Hh & Hd). rewrite !guard_seq in Hd.
    destruct Hd as (Hsid & Hshort & Hlong & [= <-]). bool_to_prop. simpl.
    rewrite N.sub_0_r in Hh.
    apply decode_frame_header_Ok in Hh as (Ht & Hok & Hb);
      [|pose proof (len_subslice 0 FRAME_HEADER_BYTES bytes Hlen) as E; unfold len in E;
        change FRAME_HEADER_BYTES with (N.of_nat 32) in E at 2; lia].
    assert (len (subslice FRAME_HEADER_BYTES (payload_length h) bytes) = payload_length h) as Hp
      by (apply len_subslice; lia).
    split_and!; [done|done|done| |].
    + apply andb_false_iff in Hsid as [?%negb_false_iff%N.eqb_eq|?%negb_false_iff%N.eqb_eq]; auto.
    + unfold frame_image. rewrite <-Hb. unfold subslice. simpl (N.to_nat 0). rewrite drop_0.
      rewrite (take_ge (drop _ bytes)), take_drop; [done|].
      rewrite length_drop. unfold len in Hlong. lia.
  - destruct v as [h p]. simpl. intros (Ht & Hok & Hp & Hsid & ->).
    unfold frame_image. pose proof (len_raw_of_header h) as Hl.
    pose proof (len_app (raw_layout (raw_of_header h)) p) as Hlen. rewrite Hl in Hlen.
    rewrite (proj2 (get_range_Some 0 FRAME_HEADER_BYTES _ (raw_layout (raw_of_header h)))).
    2:{ split_and!; [done|lia|]. unfold subslice. rewrite N.sub_0_r, drop_0, <-Hl, len_to_nat.
        by rewrite take_app_length. }
    cbn [mbind result_bind ok_or].
    pose proof (length_raw_layout _ (raw_of_header_typed _ Ht)) as Hll.
    rewrite (proj2 (decode_frame_header_Ok _ h Hll)) by done.
    cbn [mbind result_bind]. rewrite Hlen, Hp.
    assert (negb (expected =? 0) && negb (session_id h =? expected) = false) as ->.
    { destruct Hsid as [->|<-]; [done|]. rewrite N.eqb_refl. by destruct (negb _). }
    rewrite N.ltb_irrefl, N.eqb_refl. cbn [negb guard_err mbind result_bind].
    unfold frame_view_new, mret, result_ret.
    rewrite <-Hl. by rewrite subslice_app_r.
Qed.

(** [decode_frame] accepts a byte string exactly when it is the canonical
    image of a header that obeys every header rule and of a payload of the
    declared length (and of the expected session, when one is given): nothing
    truncated, trailing, reserved or of another version is ever accepted, and
    the view it returns is that header and payload. *)
Theorem decode_frame_canonical bytes expected v :
  decode_frame bytes expected = Ok v ↔
  header_typed (fv_header v) ∧ header_ok (fv_header v) ∧
  payload_length (fv_header v) = len (fv_payload v) ∧
  (expected = 0 ∨ session_id (fv_header v) = expected) ∧
  bytes = frame_image (fv_header v) (fv_payload v).
Proof. apply decode_frame_Ok. Qed.

Lemma encode_frame_Ok_inv h payload dest dest' n :
  encode_frame h payload dest = (dest', Ok n) →
  len payload ≤ MAXIMUM_FRAME_PAYLOAD_BYTES ∧ payload_length h = len payload ∧ header_ok h.
Proof.
  unfold encode_frame. intros E. inv_run. bool_to_prop.
  split_and!; [done|done|]. by eapply header_validate_Ok.
Qed.

Lemma frame_header_new_typed ty session request n :
  fits 64 session → fits 64 request → n ≤ MAXIMUM_FRAME_PAYLOAD_BYTES →
  header_typed (frame_header_new ty session request n).
Proof.
  intros ???. unfold header_typed. simpl. split_and!; try done.
  unfold fits, MAXIMUM_FRAME_PAYLOAD_BYTES in *. assert (2 ^ 20 < 2 ^ 32) by done. lia.
Qed.

Lemma decode_encoded_frame h payload dest dest' n :
  header_typed h →
  encode_frame h payload dest = (dest', Ok n) →
  decode_frame (take (N.to_nat n) dest') (session_id h) =
    Ok (frame_view_new h payload).
Proof.
  intros Ht He. destruct (encode_frame_Ok_inv _ _ _ _ _ He) as (Hmax & Hlen & Hok).
  revert He. rewrite encode_frame_branches by done.
  rewrite (proj2 (N.ltb_ge _ _) Hmax), Hlen, N.eqb_refl. cbn [negb].
  destruct (header_validate h) as [u|] eqn:Hv; [|done]. case_cmp; [done|].
  intros [<- [= <-]]%pair_equal_spec. apply decode_frame_Ok. cbn [fv_header fv_payload frame_view_new].
  split_and!; [done|done|done|by right|].
  apply take_app_length'. unfold frame_image.
  pose proof (len_raw_of_header h) as Hl. rewrite length_app. unfold len in *. lia.
Qed.

(** Whatever [encode_frame] writes, [decode_frame] reads back as the same
    header and payload under the same session. *)
Theorem encode_decode_frame h payload dest dest' n :
  header_typed h →
  encode_frame h payload dest = (dest', Ok n) →
  decode_frame (take (N.to_nat n) dest') (session_id h) =
    Ok (frame_view_new h payload).
Proof. apply decode_encoded_frame. Qed.
End properties.

(** *** Witnesses *)

Definition sample_header : FrameHeader := frame_header_new MT_Enumerate 7 1 2.

Lemma encode_frame_spec_witness :
  header_typed sample_header ∧
  encode_frame (H:=packed_image) sample_header [xaa; xbb] (replicate 36 x00) =
    (frame_image sample_header [xaa; xbb] ++ [x00; x00], Ok 34).
Proof.
  split; [by vm_compute|].
  rewrite (encode_frame_spec (H:=packed_image) sample_header) by (by vm_compute).
  vm_compute. reflexivity.
Defined.

Lemma encode_decode_frame_witness :
  decode_frame (H:=packed_image)
    (take 34 (frame_image sample_header [xaa; xbb] ++ [x00; x00])) 7 =
    Ok (frame_view_new sample_header [xaa; xbb]).
Proof.
  apply (encode_decode_frame (H:=packed_image) sample_header [xaa; xbb] (replicate 36 x00) _ 34);
    [by vm_compute | vm_compute; reflexivity].
Defined.

Lemma decode_frame_canonical_witness :
  decode_frame (H:=packed_image) (frame_image sample_header [xaa; xbb]) 7 =
    Ok (frame_view_new sample_header [xaa; xbb]).
Proof.
  apply (decode_frame_canonical (H:=packed_image)).
  vm_compute. intuition done.
Defined.
