(* ===== verification/Messages.v ===== *)
(** * Typed message schemas

    [crates/ohl-parser-protocol/src/messages.rs], everything except the
    [entry_batch] family (see [EntryBatch.v]): the budgets, the message
    structures, and for each family its encoder and its canonical decoder. *)

From S2P Require Export Frame.

(** ** Constants *)

Definition HELLO_PAYLOAD_BYTES : N := 12.
Definition READY_PAYLOAD_BYTES : N := 0.
Definition ENUMERATE_PAYLOAD_BYTES : N := 0.
Definition STREAM_ENTRY_PAYLOAD_BYTES : N := 8.
Definition READ_REQUEST_PAYLOAD_BYTES : N := 16.
Definition READ_REPLY_PREFIX_BYTES : N := 6.
Definition COMPLETE_PAYLOAD_BYTES : N := 4.
Definition CANCEL_PAYLOAD_BYTES : N := 0.
Definition CANCEL_ACK_PAYLOAD_BYTES : N := 0.
Definition SHUTDOWN_PAYLOAD_BYTES : N := 0.
Definition MAXIMUM_READ_BYTES : N := MAXIMUM_FRAME_PAYLOAD_BYTES - 6.
Definition MAXIMUM_DATA_CHUNK_BYTES : N := 256 * 1024.

(** ** [OperationPhase] *)

Inductive OperationPhase : Type := OP_Enumerate | OP_Stream.

(** [impl From<OperationPhase> for ProtocolPhase]. *)
Definition phase_of_operation (phase : OperationPhase) : ProtocolPhase :=
  match phase with OP_Enumerate => PP_Enumerate | OP_Stream => PP_Stream end.

(** [impl TryFrom<ProtocolPhase> for OperationPhase]. *)
Definition operation_of_phase (phase : ProtocolPhase) : result ProtocolError OperationPhase :=
  match phase with
  | PP_Enumerate => Ok OP_Enumerate
  | PP_Stream => Ok OP_Stream
  | _ => Err InvalidBudget
  end.

(** ** [SourceReadPolicy] *)

Record SourceReadPolicy : Type := {
  source_size : N;
  maximum_read_bytes : N
}.

Definition source_read_policy_new (size maximum : N) : result ProtocolError SourceReadPolicy :=
  if (size =? 0) || (maximum =? 0) || (MAXIMUM_READ_BYTES <? maximum) then Err InvalidBudget
  else Ok {| source_size := size; maximum_read_bytes := maximum |}.

(** ** Message structures *)

Record Hello : Type := {
  hello_source_size : N;
  hello_maximum_read_bytes : N
}.

Record StreamEntry : Type := { source_token : N }.

Record ReadRequest : Type := {
  rq_read_sequence : N;
  rq_offset : N;
  rq_length : N
}.

Record ReadReply : Type := {
  rp_read_sequence : N;
  rp_status : ProtocolStatus;
  rp_data : list byte
}.

Record DataChunk : Type := { chunk_data : list byte }.

Record Complete : Type := {
  complete_status : ProtocolStatus;
  complete_phase : ProtocolPhase
}.

(** ** Frame checks shared by every decoder *)

Definition validate_frame (frame : FrameView) (expected : MessageType)
  : result ProtocolError unit :=
  let header := fv_header frame in
  header_validate header;;
  let payload := fv_payload frame in
  guard_err (MAXIMUM_FRAME_PAYLOAD_BYTES <? len payload) PayloadTooLarge;;
  guard_err (len payload <? payload_length header) TruncatedPayload;;
  guard_err (payload_length header <? len payload) TrailingBytes;;
  guard_err (negb (bool_decide (message_type header = expected))) UnexpectedMessage.

Definition decode_empty (frame : FrameView) (expected : MessageType)
  : result ProtocolError unit :=
  validate_frame frame expected;;
  with_reader (fv_payload frame) reader_finish.

(** ** hello *)

Definition encode_hello_payload (message : Hello) : M (list byte) ProtocolError N :=
  lift (map_err (λ _, NoncanonicalValue)
    (source_read_policy_new (hello_source_size message) (hello_maximum_read_bytes message)));;
  in_prefix HELLO_PAYLOAD_BYTES OutputTooSmall (with_writer (
    write_u64 (hello_source_size message);;
    write_u32 (hello_maximum_read_bytes message)));;
  mret HELLO_PAYLOAD_BYTES.

Definition decode_hello_payload (frame : FrameView) : result ProtocolError Hello :=
  validate_frame frame MT_Hello;;
  message ← with_reader (fv_payload frame) (
    size ← read_u64;
    maximum ← read_u32;
    let message := {| hello_source_size := size; hello_maximum_read_bytes := maximum |} in
    reader_finish;; mret message);
  map_err (λ _, NoncanonicalValue)
    (source_read_policy_new (hello_source_size message) (hello_maximum_read_bytes message));;
  mret message.

(** ** Empty payloads *)

Definition encode_ready_payload : N := READY_PAYLOAD_BYTES.
Definition decode_ready_payload (frame : FrameView) : result ProtocolError unit :=
  decode_empty frame MT_Ready.
Definition encode_enumerate_payload : N := ENUMERATE_PAYLOAD_BYTES.
Definition decode_enumerate_payload (frame : FrameView) : result ProtocolError unit :=
  decode_empty frame MT_Enumerate.
Definition encode_cancel_payload : N := CANCEL_PAYLOAD_BYTES.
Definition decode_cancel_payload (frame : FrameView) : result ProtocolError unit :=
  decode_empty frame MT_Cancel.
Definition encode_cancel_ack_payload : N := CANCEL_ACK_PAYLOAD_BYTES.
Definition decode_cancel_ack_payload (frame : FrameView) : result ProtocolError unit :=
  decode_empty frame MT_CancelAck.
Definition encode_shutdown_payload : N := SHUTDOWN_PAYLOAD_BYTES.
Definition decode_shutdown_payload (frame : FrameView) : result ProtocolError unit :=
  decode_empty frame MT_Shutdown.

(** ** stream_entry *)

Definition encode_stream_entry_payload (message : StreamEntry) : M (list byte) ProtocolError N :=
  in_prefix STREAM_ENTRY_PAYLOAD_BYTES OutputTooSmall (with_writer (
    write_u64 (source_token message)));;
  mret STREAM_ENTRY_PAYLOAD_BYTES.

Definition decode_stream_entry_payload (frame : FrameView) : result ProtocolError StreamEntry :=
  validate_frame frame MT_StreamEntry;;
  with_reader (fv_payload frame) (
    token ← read_u64;
    let message := {| source_token := token |} in
    reader_finish;; mret message).

(** ** read_request *)

Definition validate_read_request (message : ReadRequest) (policy : SourceReadPolicy)
    (expected_sequence : N) : result ProtocolError unit :=
  guard_err (expected_sequence =? 0) InvalidBudget;;
  let fits := is_ok_and (checked_add_bounded 64 (rq_offset message) (rq_length message))
                (λ stop, stop <=? source_size policy) in
  guard_err ((rq_read_sequence message =? 0) ||
             negb (rq_read_sequence message =? expected_sequence) ||
             (rq_length message =? 0) ||
             (maximum_read_bytes policy <? rq_length message) ||
             (source_size policy <=? rq_offset message) ||
             negb fits) NoncanonicalValue.

Definition encode_read_request_payload (message : ReadRequest) (policy : SourceReadPolicy)
    (expected_sequence : N) : M (list byte) ProtocolError N :=
  lift (validate_read_request message policy expected_sequence);;
  in_prefix READ_REQUEST_PAYLOAD_BYTES OutputTooSmall (with_writer (
    write_u32 (rq_read_sequence message);;
    write_u64 (rq_offset message);;
    write_u32 (rq_length message)));;
  mret READ_REQUEST_PAYLOAD_BYTES.

Definition decode_read_request_payload (frame : FrameView) (policy : SourceReadPolicy)
    (expected_sequence : N) : result ProtocolError ReadRequest :=
  validate_frame frame MT_ReadRequest;;
  guard_err (expected_sequence =? 0) InvalidBudget;;
  message ← with_reader (fv_payload frame) (
    sequence ← read_u32;
    offset ← read_u64;
    length ← read_u32;
    let message := {| rq_read_sequence := sequence; rq_offset := offset;
                      rq_length := length |} in
    reader_finish;; mret message);
  validate_read_request message policy expected_sequence;;
  mret message.

(** ** read_reply *)

Definition reply_status_allowed (status : ProtocolStatus) : bool :=
  match status with
  | PS_Ok | PS_SourceChanged | PS_SourceReadFailed => true
  | _ => false
  end.

Definition validate_reply_context (expected_sequence requested_length : N)
  : result ProtocolError unit :=
  guard_err ((expected_sequence =? 0) || (requested_length =? 0) ||
             (MAXIMUM_READ_BYTES <? requested_length)) InvalidBudget.

Definition validate_read_reply (message : ReadReply) (expected_sequence requested_length : N)
  : result ProtocolError unit :=
  validate_reply_context expected_sequence requested_length;;
  guard_err ((rp_read_sequence message =? 0) ||
             negb (rp_read_sequence message =? expected_sequence) ||
             negb (reply_status_allowed (rp_status message))) NoncanonicalValue;;
  let shape_ok := if decide (rp_status message = PS_Ok)
                  then len (rp_data message) =? requested_length
                  else len (rp_data message) =? 0 in
  if shape_ok then Ok tt else Err NoncanonicalValue.

Definition encode_read_reply_payload (message : ReadReply)
    (expected_sequence requested_length : N) : M (list byte) ProtocolError N :=
  payload_size ← lift (map_err (λ _, PayloadTooLarge)
    (checked_add_bounded 64 (len (rp_data message)) READ_REPLY_PREFIX_BYTES));
  lift (guard_err (MAXIMUM_FRAME_PAYLOAD_BYTES <? payload_size) PayloadTooLarge);;
  lift (validate_read_reply message expected_sequence requested_length);;
  in_prefix payload_size OutputTooSmall (with_writer (
    write_u32 (rp_read_sequence message);;
    write_status (rp_status message);;
    write_bytes (rp_data message)));;
  mret payload_size.

Definition decode_read_reply_payload (frame : FrameView)
    (expected_sequence requested_length : N) : result ProtocolError ReadReply :=
  validate_frame frame MT_ReadReply;;
  validate_reply_context expected_sequence requested_length;;
  message ← with_reader (fv_payload frame) (
    sequence ← read_u32;
    status ← read_status;
    data ← read_remaining;
    reader_finish;;
    mret {| rp_read_sequence := sequence; rp_status := status; rp_data := data |});
  validate_read_reply message expected_sequence requested_length;;
  mret message.

(** ** data_chunk *)

Definition validate_data_chunk (message : DataChunk) (remaining_entry_bytes : N)
  : result ProtocolError unit :=
  guard_err (remaining_entry_bytes =? 0) InvalidBudget;;
  guard_err ((len (chunk_data message) =? 0) ||
             (MAXIMUM_DATA_CHUNK_BYTES <? len (chunk_data message)) ||
             (remaining_entry_bytes <? len (chunk_data message))) NoncanonicalValue.

Definition encode_data_chunk_payload (message : DataChunk) (remaining_entry_bytes : N)
  : M (list byte) ProtocolError N :=
  lift (validate_data_chunk message remaining_entry_bytes);;
  in_prefix (len (chunk_data message)) OutputTooSmall (with_writer (
    write_bytes (chunk_data message)));;
  mret (len (chunk_data message)).

Definition decode_data_chunk_payload (frame : FrameView) (remaining_entry_bytes : N)
  : result ProtocolError DataChunk :=
  validate_frame frame MT_DataChunk;;
  message ← with_reader (fv_payload frame) (
    data ← read_remaining;
    reader_finish;;
    mret {| chunk_data := data |});
  validate_data_chunk message remaining_entry_bytes;;
  mret message.

(** ** complete *)

Definition validate_complete (message : Complete) : result ProtocolError unit :=
  guard_err (negb (bool_decide (complete_status message = PS_Ok)) ||
             negb (bool_decide (complete_phase message = PP_Complete))) NoncanonicalValue.

(** The expected phase is part of the caller's context only. *)
Definition encode_complete_payload (message : Complete)
    (expected_operation_phase : OperationPhase) : M (list byte) ProtocolError N :=
  lift (validate_complete message);;
  in_prefix COMPLETE_PAYLOAD_BYTES OutputTooSmall (with_writer (
    write_status (complete_status message);;
    write_phase (complete_phase message)));;
  mret COMPLETE_PAYLOAD_BYTES.

Definition decode_complete_payload (frame : FrameView)
    (expected_operation_phase : OperationPhase) : result ProtocolError Complete :=
  validate_frame frame MT_Complete;;
  message ← with_reader (fv_payload frame) (
    status ← read_status;
    phase ← read_phase;
    let message := {| complete_status := status; complete_phase := phase |} in
    reader_finish;; mret message);
  validate_complete message;;
  mret message.
