(* ===== verification/Schemas.v ===== *)
(** * The schema contract

    What every fixed message family of [Messages.v] promises: a wire image, an
    acceptance policy stated independently of the code, an encoder that writes
    exactly the image of an accepted message or nothing, and a decoder that
    accepts exactly the images of accepted messages. *)

From S2P Require Export Messages.

(** ** The interface *)

Record Schema : Type := {
  sc_msg : Type;
  sc_ctx : Type;
  sc_kind : MessageType;
  sc_image : sc_msg → list byte;
  (** the integer fields hold values of their declared types *)
  sc_typed : sc_ctx → sc_msg → Prop;
  (** the message is canonical and within the context's budget *)
  sc_accepts : sc_ctx → sc_msg → Prop;
  sc_encode : sc_ctx → sc_msg → M (list byte) ProtocolError N;
  sc_decode : sc_ctx → FrameView → result ProtocolError sc_msg
}.

(** The frame-level conditions of [validate_frame]. *)
Definition frame_ok (frame : FrameView) (kind : MessageType) : Prop :=
  header_ok (fv_header frame) ∧
  len (fv_payload frame) = payload_length (fv_header frame) ∧
  message_type (fv_header frame) = kind.

Class SchemaLaws (s : Schema) : Prop := {
  schema_encode ctx m dest :
    sc_typed s ctx m → sc_accepts s ctx m →
    sc_encode s ctx m dest =
      if len (sc_image s m) <=? len dest then
        (sc_image s m ++ drop (N.to_nat (len (sc_image s m))) dest, Ok (len (sc_image s m)))
      else (dest, Err OutputTooSmall);
  schema_reject ctx m dest :
    sc_typed s ctx m → ¬ sc_accepts s ctx m → ∃ e, sc_encode s ctx m dest = (dest, Err e);
  schema_decode ctx frame m :
    sc_typed s ctx m →
    sc_decode s ctx frame = Ok m ↔
    frame_ok frame (sc_kind s) ∧ fv_payload frame = sc_image s m ∧ sc_accepts s ctx m;
  schema_decode_typed ctx frame m :
    (∃ m', sc_typed s ctx m') → sc_decode s ctx frame = Ok m → sc_typed s ctx m
}.

(** ** Acceptance policies *)

Definition hello_accepts (m : Hello) : Prop :=
  hello_source_size m ≠ 0 ∧ hello_maximum_read_bytes m ≠ 0 ∧
  hello_maximum_read_bytes m ≤ MAXIMUM_READ_BYTES.

(** The requested range lies inside the pinned source and within the ceiling,
    under the sequence number the parent expects. *)
Definition read_request_accepts (ctx : SourceReadPolicy * N) (m : ReadRequest) : Prop :=
  ctx.2 ≠ 0 ∧ rq_read_sequence m = ctx.2 ∧ rq_length m ≠ 0 ∧
  rq_length m ≤ maximum_read_bytes ctx.1 ∧ rq_offset m + rq_length m ≤ source_size ctx.1.

(** A successful reply carries exactly the requested bytes, a failed one
    carries none. *)
Definition read_reply_accepts (ctx : N * N) (m : ReadReply) : Prop :=
  ctx.1 ≠ 0 ∧ ctx.2 ≠ 0 ∧ ctx.2 ≤ MAXIMUM_READ_BYTES ∧ rp_read_sequence m = ctx.1 ∧
  (rp_status m = PS_Ok ∧ len (rp_data m) = ctx.2 ∨
   (rp_status m = PS_SourceChanged ∨ rp_status m = PS_SourceReadFailed) ∧ rp_data m = []).

Definition data_chunk_accepts (remaining : N) (m : DataChunk) : Prop :=
  remaining ≠ 0 ∧ chunk_data m ≠ [] ∧ len (chunk_data m) ≤ MAXIMUM_DATA_CHUNK_BYTES ∧
  len (chunk_data m) ≤ remaining.

Definition complete_accepts (m : Complete) : Prop :=
  complete_status m = PS_Ok ∧ complete_phase m = PP_Complete.

(** ** The eleven fixed families *)

Inductive Family : Type :=
| FHello | FReady | FEnumerate | FStreamEntry | FReadRequest | FReadReply
| FDataChunk | FComplete | FCancel | FCancelAck | FShutdown.

Definition empty_schema (kind : MessageType) (size : N)
    (decode : FrameView → result ProtocolError unit) : Schema :=
  {| sc_msg := unit; sc_ctx := unit; sc_kind := kind;
     sc_image := λ _, [];
     sc_typed := λ _ _, True;
     sc_accepts := λ _ _, True;
     sc_encode := λ _ _, mret size;
     sc_decode := λ _, decode |}.

Definition hello_schema : Schema :=
  {| sc_msg := Hello; sc_ctx := unit; sc_kind := MT_Hello;
     sc_image := λ m, le_bytes 8 (hello_source_size m) ++
                      le_bytes 4 (hello_maximum_read_bytes m);
     sc_typed := λ _ m, fits 64 (hello_source_size m) ∧ fits 32 (hello_maximum_read_bytes m);
     sc_accepts := λ _, hello_accepts;
     sc_encode := λ _, encode_hello_payload;
     sc_decode := λ _, decode_hello_payload |}.

Definition stream_entry_schema : Schema :=
  {| sc_msg := StreamEntry; sc_ctx := unit; sc_kind := MT_StreamEntry;
     sc_image := λ m, le_bytes 8 (source_token m);
     sc_typed := λ _ m, fits 64 (source_token m);
     sc_accepts := λ _ _, True;
     sc_encode := λ _, encode_stream_entry_payload;
     sc_decode := λ _, decode_stream_entry_payload |}.

Definition read_request_schema : Schema :=
  {| sc_msg := ReadRequest; sc_ctx := SourceReadPolicy * N; sc_kind := MT_ReadRequest;
     sc_image := λ m, le_bytes 4 (rq_read_sequence m) ++ le_bytes 8 (rq_offset m) ++
                      le_bytes 4 (rq_length m);
     sc_typed := λ ctx m, fits 64 (source_size ctx.1) ∧ fits 32 (rq_read_sequence m) ∧
                      fits 64 (rq_offset m) ∧ fits 32 (rq_length m);
     sc_accepts := read_request_accepts;
     sc_encode := λ ctx m, encode_read_request_payload m ctx.1 ctx.2;
     sc_decode := λ ctx f, decode_read_request_payload f ctx.1 ctx.2 |}.

Definition read_reply_schema : Schema :=
  {| sc_msg := ReadReply; sc_ctx := N * N; sc_kind := MT_ReadReply;
     sc_image := λ m, le_bytes 4 (rp_read_sequence m) ++
                      le_bytes 2 (status_to_wire (rp_status m)) ++ rp_data m;
     sc_typed := λ _ m, fits 32 (rp_read_sequence m);
     sc_accepts := read_reply_accepts;
     sc_encode := λ ctx m, encode_read_reply_payload m ctx.1 ctx.2;
     sc_decode := λ ctx f, decode_read_reply_payload f ctx.1 ctx.2 |}.

Definition data_chunk_schema : Schema :=
  {| sc_msg := DataChunk; sc_ctx := N; sc_kind := MT_DataChunk;
     sc_image := chunk_data;
     sc_typed := λ _ _, True;
     sc_accepts := data_chunk_accepts;
     sc_encode := λ ctx m, encode_data_chunk_payload m ctx;
     sc_decode := λ ctx f, decode_data_chunk_payload f ctx |}.

Definition complete_schema : Schema :=
  {| sc_msg := Complete; sc_ctx := OperationPhase; sc_kind := MT_Complete;
     sc_image := λ m, le_bytes 2 (status_to_wire (complete_status m)) ++
                      le_bytes 2 (phase_to_wire (complete_phase m));
     sc_typed := λ _ _, True;
     sc_accepts := λ _, complete_accepts;
     sc_encode := λ ctx m, encode_complete_payload m ctx;
     sc_decode := λ ctx f, decode_complete_payload f ctx |}.

Definition schema (f : Family) : Schema :=
  match f with
  | FHello => hello_schema
  | FReady => empty_schema MT_Ready encode_ready_payload decode_ready_payload
  | FEnumerate => empty_schema MT_Enumerate encode_enumerate_payload decode_enumerate_payload
  | FStreamEntry => stream_entry_schema
  | FReadRequest => read_request_schema
  | FReadReply => read_reply_schema
  | FDataChunk => data_chunk_schema
  | FComplete => complete_schema
  | FCancel => empty_schema MT_Cancel encode_cancel_payload decode_cancel_payload
  | FCancelAck => empty_schema MT_CancelAck encode_cancel_ack_payload decode_cancel_ack_payload
  | FShutdown => empty_schema MT_Shutdown encode_shutdown_payload decode_shutdown_payload
  end.

(** ** Lemmas *)

Lemma validate_frame_Ok frame kind u :
  validate_frame frame kind = Ok u ↔ frame_ok frame kind.
Proof.
  unfold validate_frame, frame_ok. rewrite bind_Ok. split.
  - intros ([] & Hv%header_validate_Ok & Hk). rewrite !guard_seq, guard_err_Ok in Hk.
    destruct Hk as (?&?&?&?). bool_to_prop. split_and!; [done|lia|done].
  - intros (Hv & Hl & Hk). exists tt. split; [by apply header_validate_Ok|].
    destruct Hv as (_&_&_&?&_). rewrite !guard_seq, guard_err_Ok.
    rewrite (bool_decide_true _ Hk), !N.ltb_ge. split_and!; [lia..|done].
Qed.

Lemma frame_ok_len frame kind : frame_ok frame kind → len (fv_payload frame) ≤ MAXIMUM_FRAME_PAYLOAD_BYTES.
Proof. intros ((_&_&_&?&_)&->&_). done. Qed.

Lemma validated {A} frame kind (k : result ProtocolError A) a :
  (validate_frame frame kind;; k) = Ok a ↔ frame_ok frame kind ∧ k = Ok a.
Proof.
  rewrite bind_Ok. setoid_rewrite validate_frame_Ok. split; [intros ([]&?&?); auto|].
  intros [??]. by exists tt.
Qed.

Lemma checked_bind {E F A} (f : E → F) (m : result E A) {B} (k : result F B) b :
  (map_err f m;; k) = Ok b ↔ (∃ a, m = Ok a) ∧ k = Ok b.
Proof. destruct m; naive_solver. Qed.

Lemma source_read_policy_new_Ok size maximum p :
  source_read_policy_new size maximum = Ok p ↔
  hello_accepts {| hello_source_size := size; hello_maximum_read_bytes := maximum |} ∧
  p = {| source_size := size; maximum_read_bytes := maximum |}.
Proof.
  unfold source_read_policy_new, hello_accepts. simpl.
  destruct (N.eqb_spec size 0), (N.eqb_spec maximum 0),
    (N.ltb_spec MAXIMUM_READ_BYTES maximum); simpl; naive_solver lia.
Qed.

Lemma validate_read_request_Ok m policy sequence u :
  fits 64 (source_size policy) →
  validate_read_request m policy sequence = Ok u ↔ read_request_accepts (policy, sequence) m.
Proof.
  unfold fits. intros Hs. unfold validate_read_request, read_request_accepts. simpl.
  rewrite guard_seq, guard_err_Ok, !orb_false_iff, !negb_false_iff, N.ltb_ge, N.leb_gt.
  rewrite !N.eqb_eq, !N.eqb_neq. unfold is_ok_and.
  destruct (checked_add_bounded 64 _ _) as [stop|] eqn:E.
  - apply checked_add_bounded_Ok in E as [? ->]. rewrite N.leb_le.
    intuition (subst; auto; lia).
  - apply checked_add_bounded_Err in E as [? _]. split; [intuition done|].
    intros (_&_&_&_&?). lia.
Qed.

Lemma validate_read_reply_Ok m sequence requested u :
  validate_read_reply m sequence requested = Ok u ↔ read_reply_accepts (sequence, requested) m.
Proof.
  unfold validate_read_reply, validate_reply_context, read_reply_accepts. simpl.
  rewrite !guard_seq, !orb_false_iff, !negb_false_iff, N.ltb_ge, !N.eqb_eq, !N.eqb_neq.
  destruct (decide (rp_status m = PS_Ok)) as [Hs|Hs].
  - rewrite Hs. simpl. case_cmp; destruct u; intuition (subst; auto; congruence).
  - case_cmp; destruct u, (rp_status m); simpl; rewrite ?len_0_nil in *; intuition congruence.
Qed.

Lemma validate_data_chunk_Ok m remaining u :
  validate_data_chunk m remaining = Ok u ↔ data_chunk_accepts remaining m.
Proof.
  unfold validate_data_chunk, data_chunk_accepts.
  rewrite guard_seq, guard_err_Ok, !orb_false_iff, !N.ltb_ge, !N.eqb_neq, len_0_nil. tauto.
Qed.

Lemma validate_complete_Ok m u : validate_complete m = Ok u ↔ complete_accepts m.
Proof.
  unfold validate_complete, complete_accepts.
  by rewrite guard_err_Ok, orb_false_iff, !negb_false_iff, !bool_decide_eq_true.
Qed.

(** ** The families implement their schemas *)

Lemma lift_Ok {S E A B} (m : result E A) a (k : A → M S E B) s :
  m = Ok a → (lift m ≫= k) s = k a s.
Proof. by intros ->. Qed.

Lemma lift_fails {S E A B} (m : result E A) (k : A → M S E B) s :
  (∀ a, m ≠ Ok a) → ∃ e, (lift m ≫= k) s = (s, Err e).
Proof. intros Hm. destruct m as [a|e]; [by destruct (Hm a)|]. by exists e. Qed.

(** The tail of every encoder: write the fields to the destination's front and
    return the number of bytes. *)
Lemma write_prefix body img n dest :
  emits body img → len img = n → n ≤ MAXIMUM_FRAME_PAYLOAD_BYTES →
  (in_prefix n OutputTooSmall (with_writer body);; mret n) dest =
    if len img <=? len dest then (img ++ drop (N.to_nat (len img)) dest, Ok (len img))
    else (dest, Err OutputTooSmall).
Proof.
  intros Hb Hn Hmax. unfold mbind, M_bind. rewrite (in_prefix_emits _ img) by done.
  rewrite Hn. by case_cmp.
Qed.

Lemma emits_u16 v : emits (write_u16 v) (le_bytes 2 v).
Proof. apply (emits_op (OpU16 v)). Qed.
Lemma emits_u32 v : emits (write_u32 v) (le_bytes 4 v).
Proof. apply (emits_op (OpU32 v)). Qed.
Lemma emits_u64 v : emits (write_u64 v) (le_bytes 8 v).
Proof. apply (emits_op (OpU64 v)). Qed.
Lemma emits_status v : emits (write_status v) (le_bytes 2 (status_to_wire v)).
Proof. apply (emits_op (OpStatus v)). Qed.
Lemma emits_phase v : emits (write_phase v) (le_bytes 2 (phase_to_wire v)).
Proof. apply (emits_op (OpPhase v)). Qed.
Lemma emits_bytes v : emits (write_bytes v) v.
Proof. apply (emits_op (OpBytes v)). Qed.

#[export] Hint Resolve emits_u16 emits_u32 emits_u64 emits_status emits_phase emits_bytes : ohl.
#[export] Hint Resolve read_u16_parses read_u32_parses read_u64_parses read_status_parses
  read_phase_parses finishes_done : ohl.

(** The tail of every decoder: a schema read to the end, then checked. *)
Lemma decode_checked {A B} frame kind (body : M PayloadReader ProtocolError A) img P
    (check : A → result ProtocolError B) (Q : A → Prop) a :
  finishes body img P → (∀ c u, check c = Ok u → Q c) → (∀ c, Q c → ∃ u, check c = Ok u) →
  (validate_frame frame kind;;
   c ← with_reader (fv_payload frame) body; check c;; mret c) = Ok a ↔
  frame_ok frame kind ∧ fv_payload frame = img a ∧ P a ∧ Q a.
Proof.
  intros Hf Hc1 Hc2. rewrite validated. split.
  - intros [Hok H]. split; [done|]. apply bind_Ok in H as (c & Hr & H).
    apply (with_reader_finishes _ _ _ _ _ Hf) in Hr as [? ?]; [|by eapply frame_ok_len].
    apply bind_Ok in H as (u & Hu & [= <-]). eauto.
  - intros (Hok & Hr & HP & HQ). split; [done|]. destruct (Hc2 _ HQ) as [u Hu].
    apply bind_Ok. exists a. split; [|by rewrite Hu].
    apply (with_reader_finishes _ _ _ _ _ Hf); [by eapply frame_ok_len|done].
Qed.

(** Reads the next field of a schema, the one [f] projects, then the rest. *)
Tactic Notation "read_field" constr(f) "then" tactic3(rest) :=
  eapply (finishes_bind _ _ _ _ _ _ f);
  [ solve [eauto with ohl]
  | intro; rest
  | intros; simpl in *; destruct_and?;
    match goal with E : _ = _ |- _ = _ => rewrite E; reflexivity end ].

Lemma empty_schema_laws kind :
  SchemaLaws (empty_schema kind 0 (λ f, decode_empty f kind)).
Proof.
  assert (∀ frame u, decode_empty frame kind = Ok u ↔
                     frame_ok frame kind ∧ fv_payload frame = []) as Hd.
  { intros frame []. unfold decode_empty. rewrite validated. split.
    - intros [Hok H]. split; [done|]. unfold with_reader in H.
      destruct (reader_finish _) as [r u] eqn:E. simpl in H. subst u.
      apply reader_finish_rest in E; [done|apply reader_new_wf].
    - intros [Hok Hp]. split; [done|]. by rewrite Hp. }
  split; simpl; try done.
  - intros _ _ dest _ _. case_cmp; [by rewrite drop_0|]. rewrite len_nil in *. lia.
  - intros _ frame m _. rewrite Hd. tauto.
Qed.

Lemma hello_schema_laws : SchemaLaws hello_schema.
Proof.
  assert (∀ m, (∃ p, source_read_policy_new (hello_source_size m) (hello_maximum_read_bytes m)
                     = Ok p) ↔ hello_accepts m) as Hp.
  { intros [s x]. setoid_rewrite source_read_policy_new_Ok. simpl. naive_solver. }
  assert (∀ frame m, decode_hello_payload frame = Ok m ↔
    frame_ok frame MT_Hello ∧ fv_payload frame = sc_image hello_schema m ∧
    (fits 64 (hello_source_size m) ∧ fits 32 (hello_maximum_read_bytes m)) ∧
    hello_accepts m) as Hd.
  { intros frame m. unfold decode_hello_payload.
    apply (decode_checked _ _ _ (sc_image hello_schema)
      (λ m, fits 64 (hello_source_size m) ∧ fits 32 (hello_maximum_read_bytes m))
      (λ m, map_err (λ _, NoncanonicalValue) (source_read_policy_new (hello_source_size m)
              (hello_maximum_read_bytes m))) hello_accepts).
    - eapply finishes_ext.
      + read_field hello_source_size then
          read_field hello_maximum_read_bytes then eapply finishes_done.
      + intros c _. cbn [hello_schema sc_image]. by rewrite app_nil_r.
      + intros []. simpl. naive_solver.
    - intros c u Hc%map_err_Ok. apply Hp. eauto.
    - intros c [p Hc]%Hp. exists p. by rewrite Hc. }
  split; simpl.
  - intros _ m dest [? ?] [p Hc]%Hp. unfold encode_hello_payload.
    rewrite (lift_Ok _ p) by (by rewrite Hc). apply write_prefix; [eauto with ohl|done|done].
  - intros _ m dest _ Hn. apply lift_fails. intros p Hc%map_err_Ok. apply Hn, Hp. eauto.
  - intros _ frame m ?. rewrite Hd. tauto.
  - intros _ frame m _. rewrite Hd. tauto.
Qed.

Lemma stream_entry_schema_laws : SchemaLaws stream_entry_schema.
Proof.
  assert (∀ frame m, decode_stream_entry_payload frame = Ok m ↔
    frame_ok frame MT_StreamEntry ∧ fv_payload frame = sc_image stream_entry_schema m ∧
    fits 64 (source_token m)) as Hd.
  { intros frame m. unfold decode_stream_entry_payload. rewrite validated.
    assert (finishes (token ← read_u64; reader_finish;; mret {| source_token := token |})
      (sc_image stream_entry_schema) (λ m, fits 64 (source_token m))) as Hf.
    { eapply finishes_ext; [read_field source_token then eapply finishes_done| |].
      - intros c _. cbn [stream_entry_schema sc_image]. by rewrite app_nil_r.
      - intros []. naive_solver. }
    split; intros [Hok H]; (split; [done|]);
      by apply (with_reader_finishes _ _ _ _ _ Hf (frame_ok_len _ _ Hok)). }
  split; cbn [stream_entry_schema sc_msg sc_ctx sc_kind sc_image sc_typed sc_accepts sc_encode
    sc_decode].
  - intros _ m dest _ _. apply write_prefix; [eauto with ohl|done|done].
  - intros _ m dest _ Hn. by destruct Hn.
  - intros _ frame m ?. rewrite Hd. tauto.
  - intros _ frame m _. rewrite Hd. tauto.
Qed.

Lemma read_request_schema_laws : SchemaLaws read_request_schema.
Proof.
  assert (∀ ctx frame m, fits 64 (source_size ctx.1) →
    decode_read_request_payload frame ctx.1 ctx.2 = Ok m ↔
    frame_ok frame MT_ReadRequest ∧ fv_payload frame = sc_image read_request_schema m ∧
    (fits 32 (rq_read_sequence m) ∧ fits 64 (rq_offset m) ∧ fits 32 (rq_length m)) ∧
    read_request_accepts ctx m) as Hd.
  { intros [policy sequence] frame m Hs. simpl in Hs. unfold decode_read_request_payload.
    rewrite <-(decode_checked frame MT_ReadRequest (
        sequence ← read_u32; offset ← read_u64; length ← read_u32;
        reader_finish;; mret {| rq_read_sequence := sequence; rq_offset := offset;
                                rq_length := length |}) (sc_image read_request_schema)
      (λ m, fits 32 (rq_read_sequence m) ∧ fits 64 (rq_offset m) ∧ fits 32 (rq_length m))
      (λ m, validate_read_request m policy sequence)
      (read_request_accepts (policy, sequence))).
    - rewrite !validated, guard_seq. cbn [fst snd]. split; [tauto|].
      intros [Hok Hr]. split; [done|]. split; [|done].
      apply bind_Ok in Hr as (c & _ & (u & Hv & _)%bind_Ok).
      apply validate_read_request_Ok in Hv as [Hz _]; [|done]. by apply N.eqb_neq.
    - eapply finishes_ext.
      + read_field rq_read_sequence then read_field rq_offset then read_field rq_length then
          eapply finishes_done.
      + intros c _. cbn [read_request_schema sc_image]. by rewrite app_nil_r.
      + intros []. simpl. naive_solver.
    - intros c u Hv. by eapply validate_read_request_Ok.
    - intros c Hc. exists tt. by apply validate_read_request_Ok. }
  split; cbn [read_request_schema sc_msg sc_ctx sc_kind sc_image sc_typed sc_accepts sc_encode
    sc_decode].
  - intros [policy sequence] m dest (Hs & _) Hacc. unfold encode_read_request_payload.
    rewrite (lift_Ok _ tt) by (by apply validate_read_request_Ok).
    apply write_prefix; [eauto 10 with ohl|done|done].
  - intros [policy sequence] m dest (Hs & _) Hn. apply lift_fails. intros u Hv.
    by apply validate_read_request_Ok in Hv.
  - intros ctx frame m (? & ?). rewrite Hd by done. tauto.
  - intros ctx frame m (m' & Hs & _). rewrite Hd by done. tauto.
Qed.

Lemma read_reply_schema_laws : SchemaLaws read_reply_schema.
Proof.
  assert (∀ ctx frame m, decode_read_reply_payload frame ctx.1 ctx.2 = Ok m ↔
    frame_ok frame MT_ReadReply ∧ fv_payload frame = sc_image read_reply_schema m ∧
    fits 32 (rp_read_sequence m) ∧ read_reply_accepts ctx m) as Hd.
  { intros [sequence requested] frame m. cbn [fst snd]. unfold decode_read_reply_payload.
    rewrite <-(decode_checked frame MT_ReadReply (
        sequence ← read_u32; status ← read_status; data ← read_remaining; reader_finish;;
        mret {| rp_read_sequence := sequence; rp_status := status; rp_data := data |})
      (sc_image read_reply_schema) (λ m, fits 32 (rp_read_sequence m))
      (λ m, validate_read_reply m sequence requested)
      (read_reply_accepts (sequence, requested))).
    - rewrite !validated. unfold validate_reply_context at 1. rewrite guard_seq.
      split; [tauto|]. intros [Hok Hr]. split; [done|]. split; [|done].
      apply bind_Ok in Hr as (c & _ & (u & Hv & _)%bind_Ok).
      apply validate_read_reply_Ok in Hv as (?&?&?&_); simpl in *.
      rewrite !orb_false_iff, !N.eqb_neq, N.ltb_ge. auto.
    - eapply finishes_ext.
      + read_field rp_read_sequence then read_field rp_status then
          apply (finishes_remaining _ rp_data); done.
      + done.
      + intros []. simpl. naive_solver.
    - intros c u Hv. by eapply validate_read_reply_Ok.
    - intros c Hc. exists tt. by apply validate_read_reply_Ok. }
  split; cbn [read_reply_schema sc_msg sc_ctx sc_kind sc_image sc_typed sc_accepts sc_encode
    sc_decode].
  - intros [sequence requested] m dest Ht Hacc. unfold encode_read_reply_payload.
    assert (len (rp_data m) ≤ MAXIMUM_READ_BYTES) as Hlen.
    { destruct Hacc as (_&_&?&_&[[_ ->]|[_ ->]]); simpl in *; [done|]. rewrite len_nil. lia. }
    unfold MAXIMUM_READ_BYTES in Hlen.
    assert (READ_REPLY_PREFIX_BYTES = 6 ∧ MAXIMUM_FRAME_PAYLOAD_BYTES = 1048576) as [H6 Hmax]
      by done.
    rewrite (lift_Ok _ (len (rp_data m) + READ_REPLY_PREFIX_BYTES)).
    2:{ apply map_err_Ok, checked_add_bounded_Ok. split; [lia|done]. }
    rewrite (lift_Ok _ tt) by (apply guard_err_Ok, N.ltb_ge; lia).
    rewrite (lift_Ok _ tt) by (by apply validate_read_reply_Ok).
    apply write_prefix; [eauto 10 with ohl| |lia].
    rewrite !len_app, !len_le_bytes. lia.
  - intros [sequence requested] m dest Ht Hn. unfold encode_read_reply_payload.
    cbn [fst snd]. run_M. destruct (map_err _ _) as [n|e]; [|by eexists]. destruct (guard_err _ _) as [u|e];
      [|by eexists].
    destruct (validate_read_reply m sequence requested) as [v|e] eqn:Hv; [|by eexists].
    by apply validate_read_reply_Ok in Hv.
  - intros ctx frame m ?. rewrite Hd. tauto.
  - intros ctx frame m _. rewrite Hd. tauto.
Qed.

Lemma data_chunk_schema_laws : SchemaLaws data_chunk_schema.
Proof.
  assert (∀ ctx frame m, decode_data_chunk_payload frame ctx = Ok m ↔
    frame_ok frame MT_DataChunk ∧ fv_payload frame = chunk_data m ∧ True ∧
    data_chunk_accepts ctx m) as Hd.
  { intros ctx frame m. unfold decode_data_chunk_payload.
    apply (decode_checked _ _ _ chunk_data (λ _, True)
      (λ m, validate_data_chunk m ctx) (data_chunk_accepts ctx)).
    - eapply finishes_ext; [apply (finishes_remaining _ chunk_data); done|done|].
      by intros [].
    - intros c u Hv. by eapply validate_data_chunk_Ok.
    - intros c Hc. exists tt. by apply validate_data_chunk_Ok. }
  split; cbn [data_chunk_schema sc_msg sc_ctx sc_kind sc_image sc_typed sc_accepts sc_encode
    sc_decode].
  - intros ctx m dest _ Hacc. unfold encode_data_chunk_payload.
    rewrite (lift_Ok _ tt) by (by apply validate_data_chunk_Ok).
    apply write_prefix; [eauto with ohl|done|].
    destruct Hacc as (_&_&Hl&_). unfold MAXIMUM_DATA_CHUNK_BYTES in Hl.
    unfold MAXIMUM_FRAME_PAYLOAD_BYTES. lia.
  - intros ctx m dest _ Hn. apply lift_fails. intros u Hv. by apply validate_data_chunk_Ok in Hv.
  - intros ctx frame m ?. rewrite Hd. tauto.
  - done.
Qed.

Lemma complete_schema_laws : SchemaLaws complete_schema.
Proof.
  assert (∀ ctx frame m, decode_complete_payload frame ctx = Ok m ↔
    frame_ok frame MT_Complete ∧ fv_payload frame = sc_image complete_schema m ∧ True ∧
    complete_accepts m) as Hd.
  { intros ctx frame m. unfold decode_complete_payload.
    apply (decode_checked _ _ _ (sc_image complete_schema) (λ _, True)
      validate_complete complete_accepts).
    - eapply finishes_ext.
      + read_field complete_status then read_field complete_phase then eapply finishes_done.
      + intros c _. cbn [complete_schema sc_image]. by rewrite app_nil_r.
      + intros []. naive_solver.
    - intros c u Hv. by eapply validate_complete_Ok.
    - intros c Hc. exists tt. by apply validate_complete_Ok. }
  split; cbn [complete_schema sc_msg sc_ctx sc_kind sc_image sc_typed sc_accepts sc_encode
    sc_decode].
  - intros ctx m dest _ Hacc. unfold encode_complete_payload.
    rewrite (lift_Ok _ tt) by (by apply validate_complete_Ok).
    apply write_prefix; [eauto with ohl|done|done].
  - intros ctx m dest _ Hn. apply lift_fails. intros u Hv. by apply validate_complete_Ok in Hv.
  - intros ctx frame m ?. rewrite Hd. tauto.
  - done.
Qed.

#[export] Instance schema_laws (f : Family) : SchemaLaws (schema f).
Proof.
  destruct f; simpl; first [apply empty_schema_laws | apply hello_schema_laws
    | apply stream_entry_schema_laws | apply read_request_schema_laws
    | apply read_reply_schema_laws | apply data_chunk_schema_laws | apply complete_schema_laws].
Qed.

Lemma schema_accepts_em (f : Family) ctx m :
  sc_accepts (schema f) ctx m ∨ ¬ sc_accepts (schema f) ctx m.
Proof.
  destruct f; simpl in *; unfold hello_accepts, read_request_accepts, read_reply_accepts,
    data_chunk_accepts, complete_accepts;
    match goal with |- ?P ∨ _ => destruct (decide P); tauto end.
Qed.

(** ** Properties of the message schemas *)

(** For every fixed message family and every context, the encoder writes
    exactly the wire image of a canonical message to the front of the
    destination and keeps the bytes behind it, or reports [OutputTooSmall]
    when the image does not fit; a message outside its family's policy is
    refused; on every refusal the destination is untouched. *)
Theorem schema_encoder_spec (f : Family) ctx m dest :
  sc_typed (schema f) ctx m →
  (sc_accepts (schema f) ctx m ∧
   sc_encode (schema f) ctx m dest =
     (let img := sc_image (schema f) m in
      if len img <=? len dest then (img ++ drop (N.to_nat (len img)) dest, Ok (len img))
      else (dest, Err OutputTooSmall))) ∨
  (¬ sc_accepts (schema f) ctx m ∧ ∃ e, sc_encode (schema f) ctx m dest = (dest, Err e)).
Proof.
  intros Ht. destruct (schema_accepts_em f ctx m) as [Ha|Hn].
  - left. split; [done|]. by apply schema_encode.
  - right. split; [done|]. by apply schema_reject.
Qed.

(** For every fixed message family and every context, the decoder accepts
    a frame exactly when its header is canonical, of the family's kind and
    declares the payload's length, the payload is the wire image of the
    message returned, and the message obeys the family's policy. *)
Theorem schema_decoder_canonical (f : Family) ctx frame m :
  sc_typed (schema f) ctx m →
  sc_decode (schema f) ctx frame = Ok m ↔
  frame_ok frame (sc_kind (schema f)) ∧ fv_payload frame = sc_image (schema f) m ∧
  sc_accepts (schema f) ctx m.
Proof. apply schema_decode. Qed.

(** *** Sending and receiving

    The whole sending path: encode the message, frame it, and the receiver
    decodes the frame and then the message. *)
Definition send_message `{HeaderImage} (s : Schema) (ctx : sc_ctx s) (session request : N)
    (m : sc_msg s) (payload_buffer wire_buffer : list byte) : result ProtocolError (list byte) :=
  let '(payload, r) := sc_encode s ctx m payload_buffer in
  n ← r;
  let '(wire, r) := encode_frame (frame_header_new (sc_kind s) session request n)
                      (take (N.to_nat n) payload) wire_buffer in
  k ← r;
  mret (take (N.to_nat k) wire).

Definition receive_message `{HeaderImage} (s : Schema) (ctx : sc_ctx s) (session : N)
    (wire : list byte) : result ProtocolError (sc_msg s) :=
  frame ← decode_frame wire session; sc_decode s ctx frame.

Lemma send_message_Ok `{HeaderImageLaws} s `{!SchemaLaws s} ctx session request m pb wb wire :
  sc_typed s ctx m → sc_accepts s ctx m →
  send_message s ctx session request m pb wb = Ok wire →
  ∃ dest' n,
    encode_frame (frame_header_new (sc_kind s) session request (len (sc_image s m)))
      (sc_image s m) wb = (dest', Ok n) ∧ wire = take (N.to_nat n) dest'.
Proof.
  intros Ht Ha Hw. unfold send_message in Hw.
  rewrite schema_encode in Hw by done. revert Hw. case_cmp; [|done].
  cbn [mbind result_bind]. rewrite len_to_nat, take_app_length.
  destruct (encode_frame _ _ wb) as [d [n|e]] eqn:E; [|done].
  intros [= <-]. eauto.
Qed.

(** C38: A message of any fixed family that is encoded, framed and sent is
    received as the same message: the receiver, expecting the sender's session
    and given the same context, decodes the wire bytes back to it. *)
Theorem message_roundtrip `{HeaderImageLaws} (f : Family) ctx session request m pb wb wire :
  sc_typed (schema f) ctx m → fits 64 session → fits 64 request →
  send_message (schema f) ctx session request m pb wb = Ok wire →
  receive_message (schema f) ctx session wire = Ok m.
Proof.
  intros Ht Hs Hr Hw. destruct (schema_accepts_em f ctx m) as [Ha|Hn].
  2:{ unfold send_message in Hw. destruct (schema_reject ctx m pb Ht Hn) as [e He].
      by rewrite He in Hw. }
  apply send_message_Ok in Hw as (d & n & He & ->); [|apply _|done..].
  unfold receive_message.
  destruct (encode_frame_Ok_inv _ _ _ _ _ He) as (Hlen & _ & Hok).
  assert (session = session_id (frame_header_new (sc_kind (schema f)) session request
    (len (sc_image (schema f) m)))) as E by done.
  rewrite E at 1.
  rewrite (decode_encoded_frame _ _ _ _ _ (frame_header_new_typed _ _ _ _ Hs Hr Hlen) He).
  apply schema_decode; [done|]. split_and!; done.
Qed.

(** *** Witnesses *)

Definition sample_reply : ReadReply :=
  {| rp_read_sequence := 3; rp_status := PS_Ok; rp_data := [x01; x02] |}.

Lemma schema_encoder_spec_witness :
  fits 32 3 ∧
  sc_encode (schema FReadReply) (3, 2) sample_reply (replicate 9 xff) =
    (le_bytes 4 3 ++ le_bytes 2 0 ++ [x01; x02; xff], Ok 8).
Proof.
  split; [done|].
  destruct (schema_encoder_spec FReadReply (3, 2) sample_reply (replicate 9 xff))
    as [[_ E]|[Hn _]]; [done| |].
  - rewrite E. vm_compute. reflexivity.
  - exfalso. apply Hn. vm_compute. intuition done.
Defined.

Lemma schema_decoder_canonical_witness :
  sc_decode (schema FReadReply) (3, 2)
    (frame_view_new (frame_header_new MT_ReadReply 7 1 8)
      (le_bytes 4 3 ++ le_bytes 2 0 ++ [x01; x02])) = Ok sample_reply.
Proof.
  apply (schema_decoder_canonical FReadReply (3, 2)); [done|].
  vm_compute. intuition done.
Defined.

Lemma message_roundtrip_witness :
  receive_message (H:=packed_image) (schema FReadReply) (3, 2) 7
    (frame_image (frame_header_new MT_ReadReply 7 1 8)
      (le_bytes 4 3 ++ le_bytes 2 0 ++ [x01; x02])) = Ok sample_reply.
Proof.
  apply (message_roundtrip (H:=packed_image) FReadReply (3, 2) 7 1 sample_reply
    (replicate 8 x00) (replicate 40 x00)); [done|done|done|].
  vm_compute. reflexivity.
Defined.
