(* ===== verification/EntryBatch.v ===== *)
(** * Entry batches

    The [entry_batch] family of [crates/ohl-parser-protocol/src/messages.rs]:
    the enumeration budget, archive spellings, the accumulator both directions
    check a batch with, the encoder, and the two-pass decoder into
    caller-supplied storage. *)

From S2P Require Export Messages Schemas.

(** ** Constants *)

Definition ENTRY_BATCH_PREFIX_BYTES : N := 2.
Definition ENTRY_BATCH_ENTRY_PREFIX_BYTES : N := 18.
Definition MAXIMUM_ENTRY_BATCH_ENTRIES : N := 256.
Definition MAXIMUM_ENUMERATED_ENTRIES : N := 50000.
Definition MAXIMUM_ENTRY_BATCH_PATH_BYTES : N := 4096.
Definition MAXIMUM_ENUMERATED_PATH_BYTES : N := 64 * 1024 * 1024.
Definition MAXIMUM_ENUMERATED_ENTRY_BYTES : N := 8 * 1024 * 1024 * 1024.
Definition MAXIMUM_ENUMERATED_TOTAL_BYTES : N := 32 * 1024 * 1024 * 1024.

(** ** [EntryBatchPolicy] *)

Record EntryBatchPolicy : Type := {
  remaining_entries : N;
  remaining_path_bytes : N;
  maximum_entry_bytes : N;
  remaining_total_bytes : N;
  previous_source_token : option N
}.

Definition entry_batch_policy_new (entries path_bytes entry_bytes total_bytes : N)
    (previous : option N) : result ProtocolError EntryBatchPolicy :=
  if (entries =? 0) || (MAXIMUM_ENUMERATED_ENTRIES <? entries) ||
     (path_bytes =? 0) || (MAXIMUM_ENUMERATED_PATH_BYTES <? path_bytes) ||
     (entry_bytes =? 0) || (MAXIMUM_ENUMERATED_ENTRY_BYTES <? entry_bytes) ||
     (MAXIMUM_ENUMERATED_TOTAL_BYTES <? total_bytes)
  then Err InvalidBudget
  else Ok {| remaining_entries := entries;
             remaining_path_bytes := path_bytes;
             maximum_entry_bytes := entry_bytes;
             remaining_total_bytes := total_bytes;
             previous_source_token := previous |}.

(** ** [ArchiveSpelling] *)

(** A byte slice; [spelling_empty] is the placeholder of unwritten storage. *)
Definition ArchiveSpelling : Type := list byte.
Definition spelling_empty : ArchiveSpelling := [].

(** The body of the [while] loop's test, for one byte. *)
Definition unprintable (b : byte) : bool :=
  (Byte.to_N b <? 0x20) || (0x7e <? Byte.to_N b).

(** The [while] loop of [ArchiveSpelling::new] from [index] on. *)
Fixpoint spelling_scan (bytes : list byte) : result ProtocolError unit :=
  match bytes with
  | [] => Ok tt
  | b :: bytes => if unprintable b then Err NoncanonicalValue else spelling_scan bytes
  end.

Definition archive_spelling_new (bytes : list byte) : result ProtocolError ArchiveSpelling :=
  guard_err ((len bytes =? 0) || (MAXIMUM_ENTRY_BATCH_PATH_BYTES <? len bytes))
    NoncanonicalValue;;
  spelling_scan bytes;;
  mret bytes.

(** ** Entries *)

Record EntryBatchEntry : Type := {
  be_source_token : N;
  be_size_bytes : N;
  be_archive_path : ArchiveSpelling
}.

#[export] Instance EntryBatchEntry_eq_dec : EqDecision EntryBatchEntry.
Proof. solve_decision. Defined.

(** [EntryBatchEntry::default()]. *)
Definition entry_default : EntryBatchEntry :=
  {| be_source_token := 0; be_size_bytes := 0; be_archive_path := spelling_empty |}.

Record EntryBatch : Type := { entries : list EntryBatchEntry }.

(** ** [EntryBatchAccumulator] *)

Record EntryBatchAccumulator : Type := {
  acc_path_bytes : N;
  acc_total_bytes : N;
  acc_previous : option N
}.

Definition acc_start (policy : EntryBatchPolicy) : EntryBatchAccumulator :=
  {| acc_path_bytes := 0; acc_total_bytes := 0;
     acc_previous := previous_source_token policy |}.

(** [Option::is_some_and]. *)
Definition is_some_and {A} (o : option A) (p : A → bool) : bool :=
  match o with Some a => p a | None => false end.

Definition acc_accept (token size : N) (path : list byte) (policy : EntryBatchPolicy)
  : M EntryBatchAccumulator ProtocolError unit :=
  lift (archive_spelling_new path);;
  let path_bytes := len path in
  self ← get;
  path_budget ← lift (map_err (λ _, NoncanonicalValue)
    (checked_sub_bounded (remaining_path_bytes policy) (acc_path_bytes self)));
  total_budget ← lift (map_err (λ _, NoncanonicalValue)
    (checked_sub_bounded (remaining_total_bytes policy) (acc_total_bytes self)));
  if (maximum_entry_bytes policy <? size) || (path_budget <? path_bytes) ||
     (total_budget <? size) ||
     is_some_and (acc_previous self) (λ previous, token <=? previous)
  then throw NoncanonicalValue
  else modify (λ self, {| acc_path_bytes := acc_path_bytes self + path_bytes;
                          acc_total_bytes := acc_total_bytes self + size;
                          acc_previous := Some token |}).

(** ** Encoding *)

Fixpoint accept_all (l : list EntryBatchEntry) (policy : EntryBatchPolicy)
  : M EntryBatchAccumulator ProtocolError unit :=
  match l with
  | [] => mret tt
  | e :: l =>
      acc_accept (be_source_token e) (be_size_bytes e) (be_archive_path e) policy;;
      accept_all l policy
  end.

(** The loop of [entry_batch_payload_size] over the remaining entries. *)
Fixpoint add_payload_sizes (l : list EntryBatchEntry) (payload_size : N)
  : result ProtocolError N :=
  match l with
  | [] => Ok payload_size
  | e :: l =>
      payload_size ← map_err (λ _, PayloadTooLarge)
        (checked_add_bounded 64 payload_size
           (ENTRY_BATCH_ENTRY_PREFIX_BYTES + len (be_archive_path e)));
      add_payload_sizes l payload_size
  end.

Definition entry_batch_payload_size (l : list EntryBatchEntry) : result ProtocolError N :=
  add_payload_sizes l ENTRY_BATCH_PREFIX_BYTES.

Fixpoint write_entries (l : list EntryBatchEntry) : M PayloadWriter ProtocolError unit :=
  match l with
  | [] => mret tt
  | e :: l =>
      write_u64 (be_source_token e);;
      write_u64 (be_size_bytes e);;
      path_size ← lift (ok_or (try_from 16 (len (be_archive_path e))) NoncanonicalValue);
      write_u16 path_size;;
      write_bytes (be_archive_path e);;
      write_entries l
  end.

(** A local variable mutated by [m], whose final value the caller keeps. *)
Definition exec_local {S E} (m : M S E unit) (s : S) : result E S :=
  let '(s', r) := m s in r;; mret s'.

Definition encode_entry_batch_payload (message : EntryBatch) (policy : EntryBatchPolicy)
  : M (list byte) ProtocolError N :=
  let l := entries message in
  lift (guard_err ((len l =? 0) || (MAXIMUM_ENTRY_BATCH_ENTRIES <? len l) ||
                   (remaining_entries policy <? len l)) NoncanonicalValue);;
  lift (exec_local (accept_all l policy) (acc_start policy));;
  payload_size ← lift (entry_batch_payload_size l);
  lift (guard_err (MAXIMUM_FRAME_PAYLOAD_BYTES <? payload_size) PayloadTooLarge);;
  in_prefix payload_size OutputTooSmall (with_writer (
    entry_count ← lift (ok_or (try_from 16 (len l)) NoncanonicalValue);
    write_u16 entry_count;;
    write_entries l));;
  mret payload_size.

(** ** Decoding *)

(** The four reads each pass makes for one entry. *)
Definition read_entry_fields : M PayloadReader ProtocolError (N * N * list byte) :=
  token ← read_u64;
  size ← read_u64;
  path_size ← read_u16;
  path ← read_bytes path_size;
  mret (token, size, path).

(** The validating pass's loop, [count] iterations left. *)
Fixpoint validate_entries (count : nat) (policy : EntryBatchPolicy)
    (accumulator : EntryBatchAccumulator)
  : M PayloadReader ProtocolError EntryBatchAccumulator :=
  match count with
  | O => mret accumulator
  | S count =>
      '(token, size, path) ← read_entry_fields;
      accumulator ← lift (exec_local (acc_accept token size path policy) accumulator);
      validate_entries count policy accumulator
  end.

Definition validate_entry_batch_payload (payload : list byte) (policy : EntryBatchPolicy)
  : result ProtocolError N :=
  with_reader payload (
    entry_count ← read_u16;
    lift (guard_err ((entry_count =? 0) || (MAXIMUM_ENTRY_BATCH_ENTRIES <? entry_count) ||
                     (remaining_entries policy <? entry_count)) NoncanonicalValue);;
    validate_entries (N.to_nat entry_count) policy (acc_start policy);;
    reader_finish;;
    mret entry_count).

(** The populating pass's loop over the slots from [index] on; its locals are
    the reader and the caller's storage. *)
Definition on_reader {A} (m : M PayloadReader ProtocolError A)
  : M (PayloadReader * list EntryBatchEntry) ProtocolError A :=
  zoom fst (λ r s, (r, s.2)) m.

Fixpoint populate (slots index : nat)
  : M (PayloadReader * list EntryBatchEntry) ProtocolError unit :=
  match slots with
  | O => mret tt
  | S slots =>
      '(token, size, path) ← on_reader read_entry_fields;
      archive_path ← lift (archive_spelling_new path);
      modify (λ '(r, storage),
        (r, <[index := {| be_source_token := token; be_size_bytes := size;
                          be_archive_path := archive_path |}]> storage));;
      populate slots (S index)
  end.

Definition decode_entry_batch_payload (frame : FrameView) (policy : EntryBatchPolicy)
  : M (list EntryBatchEntry) ProtocolError EntryBatch :=
  lift (validate_frame frame MT_EntryBatch);;
  entry_count ← lift (validate_entry_batch_payload (fv_payload frame) policy);
  storage ← get;
  lift (guard_err (len storage <? entry_count) OutputTooSmall);;
  zoom (λ storage, (reader_new (fv_payload frame), storage)) (λ s _, s.2) (
    on_reader read_u16;;
    populate (N.to_nat entry_count `min` length storage) 0);;
  storage ← get;
  mret {| entries := take (N.to_nat entry_count) storage |}.

(** ** Specification *)

Definition spelling_ok (path : list byte) : Prop :=
  path ≠ [] ∧ len path ≤ MAXIMUM_ENTRY_BATCH_PATH_BYTES ∧
  Forall (λ b, 0x20 ≤ Byte.to_N b ≤ 0x7e) path.

Definition total {A} (f : A → N) (l : list A) : N := foldr (λ a s, f a + s) 0 l.

Definition path_len (e : EntryBatchEntry) : N := len (be_archive_path e).

(** The tokens increase strictly, starting above the previous batch's last. *)
Definition tokens_increase (previous : option N) (l : list EntryBatchEntry) : Prop :=
  Sorted N.lt (option_list previous ++ (be_source_token <$> l)).

(** The budget rules of a batch, over the batch as a whole. *)
Definition batch_in_budget (policy : EntryBatchPolicy) (l : list EntryBatchEntry) : Prop :=
  Forall (λ e, spelling_ok (be_archive_path e) ∧
               be_size_bytes e ≤ maximum_entry_bytes policy) l ∧
  total path_len l ≤ remaining_path_bytes policy ∧
  total be_size_bytes l ≤ remaining_total_bytes policy ∧
  tokens_increase (previous_source_token policy) l.

Definition batch_accepts (policy : EntryBatchPolicy) (l : list EntryBatchEntry) : Prop :=
  1 ≤ len l ≤ MAXIMUM_ENTRY_BATCH_ENTRIES ∧ len l ≤ remaining_entries policy ∧
  batch_in_budget policy l.

Definition entry_image (e : EntryBatchEntry) : list byte :=
  le_bytes 8 (be_source_token e) ++ le_bytes 8 (be_size_bytes e) ++
  le_bytes 2 (path_len e) ++ be_archive_path e.

Definition batch_image (l : list EntryBatchEntry) : list byte :=
  le_bytes 2 (len l) ++ concat (entry_image <$> l).

Definition entry_typed (e : EntryBatchEntry) : Prop :=
  fits 64 (be_source_token e) ∧ fits 64 (be_size_bytes e).

(** ** Lemmas on the accumulator *)

Lemma spelling_scan_Ok bytes u :
  spelling_scan bytes = Ok u ↔ Forall (λ b, 0x20 ≤ Byte.to_N b ≤ 0x7e) bytes.
Proof.
  destruct u. induction bytes as [|b bytes IH]; simpl; [split; [constructor|done]|].
  rewrite Forall_cons_iff, <-IH. unfold unprintable.
  destruct (N.ltb_spec (Byte.to_N b) 32), (N.ltb_spec 126 (Byte.to_N b)); simpl;
    split; intros; try done; try tauto; destruct_and?; lia.
Qed.

Lemma archive_spelling_new_Ok bytes s :
  archive_spelling_new bytes = Ok s ↔ spelling_ok bytes ∧ s = bytes.
Proof.
  unfold archive_spelling_new, spelling_ok.
  rewrite guard_seq, orb_false_iff, N.eqb_neq, N.ltb_ge, len_0_nil.
  destruct (spelling_scan bytes) as [[]|e] eqn:Hs.
  - apply spelling_scan_Ok in Hs. simpl. split; [intros ((?&?)&[= <-]); auto|].
    by intros ((?&?&?)&->).
  - split; [by intros (_&?)|]. intros ((_&_&Hf)&_).
    by rewrite (proj2 (spelling_scan_Ok bytes tt) Hf) in Hs.
Qed.

Lemma exec_local_Ok {S E} (m : M S E unit) s s' :
  exec_local m s = Ok s' ↔ m s = (s', Ok tt).
Proof. unfold exec_local. destruct (m s) as [? [[]|]]; simpl; split; by intros [= ->]. Qed.

(** The accumulator after an accepted entry, and after a list of them. *)
Definition acc_add (e : EntryBatchEntry) (acc : EntryBatchAccumulator) : EntryBatchAccumulator :=
  {| acc_path_bytes := acc_path_bytes acc + path_len e;
     acc_total_bytes := acc_total_bytes acc + be_size_bytes e;
     acc_previous := Some (be_source_token e) |}.

(** [acc_budget] is preserved by [acc_accept]; it holds at the start. *)
Definition acc_wf (policy : EntryBatchPolicy) (acc : EntryBatchAccumulator) : Prop :=
  acc_path_bytes acc ≤ remaining_path_bytes policy ∧
  acc_total_bytes acc ≤ remaining_total_bytes policy.

Lemma acc_accept_Ok e policy acc acc' :
  acc_accept (be_source_token e) (be_size_bytes e) (be_archive_path e) policy acc =
    (acc', Ok tt) ↔
  (spelling_ok (be_archive_path e) ∧ be_size_bytes e ≤ maximum_entry_bytes policy) ∧
  acc_path_bytes acc + path_len e ≤ remaining_path_bytes policy ∧
  acc_total_bytes acc + be_size_bytes e ≤ remaining_total_bytes policy ∧
  (∀ p, acc_previous acc = Some p → p < be_source_token e) ∧
  acc' = acc_add e acc.
Proof.
  unfold acc_accept, acc_add, path_len.
  destruct (archive_spelling_new (be_archive_path e)) as [s|err] eqn:Hs.
  2:{ rewrite (M_bind_fail _ _ _ acc err) by done.
      split; [done|]. intros ((Hok&_)&_).
      by rewrite (proj2 (archive_spelling_new_Ok _ _) (conj Hok eq_refl)) in Hs. }
  pose proof (proj1 (archive_spelling_new_Ok _ _) Hs) as [Hok _].
  rewrite (M_bind_step _ _ _ acc s) by done.
  unfold checked_sub_bounded, checked_sub, map_err, ok_or. run_M.
  destruct (N.leb_spec (acc_path_bytes acc) (remaining_path_bytes policy)); [|split; [done|lia]].
  destruct (N.leb_spec (acc_total_bytes acc) (remaining_total_bytes policy)); [|split; [done|lia]].
  assert (is_some_and (acc_previous acc) (λ p, be_source_token e <=? p) = false ↔
    ∀ p, acc_previous acc = Some p → p < be_source_token e) as Hprev.
  { destruct (acc_previous acc) as [p|]; simpl; [rewrite N.leb_gt|]; naive_solver. }
  destruct (_ || _ || _ || _) eqn:Hc.
  - split; [done|]. intros ((_&?)&?&?&Hp%Hprev&_). rewrite Hp, orb_false_r in Hc.
    rewrite !orb_true_iff, !N.ltb_lt in Hc. lia.
  - bool_to_prop. rewrite Hprev in *.
    split; [intros [= <-]; split_and!; auto; lia|]. by intros (_&_&_&_&->).
Qed.

Lemma tokens_increase_cons previous e l :
  tokens_increase previous (e :: l) ↔
  (∀ p, previous = Some p → p < be_source_token e) ∧
  tokens_increase (Some (be_source_token e)) l.
Proof.
  unfold tokens_increase. destruct previous as [p|]; simpl.
  - split.
    + intros [H1 H2]%Sorted_inv. inversion H2; subst. naive_solver.
    + intros [H1 H2]. constructor; [done|]. constructor. by apply H1.
  - naive_solver.
Qed.

Lemma accept_all_Ok l policy acc acc' :
  acc_wf policy acc →
  accept_all l policy acc = (acc', Ok tt) ↔
  Forall (λ e, spelling_ok (be_archive_path e) ∧
               be_size_bytes e ≤ maximum_entry_bytes policy) l ∧
  acc_path_bytes acc + total path_len l ≤ remaining_path_bytes policy ∧
  acc_total_bytes acc + total be_size_bytes l ≤ remaining_total_bytes policy ∧
  tokens_increase (acc_previous acc) l ∧
  acc' = foldl (flip acc_add) acc l.
Proof.
  revert acc; induction l as [|e l IH]; intros acc [Hp Ht]; cbn [accept_all total foldr foldl].
  - run_M. split; [intros [= <-]|by intros (_&_&_&_&->)].
    split_and!; auto; [lia..|]. unfold tokens_increase. simpl.
    destruct (acc_previous acc); repeat constructor.
  - fold (total path_len l) (total be_size_bytes l).
    rewrite Forall_cons_iff, tokens_increase_cons, M_bind_Ok. split.
    + intros (acc1 & [] & (?&?&?&?&->)%acc_accept_Ok & Hrun).
      apply IH in Hrun as (?&?&?&?&->); [|by split].
      cbn [acc_add acc_path_bytes acc_total_bytes acc_previous] in *.
      destruct_and?. split_and!; first [done|lia].
    + intros ((?&?)&?&?&(?&?)&->). exists (acc_add e acc), tt.
      destruct_and?. split; [apply acc_accept_Ok; split_and!; first [done|lia]|].
      apply IH; [split; cbn [acc_add acc_path_bytes acc_total_bytes]; lia|].
      cbn [acc_add acc_path_bytes acc_total_bytes acc_previous]. split_and!; first [done|lia].
Qed.

Lemma accept_all_start l policy :
  (∃ acc, exec_local (accept_all l policy) (acc_start policy) = Ok acc) ↔
  batch_in_budget policy l.
Proof.
  setoid_rewrite exec_local_Ok.
  setoid_rewrite accept_all_Ok; [|split; simpl; lia]. simpl. unfold batch_in_budget.
  naive_solver.
Qed.

(** ** Lemmas on the encoder *)

Lemma emits_lift {A} (m : result ProtocolError A) a (k : A → M PayloadWriter ProtocolError unit) img :
  m = Ok a → emits (k a) img → emits (lift m ≫= k) img.
Proof. intros -> Hk w Hw Herr Hfit. by apply Hk. Qed.

Lemma spelling_fits path : spelling_ok path → fits 16 (len path).
Proof. intros (_&?&_). unfold fits, MAXIMUM_ENTRY_BATCH_PATH_BYTES in *. lia. Qed.

Lemma write_entries_emits l :
  Forall (λ e, fits 16 (path_len e)) l → emits (write_entries l) (concat (entry_image <$> l)).
Proof.
  induction 1 as [|e l He Hl IH]; [apply emits_mret|].
  cbn [write_entries fmap list_fmap concat]. unfold entry_image. rewrite <-!app_assoc.
  repeat (apply emits_bind; [solve [eauto with ohl]|]).
  apply (emits_lift _ (path_len e)).
  { apply ok_or_Ok. by apply try_from_Some. }
  repeat (apply emits_bind; [solve [eauto with ohl]|]). done.
Qed.

Definition image_len (e : EntryBatchEntry) : N := ENTRY_BATCH_ENTRY_PREFIX_BYTES + path_len e.

Lemma len_entry_image e : len (entry_image e) = image_len e.
Proof.
  unfold entry_image, image_len, path_len. rewrite !len_app, !len_le_bytes.
  change ENTRY_BATCH_ENTRY_PREFIX_BYTES with 18. lia.
Qed.

Lemma len_concat_images l : len (concat (entry_image <$> l)) = total image_len l.
Proof.
  induction l as [|e l IH]; [done|]. cbn [fmap list_fmap concat total foldr].
  by rewrite len_app, len_entry_image, IH.
Qed.

Lemma len_batch_image l : len (batch_image l) = ENTRY_BATCH_PREFIX_BYTES + total image_len l.
Proof. unfold batch_image. by rewrite len_app, len_le_bytes, len_concat_images. Qed.

Lemma add_payload_sizes_spec l n :
  n < 2 ^ 64 →
  add_payload_sizes l n =
    if n + total image_len l <? 2 ^ 64 then Ok (n + total image_len l) else Err PayloadTooLarge.
Proof.
  revert n; induction l as [|e l IH]; intros n Hn; cbn [add_payload_sizes total foldr].
  - rewrite N.add_0_r. by rewrite (proj2 (N.ltb_lt _ _) Hn).
  - fold (total image_len l). fold (path_len e) (image_len e).
    unfold checked_add_bounded, checked_add.
    destruct (N.ltb_spec (n + image_len e) (2 ^ 64)); cbn [ok_or map_err mbind result_bind].
    + rewrite IH by done. by rewrite !N.add_assoc.
    + case_cmp; [lia|done].
Qed.

Lemma acc_accept_Err token size path policy acc acc' err :
  acc_accept token size path policy acc = (acc', Err err) → err = NoncanonicalValue.
Proof.
  unfold acc_accept, archive_spelling_new, guard_err, lift, get, map_err, modify, throw.
  destruct (_ || _); [by intros [= _ <-]|].
  assert (∀ e, spelling_scan path = Err e → e = NoncanonicalValue) as Hs.
  { clear. induction path as [|b path IH]; [done|]. simpl.
    destruct (unprintable b); [by intros e [= <-]|done]. }
  destruct (spelling_scan path) as [[]|e]; [|intros [= _ <-]; by apply Hs].
  unfold mbind, M_bind, mbind, result_bind, mret, result_ret.
  destruct (checked_sub_bounded _ _) as [?|]; [|by intros [= _ <-]].
  destruct (checked_sub_bounded _ _) as [?|]; [|by intros [= _ <-]].
  case_match; [by intros [= _ <-]|done].
Qed.

Lemma accept_all_Err l policy acc acc' err :
  accept_all l policy acc = (acc', Err err) → err = NoncanonicalValue.
Proof.
  revert acc; induction l as [|e l IH]; intros acc; [done|]. cbn [accept_all].
  intros [H|(?&?&_&H)]%M_bind_Err; [by eapply acc_accept_Err|by eapply IH].
Qed.

Lemma batch_lengths policy (l : list EntryBatchEntry) :
  ((len l =? 0) || (MAXIMUM_ENTRY_BATCH_ENTRIES <? len l) || (remaining_entries policy <? len l))
    = false ↔
  1 ≤ len l ≤ MAXIMUM_ENTRY_BATCH_ENTRIES ∧ len l ≤ remaining_entries policy.
Proof. rewrite !orb_false_iff, N.eqb_neq, !N.ltb_ge. lia. Qed.

Lemma budget_fits policy l :
  batch_in_budget policy l → Forall (λ e, fits 16 (path_len e)) l.
Proof.
  intros [H _]. eapply Forall_impl; [|exact H]. intros e [? _]. by apply spelling_fits.
Qed.

Lemma encode_entry_batch_accepted l policy dest :
  batch_accepts policy l →
  encode_entry_batch_payload {| entries := l |} policy dest =
    let img := batch_image l in
    if MAXIMUM_FRAME_PAYLOAD_BYTES <? len img then (dest, Err PayloadTooLarge)
    else if len img <=? len dest then (img ++ drop (N.to_nat (len img)) dest, Ok (len img))
    else (dest, Err OutputTooSmall).
Proof.
  intros (Hl & Hr & Hb). unfold encode_entry_batch_payload. cbn [entries].
  rewrite (lift_Ok _ tt) by (apply guard_err_Ok, batch_lengths; auto).
  destruct (proj2 (accept_all_start l policy) Hb) as [acc Hacc].
  rewrite (lift_Ok _ acc) by done.
  cbv zeta. rewrite len_batch_image. unfold entry_batch_payload_size.
  rewrite add_payload_sizes_spec by done.
  destruct (N.ltb_spec (ENTRY_BATCH_PREFIX_BYTES + total image_len l) (2 ^ 64)) as [H64|H64].
  2:{ case_cmp; [done|]. unfold MAXIMUM_FRAME_PAYLOAD_BYTES in *.
      assert (2 ^ 20 < 2 ^ 64) by done. lia. }
  rewrite (lift_Ok _ _ _ _ eq_refl).
  case_cmp; [done|]. cbn [guard_err]. rewrite (lift_Ok _ tt) by done.
  rewrite <-len_batch_image. apply write_prefix; [|done|by rewrite len_batch_image].
  apply (emits_lift _ (len l)).
  { apply ok_or_Ok, try_from_Some. unfold MAXIMUM_ENTRY_BATCH_ENTRIES in *. split; [lia|done]. }
  apply emits_bind; [eauto with ohl|]. apply write_entries_emits. by eapply budget_fits.
Qed.

Lemma encode_entry_batch_refused l policy dest :
  ¬ batch_accepts policy l →
  encode_entry_batch_payload {| entries := l |} policy dest = (dest, Err NoncanonicalValue).
Proof.
  intros Hn. unfold encode_entry_batch_payload. cbn [entries].
  destruct (_ || _ || _) eqn:Hc; [done|]. cbn [guard_err].
  rewrite (lift_Ok _ tt) by done. apply batch_lengths in Hc as [??].
  destruct (exec_local (accept_all l policy) (acc_start policy)) as [acc|e] eqn:Ha.
  - destruct Hn. split_and!; [lia..|]. apply accept_all_start. eauto.
  - unfold exec_local in Ha. destruct (accept_all _ _ _) as [? [[]|err]] eqn:E; [done|].
    injection Ha as ->. by apply accept_all_Err in E as ->.
Qed.

(** ** Lemmas on the decoder *)

Definition fields_image (f : N * N * list byte) : list byte :=
  le_bytes 8 f.1.1 ++ le_bytes 8 f.1.2 ++ le_bytes 2 (len f.2) ++ f.2.

Lemma parses_ext {A} (m : M PayloadReader ProtocolError A) img img' P P' :
  parses m img P → (∀ a, img a = img' a) → (∀ a, P a ↔ P' a) → parses m img' P'.
Proof.
  intros Hm Hi HP. split.
  - intros r a rest. rewrite <-Hi, <-HP. apply (parses_complete _ _ _ Hm).
  - intros r r' a. rewrite <-Hi, <-HP. apply (parses_sound _ _ _ Hm).
Qed.

Lemma read_entry_fields_parses :
  parses read_entry_fields fields_image
    (λ f, fits 64 f.1.1 ∧ fits 64 f.1.2 ∧ fits 16 (len f.2)).
Proof.
  eapply parses_ext.
  - eapply (parses_bind _ _ _ _ _ _ (λ f : N * N * list byte, f.1.1)); cycle 1;
      [apply read_u64_parses|intros token|].
    { eapply (parses_bind _ _ _ _ _ _ (λ f : N * N * list byte, f.1.2)); cycle 1;
        [apply read_u64_parses|intros size|].
      { eapply (parses_bind _ _ _ _ _ _ (λ f : N * N * list byte, len f.2)); cycle 1;
          [apply read_u16_parses|intros n|].
        { eapply (parses_bind _ _ _ _ _ _ (λ f : N * N * list byte, f.2)); cycle 1;
            [apply take_bytes_parses|intros path; apply parses_mret|].
          by intros path f ->. }
        by intros n f [<- _]. }
      by intros size f (_&_&->). }
    by intros token f (_&_&_&->).
  - intros [[t s] p]. simpl. by rewrite app_nil_r.
  - intros [[t s] p]. simpl. tauto.
Qed.

Definition entry_of (f : N * N * list byte) : EntryBatchEntry :=
  {| be_source_token := f.1.1; be_size_bytes := f.1.2; be_archive_path := f.2 |}.

Definition entry_fields (e : EntryBatchEntry) : N * N * list byte :=
  (be_source_token e, be_size_bytes e, be_archive_path e).

(** An entry as the reader produces it. *)
Definition entry_readable (e : EntryBatchEntry) : Prop :=
  entry_typed e ∧ fits 16 (path_len e).

Lemma advance_advance r n m :
  pr_set_position (pr_position (pr_set_position (pr_position r + n) r) + m)
    (pr_set_position (pr_position r + n) r) = pr_set_position (pr_position r + (n + m)) r.
Proof. unfold pr_set_position. simpl. by rewrite N.add_assoc. Qed.

Lemma validate_entries_sound n policy acc acc' r r' :
  pr_wf r → pr_error r = None → validate_entries n policy acc r = (r', Ok acc') →
  ∃ l, length l = n ∧ Forall entry_readable l ∧
       pr_rest r = concat (entry_image <$> l) ++ pr_rest r' ∧
       r' = pr_set_position (pr_position r + len (concat (entry_image <$> l))) r ∧ pr_wf r' ∧
       exec_local (accept_all l policy) acc = Ok acc'.
Proof.
  revert acc r; induction n as [|n IH]; intros acc r Hw Herr H; cbn [validate_entries] in H.
  - run_M in H. injection H as <- <-. exists []. simpl.
    split_and!; try done. rewrite N.add_0_r. by destruct r.
  - apply M_bind_Ok in H as (r1 & [[t s] p] & Hf & H).
    apply (parses_sound _ _ _ read_entry_fields_parses) in Hf as ((?&?&?)&Hr&->&Hw1); [|done..].
    apply M_bind_Ok in H as (r2 & acc1 & Ha & H). unfold lift in Ha. injection Ha as <- Ha.
    apply IH in H as (l & Hn & Hl & Hr' & -> & Hw' & Hacc); [|done..].
    exists (entry_of (t, s, p) :: l). cbn [fmap list_fmap concat].
    split_and!; [by simpl; rewrite Hn|by constructor| | |done|].
    + rewrite Hr, Hr', app_assoc. done.
    + rewrite len_app, <-advance_advance. done.
    + cbn [accept_all entry_of be_source_token be_size_bytes be_archive_path fst snd].
      apply exec_local_Ok. apply M_bind_Ok. exists acc1, tt.
      split; by apply exec_local_Ok.
Qed.

Lemma validate_entries_complete l policy acc acc' r rest :
  pr_wf r → pr_error r = None → Forall entry_readable l →
  pr_rest r = concat (entry_image <$> l) ++ rest →
  exec_local (accept_all l policy) acc = Ok acc' →
  validate_entries (length l) policy acc r =
    (pr_set_position (pr_position r + len (concat (entry_image <$> l))) r, Ok acc').
Proof.
  intros Hw Herr Hl. revert acc r Hw Herr.
  induction Hl as [|e l [[??] ?] Hl IH]; intros acc r Hw Herr Hr Hacc.
  - injection Hacc as <-. simpl. rewrite N.add_0_r. by destruct r.
  - cbn [validate_entries length fmap list_fmap concat] in *.
    rewrite <-app_assoc in Hr.
    erewrite M_bind_step;
      [|by apply (parses_complete _ _ _ read_entry_fields_parses r (entry_fields e) _ Hw Herr Hr)].
    cbn [entry_fields].
    apply exec_local_Ok, M_bind_Ok in Hacc as (acc1 & [] & Ha & Hacc).
    rewrite (lift_Ok _ acc1) by (by apply exec_local_Ok).
    rewrite IH; [|by eapply pr_advance_wf|done|by eapply pr_rest_advance|by apply exec_local_Ok].
    by rewrite advance_advance, <-len_app.
Qed.

Lemma with_reader_Ok {A} payload (m : M PayloadReader ProtocolError A) a :
  with_reader payload m = Ok a ↔ ∃ r', m (reader_new payload) = (r', Ok a).
Proof.
  unfold with_reader. destruct (m (reader_new payload)) as [r x]; simpl.
  split; [intros ->; eauto|]. by intros [? [= _ ->]].
Qed.

Lemma validate_entry_batch_Ok payload policy n :
  len payload ≤ MAXIMUM_FRAME_PAYLOAD_BYTES →
  validate_entry_batch_payload payload policy = Ok n ↔
  ∃ l, n = len l ∧ Forall entry_readable l ∧ payload = batch_image l ∧ batch_accepts policy l.
Proof.
  intros Hmax. unfold validate_entry_batch_payload. rewrite with_reader_Ok.
  pose proof (reader_new_wf payload) as Hw.
  assert (pr_error (reader_new payload) = None) as Herr by (simpl; case_cmp; [lia|done]).
  split.
  - intros [r' E]. apply M_bind_Ok in E as (r1 & c & Hc & E).
    apply (parses_sound _ _ _ read_u16_parses) in Hc as (?&Hr1&->&Hw1); [|done..].
    apply M_bind_Ok in E as (r2 & [] & Hg & E). unfold lift in Hg. injection Hg as <- Hg.
    apply guard_err_Ok in Hg.
    apply M_bind_Ok in E as (r2 & acc & Hv & E).
    apply validate_entries_sound in Hv as (l & Hl & Hread & Hr & -> & Hw2 & Hacc); [|done..].
    apply M_bind_Ok in E as (r3 & [] & Hfin & E). run_M in E. injection E as <- <-.
    apply reader_finish_rest in Hfin; [|done]. rewrite Hfin, app_nil_r in Hr.
    assert (c = len l) as -> by (unfold len; lia).
    exists l. split_and!; [done|done| |].
    + unfold batch_image. by rewrite <-Hr.
    + apply batch_lengths in Hg as [??]. split_and!; [lia..|]. apply accept_all_start. eauto.
  - intros (l & -> & Hread & -> & Hcnt & Hrem & Hb).
    assert (fits 16 (len l)) as Hfit
      by (unfold fits, MAXIMUM_ENTRY_BATCH_ENTRIES in *; lia).
    unfold batch_image in *.
    erewrite M_bind_step; [|by apply (parses_complete _ _ _ read_u16_parses _ (len l)
      (concat (entry_image <$> l)) Hw Herr)].
    rewrite (lift_Ok _ tt) by (apply guard_err_Ok, batch_lengths; auto).
    destruct (proj2 (accept_all_start l policy) Hb) as [acc Hacc].
    rewrite len_to_nat.
    erewrite M_bind_step.
    2:{ eapply (validate_entries_complete _ _ _ _ _ []); [|done|done| |done].
        - by eapply pr_advance_wf.
        - rewrite app_nil_r. by eapply pr_rest_advance. }
    rewrite advance_advance, <-len_app. unfold reader_finish. run_M.
    cbn [pr_set_position pr_error pr_position pr_payload]. rewrite Herr.
    rewrite N.eqb_refl. by eexists.
Qed.

Lemma on_reader_step {A} (m : M PayloadReader ProtocolError A) r r' st a :
  m r = (r', Ok a) → on_reader m (r, st) = ((r', st), Ok a).
Proof. unfold on_reader, zoom. simpl. by intros ->. Qed.

Lemma populate_complete l index r st rest :
  pr_wf r → pr_error r = None → Forall entry_readable l →
  Forall (λ e, spelling_ok (be_archive_path e)) l →
  pr_rest r = concat (entry_image <$> l) ++ rest →
  (index + length l ≤ length st)%nat →
  ∃ r', populate (length l) index (r, st) =
          ((r', take index st ++ l ++ drop (index + length l) st), Ok tt).
Proof.
  intros Hw Herr Hl. revert index r st Hw Herr.
  induction Hl as [|e l [[??] ?] Hl IH]; intros index r st Hw Herr Hsp Hr Hlen.
  - exists r. simpl. rewrite Nat.add_0_r. by rewrite take_drop.
  - apply Forall_cons_iff in Hsp as [Hs Hsp]. cbn [populate length fmap list_fmap concat] in *.
    rewrite <-app_assoc in Hr.
    erewrite M_bind_step.
    2:{ apply on_reader_step. by apply (parses_complete _ _ _ read_entry_fields_parses r
          (entry_fields e) (concat (entry_image <$> l) ++ rest) Hw Herr Hr). }
    cbn [entry_fields].
    rewrite (lift_Ok _ (be_archive_path e)) by (by apply archive_spelling_new_Ok).
    erewrite M_bind_step; [|reflexivity]. cbn beta iota.
    edestruct (IH (S index)) as [r' ->];
      [by eapply pr_advance_wf|done|done|by eapply pr_rest_advance|rewrite length_insert; lia|].
    exists r'. do 2 f_equal. destruct e as [t s p]. cbn [be_source_token be_size_bytes be_archive_path].
    rewrite insert_take_drop by lia.
    rewrite take_app_ge by (rewrite length_take; lia).
    rewrite drop_app_ge by (rewrite length_take; lia).
    rewrite length_take, Nat.min_l by lia.
    replace (S index - index)%nat with 1%nat by lia.
    replace (S index + length l - index)%nat with (S (length l)) by lia.
    cbn [take drop]. rewrite drop_drop, <-!app_assoc. cbn [app].
    by replace (S index + length l)%nat with (index + S (length l))%nat by lia.
Qed.

(** The image determines the batch. *)
Lemma le_bytes_inj n v w : v < 256 ^ N.of_nat n → w < 256 ^ N.of_nat n → le_bytes n v = le_bytes n w → v = w.
Proof.
  intros Hv Hw E. apply (f_equal of_le_bytes) in E. rewrite !of_le_bytes_le_bytes in E.
  by rewrite !N.mod_small in E.
Qed.

Lemma entry_image_inj e e' k k' :
  entry_readable e → entry_readable e' →
  entry_image e ++ k = entry_image e' ++ k' → e = e' ∧ k = k'.
Proof.
  intros [[Ht Hs] Hp] [[Ht' Hs'] Hp'] E. unfold entry_image in E. rewrite <-!app_assoc in E.
  apply app_inj_1 in E as [E1 E]; [|by rewrite !length_le_bytes].
  apply app_inj_1 in E as [E2 E]; [|by rewrite !length_le_bytes].
  apply app_inj_1 in E as [E3 E]; [|by rewrite !length_le_bytes].
  apply le_bytes_inj in E1, E2, E3; try done.
  apply app_inj_1 in E as [E4 E]; [|unfold path_len, len in E3; lia].
  destruct e, e'. simpl in *. by subst.
Qed.

Lemma batch_image_inj l l' :
  Forall entry_readable l → Forall entry_readable l' →
  len l ≤ MAXIMUM_ENTRY_BATCH_ENTRIES → len l' ≤ MAXIMUM_ENTRY_BATCH_ENTRIES →
  batch_image l = batch_image l' → l = l'.
Proof.
  intros Hl Hl' Hb Hb' E. unfold batch_image in E.
  apply app_inj_1 in E as [En E]; [|by rewrite !length_le_bytes].
  unfold MAXIMUM_ENTRY_BATCH_ENTRIES in *.
  apply le_bytes_inj in En; [|change (256 ^ N.of_nat 2) with 65536; lia..].
  clear Hb Hb'. revert l' Hl' En E. induction Hl as [|e l He Hl IH]; intros [|e' l'] Hl' En E;
    rewrite ?len_cons, ?len_nil in En; try lia; [done|].
  apply Forall_cons_iff in Hl' as [He' Hl'].
  apply entry_image_inj in E as [-> E]; [|done..]. f_equal. apply IH; [done|lia|done].
Qed.

#[export] Instance sorted_lt_dec (l : list N) : Decision (Sorted N.lt l).
Proof.
  induction l as [|x l IH]; [left; constructor|].
  destruct IH as [Hs|Hs]; [|right; by intros [? _]%Sorted_inv].
  destruct l as [|y l]; [left; repeat constructor|].
  destruct (decide (x < y)) as [Hlt|Hge];
    [left; constructor; [done|by constructor]|right; intros [_ H]%Sorted_inv; by inversion H].
Defined.

#[export] Instance batch_accepts_dec policy l : Decision (batch_accepts policy l).
Proof.
  unfold batch_accepts, batch_in_budget, spelling_ok, tokens_increase.
  repeat first [apply _ | apply and_dec | apply Forall_dec; intros ?].
Defined.

(** The whole decoder, as one case analysis. *)
Lemma decode_entry_batch_cases frame policy storage :
  match validate_frame frame MT_EntryBatch;;
        validate_entry_batch_payload (fv_payload frame) policy with
  | Err e => decode_entry_batch_payload frame policy storage = (storage, Err e)
  | Ok n =>
      ∃ l, n = len l ∧ Forall entry_readable l ∧ fv_payload frame = batch_image l ∧
        batch_accepts policy l ∧ frame_ok frame MT_EntryBatch ∧
        decode_entry_batch_payload frame policy storage =
          if len l <=? len storage then (l ++ drop (length l) storage, Ok {| entries := l |})
          else (storage, Err OutputTooSmall)
  end.
Proof.
  unfold decode_entry_batch_payload.
  destruct (validate_frame frame MT_EntryBatch) as [u|e] eqn:Hf; [|done].
  cbn [mbind result_bind]. rewrite (lift_Ok _ u) by done.
  destruct (validate_entry_batch_payload (fv_payload frame) policy) as [n|e] eqn:Hv; [|done].
  rewrite (lift_Ok _ n) by done. apply validate_frame_Ok in Hf as Hok.
  apply validate_entry_batch_Ok in Hv as (l & -> & Hread & Hp & Hacc);
    [|by eapply frame_ok_len].
  exists l. split_and!; try done.
  erewrite M_bind_step; [|reflexivity]. rewrite len_to_nat.
  destruct (N.leb_spec (len l) (len storage)) as [Hle|Hgt].
  2:{ rewrite (proj2 (N.ltb_lt _ _) Hgt). done. }
  rewrite (proj2 (N.ltb_ge _ _) Hle), (lift_Ok _ tt) by done.
  assert (length l ≤ length storage)%nat as Hle' by (unfold len in Hle; lia).
  rewrite Nat.min_l by done.
  pose proof (reader_new_wf (fv_payload frame)) as Hw.
  assert (pr_error (reader_new (fv_payload frame)) = None) as Herr
    by (pose proof (frame_ok_len _ _ Hok); simpl; case_cmp; [lia|done]).
  assert (pr_rest (reader_new (fv_payload frame)) = le_bytes 2 (len l) ++
            concat (entry_image <$> l)) as Hr by (by rewrite pr_rest_new, Hp).
  destruct Hacc as (Hcnt & Hrem & Hb).
  assert (fits 16 (len l)) as Hfit by (unfold fits, MAXIMUM_ENTRY_BATCH_ENTRIES in *; lia).
  pose proof (parses_complete _ _ _ read_u16_parses _ _ _ Hw Herr Hr Hfit) as Hu.
  assert (Forall (λ e, spelling_ok (be_archive_path e)) l) as Hsp.
  { destruct Hb as [Hb _]. eapply Forall_impl; [|exact Hb]. by intros e [? _]. }
  assert (∃ r', populate (length l) 0 (pr_set_position (0 + len (le_bytes 2 (len l)))
            (reader_new (fv_payload frame)), storage) =
            ((r', l ++ drop (length l) storage), Ok tt)) as [r' Hpop].
  { apply (populate_complete l 0 _ storage []); [|done|done|done| |done].
    - by eapply (pr_advance_wf (reader_new (fv_payload frame))).
    - rewrite app_nil_r. by eapply (pr_rest_advance (reader_new (fv_payload frame))). }
  erewrite M_bind_step.
  2:{ unfold zoom. erewrite M_bind_step by (by apply on_reader_step, Hu).
      change (pr_position (reader_new (fv_payload frame))) with 0.
      rewrite Hpop. reflexivity. }
  run_M. cbn [snd]. by rewrite take_app_length.
Qed.

(** ** Properties *)

(** [encode_entry_batch_payload] refuses every batch outside the
    enumeration budget with [NoncanonicalValue], reports [PayloadTooLarge]
    for a legal batch whose image exceeds a frame and [OutputTooSmall] when
    the destination is short, all without writing; otherwise it writes exactly
    the batch's image at the front of the destination. *)
Theorem encode_entry_batch_spec l policy dest :
  let img := batch_image l in
  (batch_accepts policy l ∧
   encode_entry_batch_payload {| entries := l |} policy dest =
     if MAXIMUM_FRAME_PAYLOAD_BYTES <? len img then (dest, Err PayloadTooLarge)
     else if len img <=? len dest then (img ++ drop (N.to_nat (len img)) dest, Ok (len img))
     else (dest, Err OutputTooSmall)) ∨
  (¬ batch_accepts policy l ∧
   encode_entry_batch_payload {| entries := l |} policy dest = (dest, Err NoncanonicalValue)).
Proof.
  destruct (decide (batch_accepts policy l)).
  - left. split; [done|]. by apply encode_entry_batch_accepted.
  - right. split; [done|]. by apply encode_entry_batch_refused.
Qed.

(** C20: [decode_entry_batch_payload] succeeds exactly when the frame is a
    canonical [entry_batch] frame whose payload is the image of a batch within
    the whole enumeration budget (entry count, per-entry and cumulative sizes,
    cumulative spelling bytes, printable spellings, tokens strictly above the
    previous batch's) that fits the caller's storage; the decoded entries are
    then exactly that batch and occupy the front of the storage. *)
Theorem decode_entry_batch_canonical frame policy storage storage' b :
  decode_entry_batch_payload frame policy storage = (storage', Ok b) ↔
  frame_ok frame MT_EntryBatch ∧ fv_payload frame = batch_image (entries b) ∧
  Forall entry_typed (entries b) ∧ batch_accepts policy (entries b) ∧
  len (entries b) ≤ len storage ∧
  storage' = entries b ++ drop (length (entries b)) storage.
Proof.
  pose proof (decode_entry_batch_cases frame policy storage) as Hd. split.
  - intros H. rewrite H in Hd.
    destruct (validate_frame _ _;; _) as [n|e]; [|done].
    destruct Hd as (l & -> & Hread & Hp & Hacc & Hok & E). revert E. case_cmp; [|done].
    intros [-> [= ->]]%pair_equal_spec. cbn [entries]. split_and!; try done.
    eapply Forall_impl; [|exact Hread]. by intros e [? _].
  - destruct b as [l]. cbn [entries]. intros (Hok & Hp & Ht & Hacc & Hlen & ->).
    rewrite (proj2 (validate_frame_Ok frame MT_EntryBatch tt) Hok) in Hd.
    cbn [mbind result_bind] in Hd.
    assert (Forall entry_readable l) as Hread.
    { destruct Hacc as (_&_&Hb). apply budget_fits in Hb. by apply Forall_and. }
    rewrite (proj2 (validate_entry_batch_Ok _ _ (len l) (frame_ok_len _ _ Hok))) in Hd
      by eauto.
    destruct Hd as (l' & Hn & Hread' & Hp' & Hacc' & _ & ->).
    assert (l' = l) as ->.
    { apply batch_image_inj; [done|done|..|by rewrite <-Hp, <-Hp'].
      - by destruct Hacc' as ((_&?)&_).
      - by destruct Hacc as ((_&?)&_). }
    by rewrite (proj2 (N.leb_le _ _) Hlen).
Qed.

(** A batch [decode_entry_batch_payload] rejects, for whatever reason,
    leaves every slot of the caller's storage untouched. *)
Theorem decode_entry_batch_atomic frame policy storage storage' e :
  decode_entry_batch_payload frame policy storage = (storage', Err e) → storage' = storage.
Proof.
  pose proof (decode_entry_batch_cases frame policy storage) as Hd. intros H. rewrite H in Hd.
  destruct (validate_frame _ _;; _) as [n|e']; [|by injection Hd].
  destruct Hd as (l & _ & _ & _ & _ & _ & E). revert E. case_cmp; [done|].
  by intros [= -> _].
Qed.

(** *** Witnesses *)

Definition sample_policy : EntryBatchPolicy :=
  {| remaining_entries := 2; remaining_path_bytes := 16; maximum_entry_bytes := 100;
     remaining_total_bytes := 150; previous_source_token := Some 4 |}.

Definition sample_batch : list EntryBatchEntry :=
  [ {| be_source_token := 5; be_size_bytes := 100; be_archive_path := [x61; x2f; x62] |};
    {| be_source_token := 9; be_size_bytes := 50; be_archive_path := [x63] |} ].

Definition sample_batch_frame : FrameView :=
  frame_view_new (frame_header_new MT_EntryBatch 7 1 (len (batch_image sample_batch)))
    (batch_image sample_batch).

Example sample_batch_decodes :
  decode_entry_batch_payload sample_batch_frame sample_policy (replicate 3 entry_default) =
    (sample_batch ++ [entry_default], Ok {| entries := sample_batch |}).
Proof. vm_compute. reflexivity. Qed.

(** The same frame against a budget one byte short. *)
Lemma decode_entry_batch_atomic_witness :
  let policy := {| remaining_entries := 2; remaining_path_bytes := 16;
                   maximum_entry_bytes := 100; remaining_total_bytes := 149;
                   previous_source_token := Some 4 |} in
  fst (decode_entry_batch_payload sample_batch_frame policy (replicate 2 entry_default)) =
    replicate 2 entry_default.
Proof.
  apply (decode_entry_batch_atomic sample_batch_frame
    {| remaining_entries := 2; remaining_path_bytes := 16; maximum_entry_bytes := 100;
       remaining_total_bytes := 149; previous_source_token := Some 4 |}
    (replicate 2 entry_default) _ NoncanonicalValue).
  vm_compute. reflexivity.
Defined.
