(* ===== verification/Session.v ===== *)
(** * The session validator

    [crates/ohl-parser-protocol/src/session.rs]: the state machine both peers
    run over every header they send and receive, and the automaton it
    implements. *)

From stdpp Require Import sets.
From S2P Require Export Messages.

(** ** [SessionId] and [ProtocolBudgets] *)

(** A [NonZeroU64]. *)
Definition SessionId : Type := N.

Definition session_id_new (value : N) : option SessionId :=
  if value =? 0 then None else Some value.

Record ProtocolBudgets : Type := {
  maximum_messages : N;
  maximum_payload_bytes : N
}.

Definition protocol_budgets_new (messages payload : N) : result ProtocolError ProtocolBudgets :=
  if (messages =? 0) || (MAXIMUM_PROTOCOL_MESSAGES <? messages) ||
     (payload =? 0) || (MAXIMUM_CUMULATIVE_PAYLOAD_BYTES <? payload)
  then Err InvalidBudget
  else Ok {| maximum_messages := messages; maximum_payload_bytes := payload |}.

Definition protocol_budgets_default : ProtocolBudgets :=
  {| maximum_messages := MAXIMUM_PROTOCOL_MESSAGES;
     maximum_payload_bytes := MAXIMUM_CUMULATIVE_PAYLOAD_BYTES |}.

(** ** [Direction] and [SessionState] *)

Inductive Direction : Type := ParentToWorker | WorkerToParent.

#[export] Instance Direction_eq_dec : EqDecision Direction.
Proof. solve_decision. Defined.

Inductive SessionState : Type :=
| AwaitingHello
| AwaitingReady
| Idle
| Enumerating
| Streaming
| Cancelling
| Cancelled
| Closed
| Failed.

#[export] Instance SessionState_eq_dec : EqDecision SessionState.
Proof. solve_decision. Defined.

(** ** [SessionValidator] *)

Record SessionValidator : Type := {
  sv_session_id : SessionId;
  sv_budgets : ProtocolBudgets;
  sv_state : SessionState;
  sv_error : option ProtocolError;
  sv_active : N;
  sv_last : N;
  sv_completed : N;
  sv_late_reply : N;
  sv_messages : N;
  sv_payload : N;
  sv_result_type : MessageType;
  sv_read_in_flight : bool;
  sv_accept_late_cancel : bool;
  sv_crossed : bool
}.

Definition session_new (id : SessionId) (budgets : ProtocolBudgets) : SessionValidator :=
  {| sv_session_id := id;
     sv_budgets := budgets;
     sv_state := AwaitingHello;
     sv_error := None;
     sv_active := 0;
     sv_last := 0;
     sv_completed := 0;
     sv_late_reply := 0;
     sv_messages := 0;
     sv_payload := 0;
     sv_result_type := MT_Complete;
     sv_read_in_flight := false;
     sv_accept_late_cancel := false;
     sv_crossed := false |}.

(** *** Assignments [self.field = value] *)

Definition set_state (x : SessionState) (v : SessionValidator) : SessionValidator :=
  let (a, b, _, d, e, f, g, h, i, j, k, l, m, n) := v in
  Build_SessionValidator a b x d e f g h i j k l m n.
Definition set_error (x : option ProtocolError) (v : SessionValidator) : SessionValidator :=
  let (a, b, c, _, e, f, g, h, i, j, k, l, m, n) := v in
  Build_SessionValidator a b c x e f g h i j k l m n.
Definition set_active (x : N) (v : SessionValidator) : SessionValidator :=
  let (a, b, c, d, _, f, g, h, i, j, k, l, m, n) := v in
  Build_SessionValidator a b c d x f g h i j k l m n.
Definition set_last (x : N) (v : SessionValidator) : SessionValidator :=
  let (a, b, c, d, e, _, g, h, i, j, k, l, m, n) := v in
  Build_SessionValidator a b c d e x g h i j k l m n.
Definition set_completed (x : N) (v : SessionValidator) : SessionValidator :=
  let (a, b, c, d, e, f, _, h, i, j, k, l, m, n) := v in
  Build_SessionValidator a b c d e f x h i j k l m n.
Definition set_late_reply (x : N) (v : SessionValidator) : SessionValidator :=
  let (a, b, c, d, e, f, g, _, i, j, k, l, m, n) := v in
  Build_SessionValidator a b c d e f g x i j k l m n.
Definition set_messages (x : N) (v : SessionValidator) : SessionValidator :=
  let (a, b, c, d, e, f, g, h, _, j, k, l, m, n) := v in
  Build_SessionValidator a b c d e f g h x j k l m n.
Definition set_payload (x : N) (v : SessionValidator) : SessionValidator :=
  let (a, b, c, d, e, f, g, h, i, _, k, l, m, n) := v in
  Build_SessionValidator a b c d e f g h i x k l m n.
Definition set_result_type (x : MessageType) (v : SessionValidator) : SessionValidator :=
  let (a, b, c, d, e, f, g, h, i, j, _, l, m, n) := v in
  Build_SessionValidator a b c d e f g h i j x l m n.
Definition set_read_in_flight (x : bool) (v : SessionValidator) : SessionValidator :=
  let (a, b, c, d, e, f, g, h, i, j, k, _, m, n) := v in
  Build_SessionValidator a b c d e f g h i j k x m n.
Definition set_accept_late_cancel (x : bool) (v : SessionValidator) : SessionValidator :=
  let (a, b, c, d, e, f, g, h, i, j, k, l, _, n) := v in
  Build_SessionValidator a b c d e f g h i j k l x n.
Definition set_crossed (x : bool) (v : SessionValidator) : SessionValidator :=
  let (a, b, c, d, e, f, g, h, i, j, k, l, m, _) := v in
  Build_SessionValidator a b c d e f g h i j k l m x.

(** *** Private steps *)

Definition fail (error : ProtocolError) : M SessionValidator ProtocolError unit :=
  modify (set_late_reply 0);;
  modify (set_error (Some error));;
  modify (set_state Failed);;
  throw error.

Definition charge (header : FrameHeader) : M SessionValidator ProtocolError unit :=
  self ← get;
  if maximum_messages (sv_budgets self) <=? sv_messages self then fail MessageBudgetExceeded
  else
    modify (set_messages (sv_messages self + 1));;
    if maximum_payload_bytes (sv_budgets self) - sv_payload self <? payload_length header
    then fail ByteBudgetExceeded
    else modify (set_payload (sv_payload self + payload_length header)).

Definition begin_request (header : FrameHeader) (state : SessionState)
  : M SessionValidator ProtocolError unit :=
  self ← get;
  if request_id header <=? sv_last self then fail RequestIdNotMonotonic
  else
    modify (set_last (request_id header));;
    modify (set_active (request_id header));;
    modify (set_completed 0);;
    modify (set_late_reply 0);;
    modify (set_accept_late_cancel false);;
    modify (set_read_in_flight false);;
    modify (set_crossed false);;
    modify (set_result_type (if decide (state = Enumerating) then MT_EntryBatch
                             else MT_DataChunk));;
    modify (set_state state).

Definition complete_request (accept_late_cancel : bool)
  : M SessionValidator ProtocolError unit :=
  self ← get;
  modify (set_completed (sv_active self));;
  modify (set_active 0);;
  modify (set_late_reply 0);;
  modify (set_read_in_flight false);;
  modify (set_crossed false);;
  modify (set_accept_late_cancel accept_late_cancel);;
  modify (set_state Idle).

(** The match arms of [observe_active] and [observe_cancelling], in order; a
    guarded arm is the [if] behind the earlier ones. *)
Definition observe_active (direction : Direction) (header : FrameHeader)
    (result_type : MessageType) : M SessionValidator ProtocolError unit :=
  self ← get;
  if (match message_type header with MT_Enumerate | MT_StreamEntry => true | _ => false end)
  then fail RequestAlreadyActive
  else if request_id header =? 0 then fail UnexpectedMessage
  else if negb (request_id header =? sv_active self) then fail WrongRequestId
  else
    match message_type header, direction with
    | MT_ReadRequest, WorkerToParent =>
        if sv_read_in_flight self then fail ReadAlreadyActive
        else modify (set_read_in_flight true)
    | MT_ReadReply, ParentToWorker =>
        if negb (sv_read_in_flight self) then fail NoReadInFlight
        else modify (set_read_in_flight false)
    | ty, WorkerToParent =>
        if decide (ty = result_type) then
          if sv_read_in_flight self then fail UnexpectedMessage else mret tt
        else if decide (ty = MT_Complete) then
          if sv_read_in_flight self then fail UnexpectedMessage else complete_request true
        else fail UnexpectedMessage
    | MT_Cancel, ParentToWorker =>
        modify (set_crossed false);;
        modify (set_state Cancelling)
    | _, _ => fail UnexpectedMessage
    end.

Definition observe_idle (direction : Direction) (header : FrameHeader)
  : M SessionValidator ProtocolError unit :=
  self ← get;
  if decide (direction ≠ ParentToWorker) then fail UnexpectedMessage
  else
    match message_type header with
    | MT_Enumerate => begin_request header Enumerating
    | MT_StreamEntry => begin_request header Streaming
    | MT_Shutdown => modify (set_state Closed)
    | MT_Cancel =>
        if sv_accept_late_cancel self then
          if negb (request_id header =? sv_completed self) then fail WrongRequestId
          else modify (set_accept_late_cancel false)
        else fail UnexpectedMessage
    | _ => fail UnexpectedMessage
    end.

Definition observe_cancelling (direction : Direction) (header : FrameHeader)
  : M SessionValidator ProtocolError unit :=
  self ← get;
  if negb (request_id header =? sv_active self) then fail WrongRequestId
  else
    let result_type := sv_result_type self in
    match message_type header, direction with
    | MT_CancelAck, WorkerToParent =>
        modify (set_late_reply (if sv_read_in_flight self then sv_active self else 0));;
        modify (set_active 0);;
        modify (set_read_in_flight false);;
        modify (set_crossed false);;
        modify (set_state Cancelled)
    | MT_Complete, WorkerToParent =>
        if sv_read_in_flight self || sv_crossed self then fail UnexpectedMessage
        else complete_request false
    | MT_ReadRequest, WorkerToParent =>
        if sv_read_in_flight self || sv_crossed self then fail ReadAlreadyActive
        else modify (set_crossed true)
    | MT_ReadReply, ParentToWorker =>
        if negb (sv_read_in_flight self) then fail NoReadInFlight
        else modify (set_read_in_flight false)
    | ty, WorkerToParent =>
        if decide (ty = result_type) then
          if sv_read_in_flight self || sv_crossed self then fail UnexpectedMessage
          else mret tt
        else fail UnexpectedMessage
    | _, _ => fail UnexpectedMessage
    end.

Definition observe_cancelled (direction : Direction) (header : FrameHeader)
  : M SessionValidator ProtocolError unit :=
  self ← get;
  match direction, message_type header with
  | ParentToWorker, MT_Shutdown =>
      modify (set_late_reply 0);;
      modify (set_state Closed)
  | ParentToWorker, MT_ReadReply =>
      if negb (sv_late_reply self =? 0) then
        if negb (request_id header =? sv_late_reply self) then fail WrongRequestId
        else modify (set_late_reply 0)
      else fail TerminalState
  | _, _ => fail TerminalState
  end.

(** *** [SessionValidator::observe] *)

Definition observe (direction : Direction) (header : FrameHeader)
  : M SessionValidator ProtocolError unit :=
  self ← get;
  match sv_error self with
  | Some error => throw error
  | None =>
      if decide (sv_state self = Closed) then fail TerminalState
      else
        match header_validate header with
        | Err error => fail error
        | Ok _ =>
            if negb (session_id header =? sv_session_id self) then fail WrongSessionId
            else
              charge header;;
              match sv_state self with
              | AwaitingHello =>
                  if bool_decide (direction ≠ ParentToWorker) ||
                     bool_decide (message_type header ≠ MT_Hello)
                  then fail UnexpectedMessage
                  else modify (set_state AwaitingReady)
              | AwaitingReady =>
                  if bool_decide (direction ≠ WorkerToParent) ||
                     bool_decide (message_type header ≠ MT_Ready)
                  then fail UnexpectedMessage
                  else modify (set_state Idle)
              | Idle => observe_idle direction header
              | Enumerating => observe_active direction header MT_EntryBatch
              | Streaming => observe_active direction header MT_DataChunk
              | Cancelling => observe_cancelling direction header
              | Cancelled => observe_cancelled direction header
              | Closed | Failed => fail TerminalState
              end
        end
  end.

(** Feeding a validator a sequence of frames. *)
Fixpoint observe_all (trace : list (Direction * FrameHeader))
  : M SessionValidator ProtocolError unit :=
  match trace with
  | [] => mret tt
  | (direction, header) :: trace => observe direction header;; observe_all trace
  end.

(** ** Specification: the session automaton *)

Inductive Phase : Type :=
| PhHello
| PhReady
(** no request; a [cancel] of the request that just completed is stale *)
| PhIdle (stale : option N)
(** the operation, its request id, and whether a read is outstanding *)
| PhActive (op : OperationPhase) (id : N) (reading : bool)
(** ... and whether a read request crossed the cancel *)
| PhCancelling (op : OperationPhase) (id : N) (reading crossed : bool)
(** acknowledged; a reply to a pre-cancel read may still drain *)
| PhCancelled (drain : option N)
| PhClosed.

Definition request_kind (op : OperationPhase) : MessageType :=
  match op with OP_Enumerate => MT_Enumerate | OP_Stream => MT_StreamEntry end.
Definition result_kind (op : OperationPhase) : MessageType :=
  match op with OP_Enumerate => MT_EntryBatch | OP_Stream => MT_DataChunk end.

(** [legal p last d ty id p' last']: in phase [p], the largest request id so
    far being [last], a frame of kind [ty] for request [id] may travel in
    direction [d]. *)
Inductive legal : Phase → N → Direction → MessageType → N → Phase → N → Prop :=
| L_hello last :
    legal PhHello last ParentToWorker MT_Hello 0 PhReady last
| L_ready last :
    legal PhReady last WorkerToParent MT_Ready 0 (PhIdle None) last
| L_begin stale last op id :
    last < id →
    legal (PhIdle stale) last ParentToWorker (request_kind op) id (PhActive op id false) id
| L_stale_cancel last id :
    legal (PhIdle (Some id)) last ParentToWorker MT_Cancel id (PhIdle None) last
| L_shutdown stale last :
    legal (PhIdle stale) last ParentToWorker MT_Shutdown 0 PhClosed last
| L_read last op id :
    legal (PhActive op id false) last WorkerToParent MT_ReadRequest id (PhActive op id true) last
| L_reply last op id :
    legal (PhActive op id true) last ParentToWorker MT_ReadReply id (PhActive op id false) last
| L_result last op id :
    legal (PhActive op id false) last WorkerToParent (result_kind op) id
      (PhActive op id false) last
| L_complete last op id :
    legal (PhActive op id false) last WorkerToParent MT_Complete id (PhIdle (Some id)) last
| L_cancel last op id reading :
    legal (PhActive op id reading) last ParentToWorker MT_Cancel id
      (PhCancelling op id reading false) last
| L_crossing_reply last op id crossed :
    legal (PhCancelling op id true crossed) last ParentToWorker MT_ReadReply id
      (PhCancelling op id false crossed) last
| L_crossing_read last op id :
    legal (PhCancelling op id false false) last WorkerToParent MT_ReadRequest id
      (PhCancelling op id false true) last
| L_crossing_result last op id :
    legal (PhCancelling op id false false) last WorkerToParent (result_kind op) id
      (PhCancelling op id false false) last
| L_crossing_complete last op id :
    legal (PhCancelling op id false false) last WorkerToParent MT_Complete id
      (PhIdle None) last
| L_cancel_ack last op id reading crossed :
    legal (PhCancelling op id reading crossed) last WorkerToParent MT_CancelAck id
      (PhCancelled (if reading then Some id else None)) last
| L_drain last id :
    legal (PhCancelled (Some id)) last ParentToWorker MT_ReadReply id (PhCancelled None) last
| L_cancelled_shutdown last drain :
    legal (PhCancelled drain) last ParentToWorker MT_Shutdown 0 PhClosed last.

(** A session of the specification: the automaton and the two meters. *)
Record Abstract : Type := {
  ab_phase : Phase;
  ab_last : N;
  ab_messages : N;
  ab_payload : N
}.

Definition abstract_init : Abstract :=
  {| ab_phase := PhHello; ab_last := 0; ab_messages := 0; ab_payload := 0 |}.

(** One legal frame: canonical header, right session, within both budgets. *)
Definition abstract_step (id : SessionId) (budgets : ProtocolBudgets)
    (s : Abstract) (frame : Direction * FrameHeader) (s' : Abstract) : Prop :=
  let '(direction, header) := frame in
  header_ok header ∧ session_id header = id ∧
  ab_messages s + 1 ≤ maximum_messages budgets ∧
  ab_payload s + payload_length header ≤ maximum_payload_bytes budgets ∧
  ab_messages s' = ab_messages s + 1 ∧
  ab_payload s' = ab_payload s + payload_length header ∧
  legal (ab_phase s) (ab_last s) direction (message_type header) (request_id header)
        (ab_phase s') (ab_last s').

Inductive abstract_run (id : SessionId) (budgets : ProtocolBudgets)
  : Abstract → list (Direction * FrameHeader) → Abstract → Prop :=
| run_nil s : abstract_run id budgets s [] s
| run_cons s frame s1 trace s' :
    abstract_step id budgets s frame s1 →
    abstract_run id budgets s1 trace s' →
    abstract_run id budgets s (frame :: trace) s'.

(** ** The abstraction *)

Definition phase_of (v : SessionValidator) : Phase :=
  match sv_state v with
  | AwaitingHello => PhHello
  | AwaitingReady => PhReady
  | Idle => PhIdle (if sv_accept_late_cancel v then Some (sv_completed v) else None)
  | Enumerating => PhActive OP_Enumerate (sv_active v) (sv_read_in_flight v)
  | Streaming => PhActive OP_Stream (sv_active v) (sv_read_in_flight v)
  | Cancelling =>
      PhCancelling (if decide (sv_result_type v = MT_EntryBatch) then OP_Enumerate else OP_Stream)
        (sv_active v) (sv_read_in_flight v) (sv_crossed v)
  | Cancelled => PhCancelled (if sv_late_reply v =? 0 then None else Some (sv_late_reply v))
  | Closed | Failed => PhClosed
  end.

Definition abs (v : SessionValidator) : Abstract :=
  {| ab_phase := phase_of v; ab_last := sv_last v;
     ab_messages := sv_messages v; ab_payload := sv_payload v |}.

(** The invariant of the validator's private fields. *)
Definition state_wf (v : SessionValidator) : Prop :=
  match sv_state v with
  | Enumerating => sv_active v ≠ 0 ∧ sv_active v = sv_last v ∧ sv_result_type v = MT_EntryBatch
  | Streaming => sv_active v ≠ 0 ∧ sv_active v = sv_last v ∧ sv_result_type v = MT_DataChunk
  | Cancelling => sv_active v ≠ 0 ∧ sv_active v = sv_last v ∧
      (sv_result_type v = MT_EntryBatch ∨ sv_result_type v = MT_DataChunk) ∧
      (sv_read_in_flight v = true → sv_crossed v = false)
  | Idle | Cancelled => sv_active v = 0 ∧ sv_read_in_flight v = false
  | AwaitingHello | AwaitingReady =>
      sv_active v = 0 ∧ sv_read_in_flight v = false ∧ sv_accept_late_cancel v = false
  | Closed | Failed => True
  end.

Definition session_wf (v : SessionValidator) : Prop :=
  sv_messages v ≤ maximum_messages (sv_budgets v) ∧
  sv_payload v ≤ maximum_payload_bytes (sv_budgets v) ∧
  (sv_error v = None ↔ sv_state v ≠ Failed) ∧ state_wf v.

(** What [fail] leaves behind. *)
Definition failed (e : ProtocolError) (v : SessionValidator) : SessionValidator :=
  set_state Failed (set_error (Some e) (set_late_reply 0 v)).

Lemma fail_run e v : fail e v = (failed e v, Err e).
Proof. done. Qed.

(** The fields a state handler never touches. *)
Definition same_meters (v v' : SessionValidator) : Prop :=
  sv_session_id v' = sv_session_id v ∧ sv_budgets v' = sv_budgets v ∧
  sv_messages v' = sv_messages v ∧ sv_payload v' = sv_payload v ∧ sv_error v' = sv_error v.

(** A state handler either makes the automaton's move or fails, and fails only
    when the automaton has no move. *)
Definition handles (v : SessionValidator) (d : Direction) (h : FrameHeader)
    (out : SessionValidator * result ProtocolError unit) : Prop :=
  match out with
  | (v', Ok _) =>
      legal (phase_of v) (sv_last v) d (message_type h) (request_id h) (phase_of v') (sv_last v') ∧
      state_wf v' ∧ same_meters v v' ∧ sv_state v' ≠ Failed
  | (v', Err e) =>
      v' = failed e v ∧
      ∀ p' last', ¬ legal (phase_of v) (sv_last v) d (message_type h) (request_id h) p' last'
  end.

Lemma cancel_ack_reading last op id crossed :
  id ≠ 0 →
  legal (PhCancelling op id true crossed) last WorkerToParent MT_CancelAck id
    (PhCancelled (if id =? 0 then None else Some id)) last.
Proof.
  intros ->%N.eqb_neq. apply (L_cancel_ack last op id true crossed).
Qed.

(** Case analysis on the frame's kind, its direction and the handler's tests;
    the automaton's move is then constructed or refuted. *)
Ltac refute :=
  split; [reflexivity|]; intros p' last' L; inversion L; subst; simpl in *;
  repeat match goal with op : OperationPhase |- _ => destruct op end; simpl in *;
  first [congruence | lia].
Ltac make_move :=
  first [ apply (L_begin _ _ OP_Enumerate) | apply (L_begin _ _ OP_Stream)
        | apply (L_result _ OP_Enumerate) | apply (L_result _ OP_Stream)
        | apply (L_crossing_result _ OP_Enumerate) | apply (L_crossing_result _ OP_Stream)
        | by apply cancel_ack_reading
        | constructor ].
Ltac accept :=
  unfold same_meters, state_wf; simpl; split_and!; try done;
  first [ by make_move | intuition congruence | lia ].
Ltac handle Hz :=
  match goal with |- handles ?v ?d ?h _ =>
    destruct v as [sid bu st er ac la co lr me pa rt rd al cr];
    destruct h as [ma mi ty fl pl si ri]; simpl in *; subst st;
    repeat match goal with
           | H : _ ∧ _ |- _ => destruct H
           | H : rt = _ |- _ => subst rt
           end;
    destruct ty; simpl in *;
    first [ assert (ri = 0) as -> by (by apply Hz)
          | assert (ri ≠ 0) by (intros E0; apply Hz in E0; discriminate E0) ]; clear Hz;
    destruct d; simpl; try refute; repeat case_match; simpl in *; bool_to_prop; subst;
    unfold phase_of; cbn [sv_state sv_late_reply];
    repeat match goal with H : ?x ≠ 0 |- context [?x =? 0] =>
      rewrite (proj2 (N.eqb_neq x 0) H) end;
    first [refute | accept]
  end.

Section handlers.
Variables (v : SessionValidator) (d : Direction) (h : FrameHeader).
Hypothesis Hz : requires_zero_request_id (message_type h) = true ↔ request_id h = 0.

Lemma observe_idle_handles :
  sv_state v = Idle → state_wf v → handles v d h (observe_idle d h v).
Proof.
  intros Hs Hwf. unfold state_wf in Hwf. rewrite Hs in Hwf.
  unfold observe_idle, begin_request. run_M. handle Hz.
Qed.

Lemma observe_active_handles op :
  sv_state v = (match op with OP_Enumerate => Enumerating | OP_Stream => Streaming end) →
  state_wf v → handles v d h (observe_active d h (result_kind op) v).
Proof.
  intros Hs Hwf. unfold state_wf in Hwf. rewrite Hs in Hwf.
  unfold observe_active, complete_request. run_M. destruct op; handle Hz.
Qed.

Lemma observe_cancelling_handles :
  sv_state v = Cancelling → state_wf v → handles v d h (observe_cancelling d h v).
Proof.
  intros Hs Hwf. unfold state_wf in Hwf. rewrite Hs in Hwf.
  unfold observe_cancelling, complete_request. run_M. destruct Hwf as (?&?&[Hr|Hr]&?); handle Hz.
Qed.

Lemma observe_cancelled_handles :
  sv_state v = Cancelled → state_wf v → handles v d h (observe_cancelled d h v).
Proof.
  intros Hs Hwf. unfold state_wf in Hwf. rewrite Hs in Hwf.
  unfold observe_cancelled. run_M. handle Hz.
Qed.
End handlers.

(** ** Refinement *)

(** The dispatch on the state, behind the common checks. *)
Definition dispatch (state : SessionState) (d : Direction) (h : FrameHeader)
  : M SessionValidator ProtocolError unit :=
  match state with
  | AwaitingHello =>
      if bool_decide (d ≠ ParentToWorker) || bool_decide (message_type h ≠ MT_Hello)
      then fail UnexpectedMessage
      else modify (set_state AwaitingReady)
  | AwaitingReady =>
      if bool_decide (d ≠ WorkerToParent) || bool_decide (message_type h ≠ MT_Ready)
      then fail UnexpectedMessage
      else modify (set_state Idle)
  | Idle => observe_idle d h
  | Enumerating => observe_active d h MT_EntryBatch
  | Streaming => observe_active d h MT_DataChunk
  | Cancelling => observe_cancelling d h
  | Cancelled => observe_cancelled d h
  | Closed | Failed => fail TerminalState
  end.

Lemma dispatch_handles v d h :
  (requires_zero_request_id (message_type h) = true ↔ request_id h = 0) →
  state_wf v → sv_state v ≠ Closed → sv_state v ≠ Failed →
  handles v d h (dispatch (sv_state v) d h v).
Proof.
  intros Hz Hwf Hc Hf. destruct (sv_state v) eqn:Hs; try done; simpl.
  - unfold state_wf in Hwf. rewrite Hs in Hwf. run_M. handle Hz.
  - unfold state_wf in Hwf. rewrite Hs in Hwf. run_M. handle Hz.
  - by apply observe_idle_handles.
  - by apply (observe_active_handles v d h Hz OP_Enumerate).
  - by apply (observe_active_handles v d h Hz OP_Stream).
  - by apply observe_cancelling_handles.
  - by apply observe_cancelled_handles.
Qed.

(** One observation: the automaton's move on success; a recorded failure and
    no legal move otherwise. *)
Definition refines (v : SessionValidator) (frame : Direction * FrameHeader)
    (out : SessionValidator * result ProtocolError unit) : Prop :=
  match out with
  | (v', Ok _) =>
      abstract_step (sv_session_id v) (sv_budgets v) (abs v) frame (abs v') ∧
      session_wf v' ∧ sv_session_id v' = sv_session_id v ∧ sv_budgets v' = sv_budgets v ∧
      sv_error v = None ∧ sv_error v' = None
  | (v', Err e) =>
      (∀ s', ¬ abstract_step (sv_session_id v) (sv_budgets v) (abs v) frame s') ∧
      session_wf v' ∧ sv_state v' = Failed ∧ sv_error v' = Some e ∧
      (sv_error v = None → sv_late_reply v' = 0)
  end.

Lemma failed_refines v e frame :
  sv_messages v ≤ maximum_messages (sv_budgets v) →
  sv_payload v ≤ maximum_payload_bytes (sv_budgets v) →
  ∀ w, sv_session_id w = sv_session_id v → sv_budgets w = sv_budgets v →
  (∀ s', ¬ abstract_step (sv_session_id w) (sv_budgets w) (abs w) frame s') →
  refines w frame (failed e v, Err e).
Proof.
  intros Hm Hp w _ _ Hno. unfold refines. split; [done|]. unfold session_wf, state_wf.
  by destruct v.
Qed.

Lemma terminal_phase v s' id budgets frame :
  sv_state v = Closed ∨ sv_state v = Failed → ¬ abstract_step id budgets (abs v) frame s'.
Proof.
  intros Hs. destruct frame as [d h]. intros (_&_&_&_&_&_&L). simpl in L.
  unfold phase_of in L. destruct Hs as [Hs|Hs]; rewrite Hs in L; inversion L.
Qed.

Lemma charge_run h v :
  charge h v =
    if maximum_messages (sv_budgets v) <=? sv_messages v then (failed MessageBudgetExceeded v, Err MessageBudgetExceeded)
    else
      let v1 := set_messages (sv_messages v + 1) v in
      if maximum_payload_bytes (sv_budgets v) - sv_payload v <? payload_length h
      then (failed ByteBudgetExceeded v1, Err ByteBudgetExceeded)
      else (set_payload (sv_payload v + payload_length h) v1, Ok tt).
Proof. unfold charge. run_M. repeat case_match; done. Qed.

Lemma observe_refines_step v d h : session_wf v → refines v (d, h) (observe d h v).
Proof.
  intros (Hm & Hp & He & Hwf). unfold observe. erewrite M_bind_step; [|reflexivity].
  destruct (sv_error v) as [e|] eqn:Herr.
  { assert (sv_state v = Failed) as Hs.
    { destruct (decide (sv_state v = Failed)) as [|Hn]; [done|]. by apply He in Hn. }
    split; [intros s'; apply terminal_phase; auto|]. unfold session_wf.
    rewrite Herr. split_and!; done. }
  assert (sv_state v ≠ Failed) as Hf by (by apply He).
  destruct (decide (sv_state v = Closed)) as [Hc|Hc].
  { rewrite fail_run. apply failed_refines; try done. intros s'. apply terminal_phase. auto. }
  destruct (header_validate h) as [u|e] eqn:Hv.
  2:{ rewrite fail_run. apply failed_refines; try done. intros s' (Hok&_).
      by rewrite (proj2 (header_validate_Ok h tt) Hok) in Hv. }
  apply header_validate_Ok in Hv.
  destruct (N.eqb_spec (session_id h) (sv_session_id v)) as [Hsid|Hsid]; cbn [negb].
  2:{ rewrite fail_run. apply failed_refines; try done. by intros s' (_&?&_). }
  change (refines v (d, h) ((charge h;; dispatch (sv_state v) d h) v)).
  unfold mbind, M_bind. rewrite charge_run.
  destruct (N.leb_spec (maximum_messages (sv_budgets v)) (sv_messages v)) as [Hx|Hx].
  { apply failed_refines; try done. intros s' (_&_&?&_). simpl in *. lia. }
  cbv zeta. destruct (N.ltb_spec (maximum_payload_bytes (sv_budgets v) - sv_payload v) (payload_length h))
    as [Hy|Hy].
  { apply failed_refines; [destruct v; simpl in *; lia|by destruct v|by destruct v|by destruct v|].
    intros s' (_&_&_&?&_). simpl in *. lia. }
  set (v1 := set_payload _ _).
  assert (sv_state v1 = sv_state v ∧ state_wf v1 ∧ phase_of v1 = phase_of v ∧
    sv_last v1 = sv_last v ∧ sv_session_id v1 = sv_session_id v ∧ sv_budgets v1 = sv_budgets v ∧
    sv_error v1 = None ∧ sv_messages v1 = sv_messages v + 1 ∧
    sv_payload v1 = sv_payload v + payload_length h) as (Hs1&Hwf1&Hph&Hl1&Hi1&Hb1&He1&Hm1&Hp1)
    by (subst v1; destruct v; done).
  pose proof (dispatch_handles v1 d h) as Hd. rewrite Hs1 in Hd.
  specialize (Hd (match Hv with conj _ (conj _ (conj _ (conj _ (conj _ Hz)))) => Hz end) Hwf1 Hc Hf).
  destruct (dispatch (sv_state v) d h v1) as [v' [[]|e]]; unfold handles in Hd.
  - destruct Hd as (L & Hwf' & (Hi2&Hb2&Hm2&Hp2&He2) & Hf'). rewrite Hph, Hl1 in L.
    unfold refines, abstract_step, session_wf. simpl.
    rewrite Hm2, Hp2, Hi2, Hb2, He2, Hm1, Hp1, Hi1, Hb1, He1.
    split_and!; first [done|lia].
  - destruct Hd as [-> Hno]. apply failed_refines; try (rewrite ?Hm1, ?Hp1, ?Hb1; done || lia).
    intros s' (_&_&_&_&_&_&L). simpl in L. rewrite <-Hph, <-Hl1 in L. by apply Hno in L.
Qed.

Lemma session_new_wf id budgets : session_wf (session_new id budgets).
Proof. unfold session_wf, state_wf. simpl. split_and!; try done; lia. Qed.

(** The automaton is deterministic. *)
Lemma legal_functional p last d ty id p1 l1 p2 l2 :
  legal p last d ty id p1 l1 → legal p last d ty id p2 l2 → p1 = p2 ∧ l1 = l2.
Proof.
  intros H1 H2. destruct H1; inversion H2; subst; try done;
    repeat match goal with op : OperationPhase |- _ => destruct op end; simpl in *; first [done | congruence].
Qed.

Lemma abstract_step_functional id budgets s frame s1 s2 :
  abstract_step id budgets s frame s1 → abstract_step id budgets s frame s2 → s1 = s2.
Proof.
  destruct frame as [d h], s1, s2. unfold abstract_step. simpl.
  intros (_&_&_&_&->&->&L1) (_&_&_&_&->&->&L2).
  by destruct (legal_functional _ _ _ _ _ _ _ _ _ L1 L2) as [-> ->].
Qed.

Lemma abstract_run_functional id budgets s trace s1 s2 :
  abstract_run id budgets s trace s1 → abstract_run id budgets s trace s2 → s1 = s2.
Proof.
  intros H1 H2. induction H1 as [|? ? ? ? ? Hstep _ IH]; inversion H2; subst; [done|].
  apply IH. match goal with H : abstract_step _ _ _ _ ?x |- _ =>
    by rewrite (abstract_step_functional _ _ _ _ _ _ Hstep H) end.
Qed.

Lemma observe_all_refines trace v :
  session_wf v →
  match observe_all trace v with
  | (v', Ok _) =>
      abstract_run (sv_session_id v) (sv_budgets v) (abs v) trace (abs v') ∧ session_wf v' ∧
      sv_session_id v' = sv_session_id v ∧ sv_budgets v' = sv_budgets v
  | (v', Err e) =>
      (∀ s', ¬ abstract_run (sv_session_id v) (sv_budgets v) (abs v) trace s') ∧
      session_wf v' ∧ sv_state v' = Failed ∧ sv_error v' = Some e
  end.
Proof.
  revert v; induction trace as [|[d h] trace IH]; intros v Hwf; cbn [observe_all].
  { split; [constructor|done]. }
  pose proof (observe_refines_step v d h Hwf) as Hstep. unfold mbind, M_bind.
  destruct (observe d h v) as [v1 [[]|e]]; unfold refines in Hstep.
  - destruct Hstep as (Hs & Hwf1 & Hi & Hb & _). specialize (IH v1 Hwf1). rewrite Hi, Hb in IH.
    destruct (observe_all trace v1) as [v' [u|e]].
    + destruct IH as (Hr & ?). split; [|done]. by econstructor.
    + destruct IH as (Hno & ?). split; [|done]. intros s' Hr. inversion Hr; subst.
      match goal with H : abstract_step _ _ (abs v) _ ?s |- _ =>
        rewrite <-(abstract_step_functional _ _ _ _ _ _ Hs H) in * end.
      by eapply Hno.
  - destruct Hstep as (Hno & ?&?&?&_). split; [|done]. intros s' Hr. inversion Hr; subst.
    by eapply Hno.
Qed.

(** The state's moves, for a client that branches on it. *)
Definition state_move (ty : MessageType) (st st' : SessionState) : Prop :=
  match ty with
  | MT_Hello => st' = AwaitingReady
  | MT_Ready => st' = Idle
  | MT_Enumerate => st = Idle ∧ st' = Enumerating
  | MT_StreamEntry => st = Idle ∧ st' = Streaming
  | MT_ReadRequest | MT_ReadReply | MT_EntryBatch | MT_DataChunk => st' = st
  | MT_Complete => st' = Idle
  | MT_Cancel => st = Idle ∧ st' = Idle ∨ (st = Enumerating ∨ st = Streaming) ∧ st' = Cancelling
  | MT_CancelAck => st' = Cancelled
  | MT_Shutdown => st' = Closed
  end.

Definition state_of_phase (p : Phase) : SessionState :=
  match p with
  | PhHello => AwaitingHello
  | PhReady => AwaitingReady
  | PhIdle _ => Idle
  | PhActive OP_Enumerate _ _ => Enumerating
  | PhActive OP_Stream _ _ => Streaming
  | PhCancelling _ _ _ _ => Cancelling
  | PhCancelled _ => Cancelled
  | PhClosed => Closed
  end.

Lemma phase_state v : session_wf v → sv_error v = None → state_of_phase (phase_of v) = sv_state v.
Proof.
  intros (_&_&He&_) E. apply He in E. unfold phase_of. by destruct (sv_state v).
Qed.

(** The states a frame of some kinds can only come from. *)
Definition state_from (ty : MessageType) (st : SessionState) : Prop :=
  match ty with
  | MT_Shutdown => st = Idle ∨ st = Cancelled
  | MT_CancelAck => st = Cancelling
  | MT_Complete | MT_ReadRequest | MT_EntryBatch | MT_DataChunk =>
      st = Enumerating ∨ st = Streaming ∨ st = Cancelling
  | _ => True
  end.

Lemma observe_state_from v d h v' :
  session_wf v → observe d h v = (v', Ok tt) →
  session_wf v' ∧ state_move (message_type h) (sv_state v) (sv_state v') ∧
  state_from (message_type h) (sv_state v).
Proof.
  intros Hwf Ho. pose proof (observe_refines_step v d h Hwf) as Hr. rewrite Ho in Hr.
  destruct Hr as ((_&_&_&_&_&_&L) & Hwf' & _ & _ & He & He'). split; [done|].
  rewrite <-(phase_state v), <-(phase_state v') by done. simpl in L.
  inversion L; subst; simpl;
    repeat match goal with op : OperationPhase |- _ => destruct op end; simpl; auto.
Qed.

Lemma observe_state v d h v' :
  session_wf v → observe d h v = (v', Ok tt) →
  session_wf v' ∧ state_move (message_type h) (sv_state v) (sv_state v').
Proof. intros Hwf Ho. by destruct (observe_state_from v d h v' Hwf Ho) as (?&?&_). Qed.

(** ** Consequences on traces *)

Definition trace_count (ty : MessageType) (trace : list (Direction * FrameHeader)) : N :=
  len (filter (λ frame, message_type frame.2 = ty) trace).

Definition is_begin (ty : MessageType) : bool :=
  match ty with MT_Enumerate | MT_StreamEntry => true | _ => false end.

(** The request ids of the top-level requests, in order. *)
Definition begin_ids (trace : list (Direction * FrameHeader)) : list N :=
  (λ frame, request_id frame.2) <$> filter (λ frame, is_begin (message_type frame.2) = true) trace.

Definition trace_bytes (trace : list (Direction * FrameHeader)) : N :=
  foldr (λ frame n, payload_length frame.2 + n) 0 trace.

Lemma trace_count_cons ty frame trace :
  trace_count ty (frame :: trace) =
    (if decide (message_type frame.2 = ty) then 1 else 0) + trace_count ty trace.
Proof.
  unfold trace_count. rewrite filter_cons. case_decide; [by rewrite len_cons|done].
Qed.

Lemma begin_ids_cons frame trace :
  begin_ids (frame :: trace) =
    if is_begin (message_type frame.2) then request_id frame.2 :: begin_ids trace
    else begin_ids trace.
Proof.
  unfold begin_ids. rewrite filter_cons. case_decide as Hd; [by rewrite Hd|].
  by destruct (is_begin _).
Qed.

(** A measure of the phase that every step moves by the frame's weight moves
    by the trace's weight over a run. *)
Ltac move_cases L :=
  inversion L; subst; clear L; simpl in *;
  repeat match goal with op : OperationPhase |- _ => destruct op end; simpl in *;
  repeat match goal with E : _ = message_type ?h |- _ => try rewrite <-E; clear E end; simpl in *.

Section measure.
Variables (id : SessionId) (budgets : ProtocolBudgets).

Lemma run_invariant (P : Abstract → Prop) s trace s' :
  (∀ s frame s', P s → abstract_step id budgets s frame s' → P s') →
  P s → abstract_run id budgets s trace s' → P s'.
Proof. intros Hstep Hs Hr. induction Hr; eauto. Qed.

Definition phase_ok (s : Abstract) : Prop :=
  match ab_phase s with
  | PhCancelling _ _ reading crossed => reading && crossed = false
  | _ => True
  end.

Lemma phase_ok_step s frame s' : phase_ok s → abstract_step id budgets s frame s' → phase_ok s'.
Proof.
  destruct frame as [d h], s as [p l ? ?], s' as [p' l' ? ?].
  intros Hok (_&_&_&_&_&_&L). unfold phase_ok in *. simpl in *.
  destruct L; try done; by rewrite ?andb_false_r.
Qed.

Lemma abstract_init_ok : phase_ok abstract_init.
Proof. done. Qed.

(** Requests begun and not yet terminated. *)
Definition open_requests (p : Phase) : N :=
  match p with PhActive _ _ _ | PhCancelling _ _ _ _ => 1 | _ => 0 end.

Lemma run_requests s trace s' :
  abstract_run id budgets s trace s' →
  open_requests (ab_phase s) + trace_count MT_Enumerate trace + trace_count MT_StreamEntry trace =
    trace_count MT_Complete trace + trace_count MT_CancelAck trace + open_requests (ab_phase s').
Proof.
  induction 1 as [|[p l ? ?] [d h] [p1 l1 ? ?] trace s' (_&_&_&_&_&_&L) _ IH];
    [by rewrite !N.add_0_r|].
  rewrite !trace_count_cons. simpl in *.
  move_cases L; lia.
Qed.

(** Bounds on the reads not yet answered. *)
Definition reads_owed (p : Phase) : N * N :=
  match p with
  | PhActive _ _ reading => (N.b2n reading, N.b2n reading)
  | PhCancelling _ _ reading crossed =>
      (N.b2n reading + N.b2n crossed, N.b2n reading + N.b2n crossed)
  | PhCancelled drain => (if drain is Some _ then 1 else 0, 1)
  | PhClosed => (0, 1)
  | _ => (0, 0)
  end.

Lemma run_reads s trace s' :
  abstract_run id budgets s trace s' → phase_ok s →
  trace_count MT_ReadReply trace + (reads_owed (ab_phase s')).1 ≤
    (reads_owed (ab_phase s)).1 + trace_count MT_ReadRequest trace ∧
  (reads_owed (ab_phase s)).2 + trace_count MT_ReadRequest trace ≤
    trace_count MT_ReadReply trace + (reads_owed (ab_phase s')).2.
Proof.
  induction 1 as [|s [d h] s1 trace s' Hstep _ IH]; intros Hok; [by split; rewrite N.add_comm|].
  specialize (IH (phase_ok_step _ _ _ Hok Hstep)). destruct Hstep as (_&_&_&_&_&_&L).
  rewrite !trace_count_cons. destruct s as [p l ? ?], s1 as [p1 l1 ? ?].
  unfold phase_ok in Hok. simpl in *.
  move_cases L; repeat match goal with
    | b : bool |- _ => destruct b
    | o : option N |- _ => destruct o
    end; simpl in *; first [discriminate | lia].
Qed.

Lemma run_begin_ids s trace s' :
  abstract_run id budgets s trace s' → Sorted N.lt (ab_last s :: begin_ids trace).
Proof.
  intros Hr. enough (Sorted N.lt (begin_ids trace) ∧
    HdRel N.lt (ab_last s) (begin_ids trace)) as [??] by (by constructor).
  induction Hr as [|[p l ? ?] [d h] [p1 l1 ? ?] trace s' (_&_&_&_&_&_&L) _ [IH1 IH2]];
    [split; constructor|].
  rewrite begin_ids_cons. simpl in *.
  move_cases L; split; try done; by constructor.
Qed.

Lemma run_meters s trace s' :
  abstract_run id budgets s trace s' →
  ab_messages s' = ab_messages s + len trace ∧
  ab_payload s' = ab_payload s + trace_bytes trace ∧
  (ab_messages s ≤ maximum_messages budgets → ab_messages s' ≤ maximum_messages budgets) ∧
  (ab_payload s ≤ maximum_payload_bytes budgets →
   ab_payload s' ≤ maximum_payload_bytes budgets).
Proof.
  induction 1 as [|s [d h] s1 trace s' (_&_&?&?&?&?&_) _ IH]; simpl;
    rewrite ?len_nil, ?len_cons; lia.
Qed.

(** Nothing but one late reply and the shutdown follows an acknowledgement. *)
Lemma run_cancelled s trace s' drain :
  abstract_run id budgets s trace s' → ab_phase s = PhCancelled drain →
  (λ frame, message_type frame.2) <$> trace ∈
    [[]; [MT_Shutdown]] ++
    (if drain is Some _ then [[MT_ReadReply]; [MT_ReadReply; MT_Shutdown]] else []).
Proof.
  intros Hr Hs.
  assert (∀ s trace s', abstract_run id budgets s trace s' → ab_phase s = PhClosed → trace = [])
    as Hclosed.
  { intros t l t' [|? [d h] ? ? ? (_&_&_&_&_&_&L)] Ht; [done|]. rewrite Ht in L. inversion L. }
  assert (∀ s trace s', abstract_run id budgets s trace s' → ab_phase s = PhCancelled None →
    (λ frame, message_type frame.2) <$> trace = [] ∨
    (λ frame, message_type frame.2) <$> trace = [MT_Shutdown]) as Hnone.
  { intros t l t' [|? [d h] ? l' ? (_&_&_&_&_&_&L) Hr'] Ht; [by left|]. rewrite Ht in L.
    inversion L; subst. right. rewrite (Hclosed _ _ _ Hr') by done. simpl. congruence. }
  destruct drain as [i|]; [|destruct (Hnone _ _ _ Hr Hs) as [-> | ->]; set_solver].
  destruct Hr as [|? [d h] ? l ? (_&_&_&_&_&_&L) Hr]; [set_solver|]. rewrite Hs in L.
  inversion L; subst.
  - destruct (Hnone _ _ _ Hr) as [E|E]; [done| |]; rewrite fmap_cons, E; cbn [snd];
      match goal with H : _ = message_type h |- _ => rewrite <-H end; set_solver.
  - rewrite (Hclosed _ _ _ Hr) by done. rewrite fmap_cons. cbn [snd].
    match goal with H : _ = message_type h |- _ => rewrite <-H end. set_solver.
Qed.
End measure.

Lemma run_app id budgets s t1 t2 s' :
  abstract_run id budgets s (t1 ++ t2) s' →
  ∃ s1, abstract_run id budgets s t1 s1 ∧ abstract_run id budgets s1 t2 s'.
Proof.
  revert s. induction t1 as [|frame t1 IH]; intros s Hr; [eexists; split; [constructor|done]|].
  inversion Hr; subst. edestruct IH as (s2 & ? & ?); [done|]. exists s2. split; [|done].
  by econstructor.
Qed.

Lemma session_run id budgets trace v :
  observe_all trace (session_new id budgets) = (v, Ok tt) →
  abstract_run id budgets abstract_init trace (abs v) ∧ sv_budgets v = budgets.
Proof.
  intros H. pose proof (observe_all_refines trace _ (session_new_wf id budgets)) as Hr.
  rewrite H in Hr. by destruct Hr as (?&_&_&?).
Qed.

(** ** Properties *)

(** C3: The validator implements the session automaton: a fresh validator
    accepts a whole sequence of frames, ending in a given abstract session,
    exactly when every frame has a canonical header of this session, stays
    within the message and byte budgets, and the automaton has a run over the
    sequence ending there. *)
Theorem session_refines_automaton id budgets trace s :
  (∃ v, observe_all trace (session_new id budgets) = (v, Ok tt) ∧ abs v = s) ↔
  abstract_run id budgets abstract_init trace s.
Proof.
  pose proof (observe_all_refines trace _ (session_new_wf id budgets)) as Hr. split.
  - intros (v & E & <-). rewrite E in Hr. by destruct Hr.
  - destruct (observe_all trace (session_new id budgets)) as [v [[]|e]].
    + destruct Hr as (Hr & _). intros Hs. exists v. split; [done|].
      by eapply abstract_run_functional.
    + destruct Hr as (Hno & _). intros Hs. by destruct (Hno s).
Qed.

(** Failures are sticky: once a frame of the sequence was rejected, the
    session is [Failed] with the error reported, and every later frame is
    answered with the same error and changes nothing. *)
Theorem session_failure_sticky id budgets trace v e :
  observe_all trace (session_new id budgets) = (v, Err e) →
  sv_state v = Failed ∧ sv_error v = Some e ∧ ∀ d h, observe d h v = (v, Err e).
Proof.
  intros H. pose proof (observe_all_refines trace _ (session_new_wf id budgets)) as Hr.
  rewrite H in Hr. destruct Hr as (_ & _ & Hs & He). split_and!; [done|done|].
  intros d h. unfold observe. run_M. by rewrite He.
Qed.

(** In an accepted session the ids of the top-level requests are positive
    and strictly increasing, and the message and payload counters are exactly
    the traffic seen, which never exceeds either budget. *)
Theorem session_ids_and_budgets id budgets trace v :
  observe_all trace (session_new id budgets) = (v, Ok tt) →
  Sorted N.lt (0 :: begin_ids trace) ∧
  sv_messages v = len trace ∧ len trace ≤ maximum_messages budgets ∧
  sv_payload v = trace_bytes trace ∧ trace_bytes trace ≤ maximum_payload_bytes budgets.
Proof.
  intros [Hr _]%session_run. pose proof (run_begin_ids _ _ _ _ _ Hr) as Hids.
  apply run_meters in Hr as (Hm & Hp & Hm' & Hp'). simpl in *.
  split_and!; [done|lia..].
Qed.

(** In an accepted session every request is terminated at most once and
    before the next one begins, by a [complete] or by a [cancel_ack]: the
    terminals are exactly the begun requests less the one still open. At most
    one read is unanswered at any time, and none when the session is idle. *)
Theorem session_pairing id budgets trace v :
  observe_all trace (session_new id budgets) = (v, Ok tt) →
  trace_count MT_Enumerate trace + trace_count MT_StreamEntry trace =
    trace_count MT_Complete trace + trace_count MT_CancelAck trace +
    open_requests (phase_of v) ∧
  trace_count MT_ReadReply trace ≤ trace_count MT_ReadRequest trace ≤
    trace_count MT_ReadReply trace + 1 ∧
  (sv_state v = Idle → trace_count MT_ReadRequest trace = trace_count MT_ReadReply trace).
Proof.
  intros [Hr _]%session_run. pose proof (run_requests _ _ _ _ _ Hr) as Hq.
  pose proof (run_invariant _ _ phase_ok _ _ _ (phase_ok_step _ _) abstract_init_ok Hr) as Hok.
  apply run_reads in Hr as [H1 H2]; [|done]. unfold phase_ok in Hok. simpl in *.
  split; [lia|]. split.
  - destruct (phase_of v) as [| |?|? ? []|? ? [] []|[]|]; simpl in *; first [discriminate | lia].
  - intros Hs. unfold phase_of in *. rewrite Hs in *. simpl in *. lia.
Qed.

(** After a [cancel_ack] the session is over: an accepted session carries
    at most one more read reply (to a read that was outstanding when the
    cancel was sent) and then at most the shutdown. *)
Theorem session_cancelled_drain id budgets before h after v :
  message_type h = MT_CancelAck →
  observe_all (before ++ (WorkerToParent, h) :: after) (session_new id budgets) = (v, Ok tt) →
  (λ frame, message_type frame.2) <$> after ∈
    [[]; [MT_Shutdown]; [MT_ReadReply]; [MT_ReadReply; MT_Shutdown]].
Proof.
  intros Hk [Hr _]%session_run. apply run_app in Hr as (s1 & _ & Hr).
  inversion Hr as [|? ? s2 ? ? Hstep Hr']; subst.
  destruct Hstep as (_&_&_&_&_&_&L). rewrite Hk in L.
  remember (ab_phase s1) as p1. remember (ab_phase s2) as p2. remember (ab_last s2) as l2.
  destruct s2 as [p ? ? ?]; simpl in *; subst p l2.
  inversion L; subst; try (by destruct op).
  pose proof (run_cancelled _ _ _ _ _ _ Hr' eq_refl) as Hin.
  destruct reading; simpl in *; set_solver.
Qed.

(** *** Witnesses *)

Definition hdr (ty : MessageType) (req size : N) : FrameHeader := frame_header_new ty 7 req size.

Definition sample_trace : list (Direction * FrameHeader) :=
  [ (ParentToWorker, hdr MT_Hello 0 12); (WorkerToParent, hdr MT_Ready 0 0);
    (ParentToWorker, hdr MT_Enumerate 3 0); (WorkerToParent, hdr MT_ReadRequest 3 16);
    (ParentToWorker, hdr MT_ReadReply 3 100); (WorkerToParent, hdr MT_EntryBatch 3 40);
    (WorkerToParent, hdr MT_Complete 3 4); (ParentToWorker, hdr MT_Cancel 3 0);
    (ParentToWorker, hdr MT_StreamEntry 9 8); (WorkerToParent, hdr MT_ReadRequest 9 16);
    (ParentToWorker, hdr MT_Cancel 9 0); (WorkerToParent, hdr MT_CancelAck 9 0);
    (ParentToWorker, hdr MT_ReadReply 9 50); (ParentToWorker, hdr MT_Shutdown 0 0) ].

Definition sample_session : SessionValidator :=
  fst (observe_all sample_trace (session_new 7 protocol_budgets_default)).

Lemma session_ids_and_budgets_witness :
  sv_payload sample_session = 246 ∧ begin_ids sample_trace = [3; 9] ∧
  Sorted N.lt (0 :: begin_ids sample_trace).
Proof.
  split; [by vm_compute|]. split; [by vm_compute|].
  apply (session_ids_and_budgets 7 protocol_budgets_default sample_trace sample_session).
  vm_compute. reflexivity.
Defined.

Lemma session_pairing_witness :
  trace_count MT_ReadReply sample_trace ≤ trace_count MT_ReadRequest sample_trace.
Proof.
  apply (session_pairing 7 protocol_budgets_default sample_trace sample_session).
  vm_compute. reflexivity.
Defined.

Lemma session_cancelled_drain_witness :
  [MT_ReadReply; MT_Shutdown] ∈
    [[]; [MT_Shutdown]; [MT_ReadReply]; [MT_ReadReply; MT_Shutdown]].
Proof.
  apply (session_cancelled_drain 7 protocol_budgets_default (take 11 sample_trace)
    (hdr MT_CancelAck 9 0) (drop 12 sample_trace) sample_session);
    vm_compute; reflexivity.
Defined.

(** A read reply nobody asked for. *)
Definition bad_trace : list (Direction * FrameHeader) :=
  take 3 sample_trace ++ [(ParentToWorker, hdr MT_ReadReply 3 0)].

Definition bad_session : SessionValidator :=
  fst (observe_all bad_trace (session_new 7 protocol_budgets_default)).

Lemma session_failure_sticky_witness :
  observe ParentToWorker (hdr MT_Shutdown 0 0) bad_session = (bad_session, Err NoReadInFlight).
Proof.
  apply (session_failure_sticky 7 protocol_budgets_default bad_trace bad_session NoReadInFlight).
  vm_compute. reflexivity.
Defined.
