(* ===== verification/Service.v ===== *)
(** * The worker service and its capabilities

    [crates/ohl-parser-worker-service/src/capability.rs] and [service.rs]. First
    the transport and dispatcher interfaces the service is generic in, as classes
    over the state behind the [&mut] capability, the refusing dispatcher the
    shipped worker hosts, and logging instances with which the calls a client
    makes can be observed. *)

From S2P Require Export EntryBatch Session.

(** ** [IoStatus] and [InputStatus] *)

Inductive IoStatus : Type := IO_Ok | IO_PeerClosed | IO_Failed.

#[export] Instance IoStatus_eq_dec : EqDecision IoStatus.
Proof. solve_decision. Defined.

Inductive InputStatus : Type := IN_Unavailable | IN_Available | IN_PeerClosed | IN_Failed.

(** ** [Transport] *)

(** [read_exact] takes the destination slice and yields what is in it
    afterwards; the length of a slice never changes. *)
Class Transport (T : Type) : Type := {
  read_exact : list byte → T → T * (list byte * IoStatus);
  write_all : list byte → T → T * IoStatus;
  probe_input : T → T * InputStatus;
  abort_io : T → T;
  close_io : T → T
}.

Class TransportLaws (T : Type) `{Transport T} : Prop := {
  read_exact_length destination t :
    length (fst (snd (read_exact destination t))) = length destination
}.

(** ** [Dispatcher] *)

Inductive Operation : Type := Op_Enumerate | Op_Stream.

#[export] Instance Operation_eq_dec : EqDecision Operation.
Proof. solve_decision. Defined.

Inductive DispatchError : Type := DE_Unsupported | DE_Failed.

#[export] Instance DispatchError_eq_dec : EqDecision DispatchError.
Proof. solve_decision. Defined.

Inductive DispatchAction : Type :=
| DA_NeedRead (offset length : N)
| DA_EntryBatch (l : list EntryBatchEntry)
| DA_DataChunk (data : list byte)
| DA_Complete.

Class Dispatcher (D : Type) : Type := {
  begin : Operation → N → SourceReadPolicy → D → D * result DispatchError N;
  step : D → D * result DispatchError DispatchAction;
  dispatch_read_reply : ReadReply → D → D * result DispatchError unit;
  cancel : D → D;
  end_ : D → D
}.

(** ** [UnsupportedDispatcher] *)

Inductive UnsupportedDispatcher : Type := unsupported_new.

#[export] Instance unsupported_dispatcher : Dispatcher UnsupportedDispatcher := {
  begin _ _ _ d := (d, Err DE_Unsupported);
  step d := (d, Err DE_Unsupported);
  dispatch_read_reply _ d := (d, Err DE_Unsupported);
  cancel d := d;
  end_ d := d
}.

(** ** [ServiceBuffers] *)

Record ServiceBuffers : Type := {
  receive_payload_buffer : list byte;
  send_payload_buffer : list byte
}.

(** ** Observing a capability's calls

    A logged capability forwards every call and records it with its outcome;
    a client generic in its capabilities cannot tell it from the original. *)

Inductive TransportCall : Type :=
| TC_Read (bytes : list byte) (status : IoStatus)
| TC_Write (bytes : list byte) (status : IoStatus)
| TC_Probe (status : InputStatus)
| TC_Abort
| TC_Close.

Inductive DispatchCall : Type :=
| DC_Begin (operation : Operation) (token : N) (outcome : result DispatchError N)
| DC_Step (outcome : result DispatchError DispatchAction)
| DC_Reply (reply : ReadReply) (outcome : result DispatchError unit)
| DC_Cancel
| DC_End.

(** The state behind the capability and the calls so far, oldest first. *)
Record Logged (S C : Type) : Type := Log { inner : S; log : list C }.
Arguments Log {S C} _ _.
Arguments inner {S C} _.
Arguments log {S C} _.

#[export] Instance logged_transport `{Transport T} : Transport (Logged T TransportCall) := {
  read_exact d t :=
    let '(t', (d', st)) := read_exact d (inner t) in
    (Log t' (log t ++ [TC_Read d' st]), (d', st));
  write_all s t :=
    let '(t', st) := write_all s (inner t) in (Log t' (log t ++ [TC_Write s st]), st);
  probe_input t :=
    let '(t', st) := probe_input (inner t) in (Log t' (log t ++ [TC_Probe st]), st);
  abort_io t := Log (abort_io (inner t)) (log t ++ [TC_Abort]);
  close_io t := Log (close_io (inner t)) (log t ++ [TC_Close])
}.

#[export] Instance logged_transport_laws `{TransportLaws T} :
  TransportLaws (Logged T TransportCall).
Proof.
  split. intros d t. simpl. pose proof (read_exact_length d (inner t)) as Hl.
  by destruct (read_exact d (inner t)) as [t' [d' st]].
Qed.

#[export] Instance logged_dispatcher `{Dispatcher D} : Dispatcher (Logged D DispatchCall) := {
  begin op token policy d :=
    let '(d', r) := begin op token policy (inner d) in
    (Log d' (log d ++ [DC_Begin op token r]), r);
  step d := let '(d', r) := step (inner d) in (Log d' (log d ++ [DC_Step r]), r);
  dispatch_read_reply reply d :=
    let '(d', r) := dispatch_read_reply reply (inner d) in
    (Log d' (log d ++ [DC_Reply reply r]), r);
  cancel d := Log (cancel (inner d)) (log d ++ [DC_Cancel]);
  end_ d := Log (end_ (inner d)) (log d ++ [DC_End])
}.

(** * The worker service

    [crates/ohl-parser-worker-service/src/service.rs]: one worker lifetime,
    from [hello] to a clean [shutdown] or a fail-closed teardown, generic in
    its transport and dispatcher. *)

Definition MAXIMUM_DISPATCH_STEPS : N := MAXIMUM_PROTOCOL_MESSAGES.

(** ** Failures *)

Inductive ServiceError : Type :=
| SvcInvalidConfiguration
| SvcTransportFailure
| SvcProtocolFailure
| SvcDispatchUnsupported
| SvcDispatchFailure
| SvcSourceFailure
| SvcDispatchBudgetExceeded
| SvcInternalFailure.

Record ServiceFailure : Type := {
  sf_error : ServiceError;
  sf_protocol_error : option ProtocolError;
  sf_io_status : IoStatus;
  sf_dispatch_error : option DispatchError;
  sf_session_id : N;
  sf_dispatch_steps : N
}.

Definition failure_new (error : ServiceError) : ServiceFailure :=
  {| sf_error := error; sf_protocol_error := None; sf_io_status := IO_Ok;
     sf_dispatch_error := None; sf_session_id := 0; sf_dispatch_steps := 0 |}.

Definition failure_transport (status : IoStatus) : ServiceFailure :=
  {| sf_error := SvcTransportFailure; sf_protocol_error := None; sf_io_status := status;
     sf_dispatch_error := None; sf_session_id := 0; sf_dispatch_steps := 0 |}.

Definition failure_protocol (error : ProtocolError) : ServiceFailure :=
  {| sf_error := SvcProtocolFailure; sf_protocol_error := Some error; sf_io_status := IO_Ok;
     sf_dispatch_error := None; sf_session_id := 0; sf_dispatch_steps := 0 |}.

Definition failure_dispatch (error : DispatchError) : ServiceFailure :=
  {| sf_error := match error with
                 | DE_Unsupported => SvcDispatchUnsupported
                 | DE_Failed => SvcDispatchFailure
                 end;
     sf_protocol_error := None; sf_io_status := IO_Ok;
     sf_dispatch_error := Some error; sf_session_id := 0; sf_dispatch_steps := 0 |}.

Definition failure_rejected_action (error : ProtocolError) : ServiceFailure :=
  {| sf_error := SvcDispatchFailure; sf_protocol_error := Some error; sf_io_status := IO_Ok;
     sf_dispatch_error := Some DE_Failed; sf_session_id := 0; sf_dispatch_steps := 0 |}.

Definition failure_internal (error : ProtocolError) : ServiceFailure :=
  {| sf_error := SvcInternalFailure; sf_protocol_error := Some error; sf_io_status := IO_Ok;
     sf_dispatch_error := None; sf_session_id := 0; sf_dispatch_steps := 0 |}.

Definition with_session (id : N) (f : ServiceFailure) : ServiceFailure :=
  {| sf_error := sf_error f; sf_protocol_error := sf_protocol_error f;
     sf_io_status := sf_io_status f; sf_dispatch_error := sf_dispatch_error f;
     sf_session_id := id; sf_dispatch_steps := sf_dispatch_steps f |}.

Definition with_steps (steps : N) (f : ServiceFailure) : ServiceFailure :=
  {| sf_error := sf_error f; sf_protocol_error := sf_protocol_error f;
     sf_io_status := sf_io_status f; sf_dispatch_error := sf_dispatch_error f;
     sf_session_id := sf_session_id f; sf_dispatch_steps := steps |}.

Record ServiceSummary : Type := {
  summary_session_id : N;
  summary_dispatch_steps : N
}.

(** ** Limits *)

Record ServiceLimits : Type := {
  protocol_budgets : ProtocolBudgets;
  maximum_dispatch_steps : N
}.

Definition service_limits_default : ServiceLimits :=
  {| protocol_budgets := protocol_budgets_default;
     maximum_dispatch_steps := MAXIMUM_DISPATCH_STEPS |}.

Definition limits_is_valid (l : ServiceLimits) : bool :=
  negb (maximum_dispatch_steps l =? 0) &&
  (maximum_dispatch_steps l <=? MAXIMUM_DISPATCH_STEPS) &&
  (2 <=? maximum_messages (protocol_budgets l)) &&
  (HELLO_PAYLOAD_BYTES <=? maximum_payload_bytes (protocol_budgets l)).

(** ** The enumeration budget *)

Record EnumerationBudget : Type := {
  eb_remaining_entries : N;
  eb_remaining_path_bytes : N;
  eb_remaining_total_bytes : N;
  eb_previous_source_token : option N
}.

Definition enumeration_start : EnumerationBudget :=
  {| eb_remaining_entries := MAXIMUM_ENUMERATED_ENTRIES;
     eb_remaining_path_bytes := MAXIMUM_ENUMERATED_PATH_BYTES;
     eb_remaining_total_bytes := MAXIMUM_ENUMERATED_TOTAL_BYTES;
     eb_previous_source_token := None |}.

Definition enumeration_policy (b : EnumerationBudget) : result ProtocolError EntryBatchPolicy :=
  entry_batch_policy_new (eb_remaining_entries b) (eb_remaining_path_bytes b)
    MAXIMUM_ENUMERATED_ENTRY_BYTES (eb_remaining_total_bytes b) (eb_previous_source_token b).

Fixpoint enumeration_spend (next : EnumerationBudget) (l : list EntryBatchEntry)
  : option EnumerationBudget :=
  match l with
  | [] => Some next
  | entry :: l =>
      n ← checked_sub (eb_remaining_entries next) 1;
      p ← checked_sub (eb_remaining_path_bytes next) (len (be_archive_path entry));
      t ← checked_sub (eb_remaining_total_bytes next) (be_size_bytes entry);
      enumeration_spend
        {| eb_remaining_entries := n; eb_remaining_path_bytes := p;
           eb_remaining_total_bytes := t;
           eb_previous_source_token := Some (be_source_token entry) |} l
  end.

(** ** Frames *)

Inductive Flow : Type := Flow_Continue | Flow_Shutdown.

#[export] Instance Flow_eq_dec : EqDecision Flow.
Proof. solve_decision. Defined.

Inductive ReceiveError : Type := RE_Io (status : IoStatus) | RE_Protocol (error : ProtocolError).

(** [impl From<ReceiveError> for ServiceFailure], what [?] applies. *)
Definition failure_of_receive (error : ReceiveError) : ServiceFailure :=
  match error with
  | RE_Io status => failure_transport status
  | RE_Protocol error => failure_protocol error
  end.

Inductive Commit : Type :=
| CM_ReadRequest (sequence length : N)
| CM_EntryBatch (next : EnumerationBudget)
| CM_DataChunk (remaining : N)
| CM_Complete.

Record PreparedFrame : Type := {
  pf_header : FrameHeader;
  pf_payload_length : N;
  pf_commit : Commit
}.

(** [FrameContext]'s ids; its [send_payload] is the state of the [prepare_*]
    functions. *)
Record FrameContext : Type := {
  fc_session_id : N;
  fc_request_id : N
}.

Definition prepared_frame_new (ty : MessageType) (context : FrameContext)
    (payload_length : N) (commit : Commit) : result ServiceFailure PreparedFrame :=
  length ← ok_or (try_from 32 payload_length) (failure_internal PayloadTooLarge);
  mret {| pf_header := frame_header_new ty (fc_session_id context) (fc_request_id context) length;
          pf_payload_length := payload_length;
          pf_commit := commit |}.

Definition prepare_read_request (offset length : N) (pending_read : bool)
    (next_read_sequence : N) (policy : SourceReadPolicy) (context : FrameContext)
  : M (list byte) ServiceFailure PreparedFrame :=
  let fits := length <=? source_size policy - offset in
  lift (guard_err (pending_read || (next_read_sequence =? 0) || (length =? 0) ||
                   (maximum_read_bytes policy <? length) || (source_size policy <=? offset) ||
                   negb fits) (failure_rejected_action NoncanonicalValue));;
  let message := {| rq_read_sequence := next_read_sequence; rq_offset := offset;
                    rq_length := length |} in
  payload_length ← map_errM failure_rejected_action
    (encode_read_request_payload message policy next_read_sequence);
  lift (prepared_frame_new MT_ReadRequest context payload_length
          (CM_ReadRequest next_read_sequence length)).

Definition prepare_entry_batch (l : list EntryBatchEntry) (operation : Operation)
    (enumeration : EnumerationBudget) (context : FrameContext)
  : M (list byte) ServiceFailure PreparedFrame :=
  lift (guard_err (bool_decide (operation ≠ Op_Enumerate) || (len l =? 0) ||
                   (MAXIMUM_ENTRY_BATCH_ENTRIES <? len l) ||
                   (eb_remaining_entries enumeration <? len l))
          (failure_rejected_action NoncanonicalValue));;
  lift (guard_err (existsb (λ entry, len (be_archive_path entry) =? 0) l)
          (failure_rejected_action NoncanonicalValue));;
  policy ← lift (map_err failure_rejected_action (enumeration_policy enumeration));
  payload_length ← map_errM failure_rejected_action
    (encode_entry_batch_payload {| entries := l |} policy);
  next ← lift (ok_or (enumeration_spend enumeration l)
                 (failure_rejected_action NoncanonicalValue));
  lift (prepared_frame_new MT_EntryBatch context payload_length (CM_EntryBatch next)).

Definition prepare_data_chunk (data : list byte) (operation : Operation)
    (remaining_stream_bytes : N) (context : FrameContext)
  : M (list byte) ServiceFailure PreparedFrame :=
  lift (guard_err (bool_decide (operation ≠ Op_Stream) || (len data =? 0))
          (failure_rejected_action NoncanonicalValue));;
  payload_length ← map_errM failure_rejected_action
    (encode_data_chunk_payload {| chunk_data := data |} remaining_stream_bytes);
  remaining ← lift (ok_or (checked_sub remaining_stream_bytes payload_length)
                      (failure_rejected_action NoncanonicalValue));
  lift (prepared_frame_new MT_DataChunk context payload_length (CM_DataChunk remaining)).

Definition prepare_complete (operation : Operation) (remaining_stream_bytes : N)
    (context : FrameContext) : M (list byte) ServiceFailure PreparedFrame :=
  phase ← lift (match operation with
                | Op_Enumerate => Ok OP_Enumerate
                | Op_Stream =>
                    guard_err (negb (remaining_stream_bytes =? 0))
                      (failure_rejected_action NoncanonicalValue);;
                    Ok OP_Stream
                end);
  let message := {| complete_status := PS_Ok; complete_phase := PP_Complete |} in
  payload_length ← map_errM failure_internal (encode_complete_payload message phase);
  lift (prepared_frame_new MT_Complete context payload_length CM_Complete).

(** A 32-byte array [[0_u8; FRAME_HEADER_BYTES]]. *)
Definition zero_header : list byte := replicate 32 x00.

(** ** The service *)

Section service.
Context `{HeaderImage} {T D : Type} `{Transport T} `{Dispatcher D}.

(** A call that reports an [IoStatus], any status but [Ok] being the error. *)
Definition io_check {S E} (f : IoStatus → E) (m : S → S * IoStatus) : M S E unit :=
  λ s, let '(s', status) := m s in
       (s', match status with IO_Ok => Ok tt | status => Err (f status) end).

(** [transport.read_exact(destination)]. *)
Definition read_into : M (T * list byte) ReceiveError unit :=
  io_check RE_Io (λ '(t, destination),
    let '(t', (destination', status)) := read_exact destination t in
    ((t', destination'), status)).

(** Locals: the transport and the borrowed [receive_payload]. *)
Definition receive_frame (expected_session_id : N)
  : M (T * list byte) ReceiveError FrameHeader :=
  λ '(transport, receive_payload),
    let '((transport, header_bytes), r) := read_into (transport, zero_header) in
    match r with
    | Err e => ((transport, receive_payload), Err e)
    | Ok _ =>
        match map_err RE_Protocol (decode_frame_header header_bytes) with
        | Err e => ((transport, receive_payload), Err e)
        | Ok header =>
            if negb (expected_session_id =? 0) && negb (session_id header =? expected_session_id)
            then ((transport, receive_payload), Err (RE_Protocol WrongSessionId))
            else if payload_length header <=? len receive_payload then
              let payload := take (N.to_nat (payload_length header)) receive_payload in
              let rest := drop (N.to_nat (payload_length header)) receive_payload in
              if len payload =? 0 then ((transport, receive_payload), Ok header)
              else
                let '((transport, payload), r) := read_into (transport, payload) in
                ((transport, payload ++ rest), r;; Ok header)
            else ((transport, receive_payload), Err (RE_Protocol PayloadTooLarge))
        end
    end.

Definition write_io (bytes : list byte) : M T ServiceFailure unit :=
  io_check failure_transport (write_all bytes).

(** The validator's verdict on a frame, as a service failure. *)
Definition validator_observe (direction : Direction) (header : FrameHeader)
  : M SessionValidator ServiceFailure unit :=
  map_errM failure_protocol (observe direction header).

Definition send_frame (header : FrameHeader) (payload : list byte)
  : M (T * SessionValidator) ServiceFailure unit :=
  lift (guard_err (negb (len payload =? payload_length header) ||
                   (MAXIMUM_FRAME_PAYLOAD_BYTES <? len payload))
          (failure_protocol NoncanonicalValue));;
  zoom snd (λ v s, (s.1, v)) (validator_observe WorkerToParent header);;
  header_bytes ← lift (let '(bytes, r) := header_encode header zero_header in
                       map_err failure_protocol r;; Ok bytes);
  zoom fst (λ t s, (t, s.2)) (write_io header_bytes);;
  if negb (len payload =? 0) then zoom fst (λ t s, (t, s.2)) (write_io payload) else mret tt.

(** *** [Service] *)

Record Service : Type := {
  s_transport : T;
  s_dispatch : D;
  s_receive_payload : list byte;
  s_send_payload : list byte;
  s_limits : ServiceLimits;
  s_validator : SessionValidator;
  s_source_policy : SourceReadPolicy;
  s_enumeration : EnumerationBudget;
  s_active_operation : Operation;
  s_session_id : N;
  s_active_request_id : N;
  s_remaining_stream_bytes : N;
  s_dispatch_steps : N;
  s_next_read_sequence : N;
  s_pending_read_sequence : N;
  s_pending_read_length : N;
  s_dispatch_active : bool;
  s_pending_read : bool;
  s_late_read_reply : bool
}.

(** Assignments [self.field = value]. *)
Definition put_transport (x : T) (self : Service) : Service :=
  Build_Service x (s_dispatch self) (s_receive_payload self) (s_send_payload self)
    (s_limits self) (s_validator self) (s_source_policy self) (s_enumeration self)
    (s_active_operation self) (s_session_id self) (s_active_request_id self)
    (s_remaining_stream_bytes self) (s_dispatch_steps self) (s_next_read_sequence self)
    (s_pending_read_sequence self) (s_pending_read_length self) (s_dispatch_active self)
    (s_pending_read self) (s_late_read_reply self).
Definition put_dispatch (x : D) (self : Service) : Service :=
  Build_Service (s_transport self) x (s_receive_payload self) (s_send_payload self)
    (s_limits self) (s_validator self) (s_source_policy self) (s_enumeration self)
    (s_active_operation self) (s_session_id self) (s_active_request_id self)
    (s_remaining_stream_bytes self) (s_dispatch_steps self) (s_next_read_sequence self)
    (s_pending_read_sequence self) (s_pending_read_length self) (s_dispatch_active self)
    (s_pending_read self) (s_late_read_reply self).
Definition put_receive_payload (x : list byte) (self : Service) : Service :=
  Build_Service (s_transport self) (s_dispatch self) x (s_send_payload self) (s_limits self)
    (s_validator self) (s_source_policy self) (s_enumeration self) (s_active_operation self)
    (s_session_id self) (s_active_request_id self) (s_remaining_stream_bytes self)
    (s_dispatch_steps self) (s_next_read_sequence self) (s_pending_read_sequence self)
    (s_pending_read_length self) (s_dispatch_active self) (s_pending_read self)
    (s_late_read_reply self).
Definition put_send_payload (x : list byte) (self : Service) : Service :=
  Build_Service (s_transport self) (s_dispatch self) (s_receive_payload self) x (s_limits self)
    (s_validator self) (s_source_policy self) (s_enumeration self) (s_active_operation self)
    (s_session_id self) (s_active_request_id self) (s_remaining_stream_bytes self)
    (s_dispatch_steps self) (s_next_read_sequence self) (s_pending_read_sequence self)
    (s_pending_read_length self) (s_dispatch_active self) (s_pending_read self)
    (s_late_read_reply self).
Definition put_validator (x : SessionValidator) (self : Service) : Service :=
  Build_Service (s_transport self) (s_dispatch self) (s_receive_payload self)
    (s_send_payload self) (s_limits self) x (s_source_policy self) (s_enumeration self)
    (s_active_operation self) (s_session_id self) (s_active_request_id self)
    (s_remaining_stream_bytes self) (s_dispatch_steps self) (s_next_read_sequence self)
    (s_pending_read_sequence self) (s_pending_read_length self) (s_dispatch_active self)
    (s_pending_read self) (s_late_read_reply self).
Definition put_enumeration (x : EnumerationBudget) (self : Service) : Service :=
  Build_Service (s_transport self) (s_dispatch self) (s_receive_payload self)
    (s_send_payload self) (s_limits self) (s_validator self) (s_source_policy self) x
    (s_active_operation self) (s_session_id self) (s_active_request_id self)
    (s_remaining_stream_bytes self) (s_dispatch_steps self) (s_next_read_sequence self)
    (s_pending_read_sequence self) (s_pending_read_length self) (s_dispatch_active self)
    (s_pending_read self) (s_late_read_reply self).
Definition put_active_operation (x : Operation) (self : Service) : Service :=
  Build_Service (s_transport self) (s_dispatch self) (s_receive_payload self)
    (s_send_payload self) (s_limits self) (s_validator self) (s_source_policy self)
    (s_enumeration self) x (s_session_id self) (s_active_request_id self)
    (s_remaining_stream_bytes self) (s_dispatch_steps self) (s_next_read_sequence self)
    (s_pending_read_sequence self) (s_pending_read_length self) (s_dispatch_active self)
    (s_pending_read self) (s_late_read_reply self).
Definition put_active_request_id (x : N) (self : Service) : Service :=
  Build_Service (s_transport self) (s_dispatch self) (s_receive_payload self)
    (s_send_payload self) (s_limits self) (s_validator self) (s_source_policy self)
    (s_enumeration self) (s_active_operation self) (s_session_id self) x
    (s_remaining_stream_bytes self) (s_dispatch_steps self) (s_next_read_sequence self)
    (s_pending_read_sequence self) (s_pending_read_length self) (s_dispatch_active self)
    (s_pending_read self) (s_late_read_reply self).
Definition put_remaining_stream_bytes (x : N) (self : Service) : Service :=
  Build_Service (s_transport self) (s_dispatch self) (s_receive_payload self)
    (s_send_payload self) (s_limits self) (s_validator self) (s_source_policy self)
    (s_enumeration self) (s_active_operation self) (s_session_id self)
    (s_active_request_id self) x (s_dispatch_steps self) (s_next_read_sequence self)
    (s_pending_read_sequence self) (s_pending_read_length self) (s_dispatch_active self)
    (s_pending_read self) (s_late_read_reply self).
Definition put_dispatch_steps (x : N) (self : Service) : Service :=
  Build_Service (s_transport self) (s_dispatch self) (s_receive_payload self)
    (s_send_payload self) (s_limits self) (s_validator self) (s_source_policy self)
    (s_enumeration self) (s_active_operation self) (s_session_id self)
    (s_active_request_id self) (s_remaining_stream_bytes self) x (s_next_read_sequence self)
    (s_pending_read_sequence self) (s_pending_read_length self) (s_dispatch_active self)
    (s_pending_read self) (s_late_read_reply self).
Definition put_next_read_sequence (x : N) (self : Service) : Service :=
  Build_Service (s_transport self) (s_dispatch self) (s_receive_payload self)
    (s_send_payload self) (s_limits self) (s_validator self) (s_source_policy self)
    (s_enumeration self) (s_active_operation self) (s_session_id self)
    (s_active_request_id self) (s_remaining_stream_bytes self) (s_dispatch_steps self) x
    (s_pending_read_sequence self) (s_pending_read_length self) (s_dispatch_active self)
    (s_pending_read self) (s_late_read_reply self).
Definition put_pending_read_sequence (x : N) (self : Service) : Service :=
  Build_Service (s_transport self) (s_dispatch self) (s_receive_payload self)
    (s_send_payload self) (s_limits self) (s_validator self) (s_source_policy self)
    (s_enumeration self) (s_active_operation self) (s_session_id self)
    (s_active_request_id self) (s_remaining_stream_bytes self) (s_dispatch_steps self)
    (s_next_read_sequence self) x (s_pending_read_length self) (s_dispatch_active self)
    (s_pending_read self) (s_late_read_reply self).
Definition put_pending_read_length (x : N) (self : Service) : Service :=
  Build_Service (s_transport self) (s_dispatch self) (s_receive_payload self)
    (s_send_payload self) (s_limits self) (s_validator self) (s_source_policy self)
    (s_enumeration self) (s_active_operation self) (s_session_id self)
    (s_active_request_id self) (s_remaining_stream_bytes self) (s_dispatch_steps self)
    (s_next_read_sequence self) (s_pending_read_sequence self) x (s_dispatch_active self)
    (s_pending_read self) (s_late_read_reply self).
Definition put_dispatch_active (x : bool) (self : Service) : Service :=
  Build_Service (s_transport self) (s_dispatch self) (s_receive_payload self)
    (s_send_payload self) (s_limits self) (s_validator self) (s_source_policy self)
    (s_enumeration self) (s_active_operation self) (s_session_id self)
    (s_active_request_id self) (s_remaining_stream_bytes self) (s_dispatch_steps self)
    (s_next_read_sequence self) (s_pending_read_sequence self) (s_pending_read_length self) x
    (s_pending_read self) (s_late_read_reply self).
Definition put_pending_read (x : bool) (self : Service) : Service :=
  Build_Service (s_transport self) (s_dispatch self) (s_receive_payload self)
    (s_send_payload self) (s_limits self) (s_validator self) (s_source_policy self)
    (s_enumeration self) (s_active_operation self) (s_session_id self)
    (s_active_request_id self) (s_remaining_stream_bytes self) (s_dispatch_steps self)
    (s_next_read_sequence self) (s_pending_read_sequence self) (s_pending_read_length self)
    (s_dispatch_active self) x (s_late_read_reply self).
Definition put_late_read_reply (x : bool) (self : Service) : Service :=
  Build_Service (s_transport self) (s_dispatch self) (s_receive_payload self)
    (s_send_payload self) (s_limits self) (s_validator self) (s_source_policy self)
    (s_enumeration self) (s_active_operation self) (s_session_id self)
    (s_active_request_id self) (s_remaining_stream_bytes self) (s_dispatch_steps self)
    (s_next_read_sequence self) (s_pending_read_sequence self) (s_pending_read_length self)
    (s_dispatch_active self) (s_pending_read self) x.

(** Calls on the borrowed parts of [self]. *)
Definition service_receive : M Service ServiceFailure FrameHeader :=
  self ← get;
  map_errM failure_of_receive
    (zoom (λ self, (s_transport self, s_receive_payload self))
       (λ '(t, b) self, put_transport t (put_receive_payload b self))
       (receive_frame (s_session_id self))).

Definition service_send (header : FrameHeader) (payload : list byte)
  : M Service ServiceFailure unit :=
  zoom (λ self, (s_transport self, s_validator self))
    (λ '(t, v) self, put_transport t (put_validator v self))
    (send_frame header payload).

Definition observe_parent (header : FrameHeader) : M Service ServiceFailure unit :=
  zoom s_validator put_validator (validator_observe ParentToWorker header).

(** A fallible dispatcher call, its error mapped by [ServiceFailure::dispatch]. *)
Definition call_dispatch {A} (m : D → D * result DispatchError A) : M Service ServiceFailure A :=
  map_errM failure_dispatch (zoom s_dispatch put_dispatch m).

(** The frame just received, its payload at the front of the buffer. *)
Definition received (header : FrameHeader) (self : Service) : FrameView :=
  frame_view_new header (take (N.to_nat (payload_length header)) (s_receive_payload self)).

(** *** Handlers *)

Definition begin_operation (header : FrameHeader) (operation : Operation)
  : M Service ServiceFailure Flow :=
  self ← get;
  let frame := received header self in
  source_token ← lift (match operation with
    | Op_Enumerate => map_err failure_protocol (decode_enumerate_payload frame);; Ok 0
    | Op_Stream =>
        message ← map_err failure_protocol (decode_stream_entry_payload frame);
        Ok (source_token message)
    end);
  observe_parent header;;
  stream_size ← call_dispatch (begin operation source_token (s_source_policy self));
  let size_is_canonical := match operation with
                           | Op_Enumerate => stream_size =? 0
                           | Op_Stream => stream_size <=? MAXIMUM_ENUMERATED_ENTRY_BYTES
                           end in
  if negb size_is_canonical then
    modify (λ self, put_dispatch (cancel (s_dispatch self)) self);;
    throw (failure_rejected_action NoncanonicalValue)
  else
    modify (put_dispatch_active true);;
    modify (put_active_operation operation);;
    modify (put_active_request_id (request_id header));;
    modify (put_remaining_stream_bytes stream_size);;
    modify (put_enumeration enumeration_start);;
    modify (put_next_read_sequence 1);;
    modify (put_pending_read false);;
    modify (put_late_read_reply false);;
    mret Flow_Continue.

Definition accept_read_reply (header : FrameHeader) (discard : bool)
  : M Service ServiceFailure unit :=
  self ← get;
  lift (guard_err (negb (s_pending_read self)) (failure_protocol NoReadInFlight));;
  reply ← lift (map_err failure_protocol
    (decode_read_reply_payload (received header self) (s_pending_read_sequence self)
       (s_pending_read_length self)));
  observe_parent header;;
  modify (put_pending_read false);;
  modify (put_late_read_reply false);;
  modify (put_next_read_sequence (wrapping_add 32 (s_pending_read_sequence self) 1));;
  modify (put_pending_read_sequence 0);;
  modify (put_pending_read_length 0);;
  if discard then mret tt
  else if decide (rp_status reply ≠ PS_Ok) then throw (failure_new SvcSourceFailure)
  else call_dispatch (dispatch_read_reply reply).

Definition handle_cancel (header : FrameHeader) : M Service ServiceFailure Flow :=
  self ← get;
  lift (map_err failure_protocol (decode_cancel_payload (received header self)));;
  let prior_state := sv_state (s_validator self) in
  observe_parent header;;
  if decide (prior_state = Idle) then mret Flow_Continue
  else if negb (s_dispatch_active self) then throw (failure_new SvcInternalFailure)
  else
    modify (λ self, put_dispatch (cancel (s_dispatch self)) self);;
    modify (put_dispatch_active false);;
    modify (λ self, put_late_read_reply (s_pending_read self) self);;
    let ack := frame_header_new MT_CancelAck (s_session_id self) (request_id header) 0 in
    service_send ack [];;
    modify (put_active_request_id 0);;
    mret Flow_Continue.

Definition handle_late_read_reply (header : FrameHeader) : M Service ServiceFailure Flow :=
  self ← get;
  lift (guard_err (bool_decide (sv_state (s_validator self) ≠ Cancelled) ||
                   negb (s_late_read_reply self)) (failure_protocol UnexpectedMessage));;
  accept_read_reply header true;;
  mret Flow_Continue.

Definition handle_shutdown (header : FrameHeader) : M Service ServiceFailure Flow :=
  self ← get;
  lift (map_err failure_protocol (decode_shutdown_payload (received header self)));;
  observe_parent header;;
  modify (put_pending_read false);;
  modify (put_late_read_reply false);;
  modify (λ self, put_transport (close_io (s_transport self)) self);;
  mret Flow_Shutdown.

Definition handle_parent_frame (header : FrameHeader) : M Service ServiceFailure Flow :=
  match message_type header with
  | MT_Enumerate => begin_operation header Op_Enumerate
  | MT_StreamEntry => begin_operation header Op_Stream
  | MT_Cancel => handle_cancel header
  | MT_ReadReply => handle_late_read_reply header
  | MT_Shutdown => handle_shutdown header
  | _ => throw (failure_protocol UnexpectedMessage)
  end.

Definition await_read_reply_or_cancel : M Service ServiceFailure unit :=
  header ← service_receive;
  match message_type header with
  | MT_Cancel => handle_cancel header;; mret tt
  | MT_ReadReply => accept_read_reply header false
  | _ => throw (failure_protocol UnexpectedMessage)
  end.

(** One dispatcher step, its action encoded into the send buffer. *)
Definition step_and_prepare : M Service ServiceFailure PreparedFrame :=
  self ← get;
  let context := {| fc_session_id := s_session_id self;
                    fc_request_id := s_active_request_id self |} in
  action ← call_dispatch step;
  zoom s_send_payload put_send_payload (
    match action with
    | DA_NeedRead offset length =>
        prepare_read_request offset length (s_pending_read self) (s_next_read_sequence self)
          (s_source_policy self) context
    | DA_EntryBatch l =>
        prepare_entry_batch l (s_active_operation self) (s_enumeration self) context
    | DA_DataChunk data =>
        prepare_data_chunk data (s_active_operation self) (s_remaining_stream_bytes self) context
    | DA_Complete =>
        prepare_complete (s_active_operation self) (s_remaining_stream_bytes self) context
    end).

(** The prepared frame's state change around its write. *)
Definition send_and_commit (prepared : PreparedFrame) : M Service ServiceFailure unit :=
  match pf_commit prepared with
  | CM_ReadRequest sequence length =>
      modify (put_pending_read true);;
      modify (put_pending_read_sequence sequence);;
      modify (put_pending_read_length length)
  | _ => mret tt
  end;;
  self ← get;
  service_send (pf_header prepared)
    (take (N.to_nat (pf_payload_length prepared)) (s_send_payload self));;
  match pf_commit prepared with
  | CM_ReadRequest _ _ => await_read_reply_or_cancel
  | CM_EntryBatch next => modify (put_enumeration next)
  | CM_DataChunk remaining => modify (put_remaining_stream_bytes remaining)
  | CM_Complete =>
      modify (λ self, put_dispatch (end_ (s_dispatch self)) self);;
      modify (put_dispatch_active false);;
      modify (put_active_request_id 0)
  end.

Definition service_probe : M Service ServiceFailure InputStatus :=
  λ self, let '(t, status) := probe_input (s_transport self) in
          (put_transport t self, Ok status).

Definition run_active_operation : M Service ServiceFailure unit :=
  status ← service_probe;
  match status with
  | IN_PeerClosed => throw (failure_transport IO_PeerClosed)
  | IN_Failed => throw (failure_transport IO_Failed)
  | IN_Available =>
      header ← service_receive;
      if decide (message_type header ≠ MT_Cancel)
      then throw (failure_protocol UnexpectedMessage)
      else handle_cancel header;; mret tt
  | IN_Unavailable =>
      self ← get;
      if maximum_dispatch_steps (s_limits self) <=? s_dispatch_steps self
      then throw (failure_new SvcDispatchBudgetExceeded)
      else
        modify (put_dispatch_steps (s_dispatch_steps self + 1));;
        prepared ← step_and_prepare;
        send_and_commit prepared
  end.

(** One turn of [run]'s loop. *)
Definition run_turn : M Service ServiceFailure Flow :=
  self ← get;
  match sv_state (s_validator self) with
  | Enumerating | Streaming => run_active_operation;; mret Flow_Continue
  | _ => header ← service_receive; handle_parent_frame header
  end.

(** [Service::run], [fuel] turns of the loop at most. *)
Fixpoint run (fuel : nat) (self : Service) : option (Service * result ServiceFailure unit) :=
  match fuel with
  | O => None
  | S fuel =>
      match run_turn self with
      | (self, Err e) => Some (self, Err e)
      | (self, Ok Flow_Shutdown) => Some (self, Ok tt)
      | (self, Ok Flow_Continue) => run fuel self
      end
  end.

(** *** The lifetime *)

(** The [hello] is observed and [ready] sent. *)
Definition greet (header : FrameHeader) (id : SessionId)
  : M (T * SessionValidator) ServiceFailure unit :=
  let ready := frame_header_new MT_Ready id 0 0 in
  zoom snd (λ v s, (s.1, v)) (validator_observe ParentToWorker header);;
  send_frame ready [].

(** [established] and the match on it. *)
Definition establish (limits : ServiceLimits) (header : FrameHeader) (id : SessionId)
    (policy : SourceReadPolicy)
  : M (T * list byte) ServiceFailure (SessionValidator * SessionId * SourceReadPolicy) :=
  λ '(transport, receive_payload),
    let '((transport, validator), established) :=
      greet header id (transport, session_new id (protocol_budgets limits)) in
    ((transport, receive_payload),
     map_err (with_session id) (established;; mret (validator, id, policy))).

Definition handshake (limits : ServiceLimits)
  : M (T * list byte) ServiceFailure (SessionValidator * SessionId * SourceReadPolicy) :=
  header ← map_errM failure_of_receive (receive_frame 0);
  locals ← get;
  let frame := frame_view_new header
                 (take (N.to_nat (payload_length header)) locals.2) in
  hello ← lift (map_err failure_protocol (decode_hello_payload frame));
  id ← lift (ok_or (session_id_new (session_id header)) (failure_protocol InvalidSessionId));
  policy ← lift (map_err failure_protocol
    (source_read_policy_new (hello_source_size hello) (hello_maximum_read_bytes hello)));
  establish limits header id policy.

Definition service_new (transport : T) (dispatch : D) (receive_payload send_payload : list byte)
    (limits : ServiceLimits) (validator : SessionValidator) (id : SessionId)
    (policy : SourceReadPolicy) : Service :=
  {| s_transport := transport;
     s_dispatch := dispatch;
     s_receive_payload := receive_payload;
     s_send_payload := send_payload;
     s_limits := limits;
     s_validator := validator;
     s_source_policy := policy;
     s_enumeration := enumeration_start;
     s_active_operation := Op_Enumerate;
     s_session_id := id;
     s_active_request_id := 0;
     s_remaining_stream_bytes := 0;
     s_dispatch_steps := 0;
     s_next_read_sequence := 1;
     s_pending_read_sequence := 0;
     s_pending_read_length := 0;
     s_dispatch_active := false;
     s_pending_read := false;
     s_late_read_reply := false |}.

(** The teardown behind [run]. *)
Definition finish_service (self : Service) (outcome : result ServiceFailure unit)
  : T * D * result ServiceFailure ServiceSummary :=
  match outcome with
  | Ok _ =>
      (s_transport self, s_dispatch self,
       Ok {| summary_session_id := s_session_id self;
             summary_dispatch_steps := s_dispatch_steps self |})
  | Err failure =>
      let self := if s_dispatch_active self
                  then put_dispatch_active false
                         (put_dispatch (cancel (s_dispatch self)) self)
                  else self in
      let self := put_transport (abort_io (s_transport self)) self in
      (s_transport self, s_dispatch self,
       Err (with_steps (s_dispatch_steps self) (with_session (s_session_id self) failure)))
  end.

(** The capabilities are moved in; what they became is part of the outcome.
    [None] means that [fuel] turns of the loop were not enough. *)
Definition run_parser_worker_service (fuel : nat) (transport : T) (dispatch : D)
    (buffers : ServiceBuffers) (limits : ServiceLimits)
  : option (T * D * result ServiceFailure ServiceSummary) :=
  let receive_payload := receive_payload_buffer buffers in
  let send_payload := send_payload_buffer buffers in
  if (len receive_payload <? MAXIMUM_FRAME_PAYLOAD_BYTES) ||
     (len send_payload <? MAXIMUM_FRAME_PAYLOAD_BYTES) || negb (limits_is_valid limits)
  then Some (abort_io transport, dispatch, Err (failure_new SvcInvalidConfiguration))
  else
    match handshake limits (transport, receive_payload) with
    | ((transport, _), Err failure) => Some (abort_io transport, dispatch, Err failure)
    | ((transport, receive_payload), Ok (validator, id, policy)) =>
        match run fuel (service_new transport dispatch receive_payload send_payload limits
                          validator id policy) with
        | None => None
        | Some (self, outcome) => Some (finish_service self outcome)
        end
    end.
End service.

Arguments Service T D : clear implicits.
