(* ===== verification/ServiceTotal.v ===== *)
(** * The service terminates

    Program logic for the service's primitive calls, and the proof that the
    session loop ends: every turn that continues uses up a message of the
    session or a dispatch step. *)

From S2P Require Export Service.

(** ** The primitives under [wp] *)

Section primitives.
Context `{HeaderImage} {T D : Type} `{Transport T} `{Dispatcher D}.
Implicit Types self : Service T D.

Lemma wp_receive (Q : FrameHeader → Service T D → Prop) R self :
  (∀ t b h, receive_frame (s_session_id self) (s_transport self, s_receive_payload self) =
              ((t, b), Ok h) → Q h (put_transport t (put_receive_payload b self))) →
  (∀ t b e, receive_frame (s_session_id self) (s_transport self, s_receive_payload self) =
              ((t, b), Err e) →
            R (failure_of_receive e) (put_transport t (put_receive_payload b self))) →
  wp service_receive Q R self.
Proof.
  intros HQ HR. unfold service_receive. repeat wp_step.
  apply wp_run; intros ? [t b]; auto.
Qed.

Lemma wp_observe_parent header (Q : unit → Service T D → Prop) R self :
  (∀ v, observe ParentToWorker header (s_validator self) = (v, Ok tt) →
        Q tt (put_validator v self)) →
  (∀ v e, observe ParentToWorker header (s_validator self) = (v, Err e) →
          R (failure_protocol e) (put_validator v self)) →
  wp (observe_parent header) Q R self.
Proof.
  intros HQ HR. unfold observe_parent, validator_observe. repeat wp_step.
  apply wp_run; [intros []|]; auto.
Qed.

(** What a frame leaves behind once the validator let it through. *)
Lemma wp_send_frame header payload (Q : unit → T * SessionValidator → Prop) R t v :
  (∀ v' hb t', len payload = payload_length header →
     observe WorkerToParent header v = (v', Ok tt) →
     header_encode header zero_header = (hb, Ok tt) →
     (if len payload =? 0 then write_all hb t = (t', IO_Ok)
      else ∃ t1, write_all hb t = (t1, IO_Ok) ∧ write_all payload t1 = (t', IO_Ok)) →
     Q tt (t', v')) →
  (∀ v' e, observe WorkerToParent header v = (v', Err e) → R (failure_protocol e) (t, v')) →
  (∀ e, R e (t, v)) →
  (∀ v' e, observe WorkerToParent header v = (v', Ok tt) → R e (t, v')) →
  (∀ v' e t' bytes, observe WorkerToParent header v = (v', Ok tt) →
     fst (write_all bytes t) = t' → R e (t', v')) →
  (∀ v' e t1 t' hb, observe WorkerToParent header v = (v', Ok tt) →
     header_encode header zero_header = (hb, Ok tt) →
     write_all hb t = (t1, IO_Ok) →
     fst (write_all payload t1) = t' → R e (t', v')) →
  wp (send_frame header payload) Q R (t, v).
Proof.
  intros HQ HR1 HR2 HR3 HR4 HR5. unfold send_frame, validator_observe. wp_step. apply wp_lift.
  2:{ auto. }
  intros [] Hlen%guard_err_Ok. bool_to_prop. repeat wp_step. cbn [snd fst].
  apply wp_run; [intros [] v' Hv|intros e v' Hv; cbn [fst]; auto].
  wp_step. apply wp_lift; [|intros e; auto].
  intros hb Hhb. destruct (header_encode header zero_header) as [hb' [[]|?]] eqn:He; [|done].
  injection Hhb as ->. repeat wp_step. cbn [fst snd].
  unfold wp, write_io, io_check. destruct (write_all hb t) as [t1 st] eqn:Hw.
  destruct st; [|apply (HR4 _ _ _ hb); [done|by rewrite Hw]..].
  destruct (N.eqb_spec (len payload) 0) as [E|E]; cbn [negb].
  { by apply (HQ _ hb). }
  unfold zoom, mret, M_ret. cbn [fst snd].
  destruct (write_all payload t1) as [t2 st2] eqn:Hw2.
  destruct st2; [|apply (HR5 _ _ t1 _ hb); [done..|by rewrite Hw2]..].
  apply (HQ _ hb); try done. eauto.
Qed.

Lemma wp_call_dispatch {A} (m : D → D * result DispatchError A) (Q : A → Service T D → Prop) R self :
  (∀ d a, m (s_dispatch self) = (d, Ok a) → Q a (put_dispatch d self)) →
  (∀ d e, m (s_dispatch self) = (d, Err e) → R (failure_dispatch e) (put_dispatch d self)) →
  wp (call_dispatch m) Q R self.
Proof. intros HQ HR. unfold call_dispatch. repeat wp_step. apply wp_run; auto. Qed.

Lemma wp_probe (Q : InputStatus → Service T D → Prop) R self :
  (∀ t st, probe_input (s_transport self) = (t, st) → Q st (put_transport t self)) →
  wp service_probe Q R self.
Proof.
  intros HQ. unfold wp, service_probe. destruct (probe_input (s_transport self)) as [t st] eqn:E.
  auto.
Qed.

(** A step of a handler's preparation only touches the send buffer. *)
Lemma wp_step_and_prepare (Q : PreparedFrame → Service T D → Prop) R self :
  (∀ d action p b, step (s_dispatch self) = (d, Ok action) →
     (let context := {| fc_session_id := s_session_id self;
                        fc_request_id := s_active_request_id self |} in
      match action with
      | DA_NeedRead offset length =>
          prepare_read_request offset length (s_pending_read self) (s_next_read_sequence self)
            (s_source_policy self) context
      | DA_EntryBatch l =>
          prepare_entry_batch l (s_active_operation self) (s_enumeration self) context
      | DA_DataChunk data =>
          prepare_data_chunk data (s_active_operation self) (s_remaining_stream_bytes self)
            context
      | DA_Complete =>
          prepare_complete (s_active_operation self) (s_remaining_stream_bytes self) context
      end) (s_send_payload self) = (b, Ok p) →
     Q p (put_send_payload b (put_dispatch d self))) →
  (∀ d e, step (s_dispatch self) = (d, Err e) → R (failure_dispatch e) (put_dispatch d self)) →
  (∀ d action e b, step (s_dispatch self) = (d, Ok action) →
     R e (put_send_payload b (put_dispatch d self))) →
  wp step_and_prepare Q R self.
Proof.
  intros HQ HR1 HR2. unfold step_and_prepare. do 3 wp_step. apply wp_call_dispatch; [|done].
  intros d action Hstep. wp_step. apply wp_run; [|eauto].
  intros p b Hp. cbn [s_send_payload put_dispatch] in Hp. eapply HQ; [done|].
  destruct action; exact Hp.
Qed.

Lemma wp_service_send header payload (Q : unit → Service T D → Prop) R self :
  (∀ t v hb, len payload = payload_length header →
     observe WorkerToParent header (s_validator self) = (v, Ok tt) →
     header_encode header zero_header = (hb, Ok tt) →
     (if len payload =? 0 then write_all hb (s_transport self) = (t, IO_Ok)
      else ∃ t1, write_all hb (s_transport self) = (t1, IO_Ok) ∧
                 write_all payload t1 = (t, IO_Ok)) →
     Q tt (put_transport t (put_validator v self))) →
  (∀ e t v, R e (put_transport t (put_validator v self))) →
  wp (service_send header payload) Q R self.
Proof.
  intros HQ HR. unfold service_send. wp_step. apply wp_send_frame; intros; auto.
  by eapply HQ.
Qed.

(** A [lift] whose error is of no interest. *)
Lemma wp_lift_ok {S E A} (m : result E A) (Q : A → S → Prop) (s : S) :
  (∀ a, m = Ok a → Q a s) → wp (lift m) Q (λ _ _, True) s.
Proof. intros HQ. by apply wp_lift. Qed.
End primitives.

(** Runs a handler up to its results. *)
Ltac wp_call :=
  lazymatch goal with
  | |- wp service_receive _ _ _ => apply wp_receive; intros
  | |- wp (observe_parent _) _ _ _ => apply wp_observe_parent; intros
  | |- wp (service_send _ _) _ _ _ => apply wp_service_send; intros
  | |- wp (call_dispatch _) _ _ _ => apply wp_call_dispatch; intros
  | |- wp service_probe _ _ _ => apply wp_probe; intros
  | |- wp step_and_prepare _ _ _ => apply wp_step_and_prepare; intros
  | |- wp (lift _) _ _ _ => apply wp_lift; intros
  | |- wp (if ?c then _ else _) _ _ _ => destruct c eqn:?
  | _ => wp_step
  end.

(** Reads the fields of an updated service. *)
Ltac fields :=
  cbn [put_transport put_dispatch put_receive_payload put_send_payload put_validator
    put_enumeration put_active_operation put_active_request_id put_remaining_stream_bytes
    put_dispatch_steps put_next_read_sequence put_pending_read_sequence put_pending_read_length
    put_dispatch_active put_pending_read put_late_read_reply s_transport s_dispatch
    s_receive_payload s_send_payload s_limits s_validator s_source_policy s_enumeration
    s_active_operation s_session_id s_active_request_id s_remaining_stream_bytes
    s_dispatch_steps s_next_read_sequence s_pending_read_sequence s_pending_read_length
    s_dispatch_active s_pending_read s_late_read_reply log cancel end_ logged_dispatcher] in *.

(** What an accepted frame of a known kind does to the session's state. *)
Ltac moved Ho :=
  let Hwf := fresh "Hwf" in let Hm := fresh "Hm" in
  apply observe_state in Ho as [Hwf Hm]; [|done];
  match goal with E : message_type _ = _ |- _ => rewrite E in Hm end; cbn [state_move] in Hm.

(** ** Progress *)

Section progress.
Context `{HeaderImage} {T D : Type} `{Transport T} `{Dispatcher D}.
Implicit Types self : Service T D.

(** [self'] observed at least [n] more messages than [self]. *)
Record advances (n : N) (self self' : Service T D) : Prop := {
  adv_wf : session_wf (s_validator self');
  adv_budgets : sv_budgets (s_validator self') = sv_budgets (s_validator self);
  adv_limits : s_limits self' = s_limits self;
  adv_messages : sv_messages (s_validator self) + n ≤ sv_messages (s_validator self');
  adv_steps : s_dispatch_steps self' = s_dispatch_steps self
}.

Lemma observe_advances d h v v' :
  session_wf v → observe d h v = (v', Ok tt) →
  session_wf v' ∧ sv_budgets v' = sv_budgets v ∧ sv_messages v' = sv_messages v + 1.
Proof.
  intros Hwf Ho. pose proof (observe_refines_step v d h Hwf) as Hr. rewrite Ho in Hr.
  by destruct Hr as ((_&_&_&_&?&_&_)&?&_&?&_).
Qed.

Ltac observed :=
  repeat match goal with
  | Ho : observe _ _ ?v = (?v', Ok tt) |- _ =>
      apply observe_advances in Ho as (? & ? & ?); [|first [done | cbn; done]]
  end.
Ltac advance :=
  fields;
  observed; split; cbn; first [done | congruence | lia].

Definition makes_progress {A} (m : M (Service T D) ServiceFailure A) (n : N) self : Prop :=
  wp m (λ _ self', advances n self self') (λ _ _, True) self.

Lemma begin_operation_progress header op self :
  session_wf (s_validator self) → makes_progress (begin_operation header op) 1 self.
Proof. intros Hwf. unfold makes_progress, begin_operation. repeat wp_call; try done. all: advance. Qed.

Lemma accept_read_reply_progress header discard self :
  session_wf (s_validator self) → makes_progress (accept_read_reply header discard) 1 self.
Proof. intros Hwf. unfold makes_progress, accept_read_reply. repeat wp_call; try done. all: advance. Qed.

Lemma handle_cancel_progress header self :
  session_wf (s_validator self) → makes_progress (handle_cancel header) 1 self.
Proof. intros Hwf. unfold makes_progress, handle_cancel. repeat wp_call; try done. all: advance. Qed.

Lemma advances_trans n m a b c : advances n a b → advances m b c → advances (n + m) a c.
Proof. intros [] []. split; first [done | congruence | lia]. Qed.

Lemma advances_weaken n m a b : m ≤ n → advances n a b → advances m a b.
Proof. intros ? []. split; first [done | congruence | lia]. Qed.

Lemma wp_progress {A} (m : M (Service T D) ServiceFailure A) n self Q :
  makes_progress m n self →
  (∀ a self', advances n self self' → Q a self') → wp m Q (λ _ _, True) self.
Proof. intros Hm HQ. eapply wp_mono; [exact Hm|simpl; auto|done]. Qed.

Lemma handle_parent_frame_progress header self :
  session_wf (s_validator self) → makes_progress (handle_parent_frame header) 1 self.
Proof.
  intros Hwf. unfold handle_parent_frame.
  destruct (message_type header); try done; try by apply begin_operation_progress.
  - unfold makes_progress, handle_late_read_reply. repeat wp_call; try done.
    eapply wp_progress; [by apply accept_read_reply_progress|intros; by repeat wp_step].
  - by apply handle_cancel_progress.
  - unfold makes_progress, handle_shutdown. repeat wp_call; try done. all: advance.
Qed.

Lemma await_progress self :
  session_wf (s_validator self) → makes_progress await_read_reply_or_cancel 1 self.
Proof.
  intros Hwf. unfold makes_progress, await_read_reply_or_cancel. repeat wp_call; try done.
  destruct (message_type h); try done; repeat wp_call.
  - eapply wp_progress; [by apply accept_read_reply_progress|].
    intros a self' []. by split.
  - eapply wp_progress; [by apply handle_cancel_progress|].
    intros a self' []. wp_step. by split.
Qed.

Lemma send_and_commit_progress prepared self :
  session_wf (s_validator self) → makes_progress (send_and_commit prepared) 1 self.
Proof.
  intros Hwf. unfold makes_progress, send_and_commit.
  destruct (pf_commit prepared); repeat wp_call; try done; try advance.
  eapply wp_progress; [apply await_progress|].
  - by eapply observe_advances.
  - intros a self' Ha. eapply (advances_weaken (1 + 1)); [done|].
    eapply advances_trans; [|exact Ha]. advance.
Qed.

(** The loop's measure: messages and steps left. *)
Definition turns_left self : N :=
  (maximum_messages (sv_budgets (s_validator self)) - sv_messages (s_validator self)) +
  (maximum_dispatch_steps (s_limits self) - s_dispatch_steps self).

Definition run_inv self : Prop :=
  session_wf (s_validator self) ∧ s_dispatch_steps self ≤ maximum_dispatch_steps (s_limits self).

Lemma advances_turns self self' :
  run_inv self → advances 1 self self' → run_inv self' ∧ turns_left self' < turns_left self.
Proof.
  intros [Hwf Hs] []. unfold run_inv, turns_left.
  pose proof (proj1 adv_wf0) as Hm. rewrite adv_budgets0, adv_limits0, adv_steps0 in *.
  split; [done|lia].
Qed.

Lemma run_turn_progress self :
  run_inv self →
  wp run_turn (λ _ self', run_inv self' ∧ turns_left self' < turns_left self) (λ _ _, True) self.
Proof.
  intros Hinv. destruct Hinv as [Hwf Hs] eqn:HI. clear HI. unfold run_turn. do 2 wp_step.
  assert (wp (header ← service_receive; handle_parent_frame header)
    (λ _ self', run_inv self' ∧ turns_left self' < turns_left self) (λ _ _, True) self) as Hparent.
  { repeat wp_call; try done. eapply wp_progress; [by apply handle_parent_frame_progress|].
    intros a self' Ha. apply advances_turns; [done|]. by destruct Ha; split. }
  assert (wp (run_active_operation;; mret Flow_Continue)
    (λ _ self', run_inv self' ∧ turns_left self' < turns_left self) (λ _ _, True) self) as Hactive.
  { unfold run_active_operation. repeat wp_call. destruct st; repeat wp_call; try done.
    - destruct Hinv as [_ _]. apply N.leb_gt in Heqb.
      eapply wp_progress; [by apply send_and_commit_progress|].
      intros u self' []. wp_step. cbn in *. unfold run_inv, turns_left.
      rewrite adv_budgets0, adv_limits0, adv_steps0. cbn. destruct Hwf as (?&_). split; [split|]; [done|lia..].
    - eapply wp_progress; [by apply handle_cancel_progress|].
      intros a self' Ha. repeat wp_step. apply advances_turns; [done|]. by destruct Ha; split. }
  by destruct (sv_state (s_validator self)).
Qed.

Lemma run_terminates fuel self :
  run_inv self → turns_left self < N.of_nat fuel → ∃ out, run fuel self = Some out.
Proof.
  revert self. induction fuel as [|fuel IH]; intros self Hinv Hleft; [lia|]. simpl.
  pose proof (run_turn_progress self Hinv) as Hp. unfold wp in Hp.
  destruct (run_turn self) as [self' [[]|e]]; [|eauto..].
  destruct Hp as [Hinv' Hlt]. apply IH; [done|lia].
Qed.

Lemma run_more_fuel fuel fuel' self out :
  run fuel self = Some out → (fuel ≤ fuel')%nat → run fuel' self = Some out.
Proof.
  revert fuel' self. induction fuel as [|fuel IH]; intros fuel' self Hr Hle; [done|].
  destruct fuel' as [|fuel']; [lia|]. simpl in *.
  destruct (run_turn self) as [self' [[]|e]]; [|done..]. apply IH; [done|lia].
Qed.

(** A turn that ends the loop closed the session. *)
Lemma handle_parent_flow header self :
  session_wf (s_validator self) →
  wp (handle_parent_frame header)
    (λ flow self', flow = Flow_Shutdown → sv_state (s_validator self') = Closed) (λ _ _, True) self.
Proof.
  intros Hwf. unfold handle_parent_frame. destruct (message_type header) eqn:Hk; try done.
  - unfold begin_operation. repeat wp_call; done.
  - unfold begin_operation. repeat wp_call; done.
  - unfold handle_late_read_reply. repeat wp_call; try done.
    apply wp_run; [|done]. by intros.
  - unfold handle_cancel. repeat wp_call; done.
  - unfold handle_shutdown. repeat wp_call; try done. fields.
    match goal with Ho : observe _ _ _ = (_, Ok _) |- _ => by moved Ho end.
Qed.

Lemma run_turn_flow self :
  session_wf (s_validator self) →
  wp run_turn (λ flow self', flow = Flow_Shutdown → sv_state (s_validator self') = Closed)
    (λ _ _, True) self.
Proof.
  intros Hwf. unfold run_turn. do 2 wp_step.
  assert (wp (header ← service_receive; handle_parent_frame header)
    (λ flow self', flow = Flow_Shutdown → sv_state (s_validator self') = Closed) (λ _ _, True) self)
    as Hparent.
  { wp_step. apply wp_receive; [|done]. intros. by apply handle_parent_flow. }
  destruct (sv_state (s_validator self)); try exact Hparent;
    (wp_step; apply wp_run; [|done]; by intros; wp_step).
Qed.

Lemma establish_session limits h id policy t b :
  wp (establish limits h id policy) (λ out _, session_wf out.1.1 ∧
    sv_budgets out.1.1 = protocol_budgets limits ∧ sv_messages out.1.1 = 2 ∧
    sv_state out.1.1 = Idle)
    (λ _ _, True) (t, b).
Proof.
  assert (wp (greet h id)
      (λ _ s', session_wf s'.2 ∧ sv_budgets s'.2 = protocol_budgets limits ∧
        sv_messages s'.2 = 2 ∧ sv_state s'.2 = Idle)
      (λ _ _, True) (t, session_new id (protocol_budgets limits))) as Hw.
  { unfold greet, validator_observe. repeat wp_step. cbn [snd fst]. apply wp_run; [intros [] v1 Ho|done].
    apply observe_advances in Ho as (Hwf1&Hb1&Hm1); [|apply session_new_wf].
    apply wp_send_frame; try done. intros v' hb t' _ Ho _ _. cbn [snd].
    pose proof (observe_state _ _ _ _ Hwf1 Ho) as [_ Hst].
    apply observe_advances in Ho as (?&Hb2&Hm2); [|done]. simpl in *.
    split_and!; [done|congruence|lia|done]. }
  unfold wp, establish in *.
  by destruct (greet h id (t, session_new id (protocol_budgets limits))) as [[t2 v2] [[]|e]].
Qed.

Lemma handshake_session limits t b t' b' v id policy :
  handshake limits (t, b) = ((t', b'), Ok (v, id, policy)) →
  session_wf v ∧ sv_budgets v = protocol_budgets limits ∧ sv_messages v = 2 ∧ sv_state v = Idle.
Proof.
  intros Hh.
  enough (wp (handshake limits) (λ out _, session_wf out.1.1 ∧
    sv_budgets out.1.1 = protocol_budgets limits ∧ sv_messages out.1.1 = 2 ∧
    sv_state out.1.1 = Idle)
    (λ _ _, True) (t, b)) as Hw by (unfold wp in Hw; by rewrite Hh in Hw).
  unfold handshake. repeat wp_step. apply wp_run; [|done]. intros h [t1 b1] _.
  do 2 wp_step. do 3 (wp_step; apply wp_lift; [intros ? _|done]).
  apply establish_session.
Qed.
End progress.

(** ** Properties *)

(** Turns enough for any session under [limits]. *)
Definition service_fuel (limits : ServiceLimits) : nat :=
  N.to_nat (maximum_messages (protocol_budgets limits) + maximum_dispatch_steps limits).

(** C21: A worker lifetime always ends, whatever the transport delivers and the
    dispatcher does: the message budget plus the dispatch-step budget bounds
    the turns of the session loop, and more turns change nothing. *)
Theorem service_terminates `{HeaderImage} {T D} `{Transport T} `{Dispatcher D}
    (transport : T) (dispatch : D) buffers limits :
  ∃ outcome, ∀ fuel, (service_fuel limits ≤ fuel)%nat →
    run_parser_worker_service fuel transport dispatch buffers limits = Some outcome.
Proof.
  unfold run_parser_worker_service.
  destruct (_ || _ || _) eqn:Hc; [by eexists|]. bool_to_prop.
  destruct (handshake limits _) as [[t b] [[[v id] policy]|e]] eqn:Hh; [|by eexists].
  apply handshake_session in Hh as (Hwf & Hb & Hm & _).
  destruct (run_terminates (service_fuel limits)
    (service_new t dispatch b (send_payload_buffer buffers) limits v id policy)) as [out Hout].
  - split; [done|]. simpl. lia.
  - unfold turns_left, service_fuel. simpl. rewrite Hb, Hm.
    unfold limits_is_valid in *. bool_to_prop. lia.
  - exists (let '(self, outcome) := out in finish_service self outcome).
    intros fuel Hle. rewrite (run_more_fuel _ _ _ _ Hout Hle). by destruct out.
Qed.
