(* ===== verification/ServiceDispatch.v ===== *)
(** * The service's discipline towards its capabilities

    The protocol a dispatcher may rely on, as an automaton over the calls it
    receives, and the proof that the service keeps it on every path; and the
    teardown discipline of the transport. *)

From S2P Require Export ServiceTotal.

(** ** The dispatcher's protocol *)

Inductive DispatchState : Type :=
(** no request *)
| DS_Idle
(** a request is being served; a stream still owes [remaining] bytes *)
| DS_Active (operation : Operation) (remaining : N)
(** ... and waits for the answer to a read of [length] bytes *)
| DS_Reading (operation : Operation) (remaining length : N)
(** it reported completion with nothing owed *)
| DS_Finishing
(** it failed, or produced something the service must refuse *)
| DS_Doomed
(** abandoned, or never begun: no further call *)
| DS_Halted.

(** The size [begin] may announce. *)
Definition size_canonical (operation : Operation) (size : N) : bool :=
  match operation with
  | Op_Enumerate => size =? 0
  | Op_Stream => size <=? MAXIMUM_ENUMERATED_ENTRY_BYTES
  end.

Definition after_action (operation : Operation) (remaining : N) (action : DispatchAction)
  : DispatchState :=
  match action with
  | DA_NeedRead _ length => DS_Reading operation remaining length
  | DA_EntryBatch _ =>
      if decide (operation = Op_Enumerate) then DS_Active operation remaining else DS_Doomed
  | DA_DataChunk data =>
      if decide (operation = Op_Stream ∧ len data ≤ remaining)
      then DS_Active operation (remaining - len data) else DS_Doomed
  | DA_Complete =>
      if decide (operation = Op_Enumerate ∨ remaining = 0) then DS_Finishing else DS_Doomed
  end.

(** The call allowed in a state, and where it leads. *)
Definition dispatch_next (st : DispatchState) (call : DispatchCall) : option DispatchState :=
  match st, call with
  | DS_Idle, DC_Begin operation _ (Ok size) =>
      Some (if size_canonical operation size then DS_Active operation size else DS_Doomed)
  | DS_Idle, DC_Begin _ _ (Err _) => Some DS_Halted
  | DS_Active operation remaining, DC_Step (Ok action) =>
      Some (after_action operation remaining action)
  | DS_Active _ _, DC_Step (Err _) => Some DS_Doomed
  | DS_Reading operation remaining length, DC_Reply reply outcome =>
      if decide (rp_status reply = PS_Ok ∧ len (rp_data reply) = length) then
        Some (if outcome is Ok _ then DS_Active operation remaining else DS_Doomed)
      else None
  | DS_Finishing, DC_End => Some DS_Idle
  | (DS_Active _ _ | DS_Reading _ _ _ | DS_Finishing | DS_Doomed), DC_Cancel => Some DS_Halted
  | _, _ => None
  end.

Definition dispatch_run (l : list DispatchCall) : option DispatchState :=
  foldl (λ st call, st ≫= λ st, dispatch_next st call) (Some DS_Idle) l.

Lemma dispatch_run_snoc l call :
  dispatch_run (l ++ [call]) = dispatch_run l ≫= λ st, dispatch_next st call.
Proof. unfold dispatch_run. by rewrite foldl_app. Qed.

(** ** What the preparation of a frame establishes *)

Lemma prepared_frame_new_Ok ty context n commit p :
  prepared_frame_new ty context n commit = Ok p →
  message_type (pf_header p) = ty ∧ pf_commit p = commit ∧
  request_id (pf_header p) = fc_request_id context ∧
  session_id (pf_header p) = fc_session_id context.
Proof. unfold prepared_frame_new. intros H. apply bind_Ok in H as (k & _ & [= <-]). done. Qed.

(** The commit and kind of a frame prepared for an action. *)
Definition commit_fits (operation : Operation) (remaining : N) (action : DispatchAction)
    (p : PreparedFrame) : Prop :=
  match action with
  | DA_NeedRead _ length =>
      message_type (pf_header p) = MT_ReadRequest ∧
      ∃ sequence, pf_commit p = CM_ReadRequest sequence length
  | DA_EntryBatch _ =>
      operation = Op_Enumerate ∧ message_type (pf_header p) = MT_EntryBatch ∧
      ∃ next, pf_commit p = CM_EntryBatch next
  | DA_DataChunk data =>
      operation = Op_Stream ∧ len data ≤ remaining ∧ message_type (pf_header p) = MT_DataChunk ∧
      pf_commit p = CM_DataChunk (remaining - len data)
  | DA_Complete =>
      (operation = Op_Enumerate ∨ remaining = 0) ∧ message_type (pf_header p) = MT_Complete ∧
      pf_commit p = CM_Complete
  end.

Lemma encode_data_chunk_size m remaining b b' n :
  encode_data_chunk_payload m remaining b = (b', Ok n) → n = len (chunk_data m).
Proof. unfold encode_data_chunk_payload. intros H. inv_run. done. Qed.

Lemma map_errM_Ok {S E F A} (f : E → F) (m : M S E A) s s' a :
  map_errM f m s = (s', Ok a) → m s = (s', Ok a).
Proof. unfold map_errM. destruct (m s) as [? [|]]; naive_solver. Qed.

Lemma prepare_read_request_Ok offset length pending sequence policy context b b' p :
  prepare_read_request offset length pending sequence policy context b = (b', Ok p) →
  message_type (pf_header p) = MT_ReadRequest ∧ pf_commit p = CM_ReadRequest sequence length.
Proof.
  unfold prepare_read_request. intros H. inv_run.
  match goal with H : prepared_frame_new _ _ _ _ = Ok _ |- _ =>
    by apply prepared_frame_new_Ok in H as (? & ? & _) end.
Qed.

Lemma prepare_entry_batch_Ok l operation enumeration context b b' p :
  prepare_entry_batch l operation enumeration context b = (b', Ok p) →
  operation = Op_Enumerate ∧ message_type (pf_header p) = MT_EntryBatch ∧
  ∃ next, pf_commit p = CM_EntryBatch next.
Proof.
  unfold prepare_entry_batch. intros H. inv_run. bool_to_prop.
  match goal with H : prepared_frame_new _ _ _ _ = Ok _ |- _ =>
    apply prepared_frame_new_Ok in H as (? & ? & _) end.
  split; [by apply dec_stable|eauto].
Qed.

Lemma prepare_data_chunk_Ok data operation remaining context b b' p :
  prepare_data_chunk data operation remaining context b = (b', Ok p) →
  operation = Op_Stream ∧ len data ≤ remaining ∧ message_type (pf_header p) = MT_DataChunk ∧
  pf_commit p = CM_DataChunk (remaining - len data).
Proof.
  unfold prepare_data_chunk. intros H. inv_run. bool_to_prop.
  match goal with H : prepared_frame_new _ _ _ _ = Ok _ |- _ =>
    apply prepared_frame_new_Ok in H as (? & ? & _) end.
  match goal with H : map_errM _ _ _ = _ |- _ =>
    apply map_errM_Ok, encode_data_chunk_size in H; simpl in H; subst end.
  match goal with H : checked_sub _ _ = Some _ |- _ => apply checked_sub_Some in H as [? ->] end.
  split; [by apply dec_stable|done].
Qed.

Lemma prepare_complete_Ok operation remaining context b b' p :
  prepare_complete operation remaining context b = (b', Ok p) →
  (operation = Op_Enumerate ∨ remaining = 0) ∧ message_type (pf_header p) = MT_Complete ∧
  pf_commit p = CM_Complete.
Proof.
  unfold prepare_complete. intros H. inv_run.
  match goal with H : prepared_frame_new _ _ _ _ = Ok _ |- _ =>
    apply prepared_frame_new_Ok in H as (? & ? & _) end.
  destruct operation; [auto|].
  match goal with H : (_;; _) = Ok _ |- _ => apply guard_seq in H as [H _] end.
  bool_to_prop. auto.
Qed.

(** ** The service keeps the protocol *)

Section dispatch.
Context `{HeaderImage} {T D : Type} `{Transport T} `{Dispatcher D}.
Implicit Types self : Service T (Logged D DispatchCall).

Definition calls self : option DispatchState := dispatch_run (log (s_dispatch self)).

(** The request can still be abandoned with one [cancel]. *)
Definition cancellable (st : DispatchState) : Prop := dispatch_next st DC_Cancel = Some DS_Halted.

(** Between turns. *)
Definition turn_inv self : Prop :=
  session_wf (s_validator self) ∧
  match sv_state (s_validator self) with
  | Enumerating | Streaming =>
      s_dispatch_active self = true ∧
      calls self = Some (DS_Active (s_active_operation self) (s_remaining_stream_bytes self))
  | Idle => s_dispatch_active self = false ∧ calls self = Some DS_Idle
  | _ => s_dispatch_active self = false ∧ (calls self = Some DS_Idle ∨ calls self = Some DS_Halted)
  end.

(** When a turn fails. *)
Definition teardown_inv self : Prop :=
  ∃ st, calls self = Some st ∧
    if s_dispatch_active self then cancellable st else st = DS_Idle ∨ st = DS_Halted.

(** When a frame of the parent is about to be handled. *)
Definition request_inv self : Prop :=
  session_wf (s_validator self) ∧
  match sv_state (s_validator self) with
  | Enumerating | Streaming =>
      s_dispatch_active self = true ∧ ∃ st, calls self = Some st ∧ cancellable st
  | Idle => s_dispatch_active self = false ∧ calls self = Some DS_Idle
  | _ => s_dispatch_active self = false ∧ (calls self = Some DS_Idle ∨ calls self = Some DS_Halted)
  end.

Lemma turn_request self : turn_inv self → request_inv self.
Proof.
  intros [Hwf Hs]. split; [done|].
  destruct (sv_state (s_validator self)); naive_solver.
Qed.

Lemma request_teardown self : request_inv self → teardown_inv self.
Proof.
  intros [_ Hs]. unfold teardown_inv.
  destruct (sv_state (s_validator self)), (s_dispatch_active self); naive_solver.
Qed.

Lemma begin_logged op token policy (d d' : Logged D DispatchCall) r :
  begin op token policy d = (d', r) → log d' = log d ++ [DC_Begin op token r].
Proof. simpl. destruct (begin op token policy (inner d)) as [? ?]. by intros [= <- <-]. Qed.
Lemma step_logged (d d' : Logged D DispatchCall) r : step d = (d', r) → log d' = log d ++ [DC_Step r].
Proof. simpl. destruct (step (inner d)) as [? ?]. by intros [= <- <-]. Qed.
Lemma reply_logged reply (d d' : Logged D DispatchCall) r :
  dispatch_read_reply reply d = (d', r) → log d' = log d ++ [DC_Reply reply r].
Proof. simpl. destruct (dispatch_read_reply reply (inner d)) as [? ?]. by intros [= <- <-]. Qed.

Lemma begin_operation_dispatch header op self :
  message_type header = (match op with Op_Enumerate => MT_Enumerate | Op_Stream => MT_StreamEntry end) →
  turn_inv self →
  wp (begin_operation header op) (λ _, turn_inv) (λ _, teardown_inv) self.
Proof.
  intros Hk Hinv. pose proof (request_teardown _ (turn_request _ Hinv)) as Htd.
  destruct Hinv as [Hwf Hs]. unfold begin_operation. do 2 wp_step. cbv zeta.
  wp_step. apply wp_lift; [intros token _|by intros].
  wp_step. apply wp_observe_parent.
  2:{ intros v e _. exact Htd. }
  intros v Ho. apply observe_state in Ho as [Hwf' Hm]; [|done]. rewrite Hk in Hm.
  assert (sv_state (s_validator self) = Idle ∧
    sv_state v = (match op with Op_Enumerate => Enumerating | Op_Stream => Streaming end)) as [Hi Hv]
    by (by destruct op).
  rewrite Hi in Hs. destruct Hs as [Hact Hcalls]. clear Htd.
  wp_step. apply wp_call_dispatch; fields.
  2:{ intros d e Hd. apply begin_logged in Hd. exists DS_Halted. unfold calls. fields.
      rewrite Hd, dispatch_run_snoc. unfold calls in Hcalls. rewrite Hcalls, Hact. simpl. auto. }
  intros d size Hd. apply begin_logged in Hd.
  assert (dispatch_run (log d) = Some (if size_canonical op size then DS_Active op size else DS_Doomed))
    as Hd' by (rewrite Hd, dispatch_run_snoc; unfold calls in Hcalls; by rewrite Hcalls).
  fold (size_canonical op size). destruct (size_canonical op size) eqn:Hc; cbn [negb].
  - repeat wp_step. split; [done|]. unfold calls. fields. rewrite Hv, Hd'. by destruct op.
  - repeat wp_step. exists DS_Halted. unfold calls. fields. rewrite dispatch_run_snoc, Hd'.
    rewrite Hact. simpl. auto.
Qed.

(** The reply the protocol decodes carries exactly what was asked for. *)
Lemma decode_read_reply_exact frame sequence length reply :
  decode_read_reply_payload frame sequence length = Ok reply → rp_status reply = PS_Ok →
  len (rp_data reply) = length.
Proof.
  intros Hd Hs.
  assert (sc_typed (schema FReadReply) (sequence, length) reply) as Ht.
  { apply (schema_decode_typed (s:=schema FReadReply) (sequence, length) frame); [|done].
    exists {| rp_read_sequence := 0; rp_status := PS_Ok; rp_data := [] |}. done. }
  apply (proj1 (schema_decode (s:=schema FReadReply) (sequence, length) frame reply Ht)) in Hd
    as (_ & _ & _ & _ & _ & _ & [[_ ?]|[[E|E] _]]); [done|by rewrite E in Hs..].
Qed.

(** The answer to a pending read, the request still active. *)
Definition reading_inv self : Prop :=
  session_wf (s_validator self) ∧ s_dispatch_active self = true ∧
  (sv_state (s_validator self) = Enumerating ∨ sv_state (s_validator self) = Streaming) ∧
  calls self = Some (DS_Reading (s_active_operation self) (s_remaining_stream_bytes self)
                       (s_pending_read_length self)).

Lemma reading_request self : reading_inv self → request_inv self.
Proof.
  intros (Hwf & Hact & Hs & Hc). split; [done|].
  destruct Hs as [-> | ->]; split; [done|by eexists|done|by eexists].
Qed.

Lemma accept_read_reply_dispatch header self :
  message_type header = MT_ReadReply → reading_inv self →
  wp (accept_read_reply header false) (λ _, turn_inv) (λ _, teardown_inv) self.
Proof.
  intros Hk Hinv. pose proof (request_teardown _ (reading_request _ Hinv)) as Htd.
  destruct Hinv as (Hwf & Hact & Hs & Hcalls). unfold accept_read_reply. do 2 wp_step.
  wp_step. apply wp_lift; [intros _ _|by intros].
  wp_step. apply wp_lift; [intros reply Hr%map_err_Ok|by intros].
  wp_step. apply wp_observe_parent; [|intros; exact Htd].
  intros v Ho. moved Ho. repeat wp_step. fields. cbv zeta.
  destruct (decide (rp_status reply ≠ PS_Ok)) as [Hbad|Hok%dec_stable].
  { wp_step. exact Htd. }
  assert (∀ r, dispatch_next (DS_Reading (s_active_operation self) (s_remaining_stream_bytes self)
      (s_pending_read_length self)) (DC_Reply reply r) =
    Some (if r is Ok _ then DS_Active (s_active_operation self) (s_remaining_stream_bytes self)
          else DS_Doomed)) as Hnext.
  { intros r. simpl. rewrite decide_True; [done|]. split; [done|].
    by eapply decode_read_reply_exact. }
  unfold calls in Hcalls.
  apply wp_call_dispatch; fields; intros d r Hd; apply reply_logged in Hd.
  - split; [done|]. unfold calls. fields. rewrite Hm, Hd, dispatch_run_snoc, Hcalls.
    cbn [mbind option_bind]. rewrite Hnext. by destruct Hs as [-> | ->].
  - exists DS_Doomed. unfold calls. fields. rewrite Hd, dispatch_run_snoc, Hcalls, Hact.
    cbn [mbind option_bind]. by rewrite Hnext.
Qed.

(** A late reply is drained without a dispatcher call. *)
Lemma accept_late_reply_dispatch header self :
  message_type header = MT_ReadReply → turn_inv self →
  wp (accept_read_reply header true) (λ _, turn_inv) (λ _, teardown_inv) self.
Proof.
  intros Hk Hinv. pose proof (request_teardown _ (turn_request _ Hinv)) as Htd.
  destruct Hinv as (Hwf & Hs). unfold accept_read_reply. do 2 wp_step.
  wp_step. apply wp_lift; [intros _ _|by intros].
  wp_step. apply wp_lift; [intros reply Hr|by intros].
  wp_step. apply wp_observe_parent; [|intros; exact Htd].
  intros v Ho. moved Ho. repeat wp_step. split; [done|]. fields. by rewrite Hm.
Qed.

Lemma handle_cancel_dispatch header self :
  message_type header = MT_Cancel → request_inv self →
  wp (handle_cancel header) (λ _, turn_inv) (λ _, teardown_inv) self.
Proof.
  intros Hk Hinv. pose proof (request_teardown _ Hinv) as Htd.
  destruct Hinv as [Hwf Hs]. unfold handle_cancel. do 2 wp_step.
  wp_step. apply wp_lift; [intros _ _|by intros].
  cbv zeta. wp_step. apply wp_observe_parent; [|intros; exact Htd].
  intros v Ho. moved Ho.
  destruct Hm as [[Hi Hi']|[Ha Hc]].
  { rewrite decide_True by done. wp_step. rewrite Hi in Hs. destruct Hs as [??].
    split; [done|]. fields. by rewrite Hi'. }
  rewrite decide_False by (by destruct Ha as [-> | ->]).
  assert (s_dispatch_active self = true ∧ ∃ st, calls self = Some st ∧ cancellable st)
    as (Hact & st & Hcalls & Hcancel) by (by destruct Ha as [E|E]; rewrite E in Hs).
  rewrite Hact. cbn [negb].
  assert (dispatch_run (log (s_dispatch self) ++ [DC_Cancel]) = Some DS_Halted) as Hrun.
  { rewrite dispatch_run_snoc. unfold calls in Hcalls. by rewrite Hcalls. }
  repeat wp_step. fields. apply wp_service_send; fields.
  - intros t v' hb _ Hack _ _. repeat wp_step.
    apply observe_state in Hack as [Hwf'' Hm]; [|done]. simpl in Hm.
    split; [done|]. unfold calls. fields. rewrite Hm. auto.
  - intros e t v'. exists DS_Halted. unfold calls. fields. auto.
Qed.

Lemma handle_shutdown_dispatch header self :
  message_type header = MT_Shutdown → turn_inv self →
  wp (handle_shutdown header) (λ _, turn_inv) (λ _, teardown_inv) self.
Proof.
  intros Hk Hinv. pose proof (request_teardown _ (turn_request _ Hinv)) as Htd.
  destruct Hinv as [Hwf Hs]. unfold handle_shutdown. do 2 wp_step.
  wp_step. apply wp_lift; [intros _ _|by intros].
  wp_step. apply wp_observe_parent; [|intros; exact Htd].
  intros v Ho. apply observe_state_from in Ho as (Hwf' & Hm & Hfrom); [|done].
  rewrite Hk in Hm, Hfrom. simpl in Hm, Hfrom. repeat wp_step. split; [done|]. unfold calls. fields.
  rewrite Hm. destruct Hfrom as [E|E]; rewrite E in Hs; unfold calls in Hs; naive_solver.
Qed.

Lemma handle_parent_frame_dispatch header self :
  turn_inv self → wp (handle_parent_frame header) (λ _, turn_inv) (λ _, teardown_inv) self.
Proof.
  intros Hinv. pose proof (request_teardown _ (turn_request _ Hinv)) as Htd.
  unfold handle_parent_frame. destruct (message_type header) eqn:Hk; try exact Htd.
  - by apply begin_operation_dispatch.
  - by apply begin_operation_dispatch.
  - unfold handle_late_read_reply. do 2 wp_step. wp_step. apply wp_lift; [intros _ _|by intros].
    wp_step. eapply wp_mono; [by apply accept_late_reply_dispatch|by intros; wp_step|done].
  - apply handle_cancel_dispatch; [done|by apply turn_request].
  - by apply handle_shutdown_dispatch.
Qed.

Lemma await_dispatch self :
  reading_inv self →
  wp await_read_reply_or_cancel (λ _, turn_inv) (λ _, teardown_inv) self.
Proof.
  intros Hinv. pose proof (request_teardown _ (reading_request _ Hinv)) as Htd.
  unfold await_read_reply_or_cancel. wp_step. apply wp_receive; [|intros; exact Htd].
  intros t b h _. destruct (message_type h) eqn:Hk; try exact Htd.
  - by apply accept_read_reply_dispatch.
  - wp_step. eapply wp_mono; [apply handle_cancel_dispatch; [done|by apply (reading_request self)]
      |by intros; wp_step|done].
Qed.

(** A frame prepared for the action the dispatcher just took. *)
Definition prepared_inv (p : PreparedFrame) self : Prop :=
  session_wf (s_validator self) ∧ s_dispatch_active self = true ∧
  (sv_state (s_validator self) = Enumerating ∨ sv_state (s_validator self) = Streaming) ∧
  ∃ remaining action,
    commit_fits (s_active_operation self) remaining action p ∧
    s_remaining_stream_bytes self = remaining ∧
    calls self = Some (after_action (s_active_operation self) remaining action).

Lemma after_action_cancellable op remaining action :
  cancellable (after_action op remaining action).
Proof. destruct action; simpl; unfold cancellable; try case_decide; done. Qed.

Lemma prepared_teardown p self : prepared_inv p self → teardown_inv self.
Proof.
  intros (_ & Hact & _ & remaining & action & _ & _ & Hc).
  eexists. split; [done|]. rewrite Hact. apply after_action_cancellable.
Qed.

Lemma send_and_commit_dispatch p self :
  prepared_inv p self → wp (send_and_commit p) (λ _, turn_inv) (λ _, teardown_inv) self.
Proof.
  intros Hinv. pose proof (prepared_teardown _ _ Hinv) as Htd.
  destruct Hinv as (Hwf & Hact & Hs & remaining & action & Hfit & Hrem & Hcalls).
  unfold send_and_commit.
  destruct action as [offset length|l|data|]; cbn [commit_fits after_action] in *.
  - destruct Hfit as (Hk & sequence & ->). repeat wp_step. fields. apply wp_service_send; fields.
    2:{ intros e t v. exact Htd. }
    intros t v hb _ Ho _ _. moved Ho. apply await_dispatch. split_and!; fields; [done|done|by rewrite Hm|].
    unfold calls in *. fields. by rewrite Hrem.
  - destruct Hfit as (Hop & Hk & next & ->). repeat wp_step. apply wp_service_send; [|done].
    intros t v hb _ Ho _ _. moved Ho. repeat wp_step. split; [done|]. unfold calls in *. fields.
    rewrite Hm, Hrem, Hcalls, decide_True by done. by destruct Hs as [-> | ->].
  - destruct Hfit as (Hop & Hle & Hk & ->). repeat wp_step. apply wp_service_send; [|done].
    intros t v hb _ Ho _ _. moved Ho. repeat wp_step. split; [done|]. unfold calls in *. fields.
    rewrite Hm, Hcalls, decide_True by done. by destruct Hs as [-> | ->].
  - destruct Hfit as (Hop & Hk & ->). repeat wp_step. apply wp_service_send; [|done].
    intros t v hb _ Ho _ _. moved Ho. repeat wp_step. split; [done|]. unfold calls in *. fields.
    rewrite Hm, dispatch_run_snoc, Hcalls, decide_True by done. done.
Qed.

Lemma prepare_fits self action b p :
  (let context := {| fc_session_id := s_session_id self;
                     fc_request_id := s_active_request_id self |} in
   match action with
   | DA_NeedRead offset length =>
       prepare_read_request offset length (s_pending_read self) (s_next_read_sequence self)
         (s_source_policy self) context
   | DA_EntryBatch l =>
       prepare_entry_batch l (s_active_operation self) (s_enumeration self) context
   | DA_DataChunk data =>
       prepare_data_chunk data (s_active_operation self) (s_remaining_stream_bytes self) context
   | DA_Complete =>
       prepare_complete (s_active_operation self) (s_remaining_stream_bytes self) context
   end) (s_send_payload self) = (b, Ok p) →
  commit_fits (s_active_operation self) (s_remaining_stream_bytes self) action p.
Proof.
  destruct action; simpl; intros Hp.
  - apply prepare_read_request_Ok in Hp as [??]. eauto.
  - by eapply prepare_entry_batch_Ok.
  - by eapply prepare_data_chunk_Ok.
  - by eapply prepare_complete_Ok.
Qed.

Lemma run_active_dispatch self :
  turn_inv self →
  sv_state (s_validator self) = Enumerating ∨ sv_state (s_validator self) = Streaming →
  wp run_active_operation (λ _, turn_inv) (λ _, teardown_inv) self.
Proof.
  intros Hinv Hs. pose proof (turn_request _ Hinv) as Hreq.
  pose proof (request_teardown _ Hreq) as Htd.
  unfold run_active_operation. wp_step. apply wp_probe. intros t st _.
  destruct st; [|wp_step; apply wp_receive; [|intros; exact Htd]|exact Htd|exact Htd].
  2:{ intros t' b h _. destruct (decide (message_type h ≠ MT_Cancel)) as [|Hk%dec_stable];
        [exact Htd|].
      wp_step. eapply wp_mono; [by apply handle_cancel_dispatch|by intros; wp_step|done]. }
  do 2 wp_step. fields. destruct (_ <=? _); [exact Htd|]. do 2 wp_step. wp_step.
  destruct Hinv as [Hwf Hst].
  assert (s_dispatch_active self = true ∧
    calls self = Some (DS_Active (s_active_operation self) (s_remaining_stream_bytes self)))
    as [Hact Hcalls] by (by destruct Hs as [E|E]; rewrite E in Hst).
  unfold calls in Hcalls. apply wp_step_and_prepare; fields.
  - intros d action p b Hstep Hp. apply step_logged in Hstep.
    apply send_and_commit_dispatch. split_and!; fields; [done..|].
    exists (s_remaining_stream_bytes self), action. split_and!; [by eapply prepare_fits|done|].
    unfold calls. fields. by rewrite Hstep, dispatch_run_snoc, Hcalls.
  - intros d e Hstep. apply step_logged in Hstep. exists DS_Doomed. unfold calls. fields.
    rewrite Hstep, dispatch_run_snoc, Hcalls, Hact. done.
  - intros d action e b Hstep. apply step_logged in Hstep.
    exists (after_action (s_active_operation self) (s_remaining_stream_bytes self) action).
    unfold calls. fields. rewrite Hstep, dispatch_run_snoc, Hcalls, Hact.
    split; [done|]. apply after_action_cancellable.
Qed.

Lemma run_turn_dispatch self :
  turn_inv self → wp run_turn (λ _, turn_inv) (λ _, teardown_inv) self.
Proof.
  intros Hinv. unfold run_turn. do 2 wp_step.
  assert (wp (header ← service_receive; handle_parent_frame header)
    (λ _, turn_inv) (λ _, teardown_inv) self) as Hparent.
  { wp_step. apply wp_receive; intros.
    - by apply handle_parent_frame_dispatch.
    - apply (request_teardown _ (turn_request _ Hinv)). }
  destruct (sv_state (s_validator self)) eqn:E; try exact Hparent;
    (wp_step; eapply wp_mono; [apply run_active_dispatch; auto|by intros; wp_step|done]).
Qed.

(** [run] succeeds only through a shutdown, whose turn closes the session. *)
Lemma run_dispatch fuel self self' outcome :
  turn_inv self → run fuel self = Some (self', outcome) →
  match outcome with Ok _ => turn_inv self' ∧ sv_state (s_validator self') = Closed
  | Err _ => teardown_inv self' end.
Proof.
  revert self. induction fuel as [|fuel IH]; intros self Hinv Hr; [done|]. simpl in Hr.
  pose proof (run_turn_dispatch self Hinv) as Ht. pose proof (run_turn_flow self (proj1 Hinv)) as Hf.
  unfold wp in Ht, Hf. destruct (run_turn self) as [self1 [[]|e]].
  - by apply (IH self1).
  - injection Hr as <- <-. split; [done|]. by apply Hf.
  - by injection Hr as <- <-.
Qed.
End dispatch.

(** ** The session's parameters never change *)

Section parameters.
Context `{HeaderImage} {T D : Type} `{Transport T} `{Dispatcher D}.
Implicit Types self : Service T D.

Definition same_parameters self self' : Prop :=
  s_session_id self' = s_session_id self ∧ s_limits self' = s_limits self.

#[local] Instance same_parameters_preorder : PreOrder same_parameters.
Proof. split; [done|]. intros s1 s2 s3 [??] [??]. split; congruence. Qed.

Lemma zoom_parameters {X E A} view put (m : M X E A) :
  (∀ t self, same_parameters self (put t self)) → keeps same_parameters (zoom view put m).
Proof. intros Hput self. unfold zoom. destruct (m (view self)) as [t r]. apply Hput. Qed.

Lemma run_turn_parameters : keeps same_parameters run_turn.
Proof.
  assert (∀ self self', self' = self → same_parameters self self') as Hrefl by (by intros ?? ->).
  unfold run_turn, run_active_operation, handle_parent_frame, begin_operation,
    handle_late_read_reply, handle_shutdown, step_and_prepare, send_and_commit,
    await_read_reply_or_cancel, handle_cancel, accept_read_reply, service_receive, service_send,
    observe_parent, call_dispatch, service_probe.
  repeat first [ keeps_step | apply zoom_parameters; first
      [intros t self; split; reflexivity | intros [t b] self; split; reflexivity]
    | split; reflexivity | intros self; by destruct (probe_input (s_transport self)) ].
Qed.

Lemma run_keeps_id fuel self self' out :
  run fuel self = Some (self', out) → same_parameters self self'.
Proof.
  revert self. induction fuel as [|fuel IH]; intros self Hr; [done|]. simpl in Hr.
  pose proof (run_turn_parameters self) as Ht.
  destruct (run_turn self) as [self1 [[]|e]]; simpl in Ht.
  - etrans; [exact Ht|by apply IH].
  - by injection Hr as <- _.
  - by injection Hr as <- _.
Qed.
End parameters.

(** ** The transport's teardown *)

Definition is_io (c : TransportCall) : Prop :=
  match c with TC_Read _ _ | TC_Write _ _ | TC_Probe _ => True | _ => False end.

(** Only reads, writes and probes happened. *)
Definition quiet {T} (t t' : Logged T TransportCall) : Prop :=
  ∃ l, log t' = log t ++ l ∧ Forall is_io l.

#[export] Instance quiet_preorder {T} : PreOrder (quiet (T:=T)).
Proof.
  split.
  - intros t. exists []. by rewrite app_nil_r.
  - intros t1 t2 t3 (l & E & Hl) (k & E' & Hk). exists (l ++ k). rewrite E', E, app_assoc.
    split; [done|]. by apply Forall_app.
Qed.

Section teardown.
Context `{HeaderImage} {T D : Type} `{Transport T} `{Dispatcher D}.
Implicit Types self : Service (Logged T TransportCall) D.

Lemma quiet_call (t : Logged T TransportCall) t' c : is_io c → quiet t (Log t' (log t ++ [c])).
Proof. intros Hc. exists [c]. split; [done|]. by constructor. Qed.

Definition quiet_locals {B} (s s' : Logged T TransportCall * B) : Prop := quiet s.1 s'.1.

#[local] Instance quiet_locals_preorder {B} : PreOrder (quiet_locals (B:=B)).
Proof.
  unfold quiet_locals. split; [intros s; reflexivity|].
  intros s1 s2 s3 H12 H23. by transitivity (s2.1).
Qed.

Lemma read_into_quiet : keeps quiet_locals (read_into (T:=Logged T TransportCall)).
Proof.
  intros [t d]. unfold read_into, io_check, quiet_locals. simpl.
  destruct (read_exact d (inner t)) as [t' [d' st]]. simpl. by apply quiet_call.
Qed.

Lemma receive_frame_quiet id : keeps quiet_locals (receive_frame (T:=Logged T TransportCall) id).
Proof.
  intros [t b]. unfold receive_frame. pose proof (read_into_quiet (t, zero_header)) as Hq1.
  unfold quiet_locals in *. destruct (read_into (t, zero_header)) as [[t1 hb] [[]|e]]; [|done].
  destruct (map_err _ _) as [h|]; [|done]. destruct (_ && _); [done|].
  destruct (_ <=? _); [|done]. cbv zeta. destruct (_ =? _); [done|].
  pose proof (read_into_quiet (t1, take (N.to_nat (payload_length h)) b)) as Hq2.
  unfold quiet_locals in *. destruct (read_into _) as [[t2 p] r]. simpl in *. by etrans.
Qed.

Lemma write_io_quiet bytes : keeps quiet (write_io (T:=Logged T TransportCall) bytes).
Proof.
  intros t. unfold write_io, io_check. simpl.
  destruct (write_all bytes (inner t)) as [t' st]. simpl. by apply quiet_call.
Qed.

Lemma validator_quiet {A} (m : M SessionValidator ServiceFailure A) :
  keeps quiet_locals (zoom snd (λ v (s : Logged T TransportCall * SessionValidator), (s.1, v)) m).
Proof. intros [t v]. unfold zoom, quiet_locals. simpl. by destruct (m v). Qed.

Lemma send_frame_quiet header payload :
  keeps quiet_locals (send_frame (T:=Logged T TransportCall) header payload).
Proof.
  unfold send_frame, validator_observe.
  repeat first [ keeps_step | apply validator_quiet
    | eapply keeps_zoom; [apply write_io_quiet|by intros [] ?] ].
Qed.

Definition quiet_service self self' : Prop := quiet (s_transport self) (s_transport self').

#[local] Instance quiet_service_preorder : PreOrder quiet_service.
Proof.
  unfold quiet_service. split; [intros s; reflexivity|].
  intros s1 s2 s3 H12 H23. by transitivity (s_transport s2).
Qed.

Lemma service_receive_quiet : keeps quiet_service service_receive.
Proof.
  unfold service_receive. repeat keeps_step.
  eapply keeps_zoom; [apply receive_frame_quiet|]. by intros self [t b].
Qed.

Lemma service_send_quiet header payload : keeps quiet_service (service_send header payload).
Proof.
  unfold service_send. eapply keeps_zoom; [apply send_frame_quiet|]. by intros self [t v].
Qed.

(** A method of a part that is not the transport. *)
Lemma zoom_quiet {X A} view put (m : M X ServiceFailure A) :
  (∀ t self, s_transport (put t self) = s_transport self) → keeps quiet_service (zoom view put m).
Proof.
  intros Hput self. unfold zoom, quiet_service. destruct (m (view self)) as [t r]. simpl.
  by rewrite Hput.
Qed.

Lemma observe_parent_quiet header : keeps quiet_service (observe_parent header).
Proof. by apply zoom_quiet. Qed.

Lemma call_dispatch_quiet {A} (m : D → D * result DispatchError A) :
  keeps quiet_service (call_dispatch m).
Proof.
  intros self. unfold call_dispatch, map_errM, zoom, quiet_service.
  by destruct (m (s_dispatch self)).
Qed.

Lemma probe_quiet : keeps quiet_service service_probe.
Proof.
  intros self. unfold service_probe, quiet_service. simpl.
  destruct (probe_input (inner (s_transport self))) as [t st]. simpl. by apply quiet_call.
Qed.

Ltac quiet_refl := intros; unfold quiet_service; reflexivity.

Ltac quiet_steps :=
  repeat first [ apply service_receive_quiet | apply service_send_quiet | apply observe_parent_quiet
    | apply call_dispatch_quiet | apply probe_quiet | keeps_step
    | by apply zoom_quiet | unfold quiet_service; reflexivity ].

Lemma begin_operation_quiet header op : keeps quiet_service (begin_operation header op).
Proof. unfold begin_operation. quiet_steps. Qed.
Lemma accept_read_reply_quiet header discard :
  keeps quiet_service (accept_read_reply header discard).
Proof. unfold accept_read_reply. quiet_steps. Qed.
Lemma handle_cancel_quiet header : keeps quiet_service (handle_cancel header).
Proof. unfold handle_cancel. quiet_steps. Qed.
Lemma handle_late_quiet header : keeps quiet_service (handle_late_read_reply header).
Proof. unfold handle_late_read_reply, accept_read_reply. quiet_steps. Qed.
Lemma run_active_quiet : keeps quiet_service run_active_operation.
Proof.
  unfold run_active_operation, step_and_prepare, send_and_commit, await_read_reply_or_cancel,
    handle_cancel, accept_read_reply. quiet_steps.
Qed.

(** A turn that shuts down closes the transport last; any other is quiet. *)
Definition closing self self' : Prop :=
  ∃ t, quiet (s_transport self) t ∧ log (s_transport self') = log t ++ [TC_Close].

Lemma handle_shutdown_transport header self :
  wp (handle_shutdown header) (λ flow self', flow = Flow_Shutdown ∧ closing self self')
    (λ _ self', quiet_service self self') self.
Proof.
  unfold handle_shutdown. do 2 wp_step.
  wp_step. apply wp_lift; [intros _ _|quiet_refl].
  wp_step. apply wp_observe_parent; [|quiet_refl].
  intros v _. repeat wp_step. split; [done|]. exists (s_transport self). split; [reflexivity|done].
Qed.

Definition turn_transport self (flow : Flow) self' : Prop :=
  if decide (flow = Flow_Shutdown) then closing self self' else quiet_service self self'.

Lemma wp_quiet {A} (m : M (Service (Logged T TransportCall) D) ServiceFailure A) self :
  keeps quiet_service m →
  wp m (λ _ self', quiet_service self self') (λ _ self', quiet_service self self') self.
Proof. intros Hm. specialize (Hm self). unfold wp. by destruct (m self) as [? [|]]. Qed.

(** Every handler but the shutdown's lets the loop continue. *)
Lemma continues header self :
  message_type header ≠ MT_Shutdown →
  wp (handle_parent_frame header) (λ flow _, flow = Flow_Continue) (λ _ _, True) self.
Proof.
  intros Hk. unfold handle_parent_frame. destruct (message_type header) eqn:E; try done.
  - unfold begin_operation. repeat wp_call; done.
  - unfold begin_operation. repeat wp_call; done.
  - unfold handle_late_read_reply. repeat wp_call; try done. apply wp_run; [|done]. by intros.
  - unfold handle_cancel. repeat wp_call; done.
Qed.

Lemma handle_parent_transport header self :
  wp (handle_parent_frame header) (turn_transport self) (λ _ self', quiet_service self self') self.
Proof.
  destruct (decide (message_type header = MT_Shutdown)) as [Hk|Hk].
  - unfold handle_parent_frame. rewrite Hk.
    eapply wp_mono; [apply handle_shutdown_transport| |done].
    intros flow self' [-> Hc]. exact Hc.
  - assert (keeps quiet_service (handle_parent_frame header)) as Hq.
    { unfold handle_parent_frame. destruct (message_type header); first
        [ done | apply keeps_throw; apply _ | apply begin_operation_quiet | apply handle_late_quiet
        | apply handle_cancel_quiet ]. }
    specialize (Hq self). pose proof (continues header self Hk) as Hc. unfold wp in *.
    by destruct (handle_parent_frame header self) as [self' [flow|e]]; [subst flow|].
Qed.

Lemma run_turn_transport self :
  wp run_turn (turn_transport self) (λ _ self', quiet_service self self') self.
Proof.
  unfold run_turn. do 2 wp_step.
  assert (wp (header ← service_receive; handle_parent_frame header) (turn_transport self)
    (λ _ self', quiet_service self self') self) as Hparent.
  { wp_step. eapply wp_mono; [apply wp_quiet, service_receive_quiet| |done].
    intros h self1 Hq. eapply wp_mono; [apply handle_parent_transport| |].
    - intros flow self' Ht. unfold turn_transport in *. case_decide.
      + destruct Ht as (t & Ht & El). exists t. split; [|done]. by etrans.
      + by etrans.
    - intros e self' Ht. exact (transitivity Hq Ht). }
  destruct (sv_state (s_validator self)); try exact Hparent;
    (wp_step; eapply wp_mono; [apply wp_quiet, run_active_quiet| |done];
     intros u self' Hq; by wp_step).
Qed.

Lemma run_transport fuel self self' outcome :
  run fuel self = Some (self', outcome) →
  match outcome with Ok _ => closing self self' | Err _ => quiet_service self self' end.
Proof.
  revert self. induction fuel as [|fuel IH]; intros self Hr; [done|]. simpl in Hr.
  pose proof (run_turn_transport self) as Ht. unfold wp in Ht.
  destruct (run_turn self) as [self1 [[]|e]].
  - apply IH in Hr. unfold turn_transport in Ht. simpl in Ht. destruct outcome.
    + destruct Hr as (t & Hq & El). exists t. split; [by etrans|done].
    + by etrans.
  - by injection Hr as <- <-.
  - by injection Hr as <- <-.
Qed.

Lemma handshake_quiet limits : keeps quiet_locals (handshake (T:=Logged T TransportCall) limits).
Proof.
  unfold handshake. repeat first [apply receive_frame_quiet | keeps_step].
  intros [t b]. unfold establish, quiet_locals.
  match goal with |- context [greet ?h ?i (t, ?v)] =>
    assert (keeps quiet_locals (greet (T:=Logged T TransportCall) h i)) as Hg;
      [|specialize (Hg (t, v)); destruct (greet h i (t, v)) as [[t' v'] r]; exact Hg] end.
  unfold greet, validator_observe. repeat first [apply send_frame_quiet | apply validator_quiet | keeps_step].
Qed.
End teardown.

(** ** Properties *)

(** C17: On every path of a lifetime the dispatcher sees a legal sequence of
    calls: nothing before [begin], one request at a time, no step while a read
    is outstanding, every answer a complete successful one of exactly the
    length asked for, a stream completed only when it emitted exactly the bytes
    it announced, and every begun request retired by exactly one [end] or one
    [cancel], after which it is never called for that request again. *)
Theorem service_dispatch_discipline `{HeaderImage} {T D} `{Transport T} `{Dispatcher D}
    fuel (transport : T) (dispatch : D) buffers limits transport' dispatch' outcome :
  run_parser_worker_service fuel transport (Log dispatch []) buffers limits =
    Some (transport', dispatch', outcome) →
  dispatch_run (log dispatch') = Some DS_Idle ∨ dispatch_run (log dispatch') = Some DS_Halted.
Proof.
  unfold run_parser_worker_service.
  destruct (_ || _ || _); [intros [= _ <- _]; by left|].
  destruct (handshake limits _) as [[t b] [[[v id] policy]|e]] eqn:Hh; [|intros [= _ <- _]; by left].
  destruct (run fuel _) as [[self' out]|] eqn:Hr; [|done].
  apply handshake_session in Hh as (Hwf & _ & _ & Hs).
  apply run_dispatch in Hr; [|split; [done|]; simpl; by rewrite Hs].
  intros Hf. unfold finish_service in Hf. destruct out as [[]|e].
  - injection Hf as _ <- _. destruct Hr as [[_ Hc] Hcl]. rewrite Hcl in Hc. by destruct Hc.
  - destruct Hr as (st & Hc & Hd). unfold calls in Hc.
    destruct (s_dispatch_active self'); injection Hf as _ <- _; fields.
    + rewrite dispatch_run_snoc, Hc. cbn [mbind option_bind]. rewrite Hd. by right.
    + rewrite Hc. destruct Hd as [-> | ->]; auto.
Qed.

(** A lifetime tears its channel down exactly once and last: a clean
    shutdown ends in one [close_io] and no [abort_io], every other outcome in
    one [abort_io] and no [close_io]; before that there are only reads, writes
    and probes, and none at all when the configuration is refused. *)
Theorem service_transport_teardown `{HeaderImage} {T D} `{Transport T} `{Dispatcher D}
    fuel (transport : T) (dispatch : D) buffers limits transport' dispatch' outcome :
  run_parser_worker_service fuel (Log transport []) dispatch buffers limits =
    Some (transport', dispatch', outcome) →
  ∃ io, Forall is_io io ∧
    log transport' = io ++ [match outcome with Ok _ => TC_Close | Err _ => TC_Abort end] ∧
    ((len (receive_payload_buffer buffers) < MAXIMUM_FRAME_PAYLOAD_BYTES ∨
      len (send_payload_buffer buffers) < MAXIMUM_FRAME_PAYLOAD_BYTES ∨
      limits_is_valid limits = false) → io = []).
Proof.
  unfold run_parser_worker_service.
  destruct (_ || _ || _) eqn:Hc; [intros [= <- _ <-]; by exists []|].
  assert (∀ P : Prop, (len (receive_payload_buffer buffers) < MAXIMUM_FRAME_PAYLOAD_BYTES ∨
      len (send_payload_buffer buffers) < MAXIMUM_FRAME_PAYLOAD_BYTES ∨
      limits_is_valid limits = false) → P) as Hcfg.
  { bool_to_prop. intros P [?|[?|E]]; [lia..|congruence]. }
  clear Hc. pose proof (handshake_quiet limits (Log transport [], receive_payload_buffer buffers)) as Hq.
  destruct (handshake limits _) as [[t b] [[[v id] policy]|e]]; unfold quiet_locals in Hq; simpl in Hq.
  2:{ destruct Hq as (l & El & Hl). intros [= <- _ <-]. exists l. simpl in *. rewrite El.
      split_and!; [done|done|apply Hcfg]. }
  destruct (run fuel _) as [[self' out]|] eqn:Hr; [|done].
  apply run_transport in Hr. intros Hf. unfold finish_service in Hf. destruct out as [[]|e].
  - injection Hf as <- _ <-. destruct Hr as (t1 & Ht & El). simpl in Ht.
    destruct (transitivity Hq Ht) as (l & El' & Hl). exists l. rewrite El, El'.
    split_and!; [done|done|apply Hcfg].
  - destruct (transitivity Hq Hr) as (l & El' & Hl). simpl in El'.
    destruct (s_dispatch_active self'); injection Hf as <- _ <-; fields; simpl;
      exists l; rewrite El'; (split_and!; [done|done|apply Hcfg]).
Qed.
