(* ===== verification/ServiceWire.v ===== *)
(** * The service's conversation

    What a clean lifetime put on and took off the channel, byte for byte: the
    images of a sequence of frames that is a complete legal session. *)

From S2P Require Export ServiceDispatch.

(** ** Conversations *)

(** A frame with its sender. *)
Record Sent : Type := { from : Direction; head : FrameHeader; body : list byte }.

Definition bytes_in (l : list TransportCall) : list byte :=
  concat ((λ c, match c with TC_Read b IO_Ok => b | _ => [] end) <$> l).
Definition bytes_out (l : list TransportCall) : list byte :=
  concat ((λ c, match c with TC_Write b IO_Ok => b | _ => [] end) <$> l).

(** The frames travelling in one direction, as bytes. *)
Definition images (d : Direction) (frames : list Sent) : list byte :=
  concat ((λ f, if decide (from f = d) then frame_image (head f) (body f) else []) <$> frames).

Definition headers (frames : list Sent) : list (Direction * FrameHeader) :=
  (λ f, (from f, head f)) <$> frames.

(** The channel carried [frames] and, still unanswered, [pending]. *)
Record conversation (id : SessionId) (budgets : ProtocolBudgets) (frames : list Sent)
    (pending : list byte) (calls : list TransportCall) (v : SessionValidator) : Prop := {
  conv_run : observe_all (headers frames) (session_new id budgets) = (v, Ok tt);
  conv_in : bytes_in calls = images ParentToWorker frames ++ pending;
  conv_out : bytes_out calls = images WorkerToParent frames;
  conv_len : Forall (λ f, payload_length (head f) = len (body f)) frames
}.

Lemma bytes_in_snoc l c :
  bytes_in (l ++ [c]) = bytes_in l ++ match c with TC_Read b IO_Ok => b | _ => [] end.
Proof. unfold bytes_in. rewrite fmap_app, concat_app. simpl. by rewrite app_nil_r. Qed.
Lemma bytes_out_snoc l c :
  bytes_out (l ++ [c]) = bytes_out l ++ match c with TC_Write b IO_Ok => b | _ => [] end.
Proof. unfold bytes_out. rewrite fmap_app, concat_app. simpl. by rewrite app_nil_r. Qed.
Lemma images_snoc d l f :
  images d (l ++ [f]) = images d l ++ if decide (from f = d) then frame_image (head f) (body f) else [].
Proof. unfold images. rewrite fmap_app, concat_app. simpl. by rewrite app_nil_r. Qed.

Lemma observe_all_snoc l d h v0 v v' :
  observe_all l v0 = (v, Ok tt) → observe d h v = (v', Ok tt) →
  observe_all (l ++ [(d, h)]) v0 = (v', Ok tt).
Proof.
  intros Hl Ho. revert v0 Hl. induction l as [|[d1 h1] l IH]; intros v0 Hl; simpl in *.
  - injection Hl as <-. by rewrite (M_bind_step _ _ _ _ _ Ho).
  - apply M_bind_Ok in Hl as (v1 & [] & H1 & Hl). rewrite (M_bind_step _ _ _ _ _ H1). by apply IH.
Qed.

(** The pending frame is observed. *)
Lemma conversation_received id budgets frames h p calls v v' :
  conversation id budgets frames (frame_image h p) calls v → payload_length h = len p →
  observe ParentToWorker h v = (v', Ok tt) →
  conversation id budgets (frames ++ [{| from := ParentToWorker; head := h; body := p |}]) []
    calls v'.
Proof.
  intros [Hrun Hin Hout Hlen] Hp Ho. split.
  - unfold headers. rewrite fmap_app. by eapply observe_all_snoc.
  - by rewrite images_snoc, app_nil_r.
  - rewrite images_snoc, app_nil_r. done.
  - apply Forall_app. split; [done|]. by constructor.
Qed.

Lemma conversation_sent id budgets frames h p calls calls' v v' :
  conversation id budgets frames [] calls v → payload_length h = len p →
  observe WorkerToParent h v = (v', Ok tt) →
  bytes_in calls' = bytes_in calls → bytes_out calls' = bytes_out calls ++ frame_image h p →
  conversation id budgets (frames ++ [{| from := WorkerToParent; head := h; body := p |}]) []
    calls' v'.
Proof.
  intros [Hrun Hin Hout Hlen] Hp Ho Hi Ho'. split.
  - unfold headers. rewrite fmap_app. by eapply observe_all_snoc.
  - rewrite images_snoc, Hi, Hin. simpl. by rewrite !app_nil_r.
  - by rewrite images_snoc, Ho', Hout.
  - apply Forall_app. split; [done|]. by constructor.
Qed.

Lemma conversation_same_bytes id budgets frames pending calls calls' v :
  conversation id budgets frames pending calls v →
  bytes_in calls' = bytes_in calls → bytes_out calls' = bytes_out calls →
  conversation id budgets frames pending calls' v.
Proof. intros [] Hi Ho. by split; rewrite ?Hi, ?Ho. Qed.

(** ** The service's primitive exchanges *)

Section wire.
Context `{HeaderImageLaws} {T D : Type} `{TransportLaws T} `{Dispatcher D}.
Implicit Types self : Service (Logged T TransportCall) D.

Lemma read_into_logged (t t' : Logged T TransportCall) d d' :
  read_into (t, d) = ((t', d'), Ok tt) →
  length d' = length d ∧ log t' = log t ++ [TC_Read d' IO_Ok].
Proof.
  unfold read_into, io_check. pose proof (read_exact_length d t) as Hl. simpl in *.
  destruct (read_exact d (inner t)) as [t1 [d1 []]]; simpl in *; [|done..].
  by intros [= <- <-].
Qed.

(** What [receive_frame] took off the channel. *)
Lemma receive_frame_logged id (t t' : Logged T TransportCall) b b' h :
  receive_frame id (t, b) = ((t', b'), Ok h) →
  let p := take (N.to_nat (payload_length h)) b' in
  header_typed h ∧ payload_length h = len p ∧
  bytes_in (log t') = bytes_in (log t) ++ frame_image h p ∧
  bytes_out (log t') = bytes_out (log t).
Proof.
  unfold receive_frame. destruct (read_into (t, zero_header)) as [[t1 hb] [[]|e]] eqn:Hr; [|done].
  apply read_into_logged in Hr as [Hl El].
  destruct (decode_frame_header hb) as [h'|e] eqn:Hd; [|done]. cbn [map_err].
  apply decode_frame_header_Ok in Hd as (Ht & Hok & Hhb); [|by rewrite Hl].
  destruct (_ && _); [done|]. case_cmp; [|done]. cbv zeta.
  set (p := take (N.to_nat (payload_length h')) b).
  assert (len p = payload_length h') as Hp by (by apply len_take_le).
  destruct (N.eqb_spec (len p) 0) as [Hz|Hz].
  - intros [= -> <- <-]. fold p. split_and!; [done|done| |].
    + rewrite El, bytes_in_snoc, Hhb. unfold frame_image. apply len_0_nil in Hz.
      by rewrite Hz, app_nil_r.
    + by rewrite El, bytes_out_snoc, app_nil_r.
  - destruct (read_into (t1, p)) as [[t2 p2] [[]|e]] eqn:Hr2; [|done].
    apply read_into_logged in Hr2 as [Hl2 El2]. intros [= -> <- <-].
    assert (take (N.to_nat (payload_length h')) (p2 ++ drop (N.to_nat (payload_length h')) b) = p2)
      as ->.
    { apply take_app_length'. rewrite Hl2. unfold len in Hp. lia. }
    split_and!; [done|unfold len in *; lia| |].
    + rewrite El2, bytes_in_snoc, El, bytes_in_snoc, Hhb, <-app_assoc. done.
    + by rewrite El2, bytes_out_snoc, El, bytes_out_snoc, !app_nil_r.
Qed.

Lemma write_all_logged (t t' : Logged T TransportCall) bytes :
  write_all bytes t = (t', IO_Ok) → log t' = log t ++ [TC_Write bytes IO_Ok].
Proof. simpl. destruct (write_all bytes (inner t)) as [? []]; by intros [= <-]. Qed.

(** What [send_frame] put on the channel. *)
Lemma sent_bytes (t t' : Logged T TransportCall) h p hb :
  header_typed h → header_encode h zero_header = (hb, Ok tt) →
  (if len p =? 0 then write_all hb t = (t', IO_Ok)
   else ∃ t1, write_all hb t = (t1, IO_Ok) ∧ write_all p t1 = (t', IO_Ok)) →
  bytes_in (log t') = bytes_in (log t) ∧
  bytes_out (log t') = bytes_out (log t) ++ frame_image h p.
Proof.
  intros Ht He Hw. rewrite header_encode_run in He by done.
  destruct (header_validate h); [|done]. injection He as <-. unfold frame_image.
  destruct (N.eqb_spec (len p) 0) as [Hz|Hz].
  - apply len_0_nil in Hz as ->. apply write_all_logged in Hw.
    by rewrite Hw, bytes_in_snoc, bytes_out_snoc, !app_nil_r.
  - destruct Hw as (t1 & Hw1 & Hw2). apply write_all_logged in Hw1, Hw2.
    rewrite Hw2, Hw1, !bytes_in_snoc, !bytes_out_snoc, !app_nil_r, <-app_assoc. done.
Qed.

(** ** The loop's invariant *)

Definition ids_typed self : Prop :=
  fits 64 (s_session_id self) ∧ fits 64 (s_active_request_id self).

(** The conversation so far; [pending] is the frame being handled. *)
Definition wire (pending : list byte) self : Prop :=
  ids_typed self ∧ ∃ frames,
    conversation (s_session_id self) (protocol_budgets (s_limits self)) frames pending
      (log (s_transport self)) (s_validator self).

(** A frame of the parent waits in the receive buffer. *)
Definition holds (h : FrameHeader) self : Prop :=
  let p := take (N.to_nat (payload_length h)) (s_receive_payload self) in
  fits 64 (request_id h) ∧ payload_length h = len p ∧ wire (frame_image h p) self.

Lemma wire_receive self :
  wire [] self → wp service_receive (λ h, holds h) (λ _ _, True) self.
Proof.
  intros (Hids & frames & Hc). apply wp_receive; [|done]. intros t b h Hr.
  apply receive_frame_logged in Hr as ((_&_&_&_&_&?) & Hp & Hi & Ho).
  split_and!; [done|done|]. split; [done|]. exists frames. fields.
  destruct Hc as [Hrun Hin Hout Hlen]. split; [done| |by rewrite Ho|done].
  rewrite Hi, Hin. by rewrite app_nil_r.
Qed.

Lemma wire_observed h self v :
  holds h self → observe ParentToWorker h (s_validator self) = (v, Ok tt) →
  wire [] (put_validator v self).
Proof.
  intros (_ & Hp & Hids & frames & Hc) Ho. split; [done|]. eexists.
  by eapply conversation_received.
Qed.

Lemma wire_sent h p self t v hb :
  wire [] self → header_typed h → len p = payload_length h →
  observe WorkerToParent h (s_validator self) = (v, Ok tt) →
  header_encode h zero_header = (hb, Ok tt) →
  (if len p =? 0 then write_all hb (s_transport self) = (t, IO_Ok)
   else ∃ t1, write_all hb (s_transport self) = (t1, IO_Ok) ∧ write_all p t1 = (t, IO_Ok)) →
  wire [] (put_transport t (put_validator v self)).
Proof.
  intros (Hids & frames & Hc) Ht Hp Ho He Hw. destruct (sent_bytes _ _ _ _ _ Ht He Hw) as [Hi Hout].
  split; [done|]. eexists. by eapply conversation_sent.
Qed.

(** Changing a field the conversation does not depend on. *)
Ltac same_wire :=
  match goal with Hw : wire ?p ?s |- wire ?p _ => exact Hw end.

Lemma begin_operation_wire header op self :
  holds header self → wp (begin_operation header op) (λ _, wire []) (λ _ _, True) self.
Proof.
  intros Hh. unfold begin_operation. do 2 wp_step. wp_step. apply wp_lift_ok. intros token _.
  wp_step. apply wp_observe_parent; [|done]. intros v Ho.
  pose proof (wire_observed _ _ _ Hh Ho) as Hw.
  wp_step. apply wp_call_dispatch; [|done]. intros d size _.
  match goal with |- context [negb ?c] => destruct c end; cbn [negb]; repeat wp_step; [|done].
  destruct Hw as ((?&?) & frames & Hc). split; [|by exists frames].
  split; fields; [done|]. by destruct Hh.
Qed.

Lemma accept_read_reply_wire header discard self :
  holds header self → wp (accept_read_reply header discard) (λ _, wire []) (λ _ _, True) self.
Proof.
  intros Hh. unfold accept_read_reply. do 2 wp_step. wp_step. apply wp_lift_ok. intros _ _.
  wp_step. apply wp_lift_ok. intros reply _.
  wp_step. apply wp_observe_parent; [|done]. intros v Ho.
  pose proof (wire_observed _ _ _ Hh Ho) as Hw. repeat wp_step.
  destruct discard; [by wp_step; same_wire|].
  destruct (decide _); [done|]. apply wp_call_dispatch; [|done]. intros d [] _. same_wire.
Qed.

Lemma handle_cancel_wire header self :
  holds header self → wp (handle_cancel header) (λ _, wire []) (λ _ _, True) self.
Proof.
  intros Hh. unfold handle_cancel. do 2 wp_step. wp_step. apply wp_lift_ok. intros _ _.
  wp_step. apply wp_observe_parent; [|done]. intros v Ho.
  pose proof (wire_observed _ _ _ Hh Ho) as Hw. cbv zeta.
  destruct (decide _); [by wp_step|]. destruct (negb _); [done|]. repeat wp_step.
  apply wp_service_send; [|done]. fields. intros t v' hb _ Hack He Hwr. repeat wp_step.
  set (self1 := put_late_read_reply _ _) in *.
  assert (wire [] self1) as Hw1 by exact Hw.
  assert (header_typed (frame_header_new MT_CancelAck (s_session_id self) (request_id header) 0))
    as Hta.
  { apply frame_header_new_typed; [|by destruct Hh|done]. by destruct Hw as ((?&_)&_). }
  pose proof (wire_sent _ [] self1 t v' hb Hw1 Hta eq_refl Hack He Hwr) as ((?&_) & frames & Hc).
  split; [by split|]. by exists frames.
Qed.

Lemma handle_parent_frame_wire header self :
  holds header self → wp (handle_parent_frame header) (λ _, wire []) (λ _ _, True) self.
Proof.
  intros Hh. unfold handle_parent_frame. destruct (message_type header); try done.
  - by apply begin_operation_wire.
  - by apply begin_operation_wire.
  - unfold handle_late_read_reply. do 2 wp_step. wp_step. apply wp_lift_ok. intros _ _.
    wp_step. eapply wp_mono; [by apply accept_read_reply_wire|by intros; wp_step|done].
  - by apply handle_cancel_wire.
  - unfold handle_shutdown. do 2 wp_step. wp_step. apply wp_lift_ok. intros _ _.
    wp_step. apply wp_observe_parent; [|done]. intros v Ho.
    pose proof (wire_observed _ _ _ Hh Ho) as (Hids & frames & Hc). repeat wp_step.
    split; [done|]. exists frames. fields. eapply conversation_same_bytes; [exact Hc|..]; simpl.
    + by rewrite bytes_in_snoc, app_nil_r.
    + by rewrite bytes_out_snoc, app_nil_r.
Qed.

Lemma await_wire self :
  wire [] self → wp await_read_reply_or_cancel (λ _, wire []) (λ _ _, True) self.
Proof.
  intros Hw. unfold await_read_reply_or_cancel. wp_step.
  eapply wp_mono; [by apply wire_receive| |done]. intros h self1 Hh.
  destruct (message_type h); try done.
  - by apply accept_read_reply_wire.
  - wp_step. eapply wp_mono; [by apply handle_cancel_wire|by intros; wp_step|done].
Qed.

Lemma send_and_commit_wire p self :
  wire [] self → header_typed (pf_header p) →
  wp (send_and_commit p) (λ _, wire []) (λ _ _, True) self.
Proof.
  intros Hw Ht. unfold send_and_commit.
  destruct (pf_commit p); repeat wp_step; (apply wp_service_send; [|done]);
    intros t v hb Hlen Ho He Hwr; fields.
  - eapply wire_sent in Hwr; [|exact Hw|done..]. apply await_wire.
    destruct Hwr as (? & frames & Hc). split; [done|]. by exists frames.
  - eapply wire_sent in Hwr; [|exact Hw|done..]. repeat wp_step. same_wire.
  - eapply wire_sent in Hwr; [|exact Hw|done..]. repeat wp_step. same_wire.
  - eapply wire_sent in Hwr; [|exact Hw|done..]. repeat wp_step.
    destruct Hwr as ((?&_) & frames & Hc). split; [by split|]. by exists frames.
Qed.

Lemma prepared_typed ty context n commit p :
  fits 64 (fc_session_id context) → fits 64 (fc_request_id context) →
  prepared_frame_new ty context n commit = Ok p → header_typed (pf_header p).
Proof.
  intros ?? Hp. unfold prepared_frame_new in Hp. apply bind_Ok in Hp as (k & Hk & [= <-]).
  apply ok_or_Ok, try_from_Some in Hk as [? ->]. unfold header_typed. simpl.
  by split_and!.
Qed.

Lemma run_active_wire self :
  wire [] self → wp run_active_operation (λ _, wire []) (λ _ _, True) self.
Proof.
  intros Hw. unfold run_active_operation. wp_step. apply wp_probe. intros t st Hst.
  assert (wire [] (put_transport t self)) as Hw1.
  { destruct Hw as (Hids & frames & Hc). split; [done|]. exists frames. fields.
    simpl in Hst. destruct (probe_input (inner (s_transport self))) as [t1 st1].
    injection Hst as <- <-. eapply conversation_same_bytes; [exact Hc|..]; simpl.
    - by rewrite bytes_in_snoc, app_nil_r.
    - by rewrite bytes_out_snoc, app_nil_r. }
  destruct st; [| |done..].
  - do 2 wp_step. destruct (_ <=? _); [done|]. do 3 wp_step.
    apply wp_step_and_prepare; [|done..]. fields. intros d action p b _ Hp.
    apply send_and_commit_wire; [same_wire|].
    destruct Hw as ((?&?)&_). destruct action;
      unfold prepare_read_request, prepare_entry_batch, prepare_data_chunk, prepare_complete in Hp;
      cbv zeta in Hp; inv_run;
      match goal with Hf : prepared_frame_new _ _ _ _ = Ok _ |- _ =>
        refine (prepared_typed _ _ _ _ _ _ _ Hf); done end.
  - wp_step. eapply wp_mono; [by apply wire_receive| |done]. intros h self1 Hh. simpl.
    destruct (decide _); [done|]. wp_step.
    eapply wp_mono; [by apply handle_cancel_wire|by intros; wp_step|done].
Qed.

Lemma run_turn_wire self : wire [] self → wp run_turn (λ _, wire []) (λ _ _, True) self.
Proof.
  intros Hw. unfold run_turn. do 2 wp_step.
  assert (wp (header ← service_receive; handle_parent_frame header) (λ _, wire [])
    (λ _ _, True) self) as Hparent.
  { wp_step. eapply wp_mono; [by apply wire_receive| |done]. intros h self1 Hh.
    by apply handle_parent_frame_wire. }
  destruct (sv_state (s_validator self)); try exact Hparent;
    (wp_step; eapply wp_mono; [by apply run_active_wire|by intros; wp_step|done]).
Qed.

Lemma run_wire fuel self self' :
  run_inv self → wire [] self → run fuel self = Some (self', Ok tt) →
  wire [] self' ∧ session_wf (s_validator self') ∧ sv_state (s_validator self') = Closed.
Proof.
  revert self. induction fuel as [|fuel IH]; intros self Hinv Hw Hr; [done|]. simpl in Hr.
  pose proof (run_turn_wire self Hw) as Ht. pose proof (run_turn_flow self (proj1 Hinv)) as Hf.
  pose proof (run_turn_progress self Hinv) as Hp. unfold wp in *.
  destruct (run_turn self) as [self1 [[]|e]]; [|injection Hr as <-|done].
  - destruct Hp as [Hp _]. by eapply IH.
  - destruct Hp as [[Hp _] _]. auto.
Qed.
End wire.

(** *** The handshake *)

Section handshake.
Context `{HeaderImageLaws} {T D : Type} `{TransportLaws T} `{Dispatcher D}.

Lemma handshake_wire limits (transport : T) b t' b' v id policy :
  handshake limits (Log transport [], b) = ((t', b'), Ok (v, id, policy)) →
  fits 64 id ∧ ∃ frames, conversation id (protocol_budgets limits) frames [] (log t') v.
Proof.
  intros Hh. unfold handshake in Hh.
  apply M_bind_Ok in Hh as ([t1 b1] & h & Hr%map_errM_Ok & Hh).
  apply receive_frame_logged in Hr as (Ht & Hp & Hi & Ho).
  erewrite M_bind_step in Hh; [|reflexivity]. cbn [snd] in Hh.
  apply M_bind_Ok in Hh as ([t2 b2] & hello & Hd & Hh). unfold lift in Hd. injection Hd as -> -> Hd.
  apply M_bind_Ok in Hh as ([t3 b3] & id1 & Hid & Hh). unfold lift in Hid. injection Hid as -> -> Hid.
  apply M_bind_Ok in Hh as ([t4 b4] & pol & Hpol & Hh). unfold lift in Hpol. injection Hpol as -> -> Hpol.
  apply ok_or_Ok in Hid. unfold session_id_new in Hid. destruct (N.eqb_spec (session_id h) 0); [done|].
  injection Hid as <-. unfold establish in Hh.
  destruct (greet h (session_id h) (t4, session_new (session_id h) (protocol_budgets limits)))
    as [[t5 v5] [[]|e]] eqn:Hg; [|done].
  injection Hh as -> -> -> <- <-.
  pose proof Ht as (_&_&_&_&Hs&_). split; [done|].
  apply M_bind_Ok in Hg as ([t6 v6] & [] & Hob & Hsend).
  unfold zoom, validator_observe in Hob. cbn [snd fst] in Hob.
  destruct (map_errM failure_protocol (observe ParentToWorker h) _) as [v7 [[]|e]] eqn:Ho1; [|done].
  injection Hob as <- <-. apply map_errM_Ok in Ho1.
  assert (conversation (session_id h) (protocol_budgets limits) []
    (frame_image h (take (N.to_nat (payload_length h)) b')) (log t4)
    (session_new (session_id h) (protocol_budgets limits))) as Hc.
  { split; [done|by rewrite Hi|by rewrite Ho|constructor]. }
  apply (conversation_received _ _ _ _ _ _ _ _ Hc Hp) in Ho1 as Hc1.
  exists (([] ++ [{| from := ParentToWorker; head := h;
                     body := take (N.to_nat (payload_length h)) b' |}]) ++
    [{| from := WorkerToParent; head := frame_header_new MT_Ready (session_id h) 0 0; body := [] |}]).
  enough (wp (send_frame (frame_header_new MT_Ready (session_id h) 0 0) [])
    (λ _ s', conversation (session_id h) (protocol_budgets limits)
      (([] ++ [{| from := ParentToWorker; head := h;
                  body := take (N.to_nat (payload_length h)) b' |}]) ++
       [{| from := WorkerToParent; head := frame_header_new MT_Ready (session_id h) 0 0;
           body := [] |}]) [] (log s'.1) s'.2)
    (λ _ _, True) (t4, v7)) as Hw by (unfold wp in Hw; by rewrite Hsend in Hw).
  apply wp_send_frame; try done. intros v' hb tn Hlen Hob He Hw. cbn [fst snd].
  assert (header_typed (frame_header_new MT_Ready (session_id h) 0 0)) as Htr
    by (by apply frame_header_new_typed).
  destruct (sent_bytes t4 tn _ [] hb Htr He Hw) as [Hi1 Ho2].
  refine (conversation_sent _ _ _ (frame_header_new MT_Ready (session_id h) 0 0) [] _ _ _ _
    Hc1 _ Hob Hi1 Ho2). done.
Qed.
End handshake.

(** ** Property *)

(** C1: A lifetime that ends in a clean shutdown carried, byte for byte, a
    complete legal session: the bytes read and the bytes written are exactly
    the frame images of a sequence of frames, each of the length its header
    declares, that the session automaton runs from the handshake to the closed
    phase under the negotiated id and the configured budgets. *)
Theorem service_conversation `{HeaderImageLaws} {T D} `{TransportLaws T} `{Dispatcher D}
    fuel (transport : T) (dispatch : D) buffers limits transport' dispatch' summary :
  run_parser_worker_service fuel (Log transport []) dispatch buffers limits =
    Some (transport', dispatch', Ok summary) →
  ∃ frames s,
    bytes_in (log transport') = images ParentToWorker frames ∧
    bytes_out (log transport') = images WorkerToParent frames ∧
    Forall (λ f, payload_length (head f) = len (body f)) frames ∧
    abstract_run (summary_session_id summary) (protocol_budgets limits) abstract_init
      (headers frames) s ∧ ab_phase s = PhClosed.
Proof.
  unfold run_parser_worker_service. destruct (_ || _ || _) eqn:Hcfg; [done|].
  destruct (handshake limits _) as [[t b] [[[v id] policy]|e]] eqn:Hh; [|done].
  destruct (run fuel _) as [[self' out]|] eqn:Hr; [|done].
  intros Hf. destruct out as [[]|e]; [|by destruct (s_dispatch_active self')].
  unfold finish_service in Hf. injection Hf as <- <- <-.
  pose proof (handshake_session _ _ _ _ _ _ _ _ Hh) as (Hwf & Hb & _ & _).
  apply handshake_wire in Hh as (Hid & frames & Hc).
  pose proof (run_keeps_id _ _ _ _ Hr) as [Hi Hl]. simpl in Hi, Hl.
  apply run_wire in Hr as ((_ & frames' & [Hrun Hin Hout Hlen]) & Hwf' & Hcl).
  2:{ split; [done|]. simpl. lia. }
  2:{ split; [by split|]. exists frames. exact Hc. }
  rewrite app_nil_r in Hin. exists frames', (abs (s_validator self')). rewrite Hi, Hl in Hrun.
  split_and!; [done|done|done| |].
  - apply session_run in Hrun as [Hrun _]. simpl. by rewrite Hi.
  - simpl. unfold phase_of. by rewrite Hcl.
Qed.
