(* ===== verification/ServiceSample.v ===== *)
(** * A sample lifetime

    One complete stream over a scripted channel and dispatcher, evaluated, and
    the service's theorems applied to it. *)

From S2P Require Export ServiceWire.

(** ** A scripted channel: the bytes still to be delivered *)

#[export] Instance script_transport : Transport (list byte) := {
  read_exact d t :=
    if len d <=? len t then (drop (length d) t, (take (length d) t, IO_Ok))
    else ([], (d, IO_PeerClosed));
  write_all _ t := (t, IO_Ok);
  probe_input t := (t, IN_Unavailable);
  abort_io t := t;
  close_io t := t
}.

#[export] Instance script_transport_laws : TransportLaws (list byte).
Proof.
  split. intros d t. simpl. case_cmp; [|done]. simpl. rewrite length_take. unfold len in *. lia.
Qed.

(** ** A scripted dispatcher: the actions still to be taken *)

#[export] Instance script_dispatcher : Dispatcher (list DispatchAction) := {
  begin _ _ _ d := (d, Ok 2);
  step d := match d with [] => ([], Err DE_Failed) | a :: d => (d, Ok a) end;
  dispatch_read_reply _ d := (d, Ok tt);
  cancel d := d;
  end_ d := d
}.

(** ** The lifetime *)

Definition frame_of (ty : MessageType) (request : N) (payload : list byte) : list byte :=
  frame_image (frame_header_new ty 7 request (len payload)) payload.

Definition sample_input : list byte :=
  frame_of MT_Hello 0 (le_bytes 8 100 ++ le_bytes 4 10) ++
  frame_of MT_StreamEntry 1 (le_bytes 8 5) ++
  frame_of MT_ReadReply 1 (le_bytes 4 1 ++ le_bytes 2 0 ++ [x01; x02; x03]) ++
  frame_of MT_Shutdown 0 [].

Definition sample_actions : list DispatchAction :=
  [DA_NeedRead 4 3; DA_DataChunk [xaa; xbb]; DA_Complete].

Definition sample_limits : ServiceLimits :=
  {| protocol_budgets := {| maximum_messages := 10; maximum_payload_bytes := 1000 |};
     maximum_dispatch_steps := 5 |}.

(** Buffers of the required size. *)
Definition sample_buffer : list byte := replicate (N.to_nat MAXIMUM_FRAME_PAYLOAD_BYTES) x00.

Definition sample_buffers : ServiceBuffers :=
  {| receive_payload_buffer := sample_buffer; send_payload_buffer := sample_buffer |}.

Definition sample_summary : ServiceSummary :=
  {| summary_session_id := 7; summary_dispatch_steps := 3 |}.

(** The lifetime is clean: the summary counts the three dispatcher steps. *)
Definition outcome_of {T D R} (o : option (T * D * R)) : option R := snd <$> o.

Lemma sample_result :
  outcome_of (run_parser_worker_service (H:=packed_image) 8 (Log sample_input [])
    (Log sample_actions []) sample_buffers sample_limits) = Some (Ok sample_summary).
Proof. vm_compute. reflexivity. Qed.

Definition sample_ends (t : Logged (list byte) TransportCall)
    (d : Logged (list DispatchAction) DispatchCall) : Prop :=
  run_parser_worker_service (H:=packed_image) 8 (Log sample_input []) (Log sample_actions [])
    sample_buffers sample_limits = Some (t, d, Ok sample_summary).

Lemma sample_runs : ∃ t d, sample_ends t d.
Proof.
  pose proof sample_result as R. unfold sample_ends.
  destruct (run_parser_worker_service _ _ _ _ _) as [[[t d] r]|]; simpl in R; [|congruence].
  injection R as ->. by exists t, d.
Qed.

(** What the dispatcher was asked, in order. *)
Example sample_calls :
  (λ o, log o.1.2) <$> run_parser_worker_service (H:=packed_image) 8 (Log sample_input [])
    (Log sample_actions []) sample_buffers sample_limits = Some
    [ DC_Begin Op_Stream 5 (Ok 2); DC_Step (Ok (DA_NeedRead 4 3));
      DC_Reply {| rp_read_sequence := 1; rp_status := PS_Ok; rp_data := [x01; x02; x03] |} (Ok tt);
      DC_Step (Ok (DA_DataChunk [xaa; xbb])); DC_Step (Ok DA_Complete); DC_End ].
Proof. vm_compute. reflexivity. Qed.

(** ** Witnesses *)

Lemma service_terminates_witness :
  ∃ outcome, run_parser_worker_service (H:=packed_image) 100 sample_input sample_actions
    sample_buffers sample_limits = Some outcome.
Proof.
  destruct (service_terminates (H:=packed_image) sample_input sample_actions
    sample_buffers sample_limits) as [out Hout].
  exists out. apply Hout. vm_compute. lia.
Defined.

Lemma service_dispatch_discipline_witness :
  ∃ t d, sample_ends t d ∧
    (dispatch_run (log d) = Some DS_Idle ∨ dispatch_run (log d) = Some DS_Halted).
Proof.
  destruct sample_runs as (t & d & E). exists t, d. split; [exact E|].
  exact (service_dispatch_discipline (H:=packed_image) _ _ _ _ _ _ _ _ E).
Defined.

Lemma service_transport_teardown_witness :
  ∃ t d, sample_ends t d ∧ ∃ io, Forall is_io io ∧ log t = io ++ [TC_Close].
Proof.
  destruct sample_runs as (t & d & E). exists t, d. split; [exact E|].
  destruct (service_transport_teardown (H:=packed_image) _ _ _ _ _ _ _ _ E) as (io & Hio & El & _).
  exists io. split; [exact Hio|exact El].
Defined.

Lemma service_conversation_witness :
  ∃ t d, sample_ends t d ∧ ∃ frames, bytes_in (log t) = images ParentToWorker frames.
Proof.
  destruct sample_runs as (t & d & E). exists t, d. split; [exact E|].
  destruct (service_conversation (H:=packed_image) _ _ _ _ _ _ _ _ E) as (frames & s & Hi & _).
  exists frames. exact Hi.
Defined.
