(* ===== verification/SaveBytes.v ===== *)
(** * Save files: cursors, header and table rows

    [crates/ohl-save/src/{error,limits,bytes,header,table}.rs]. A [String] is
    the list of its UTF-8 bytes; the decoders establish that it is one. *)

From S2P Require Export Core.

(** ** [SaveError] *)

Inductive SaveError : Type :=
| SvBadMagic | SvUnsupportedMajorVersion | SvTruncated | SvLimitExceeded | SvHeaderInvalid
| SvTableInvalid | SvSectionDigestMismatch | SvTrailerMismatch | SvDuplicateTag | SvReservedTag
| SvSectionNotFound | SvCodec | SvInvalidSlotName | SvSlotNotFound | SvIo.

#[export] Instance SaveError_eq_dec : EqDecision SaveError.
Proof. solve_decision. Defined.

(** [impl From<SanitizedError> for SaveError]. *)
Definition save_error_of_sanitized (_ : SanitizedError) : SaveError := SvLimitExceeded.

(** ** [Limits] *)

Record Limits : Type := {
  max_sections : N;
  max_section_bytes : N;
  max_file_bytes : N
}.

Definition limits_default : Limits :=
  {| max_sections := 256;
     max_section_bytes := 64 * 1024 * 1024;
     max_file_bytes := 256 * 1024 * 1024 |}.

(** The widths of the fields. *)
Definition limits_typed (l : Limits) : Prop :=
  fits 32 (max_sections l) ∧ fits 64 (max_section_bytes l) ∧ fits 64 (max_file_bytes l).

(** ** UTF-8, what [String::from_utf8] accepts *)

Definition in_range (lo hi : N) (b : byte) : bool :=
  (lo <=? Byte.to_N b) && (Byte.to_N b <=? hi).
Definition continuation : byte → bool := in_range 0x80 0xbf.

(** Table 3-7 of the Unicode standard, which [core::str] implements. *)
Fixpoint utf8_valid (l : list byte) : bool :=
  match l with
  | [] => true
  | a :: l =>
      if Byte.to_N a <? 0x80 then utf8_valid l
      else match l with
      | [] => false
      | b :: l =>
          if in_range 0xc2 0xdf a then continuation b && utf8_valid l
          else match l with
          | [] => false
          | c :: l =>
              if in_range 0xe0 0xef a then
                in_range (if Byte.to_N a =? 0xe0 then 0xa0 else 0x80)
                  (if Byte.to_N a =? 0xed then 0x9f else 0xbf) b
                && continuation c && utf8_valid l
              else match l with
              | [] => false
              | d :: l =>
                  in_range 0xf0 0xf4 a &&
                  in_range (if Byte.to_N a =? 0xf0 then 0x90 else 0x80)
                    (if Byte.to_N a =? 0xf4 then 0x8f else 0xbf) b
                  && continuation c && continuation d && utf8_valid l
              end
          end
      end
  end.

(** ** [Reader] *)

Record Reader : Type := { rd_bytes : list byte; rd_position : N }.

Definition rd_new (bytes : list byte) : Reader := {| rd_bytes := bytes; rd_position := 0 |}.

Definition rd_set_position (p : N) (r : Reader) : Reader :=
  {| rd_bytes := rd_bytes r; rd_position := p |}.

Definition rd_take (count : N) : M Reader SaveError (list byte) :=
  self ← get;
  stop ← lift (ok_or (checked_add 64 (rd_position self) count) SvTruncated);
  slice ← lift (ok_or (get_range (rd_position self) stop (rd_bytes self)) SvTruncated);
  modify (rd_set_position stop);;
  mret slice.

Definition rd_u16 : M Reader SaveError N := bytes ← rd_take 2; mret (of_le_bytes bytes).
Definition rd_u32 : M Reader SaveError N := bytes ← rd_take 4; mret (of_le_bytes bytes).
Definition rd_u64 : M Reader SaveError N := bytes ← rd_take 8; mret (of_le_bytes bytes).
Definition rd_array32 : M Reader SaveError (list byte) := rd_take 32.

Definition rd_bounded_string (max_len : N) : M Reader SaveError (list byte) :=
  length ← rd_u16;
  lift (guard_err (max_len <? length) SvHeaderInvalid);;
  bytes ← rd_take length;
  lift (guard_err (negb (utf8_valid bytes)) SvHeaderInvalid);;
  mret bytes.

Definition rd_bounded_bytes (max_len : N) : M Reader SaveError (list byte) :=
  value ← rd_u32;
  length ← lift (ok_or (try_from 64 value) SvHeaderInvalid);
  lift (guard_err (max_len <? length) SvHeaderInvalid);;
  rd_take length.

(** ** [Writer] *)

Record Writer : Type := { wr_bytes : list byte }.

Definition wr_new : Writer := {| wr_bytes := [] |}.
Definition wr_len (w : Writer) : N := len (wr_bytes w).
Definition wr_into_bytes (w : Writer) : list byte := wr_bytes w.
Definition wr_raw (bytes : list byte) (w : Writer) : Writer :=
  {| wr_bytes := wr_bytes w ++ bytes |}.
Definition wr_u16 (value : N) (w : Writer) : Writer :=
  {| wr_bytes := wr_bytes w ++ le_bytes 2 value |}.
Definition wr_u32 (value : N) (w : Writer) : Writer :=
  {| wr_bytes := wr_bytes w ++ le_bytes 4 value |}.
Definition wr_u64 (value : N) (w : Writer) : Writer :=
  {| wr_bytes := wr_bytes w ++ le_bytes 8 value |}.
Definition wr_array32 (value : list byte) (w : Writer) : Writer :=
  {| wr_bytes := wr_bytes w ++ value |}.

Definition wr_bounded_string (value : list byte) : M Writer SaveError unit :=
  length ← lift (ok_or (try_from 16 (len value)) SvHeaderInvalid);
  modify (wr_u16 length);;
  modify (wr_raw value).

Definition wr_bounded_bytes (value : list byte) : M Writer SaveError unit :=
  length ← lift (ok_or (try_from 32 (len value)) SvHeaderInvalid);
  modify (wr_u32 length);;
  modify (wr_raw value).

(** ** [Header] *)

Definition MAX_GAME_VERSION_LEN : N := 64.
Definition MAX_MAP_IDENTITY_LEN : N := 128.
Definition MAX_TITLE_LEN : N := 128.
Definition MAX_THUMBNAIL_LEN : N := 65536.

Record Header : Type := {
  game_version : list byte;
  created_at_unix_secs : N;
  map_identity : list byte;
  title : list byte;
  thumbnail : list byte
}.

Definition save_header_validate (self : Header) : result SaveError unit :=
  guard_err ((MAX_GAME_VERSION_LEN <? len (game_version self)) ||
             (MAX_MAP_IDENTITY_LEN <? len (map_identity self)) ||
             (MAX_TITLE_LEN <? len (title self)) ||
             (MAX_THUMBNAIL_LEN <? len (thumbnail self))) SvHeaderInvalid.

Definition save_header_encode (self : Header) : M Writer SaveError unit :=
  lift (save_header_validate self);;
  wr_bounded_string (game_version self);;
  modify (wr_u64 (created_at_unix_secs self));;
  wr_bounded_string (map_identity self);;
  wr_bounded_string (title self);;
  wr_bounded_bytes (thumbnail self).

Definition save_header_decode : M Reader SaveError Header :=
  version ← rd_bounded_string MAX_GAME_VERSION_LEN;
  created ← rd_u64;
  identity ← rd_bounded_string MAX_MAP_IDENTITY_LEN;
  name ← rd_bounded_string MAX_TITLE_LEN;
  image ← rd_bounded_bytes MAX_THUMBNAIL_LEN;
  mret {| game_version := version; created_at_unix_secs := created; map_identity := identity;
          title := name; thumbnail := image |}.

(** ** [SectionEntry] *)

Definition ENTRY_LEN : N := 4 + 8 + 8 + 32.

Record SectionEntry : Type := {
  se_tag : N;
  se_offset : N;
  se_length : N;
  se_sha256 : list byte
}.

Definition entry_encode (self : SectionEntry) (w : Writer) : Writer :=
  wr_array32 (se_sha256 self) (wr_u64 (se_length self) (wr_u64 (se_offset self)
    (wr_u32 (se_tag self) w))).

Definition entry_decode : M Reader SaveError SectionEntry :=
  tag ← rd_u32;
  offset ← rd_u64;
  length ← rd_u64;
  sha256 ← rd_array32;
  mret {| se_tag := tag; se_offset := offset; se_length := length; se_sha256 := sha256 |}.

(** ** Images

    What the writers append and the readers accept. *)

Definition string_image (s : list byte) : list byte := le_bytes 2 (len s) ++ s.
Definition blob_image (s : list byte) : list byte := le_bytes 4 (len s) ++ s.

Definition header_image (h : Header) : list byte :=
  string_image (game_version h) ++ le_bytes 8 (created_at_unix_secs h) ++
  string_image (map_identity h) ++ string_image (title h) ++ blob_image (thumbnail h).

Definition entry_image (e : SectionEntry) : list byte :=
  le_bytes 4 (se_tag e) ++ le_bytes 8 (se_offset e) ++ le_bytes 8 (se_length e) ++ se_sha256 e.

(** A header the type allows: its strings are UTF-8, its time is a [u64]. *)
Definition header_typed (h : Header) : Prop :=
  utf8_valid (game_version h) = true ∧ utf8_valid (map_identity h) = true ∧
  utf8_valid (title h) = true ∧ fits 64 (created_at_unix_secs h).

(** [Header::validate] accepts. *)
Definition header_bounded (h : Header) : Prop :=
  len (game_version h) ≤ MAX_GAME_VERSION_LEN ∧ len (map_identity h) ≤ MAX_MAP_IDENTITY_LEN ∧
  len (title h) ≤ MAX_TITLE_LEN ∧ len (thumbnail h) ≤ MAX_THUMBNAIL_LEN.

Definition entry_typed (e : SectionEntry) : Prop :=
  fits 32 (se_tag e) ∧ fits 64 (se_offset e) ∧ fits 64 (se_length e) ∧ len (se_sha256 e) = 32.

(** ** Parsing an image

    [rd_at pre rest] has consumed [pre] and sees [rest]. [parses p img P]: the
    method accepts exactly the inputs that start with the image of a value in
    [P], yields that value and consumes that image. *)

Definition rd_at (pre rest : list byte) : Reader :=
  {| rd_bytes := pre ++ rest; rd_position := len pre |}.

Definition parses {A} (p : M Reader SaveError A) (img : A → list byte) (P : A → Prop) : Prop :=
  ∀ pre rest r a, fits 64 (len (pre ++ rest)) →
    p (rd_at pre rest) = (r, Ok a) ↔
    ∃ rest', P a ∧ rest = img a ++ rest' ∧ r = rd_at (pre ++ img a) rest'.

Lemma subslice_at {A} (pre rest : list A) n :
  subslice (len pre) n (pre ++ rest) = take (N.to_nat n) rest.
Proof. unfold subslice. by rewrite len_to_nat, drop_app_length. Qed.

Lemma rd_take_parses n : parses (rd_take n) id (λ l, len l = n).
Proof.
  intros pre rest r a Hfit. unfold rd_take, rd_at, rd_set_position. run_M.
  cbn [rd_bytes rd_position].
  assert (Hle : ∀ rest', a ++ rest' = rest → len (pre ++ rest) = len pre + len a + len rest').
  { intros rest' <-. rewrite !len_app. lia. }
  unfold fits in Hfit. rewrite len_app in Hfit.
  destruct (checked_add 64 (len pre) n) as [stop|] eqn:Es; cbn [ok_or].
  2: { split; [done|]. intros (rest' & Hn & -> & _). exfalso. simpl in *. rewrite len_app in Hfit.
       unfold checked_add in Es. destruct (N.ltb_spec (len pre + n) (2 ^ 64)); [done|]. lia. }
  apply checked_add_Some in Es as [_ ->].
  destruct (get_range (len pre) (len pre + n) (pre ++ rest)) as [l|] eqn:Eg; cbn [ok_or].
  - apply get_range_Some in Eg as (_ & Hl & ->). rewrite len_app in Hl.
    replace (len pre + n - len pre) with n by lia. rewrite subslice_at. split.
    + intros [= <- <-]. exists (drop (N.to_nat n) rest).
      rewrite len_take_le by lia. unfold id. rewrite len_app, len_take_le, <-app_assoc, take_drop by lia.
      done.
    + intros (rest' & <- & -> & ->). unfold id. rewrite len_to_nat, take_app_length.
      by rewrite <-app_assoc, len_app.
  - split; [done|]. intros (rest' & <- & -> & _). unfold id in *.
    unfold get_range in Eg. rewrite !len_app in *.
    destruct (N.leb_spec (len pre) (len pre + len a)); [|lia].
    destruct (N.leb_spec (len pre + len a) (len pre + (len a + len rest'))); [done|lia].
Qed.

Section parses.
Context {A B : Type}.

Lemma parses_ret (b : B) : parses (mret b) (λ _, []) (λ b', b' = b).
Proof.
  intros pre rest r a _. split.
  - intros [= <- ->]. exists rest. by rewrite app_nil_r.
  - intros (rest' & -> & -> & ->). by rewrite app_nil_r.
Qed.

(** [f] recovers the first part from the whole. *)
Lemma reads_then (p : M Reader SaveError A) (k : A → M Reader SaveError B) img img' P Q f :
  parses p img P → (∀ a, P a → parses (k a) img' (λ b, Q b ∧ f b = a)) →
  parses (p ≫= k) (λ b, img (f b) ++ img' b) (λ b, P (f b) ∧ Q b).
Proof.
  intros Hp Hk pre rest r b Hfit. rewrite M_bind_Ok. split.
  - intros (r1 & a & H1 & H2). apply Hp in H1 as (rest1 & Ha & -> & ->); [|done].
    apply (Hk a Ha) in H2 as (rest2 & [Hq <-] & -> & ->); [|by rewrite <-app_assoc].
    exists rest2. by rewrite !app_assoc.
  - intros (rest' & [Hf Hq] & -> & ->). exists (rd_at (pre ++ img (f b)) (img' b ++ rest')), (f b).
    rewrite <-app_assoc in *. split; [apply Hp; [done|]; eauto|].
    apply (Hk (f b) Hf); [by rewrite <-app_assoc|]. exists rest'. by rewrite app_assoc.
Qed.

Lemma parses_guard (c : bool) e (p : M Reader SaveError A) img P :
  (c = false → parses p img P) →
  parses (lift (guard_err c e);; p) img (λ a, P a ∧ c = false).
Proof.
  intros Hp pre rest r a Hfit. destruct c; unfold lift; run_M; cbn [guard_err].
  - naive_solver.
  - specialize (Hp eq_refl pre rest r a Hfit). naive_solver.
Qed.

Lemma parses_iff (p : M Reader SaveError A) img img' P P' :
  parses p img P → (∀ a, P a ↔ P' a) → (∀ a, P' a → img a = img' a) → parses p img' P'.
Proof.
  intros Hp HP Himg pre rest r a Hfit. rewrite (Hp _ _ _ _ Hfit).
  split; intros (rest' & Ha & -> & ->); exists rest'.
  - rewrite <-!Himg by (by apply HP). by rewrite <-HP.
  - apply HP in Ha as Ha'. rewrite !Himg by done. done.
Qed.
End parses.

Lemma rd_le_parses (n : nat) w : w = 8 * N.of_nat n →
  parses (bytes ← rd_take (N.of_nat n); mret (of_le_bytes bytes)) (le_bytes n) (fits w).
Proof.
  intros Hw. eapply parses_iff.
  - eapply (reads_then _ _ id (λ _, []) (λ l, len l = N.of_nat n) (fits w) (le_bytes n)).
    + apply rd_take_parses.
    + intros l Hl. eapply parses_iff; [apply parses_ret| |done].
      assert (length l = n) by (unfold len in Hl; lia).
      intros v. split; [intros ->|intros [Hv <-]].
      * split; [subst w; by apply of_le_bytes_fits|by apply le_bytes_inj_len].
      * symmetry. by apply of_le_bytes_id with w.
  - intros v. cbv beta. rewrite len_le_bytes. naive_solver.
  - intros v _. unfold id. by rewrite app_nil_r.
Qed.

Lemma rd_u16_parses : parses rd_u16 (le_bytes 2) (fits 16).
Proof. by apply (rd_le_parses 2). Qed.
Lemma rd_u32_parses : parses rd_u32 (le_bytes 4) (fits 32).
Proof. by apply (rd_le_parses 4). Qed.
Lemma rd_u64_parses : parses rd_u64 (le_bytes 8) (fits 64).
Proof. by apply (rd_le_parses 8). Qed.

Lemma parses_ret_iff {A} (a : A) (P : A → Prop) :
  (∀ b, P b ↔ b = a) → parses (mret a) (λ _, []) P.
Proof. intros H. eapply parses_iff; [apply parses_ret|naive_solver|done]. Qed.

Lemma rd_bounded_string_parses max : max < 2 ^ 16 →
  parses (rd_bounded_string max) string_image (λ s, len s ≤ max ∧ utf8_valid s = true).
Proof.
  intros Hmax. unfold rd_bounded_string. eapply parses_iff.
  - eapply (reads_then _ _ _ (λ s, s) _ (λ s, len s ≤ max ∧ utf8_valid s = true) len
      rd_u16_parses).
    intros n Hn. eapply parses_iff.
    + apply parses_guard. intros Hc.
      eapply (reads_then _ _ _ (λ _, []) _ (λ s, utf8_valid s = true) id (rd_take_parses n)).
      intros s Hs. eapply parses_iff; [apply parses_guard; intros _; apply parses_ret| |done].
      intros s'. cbv beta. rewrite negb_false_iff. unfold id. naive_solver.
    + intros s. cbv beta. rewrite N.ltb_ge. unfold id. naive_solver lia.
    + intros s _. unfold id. apply app_nil_r.
  - intros s. unfold fits. naive_solver lia.
  - done.
Qed.

Lemma rd_bounded_bytes_parses max : max < 2 ^ 32 →
  parses (rd_bounded_bytes max) blob_image (λ s, len s ≤ max).
Proof.
  intros Hmax. unfold rd_bounded_bytes. eapply parses_iff.
  - eapply (reads_then _ _ _ (λ s, s) _ (λ s, len s ≤ max) len rd_u32_parses).
    intros n Hn. assert (try_from 64 n = Some n) as ->.
    { apply try_from_Some. unfold fits in Hn. lia. }
    eapply parses_iff.
    + apply parses_guard. intros Hc. apply rd_take_parses.
    + intros s. cbv beta. rewrite N.ltb_ge. naive_solver lia.
    + done.
  - intros s. unfold fits. naive_solver lia.
  - done.
Qed.

(** Field after field of a record; [C] collects what the fields read so far
    say of the result. *)
Lemma parses_field {A B} (p : M Reader SaveError A) (k : A → M Reader SaveError B)
    img img' P R C (f : B → A) :
  parses p img P → (∀ a, P a → parses (k a) img' (λ b, R b ∧ (C b ∧ f b = a))) →
  parses (p ≫= k) (λ b, img (f b) ++ img' b) (λ b, (P (f b) ∧ R b) ∧ C b).
Proof.
  intros Hp Hk. eapply parses_iff.
  - apply (reads_then p k img img' P (λ b, R b ∧ C b) f Hp). intros a Ha.
    eapply parses_iff; [apply (Hk a Ha)|naive_solver|done].
  - naive_solver.
  - done.
Qed.

Lemma parses_record {B} (x : B) (C : B → Prop) :
  (∀ b, C b ↔ b = x) → parses (mret x) (λ _, []) (λ b, True ∧ C b).
Proof. intros HC. apply parses_ret_iff. naive_solver. Qed.

Create HintDb parses.
#[local] Hint Resolve rd_u16_parses rd_u32_parses rd_u64_parses rd_bounded_string_parses
  rd_bounded_bytes_parses rd_take_parses : parses.

Ltac parse_field f :=
  eapply (parses_field _ _ _ _ _ _ _ f); [eauto with parses|intros ? ?].

Lemma save_header_decode_parses :
  parses save_header_decode header_image (λ h, header_typed h ∧ header_bounded h).
Proof.
  eapply parses_iff.
  - unfold save_header_decode.
    eapply (parses_field _ _ _ _ _ _ (λ _, True) game_version);
      [by apply rd_bounded_string_parses|intros ? ?].
    parse_field created_at_unix_secs.
    eapply (parses_field _ _ _ _ _ _ _ map_identity);
      [by apply rd_bounded_string_parses|intros ? ?].
    eapply (parses_field _ _ _ _ _ _ _ title); [by apply rd_bounded_string_parses|intros ? ?].
    eapply (parses_field _ _ _ _ _ _ _ thumbnail); [by apply rd_bounded_bytes_parses|intros ? ?].
    apply parses_record. intros [gv ca mi ti th]. simpl. naive_solver.
  - unfold header_typed, header_bounded. naive_solver.
  - intros h _. unfold header_image. by rewrite app_nil_r.
Qed.

Lemma entry_decode_parses : parses entry_decode entry_image entry_typed.
Proof.
  eapply parses_iff.
  - unfold entry_decode. eapply (parses_field _ _ _ _ _ _ (λ _, True) se_tag); [apply rd_u32_parses|intros ? ?].
    parse_field se_offset. parse_field se_length.
    eapply (parses_field _ _ _ _ _ _ _ se_sha256); [apply rd_take_parses|intros ? ?].
    apply parses_record. intros [tag off l sha]. simpl. naive_solver.
  - unfold entry_typed. naive_solver.
  - intros e _. unfold entry_image, id. by rewrite app_nil_r.
Qed.

(** ** Writing an image *)

Definition header_boundedb (h : Header) : bool :=
  (len (game_version h) <=? MAX_GAME_VERSION_LEN) && (len (map_identity h) <=? MAX_MAP_IDENTITY_LEN) &&
  (len (title h) <=? MAX_TITLE_LEN) && (len (thumbnail h) <=? MAX_THUMBNAIL_LEN).

Lemma header_boundedb_spec h : header_boundedb h = true ↔ header_bounded h.
Proof.
  unfold header_boundedb, header_bounded. rewrite !andb_true_iff, !N.leb_le. tauto.
Qed.

Lemma wr_bounded_string_run s w : len s < 2 ^ 16 →
  wr_bounded_string s w = ({| wr_bytes := wr_bytes w ++ string_image s |}, Ok tt).
Proof.
  intros Hs. unfold wr_bounded_string, wr_u16, wr_raw. run_M.
  assert (try_from 16 (len s) = Some (len s)) as -> by (by apply try_from_Some).
  cbn [ok_or wr_bytes]. unfold string_image. by rewrite app_assoc.
Qed.

Lemma wr_bounded_bytes_run s w : len s < 2 ^ 32 →
  wr_bounded_bytes s w = ({| wr_bytes := wr_bytes w ++ blob_image s |}, Ok tt).
Proof.
  intros Hs. unfold wr_bounded_bytes, wr_u32, wr_raw. run_M.
  assert (try_from 32 (len s) = Some (len s)) as -> by (by apply try_from_Some).
  cbn [ok_or wr_bytes]. unfold blob_image. by rewrite app_assoc.
Qed.

Lemma save_header_encode_run h w :
  save_header_encode h w =
    if header_boundedb h then ({| wr_bytes := wr_bytes w ++ header_image h |}, Ok tt)
    else (w, Err SvHeaderInvalid).
Proof.
  unfold save_header_encode, save_header_validate.
  replace (_ || _) with (negb (header_boundedb h)).
  2: { unfold header_boundedb. rewrite !negb_andb, !N.leb_antisym, !negb_involutive. done. }
  destruct (header_boundedb h) eqn:Hb; [|done]. apply header_boundedb_spec in Hb.
  unfold header_bounded in Hb. destruct Hb as (Hv & Hi & Ht & Hb).
  rewrite (M_bind_step _ _ w w tt) by done.
  rewrite (M_bind_step _ _ _ _ _ (wr_bounded_string_run _ _ (N.le_lt_trans _ _ (2 ^ 16) Hv eq_refl))).
  erewrite (M_bind_step _ _ _ _ tt) by done.
  rewrite (M_bind_step _ _ _ _ _ (wr_bounded_string_run _ _ (N.le_lt_trans _ _ (2 ^ 16) Hi eq_refl))).
  rewrite (M_bind_step _ _ _ _ _ (wr_bounded_string_run _ _ (N.le_lt_trans _ _ (2 ^ 16) Ht eq_refl))).
  rewrite wr_bounded_bytes_run by exact (N.le_lt_trans _ _ (2 ^ 32) Hb eq_refl). unfold wr_u64. cbn [wr_bytes].
  unfold header_image. by rewrite !app_assoc.
Qed.

Lemma entry_encode_run e w :
  entry_encode e w = {| wr_bytes := wr_bytes w ++ entry_image e |}.
Proof.
  unfold entry_encode, entry_image, wr_array32, wr_u64, wr_u32. cbn [wr_bytes].
  by rewrite !app_assoc.
Qed.

Lemma len_row_image e : len (se_sha256 e) = 32 → len (entry_image e) = ENTRY_LEN.
Proof. intros E. unfold entry_image. rewrite !len_app, !len_le_bytes, E. done. Qed.
