(* ===== verification/SaveContainer.v ===== *)
(** * The save container

    [crates/ohl-save/src/container.rs]: [SaveWriter], which lays a container
    out, and [SaveReader], which validates one. The section codec ([postcard])
    is a parameter; [usize] has 64 bits. *)

From stdpp Require Import sets.
From S2P Require Export SaveBytes.

Definition MAGIC : list byte := [x4f; x48; x4c; x53; x41; x56; x45; x00].
Definition FORMAT_MAJOR : N := 1.
Definition FORMAT_MINOR : N := 0.
Definition MIN_APPLICATION_TAG : N := 16.
Definition TRAILER_LEN : N := 32.

(** [postcard::to_allocvec] and [postcard::take_from_bytes] at one type. *)
Class Postcard (V : Type) : Type := {
  to_allocvec : V → option (list byte);
  take_from_bytes : list byte → option (V * list byte)
}.

(** A value is read back from the front of what follows its encoding. *)
Class PostcardLaws (V : Type) `{Postcard V} : Prop := {
  take_to_allocvec (v : V) bytes rest :
    to_allocvec v = Some bytes → take_from_bytes (bytes ++ rest) = Some (v, rest)
}.

Section container.
Context `{Sha2}.

(** ** [SaveWriter] *)

Record SaveWriter : Type := {
  sw_header : Header;
  sw_sections : list (N * list byte)
}.

Definition save_begin (header : Header) : SaveWriter :=
  {| sw_header := header; sw_sections := [] |}.

Definition sw_push (tag : N) (bytes : list byte) (self : SaveWriter) : SaveWriter :=
  {| sw_header := sw_header self; sw_sections := sw_sections self ++ [(tag, bytes)] |}.

Definition add_section (tag : N) (bytes : list byte) : M SaveWriter SaveError unit :=
  lift (guard_err (tag <? MIN_APPLICATION_TAG) SvReservedTag);;
  self ← get;
  lift (guard_err (existsb (λ section : N * list byte, section.1 =? tag) (sw_sections self)) SvDuplicateTag);;
  modify (sw_push tag bytes).

Definition add_section_serde `{Postcard V} (tag : N) (value : V) : M SaveWriter SaveError unit :=
  bytes ← lift (ok_or (to_allocvec value) SvCodec);
  add_section tag bytes.

(** The loop over the sections' lengths. *)
Fixpoint check_lengths (sections : list (N * list byte)) (limits : Limits)
  : result SaveError unit :=
  match sections with
  | [] => Ok tt
  | (_, bytes) :: sections =>
      length ← ok_or (try_from 64 (len bytes)) SvLimitExceeded;
      guard_err (max_section_bytes limits <? length) SvLimitExceeded;;
      check_lengths sections limits
  end.

(** The loop that fills [entries] from [offset] on. *)
Fixpoint layout (sections : list (N * list byte)) (offset : N)
  : result SaveError (list SectionEntry) :=
  match sections with
  | [] => Ok []
  | (tag, bytes) :: sections =>
      let length := len bytes in
      let sha256 := digest bytes in
      offset_u64 ← ok_or (try_from 64 offset) SvLimitExceeded;
      length_u64 ← ok_or (try_from 64 length) SvLimitExceeded;
      let entry := {| se_tag := tag; se_offset := offset_u64; se_length := length_u64;
                      se_sha256 := sha256 |} in
      offset ← ok_or (checked_add 64 offset length) SvLimitExceeded;
      entries ← layout sections offset;
      mret (entry :: entries)
  end.

(** [finish] behind the section count: table, data and trailer. *)
Definition write_sections (self : SaveWriter) (limits : Limits) : M Writer SaveError unit :=
  writer ← get;
  let header_end := wr_len writer in
  table_len ← lift (ok_or (checked_mul 64 (len (sw_sections self)) ENTRY_LEN) SvLimitExceeded);
  data_start ← lift (ok_or (checked_add 64 header_end table_len) SvLimitExceeded);
  entries ← lift (layout (sw_sections self) data_start);
  modify (λ writer, foldl (λ w entry, entry_encode entry w) writer entries);;
  modify (λ writer, foldl (λ w (section : N * list byte), wr_raw section.2 w) writer
                      (sw_sections self));;
  writer ← get;
  let total_before_trailer := wr_len writer in
  total_len ← lift (ok_or (checked_add 64 total_before_trailer TRAILER_LEN) SvLimitExceeded);
  total_len_u64 ← lift (ok_or (try_from 64 total_len) SvLimitExceeded);
  lift (guard_err (max_file_bytes limits <? total_len_u64) SvLimitExceeded);;
  let trailer := digest (wr_bytes writer) in
  modify (wr_array32 trailer).

(** [finish]'s writer. *)
Definition write_container (self : SaveWriter) (limits : Limits) : M Writer SaveError unit :=
  let section_count := len (sw_sections self) in
  section_count_u32 ← lift (ok_or (try_from 32 section_count) SvLimitExceeded);
  lift (guard_err (max_sections limits <? section_count_u32) SvLimitExceeded);;
  lift (check_lengths (sw_sections self) limits);;
  modify (wr_raw MAGIC);;
  modify (wr_u16 FORMAT_MAJOR);;
  modify (wr_u16 FORMAT_MINOR);;
  save_header_encode (sw_header self);;
  modify (wr_u32 section_count_u32);;
  write_sections self limits.

Definition finish (self : SaveWriter) (limits : Limits) : result SaveError (list byte) :=
  let '(writer, r) := write_container self limits wr_new in
  r;; mret (wr_into_bytes writer).

(** ** [SaveReader] *)

Record SaveReader : Type := {
  sr_header : Header;
  sr_entries : list SectionEntry;
  sr_bytes : list byte;
  sr_unknown_section_count : N;
  sr_format_minor : N
}.

(** The loop that reads the section table. *)
Fixpoint decode_entries (n : nat) : M Reader SaveError (list SectionEntry) :=
  match n with
  | O => mret []
  | S n => entry ← entry_decode; entries ← decode_entries n; mret (entry :: entries)
  end.

(** One entry of the validation loop, whose locals are [seen_tags] and
    [unknown_section_count]. *)
Definition check_entry (bytes : list byte) (limits : Limits) (data_start content_len : N)
    (entry : SectionEntry) : M (list N * N) SaveError unit :=
  locals ← get;
  lift (guard_err (existsb (λ tag, tag =? se_tag entry) locals.1) SvTableInvalid);;
  modify (λ locals, (locals.1 ++ [se_tag entry], locals.2));;
  lift (guard_err (max_section_bytes limits <? se_length entry) SvLimitExceeded);;
  lift (guard_err (se_offset entry <? data_start) SvTableInvalid);;
  stop ← lift (map_err save_error_of_sanitized
                 (checked_add_bounded 64 (se_offset entry) (se_length entry)));
  lift (guard_err (content_len <? stop) SvTableInvalid);;
  start_usize ← lift (ok_or (try_from 64 (se_offset entry)) SvTableInvalid);
  stop_usize ← lift (ok_or (try_from 64 stop) SvTableInvalid);
  slice ← lift (ok_or (get_range start_usize stop_usize bytes) SvTableInvalid);
  lift (guard_err (bool_decide (digest slice ≠ se_sha256 entry)) SvSectionDigestMismatch);;
  if se_tag entry <? MIN_APPLICATION_TAG
  then modify (λ locals, (locals.1, saturating_add 32 locals.2 1))
  else mret tt.

Fixpoint check_entries (bytes : list byte) (limits : Limits) (data_start content_len : N)
    (entries : list SectionEntry) : M (list N * N) SaveError unit :=
  match entries with
  | [] => mret tt
  | entry :: entries =>
      check_entry bytes limits data_start content_len entry;;
      check_entries bytes limits data_start content_len entries
  end.

(** [open]'s reads, up to the end of the section table. *)
Definition read_prelude (limits : Limits)
  : M Reader SaveError (N * Header * list SectionEntry) :=
  magic ← rd_take (len MAGIC);
  lift (guard_err (bool_decide (magic ≠ MAGIC)) SvBadMagic);;
  major ← rd_u16;
  minor ← rd_u16;
  lift (guard_err (negb (major =? FORMAT_MAJOR)) SvUnsupportedMajorVersion);;
  header ← save_header_decode;
  section_count_u32 ← rd_u32;
  lift (guard_err (max_sections limits <? section_count_u32) SvLimitExceeded);;
  section_count ← lift (ok_or (try_from 64 section_count_u32) SvLimitExceeded);
  entries ← decode_entries (N.to_nat section_count);
  mret (minor, header, entries).

Definition save_open (bytes : list byte) (limits : Limits) : result SaveError SaveReader :=
  let file_len := len bytes in
  file_len_u64 ← ok_or (try_from 64 file_len) SvLimitExceeded;
  guard_err (max_file_bytes limits <? file_len_u64) SvLimitExceeded;;
  guard_err (file_len <? TRAILER_LEN) SvTruncated;;
  let content_len := file_len - TRAILER_LEN in
  content_len_u64 ← ok_or (try_from 64 content_len) SvLimitExceeded;
  let '(reader, table) := read_prelude limits (rd_new bytes) in
  '(minor, header, entries) ← table;
  let data_start := rd_position reader in
  data_start_u64 ← ok_or (try_from 64 data_start) SvLimitExceeded;
  let '((_, unknown_section_count), checked) :=
    check_entries bytes limits data_start_u64 content_len_u64 entries ([], 0) in
  checked;;
  let trailer_expected := digest (take (N.to_nat content_len) bytes) in
  let trailer_actual := drop (N.to_nat content_len) bytes in
  guard_err (bool_decide (trailer_actual ≠ trailer_expected)) SvTrailerMismatch;;
  mret {| sr_header := header; sr_entries := entries; sr_bytes := bytes;
          sr_unknown_section_count := unknown_section_count; sr_format_minor := minor |}.

Definition save_find (tag : N) (self : SaveReader) : result SaveError SectionEntry :=
  ok_or (List.find (λ entry, se_tag entry =? tag) (sr_entries self)) SvSectionNotFound.

Definition save_section (tag : N) (self : SaveReader) : result SaveError (list byte) :=
  entry ← save_find tag self;
  stop ← map_err save_error_of_sanitized
           (checked_add_bounded 64 (se_offset entry) (se_length entry));
  start ← ok_or (try_from 64 (se_offset entry)) SvTableInvalid;
  stop ← ok_or (try_from 64 stop) SvTableInvalid;
  ok_or (get_range start stop (sr_bytes self)) SvTableInvalid.

Definition save_deserialize `{Postcard V} (tag : N) (self : SaveReader) : result SaveError V :=
  bytes ← save_section tag self;
  '(value, rest) ← ok_or (take_from_bytes bytes) SvCodec;
  if len rest =? 0 then mret value else Err SvCodec.
End container.

(** ** What [finish] lays out *)

Section image.
Context `{Sha2Laws}.

Fixpoint entries_of (sections : list (N * list byte)) (offset : N) : list SectionEntry :=
  match sections with
  | [] => []
  | (tag, bytes) :: sections =>
      {| se_tag := tag; se_offset := offset; se_length := len bytes; se_sha256 := digest bytes |}
      :: entries_of sections (offset + len bytes)
  end.

(** Everything up to the section table, for a table of [n] rows. *)
Definition head_image (minor : N) (h : Header) (n : N) : list byte :=
  MAGIC ++ le_bytes 2 FORMAT_MAJOR ++ le_bytes 2 minor ++ header_image h ++ le_bytes 4 n.

Definition table_image (entries : list SectionEntry) : list byte :=
  concat (entry_image <$> entries).

Definition prelude_image (minor : N) (h : Header) (entries : list SectionEntry) : list byte :=
  head_image minor h (len entries) ++ table_image entries.

Definition data_image (sections : list (N * list byte)) : list byte := concat (snd <$> sections).

(** The first byte behind the table. *)
Definition data_offset (w : SaveWriter) : N :=
  len (head_image FORMAT_MINOR (sw_header w) (len (sw_sections w))) +
  len (sw_sections w) * ENTRY_LEN.

Definition content_image (w : SaveWriter) : list byte :=
  prelude_image FORMAT_MINOR (sw_header w) (entries_of (sw_sections w) (data_offset w)) ++
  data_image (sw_sections w).

Definition container_image (w : SaveWriter) : list byte :=
  content_image w ++ digest (content_image w).

(** The number and the lengths of the sections are within the limits. *)
Definition sections_within (w : SaveWriter) (limits : Limits) : bool :=
  (len (sw_sections w) <=? max_sections limits) &&
  forallb (λ section : N * list byte, len section.2 <=? max_section_bytes limits) (sw_sections w).

Lemma length_entries_of l offset : length (entries_of l offset) = length l.
Proof. revert offset; induction l as [|[] l IH]; intros; simpl; auto. Qed.

Lemma len_entries_of l offset : len (entries_of l offset) = len l.
Proof. unfold len. by rewrite length_entries_of. Qed.

Lemma len_table_image entries :
  Forall (λ e, len (se_sha256 e) = 32) entries → len (table_image entries) = len entries * ENTRY_LEN.
Proof.
  induction 1 as [|e l He Hl IH]; [done|]. unfold table_image in *. cbn [fmap list_fmap concat].
  rewrite len_app, IH, len_row_image, len_cons by done. lia.
Qed.

Lemma entries_of_digests l offset : Forall (λ e, len (se_sha256 e) = 32) (entries_of l offset).
Proof.
  revert offset; induction l as [|[tag b] l IH]; intros offset; simpl; constructor; [|apply IH].
  apply len_digest.
Qed.

Lemma len_content_image w :
  len (content_image w) = data_offset w + len (data_image (sw_sections w)).
Proof.
  unfold content_image, prelude_image, data_offset. rewrite !len_app, len_table_image, !len_entries_of by
    apply entries_of_digests. done.
Qed.

Lemma len_container_image w :
  len (container_image w) = data_offset w + len (data_image (sw_sections w)) + TRAILER_LEN.
Proof. unfold container_image. by rewrite len_app, len_content_image, len_digest. Qed.

(** *** The writer's steps *)

Lemma check_lengths_run l limits : limits_typed limits →
  check_lengths l limits =
    if forallb (λ section : N * list byte, len section.2 <=? max_section_bytes limits) l
    then Ok tt else Err SvLimitExceeded.
Proof.
  intros (_ & Hl & _). unfold fits in Hl.
  induction l as [|[tag b] l IH]; [done|]. simpl. unfold try_from.
  destruct (N.ltb_spec (len b) (2 ^ 64)); simpl.
  - unfold guard_err. rewrite N.leb_antisym.
    destruct (max_section_bytes limits <? len b); simpl; [done|exact IH].
  - destruct (N.leb_spec (len b) (max_section_bytes limits)); [lia|done].
Qed.

Lemma layout_run l offset : offset < 2 ^ 64 →
  layout l offset =
    if offset + len (data_image l) <? 2 ^ 64 then Ok (entries_of l offset) else Err SvLimitExceeded.
Proof.
  revert offset; induction l as [|[tag b] l IH]; intros offset Ho.
  - simpl. unfold data_image. simpl. rewrite len_nil, N.add_0_r.
    destruct (N.ltb_spec offset (2 ^ 64)); [done|lia].
  - unfold data_image. cbn [layout fmap list_fmap concat snd]. rewrite len_app.
    fold (data_image l). unfold try_from, checked_add.
    destruct (N.ltb_spec offset (2 ^ 64)); [|lia]. cbn [ok_or mbind result_bind].
    destruct (N.ltb_spec (len b) (2 ^ 64)); cbn [ok_or mbind result_bind].
    + destruct (N.ltb_spec (offset + len b) (2 ^ 64)); cbn [ok_or mbind result_bind].
      * rewrite (IH (offset + len b)), N.add_assoc by done.
        destruct (N.ltb_spec (offset + len b + len (data_image l)) (2 ^ 64)); done.
      * destruct (N.ltb_spec (offset + (len b + len (data_image l))) (2 ^ 64)); [lia|done].
    + destruct (N.ltb_spec (offset + (len b + len (data_image l))) (2 ^ 64)); [lia|done].
Qed.

Lemma encode_entries_run l w :
  foldl (λ w entry, entry_encode entry w) w l = {| wr_bytes := wr_bytes w ++ table_image l |}.
Proof.
  revert w; induction l as [|e l IH]; intros [b]; simpl.
  - unfold table_image. simpl. by rewrite app_nil_r.
  - rewrite IH, entry_encode_run. simpl. unfold table_image. simpl. by rewrite app_assoc.
Qed.

Lemma raw_sections_run l w :
  foldl (λ w (section : N * list byte), wr_raw section.2 w) w l =
    {| wr_bytes := wr_bytes w ++ data_image l |}.
Proof.
  revert w; induction l as [|e l IH]; intros [b]; simpl.
  - unfold data_image. simpl. by rewrite app_nil_r.
  - rewrite IH. simpl. unfold data_image. simpl. by rewrite app_assoc.
Qed.
End image.

(** ** [finish] on every branch *)

Section finish.
Context `{Sha2Laws}.

Lemma M_bind_lift {S E A B} (m : result E A) (k : A → M S E B) s :
  (lift m ≫= k) s = match m with Ok a => k a s | Err e => (s, Err e) end.
Proof. by destruct m. Qed.

Lemma ok_or_case {A E F} (o : option A) (e : E) (f : A → F) (g : E → F) :
  match ok_or o e with Ok a => f a | Err e => g e end =
  match o with Some a => f a | None => g e end.
Proof. by destruct o. Qed.

Lemma write_sections_run w limits : limits_typed limits →
  let head := {| wr_bytes := head_image FORMAT_MINOR (sw_header w) (len (sw_sections w)) |} in
  let too_large := max_file_bytes limits <? len (container_image w) in
  ∃ w', write_sections w limits head =
          (w', if too_large then Err SvLimitExceeded else Ok tt) ∧
        (too_large = false → w' = {| wr_bytes := container_image w |}).
Proof.
  intros (_ & _ & Hl) head too_large. unfold fits in Hl. subst too_large.
  rewrite len_container_image.
  pose proof (N.ltb_spec (max_file_bytes limits)
    (data_offset w + len (data_image (sw_sections w)) + TRAILER_LEN)) as Hfile.
  unfold write_sections. rewrite (M_bind_step _ _ head head head) by done.
  rewrite M_bind_lift, ok_or_case. unfold checked_mul.
  destruct (N.ltb_spec (len (sw_sections w) * ENTRY_LEN) (2 ^ 64)).
  2: { destruct Hfile; [by eexists; split|]. unfold data_offset in *. lia. }
  rewrite M_bind_lift, ok_or_case. unfold checked_add at 1.
  change (wr_len head + len (sw_sections w) * ENTRY_LEN) with (data_offset w).
  destruct (N.ltb_spec (data_offset w) (2 ^ 64)) as [Hd|]; [|destruct Hfile; [by eexists; split|lia]].
  rewrite M_bind_lift, layout_run by done.
  destruct (N.ltb_spec (data_offset w + len (data_image (sw_sections w))) (2 ^ 64)).
  2: { destruct Hfile; [by eexists; split|lia]. }
  erewrite M_bind_step by (unfold modify; by rewrite encode_entries_run).
  erewrite M_bind_step by (unfold modify; by rewrite raw_sections_run).
  erewrite M_bind_step by done. cbn [wr_bytes].
  assert (E : (wr_bytes head ++ table_image (entries_of (sw_sections w) (data_offset w))) ++
    data_image (sw_sections w) = content_image w).
  { unfold content_image, prelude_image. by rewrite len_entries_of. }
  rewrite E. unfold wr_len. cbn [wr_bytes].
  rewrite M_bind_lift, ok_or_case, len_content_image. unfold checked_add.
  destruct (N.ltb_spec (data_offset w + len (data_image (sw_sections w)) + TRAILER_LEN) (2 ^ 64))
    as [Ht|].
  2: { destruct Hfile; [by eexists; split|lia]. }
  rewrite M_bind_lift, ok_or_case, (proj2 (try_from_Some 64 _ _) (conj Ht eq_refl)), M_bind_lift.
  destruct (max_file_bytes limits <? _); cbn [guard_err]; [by eexists; split|by eexists; split].
Qed.

(** [finish] refuses with [HeaderInvalid] exactly for an oversized header
    field, with [LimitExceeded] for a count, section or file beyond the limits,
    and else yields the container. *)
Lemma finish_run w limits : limits_typed limits →
  finish w limits =
    if negb (sections_within w limits) then Err SvLimitExceeded
    else if negb (header_boundedb (sw_header w)) then Err SvHeaderInvalid
    else if max_file_bytes limits <? len (container_image w) then Err SvLimitExceeded
    else Ok (container_image w).
Proof.
  intros Hl. pose proof (write_sections_run w limits Hl) as Htail. destruct (Hl) as (Hl1 & _).
  unfold fits in Hl1. unfold finish, write_container, sections_within.
  rewrite M_bind_lift, ok_or_case. unfold try_from at 1.
  destruct (N.ltb_spec (len (sw_sections w)) (2 ^ 32)) as [Hn|Hn].
  2: { destruct (N.leb_spec (len (sw_sections w)) (max_sections limits)); [lia|done]. }
  rewrite M_bind_lift, N.leb_antisym.
  destruct (max_sections limits <? len (sw_sections w)); [done|]. cbn [guard_err negb andb].
  rewrite M_bind_lift, check_lengths_run by done.
  destruct (forallb _ (sw_sections w)); [|done]. cbn [negb].
  do 3 (erewrite M_bind_step by done). unfold mbind at 1, M_bind at 1.
  rewrite save_header_encode_run. destruct (header_boundedb (sw_header w)); [|done]. cbn [negb].
  erewrite M_bind_step by done. unfold wr_u32, wr_u16, wr_raw, wr_new. cbn [wr_bytes app].
  rewrite <-!app_assoc. fold (head_image FORMAT_MINOR (sw_header w) (len (sw_sections w))).
  cbv zeta in Htail. destruct Htail as (w' & -> & Hw').
  destruct (max_file_bytes limits <? len (container_image w)); [done|]. by rewrite Hw'.
Qed.
End finish.

(** ** What [open] accepts *)

Section open.
Context `{Sha2Laws}.

(** A guard on what the fields read so far, with [G] its meaning. *)
Lemma parses_check {B} (c : bool) e (p : M Reader SaveError B) img R C (G : B → Prop) :
  (c = false → parses p img (λ b, R b ∧ C b)) → (∀ b, C b → c = false ↔ G b) →
  parses (lift (guard_err c e);; p) img (λ b, (G b ∧ R b) ∧ C b).
Proof.
  intros Hp Hc. eapply parses_iff; [apply parses_guard, Hp| |done].
  intros b. cbv beta. naive_solver.
Qed.

Lemma decode_entries_parses n :
  parses (decode_entries n) table_image (λ l, length l = n ∧ Forall entry_typed l).
Proof.
  induction n as [|n IH]; simpl.
  - eapply parses_iff; [apply (parses_ret [])| |].
    + intros l. split; [intros ->; done|]. intros [Hl _]. by apply nil_length_inv.
    + by intros l [->%nil_length_inv _].
  - intros pre rest r l Hfit. rewrite M_bind_Ok. split.
    + intros (r1 & e & H1 & H2). apply entry_decode_parses in H1 as (rest1 & He & -> & ->); [|done].
      apply M_bind_Ok in H2 as (r2 & l' & H2 & H3).
      apply IH in H2 as (rest2 & [Hl' HF] & -> & ->); [|by rewrite <-app_assoc].
      injection H3 as <- <-. exists rest2. unfold table_image. simpl. rewrite !app_assoc.
      auto.
    + intros (rest' & [Hl HF] & -> & ->). destruct l as [|e l]; [done|].
      apply Forall_cons_iff in HF as [He HF]. unfold table_image in *. simpl in *.
      rewrite <-app_assoc in *.
      eexists _, e. split; [apply entry_decode_parses; [done|]; eauto|].
      apply M_bind_Ok. eexists _, l. split; [|by rewrite app_assoc].
      apply IH; [by rewrite <-app_assoc|]. exists rest'. auto.
Qed.

(** The table, read for the count [n] read before. *)
Lemma decode_entries_field C n minor h :
  (∀ b : N * Header * list SectionEntry, C b ↔ b.1 = (minor, h) ∧ len b.2 = n) →
  parses (entries ← decode_entries (N.to_nat n); mret (minor, h, entries))
    (λ b, table_image b.2) (λ b, Forall entry_typed b.2 ∧ C b).
Proof.
  intros HC. eapply parses_iff.
  - eapply (reads_then _ _ _ _ _ (λ b, b.1 = (minor, h)) (λ b, b.2) (decode_entries_parses _)).
    intros l Hl. apply parses_ret_iff. intros [mh l']. simpl. split; [by intros [-> ->]|by intros [= -> ->]].
  - intros b. rewrite HC. unfold len.
    assert (length b.2 = N.to_nat n ↔ N.of_nat (length b.2) = n) by lia. tauto.
  - intros b _. apply app_nil_r.
Qed.

Lemma read_prelude_parses limits :
  parses (read_prelude limits)
    (λ '(minor, h, entries), prelude_image minor h entries)
    (λ '(minor, h, entries), fits 16 minor ∧ (header_typed h ∧ header_bounded h) ∧
       fits 32 (len entries) ∧ len entries ≤ max_sections limits ∧ Forall entry_typed entries).
Proof.
  unfold read_prelude. eapply parses_iff.
  - eapply (parses_field _ _ _ _ _ _ (λ _, True) (λ _, MAGIC)); [apply rd_take_parses|intros ? ?].
    apply parses_check with (G := λ _, True).
    2: { intros b [_ <-]. split; [done|]. intros _. apply bool_decide_eq_false_2. by intros []. }
    intros Hm. apply bool_decide_eq_false in Hm.
    eapply (parses_field _ _ _ _ _ _ _ (λ _, FORMAT_MAJOR)); [apply rd_u16_parses|].
    intros ? ?.
    eapply (parses_field _ _ _ _ _ _ _ (λ b, b.1.1)); [apply rd_u16_parses|intros minor ?].
    apply parses_check with (G := λ _, True).
    2: { by intros b [[_ <-] _]. }
    intros Hv. apply negb_false_iff, N.eqb_eq in Hv.
    eapply (parses_field _ _ _ _ _ _ _ (λ b, b.1.2)); [apply save_header_decode_parses|].
    intros h ?. eapply (parses_field _ _ _ _ _ _ _ (λ b, len b.2)); [apply rd_u32_parses|].
    intros n Hn. apply parses_check with (G := λ b, len b.2 ≤ max_sections limits).
    2: { intros b [_ <-]. apply N.ltb_ge. }
    intros _. assert (try_from 64 n = Some n) as ->.
    { apply try_from_Some. unfold fits in Hn. lia. }
    apply (decode_entries_field _ n minor h).
    intros [[m h'] l]. cbv beta. simpl. apply dec_stable in Hm. subst. naive_solver.
  - intros [[m h] l]. simpl. split; [naive_solver|]. intros (? & ? & ? & ? & ?).
    assert (fits 16 FORMAT_MAJOR) by done. auto 20.
  - intros [[m h] l] _. simpl. unfold prelude_image, head_image. by rewrite !app_assoc.
Qed.

(** *** The table's validation *)

(** An entry between [data_start] and [content_len] whose bytes have its digest. *)
Definition entry_ok (bytes : list byte) (limits : Limits) (data_start content_len : N)
    (e : SectionEntry) : Prop :=
  se_length e ≤ max_section_bytes limits ∧ data_start ≤ se_offset e ∧
  se_offset e + se_length e ≤ content_len ∧
  digest (subslice (se_offset e) (se_length e) bytes) = se_sha256 e.

Definition is_reserved (e : SectionEntry) : bool := se_tag e <? MIN_APPLICATION_TAG.

Definition reserved_count (l : list SectionEntry) : N := len (List.filter is_reserved l).

Lemma existsb_tag l tag : existsb (λ t, t =? tag) l = false ↔ tag ∉ l.
Proof.
  induction l as [|t l IH]; simpl; [set_solver|].
  rewrite orb_false_iff, N.eqb_neq, IH. set_solver.
Qed.

Lemma check_entry_run bytes limits data_start content_len e seen unknown s :
  content_len ≤ len bytes → fits 64 (len bytes) →
  (check_entry bytes limits data_start content_len e (seen, unknown) = (s, Ok tt)) ↔
  entry_ok bytes limits data_start content_len e ∧ (se_tag e ∉ seen) ∧
  s = (seen ++ [se_tag e],
       if is_reserved e then saturating_add 32 unknown 1 else unknown).
Proof.
  intros Hc Hb. unfold fits in Hb. unfold check_entry, entry_ok. run_M. cbn [fst snd].
  destruct (existsb _ seen) eqn:Et; cbn [guard_err].
  { split; [done|]. intros (_ & Hn & _). apply existsb_tag in Hn. congruence. }
  apply existsb_tag in Et. unfold guard_err.
  destruct (N.ltb_spec (max_section_bytes limits) (se_length e)); [split; [done|naive_solver lia]|].
  destruct (N.ltb_spec (se_offset e) data_start); [split; [done|naive_solver lia]|].
  destruct (checked_add_bounded 64 (se_offset e) (se_length e)) as [stop|err] eqn:Ea; cbn [map_err].
  2: { apply checked_add_bounded_Err in Ea as [Ha _]. split; [done|naive_solver lia]. }
  apply checked_add_bounded_Ok in Ea as [Ha ->].
  destruct (N.ltb_spec content_len (se_offset e + se_length e)); [split; [done|naive_solver lia]|].
  assert (try_from 64 (se_offset e) = Some (se_offset e)) as -> by (apply try_from_Some; lia).
  assert (try_from 64 (se_offset e + se_length e) = Some (se_offset e + se_length e)) as ->
    by (apply try_from_Some; lia).
  cbn [ok_or]. unfold get_range.
  destruct (N.leb_spec (se_offset e) (se_offset e + se_length e)); [|lia].
  destruct (N.leb_spec (se_offset e + se_length e) (len bytes)); [|lia]. cbn [andb ok_or].
  replace (se_offset e + se_length e - se_offset e) with (se_length e) by lia.
  case_bool_decide as Hd; [split; [done|naive_solver]|].
  unfold is_reserved. destruct (se_tag e <? MIN_APPLICATION_TAG); split; naive_solver.
Qed.

Lemma check_entries_run bytes limits data_start content_len l seen unknown s :
  content_len ≤ len bytes → fits 64 (len bytes) → unknown + len l < 2 ^ 32 →
  (check_entries bytes limits data_start content_len l (seen, unknown) = (s, Ok tt)) ↔
  Forall (entry_ok bytes limits data_start content_len) l ∧
  NoDup (se_tag <$> l) ∧ (∀ tag, tag ∈ se_tag <$> l → tag ∉ seen) ∧
  s = (seen ++ (se_tag <$> l), unknown + reserved_count l).
Proof.
  intros Hc Hb. revert seen unknown s.
  induction l as [|e l IH]; intros seen unknown s Hu; cbn [check_entries].
  - unfold reserved_count. simpl. rewrite app_nil_r, len_nil, N.add_0_r. split.
    + intros [= <-]. repeat split; [constructor|constructor|set_solver].
    + by intros (_ & _ & _ & ->).
  - rewrite len_cons in Hu.
    assert (Hun : (if is_reserved e then saturating_add 32 unknown 1 else unknown) =
      unknown + (if is_reserved e then 1 else 0)).
    { unfold saturating_add. destruct (is_reserved e); lia. }
    assert (Hcount : ∀ u, u + (if is_reserved e then 1 else 0) + reserved_count l =
      u + reserved_count (e :: l)).
    { intros u. unfold reserved_count. simpl. destruct (is_reserved e); [rewrite len_cons|]; lia. }
    rewrite M_bind_Ok. cbn [fmap list_fmap]. rewrite Forall_cons_iff, list.NoDup_cons. split.
    + intros (s1 & [] & H1 & H2). apply (check_entry_run _ _ _ _ _ _ _ _ Hc Hb) in H1 as (He & Ht & ->).
      rewrite Hun in H2. apply IH in H2 as (Hl & Hnd & Hs & ->); [|by destruct (is_reserved e); lia].
      rewrite Hcount, <-app_assoc. split_and!; [done|done| |done| |done]; set_solver.
    + intros ([He Hl] & [Ht Hnd] & Hs & ->). eexists _, tt. split.
      * apply (check_entry_run _ _ _ _ _ _ _ _ Hc Hb). split; [done|]. split; [set_solver|reflexivity].
      * rewrite Hun. apply IH; [destruct (is_reserved e); lia|].
        rewrite Hcount, <-app_assoc. split_and!; [done|done|set_solver|done].
Qed.

(** *** [open] *)

(** What a reader over [bytes] knows of them. The table may be followed by
    anything the digest allows; sections may overlap one another. *)
Definition opened (bytes : list byte) (limits : Limits) (r : SaveReader) : Prop :=
  let content_len := len bytes - TRAILER_LEN in
  let entries := sr_entries r in
  let prelude := prelude_image (sr_format_minor r) (sr_header r) entries in
  sr_bytes r = bytes ∧ TRAILER_LEN ≤ len bytes ∧ len bytes ≤ max_file_bytes limits ∧
  (∃ rest, bytes = prelude ++ rest) ∧
  fits 16 (sr_format_minor r) ∧ header_typed (sr_header r) ∧ header_bounded (sr_header r) ∧
  fits 32 (len entries) ∧ len entries ≤ max_sections limits ∧
  Forall entry_typed entries ∧ NoDup (se_tag <$> entries) ∧
  Forall (entry_ok bytes limits (len prelude) content_len) entries ∧
  drop (N.to_nat content_len) bytes = digest (take (N.to_nat content_len) bytes) ∧
  sr_unknown_section_count r = reserved_count entries.

(** [open] behind the table. *)
Definition open_tail (bytes : list byte) (limits : Limits) (minor : N) (header : Header)
    (entries : list SectionEntry) (data_start : N) : result SaveError SaveReader :=
  let content_len := len bytes - TRAILER_LEN in
  data_start_u64 ← ok_or (try_from 64 data_start) SvLimitExceeded;
  let '((_, unknown_section_count), checked) :=
    check_entries bytes limits data_start_u64 content_len entries ([], 0) in
  checked;;
  guard_err (bool_decide (drop (N.to_nat content_len) bytes
                          ≠ digest (take (N.to_nat content_len) bytes))) SvTrailerMismatch;;
  mret {| sr_header := header; sr_entries := entries; sr_bytes := bytes;
          sr_unknown_section_count := unknown_section_count; sr_format_minor := minor |}.

(** [open] behind the size checks. *)
Definition open_body (bytes : list byte) (limits : Limits) : result SaveError SaveReader :=
  let '(reader, table) := read_prelude limits (rd_new bytes) in
  '(minor, header, entries) ← table;
  open_tail bytes limits minor header entries (rd_position reader).

Lemma open_tail_run bytes limits m h l start r :
  fits 64 (len bytes) → start ≤ len bytes → len l < 2 ^ 32 →
  open_tail bytes limits m h l start = Ok r ↔
  Forall (entry_ok bytes limits start (len bytes - TRAILER_LEN)) l ∧ NoDup (se_tag <$> l) ∧
  drop (N.to_nat (len bytes - TRAILER_LEN)) bytes =
    digest (take (N.to_nat (len bytes - TRAILER_LEN)) bytes) ∧
  r = {| sr_header := h; sr_entries := l; sr_bytes := bytes;
         sr_unknown_section_count := reserved_count l; sr_format_minor := m |}.
Proof.
  intros Hb Hs Hl. unfold open_tail.
  assert (try_from 64 start = Some start) as ->.
  { apply try_from_Some. unfold fits in Hb. lia. }
  cbn [ok_or mbind result_bind].
  pose proof (λ s, check_entries_run bytes limits start (len bytes - TRAILER_LEN) l [] 0 s
    ltac:(lia) Hb ltac:(lia)) as Hrun.
  destruct (check_entries _ _ _ _ _ _) as [[seen unknown] [[]|e]]; cbn [mbind result_bind].
  - destruct (proj1 (Hrun _) eq_refl) as (Hok & Hnd & _ & [= _ ->]). rewrite N.add_0_l.
    case_bool_decide as Hd; cbn [guard_err mbind result_bind].
    + split; [done|naive_solver].
    + split; [intros [= <-]; done|]. by intros (_ & _ & _ & ->).
  - split; [done|]. intros (Hok & Hnd & _).
    enough (X : (seen, unknown, Err e) = (se_tag <$> l, reserved_count l, Ok ())) by discriminate X.
    apply Hrun. split_and!; [done|done|set_solver|done].
Qed.

Lemma save_open_sizes bytes limits r : limits_typed limits →
  save_open bytes limits = Ok r ↔
  TRAILER_LEN ≤ len bytes ∧ len bytes ≤ max_file_bytes limits ∧ open_body bytes limits = Ok r.
Proof.
  intros (_ & _ & Hl). unfold fits in Hl. unfold save_open.
  destruct (try_from 64 (len bytes)) as [n|] eqn:Et; cbn [ok_or mbind result_bind].
  2: { unfold try_from in Et. destruct (N.ltb_spec (len bytes) (2 ^ 64)); [done|].
       split; [done|]. intros (_ & ? & _). lia. }
  apply try_from_Some in Et as [Hb ->].
  destruct (N.ltb_spec (max_file_bytes limits) (len bytes)); cbn [guard_err mbind result_bind].
  { split; [done|]. intros (_ & ? & _). lia. }
  destruct (N.ltb_spec (len bytes) TRAILER_LEN); cbn [guard_err mbind result_bind].
  { split; [done|]. intros (? & _). lia. }
  assert (try_from 64 (len bytes - TRAILER_LEN) = Some (len bytes - TRAILER_LEN)) as ->.
  { apply try_from_Some. lia. }
  cbn [ok_or mbind result_bind]. fold (open_body bytes limits). tauto.
Qed.


Lemma result_bind_Ok {E A B} (a : A) (k : A → result E B) : Ok a ≫= k = k a.
Proof. done. Qed.

Lemma rd_position_at pre rest : rd_position (rd_at pre rest) = len pre.
Proof. done. Qed.

Lemma open_body_run bytes limits r : limits_typed limits → fits 64 (len bytes) →
  open_body bytes limits = Ok r ↔
  ∃ m h l rest, bytes = prelude_image m h l ++ rest ∧
    fits 16 m ∧ (header_typed h ∧ header_bounded h) ∧ fits 32 (len l) ∧
    len l ≤ max_sections limits ∧ Forall entry_typed l ∧
    open_tail bytes limits m h l (len (prelude_image m h l)) = Ok r.
Proof.
  intros (Hs & _ & _) Hb. unfold open_body.
  pose proof (λ s v, read_prelude_parses limits [] bytes s v Hb) as Hparse.
  change (rd_at [] bytes) with (rd_new bytes) in Hparse.
  destruct (read_prelude limits (rd_new bytes)) as [reader [[[m h] l]|e]].
  - destruct (proj1 (Hparse _ (m, h, l)) eq_refl)
      as (rest & (Hm & Hh & Hf & Hn & He) & Er & ->).
    rewrite app_nil_l, rd_position_at, result_bind_Ok. cbv beta iota. split.
    { intros E. exists m, h, l, rest. exact (conj Er (conj Hm (conj Hh (conj Hf (conj Hn (conj He E)))))). }
    intros (m' & h' & l' & rest' & Er' & Hm' & Hh' & Hf' & Hn' & He' & E).
    enough (X : (rd_at (prelude_image m h l) rest, Ok (m, h, l) : result SaveError _) =
      (rd_at ([] ++ prelude_image m' h' l') rest', Ok (m', h', l'))).
    { apply (f_equal snd) in X. simpl in X. injection X as -> -> ->. exact E. }
    apply (Hparse (rd_at ([] ++ prelude_image m' h' l') rest') (m', h', l')).
    exact (ex_intro _ rest' (conj (conj Hm' (conj Hh' (conj Hf' (conj Hn' He')))) (conj Er' eq_refl))).
  - split; [done|]. intros (m' & h' & l' & rest' & Er' & Hm' & Hh' & Hf' & Hn' & He' & E).
    enough (X : (reader, Err e) =
      (rd_at ([] ++ prelude_image m' h' l') rest', Ok (m', h', l'))) by discriminate X.
    apply (Hparse (rd_at ([] ++ prelude_image m' h' l') rest') (m', h', l')).
    exact (ex_intro _ rest' (conj (conj Hm' (conj Hh' (conj Hf' (conj Hn' He')))) (conj Er' eq_refl))).
Qed.

Lemma save_open_opened bytes limits r : limits_typed limits →
  save_open bytes limits = Ok r ↔ opened bytes limits r.
Proof.
  intros Hl. rewrite save_open_sizes by done. destruct (Hl) as (_ & _ & Hl3). split.
  - intros (Hlo & Hhi & E). assert (Hb : fits 64 (len bytes)) by (unfold fits in *; lia).
    apply open_body_run in E as (m & h & l & rest & Er & Hm & [Ht Hbd] & Hf & Hn & He & E);
      [|done|done].
    apply open_tail_run in E as (Hok & Hnd & Hd & ->);
      [|done|rewrite Er, len_app; lia|done].
    unfold opened. cbn. split_and!; try done. by exists rest.
  - intros (Hby & Hlo & Hhi & [rest Er] & Hm & Ht & Hbd & Hf & Hn & He & Hnd & Hok & Hd & Hu).
    split; [done|]. split; [done|].
    assert (Hb : fits 64 (len bytes)) by (unfold fits in *; lia).
    apply open_body_run; [done|done|].
    exists (sr_format_minor r), (sr_header r), (sr_entries r), rest. split_and!; try done.
    apply open_tail_run; [done|rewrite Er, len_app; lia|done|].
    split_and!; try done. destruct r. simpl in *. by subst.
Qed.
End open.
