(* ===== verification/SaveFile.v ===== *)
(** * Save files, end to end

    What a caller of [SaveWriter] and [SaveReader] relies on: every branch of
    [finish], exactly which files [open] accepts, the sections a reader hands
    out, and that a finished file reads back as what was put in. *)

From stdpp Require Import sets.
From S2P Require Export SaveContainer.

Section file.
Context `{Sha2Laws}.

(** ** Lookup by tag *)

Lemma find_tag_Some l tag e :
  List.find (λ e, se_tag e =? tag) l = Some e → e ∈ l ∧ se_tag e = tag.
Proof.
  intros [Hin Ht]%find_some. split; [by apply list_elem_of_In|by apply N.eqb_eq].
Qed.

Lemma find_tag_None l tag :
  List.find (λ e, se_tag e =? tag) l = None ↔ tag ∉ se_tag <$> l.
Proof.
  induction l as [|e l IH]; simpl; [set_solver|].
  destruct (N.eqb_spec (se_tag e) tag) as [->|Hne]; [set_solver|]. rewrite IH. set_solver.
Qed.

Lemma find_tag_unique l e :
  NoDup (se_tag <$> l) → e ∈ l → List.find (λ e', se_tag e' =? se_tag e) l = Some e.
Proof.
  induction l as [|e' l IH]; intros Hnd Hin; [set_solver|]. cbn [fmap list_fmap] in Hnd.
  apply list.NoDup_cons in Hnd as [Hn Hnd]. simpl.
  apply elem_of_cons in Hin as [->|Hin]; [by rewrite N.eqb_refl|].
  destruct (N.eqb_spec (se_tag e') (se_tag e)) as [E|]; [|by apply IH].
  destruct Hn. rewrite E. apply list_elem_of_fmap. by exists e.
Qed.

(** The bytes of an entry of an opened file. *)
Lemma section_of_entry bytes limits r tag e :
  limits_typed limits → opened bytes limits r →
  List.find (λ e, se_tag e =? tag) (sr_entries r) = Some e →
  save_section tag r = Ok (subslice (se_offset e) (se_length e) bytes).
Proof.
  intros (_ & _ & Hl) (Hby & _ & Hsize & _ & _ & _ & _ & _ & _ & _ & _ & Hok & _) Hf.
  unfold fits in Hl. destruct (find_tag_Some _ _ _ Hf) as [Hin _].
  rewrite Forall_forall in Hok. apply list_elem_of_In in Hin. destruct (Hok _ Hin) as (_ & _ & Hend & _).
  unfold save_section, save_find. rewrite Hf. cbn [ok_or mbind result_bind].
  assert (checked_add_bounded 64 (se_offset e) (se_length e) = Ok (se_offset e + se_length e)) as ->.
  { apply checked_add_bounded_Ok. lia. }
  assert (try_from 64 (se_offset e) = Some (se_offset e)) as -> by (apply try_from_Some; lia).
  cbn [map_err ok_or mbind result_bind].
  assert (try_from 64 (se_offset e + se_length e) = Some (se_offset e + se_length e)) as ->
    by (apply try_from_Some; lia).
  cbn [ok_or mbind result_bind]. apply ok_or_Ok, get_range_Some. rewrite Hby.
  split; [lia|]. split; [lia|]. f_equal. lia.
Qed.

Lemma NoDup_fmap_fst_eq {K A} (l : list (K * A)) k a b :
  NoDup (fst <$> l) → (k, a) ∈ l → (k, b) ∈ l → a = b.
Proof.
  induction l as [|[k' c] l IH]; cbn [fmap list_fmap fst]; intros Hnd Ha Hb; [set_solver|].
  apply list.NoDup_cons in Hnd as [Hn Hnd].
  assert (Hno : ∀ d, (k', d) ∈ l → False).
  { intros d Hd. apply Hn, list_elem_of_fmap. by exists (k', d). }
  apply elem_of_cons in Ha as [Ha|Ha], Hb as [Hb|Hb]; [congruence| | |by apply IH].
  - injection Ha as -> ->. by destruct (Hno b).
  - injection Hb as -> ->. by destruct (Hno a).
Qed.

(** ** What was added *)

(** [adds w w']: from [w], any sequence of [add_section] calls, failed ones
    included, leads to [w']. *)
Inductive adds (w : SaveWriter) : SaveWriter → Prop :=
| adds_none : adds w w
| adds_more w1 tag bytes w2 r :
    adds w w1 → fits 32 tag → add_section tag bytes w1 = (w2, r) → adds w w2.

(** The writers a caller can build. *)
Definition built (h : Header) : SaveWriter → Prop := adds (save_begin h).

Definition section_ok (section : N * list byte) : Prop :=
  MIN_APPLICATION_TAG ≤ section.1 ∧ fits 32 section.1.

Lemma add_section_run tag bytes w :
  add_section tag bytes w =
    if tag <? MIN_APPLICATION_TAG then (w, Err SvReservedTag)
    else if bool_decide (tag ∈ fst <$> sw_sections w) then (w, Err SvDuplicateTag)
    else (sw_push tag bytes w, Ok tt).
Proof.
  unfold add_section. rewrite M_bind_lift. destruct (tag <? MIN_APPLICATION_TAG); [done|].
  cbn [guard_err]. erewrite M_bind_step by done. rewrite M_bind_lift.
  replace (existsb _ _) with (bool_decide (tag ∈ fst <$> sw_sections w)).
  - by case_bool_decide.
  - induction (sw_sections w) as [|[t b] l IH]; [done|]. cbn [existsb fmap list_fmap fst].
    rewrite <-IH. destruct (N.eqb_spec t tag) as [->|]; simpl.
    + apply bool_decide_eq_true. set_solver.
    + apply bool_decide_ext. set_solver.
Qed.

Lemma built_inv h w : built h w →
  sw_header w = h ∧ NoDup (fst <$> sw_sections w) ∧ Forall section_ok (sw_sections w).
Proof.
  induction 1 as [|w tag bytes w' r Hb (Hh & Hnd & Hok) Hf E].
  - split; [done|]. split; constructor.
  - rewrite add_section_run in E. destruct (N.ltb_spec tag MIN_APPLICATION_TAG).
    { by injection E as <- _. }
    case_bool_decide as Hin; injection E as <- _; [done|]. simpl. split; [done|].
    rewrite fmap_app, Forall_app. split.
    + apply list.NoDup_app. split; [done|]. split; [set_solver|]. apply list.NoDup_singleton.
    + split; [done|]. by constructor.
Qed.

Lemma adds_trans w1 w2 w3 : adds w1 w2 → adds w2 w3 → adds w1 w3.
Proof. intros H12 H23. induction H23; [done|]. by eapply adds_more. Qed.

Lemma adds_keeps w w' section :
  adds w w' → section ∈ sw_sections w → section ∈ sw_sections w'.
Proof.
  induction 1 as [|w1 tag bytes w2 r Ha IH Hf E]; [done|]. intros Hin. specialize (IH Hin).
  rewrite add_section_run in E. destruct (tag <? MIN_APPLICATION_TAG); [by injection E as <- _|].
  case_bool_decide; injection E as <- _; [done|]. simpl. set_solver.
Qed.

(** ** The finished file is one [open] accepts *)

Lemma tags_entries_of l offset : se_tag <$> entries_of l offset = fst <$> l.
Proof. revert offset; induction l as [|[] l IH]; intros; simpl; [done|]. by rewrite IH. Qed.

Lemma data_image_cons tag b l : data_image ((tag, b) :: l) = b ++ data_image l.
Proof. done. Qed.

(** Every laid out entry covers its section's bytes. *)
Lemma entries_of_cover pre l post e :
  e ∈ entries_of l (len pre) →
  ∃ data, (se_tag e, data) ∈ l ∧ se_length e = len data ∧ se_sha256 e = digest data ∧
    len pre ≤ se_offset e ∧ se_offset e + se_length e ≤ len pre + len (data_image l) ∧
    subslice (se_offset e) (se_length e) (pre ++ data_image l ++ post) = data.
Proof.
  revert pre; induction l as [|[tag b] l IH]; intros pre Hin; simpl in Hin; [set_solver|].
  rewrite data_image_cons, len_app, <-app_assoc. apply elem_of_cons in Hin as [->|Hin].
  - exists b. simpl. split; [set_solver|]. do 2 (split; [done|]). split; [done|]. split; [lia|].
    apply subslice_app_mid.
  - rewrite <-len_app in Hin. destruct (IH _ Hin) as (data & Hd & Hl & Hs & Ho & He & Hsub).
    rewrite len_app in *. exists data. split; [set_solver|]. do 2 (split; [done|]).
    split; [lia|]. split; [lia|]. by rewrite <-app_assoc in Hsub.
Qed.

Definition reader_of (w : SaveWriter) : SaveReader :=
  {| sr_header := sw_header w;
     sr_entries := entries_of (sw_sections w) (data_offset w);
     sr_bytes := container_image w;
     sr_unknown_section_count := 0;
     sr_format_minor := FORMAT_MINOR |}.

Lemma len_prelude_image w :
  len (prelude_image FORMAT_MINOR (sw_header w) (entries_of (sw_sections w) (data_offset w))) =
    data_offset w.
Proof.
  unfold prelude_image. rewrite len_app, len_table_image, !len_entries_of by
    apply entries_of_digests. done.
Qed.

Lemma container_image_split w :
  container_image w =
    prelude_image FORMAT_MINOR (sw_header w) (entries_of (sw_sections w) (data_offset w)) ++
    data_image (sw_sections w) ++ digest (content_image w).
Proof. unfold container_image, content_image. by rewrite <-app_assoc. Qed.

Lemma finish_Ok w limits bytes : limits_typed limits →
  finish w limits = Ok bytes →
  bytes = container_image w ∧ header_bounded (sw_header w) ∧
  len (sw_sections w) ≤ max_sections limits ∧
  Forall (λ section : N * list byte, len section.2 ≤ max_section_bytes limits) (sw_sections w) ∧
  len (container_image w) ≤ max_file_bytes limits.
Proof.
  intros Hl. rewrite finish_run by done. unfold sections_within.
  destruct (N.leb_spec (len (sw_sections w)) (max_sections limits)); [|done].
  destruct (forallb _ _) eqn:Ef; [|done]. cbn [andb negb].
  destruct (header_boundedb (sw_header w)) eqn:Eh; [|done]. cbn [negb].
  destruct (N.ltb_spec (max_file_bytes limits) (len (container_image w))); [done|].
  intros [= <-]. split; [done|]. split; [by apply header_boundedb_spec|]. split; [done|].
  split; [|done]. apply Forall_forall. intros s Hs.
  rewrite forallb_forall in Ef. by apply N.leb_le, Ef.
Qed.

Lemma reader_of_entry w e :
  e ∈ entries_of (sw_sections w) (data_offset w) →
  ∃ data, (se_tag e, data) ∈ sw_sections w ∧ se_length e = len data ∧ se_sha256 e = digest data ∧
    data_offset w ≤ se_offset e ∧
    se_offset e + se_length e ≤ len (container_image w) - TRAILER_LEN ∧
    subslice (se_offset e) (se_length e) (container_image w) = data.
Proof.
  intros He. rewrite len_container_image, container_image_split. rewrite <-len_prelude_image in He.
  apply entries_of_cover with (post := digest (content_image w)) in He
    as (data & Hd & Hl & Hs & Ho & Hend & Hsub).
  rewrite len_prelude_image in *. exists data. do 3 (split; [done|]). split; [done|].
  split; [lia|done].
Qed.

Lemma reserved_none l offset : Forall section_ok l → reserved_count (entries_of l offset) = 0.
Proof.
  intros Hl. revert offset. induction Hl as [|[tag b] l [Ht _] Hl IH]; intros offset; [done|].
  unfold reserved_count in *. simpl in *. unfold is_reserved at 1. simpl.
  destruct (N.ltb_spec tag MIN_APPLICATION_TAG); [lia|apply IH].
Qed.

Lemma reader_of_opened w limits :
  limits_typed limits → header_typed (sw_header w) → header_bounded (sw_header w) →
  NoDup (fst <$> sw_sections w) → Forall section_ok (sw_sections w) →
  len (sw_sections w) ≤ max_sections limits →
  Forall (λ section : N * list byte, len section.2 ≤ max_section_bytes limits) (sw_sections w) →
  len (container_image w) ≤ max_file_bytes limits →
  opened (container_image w) limits (reader_of w).
Proof.
  intros (Hl1 & Hl2 & Hl3) Ht Hb Hnd Hok Hn Hlen Hsize. unfold fits in *.
  assert (Htrailer : len (container_image w) - TRAILER_LEN = len (content_image w)).
  { unfold container_image. rewrite len_app, len_digest. unfold TRAILER_LEN. lia. }
  unfold opened, reader_of.
  cbn [sr_bytes sr_entries sr_header sr_format_minor sr_unknown_section_count].
  rewrite Htrailer, len_entries_of, tags_entries_of, len_prelude_image, reserved_none by done.
  split; [done|]. split; [rewrite len_container_image; lia|]. split; [done|].
  split; [eexists; apply container_image_split|]. split; [done|]. split; [done|]. split; [done|].
  unfold fits. split; [lia|]. split; [done|].
  rewrite Forall_forall in Hok, Hlen. split; [|split; [done|split; [|split; [|done]]]].
  - apply Forall_forall. intros e He%list_elem_of_In. apply reader_of_entry in He
      as (data & Hd%list_elem_of_In & Hle & Hs & Ho & Hend & _).
    destruct (Hok _ Hd) as [_ Hf]. unfold entry_typed. rewrite Hs, len_digest. unfold fits in *.
    simpl in Hf. split; [done|]. split; [lia|]. split; [lia|done].
  - apply Forall_forall. intros e He%list_elem_of_In. apply reader_of_entry in He
      as (data & Hd%list_elem_of_In & Hle & Hs & Ho & Hend & Hsub).
    unfold entry_ok. rewrite Hsub, Hle, Hs, <-Htrailer. specialize (Hlen _ Hd). simpl in Hlen.
    split; [done|]. split; [done|]. split; [lia|done].
  - unfold container_image. by rewrite len_to_nat, drop_app_length, take_app_length.
Qed.

(** Reading a section of a finished file. *)
Lemma reader_of_section w limits tag :
  limits_typed limits → NoDup (fst <$> sw_sections w) →
  opened (container_image w) limits (reader_of w) →
  (∀ data, (tag, data) ∈ sw_sections w → save_section tag (reader_of w) = Ok data) ∧
  (tag ∉ fst <$> sw_sections w → save_section tag (reader_of w) = Err SvSectionNotFound).
Proof.
  intros Hl Hnd Ho. split.
  - intros data Hin.
    assert (Htag : tag ∈ se_tag <$> entries_of (sw_sections w) (data_offset w)).
    { rewrite tags_entries_of. apply list_elem_of_fmap. by exists (tag, data). }
    apply list_elem_of_fmap in Htag as (e & -> & He).
    rewrite (section_of_entry _ _ _ (se_tag e) e Hl Ho).
    + apply reader_of_entry in He as (data' & Hd & _ & _ & _ & _ & ->). f_equal.
      eapply NoDup_fmap_fst_eq; eauto.
    + simpl. apply find_tag_unique; [|done]. by rewrite tags_entries_of.
  - intros Hn. unfold save_section, save_find. simpl.
    rewrite (proj2 (find_tag_None _ _)); [done|]. by rewrite tags_entries_of.
Qed.

Lemma finished_file h w limits bytes :
  built h w → header_typed h → limits_typed limits → finish w limits = Ok bytes →
  bytes = container_image w ∧ opened bytes limits (reader_of w).
Proof.
  intros Hb Ht Hl Hf. destruct (built_inv _ _ Hb) as (Hh & Hnd & Hok).
  destruct (finish_Ok _ _ _ Hl Hf) as (-> & Hbd & Hn & Hlen & Hsize).
  split; [done|]. apply reader_of_opened; try done. by rewrite Hh.
Qed.

(** ** Properties *)

(** [finish] on every branch. A section count or a section length beyond
    the limits is refused first, then an oversized header field, then an
    oversized file; otherwise the result is the container: prelude, table, the
    sections in order, and the digest of everything before. Nothing overflows
    unnoticed: a layout past the end of [usize] is a refused file. *)
Theorem finish_outcome w limits : limits_typed limits →
  finish w limits =
    if negb (sections_within w limits) then Err SvLimitExceeded
    else if negb (header_boundedb (sw_header w)) then Err SvHeaderInvalid
    else if max_file_bytes limits <? len (container_image w) then Err SvLimitExceeded
    else Ok (container_image w).
Proof. exact (finish_run w limits). Qed.

(** C26: What was saved is what is loaded. However a writer was built, a file it
    finishes within some limits opens under these limits, with the writer's
    header, no section the reader does not know, each added section's exact
    bytes under its tag, and no section under any other tag. *)
Theorem save_file_roundtrip h w limits bytes :
  built h w → header_typed h → limits_typed limits → finish w limits = Ok bytes →
  ∃ r, save_open bytes limits = Ok r ∧ sr_header r = h ∧ sr_unknown_section_count r = 0 ∧
    (∀ tag data, (tag, data) ∈ sw_sections w → save_section tag r = Ok data) ∧
    (∀ tag, tag ∉ fst <$> sw_sections w → save_section tag r = Err SvSectionNotFound).
Proof.
  intros Hb Ht Hl Hf. destruct (finished_file _ _ _ _ Hb Ht Hl Hf) as [-> Ho].
  destruct (built_inv _ _ Hb) as (Hh & Hnd & _).
  exists (reader_of w). split; [by apply save_open_opened|]. split; [done|]. split; [done|].
  split; intros tag; by apply (reader_of_section w limits tag).
Qed.

(** A value added with [add_section_serde] is what [deserialize] yields
    from the finished file, whatever is added after it; and a section that holds
    an encoding followed by surplus bytes is refused. *)
Theorem save_value_roundtrip `{PostcardLaws V} h w w1 w2 tag (v : V) limits bytes r :
  built h w → fits 32 tag → add_section_serde tag v w = (w1, Ok tt) → adds w1 w2 →
  header_typed h → limits_typed limits → finish w2 limits = Ok bytes →
  save_open bytes limits = Ok r →
  save_deserialize tag r = Ok v ∧
  ∀ tag' encoded surplus, to_allocvec v = Some encoded → surplus ≠ [] →
    save_section tag' r = Ok (encoded ++ surplus) →
    save_deserialize (V:=V) tag' r = Err SvCodec.
Proof.
  intros Hb Hf Ea H12 Ht Hl Efin Eo. unfold add_section_serde in Ea. rewrite M_bind_lift in Ea.
  destruct (to_allocvec v) as [encoded|] eqn:Ev; [|done]. cbn [ok_or] in Ea.
  assert (Hb2 : built h w2) by (eapply adds_trans; [eapply adds_more; eauto|done]).
  assert (Hin : (tag, encoded) ∈ sw_sections w2).
  { apply (adds_keeps w1 _ _ H12). rewrite add_section_run in Ea.
    destruct (tag <? MIN_APPLICATION_TAG); [done|]. case_bool_decide; [done|].
    injection Ea as <-. apply list_elem_of_In, in_or_app. right. by left. }
  destruct (finished_file _ _ _ _ Hb2 Ht Hl Efin) as [-> Ho].
  assert (r = reader_of w2) as ->.
  { apply (save_open_opened _ _ _ Hl) in Ho. congruence. }
  destruct (built_inv _ _ Hb2) as (_ & Hnd & _). split.
  - unfold save_deserialize.
    rewrite (proj1 (reader_of_section w2 limits tag Hl Hnd Ho) _ Hin).
    cbn [mbind result_bind]. rewrite <-(app_nil_r encoded), (take_to_allocvec v) by done. done.
  - intros tag' encoded' surplus [= <-] Hs Es. unfold save_deserialize. rewrite Es.
    cbn [mbind result_bind]. rewrite (take_to_allocvec v) by done. cbn [ok_or mbind result_bind].
    destruct (N.eqb_spec (len surplus) 0) as [E|]; [|done]. by apply len_0_nil in E.
Qed.

(** C18: [open] decides the container format: it accepts exactly the files whose
    size is within the limits, that start with a canonical prelude of this major
    version, whose tags are distinct, whose sections lie between the table and
    the trailer, are within the limits and have the digests the table states,
    and whose last 32 bytes are the digest of the rest; and the reader it yields
    is determined by the file. *)
Theorem save_open_exact bytes limits r : limits_typed limits →
  save_open bytes limits = Ok r ↔ opened bytes limits r.
Proof. exact (save_open_opened bytes limits r). Qed.

(** A reader only hands out verified bytes: under each tag of the table
    there is a contiguous part of the file of the stated length and digest,
    within the limit, and every other tag is [SectionNotFound]. No lookup on an
    opened file fails in any other way. *)
Theorem save_section_verified bytes limits r tag :
  limits_typed limits → save_open bytes limits = Ok r →
  (∃ e data before after,
     e ∈ sr_entries r ∧ se_tag e = tag ∧ save_section tag r = Ok data ∧
     bytes = before ++ data ++ after ∧ len before = se_offset e ∧ len data = se_length e ∧
     len data ≤ max_section_bytes limits ∧ digest data = se_sha256 e) ∨
  ((tag ∉ se_tag <$> sr_entries r) ∧ save_section tag r = Err SvSectionNotFound).
Proof.
  intros Hl Ho%save_open_opened; [|done].
  destruct (List.find (λ e, se_tag e =? tag) (sr_entries r)) as [e|] eqn:Ef.
  - left. destruct (find_tag_Some _ _ _ Ef) as [Hin Htag].
    pose proof (section_of_entry _ _ _ _ _ Hl Ho Ef) as Hs.
    destruct Ho as (_ & _ & _ & _ & _ & _ & _ & _ & _ & _ & _ & Hok & _).
    rewrite Forall_forall in Hok. destruct (Hok e) as (Hmax & _ & Hend & Hd).
    { by apply list_elem_of_In. }
    assert (Hle : se_offset e + se_length e ≤ len bytes) by lia.
    exists e, (subslice (se_offset e) (se_length e) bytes), (take (N.to_nat (se_offset e)) bytes),
      (drop (N.to_nat (se_length e)) (drop (N.to_nat (se_offset e)) bytes)).
    rewrite len_subslice, len_take_le by lia. unfold subslice. rewrite !take_drop.
    do 6 (split; [done|]). split; done.
  - right. split; [by apply find_tag_None|]. unfold save_section, save_find. by rewrite Ef.
Qed.
End file.

(** ** A sample file

    Under a stand-in for the hash: the first 32 bytes of the input, padded. *)

#[export] Instance prefix_sha2 : Sha2 := {
  sha2_state := list byte;
  sha2_new := [];
  sha2_update bytes h := h ++ bytes;
  sha2_finalize h := take 32 (h ++ replicate 32 x00)
}.

#[export] Instance prefix_sha2_laws : Sha2Laws.
Proof.
  split.
  - intros h. cbn [sha2_finalize prefix_sha2]. rewrite length_take, length_app, length_replicate. lia.
  - intros a b h. simpl. by rewrite app_assoc.
  - intros h. simpl. by rewrite app_nil_r.
Qed.

(** A one-byte value and its encoding. *)
#[export] Instance byte_postcard : Postcard byte := {
  to_allocvec b := Some [b];
  take_from_bytes l := match l with [] => None | b :: l => Some (b, l) end
}.

#[export] Instance byte_postcard_laws : PostcardLaws byte.
Proof. split. by intros v bytes rest [= <-]. Qed.

Definition sample_header : Header :=
  {| game_version := [x30; x2e; x31]; created_at_unix_secs := 42; map_identity := [x6d];
     title := [xc3; xa9]; thumbnail := [] |}.

Definition sample_writer : SaveWriter :=
  {| sw_header := sample_header; sw_sections := [(16, [x01; x02; x03]); (17, [x07])] |}.

Definition sample_bytes : list byte := container_image sample_writer.

Definition sample_reader : SaveReader := reader_of sample_writer.

Lemma sample_built : built sample_header sample_writer.
Proof.
  apply (adds_more _ {| sw_header := sample_header; sw_sections := [(16, [x01; x02; x03])] |}
    17 [x07] _ (Ok tt)); [|done|done].
  by apply (adds_more _ (save_begin sample_header) 16 [x01; x02; x03] _ (Ok tt)); [constructor|..].
Qed.

Lemma sample_limits_typed : limits_typed limits_default.
Proof. done. Qed.

Lemma sample_header_typed : header_typed sample_header.
Proof. unfold header_typed. by split_and!. Qed.

Lemma sample_finish : finish sample_writer limits_default = Ok sample_bytes.
Proof. vm_compute. reflexivity. Qed.

Lemma sample_open : save_open sample_bytes limits_default = Ok sample_reader.
Proof. vm_compute. reflexivity. Qed.

(** A flipped byte of a section is found by its digest. *)
Example sample_corrupt :
  save_open (<[145%nat := xff]> sample_bytes) limits_default = Err SvSectionDigestMismatch.
Proof. vm_compute. reflexivity. Qed.

Lemma finish_outcome_witness : finish sample_writer limits_default = Ok sample_bytes.
Proof.
  rewrite (finish_outcome sample_writer limits_default sample_limits_typed).
  vm_compute. reflexivity.
Defined.

Lemma save_file_roundtrip_witness :
  ∃ r, save_open sample_bytes limits_default = Ok r ∧ save_section 16 r = Ok [x01; x02; x03].
Proof.
  destruct (save_file_roundtrip sample_header sample_writer limits_default sample_bytes
    sample_built sample_header_typed sample_limits_typed sample_finish)
    as (r & Eo & _ & _ & Hs & _).
  exists r. split; [exact Eo|]. apply Hs, list_elem_of_In. by left.
Defined.

Lemma save_value_roundtrip_witness : save_deserialize (V:=byte) 17 sample_reader = Ok x07.
Proof.
  apply (save_value_roundtrip sample_header
    {| sw_header := sample_header; sw_sections := [(16, [x01; x02; x03])] |}
    sample_writer sample_writer 17 x07 limits_default sample_bytes sample_reader).
  - by apply (adds_more _ (save_begin sample_header) 16 [x01; x02; x03] _ (Ok tt)); [constructor|..].
  - vm_compute. reflexivity.
  - vm_compute. reflexivity.
  - constructor.
  - exact sample_header_typed.
  - exact sample_limits_typed.
  - exact sample_finish.
  - exact sample_open.
Defined.

Lemma save_open_exact_witness : opened sample_bytes limits_default sample_reader.
Proof. apply (save_open_exact sample_bytes limits_default sample_reader sample_limits_typed), sample_open. Defined.

Lemma save_section_verified_witness : save_section 18 sample_reader = Err SvSectionNotFound.
Proof.
  destruct (save_section_verified sample_bytes limits_default sample_reader 18
    sample_limits_typed sample_open) as [(e & data & bf & af & He & Ht & _)|[_ E]]; [|exact E].
  exfalso. revert Ht. apply list_elem_of_In in He. vm_compute in He.
  destruct He as [<-|[<-|[]]]; discriminate.
Defined.

(** ** The table may reach into the trailer

    [open] checks that every section ends before the trailer, but not that the
    prelude does: of a file without sections it accepts one whose header and
    section count are the very bytes compared with the digest. Under a digest
    of zeros the smallest such file is 62 bytes long. *)

Definition zero_sha2 : Sha2 := {|
  sha2_state := unit;
  sha2_new := tt;
  sha2_update _ _ := tt;
  sha2_finalize _ := replicate 32 x00
|}.

Lemma zero_sha2_laws : Sha2Laws (H:=zero_sha2).
Proof. split; [done|by intros ?? []|by intros []]. Qed.

Definition overlapping_header : Header :=
  {| game_version := []; created_at_unix_secs := 0; map_identity := []; title := [];
     thumbnail := replicate 28 x00 |}.

Lemma open_accepts_overlap :
  ∃ bytes r, save_open (H:=zero_sha2) bytes limits_default = Ok r ∧
    len bytes - TRAILER_LEN <
      len (prelude_image (sr_format_minor r) (sr_header r) (sr_entries r)).
Proof.
  exists (prelude_image 0 overlapping_header []).
  eexists. split; [vm_compute; reflexivity|]. vm_compute. reflexivity.
Qed.
