(* ===== verification/MediaPath.v ===== *)
(** * Path rules of the media readers

    [crates/ohl-media-archive/src/path.rs]: the normaliser every reader and the
    catalog planner apply to an untrusted path. A [&str] is the list of its
    UTF-8 bytes; the separators are ASCII, so splitting the text is splitting
    the bytes. *)

From S2P Require Export Prelude.

Definition MAX_PATH_BYTES : N := 4096.

Definition slash : byte := x2f.
Definition dot : byte := x2e.

Definition is_separator (b : byte) : bool := Byte.eqb b x2f || Byte.eqb b x5c.

(** [path.split(p)]: the parts between the matching bytes, at least one. *)
Fixpoint split_on (p : byte → bool) (path : list byte) : list (list byte) :=
  match path with
  | [] => [[]]
  | b :: path =>
      if p b then [] :: split_on p path
      else match split_on p path with
           | [] => [[b]]
           | part :: parts => (b :: part) :: parts
           end
  end.

(** [component == "." || component == ".."]. *)
Definition is_relative (component : list byte) : bool :=
  bool_decide (component = [dot]) || bool_decide (component = [dot; dot]).

(** The loop over the components, with the spelling built so far. *)
Fixpoint normalize_components (components : list (list byte)) (normalized : list byte)
  : option (list byte) :=
  match components with
  | [] => Some normalized
  | component :: components =>
      if len component =? 0 then normalize_components components normalized
      else if is_relative component then None
      else
        let normalized := if 1 <? len normalized then normalized ++ [slash] else normalized in
        normalize_components components (normalized ++ component)
  end.

Definition contains_byte (x : byte) (l : list byte) : bool := existsb (Byte.eqb x) l.

Definition normalize_path (path : list byte) : option (list byte) :=
  if (MAX_PATH_BYTES <? len path) || contains_byte x00 path then None
  else normalize_components (split_on is_separator path) [slash].

Definition is_single_path_component (name : list byte) : bool :=
  negb (len name =? 0) && (len name <=? MAX_PATH_BYTES) &&
  negb (bool_decide (name = [dot])) && negb (bool_decide (name = [dot; dot])) &&
  negb (contains_byte x00 name) && negb (contains_byte x2f name) &&
  negb (contains_byte x5c name).

(** The iterator's items. *)
Definition components (normalized : list byte) : list (list byte) :=
  List.filter (λ part, negb (len part =? 0)) (split_on (Byte.eqb slash) normalized).

(** ** What a normalised path is *)

(** The spelling of a list of components. *)
Fixpoint join_components (l : list (list byte)) : list byte :=
  match l with
  | [] => []
  | part :: l => slash :: part ++ join_components l
  end.

Definition spell (l : list (list byte)) : list byte :=
  match l with [] => [slash] | _ => join_components l end.

(** The components [normalize_path] keeps. *)
Definition kept (path : list byte) : list (list byte) :=
  List.filter (λ part, negb (len part =? 0)) (split_on is_separator path).

Lemma Byte_eqb_spec a b : reflect (a = b) (Byte.eqb a b).
Proof.
  destruct (Byte.eqb a b) eqn:E; constructor.
  - by apply Byte.byte_dec_bl.
  - intros ->. pose proof (Byte.byte_dec_lb (eq_refl b)) as Hb. congruence.
Qed.

Lemma contains_byte_spec x l : contains_byte x l = true ↔ In x l.
Proof.
  unfold contains_byte. rewrite existsb_exists. split.
  - intros (y & Hy & E). destruct (Byte_eqb_spec x y) as [->|]; done.
  - intros Hx. exists x. split; [done|]. by destruct (Byte_eqb_spec x x).
Qed.

Section split.
Context (p : byte → bool).

Lemma split_on_cons path : ∃ part parts, split_on p path = part :: parts.
Proof.
  induction path as [|b path (part & parts & E)]; simpl; [by eexists _, _|].
  rewrite E. destruct (p b); by eexists _, _.
Qed.

(** No part holds a separator; every byte of a part is a byte of the path. *)
Lemma split_on_parts path part :
  In part (split_on p path) → Forall (λ b, p b = false ∧ In b path) part.
Proof.
  revert part; induction path as [|b path IH]; intros part; simpl.
  - intros [<-|[]]. constructor.
  - destruct (split_on_cons path) as (q & parts & E). rewrite E in IH |- *.
    assert (Hup : ∀ l, Forall (λ c, p c = false ∧ In c path) l →
      Forall (λ c, p c = false ∧ (b = c ∨ In c path)) l).
    { intros l Hl. eapply Forall_impl; [|exact Hl]. intros c [H1 H2]. auto. }
    destruct (p b) eqn:Eb; simpl.
    + intros [<-|Hin]; [constructor|]. apply Hup. by apply IH.
    + intros [<-|Hin]; [|by apply Hup, IH; right].
      constructor; [by auto|]. apply Hup, IH. by left.
Qed.
End split.

Lemma normalize_components_spec l normalized : normalized ≠ [] →
  normalize_components l normalized =
    let parts := List.filter (λ part, negb (len part =? 0)) l in
    if existsb is_relative parts then None
    else Some (normalized ++
      match parts with
      | [] => []
      | part :: parts =>
          (if 1 <? len normalized then [slash] else []) ++ part ++ join_components parts
      end).
Proof.
  revert normalized; induction l as [|part l IH]; intros normalized Hne; simpl.
  - by rewrite app_nil_r.
  - destruct (N.eqb_spec (len part) 0) as [E|E]; simpl; [by apply IH|].
    destruct (is_relative part); simpl; [done|].
    set (prefix := if 1 <? len normalized then normalized ++ [slash] else normalized).
    assert (Hpre : prefix = normalized ++ (if 1 <? len normalized then [slash] else [])).
    { unfold prefix. by destruct (1 <? len normalized); rewrite ?app_nil_r. }
    assert (Hlen : (1 <? len (prefix ++ part)) = true).
    { apply N.ltb_lt. rewrite Hpre, !len_app. destruct normalized; [done|]. rewrite len_cons. lia. }
    rewrite IH by (by rewrite Hpre; destruct normalized). cbv zeta. rewrite Hlen.
    destruct (existsb is_relative _); [done|]. rewrite Hpre, <-!app_assoc. f_equal. do 3 f_equal.
    by destruct (List.filter _ l).
Qed.

(** The normaliser on every input. *)
Lemma normalize_path_run path :
  normalize_path path =
    if (MAX_PATH_BYTES <? len path) || contains_byte x00 path || existsb is_relative (kept path)
    then None else Some (spell (kept path)).
Proof.
  unfold normalize_path. destruct (_ || contains_byte x00 path); [done|]. simpl.
  rewrite normalize_components_spec by done. cbv zeta. fold (kept path).
  destruct (existsb is_relative (kept path)); [done|]. by destruct (kept path).
Qed.

Lemma kept_parts path part :
  In part (kept path) → part ≠ [] ∧ Forall (λ b, is_separator b = false ∧ In b path) part.
Proof.
  unfold kept. rewrite filter_In. intros [Hin Hne]. split.
  - by intros ->.
  - by apply split_on_parts.
Qed.

Lemma split_on_app p part rest : Forall (λ b, p b = false) part →
  split_on p (part ++ rest) =
    match split_on p rest with [] => [part] | q :: qs => (part ++ q) :: qs end.
Proof.
  intros Hp. induction Hp as [|b part Hb Hp IH]; simpl.
  - by destruct (split_on_cons p rest) as (q & qs & ->).
  - rewrite IH, Hb. by destruct (split_on p rest).
Qed.

(** Splitting a spelling at any separators that include the slash gives its
    components back. *)
Lemma split_on_join p l :
  p slash = true → Forall (λ part, part ≠ [] ∧ Forall (λ b, p b = false) part) l →
  List.filter (λ part, negb (len part =? 0)) (split_on p (join_components l)) = l.
Proof.
  intros Hs. induction 1 as [|part l [Hne Hp] Hl IH]; [done|]. simpl join_components.
  cbn [split_on]. rewrite Hs. cbn [List.filter len length]. simpl negb.
  rewrite split_on_app by done.
  destruct (split_on_cons p (join_components l)) as (q & qs & E).
  assert (Hq : q = []).
  { destruct l as [|part' l]; simpl in E; [by injection E|]. rewrite Hs in E. by injection E. }
  rewrite E in IH |- *. subst q. rewrite app_nil_r. cbn [List.filter] in IH |- *.
  destruct (N.eqb_spec (len part) 0) as [E0|]; [by apply len_0_nil in E0|].
  simpl in *. by rewrite IH.
Qed.

Lemma split_on_spell p l :
  p slash = true → Forall (λ part, part ≠ [] ∧ Forall (λ b, p b = false) part) l →
  List.filter (λ part, negb (len part =? 0)) (split_on p (spell l)) = l.
Proof.
  intros Hs Hl. destruct l as [|part l]; [simpl; by rewrite Hs|]. by apply split_on_join.
Qed.

Lemma kept_wf path :
  Forall (λ part, part ≠ [] ∧ Forall (λ b, is_separator b = false) part) (kept path).
Proof.
  apply Forall_forall. intros part [Hne Hp]%kept_parts. split; [done|].
  eapply Forall_impl; [|exact Hp]. by intros b [H1 _].
Qed.

(** Normalising keeps the components, whichever separators are used next. *)
Lemma components_spell_kept path : components (spell (kept path)) = kept path.
Proof.
  apply split_on_spell; [done|]. eapply Forall_impl; [|apply kept_wf].
  intros part [Hne Hp]. split; [done|]. eapply Forall_impl; [|exact Hp]. intros b Hb.
  destruct (Byte_eqb_spec slash b) as [<-|]; done.
Qed.

Lemma kept_spell_kept path : kept (spell (kept path)) = kept path.
Proof. apply split_on_spell; [done|apply kept_wf]. Qed.

Lemma join_components_bytes l b :
  In b (join_components l) → b = slash ∨ ∃ part, In part l ∧ In b part.
Proof.
  induction l as [|part l IH]; simpl; [done|]. intros [<-|Hin]; [by left|].
  apply in_app_or in Hin as [Hin|Hin]; [right; exists part; auto|].
  destruct (IH Hin) as [->|(q & Hq & Hb)]; [by left|]. right. exists q. auto.
Qed.

Lemma spell_bytes path b : In b (spell (kept path)) → b = slash ∨ In b path.
Proof.
  intros Hin. assert (H : b = slash ∨ ∃ part, In part (kept path) ∧ In b part).
  { destruct (kept path) as [|part l] eqn:E; [by destruct Hin as [<-|[]]; left|].
    by apply join_components_bytes. }
  destruct H as [->|(part & Hp & Hb)]; [by left|]. right.
  apply kept_parts in Hp as [_ Hp]. rewrite Forall_forall in Hp. by apply Hp.
Qed.

Lemma len_join_split p path : len (join_components (split_on p path)) = len path + 1.
Proof.
  induction path as [|b path IH]; [done|]. simpl.
  destruct (split_on_cons p path) as (q & qs & E). rewrite E in *.
  simpl in *. rewrite len_cons in IH. destruct (p b); simpl; rewrite ?len_app, ?len_cons in *;
    rewrite ?len_app in *; lia.
Qed.

Lemma len_join_filter l f : len (join_components (List.filter f l)) ≤ len (join_components l).
Proof.
  induction l as [|part l IH]; [done|]. simpl.
  destruct (f part); simpl; rewrite ?len_cons, ?len_app in *; lia.
Qed.

Lemma len_spell_kept path : len (spell (kept path)) ≤ len path + 1.
Proof.
  rewrite <-(len_join_split is_separator path). destruct (kept path) as [|part l] eqn:E.
  - rewrite len_join_split. simpl. rewrite len_cons, len_nil. lia.
  - change (spell (part :: l)) with (join_components (part :: l)). rewrite <-E. apply len_join_filter.
Qed.

Lemma no_nul_spell path :
  contains_byte x00 path = false → contains_byte x00 (spell (kept path)) = false.
Proof.
  intros Hn. destruct (contains_byte x00 (spell (kept path))) eqn:E; [|done].
  apply contains_byte_spec, spell_bytes in E as [E'|E]; [done|].
  apply contains_byte_spec in E. congruence.
Qed.

Lemma normalize_path_Some path normalized :
  normalize_path path = Some normalized ↔
  len path ≤ MAX_PATH_BYTES ∧ contains_byte x00 path = false ∧
  existsb is_relative (kept path) = false ∧ normalized = spell (kept path).
Proof.
  rewrite normalize_path_run. destruct (N.ltb_spec MAX_PATH_BYTES (len path)); simpl.
  { split; [done|]. intros (? & _). lia. }
  destruct (contains_byte x00 path); simpl; [split; [done|by intros (_ & ? & _)]|].
  destruct (existsb is_relative (kept path)).
  - split; [done|by intros (_ & _ & ? & _)].
  - split; [by intros [= <-]|by intros (_ & _ & _ & ->)].
Qed.

(** A component the normaliser keeps is a legal single component. *)
Lemma single_component path part :
  len path ≤ MAX_PATH_BYTES → contains_byte x00 path = false →
  existsb is_relative (kept path) = false → In part (kept path) →
  is_single_path_component part = true.
Proof.
  intros Hlen Hnul Hrel Hin. destruct (kept_parts _ _ Hin) as [Hne Hp].
  assert (Hno : ∀ x, is_separator x = true ∨ x = x00 → contains_byte x part = false).
  { intros x Hx. destruct (contains_byte x part) eqn:E; [|done]. exfalso.
    apply contains_byte_spec in E. rewrite Forall_forall in Hp. destruct (Hp _ E) as [Hs Hi].
    destruct Hx as [Hx| ->]; [congruence|]. apply contains_byte_spec in Hi. congruence. }
  assert (Hr : is_relative part = false).
  { destruct (is_relative part) eqn:E; [|done]. rewrite <-Hrel. symmetry.
    apply existsb_exists. by exists part. }
  unfold is_relative in Hr. apply orb_false_iff in Hr as [H1 H2].
  unfold is_single_path_component. rewrite H1, H2, !Hno by auto.
  destruct (N.eqb_spec (len part) 0) as [E|]; [by apply len_0_nil in E|].
  assert (Hle : len part ≤ len (spell (kept path)) - 1).
  { clear -Hin. induction (kept path) as [|q l IH]; [done|]. simpl. rewrite len_cons, len_app.
    destruct Hin as [->|Hin]; [lia|]. specialize (IH Hin). destruct l as [|q' l]; [done|].
    simpl in *. lia. }
  pose proof (len_spell_kept path).
  destruct (N.leb_spec (len part) MAX_PATH_BYTES); [done|lia].
Qed.

(** The path normaliser is canonical. It accepts exactly the paths within
    the length limit that hold no NUL byte and no [.] or [..] component; what it
    yields is absolute, one byte longer than its input at most, splits into
    exactly the non-empty components of the input whichever separators the input
    used, each a single legal path component, and normalises to itself whenever
    it is still within the length limit. *)
Theorem normalize_path_canonical path :
  let accepted := len path ≤ MAX_PATH_BYTES ∧ contains_byte x00 path = false ∧
                  existsb is_relative (kept path) = false in
  (¬ accepted → normalize_path path = None) ∧
  (accepted → ∃ normalized, normalize_path path = Some normalized ∧
     head normalized = Some slash ∧ len normalized ≤ len path + 1 ∧
     components normalized = kept path ∧
     Forall (λ part, is_single_path_component part = true) (components normalized) ∧
     (len normalized ≤ MAX_PATH_BYTES → normalize_path normalized = Some normalized)).
Proof.
  intros accepted. split.
  - intros Hn. destruct (normalize_path path) eqn:E; [|done].
    destruct Hn. apply normalize_path_Some in E. unfold accepted. tauto.
  - intros (Hlen & Hnul & Hrel). exists (spell (kept path)).
    split; [by apply normalize_path_Some|].
    split; [by destruct (kept path)|]. split; [apply len_spell_kept|].
    rewrite components_spell_kept. split; [done|]. split.
    + apply Forall_forall. intros part Hin. apply (single_component path); [done..|].
      by destruct (kept_parts path part Hin).
    + intros Hle. apply normalize_path_Some. rewrite kept_spell_kept.
      split; [done|]. split; [by apply no_nul_spell|done].
Qed.

Lemma normalize_path_canonical_witness :
  (∃ normalized, normalize_path [x61; x5c; x5c; x62] = Some normalized ∧
     components normalized = [[x61]; [x62]]) ∧
  normalize_path [x61; x2f; x2e; x2e] = None.
Proof.
  split.
  - destruct (proj2 (normalize_path_canonical [x61; x5c; x5c; x62])) as (n & En & _ & _ & Ec & _).
    + split; [|split]; vm_compute; congruence.
    + exists n. split; [exact En|]. rewrite Ec. vm_compute. reflexivity.
  - apply (proj1 (normalize_path_canonical [x61; x2f; x2e; x2e])). intros (_ & _ & E).
    vm_compute in E. discriminate E.
Defined.
