(* ===== verification/Catalog.v ===== *)
(** * The result catalog

    [crates/ohl-import/src/catalog.rs]: what the parent promotes a worker's
    enumeration to, the quotas it applies, and the planner that checks every
    archive-controlled value first. *)

From stdpp Require Import sets.
From S2P Require Export EntryBatch MediaPath.

#[local] Open Scope N_scope.

Definition SourceToken : Type := N.

(** [WorkerEpoch(NonZeroU64)]. *)
Definition WorkerEpoch : Type := N.

Definition worker_epoch_new (value : N) : option WorkerEpoch :=
  if value =? 0 then None else Some value.

Record CatalogGeneration : Type := { cg_epoch : WorkerEpoch; cg_enumeration : N }.

#[export] Instance CatalogGeneration_eq_dec : EqDecision CatalogGeneration.
Proof. solve_decision. Defined.

Record EntryMetadata : Type := {
  em_source_token : SourceToken;
  em_archive_path : list byte;
  em_size_bytes : N
}.

Record PlannedEntry : Type := {
  pe_source_token : SourceToken;
  pe_relative_path : list byte;
  pe_size_bytes : N
}.

(** ** [LayoutError] and [ImportLimits] *)

Inductive LayoutError : Type :=
| LE_InvalidLimits | LE_TooManyEntries | LE_TooManyPathBytes | LE_SourceTokenConflict
| LE_InvalidPath | LE_PathConflict | LE_EntryTooLarge | LE_PayloadTooLarge.

#[export] Instance LayoutError_eq_dec : EqDecision LayoutError.
Proof. solve_decision. Defined.

Record ImportLimits : Type := {
  il_entries : N;
  il_path_bytes : N;
  il_entry_bytes : N;
  il_total_bytes : N
}.

Definition import_limits_default : ImportLimits :=
  {| il_entries := MAXIMUM_ENUMERATED_ENTRIES;
     il_path_bytes := MAXIMUM_ENUMERATED_PATH_BYTES;
     il_entry_bytes := MAXIMUM_ENUMERATED_ENTRY_BYTES;
     il_total_bytes := MAXIMUM_ENUMERATED_TOTAL_BYTES |}.

Definition import_limits_new (entries path_bytes entry_bytes total_bytes : N)
  : result LayoutError ImportLimits :=
  guard_err ((entries =? 0) || (MAXIMUM_ENUMERATED_ENTRIES <? entries) ||
             (path_bytes =? 0) || (MAXIMUM_ENUMERATED_PATH_BYTES <? path_bytes) ||
             (entry_bytes =? 0) || (MAXIMUM_ENUMERATED_ENTRY_BYTES <? entry_bytes) ||
             (total_bytes =? 0) || (MAXIMUM_ENUMERATED_TOTAL_BYTES <? total_bytes) ||
             (total_bytes <? entry_bytes)) LE_InvalidLimits;;
  Ok {| il_entries := entries; il_path_bytes := path_bytes;
        il_entry_bytes := entry_bytes; il_total_bytes := total_bytes |}.

(** ** [Catalog] *)

Record Catalog : Type := {
  cat_entries : list PlannedEntry;
  cat_by_token : list (N * N);
  cat_total_bytes : N
}.

(** [slice::binary_search_by_key]'s loop: [base] is the first candidate and
    [size] the number of candidates left. *)
Fixpoint search_loop (fuel : nat) (token : N) (l : list (N * N))
    (base size : nat) : nat :=
  match fuel with
  | O => base
  | S fuel =>
      if (1 <? size)%nat then
        let half := (size / 2)%nat in
        let mid := (base + half)%nat in
        let base := match l !! mid with
                    | Some (key, _) => if token <? key then base else mid
                    | None => base
                    end in
        search_loop fuel token l base (size - half)
      else base
  end.

Definition binary_search (token : N) (l : list (N * N)) : option (N * N) :=
  entry ← l !! search_loop (length l) token l 0 (length l);
  if entry.1 =? token then Some entry else None.

Definition catalog_find (token : N) (self : Catalog) : option PlannedEntry :=
  row ← binary_search token (cat_by_token self);
  cat_entries self !! N.to_nat row.2.

(** ** [plan_catalog] *)

(** [u8::to_ascii_lowercase], on every byte of a string. *)
Definition to_ascii_lowercase (l : list byte) : list byte :=
  (λ b, if (0x41 <=? Byte.to_N b) && (Byte.to_N b <=? 0x5a)
        then byte_of_N (Byte.to_N b + 32) else b) <$> l.

(** The order of strings. *)
Fixpoint string_ltb (a b : list byte) : bool :=
  match a, b with
  | _, [] => false
  | [], _ :: _ => true
  | x :: a, y :: b =>
      (Byte.to_N x <? Byte.to_N y) || ((Byte.to_N x =? Byte.to_N y) && string_ltb a b)
  end.

(** [BTreeSet<String>::insert] on the sorted sequence of the set's elements;
    [None] when the element is already there. *)
Fixpoint btree_insert (x : list byte) (l : list (list byte)) : option (list (list byte)) :=
  match l with
  | [] => Some [x]
  | y :: l =>
      if string_ltb x y then Some (x :: y :: l)
      else if bool_decide (x = y) then None
      else l' ← btree_insert x l; Some (y :: l')
  end.

(** The locals of [plan_catalog]'s loop. *)
Record Plan : Type := {
  pl_planned : list PlannedEntry;
  pl_tokens : list N;
  pl_folded : list (list byte);
  pl_path_bytes : N;
  pl_total_bytes : N
}.

Definition plan_start : Plan :=
  {| pl_planned := []; pl_tokens := []; pl_folded := []; pl_path_bytes := 0; pl_total_bytes := 0 |}.

(** [total.checked_add(n).filter(|sum| sum <= limit)]. *)
Definition add_within (limit a b : N) : option N :=
  sum ← checked_add 64 a b;
  if sum <=? limit then Some sum else None.

(** One turn of the loop. *)
Definition plan_entry (limits : ImportLimits) (plan : Plan) (entry : EntryMetadata)
  : result LayoutError Plan :=
  guard_err (existsb (N.eqb (em_source_token entry)) (pl_tokens plan)) LE_SourceTokenConflict;;
  guard_err (il_entry_bytes limits <? em_size_bytes entry) LE_EntryTooLarge;;
  total_bytes ← ok_or (add_within (il_total_bytes limits) (pl_total_bytes plan) (em_size_bytes entry))
                  LE_PayloadTooLarge;
  path_bytes ← ok_or (add_within (il_path_bytes limits) (pl_path_bytes plan)
                        (len (em_archive_path entry))) LE_TooManyPathBytes;
  normalized ← ok_or (normalize_path (em_archive_path entry)) LE_InvalidPath;
  guard_err (bool_decide (normalized = [slash])) LE_InvalidPath;;
  folded ← ok_or (btree_insert (to_ascii_lowercase normalized) (pl_folded plan)) LE_PathConflict;
  mret {| pl_planned := pl_planned plan ++
            [{| pe_source_token := em_source_token entry; pe_relative_path := normalized;
                pe_size_bytes := em_size_bytes entry |}];
          pl_tokens := em_source_token entry :: pl_tokens plan;
          pl_folded := folded;
          pl_path_bytes := path_bytes;
          pl_total_bytes := total_bytes |}.

Fixpoint plan_entries (limits : ImportLimits) (plan : Plan) (l : list EntryMetadata)
  : result LayoutError Plan :=
  match l with
  | [] => Ok plan
  | entry :: l => plan ← plan_entry limits plan entry; plan_entries limits plan l
  end.

(** [path] lies below [previous]. *)
Definition is_below (previous path : list byte) : bool :=
  (len previous <? len path) && bool_decide (take (length previous) path = previous) &&
  bool_decide (path !! length previous = Some slash).

(** The loop over neighbours of the sorted set. *)
Fixpoint prefix_free (previous : option (list byte)) (l : list (list byte))
  : result LayoutError unit :=
  match l with
  | [] => Ok tt
  | path :: l =>
      guard_err (is_some_and previous (λ previous, is_below previous path)) LE_PathConflict;;
      prefix_free (Some path) l
  end.

(** [sort_unstable_by_key] on keys that are distinct. *)
Fixpoint insert_by_token (row : N * N) (l : list (N * N))
  : list (N * N) :=
  match l with
  | [] => [row]
  | row' :: l => if row.1 <? row'.1 then row :: row' :: l else row' :: insert_by_token row l
  end.

Definition sort_by_token (l : list (N * N)) : list (N * N) :=
  foldr insert_by_token [] l.

Definition plan_catalog (entries : list EntryMetadata) (limits : ImportLimits)
  : result LayoutError Catalog :=
  guard_err (il_entries limits <? len entries) LE_TooManyEntries;;
  plan ← plan_entries limits plan_start entries;
  prefix_free None (pl_folded plan);;
  let by_token := sort_by_token (imap (λ index entry, (pe_source_token entry, N.of_nat index))
                                   (pl_planned plan)) in
  mret {| cat_entries := pl_planned plan; cat_by_token := by_token;
          cat_total_bytes := pl_total_bytes plan |}.

(** ** The order of strings *)

Lemma byte_to_N_inj a b : Byte.to_N a = Byte.to_N b → a = b.
Proof. intros E. rewrite <-(byte_of_to_N a), <-(byte_of_to_N b). by rewrite E. Qed.

Definition string_lt (a b : list byte) : Prop := string_ltb a b = true.

Lemma string_lt_cons x y a b :
  string_lt (x :: a) (y :: b) ↔ Byte.to_N x < Byte.to_N y ∨ (x = y ∧ string_lt a b).
Proof.
  unfold string_lt. simpl. rewrite orb_true_iff, andb_true_iff, N.ltb_lt, N.eqb_eq.
  split; intros [?|[E ?]]; auto.
  - right. split; [by apply byte_to_N_inj|done].
  - right. by subst.
Qed.

Lemma string_lt_trans a b c : string_lt a b → string_lt b c → string_lt a c.
Proof.
  revert b c; induction a as [|x a IH]; intros [|y b] [|z c] Hab Hbc; try done.
  apply string_lt_cons in Hab as [Hab|[-> Hab]], Hbc as [Hbc|[<- Hbc]]; apply string_lt_cons.
  - left. lia.
  - by left.
  - by left.
  - right. split; [done|]. by eapply IH.
Qed.

Lemma string_lt_irrefl a : ¬ string_lt a a.
Proof. induction a as [|x a IH]; [done|]. intros [H|[_ H]]%string_lt_cons; [lia|done]. Qed.

Lemma string_lt_total a b : string_ltb a b = false → a ≠ b → string_lt b a.
Proof.
  revert b; induction a as [|x a IH]; intros [|y b] Hf Hne; try done.
  simpl in Hf. apply orb_false_iff in Hf as [H1 H2]. apply N.ltb_ge in H1.
  apply string_lt_cons. destruct (N.eqb_spec (Byte.to_N x) (Byte.to_N y)) as [E|E]; simpl in H2.
  - right. apply byte_to_N_inj in E as ->. split; [done|]. apply IH; [done|congruence].
  - left. lia.
Qed.

(** A string between a prefix and a string behind it continues the prefix. *)
Lemma string_lt_between a n b :
  string_lt a n → string_lt n (a ++ b) → ∃ m, n = a ++ m ∧ m ≠ [] ∧ string_lt m b.
Proof.
  revert n; induction a as [|x a IH]; intros [|y n] Han Hnb; try done.
  - exists (y :: n). done.
  - simpl in Hnb. apply string_lt_cons in Han as [Han|[-> Han]].
    + apply string_lt_cons in Hnb as [Hnb|[-> Hnb]]; lia.
    + apply string_lt_cons in Hnb as [Hnb|[_ Hnb]]; [lia|].
      destruct (IH _ Han Hnb) as (m & -> & Hm & Hlt). by exists m.
Qed.

(** ** The sorted set *)

Lemma btree_insert_Some x l l' :
  btree_insert x l = Some l' → Sorted.StronglySorted string_lt l →
  Sorted.StronglySorted string_lt l' ∧ Permutation l' (x :: l) ∧ ¬ In x l.
Proof.
  revert l'; induction l as [|y l IH]; intros l' E Hs; simpl in E.
  - injection E as <-. split; [by repeat constructor|]. by split; [|intros []].
  - apply Sorted.StronglySorted_inv in Hs as [Hs Hy].
    destruct (string_ltb x y) eqn:Exy.
    + injection E as <-. split; [|split; [done|]].
      * constructor; [by constructor|]. constructor; [done|].
        eapply Forall_impl; [|exact Hy]. intros z Hz. by apply (string_lt_trans x y z).
      * intros [->|Hin]; [by apply (string_lt_irrefl x)|].
        rewrite Forall_forall in Hy. apply (string_lt_irrefl x).
        apply (string_lt_trans x y x); [done|by apply Hy].
    + case_bool_decide as Heq; [done|].
      destruct (btree_insert x l) as [k|] eqn:Ek; simpl in E; [|done]. injection E as <-.
      destruct (IH k eq_refl Hs) as (Hk & Hp & Hn). split; [|split].
      * constructor; [done|]. apply Forall_forall. intros z Hz.
        apply (Permutation_in _ Hp) in Hz as [<-|Hz]; [by apply string_lt_total|].
        rewrite Forall_forall in Hy. by apply Hy.
      * rewrite Hp. constructor.
      * intros [->|Hin]; done.
Qed.

(** ** Planning *)

(** What planning makes of one entry. *)
Definition planned_from (entry : EntryMetadata) (planned : PlannedEntry) : Prop :=
  pe_source_token planned = em_source_token entry ∧
  pe_size_bytes planned = em_size_bytes entry ∧
  normalize_path (em_archive_path entry) = Some (pe_relative_path planned) ∧
  pe_relative_path planned ≠ [slash].

Definition folded_path (planned : PlannedEntry) : list byte :=
  to_ascii_lowercase (pe_relative_path planned).

Definition sum_sizes (l : list EntryMetadata) : N := foldr (λ e s, em_size_bytes e + s) 0 l.
Definition sum_paths (l : list EntryMetadata) : N := foldr (λ e s, len (em_archive_path e) + s) 0 l.

(** The locals after the entries [l]. *)
Record planned_upto (limits : ImportLimits) (l : list EntryMetadata) (plan : Plan) : Prop := {
  pu_planned : Forall2 planned_from l (pl_planned plan);
  pu_tokens : pl_tokens plan = rev (em_source_token <$> l);
  pu_nodup : List.NoDup (em_source_token <$> l);
  pu_sizes : Forall (λ e, em_size_bytes e ≤ il_entry_bytes limits) l;
  pu_total : pl_total_bytes plan = sum_sizes l ∧ sum_sizes l ≤ il_total_bytes limits;
  pu_paths : pl_path_bytes plan = sum_paths l ∧ sum_paths l ≤ il_path_bytes limits;
  pu_sorted : Sorted.StronglySorted string_lt (pl_folded plan);
  pu_folded : Permutation (pl_folded plan) (folded_path <$> pl_planned plan)
}.

Lemma sum_sizes_app l k : sum_sizes (l ++ k) = sum_sizes l + sum_sizes k.
Proof. induction l as [|e l IH]; simpl in *; [done|]. unfold sum_sizes in *. simpl. lia. Qed.

Lemma sum_paths_app l k : sum_paths (l ++ k) = sum_paths l + sum_paths k.
Proof. induction l as [|e l IH]; simpl in *; [done|]. unfold sum_paths in *. simpl. lia. Qed.

Lemma NoDup_snoc {A} (l : list A) x : List.NoDup l → ¬ In x l → List.NoDup (l ++ [x]).
Proof.
  intros Hn Hx. apply (Permutation_NoDup (l:=x :: l)); [apply Permutation_cons_append|].
  by constructor.
Qed.

Lemma existsb_token token l : existsb (N.eqb token) l = false ↔ ¬ In token l.
Proof.
  rewrite <-not_true_iff_false, existsb_exists. split.
  - intros H Hin. apply H. exists token. by rewrite N.eqb_refl.
  - intros H (x & Hin & E). apply N.eqb_eq in E. by subst.
Qed.

Lemma add_within_Some limit a b s : add_within limit a b = Some s → s = a + b ∧ s ≤ limit.
Proof.
  unfold add_within. destruct (checked_add 64 a b) as [sum|] eqn:E; simpl; [|done].
  apply checked_add_Some in E as [_ ->]. destruct (N.leb_spec (a + b) limit); [|done].
  by intros [= <-].
Qed.

Lemma plan_entry_inv limits l plan entry plan' :
  planned_upto limits l plan → plan_entry limits plan entry = Ok plan' →
  planned_upto limits (l ++ [entry]) plan'.
Proof.
  intros [Hp Ht Hn Hs [Ht1 Ht2] [Hp1 Hp2] Hsort Hperm] E. unfold plan_entry in E.
  rewrite !bind_Ok in E. destruct E as (? & E1%guard_err_Ok & E).
  rewrite bind_Ok in E. destruct E as (? & E2%guard_err_Ok & E).
  rewrite bind_Ok in E. destruct E as (total & E3%ok_or_Ok & E).
  rewrite bind_Ok in E. destruct E as (paths & E4%ok_or_Ok & E).
  rewrite bind_Ok in E. destruct E as (normalized & E5%ok_or_Ok & E).
  rewrite bind_Ok in E. destruct E as (? & E6%guard_err_Ok & E).
  rewrite bind_Ok in E. destruct E as (folded & E7%ok_or_Ok & E).
  injection E as <-. apply bool_decide_eq_false in E6. apply N.ltb_ge in E2.
  apply add_within_Some in E3 as [-> E3], E4 as [-> E4].
  apply btree_insert_Some in E7 as (Hs' & Hp' & _); [|done].
  apply existsb_token in E1. rewrite Ht, <-in_rev in E1.
  split; cbn [pl_planned pl_tokens pl_folded pl_path_bytes pl_total_bytes].
  - apply Forall2_app; [done|]. by repeat constructor.
  - by rewrite fmap_app, rev_app_distr, Ht.
  - rewrite fmap_app. by apply NoDup_snoc.
  - apply Forall_app. by repeat constructor.
  - rewrite sum_sizes_app. unfold sum_sizes at 2 4. simpl. lia.
  - rewrite sum_paths_app. unfold sum_paths at 2 4. simpl. lia.
  - done.
  - rewrite Hp', Hperm, fmap_app. simpl. by rewrite Permutation_app_comm.
Qed.

Lemma plan_entries_inv limits l k plan plan' :
  planned_upto limits l plan → plan_entries limits plan k = Ok plan' →
  planned_upto limits (l ++ k) plan'.
Proof.
  revert l plan; induction k as [|e k IH]; intros l plan Hu E; simpl in E.
  - injection E as <-. by rewrite app_nil_r.
  - apply bind_Ok in E as (plan1 & E1 & E2). rewrite cons_middle, app_assoc.
    eapply IH; [|exact E2]. by eapply plan_entry_inv.
Qed.

Lemma plan_start_inv limits : planned_upto limits [] plan_start.
Proof. split; simpl; try done; try constructor; lia. Qed.

Lemma plan_catalog_inv entries limits cat :
  plan_catalog entries limits = Ok cat →
  ∃ plan, planned_upto limits entries plan ∧ prefix_free None (pl_folded plan) = Ok tt ∧
    len entries ≤ il_entries limits ∧ cat_entries cat = pl_planned plan ∧
    cat_total_bytes cat = pl_total_bytes plan ∧
    cat_by_token cat = sort_by_token
      (imap (λ index entry, (pe_source_token entry, N.of_nat index)) (pl_planned plan)).
Proof.
  unfold plan_catalog. rewrite bind_Ok. intros (? & E1%guard_err_Ok & E).
  rewrite bind_Ok in E. destruct E as (plan & E2 & E).
  rewrite bind_Ok in E. destruct E as ([] & E3 & [= <-]). apply N.ltb_ge in E1.
  exists plan. split; [|by auto]. apply (plan_entries_inv limits [] entries plan_start); [|done].
  apply plan_start_inv.
Qed.

(** ** The token index *)

Definition key_lt (a b : N * N) : Prop := a.1 < b.1.

Lemma insert_by_token_spec row l :
  Sorted.StronglySorted key_lt l → ¬ In row.1 (fst <$> l) →
  Sorted.StronglySorted key_lt (insert_by_token row l) ∧
  Permutation (insert_by_token row l) (row :: l).
Proof.
  induction l as [|row' l IH]; simpl; intros Hs Hn; [by repeat constructor|].
  apply Sorted.StronglySorted_inv in Hs as [Hs Hr].
  destruct (N.ltb_spec row.1 row'.1) as [Hlt|Hge].
  - split; [|done]. constructor; [by constructor|]. constructor; [done|].
    eapply Forall_impl; [|exact Hr]. unfold key_lt. intros z Hz. simpl in Hz. lia.
  - destruct IH as [IHs IHp]; [done|tauto|]. split.
    + constructor; [done|]. apply Forall_forall. intros z Hz.
      apply (Permutation_in _ IHp) in Hz as [<-|Hz].
      * unfold key_lt. assert (row'.1 ≠ row.1) by tauto. lia.
      * rewrite Forall_forall in Hr. by apply Hr.
    + rewrite IHp. constructor.
Qed.

Lemma sort_by_token_spec l :
  List.NoDup (fst <$> l) →
  Sorted.StronglySorted key_lt (sort_by_token l) ∧ Permutation (sort_by_token l) l.
Proof.
  induction l as [|row l IH]; simpl; intros Hn; [by repeat constructor|].
  apply NoDup_cons_iff in Hn as [Hx Hn]. destruct (IH Hn) as [Hs Hp].
  destruct (insert_by_token_spec row (sort_by_token l)) as [Hs' Hp']; [done| |].
  - rewrite Hp. done.
  - split; [done|]. by rewrite Hp', Hp.
Qed.

Lemma StronglySorted_nth {A} (R : A → A → Prop) l a b x y :
  Sorted.StronglySorted R l → l !! a = Some x → l !! b = Some y → (a < b)%nat → R x y.
Proof.
  intros Hs. revert a b; induction Hs as [|z l Hs IH Hz]; intros a b Ha Hb Hab; [done|].
  destruct b as [|b]; [lia|]. simpl in Hb. destruct a as [|a]; simpl in Ha.
  - injection Ha as <-. rewrite Forall_forall in Hz. apply Hz.
    apply list_elem_of_In. by eapply list_elem_of_lookup_2.
  - apply (IH a b); [done|done|lia].
Qed.

(** The search loop keeps the sought key's position in its window. *)
Lemma search_loop_spec fuel token l base size i j :
  Sorted.StronglySorted key_lt l → l !! i = Some (token, j) →
  (base ≤ i < base + size)%nat → (base + size ≤ length l)%nat → (size ≤ fuel)%nat →
  search_loop fuel token l base size = i.
Proof.
  intros Hs Hi. revert base size; induction fuel as [|fuel IH]; intros base size Hb Hl Hf; [lia|].
  cbn [search_loop]. destruct (Nat.ltb_spec 1 size) as [H1|H1]; [|lia].
  pose proof (Nat.div_mod size 2 ltac:(lia)). pose proof (Nat.mod_upper_bound size 2 ltac:(lia)).
  set (half := (size / 2)%nat) in *.
  destruct (l !! (base + half)%nat) as [[key k]|] eqn:Hmid; [|apply lookup_ge_None in Hmid; lia].
  assert (Hord : ∀ a b x y, l !! a = Some x → l !! b = Some y → (a < b)%nat → x.1 < y.1).
  { intros a b x y Ha Hbb Hab. by apply (StronglySorted_nth key_lt l a b). }
  destruct (N.ltb_spec token key) as [Hlt|Hge]; apply IH; try lia.
  - destruct (decide (i < base + half)%nat) as [|Hn]; [lia|]. exfalso.
    destruct (decide (i = base + half)%nat) as [->|].
    + rewrite Hi in Hmid. injection Hmid as <- _. lia.
    + pose proof (Hord (base + half)%nat i _ _ Hmid Hi ltac:(lia)). simpl in *. lia.
  - destruct (decide (base + half ≤ i)%nat) as [|Hn]; [lia|]. exfalso.
    pose proof (Hord i (base + half)%nat _ _ Hi Hmid ltac:(lia)). simpl in *. lia.
Qed.

Lemma binary_search_spec token l row :
  Sorted.StronglySorted key_lt l → binary_search token l = Some row ↔ In row l ∧ row.1 = token.
Proof.
  intros Hs. unfold binary_search. split.
  - destruct (l !! search_loop (length l) token l 0 (length l)) as [row'|] eqn:E; simpl; [|done].
    destruct (N.eqb_spec row'.1 token) as [Et|]; [|done]. intros [= <-]. split; [|done].
    apply list_elem_of_In. by eapply list_elem_of_lookup_2.
  - intros [Hin Ht]. apply list_elem_of_In, list_elem_of_lookup_1 in Hin as [i Hi].
    destruct row as [t j]. simpl in Ht. subst t.
    pose proof (lookup_lt_Some _ _ _ Hi). rewrite (search_loop_spec _ _ _ _ _ i j) by (done || lia).
    rewrite Hi. simpl. by rewrite N.eqb_refl.
Qed.

(** The index has one row per entry, its token and its position. *)
Lemma index_rows (l : list PlannedEntry) token j :
  In (token, j) (imap (λ index entry, (pe_source_token entry, N.of_nat index)) l) ↔
  ∃ e, l !! N.to_nat j = Some e ∧ pe_source_token e = token.
Proof.
  rewrite <-list_elem_of_In, elem_of_lookup_imap. split.
  - intros (i & e & [= -> ->] & Hi). exists e. by rewrite Nat2N.id.
  - intros (e & He & <-). exists (N.to_nat j), e. by rewrite N2Nat.id.
Qed.

Lemma index_tokens (l : list PlannedEntry) :
  fst <$> imap (λ index entry, (pe_source_token entry, N.of_nat index)) l = pe_source_token <$> l.
Proof. rewrite fmap_imap. apply imap_const. Qed.

Lemma planned_tokens l planned :
  Forall2 planned_from l planned → pe_source_token <$> planned = em_source_token <$> l.
Proof. induction 1 as [|e p l planned (Ht & _) Hl IH]; [done|]. simpl. f_equal; [exact Ht|exact IH]. Qed.

Lemma catalog_find_run entries limits cat token e :
  plan_catalog entries limits = Ok cat →
  catalog_find token cat = Some e ↔ In e (cat_entries cat) ∧ pe_source_token e = token.
Proof.
  intros (plan & Hu & _ & _ & He & _ & Hi)%plan_catalog_inv. unfold catalog_find.
  rewrite Hi, He. clear cat He Hi. destruct Hu as [Hp _ Hn _ _ _ _ _].
  destruct (sort_by_token_spec (imap (λ index entry, (pe_source_token entry, N.of_nat index))
    (pl_planned plan))) as [Hs Hperm].
  { by rewrite index_tokens, (planned_tokens _ _ Hp). }
  split.
  - destruct (binary_search _ _) as [[t j]|] eqn:E; simpl; [|done]. intros Hj.
    apply binary_search_spec in E as [Hin Ht]; [|done]. simpl in Ht. subst t.
    apply (Permutation_in _ Hperm), index_rows in Hin as (e' & He' & Ht). split.
    + apply list_elem_of_In. by eapply list_elem_of_lookup_2.
    + congruence.
  - intros [Hin Ht]. apply list_elem_of_In, list_elem_of_lookup_1 in Hin as [i Hi].
    rewrite (proj2 (binary_search_spec token _ (token, N.of_nat i) Hs)); simpl.
    + by rewrite Nat2N.id.
    + split; [|done]. apply (Permutation_in _ (Permutation_sym Hperm)), index_rows. exists e.
      by rewrite Nat2N.id.
Qed.

(** ** Aliases *)

Lemma is_below_spec a b : is_below a b = true ↔ ∃ m, b = a ++ slash :: m.
Proof.
  unfold is_below. rewrite !andb_true_iff, N.ltb_lt, !bool_decide_eq_true. split.
  - intros [[Hl Ht] Hs]. exists (drop (S (length a)) b).
    rewrite <-(take_drop (length a) b) at 1. rewrite Ht. f_equal. by apply drop_S.
  - intros (m & ->). rewrite len_app, len_cons, take_app_length, lookup_app_r by done.
    rewrite Nat.sub_diag. split; [|done]. split; [lia|done].
Qed.

Lemma prefix_free_adjacent previous l :
  prefix_free previous l = Ok tt →
  ∀ a b i, l !! i = Some a → l !! S i = Some b → is_below a b = false.
Proof.
  revert previous; induction l as [|x l IH]; intros previous E a b i Ha Hb; [done|].
  cbn [prefix_free] in E. apply bind_Ok in E as (? & _ & E).
  destruct i as [|i]; simpl in Ha, Hb; [|by apply (IH _ E a b i)].
  injection Ha as <-. destruct l as [|y l]; [done|]. injection Hb as <-.
  cbn [prefix_free] in E. apply bind_Ok in E as (? & E%guard_err_Ok & _). exact E.
Qed.

(** In a sorted set whose neighbours do not alias, an alias has a third string
    in between. *)
Lemma alias_between l a m :
  Sorted.StronglySorted string_lt l → prefix_free None l = Ok tt →
  In a l → In (a ++ slash :: m) l →
  ∃ c m', In (a ++ c :: m') l ∧ Byte.to_N c < Byte.to_N slash.
Proof.
  intros Hs Hp Ha Hb. apply list_elem_of_In, list_elem_of_lookup_1 in Ha as [i Hi], Hb as [j Hj].
  assert (Hab : string_lt a (a ++ slash :: m)).
  { clear. induction a as [|x a IH]; [done|]. apply string_lt_cons. by right. }
  assert (Hij : (i < j)%nat).
  { destruct (Nat.lt_trichotomy i j) as [|[->|Hji]]; [done| |].
    - rewrite Hi in Hj. injection Hj as E. exfalso. rewrite <-E in Hab. by apply string_lt_irrefl in Hab.
    - exfalso. apply (string_lt_irrefl a). eapply string_lt_trans; [exact Hab|].
      by apply (StronglySorted_nth string_lt l j i). }
  destruct (l !! S i) as [n|] eqn:Hn; [|apply lookup_ge_None in Hn; apply lookup_lt_Some in Hj; lia].
  pose proof (StronglySorted_nth string_lt l i (S i) _ _ Hs Hi Hn ltac:(lia)) as Han.
  pose proof (prefix_free_adjacent _ _ Hp _ _ _ Hi Hn) as Hbelow.
  assert (Hnb : string_lt n (a ++ slash :: m)).
  { destruct (decide (S i = j)) as [E|]; [|apply (StronglySorted_nth string_lt l (S i) j); auto; lia].
    exfalso. rewrite <-E, Hn in Hj. injection Hj as ->.
    rewrite (proj2 (is_below_spec _ _)) in Hbelow; [done|]. by exists m. }
  destruct (string_lt_between _ _ _ Han Hnb) as (k & -> & Hk & Hlt).
  destruct k as [|c k]; [done|]. exists c, k. split.
  - apply list_elem_of_In. by eapply list_elem_of_lookup_2.
  - apply string_lt_cons in Hlt as [?|[-> _]]; [done|].
    rewrite (proj2 (is_below_spec _ _)) in Hbelow; [done|]. by exists k.
Qed.

(** ** Properties *)

(** C25: A planned catalog is the enumeration, checked: one entry per worker
    entry, in order, with its token and size and the normalised spelling of its
    path, never the root; no two entries share a token or, up to ASCII case, a
    path; and the entry count, each size, the sum of the sizes, which is the
    catalog's total, and the sum of the path lengths are within the quotas. *)
Theorem plan_catalog_sound entries limits cat :
  plan_catalog entries limits = Ok cat →
  Forall2 planned_from entries (cat_entries cat) ∧
  List.NoDup (pe_source_token <$> cat_entries cat) ∧
  List.NoDup (folded_path <$> cat_entries cat) ∧
  len entries ≤ il_entries limits ∧
  Forall (λ e, pe_size_bytes e ≤ il_entry_bytes limits) (cat_entries cat) ∧
  cat_total_bytes cat = sum_sizes entries ∧ sum_sizes entries ≤ il_total_bytes limits ∧
  sum_paths entries ≤ il_path_bytes limits.
Proof.
  intros (plan & [Hp Ht Hn Hs [Ht1 Ht2] [Hp1 Hp2] Hsort Hperm] & _ & Hl & He & Hc & _)%plan_catalog_inv.
  rewrite He, Hc. split; [done|]. split; [by rewrite (planned_tokens _ _ Hp)|]. split.
  { eapply Permutation_NoDup; [exact Hperm|]. clear -Hsort.
    induction Hsort as [|x l Hs IH Hx]; constructor; [|done]. intros Hin.
    rewrite Forall_forall in Hx. by apply (string_lt_irrefl x), Hx. }
  split; [done|]. split; [|done].
  clear -Hp Hs. induction Hp as [|e p l planned (_ & E & _) Hp IH]; [constructor|].
  apply Forall_cons_iff in Hs as [He Hs]. constructor; [by rewrite E|by apply IH].
Qed.

(** Looking a token up by binary search in the catalog's index finds
    exactly the entry with that token: it succeeds if and only if there is one. *)
Theorem catalog_find_exact entries limits cat token e :
  plan_catalog entries limits = Ok cat →
  catalog_find token cat = Some e ↔ In e (cat_entries cat) ∧ pe_source_token e = token.
Proof. exact (catalog_find_run entries limits cat token e). Qed.

(** What the neighbour check buys. If a planned catalog holds, up to ASCII
    case, both a path and a path below it, then it also holds a third path that
    continues the first with a byte smaller than the slash; without such a path
    no file of the catalog is a directory of another. *)
Theorem plan_catalog_aliases entries limits cat a b :
  plan_catalog entries limits = Ok cat →
  In a (folded_path <$> cat_entries cat) → In b (folded_path <$> cat_entries cat) →
  is_below a b = true →
  ∃ c m, In (a ++ c :: m) (folded_path <$> cat_entries cat) ∧ Byte.to_N c < Byte.to_N slash.
Proof.
  intros (plan & [_ _ _ _ _ _ Hsort Hperm] & Hpf & _ & He & _)%plan_catalog_inv Ha Hb Hab.
  rewrite He in *. apply is_below_spec in Hab as [m ->].
  apply (Permutation_in _ (Permutation_sym Hperm)) in Ha, Hb.
  destruct (alias_between _ _ _ Hsort Hpf Ha Hb) as (c & m' & Hin & Hc).
  exists c, m'. split; [|done]. by apply (Permutation_in _ Hperm).
Qed.

(** A file [a], a file [a-b] and a file [a/c]: [a] is a directory of the last. *)
Definition alias_entries : list EntryMetadata :=
  [ {| em_source_token := 1; em_archive_path := [x61]; em_size_bytes := 1 |};
    {| em_source_token := 2; em_archive_path := [x61; x2d; x62]; em_size_bytes := 1 |};
    {| em_source_token := 3; em_archive_path := [x61; x2f; x63]; em_size_bytes := 1 |} ].

(** The planner does not keep its promise that no file aliases a directory
    prefix of another: with a path in between it plans a catalog in which one
    entry's path is a directory of another's, while without it the same pair is
    refused. *)
Example plan_catalog_misses_alias :
  (∃ cat a b, plan_catalog alias_entries import_limits_default = Ok cat ∧
     In a (pe_relative_path <$> cat_entries cat) ∧ In b (pe_relative_path <$> cat_entries cat) ∧
     is_below a b = true) ∧
  plan_catalog (filter (λ e, em_source_token e ≠ 2) alias_entries) import_limits_default =
    Err LE_PathConflict.
Proof.
  split; [|vm_compute; reflexivity].
  exists {| cat_entries := [ Build_PlannedEntry 1 [x2f; x61] 1;
                             Build_PlannedEntry 2 [x2f; x61; x2d; x62] 1;
                             Build_PlannedEntry 3 [x2f; x61; x2f; x63] 1 ];
            cat_by_token := [(1, 0); (2, 1); (3, 2)]; cat_total_bytes := 3 |}.
  exists [x2f; x61], [x2f; x61; x2f; x63].
  split; [vm_compute; reflexivity|]. split; [by left|]. split; [by right; right; left|done].
Qed.

(** ** Witnesses *)

Definition sample_entries : list EntryMetadata :=
  [ {| em_source_token := 7; em_archive_path := [x62; x5c; x63]; em_size_bytes := 10 |};
    {| em_source_token := 3; em_archive_path := [x61]; em_size_bytes := 5 |} ].

Definition sample_catalog : Catalog :=
  {| cat_entries := [ Build_PlannedEntry 7 [x2f; x62; x2f; x63] 10;
                      Build_PlannedEntry 3 [x2f; x61] 5 ];
     cat_by_token := [(3, 1); (7, 0)]; cat_total_bytes := 15 |}.

Lemma sample_plan : plan_catalog sample_entries import_limits_default = Ok sample_catalog.
Proof. vm_compute. reflexivity. Qed.

Lemma plan_catalog_sound_witness : cat_total_bytes sample_catalog = 15 ∧ len sample_entries ≤ 50000.
Proof.
  destruct (plan_catalog_sound _ _ _ sample_plan) as (_ & _ & _ & Hl & _ & Ht & _).
  split; [rewrite Ht; vm_compute; reflexivity|exact Hl].
Defined.

Lemma catalog_find_exact_witness :
  catalog_find 3 sample_catalog = Some (Build_PlannedEntry 3 [x2f; x61] 5).
Proof.
  apply (catalog_find_exact _ _ _ 3 (Build_PlannedEntry 3 [x2f; x61] 5) sample_plan).
  split; [right; left|]; reflexivity.
Defined.

Lemma plan_catalog_aliases_witness :
  ∃ cat c m, plan_catalog alias_entries import_limits_default = Ok cat ∧
    In ([x2f; x61] ++ c :: m) (folded_path <$> cat_entries cat) ∧ Byte.to_N c < Byte.to_N slash.
Proof.
  destruct (plan_catalog alias_entries import_limits_default) as [cat|e] eqn:E;
    [|vm_compute in E; discriminate E].
  destruct (plan_catalog_aliases _ _ cat [x2f; x61] [x2f; x61; x2f; x63] E) as (c & m & Hin & Hc).
  - vm_compute in E. injection E as <-. left. vm_compute. reflexivity.
  - vm_compute in E. injection E as <-. right. right. left. vm_compute. reflexivity.
  - vm_compute. reflexivity.
  - exists cat, c, m. split; [reflexivity|]. split; assumption.
Defined.
