(* ===== verification/ResultSession.v ===== *)
(** * The parent's result session

    [crates/ohl-import/src/result_session.rs]: the parent's validation of
    everything a worker sends. It owns the session validator of [Session.v],
    checks every frame with its typed decoder and the budgets left, and promotes
    an enumeration to a catalog of [Catalog.v] or streams an entry into the
    caller's sink. The first failure retires the session for good. *)

From stdpp Require Import sets.
From S2P Require Export EntryBatch Session Catalog.

#[local] Open Scope N_scope.

(** ** The sink *)

(** [trait ByteSink]; [SinkRejected] carries nothing. *)
Class ByteSink (K : Type) : Type := sink_write : list byte → M K unit unit.

(** ** Errors and state *)

Inductive ResultSessionError : Type :=
| RE_InvalidConfiguration
| RE_InvalidState
| RE_Protocol (error : ProtocolError)
| RE_Layout (error : LayoutError)
| RE_ResultValidation
| RE_UnknownSourceToken
| RE_DownstreamFailure
| RE_IncompleteStream
| RE_GenerationExhausted
| RE_SourceInvalidated
| RE_SourceReadFailure
| RE_WorkerFailure.

#[export] Instance ResultSessionError_eq_dec : EqDecision ResultSessionError.
Proof. solve_decision. Defined.

Inductive ReadRequestOutcome : Type :=
| Serviceable (request : ReadRequest)
| IgnoredAfterCancel.

Record Candidate : Type := {
  cd_generation : CatalogGeneration;
  cd_promotable : bool;
  cd_remaining_entries : N;
  cd_remaining_path_bytes : N;
  cd_remaining_total_bytes : N;
  cd_previous_source_token : option N;
  cd_entries : list EntryMetadata
}.

(** [Stream] is its one field. *)
Record ResultSession : Type := {
  rs_protocol : SessionValidator;
  rs_limits : ImportLimits;
  rs_epoch : WorkerEpoch;
  rs_failure : option ResultSessionError;
  rs_enumeration_counter : N;
  rs_candidate : option Candidate;
  rs_catalog : option (CatalogGeneration * Catalog);
  rs_stream : option N
}.

(** *** Assignments [self.field = value] *)

Definition rs_put_protocol (x : SessionValidator) (s : ResultSession) : ResultSession :=
  let (_, b, c, d, e, f, g, h) := s in Build_ResultSession x b c d e f g h.
Definition rs_put_failure (x : option ResultSessionError) (s : ResultSession) : ResultSession :=
  let (a, b, c, _, e, f, g, h) := s in Build_ResultSession a b c x e f g h.
Definition rs_put_counter (x : N) (s : ResultSession) : ResultSession :=
  let (a, b, c, d, _, f, g, h) := s in Build_ResultSession a b c d x f g h.
Definition rs_put_candidate (x : option Candidate) (s : ResultSession) : ResultSession :=
  let (a, b, c, d, e, _, g, h) := s in Build_ResultSession a b c d e x g h.
Definition rs_put_catalog (x : option (CatalogGeneration * Catalog)) (s : ResultSession)
  : ResultSession :=
  let (a, b, c, d, e, f, _, h) := s in Build_ResultSession a b c d e f x h.
Definition rs_put_stream (x : option N) (s : ResultSession) : ResultSession :=
  let (a, b, c, d, e, f, g, _) := s in Build_ResultSession a b c d e f g x.

(** *** Construction and accessors *)

Definition result_session_new (protocol : SessionValidator) (epoch : WorkerEpoch)
    (limits : ImportLimits) : result ResultSessionError ResultSession :=
  guard_err (bool_decide (sv_error protocol ≠ None) || bool_decide (sv_state protocol ≠ Idle))
    RE_InvalidConfiguration;;
  Ok {| rs_protocol := protocol; rs_limits := limits; rs_epoch := epoch; rs_failure := None;
        rs_enumeration_counter := 0; rs_candidate := None; rs_catalog := None;
        rs_stream := None |}.

Definition rs_is_terminal (self : ResultSession) : bool := bool_decide (rs_failure self ≠ None).

Definition remaining_stream_bytes (self : ResultSession) : N := default 0 (rs_stream self).

(** [ResultSession::catalog]; the view is the pair it is built from. *)
Definition rs_catalog_view (self : ResultSession) : option (CatalogGeneration * Catalog) :=
  if rs_is_terminal self then None else rs_catalog self.

(** *** Failing *)

Section session.
Abbreviation RM A := (M ResultSession ResultSessionError A).

Definition retire_all : RM unit :=
  modify (rs_put_catalog None);;
  modify (rs_put_candidate None);;
  modify (rs_put_stream None).

Definition retire (error : ResultSessionError) : RM ResultSessionError :=
  self ← get;
  (if bool_decide (rs_failure self = None)
   then modify (rs_put_failure (Some error));; retire_all
   else mret tt);;
  self ← get;
  mret (default error (rs_failure self)).

Definition rs_fail {A} (error : ResultSessionError) : RM A :=
  error ← retire error; throw error.

Definition rs_guard : RM unit :=
  self ← get;
  match rs_failure self with None => mret tt | Some error => throw error end.

(** [match r { Ok(a) => a, Err(e) => return self.fail(into(e)) }]. *)
Definition or_fail {F A} (into : F → ResultSessionError) (r : result F A) : RM A :=
  match r with Ok a => mret a | Err error => rs_fail (into error) end.

(** [let Some(a) = o else { return self.fail(error) }]. *)
Definition some_or_fail {A} (o : option A) (error : ResultSessionError) : RM A :=
  match o with Some a => mret a | None => rs_fail error end.

Definition rs_observe (direction : Direction) (frame : FrameView) : RM unit :=
  r ← attempt (zoom rs_protocol rs_put_protocol (observe direction (fv_header frame)));
  or_fail RE_Protocol r.

(** *** Enumeration *)

Definition rs_begin_enumeration (frame : FrameView) : RM unit :=
  rs_guard;;
  or_fail RE_Protocol (decode_enumerate_payload frame);;
  self ← get;
  enumeration ← some_or_fail
    (counter ← checked_add 64 (rs_enumeration_counter self) 1; worker_epoch_new counter)
    RE_GenerationExhausted;
  rs_observe ParentToWorker frame;;
  retire_all;;
  modify (rs_put_counter enumeration);;
  modify (rs_put_candidate (Some
    {| cd_generation := {| cg_epoch := rs_epoch self; cg_enumeration := enumeration |};
       cd_promotable := true;
       cd_remaining_entries := il_entries (rs_limits self);
       cd_remaining_path_bytes := il_path_bytes (rs_limits self);
       cd_remaining_total_bytes := il_total_bytes (rs_limits self);
       cd_previous_source_token := None;
       cd_entries := [] |})).

Definition metadata_of (entry : EntryBatchEntry) : EntryMetadata :=
  {| em_source_token := be_source_token entry;
     em_archive_path := be_archive_path entry;
     em_size_bytes := be_size_bytes entry |}.

(** The loop's locals: [batch_path_bytes], [batch_total_bytes], [last_token]
    and [prepared]. *)
Fixpoint gather (l : list EntryBatchEntry) (path_bytes total_bytes last : N)
    (prepared : list EntryMetadata) : N * N * N * list EntryMetadata :=
  match l with
  | [] => (path_bytes, total_bytes, last, prepared)
  | entry :: l =>
      gather l (wrapping_add 64 path_bytes (len (be_archive_path entry)))
        (wrapping_add 64 total_bytes (be_size_bytes entry)) (be_source_token entry)
        (prepared ++ [metadata_of entry])
  end.

Definition rs_accept_entry_batch (frame : FrameView) : RM unit :=
  rs_guard;;
  self ← get;
  candidate ← some_or_fail (rs_candidate self) RE_InvalidState;
  policy ← or_fail RE_Protocol
    (entry_batch_policy_new (cd_remaining_entries candidate) (cd_remaining_path_bytes candidate)
       (il_entry_bytes (rs_limits self)) (cd_remaining_total_bytes candidate)
       (cd_previous_source_token candidate));
  let storage := replicate (N.to_nat MAXIMUM_ENTRY_BATCH_ENTRIES) entry_default in
  decoded ← or_fail RE_Protocol (snd (decode_entry_batch_payload frame policy storage));
  let '(path_bytes, total_bytes, last_token, prepared) := gather (entries decoded) 0 0 0 [] in
  let accepted_entries := default (2 ^ 32 - 1) (try_from 32 (len prepared)) in
  rs_observe WorkerToParent frame;;
  self ← get;
  candidate ← some_or_fail (rs_candidate self) RE_InvalidState;
  modify (rs_put_candidate (Some
    {| cd_generation := cd_generation candidate;
       cd_promotable := cd_promotable candidate;
       cd_remaining_entries := wrapping_sub 32 (cd_remaining_entries candidate) accepted_entries;
       cd_remaining_path_bytes := wrapping_sub 64 (cd_remaining_path_bytes candidate) path_bytes;
       cd_remaining_total_bytes := wrapping_sub 64 (cd_remaining_total_bytes candidate) total_bytes;
       cd_previous_source_token := Some last_token;
       cd_entries := if cd_promotable candidate then cd_entries candidate ++ prepared
                     else cd_entries candidate |})).

Definition take_entries (candidate : Candidate) : Candidate :=
  let (a, b, c, d, e, f, _) := candidate in Build_Candidate a b c d e f [].

Definition rs_complete_enumeration (frame : FrameView) : RM unit :=
  rs_guard;;
  or_fail RE_Protocol (decode_complete_payload frame OP_Enumerate);;
  self ← get;
  candidate ← some_or_fail (rs_candidate self) RE_InvalidState;
  let entries := cd_entries candidate in
  modify (rs_put_candidate (Some (take_entries candidate)));;
  promotion ←
    (if cd_promotable candidate then
       let accepted_total := wrapping_sub 64 (il_total_bytes (rs_limits self))
                               (cd_remaining_total_bytes candidate) in
       planned ← or_fail RE_Layout (plan_catalog entries (rs_limits self));
       if negb (len (cat_entries planned) =? len entries) ||
          negb (cat_total_bytes planned =? accepted_total)
       then rs_fail RE_ResultValidation
       else mret (Some (cd_generation candidate, planned))
     else mret None);
  rs_observe WorkerToParent frame;;
  (match promotion with
   | Some promotion => modify (rs_put_catalog (Some promotion))
   | None => mret tt
   end);;
  modify (rs_put_candidate None).

(** *** Streaming *)

Definition rs_begin_stream_entry (frame : FrameView) (expected : CatalogGeneration) : RM unit :=
  rs_guard;;
  decoded ← or_fail RE_Protocol (decode_stream_entry_payload frame);
  self ← get;
  size_bytes ← some_or_fail
    (match rs_catalog self with
     | Some (generation, catalog) =>
         if bool_decide (generation = expected)
         then pe_size_bytes <$> catalog_find (source_token decoded) catalog
         else None
     | None => None
     end) RE_UnknownSourceToken;
  rs_observe ParentToWorker frame;;
  modify (rs_put_stream (Some size_bytes)).

Definition rs_complete_stream (frame : FrameView) : RM unit :=
  rs_guard;;
  or_fail RE_Protocol (decode_complete_payload frame OP_Stream);;
  self ← get;
  remaining ← some_or_fail (rs_stream self) RE_InvalidState;
  (if negb (remaining =? 0) then rs_fail RE_IncompleteStream else mret tt);;
  rs_observe WorkerToParent frame;;
  modify (rs_put_stream None).

(** *** Reads *)

Definition rs_accept_read_request (frame : FrameView) (policy : SourceReadPolicy)
    (expected_sequence : N) : RM ReadRequestOutcome :=
  rs_guard;;
  self ← get;
  let cancelling := bool_decide (sv_state (rs_protocol self) = Cancelling) in
  decoded ← or_fail RE_Protocol (decode_read_request_payload frame policy expected_sequence);
  rs_observe WorkerToParent frame;;
  mret (if cancelling then IgnoredAfterCancel else Serviceable decoded).

Definition rs_accept_read_reply (frame : FrameView) (expected_sequence requested_length : N)
  : RM unit :=
  rs_guard;;
  decoded ← or_fail RE_Protocol
    (decode_read_reply_payload frame expected_sequence requested_length);
  rs_observe ParentToWorker frame;;
  match rp_status decoded with
  | PS_SourceChanged => rs_fail RE_SourceInvalidated
  | PS_SourceReadFailed => rs_fail RE_SourceReadFailure
  | _ => mret tt
  end.

(** *** Cancellation and shutdown *)

Definition drop_candidate (candidate : Candidate) : Candidate :=
  let (a, _, c, d, e, f, _) := candidate in Build_Candidate a false c d e f [].

Definition rs_accept_cancel (frame : FrameView) : RM unit :=
  rs_guard;;
  or_fail RE_Protocol (decode_cancel_payload frame);;
  rs_observe ParentToWorker frame;;
  modify (rs_put_catalog None);;
  modify (λ self, rs_put_candidate (drop_candidate <$> rs_candidate self) self).

Definition rs_accept_cancel_ack (frame : FrameView) : RM unit :=
  rs_guard;;
  or_fail RE_Protocol (decode_cancel_ack_payload frame);;
  rs_observe WorkerToParent frame;;
  retire_all.

Definition rs_accept_shutdown (frame : FrameView) : RM unit :=
  rs_guard;;
  or_fail RE_Protocol (decode_shutdown_payload frame);;
  rs_observe ParentToWorker frame;;
  retire_all.

(** *** Out-of-band notifications *)

Definition rs_invalidate_source : RM unit := retire RE_SourceInvalidated;; mret tt.
Definition rs_worker_failed : RM unit := retire RE_WorkerFailure;; mret tt.
End session.

(** *** [accept_data_chunk], next to the caller's sink *)

Section sink.
Context `{ByteSink K}.

Definition on_session {A} (m : M ResultSession ResultSessionError A)
  : M (ResultSession * K) ResultSessionError A := zoom fst (λ r s, (r, s.2)) m.

Definition rs_accept_data_chunk (frame : FrameView)
  : M (ResultSession * K) ResultSessionError unit :=
  on_session rs_guard;;
  self ← get;
  remaining ← on_session (some_or_fail (rs_stream self.1) RE_InvalidState);
  decoded ← on_session (or_fail RE_Protocol (decode_data_chunk_payload frame remaining));
  let accepted := len (chunk_data decoded) in
  on_session (rs_observe WorkerToParent frame);;
  written ← attempt (zoom snd (λ k s, (s.1, k)) (sink_write (chunk_data decoded)));
  (match written with
   | Err _ => on_session (rs_fail RE_DownstreamFailure)
   | Ok _ => mret tt
   end);;
  modify (λ s, (rs_put_stream ((λ left, wrapping_sub 64 left accepted) <$> rs_stream s.1) s.1, s.2)).

(** ** Sequences of operations *)

Inductive RsOp : Type :=
| RsBeginEnumeration (frame : FrameView)
| RsEntryBatch (frame : FrameView)
| RsCompleteEnumeration (frame : FrameView)
| RsBeginStream (frame : FrameView) (expected : CatalogGeneration)
| RsDataChunk (frame : FrameView)
| RsCompleteStream (frame : FrameView)
| RsReadRequest (frame : FrameView) (policy : SourceReadPolicy) (sequence : N)
| RsReadReply (frame : FrameView) (sequence length : N)
| RsCancel (frame : FrameView)
| RsCancelAck (frame : FrameView)
| RsShutdown (frame : FrameView)
| RsInvalidateSource
| RsWorkerFailed.

Definition rs_op (op : RsOp) : M (ResultSession * K) ResultSessionError unit :=
  match op with
  | RsBeginEnumeration frame => on_session (rs_begin_enumeration frame)
  | RsEntryBatch frame => on_session (rs_accept_entry_batch frame)
  | RsCompleteEnumeration frame => on_session (rs_complete_enumeration frame)
  | RsBeginStream frame expected => on_session (rs_begin_stream_entry frame expected)
  | RsDataChunk frame => rs_accept_data_chunk frame
  | RsCompleteStream frame => on_session (rs_complete_stream frame)
  | RsReadRequest frame policy sequence =>
      on_session (rs_accept_read_request frame policy sequence;; mret tt)
  | RsReadReply frame sequence length => on_session (rs_accept_read_reply frame sequence length)
  | RsCancel frame => on_session (rs_accept_cancel frame)
  | RsCancelAck frame => on_session (rs_accept_cancel_ack frame)
  | RsShutdown frame => on_session (rs_accept_shutdown frame)
  | RsInvalidateSource => on_session rs_invalidate_source
  | RsWorkerFailed => on_session rs_worker_failed
  end.

(** Every operation of the list, whatever the ones before it returned. *)
Fixpoint rs_attempts (ops : list RsOp) (s : ResultSession * K)
  : ResultSession * K * list (result ResultSessionError unit) :=
  match ops with
  | [] => (s, [])
  | op :: ops =>
      let '(s, r) := rs_op op s in
      let '(s, rs) := rs_attempts ops s in (s, r :: rs)
  end.

(** Every operation of the list, stopping at the first error. *)
Fixpoint rs_run (ops : list RsOp) : M (ResultSession * K) ResultSessionError unit :=
  match ops with
  | [] => mret tt
  | op :: ops => rs_op op;; rs_run ops
  end.
End sink.

(** ** The invariant *)

Definition limits_ok (limits : ImportLimits) : Prop :=
  ∃ entries paths size total, import_limits_new entries paths size total = Ok limits.

Definition entry_within (limits : ImportLimits) (e : EntryMetadata) : Prop :=
  spelling_ok (em_archive_path e) ∧ em_size_bytes e ≤ il_entry_bytes limits.

Definition rs_generation (s : ResultSession) : CatalogGeneration :=
  {| cg_epoch := rs_epoch s; cg_enumeration := rs_enumeration_counter s |}.

(** What is left of the quotas is what the accepted entries have not used. *)
Record candidate_wf (limits : ImportLimits) (generation : CatalogGeneration) (c : Candidate)
  : Prop := {
  cw_generation : cd_generation c = generation;
  cw_left : cd_remaining_entries c ≤ il_entries limits ∧
            cd_remaining_path_bytes c ≤ il_path_bytes limits ∧
            cd_remaining_total_bytes c ≤ il_total_bytes limits;
  cw_spent : cd_promotable c = true →
    cd_remaining_entries c + len (cd_entries c) = il_entries limits ∧
    cd_remaining_path_bytes c + sum_paths (cd_entries c) = il_path_bytes limits ∧
    cd_remaining_total_bytes c + sum_sizes (cd_entries c) = il_total_bytes limits;
  cw_tokens : cd_promotable c = true →
    Sorted N.lt (em_source_token <$> cd_entries c) ∧
    cd_previous_source_token c = list.last (em_source_token <$> cd_entries c);
  cw_entries : Forall (entry_within limits) (cd_entries c)
}.

Definition catalog_wf (limits : ImportLimits) (generation : CatalogGeneration)
    (promoted : CatalogGeneration * Catalog) : Prop :=
  promoted.1 = generation ∧
  ∃ entries, Forall (entry_within limits) entries ∧ plan_catalog entries limits = Ok promoted.2.

(** Which results are live in which protocol state. *)
Definition results_agree (state : SessionState) (candidate : option Candidate)
    (catalog : option (CatalogGeneration * Catalog)) (stream : option N) : Prop :=
  match state with
  | Idle => candidate = None ∧ stream = None
  | Enumerating =>
      (∃ c, candidate = Some c ∧ cd_promotable c = true) ∧ catalog = None ∧ stream = None
  | Streaming => candidate = None ∧ is_Some catalog ∧ is_Some stream
  | Cancelling => catalog = None ∧
      ((∃ c, candidate = Some c ∧ cd_promotable c = false) ∧ stream = None ∨
       candidate = None ∧ is_Some stream)
  | Cancelled | Closed => candidate = None ∧ catalog = None ∧ stream = None
  | AwaitingHello | AwaitingReady | Failed => False
  end.

Definition nothing_live (s : ResultSession) : Prop :=
  rs_candidate s = None ∧ rs_catalog s = None ∧ rs_stream s = None.

Record results_wf (s : ResultSession) : Prop := {
  rw_agree : results_agree (sv_state (rs_protocol s)) (rs_candidate s) (rs_catalog s) (rs_stream s);
  rw_candidate c : rs_candidate s = Some c → candidate_wf (rs_limits s) (rs_generation s) c;
  rw_catalog p : rs_catalog s = Some p → catalog_wf (rs_limits s) (rs_generation s) p;
  rw_stream n : rs_stream s = Some n → n ≤ il_entry_bytes (rs_limits s)
}.

Record rs_base (s : ResultSession) : Prop := {
  rb_protocol : session_wf (rs_protocol s);
  rb_limits : limits_ok (rs_limits s);
  rb_counter : fits 64 (rs_enumeration_counter s)
}.

Definition rs_wf (s : ResultSession) : Prop :=
  rs_base s ∧ match rs_failure s with None => results_wf s | Some _ => nothing_live s end.

(** The session that has just failed with [e]. *)
Definition retired (e : ResultSessionError) (s : ResultSession) : ResultSession :=
  Build_ResultSession (rs_protocol s) (rs_limits s) (rs_epoch s) (Some e)
    (rs_enumeration_counter s) None None None.

(** How an operation of a live session fails. *)
Definition failing (P : ResultSessionError → Prop) (e : ResultSessionError) (s : ResultSession)
  : Prop := P e ∧ rs_wf s ∧ rs_failure s = Some e.

(** ** Rules for the session's own control flow *)

Lemma retire_run e s :
  rs_failure s = None → retire e s = (retired e s, Ok e).
Proof. destruct s as [a b c d f g h i]; simpl. by intros ->. Qed.

Lemma retired_wf e s : rs_base s → rs_wf (retired e s).
Proof. intros [Hp Hl Hc]. split; [by split|done]. Qed.

Section rules.
Context (P : ResultSessionError → Prop).
Implicit Types s : ResultSession.

Lemma wp_rs_fail {A} e (Q : A → ResultSession → Prop) s :
  rs_base s → rs_failure s = None → P e → wp (rs_fail e) Q (failing P) s.
Proof.
  intros Hb Hf HP. unfold rs_fail. apply wp_bind. unfold wp at 1. rewrite retire_run by done.
  apply wp_throw. split; [done|]. split; [by apply retired_wf|done].
Qed.

Lemma wp_or_fail {F A} (into : F → ResultSessionError) (r : result F A) Q s :
  rs_base s → rs_failure s = None → (∀ e, r = Err e → P (into e)) → (∀ a, r = Ok a → Q a s) →
  wp (or_fail into r) Q (failing P) s.
Proof.
  intros Hb Hf HP HQ. destruct r as [a|e]; simpl.
  - by apply wp_ret, HQ.
  - by apply wp_rs_fail; auto.
Qed.

Lemma wp_some_or_fail {A} (o : option A) e Q s :
  rs_base s → rs_failure s = None → (o = None → P e) → (∀ a, o = Some a → Q a s) →
  wp (some_or_fail o e) Q (failing P) s.
Proof.
  intros Hb Hf HP HQ. destruct o as [a|]; simpl.
  - by apply wp_ret, HQ.
  - by apply wp_rs_fail; auto.
Qed.

Lemma wp_rs_guard Q s :
  (∀ e, rs_failure s = Some e → P e) → rs_wf s → (rs_failure s = None → Q tt s) →
  wp rs_guard Q (failing P) s.
Proof.
  intros HP Hwf HQ. unfold rs_guard. apply wp_bind, wp_get.
  destruct (rs_failure s) as [e|] eqn:E; [|by apply wp_ret, HQ].
  apply wp_throw. split; [by apply HP|done].
Qed.

(** What the validator makes of the frame of a live session. *)
Definition observed (d : Direction) (frame : FrameView) s (v : SessionValidator) : Prop :=
  session_wf v ∧
  state_move (message_type (fv_header frame)) (sv_state (rs_protocol s)) (sv_state v) ∧
  state_from (message_type (fv_header frame)) (sv_state (rs_protocol s)).

Lemma rs_base_protocol s v : rs_base s → session_wf v → rs_base (rs_put_protocol v s).
Proof. intros [Hp Hl Hc] Hv. destruct s. by split. Qed.

Lemma observe_wf v d h : session_wf v → session_wf (fst (observe d h v)).
Proof.
  intros Hwf. pose proof (observe_refines_step v d h Hwf) as Hr.
  destruct (observe d h v) as [v' [[]|e]]; simpl; by destruct_and! Hr.
Qed.

Lemma wp_rs_observe d frame Q s :
  rs_base s → rs_failure s = None → (∀ e, P (RE_Protocol e)) →
  (∀ v, observed d frame s v → Q tt (rs_put_protocol v s)) →
  wp (rs_observe d frame) Q (failing P) s.
Proof.
  intros Hb Hf HP HQ. unfold rs_observe. pose proof (rb_protocol _ Hb) as Hwf.
  apply wp_bind, wp_attempt, wp_zoom.
  pose proof (observe_wf _ d (fv_header frame) Hwf) as Hwf'.
  apply wp_run; intros a v Ho; rewrite Ho in Hwf'; simpl in Hwf'.
  - destruct a. apply wp_ret, HQ. by apply observe_state_from in Ho.
  - apply wp_rs_fail; [by apply rs_base_protocol|by destruct s|done].
Qed.
End rules.

Lemma rs_base_of s : rs_wf s → rs_base s.
Proof. by intros [? _]. Qed.

Lemma rs_live s : rs_wf s → rs_failure s = None → results_wf s.
Proof. intros [_ H] E. by rewrite E in H. Qed.

#[local] Hint Resolve rs_base_of : core.

Ltac rs_step :=
  let H := fresh "Hlive" in let Hd := fresh "Hd" in let Ho := fresh "Ho" in
  let Hv := fresh "Hv" in let v := fresh "v" in
  lazymatch goal with
  | |- wp rs_guard _ _ _ => apply wp_rs_guard; [auto|done|intros H]
  | |- wp (or_fail _ _) _ _ _ => apply wp_or_fail; [auto|done|auto|intros ? Hd]
  | |- wp (some_or_fail _ _) _ _ _ => apply wp_some_or_fail; [auto|done|auto|intros ? Ho]
  | |- wp (rs_observe _ _) _ _ _ => apply wp_rs_observe; [auto|done|auto|intros v Hv]
  | _ => wp_step
  end.

(** Computes the assignments of a live session. *)
Ltac rs_assign s := destruct s; simpl in *; by subst.

Abbreviation anyhow := (λ _ : ResultSessionError, True).

(** ** Frame kinds *)

Lemma decode_empty_kind frame kind u :
  decode_empty frame kind = Ok u → message_type (fv_header frame) = kind.
Proof. unfold decode_empty. rewrite validated. by intros ((_&_&?)&_). Qed.

Lemma decode_complete_kind frame phase m :
  decode_complete_payload frame phase = Ok m → message_type (fv_header frame) = MT_Complete.
Proof. unfold decode_complete_payload. rewrite validated. by intros ((_&_&?)&_). Qed.

Lemma decode_stream_entry_kind frame m :
  decode_stream_entry_payload frame = Ok m → message_type (fv_header frame) = MT_StreamEntry.
Proof. unfold decode_stream_entry_payload. rewrite validated. by intros ((_&_&?)&_). Qed.

Lemma decode_read_request_kind frame policy n m :
  decode_read_request_payload frame policy n = Ok m →
  message_type (fv_header frame) = MT_ReadRequest.
Proof. unfold decode_read_request_payload. rewrite validated. by intros ((_&_&?)&_). Qed.

Lemma decode_read_reply_kind frame n k m :
  decode_read_reply_payload frame n k = Ok m → message_type (fv_header frame) = MT_ReadReply.
Proof. unfold decode_read_reply_payload. rewrite validated. by intros ((_&_&?)&_). Qed.

(** A data chunk carries its frame's payload, within what is left. *)
Lemma decode_data_chunk_fields frame remaining m :
  decode_data_chunk_payload frame remaining = Ok m →
  message_type (fv_header frame) = MT_DataChunk ∧ chunk_data m = fv_payload frame ∧
  1 ≤ len (chunk_data m) ≤ remaining.
Proof.
  intros E. apply (proj1 (schema_decode (SchemaLaws:=data_chunk_schema_laws) remaining frame m I)) in E.
  destruct E as ((_&_&Hk) & Hp & Hacc). split; [done|]. split; [by rewrite Hp|].
  destruct Hacc as (_ & Hne & _ & Hle). split; [|done].
  destruct (N.eq_dec (len (chunk_data m)) 0) as [E0%len_0_nil|]; [done|lia].
Qed.

(** ** What each operation does *)

Lemma wrapping_sub_exact w a b : b ≤ a → a < 2 ^ w → wrapping_sub w a b = a - b.
Proof.
  intros Hle Hw. unfold wrapping_sub. rewrite (N.mod_small b) by lia.
  replace (a + (2 ^ w - b)) with (a - b + 1 * 2 ^ w) by lia.
  rewrite N.Div0.mod_add, N.mod_small; lia.
Qed.

Lemma wrapping_add_exact w a b : a + b < 2 ^ w → wrapping_add w a b = a + b.
Proof. intros H. unfold wrapping_add. by rewrite N.mod_small. Qed.

Lemma limits_ok_bounds limits : limits_ok limits →
  0 < il_entries limits ≤ MAXIMUM_ENUMERATED_ENTRIES ∧
  0 < il_path_bytes limits ≤ MAXIMUM_ENUMERATED_PATH_BYTES ∧
  0 < il_entry_bytes limits ≤ MAXIMUM_ENUMERATED_ENTRY_BYTES ∧
  0 < il_total_bytes limits ≤ MAXIMUM_ENUMERATED_TOTAL_BYTES.
Proof.
  intros (a & b & c & d & E). unfold import_limits_new in E.
  apply bind_Ok in E as (? & E%guard_err_Ok & [= <-]). bool_to_prop.
  cbn [il_entries il_path_bytes il_entry_bytes il_total_bytes]. lia.
Qed.

Lemma gather_spec l paths sizes token prepared :
  paths + EntryBatch.total path_len l < 2 ^ 64 → sizes + EntryBatch.total be_size_bytes l < 2 ^ 64 →
  gather l paths sizes token prepared =
    (paths + EntryBatch.total path_len l, sizes + EntryBatch.total be_size_bytes l,
     default token (list.last (be_source_token <$> l)), prepared ++ (metadata_of <$> l)).
Proof.
  revert paths sizes token prepared; induction l as [|e l IH]; intros paths sizes token prepared Hp Hs.
  - simpl. by rewrite !N.add_0_r, app_nil_r.
  - unfold EntryBatch.total in *. simpl in Hp, Hs |- *. unfold path_len in Hp at 1.
    rewrite !wrapping_add_exact by lia. rewrite IH by lia. unfold path_len at 2.
    rewrite <-app_assoc, !N.add_assoc, last_cons. simpl. do 2 f_equal.
    change (list_fmap EntryBatchEntry N be_source_token l) with (be_source_token <$> l).
    by destruct (list.last (be_source_token <$> l)).
Qed.

(** The session after a fresh enumeration began. *)
Definition begun (v : SessionValidator) (s : ResultSession) : ResultSession :=
  let generation := {| cg_epoch := rs_epoch s;
                       cg_enumeration := rs_enumeration_counter s + 1 |} in
  Build_ResultSession v (rs_limits s) (rs_epoch s) None (rs_enumeration_counter s + 1)
    (Some {| cd_generation := generation; cd_promotable := true;
             cd_remaining_entries := il_entries (rs_limits s);
             cd_remaining_path_bytes := il_path_bytes (rs_limits s);
             cd_remaining_total_bytes := il_total_bytes (rs_limits s);
             cd_previous_source_token := None; cd_entries := [] |}) None None.

Lemma begin_enumeration_run frame s : rs_wf s →
  wp (rs_begin_enumeration frame)
    (λ _ s', ∃ v, observed ParentToWorker frame s v ∧
       message_type (fv_header frame) = MT_Enumerate ∧ fits 64 (rs_enumeration_counter s + 1) ∧
       s' = begun v s)
    (failing anyhow) s.
Proof.
  intros Hwf. unfold rs_begin_enumeration, retire_all. repeat rs_step.
  exists v. split; [done|]. split; [by apply decode_empty_kind in Hd|].
  apply bind_Some in Ho as (n & Hn & He). apply checked_add_Some in Hn as [Hlt ->].
  unfold worker_epoch_new in He.
  destruct (N.eqb_spec (rs_enumeration_counter s + 1) 0); [lia|]. injection He as <-.
  split; [done|]. unfold begun. rs_assign s.
Qed.

(** The entries of a batch frame and the candidate that has accepted them. *)
Definition batch_of (frame : FrameView) (l : list EntryBatchEntry) : Prop :=
  fv_payload frame = batch_image l ∧ Forall entry_typed l.

Definition accepted (c : Candidate) (l : list EntryBatchEntry) : Candidate :=
  {| cd_generation := cd_generation c;
     cd_promotable := cd_promotable c;
     cd_remaining_entries := cd_remaining_entries c - len l;
     cd_remaining_path_bytes := cd_remaining_path_bytes c - EntryBatch.total path_len l;
     cd_remaining_total_bytes := cd_remaining_total_bytes c - EntryBatch.total be_size_bytes l;
     cd_previous_source_token := list.last (be_source_token <$> l);
     cd_entries := if cd_promotable c then cd_entries c ++ (metadata_of <$> l) else cd_entries c |}.

Definition candidate_policy (limits : ImportLimits) (c : Candidate) : EntryBatchPolicy :=
  {| remaining_entries := cd_remaining_entries c;
     remaining_path_bytes := cd_remaining_path_bytes c;
     maximum_entry_bytes := il_entry_bytes limits;
     remaining_total_bytes := cd_remaining_total_bytes c;
     previous_source_token := cd_previous_source_token c |}.

(** Assigning the protocol leaves the other fields alone. *)
Lemma rs_put_protocol_fields v s :
  rs_candidate (rs_put_protocol v s) = rs_candidate s ∧
  rs_failure (rs_put_protocol v s) = rs_failure s.
Proof. by destruct s. Qed.

Lemma decode_batch_fields frame policy storage b :
  snd (decode_entry_batch_payload frame policy storage) = Ok b →
  message_type (fv_header frame) = MT_EntryBatch ∧ batch_of frame (entries b) ∧
  batch_accepts policy (entries b).
Proof.
  intros E. pose proof (decode_entry_batch_cases frame policy storage) as Hd.
  destruct (validate_frame _ _;; _) as [n|e]; [|by rewrite Hd in E].
  destruct Hd as (l & _ & Hr & Hp & Hacc & (_&_&Hk) & Hd). rewrite Hd in E.
  destruct (len l <=? len storage); [|done]. injection E as <-. split; [done|]. split; [|done].
  split; [done|]. eapply Forall_impl; [|exact Hr]. by intros e [? _].
Qed.

(** The quotas an accepted candidate gives up never run below zero. *)
Lemma accepted_exact limits generation c l :
  limits_ok limits → candidate_wf limits generation c → batch_accepts (candidate_policy limits c) l →
  let '(path_bytes, total_bytes, last_token, prepared) := gather l 0 0 0 [] in
  {| cd_generation := cd_generation c;
     cd_promotable := cd_promotable c;
     cd_remaining_entries := wrapping_sub 32 (cd_remaining_entries c)
       (default (2 ^ 32 - 1) (try_from 32 (len prepared)));
     cd_remaining_path_bytes := wrapping_sub 64 (cd_remaining_path_bytes c) path_bytes;
     cd_remaining_total_bytes := wrapping_sub 64 (cd_remaining_total_bytes c) total_bytes;
     cd_previous_source_token := Some last_token;
     cd_entries := if cd_promotable c then cd_entries c ++ prepared else cd_entries c |} =
  accepted c l.
Proof.
  intros Hl [_ (He & Hp & Ht) _ _ _] ((Hn & _) & Hre & _ & Hrp & Hrt & _). simpl in *.
  apply limits_ok_bounds in Hl as (He' & Hp' & _ & Ht').
  unfold MAXIMUM_ENUMERATED_ENTRIES, MAXIMUM_ENUMERATED_PATH_BYTES, MAXIMUM_ENUMERATED_TOTAL_BYTES in *.
  rewrite gather_spec by lia. simpl. unfold accepted.
  assert (Hlen : len (metadata_of <$> l) = len l) by (unfold len; by rewrite length_fmap).
  rewrite Hlen. rewrite (proj2 (try_from_Some 32 (len l) (len l))) by (split; [lia|done]).
  simpl. rewrite !wrapping_sub_exact by lia. f_equal.
  destruct (list.last (be_source_token <$> l)) eqn:El; [done|].
  apply last_None, fmap_nil_inv in El. subst l. unfold len in Hn. simpl in Hn. lia.
Qed.

Lemma accept_entry_batch_run frame s : rs_wf s →
  wp (rs_accept_entry_batch frame)
    (λ _ s', ∃ v c l, observed WorkerToParent frame s v ∧
       message_type (fv_header frame) = MT_EntryBatch ∧ rs_candidate s = Some c ∧
       batch_of frame l ∧ batch_accepts (candidate_policy (rs_limits s) c) l ∧
       s' = rs_put_candidate (Some (accepted c l)) (rs_put_protocol v s))
    (failing anyhow) s.
Proof.
  intros Hwf. unfold rs_accept_entry_batch. do 10 rs_step.
  apply decode_batch_fields in Hd0 as (Hk & Hb & Hacc).
  unfold entry_batch_policy_new in Hd. destruct (_ || _); [done|]. injection Hd as <-.
  fold (candidate_policy (rs_limits s) a) in Hacc.
  pose proof (accepted_exact _ _ _ _ (rb_limits s ltac:(auto)) (rw_candidate _ (rs_live _ Hwf Hlive) _ Ho) Hacc)
    as Hexact.
  destruct (gather (entries a1) 0 0 0 []) as [[[paths sizes] token] prepared].
  do 4 rs_step.
  destruct (rs_put_protocol_fields v s) as [Hc Hf]. rewrite Hc, Ho. cbn [some_or_fail].
  do 2 rs_step. exists v, a, (entries a1). by rewrite Hexact.
Qed.

(** *** Completing an enumeration *)

(** An entry list the batch budget has already accepted can only fail to plan
    because of its paths. *)
Definition path_error (e : LayoutError) : Prop := e = LE_InvalidPath ∨ e = LE_PathConflict.

Lemma plan_entry_path_error limits l plan entry e :
  planned_upto limits l plan → il_total_bytes limits < 2 ^ 64 → il_path_bytes limits < 2 ^ 64 →
  ¬ In (em_source_token entry) (em_source_token <$> l) →
  em_size_bytes entry ≤ il_entry_bytes limits →
  sum_sizes l + em_size_bytes entry ≤ il_total_bytes limits →
  sum_paths l + len (em_archive_path entry) ≤ il_path_bytes limits →
  plan_entry limits plan entry = Err e → path_error e.
Proof.
  intros [_ Ht _ _ [Ht1 _] [Hp1 _] _ _] Htb Hpb Hnew Hsize Htotal Hpaths E. unfold plan_entry in E.
  rewrite (proj2 (existsb_token _ _)) in E by (by rewrite Ht, <-in_rev).
  rewrite (proj2 (N.ltb_ge _ _) Hsize) in E. cbn [guard_err mbind result_bind] in E.
  assert (Hin : ∀ limit a b, a + b ≤ limit → limit < 2 ^ 64 → add_within limit a b = Some (a + b)).
  { intros limit a b Hle Hlt. unfold add_within.
    rewrite (proj2 (checked_add_Some 64 a b (a + b))) by (split; [lia|done]). simpl.
    by rewrite (proj2 (N.leb_le _ _)). }
  rewrite Ht1, Hp1, !Hin in E by lia. cbn [ok_or mbind result_bind] in E.
  destruct (normalize_path _) as [normalized|]; cbn [ok_or mbind result_bind] in E;
    [|injection E as <-; by left].
  destruct (bool_decide _); cbn [guard_err mbind result_bind] in E; [injection E as <-; by left|].
  destruct (btree_insert _ _); cbn [ok_or mbind result_bind] in E; [done|injection E as <-; by right].
Qed.

Lemma sorted_no_repeat (l : list N) x k : Sorted N.lt (l ++ x :: k) → ¬ In x l.
Proof.
  intros Hs%Sorted.Sorted_StronglySorted; [|exact N.lt_trans]. intros Hin.
  induction l as [|y l IH]; [done|]. simpl in Hs. inversion Hs as [|? ? Hs' Hall]; subst.
  destruct Hin as [->|Hin]; [|by apply IH].
  rewrite Forall_forall in Hall. assert (Hlt : x < x) by (apply Hall, in_elt). lia.
Qed.

Lemma plan_entries_path_error limits l k plan e :
  planned_upto limits l plan → il_total_bytes limits < 2 ^ 64 → il_path_bytes limits < 2 ^ 64 →
  Sorted N.lt (em_source_token <$> (l ++ k)) →
  Forall (entry_within limits) k → sum_sizes (l ++ k) ≤ il_total_bytes limits →
  sum_paths (l ++ k) ≤ il_path_bytes limits →
  plan_entries limits plan k = Err e → path_error e.
Proof.
  intros Hu Htb Hpb. revert l plan Hu. induction k as [|x k IH]; intros l plan Hu Hs Hk Hts Hps E; [done|].
  apply Forall_cons_iff in Hk as [[_ Hx] Hk]. simpl in E.
  pose proof Hts as Hts'. pose proof Hps as Hps'.
  rewrite sum_sizes_app in Hts'. rewrite sum_paths_app in Hps'.
  unfold sum_sizes at 2 in Hts'. unfold sum_paths at 2 in Hps'. simpl in Hts', Hps'.
  apply bind_Err in E as [E|(plan' & E1 & E2)].
  - eapply plan_entry_path_error; [exact Hu|done|done| |done|lia|lia|exact E].
    rewrite fmap_app in Hs. by eapply sorted_no_repeat.
  - rewrite cons_middle, app_assoc in Hs, Hts, Hps.
    eapply IH; [|exact Hs|exact Hk|exact Hts|exact Hps|exact E2]. by eapply plan_entry_inv.
Qed.

Lemma prefix_free_Err previous l e : prefix_free previous l = Err e → e = LE_PathConflict.
Proof.
  revert previous; induction l as [|x l IH]; intros previous E; [done|]. cbn [prefix_free] in E.
  destruct (is_some_and _ _); simpl in E; [by injection E as <-|by eapply IH].
Qed.

Lemma candidate_plan_error limits generation c e :
  limits_ok limits → candidate_wf limits generation c → cd_promotable c = true →
  plan_catalog (cd_entries c) limits = Err e → path_error e.
Proof.
  intros Hl%limits_ok_bounds [_ _ Hs Ht Hw] Hp E. destruct (Hs Hp) as (Hn & Hpaths & Hsizes).
  destruct (Ht Hp) as [Hsorted _]. clear Hs Ht.
  unfold MAXIMUM_ENUMERATED_PATH_BYTES, MAXIMUM_ENUMERATED_TOTAL_BYTES in Hl.
  unfold plan_catalog in E. rewrite (proj2 (N.ltb_ge _ _)) in E by lia.
  cbn [guard_err mbind result_bind] in E. apply bind_Err in E as [E|(plan & _ & E)].
  - eapply (plan_entries_path_error limits []); [apply plan_start_inv|lia|lia|done|done|..|exact E];
      simpl; lia.
  - apply bind_Err in E as [E|(? & _ & E)]; [|done]. right. by apply prefix_free_Err in E.
Qed.

Lemma plan_catalog_totals entries limits cat :
  plan_catalog entries limits = Ok cat →
  len (cat_entries cat) = len entries ∧ cat_total_bytes cat = sum_sizes entries.
Proof.
  intros (plan & [Hp _ _ _ [Ht _] _ _ _] & _ & _ & He & Hc & _)%plan_catalog_inv.
  rewrite He, Hc, Ht. split; [|done]. unfold len. by rewrite (Forall2_length Hp).
Qed.

Lemma candidate_put x s :
  (rs_base s → rs_base (rs_put_candidate x s)) ∧
  rs_failure (rs_put_candidate x s) = rs_failure s ∧
  rs_protocol (rs_put_candidate x s) = rs_protocol s ∧
  rs_limits (rs_put_candidate x s) = rs_limits s.
Proof. destruct s. split; [|done]. by intros [? ? ?]. Qed.

(** What the promotion of a candidate amounts to. *)
Definition promoted (s : ResultSession) (c : Candidate) (v : SessionValidator) (s' : ResultSession)
  : Prop :=
  if cd_promotable c
  then ∃ cat, plan_catalog (cd_entries c) (rs_limits s) = Ok cat ∧
         s' = rs_put_candidate None (rs_put_catalog (Some (cd_generation c, cat)) (rs_put_protocol v s))
  else s' = rs_put_candidate None (rs_put_protocol v s).

(** The errors a completion may end with. *)
Definition completion_error (s : ResultSession) (e : ResultSessionError) : Prop :=
  rs_failure s = Some e ∨ (∃ p, e = RE_Protocol p) ∨
  e = RE_InvalidState ∧ rs_candidate s = None ∨
  (∃ l, e = RE_Layout l ∧ path_error l ∧
     ∃ c, rs_candidate s = Some c ∧ plan_catalog (cd_entries c) (rs_limits s) = Err l).

Lemma complete_enumeration_run frame s : rs_wf s →
  wp (rs_complete_enumeration frame)
    (λ _ s', ∃ v c, observed WorkerToParent frame s v ∧
       message_type (fv_header frame) = MT_Complete ∧ rs_candidate s = Some c ∧ promoted s c v s')
    (failing (completion_error s)) s.
Proof.
  intros Hwf. unfold rs_complete_enumeration. rs_step.
  apply wp_rs_guard; [by left|done|intros Hlive]. apply wp_bind.
  apply wp_or_fail; [auto|done|by intros e _; right; left; eexists|intros m Hd].
  do 2 rs_step. rs_step. apply wp_some_or_fail; [auto|done|by right; right; left|intros c Ho].
  apply decode_complete_kind in Hd. do 3 rs_step.
  pose proof (rw_candidate _ (rs_live _ Hwf Hlive) _ Ho) as Hc.
  destruct (candidate_put (Some (take_entries c)) s) as (Hb & Hf & Hp & Hl).
  specialize (Hb (rs_base_of _ Hwf)). rewrite Hlive in Hf.
  apply (wp_mono _ (λ promotion s', s' = rs_put_candidate (Some (take_entries c)) s ∧
    if cd_promotable c
    then ∃ cat, plan_catalog (cd_entries c) (rs_limits s) = Ok cat ∧
           promotion = Some (cd_generation c, cat)
    else promotion = None) _ (failing (completion_error s)) _); [| |done].
  - destruct (cd_promotable c) eqn:Epr; [|by apply wp_ret].
    rs_step. apply wp_or_fail; [done|done| |].
    + intros l El. do 3 right. exists l. split; [done|]. split; [|by exists c].
      by eapply (candidate_plan_error (rs_limits s)); [apply Hwf|exact Hc|..].
    + intros cat Ecat. destruct (plan_catalog_totals _ _ _ Ecat) as [-> ->].
      destruct (cw_spent _ _ _ Hc Epr) as (_ & _ & Hspent).
      destruct (limits_ok_bounds (rs_limits s)) as (_ & _ & _ & Hmax); [apply Hwf|].
      unfold MAXIMUM_ENUMERATED_TOTAL_BYTES in Hmax.
      rewrite wrapping_sub_exact by lia. rewrite <-Hspent, N.add_sub_swap, N.sub_diag by lia.
      rewrite !N.eqb_refl. simpl. apply wp_ret. split; [done|]. by exists cat.
  - intros promotion s' [-> Hpr]. rs_step.
    apply wp_rs_observe; [done|done|by intros e; right; left; eexists|intros v Hv].
    assert (Hobs : observed WorkerToParent frame s v) by (unfold observed in *; by rewrite Hp in Hv).
    rs_step. destruct (cd_promotable c) eqn:Epr.
    + destruct Hpr as (cat & Ecat & ->). do 2 rs_step. exists v, c. split_and!; try done.
      unfold promoted. rewrite Epr. exists cat. split; [done|]. by destruct s.
    + subst promotion. do 2 rs_step. exists v, c. split_and!; try done.
      unfold promoted. rewrite Epr. by destruct s.
Qed.

(** *** The other operations *)

Lemma begin_stream_run frame expected s : rs_wf s →
  wp (rs_begin_stream_entry frame expected)
    (λ _ s', ∃ v cat m p, observed ParentToWorker frame s v ∧
       message_type (fv_header frame) = MT_StreamEntry ∧
       decode_stream_entry_payload frame = Ok m ∧ rs_catalog s = Some (expected, cat) ∧
       catalog_find (source_token m) cat = Some p ∧
       s' = rs_put_stream (Some (pe_size_bytes p)) (rs_put_protocol v s))
    (failing anyhow) s.
Proof.
  intros Hwf. unfold rs_begin_stream_entry. repeat rs_step.
  destruct (rs_catalog s) as [[generation cat]|] eqn:Ec; [|done]. revert Ho.
  case_bool_decide as Hg; [|done]. subst generation.
  destruct (catalog_find _ cat) as [p|] eqn:Ef; [|done]. intros [= <-].
  exists v, cat, a, p. split_and!; try done. by eapply decode_stream_entry_kind.
Qed.

Lemma complete_stream_run frame s : rs_wf s →
  wp (rs_complete_stream frame)
    (λ _ s', ∃ v, observed WorkerToParent frame s v ∧
       message_type (fv_header frame) = MT_Complete ∧ rs_stream s = Some 0 ∧
       s' = rs_put_stream None (rs_put_protocol v s))
    (failing anyhow) s.
Proof.
  intros Hwf. unfold rs_complete_stream. do 7 rs_step. rs_step. apply wp_bind.
  destruct (N.eqb_spec a0 0) as [->|]; simpl; [|apply wp_rs_fail; auto].
  repeat rs_step. exists v. split; [done|]. split; [|done]. by eapply decode_complete_kind.
Qed.

Lemma read_request_run frame policy sequence s : rs_wf s →
  wp (rs_accept_read_request frame policy sequence)
    (λ outcome s', ∃ v m, observed WorkerToParent frame s v ∧
       message_type (fv_header frame) = MT_ReadRequest ∧
       decode_read_request_payload frame policy sequence = Ok m ∧
       outcome = (if bool_decide (sv_state (rs_protocol s) = Cancelling) then IgnoredAfterCancel
                  else Serviceable m) ∧
       s' = rs_put_protocol v s)
    (failing anyhow) s.
Proof.
  intros Hwf. unfold rs_accept_read_request. repeat rs_step. exists v, a. split_and!; try done.
  by eapply decode_read_request_kind.
Qed.

Lemma read_request_unit frame policy sequence s : rs_wf s →
  wp (rs_accept_read_request frame policy sequence;; mret tt)
    (λ _ s', ∃ v, observed WorkerToParent frame s v ∧
       message_type (fv_header frame) = MT_ReadRequest ∧ s' = rs_put_protocol v s)
    (failing anyhow) s.
Proof.
  intros Hwf. rs_step. eapply wp_mono; [by apply read_request_run| |done].
  intros o s' (v & m & Ho & Hk & _ & _ & ->). rs_step. by exists v.
Qed.

Lemma read_reply_run frame sequence length s : rs_wf s →
  wp (rs_accept_read_reply frame sequence length)
    (λ _ s', ∃ v m, observed ParentToWorker frame s v ∧
       message_type (fv_header frame) = MT_ReadReply ∧
       decode_read_reply_payload frame sequence length = Ok m ∧
       rp_status m ≠ PS_SourceChanged ∧ rp_status m ≠ PS_SourceReadFailed ∧
       s' = rs_put_protocol v s)
    (failing anyhow) s.
Proof.
  intros Hwf. unfold rs_accept_read_reply. do 6 rs_step.
  assert (rs_base (rs_put_protocol v s) ∧ rs_failure (rs_put_protocol v s) = None) as [Hb Hf].
  { split; [apply rs_base_protocol; [auto|apply Hv]|by destruct (rs_put_protocol_fields v s) as [_ ->]]. }
  pose proof (decode_read_reply_kind _ _ _ _ Hd).
  destruct (rp_status a) eqn:Es; first [by apply wp_rs_fail|apply wp_ret; exists v, a; by rewrite Es].
Qed.

Lemma cancel_run frame s : rs_wf s →
  wp (rs_accept_cancel frame)
    (λ _ s', ∃ v, observed ParentToWorker frame s v ∧
       message_type (fv_header frame) = MT_Cancel ∧
       s' = rs_put_candidate (drop_candidate <$> rs_candidate s)
              (rs_put_catalog None (rs_put_protocol v s)))
    (failing anyhow) s.
Proof.
  intros Hwf. unfold rs_accept_cancel. repeat rs_step. exists v. split; [done|].
  split; [by eapply decode_empty_kind|]. by destruct s.
Qed.

(** [cancel_ack] and [shutdown] leave a session with no results. *)
Definition emptied (v : SessionValidator) (s : ResultSession) : ResultSession :=
  Build_ResultSession v (rs_limits s) (rs_epoch s) (rs_failure s) (rs_enumeration_counter s)
    None None None.

Lemma cancel_ack_run frame s : rs_wf s →
  wp (rs_accept_cancel_ack frame)
    (λ _ s', ∃ v, observed WorkerToParent frame s v ∧
       message_type (fv_header frame) = MT_CancelAck ∧ s' = emptied v s)
    (failing anyhow) s.
Proof.
  intros Hwf. unfold rs_accept_cancel_ack, retire_all. repeat rs_step. exists v. split; [done|].
  split; [by eapply decode_empty_kind|]. by destruct s.
Qed.

Lemma shutdown_run frame s : rs_wf s →
  wp (rs_accept_shutdown frame)
    (λ _ s', ∃ v, observed ParentToWorker frame s v ∧
       message_type (fv_header frame) = MT_Shutdown ∧ s' = emptied v s)
    (failing anyhow) s.
Proof.
  intros Hwf. unfold rs_accept_shutdown, retire_all. repeat rs_step. exists v. split; [done|].
  split; [by eapply decode_empty_kind|]. by destruct s.
Qed.

Section with_sink.
Context `{ByteSink K}.
Implicit Types k : K.

(** An operation of the session alone, next to the sink. *)
Lemma wp_on_session {A} (m : M ResultSession ResultSessionError A) Q R s k :
  wp m (λ a s', Q a (s', k)) (λ e s', R e (s', k)) s → wp (on_session m) Q R (s, k).
Proof. intros Hm. unfold on_session. by apply wp_zoom. Qed.

Lemma data_chunk_run frame s k : rs_wf s →
  wp (rs_accept_data_chunk frame)
    (λ _ s', ∃ v left, observed WorkerToParent frame s v ∧
       message_type (fv_header frame) = MT_DataChunk ∧ rs_stream s = Some left ∧
       1 ≤ len (fv_payload frame) ≤ left ∧
       sink_write (fv_payload frame) k = (s'.2, Ok tt) ∧
       s'.1 = rs_put_stream (Some (left - len (fv_payload frame))) (rs_put_protocol v s))
    (λ e s', failing anyhow e s'.1) (s, k).
Proof.
  intros Hwf. unfold rs_accept_data_chunk.
  rs_step. apply wp_on_session. rs_step. do 2 rs_step. cbn [fst].
  rs_step. apply wp_on_session. rs_step. rs_step. apply wp_on_session. rs_step.
  apply decode_data_chunk_fields in Hd as (Hk & Hp & Hn).
  rs_step. apply wp_on_session. rs_step. rs_step. apply wp_attempt, wp_zoom. cbn [snd fst].
  assert (rs_base (rs_put_protocol v s) ∧ rs_failure (rs_put_protocol v s) = None) as [Hb Hf].
  { split; [apply rs_base_protocol; [auto|apply Hv]|by destruct (rs_put_protocol_fields v s) as [_ ->]]. }
  assert (a < 2 ^ 64).
  { apply (rw_stream _ (rs_live _ Hwf Hlive)) in Ho.
    destruct (limits_ok_bounds (rs_limits s)) as (_ & _ & Hmax & _); [apply Hwf|].
    unfold MAXIMUM_ENUMERATED_ENTRY_BYTES in Hmax. lia. }
  rewrite Hp in *. apply wp_run; intros r k' Hw; rs_step.
  - rs_step. rs_step. exists v, a. cbn [fst snd]. destruct r.
    assert (Hs : rs_stream (rs_put_protocol v s) = Some a) by (by destruct s).
    rewrite Hs. simpl. rewrite wrapping_sub_exact by lia. do 5 (split; [done|]). done.
  - apply wp_on_session. by apply wp_rs_fail.
Qed.
End with_sink.

(** ** Every operation keeps the invariant *)

Lemma sum_sizes_metadata l : sum_sizes (metadata_of <$> l) = EntryBatch.total be_size_bytes l.
Proof. induction l as [|e l IH]; [done|]. rewrite fmap_cons. unfold sum_sizes, EntryBatch.total in *. simpl. lia. Qed.

Lemma sum_paths_metadata l : sum_paths (metadata_of <$> l) = EntryBatch.total path_len l.
Proof.
  induction l as [|e l IH]; [done|]. rewrite fmap_cons. unfold sum_paths, EntryBatch.total in *.
  simpl. unfold path_len at 1. lia.
Qed.

Lemma tokens_metadata (l : list EntryBatchEntry) : em_source_token <$> (metadata_of <$> l) = be_source_token <$> l.
Proof. induction l as [|e l IH]; [done|]. rewrite !fmap_cons, IH. done. Qed.

Lemma sorted_append (l k : list N) :
  Sorted N.lt l → Sorted N.lt (option_list (list.last l) ++ k) → Sorted N.lt (l ++ k).
Proof.
  induction l as [|x l IH]; intros Hl Hk; [by destruct k|].
  destruct l as [|y l]; [done|]. inversion Hl as [|? ? Hl' Hxy]; subst.
  constructor; [by apply IH|]. by inversion Hxy; constructor.
Qed.

Lemma accepted_wf limits generation c l :
  candidate_wf limits generation c → batch_accepts (candidate_policy limits c) l →
  candidate_wf limits generation (accepted c l).
Proof.
  intros [Hg (H1 & H2 & H3) Hs Ht Hw] ((Hn & _) & Hre & Hall & Hrp & Hrt & Hinc). simpl in *.
  split; simpl; [done|lia| | |].
  - intros Hp. rewrite Hp. destruct (Hs Hp) as (E1 & E2 & E3).
    rewrite sum_paths_app, sum_sizes_app, sum_paths_metadata, sum_sizes_metadata, len_app.
    replace (len (metadata_of <$> l)) with (len l) by (unfold len; by rewrite length_fmap). lia.
  - intros Hp. rewrite Hp. destruct (Ht Hp) as [E1 E2]. rewrite fmap_app, tokens_metadata. split.
    + apply sorted_append; [done|]. by rewrite <-E2.
    + rewrite last_app. destruct (list.last (be_source_token <$> l)) eqn:El; [done|].
      apply last_None, fmap_nil_inv in El. subst l. unfold len in Hn. simpl in Hn. lia.
  - assert (Hl : Forall (entry_within limits) (metadata_of <$> l)).
    { clear -Hall. induction Hall as [|e l He Hall IH]; simpl; constructor; [exact He|exact IH]. }
    destruct (cd_promotable c); [by apply Forall_app|done].
Qed.

Section preservation.
Context (s : ResultSession) (Hwf : rs_wf s) (Hlive : rs_failure s = None).

Lemma put_protocol_wf v :
  session_wf v → sv_state v = sv_state (rs_protocol s) → rs_wf (rs_put_protocol v s).
Proof.
  destruct Hwf as [Hb Hr]. rewrite Hlive in Hr. intros Hv E.
  split; [by apply rs_base_protocol|]. destruct s; simpl in *. subst.
  destruct Hr as [Ha Hc Hp Hs]; simpl in *. split; simpl; [by rewrite E|done..].
Qed.

Lemma begun_wf v frame :
  observed ParentToWorker frame s v → message_type (fv_header frame) = MT_Enumerate →
  fits 64 (rs_enumeration_counter s + 1) → rs_wf (begun v s).
Proof.
  intros (Hv & Hmove & _) Hk Hfit. rewrite Hk in Hmove. destruct Hmove as [_ Hst].
  destruct Hwf as [[_ Hl _] _]. split; [by split|]. simpl.
  split; simpl; [|intros c [= <-]; split; simpl|done|done].
  - rewrite Hst. split; [|done]. by eexists.
  - done.
  - lia.
  - intros _. unfold sum_paths, sum_sizes. simpl. unfold len. simpl. lia.
  - intros _. by split; [constructor|].
  - constructor.
Qed.

Lemma entry_batch_wf v frame c l :
  observed WorkerToParent frame s v → message_type (fv_header frame) = MT_EntryBatch →
  rs_candidate s = Some c → batch_accepts (candidate_policy (rs_limits s) c) l →
  rs_wf (rs_put_candidate (Some (accepted c l)) (rs_put_protocol v s)).
Proof.
  intros (Hv & Hmove & _) Hk Hc Hacc. rewrite Hk in Hmove. simpl in Hmove.
  pose proof (rw_candidate _ (rs_live _ Hwf Hlive) _ Hc) as Hcw.
  pose proof (accepted_wf _ _ _ _ Hcw Hacc) as Haw.
  pose proof (put_protocol_wf v Hv Hmove) as [Hb Hr].
  split; [by apply candidate_put|]. destruct s; simpl in *. subst.
  destruct Hr as [Ha Hc' Hp Hs]; simpl in *. split; simpl; [|by intros ? [= <-]|done|done].
  destruct (sv_state v); simpl in *; try tauto.
  - by destruct Ha.
  - destruct Ha as [(c' & [= <-] & ?) ?]. split; [by eexists|done].
  - by destruct Ha.
  - destruct Ha as [? [[(c' & [= <-] & ?) ?]|[? ?]]]; [|done]. split; [done|left].
    split; [by eexists|done].
  - by destruct Ha.
  - by destruct Ha.
Qed.
End preservation.

Section preservation2.
Context (s : ResultSession) (Hwf : rs_wf s) (Hlive : rs_failure s = None).

Lemma promoted_wf v frame c s' :
  observed WorkerToParent frame s v → message_type (fv_header frame) = MT_Complete →
  rs_candidate s = Some c → promoted s c v s' → rs_wf s' ∧ rs_failure s' = None.
Proof.
  intros (Hv & Hmove & Hfrom) Hk Hc Hpr. rewrite Hk in Hmove, Hfrom. simpl in Hmove, Hfrom.
  pose proof (rs_live _ Hwf Hlive) as [Ha Hcw Hcat Hst]. destruct Hwf as [[Hsw Hlim Hcnt] _].
  pose proof (Hcw _ Hc) as [Hg _ _ _ He]. unfold promoted in Hpr.
  destruct s as [sp lim ep fl cnt cd cat st]; simpl in *. subst fl cd.
  assert (st = None ∧ (cat = None ∨ cd_promotable c = false)) as [-> Hcat'].
  { destruct (sv_state sp); simpl in *; try tauto; destruct Ha as (Ha1 & Ha2); naive_solver. }
  destruct (cd_promotable c) eqn:Epr.
  - destruct Hpr as (planned & Ep & ->). simpl. split; [|done].
    split; [by split|]. simpl. split; simpl; [by rewrite Hmove|done| |done].
    intros p [= <-]. split; [done|]. by exists (cd_entries c).
  - subst s'. split; [|done]. split; [by split|]. simpl.
    split; simpl; [by rewrite Hmove|done..].
Qed.

Lemma find_size cat generation tag token p :
  catalog_wf (rs_limits s) generation (tag, cat) → catalog_find token cat = Some p →
  pe_size_bytes p ≤ il_entry_bytes (rs_limits s).
Proof.
  intros (_ & entries & _ & Hp) Hf. simpl in Hp.
  apply (catalog_find_run _ _ _ _ _ Hp) in Hf as [Hin _].
  apply plan_catalog_inv in Hp as (plan & [Hpl _ _ Hs _ _ _ _] & _ & _ & He & _).
  rewrite He in Hin. clear -Hpl Hs Hin. revert Hs Hin.
  induction Hpl as [|x y l k (_ & Hy & _) Hpl IH]; intros Hs Hin; [done|].
  apply Forall_cons_iff in Hs as [Hx Hs]. destruct Hin as [->|Hin]; [by rewrite Hy|auto].
Qed.

Lemma stream_begun_wf v frame expected cat token p :
  observed ParentToWorker frame s v → message_type (fv_header frame) = MT_StreamEntry →
  rs_catalog s = Some (expected, cat) → catalog_find token cat = Some p →
  rs_wf (rs_put_stream (Some (pe_size_bytes p)) (rs_put_protocol v s)) ∧
  rs_failure (rs_put_stream (Some (pe_size_bytes p)) (rs_put_protocol v s)) = None.
Proof.
  intros (Hv & Hmove & _) Hk Hc Hf. rewrite Hk in Hmove. destruct Hmove as [Hi Hst].
  pose proof (rs_live _ Hwf Hlive) as [Ha Hcw Hcat _]. destruct Hwf as [[Hsw Hlim Hcnt] _].
  pose proof (find_size _ _ _ _ _ (Hcat _ Hc) Hf) as Hsize.
  destruct s; simpl in *. subst. rewrite Hi in Ha. destruct Ha as [-> ->].
  split; [|done]. split; [by split|]. simpl.
  split; simpl; [rewrite Hst; by split_and!; eauto|done|exact Hcat|by intros ? [= <-]].
Qed.

Lemma stream_completed_wf v frame :
  observed WorkerToParent frame s v → message_type (fv_header frame) = MT_Complete →
  rs_stream s = Some 0 →
  rs_wf (rs_put_stream None (rs_put_protocol v s)) ∧
  rs_failure (rs_put_stream None (rs_put_protocol v s)) = None.
Proof.
  intros (Hv & Hmove & Hfrom) Hk Hs. rewrite Hk in Hmove, Hfrom. simpl in Hmove.
  pose proof (rs_live _ Hwf Hlive) as [Ha Hcw Hcat _]. destruct Hwf as [[Hsw Hlim Hcnt] _].
  destruct s; simpl in *. subst.
  split; [|done]. split; [by split|]. simpl.
  assert (rs_candidate0 = None) as ->
    by (destruct (sv_state rs_protocol0); simpl in *; try tauto; naive_solver).
  split; simpl; [by rewrite Hmove|done|exact Hcat|done].
Qed.

Lemma chunk_wf v frame left n :
  observed WorkerToParent frame s v → message_type (fv_header frame) = MT_DataChunk →
  rs_stream s = Some left → n ≤ left →
  rs_wf (rs_put_stream (Some n) (rs_put_protocol v s)) ∧
  rs_failure (rs_put_stream (Some n) (rs_put_protocol v s)) = None.
Proof.
  intros (Hv & Hmove & _) Hk Hs Hn. rewrite Hk in Hmove. simpl in Hmove.
  pose proof (rs_live _ Hwf Hlive) as [Ha Hcw Hcat Hst]. destruct Hwf as [[Hsw Hlim Hcnt] _].
  destruct s; simpl in *. subst. specialize (Hst _ eq_refl).
  split; [|done]. split; [by split|]. simpl.
  split; simpl; [|exact Hcw|exact Hcat|intros ? [= <-]; lia].
  rewrite Hmove. destruct (sv_state rs_protocol0); simpl in *; naive_solver.
Qed.

Lemma cancelled_wf v frame :
  observed ParentToWorker frame s v → message_type (fv_header frame) = MT_Cancel →
  let s' := rs_put_candidate (drop_candidate <$> rs_candidate s)
              (rs_put_catalog None (rs_put_protocol v s)) in
  rs_wf s' ∧ rs_failure s' = None.
Proof.
  intros (Hv & Hmove & _) Hk. rewrite Hk in Hmove. simpl in Hmove.
  pose proof (rs_live _ Hwf Hlive) as [Ha Hcw Hcat Hst]. destruct Hwf as [[Hsw Hlim Hcnt] _].
  destruct s; simpl in *. subst.
  split; [|done]. split; [by split|]. simpl. split; simpl; [| |done|exact Hst].
  - destruct Hmove as [[E ->]|[[E|E] ->]]; rewrite E in Ha; simpl in *.
    + by destruct Ha as [-> ->].
    + destruct Ha as [(c & -> & _) [_ ->]]. split; [done|]. left. split; [|done].
      exists (drop_candidate c). by destruct c.
    + destruct Ha as (-> & _ & Hs). by split; [|right].
  - intros c' Hc'. destruct rs_candidate0 as [c|]; [|done]. injection Hc' as <-.
    destruct (Hcw _ eq_refl) as [H1 H2 H3 H4 H5]. destruct c; simpl in *.
    by split; simpl.
Qed.

Lemma emptied_wf v : session_wf v → sv_state v = Cancelled ∨ sv_state v = Closed →
  rs_wf (emptied v s) ∧ rs_failure (emptied v s) = None.
Proof.
  intros Hv Hst. destruct Hwf as [[Hsw Hlim Hcnt] _]. split; [|done]. split; [by split|].
  simpl. rewrite Hlive. split; simpl; [by destruct Hst as [-> | ->]|done..].
Qed.
End preservation2.

(** ** Reachable sessions *)

Section reachable.
Context `{ByteSink K}.
Implicit Types (s : ResultSession) (k : K).

Definition out_of_band (op : RsOp) : bool :=
  match op with RsInvalidateSource | RsWorkerFailed => true | _ => false end.

(** Either the operation succeeds on a live session, which stays live, or the
    error it returns is the one the session retains. *)
Definition op_outcome (op : RsOp) s (out : ResultSession * K * result ResultSessionError unit)
  : Prop :=
  rs_wf out.1.1 ∧
  match out.2 with
  | Ok _ => out_of_band op = false → rs_failure s = None ∧ rs_failure out.1.1 = None
  | Err e => rs_failure out.1.1 = Some e
  end.

Lemma guarded_outcome op s k (m : M (ResultSession * K) ResultSessionError unit) :
  rs_op op = m →
  wp m (λ _ t, rs_wf t.1 ∧ rs_failure t.1 = None) (λ e t, failing anyhow e t.1) (s, k) →
  (rs_failure s ≠ None → ∃ e, m (s, k) = ((s, k), Err e)) →
  op_outcome op s (rs_op op (s, k)).
Proof.
  intros -> Hwp Hf. unfold wp in Hwp. unfold op_outcome.
  destruct (m (s, k)) as [s' [u|e]]; simpl.
  - destruct Hwp as [Hwf Hn]. split; [done|]. intros _. split; [|done].
    destruct (rs_failure s) as [e|] eqn:E; [|done]. by destruct Hf as [? ?].
  - by destruct Hwp as (_ & ? & ?).
Qed.

Lemma rs_op_failed op s k e : rs_failure s = Some e →
  rs_op op (s, k) = ((s, k), if out_of_band op then Ok tt else Err e).
Proof.
  intros E. destruct op; simpl; cbv [on_session zoom rs_begin_enumeration rs_accept_entry_batch
    rs_complete_enumeration rs_begin_stream_entry rs_accept_data_chunk rs_complete_stream
    rs_accept_read_request rs_accept_read_reply rs_accept_cancel rs_accept_cancel_ack
    rs_accept_shutdown rs_invalidate_source rs_worker_failed retire rs_guard
    mbind M_bind get fst snd]; rewrite E; try done.
  all: rewrite bool_decide_false by done; run_M; by rewrite E.
Qed.

Lemma rs_op_outcome op s k : rs_wf s → op_outcome op s (rs_op op (s, k)).
Proof.
  intros Hwf. destruct (rs_failure s) as [e|] eqn:Hlive.
  { rewrite (rs_op_failed op s k e) by done. split; [done|]. simpl.
    by destruct (out_of_band op); [intros ?|]. }
  destruct (out_of_band op) eqn:Hoob.
  { destruct op; try done; simpl; cbv [on_session zoom rs_invalidate_source rs_worker_failed
      mbind M_bind fst snd]; rewrite retire_run by done; (split; [by apply retired_wf, Hwf|done]). }
  destruct op; try done; (eapply guarded_outcome; [reflexivity| |congruence]; simpl rs_op;
    try (apply wp_on_session); eapply wp_mono; cbn [fst]).
  - by apply begin_enumeration_run.
  - intros _ s' (v & Ho & Hk & Hfit & ->). split; [by eapply begun_wf|done].
  - done.
  - by apply accept_entry_batch_run.
  - intros _ s' (v & c & l & Ho & Hk & Hc & _ & Hacc & ->).
    split; [by eapply entry_batch_wf|by destruct s].
  - done.
  - by apply complete_enumeration_run.
  - intros _ s' (v & c & Ho & Hk & Hc & Hp). by eapply promoted_wf.
  - by intros e s' (_ & ? & ?).
  - by apply begin_stream_run.
  - intros _ s' (v & cat & m & p & Ho & Hk & _ & Hc & Hf & ->). by eapply stream_begun_wf.
  - done.
  - by apply data_chunk_run.
  - intros _ s' (v & left & Ho & Hk & Hs & Hn & _ & ->). eapply chunk_wf; [done..|]. lia.
  - done.
  - by apply complete_stream_run.
  - intros _ s' (v & Ho & Hk & Hs & ->). by eapply stream_completed_wf.
  - done.
  - by apply read_request_unit.
  - intros _ s' (v & (Hv & Hm & _) & Hk & ->). rewrite Hk in Hm.
    split; [by apply put_protocol_wf|by destruct s].
  - done.
  - by apply read_reply_run.
  - intros _ s' (v & m & (Hv & Hm & _) & Hk & _ & _ & _ & ->). rewrite Hk in Hm.
    split; [by apply put_protocol_wf|by destruct s].
  - done.
  - by apply cancel_run.
  - intros _ s' (v & Ho & Hk & ->). by eapply cancelled_wf.
  - done.
  - by apply cancel_ack_run.
  - intros _ s' (v & (Hv & Hm & _) & Hk & ->). rewrite Hk in Hm. by apply emptied_wf; auto.
  - done.
  - by apply shutdown_run.
  - intros _ s' (v & (Hv & Hm & _) & Hk & ->). rewrite Hk in Hm. by apply emptied_wf; auto.
  - done.
Qed.
(** No operation touches the quotas or the worker's epoch. *)
Definition same_config (t t' : ResultSession) : Prop :=
  rs_limits t' = rs_limits t ∧ rs_epoch t' = rs_epoch t.

#[local] Instance same_config_preorder : PreOrder same_config.
Proof. split; [by intros t|]. by intros t u v [E1 E2] [E3 E4]; split; etrans. Qed.

Lemma rs_op_config op s k : same_config s (rs_op op (s, k)).1.1.
Proof.
  enough (Hk : keeps (λ t t' : ResultSession * K, same_config t.1 t'.1) (rs_op op)) by apply (Hk (s, k)).
  assert (PreOrder (λ t t' : ResultSession * K, same_config t.1 t'.1)).
  { split; [by intros t|]. by intros t u v [E1 E2] [E3 E4]; split; etrans. }
  assert (Hz : ∀ A (m : M ResultSession ResultSessionError A), keeps same_config m →
    keeps (λ t t' : ResultSession * K, same_config t.1 t'.1) (on_session m)).
  { intros A m Hm. unfold on_session. by eapply keeps_zoom. }
  assert (Hobs : ∀ d f, keeps same_config (zoom rs_protocol rs_put_protocol (observe d f))).
  { intros d f. apply (keeps_zoom _ (λ _ _, True)); [done|]. by intros [] ? _. }
  assert (Ha : ∀ S E F A (R : S → S → Prop) (m : M S E A), keeps R m → keeps R (attempt (F:=F) m)).
  { intros S0 E0 F0 A0 R m Hm t. specialize (Hm t). unfold attempt. by destruct (m t). }
  destruct op; simpl; unfold rs_accept_data_chunk; try apply Hz.
  all: unfold rs_begin_enumeration, rs_accept_entry_batch, rs_complete_enumeration,
    rs_begin_stream_entry, rs_complete_stream, rs_accept_read_request, rs_accept_read_reply,
    rs_accept_cancel, rs_accept_cancel_ack, rs_accept_shutdown, rs_invalidate_source,
    rs_worker_failed, some_or_fail, or_fail, rs_observe, or_fail, rs_fail, retire, retire_all,
    rs_guard.
  all: repeat first
    [ apply Ha | apply Hobs | apply Hz | keeps_step
    | match goal with |- same_config ?t _ => by destruct t end ].
  all: try match goal with |- same_config (fst ?t) _ => by destruct t as [[]] end.
  intros t. unfold zoom. by destruct (sink_write (chunk_data a2) t.2).
Qed.
End reachable.
