(* ===== verification/ResultRuns.v ===== *)
(** * What a result session promises

    The reachable states of [ResultSession.v] and the parent's end-to-end
    guarantees: the first failure is final, a live catalog is the plan of
    exactly the enumerated batches, and a completed stream delivered exactly the
    entry's bytes. *)

From stdpp Require Import sets.
From S2P Require Export ResultSession.

#[local] Open Scope N_scope.

Section runs.
Context `{ByteSink K} (epoch : WorkerEpoch) (limits : ImportLimits).
Implicit Types (s : ResultSession) (k : K).

(** ** Reachable states *)

Inductive rs_reachable : ResultSession → K → Prop :=
| rs_reachable_new protocol s k :
    session_wf protocol → limits_ok limits → result_session_new protocol epoch limits = Ok s →
    rs_reachable s k
| rs_reachable_op op s k s' k' r :
    rs_reachable s k → rs_op op (s, k) = ((s', k'), r) → rs_reachable s' k'.

Lemma rs_reachable_wf s k :
  rs_reachable s k → rs_wf s ∧ rs_limits s = limits ∧ rs_epoch s = epoch.
Proof.
  induction 1 as [protocol s k Hp Hl Hn|op s k s' k' r Hr (Hwf & IHl & IHe) Hop].
  - apply bind_Ok in Hn as (? & E%guard_err_Ok & [= <-]). split; [|done].
    bool_to_prop. split; [by split|]. simpl.
    match goal with H : ¬ sv_state _ ≠ Idle |- _ => apply dec_stable in H as Hi end.
    by split; simpl; [rewrite Hi|..].
  - pose proof (rs_op_outcome op s k Hwf) as [Hwf' _].
    destruct (rs_op_config op s k) as [Hl He]. rewrite Hop in Hwf', Hl, He. simpl in *.
    split; [done|]. by rewrite Hl, He.
Qed.

(** Once failed, a session answers every operation with its first error. *)
Lemma rs_attempts_failed ops s k e : rs_failure s = Some e →
  ∃ outcomes, rs_attempts ops (s, k) = ((s, k), outcomes) ∧
    ∀ e', In (Err e') outcomes → e' = e.
Proof.
  intros Hf. induction ops as [|op ops (outcomes & IH & Hin)]; simpl; [by exists []|].
  rewrite (rs_op_failed op s k e Hf), IH. eexists. split; [done|].
  intros e' [E|?]; [|by apply Hin]. by destruct (out_of_band op); [|injection E].
Qed.

Lemma rs_attempts_outcome ops s k s' k' outcomes :
  rs_reachable s k → rs_attempts ops (s, k) = ((s', k'), outcomes) →
  rs_reachable s' k' ∧ ∀ e, In (Err e) outcomes → rs_failure s' = Some e.
Proof.
  revert s k outcomes; induction ops as [|op ops IH]; intros s k outcomes Hr E; simpl in E.
  { injection E as <- <- <-. by split. }
  destruct (rs_op op (s, k)) as [[s1 k1] r] eqn:Eop.
  destruct (rs_attempts ops (s1, k1)) as [[s2 k2] rest] eqn:Erest. injection E as -> -> <-.
  pose proof (rs_reachable_op _ _ _ _ _ _ Hr Eop) as Hr1.
  destruct (IH _ _ _ Hr1 Erest) as [Hr2 Hrest]. split; [done|].
  intros e [->|Hin]; [|by apply Hrest].
  pose proof (rs_op_outcome op s k (proj1 (rs_reachable_wf _ _ Hr))) as [_ Ho].
  rewrite Eop in Ho. simpl in Ho.
  destruct (rs_attempts_failed ops s1 k1 e Ho) as (o & Eo & _). rewrite Eo in Erest.
  by injection Erest as -> _ _.
Qed.

(** ** Completing an enumeration *)

Definition between (op : RsOp) : bool :=
  match op with RsReadRequest _ _ _ | RsReadReply _ _ _ => true | _ => false end.
Definition enumerating_op (op : RsOp) : bool :=
  match op with RsEntryBatch _ => true | _ => between op end.
Definition streaming_op (op : RsOp) : bool :=
  match op with RsDataChunk _ => true | _ => between op end.

(** The entries the batch frames among the operations carry, in order. *)
Fixpoint batches (ops : list RsOp) (l : list EntryBatchEntry) : Prop :=
  match ops with
  | [] => l = []
  | RsEntryBatch frame :: ops =>
      ∃ l1 l2, l = l1 ++ l2 ∧ batch_of frame l1 ∧ batches ops l2
  | _ :: ops => batches ops l
  end.

Lemma on_session_Ok {A} (m : M ResultSession ResultSessionError A) Q R s k s' k' a :
  wp m Q R s → on_session m (s, k) = ((s', k'), Ok a) → k' = k ∧ Q a s'.
Proof.
  unfold wp, on_session, zoom. simpl. destruct (m s) as [s1 [a1|e]]; [|done].
  by intros HQ [= -> -> ->].
Qed.

(** A read in between changes the validator only. *)
Lemma between_run op s k s' k' :
  rs_wf s → between op = true → rs_op op (s, k) = ((s', k'), Ok tt) →
  k' = k ∧ ∃ v, s' = rs_put_protocol v s.
Proof.
  intros Hwf Hb E. destruct op; try done; simpl in E.
  - apply (on_session_Ok _ _ _ _ _ _ _ _ (read_request_unit _ _ _ _ Hwf)) in E
      as (-> & v & _ & _ & ->). eauto.
  - apply (on_session_Ok _ _ _ _ _ _ _ _ (read_reply_run _ _ _ _ Hwf)) in E
      as (-> & v & m & _ & _ & _ & _ & _ & ->). eauto.
Qed.

Lemma rs_op_wf_Ok op s k s' k' :
  rs_wf s → out_of_band op = false → rs_op op (s, k) = ((s', k'), Ok tt) →
  rs_wf s' ∧ rs_failure s' = None.
Proof.
  intros Hwf Ho E. pose proof (rs_op_outcome op s k Hwf) as [Hwf' Hl].
  rewrite E in Hwf', Hl. simpl in *. by destruct Hl.
Qed.

(** The batches between the start and the end of an enumeration add up in the
    candidate. *)
Lemma enumerating_run ops s k s' k' c :
  rs_wf s → forallb enumerating_op ops = true → rs_run ops (s, k) = ((s', k'), Ok tt) →
  rs_candidate s = Some c → cd_promotable c = true →
  k' = k ∧ rs_wf s' ∧ rs_limits s' = rs_limits s ∧
  ∃ l c', batches ops l ∧ rs_candidate s' = Some c' ∧ cd_promotable c' = true ∧
    cd_generation c' = cd_generation c ∧ cd_entries c' = cd_entries c ++ (metadata_of <$> l).
Proof.
  revert s k c; induction ops as [|op ops IH]; intros s k c Hwf Ho E Hc Hp.
  { injection E as -> ->. split; [done|]. split; [done|]. split; [done|]. exists [], c.
    by rewrite fmap_nil, app_nil_r. }
  simpl in Ho. apply andb_true_iff in Ho as [Hop Ho].
  cbn [rs_run] in E. apply M_bind_Ok in E as ([s1 k1] & [] & E1 & E2).
  destruct (rs_op_wf_Ok op _ _ _ _ Hwf ltac:(by destruct op) E1) as [Hwf1 _].
  destruct (rs_op_config op s k) as [Hl1 _]. rewrite E1 in Hl1. simpl in Hl1.
  destruct (between op) eqn:Hb.
  - destruct (between_run _ _ _ _ _ Hwf Hb E1) as [-> (v & ->)].
    assert (Hc1 : rs_candidate (rs_put_protocol v s) = Some c) by (by destruct s).
    destruct (IH _ _ _ Hwf1 Ho E2 Hc1 Hp) as (-> & Hwf' & Hl & l & c' & Hbt & Hrest).
    split; [done|]. split; [done|]. split; [congruence|]. exists l, c'. by destruct op.
  - destruct op as [|frame| | | | | | | | | | |]; try done. simpl in E1.
    apply (on_session_Ok _ _ _ _ _ _ _ _ (accept_entry_batch_run _ _ Hwf)) in E1
      as (-> & v & c0 & l1 & _ & _ & Hc0 & Hb1 & _ & ->).
    rewrite Hc in Hc0. injection Hc0 as <-.
    assert (Hc1 : rs_candidate (rs_put_candidate (Some (accepted c l1)) (rs_put_protocol v s)) =
                  Some (accepted c l1)) by (by destruct s).
    destruct (IH _ _ _ Hwf1 Ho E2 Hc1 Hp) as (-> & Hwf' & Hl & l & c' & Hbt & Hc' & Hp' & Hg & He).
    split; [done|]. split; [done|]. split; [congruence|]. exists (l1 ++ l), c'.
    split; [by exists l1, l|]. split; [done|]. split; [done|]. split; [done|].
    rewrite He. simpl. by rewrite Hp, fmap_app, app_assoc.
Qed.

(** ** Streaming *)

Definition chunks (ops : list RsOp) : list (list byte) :=
  omap (λ op, match op with RsDataChunk frame => Some (fv_payload frame) | _ => None end) ops.

(** The sink taking several chunks. *)
Fixpoint write_all (l : list (list byte)) : M K unit unit :=
  match l with
  | [] => mret tt
  | bytes :: l => sink_write bytes;; write_all l
  end.

Lemma streaming_run ops s k s' k' left :
  rs_wf s → forallb streaming_op ops = true → rs_run ops (s, k) = ((s', k'), Ok tt) →
  rs_stream s = Some left →
  rs_wf s' ∧ write_all (chunks ops) k = (k', Ok tt) ∧
  ∃ left', rs_stream s' = Some left' ∧ left' + len (concat (chunks ops)) = left.
Proof.
  revert s k left; induction ops as [|op ops IH]; intros s k left Hwf Ho E Hs.
  { injection E as -> ->. split; [done|]. split; [done|]. exists left. split; [done|].
    simpl. rewrite len_nil. lia. }
  simpl in Ho. apply andb_true_iff in Ho as [Hop Ho].
  cbn [rs_run] in E. apply M_bind_Ok in E as ([s1 k1] & [] & E1 & E2).
  destruct (rs_op_wf_Ok op _ _ _ _ Hwf ltac:(by destruct op) E1) as [Hwf1 _].
  destruct (between op) eqn:Hb.
  - destruct (between_run _ _ _ _ _ Hwf Hb E1) as [-> (v & ->)].
    assert (Hs1 : rs_stream (rs_put_protocol v s) = Some left) by (by destruct s).
    destruct (IH _ _ _ Hwf1 Ho E2 Hs1) as (Hwf' & Hw & Hrest).
    split; [done|]. by destruct op.
  - destruct op as [| | | |frame| | | | | | | |]; try done. simpl in E1.
    pose proof (data_chunk_run frame s k Hwf) as Hd. unfold wp in Hd. rewrite E1 in Hd.
    destruct Hd as (v & left0 & _ & _ & Hs0 & Hn & Hw1 & Es1). simpl in Hw1, Es1.
    rewrite Hs in Hs0. injection Hs0 as <-. subst s1.
    assert (Hs1 : rs_stream (rs_put_stream (Some (left - len (fv_payload frame)))
                               (rs_put_protocol v s)) = Some (left - len (fv_payload frame)))
      by (by destruct s).
    destruct (IH _ _ _ Hwf1 Ho E2 Hs1) as (Hwf' & Hw & left' & Hs' & Hsum).
    split; [done|]. simpl. split; [by rewrite (M_bind_step _ _ _ _ _ Hw1)|].
    exists left'. split; [done|]. rewrite len_app. lia.
Qed.
Lemma rs_run_reachable ops (t t' : ResultSession * K) r :
  rs_reachable t.1 t.2 → rs_run ops t = (t', r) → rs_reachable t'.1 t'.2.
Proof.
  revert t; induction ops as [|op ops IH]; intros [s k] Hr E; [by injection E as <- <-|].
  cbn [rs_run] in E. unfold mbind, M_bind in E.
  destruct (rs_op op (s, k)) as [[s1 k1] [u|e]] eqn:E1.
  - eapply IH; [|exact E]. by eapply rs_reachable_op.
  - injection E as <- <-. by eapply rs_reachable_op.
Qed.

Lemma rs_run_snoc ops op (t t' : ResultSession * K) :
  rs_run (ops ++ [op]) t = (t', Ok tt) →
  ∃ u, rs_run ops t = (u, Ok tt) ∧ rs_op op u = (t', Ok tt).
Proof.
  revert t; induction ops as [|op' ops IH]; intros t E; cbn [app rs_run] in E;
    apply M_bind_Ok in E as (u & [] & E1 & E2).
  - exists t. split; [done|]. by injection E2 as ->.
  - destruct (IH _ E2) as (w & E3 & E4). exists w. split; [|done].
    cbn [rs_run]. by rewrite (M_bind_step _ _ _ _ _ E1).
Qed.

Lemma enumeration_run f0 ops f1 s k s' k' :
  rs_reachable s k → forallb enumerating_op ops = true →
  rs_run (RsBeginEnumeration f0 :: ops ++ [RsCompleteEnumeration f1]) (s, k) = ((s', k'), Ok tt) →
  k' = k ∧ ∃ l cat, batches ops l ∧ plan_catalog (metadata_of <$> l) limits = Ok cat ∧
    rs_catalog_view s' =
      Some ({| cg_epoch := epoch; cg_enumeration := rs_enumeration_counter s + 1 |}, cat).
Proof.
  intros (Hwf & Hl & He)%rs_reachable_wf Ho E.
  cbn [rs_run] in E. apply M_bind_Ok in E as ([s1 k1] & [] & E1 & E).
  destruct (rs_op_wf_Ok (RsBeginEnumeration f0) _ _ _ _ Hwf eq_refl E1) as [Hwf1 _].
  cbn [rs_op] in E1. apply (on_session_Ok _ _ _ _ _ _ _ _ (begin_enumeration_run f0 s Hwf)) in E1
    as (-> & v & _ & _ & _ & ->).
  assert (∃ t, rs_run ops (begun v s, k) = (t, Ok tt) ∧ rs_op (RsCompleteEnumeration f1) t = ((s', k'), Ok tt))
    as ([s2 k2] & E2 & E3).
  { by apply rs_run_snoc. }
  destruct (enumerating_run ops _ _ _ _ _ Hwf1 Ho E2 eq_refl eq_refl)
    as (-> & Hwf2 & Hl2 & l & c & Hb & Hc & Hp & Hg & Hcd).
  cbn [rs_op] in E3.
  assert (Hlive : rs_failure s' = None).
  { destruct (rs_op_wf_Ok (RsCompleteEnumeration f1) _ _ _ _ Hwf2 eq_refl E3) as [_ ?]. done. }
  apply (on_session_Ok _ _ _ _ _ _ _ _ (complete_enumeration_run f1 s2 Hwf2)) in E3
    as (-> & v2 & c2 & _ & _ & Hc2 & Hpr).
  rewrite Hc in Hc2. injection Hc2 as <-. unfold promoted in Hpr. rewrite Hp, Hg, Hcd, Hl2 in Hpr.
  destruct Hpr as (cat & Hcat & ->). simpl in Hcat. rewrite Hl in Hcat.
  split; [done|]. exists l, cat. split; [done|]. split; [done|].
  unfold rs_catalog_view, rs_is_terminal. rewrite Hlive, bool_decide_false by auto.
  rewrite <-He. by destruct s2.
Qed.

(** ** Properties *)

(** The first failure of a result session is final. Whatever operations a
    session has seen, every error any of them returned is the one it retains;
    from then on nothing is live, no catalog can be viewed, and every later
    operation returns that error and changes nothing. *)
Theorem result_failure_final ops s k s' k' outcomes :
  rs_reachable s k → rs_attempts ops (s, k) = ((s', k'), outcomes) →
  (∀ e, In (Err e) outcomes → rs_failure s' = Some e) ∧
  (∀ e, rs_failure s' = Some e →
     rs_catalog_view s' = None ∧ nothing_live s' ∧
     ∀ op, rs_op op (s', k') = ((s', k'), if out_of_band op then Ok tt else Err e)).
Proof.
  intros Hr E. destruct (rs_attempts_outcome _ _ _ _ _ _ Hr E) as [Hr' Hin]. split; [done|].
  intros e He. split; [|split].
  - unfold rs_catalog_view, rs_is_terminal. by rewrite He, bool_decide_true.
  - destruct (rs_reachable_wf _ _ Hr') as [[_ Hw] _]. by rewrite He in Hw.
  - intros op. by apply rs_op_failed.
Qed.

(** C36: While a result session is live its results agree with the protocol
    state of its validator: an enumeration in progress has a candidate and no
    catalog, a stream has a catalog and bytes left to deliver, a cancelled
    enumeration can no longer be promoted. What is left of each quota is
    exactly what the accepted entries have not used, every promoted catalog
    carries the worker's epoch and the latest enumeration number and is the plan
    of entries that each passed the batch rules. *)
Theorem result_session_invariant s k :
  rs_reachable s k → rs_failure s = None →
  results_agree (sv_state (rs_protocol s)) (rs_candidate s) (rs_catalog s) (rs_stream s) ∧
  (∀ c, rs_candidate s = Some c →
     candidate_wf limits {| cg_epoch := epoch; cg_enumeration := rs_enumeration_counter s |} c) ∧
  (∀ p, rs_catalog s = Some p →
     catalog_wf limits {| cg_epoch := epoch; cg_enumeration := rs_enumeration_counter s |} p) ∧
  remaining_stream_bytes s ≤ il_entry_bytes limits.
Proof.
  intros (Hwf & <- & <-)%rs_reachable_wf Hf.
  destruct (rs_live _ Hwf Hf) as [Ha Hc Hp Hs]. split_and!; [done|done|done|].
  unfold remaining_stream_bytes. destruct (rs_stream s) as [n|]; [by apply Hs|simpl; lia].
Qed.

(** C7: An enumeration that completes promotes exactly what the worker sent:
    the catalog is the plan of the entries of all its batch frames, in order,
    under the session's quotas, and its generation is the next enumeration
    number of the worker's epoch. *)
Theorem enumeration_promotes f0 ops f1 s k s' k' :
  rs_reachable s k → forallb enumerating_op ops = true →
  rs_run (RsBeginEnumeration f0 :: ops ++ [RsCompleteEnumeration f1]) (s, k) = ((s', k'), Ok tt) →
  k' = k ∧ ∃ l cat, batches ops l ∧ plan_catalog (metadata_of <$> l) limits = Ok cat ∧
    rs_catalog_view s' =
      Some ({| cg_epoch := epoch; cg_enumeration := rs_enumeration_counter s + 1 |}, cat).
Proof. exact (enumeration_run f0 ops f1 s k s' k'). Qed.

(** C8: A stream that completes delivered the entry. The token is one of the
    catalog with the generation the caller named, the sink took exactly the
    payloads of the data frames, one whole chunk at a time and in order, and
    together they are as long as the entry's planned size. *)
Theorem stream_delivers f0 generation ops f1 s k s' k' :
  rs_reachable s k → forallb streaming_op ops = true →
  rs_run (RsBeginStream f0 generation :: ops ++ [RsCompleteStream f1]) (s, k) =
    ((s', k'), Ok tt) →
  ∃ cat m p, rs_catalog s = Some (generation, cat) ∧ decode_stream_entry_payload f0 = Ok m ∧
    catalog_find (source_token m) cat = Some p ∧
    write_all (chunks ops) k = (k', Ok tt) ∧ len (concat (chunks ops)) = pe_size_bytes p.
Proof.
  intros (Hwf & _ & _)%rs_reachable_wf Ho E.
  cbn [rs_run] in E. apply M_bind_Ok in E as ([s1 k1] & [] & E1 & E).
  destruct (rs_op_wf_Ok (RsBeginStream f0 generation) _ _ _ _ Hwf eq_refl E1) as [Hwf1 _].
  apply (on_session_Ok _ _ _ _ _ _ _ _ (begin_stream_run f0 generation s Hwf)) in E1
    as (-> & v & cat & m & p & _ & _ & Hm & Hc & Hf & ->).
  apply rs_run_snoc in E as ([s2 k2] & E2 & E3).
  assert (Hs : rs_stream (rs_put_stream (Some (pe_size_bytes p)) (rs_put_protocol v s)) =
               Some (pe_size_bytes p)) by (by destruct s).
  destruct (streaming_run ops _ _ _ _ _ Hwf1 Ho E2 Hs) as (Hwf2 & Hw & left & Hl & Hsum).
  apply (on_session_Ok _ _ _ _ _ _ _ _ (complete_stream_run f1 s2 Hwf2)) in E3
    as (-> & v2 & _ & _ & Hz & _).
  rewrite Hl in Hz. injection Hz as ->. exists cat, m, p. split_and!; try done.
Qed.

(** Completing an enumeration on a live session fails in four ways only: the
    frame violates the protocol, no enumeration is under way, or the plan of the
    accepted entries is refused for a path that does not normalise or that
    conflicts with another. The quotas were already enforced batch by batch, so
    no quota error and no disagreement between plan and quotas can remain. *)
Theorem completion_errors frame s k s' e :
  rs_reachable s k → rs_failure s = None → rs_complete_enumeration frame s = (s', Err e) →
  (∃ p, e = RE_Protocol p) ∨
  (e = RE_InvalidState ∧ rs_candidate s = None) ∨
  (∃ c, rs_candidate s = Some c ∧
     (e = RE_Layout LE_InvalidPath ∧ plan_catalog (cd_entries c) limits = Err LE_InvalidPath ∨
      e = RE_Layout LE_PathConflict ∧ plan_catalog (cd_entries c) limits = Err LE_PathConflict)).
Proof.
  intros (Hwf & <- & _)%rs_reachable_wf Hf E.
  pose proof (complete_enumeration_run frame s Hwf) as Hw. unfold wp in Hw. rewrite E in Hw.
  destruct Hw as [[He|[He|[He|(l & He & Hl & c & Hc & Hp)]]] _]; [congruence|by left|by right; left|].
  right. right. exists c. split; [done|]. subst e. destruct Hl as [-> | ->]; [by left|by right].
Qed.
End runs.

(** ** Witnesses *)

(** A sink that keeps what it takes. *)
#[local] Instance log_sink : ByteSink (list byte) := λ bytes k, (k ++ bytes, Ok tt).

Definition parent_frame (ty : MessageType) (request : N) (payload : list byte) : FrameView :=
  frame_view_new (frame_header_new ty 7 request (len payload)) payload.

Definition idle_validator : SessionValidator :=
  fst (observe_all (take 2 sample_trace) (session_new 7 protocol_budgets_default)).

Definition idle_session : ResultSession :=
  {| rs_protocol := idle_validator; rs_limits := import_limits_default; rs_epoch := 4;
     rs_failure := None; rs_enumeration_counter := 0; rs_candidate := None; rs_catalog := None;
     rs_stream := None |}.

Lemma idle_reachable : rs_reachable 4 import_limits_default idle_session ([] : list byte).
Proof.
  eapply (rs_reachable_new _ _ idle_validator); [| |vm_compute; reflexivity].
  - assert (E : observe_all (take 2 sample_trace) (session_new 7 protocol_budgets_default) =
                (idle_validator, Ok tt)) by (vm_compute; reflexivity).
    pose proof (observe_all_refines (take 2 sample_trace) (session_new 7 protocol_budgets_default)
      (session_new_wf _ _)) as Hr. rewrite E in Hr. apply Hr.
  - exists 50000, (64 * 1024 * 1024), (8 * 1024 * 1024 * 1024), (32 * 1024 * 1024 * 1024).
    vm_compute. reflexivity.
Qed.

Definition listed : list EntryBatchEntry :=
  [ {| be_source_token := 5; be_size_bytes := 3; be_archive_path := [x61] |};
    {| be_source_token := 9; be_size_bytes := 2; be_archive_path := [x62; x2f; x63] |} ].

Definition complete_frame (request : N) : FrameView :=
  parent_frame MT_Complete request
    (le_bytes 2 (status_to_wire PS_Ok) ++ le_bytes 2 (phase_to_wire PP_Complete)).

Definition listing : list RsOp := [RsEntryBatch (parent_frame MT_EntryBatch 1 (batch_image listed))].
Definition enumeration : list RsOp :=
  RsBeginEnumeration (parent_frame MT_Enumerate 1 []) :: listing ++
  [RsCompleteEnumeration (complete_frame 1)].

Definition listed_session : ResultSession := fst (fst (rs_run enumeration (idle_session, []))).

Lemma enumeration_runs :
  rs_run enumeration (idle_session, []) = ((listed_session, []), Ok tt).
Proof. vm_compute. reflexivity. Qed.

Definition first_generation : CatalogGeneration := {| cg_epoch := 4; cg_enumeration := 1 |}.

Definition delivering : list RsOp :=
  [ RsDataChunk (parent_frame MT_DataChunk 2 [x01; x02]);
    RsDataChunk (parent_frame MT_DataChunk 2 [x03]) ].
Definition streaming : list RsOp :=
  RsBeginStream (parent_frame MT_StreamEntry 2 (le_bytes 8 5)) first_generation :: delivering ++
  [RsCompleteStream (complete_frame 2)].
Definition streamed_session : ResultSession := fst (fst (rs_run streaming (listed_session, []))).

Lemma enumeration_promotes_witness :
  ∃ l cat, batches listing l ∧ plan_catalog (metadata_of <$> l) import_limits_default = Ok cat ∧
    rs_catalog_view listed_session = Some (first_generation, cat).
Proof.
  destruct (enumeration_promotes 4 import_limits_default (parent_frame MT_Enumerate 1 []) listing
    (complete_frame 1) idle_session [] listed_session []) as (_ & l & cat & Hb & Hp & Hc).
  - exact idle_reachable.
  - reflexivity.
  - exact enumeration_runs.
  - exists l, cat. split; [exact Hb|]. split; [exact Hp|exact Hc].
Defined.

Lemma listed_reachable : rs_reachable 4 import_limits_default listed_session ([] : list byte).
Proof.
  exact (rs_run_reachable _ _ _ (idle_session, []) _ _ idle_reachable enumeration_runs).
Qed.

Lemma stream_delivers_witness :
  ∃ k', write_all (chunks delivering) [] = (k', Ok tt) ∧ len (concat (chunks delivering)) = 3.
Proof.
  destruct (stream_delivers 4 import_limits_default (parent_frame MT_StreamEntry 2 (le_bytes 8 5))
    first_generation delivering (complete_frame 2) listed_session [] streamed_session
    [x01; x02; x03]) as (cat & m & p & Hc & Hm & Hf & Hw & Hn).
  - exact listed_reachable.
  - reflexivity.
  - vm_compute. reflexivity.
  - exists [x01; x02; x03]. split; [exact Hw|]. rewrite Hn.
    vm_compute in Hc, Hm. injection Hc as <-. injection Hm as <-. vm_compute in Hf.
    injection Hf as <-. reflexivity.
Defined.

(** A stream of the wrong generation, and a shutdown after it. *)
Definition failing_ops : list RsOp :=
  [ RsBeginStream (parent_frame MT_StreamEntry 2 (le_bytes 8 5))
      {| cg_epoch := 4; cg_enumeration := 2 |};
    RsWorkerFailed; RsShutdown (parent_frame MT_Shutdown 0 []) ].

Lemma result_failure_final_witness :
  ∃ s, rs_failure s = Some RE_UnknownSourceToken ∧ rs_catalog_view s = None ∧
    rs_catalog_view listed_session ≠ None.
Proof.
  destruct (rs_attempts failing_ops (listed_session, [])) as [[s k] outcomes] eqn:E.
  assert (Ho : outcomes = [Err RE_UnknownSourceToken; Ok tt; Err RE_UnknownSourceToken])
    by (vm_compute in E; injection E as _ _ <-; reflexivity).
  destruct (result_failure_final 4 import_limits_default failing_ops listed_session [] s k outcomes
    listed_reachable E) as [Hin Hf].
  assert (He : rs_failure s = Some RE_UnknownSourceToken)
    by (apply Hin; rewrite Ho; left; reflexivity).
  exists s. split; [exact He|]. split; [apply (Hf _ He)|]. vm_compute. discriminate.
Defined.

Lemma result_session_invariant_witness :
  ∃ p, rs_catalog listed_session = Some p ∧ catalog_wf import_limits_default first_generation p.
Proof.
  destruct (rs_catalog listed_session) as [p|] eqn:E; [|vm_compute in E; discriminate E].
  exists p. split; [reflexivity|].
  apply (result_session_invariant 4 import_limits_default listed_session []).
  - exact listed_reachable.
  - vm_compute. reflexivity.
  - exact E.
Defined.

Lemma completion_errors_witness :
  rs_candidate idle_session = None ∧
  ∃ e, snd (rs_complete_enumeration (complete_frame 1) idle_session) = Err e ∧
    ((∃ p, e = RE_Protocol p) ∨ e = RE_InvalidState).
Proof.
  split; [reflexivity|].
  destruct (rs_complete_enumeration (complete_frame 1) idle_session) as [s r] eqn:E.
  exists RE_InvalidState. assert (Hr : r = Err RE_InvalidState)
    by (vm_compute in E; injection E as _ <-; reflexivity).
  subst r. split; [reflexivity|].
  destruct (completion_errors 4 import_limits_default (complete_frame 1) idle_session [] s
    RE_InvalidState idle_reachable eq_refl E) as [Hp|[[He _]|(c & Hc & _)]].
  - left. exact Hp.
  - right. exact He.
  - discriminate Hc.
Defined.
