(* ===== verification/SourceBroker.v ===== *)
(** * Parent-serviced source reads

    [crates/ohl-import/src/source_read_broker.rs]: the broker that answers a
    worker's read requests from the pinned source, within quotas and inside the
    source, and only with bytes of a source that was unchanged before and after
    the read. It drives the result session of [ResultSession.v]. *)

From stdpp Require Import sets.
From S2P Require Export ResultRuns.

#[local] Open Scope N_scope.

(** ** The source *)

(** [crates/ohl-platform/src/media_source.rs]. *)
Inductive MediaSourceError : Type :=
| MS_NotFound | MS_NotRegularFile | MS_OpenFailed | MS_ReadFailed | MS_UnexpectedEof
| MS_OutOfRange | MS_Changed | MS_ResourceExhausted | MS_Unsupported.

#[export] Instance MediaSourceError_eq_dec : EqDecision MediaSourceError.
Proof. solve_decision. Defined.

(** [trait SourceOps] together with the [MediaSource] it is applied to, over the
    state of the world they look at: two calls need not agree.
    [so_read_exact_at] yields what is in the destination afterwards. *)
Class SourceOps (O : Type) : Type := {
  so_verify_unchanged : O → O * result MediaSourceError unit;
  so_read_exact_at : N → list byte → O → O * (list byte * result MediaSourceError unit);
  so_window_length : O → N
}.

(** A slice keeps its length. *)
Class SourceOpsLaws (O : Type) `{SourceOps O} : Prop := {
  so_read_length offset destination o :
    length (fst (snd (so_read_exact_at offset destination o))) = length destination
}.

(** ** Limits and errors *)

Record SourceReadLimits : Type := {
  sl_read_bytes : N;
  sl_requests : N;
  sl_reply_payload_bytes : N
}.

Inductive SourceReadError : Type :=
| SR_InvalidConfiguration
| SR_InvalidState
| SR_ReplyPending
| SR_OutputTooSmall
| SR_RequestBudgetExceeded
| SR_ByteBudgetExceeded
| SR_SequenceExhausted
| SR_TicketExhausted
| SR_Protocol (error : ProtocolError)
| SR_Internal
| SR_InvalidTicket
| SR_TransportAbandoned
| SR_SourceChanged
| SR_SourceReadFailure.

#[export] Instance SourceReadError_eq_dec : EqDecision SourceReadError.
Proof. solve_decision. Defined.

Definition source_read_error_is_terminal (self : SourceReadError) : bool :=
  match self with SR_ReplyPending | SR_OutputTooSmall => false | _ => true end.

Definition source_read_limits_default : SourceReadLimits :=
  {| sl_read_bytes := MAXIMUM_READ_BYTES;
     sl_requests := MAXIMUM_PROTOCOL_MESSAGES / 2;
     sl_reply_payload_bytes := MAXIMUM_CUMULATIVE_PAYLOAD_BYTES |}.

Definition source_read_limits_new (read_bytes requests reply_payload_bytes : N)
  : result SourceReadError SourceReadLimits :=
  guard_err ((read_bytes =? 0) || (MAXIMUM_READ_BYTES <? read_bytes) ||
             (requests =? 0) || (MAXIMUM_PROTOCOL_MESSAGES / 2 <? requests) ||
             (reply_payload_bytes <? READ_REPLY_PREFIX_BYTES + read_bytes) ||
             (MAXIMUM_CUMULATIVE_PAYLOAD_BYTES <? reply_payload_bytes)) SR_InvalidConfiguration;;
  Ok {| sl_read_bytes := read_bytes; sl_requests := requests;
        sl_reply_payload_bytes := reply_payload_bytes |}.

Definition reply_storage_bytes (self : SourceReadLimits) : N :=
  READ_REPLY_PREFIX_BYTES + sl_read_bytes self.

(** ** Replies and state *)

(** [ReplyTicket] is its number; the reply borrows the front of the caller's
    storage, which cannot change while it does. *)
Record PreparedReply : Type := {
  pr_ticket : N;
  pr_status : ProtocolStatus;
  pr_header : FrameHeader;
  pr_payload : list byte
}.

Inductive PrepareOutcome : Type :=
| PO_ReplyReady (reply : PreparedReply)
| PO_IgnoredAfterCancel.

Record Pending : Type := {
  pe_ticket : N;
  pe_request_id : N;
  pe_sequence : N;
  pe_requested_length : N;
  pe_status : ProtocolStatus
}.

(** [sb_ops] is the pinned source behind [ops]. *)
Record SourceReadBroker (O : Type) : Type := {
  sb_ops : O;
  sb_policy : SourceReadPolicy;
  sb_limits : SourceReadLimits;
  sb_failure : option SourceReadError;
  sb_committed_request_id : option N;
  sb_next_sequence : N;
  sb_sequence_exhausted : bool;
  sb_requests_charged : N;
  sb_reply_payload_bytes_charged : N;
  sb_ticket_counter : N;
  sb_pending : option Pending
}.
Arguments Build_SourceReadBroker {O}.
Arguments sb_ops {O}.
Arguments sb_policy {O}.
Arguments sb_limits {O}.
Arguments sb_failure {O}.
Arguments sb_committed_request_id {O}.
Arguments sb_next_sequence {O}.
Arguments sb_sequence_exhausted {O}.
Arguments sb_requests_charged {O}.
Arguments sb_reply_payload_bytes_charged {O}.
Arguments sb_ticket_counter {O}.
Arguments sb_pending {O}.

#[export] Instance ReadRequest_eq_dec : EqDecision ReadRequest.
Proof. solve_decision. Defined.

Section broker.
Context {O : Type} `{!SourceOps O}.

(** *** Assignments [self.field = value] *)

Definition sb_put_ops (x : O) (s : SourceReadBroker O) : SourceReadBroker O :=
  let (_, b, c, d, e, f, g, h, i, j, k) := s in Build_SourceReadBroker x b c d e f g h i j k.
Definition sb_put_failure (x : option SourceReadError) (s : SourceReadBroker O)
  : SourceReadBroker O :=
  let (a, b, c, _, e, f, g, h, i, j, k) := s in Build_SourceReadBroker a b c x e f g h i j k.
Definition sb_put_committed (x : option N) (s : SourceReadBroker O) : SourceReadBroker O :=
  let (a, b, c, d, _, f, g, h, i, j, k) := s in Build_SourceReadBroker a b c d x f g h i j k.
Definition sb_put_sequence (x : N) (s : SourceReadBroker O) : SourceReadBroker O :=
  let (a, b, c, d, e, _, g, h, i, j, k) := s in Build_SourceReadBroker a b c d e x g h i j k.
Definition sb_put_exhausted (x : bool) (s : SourceReadBroker O) : SourceReadBroker O :=
  let (a, b, c, d, e, f, _, h, i, j, k) := s in Build_SourceReadBroker a b c d e f x h i j k.
Definition sb_put_charges (requests bytes : N) (s : SourceReadBroker O) : SourceReadBroker O :=
  let (a, b, c, d, e, f, g, _, _, j, k) := s in
  Build_SourceReadBroker a b c d e f g requests bytes j k.
Definition sb_put_ticket (x : N) (s : SourceReadBroker O) : SourceReadBroker O :=
  let (a, b, c, d, e, f, g, h, i, _, k) := s in Build_SourceReadBroker a b c d e f g h i x k.
Definition sb_put_pending (x : option Pending) (s : SourceReadBroker O) : SourceReadBroker O :=
  let (a, b, c, d, e, f, g, h, i, j, _) := s in Build_SourceReadBroker a b c d e f g h i j x.

(** *** [with_ops]: the media proof gives its size twice. *)
Definition broker_with_ops (media_source_size media_size_bytes : N) (limits : SourceReadLimits)
    (ops : O) : M ResultSession SourceReadError (SourceReadBroker O) :=
  session ← get;
  let policy := source_read_policy_new media_size_bytes (sl_read_bytes limits) in
  let usable := (media_source_size =? media_size_bytes) && negb (rs_is_terminal session) &&
                bool_decide (sv_state (rs_protocol session) = Idle) in
  match policy, usable with
  | Ok policy, true =>
      mret {| sb_ops := ops; sb_policy := policy; sb_limits := limits; sb_failure := None;
              sb_committed_request_id := None; sb_next_sequence := 1;
              sb_sequence_exhausted := false; sb_requests_charged := 0;
              sb_reply_payload_bytes_charged := 0; sb_ticket_counter := 0; sb_pending := None |}
  | _, _ =>
      attempt (F:=SourceReadError) rs_worker_failed;; throw SR_InvalidConfiguration
  end.

Definition sb_is_terminal (self : SourceReadBroker O) : bool :=
  bool_decide (sb_failure self ≠ None).
Definition reply_is_pending (self : SourceReadBroker O) : bool :=
  bool_decide (is_Some (sb_pending self)).

(** *** The broker next to the session it is called with *)

Abbreviation BM A := (M (SourceReadBroker O * ResultSession) SourceReadError A).

Definition on_broker {E A} (m : M (SourceReadBroker O) E A)
  : M (SourceReadBroker O * ResultSession) E A := zoom fst (λ b s, (b, s.2)) m.
Definition on_results {E A} (m : M ResultSession E A)
  : M (SourceReadBroker O * ResultSession) E A := zoom snd (λ r s, (s.1, r)) m.

(** [retire(self, session)]. *)
Definition broker_retire : M ResultSession SourceReadError unit :=
  session ← get;
  let state := sv_state (rs_protocol session) in
  if negb (rs_is_terminal session) && negb (bool_decide (state = Closed)) &&
     negb (bool_decide (state = Cancelled))
  then attempt rs_worker_failed;; mret tt
  else mret tt.

Definition sb_retain (error : SourceReadError) : BM SourceReadError :=
  self ← get;
  (if bool_decide (sb_failure self.1 = None) then
     on_broker (modify (sb_put_failure (Some error)));;
     on_broker (modify (sb_put_pending None));;
     self ← get;
     if negb (rs_is_terminal self.2) then attempt (on_results rs_worker_failed);; mret tt
     else mret tt
   else mret tt);;
  self ← get;
  mret (default error (sb_failure self.1)).

(** [return Err(self.fail(error, session))]. *)
Definition sb_fail {A} (error : SourceReadError) : BM A :=
  error ← sb_retain error; throw error.

Definition map_session_error (error : ResultSessionError) : SourceReadError :=
  match error with RE_Protocol protocol => SR_Protocol protocol | _ => SR_Internal end.

(** *** Reading the source *)

Definition boundary_status (error : MediaSourceError) : ProtocolStatus :=
  match error with MS_Changed => PS_SourceChanged | _ => PS_SourceReadFailed end.

Definition source_read_status (error : MediaSourceError) : ProtocolStatus :=
  match error with
  | MS_Changed | MS_UnexpectedEof | MS_OutOfRange => PS_SourceChanged
  | _ => PS_SourceReadFailed
  end.

Definition service (offset : N) (destination : list byte) (ops : O)
  : O * (list byte * ProtocolStatus) :=
  match so_verify_unchanged ops with
  | (ops, Err error) => (ops, (destination, boundary_status error))
  | (ops, Ok _) =>
      match so_read_exact_at offset destination ops with
      | (ops, (destination, Ok _)) =>
          match so_verify_unchanged ops with
          | (ops, Ok _) => (ops, (destination, PS_Ok))
          | (ops, Err error) => (ops, (destination, boundary_status error))
          end
      | (ops, (destination, Err read_error)) =>
          match so_verify_unchanged ops with
          | (ops, Ok _) => (ops, (destination, source_read_status read_error))
          | (ops, Err error) => (ops, (destination, boundary_status error))
          end
      end
  end.

(** *** [prepare] *)

(** The caller's two slices. *)
Record ReadBuffers : Type := {
  rf_scratch : list byte;
  rf_reply : list byte
}.

Definition put_scratch (x : list byte) (s : ReadBuffers) : ReadBuffers :=
  {| rf_scratch := x; rf_reply := rf_reply s |}.
Definition put_reply (x : list byte) (s : ReadBuffers) : ReadBuffers :=
  {| rf_scratch := rf_scratch s; rf_reply := x |}.

Abbreviation PM A := (M (SourceReadBroker O * ResultSession * ReadBuffers) SourceReadError A).

Definition unbuffered {A} (m : BM A) : PM A := zoom fst (λ p s, (p, s.2)) m.

(** [session.accept_read_request(...)], its [Result] for the caller to match. *)
Definition accept_request (request : FrameView) (expected_sequence : N)
  : BM (result ResultSessionError ReadRequestOutcome) :=
  self ← get;
  attempt (on_results (rs_accept_read_request request (sb_policy self.1) expected_sequence)).

(** The charges a serviceable request must still afford. *)
Definition check_charges (reply_size : N) : BM unit :=
  self ← get;
  if sl_requests (sb_limits self.1) <=? sb_requests_charged self.1
  then sb_fail SR_RequestBudgetExceeded
  else if sl_reply_payload_bytes (sb_limits self.1) - sb_reply_payload_bytes_charged self.1
          <? reply_size
  then sb_fail SR_ByteBudgetExceeded
  else if sb_ticket_counter self.1 =? 2 ^ 64 - 1 then sb_fail SR_TicketExhausted
  else mret tt.

(** From the accepted request on: charge, read, encode and hand out a ticket. *)
Definition serve_request (request : FrameView) (decoded : ReadRequest) (expected_sequence : N)
  : PM PrepareOutcome :=
  let length := rq_length decoded in
  let reply_size := READ_REPLY_PREFIX_BYTES + length in
  unbuffered (on_broker (modify (λ b,
    sb_put_charges (sb_requests_charged b + 1) (sb_reply_payload_bytes_charged b + reply_size) b)));;
  self ← get;
  let broker := self.1.1 in
  let tail := drop (N.to_nat length) (rf_scratch self.2) in
  let '(ops, (scratch, status)) :=
    service (rq_offset decoded) (take (N.to_nat length) (rf_scratch self.2)) (sb_ops broker) in
  unbuffered (on_broker (modify (sb_put_ops ops)));;
  let data := if bool_decide (status = PS_Ok) then scratch else [] in
  encoded ← attempt (zoom (λ s, rf_reply s.2) (λ r s, (s.1, put_reply r s.2))
    (encode_read_reply_payload
       {| rp_read_sequence := expected_sequence; rp_status := status; rp_data := data |}
       expected_sequence length));
  modify (λ s, (s.1, put_scratch (((λ _, x00) <$> scratch) ++ tail) s.2));;
  match encoded with
  | Err error => unbuffered (sb_fail (SR_Protocol error))
  | Ok encoded =>
      unbuffered (on_broker (modify (λ b, sb_put_ticket (sb_ticket_counter b + 1) b)));;
      unbuffered (on_broker (modify (λ b, sb_put_pending (Some
        {| pe_ticket := sb_ticket_counter b; pe_request_id := request_id (fv_header request);
           pe_sequence := expected_sequence; pe_requested_length := length;
           pe_status := status |}) b)));;
      self ← get;
      mret (PO_ReplyReady
        {| pr_ticket := sb_ticket_counter self.1.1;
           pr_status := status;
           pr_header := frame_header_new MT_ReadReply (session_id (fv_header request))
             (request_id (fv_header request)) (default (2 ^ 32 - 1) (try_from 32 encoded));
           pr_payload := take (N.to_nat encoded) (rf_reply self.2) |})
  end.

Definition prepare (request : FrameView) : PM PrepareOutcome :=
  self ← get;
  let broker := self.1.1 in
  match sb_failure broker with
  | Some failure => throw failure
  | None =>
    if reply_is_pending broker then throw SR_ReplyPending
    else
      let same_request :=
        bool_decide (sb_committed_request_id broker = Some (request_id (fv_header request))) in
      if same_request && sb_sequence_exhausted broker
      then unbuffered (sb_fail SR_SequenceExhausted)
      else
        let expected_sequence := if same_request then sb_next_sequence broker else 1 in
        let cancelling := bool_decide (sv_state (rs_protocol self.1.2) = Cancelling) in
        match decode_read_request_payload request (sb_policy broker) expected_sequence with
        | Err _ =>
            refused ← unbuffered (accept_request request expected_sequence);
            unbuffered (sb_fail (match refused with
                                 | Err error => map_session_error error
                                 | Ok _ => SR_Internal
                                 end))
        | Ok decoded =>
            let reply_size := READ_REPLY_PREFIX_BYTES + rq_length decoded in
            (if cancelling then mret tt
             else if (len (rf_scratch self.2) <? rq_length decoded) ||
                     (len (rf_reply self.2) <? reply_size)
             then throw SR_OutputTooSmall
             else unbuffered (check_charges reply_size));;
            accepted ← unbuffered (accept_request request expected_sequence);
            match accepted with
            | Err error => unbuffered (sb_fail (map_session_error error))
            | Ok IgnoredAfterCancel =>
                if negb cancelling then unbuffered (sb_fail SR_Internal)
                else mret PO_IgnoredAfterCancel
            | Ok (Serviceable message) =>
                if cancelling || negb (bool_decide (message = decoded))
                then unbuffered (sb_fail SR_Internal)
                else serve_request request decoded expected_sequence
            end
        end
  end.

(** *** Disposing of a prepared reply *)

Definition take_pending (ticket : N) : BM Pending :=
  self ← get;
  match sb_failure self.1 with
  | Some failure => throw failure
  | None =>
      match sb_pending self.1 with
      | None => sb_fail SR_InvalidState
      | Some pending =>
          on_broker (modify (sb_put_pending None));;
          if negb (ticket =? pe_ticket pending) then
            on_broker (modify (sb_put_pending (Some pending)));;
            sb_fail SR_InvalidTicket
          else mret pending
      end
  end.

(** The error of a sent reply that reported a failed read. *)
Definition failed_reply_error (status : ProtocolStatus) (accepted : result ResultSessionError unit)
  : SourceReadError :=
  match status, accepted with
  | PS_SourceChanged, Err RE_SourceInvalidated => SR_SourceChanged
  | PS_SourceReadFailed, Err RE_SourceReadFailure => SR_SourceReadFailure
  | _, Err error => map_session_error error
  | _, Ok _ => SR_Internal
  end.

Definition commit_reply_sent (prepared : PreparedReply) : BM unit :=
  pending ← take_pending (pr_ticket prepared);
  let frame := frame_view_new (pr_header prepared) (pr_payload prepared) in
  accepted ← attempt (on_results
    (rs_accept_read_reply frame (pe_sequence pending) (pe_requested_length pending)));
  if bool_decide (pe_status pending = PS_Ok) then
    match accepted with
    | Err error => sb_fail (map_session_error error)
    | Ok _ =>
        on_broker (modify (sb_put_committed (Some (pe_request_id pending))));;
        if pe_sequence pending =? 2 ^ 32 - 1
        then on_broker (modify (sb_put_exhausted true))
        else
          on_broker (modify (sb_put_sequence (pe_sequence pending + 1)));;
          on_broker (modify (sb_put_exhausted false))
    end
  else sb_fail (failed_reply_error (pe_status pending) accepted).

(** The error is the method's value. *)
Definition abandon_reply (prepared : PreparedReply) : BM SourceReadError :=
  taken ← attempt (take_pending (pr_ticket prepared));
  match taken with
  | Ok _ => sb_retain SR_TransportAbandoned
  | Err error => mret error
  end.

Implicit Types (b : SourceReadBroker O) (s : ResultSession) (bufs : ReadBuffers).

(** ** How the broker fails *)

Definition broken (e : SourceReadError) (b : SourceReadBroker O) : SourceReadBroker O :=
  sb_put_pending None (sb_put_failure (Some e) b).

Definition worker_retired (s : ResultSession) : ResultSession :=
  if rs_is_terminal s then s else retired RE_WorkerFailure s.

Lemma rs_worker_failed_run s : rs_failure s = None →
  rs_worker_failed s = (retired RE_WorkerFailure s, Ok tt).
Proof. intros Hs. unfold rs_worker_failed. run_M. by rewrite retire_run. Qed.

Lemma sb_retain_run e b s : sb_failure b = None →
  sb_retain e (b, s) = ((broken e b, worker_retired s), Ok e).
Proof.
  intros Hb. unfold sb_retain, on_broker, on_results. run_M. cbn [fst snd]. rewrite Hb.
  rewrite bool_decide_true by done. cbn [fst snd]. unfold worker_retired, rs_is_terminal.
  destruct (rs_failure s) as [f|] eqn:Hf.
  - rewrite !bool_decide_true by done. by destruct b.
  - rewrite !bool_decide_false by auto. simpl. rewrite rs_worker_failed_run by done. by destruct b.
Qed.

Lemma sb_fail_run {A} e b s : sb_failure b = None →
  (sb_fail e : BM A) (b, s) = ((broken e b, worker_retired s), Err e).
Proof. intros Hb. unfold sb_fail. unfold mbind, M_bind. by rewrite sb_retain_run. Qed.

(** ** Preparing a reply *)

(** The request was accepted by the session and is served. *)
Definition served (request : FrameView) b s bufs (m : ReadRequest) (sequence : N)
    (s1 : ResultSession) : Prop :=
  sb_failure b = None ∧ sb_pending b = None ∧
  sequence = (if bool_decide (sb_committed_request_id b = Some (request_id (fv_header request)))
              then sb_next_sequence b else 1) ∧
  decode_read_request_payload request (sb_policy b) sequence = Ok m ∧
  rq_length m ≤ len (rf_scratch bufs) ∧ READ_REPLY_PREFIX_BYTES + rq_length m ≤ len (rf_reply bufs) ∧
  sb_requests_charged b < sl_requests (sb_limits b) ∧
  READ_REPLY_PREFIX_BYTES + rq_length m ≤
    sl_reply_payload_bytes (sb_limits b) - sb_reply_payload_bytes_charged b ∧
  sb_ticket_counter b ≠ 2 ^ 64 - 1 ∧
  rs_accept_read_request request (sb_policy b) sequence s = (s1, Ok (Serviceable m)).

Lemma accept_request_run request sequence b s :
  accept_request request sequence (b, s) =
    let '(s1, r) := rs_accept_read_request request (sb_policy b) sequence s in ((b, s1), Ok r).
Proof.
  unfold accept_request, on_results, attempt, zoom. run_M. cbn [fst snd].
  by destruct (rs_accept_read_request _ _ _ s).
Qed.

Lemma check_charges_run reply_size b s : sb_failure b = None →
  (check_charges reply_size (b, s) = ((b, s), Ok tt) ∧
   sb_requests_charged b < sl_requests (sb_limits b) ∧
   reply_size ≤ sl_reply_payload_bytes (sb_limits b) - sb_reply_payload_bytes_charged b ∧
   sb_ticket_counter b ≠ 2 ^ 64 - 1) ∨
  ∃ e, check_charges reply_size (b, s) = ((broken e b, worker_retired s), Err e).
Proof.
  intros Hb. unfold check_charges. run_M. cbn [fst].
  destruct (N.leb_spec (sl_requests (sb_limits b)) (sb_requests_charged b)).
  { right. eexists. by apply sb_fail_run. }
  destruct (N.ltb_spec (sl_reply_payload_bytes (sb_limits b) - sb_reply_payload_bytes_charged b) reply_size).
  { right. eexists. by apply sb_fail_run. }
  destruct (N.eqb_spec (sb_ticket_counter b) (2 ^ 64 - 1)); [|by left].
  right. eexists. by apply sb_fail_run.
Qed.

(** Every way [prepare] can go, up to the serving of an accepted request. *)
Inductive prepare_case (request : FrameView) b s bufs :
  SourceReadBroker O * ResultSession * ReadBuffers * result SourceReadError PrepareOutcome → Prop :=
| prepare_served m sequence s1 :
    served request b s bufs m sequence s1 →
    prepare_case request b s bufs (serve_request request m sequence (b, s1, bufs))
| prepare_ignored sequence s1 :
    sb_failure b = None →
    rs_accept_read_request request (sb_policy b) sequence s = (s1, Ok IgnoredAfterCancel) →
    prepare_case request b s bufs ((b, s1, bufs), Ok PO_IgnoredAfterCancel)
| prepare_refused e :
    sb_failure b = Some e ∨ source_read_error_is_terminal e = false →
    prepare_case request b s bufs ((b, s, bufs), Err e)
| prepare_failed e s1 :
    sb_failure b = None → prepare_case request b s bufs ((broken e b, s1, bufs), Err e).

Lemma prepare_cases request b s bufs :
  prepare_case request b s bufs (prepare request (b, s, bufs)).
Proof.
  unfold prepare. unfold mbind at 1, M_bind at 1, get at 1. cbn [fst snd].
  destruct (sb_failure b) as [f|] eqn:Hf.
  { by apply prepare_refused; left. }
  unfold reply_is_pending. destruct (sb_pending b) as [p|] eqn:Hp.
  { rewrite bool_decide_true by by eexists. by apply prepare_refused; right. }
  rewrite bool_decide_false by (intros [? ?]; done).
  set (same := bool_decide (sb_committed_request_id b = _)).
  destruct (same && sb_sequence_exhausted b).
  { unfold unbuffered, zoom. cbn [fst snd]. rewrite sb_fail_run by done. by apply prepare_failed. }
  set (sequence := if same then sb_next_sequence b else 1).
  set (cancelling := bool_decide (sv_state (rs_protocol s) = Cancelling)).
  destruct (decode_read_request_payload request (sb_policy b) sequence) as [m|e] eqn:Hd.
  2:{ unfold mbind, M_bind, unbuffered, zoom. cbn [fst snd].
      rewrite accept_request_run.
      destruct (rs_accept_read_request request (sb_policy b) sequence s) as [s1 r]. cbn [fst snd].
      rewrite sb_fail_run by done. by apply prepare_failed. }
  assert (Hcharge : ∃ t1 r1, (if cancelling then mret tt
             else if (len (rf_scratch bufs) <? rq_length m) ||
                     (len (rf_reply bufs) <? READ_REPLY_PREFIX_BYTES + rq_length m)
             then throw SR_OutputTooSmall
             else unbuffered (check_charges (READ_REPLY_PREFIX_BYTES + rq_length m))) (b, s, bufs)
             = (t1, r1) ∧
     match r1 with
     | Ok _ => t1 = (b, s, bufs) ∧ (cancelling = false →
         rq_length m ≤ len (rf_scratch bufs) ∧ READ_REPLY_PREFIX_BYTES + rq_length m ≤ len (rf_reply bufs) ∧
         sb_requests_charged b < sl_requests (sb_limits b) ∧
         READ_REPLY_PREFIX_BYTES + rq_length m ≤
           sl_reply_payload_bytes (sb_limits b) - sb_reply_payload_bytes_charged b ∧
         sb_ticket_counter b ≠ 2 ^ 64 - 1)
     | Err e => t1 = (b, s, bufs) ∧ source_read_error_is_terminal e = false ∨
                ∃ s1, t1 = (broken e b, s1, bufs)
     end).
  { destruct cancelling; [by eexists _, _|].
    destruct (N.ltb_spec (len (rf_scratch bufs)) (rq_length m)); [eexists _, _; split; [done|by left]|].
    destruct (N.ltb_spec (len (rf_reply bufs)) (READ_REPLY_PREFIX_BYTES + rq_length m));
      [eexists _, _; split; [done|by left]|]. cbn [orb]. unfold unbuffered, zoom. cbn [fst snd].
    destruct (check_charges_run (READ_REPLY_PREFIX_BYTES + rq_length m) b s Hf)
      as [(-> & ? & ? & ?)|(e & ->)]; eexists _, _; (split; [reflexivity|]); [by auto|right; by eexists]. }
  destruct Hcharge as (t1 & r1 & E1 & Hr1). unfold mbind at 1, M_bind at 1. rewrite E1.
  destruct r1 as [u|e]; [destruct Hr1 as [-> Hok]|].
  2:{ destruct Hr1 as [[-> He]|(s1 & ->)]; [by apply prepare_refused; right|by apply prepare_failed]. }
  unfold mbind, M_bind, unbuffered, zoom. cbn [fst snd]. rewrite accept_request_run.
  destruct (rs_accept_read_request request (sb_policy b) sequence s) as [s1 r] eqn:Ea. cbn [fst snd].
  destruct r as [[m'|]|e].
  - destruct (cancelling || negb (bool_decide (m' = m))) eqn:Ec.
    { cbn [fst snd]; rewrite sb_fail_run by done. by apply prepare_failed. }
    apply orb_false_iff in Ec as [Ec Em]. rewrite negb_false_iff, bool_decide_eq_true in Em. subst m'.
    apply prepare_served. destruct (Hok Ec) as (?&?&?&?&?). by repeat split.
  - destruct cancelling; cbn [negb].
    + by eapply prepare_ignored.
    + cbn [fst snd]; rewrite sb_fail_run by done. by apply prepare_failed.
  - cbn [fst snd]; rewrite sb_fail_run by done. by apply prepare_failed.
Qed.

(** ** Serving a request *)

Record sb_wf b : Prop := {
  bw_policy : fits 64 (source_size (sb_policy b)) ∧
    source_read_policy_new (source_size (sb_policy b)) (sl_read_bytes (sb_limits b)) = Ok (sb_policy b);
  bw_limits : ∃ read requests bytes,
    source_read_limits_new read requests bytes = Ok (sb_limits b);
  bw_requests : sb_requests_charged b ≤ sl_requests (sb_limits b);
  bw_bytes : sb_reply_payload_bytes_charged b ≤ sl_reply_payload_bytes (sb_limits b);
  bw_sequence : 1 ≤ sb_next_sequence b ∧ fits 32 (sb_next_sequence b);
  bw_failed : sb_failure b ≠ None → sb_pending b = None;
  bw_pending p : sb_pending b = Some p → 1 ≤ pe_sequence p ∧ fits 32 (pe_sequence p)
}.

(** The status the source's answers amount to, and what an [Ok] attests. *)
Lemma service_spec `{!SourceOpsLaws O} offset destination o o' data status :
  service offset destination o = (o', (data, status)) →
  length data = length destination ∧ reply_status_allowed status = true ∧
  (status = PS_Ok → ∃ o1 o2, so_verify_unchanged o = (o1, Ok tt) ∧
     so_read_exact_at offset destination o1 = (o2, (data, Ok tt)) ∧
     so_verify_unchanged o2 = (o', Ok tt)).
Proof.
  unfold service. destruct (so_verify_unchanged o) as [o1 [[]|e]] eqn:E1.
  2:{ intros [= <- <- <-]. split; [done|]. by destruct e. }
  pose proof (so_read_length offset destination o1) as Hl.
  destruct (so_read_exact_at offset destination o1) as [o2 [data' [[]|e]]] eqn:E2; simpl in Hl;
    destruct (so_verify_unchanged o2) as [o3 [[]|e3]] eqn:E3; intros [= <- <- <-];
    (split; [done|]).
  - split; [done|]. intros _. exists o1, o2. auto.
  - by destruct e3.
  - by destruct e.
  - by destruct e3.
Qed.

Lemma decode_request_bounds b request sequence m :
  sb_wf b → decode_read_request_payload request (sb_policy b) sequence = Ok m →
  sequence ≠ 0 ∧ rq_read_sequence m = sequence ∧
  (1 ≤ rq_length m ≤ sl_read_bytes (sb_limits b) ∧ sl_read_bytes (sb_limits b) ≤ MAXIMUM_READ_BYTES) ∧
  rq_offset m + rq_length m ≤ source_size (sb_policy b).
Proof.
  intros [[Hs Hp] _ _ _ _ _ _] Hd. unfold decode_read_request_payload in Hd.
  rewrite validated in Hd. destruct Hd as [_ Hd]. rewrite guard_seq in Hd. destruct Hd as [_ Hd].
  apply bind_Ok in Hd as (m' & _ & Hd). apply bind_Ok in Hd as (u & Hv & [= ->]).
  apply validate_read_request_Ok in Hv as (H1 & H2 & H3 & H4 & H5); [|done]. simpl in *.
  apply source_read_policy_new_Ok in Hp as [(_ & _ & Hmax) Hp]. simpl in Hmax.
  rewrite Hp in H4. simpl in H4. split_and!; try done; lia.
Qed.

(** The reply to a request, as its message and its image. *)
Definition reply_message (sequence : N) (status : ProtocolStatus) (data : list byte) : ReadReply :=
  {| rp_read_sequence := sequence; rp_status := status;
     rp_data := if bool_decide (status = PS_Ok) then data else [] |}.

Definition reply_image (m : ReadReply) : list byte := sc_image read_reply_schema m.

(** The broker after serving, with the reply it awaits. *)
Definition charged (ops : O) (request : FrameView) (m : ReadRequest) (sequence : N)
    (status : ProtocolStatus) b : SourceReadBroker O :=
  Build_SourceReadBroker ops (sb_policy b) (sb_limits b) (sb_failure b)
    (sb_committed_request_id b) (sb_next_sequence b) (sb_sequence_exhausted b)
    (sb_requests_charged b + 1)
    (sb_reply_payload_bytes_charged b + (READ_REPLY_PREFIX_BYTES + rq_length m))
    (sb_ticket_counter b + 1)
    (Some {| pe_ticket := sb_ticket_counter b + 1; pe_request_id := request_id (fv_header request);
             pe_sequence := sequence; pe_requested_length := rq_length m; pe_status := status |}).

Definition wiped (m : ReadRequest) (image : list byte) bufs : ReadBuffers :=
  {| rf_scratch := replicate (N.to_nat (rq_length m)) x00 ++
                   drop (N.to_nat (rq_length m)) (rf_scratch bufs);
     rf_reply := image ++ drop (length image) (rf_reply bufs) |}.

Lemma fmap_zero (l : list byte) : (λ _, x00) <$> l = replicate (length l) x00.
Proof. induction l as [|x l IH]; [done|]. rewrite fmap_cons, IH. done. Qed.

Lemma serve_request_run `{!SourceOpsLaws O} request m sequence b s s1 bufs :
  sb_wf b → served request b s bufs m sequence s1 →
  let '(ops, (data, status)) :=
    service (rq_offset m) (take (N.to_nat (rq_length m)) (rf_scratch bufs)) (sb_ops b) in
  let image := reply_image (reply_message sequence status data) in
  serve_request request m sequence (b, s1, bufs) =
    ((charged ops request m sequence status b, s1, wiped m image bufs),
     Ok (PO_ReplyReady
       {| pr_ticket := sb_ticket_counter b + 1; pr_status := status;
          pr_header := frame_header_new MT_ReadReply (session_id (fv_header request))
            (request_id (fv_header request)) (len image);
          pr_payload := image |})) ∧
  READ_REPLY_PREFIX_BYTES ≤ len image ≤ READ_REPLY_PREFIX_BYTES + rq_length m.
Proof.
  intros Hwf (_ & _ & Eseq & Hd & Hs & Hr & _ & _ & _ & _).
  destruct (decode_request_bounds _ _ _ _ Hwf Hd) as (Hseq & _ & Hlen & _).
  assert (Hfit : fits 32 sequence).
  { rewrite Eseq. destruct (bool_decide _); [apply Hwf|done]. }
  destruct (service _ _ (sb_ops b)) as [ops [data status]] eqn:Esv.
  destruct (service_spec _ _ _ _ _ _ Esv) as (Hdata & Hst & _).
  rewrite length_take in Hdata. set (message := reply_message sequence status data).
  assert (Himg : READ_REPLY_PREFIX_BYTES ≤ len (reply_image message) ≤
                 READ_REPLY_PREFIX_BYTES + rq_length m).
  { unfold reply_image. simpl. rewrite !len_app, !len_le_bytes. unfold READ_REPLY_PREFIX_BYTES.
    destruct (bool_decide (status = PS_Ok)); [|rewrite len_nil; lia].
    unfold len in *. lia. }
  split; [|exact Himg].
  assert (Hacc : read_reply_accepts (sequence, rq_length m) message).
  { unfold read_reply_accepts. simpl. split; [done|]. split; [lia|]. split; [lia|]. split; [done|].
    destruct (decide (status = PS_Ok)) as [Hok|Hok].
    - left. rewrite (bool_decide_true _ Hok). split; [done|]. unfold len in *. lia.
    - right. rewrite (bool_decide_false _ Hok). split; [|done]. destruct status; try done; auto. }
  pose proof (schema_encode (SchemaLaws:=read_reply_schema_laws) (sequence, rq_length m) message
    (rf_reply bufs) Hfit Hacc) as Henc.
  change (sc_image read_reply_schema message) with (reply_image message) in Henc.
  rewrite (proj2 (N.leb_le _ _)) in Henc by lia.
  unfold serve_request, unbuffered, on_broker, attempt, zoom. run_M. cbn [fst snd].
  replace (sb_ops (sb_put_charges _ _ b)) with (sb_ops b) by (by destruct b).
  rewrite Esv. cbn [fst snd].
  change (encode_read_reply_payload _ sequence (rq_length m) (rf_reply bufs))
    with (sc_encode read_reply_schema (sequence, rq_length m) message (rf_reply bufs)).
  rewrite Henc. cbn [fst snd put_reply put_scratch rf_reply rf_scratch].
  rewrite len_to_nat, take_app_length, fmap_zero.
  rewrite (proj2 (try_from_Some 32 (len (reply_image message)) (len (reply_image message)))).
  2:{ split; [|done]. unfold READ_REPLY_PREFIX_BYTES, MAXIMUM_READ_BYTES,
        MAXIMUM_FRAME_PAYLOAD_BYTES in *. lia. }
  replace (length data) with (N.to_nat (rq_length m)) by (unfold len in *; lia).
  by destruct b.
Qed.

(** ** The invariant *)

(** The call charged nothing. *)
Definition settled b b' : Prop :=
  sb_wf b' ∧ sb_limits b' = sb_limits b ∧ sb_requests_charged b' = sb_requests_charged b ∧
  sb_reply_payload_bytes_charged b' = sb_reply_payload_bytes_charged b.

Lemma settled_refl b : sb_wf b → settled b b.
Proof. intros Hb. split; [exact Hb|]. by split_and!. Qed.

Lemma settled_trans b1 b2 b3 : settled b1 b2 → settled b2 b3 → settled b1 b3.
Proof. intros (_ & E1 & E2 & E3) (? & E4 & E5 & E6). split; [done|]. by rewrite E4, E5, E6. Qed.

Lemma broken_settled e b : sb_wf b → settled b (broken e b).
Proof. intros [H1 H2 H3 H4 H5 H6 H7]. destruct b. split; [by split|done]. Qed.

Lemma taken_settled b : sb_wf b → settled b (sb_put_pending None b).
Proof. intros [H1 H2 H3 H4 H5 H6 H7]. destruct b. split; [by split|done]. Qed.

Lemma charged_wf ops request m sequence status b s s1 bufs :
  sb_wf b → served request b s bufs m sequence s1 →
  sb_wf (charged ops request m sequence status b).
Proof.
  intros [H1 H2 H3 H4 H5 H6 H7] (Hf & _ & Eseq & _ & _ & _ & Hr & Hb & _ & _).
  assert (1 ≤ sequence ∧ fits 32 sequence).
  { rewrite Eseq. by destruct (bool_decide _). }
  destruct b; simpl in *. split; simpl; try done; try lia. by intros p [= <-].
Qed.

Lemma take_pending_cases ticket b s :
  (∃ p, sb_failure b = None ∧ sb_pending b = Some p ∧ pe_ticket p = ticket ∧
     take_pending ticket (b, s) = ((sb_put_pending None b, s), Ok p)) ∨
  (∃ e, sb_failure b = Some e ∧ take_pending ticket (b, s) = ((b, s), Err e)) ∨
  (∃ e, sb_failure b = None ∧
     take_pending ticket (b, s) = ((broken e b, worker_retired s), Err e)).
Proof.
  unfold take_pending, on_broker, zoom. run_M. cbn [fst snd].
  destruct (sb_failure b) as [f|] eqn:Hf; [by right; left; exists f|].
  destruct (sb_pending b) as [p|] eqn:Hp.
  2:{ right; right. eexists. split; [done|]. by apply sb_fail_run. }
  destruct (N.eqb_spec ticket (pe_ticket p)) as [E|]; cbn [negb].
  - left. by exists p.
  - right; right. eexists. split; [done|]. rewrite sb_fail_run by (by destruct b). by destruct b.
Qed.

Lemma commit_settled reply b s : sb_wf b → settled b (fst (fst (commit_reply_sent reply (b, s)))).
Proof.
  intros Hwf. unfold commit_reply_sent. unfold mbind at 1, M_bind at 1.
  destruct (take_pending_cases (pr_ticket reply) b s) as [(p & Hf & Hp & _ & ->)|[(e & _ & ->)|(e & _ & ->)]];
    [|by apply settled_refl|by apply broken_settled].
  destruct (bw_pending _ Hwf p Hp) as [Hs1 Hs2]. pose proof (taken_settled b Hwf) as Htaken.
  eapply settled_trans; [exact Htaken|]. destruct Htaken as [Hwf' _].
  assert (Hf' : sb_failure (sb_put_pending None b) = None) by (by destruct b).
  unfold attempt, on_results, zoom. run_M. cbn [fst snd].
  destruct (rs_accept_read_reply _ _ _ s) as [s1 r]. cbn [fst snd].
  destruct (bool_decide (pe_status p = PS_Ok)).
  - destruct r as [u|e]; [|rewrite sb_fail_run by done; by apply broken_settled].
    destruct (N.eqb_spec (pe_sequence p) (2 ^ 32 - 1)) as [E|E]; unfold on_broker, zoom; run_M;
      cbn [fst snd]; destruct Hwf' as [H1 H2 H3 H4 H5 H6 H7]; destruct b; simpl in *;
      (split; [|done]); split; simpl; try done. unfold fits in *. lia.
  - rewrite sb_fail_run by done. by apply broken_settled.
Qed.

Lemma abandon_settled reply b s : sb_wf b → settled b (fst (fst (abandon_reply reply (b, s)))).
Proof.
  intros Hwf. unfold abandon_reply, attempt. unfold mbind at 1, M_bind at 1.
  destruct (take_pending_cases (pr_ticket reply) b s) as [(p & Hf & Hp & _ & ->)|[(e & _ & ->)|(e & _ & ->)]];
    [|by apply settled_refl|by apply broken_settled].
  rewrite sb_retain_run by (by destruct b). pose proof (taken_settled b Hwf) as Htaken.
  eapply settled_trans; [exact Htaken|]. by apply broken_settled, Htaken.
Qed.

(** ** Sequences of calls *)

(** The session may have moved on arbitrarily between two calls. *)
Inductive BrokerCall : Type :=
| BC_Prepare (request : FrameView) (bufs : ReadBuffers)
| BC_Commit (reply : PreparedReply)
| BC_Abandon (reply : PreparedReply)
| BC_Session (session : ResultSession).

(** The replies the call hands out. *)
Definition broker_call (call : BrokerCall) (t : SourceReadBroker O * ResultSession)
  : SourceReadBroker O * ResultSession * list PreparedReply :=
  match call with
  | BC_Prepare request bufs =>
      match prepare request (t, bufs) with
      | ((t, _), Ok (PO_ReplyReady reply)) => (t, [reply])
      | ((t, _), _) => (t, [])
      end
  | BC_Commit reply => (fst (commit_reply_sent reply t), [])
  | BC_Abandon reply => (fst (abandon_reply reply t), [])
  | BC_Session session => ((t.1, session), [])
  end.

Fixpoint broker_calls (calls : list BrokerCall) (t : SourceReadBroker O * ResultSession)
  : SourceReadBroker O * ResultSession * list PreparedReply :=
  match calls with
  | [] => (t, [])
  | call :: calls =>
      let '(t, replies) := broker_call call t in
      let '(t, more) := broker_calls calls t in (t, replies ++ more)
  end.

Definition reply_bytes (replies : list PreparedReply) : N :=
  EntryBatch.total (λ reply, len (pr_payload reply)) replies.

(** What a call charges covers what it hands out. *)
Lemma broker_call_charges `{!SourceOpsLaws O} call b s b' s' replies :
  sb_wf b → broker_call call (b, s) = ((b', s'), replies) →
  sb_wf b' ∧ sb_limits b' = sb_limits b ∧
  len replies + sb_requests_charged b ≤ sb_requests_charged b' ∧
  reply_bytes replies + sb_reply_payload_bytes_charged b ≤ sb_reply_payload_bytes_charged b' ∧
  Forall (λ reply, len (pr_payload reply) ≤ reply_storage_bytes (sb_limits b)) replies.
Proof.
  intros Hwf E. assert (Hset : settled b b' ∧ replies = [] →
    sb_wf b' ∧ sb_limits b' = sb_limits b ∧
    len replies + sb_requests_charged b ≤ sb_requests_charged b' ∧
    reply_bytes replies + sb_reply_payload_bytes_charged b ≤ sb_reply_payload_bytes_charged b' ∧
    Forall (λ reply, len (pr_payload reply) ≤ reply_storage_bytes (sb_limits b)) replies).
  { intros [(H1 & H2 & H3 & H4) ->]. rewrite len_nil. unfold reply_bytes, EntryBatch.total. simpl.
    split; [done|]. split; [done|]. split; [lia|]. split; [lia|constructor]. }
  destruct call as [request bufs|reply|reply|session]; cbn [broker_call] in E.
  - destruct (prepare_cases request b s bufs) as [m sequence s1 Hsv|sequence s1 _ _|e _|e s1 _].
    + pose proof (serve_request_run request m sequence b s s1 bufs Hwf Hsv) as Hrun.
      pose proof (charged_wf) as Hcw.
      destruct (service _ _ (sb_ops b)) as [ops [data status]]. destruct Hrun as [Hrun Himg].
      rewrite Hrun in E. injection E as <- <- <-.
      specialize (Hcw ops request m sequence status b s s1 bufs Hwf Hsv). clear Hset.
      destruct Hsv as (_ & _ & _ & Hd & _ & _ & _).
      destruct (decode_request_bounds _ _ _ _ Hwf Hd) as (_ & _ & [Hle _] & _).
      split; [done|]. split; [done|]. unfold reply_bytes, EntryBatch.total. simpl.
      rewrite len_cons, len_nil. split; [lia|]. split; [lia|]. constructor; [|constructor].
      cbn [pr_payload]. unfold reply_storage_bytes. lia.
    + injection E as <- <- <-. by apply Hset, conj; [apply settled_refl|].
    + injection E as <- <- <-. by apply Hset, conj; [apply settled_refl|].
    + injection E as <- <- <-. by apply Hset, conj; [apply broken_settled|].
  - injection E as E <-. apply Hset, conj; [|done].
    pose proof (commit_settled reply b s Hwf) as Hc. by rewrite E in Hc.
  - injection E as E <-. apply Hset, conj; [|done].
    pose proof (abandon_settled reply b s Hwf) as Hc. by rewrite E in Hc.
  - injection E as <- <- <-. by apply Hset, conj; [apply settled_refl|].
Qed.

Lemma broker_calls_charges `{!SourceOpsLaws O} calls b s b' s' replies :
  sb_wf b → broker_calls calls (b, s) = ((b', s'), replies) →
  sb_wf b' ∧ sb_limits b' = sb_limits b ∧
  len replies + sb_requests_charged b ≤ sb_requests_charged b' ∧
  reply_bytes replies + sb_reply_payload_bytes_charged b ≤ sb_reply_payload_bytes_charged b' ∧
  Forall (λ reply, len (pr_payload reply) ≤ reply_storage_bytes (sb_limits b)) replies.
Proof.
  revert b s replies; induction calls as [|call calls IH]; intros b s replies Hwf E; cbn [broker_calls] in E.
  { injection E as <- _ <-. rewrite len_nil. unfold reply_bytes, EntryBatch.total. simpl.
    split; [done|]. split; [done|]. split; [lia|]. split; [lia|constructor]. }
  destruct (broker_call call (b, s)) as [[b1 s1] r1] eqn:E1.
  destruct (broker_calls calls (b1, s1)) as [[b2 s2] r2] eqn:E2. injection E as <- <- <-.
  destruct (broker_call_charges _ _ _ _ _ _ Hwf E1) as (Hwf1 & Hl1 & Hn1 & Hb1 & Hr1).
  destruct (IH _ _ _ Hwf1 E2) as (Hwf2 & Hl2 & Hn2 & Hb2 & Hr2). rewrite Hl1 in Hl2, Hr2.
  split; [done|]. split; [done|]. rewrite len_app.
  assert (Hsum : reply_bytes (r1 ++ r2) = reply_bytes r1 + reply_bytes r2).
  { unfold reply_bytes, EntryBatch.total. clear. induction r1 as [|x r1 IH]; simpl; lia. }
  rewrite Hsum. split; [lia|]. split; [lia|]. by apply Forall_app.
Qed.

Lemma with_ops_wf media_source_size size limits ops s s' b :
  fits 64 size → (∃ read requests bytes, source_read_limits_new read requests bytes = Ok limits) →
  broker_with_ops media_source_size size limits ops s = (s', Ok b) →
  sb_wf b ∧ s' = s ∧ sb_limits b = limits ∧ source_size (sb_policy b) = size ∧
  sb_ops b = ops ∧ sb_requests_charged b = 0 ∧ sb_reply_payload_bytes_charged b = 0.
Proof.
  intros Hsize Hlim E. unfold broker_with_ops in E. unfold mbind, M_bind, get in E.
  destruct (source_read_policy_new size (sl_read_bytes limits)) as [policy|e] eqn:Ep.
  2:{ by destruct (attempt rs_worker_failed s) as [s1 [r|e']]. }
  destruct (_ && _); [|by destruct (attempt rs_worker_failed s) as [s1 [r|e']]].
  injection E as <- <-. simpl. pose proof Ep as [_ Epol]%source_read_policy_new_Ok.
  assert (Hsz : source_size policy = size) by (by rewrite Epol).
  split_and!; try done. split; simpl; try done; try lia.
  rewrite Hsz. by split.
Qed.

(** ** Properties *)

(** C19: A reply the broker hands out answers its request and attests the source.
    The requested range lies inside the source and within the ceiling, the
    session accepted the request, and the reply's payload is the canonical
    encoding of the request's sequence number, the status and the data under
    the request's own session and request ids. An [Ok] status means that the
    source was verified unchanged, then delivered exactly the requested bytes,
    which are the data, and was then verified unchanged again; any other status
    carries no data. The caller's scratch is wiped either way. *)
Theorem prepared_reply_verified `{!SourceOpsLaws O} request b s bufs t reply :
  sb_wf b → prepare request (b, s, bufs) = (t, Ok (PO_ReplyReady reply)) →
  ∃ m sequence data s1,
    rs_accept_read_request request (sb_policy b) sequence s = (s1, Ok (Serviceable m)) ∧
    rq_read_sequence m = sequence ∧ 1 ≤ rq_length m ≤ sl_read_bytes (sb_limits b) ∧
    rq_offset m + rq_length m ≤ source_size (sb_policy b) ∧
    pr_payload reply = reply_image (reply_message sequence (pr_status reply) data) ∧
    pr_header reply = frame_header_new MT_ReadReply (session_id (fv_header request))
                        (request_id (fv_header request)) (len (pr_payload reply)) ∧
    (pr_status reply = PS_Ok → len data = rq_length m ∧
       ∃ o1 o2 before, so_verify_unchanged (sb_ops b) = (o1, Ok tt) ∧
         so_read_exact_at (rq_offset m) before o1 = (o2, (data, Ok tt)) ∧
         so_verify_unchanged o2 = (sb_ops t.1.1, Ok tt)) ∧
    take (N.to_nat (rq_length m)) (rf_scratch t.2) = replicate (N.to_nat (rq_length m)) x00.
Proof.
  intros Hwf E. pose proof (prepare_cases request b s bufs) as Hcase. rewrite E in Hcase.
  inversion Hcase as [m sequence s1 Hsv Eserve| | |]. clear Hcase.
  pose proof (serve_request_run request m sequence b s s1 bufs Hwf Hsv) as Hrun.
  destruct Hsv as (_ & _ & _ & Hd & Hs & _ & _ & _ & _ & Hacc).
  destruct (decode_request_bounds _ _ _ _ Hwf Hd) as (_ & Hseq & [Hlen _] & Hend).
  destruct (service _ _ (sb_ops b)) as [ops [data status]] eqn:Esv. destruct Hrun as [Hrun _].
  rewrite Hrun in Eserve. injection Eserve as <- <-. cbn [pr_payload pr_status pr_header fst snd].
  destruct (service_spec _ _ _ _ _ _ Esv) as (Hdata & _ & Hok).
  exists m, sequence, data, s1. split_and!; try done; try lia.
  - intros Est. split; [rewrite length_take in Hdata; unfold len in *; lia|].
    destruct (Hok Est) as (o1 & o2 & H1 & H2 & H3). by exists o1, o2, (take (N.to_nat (rq_length m)) (rf_scratch bufs)).
  - simpl. by rewrite take_app_length' by by rewrite length_replicate.
Qed.

(** C23: Whatever the broker is asked to do, and whatever happens to the session
    between two calls, it stays within its quotas: at most as many replies as
    requests allowed, each no longer than the reply storage, and together no
    longer than the byte quota. *)
Theorem broker_quotas `{!SourceOpsLaws O} media_source_size size limits ops s0 s0' b0 calls b s replies :
  fits 64 size → (∃ read requests bytes, source_read_limits_new read requests bytes = Ok limits) →
  broker_with_ops media_source_size size limits ops s0 = (s0', Ok b0) →
  broker_calls calls (b0, s0') = ((b, s), replies) →
  len replies ≤ sb_requests_charged b ∧ sb_requests_charged b ≤ sl_requests limits ∧
  reply_bytes replies ≤ sb_reply_payload_bytes_charged b ∧
  sb_reply_payload_bytes_charged b ≤ sl_reply_payload_bytes limits ∧
  Forall (λ reply, len (pr_payload reply) ≤ reply_storage_bytes limits) replies.
Proof.
  intros Hsize Hlim Hnew Hcalls.
  destruct (with_ops_wf _ _ _ _ _ _ _ Hsize Hlim Hnew) as (Hwf & _ & <- & _ & _ & Hr & Hb).
  destruct (broker_calls_charges _ _ _ _ _ _ Hwf Hcalls) as (Hwf' & Hl & Hn & Hbytes & Hall).
  rewrite Hr in Hn. rewrite Hb in Hbytes. rewrite <-Hl at 1 2.
  split; [lia|]. split; [apply Hwf'|]. split; [lia|]. split; [apply Hwf'|exact Hall].
Qed.
End broker.

(** ** Witnesses *)

(** A source held in memory, which never changes. *)
#[export] Instance memory_source : SourceOps (list byte) := {
  so_verify_unchanged o := (o, Ok tt);
  so_read_exact_at offset destination o :=
    match get_range offset (offset + len destination) o with
    | Some bytes => (o, (bytes, Ok tt))
    | None => (o, (destination, Err MS_OutOfRange))
    end;
  so_window_length o := len o
}.

#[export] Instance memory_source_laws : SourceOpsLaws (list byte).
Proof.
  split. intros offset destination o. simpl. unfold get_range, subslice.
  destruct (_ && _) eqn:E; [|done]. simpl. apply andb_true_iff in E as [_ E%N.leb_le].
  rewrite length_take, length_drop. unfold len in *. lia.
Qed.

Definition sample_limits : SourceReadLimits :=
  {| sl_read_bytes := 4; sl_requests := 2; sl_reply_payload_bytes := 20 |}.

Definition sample_broker : SourceReadBroker (list byte) :=
  {| sb_ops := [x61; x62; x63; x64; x65];
     sb_policy := {| source_size := 5; maximum_read_bytes := 4 |};
     sb_limits := sample_limits; sb_failure := None; sb_committed_request_id := None;
     sb_next_sequence := 1; sb_sequence_exhausted := false; sb_requests_charged := 0;
     sb_reply_payload_bytes_charged := 0; sb_ticket_counter := 0; sb_pending := None |}.

Lemma sample_broker_made :
  broker_with_ops 5 5 sample_limits [x61; x62; x63; x64; x65] idle_session =
    (idle_session, Ok sample_broker).
Proof. vm_compute. reflexivity. Qed.

Lemma sample_limits_ok : ∃ read requests bytes,
  source_read_limits_new read requests bytes = Ok sample_limits.
Proof. exists 4, 2, 20. vm_compute. reflexivity. Qed.

Lemma sample_broker_wf : sb_wf sample_broker.
Proof.
  apply (with_ops_wf 5 5 sample_limits [x61; x62; x63; x64; x65] idle_session idle_session).
  - reflexivity.
  - exact sample_limits_ok.
  - exact sample_broker_made.
Qed.

Definition enumerating_session : ResultSession :=
  fst (rs_begin_enumeration (parent_frame MT_Enumerate 1 []) idle_session).

Definition sample_request : FrameView :=
  parent_frame MT_ReadRequest 1 (le_bytes 4 1 ++ le_bytes 8 1 ++ le_bytes 4 3).

Definition sample_buffers : ReadBuffers :=
  {| rf_scratch := replicate 4 x00; rf_reply := replicate 10 x00 |}.

Definition sample_prepared_reply : PreparedReply :=
  {| pr_ticket := 1; pr_status := PS_Ok;
     pr_header := frame_header_new MT_ReadReply 7 1 9;
     pr_payload := [x01; x00; x00; x00; x00; x00; x62; x63; x64] |}.

Definition sample_served :=
  fst (prepare sample_request (sample_broker, enumerating_session, sample_buffers)).

Lemma sample_prepared :
  prepare sample_request (sample_broker, enumerating_session, sample_buffers) =
    (sample_served, Ok (PO_ReplyReady sample_prepared_reply)).
Proof. vm_compute. reflexivity. Qed.

Lemma prepared_reply_verified_witness :
  ∃ m data s1, rs_accept_read_request sample_request (sb_policy sample_broker) (rq_read_sequence m)
      enumerating_session = (s1, Ok (Serviceable m)) ∧
    pr_payload sample_prepared_reply = reply_image (reply_message (rq_read_sequence m) PS_Ok data) ∧
    len data = rq_length m.
Proof.
  destruct (prepared_reply_verified sample_request sample_broker enumerating_session sample_buffers
    sample_served sample_prepared_reply sample_broker_wf sample_prepared)
    as (m & sequence & data & s1 & Ha & Hs & _ & _ & Hp & _ & Hok & _).
  exists m, data, s1. rewrite Hs. split; [exact Ha|]. split; [exact Hp|].
  destruct (Hok eq_refl) as [Hl _]. exact Hl.
Defined.

(** Two requests; the third call finds the byte quota spent. *)
Definition sample_calls : list BrokerCall :=
  [ BC_Session enumerating_session; BC_Prepare sample_request sample_buffers;
    BC_Commit sample_prepared_reply;
    BC_Prepare (parent_frame MT_ReadRequest 1 (le_bytes 4 2 ++ le_bytes 8 0 ++ le_bytes 4 4))
      sample_buffers ].

Lemma broker_quotas_witness :
  ∃ b s replies, broker_calls sample_calls (sample_broker, idle_session) = ((b, s), replies) ∧
    len replies ≤ 2 ∧ reply_bytes replies ≤ 20.
Proof.
  destruct (broker_calls sample_calls (sample_broker, idle_session)) as [[b s] replies] eqn:E.
  exists b, s, replies. split; [reflexivity|].
  destruct (broker_quotas 5 5 sample_limits [x61; x62; x63; x64; x65] idle_session idle_session
    sample_broker sample_calls b s replies eq_refl sample_limits_ok sample_broker_made E)
    as (H1 & H2 & H3 & H4 & _).
  simpl in H2, H4. split; [transitivity (sb_requests_charged b); assumption|].
  transitivity (sb_reply_payload_bytes_charged b); assumption.
Defined.
