(* ===== verification/FrameChannel.v ===== *)
(** * The parent's frame channel

    [crates/ohl-import/src/io.rs] and [frame_channel.rs]: the exact byte channel
    to one worker, and the framing of one OWP/1 session over it. A channel is
    poisoned by its first failure, which it retains, and then aborts its
    transport, once.

    The deadline and the cancellation token of every transfer are handed to the
    transport untouched; what they lead to is an answer of the transport, which
    is a parameter. *)

From stdpp Require Import sets.
From S2P Require Export Frame Session.

#[local] Open Scope N_scope.

(** ** The transport *)

Inductive IoError : Type :=
| IE_IoFailure | IE_TimedOut | IE_Cancelled | IE_PeerClosed | IE_Aborted.

#[export] Instance IoError_eq_dec : EqDecision IoError.
Proof. solve_decision. Defined.

(** [trait ExactIo], over the state behind the shared capability.
    [io_read_exact] takes the destination slice and yields what is in it
    afterwards, whatever it reports. *)
Class ExactIo (T : Type) : Type := {
  io_read_exact : list byte → T → T * (list byte * result IoError N);
  io_write_all : list byte → T → T * result IoError N;
  io_abort : T → T
}.

(** A slice keeps its length. *)
Class ExactIoLaws (T : Type) `{ExactIo T} : Prop := {
  io_read_length destination t :
    length (fst (snd (io_read_exact destination t))) = length destination
}.

(** ** Errors *)

Inductive ChannelError : Type :=
| CE_ConcurrentOperation
| CE_BufferInvalidated
| CE_Protocol (error : ProtocolError)
| CE_Transport (error : IoError)
| CE_Aborted.

#[export] Instance ChannelError_eq_dec : EqDecision ChannelError.
Proof. solve_decision. Defined.

Definition channel_protocol_error (self : ChannelError) : option ProtocolError :=
  match self with CE_Protocol error => Some error | _ => None end.

Definition channel_error_is_terminal (self : ChannelError) : bool :=
  match self with CE_Protocol _ | CE_Transport _ | CE_Aborted => true | _ => false end.

(** ** [FrameBuffer] *)

Record FrameBuffer : Type := {
  fb_bytes : list byte;
  fb_usable : bool
}.

Definition frame_buffer_new : FrameBuffer :=
  {| fb_bytes := replicate (N.to_nat MAXIMUM_FRAME_PAYLOAD_BYTES) x00; fb_usable := true |}.

Definition frame_buffer_reinit (self : FrameBuffer) : FrameBuffer :=
  {| fb_bytes := (λ _, x00) <$> fb_bytes self; fb_usable := true |}.

(** ** [ChannelState] and [FrameChannel] *)

Inductive ChannelDirection : Type := Dir_Send | Dir_Receive.

Record ChannelState : Type := {
  cs_failure : option ChannelError;
  cs_send_active : bool;
  cs_receive_active : bool
}.

Definition cs_put_failure (x : option ChannelError) (s : ChannelState) : ChannelState :=
  let (_, b, c) := s in Build_ChannelState x b c.

(** [clear], and its converse in [begin]. *)
Definition cs_put_active (direction : ChannelDirection) (x : bool) (s : ChannelState)
  : ChannelState :=
  let (a, b, c) := s in
  match direction with
  | Dir_Send => Build_ChannelState a x c
  | Dir_Receive => Build_ChannelState a b x
  end.

Definition cs_active (direction : ChannelDirection) (s : ChannelState) : bool :=
  match direction with Dir_Send => cs_send_active s | Dir_Receive => cs_receive_active s end.

Record FrameChannel (T : Type) : Type := {
  fc_session_id : SessionId;
  fc_io : T;
  fc_state : ChannelState
}.
Arguments fc_session_id {T}.
Arguments fc_io {T}.
Arguments fc_state {T}.
Arguments Build_FrameChannel {T}.

Definition fc_put_io {T} (x : T) (s : FrameChannel T) : FrameChannel T :=
  let (a, _, c) := s in Build_FrameChannel a x c.
Definition fc_put_state {T} (x : ChannelState) (s : FrameChannel T) : FrameChannel T :=
  let (a, b, _) := s in Build_FrameChannel a b x.

Section channel.
Context `{HeaderImage} `{ExactIo T}.
Abbreviation CM A := (M (FrameChannel T) ChannelError A).

Definition frame_channel_new (session_id : SessionId) (io : T) : FrameChannel T :=
  {| fc_session_id := session_id; fc_io := io;
     fc_state := {| cs_failure := None; cs_send_active := false; cs_receive_active := false |} |}.

Definition channel_failure (self : FrameChannel T) : option ChannelError :=
  cs_failure (fc_state self).
Definition channel_is_terminal (self : FrameChannel T) : bool :=
  bool_decide (channel_failure self ≠ None).

(** *** The sections that hold the lock *)

(** [poison]: the lock is released before the transport is aborted. *)
Definition poison (failure : ChannelError) (self : FrameChannel T) : FrameChannel T * ChannelError :=
  match channel_failure self with
  | Some existing => (self, existing)
  | None =>
      let self := fc_put_state (cs_put_failure (Some failure) (fc_state self)) self in
      (fc_put_io (io_abort (fc_io self)) self, failure)
  end.

Definition channel_begin (direction : ChannelDirection) : CM unit :=
  self ← get;
  match channel_failure self with
  | Some failure => throw failure
  | None =>
      if cs_active direction (fc_state self) then throw CE_ConcurrentOperation
      else modify (λ self, fc_put_state (cs_put_active direction true (fc_state self)) self)
  end.

Definition channel_clear (direction : ChannelDirection) (self : FrameChannel T) : FrameChannel T :=
  fc_put_state (cs_put_active direction false (fc_state self)) self.

Definition end_success (direction : ChannelDirection) : CM unit :=
  modify (channel_clear direction);;
  self ← get;
  match channel_failure self with None => mret tt | Some failure => throw failure end.

Definition end_failure (direction : ChannelDirection) (error : ChannelError)
  : CM ChannelError :=
  modify (channel_clear direction);;
  self ← get;
  mret (default error (channel_failure self)).

(** *** [abort] and the transfers *)

Definition channel_abort (self : FrameChannel T) : FrameChannel T := fst (poison CE_Aborted self).

(** [.map_err(|error| self.poison(into(error)))?]. *)
Definition or_poison {A F} (into : F → ChannelError) (r : result F A) : CM A :=
  match r with
  | Ok a => mret a
  | Err error => λ self, let '(self, retained) := poison (into error) self in (self, Err retained)
  end.

Definition transferred (reported : result IoError N) (expected : N) : result IoError unit :=
  match reported with
  | Ok count => if count =? expected then Ok tt else Err IE_IoFailure
  | Err error => Err error
  end.

Definition channel_write (bytes : list byte) : CM unit :=
  reported ← attempt (zoom fc_io fc_put_io (io_write_all bytes));
  or_poison CE_Transport (transferred reported (len bytes)).

(** The bytes the transfer left in the destination, next to its verdict. *)
Definition channel_read (destination : list byte) (self : FrameChannel T)
  : FrameChannel T * (list byte * result ChannelError unit) :=
  let '(io, (bytes, reported)) := io_read_exact destination (fc_io self) in
  let '(self, r) := or_poison CE_Transport (transferred reported (len destination))
                      (fc_put_io io self) in
  (self, (bytes, r)).

(** *** [send] *)

Definition validate_outgoing (session_id' : SessionId) (header : FrameHeader) (payload : list byte)
  : result ProtocolError unit :=
  header_validate header;;
  guard_err (negb (session_id header =? session_id')) WrongSessionId;;
  guard_err (MAXIMUM_FRAME_PAYLOAD_BYTES <? len payload) PayloadTooLarge;;
  guard_err (negb (payload_length header =? len payload)) NoncanonicalValue.

Definition send_inner (header : FrameHeader) (payload : list byte) : CM unit :=
  self ← get;
  encoded ← or_poison CE_Protocol
    (validate_outgoing (fc_session_id self) header payload;;
     let '(encoded, r) := header_encode header (replicate (N.to_nat FRAME_HEADER_BYTES) x00) in
     r;; Ok encoded);
  channel_write encoded;;
  if negb (len payload =? 0) then channel_write payload else mret tt.

Definition send (header : FrameHeader) (payload : list byte) : CM unit :=
  channel_begin Dir_Send;;
  r ← attempt (send_inner header payload);
  match r with
  | Ok _ => end_success Dir_Send
  | Err error => error ← end_failure Dir_Send error; throw error
  end.

(** *** [receive] *)

Definition on_channel {A} (m : CM A) : M (FrameChannel T * FrameBuffer) ChannelError A :=
  zoom fst (λ c s, (c, s.2)) m.

Definition read_header : CM FrameHeader := λ self,
  let '(self, (header_bytes, r)) :=
    channel_read (replicate (N.to_nat FRAME_HEADER_BYTES) x00) self in
  match r with
  | Err error => (self, Err error)
  | Ok _ =>
      or_poison CE_Protocol
        (header ← decode_frame_header header_bytes;
         if session_id header =? fc_session_id self then Ok header else Err WrongSessionId) self
  end.

(** [&mut buffer.bytes[..length]], which the header's bound keeps inside the
    storage; the buffer is unusable from before the transfer until its success. *)
Definition read_payload (length : N) : M (FrameChannel T * FrameBuffer) ChannelError unit :=
  λ '(self, buffer),
    let '(self, (bytes, r)) := channel_read (take (N.to_nat length) (fb_bytes buffer)) self in
    ((self, {| fb_bytes := bytes ++ drop (N.to_nat length) (fb_bytes buffer);
               fb_usable := match r with Ok _ => true | Err _ => false end |}), r).

Definition receive_inner : M (FrameChannel T * FrameBuffer) ChannelError FrameHeader :=
  header ← on_channel read_header;
  let length := payload_length header in
  (if negb (length =? 0) then read_payload length else mret tt);;
  mret header.

Definition receive : M (FrameChannel T * FrameBuffer) ChannelError FrameView :=
  on_channel (channel_begin Dir_Receive);;
  s ← get;
  if negb (fb_usable s.2) then
    on_channel (end_success Dir_Receive);; throw CE_BufferInvalidated
  else
    r ← attempt receive_inner;
    match r with
    | Ok header =>
        let length := payload_length header in
        on_channel (end_success Dir_Receive);;
        s ← get;
        mret (frame_view_new header (take (N.to_nat length) (fb_bytes s.2)))
    | Err error => error ← on_channel (end_failure Dir_Receive error); throw error
    end.
End channel.

(** ** The sections of an operation

    Two threads may use a channel at once, one per direction. What they do to it
    is an interleaving of the sections that hold the lock and of transfers. *)

(** A transport that counts its aborts. *)
#[export] Instance counting_io `{ExactIo T} : ExactIo (T * N) := {
  io_read_exact destination s :=
    let '(t, r) := io_read_exact destination s.1 in ((t, s.2), r);
  io_write_all bytes s := let '(t, r) := io_write_all bytes s.1 in ((t, s.2), r);
  io_abort s := (io_abort s.1, s.2 + 1)
}.

#[export] Instance counting_io_laws `{ExactIoLaws T} : ExactIoLaws (T * N).
Proof.
  split. intros destination [t n]. simpl. rewrite <-(io_read_length destination t).
  by destruct (io_read_exact destination t).
Qed.

Section sections.
Context `{HeaderImage} `{ExactIo T}.
Implicit Types c : FrameChannel (T * N).

Inductive LockSection : Type :=
| LS_Begin (direction : ChannelDirection)
| LS_Transfer (t : T)
| LS_Poison (failure : ChannelError)
| LS_End (direction : ChannelDirection).

Definition run_section (x : LockSection) c : FrameChannel (T * N) :=
  match x with
  | LS_Begin direction => fst (channel_begin direction c)
  | LS_Transfer t => fc_put_io (t, (fc_io c).2) c
  | LS_Poison failure => fst (poison failure c)
  | LS_End direction => channel_clear direction c
  end.

Definition run_sections (l : list LockSection) c : FrameChannel (T * N) :=
  fold_left (λ c x, run_section x c) l c.

Definition sectioned c c' : Prop := ∃ l, c' = run_sections l c.

#[local] Instance sectioned_preorder : PreOrder sectioned.
Proof.
  split; [by exists []|]. intros c1 c2 c3 [l1 ->] [l2 ->]. exists (l1 ++ l2).
  unfold run_sections. by rewrite fold_left_app.
Qed.

Definition sectioned_fst {B} (s s' : FrameChannel (T * N) * B) : Prop := sectioned s.1 s'.1.

#[local] Instance sectioned_fst_preorder {B} : PreOrder (sectioned_fst (B:=B)).
Proof. split; [by intros s; unfold sectioned_fst|]. intros s1 s2 s3. unfold sectioned_fst. apply transitivity. Qed.

Lemma section_once x c : sectioned c (run_section x c).
Proof. by exists [x]. Qed.

Lemma keeps_attempt {S E F A} (R : S → S → Prop) (m : M S E A) :
  keeps R m → keeps R (attempt (F:=F) m).
Proof. intros Hm s. specialize (Hm s). unfold attempt. by destruct (m s). Qed.

Lemma or_poison_sectioned {A F} into (r : result F A) : keeps sectioned (or_poison into r).
Proof.
  destruct r as [a|e]; intros c; simpl; [done|].
  pose proof (section_once (LS_Poison (into e)) c) as Hs. simpl in Hs.
  by destruct (poison (into e) c).
Qed.

Lemma channel_write_sectioned bytes : keeps sectioned (channel_write bytes).
Proof.
  unfold channel_write. keeps_step; [|apply or_poison_sectioned]. apply keeps_attempt.
  intros c. unfold zoom. simpl. destruct (io_write_all bytes (fc_io c).1) as [t r].
  apply (section_once (LS_Transfer t)).
Qed.

Lemma begin_sectioned direction : keeps sectioned (channel_begin direction).
Proof. intros c. apply (section_once (LS_Begin direction)). Qed.

Lemma end_sectioned direction : keeps sectioned (end_success direction).
Proof.
  unfold end_success. repeat keeps_step. apply (section_once (LS_End direction)).
Qed.

Lemma end_failure_sectioned direction e : keeps sectioned (end_failure direction e).
Proof. unfold end_failure. repeat keeps_step. apply (section_once (LS_End direction)). Qed.

Lemma channel_read_sectioned destination c :
  sectioned c (fst (channel_read destination c)).
Proof.
  unfold channel_read. simpl. destruct (io_read_exact destination (fc_io c).1) as [t [bytes r]].
  pose proof (or_poison_sectioned CE_Transport (transferred r (len destination))
    (fc_put_io (t, (fc_io c).2) c)) as Ho.
  destruct (or_poison _ _ _) as [c' r']. simpl in *. etrans; [|exact Ho].
  apply (section_once (LS_Transfer t)).
Qed.

Lemma send_sectioned header payload : keeps sectioned (send header payload).
Proof.
  unfold send, send_inner.
  repeat first [apply begin_sectioned | apply end_sectioned | apply end_failure_sectioned
    | apply channel_write_sectioned | apply or_poison_sectioned | apply keeps_attempt | keeps_step].
Qed.

Lemma on_channel_sectioned {A} (m : M (FrameChannel (T * N)) ChannelError A) :
  keeps sectioned m → keeps sectioned_fst (on_channel m).
Proof. intros Hm. unfold on_channel. by eapply keeps_zoom. Qed.

Lemma read_header_sectioned : keeps sectioned read_header.
Proof.
  intros c. unfold read_header.
  pose proof (channel_read_sectioned (replicate (N.to_nat FRAME_HEADER_BYTES) x00) c) as Hr.
  destruct (channel_read _ c) as [c' [bytes [u|e]]]; [|done].
  etrans; [exact Hr|apply or_poison_sectioned].
Qed.

Lemma read_payload_sectioned length : keeps sectioned_fst (read_payload length).
Proof.
  intros [c buffer]. unfold read_payload.
  pose proof (channel_read_sectioned (take (N.to_nat length) (fb_bytes buffer)) c) as Hr.
  by destruct (channel_read _ c) as [c' [bytes r]].
Qed.

Lemma receive_sectioned : keeps sectioned_fst receive.
Proof.
  unfold receive, receive_inner.
  repeat first [apply on_channel_sectioned | apply begin_sectioned | apply end_sectioned
    | apply end_failure_sectioned | apply read_header_sectioned | apply read_payload_sectioned
    | apply keeps_attempt | keeps_step].
Qed.

(** *** The failure a run of sections retains *)

Definition poisons (l : list LockSection) : list ChannelError :=
  omap (λ x, match x with LS_Poison e => Some e | _ => None end) l.

Lemma run_section_failure x c :
  channel_failure (run_section x c) =
    match channel_failure c with
    | Some e => Some e
    | None => head (poisons [x])
    end ∧
  (fc_io (run_section x c)).2 =
    (fc_io c).2 + match channel_failure c, poisons [x] with None, _ :: _ => 1 | _, _ => 0 end.
Proof.
  destruct c as [id [t n] [f a b]]. unfold channel_failure.
  destruct x as [d|t'|e|d]; simpl; unfold channel_begin, poison, channel_clear, channel_failure, get;
    destruct f as [f|]; simpl;
    try (destruct d; simpl); try (destruct a; simpl); try (destruct b; simpl);
    (split; [done|lia]).
Qed.

Lemma run_sections_failure l c :
  channel_failure (run_sections l c) =
    match channel_failure c with Some e => Some e | None => head (poisons l) end ∧
  (fc_io (run_sections l c)).2 =
    (fc_io c).2 + match channel_failure c, poisons l with None, _ :: _ => 1 | _, _ => 0 end.
Proof.
  revert c; induction l as [|x l IH]; intros c.
  - simpl. destruct (channel_failure c); split; try done; lia.
  - change (run_sections (x :: l) c) with (run_sections l (run_section x c)).
    destruct (IH (run_section x c)) as [-> ->]. destruct (run_section_failure x c) as [-> ->].
    destruct (channel_failure c); [split; [done|lia]|].
    replace (poisons (x :: l)) with (poisons [x] ++ poisons l) by (by destruct x).
    destruct x; simpl; (split; [done|lia]).
Qed.

(** C22: A channel keeps its first failure and aborts its transport exactly once
    for it. Both hold for every interleaving of the lock-holding sections and
    transfers of any number of threads: the retained failure is the one of the
    first poisoning section, if any, and the transport has been aborted once if
    there is one and not at all otherwise. Sending, receiving and aborting do
    nothing to a channel but run such sections. *)
Theorem channel_first_failure session_id io l header payload buffer c :
  let c' := run_sections l (frame_channel_new session_id (io, 0)) in
  channel_failure c' = head (poisons l) ∧
  (fc_io c').2 = (if channel_is_terminal c' then 1 else 0) ∧
  (∃ l', fst (send header payload c) = run_sections l' c) ∧
  (∃ l', fst (fst (receive (c, buffer))) = run_sections l' c) ∧
  (∃ l', channel_abort c = run_sections l' c).
Proof.
  intros c'. destruct (run_sections_failure l (frame_channel_new session_id (io, 0))) as [Hf Hn].
  change (channel_failure c' = head (poisons l)) in Hf. split; [done|]. split.
  { unfold channel_is_terminal. rewrite Hf. unfold c'. rewrite Hn. simpl.
    destruct (poisons l); by rewrite ?bool_decide_true, ?bool_decide_false by auto. }
  split; [apply send_sectioned|]. split; [apply (receive_sectioned (c, buffer))|].
  by exists [LS_Poison CE_Aborted].
Qed.
End sections.

(** ** One operation on a channel at rest *)

Definition at_rest : ChannelState :=
  {| cs_failure := None; cs_send_active := false; cs_receive_active := false |}.

Definition failed_with (e : ChannelError) : ChannelState :=
  {| cs_failure := Some e; cs_send_active := false; cs_receive_active := false |}.

Definition buffer_wf (buffer : FrameBuffer) : Prop :=
  len (fb_bytes buffer) = MAXIMUM_FRAME_PAYLOAD_BYTES.

Definition empty_header : list byte := replicate (N.to_nat FRAME_HEADER_BYTES) x00.

Section operations.
Context `{HeaderImageLaws} `{ExactIoLaws T}.
Implicit Types (c : FrameChannel T) (buffer : FrameBuffer).

Definition receiving : ChannelState :=
  {| cs_failure := None; cs_send_active := false; cs_receive_active := true |}.
Definition receive_failed (e : ChannelError) : ChannelState :=
  {| cs_failure := Some e; cs_send_active := false; cs_receive_active := true |}.

Lemma channel_read_run id t destination :
  let '(t', (bytes, reported)) := io_read_exact destination t in
  channel_read destination (Build_FrameChannel id t receiving) =
    match transferred reported (len destination) with
    | Ok _ => (Build_FrameChannel id t' receiving, (bytes, Ok tt))
    | Err e => (Build_FrameChannel id (io_abort t') (receive_failed (CE_Transport e)),
                (bytes, Err (CE_Transport e)))
    end.
Proof.
  unfold channel_read. simpl. destruct (io_read_exact destination t) as [t' [bytes reported]].
  by destruct (transferred reported (len destination)) as [[]|e].
Qed.

(** What the header transfer brought, when it was a frame of this session. *)
Definition header_read id t t1 (h : FrameHeader) : Prop :=
  header_typed h ∧ header_ok h ∧ session_id h = id ∧
  io_read_exact empty_header t = (t1, (raw_layout (raw_of_header h), Ok FRAME_HEADER_BYTES)).

Lemma read_header_run id t :
  match read_header (Build_FrameChannel id t receiving) with
  | (c, Ok h) => ∃ t1, c = Build_FrameChannel id t1 receiving ∧ header_read id t t1 h
  | (c, Err e) => ∃ t1, c = Build_FrameChannel id t1 (receive_failed e) ∧
      channel_error_is_terminal e = true
  end.
Proof.
  unfold read_header. change (replicate _ x00) with empty_header.
  pose proof (channel_read_run id t empty_header) as Hr. pose proof (io_read_length empty_header t) as Hl.
  destruct (io_read_exact empty_header t) as [t1 [bytes reported]] eqn:Eio.
  rewrite Hr. clear Hr. simpl in Hl.
  destruct (transferred reported (len empty_header)) as [[]|e] eqn:Et; [|by eexists].
  assert (reported = Ok FRAME_HEADER_BYTES) as ->.
  { unfold transferred in Et. destruct reported as [n|e]; [|done].
    destruct (N.eqb_spec n (len empty_header)) as [->|]; [done|done]. }
  destruct (decode_frame_header bytes) as [h|e] eqn:Ed; cbn [mbind result_bind]; [|by eexists].
  cbn [fc_session_id]. destruct (N.eqb_spec (session_id h) id) as [Eid|]; [|by eexists].
  apply decode_frame_header_Ok in Ed as (Ht & Hok & ->); [|done].
  exists t1. split; [done|]. split; [done|]. split; [done|]. by split.
Qed.

(** What the payload transfer brought. *)
Definition payload_read (t1 t2 : T) buffer buffer' (n : N) : Prop :=
  n = 0 ∧ t2 = t1 ∧ buffer' = buffer ∨
  io_read_exact (take (N.to_nat n) (fb_bytes buffer)) t1 =
    (t2, (take (N.to_nat n) (fb_bytes buffer'), Ok n)).

Lemma read_payload_run id t1 buffer n : buffer_wf buffer → n ≤ MAXIMUM_FRAME_PAYLOAD_BYTES →
  match read_payload n (Build_FrameChannel id t1 receiving, buffer) with
  | ((c, buffer'), r) => buffer_wf buffer' ∧
      match r with
      | Ok _ => fb_usable buffer' = true ∧
          ∃ t2, c = Build_FrameChannel id t2 receiving ∧ payload_read t1 t2 buffer buffer' n
      | Err e => fb_usable buffer' = false ∧ channel_error_is_terminal e = true ∧
          ∃ t2, c = Build_FrameChannel id t2 (receive_failed e)
      end
  end.
Proof.
  intros Hb Hn. unfold read_payload. unfold buffer_wf in Hb.
  set (dest := take (N.to_nat n) (fb_bytes buffer)).
  assert (Hdest : length dest = N.to_nat n) by (unfold dest, len in *; rewrite length_take; lia).
  pose proof (channel_read_run id t1 dest) as Hr. pose proof (io_read_length dest t1) as Hl.
  destruct (io_read_exact dest t1) as [t2 [bytes reported]] eqn:Eio. rewrite Hr. clear Hr.
  simpl in Hl. rewrite Hdest in Hl.
  assert (Hlen : len (bytes ++ drop (N.to_nat n) (fb_bytes buffer)) = MAXIMUM_FRAME_PAYLOAD_BYTES).
  { unfold len in *. rewrite length_app, length_drop. lia. }
  destruct (transferred reported (len dest)) as [[]|e] eqn:Et; (split; [exact Hlen|]).
  - split; [done|]. exists t2. split; [done|]. right. simpl. fold dest. rewrite Eio.
    rewrite take_app_length' by done. unfold transferred in Et.
    destruct reported as [k|]; [|done]. destruct (N.eqb_spec k (len dest)) as [->|]; [|done].
    do 3 f_equal. unfold len. lia.
  - split; [done|]. split; [done|]. by eexists.
Qed.

(** What [receive] does with a channel at rest. *)
Definition received c buffer (out : FrameChannel T * FrameBuffer * result ChannelError FrameView)
  : Prop :=
  let '((c', buffer'), r) := out in
  buffer_wf buffer' ∧ fc_session_id c' = fc_session_id c ∧
  match r with
  | Ok v => fc_state c' = at_rest ∧ fb_usable buffer' = true ∧
      len (fv_payload v) = payload_length (fv_header v) ∧
      fv_payload v = take (N.to_nat (payload_length (fv_header v))) (fb_bytes buffer') ∧
      ∃ t1, header_read (fc_session_id c) (fc_io c) t1 (fv_header v) ∧
            payload_read t1 (fc_io c') buffer buffer' (payload_length (fv_header v))
  | Err e => fc_state c' = failed_with e ∧ channel_error_is_terminal e = true ∧
      (fb_usable buffer' = true → buffer' = buffer)
  end.

Lemma receive_run c buffer :
  fc_state c = at_rest → fb_usable buffer = true → buffer_wf buffer →
  received c buffer (receive (c, buffer)).
Proof.
  intros Hc Hu Hb. destruct c as [id t st]. simpl in Hc. subst st.
  unfold receive, on_channel, receive_inner, on_channel, attempt, zoom. run_M.
  cbn [fst snd channel_begin channel_failure fc_state at_rest cs_failure].
  unfold channel_begin. run_M. cbn [channel_failure fc_state cs_failure at_rest cs_active
    cs_receive_active fc_put_state cs_put_active fst snd]. rewrite Hu. cbn [negb].
  change (Build_FrameChannel id t (Build_ChannelState None false true))
    with (Build_FrameChannel id t receiving).
  pose proof (read_header_run id t) as Hh. cbn [fst].
  destruct (read_header (Build_FrameChannel id t receiving)) as [c1 [h|e]].
  2:{ destruct Hh as (t1 & -> & Ht). cbn. split_and!; done. }
  destruct Hh as (t1 & -> & Hh). pose proof Hh as (_ & (_ & _ & _ & Hmax & _) & _).
  destruct (N.eqb_spec (payload_length h) 0) as [Ez|Hz]; cbn [negb].
  - simpl. rewrite Ez. split; [done|]. split; [done|]. split; [done|]. split; [done|].
    split; [done|]. split; [done|]. exists t1. split; [done|]. by left.
  - pose proof (read_payload_run id t1 buffer (payload_length h) Hb Hmax) as Hp.
    destruct (read_payload (payload_length h) _) as [[c2 buffer'] [u|e]].
    + destruct Hp as (Hb' & Hu' & t2 & -> & Hp). simpl. split; [done|]. split; [done|].
      split; [done|]. split; [done|]. split; [|split; [done|by exists t1]].
      unfold buffer_wf, len in *. rewrite length_take. lia.
    + destruct Hp as (Hb' & Hu' & Ht & t2 & ->). simpl. split; [done|]. split; [done|].
      split; [done|]. split; [done|]. by rewrite Hu'.
Qed.

(** Receiving on a channel at rest into a usable buffer has two outcomes.
    Either it yields a frame: a canonical header of this session which the
    transport delivered in full, with exactly the payload bytes the transport
    then delivered into the front of the buffer, and the channel and the buffer
    stay usable. Or it fails: the failure is terminal and the one the channel
    retains, no operation stays active, and the buffer is unusable unless not a
    byte of it was touched. *)
Theorem receive_outcome c buffer c' buffer' r :
  fc_state c = at_rest → fb_usable buffer = true → buffer_wf buffer →
  receive (c, buffer) = ((c', buffer'), r) →
  buffer_wf buffer' ∧
  match r with
  | Ok v => fc_state c' = at_rest ∧ fb_usable buffer' = true ∧
      len (fv_payload v) = payload_length (fv_header v) ∧
      fv_payload v = take (N.to_nat (payload_length (fv_header v))) (fb_bytes buffer') ∧
      ∃ t1, header_read (fc_session_id c) (fc_io c) t1 (fv_header v) ∧
            payload_read t1 (fc_io c') buffer buffer' (payload_length (fv_header v))
  | Err e => fc_state c' = failed_with e ∧ channel_error_is_terminal e = true ∧
      (fb_usable buffer' = true → buffer' = buffer)
  end.
Proof.
  intros Hc Hu Hb E. pose proof (receive_run c buffer Hc Hu Hb) as Hr. rewrite E in Hr.
  by destruct Hr as (? & _ & ?).
Qed.

(** Sending on a channel at rest: refused before a byte is written, or the
    header's layout and then the payload are handed to the transport whole. *)
Lemma send_run id t header payload : header_typed header →
  match validate_outgoing id header payload with
  | Err e => send header payload (Build_FrameChannel id t at_rest) =
      (Build_FrameChannel id (io_abort t) (failed_with (CE_Protocol e)), Err (CE_Protocol e))
  | Ok _ =>
      let '(t1, r1) := io_write_all (raw_layout (raw_of_header header)) t in
      match transferred r1 FRAME_HEADER_BYTES with
      | Err e => send header payload (Build_FrameChannel id t at_rest) =
          (Build_FrameChannel id (io_abort t1) (failed_with (CE_Transport e)), Err (CE_Transport e))
      | Ok _ =>
          if len payload =? 0
          then send header payload (Build_FrameChannel id t at_rest) =
                 (Build_FrameChannel id t1 at_rest, Ok tt)
          else
            let '(t2, r2) := io_write_all payload t1 in
            match transferred r2 (len payload) with
            | Err e => send header payload (Build_FrameChannel id t at_rest) =
                (Build_FrameChannel id (io_abort t2) (failed_with (CE_Transport e)),
                 Err (CE_Transport e))
            | Ok _ => send header payload (Build_FrameChannel id t at_rest) =
                (Build_FrameChannel id t2 at_rest, Ok tt)
            end
      end
  end.
Proof.
  intros Ht. unfold send, send_inner, channel_begin, channel_write, attempt, zoom. run_M.
  cbn [channel_failure fc_state cs_failure at_rest cs_active cs_send_active fc_put_state
    cs_put_active fc_session_id].
  rewrite (header_encode_run header _ Ht).
  destruct (validate_outgoing id header payload) as [u|e] eqn:Ev; [|done].
  assert (Hv : header_validate header = Ok tt).
  { unfold validate_outgoing in Ev. apply bind_Ok in Ev as ([] & Ev & _). done. }
  rewrite Hv. simpl.
  rewrite (len_raw_of_header header).
  destruct (io_write_all (raw_layout (raw_of_header header)) t) as [t1 r1]. simpl.
  destruct (transferred r1 FRAME_HEADER_BYTES) as [[]|e1]; [|done].
  destruct (len payload =? 0); [done|]. simpl.
  destruct (io_write_all payload t1) as [t2 r2]. simpl.
  by destruct (transferred r2 (len payload)) as [[]|e2].
Qed.
End operations.

(** ** Two ends of a pipe *)

(** A lossless in-order transport: what is written is read in order. *)
Definition Pipe : Type := list byte.

#[export] Instance pipe_io : ExactIo Pipe := {
  io_read_exact destination p :=
    if len destination <=? len p
    then (drop (length destination) p, (take (length destination) p, Ok (len destination)))
    else (p, (destination, Err IE_PeerClosed));
  io_write_all bytes p := (p ++ bytes, Ok (len bytes));
  io_abort p := p
}.

#[export] Instance pipe_io_laws : ExactIoLaws Pipe.
Proof.
  split. intros destination p. simpl. destruct (N.leb_spec (len destination) (len p)); [|done].
  simpl. rewrite length_take. unfold len in *. lia.
Qed.

Lemma pipe_read (destination front rest : Pipe) : length front = length destination →
  io_read_exact destination (front ++ rest) = (rest, (front, Ok (len destination))).
Proof.
  intros Hl. simpl. rewrite len_app, (proj2 (N.leb_le _ _)) by (unfold len; lia).
  by rewrite drop_app_length', take_app_length'.
Qed.

Section pipe.
Context `{HeaderImageLaws}.

Lemma read_header_pipe id h rest : header_typed h → header_ok h → session_id h = id →
  read_header (Build_FrameChannel id (raw_layout (raw_of_header h) ++ rest) receiving) =
    (Build_FrameChannel id rest receiving, Ok h).
Proof.
  intros Ht Hok Hid. unfold read_header. change (replicate _ x00) with empty_header.
  pose proof (channel_read_run id (raw_layout (raw_of_header h) ++ rest) empty_header) as Hr.
  rewrite (pipe_read empty_header) in Hr by (by rewrite length_raw_layout by by apply raw_of_header_typed).
  unfold transferred in Hr. rewrite N.eqb_refl in Hr. rewrite Hr.
  rewrite (decode_frame_header_layout h Ht), (proj2 (header_validate_Ok h tt) Hok).
  cbn [mbind result_bind fc_session_id]. by rewrite Hid, N.eqb_refl.
Qed.

Lemma read_payload_pipe id payload rest buffer : buffer_wf buffer →
  len payload ≤ MAXIMUM_FRAME_PAYLOAD_BYTES →
  ∃ buffer', read_payload (len payload) (Build_FrameChannel id (payload ++ rest) receiving, buffer) =
      ((Build_FrameChannel id rest receiving, buffer'), Ok tt) ∧
    take (length payload) (fb_bytes buffer') = payload.
Proof.
  intros Hb Hmax. unfold read_payload. unfold buffer_wf in Hb.
  set (dest := take (N.to_nat (len payload)) (fb_bytes buffer)).
  assert (Hdest : length payload = length dest).
  { unfold dest. rewrite length_take. unfold len in *. lia. }
  pose proof (channel_read_run id (payload ++ rest) dest) as Hr. rewrite pipe_read in Hr by done.
  unfold transferred in Hr. rewrite N.eqb_refl in Hr. rewrite Hr.
  eexists. split; [reflexivity|]. simpl. by rewrite take_app_length.
Qed.

Lemma receive_pipe id header payload buffer rest : buffer_wf buffer → fb_usable buffer = true →
  header_typed header → header_ok header → session_id header = id →
  payload_length header = len payload →
  ∃ buffer', receive (Build_FrameChannel id (raw_layout (raw_of_header header) ++ payload ++ rest) at_rest,
                      buffer) =
    ((Build_FrameChannel id rest at_rest, buffer'), Ok (frame_view_new header payload)).
Proof.
  intros Hb Hu Ht Hok Hid Hlen.
  assert (Hmax : len payload ≤ MAXIMUM_FRAME_PAYLOAD_BYTES) by (rewrite <-Hlen; apply Hok).
  unfold receive, on_channel, receive_inner, on_channel, attempt, zoom, channel_begin. run_M.
  cbn [channel_failure fc_state cs_failure at_rest cs_active cs_receive_active fc_put_state
    cs_put_active fst snd]. rewrite Hu. cbn [negb].
  change (Build_ChannelState None false true) with receiving. cbn [fst].
  rewrite (read_header_pipe id header (payload ++ rest) Ht Hok Hid), Hlen.

  destruct (N.eqb_spec (len payload) 0) as [Hz|Hz]; cbn [negb].
  - apply len_0_nil in Hz as ->. exists buffer. cbn. by rewrite Hlen.
  - cbn [snd]. destruct (read_payload_pipe id payload rest buffer Hb Hmax) as (buffer' & -> & Hp).
    exists buffer'. unfold end_success. run_M. cbn. by rewrite Hlen, len_to_nat, Hp.
Qed.

(** C24: What one channel sends, a channel of the same session at the other end of
    a lossless in-order transport receives. A frame that is not canonical, of
    another session or of the wrong length is refused before a byte is written
    and poisons the sender; any other frame is written and received as the same
    header and payload, with whatever follows it left in the transport. *)
Theorem channel_roundtrip id header payload buffer rest :
  header_typed header → buffer_wf buffer → fb_usable buffer = true →
  match validate_outgoing id header payload with
  | Err e =>
      send header payload (frame_channel_new id ([] : Pipe)) =
        (Build_FrameChannel id [] (failed_with (CE_Protocol e)), Err (CE_Protocol e))
  | Ok _ =>
      ∃ wire buffer', len wire = FRAME_HEADER_BYTES + len payload ∧
        send header payload (frame_channel_new id ([] : Pipe)) =
          (frame_channel_new id wire, Ok tt) ∧
        receive (frame_channel_new id (wire ++ rest), buffer) =
          ((frame_channel_new id rest, buffer'), Ok (frame_view_new header payload))
  end.
Proof.
  intros Ht Hb Hu. pose proof (send_run id ([] : Pipe) header payload Ht) as Hs.
  destruct (validate_outgoing id header payload) as [u|e] eqn:Ev; [|exact Hs].
  unfold validate_outgoing in Ev.
  apply bind_Ok in Ev as ([] & Hok%header_validate_Ok & Ev).
  rewrite !guard_seq, guard_err_Ok in Ev. destruct Ev as (Hid & Hmax & Hlen). bool_to_prop.
  exists (raw_layout (raw_of_header header) ++ payload).
  destruct (receive_pipe id header payload buffer rest Hb Hu Ht Hok Hid Hlen) as (buffer' & Hr).
  exists buffer'. rewrite len_app, len_raw_of_header. split; [done|].
  rewrite <-app_assoc. split; [|exact Hr].
  cbn [io_write_all pipe_io transferred] in Hs.
  rewrite len_raw_of_header, N.eqb_refl in Hs.
  destruct (N.eqb_spec (len payload) 0) as [Hz|Hz].
  - apply len_0_nil in Hz as ->. rewrite app_nil_r. exact Hs.
  - rewrite N.eqb_refl in Hs. exact Hs.
Qed.
End pipe.

(** ** Witnesses *)

#[local] Existing Instance packed_image.

(** A transport with nothing to deliver. *)
Lemma receive_outcome_witness :
  ∃ c' buffer' e, receive (frame_channel_new 7 ([] : Pipe), frame_buffer_new) = ((c', buffer'), Err e) ∧
    fc_state c' = failed_with e ∧ (fb_usable buffer' = true → buffer' = frame_buffer_new).
Proof.
  destruct (receive (frame_channel_new 7 ([] : Pipe), frame_buffer_new)) as [[c' buffer'] r] eqn:E.
  assert (Hb : buffer_wf frame_buffer_new) by (unfold buffer_wf; vm_compute; reflexivity).
  destruct (receive_outcome (frame_channel_new 7 ([] : Pipe)) frame_buffer_new c' buffer' r
    eq_refl eq_refl Hb E) as [_ Hr].
  destruct r as [v|e].
  - destruct Hr as (_ & _ & _ & _ & t1 & (_ & _ & _ & Hio) & _). vm_compute in Hio. discriminate Hio.
  - exists c', buffer', e. split; [reflexivity|]. split; apply Hr.
Defined.

Lemma channel_roundtrip_witness :
  ∃ wire buffer', len wire = 34 ∧
    receive (frame_channel_new 7 (wire ++ [x00]), frame_buffer_new) =
      ((frame_channel_new 7 [x00], buffer'),
       Ok (frame_view_new (frame_header_new MT_DataChunk 7 1 2) [x61; x62])).
Proof.
  assert (Hb : buffer_wf frame_buffer_new) by (unfold buffer_wf; vm_compute; reflexivity).
  assert (Ht : header_typed (frame_header_new MT_DataChunk 7 1 2)) by (vm_compute; repeat split).
  destruct (channel_roundtrip 7 (frame_header_new MT_DataChunk 7 1 2) [x61; x62] frame_buffer_new [x00]
    Ht Hb eq_refl) as (wire & buffer' & Hl & _ & Hr).
  exists wire, buffer'. split; [exact Hl|exact Hr].
Defined.
