(* ===== verification/Handshake.v ===== *)
(** * The parent's handshake

    [crates/ohl-import/src/handshake.rs]: one hello out, one ready back, over a
    fresh frame channel, and the proof of it that a parent session is built
    from. *)

From stdpp Require Import sets.
From S2P Require Export FrameChannel SourceBroker.

#[local] Open Scope N_scope.

Inductive HandshakeError : Type :=
| HE_InvalidConfiguration
| HE_Protocol (error : ProtocolError)
| HE_Channel (error : ChannelError)
| HE_Internal.

(** [hp_channel] is the address of the channel the exchange used. *)
Record HandshakeProof : Type := {
  hp_protocol : SessionValidator;
  hp_channel : N;
  hp_session_id : SessionId;
  hp_source_read_limits : SourceReadLimits;
  hp_source_read_policy : SourceReadPolicy
}.

(** What [ValidatedMedia] says of the pinned source: the size of the source and
    the size it was validated with. *)
Record MediaSizes : Type := {
  media_source_size : N;
  media_size_bytes : N
}.

Definition HELLO_PAYLOAD_LENGTH : N := 12.

Section handshake.
Context `{HeaderImage} `{ExactIo T}.
Abbreviation HM A := (M (FrameChannel T * FrameBuffer) HandshakeError A).

Definition matches_channel (self : HandshakeProof) (address : N) (channel : FrameChannel T) : bool :=
  (address =? hp_channel self) && (fc_session_id channel =? hp_session_id self).

Definition abort_channel {A} (error : HandshakeError) : HM A :=
  modify (λ s, (channel_abort s.1, s.2));; throw error.

(** [.map_err(|error| abort(channel, into(error)))?]. *)
Definition or_abort {A F} (into : F → HandshakeError) (r : result F A) : HM A :=
  match r with Ok a => mret a | Err error => abort_channel (into error) end.

(** The validator is a local; its observation only matters when it succeeds. *)
Definition handshake_observe (direction : Direction) (header : FrameHeader)
    (protocol : SessionValidator) : HM SessionValidator :=
  let '(protocol, r) := observe direction header protocol in
  or_abort HE_Protocol r;; mret protocol.

Definition perform_parent_handshake_over_window (address : N) (media : MediaSizes)
    (source_size' : N) (limits : SourceReadLimits) (budgets : ProtocolBudgets)
  : HM HandshakeProof :=
  self ← get;
  let channel := self.1 in
  match channel_failure channel with
  | Some failure => throw (HE_Channel failure)
  | None =>
    if negb (media_source_size media =? media_size_bytes media) || (source_size' =? 0) ||
       (media_size_bytes media <? source_size') || (maximum_messages budgets <? 2) ||
       (maximum_payload_bytes budgets <? HELLO_PAYLOAD_LENGTH)
    then throw HE_InvalidConfiguration
    else
      policy ← lift (map_err (λ _, HE_InvalidConfiguration)
        (source_read_policy_new source_size' (sl_read_bytes limits)));
      let protocol := session_new (fc_session_id channel) budgets in
      payload ← lift (
        let '(payload, r) := encode_hello_payload
          {| hello_source_size := source_size policy;
             hello_maximum_read_bytes := maximum_read_bytes policy |}
          (replicate (N.to_nat HELLO_PAYLOAD_BYTES) x00) in
        map_err HE_Protocol r;; Ok payload);
      let header := frame_header_new MT_Hello (fc_session_id channel) 0 HELLO_PAYLOAD_LENGTH in
      sent ← attempt (on_channel (send header payload));
      or_abort HE_Channel sent;;
      protocol ← handshake_observe ParentToWorker header protocol;
      received ← attempt receive;
      received ← or_abort HE_Channel received;
      or_abort HE_Protocol (decode_ready_payload received);;
      protocol ← handshake_observe WorkerToParent (fv_header received) protocol;
      if bool_decide (sv_state protocol ≠ Idle) || negb (sv_messages protocol =? 2) ||
         negb (sv_payload protocol =? HELLO_PAYLOAD_LENGTH)
      then abort_channel HE_Internal
      else mret {| hp_protocol := protocol; hp_channel := address;
                   hp_session_id := fc_session_id channel; hp_source_read_limits := limits;
                   hp_source_read_policy := policy |}
  end.

Definition perform_parent_handshake (address : N) (media : MediaSizes)
    (limits : SourceReadLimits) (budgets : ProtocolBudgets) : HM HandshakeProof :=
  perform_parent_handshake_over_window address media (media_size_bytes media) limits budgets.
End handshake.

(** ** What a proof attests *)

Section lemmas.
Context `{HeaderImageLaws} `{ExactIo T}.

Lemma end_success_Ok direction (c c' : FrameChannel T) u :
  end_success direction c = (c', Ok u) → channel_failure c' = None.
Proof.
  unfold end_success. run_M. destruct (channel_failure (channel_clear direction c)) eqn:E; [done|].
  by intros [= <- _].
Qed.

Lemma on_channel_Ok {A} (m : M (FrameChannel T) ChannelError A) (s s' : FrameChannel T * FrameBuffer) a :
  on_channel m s = (s', Ok a) → m s.1 = (s'.1, Ok a).
Proof. unfold on_channel, zoom. destruct (m s.1) as [c r]. by intros [= <- ->]. Qed.

Lemma receive_Ok (s s' : FrameChannel T * FrameBuffer) v :
  receive s = (s', Ok v) → channel_failure s'.1 = None.
Proof.
  unfold receive. intros (s1 & [] & _ & E)%M_bind_Ok. apply M_bind_Ok in E as (s2 & s2' & [= <- <-] & E).
  destruct (fb_usable s1.2); cbn [negb] in E.
  - apply M_bind_Ok in E as (s3 & r & _ & E). destruct r as [h|e].
    + apply M_bind_Ok in E as (s4 & [] & Ee%on_channel_Ok%end_success_Ok & E).
      apply M_bind_Ok in E as (s5 & s5' & [= <- <-] & [= <- _]). done.
    + apply M_bind_Ok in E as (s4 & e' & _ & E). done.
  - apply M_bind_Ok in E as (s3 & [] & _ & E). done.
Qed.

Definition attests (address : N) (c : FrameChannel T) (source_size' : N) (limits : SourceReadLimits)
    (budgets : ProtocolBudgets) (proof : HandshakeProof) : Prop :=
  session_wf (hp_protocol proof) ∧ sv_state (hp_protocol proof) = Idle ∧
  sv_error (hp_protocol proof) = None ∧
  sv_messages (hp_protocol proof) = 2 ∧ sv_payload (hp_protocol proof) = HELLO_PAYLOAD_LENGTH ∧
  hp_channel proof = address ∧ hp_session_id proof = fc_session_id c ∧
  hp_source_read_limits proof = limits ∧
  hp_source_read_policy proof =
    {| source_size := source_size'; maximum_read_bytes := sl_read_bytes limits |}.

Lemma handshake_observe_Ok direction header v (s s' : FrameChannel T * FrameBuffer) v' :
  handshake_observe direction header v s = (s', Ok v') →
  observe direction header v = (v', Ok tt) ∧ s' = s.
Proof.
  unfold handshake_observe. destruct (observe direction header v) as [v1 [[]|e]].
  - by intros [= <- <-].
  - done.
Qed.

Lemma or_abort_Ok {A F} (into : F → HandshakeError) (r : result F A) (s s' : FrameChannel T * FrameBuffer) a :
  or_abort into r s = (s', Ok a) → r = Ok a ∧ s' = s.
Proof. destruct r; [by intros [= <- <-]|done]. Qed.

Lemma handshake_Ok address media source_size' limits budgets (c c' : FrameChannel T) buffer buffer' proof :
  perform_parent_handshake_over_window address media source_size' limits budgets (c, buffer) =
    ((c', buffer'), Ok proof) →
  attests address c source_size' limits budgets proof ∧ channel_failure c' = None ∧
  media_source_size media = media_size_bytes media ∧ source_size' ≤ media_size_bytes media.
Proof.
  unfold perform_parent_handshake_over_window.
  intros (s0 & self & [= <- <-] & E)%M_bind_Ok. cbn [fst] in E.
  destruct (channel_failure c); [done|]. destruct (_ || _) eqn:Eg; [done|]. bool_to_prop.
  apply M_bind_Ok in E as (s1 & policy & Ep & E). unfold lift in Ep. injection Ep as <- Ep.
  apply map_err_Ok, source_read_policy_new_Ok in Ep as [_ Ep].
  apply M_bind_Ok in E as (s2 & payload & _ & E). apply M_bind_Ok in E as (s3 & sent & _ & E).
  apply M_bind_Ok in E as (s4 & [] & _ & E). apply M_bind_Ok in E as (s5 & v1 & Ev1 & E).
  apply handshake_observe_Ok in Ev1 as [Ev1 ->].
  apply M_bind_Ok in E as (s6 & received & Er & E). apply M_bind_Ok in E as (s7 & view & Ea & E).
  apply or_abort_Ok in Ea as [-> ->].
  apply M_bind_Ok in E as (s8 & [] & Ed & E). apply or_abort_Ok in Ed as [_ ->].
  apply M_bind_Ok in E as (s9 & v2 & Ev2 & E). apply handshake_observe_Ok in Ev2 as [Ev2 ->].
  destruct (_ || _) eqn:Ek; [done|]. injection E as E <-. bool_to_prop.
  assert (Hidle : sv_state v2 = Idle) by (by apply dec_stable).
  assert (Hwf : session_wf v2).
  { apply (observe_state v1 WorkerToParent (fv_header view)); [|done].
    apply (observe_state (session_new (fc_session_id c) budgets) ParentToWorker
      (frame_header_new MT_Hello (fc_session_id c) 0 HELLO_PAYLOAD_LENGTH)); [|done].
    apply session_new_wf. }
  split; [|split; [|done]].
  - unfold attests. cbn [hp_protocol hp_channel hp_session_id hp_source_read_limits hp_source_read_policy].
    split; [done|]. split; [done|]. split; [apply Hwf; by rewrite Hidle|].
    split; [done|]. split; [done|]. split; [done|]. split; [done|]. by split.
  - unfold attempt in Er. destruct (receive s4) as [s6' r] eqn:Erecv. injection Er as <- ->.
    apply receive_Ok in Erecv. by rewrite E in Erecv.
Qed.
End lemmas.
