(* ===== verification/ParentSession.v ===== *)
(** * The parent session

    [crates/ohl-import/src/parent_session.rs]: the composition of the channel,
    the result session and the read broker into the session an importer drives.
    In the code the phase is a type parameter and an operation consumes the
    session; here a session is a value tagged with its phase, and an operation
    that does not exist in a phase has no result. *)

From stdpp Require Import sets.
From S2P Require Export Handshake.

#[local] Open Scope N_scope.

(** ** Errors, buffers and phases *)

Inductive SessionError : Type :=
| SX_InvalidConfiguration
| SX_RequestIdExhausted
| SX_BuffersTooSmall
| SX_Protocol (error : ProtocolError)
| SX_Channel (error : ChannelError)
| SX_Result (error : ResultSessionError)
| SX_Source (error : SourceReadError)
| SX_WorkerFailure
| SX_SourceInvalidated.

Record SessionBuffers : Type := {
  sf_receive : FrameBuffer;
  sf_read : ReadBuffers;
  sf_maximum_read_bytes : N
}.

Definition session_buffers_new (limits : SourceReadLimits) : SessionBuffers :=
  {| sf_receive := frame_buffer_new;
     sf_read := {| rf_scratch := replicate (N.to_nat (sl_read_bytes limits)) x00;
                   rf_reply := replicate (N.to_nat (reply_storage_bytes limits)) x00 |};
     sf_maximum_read_bytes := sl_read_bytes limits |}.

Definition scrub_reply (self : SessionBuffers) : SessionBuffers :=
  {| sf_receive := sf_receive self;
     sf_read := put_reply ((λ _, x00) <$> rf_reply (sf_read self)) (sf_read self);
     sf_maximum_read_bytes := sf_maximum_read_bytes self |}.

Definition reinit_receive (self : SessionBuffers) : SessionBuffers :=
  {| sf_receive := frame_buffer_reinit (sf_receive self); sf_read := sf_read self;
     sf_maximum_read_bytes := sf_maximum_read_bytes self |}.

Inductive SessionPhaseKind : Type :=
| PK_Idle | PK_Enumerating | PK_Streaming | PK_Cancelling | PK_Cancelled | PK_Closed.

#[export] Instance SessionPhaseKind_eq_dec : EqDecision SessionPhaseKind.
Proof. solve_decision. Defined.

(** [SessionPhase::RETIRE_ON_DROP]. *)
Definition retire_on_drop (phase : SessionPhaseKind) : bool :=
  match phase with PK_Closed => false | _ => true end.

Inductive Received : Type :=
| Rc_Progress | Rc_ReadReplied | Rc_ReadIgnored | Rc_Complete | Rc_CancelAck.

Inductive ActiveRequest : Type := AR_Enumeration | AR_Stream.

(** ** [SessionCore] *)

Record SessionCore (T O : Type) : Type := {
  pc_channel : FrameChannel T;
  pc_results : ResultSession;
  pc_reads : SourceReadBroker O;
  pc_limits : SourceReadLimits;
  pc_next_request_id : N;
  pc_request_ids_exhausted : bool;
  pc_active_request_id : N
}.
Arguments Build_SessionCore {T O}.
Arguments pc_channel {T O}.
Arguments pc_results {T O}.
Arguments pc_reads {T O}.
Arguments pc_limits {T O}.
Arguments pc_next_request_id {T O}.
Arguments pc_request_ids_exhausted {T O}.
Arguments pc_active_request_id {T O}.

Section parent.
Context `{HeaderImage} {T O K : Type} `{!ExactIo T} `{!SourceOps O} `{!ByteSink K}.

Definition pc_put_channel (x : FrameChannel T) (s : SessionCore T O) : SessionCore T O :=
  let (_, b, c, d, e, f, g) := s in Build_SessionCore x b c d e f g.
Definition pc_put_results (x : ResultSession) (s : SessionCore T O) : SessionCore T O :=
  let (a, _, c, d, e, f, g) := s in Build_SessionCore a x c d e f g.
Definition pc_put_reads (x : SourceReadBroker O) (s : SessionCore T O) : SessionCore T O :=
  let (a, b, _, d, e, f, g) := s in Build_SessionCore a b x d e f g.
Definition pc_put_next (x : N) (s : SessionCore T O) : SessionCore T O :=
  let (a, b, c, d, _, f, g) := s in Build_SessionCore a b c d x f g.
Definition pc_put_exhausted (x : bool) (s : SessionCore T O) : SessionCore T O :=
  let (a, b, c, d, e, _, g) := s in Build_SessionCore a b c d e x g.
Definition pc_put_active (x : N) (s : SessionCore T O) : SessionCore T O :=
  let (a, b, c, d, e, f, _) := s in Build_SessionCore a b c d e f x.

Abbreviation CoreM A := (M (SessionCore T O) SessionError A).

Definition core_channel {E A} (m : M (FrameChannel T) E A) : M (SessionCore T O) E A :=
  zoom pc_channel pc_put_channel m.
Definition core_results {E A} (m : M ResultSession E A) : M (SessionCore T O) E A :=
  zoom pc_results pc_put_results m.
Definition core_reads {E A} (m : M (SourceReadBroker O * ResultSession) E A)
  : M (SessionCore T O) E A :=
  zoom (λ s, (pc_reads s, pc_results s))
       (λ p s, pc_put_results p.2 (pc_put_reads p.1 s)) m.

Definition allocate_request_id : CoreM N :=
  self ← get;
  if pc_request_ids_exhausted self then throw SX_RequestIdExhausted
  else
    let request_id := pc_next_request_id self in
    (if request_id =? 2 ^ 64 - 1 then modify (pc_put_exhausted true)
     else modify (pc_put_next (request_id + 1)));;
    mret request_id.

(** [retire]; the error is handed back. *)
Definition core_retire (self : SessionCore T O) : SessionCore T O :=
  let self := pc_put_results (fst (rs_worker_failed (pc_results self))) self in
  pc_put_channel (channel_abort (pc_channel self)) self.

(** *** Receiving one frame *)

(** The core next to the caller's buffers and its sink, if it passed one. *)
Record Receiving : Type := {
  rx_core : SessionCore T O;
  rx_buffers : SessionBuffers;
  rx_sink : option K
}.

Definition rx_put_core (x : SessionCore T O) (s : Receiving) : Receiving :=
  {| rx_core := x; rx_buffers := rx_buffers s; rx_sink := rx_sink s |}.
Definition rx_put_receive (x : FrameBuffer) (s : Receiving) : Receiving :=
  {| rx_core := rx_core s;
     rx_buffers := {| sf_receive := x; sf_read := sf_read (rx_buffers s);
                      sf_maximum_read_bytes := sf_maximum_read_bytes (rx_buffers s) |};
     rx_sink := rx_sink s |}.
Definition rx_put_read (x : ReadBuffers) (s : Receiving) : Receiving :=
  {| rx_core := rx_core s;
     rx_buffers := {| sf_receive := sf_receive (rx_buffers s); sf_read := x;
                      sf_maximum_read_bytes := sf_maximum_read_bytes (rx_buffers s) |};
     rx_sink := rx_sink s |}.
Definition rx_put_sink (x : option K) (s : Receiving) : Receiving :=
  {| rx_core := rx_core s; rx_buffers := rx_buffers s; rx_sink := x |}.

Abbreviation RxM A := (M Receiving SessionError A).

Definition rx_on_core {E A} (m : M (SessionCore T O) E A) : M Receiving E A :=
  zoom rx_core rx_put_core m.

Definition rx_receive : RxM FrameView :=
  map_errM SX_Channel (zoom
    (λ s, (pc_channel (rx_core s), sf_receive (rx_buffers s)))
    (λ p s, rx_put_receive p.2 (rx_put_core (pc_put_channel p.1 (rx_core s)) s)) receive).

Definition rx_prepare (frame : FrameView) : RxM PrepareOutcome :=
  map_errM SX_Source (zoom
    (λ s, (pc_reads (rx_core s), pc_results (rx_core s), sf_read (rx_buffers s)))
    (λ p s, rx_put_read p.2
      (rx_put_core (pc_put_results p.1.2 (pc_put_reads p.1.1 (rx_core s))) s)) (prepare frame)).

Definition rx_data_chunk (frame : FrameView) (k : K) : RxM unit :=
  map_errM SX_Result (zoom
    (λ s, (pc_results (rx_core s), k))
    (λ p s, rx_put_sink (Some p.2) (rx_put_core (pc_put_results p.1 (rx_core s)) s))
    (rs_accept_data_chunk frame)).

(** Sends a prepared reply and settles it with the broker. *)
Definition send_reply (prepared : PreparedReply) : RxM Received :=
  sent ← rx_on_core (attempt (core_channel (send (pr_header prepared) (pr_payload prepared))));
  match sent with
  | Ok _ =>
      rx_on_core (map_errM SX_Source (core_reads (commit_reply_sent prepared)));;
      mret Rc_ReadReplied
  | Err error =>
      rx_on_core (attempt (core_reads (abandon_reply prepared)));;
      throw (SX_Channel error)
  end.

Definition receive_one_inner (active : ActiveRequest) : RxM Received :=
  self ← get;
  if sf_maximum_read_bytes (rx_buffers self) <? sl_read_bytes (pc_limits (rx_core self))
  then throw SX_BuffersTooSmall
  else
    frame ← rx_receive;
    match message_type (fv_header frame) with
    | MT_EntryBatch =>
        rx_on_core (map_errM SX_Result (core_results (rs_accept_entry_batch frame)));;
        mret Rc_Progress
    | MT_DataChunk =>
        self ← get;
        match rx_sink self with
        | None => throw (SX_Protocol UnexpectedMessage)
        | Some k => rx_data_chunk frame k;; mret Rc_Progress
        end
    | MT_Complete =>
        rx_on_core (map_errM SX_Result (core_results
          (match active with
           | AR_Enumeration => rs_complete_enumeration frame
           | AR_Stream => rs_complete_stream frame
           end)));;
        mret Rc_Complete
    | MT_CancelAck =>
        rx_on_core (map_errM SX_Result (core_results (rs_accept_cancel_ack frame)));;
        mret Rc_CancelAck
    | MT_ReadRequest =>
        outcome ← rx_prepare frame;
        match outcome with
        | PO_IgnoredAfterCancel => mret Rc_ReadIgnored
        | PO_ReplyReady prepared => send_reply prepared
        end
    | MT_Hello | MT_Ready | MT_Enumerate | MT_StreamEntry | MT_ReadReply | MT_Cancel
    | MT_Shutdown => throw (SX_Protocol UnexpectedMessage)
    end.

(** *** Sending one frame *)

Definition send_transaction (header : FrameHeader) (payload : list byte)
    (observe : FrameView → M ResultSession ResultSessionError unit) : CoreM unit :=
  let frame := frame_view_new header payload in
  map_errM SX_Result (core_results (observe frame));;
  map_errM SX_Channel (core_channel (send header payload)).

(** ** Sessions *)

(** [ParserSession<phase>] and [TerminalSession]. *)
Inductive ParserSession : Type :=
| PSession (phase : SessionPhaseKind) (core : SessionCore T O)
| PTerminal (core : SessionCore T O) (error : SessionError).

Definition advance (next : SessionPhaseKind)
    (out : SessionCore T O * result SessionError unit) : ParserSession :=
  match out with
  | (core, Ok _) => PSession next core
  | (core, Err error) => PTerminal (core_retire core) error
  end.

Definition core_session_id (core : SessionCore T O) : N := fc_session_id (pc_channel core).

Definition ps_begin_enumeration (core : SessionCore T O) : ParserSession :=
  advance PK_Enumerating ((
    request_id ← allocate_request_id;
    self ← get;
    send_transaction (frame_header_new MT_Enumerate (core_session_id self) request_id 0) []
      rs_begin_enumeration;;
    modify (pc_put_active request_id)) core).

Definition STREAM_ENTRY_PAYLOAD_LENGTH : N := 8.

Definition ps_begin_stream (generation : CatalogGeneration) (token : N) (core : SessionCore T O)
  : ParserSession :=
  advance PK_Streaming ((
    payload ← lift (
      let '(payload, r) := encode_stream_entry_payload {| source_token := token |}
                             (replicate (N.to_nat STREAM_ENTRY_PAYLOAD_BYTES) x00) in
      map_err SX_Protocol r;; Ok payload);
    request_id ← allocate_request_id;
    self ← get;
    send_transaction
      (frame_header_new MT_StreamEntry (core_session_id self) request_id STREAM_ENTRY_PAYLOAD_LENGTH)
      payload (λ frame, rs_begin_stream_entry frame generation);;
    modify (pc_put_active request_id)) core).

Definition shutdown_session (core : SessionCore T O) : ParserSession :=
  let '(core, outcome) := send_transaction (frame_header_new MT_Shutdown (core_session_id core) 0 0) []
                            rs_accept_shutdown core in
  advance PK_Closed (pc_put_active 0 core, outcome).

Definition ps_request_cancel (core : SessionCore T O) : ParserSession :=
  advance PK_Cancelling (send_transaction
    (frame_header_new MT_Cancel (core_session_id core) (pc_active_request_id core) 0) []
    rs_accept_cancel core).

(** [receive_one] of the request phases; what was received is the step's kind. *)
Definition ps_receive_request (phase : SessionPhaseKind) (active : ActiveRequest)
    (buffers : SessionBuffers) (sink : option K) (core : SessionCore T O)
  : ParserSession * Receiving :=
  let '(rx, r) := receive_one_inner active
                    {| rx_core := core; rx_buffers := buffers; rx_sink := sink |} in
  let core := rx_core rx in
  (match r with
   | Ok Rc_Progress | Ok Rc_ReadReplied => PSession phase core
   | Ok Rc_Complete => PSession PK_Idle (pc_put_active 0 core)
   | Ok Rc_ReadIgnored | Ok Rc_CancelAck =>
       PTerminal (core_retire core) (SX_Protocol UnexpectedMessage)
   | Err error => PTerminal (core_retire core) error
   end, rx).

(** [receive_one] while cancelling. *)
Definition ps_receive_cancelling (active_was_stream : bool) (buffers : SessionBuffers)
    (sink : option K) (core : SessionCore T O) : ParserSession * Receiving :=
  let active := if active_was_stream then AR_Stream else AR_Enumeration in
  let '(rx, r) := receive_one_inner active
                    {| rx_core := core; rx_buffers := buffers; rx_sink := sink |} in
  let core := rx_core rx in
  (match r with
   | Ok Rc_Progress | Ok Rc_ReadIgnored | Ok Rc_ReadReplied => PSession PK_Cancelling core
   | Ok Rc_CancelAck => PSession PK_Cancelled (pc_put_active 0 core)
   | Ok Rc_Complete => PSession PK_Idle (pc_put_active 0 core)
   | Err error => PTerminal (core_retire core) error
   end, rx).

Definition ps_notify_worker_failed (core : SessionCore T O) : ParserSession :=
  PTerminal (core_retire core) SX_WorkerFailure.

Definition ps_invalidate_source (core : SessionCore T O) : ParserSession :=
  let core := pc_put_results (fst (rs_invalidate_source (pc_results core))) core in
  PTerminal (pc_put_channel (channel_abort (pc_channel core)) core) SX_SourceInvalidated.

(** [impl Drop for ParserSession]: what is left of the core. *)
Definition ps_drop (phase : SessionPhaseKind) (core : SessionCore T O) : SessionCore T O :=
  if retire_on_drop phase then core_retire core else core.

(** *** Construction *)

Definition create_parser_session_with_ops (proof : HandshakeProof) (address : N)
    (channel : FrameChannel T) (media : MediaSizes) (epoch : WorkerEpoch)
    (limits : ImportLimits) (ops : O)
  : FrameChannel T * result SessionError ParserSession :=
  let read_limits := hp_source_read_limits proof in
  let policy := hp_source_read_policy proof in
  if negb (matches_channel proof address channel) || channel_is_terminal channel ||
     negb (media_source_size media =? media_size_bytes media) ||
     negb (source_size policy =? so_window_length ops) ||
     negb (maximum_read_bytes policy =? sl_read_bytes read_limits)
  then (channel_abort channel, Err SX_InvalidConfiguration)
  else
    match (results ← result_session_new (hp_protocol proof) epoch limits;
           match broker_with_ops (media_source_size media) (media_size_bytes media) read_limits ops
                   results with
           | (results, Ok reads) => Ok (results, reads)
           | (_, Err _) => Err RE_InvalidConfiguration
           end) with
    | Err _ => (channel_abort channel, Err SX_InvalidConfiguration)
    | Ok (results, reads) =>
        (channel, Ok (PSession PK_Idle
          {| pc_channel := channel; pc_results := results; pc_reads := reads;
             pc_limits := read_limits; pc_next_request_id := 1;
             pc_request_ids_exhausted := false; pc_active_request_id := 0 |}))
    end.
End parent.
