(* ===== verification/ParentPhases.v ===== *)
(** * The phase of a parent session is its protocol state

    The typestate of [ParentSession.v] against the validator inside it: in every
    session an importer can reach, the phase its type names is the state its
    session validator is in, and a session that has ended is dead in all its
    parts. *)

From stdpp Require Import sets.
From S2P Require Export ParentSession.

#[local] Open Scope N_scope.

Definition phase_state (phase : SessionPhaseKind) : SessionState :=
  match phase with
  | PK_Idle => Idle
  | PK_Enumerating => Enumerating
  | PK_Streaming => Streaming
  | PK_Cancelling => Cancelling
  | PK_Cancelled => Cancelled
  | PK_Closed => Closed
  end.

(** ** What the results' operations do to the protocol state *)

Definition results_move (ty : MessageType) (s s' : ResultSession) : Prop :=
  rs_wf s' ∧ rs_failure s' = None ∧
  state_move ty (sv_state (rs_protocol s)) (sv_state (rs_protocol s')) ∧
  state_from ty (sv_state (rs_protocol s)).

Abbreviation whatever := (λ _ _, True).

Section results.
Context (s : ResultSession) (Hwf : rs_wf s) (Hlive : rs_failure s = None).

Lemma observed_move d frame ty v s' :
  observed d frame s v → message_type (fv_header frame) = ty →
  rs_protocol s' = v → rs_wf s' ∧ rs_failure s' = None → results_move ty s s'.
Proof. intros (_ & Hm & Hf) <- <- [? ?]. by split_and!. Qed.

Ltac move_by lemma :=
  eapply wp_mono; [apply lemma; exact Hwf| |done].

Lemma begin_enumeration_moves frame :
  wp (rs_begin_enumeration frame) (λ _ s', results_move MT_Enumerate s s') whatever s.
Proof.
  move_by begin_enumeration_run. intros _ s' (v & Ho & Hk & Hfit & ->).
  eapply observed_move; [exact Ho|done|done|]. split; [by eapply begun_wf|done].
Qed.

Lemma begin_stream_moves frame generation :
  wp (rs_begin_stream_entry frame generation) (λ _ s', results_move MT_StreamEntry s s') whatever s.
Proof.
  move_by begin_stream_run. intros _ s' (v & cat & m & p & Ho & Hk & _ & Hc & Hf & ->).
  eapply observed_move; [exact Ho|done|by destruct s|]. by eapply stream_begun_wf.
Qed.

Lemma entry_batch_moves frame :
  wp (rs_accept_entry_batch frame) (λ _ s', results_move MT_EntryBatch s s') whatever s.
Proof.
  move_by accept_entry_batch_run. intros _ s' (v & c & l & Ho & Hk & Hc & _ & Hacc & ->).
  eapply observed_move; [exact Ho|done|by destruct s|].
  split; [by eapply entry_batch_wf|by destruct s].
Qed.

Lemma complete_enumeration_moves frame :
  wp (rs_complete_enumeration frame) (λ _ s', results_move MT_Complete s s') whatever s.
Proof.
  move_by complete_enumeration_run. intros _ s' (v & c & Ho & Hk & Hc & Hp).
  eapply observed_move; [exact Ho|done| |by eapply promoted_wf].
  unfold promoted in Hp. destruct (cd_promotable c); [destruct Hp as (cat & _ & ->)|subst s'];
    by destruct s.
Qed.

Lemma complete_stream_moves frame :
  wp (rs_complete_stream frame) (λ _ s', results_move MT_Complete s s') whatever s.
Proof.
  move_by complete_stream_run. intros _ s' (v & Ho & Hk & Hs & ->).
  eapply observed_move; [exact Ho|done|by destruct s|by eapply stream_completed_wf].
Qed.

Lemma cancel_ack_moves frame :
  wp (rs_accept_cancel_ack frame) (λ _ s', results_move MT_CancelAck s s') whatever s.
Proof.
  move_by cancel_ack_run. intros _ s' (v & Ho & Hk & ->).
  eapply observed_move; [exact Ho|done|done|]. destruct Ho as (Hv & Hm & _). rewrite Hk in Hm.
  apply emptied_wf; auto.
Qed.

Lemma cancel_moves frame :
  wp (rs_accept_cancel frame) (λ _ s', results_move MT_Cancel s s') whatever s.
Proof.
  move_by cancel_run. intros _ s' (v & Ho & Hk & ->).
  eapply observed_move; [exact Ho|done|by destruct s|by eapply cancelled_wf].
Qed.

Lemma shutdown_moves frame :
  wp (rs_accept_shutdown frame) (λ _ s', results_move MT_Shutdown s s') whatever s.
Proof.
  move_by shutdown_run. intros _ s' (v & Ho & Hk & ->).
  eapply observed_move; [exact Ho|done|done|]. destruct Ho as (Hv & Hm & _). rewrite Hk in Hm.
  apply emptied_wf; auto.
Qed.

Lemma protocol_moves d frame ty v :
  observed d frame s v → message_type (fv_header frame) = ty →
  ty = MT_ReadRequest ∨ ty = MT_ReadReply → results_move ty s (rs_put_protocol v s).
Proof.
  intros Ho Hk Hty. eapply observed_move; [exact Ho|done|by destruct s|].
  split; [|by destruct s]. destruct Ho as (Hv & Hm & _). apply put_protocol_wf; [done..|].
  rewrite Hk in Hm. by destruct Hty as [-> | ->].
Qed.

Lemma read_request_moves frame policy sequence :
  wp (rs_accept_read_request frame policy sequence)
    (λ outcome s', results_move MT_ReadRequest s s' ∧
       (outcome = IgnoredAfterCancel ↔ sv_state (rs_protocol s) = Cancelling)) whatever s.
Proof.
  move_by read_request_run. intros outcome s' (v & m & Ho & Hk & _ & -> & ->).
  split; [by eapply protocol_moves; auto|]. by case_bool_decide.
Qed.

Lemma read_reply_moves frame sequence length :
  wp (rs_accept_read_reply frame sequence length)
    (λ _ s', results_move MT_ReadReply s s') whatever s.
Proof.
  move_by read_reply_run. intros _ s' (v & m & Ho & Hk & _ & _ & _ & ->).
  by eapply protocol_moves; auto.
Qed.

Lemma data_chunk_moves `{ByteSink K} frame (k : K) :
  wp (rs_accept_data_chunk frame) (λ _ t, results_move MT_DataChunk s t.1) whatever (s, k).
Proof.
  eapply wp_mono; [apply data_chunk_run; exact Hwf| |done].
  intros _ [s' k'] (v & left & Ho & Hk & Hs & Hn & _ & Es). simpl in Es. subst s'.
  eapply observed_move; [exact Ho|done|by destruct s|]. eapply chunk_wf; [done..|]. lia.
Qed.
End results.

(** ** The broker between two requests *)

Section broker.
Context {O : Type} `{!SourceOps O} `{!SourceOpsLaws O}.
Implicit Types (b : SourceReadBroker O) (s : ResultSession).

Definition broker_live b : Prop := sb_wf b ∧ sb_failure b = None ∧ sb_pending b = None.

Definition awaiting_reply (reply : PreparedReply) b : Prop :=
  sb_wf b ∧ sb_failure b = None ∧ ∃ p, sb_pending b = Some p ∧ pe_ticket p = pr_ticket reply.

Lemma prepare_moves frame b s bufs :
  broker_live b → rs_wf s → rs_failure s = None →
  wp (prepare frame)
    (λ outcome t, results_move MT_ReadRequest s t.1.2 ∧
       match outcome with
       | PO_IgnoredAfterCancel => broker_live t.1.1 ∧ sv_state (rs_protocol s) = Cancelling
       | PO_ReplyReady reply => awaiting_reply reply t.1.1 ∧ sv_state (rs_protocol s) ≠ Cancelling
       end)
    whatever (b, s, bufs).
Proof.
  intros (Hb & Hf & Hp) Hwf Hlive. unfold wp.
  assert (Hreq : ∀ sequence s1 outcome,
    rs_accept_read_request frame (sb_policy b) sequence s = (s1, Ok outcome) →
    results_move MT_ReadRequest s s1 ∧
    (outcome = IgnoredAfterCancel ↔ sv_state (rs_protocol s) = Cancelling)).
  { intros sequence s1 outcome E.
    pose proof (read_request_moves s Hwf Hlive frame (sb_policy b) sequence) as Hw.
    unfold wp in Hw. by rewrite E in Hw. }
  destruct (prepare_cases frame b s bufs) as [m sequence s1 Hsv|sequence s1 _ Ha|e _|e s1 _]; try done.
  - pose proof (serve_request_run frame m sequence b s s1 bufs Hb Hsv) as Hrun.
    destruct (service _ _ (sb_ops b)) as [ops [data status]]. destruct Hrun as [-> _].
    cbn [fst snd]. pose proof Hsv as (_ & _ & _ & _ & _ & _ & _ & _ & _ & Ha).
    destruct (Hreq _ _ _ Ha) as [Hmove Hout]. split; [done|]. split.
    + split; [by eapply charged_wf|]. split; [done|]. by eexists.
    + intros Hc. by apply Hout in Hc.
  - destruct (Hreq _ _ _ Ha) as [Hmove Hout]. cbn [fst snd]. split; [done|].
    split; [by split|]. by apply Hout.
Qed.

Lemma commit_moves reply b s :
  awaiting_reply reply b → rs_wf s → rs_failure s = None →
  wp (commit_reply_sent reply)
    (λ _ t, results_move MT_ReadReply s t.2 ∧ broker_live t.1) whatever (b, s).
Proof.
  intros (Hb & Hf & p & Hp & Ht) Hwf Hlive. unfold wp.
  pose proof (commit_settled reply b s Hb) as [Hwf' _]. revert Hwf'.
  unfold commit_reply_sent, mbind, M_bind.
  destruct (take_pending_cases (pr_ticket reply) b s)
    as [(p' & _ & Hp' & _ & ->)|[(e & He & ->)|(e & _ & ->)]]; [|by rewrite Hf in He|done].
  rewrite Hp in Hp'. injection Hp' as <-.
  unfold attempt, on_results, zoom. run_M. cbn [fst snd].
  pose proof (read_reply_moves s Hwf Hlive (frame_view_new (pr_header reply) (pr_payload reply))
    (pe_sequence p) (pe_requested_length p)) as Hw. unfold wp in Hw.
  destruct (rs_accept_read_reply _ _ _ s) as [s1 [u|e]]; cbn [fst snd].
  2:{ destruct (bool_decide _); by rewrite sb_fail_run by (by destruct b). }
  destruct (bool_decide _); [|by rewrite sb_fail_run by (by destruct b)].
  destruct (pe_sequence p =? 2 ^ 32 - 1); unfold on_broker, zoom; run_M; cbn [fst snd];
    intros Hwf'; (split; [exact Hw|]); (split; [exact Hwf'|]); by destruct b.
Qed.
End broker.

(** ** Live and dead cores *)

Section parent.
Context `{HeaderImage} {T O K : Type} `{!ExactIo T} `{!SourceOps O} `{!SourceOpsLaws O} `{!ByteSink K}.
Implicit Types (core : SessionCore T O).

Record core_live (state : SessionState) core : Prop := {
  cl_results : rs_wf (pc_results core);
  cl_failure : rs_failure (pc_results core) = None;
  cl_state : sv_state (rs_protocol (pc_results core)) = state;
  cl_reads : broker_live (pc_reads core)
}.

Definition core_dead core : Prop :=
  rs_failure (pc_results core) ≠ None ∧ channel_failure (pc_channel core) ≠ None.

Lemma poison_failed e (c : FrameChannel T) : channel_failure (fst (poison e c)) ≠ None.
Proof. unfold poison. destruct (channel_failure c) eqn:E; simpl; [by rewrite E|by destruct c as [? ? []]]. Qed.

Lemma retire_failed e s : rs_failure (fst (retire e s)) ≠ None.
Proof.
  destruct (rs_failure s) as [f|] eqn:E; [|by rewrite retire_run].
  unfold retire. run_M. rewrite E, bool_decide_false by done. simpl. by rewrite E.
Qed.

Lemma core_retire_dead core : core_dead (core_retire core).
Proof.
  pose proof (retire_failed RE_WorkerFailure (pc_results core)) as Hr.
  unfold core_dead, core_retire, rs_worker_failed. run_M.
  destruct core as [c r b l n x a]; simpl in *. split; [|apply poison_failed].
  destruct (retire RE_WorkerFailure r) as [r' [e|e]] eqn:E; simpl; [by destruct r'|].
  exact Hr.
Qed.

Definition parent_wf (p : ParserSession (T:=T) (O:=O)) : Prop :=
  match p with
  | PSession phase core => core_live (phase_state phase) core
  | PTerminal core _ => core_dead core
  end.

Lemma advance_wf next out :
  match out with (core, Ok _) => core_live (phase_state next) core | _ => True end →
  parent_wf (advance next out).
Proof. destruct out as [core [u|e]]; simpl; [done|]. intros _. apply core_retire_dead. Qed.

(** Replacing the channel or the results of a live core. *)
Lemma live_channel state core c : core_live state core → core_live state (pc_put_channel c core).
Proof. intros [H1 H2 H3 H4]. destruct core. by split. Qed.

Lemma live_results state ty core s' st' :
  core_live state core → results_move ty (pc_results core) s' →
  sv_state (rs_protocol s') = st' → core_live st' (pc_put_results s' core).
Proof. intros [H1 H2 H3 H4] (Hwf & Hf & _) Hst. destruct core. by split. Qed.

Lemma live_active state core n : core_live state core → core_live state (pc_put_active n core).
Proof. intros [H1 H2 H3 H4]. destruct core. by split. Qed.

(** A method of the results, on a live core. *)
Lemma wp_core_results {A} ty state core (m : M ResultSession ResultSessionError A)
    (Q : A → SessionCore T O → Prop) :
  core_live state core →
  wp m (λ _ s', results_move ty (pc_results core) s') whatever (pc_results core) →
  (∀ a s', results_move ty (pc_results core) s' → Q a (pc_put_results s' core)) →
  wp (map_errM SX_Result (core_results m)) Q whatever core.
Proof.
  intros Hl Hm HQ. unfold core_results. apply wp_map_errM, wp_zoom.
  eapply wp_mono; [exact Hm| |done]. intros a s' Hs. by apply HQ.
Qed.

Definition received_live (state : SessionState) (r : Received) core : Prop :=
  match r with
  | Rc_Progress => core_live state core
  | Rc_ReadReplied => core_live state core ∧ state ≠ Cancelling
  | Rc_ReadIgnored => core_live state core ∧ state = Cancelling
  | Rc_Complete => core_live Idle core
  | Rc_CancelAck => core_live Cancelled core ∧ state = Cancelling
  end.

Lemma send_reply_moves state prepared (rx : Receiving (T:=T) (O:=O) (K:=K)) :
  rs_wf (pc_results (rx_core rx)) → rs_failure (pc_results (rx_core rx)) = None →
  sv_state (rs_protocol (pc_results (rx_core rx))) = state → state ≠ Cancelling →
  awaiting_reply prepared (pc_reads (rx_core rx)) →
  wp (send_reply prepared) (λ r rx', received_live state r (rx_core rx')) whatever rx.
Proof.
  intros Hwf Hlive Hst Hne Hb. unfold send_reply, rx_on_core, core_channel, core_reads.
  apply wp_bind, wp_zoom, wp_attempt, wp_zoom. apply wp_run; intros a c Hc.
  - apply wp_bind, wp_zoom, wp_map_errM, wp_zoom.
    destruct rx as [[ch res rd lim nx ex ac] bufs sink]; simpl in *.
    eapply wp_mono; [apply commit_moves; [exact Hb|exact Hwf|exact Hlive]| |done].
    intros [] [b' s'] [(Hwf' & Hf' & Hm & _) Hb']. simpl in *. apply wp_ret. split; [|done].
    split; simpl; [done|done|by rewrite Hm|done].
  - apply wp_bind, wp_zoom, wp_attempt, wp_zoom. apply wp_run; intros; by apply wp_throw.
Qed.

Lemma receive_one_moves state active (rx : Receiving (T:=T) (O:=O) (K:=K)) :
  core_live state (rx_core rx) →
  wp (receive_one_inner active) (λ r rx', received_live state r (rx_core rx')) whatever rx.
Proof.
  intros Hl. unfold receive_one_inner. apply wp_bind, wp_get. destruct (_ <? _); [by apply wp_throw|].
  unfold rx_receive. apply wp_bind, wp_map_errM, wp_zoom. apply wp_run; [|done].
  intros frame [c buffer] _. cbn [fst snd].
  set (rx1 := rx_put_receive buffer _).
  assert (Hl1 : core_live state (rx_core rx1)) by (by apply live_channel).
  clearbody rx1. clear Hl rx. pose proof Hl1 as [Hwf Hlive Hst Hb].
  destruct (message_type (fv_header frame)) eqn:Hty; try by apply wp_throw.
  - (* read_request *)
    unfold rx_prepare. apply wp_bind, wp_map_errM, wp_zoom.
    eapply wp_mono; [apply prepare_moves; [exact Hb|exact Hwf|exact Hlive]| |done].
    intros outcome [[b s'] bufs] [(Hwf' & Hf' & Hm & _) Hout]. cbn [fst snd] in *. rewrite Hst in *.
    destruct rx1 as [[ch res rd lim nx ex ac] bf sink]; simpl in *.
    destruct outcome as [reply|]; destruct Hout as [Hb' Hc].
    + by apply send_reply_moves.
    + apply wp_ret. split; [|done]. by split.
  - (* entry_batch *)
    apply wp_bind, wp_zoom. eapply wp_core_results; [exact Hl1|by apply entry_batch_moves|].
    intros a s' Hm. apply wp_ret. eapply live_results; [exact Hl1|exact Hm|].
    destruct Hm as (_ & _ & Hm & _). by rewrite Hm.
  - (* data_chunk *)
    apply wp_bind, wp_get. destruct (rx_sink rx1) as [k|]; [|by apply wp_throw].
    unfold rx_data_chunk. apply wp_bind, wp_map_errM, wp_zoom.
    eapply wp_mono; [apply data_chunk_moves; [exact Hwf|exact Hlive]| |done].
    intros a [s' k'] Hm. apply wp_ret. simpl. eapply live_results; [exact Hl1|exact Hm|].
    destruct Hm as (_ & _ & Hm & _). simpl in Hm. by rewrite Hm.
  - (* complete *)
    apply wp_bind, wp_zoom. eapply wp_core_results; [exact Hl1| |].
    + destruct active; [by apply complete_enumeration_moves|by apply complete_stream_moves].
    + intros a s' Hm. apply wp_ret. eapply live_results; [exact Hl1|exact Hm|]. by apply Hm.
  - (* cancel_ack *)
    apply wp_bind, wp_zoom. eapply wp_core_results; [exact Hl1|by apply cancel_ack_moves|].
    intros a s' Hm. apply wp_ret. split; [eapply live_results; [exact Hl1|exact Hm|]; by apply Hm|].
    destruct Hm as (_ & _ & _ & Hfrom). by rewrite Hst in Hfrom.
Qed.

Lemma send_transaction_moves ty state st' core header payload observe :
  core_live state core →
  (∀ frame, wp (observe frame) (λ _ s', results_move ty (pc_results core) s') whatever (pc_results core)) →
  (∀ s', results_move ty (pc_results core) s' → sv_state (rs_protocol s') = st') →
  wp (send_transaction header payload observe) (λ _ core', core_live st' core') whatever core.
Proof.
  intros Hl Hobs Hst. unfold send_transaction. apply wp_bind.
  eapply wp_core_results; [exact Hl|apply Hobs|]. intros _ s' Hm.
  unfold core_channel. apply wp_map_errM, wp_zoom. apply wp_run; [|done]. intros _ c _.
  apply live_channel. eapply live_results; [exact Hl|exact Hm|by apply Hst].
Qed.

Lemma allocate_moves state core :
  core_live state core →
  wp allocate_request_id (λ _ core', core_live state core') whatever core.
Proof.
  intros [H1 H2 H3 H4]. unfold allocate_request_id. apply wp_bind, wp_get.
  destruct (pc_request_ids_exhausted core); [by apply wp_throw|]. apply wp_bind.
  destruct (_ =? _); apply wp_modify, wp_ret; destruct core; by split.
Qed.

Lemma wp_out {S E A} (m : M S E A) (Q : A → S → Prop) s :
  wp m Q whatever s → match m s with (s', Ok a) => Q a s' | _ => True end.
Proof. unfold wp. by destruct (m s) as [s' [a|e]]. Qed.

(** ** Operations *)

(** [ParserSession<S>]'s methods, with [None] where the type has no such method;
    the last one is another holder of the shared channel aborting it. *)
Inductive ParentOp : Type :=
| PO_BeginEnumeration
| PO_BeginStream (generation : CatalogGeneration) (token : N)
| PO_Shutdown
| PO_RequestCancel
| PO_ReceiveOne (active_was_stream : bool) (buffers : SessionBuffers) (sink : option K)
| PO_NotifyWorkerFailed
| PO_InvalidateSource
| PO_ChannelAborted.

Definition parent_op (op : ParentOp) (p : ParserSession (T:=T) (O:=O))
  : option (ParserSession (T:=T) (O:=O)) :=
  match p with
  | PTerminal core error =>
      match op with
      | PO_ChannelAborted =>
          Some (PTerminal (pc_put_channel (channel_abort (pc_channel core)) core) error)
      | _ => None
      end
  | PSession phase core =>
      match op, phase with
      | PO_BeginEnumeration, PK_Idle => Some (ps_begin_enumeration core)
      | PO_BeginStream generation token, PK_Idle => Some (ps_begin_stream generation token core)
      | PO_Shutdown, (PK_Idle | PK_Cancelled) => Some (shutdown_session core)
      | PO_RequestCancel, (PK_Enumerating | PK_Streaming) => Some (ps_request_cancel core)
      | PO_ReceiveOne _ buffers sink, PK_Enumerating =>
          Some (fst (ps_receive_request phase AR_Enumeration buffers sink core))
      | PO_ReceiveOne _ buffers sink, PK_Streaming =>
          Some (fst (ps_receive_request phase AR_Stream buffers sink core))
      | PO_ReceiveOne active_was_stream buffers sink, PK_Cancelling =>
          Some (fst (ps_receive_cancelling active_was_stream buffers sink core))
      | PO_NotifyWorkerFailed, _ => Some (ps_notify_worker_failed core)
      | PO_InvalidateSource, _ => Some (ps_invalidate_source core)
      | PO_ChannelAborted, _ =>
          Some (PSession phase (pc_put_channel (channel_abort (pc_channel core)) core))
      | _, _ => None
      end
  end.

Lemma begin_enumeration_wf core : core_live Idle core → parent_wf (ps_begin_enumeration core).
Proof.
  intros Hl. apply advance_wf, wp_out. apply wp_bind.
  eapply wp_mono; [by apply allocate_moves| |done]. intros id core1 Hl1.
  apply wp_bind, wp_get, wp_bind. pose proof Hl1 as [Hwf Hf Hst _].
  eapply wp_mono; [eapply (send_transaction_moves MT_Enumerate _ Enumerating); [exact Hl1| |]| |done].
  - intros frame. by apply begin_enumeration_moves.
  - intros s' (_ & _ & Hm & _). apply Hm.
  - intros u core2 Hl2. apply wp_modify. by apply live_active.
Qed.

Lemma begin_stream_wf generation token core :
  core_live Idle core → parent_wf (ps_begin_stream generation token core).
Proof.
  intros Hl. apply advance_wf, wp_out. apply wp_bind, wp_lift; [|done]. intros payload _.
  apply wp_bind. eapply wp_mono; [by apply allocate_moves| |done]. intros id core1 Hl1.
  apply wp_bind, wp_get, wp_bind. pose proof Hl1 as [Hwf Hf Hst _].
  eapply wp_mono; [eapply (send_transaction_moves MT_StreamEntry _ Streaming); [exact Hl1| |]| |done].
  - intros frame. by apply begin_stream_moves.
  - intros s' (_ & _ & Hm & _). apply Hm.
  - intros u core2 Hl2. apply wp_modify. by apply live_active.
Qed.

Lemma shutdown_wf state core : core_live state core → parent_wf (shutdown_session core).
Proof.
  intros Hl. unfold shutdown_session. pose proof Hl as [Hwf Hf Hst _].
  pose proof (send_transaction_moves MT_Shutdown state Closed core
    (frame_header_new MT_Shutdown (core_session_id core) 0 0) [] rs_accept_shutdown Hl) as Hw.
  unfold wp in Hw. destruct (send_transaction _ _ _ core) as [core1 [u|e]].
  - apply advance_wf. apply live_active, Hw.
    + intros frame. by apply shutdown_moves.
    + intros s' (_ & _ & Hm & _). apply Hm.
  - by apply advance_wf.
Qed.

Lemma request_cancel_wf state core :
  state = Enumerating ∨ state = Streaming → core_live state core → parent_wf (ps_request_cancel core).
Proof.
  intros Hstate Hl. apply advance_wf, wp_out. pose proof Hl as [Hwf Hf Hst _].
  eapply (send_transaction_moves MT_Cancel); [exact Hl| |].
  - intros frame. by apply cancel_moves.
  - intros s' (_ & _ & Hm & _). rewrite Hst in Hm.
    destruct Hm as [[E _]|[_ E]]; [by destruct Hstate as [-> | ->]|exact E].
Qed.

Lemma receive_request_wf phase active buffers sink core :
  phase = PK_Enumerating ∨ phase = PK_Streaming → core_live (phase_state phase) core →
  parent_wf (fst (ps_receive_request phase active buffers sink core)).
Proof.
  intros Hphase Hl. unfold ps_receive_request.
  pose proof (receive_one_moves (phase_state phase) active
    {| rx_core := core; rx_buffers := buffers; rx_sink := sink |} Hl) as Hw. unfold wp in Hw.
  destruct (receive_one_inner active _) as [rx [r|e]]; [|apply core_retire_dead].
  destruct r; simpl in Hw |- *; try apply core_retire_dead; [exact Hw|apply Hw|by apply live_active].
Qed.

Lemma receive_cancelling_wf was_stream buffers sink core :
  core_live Cancelling core → parent_wf (fst (ps_receive_cancelling was_stream buffers sink core)).
Proof.
  intros Hl. unfold ps_receive_cancelling.
  pose proof (receive_one_moves Cancelling (if was_stream then AR_Stream else AR_Enumeration)
    {| rx_core := core; rx_buffers := buffers; rx_sink := sink |} Hl) as Hw. unfold wp in Hw.
  destruct (receive_one_inner _ _) as [rx [r|e]]; [|apply core_retire_dead].
  destruct r; simpl in Hw |- *; try apply Hw; apply live_active, Hw.
Qed.

Lemma dead_channel core : core_dead core →
  core_dead (pc_put_channel (channel_abort (pc_channel core)) core).
Proof. intros [Hr _]. destruct core. split; [exact Hr|apply poison_failed]. Qed.

Lemma invalidate_source_dead core : parent_wf (ps_invalidate_source core).
Proof.
  pose proof (retire_failed RE_SourceInvalidated (pc_results core)) as Hr.
  unfold ps_invalidate_source, rs_invalidate_source. run_M.
  destruct core as [c r b l n x a]; simpl in *.
  destruct (retire RE_SourceInvalidated r) as [r' [e|e]]; (split; [exact Hr|apply poison_failed]).
Qed.

Lemma parent_op_wf op p p' : parent_wf p → parent_op op p = Some p' → parent_wf p'.
Proof.
  destruct p as [phase core|core error]; simpl.
  2:{ intros Hd. destruct op; try done. intros [= <-]. by apply dead_channel. }
  intros Hl.
  destruct op as [|generation token| | |was_stream buffers sink| | |].
  - destruct phase; intros E; try discriminate E; injection E as <-. by apply begin_enumeration_wf.
  - destruct phase; intros E; try discriminate E; injection E as <-. by apply begin_stream_wf.
  - destruct phase; intros E; try discriminate E; injection E as <-; eapply shutdown_wf; exact Hl.
  - destruct phase; intros E; try discriminate E; injection E as <-;
      (eapply request_cancel_wf; [|exact Hl]); auto.
  - destruct phase; intros E; try discriminate E; injection E as <-.
    + apply receive_request_wf; [by left|exact Hl].
    + apply receive_request_wf; [by right|exact Hl].
    + apply receive_cancelling_wf; exact Hl.
  - intros E. injection E as <-. apply core_retire_dead.
  - intros E. injection E as <-. apply invalidate_source_dead.
  - intros E. injection E as <-. apply live_channel; exact Hl.
Qed.

(** ** Reachable sessions *)

Section reachable.
Context `{!HeaderImageLaws} (address : N) (media : MediaSizes) (window : N)
  (read_limits : SourceReadLimits) (budgets : ProtocolBudgets) (epoch : WorkerEpoch)
  (limits : ImportLimits).

Inductive parent_reachable : ParserSession (T:=T) (O:=O) → Prop :=
| parent_created c buffer c1 buffer1 proof ops c2 p :
    fits 64 (media_size_bytes media) →
    (∃ read requests bytes, source_read_limits_new read requests bytes = Ok read_limits) →
    limits_ok limits →
    perform_parent_handshake_over_window address media window read_limits budgets (c, buffer) =
      ((c1, buffer1), Ok proof) →
    create_parser_session_with_ops proof address c1 media epoch limits ops = (c2, Ok p) →
    parent_reachable p
| parent_moved op p p' :
    parent_reachable p → parent_op op p = Some p' → parent_reachable p'.

Lemma create_wf proof (c0 : FrameChannel T) c media' ops c2 p :
  attests address c0 window read_limits budgets proof → fits 64 (media_size_bytes media') →
  (∃ read requests bytes, source_read_limits_new read requests bytes = Ok read_limits) →
  limits_ok limits →
  create_parser_session_with_ops proof address c media' epoch limits ops = (c2, Ok p) → parent_wf p.
Proof.
  intros (Hwf & Hidle & Herr & _ & _ & _ & _ & Hrl & _) Hsize Hread Hlim.
  unfold create_parser_session_with_ops. destruct (_ || _); [done|].
  unfold result_session_new. rewrite Herr, Hidle.
  rewrite !bool_decide_false by auto. cbn [orb guard_err mbind result_bind].
  set (results := {| rs_protocol := hp_protocol proof |}).
  destruct (broker_with_ops _ _ (hp_source_read_limits proof) ops results) as [results' [reads|e]] eqn:Eb;
    [|done].
  intros E. injection E as <- <-. rewrite Hrl in Eb.
  pose proof (with_ops_wf _ _ _ _ _ _ _ Hsize Hread Eb) as (Hb & -> & _).
  assert (Hb' : broker_live reads).
  { split; [exact Hb|]. unfold broker_with_ops in Eb. unfold mbind, M_bind, get in Eb.
    destruct (source_read_policy_new _ _); [|by destruct (attempt rs_worker_failed results) as [? []]].
    destruct (_ && _); [|by destruct (attempt rs_worker_failed results) as [? []]].
    by injection Eb as <-. }
  split; simpl; [|done|by rewrite Hidle|done].
  split; [by split|]. simpl. split; simpl; [by rewrite Hidle|done..].
Qed.

Lemma parent_reachable_wf p : parent_reachable p → parent_wf p.
Proof.
  induction 1 as [c buffer c1 buffer1 proof ops c2 p Hsize Hread Hlim Hh Hc|op p p' _ IH Hop].
  - apply handshake_Ok in Hh as (Ha & _).
    eapply create_wf; [exact Ha|exact Hsize|exact Hread|exact Hlim|exact Hc].
  - by eapply parent_op_wf.
Qed.

(** C6: The phase in a parent session's type is the state its validator is in.
    In every session an importer reaches from a completed handshake, whatever the
    worker sends, whatever the transport, the source and the sink answer, and
    whenever another holder aborts the channel: a session of some phase has its
    validator in that phase's state, unfailed results, an unfailed broker and no
    reply outstanding, and a frame it receives is of a kind its phase has a step
    for; a session that has ended has failed results, no catalog, and an aborted
    channel. *)
Theorem parent_phase_agrees p :
  parent_reachable p →
  match p with
  | PSession phase core =>
      sv_state (rs_protocol (pc_results core)) = phase_state phase ∧
      rs_failure (pc_results core) = None ∧
      sb_failure (pc_reads core) = None ∧ sb_pending (pc_reads core) = None ∧
      ∀ active buffers sink rx r,
        receive_one_inner active {| rx_core := core; rx_buffers := buffers; rx_sink := sink |} =
          (rx, Ok r) →
        if bool_decide (phase = PK_Cancelling) then r ≠ Rc_ReadReplied
        else r ≠ Rc_ReadIgnored ∧ r ≠ Rc_CancelAck
  | PTerminal core _ =>
      rs_failure (pc_results core) ≠ None ∧ rs_catalog_view (pc_results core) = None ∧
      channel_failure (pc_channel core) ≠ None
  end.
Proof.
  intros Hr%parent_reachable_wf. destruct p as [phase core|core e]; simpl in Hr.
  - pose proof Hr as [_ Hf Hst (_ & Hbf & Hbp)]. split_and!; [done..|].
    intros active buffers sink rx r E.
    pose proof (receive_one_moves (phase_state phase) active
      {| rx_core := core; rx_buffers := buffers; rx_sink := sink |} Hr) as Hw.
    unfold wp in Hw. rewrite E in Hw. case_bool_decide as Hp.
    + subst phase. intros ->. by destruct Hw as [_ Hw].
    + assert (Hne : phase_state phase ≠ Cancelling) by (by destruct phase).
      split; intros ->; by destruct Hw as [_ Hw].
  - destruct Hr as [Hr Hc]. split_and!; [done| |done].
    unfold rs_catalog_view, rs_is_terminal. by rewrite bool_decide_true.
Qed.
End reachable.
End parent.

(** ** Witness *)

(** A transport that delivers a script and swallows what is written. *)
Definition Script : Type := list byte.

#[local] Instance script_io : ExactIo Script := {
  io_read_exact := io_read_exact (T:=Pipe);
  io_write_all bytes s := (s, Ok (len bytes));
  io_abort s := s
}.

#[local] Existing Instance packed_image.

Definition sample_media : MediaSizes := {| media_source_size := 5; media_size_bytes := 5 |}.

Definition sample_channel : FrameChannel Script :=
  frame_channel_new 7 (raw_layout (raw_of_header (frame_header_new MT_Ready 7 0 0))).

#[local] Existing Instance log_sink.

Lemma parent_phase_agrees_witness :
  ∃ core : SessionCore Script (list byte),
    parent_reachable (K:=list byte) 1 sample_media 5 sample_limits protocol_budgets_default 4
      import_limits_default (PSession PK_Enumerating core) ∧
    sv_state (rs_protocol (pc_results core)) = Enumerating ∧ sb_pending (pc_reads core) = None.
Proof.
  destruct (perform_parent_handshake_over_window 1 sample_media 5 sample_limits
    protocol_budgets_default (sample_channel, {| fb_bytes := []; fb_usable := true |}))
    as [[c1 buffer1] [proof|e]] eqn:Eh; [|vm_compute in Eh; discriminate Eh].
  destruct (create_parser_session_with_ops proof 1 c1 sample_media 4 import_limits_default
    [x61; x62; x63; x64; x65]) as [c2 [p|e]] eqn:Ec.
  2:{ exfalso. vm_compute in Eh. injection Eh as <- _ <-. vm_compute in Ec. discriminate Ec. }
  assert (Hr : parent_reachable (K:=list byte) 1 sample_media 5 sample_limits
    protocol_budgets_default 4 import_limits_default p).
  { apply (parent_created 1 sample_media 5 sample_limits protocol_budgets_default 4
      import_limits_default sample_channel {| fb_bytes := []; fb_usable := true |} c1 buffer1 proof
      [x61; x62; x63; x64; x65] c2 p).
    - vm_compute. reflexivity.
    - exact sample_limits_ok.
    - exists 50000, (64 * 1024 * 1024), (8 * 1024 * 1024 * 1024), (32 * 1024 * 1024 * 1024).
      vm_compute. reflexivity.
    - exact Eh.
    - exact Ec. }
  destruct (parent_op (K:=list byte) PO_BeginEnumeration p) as [p'|] eqn:Em.
  2:{ exfalso. vm_compute in Eh. injection Eh as <- _ <-. vm_compute in Ec. injection Ec as _ <-.
      vm_compute in Em. discriminate Em. }
  pose proof (parent_moved _ _ _ _ _ _ _ _ _ _ Hr Em) as Hr'.
  pose proof (parent_phase_agrees _ _ _ _ _ _ _ _ Hr') as Hp.
  vm_compute in Eh. injection Eh as <- _ <-. vm_compute in Ec. injection Ec as _ <-.
  vm_compute in Em. injection Em as <-.
  eexists. split; [exact Hr'|]. destruct Hp as (Hs & _ & _ & Hb & _). split; [exact Hs|exact Hb].
Defined.
