(* ===== verification/Explode.v ===== *)
(** * The PKWARE DCL explode decoder

    [crates/ohl-isz/src/explode.rs]: the resumable decoder of the imploded
    entries of InstallShield 3 archives, its codebooks and its one-shot wrapper.
    [ExplodeSpec.v] says what an imploded stream is and proves the decoder
    against it. *)

From S2P Require Export Prelude.

(** ** [ohl_isz::Error] *)

Inductive IszLimit : Type :=
| ZL_ScanBytes | ZL_ArchiveBytes | ZL_Directories | ZL_Entries | ZL_DirectoryBytes | ZL_NameBytes
| ZL_StoredBytesPerEntry | ZL_ExpandedBytesPerEntry | ZL_TotalExpandedBytes | ZL_ChunkBytes.

(** [Source] carries the payload-free [SourceError]. *)
Inductive IszError : Type :=
| ZE_BadSignature | ZE_Truncated | ZE_OutOfRange | ZE_InvalidInput | ZE_SplitArchiveUnsupported
| ZE_NotFound | ZE_DecompressionFailed | ZE_SizeMismatch
| ZE_LimitExceeded (limit : IszLimit)
| ZE_Source | ZE_Cancelled.

#[export] Instance IszLimit_eq_dec : EqDecision IszLimit.
Proof. solve_decision. Defined.
#[export] Instance IszError_eq_dec : EqDecision IszError.
Proof. solve_decision. Defined.

(** ** Constants *)

Definition MAX_BITS : nat := 13.
Definition MAX_WINDOW : N := 4096.
Definition MAX_MATCH : N := 518.
Definition END_CODE : N := 519.
Definition MIN_DICTIONARY_CODE : N := 4.
Definition MAX_DICTIONARY_CODE : N := 6.

(** Bit lengths of the codes, run-length encoded as [(bits, repeats)]. *)
Definition LITERAL_CODE_LENGTHS : list (nat * nat) :=
  [(11, 1); (12, 8); (8, 1); (7, 1); (12, 2); (7, 1); (12, 12); (13, 1); (12, 5); (4, 1);
   (10, 1); (8, 1); (12, 1); (10, 1); (12, 1); (10, 1); (8, 1); (7, 2); (8, 1); (9, 1);
   (7, 1); (6, 1); (7, 1); (8, 1); (7, 1); (6, 1); (7, 4); (8, 1); (7, 2); (8, 2);
   (12, 1); (11, 1); (7, 1); (9, 1); (11, 1); (12, 1); (6, 1); (7, 1); (6, 2); (5, 1);
   (7, 1); (8, 2); (6, 1); (11, 1); (9, 1); (6, 1); (7, 1); (6, 2); (7, 1); (11, 1);
   (6, 3); (7, 1); (9, 1); (8, 1); (9, 2); (11, 1); (8, 1); (11, 1); (9, 1); (12, 1);
   (8, 1); (12, 1); (5, 1); (6, 3); (5, 1); (6, 3); (5, 1); (11, 1); (7, 1); (5, 1);
   (6, 1); (5, 2); (6, 1); (10, 1); (5, 4); (8, 1); (7, 1); (8, 2); (10, 1); (11, 2);
   (12, 3); (13, 48); (12, 48); (13, 1); (12, 1); (13, 3); (12, 1); (13, 3); (12, 1); (13, 4);
   (12, 1); (13, 3); (12, 3); (13, 11)]%nat.

Definition LENGTH_CODE_LENGTHS : list (nat * nat) :=
  [(2, 1); (3, 3); (4, 3); (5, 4); (6, 3); (7, 2)]%nat.
Definition DISTANCE_CODE_LENGTHS : list (nat * nat) :=
  [(2, 1); (4, 2); (5, 4); (6, 15); (7, 26); (8, 16)]%nat.

Definition LENGTH_BASE : list N := [3; 2; 4; 5; 6; 7; 8; 9; 10; 12; 16; 24; 40; 72; 136; 264].
Definition LENGTH_EXTRA : list N := [0; 0; 0; 0; 0; 0; 0; 0; 1; 2; 3; 4; 5; 6; 7; 8].

(** ** Codebooks *)

Record Huffman : Type := {
  hf_count : list N;
  hf_symbol : list N
}.

(** The passes of [construct]; every index is a bit length or a symbol. *)
Definition code_lengths (runs : list (nat * nat)) : list nat :=
  runs ≫= λ '(bits, repeats), replicate repeats bits.

Definition count_lengths (lengths : list nat) : list N :=
  foldl (λ count bits, alter N.succ bits count) (replicate (MAX_BITS + 1) 0) lengths.

Definition code_offsets (count : list N) : list N :=
  foldl (λ offsets bits,
      <[(bits + 1)%nat := nth bits offsets 0 + nth bits count 0]> offsets)
    (replicate (MAX_BITS + 2) 0) (seq 1 MAX_BITS).

(** One turn of the last pass, at a symbol of a code of [bits] bits. *)
Definition place_symbol (s : list N * list N) (entry : nat * nat) : list N * list N :=
  let '(offsets, symbol) := s in
  let '(symbol_index, bits) := entry in
  if bool_decide (bits = 0%nat) then s
  else (alter N.succ bits offsets,
        <[N.to_nat (nth bits offsets 0) := N.of_nat symbol_index]> symbol).

(** [construct::<N>]; [None] is its assertion, evaluated at compile time. *)
Definition construct (n : nat) (runs : list (nat * nat)) : option Huffman :=
  let lengths := code_lengths runs in
  if bool_decide (length lengths = n) then
    let count := count_lengths lengths in
    let '(_, symbol) := foldl place_symbol (code_offsets count, replicate n 0)
                          (imap (λ i bits, (i, bits)) lengths) in
    Some {| hf_count := count; hf_symbol := symbol |}
  else None.

Definition no_codes : Huffman := {| hf_count := []; hf_symbol := [] |}.
Definition LITERAL_CODES : Huffman :=
  Eval vm_compute in default no_codes (construct 256 LITERAL_CODE_LENGTHS).
Definition LENGTH_CODES : Huffman :=
  Eval vm_compute in default no_codes (construct 16 LENGTH_CODE_LENGTHS).
Definition DISTANCE_CODES : Huffman :=
  Eval vm_compute in default no_codes (construct 64 DISTANCE_CODE_LENGTHS).

(** ** The bit reader *)

Inductive TokenStop : Type := NeedMoreInput | TS_Failed.

Record BitReader : Type := {
  br_input : list byte;
  br_position : N;
  br_buffer : N;
  br_count : N
}.

(** The loop of [take]: at most one byte for each bit needed. *)
Fixpoint refill (fuel : nat) (need : N) : M BitReader TokenStop unit :=
  match fuel with
  | O => mret tt
  | S fuel =>
      self ← get;
      if br_count self <? need then
        match br_input self !! N.to_nat (br_position self) with
        | None => throw NeedMoreInput
        | Some byte =>
            modify (λ self,
              {| br_input := br_input self;
                 br_position := br_position self + 1;
                 br_buffer := N.lor (br_buffer self)
                                (N.shiftl (Byte.to_N byte) (br_count self) mod 2 ^ 32);
                 br_count := br_count self + 8 |});;
            refill fuel need
        end
      else mret tt
  end.

Definition bit_take (need : N) : M BitReader TokenStop N :=
  refill (N.to_nat need) need;;
  self ← get;
  let value := N.land (br_buffer self) (N.shiftl 1 need - 1) in
  modify (λ self,
    {| br_input := br_input self; br_position := br_position self;
       br_buffer := N.shiftr (br_buffer self) need;
       br_count := br_count self - need |});;
  mret value.

(** The loop of [decode], from code length [bits] on. *)
Fixpoint decode_from (codes : Huffman) (turns bits : nat) (code first index : Z)
  : M BitReader TokenStop N :=
  match turns with
  | O => throw TS_Failed
  | S turns =>
      bit ← bit_take 1;
      let code := Z.lor code (if bit =? 0 then 1 else 0) in
      let count := Z.of_N (nth bits (hf_count codes) 0) in
      if (code <? first + count)%Z then
        let at_ := (index + (code - first))%Z in
        if (at_ <? 0)%Z then throw TS_Failed
        else
          match hf_symbol codes !! Z.to_nat at_ with
          | Some symbol => mret symbol
          | None => throw TS_Failed
          end
      else decode_from codes turns (S bits) (Z.shiftl code 1) (Z.shiftl (first + count) 1)
             (index + count)
  end.

Definition huffman_decode (codes : Huffman) : M BitReader TokenStop N :=
  decode_from codes MAX_BITS 1 0 0 0.

(** ** The decoder *)

Record Progress : Type := {
  pg_consumed : N;
  pg_finished : bool
}.

Record Explode : Type := {
  ex_coded_literals : bool;
  ex_distance_bits : N;
  ex_window : list byte;
  ex_window_position : N;
  ex_total_output : N;
  ex_saved_buffer : N;
  ex_saved_count : N;
  ex_header_read : bool;
  ex_finished : bool
}.

Definition explode_new : Explode :=
  {| ex_coded_literals := false; ex_distance_bits := 0;
     ex_window := replicate (N.to_nat MAX_WINDOW) x00; ex_window_position := 0;
     ex_total_output := 0; ex_saved_buffer := 0; ex_saved_count := 0;
     ex_header_read := false; ex_finished := false |}.

Definition dictionary_size (self : Explode) : N :=
  if ex_header_read self then N.shiftl 1 (ex_distance_bits self + 6) else 0.

Definition put_header (coded : bool) (distance_bits : N) (s : Explode) : Explode :=
  let (_, _, w, p, t, b, c, _, f) := s in Build_Explode coded distance_bits w p t b c true f.
Definition put_window (w : list byte) (p t : N) (s : Explode) : Explode :=
  let (l, d, _, _, _, b, c, h, f) := s in Build_Explode l d w p t b c h f.
Definition put_saved (b c : N) (s : Explode) : Explode :=
  let (l, d, w, p, t, _, _, h, f) := s in Build_Explode l d w p t b c h f.
Definition put_finished (x : bool) (s : Explode) : Explode :=
  let (l, d, w, p, t, b, c, h, _) := s in Build_Explode l d w p t b c h x.

(** The decoder, its reader and the output buffer, all [&mut] to a token. *)
Abbreviation Decoding := (Explode * BitReader * list byte)%type.
Abbreviation TM A := (M Decoding TokenStop A).

Definition on_reader {A} (m : M BitReader TokenStop A) : TM A :=
  zoom (λ s, s.1.2) (λ r s, (s.1.1, r, s.2)) m.

Definition ex_push (byte : byte) : TM unit :=
  modify (λ '(self, reader, out),
    (put_window (<[N.to_nat (ex_window_position self) := byte]> (ex_window self))
       ((ex_window_position self + 1) mod MAX_WINDOW)
       (saturating_add 64 (ex_total_output self) 1) self,
     reader, out ++ [byte])).

Fixpoint copy_bytes (length : nat) (distance : N) : TM unit :=
  match length with
  | O => mret tt
  | S length =>
      self ← get;
      let from := (ex_window_position self.1.1 + MAX_WINDOW - distance) mod MAX_WINDOW in
      ex_push (nth (N.to_nat from) (ex_window self.1.1) x00);;
      copy_bytes length distance
  end.

Definition ex_copy (distance length : N) : TM bool :=
  self ← get;
  if (ex_total_output self.1.1 <? distance) || (MAX_WINDOW <? distance)
  then throw TS_Failed
  else copy_bytes (N.to_nat length) distance;; mret false.

(** [u8::try_from] of a decoded literal. *)
Definition literal_byte (literal : N) : result TokenStop byte :=
  ok_or (Byte.of_N literal) TS_Failed.

Definition ex_token : TM bool :=
  self ← get;
  tag ← on_reader (bit_take 1);
  if tag =? 0 then
    literal ← on_reader (if ex_coded_literals self.1.1 then huffman_decode LITERAL_CODES
                         else bit_take 8);
    literal ← lift (literal_byte literal);
    ex_push literal;;
    mret false
  else
    symbol ← on_reader (huffman_decode LENGTH_CODES);
    let length_symbol := N.to_nat (N.land symbol 15) in
    extra ← on_reader (bit_take (nth length_symbol LENGTH_EXTRA 0));
    let length := nth length_symbol LENGTH_BASE 0 + extra in
    if length =? END_CODE then mret true
    else
      let shift := if length =? 2 then 2 else ex_distance_bits self.1.1 in
      distance_symbol ← on_reader (huffman_decode DISTANCE_CODES);
      low ← on_reader (bit_take shift);
      ex_copy (N.lor (N.shiftl distance_symbol shift) low + 1) length.

Definition ex_save : M Decoding IszError unit :=
  modify (λ '(self, reader, out),
    (put_saved (br_buffer reader) (br_count reader) self, reader, out)).

Definition ex_suspend (last : bool) : result IszError Progress :=
  if last then Err ZE_DecompressionFailed
  else Ok {| pg_consumed := 0; pg_finished := false |}.

(** The [loop] of [decode]; [true] is its return with the end code. Every turn
    but the last appends to the buffer, so [out_budget] turns are enough. *)
Fixpoint decode_loop (turns : nat) (last : bool) (out_budget : N) : M Decoding IszError bool :=
  match turns with
  | O => mret false
  | S turns =>
      self ← get;
      if out_budget <? len self.2 + MAX_MATCH then mret false
      else
        let restart := self.1.2 in
        token ← attempt ex_token;
        match token with
        | Ok true =>
            modify (λ '(self, reader, out), (put_finished true self, reader, out));;
            ex_save;; mret true
        | Ok false => ex_save;; decode_loop turns last out_budget
        | Err TS_Failed => throw ZE_DecompressionFailed
        | Err NeedMoreInput =>
            modify (λ '(self, _, out), (self, restart, out));;
            if last then throw ZE_DecompressionFailed else mret false
        end
  end.

(** The header, read from scratch in every call until both bytes are there;
    [None] is [suspend]. *)
Definition read_stream_header : M Decoding IszError (option unit) :=
  self ← get;
  if ex_header_read self.1.1 then mret (Some tt)
  else
    literal_flag ← attempt (on_reader (bit_take 8));
    dictionary ← attempt (on_reader (bit_take 8));
    match literal_flag, dictionary with
    | Ok literal_flag, Ok dictionary =>
        if 1 <? literal_flag then throw ZE_DecompressionFailed
        else
          dictionary ← lift (ok_or (try_from 8 dictionary) ZE_DecompressionFailed);
          if negb ((MIN_DICTIONARY_CODE <=? dictionary) && (dictionary <=? MAX_DICTIONARY_CODE))
          then throw ZE_DecompressionFailed
          else
            modify (λ '(self, reader, out),
              (put_header (literal_flag =? 1) dictionary self, reader, out));;
            ex_save;;
            mret (Some tt)
    | _, _ => mret None
    end.

(** [decode] over the decoder and the caller's output buffer. *)
Definition ex_decode (input : list byte) (last : bool) (out_budget : N)
  : M (Explode * list byte) IszError Progress := λ '(self, out),
  if out_budget <? MAX_MATCH then ((self, out), Err ZE_InvalidInput)
  else if ex_finished self then
    ((self, out), Ok {| pg_consumed := 0; pg_finished := true |})
  else
    let reader := {| br_input := input; br_position := 0;
                     br_buffer := ex_saved_buffer self; br_count := ex_saved_count self |} in
    let '((self, _, out), r) :=
      (header ← read_stream_header;
       match header with
       | None => lift (ex_suspend last)
       | Some _ =>
           finished ← decode_loop (N.to_nat out_budget) last out_budget;
           (if finished : bool then mret tt else ex_save);;
           self ← get;
           mret {| pg_consumed := br_position self.1.2; pg_finished := finished |}
       end) (self, reader, out) in
    ((self, out), r).

(** The [loop] of [explode_to_vec]; [None] is out of fuel. *)
Fixpoint explode_loop (fuel : nat) (input : list byte) (max_output : N)
    (decoder : Explode) (out : list byte) (consumed : N) : option (result IszError (list byte)) :=
  match fuel with
  | O => None
  | S fuel =>
      match ex_decode (drop (N.to_nat consumed) input) true max_output (decoder, out) with
      | (_, Err e) => Some (Err e)
      | ((decoder, out), Ok progress) =>
          let consumed := consumed + pg_consumed progress in
          if pg_finished progress then Some (Ok out)
          else if max_output <? len out + MAX_MATCH then Some (Err ZE_DecompressionFailed)
          else if pg_consumed progress =? 0 then Some (Err ZE_DecompressionFailed)
          else explode_loop fuel input max_output decoder out consumed
      end
  end.

Definition explode_to_vec (fuel : nat) (input : list byte) (max_output : N)
  : option (result IszError (list byte)) :=
  if max_output <? MAX_MATCH then Some (Err ZE_InvalidInput)
  else explode_loop fuel input max_output explode_new [] 0.

(** ** Codes of symbols *)

(** [encode_symbol]: the natural code of a symbol and its length in bits. *)
Definition encode_symbol (codes : Huffman) (symbol : N) : option (N * nat) :=
  snd (foldl (λ '((index, first), found) bits,
    let count := nth bits (hf_count codes) 0 in
    ((index + count, N.shiftl (first + count) 1),
     match found with
     | Some _ => found
     | None =>
         '(offset, _) ← list_find (λ at_, at_ = symbol)
                          (subslice index count (hf_symbol codes));
         Some (first + N.of_nat offset, bits)
     end)) ((0, 0), None) (seq 1 MAX_BITS)).
