(* ===== verification/ExplodeSpec.v ===== *)
(** * Imploded streams

    What an imploded stream is, bit by bit and token by token, and the proof
    that [Explode.v] decodes exactly those: in one go, and in any division of
    the stream into chunks and of the output into buffers. *)

From S2P Require Export Explode.

(** ** Bits *)

(** The [n] low bits of a number, least significant first. *)
Fixpoint low_bits (n : nat) (v : N) : list bool :=
  match n with
  | O => []
  | S n => N.odd v :: low_bits n (N.div2 v)
  end.

(** The bits of a stream: of each byte, the least significant first. *)
Definition bits_of (l : list byte) : list bool := l ≫= λ b, low_bits 8 (Byte.to_N b).

(** ** Codes *)

(** The word of a symbol: its natural code from the most significant bit on,
    every bit inverted. *)
Definition codeword (codes : Huffman) (symbol : N) : list bool :=
  match encode_symbol codes symbol with
  | Some (code, bits) => negb <$> reverse (low_bits bits code)
  | None => []
  end.

(** ** Tokens *)

Inductive Token : Type :=
| TLiteral (b : byte)
| TMatch (length distance : N)
| TEnd.

#[export] Instance Token_eq_dec : EqDecision Token.
Proof. solve_decision. Defined.

(** [token_word coded dictionary tok w]: the bits [w] spell [tok] in a stream
    with these two header values. *)
Inductive token_word (coded : bool) (dictionary : N) : Token → list bool → Prop :=
| W_literal b :
    token_word coded dictionary (TLiteral b)
      (false :: if coded then codeword LITERAL_CODES (Byte.to_N b) else low_bits 8 (Byte.to_N b))
| W_match symbol base bits extra shift high low :
    LENGTH_BASE !! N.to_nat symbol = Some base →
    LENGTH_EXTRA !! N.to_nat symbol = Some bits →
    extra < 2 ^ bits → base + extra ≠ 519 →
    shift = (if base + extra =? 2 then 2 else dictionary) →
    high < 64 → low < 2 ^ shift →
    token_word coded dictionary (TMatch (base + extra) (high * 2 ^ shift + low + 1))
      (true :: codeword LENGTH_CODES symbol ++ low_bits (N.to_nat bits) extra ++
       codeword DISTANCE_CODES high ++ low_bits (N.to_nat shift) low)
| W_end symbol base bits extra :
    LENGTH_BASE !! N.to_nat symbol = Some base →
    LENGTH_EXTRA !! N.to_nat symbol = Some bits →
    extra < 2 ^ bits → base + extra = 519 →
    token_word coded dictionary TEnd
      (true :: codeword LENGTH_CODES symbol ++ low_bits (N.to_nat bits) extra).

(** The words of a sequence of tokens that does not end the stream. *)
Inductive tokens_word (coded : bool) (dictionary : N) : list Token → list bool → Prop :=
| Ws_nil : tokens_word coded dictionary [] []
| Ws_cons tok toks w ws :
    token_word coded dictionary tok w → tok ≠ TEnd →
    tokens_word coded dictionary toks ws →
    tokens_word coded dictionary (tok :: toks) (w ++ ws).

Definition expand_token (out : list byte) (tok : Token) : option (list byte) :=
  match tok with
  | TLiteral b => Some (out ++ [b])
  | TMatch length distance => copied (N.to_nat length) distance out
  | TEnd => Some out
  end.

Fixpoint expand (out : list byte) (toks : list Token) : option (list byte) :=
  match toks with
  | [] => Some out
  | tok :: toks => out ← expand_token out tok; expand out toks
  end.

(** [exploded input out]: [input] starts with an imploded stream, and [out] is
    what it expands to. *)
Definition exploded (input out : list byte) : Prop :=
  ∃ coded dictionary toks ws wend rest,
    4 ≤ dictionary ≤ 6 ∧
    bits_of input = low_bits 8 (if coded : bool then 1 else 0) ++ low_bits 8 dictionary ++
                    ws ++ wend ++ rest ∧
    tokens_word coded dictionary toks ws ∧ token_word coded dictionary TEnd wend ∧
    expand [] toks = Some out.

(** ** Lemmas on bits *)

Lemma length_low_bits n v : length (low_bits n v) = n.
Proof. revert v; induction n; intros; simpl; auto. Qed.

Lemma low_bits_app m n a b :
  a < 2 ^ N.of_nat m → low_bits (m + n) (a + 2 ^ N.of_nat m * b) = low_bits m a ++ low_bits n b.
Proof.
  revert a; induction m as [|m IH]; intros a Ha.
  { cbn in Ha. replace a with 0 by lia. cbn [N.of_nat plus low_bits app]. f_equal. lia. }
  rewrite Nat2N.inj_succ, N.pow_succ_r' in *. cbn [plus low_bits app]. f_equal.
  - rewrite N.odd_add, <-N.mul_assoc, N.odd_mul. simpl (N.odd 2). by rewrite xorb_false_r.
  - rewrite <-IH.
    + f_equal. rewrite !N.div2_div, <-N.mul_assoc, (N.mul_comm 2), N.div_add by lia. done.
    + rewrite N.div2_div. apply N.Div0.div_lt_upper_bound. lia.
Qed.

Lemma low_bits_inj n a b :
  a < 2 ^ N.of_nat n → b < 2 ^ N.of_nat n → low_bits n a = low_bits n b → a = b.
Proof.
  revert a b; induction n as [|n IH]; intros a b.
  { cbn. lia. }
  rewrite Nat2N.inj_succ, N.pow_succ_r'. cbn [low_bits]. intros Ha Hb [= Ho Hd].
  apply IH in Hd; [|rewrite N.div2_div; apply N.Div0.div_lt_upper_bound; lia..].
  rewrite (N.div2_odd a), (N.div2_odd b). by rewrite Ho, Hd.
Qed.

Lemma bits_of_app l k : bits_of (l ++ k) = bits_of l ++ bits_of k.
Proof. apply bind_app. Qed.

Lemma bits_of_cons b l : bits_of (b :: l) = low_bits 8 (Byte.to_N b) ++ bits_of l.
Proof. done. Qed.

Lemma land_low a n : N.land a (N.shiftl 1 n - 1) = a mod 2 ^ n.
Proof. rewrite N.shiftl_1_l, N.sub_1_r, <-N.ones_equiv. apply N.land_ones. Qed.

#[global] Arguments low_bits : simpl never.

(** ** Readers *)

(** The bits a reader has left. *)
Definition reader_bits (r : BitReader) : list bool :=
  low_bits (N.to_nat (br_count r)) (br_buffer r) ++ bits_of (drop (N.to_nat (br_position r)) (br_input r)).

Definition reader_wf (r : BitReader) : Prop :=
  br_buffer r < 2 ^ br_count r ∧ br_position r ≤ len (br_input r).

Lemma refill_spec fuel need r :
  need ≤ 16 → need ≤ br_count r + 8 * N.of_nat fuel → reader_wf r →
  match refill fuel need r with
  | (r', Ok _) => reader_wf r' ∧ reader_bits r' = reader_bits r ∧ br_input r' = br_input r ∧
      need ≤ br_count r' ∧ br_count r' < N.max (br_count r + 1) (need + 8)
  | (_, Err e) => e = NeedMoreInput ∧ N.of_nat (length (reader_bits r)) < need
  end.
Proof.
  intros Hneed. revert r; induction fuel as [|fuel IH]; intros r Hf [Hb Hp]; simpl.
  { split_and!; try done; lia. }
  unfold mbind, M_bind, get. destruct (N.ltb_spec (br_count r) need) as [Hlt|Hge];
    [|simpl; split_and!; try done; lia].
  destruct (br_input r !! N.to_nat (br_position r)) as [b|] eqn:Eb.
  - unfold modify. set (r1 := Build_BitReader _ _ _ _).
    assert (Hbyte := byte_to_N_lt b).
    assert (Hbuf : br_buffer r1 = br_buffer r + 2 ^ br_count r * Byte.to_N b).
    { subst r1. cbn [br_buffer]. rewrite N.mod_small, lor_shiftl; [done..|].
      rewrite N.shiftl_mul_pow2. apply N.lt_le_trans with (2 ^ 8 * 2 ^ br_count r); [|].
      - apply N.mul_lt_mono_pos_r; [|exact Hbyte]. apply N.neq_0_lt_0, N.pow_nonzero. lia.
      - rewrite <-N.pow_add_r. apply N.pow_le_mono_r; lia. }
    assert (Hwf1 : reader_wf r1).
    { split.
      - rewrite Hbuf. subst r1. cbn [br_count]. rewrite N.pow_add_r. nia.
      - subst r1. cbn [br_position br_input]. apply lookup_lt_Some in Eb. unfold len in *. lia. }
    assert (Hbits : reader_bits r1 = reader_bits r).
    { unfold reader_bits. rewrite Hbuf. subst r1. cbn [br_count br_position br_input].
      rewrite N2Nat.inj_add.
      rewrite <-(N2Nat.id (br_count r)) at 2. rewrite low_bits_app by by rewrite N2Nat.id.
      rewrite <-app_assoc. f_equal.
      rewrite (drop_S _ _ _ Eb), bits_of_cons.
      by replace (N.to_nat (br_position r + 1)) with (S (N.to_nat (br_position r))) by lia. }
    specialize (IH r1). assert (Hc : br_count r1 = br_count r + 8) by done.
    destruct (refill fuel need r1) as [r' [u|e]].
    + destruct IH as (H1 & H2 & H3 & H4 & H5); [lia|done|]. rewrite H2, H3.
      split_and!; try done; try lia.
    + rewrite <-Hbits. apply IH; [lia|done].
  - simpl. split; [done|]. unfold reader_bits.
    apply lookup_ge_None in Eb. rewrite drop_ge by lia.
    rewrite app_nil_r, length_low_bits. lia.
Qed.

(** A method that reads one word: it takes exactly a word of its result off the
    front, and lacks input only if no word is there. *)
Definition parses {A} (m : M BitReader TokenStop A) (P : A → list bool → Prop) : Prop :=
  ∀ r, reader_wf r → br_count r < 8 →
    match m r with
    | (r', Ok a) => reader_wf r' ∧ br_count r' < 8 ∧ br_input r' = br_input r ∧
        ∃ w, P a w ∧ reader_bits r = w ++ reader_bits r'
    | (_, Err NeedMoreInput) => ∀ a w rest, P a w → reader_bits r ≠ w ++ rest
    | (_, Err TS_Failed) => False
    end.

(** No word is the beginning of another. *)
Definition prefix_free {A} (P : A → list bool → Prop) : Prop :=
  ∀ a a' w w' t t', P a w → P a' w' → w ++ t = w' ++ t' → a = a' ∧ w = w'.

Definition raw_word (n : N) (v : N) (w : list bool) : Prop :=
  v < 2 ^ n ∧ w = low_bits (N.to_nat n) v.

Lemma bit_take_parses need : need ≤ 16 → parses (bit_take need) (raw_word need).
Proof.
  intros Hneed r Hwf Hc. unfold bit_take, mbind, M_bind.
  pose proof (refill_spec (N.to_nat need) need r Hneed ltac:(lia) Hwf) as H.
  destruct (refill (N.to_nat need) need r) as [r1 [u|e]].
  - destruct H as ([Hb Hp] & Hbits & Hin & Hge & Hlt). unfold get, modify. simpl.
    rewrite land_low, N.shiftr_div_pow2.
    assert (Hmod := N.mod_lt (br_buffer r1) (2 ^ need) ltac:(by apply N.pow_nonzero)).
    assert (Hdiv := N.div_mod (br_buffer r1) (2 ^ need) ltac:(by apply N.pow_nonzero)).
    assert (Hpow : 2 ^ br_count r1 = 2 ^ need * 2 ^ (br_count r1 - need)).
    { rewrite <-N.pow_add_r. f_equal. lia. }
    split_and!.
    + split; cbn [br_buffer br_count br_position br_input]; [|done].
      apply N.Div0.div_lt_upper_bound. by rewrite <-Hpow.
    + cbn [br_count]. lia.
    + done.
    + exists (low_bits (N.to_nat need) (br_buffer r1 mod 2 ^ need)). split; [by split|].
      rewrite <-Hbits. unfold reader_bits. cbn [br_buffer br_count br_position br_input].
      rewrite app_assoc. f_equal. rewrite <-low_bits_app by by rewrite N2Nat.id.
      rewrite N2Nat.id. f_equal; [lia|]. lia.
  - destruct H as [-> H]. intros a w rest [_ ->] E. rewrite E, length_app, length_low_bits in H. lia.
Qed.

Lemma raw_word_free n : prefix_free (raw_word n).
Proof.
  intros a a' w w' t t' [Ha ->] [Ha' ->] E.
  apply app_inj_1 in E as [E _]; [|by rewrite !length_low_bits].
  split; [|done]. eapply low_bits_inj; [| |exact E]; by rewrite N2Nat.id.
Qed.

(** *** Sequences of words *)

Definition seq_word {A B} (P : A → list bool → Prop) (Q : A → B → list bool → Prop)
    (b : B) (w : list bool) : Prop :=
  ∃ a w1 w2, P a w1 ∧ Q a b w2 ∧ w = w1 ++ w2.

Lemma seq_word_free {A B} (P : A → list bool → Prop) (Q : A → B → list bool → Prop) :
  prefix_free P → (∀ a, prefix_free (Q a)) → prefix_free (seq_word P Q).
Proof.
  intros HP HQ b b' w w' t t' (a & w1 & w2 & H1 & H2 & ->) (a' & w1' & w2' & H1' & H2' & ->) E.
  rewrite <-!app_assoc in E. destruct (HP _ _ _ _ _ _ H1 H1' E) as [-> ->].
  apply app_inv_head in E. by destruct (HQ _ _ _ _ _ _ _ H2 H2' E) as [-> ->].
Qed.

Lemma word_parse_bind {A B} (m : M BitReader TokenStop A) (k : A → M BitReader TokenStop B) P Q :
  prefix_free P → parses m P → (∀ a w, P a w → parses (k a) (Q a)) →
  parses (m ≫= k) (seq_word P Q).
Proof.
  intros Hfree Hm Hk r Hwf Hc. unfold mbind, M_bind. specialize (Hm r Hwf Hc).
  destruct (m r) as [r1 [a|[]]]; [| |done].
  - destruct Hm as (Hwf1 & Hc1 & Hin1 & w1 & Hw1 & E1).
    specialize (Hk a w1 Hw1 r1 Hwf1 Hc1). destruct (k a r1) as [r2 [b|[]]]; [| |done].
    + destruct Hk as (Hwf2 & Hc2 & Hin2 & w2 & Hw2 & E2). split_and!; [done..|by etrans|].
      exists (w1 ++ w2). split; [by exists a, w1, w2|]. by rewrite <-app_assoc, <-E2.
    + intros b w rest (a' & w1' & w2' & H1 & H2 & ->) E. rewrite E1, <-app_assoc in E.
      destruct (Hfree _ _ _ _ _ _ Hw1 H1 E) as [-> ->]. apply app_inv_head in E.
      by eapply Hk.
  - intros b w rest (a' & w1' & w2' & H1 & H2 & ->) E. rewrite <-app_assoc in E. by eapply Hm.
Qed.

Lemma word_parse_ret {A} (a : A) : parses (mret a) (λ a' w, a' = a ∧ w = []).
Proof. intros r Hwf Hc. split_and!; [done..|]. by exists []. Qed.

(** *** A choice by one bit *)

Definition choice_word {A} (P Q : A → list bool → Prop) (a : A) (w : list bool) : Prop :=
  match w with [] => False | bit :: w => if bit then Q a w else P a w end.

Lemma choice_word_free {A} (P Q : A → list bool → Prop) :
  prefix_free P → prefix_free Q → prefix_free (choice_word P Q).
Proof.
  intros HP HQ a a' [|b w] [|b' w'] t t'; try done. intros Ha Ha' [= <- E].
  destruct b; [destruct (HQ _ _ _ _ _ _ Ha Ha' E)|destruct (HP _ _ _ _ _ _ Ha Ha' E)];
    by subst.
Qed.

Lemma parses_choice {A} (k : N → M BitReader TokenStop A) P Q :
  parses (k 0) P → parses (k 1) Q → parses (bit ← bit_take 1; k bit) (choice_word P Q).
Proof.
  intros H0 H1 r Hwf Hc. unfold mbind, M_bind.
  pose proof (bit_take_parses 1 ltac:(lia) r Hwf Hc) as Ht.
  destruct (bit_take 1 r) as [r1 [bit|[]]]; [| |done].
  - destruct Ht as (Hwf1 & Hc1 & Hin1 & w1 & [Hbit ->] & Er). rewrite Er.
    assert (bit = 0 ∨ bit = 1) as [-> | ->] by (cbn in Hbit; lia);
      [specialize (H0 r1 Hwf1 Hc1); destruct (k 0 r1) as [r2 [a|[]]]
      |specialize (H1 r1 Hwf1 Hc1); destruct (k 1 r1) as [r2 [a|[]]]]; try done.
    1: destruct H0 as (? & ? & ? & w & Hw & Ew).
    3: destruct H1 as (? & ? & ? & w & Hw & Ew).
    1: split_and!; [done..|by etrans|exists (false :: w); by rewrite Ew].
    2: split_and!; [done..|by etrans|exists (true :: w); by rewrite Ew].
    all: intros a [|[] w] rest Hw E; try done; injection E as E.
    + by eapply H0.
    + by eapply H1.
  - intros a [|b w] rest Hw E; [done|].
    apply (Ht (if b then 1 else 0) [b] (w ++ rest)); [by destruct b|exact E].
Qed.

(** ** Codebooks *)

Inductive CodeTree : Type :=
| Leaf (symbol : N)
| Node (zero one : CodeTree).

Fixpoint tree_word (tree : CodeTree) : N → list bool → Prop :=
  match tree with
  | Leaf s => λ symbol w, symbol = s ∧ w = []
  | Node zero one => choice_word (tree_word zero) (tree_word one)
  end.

Fixpoint tree_words (tree : CodeTree) : list (list bool * N) :=
  match tree with
  | Leaf s => [([], s)]
  | Node zero one =>
      map (λ '(w, s), (false :: w, s)) (tree_words zero) ++
      map (λ '(w, s), (true :: w, s)) (tree_words one)
  end.

Fixpoint tree_height (tree : CodeTree) : nat :=
  match tree with Leaf _ => 0 | Node zero one => S (Nat.max (tree_height zero) (tree_height one)) end.

(** What [decode_from] does with one more bit, as a tree; [rest] is the tree of
    its longer codes. *)
Definition code_branch (codes : Huffman) (bits : nat) (code first index : Z)
    (rest : Z → option CodeTree) (bit : N) : option CodeTree :=
  let code := Z.lor code (if bit =? 0 then 1 else 0) in
  let count := Z.of_N (nth bits (hf_count codes) 0) in
  if (code <? first + count)%Z then
    let at_ := (index + (code - first))%Z in
    if (at_ <? 0)%Z then None else Leaf <$> hf_symbol codes !! Z.to_nat at_
  else rest code.

(** The tree below a state of [decode_from], or [None] if some path runs out of
    code lengths or of symbols. *)
Fixpoint code_tree (codes : Huffman) (turns bits : nat) (code first index : Z)
  : option CodeTree :=
  match turns with
  | O => None
  | S turns =>
      let rest code :=
        let count := Z.of_N (nth bits (hf_count codes) 0) in
        code_tree codes turns (S bits) (Z.shiftl code 1) (Z.shiftl (first + count) 1)
          (index + count) in
      zero ← code_branch codes bits code first index rest 0;
      one ← code_branch codes bits code first index rest 1;
      Some (Node zero one)
  end.

Lemma tree_word_free tree : prefix_free (tree_word tree).
Proof.
  induction tree as [s|zero IH0 one IH1]; simpl.
  - by intros a a' w w' t t' [-> ->] [-> ->].
  - by apply choice_word_free.
Qed.

Lemma decode_from_parses codes turns bits code first index tree :
  code_tree codes turns bits code first index = Some tree →
  parses (decode_from codes turns bits code first index) (tree_word tree).
Proof.
  revert bits code first index tree. induction turns as [|turns IH]; [done|].
  intros bits code first index tree. cbn [code_tree decode_from].
  destruct (code_branch _ _ _ _ _ _ 0) as [zero|] eqn:E0; [|done].
  destruct (code_branch _ _ _ _ _ _ 1) as [one|] eqn:E1; [|done].
  intros [= <-]. cbn [tree_word]. apply parses_choice.
  1: revert zero E0. 2: revert one E1.
  all: unfold code_branch; cbv zeta; intros sub E; destruct (_ <? _)%Z; [|by apply IH];
    destruct (_ <? 0)%Z; [done|]; destruct (hf_symbol codes !! _) as [s|]; [|done];
    injection E as <-; apply word_parse_ret.
Qed.

Lemma tree_word_In tree symbol w : tree_word tree symbol w ↔ In (w, symbol) (tree_words tree).
Proof.
  revert w. induction tree as [s|zero IH0 one IH1]; intros w; simpl.
  - split; [intros [-> ->]; by left|intros [[= <- <-]|[]]; done].
  - rewrite in_app_iff, !in_map_iff. split.
    + destruct w as [|[] w]; simpl; [done|rewrite IH1|rewrite IH0]; intros Hi;
        [right|left]; by exists (w, symbol).
    + by intros [([w' s'] & [= <- <-] & Hi)|([w' s'] & [= <- <-] & Hi)]; [apply IH0|apply IH1].
Qed.

(** A codebook of [n] symbols is good if its codes form a full tree, whose
    words are the codewords of exactly these symbols. *)
Definition codebook_good (codes : Huffman) (n : nat) : bool :=
  match code_tree codes MAX_BITS 1 0 0 0 with
  | None => false
  | Some tree =>
      (tree_height tree <=? 13)%nat &&
      forallb (λ '(w, s), bool_decide (w = codeword codes s) && (s <? N.of_nat n)) (tree_words tree) &&
      forallb (λ i, bool_decide ((codeword codes (N.of_nat i), N.of_nat i) ∈ tree_words tree)) (seq 0 n)
  end.

Definition symbol_word (codes : Huffman) (n : N) (symbol : N) (w : list bool) : Prop :=
  symbol < n ∧ w = codeword codes symbol.

Lemma codebook_tree codes n :
  codebook_good codes n = true →
  ∃ tree, (tree_height tree ≤ 13)%nat ∧
    (∀ s w, symbol_word codes (N.of_nat n) s w ↔ tree_word tree s w) ∧
    code_tree codes MAX_BITS 1 0 0 0 = Some tree.
Proof.
  unfold codebook_good. destruct (code_tree _ _ _ _ _ _) as [tree|] eqn:E; [|done].
  intros [[Hh%Nat.leb_le Hall]%andb_true_iff Hex]%andb_true_iff. rewrite forallb_forall in Hall, Hex.
  exists tree. split_and!; [done| |done]. intros s w. rewrite tree_word_In. split.
  - intros [Hs ->]. specialize (Hex (N.to_nat s)). rewrite in_seq in Hex.
    specialize (Hex ltac:(lia)). rewrite N2Nat.id in Hex.
    by apply bool_decide_eq_true, list_elem_of_In in Hex.
  - intros Hi. specialize (Hall _ Hi). cbn in Hall.
    apply andb_true_iff in Hall as [Hw Hs]. apply bool_decide_eq_true in Hw.
    apply N.ltb_lt in Hs. by split.
Qed.

Lemma codebook_parses codes n :
  codebook_good codes n = true →
  parses (huffman_decode codes) (symbol_word codes (N.of_nat n)) ∧
  prefix_free (symbol_word codes (N.of_nat n)).
Proof.
  intros (tree & _ & Heq & E)%codebook_tree. apply decode_from_parses in E. split.
  - intros r Hwf Hc. specialize (E r Hwf Hc). fold (huffman_decode codes) in E.
    destruct (huffman_decode codes r) as [r' [s|[]]]; [| |done].
    + destruct E as (? & ? & ? & w & Hw & ?). split_and!; [done..|]. exists w. by rewrite Heq.
    + intros s w rest Hw%Heq. by apply (E s).
  - intros s s' w w' t t' Hs%Heq Hs'%Heq. by apply (tree_word_free tree).
Qed.

(** The three codebooks are what [construct] makes of the tables, and good. *)
Lemma codebooks_constructed :
  construct 256 LITERAL_CODE_LENGTHS = Some LITERAL_CODES ∧
  construct 16 LENGTH_CODE_LENGTHS = Some LENGTH_CODES ∧
  construct 64 DISTANCE_CODE_LENGTHS = Some DISTANCE_CODES.
Proof. by vm_compute. Qed.

Lemma literal_codes_good : codebook_good LITERAL_CODES 256 = true.
Proof. by vm_compute. Qed.
Lemma length_codes_good : codebook_good LENGTH_CODES 16 = true.
Proof. by vm_compute. Qed.
Lemma distance_codes_good : codebook_good DISTANCE_CODES 64 = true.
Proof. by vm_compute. Qed.

(** ** Tokens *)

(** The reading half of [ex_token], and what it does with the token read. *)
Definition parse_token (coded : bool) (dictionary : N) : M BitReader TokenStop Token :=
  tag ← bit_take 1;
  if tag =? 0 then
    literal ← (if coded then huffman_decode LITERAL_CODES else bit_take 8);
    literal ← lift (literal_byte literal);
    mret (TLiteral literal)
  else
    symbol ← huffman_decode LENGTH_CODES;
    let length_symbol := N.to_nat (N.land symbol 15) in
    extra ← bit_take (nth length_symbol LENGTH_EXTRA 0);
    let length := nth length_symbol LENGTH_BASE 0 + extra in
    if length =? END_CODE then mret TEnd
    else
      let shift := if length =? 2 then 2 else dictionary in
      distance_symbol ← huffman_decode DISTANCE_CODES;
      low ← bit_take shift;
      mret (TMatch length (N.lor (N.shiftl distance_symbol shift) low + 1)).

Definition apply_token (tok : Token) : TM bool :=
  match tok with
  | TLiteral b => ex_push b;; mret false
  | TMatch length distance => ex_copy distance length
  | TEnd => mret true
  end.

Lemma ex_token_split self r out :
  ex_token (self, r, out) =
    match parse_token (ex_coded_literals self) (ex_distance_bits self) r with
    | (r, Ok tok) => apply_token tok (self, r, out)
    | (r, Err e) => ((self, r, out), Err e)
    end.
Proof.
  unfold ex_token, parse_token, on_reader, zoom, lift, get, mbind, M_bind. cbv beta iota zeta delta [fst snd].
  destruct (bit_take 1 r) as [r1 [tag|e]]; [|done]. destruct (tag =? 0).
  - generalize (if ex_coded_literals self then huffman_decode LITERAL_CODES else bit_take 8).
    intros m. cbv beta iota zeta delta [fst snd]. destruct (m r1) as [r2 [l|e]]; [|done]. by destruct (literal_byte l).
  - cbv beta iota zeta delta [fst snd]. destruct (huffman_decode LENGTH_CODES r1) as [r2 [symbol|e]]; [|done]. cbv beta iota zeta delta [fst snd].
    destruct (bit_take (nth _ LENGTH_EXTRA 0) r2) as [r3 [extra|e]]; [|done]. cbv beta iota zeta delta [fst snd].
    destruct (_ =? END_CODE); [done|].
    destruct (huffman_decode DISTANCE_CODES r3) as [r4 [high|e]]; [|done]. cbv beta iota zeta delta [fst snd].
    by destruct (bit_take _ r4) as [r5 [low|e]].
Qed.

Lemma parses_equiv {A} (m : M BitReader TokenStop A) (P Q : A → list bool → Prop) :
  (∀ a w, P a w ↔ Q a w) → parses m P → parses m Q.
Proof.
  intros H Hm r Hwf Hc. specialize (Hm r Hwf Hc). destruct (m r) as [r' [a|[]]]; [| |done].
  - destruct Hm as (? & ? & ? & w & Hw & ?). split_and!; [done..|]. exists w. by rewrite <-H.
  - intros a w rest Hw%H. by apply (Hm a).
Qed.

Lemma prefix_free_equiv {A} (P Q : A → list bool → Prop) :
  (∀ a w, P a w ↔ Q a w) → prefix_free P → prefix_free Q.
Proof. intros H HP a a' w w' t t' Ha%H Ha'%H. by apply HP. Qed.

Definition unit_word {A} (a : A) (a' : A) (w : list bool) : Prop := a' = a ∧ w = [].

Lemma unit_word_free {A} (a : A) : prefix_free (unit_word a).
Proof. by intros b b' w w' t t' [-> ->] [-> ->]. Qed.

(** The words of the tokens, put together the way the code reads them. *)
Definition literal_word (coded : bool) : N → list bool → Prop :=
  if coded then symbol_word LITERAL_CODES 256 else raw_word 8.

Definition distance_word (length shift : N) : Token → list bool → Prop :=
  seq_word (symbol_word DISTANCE_CODES 64) (λ high, seq_word (raw_word shift) (λ low,
    unit_word (TMatch length (N.lor (N.shiftl high shift) low + 1)))).

Definition after_length (dictionary length : N) : Token → list bool → Prop :=
  if length =? END_CODE then unit_word TEnd
  else distance_word length (if length =? 2 then 2 else dictionary).

Definition match_word (dictionary : N) : Token → list bool → Prop :=
  seq_word (symbol_word LENGTH_CODES 16) (λ symbol,
    seq_word (raw_word (nth (N.to_nat symbol) LENGTH_EXTRA 0)) (λ extra,
      after_length dictionary (nth (N.to_nat symbol) LENGTH_BASE 0 + extra))).

Definition read_word (coded : bool) (dictionary : N) : Token → list bool → Prop :=
  choice_word
    (seq_word (literal_word coded) (λ literal,
       unit_word (TLiteral (default x00 (Byte.of_N literal)))))
    (match_word dictionary).

Lemma literal_word_facts coded :
  prefix_free (literal_word coded) ∧ (∀ l w, literal_word coded l w → l < 256) ∧
  parses (if coded then huffman_decode LITERAL_CODES else bit_take 8) (literal_word coded).
Proof.
  destruct coded.
  - destruct (codebook_parses _ _ literal_codes_good) as [Hp Hf]. split_and!; [done| |done].
    by intros l w [? ?].
  - split_and!; [apply raw_word_free| |by apply bit_take_parses]. by intros l w [? ?].
Qed.

Lemma length_codes_parse :
  parses (huffman_decode LENGTH_CODES) (symbol_word LENGTH_CODES 16) ∧
  prefix_free (symbol_word LENGTH_CODES 16).
Proof. exact (codebook_parses _ _ length_codes_good). Qed.
Lemma distance_codes_parse :
  parses (huffman_decode DISTANCE_CODES) (symbol_word DISTANCE_CODES 64) ∧
  prefix_free (symbol_word DISTANCE_CODES 64).
Proof. exact (codebook_parses _ _ distance_codes_good). Qed.

Lemma extra_bits_small i : nth i LENGTH_EXTRA 0 ≤ 8.
Proof. do 16 (destruct i as [|i]; [by vm_compute|]). destruct i; by vm_compute. Qed.

Lemma read_word_free coded dictionary : prefix_free (read_word coded dictionary).
Proof.
  apply choice_word_free.
  - apply seq_word_free; [apply literal_word_facts|]. intros; apply unit_word_free.
  - apply seq_word_free; [apply length_codes_parse|]. intros symbol.
    apply seq_word_free; [apply raw_word_free|]. intros extra. unfold after_length.
    case_match; [apply unit_word_free|].
    apply seq_word_free; [apply distance_codes_parse|]. intros high.
    apply seq_word_free; [apply raw_word_free|]. intros; apply unit_word_free.
Qed.

Lemma parse_token_reads coded dictionary :
  dictionary ≤ 16 → parses (parse_token coded dictionary) (read_word coded dictionary).
Proof.
  intros Hd. unfold parse_token.
  apply parses_choice; [change (0 =? 0) with true|change (1 =? 0) with false]; cbv iota.
  - destruct (literal_word_facts coded) as (Hf & Hl & Hp). apply word_parse_bind; [done..|].
    intros l w Hw%Hl. unfold literal_byte.
    destruct (Byte.of_N l) as [b|] eqn:E; [apply word_parse_ret|].
    apply Byte.of_N_None_iff in E. lia.
  - destruct length_codes_parse as [Hp Hf]. apply word_parse_bind; [done..|]. intros symbol w1 [Hs _].
    assert (N.land symbol 15 = symbol) as ->.
    { change 15 with (N.ones 4). rewrite N.land_ones. by apply N.mod_small. }
    apply word_parse_bind; [apply raw_word_free|apply bit_take_parses|].
    { etrans; [apply extra_bits_small|lia]. }
    intros extra w2 _. unfold after_length.
    destruct (_ =? END_CODE); [apply word_parse_ret|].
    destruct distance_codes_parse as [Hp' Hf']. apply word_parse_bind; [done..|]. intros high w3 _.
    apply word_parse_bind; [apply raw_word_free|apply bit_take_parses; case_match; lia|].
    intros low w4 _. apply word_parse_ret.
Qed.

(** A length symbol indexes both tables. *)
Lemma length_tables symbol :
  symbol < 16 → ∃ base bits,
    LENGTH_BASE !! N.to_nat symbol = Some base ∧ LENGTH_EXTRA !! N.to_nat symbol = Some bits ∧
    nth (N.to_nat symbol) LENGTH_BASE 0 = base ∧ nth (N.to_nat symbol) LENGTH_EXTRA 0 = bits.
Proof.
  intros H. assert (N.to_nat symbol < 16)%nat as Hn by lia.
  destruct (lookup_lt_is_Some_2 LENGTH_BASE (N.to_nat symbol) Hn) as [base Hb].
  destruct (lookup_lt_is_Some_2 LENGTH_EXTRA (N.to_nat symbol) Hn) as [bits Hx].
  exists base, bits. rewrite !nth_lookup, Hb, Hx. done.
Qed.

Lemma table_symbol {A} (l : list A) symbol (x : A) :
  length l = 16%nat → l !! N.to_nat symbol = Some x → symbol < 16.
Proof. intros Hl H%lookup_lt_Some. lia. Qed.

Lemma distance_value high low shift :
  low < 2 ^ shift → N.lor (N.shiftl high shift) low + 1 = high * 2 ^ shift + low + 1.
Proof. intros H. rewrite N.lor_comm, lor_shiftl by done. lia. Qed.

Lemma token_word_read coded dictionary tok w :
  token_word coded dictionary tok w ↔ read_word coded dictionary tok w.
Proof.
  split.
  - destruct 1 as [b|symbol base bits extra shift high low Hb Hx He Hend -> Hh Hl
                   |symbol base bits extra Hb Hx He Hend]; simpl.
    + exists (Byte.to_N b), (if coded then codeword LITERAL_CODES (Byte.to_N b)
                             else low_bits 8 (Byte.to_N b)), []. split_and!.
      * pose proof (byte_to_N_lt b). by destruct coded.
      * split; [|done]. by rewrite Byte.of_to_N.
      * by rewrite app_nil_r.
    + eexists symbol, _, _. split; [split; [by eapply table_symbol, Hb|reflexivity]|].
      rewrite !nth_lookup, Hb, Hx. split; [|reflexivity].
      eexists extra, _, _. split; [by split|]. split; [|reflexivity]. simpl.
      unfold after_length, END_CODE. rewrite (proj2 (N.eqb_neq _ _) Hend).
      eexists high, _, _. split; [by split|]. split; [|reflexivity].
      eexists low, _, []. split; [by split|]. split; [|by rewrite app_nil_r].
      split; [|done]. by rewrite distance_value.
    + eexists symbol, _, _. split; [split; [by eapply table_symbol, Hb|reflexivity]|].
      rewrite !nth_lookup, Hb, Hx. split; [|reflexivity].
      eexists extra, _, []. split; [by split|]. split; [|by rewrite app_nil_r]. simpl.
      unfold after_length, END_CODE. by rewrite (proj2 (N.eqb_eq _ _) Hend).
  - destruct w as [|[] w]; [done| |]; simpl.
    + intros (symbol & w1 & w2 & [Hs ->] & H & ->).
      destruct (length_tables symbol Hs) as (base & bits & Hb & Hx & Eb & Ex).
      rewrite Eb, Ex in H. destruct H as (extra & w3 & w4 & [He ->] & H & ->).
      unfold after_length, END_CODE in H. destruct (N.eqb_spec (base + extra) 519) as [Hend|Hend].
      * destruct H as [-> ->]. rewrite app_nil_r. by eapply W_end.
      * destruct H as (high & w5 & w6 & [Hh ->] & (low & w7 & w8 & [Hl ->] & [-> ->] & ->) & ->).
        rewrite app_nil_r, distance_value by done. by eapply W_match.
    + intros (l & w1 & w2 & Hl & [-> ->] & ->). rewrite app_nil_r.
      destruct (literal_word_facts coded) as (_ & Hlt & _). pose proof (Hlt _ _ Hl) as H.
      destruct (Byte.of_N l) as [b|] eqn:E; [|apply Byte.of_N_None_iff in E; lia].
      apply Byte.to_of_N in E as <-. simpl.
      assert (w1 = if coded then codeword LITERAL_CODES (Byte.to_N b)
                   else low_bits 8 (Byte.to_N b)) as ->.
      { by destruct coded; destruct Hl as [_ ->]. }
      constructor.
Qed.

Lemma token_word_free coded dictionary : prefix_free (token_word coded dictionary).
Proof.
  eapply prefix_free_equiv, read_word_free. intros. symmetry. apply token_word_read.
Qed.

Lemma parse_token_parses coded dictionary :
  dictionary ≤ 16 → parses (parse_token coded dictionary) (token_word coded dictionary).
Proof.
  intros H. eapply parses_equiv, parse_token_reads; [|done].
  intros. symmetry. apply token_word_read.
Qed.

(** *** Every long enough sequence of bits starts with a word *)

Definition complete_within {A} (P : A → list bool → Prop) (n : nat) : Prop :=
  ∀ bits, (n ≤ length bits)%nat →
    ∃ a w rest, P a w ∧ bits = w ++ rest ∧ (length w ≤ n)%nat.

Lemma complete_weaken {A} (P : A → list bool → Prop) n m :
  (n ≤ m)%nat → complete_within P n → complete_within P m.
Proof.
  intros Hnm HP bits Hb. destruct (HP bits ltac:(lia)) as (a & w & rest & ? & ? & ?).
  exists a, w, rest. split_and!; [done..|lia].
Qed.

Lemma unit_word_complete {A} (a : A) : complete_within (unit_word a) 0.
Proof. intros bits _. by exists a, [], bits. Qed.

Lemma low_bits_surj (w : list bool) :
  ∃ v, v < 2 ^ N.of_nat (length w) ∧ w = low_bits (length w) v.
Proof.
  induction w as [|b w (v & Hv & IH)]; [by exists 0|].
  exists (N.b2n b + 2 ^ N.of_nat 1 * v). cbn [length].
  assert (N.b2n b < 2) by (by destruct b).
  split.
  { change (2 ^ N.of_nat 1) with 2. rewrite Nat2N.inj_succ, N.pow_succ_r'. lia. }
  change (S (length w)) with (1 + length w)%nat. rewrite low_bits_app by done.
  rewrite <-IH. by destruct b.
Qed.

Lemma raw_word_complete n : complete_within (raw_word n) (N.to_nat n).
Proof.
  intros bits Hb. destruct (low_bits_surj (take (N.to_nat n) bits)) as (v & Hv & E).
  assert (Hl : length (take (N.to_nat n) bits) = N.to_nat n) by (rewrite length_take; lia).
  rewrite Hl in Hv, E. rewrite N2Nat.id in Hv.
  exists v, (take (N.to_nat n) bits), (drop (N.to_nat n) bits). rewrite take_drop, Hl.
  split; [by split|]. split; [done|lia].
Qed.

Lemma seq_word_complete {A B} (P : A → list bool → Prop) (Q : A → B → list bool → Prop) n m :
  complete_within P n → (∀ a w, P a w → complete_within (Q a) m) →
  complete_within (seq_word P Q) (n + m).
Proof.
  intros HP HQ bits Hb. destruct (HP bits ltac:(lia)) as (a & w & rest & Hw & -> & Hl).
  rewrite length_app in Hb. destruct (HQ a w Hw rest ltac:(lia)) as (b & w2 & rest2 & Hw2 & -> & Hl2).
  exists b, (w ++ w2), rest2. rewrite length_app, app_assoc.
  split_and!; [by exists a, w, w2|done|lia].
Qed.

Lemma choice_word_complete {A} (P Q : A → list bool → Prop) n :
  complete_within P n → complete_within Q n → complete_within (choice_word P Q) (S n).
Proof.
  intros HP HQ [|[] bits] Hb; simpl in Hb; [lia|destruct (HQ bits ltac:(lia)) as (a & w & rest & Hw & -> & Hl)
    |destruct (HP bits ltac:(lia)) as (a & w & rest & Hw & -> & Hl)].
  - exists a, (true :: w), rest. split_and!; [done..|simpl; lia].
  - exists a, (false :: w), rest. split_and!; [done..|simpl; lia].
Qed.

Lemma tree_word_complete tree : complete_within (tree_word tree) (tree_height tree).
Proof.
  induction tree as [s|zero IH0 one IH1]; simpl.
  - intros bits _. by exists s, [], bits.
  - apply choice_word_complete; (eapply complete_weaken; [|done]); lia.
Qed.

Lemma codebook_complete codes n :
  codebook_good codes n = true → complete_within (symbol_word codes (N.of_nat n)) 13.
Proof.
  intros Hgood. pose proof (codebook_tree codes n Hgood) as (tree & Hh & Heq & _).
  intros bits Hb.
  destruct (tree_word_complete tree bits) as (s & w & rest & Hw & -> & Hl); [lia|].
  exists s, w, rest. rewrite Heq. split_and!; [done..|lia].
Qed.

Lemma token_word_complete coded dictionary :
  dictionary ≤ 6 → complete_within (token_word coded dictionary) 41.
Proof.
  intros Hd. assert (complete_within (read_word coded dictionary) 41) as H.
  2:{ intros bits Hb. destruct (H bits Hb) as (tok & w & rest & Hw%token_word_read & ? & ?).
      by exists tok, w, rest. }
  apply choice_word_complete.
  - eapply complete_weaken, (seq_word_complete _ _ 13 0); [lia| |intros; apply unit_word_complete].
    destruct coded; [exact (codebook_complete _ _ literal_codes_good)|].
    eapply complete_weaken, raw_word_complete. simpl. lia.
  - apply (seq_word_complete _ _ 13 27); [exact (codebook_complete _ _ length_codes_good)|].
    intros symbol w _. apply (seq_word_complete _ _ 8 19).
    { eapply complete_weaken, raw_word_complete. pose proof (extra_bits_small (N.to_nat symbol)). lia. }
    intros extra w' _. unfold after_length. case_match; [eapply complete_weaken, unit_word_complete; lia|].
    apply (seq_word_complete _ _ 13 6); [exact (codebook_complete _ _ distance_codes_good)|].
    intros high w'' _. apply (seq_word_complete _ _ 6 0); [|intros; apply unit_word_complete].
    eapply complete_weaken, raw_word_complete. case_match; lia.
Qed.

(** ** The window *)

(** The ring buffer holds the end of what was produced. *)
Record window_holds (self : Explode) (out : list byte) : Prop := {
  wh_length : length (ex_window self) = 4096%nat;
  wh_position : ex_window_position self = len out mod MAX_WINDOW;
  wh_total : ex_total_output self = N.min (len out) (2 ^ 64 - 1);
  wh_lookup j : j < len out → len out ≤ j + MAX_WINDOW →
    ex_window self !! N.to_nat (j mod MAX_WINDOW) = out !! N.to_nat j
}.

(** What a token leaves alone. *)
Definition same_config (s s' : Explode) : Prop :=
  ex_coded_literals s' = ex_coded_literals s ∧ ex_distance_bits s' = ex_distance_bits s ∧
  ex_header_read s' = ex_header_read s ∧ ex_finished s' = ex_finished s.

Lemma push_run self r out b hist :
  window_holds self hist →
  ∃ self', ex_push b (self, r, out) = ((self', r, out ++ [b]), Ok tt) ∧
    window_holds self' (hist ++ [b]) ∧ same_config self self'.
Proof.
  intros [Hl Hp Ht Hw]. eexists. split; [reflexivity|]. split; [|by destruct self].
  assert (Hlen : len (hist ++ [b]) = len hist + 1) by (unfold len; rewrite length_app; simpl; lia).
  assert (Hm : ∀ j, j mod MAX_WINDOW < MAX_WINDOW) by (intros; by apply N.mod_lt).
  assert (Hin : (N.to_nat (ex_window_position self) < length (ex_window self))%nat).
  { rewrite Hl, Hp. specialize (Hm (len hist)). unfold MAX_WINDOW in *. lia. }
  destruct self as [cl db w p t sb sc hr fi]; simpl in *. split; simpl.
  - by rewrite length_insert.
  - by rewrite Hlen, Hp, N.Div0.add_mod_idemp_l.
  - rewrite Hlen, Ht. unfold saturating_add. lia.
  - intros j Hj Hj'. rewrite Hlen in *. destruct (N.eq_dec j (len hist)) as [->|Hne].
    + rewrite <-Hp, list_lookup_insert_eq by done.
      unfold len. by rewrite Nat2N.id, list_lookup_middle.
    + rewrite list_lookup_insert_ne.
      * rewrite Hw by lia. rewrite lookup_app_l; [done|]. unfold len in *. lia.
      * rewrite Hp. intros E%N2Nat.inj. symmetry in E. revert E. apply mod_distinct; lia.
Qed.

Lemma copy_run n distance self r out hist :
  window_holds self hist → 1 ≤ distance → distance ≤ MAX_WINDOW → distance ≤ len hist →
  ∃ self' new, copy_bytes n distance (self, r, out) = ((self', r, out ++ new), Ok tt) ∧
    copied n distance hist = Some (hist ++ new) ∧ window_holds self' (hist ++ new) ∧
    same_config self self' ∧ length new = n.
Proof.
  revert self out hist. induction n as [|n IH]; intros self out hist Hw Hd Hd' Hle; simpl.
  { exists self, []. by rewrite !app_nil_r. }
  assert ((1 <=? distance) && (distance <=? len hist) = true) as ->
    by (rewrite !(proj2 (N.leb_le _ _)) by done; done).
  destruct (hist !! N.to_nat (len hist - distance)) as [b|] eqn:Eb.
  2:{ apply lookup_ge_None in Eb. unfold len in *. lia. }
  assert (Hb : nth (N.to_nat ((ex_window_position self + MAX_WINDOW - distance) mod MAX_WINDOW))
                 (ex_window self) x00 = b).
  { rewrite nth_lookup. rewrite (wh_position _ _ Hw).
    assert ((len hist mod MAX_WINDOW + MAX_WINDOW - distance) mod MAX_WINDOW =
            (len hist - distance) mod MAX_WINDOW) as ->.
    { rewrite <-N.add_sub_assoc by lia. rewrite N.Div0.add_mod_idemp_l.
      replace (len hist + (MAX_WINDOW - distance)) with ((len hist - distance) + 1 * MAX_WINDOW) by lia.
      apply N.Div0.mod_add. }
    rewrite (wh_lookup _ _ Hw) by lia. by rewrite Eb. }
  unfold mbind, M_bind, get. cbn [fst snd]. rewrite Hb.
  destruct (push_run self r out b hist Hw) as (self1 & E1 & Hw1 & Hc1).
  unfold mbind, M_bind in E1. rewrite E1.
  destruct (IH self1 (out ++ [b]) (hist ++ [b]) Hw1 Hd Hd') as (self2 & new & E2 & Hn & Hw2 & Hc2 & Hlen).
  { unfold len in *. rewrite length_app. simpl. lia. }
  rewrite E2. exists self2, (b :: new). cbn [option_bind]. rewrite Hn.
  rewrite <-!app_assoc in *. split_and!; try done; [|by simpl; rewrite Hlen].
  destruct Hc1 as (?&?&?&?), Hc2 as (?&?&?&?). repeat split; congruence.
Qed.

(** ** One token *)

(** The decoder between two tokens: its window, and a header that was read. *)
Record decoding (self : Explode) (coded : bool) (dictionary : N) (hist : list byte) : Prop := {
  dc_window : window_holds self hist;
  dc_coded : ex_coded_literals self = coded;
  dc_dictionary : ex_distance_bits self = dictionary;
  dc_header : ex_header_read self = true;
  dc_range : 4 ≤ dictionary ≤ 6
}.

Lemma decoding_moved self self' coded dictionary hist hist' :
  decoding self coded dictionary hist → same_config self self' → window_holds self' hist' →
  decoding self' coded dictionary hist'.
Proof. intros [? ? ? ? ?] (? & ? & ? & ?) ?. split; try done; congruence. Qed.

Lemma match_length symbol base bits extra :
  LENGTH_BASE !! symbol = Some base → LENGTH_EXTRA !! symbol = Some bits →
  extra < 2 ^ bits → base + extra ≠ 519 → base + extra ≤ MAX_MATCH.
Proof.
  intros Hb Hx He Hne.
  assert (Forall (λ i, nth i LENGTH_BASE 0 + 2 ^ nth i LENGTH_EXTRA 0 ≤ 520) (seq 0 16)) as Hall.
  { repeat constructor; by vm_compute. }
  rewrite Forall_forall in Hall. specialize (Hall symbol). rewrite !nth_lookup, Hb, Hx in Hall.
  unfold MAX_MATCH. apply lookup_lt_Some in Hb. simpl in Hb.
  assert (base + 2 ^ bits ≤ 520) by (apply Hall, in_seq; lia). lia.
Qed.

(** A token that does not end the stream, applied. *)
Lemma apply_token_run coded dictionary self r out hist tok w :
  decoding self coded dictionary hist → token_word coded dictionary tok w → tok ≠ TEnd →
  match expand_token hist tok with
  | Some hist' => ∃ self' new,
      apply_token tok (self, r, out) = ((self', r, out ++ new), Ok false) ∧
      hist' = hist ++ new ∧ 1 ≤ len new ≤ MAX_MATCH ∧ window_holds self' hist' ∧
      same_config self self'
  | None => apply_token tok (self, r, out) = ((self, r, out), Err TS_Failed)
  end.
Proof.
  intros [Hw _ _ _ Hdict] Htok Hend. destruct Htok as
    [b|symbol base bits extra shift high low Hb Hx He Hne Hsh Hh Hl|symbol base bits extra]; [| |done].
  - simpl. destruct (push_run self r out b hist Hw) as (self' & E & Hw' & Hc).
    exists self', [b]. unfold mbind, M_bind. by rewrite E.
  - assert (2 ≤ base) as Hbase.
    { assert (Forall (λ x, 2 ≤ x) LENGTH_BASE) as Hall by (by repeat constructor).
      rewrite Forall_lookup in Hall. by apply (Hall _ _ Hb). }
    pose proof (match_length _ _ _ _ Hb Hx He Hne) as Hmax.
    set (length' := base + extra) in *. set (distance := high * 2 ^ shift + low + 1).
    assert (1 ≤ distance ≤ MAX_WINDOW) as [Hd1 Hd2].
    { subst distance. split; [lia|]. unfold MAX_WINDOW.
      assert (2 ^ shift ≤ 2 ^ 6) as Hp by (apply N.pow_le_mono_r; [lia|subst shift; case_match; lia]).
      change (2 ^ 6) with 64 in Hp. nia. }
    cbn [expand_token apply_token]. unfold ex_copy, mbind, M_bind, get. cbn [fst].
    rewrite (wh_total _ _ Hw), (proj2 (N.ltb_ge MAX_WINDOW distance)) by done.
    rewrite orb_false_r. destruct (N.leb_spec distance (len hist)) as [Hle|Hgt].
    + rewrite (proj2 (N.ltb_ge _ _)) by (unfold MAX_WINDOW in *; lia).
      destruct (copy_run (N.to_nat length') distance self r out hist Hw Hd1 Hd2 Hle)
        as (self' & new & E & -> & Hw' & Hc & Hlen).
      unfold mbind, M_bind. rewrite E. exists self', new. split_and!; try done.
      all: unfold len; rewrite Hlen, N2Nat.id; subst length'; lia.
    + rewrite (proj2 (N.ltb_lt _ _)) by (unfold MAX_WINDOW in *; lia).
      destruct (N.to_nat length') as [|n] eqn:En; [subst length'; lia|]. cbn [copied].
      by rewrite (proj2 (N.leb_gt distance (len hist))), andb_false_r by done.
Qed.

Definition token_step_post coded dictionary self r out hist
    (o : Decoding * result TokenStop bool) : Prop :=
  let '(s', res) := o in
  let '(self', r', out') := s' in
  match res with
  | Ok fin => ∃ tok w new,
      token_word coded dictionary tok w ∧ reader_bits r = w ++ reader_bits r' ∧
      (reader_wf r' ∧ br_count r' < 8 ∧ br_input r' = br_input r) ∧
      expand_token hist tok = Some (hist ++ new) ∧ out' = out ++ new ∧
      window_holds self' (hist ++ new) ∧ same_config self self' ∧
      (if fin : bool then tok = TEnd ∧ new = [] else tok ≠ TEnd ∧ 1 ≤ len new ≤ MAX_MATCH)
  | Err NeedMoreInput => self' = self ∧ out' = out ∧
      ∀ tok w rest, token_word coded dictionary tok w → reader_bits r ≠ w ++ rest
  | Err TS_Failed => out' = out ∧ ∃ tok w rest,
      token_word coded dictionary tok w ∧ tok ≠ TEnd ∧ reader_bits r = w ++ rest ∧
      expand_token hist tok = None
  end.

Lemma token_step coded dictionary self r out hist :
  decoding self coded dictionary hist → reader_wf r → br_count r < 8 →
  token_step_post coded dictionary self r out hist (ex_token (self, r, out)).
Proof.
  intros Hd Hwf Hc. rewrite ex_token_split. rewrite (dc_coded _ _ _ _ Hd), (dc_dictionary _ _ _ _ Hd).
  assert (dictionary ≤ 16) as Hle by (destruct (dc_range _ _ _ _ Hd); lia).
  pose proof (parse_token_parses coded dictionary Hle r Hwf Hc) as Hp.
  destruct (parse_token coded dictionary r) as [r' [tok|[]]]; [|by simpl|done].
  destruct Hp as (Hwf' & Hc' & Hin & w & Hw & E).
  destruct (decide (tok = TEnd)) as [->|Hne].
  - simpl. exists TEnd, w, []. rewrite !app_nil_r. split_and!; try done. apply Hd.
  - pose proof (apply_token_run coded dictionary self r' out hist tok w Hd Hw Hne) as Ha.
    destruct (expand_token hist tok) as [hist'|] eqn:Ee.
    + destruct Ha as (self' & new & -> & -> & Hnew & Hwin & Hcfg). simpl.
      destruct Hnew. exists tok, w, new. by split_and!.
    + rewrite Ha. simpl. split; [done|]. by exists tok, w, (reader_bits r').
Qed.

(** ** The loop *)

Lemma expand_app out toks toks' :
  expand out (toks ++ toks') = out' ← expand out toks; expand out' toks'.
Proof.
  revert out. induction toks as [|tok toks IH]; intros out; simpl; [done|].
  destruct (expand_token out tok); simpl; [apply IH|done].
Qed.

Lemma decoding_saved self coded dictionary hist b c :
  decoding self coded dictionary hist → decoding (put_saved b c self) coded dictionary hist.
Proof. intros [[] ? ? ? ?]. destruct self. by split. Qed.

Lemma decoding_finished self coded dictionary hist x :
  decoding self coded dictionary hist → decoding (put_finished x self) coded dictionary hist.
Proof. intros [[] ? ? ? ?]. destruct self. by split. Qed.

(** What a run of tokens did: it read their words, and produced [new]. *)
Record ran coded dictionary (r r' : BitReader) (hist : list byte) (toks : list Token)
    (ws : list bool) (new : list byte) : Prop := {
  rn_word : tokens_word coded dictionary toks ws;
  rn_bits : reader_bits r = ws ++ reader_bits r';
  rn_reader : reader_wf r' ∧ br_count r' < 8 ∧ br_input r' = br_input r;
  rn_expand : expand hist toks = Some (hist ++ new)
}.

Lemma ran_nil coded dictionary r hist :
  reader_wf r → br_count r < 8 → ran coded dictionary r r hist [] [] [].
Proof. intros ? ?. split; [constructor|done|done|]. by rewrite app_nil_r. Qed.

Lemma ran_cons coded dictionary r r1 r2 hist tok w new toks ws new' :
  token_word coded dictionary tok w → tok ≠ TEnd → reader_bits r = w ++ reader_bits r1 →
  br_input r1 = br_input r → expand_token hist tok = Some (hist ++ new) →
  ran coded dictionary r1 r2 (hist ++ new) toks ws new' →
  ran coded dictionary r r2 hist (tok :: toks) (w ++ ws) (new ++ new').
Proof.
  intros Hw Hne Hb Hin He [Hws Hb' (? & ? & Hin') He']. split.
  - by constructor.
  - by rewrite Hb, Hb', app_assoc.
  - split_and!; [done..|by etrans].
  - simpl. rewrite He. simpl. by rewrite He', app_assoc.
Qed.

(** No token's word starts the bits. *)
Definition no_token coded dictionary (bits : list bool) : Prop :=
  ∀ tok w rest, token_word coded dictionary tok w → bits ≠ w ++ rest.

(** The next token copies from before the start. *)
Definition bad_token coded dictionary (hist : list byte) (bits : list bool) : Prop :=
  ∃ tok w rest, token_word coded dictionary tok w ∧ tok ≠ TEnd ∧ bits = w ++ rest ∧
    expand_token hist tok = None.

Definition loop_post coded dictionary (last : bool) (out_budget : N) self r out hist
    (o : Decoding * result IszError bool) : Prop :=
  len o.1.2 ≤ N.max (len out) out_budget ∧
  match o with
  | ((self', r', out'), Ok fin) => ∃ toks ws new r1,
      ran coded dictionary r r1 hist toks ws new ∧ out' = out ++ new ∧
      decoding self' coded dictionary (hist ++ new) ∧
      (if fin : bool then
         (∃ wend, token_word coded dictionary TEnd wend ∧ reader_bits r1 = wend ++ reader_bits r') ∧
         (reader_wf r' ∧ br_count r' < 8 ∧ br_input r' = br_input r) ∧ ex_finished self' = true ∧
         ex_saved_buffer self' = br_buffer r' ∧ ex_saved_count self' = br_count r' ∧
         len out' + MAX_MATCH ≤ out_budget
       else r1 = r' ∧ ex_finished self' = ex_finished self ∧
         (out_budget < len out' + MAX_MATCH ∨
          last = false ∧ no_token coded dictionary (reader_bits r')))
  | (_, Err e) => e = ZE_DecompressionFailed ∧ ∃ toks ws new r1,
      ran coded dictionary r r1 hist toks ws new ∧
      (bad_token coded dictionary (hist ++ new) (reader_bits r1) ∨
       last = true ∧ no_token coded dictionary (reader_bits r1))
  end.

Lemma decode_loop_spec turns coded dictionary last out_budget self r out hist :
  decoding self coded dictionary hist → reader_wf r → br_count r < 8 →
  out_budget < len out + MAX_MATCH + N.of_nat turns →
  loop_post coded dictionary last out_budget self r out hist
    (decode_loop turns last out_budget (self, r, out)).
Proof.
  revert self r out hist. induction turns as [|turns IH];
    intros self r out hist Hd Hwf Hc Hf; pose proof (ran_nil coded dictionary r hist Hwf Hc) as Hnil.
  { simpl. split; [simpl; lia|]. exists [], [], [], r. rewrite !app_nil_r. split_and!; try done.
    left. lia. }
  cbn [decode_loop]. unfold mbind at 1, M_bind at 1, get. cbn [fst snd].
  destruct (N.ltb_spec out_budget (len out + MAX_MATCH)) as [Hfull|Hroom].
  { split; [simpl; lia|]. exists [], [], [], r. rewrite !app_nil_r. split_and!; try done. by left. }
  unfold mbind at 1, M_bind at 1, attempt.
  pose proof (token_step coded dictionary self r out hist Hd Hwf Hc) as Ht.
  destruct (ex_token (self, r, out)) as [[[self1 r1] out1] [fin|[]]]; simpl in Ht.
  - destruct Ht as (tok & w & new & Htok & Hbits & (Hwf1 & Hc1 & Hin1) & He & -> & Hwin & Hcfg & Hfin).
    pose proof (decoding_moved _ _ _ _ _ _ Hd Hcfg Hwin) as Hd1. destruct fin.
    + destruct Hfin as [-> ->]. unfold ex_save. run_M; unfold loop_post; cbn [fst snd mret M_ret]. rewrite !app_nil_r in *. split; [lia|].
      exists [], [], [], r. rewrite !app_nil_r in *.
      split_and!; try done; try (by destruct self1); [|by exists w].
      by apply decoding_saved, decoding_finished.
    + destruct Hfin as [Hne Hnew]. unfold ex_save, modify, mbind at 1, M_bind at 1.
      set (self2 := put_saved _ _ self1).
      pose proof (len_app out new) as Hlen.
      specialize (IH self2 r1 (out ++ new) (hist ++ new) ltac:(by apply decoding_saved) Hwf1 Hc1 ltac:(lia)).
      assert (Hf2 : ex_finished self2 = ex_finished self).
      { transitivity (ex_finished self1); [by destruct self1|apply Hcfg]. }
      destruct (decode_loop turns last out_budget (self2, r1, out ++ new))
        as [[[self3 r3] out3] [fin|e]]; destruct IH as [Hmax IH]; cbn [fst snd] in Hmax; unfold loop_post; cbn [fst snd];
        (split; [lia|]).
      * destruct IH as (toks & ws & new' & r2 & Hran & -> & Hd3 & Hrest).
        exists (tok :: toks), (w ++ ws), (new ++ new'), r2.
        split; [by eapply ran_cons|]. rewrite <-!app_assoc in *. split; [done|]. split; [done|].
        rewrite <-Hf2, <-Hin1. done.
      * destruct IH as (-> & toks & ws & new' & r2 & Hran & Hrest). split; [done|].
        exists (tok :: toks), (w ++ ws), (new ++ new'), r2.
        split; [by eapply ran_cons|]. by rewrite <-!app_assoc in Hrest.
  - destruct Ht as (-> & -> & Hno). destruct last; run_M; unfold loop_post; cbn [fst snd mret M_ret]; (split; [lia|]).
    + split; [done|]. exists [], [], [], r. rewrite !app_nil_r. split; [done|]. by right.
    + exists [], [], [], r. rewrite !app_nil_r. split_and!; try done. by right.
  - destruct Ht as [-> Hbad]. run_M; unfold loop_post; cbn [fst snd mret M_ret]. split; [lia|]. split; [done|]. exists [], [], [], r.
    rewrite !app_nil_r. split; [done|]. by left.
Qed.

(** ** The header *)

Definition header_word (coded : bool) (dictionary : N) : list bool :=
  low_bits 8 (if coded then 1 else 0) ++ low_bits 8 dictionary.

Definition reader_moved (r r' : BitReader) : Prop :=
  reader_wf r' ∧ br_count r' < 8 ∧ br_input r' = br_input r.

Lemma read_stream_header_run self r out :
  ex_header_read self = false → reader_wf r → br_count r < 8 →
  match read_stream_header (self, r, out) with
  | ((self', r', out'), Ok (Some _)) => ∃ coded dictionary,
      4 ≤ dictionary ≤ 6 ∧ reader_bits r = header_word coded dictionary ++ reader_bits r' ∧
      reader_moved r r' ∧ out' = out ∧
      self' = put_saved (br_buffer r') (br_count r') (put_header coded dictionary self)
  | ((self', _, out'), Ok None) => self' = self ∧ out' = out ∧
      ∀ a b rest, a < 2 ^ 8 → b < 2 ^ 8 → reader_bits r ≠ low_bits 8 a ++ low_bits 8 b ++ rest
  | ((_, _, out'), Err e) => out' = out ∧ e = ZE_DecompressionFailed ∧ ∃ a b rest, a < 2 ^ 8 ∧ b < 2 ^ 8 ∧
      reader_bits r = low_bits 8 a ++ low_bits 8 b ++ rest ∧ ¬ (a ≤ 1 ∧ 4 ≤ b ≤ 6)
  end.
Proof.
  intros Hh Hwf Hc. unfold read_stream_header, on_reader, attempt, zoom.
  unfold mbind, M_bind, get. cbv beta iota zeta delta [fst snd]. rewrite Hh.
  pose proof (bit_take_parses 8 ltac:(lia) r Hwf Hc) as H1.
  destruct (bit_take 8 r) as [r1 [a|[]]]; [| |done].
  2:{ cbv beta iota zeta delta [fst snd]. destruct (bit_take 8 r1) as [r2 [b|e]]; cbn; split_and!; try done;
      intros a b' rest Ha _ E; by apply (H1 a (low_bits 8 a) (low_bits 8 b' ++ rest)). }
  destruct H1 as (Hwf1 & Hc1 & Hin1 & w1 & [Ha ->] & E1). cbv beta iota zeta delta [fst snd].
  pose proof (bit_take_parses 8 ltac:(lia) r1 Hwf1 Hc1) as H2.
  destruct (bit_take 8 r1) as [r2 [b|[]]]; [| |done].
  2:{ cbn. split_and!; try done. intros a' b rest Ha' Hb E. rewrite E1 in E.
      apply app_inj_1 in E as [_ E]; [|by rewrite !length_low_bits].
      by apply (H2 b (low_bits 8 b) rest). }
  destruct H2 as (Hwf2 & Hc2 & Hin2 & w2 & [Hb ->] & E2). cbv beta iota zeta delta [fst snd].
  rewrite E2 in E1. change (N.to_nat 8) with 8%nat in *.
  assert (Hbad : ¬ (a ≤ 1 ∧ 4 ≤ b ≤ 6) → ∃ a b rest, a < 2 ^ 8 ∧ b < 2 ^ 8 ∧
      reader_bits r = low_bits 8 a ++ low_bits 8 b ++ rest ∧ ¬ (a ≤ 1 ∧ 4 ≤ b ≤ 6)).
  { intros Hn. by exists a, b, (reader_bits r2). }
  destruct (N.ltb_spec 1 a) as [Hflag|Hflag]; [split; [done|]; split; [done|]; apply Hbad; lia|].
  unfold try_from. rewrite (proj2 (N.ltb_lt b _)) by done. cbn [ok_or lift].
  unfold MIN_DICTIONARY_CODE, MAX_DICTIONARY_CODE.
  destruct (N.leb_spec 4 b), (N.leb_spec b 6); cbn; try (split; [done|]; split; [done|]; apply Hbad; lia).
  exists (a =? 1), b. split; [done|]. split.
  { unfold header_word. rewrite E1, <-app_assoc.
    assert (a = 0 ∨ a = 1) as [-> | ->] by lia; reflexivity. }
  split; [|done]. split; [done|]. split; [done|]. by etrans.
Qed.

(** ** Streams read one way only *)

Lemma tokens_word_app c d toks ws toks' ws' :
  tokens_word c d toks ws → tokens_word c d toks' ws' →
  tokens_word c d (toks ++ toks') (ws ++ ws').
Proof. intros H H'. induction H; simpl; [done|]. rewrite <-app_assoc. by constructor. Qed.

Lemma header_word_inj c d x c' d' y :
  d < 2 ^ 8 → d' < 2 ^ 8 → header_word c d ++ x = header_word c' d' ++ y → c = c' ∧ d = d' ∧ x = y.
Proof.
  intros Hd Hd' E. unfold header_word in E. rewrite <-!app_assoc in E.
  apply app_inj_1 in E as [E1 E]; [|by rewrite !length_low_bits].
  apply app_inj_1 in E as [E2 E]; [|by rewrite !length_low_bits].
  apply low_bits_inj in E1; [|by destruct c|by destruct c']. apply low_bits_inj in E2; [|done..].
  by destruct c, c'.
Qed.

Lemma parse_unique c d toks ws toks' ws' wend x rest :
  tokens_word c d toks ws → tokens_word c d toks' ws' → token_word c d TEnd wend →
  ws ++ x = ws' ++ wend ++ rest →
  ∃ toks2 ws2, tokens_word c d toks2 ws2 ∧ toks' = toks ++ toks2 ∧ x = ws2 ++ wend ++ rest.
Proof.
  intros Hws. revert toks' ws'. induction Hws as [|tok toks w ws Hw Hne Hws IH];
    intros toks' ws' Hws' Hend E.
  { by exists toks', ws'. }
  rewrite <-app_assoc in E. destruct Hws' as [|tok' toks' w' ws' Hw' Hne' Hws'].
  - by destruct (token_word_free c d _ _ _ _ _ _ Hw Hend E).
  - rewrite <-app_assoc in E. destruct (token_word_free c d _ _ _ _ _ _ Hw Hw' E) as [-> ->].
    apply app_inv_head in E. destruct (IH toks' ws' Hws' Hend E) as (toks2 & ws2 & H2 & -> & ->).
    by exists toks2, ws2.
Qed.

(** From any point of a stream, what it expands to is what is left to read. *)
Lemma exploded_from input out c d toks ws x :
  4 ≤ d ≤ 6 → bits_of input = header_word c d ++ ws ++ x → tokens_word c d toks ws →
  exploded input out →
  ∃ toks2 ws2 wend rest h, tokens_word c d toks2 ws2 ∧ token_word c d TEnd wend ∧
    x = ws2 ++ wend ++ rest ∧ expand [] toks = Some h ∧ expand h toks2 = Some out.
Proof.
  intros Hd E Hws (c' & d' & toks' & ws' & wend & rest & Hd' & E' & Hws' & Hend & Hexp).
  rewrite E in E'. rewrite (app_assoc (low_bits 8 _)) in E'. fold (header_word c' d') in E'.
  apply header_word_inj in E' as (-> & -> & E'); [|lia..].
  destruct (parse_unique _ _ _ _ _ _ _ _ _ Hws Hws' Hend E') as (toks2 & ws2 & H2 & -> & ->).
  rewrite expand_app in Hexp. destruct (expand [] toks) as [h|] eqn:Eh; [|done].
  by exists toks2, ws2, wend, rest, h.
Qed.

Lemma exploded_stuck input out c d toks ws x h :
  4 ≤ d ≤ 6 → bits_of input = header_word c d ++ ws ++ x → tokens_word c d toks ws →
  expand [] toks = Some h → bad_token c d h x ∨ no_token c d x → ¬ exploded input out.
Proof.
  intros Hd E Hws Hh Hstuck Hex.
  destruct (exploded_from _ _ _ _ _ _ _ Hd E Hws Hex) as
    (toks2 & ws2 & wend & rest & h' & H2 & Hend & -> & Hh' & Hexp).
  rewrite Hh in Hh'. injection Hh' as <-.
  destruct Hstuck as [(tok & w & rest' & Hw & Hne & E2 & Hbad)|Hno].
  - destruct H2 as [|tok2 toks2 w2 ws2 Hw2 _ _].
    + symmetry in E2. by destruct (token_word_free c d _ _ _ _ _ _ Hw Hend E2).
    + rewrite <-app_assoc in E2. destruct (token_word_free c d _ _ _ _ _ _ Hw2 Hw E2) as [-> _].
      simpl in Hexp. by rewrite Hbad in Hexp.
  - destruct H2 as [|tok2 toks2 w2 ws2 Hw2 _ _].
    + by eapply (Hno TEnd wend rest).
    + by eapply (Hno tok2 w2 (ws2 ++ wend ++ rest)); [|rewrite <-app_assoc].
Qed.

Lemma copied_prefix n distance out out' : copied n distance out = Some out' → out `prefix_of` out'.
Proof.
  revert out. induction n as [|n IH]; intros out; simpl; [by intros [= ->]|].
  destruct (_ && _); [|done]. destruct (out !! _) as [b|]; [|done]. cbn. intros H%IH.
  etrans; [|exact H]. by apply prefix_app_r.
Qed.

Lemma expand_prefix toks out out' : expand out toks = Some out' → out `prefix_of` out'.
Proof.
  revert out. induction toks as [|tok toks IH]; intros out; simpl; [by intros [= ->]|].
  destruct (expand_token out tok) as [h|] eqn:E; [|done]. cbn. intros H%IH. etrans; [|exact H].
  destruct tok; simpl in E; [injection E as <-; by apply prefix_app_r|by eapply copied_prefix
    |by injection E as <-].
Qed.

Lemma exploded_functional input out out' : exploded input out → exploded input out' → out = out'.
Proof.
  intros (c & d & toks & ws & wend & rest & Hd & E & Hws & Hend & Hexp) H'.
  rewrite (app_assoc (low_bits 8 _)) in E. fold (header_word c d) in E.
  destruct (exploded_from _ _ _ _ _ _ _ Hd E Hws H') as
    (toks2 & ws2 & wend' & rest' & h & H2 & Hend' & E2 & Hh & Hexp').
  rewrite Hexp in Hh. injection Hh as <-. destruct H2 as [|tok2 toks2 w2 ws2 Hw2 Hne _].
  - by injection Hexp'.
  - rewrite <-app_assoc in E2. by destruct (token_word_free c d _ _ _ _ _ _ Hw2 Hend (eq_sym E2)).
Qed.

(** ** One call *)

(** The bits a decoder has still to read, [rest] being the bytes not consumed. *)
Definition pending_bits (self : Explode) (rest : list byte) : list bool :=
  low_bits (N.to_nat (ex_saved_count self)) (ex_saved_buffer self) ++ bits_of rest.

(** Where a decoder can be in [input] after producing [total]. *)
Inductive stream_point (input : list byte) : Explode → list byte → list byte → Prop :=
| SP_header self :
    window_holds self [] → ex_header_read self = false → ex_finished self = false →
    ex_saved_buffer self = 0 → ex_saved_count self = 0 →
    stream_point input self input []
| SP_tokens self c d toks ws rest total :
    decoding self c d total → ex_finished self = false →
    ex_saved_buffer self < 2 ^ ex_saved_count self → ex_saved_count self < 8 →
    bits_of input = header_word c d ++ ws ++ pending_bits self rest →
    tokens_word c d toks ws → expand [] toks = Some total →
    stream_point input self rest total
| SP_done self rest total :
    ex_finished self = true → exploded input total → stream_point input self rest total.

Lemma explode_new_point input : stream_point input explode_new input [].
Proof.
  apply SP_header; try done. split; try done. intros j Hj. unfold len in Hj. simpl in Hj. lia.
Qed.

Definition call_reader (self : Explode) (chunk : list byte) : BitReader :=
  {| br_input := chunk; br_position := 0;
     br_buffer := ex_saved_buffer self; br_count := ex_saved_count self |}.

(** The bits of a reader over a chunk, with the bytes that follow the chunk. *)
Lemma reader_tail r tail :
  br_position r ≤ len (br_input r) →
  reader_bits r ++ bits_of tail =
    low_bits (N.to_nat (br_count r)) (br_buffer r) ++
    bits_of (drop (N.to_nat (br_position r)) (br_input r ++ tail)).
Proof.
  intros Hp. unfold reader_bits. rewrite <-app_assoc. f_equal.
  rewrite <-bits_of_app. f_equal. rewrite drop_app_le; [done|]. unfold len in Hp. lia.
Qed.

Lemma call_reader_bits self chunk tail :
  reader_bits (call_reader self chunk) ++ bits_of tail = pending_bits self (chunk ++ tail).
Proof. rewrite reader_tail by (simpl; lia). done. Qed.

Lemma no_token_tail c d (last : bool) bits (tail : list byte) :
  (last = true → tail = []) → last = true ∧ no_token c d bits → no_token c d (bits ++ bits_of tail).
Proof. intros Ht [-> Hno]. rewrite (Ht eq_refl), app_nil_r. exact Hno. Qed.

Lemma bad_token_tail c d hist bits tail :
  bad_token c d hist bits → bad_token c d hist (bits ++ tail).
Proof.
  intros (tok & w & rest & Hw & Hne & -> & Hbad). exists tok, w, (rest ++ tail).
  by rewrite app_assoc.
Qed.

Definition call_post input self (chunk tail : list byte) (last : bool) (out_budget : N) total buf
    (o : (Explode * list byte) * result IszError Progress) : Prop :=
  len o.1.2 ≤ N.max (len buf) out_budget ∧
  match o with
  | ((self', buf'), Ok p) => ∃ new, buf' = buf ++ new ∧ pg_consumed p ≤ len chunk ∧
      stream_point input self' (drop (N.to_nat (pg_consumed p)) (chunk ++ tail)) (total ++ new) ∧
      pg_finished p = ex_finished self' ∧
      (pg_finished p = false → out_budget < len buf' + MAX_MATCH ∨
         last = false ∧ len chunk < pg_consumed p + 6) ∧
      (ex_finished self = false → pg_finished p = true → len buf' + MAX_MATCH ≤ out_budget)
  | (_, Err e) => e = ZE_DecompressionFailed ∧ ∀ out, ¬ exploded input out
  end.

Lemma length_bits_of l : length (bits_of l) = (8 * length l)%nat.
Proof. induction l as [|b l IH]; [done|]. rewrite bits_of_cons, length_app, IH, length_low_bits. simpl. lia. Qed.

(** A reader without a whole token left is at the end of its chunk. *)
Lemma no_token_short c d r :
  d ≤ 6 → no_token c d (reader_bits r) → len (br_input r) < br_position r + 6.
Proof.
  intros Hd Hno. destruct (N.lt_ge_cases (len (br_input r)) (br_position r + 6)) as [|Hge]; [done|].
  destruct (token_word_complete c d Hd (reader_bits r)) as (tok & w & rest & Hw & E & _).
  - unfold reader_bits, len in *. rewrite length_app, length_bits_of, length_drop. lia.
  - by destruct (Hno tok w rest Hw).
Qed.

(** The loop, from a decoder between two tokens. *)
Lemma loop_point input self r c d toks ws total chunk tail last out_budget buf finished :
  decoding self c d total → ex_finished self = false → reader_wf r → br_count r < 8 →
  br_input r = chunk → (last = true → tail = []) →
  bits_of input = header_word c d ++ ws ++ reader_bits r ++ bits_of tail →
  tokens_word c d toks ws → expand [] toks = Some total →
  ex_finished finished = false →
  call_post input finished chunk tail last out_budget total buf
    (let '((self, _, out), res) :=
       (finished ← decode_loop (N.to_nat out_budget) last out_budget;
        (if finished : bool then mret tt else ex_save);;
        self ← get;
        mret {| pg_consumed := br_position self.1.2; pg_finished := finished |}) (self, r, buf) in
     ((self, out), res)).
Proof.
  intros Hd Hfin Hwf Hc Hin Htail E Hws Hexp Hlive. unfold mbind at 1, M_bind at 1.
  pose proof (decode_loop_spec (N.to_nat out_budget) c d last out_budget self r buf total Hd Hwf Hc
    ltac:(unfold MAX_MATCH; lia)) as Hl.
  pose proof (dc_range _ _ _ _ Hd) as Hrange.
  destruct (decode_loop _ _ _ _) as [[[self' r'] out'] [fin|e]]; destruct Hl as [Hmax Hl];
    cbn [fst snd] in Hmax.
  - destruct Hl as (toks' & ws' & new & r1 & [Hws' Hb (Hwf1 & Hc1 & Hin1) Hexp'] & -> & Hd' & Hrest).
    rewrite Hb, <-!app_assoc in E. rewrite (app_assoc ws ws') in E.
    assert (Hall : tokens_word c d (toks ++ toks') (ws ++ ws')) by by apply tokens_word_app.
    assert (Hexp2 : expand [] (toks ++ toks') = Some (total ++ new)) by by rewrite expand_app, Hexp.
    destruct fin.
    + destruct Hrest as ((wend & Hend & Hb') & ([_ Hp'] & _ & Hin') & Hfin' & _ & _ & Hroom).
      split; [exact Hmax|]. exists new. split; [done|]. rewrite Hin', Hin in Hp'. split; [done|].
      split; [|by split_and!]. apply SP_done; [done|].
      exists c, d, (toks ++ toks'), (ws ++ ws'), wend, (reader_bits r' ++ bits_of tail).
      split_and!; try done; [lia..|]. rewrite E, Hb'. unfold header_word. by rewrite <-!app_assoc.
    + destruct Hrest as (-> & Hfin' & Hstop). split; [exact Hmax|]. exists new. split; [done|].
      destruct Hwf1 as [Hwfb Hwfp].
      assert (Hp : br_position r' ≤ len chunk) by by rewrite <-Hin, <-Hin1.
      assert (Hfin2 : ex_finished (put_saved (br_buffer r') (br_count r') self') = false)
        by (destruct self'; simpl in *; congruence).
      split; [exact Hp|]. split.
      * eapply (SP_tokens _ _ c d (toks ++ toks') (ws ++ ws')); try done.
        -- by apply decoding_saved.
        -- by destruct self'.
        -- by destruct self'.
        -- rewrite E. rewrite reader_tail by done. rewrite Hin1, Hin. unfold pending_bits.
           by destruct self'.
      * split; [by symmetry|]. split; [|done]. intros _. destruct Hstop as [?|[-> Hno]]; [by left|right].
        split; [done|]. rewrite <-Hin, <-Hin1. by apply (no_token_short c d); [lia|].
  - destruct Hl as (-> & toks' & ws' & new & r1 & [Hws' Hb _ Hexp'] & Hrest).
    split; [exact Hmax|]. split; [done|].
    intros out. rewrite Hb, <-!app_assoc in E. rewrite (app_assoc ws ws') in E.
    eapply (exploded_stuck input out c d (toks ++ toks') (ws ++ ws')); [done|exact E| | |].
    + by apply tokens_word_app.
    + by rewrite expand_app, Hexp.
    + destruct Hrest as [Hbad|Hno]; [left; by apply bad_token_tail|right].
      by eapply no_token_tail.
Qed.

(** No header, or no good one. *)
Lemma no_header input out chunk tail :
  (∀ a b rest, a < 2 ^ 8 → b < 2 ^ 8 → bits_of chunk ≠ low_bits 8 a ++ low_bits 8 b ++ rest) →
  input = chunk ++ tail → tail = [] → ¬ exploded input out.
Proof.
  intros Hno -> -> (c & d & toks & ws & wend & rest & Hd & E & _). rewrite app_nil_r in E.
  eapply Hno; [| |exact E]; [by destruct c|lia].
Qed.

Lemma no_header_short chunk :
  (∀ a b rest, a < 2 ^ 8 → b < 2 ^ 8 → bits_of chunk ≠ low_bits 8 a ++ low_bits 8 b ++ rest) →
  len chunk < 0 + 6.
Proof.
  intros Hno. destruct chunk as [|a [|b chunk]]; [done..|].
  destruct (Hno (Byte.to_N a) (Byte.to_N b) (bits_of chunk)); try apply byte_to_N_lt.
  by rewrite !bits_of_cons.
Qed.

Lemma bad_header input out a b rest :
  a < 2 ^ 8 → b < 2 ^ 8 → bits_of input = low_bits 8 a ++ low_bits 8 b ++ rest →
  ¬ (a ≤ 1 ∧ 4 ≤ b ≤ 6) → ¬ exploded input out.
Proof.
  intros Ha Hb E Hn (c & d & toks & ws & wend & rest' & Hd & E' & _). rewrite E in E'.
  apply app_inj_1 in E' as [E1 E']; [|by rewrite !length_low_bits].
  apply app_inj_1 in E' as [E2 _]; [|by rewrite !length_low_bits].
  apply low_bits_inj in E1; [|done|by destruct c]. apply low_bits_inj in E2; [|done|lia].
  apply Hn. subst. destruct c; lia.
Qed.

Lemma ex_decode_point input self chunk tail total last out_budget buf :
  stream_point input self (chunk ++ tail) total → (last = true → tail = []) →
  MAX_MATCH ≤ out_budget →
  call_post input self chunk tail last out_budget total buf
    (ex_decode chunk last out_budget (self, buf)).
Proof.
  intros Hpoint Htail Hbudget. unfold ex_decode. rewrite (proj2 (N.ltb_ge _ _)) by done.
  inversion Hpoint as [self0 Hwin Hh Hfin Hb Hc|self0 c d toks ws rest total' Hd Hfin Hb Hc E Hws Hexp
                      |self0 rest total' Hfin Hex]; subst.
  - rewrite Hfin. fold (call_reader self chunk). set (r := call_reader self chunk).
    assert (Hwf : reader_wf r) by (split; simpl; [rewrite Hb, Hc; by vm_compute|lia]).
    assert (Hc' : br_count r < 8) by (simpl; rewrite Hc; lia).
    pose proof (read_stream_header_run self r buf Hh Hwf Hc') as Hrun.
    assert (Hbits : reader_bits r = bits_of chunk) by (unfold reader_bits; simpl; by rewrite Hc).
    unfold mbind at 1, M_bind at 1.
    destruct (read_stream_header (self, r, buf)) as [[[self1 r1] buf1] [[[]|]|e]].
    + destruct Hrun as (c & d & Hd & E & (Hwf1 & Hc1 & Hin1) & -> & ->).
      eapply (loop_point _ _ r1 c d [] []); try done; [| | |constructor].
      * split; [|by destruct self..|done]. destruct Hwin, self. by split.
      * by destruct self.
      * by rewrite bits_of_app, <-Hbits, E, <-app_assoc.
    + destruct Hrun as (-> & -> & Hno). rewrite Hbits in Hno. unfold ex_suspend, call_post.
      destruct last; cbn [fst snd lift]; (split; [lia|]).
      * split; [done|]. intros out. by eapply no_header; [..|apply Htail].
      * exists []. rewrite !app_nil_r. split_and!; try done; [simpl; lia|].
        intros _. right. split; [done|]. by apply no_header_short.
    + destruct Hrun as (-> & -> & a & b & rest & Ha & Hb' & E & Hn). unfold call_post.
      cbn [fst snd]. split; [lia|]. split; [done|]. intros out.
      eapply (bad_header _ _ a b (rest ++ bits_of tail)); [done..| |done].
      by rewrite bits_of_app, <-Hbits, E, <-!app_assoc.
  - rewrite Hfin. fold (call_reader self chunk).
    rewrite (M_bind_step read_stream_header _ _ (self, call_reader self chunk, buf) (Some tt));
      [|unfold read_stream_header, mbind, M_bind, get; simpl; by rewrite (dc_header _ _ _ _ Hd)].
    eapply (loop_point _ _ (call_reader self chunk) c d toks ws); try done.
    + split; [done|]. simpl. lia.
    + by rewrite E, call_reader_bits.
  - rewrite Hfin. unfold call_post. cbn [fst snd]. split; [lia|].
    exists []. rewrite !app_nil_r. split_and!; try done; [simpl; lia|].
    by rewrite Hfin.
Qed.
