(* ===== verification/ExplodeRuns.v ===== *)
(** * Decoding a whole stream

    The one-shot decoder and callers that feed the stream chunk by chunk and
    drain the output as they like, against the meaning of a stream of
    [ExplodeSpec.v]. *)

From S2P Require Export ExplodeSpec.

(** ** Callers *)

(** One call: how many of the remaining bytes it is given, whether the output
    buffer is drained first, and the budget. The caller says [last] when it
    gives all that is left. *)
Record Call : Type := {
  cl_chunk : N;
  cl_drain : bool;
  cl_budget : N
}.

(** The decoder, the bytes not consumed, the buffer, and all output so far. *)
Abbreviation Feeding := (Explode * list byte * list byte * list byte)%type.

Definition feed (call : Call) (s : Feeding) : result IszError Feeding :=
  let '(self, rest, buf, total) := s in
  let buf := if cl_drain call then [] else buf in
  match ex_decode (take (N.to_nat (cl_chunk call)) rest) (len rest <=? cl_chunk call)
          (cl_budget call) (self, buf) with
  | (_, Err e) => Err e
  | ((self, buf'), Ok progress) =>
      Ok (self, drop (N.to_nat (pg_consumed progress)) rest, buf', total ++ drop (length buf) buf')
  end.

Fixpoint feed_all (calls : list Call) (s : Feeding) : result IszError Feeding :=
  match calls with
  | [] => Ok s
  | call :: calls => s ← feed call s; feed_all calls s
  end.

Lemma feed_run input call self rest buf total :
  stream_point input self rest total → MAX_MATCH ≤ cl_budget call →
  match feed call (self, rest, buf, total) with
  | Ok (self', rest', buf', total') => ∃ new,
      stream_point input self' rest' total' ∧ total' = total ++ new ∧
      buf' = (if cl_drain call then [] else buf) ++ new ∧
      len buf' ≤ N.max (len buf) (cl_budget call) ∧
      (ex_finished self' = false →
       cl_budget call < len buf' + MAX_MATCH ∨ cl_chunk call + len rest' < len rest + 6)
  | Err e => e = ZE_DecompressionFailed ∧ ∀ out, ¬ exploded input out
  end.
Proof.
  intros Hp Hb. unfold feed. set (chunk := take _ rest). set (tail := drop (N.to_nat (cl_chunk call)) rest).
  assert (Hrest : chunk ++ tail = rest) by apply take_drop.
  rewrite <-Hrest in Hp at 1.
  assert (Htail : (len rest <=? cl_chunk call) = true → tail = []).
  { intros Hl%N.leb_le. apply drop_ge. unfold len in Hl. lia. }
  set (buf0 := if cl_drain call then [] else buf).
  assert (Hbuf0 : len buf0 ≤ len buf).
  { subst buf0. destruct (cl_drain call); [rewrite len_nil|]; lia. }
  pose proof (ex_decode_point input self chunk tail total _ (cl_budget call) buf0 Hp Htail Hb) as H.
  destruct (ex_decode _ _ _ _) as [[self' buf'] [p|e]]; destruct H as [Hmax H]; cbn [fst snd] in Hmax.
  - destruct H as (new & -> & _ & Hp' & Hfin & Hstop & _). exists new. rewrite Hrest in Hp'.
    rewrite drop_app_length. split_and!; try done; [lia|]. intros Hf.
    destruct Hstop as [?|[Hl' Hshort]]; [by rewrite Hfin|by left|right]. apply N.leb_gt in Hl'.
    unfold chunk, len in *. rewrite length_take in *. rewrite length_drop. lia.
  - exact H.
Qed.

Lemma feed_all_run input calls bound self rest buf total :
  stream_point input self rest total → len buf ≤ bound →
  Forall (λ call, MAX_MATCH ≤ cl_budget call ≤ bound) calls →
  match feed_all calls (self, rest, buf, total) with
  | Ok (self', rest', buf', total') =>
      stream_point input self' rest' total' ∧ total `prefix_of` total' ∧ len buf' ≤ bound
  | Err e => e = ZE_DecompressionFailed ∧ ∀ out, ¬ exploded input out
  end.
Proof.
  intros Hp Hb Hcalls. revert self rest buf total Hp Hb.
  induction Hcalls as [|call calls [Hlo Hhi] _ IH]; intros self rest buf total Hp Hb; [done|].
  cbn [feed_all mbind result_bind]. pose proof (feed_run input call self rest buf total Hp Hlo) as Hf.
  destruct (feed call _) as [[[[self' rest'] buf'] total']|e]; [|exact Hf]. cbn.
  destruct Hf as (new & Hp' & -> & _ & Hmax & _).
  specialize (IH self' rest' buf' (total ++ new) Hp' ltac:(lia)).
  destruct (feed_all calls _) as [[[[self2 rest2] buf2] total2]|e]; [|exact IH].
  destruct IH as (Hp2 & Hpre & Hb2). split_and!; [done| |done].
  etrans; [|exact Hpre]. by apply prefix_app_r.
Qed.

Lemma point_prefix input self rest total out :
  stream_point input self rest total → exploded input out → total `prefix_of` out.
Proof.
  intros Hp Hex. destruct Hp as [self|self c d toks ws rest total Hd _ _ _ E Hws Hexp|self rest total _ Hex'].
  - apply prefix_nil.
  - destruct (exploded_from _ _ _ _ _ _ _ (dc_range _ _ _ _ Hd) E Hws Hex) as
      (toks2 & ws2 & wend & rest2 & h & _ & _ & _ & Hh & Hout).
    rewrite Hexp in Hh. injection Hh as <-. by eapply expand_prefix.
  - by rewrite (exploded_functional _ _ _ Hex Hex').
Qed.

Lemma point_finished input self rest total :
  stream_point input self rest total → ex_finished self = true → exploded input total.
Proof. intros Hp E. destruct Hp; [congruence..|done]. Qed.

(** ** Properties *)

(** C10: The decoder is indifferent to chunks. Whatever pieces a caller feeds of a
    stream, whenever it drains its buffer, and whatever budgets of at least one
    match it sets: no call fails unless the stream is no imploded stream; the
    output so far is the beginning of what the stream expands to, and all of it
    once the decoder is finished, which then was an imploded stream; and the
    buffer never outgrows the largest budget. *)
Theorem explode_streaming input calls bound :
  Forall (λ call, MAX_MATCH ≤ cl_budget call ≤ bound) calls →
  match feed_all calls (explode_new, input, [], []) with
  | Ok (self, _, buf, total) =>
      (∀ out, exploded input out → total `prefix_of` out) ∧
      (ex_finished self = true → exploded input total) ∧
      len buf ≤ bound
  | Err e => e = ZE_DecompressionFailed ∧ ∀ out, ¬ exploded input out
  end.
Proof.
  intros Hcalls.
  pose proof (feed_all_run input calls bound _ _ [] [] (explode_new_point input) (N.le_0_l _) Hcalls) as H.
  destruct (feed_all _ _) as [[[[self rest] buf] total]|e]; [|exact H].
  destruct H as (Hp & _ & Hb). split_and!; [|by apply (point_finished _ _ _ _ Hp)|done].
  intros out. by apply (point_prefix _ _ _ _ _ Hp).
Qed.

(** A caller that makes progress: it drains its buffer, leaves room for a match,
    and hands over six bytes, more than any token has, or all that is left. *)
Definition supplies (call : Call) : Prop :=
  cl_drain call = true ∧ MAX_MATCH ≤ cl_budget call ∧ 6 ≤ cl_chunk call.

Lemma finished_calls calls self rest buf total :
  ex_finished self = true → Forall supplies calls →
  ∃ self' rest' buf', feed_all calls (self, rest, buf, total) =
    Ok (self', rest', buf', total) ∧ ex_finished self' = true.
Proof.
  intros Hfin Hcalls. revert rest buf. induction Hcalls as [|call calls (Hdrain & Hb & _) _ IH]; intros rest buf.
  { by exists self, rest, buf. }
  cbn [feed_all mbind result_bind]. unfold feed at 1, ex_decode.
  rewrite (proj2 (N.ltb_ge _ _)), Hfin, Hdrain by done. cbn. rewrite app_nil_r. by apply IH.
Qed.

(** What is left of the stream and of its expansion shrinks with every call. *)
Lemma finishing_calls input out calls self rest buf total :
  exploded input out → Forall supplies calls → stream_point input self rest total →
  len rest + len out < len total + len calls →
  ∃ self' rest' buf', feed_all calls (self, rest, buf, total) =
    Ok (self', rest', buf', out) ∧ ex_finished self' = true.
Proof.
  intros Hex Hcalls. revert self rest buf total. induction Hcalls as [|call calls Hcall Hcalls IH];
    intros self rest buf total Hp Hn.
  { apply (point_prefix _ _ _ _ _ Hp) in Hex as [k ->]. rewrite len_app, len_nil in Hn. lia. }
  pose proof Hcall as (Hdrain & Hb & Hsix). cbn [feed_all mbind result_bind]. rewrite len_cons in Hn.
  pose proof (feed_run input call self rest buf total Hp Hb) as Hf.
  destruct (feed call _) as [[[[self1 rest1] buf1] total1]|e] eqn:Ef; [|by destruct Hf as [_ []%(λ H, H out)]].
  destruct Hf as (new & Hp1 & -> & Hbuf1 & _ & Hstop). cbn. rewrite Hdrain, app_nil_l in Hbuf1. subst buf1.
  assert (Hrest1 : len rest1 ≤ len rest).
  { unfold feed in Ef. destruct (ex_decode _ _ _ _) as [[? ?] [p|e]]; [|done].
    injection Ef as _ <- _ _. unfold len in *. rewrite length_drop. lia. }
  destruct (ex_finished self1) eqn:Efin.
  - pose proof (point_finished _ _ _ _ Hp1 Efin) as Hex1.
    rewrite <-(exploded_functional _ _ _ Hex Hex1). by apply finished_calls.
  - apply IH; [exact Hp1|]. rewrite len_app. specialize (Hstop eq_refl). lia.
Qed.

(** C37: Decoding comes to an end. A caller that hands over at least six bytes of
    an imploded stream in every call, or all that is left of it, drains its
    buffer and leaves room for one match, is finished with exactly the expansion
    after at most one call more than the stream and the expansion have bytes;
    further calls change nothing. Six bytes hold the header and any token: the
    decoder wants each of them in one piece. *)
Theorem explode_finishes input out calls :
  exploded input out → Forall supplies calls → len input + len out < len calls →
  ∃ self rest buf,
    feed_all calls (explode_new, input, [], []) = Ok (self, rest, buf, out) ∧ ex_finished self = true.
Proof.
  intros Hex Hcalls Hn. eapply finishing_calls; [done|done|apply explode_new_point|].
  rewrite len_nil. lia.
Qed.

(** A caller that hands over the header one byte at a time is stuck in front of it. *)
Example single_bytes_stick budget :
  MAX_MATCH ≤ budget →
  feed {| cl_chunk := 1; cl_drain := true; cl_budget := budget |} (explode_new, [x00; x04; x82], [], []) =
    Ok (explode_new, [x00; x04; x82], [], []).
Proof. intros Hb. unfold feed, ex_decode. cbn [cl_budget cl_drain cl_chunk]. by rewrite (proj2 (N.ltb_ge _ _)). Qed.

(** [explode_to_vec] always returns, and returns exactly the expansion of the
    imploded stream its input starts with, if that leaves the room of one match
    in the output limit; it fails with [DecompressionFailed] for everything
    else, and with [InvalidInput] if the limit is below one match. *)
Theorem explode_to_vec_exact fuel input max_output :
  match explode_to_vec (S fuel) input max_output with
  | Some (Ok out) => exploded input out ∧ len out + MAX_MATCH ≤ max_output
  | Some (Err e) =>
      if max_output <? MAX_MATCH then e = ZE_InvalidInput
      else e = ZE_DecompressionFailed ∧
           ∀ out, exploded input out → max_output < len out + MAX_MATCH
  | None => False
  end.
Proof.
  unfold explode_to_vec. destruct (N.ltb_spec max_output MAX_MATCH) as [_|Hb]; [done|].
  cbn [explode_loop]. change (drop (N.to_nat 0) input) with input.
  pose proof (ex_decode_point input explode_new input [] [] true max_output []) as H.
  rewrite app_nil_r in H. specialize (H (explode_new_point input) (λ _, eq_refl) Hb).
  destruct (ex_decode input true max_output (explode_new, [])) as [[self buf] [p|e]];
    destruct H as [_ H].
  - destruct H as (new & -> & _ & Hp & Hfin & Hstop & Hroom). destruct (pg_finished p) eqn:Ep.
    + split; [|by apply Hroom]. by eapply point_finished.
    + destruct (Hstop eq_refl) as [Hfull|[? _]]; [|done]. rewrite (proj2 (N.ltb_lt _ _)) by done. split; [done|].
      intros out Hex. apply (point_prefix _ _ _ _ _ Hp) in Hex as [k ->].
      rewrite !app_nil_l in *. rewrite len_app. lia.
  - destruct H as [-> Hno]. split; [done|]. intros out Hex. by destruct (Hno out).
Qed.

(** ** Witnesses *)

(** A published stream, which expands to "AIAIAIAIAIAIA". *)
Definition known_answer : list byte := [x00; x04; x82; x24; x25; x8f; x80; x7f].
Definition known_expansion : list byte :=
  [x41; x49; x41; x49; x41; x49; x41; x49; x41; x49; x41; x49; x41].

Lemma known_answer_decodes : explode_to_vec 1 known_answer 4096 = Some (Ok known_expansion).
Proof. by vm_compute. Qed.

Lemma known_answer_exploded : exploded known_answer known_expansion.
Proof.
  pose proof (explode_new_point known_answer) as Hp.
  pose proof (ex_decode_point known_answer explode_new known_answer [] [] true 4096 []) as H.
  rewrite app_nil_r in H. specialize (H Hp (λ _, eq_refl) ltac:(done)) as [_ H].
  destruct (ex_decode known_answer true 4096 (explode_new, [])) as [[self buf] [p|e]] eqn:E;
    [|vm_compute in E; discriminate E].
  destruct H as (new & -> & _ & Hp' & Hfin & _).
  apply (f_equal (λ o, (o.1.2, pg_finished <$> o.2))) in E. vm_compute in E. injection E as <- E.
  apply (point_finished _ _ _ _ Hp'). by rewrite <-Hfin, E.
Qed.

Definition piecewise : list Call :=
  replicate 10 {| cl_chunk := 5; cl_drain := true; cl_budget := 518 |}.

Lemma explode_streaming_witness :
  ∃ self rest buf total, feed_all piecewise (explode_new, known_answer, [], []) =
    Ok (self, rest, buf, total) ∧ total `prefix_of` known_expansion ∧ len buf ≤ 518.
Proof.
  pose proof (explode_streaming known_answer piecewise 518 ltac:(by repeat constructor)) as H.
  destruct (feed_all piecewise (explode_new, known_answer, [], [])) as [[[[self rest] buf] total]|e] eqn:E;
    [|vm_compute in E; discriminate E].
  destruct H as (Hpre & _ & Hb). exists self, rest, buf, total.
  split; [reflexivity|]. split; [|exact Hb]. exact (Hpre _ known_answer_exploded).
Defined.

(** Pieces of six and seven bytes by turns. *)
Definition supplying : list Call :=
  (λ i, {| cl_chunk := 6 + N.of_nat i mod 2; cl_drain := true; cl_budget := 518 |}) <$> seq 0 22.

Lemma explode_finishes_witness :
  ∃ self rest buf,
    feed_all supplying (explode_new, known_answer, [], []) = Ok (self, rest, buf, known_expansion) ∧
    ex_finished self = true.
Proof. apply (explode_finishes known_answer known_expansion supplying known_answer_exploded); [repeat constructor|]; done. Defined.
