(* ===== verification/IszArchive.v ===== *)
(** * InstallShield 3 archives

    Crate ohl-isz except its decoder: [crates/ohl-isz/src/{bytes,limits,header,
    toc,source,archive}.rs]. The byte source and the cancellation token an
    archive is read with are classes over the world they look at. *)

From S2P Require Export Explode.

(** ** [bytes.rs] *)

Definition le16 (bytes : list byte) (at_ : N) : N := of_le_bytes (subslice at_ 2 bytes).
Definition le32 (bytes : list byte) (at_ : N) : N := of_le_bytes (subslice at_ 4 bytes).

(** [bytes[at]], which the callers keep in range. *)
Definition byte_at (bytes : list byte) (at_ : N) : N := Byte.to_N (nth (N.to_nat at_) bytes x00).

(** ** [limits.rs] *)

Record IszLimits : Type := {
  zl_scan_bytes : N;
  zl_archive_bytes : N;
  zl_directories : N;
  zl_entries : N;
  zl_directory_bytes : N;
  zl_name_bytes : N;
  zl_stored_bytes_per_entry : N;
  zl_expanded_bytes_per_entry : N;
  zl_total_expanded_bytes : N;
  zl_chunk_bytes : N
}.

Definition isz_limits_hard : IszLimits :=
  {| zl_scan_bytes := 8 * 1024 * 1024 * 1024;
     zl_archive_bytes := 8 * 1024 * 1024 * 1024;
     zl_directories := 65535;
     zl_entries := 65535;
     zl_directory_bytes := 64 * 1024 * 1024;
     zl_name_bytes := 1024;
     zl_stored_bytes_per_entry := 4 * 1024 * 1024 * 1024;
     zl_expanded_bytes_per_entry := 4 * 1024 * 1024 * 1024;
     zl_total_expanded_bytes := 64 * 1024 * 1024 * 1024;
     zl_chunk_bytes := 8 * 1024 * 1024 |}.

Definition isz_limits_default : IszLimits :=
  {| zl_scan_bytes := 2 * 1024 * 1024 * 1024;
     zl_archive_bytes := 4 * 1024 * 1024 * 1024;
     zl_directories := 8192;
     zl_entries := 65535;
     zl_directory_bytes := 8 * 1024 * 1024;
     zl_name_bytes := 260;
     zl_stored_bytes_per_entry := 1024 * 1024 * 1024;
     zl_expanded_bytes_per_entry := 2 * 1024 * 1024 * 1024;
     zl_total_expanded_bytes := 8 * 1024 * 1024 * 1024;
     zl_chunk_bytes := 64 * 1024 |}.

Definition isz_limits_validate (self : IszLimits) : result IszError unit :=
  let ok (field : IszLimits → N) :=
    negb (field self =? 0) && (field self <=? field isz_limits_hard) in
  guard_err (negb (ok zl_scan_bytes && ok zl_archive_bytes && ok zl_directories &&
                   ok zl_entries && ok zl_directory_bytes && ok zl_name_bytes &&
                   ok zl_stored_bytes_per_entry && ok zl_expanded_bytes_per_entry &&
                   ok zl_total_expanded_bytes && ok zl_chunk_bytes)) ZE_InvalidInput.

(** ** [header.rs] *)

Definition SIGNATURE_WORD_1 : N := 0x8c655d13.
Definition SIGNATURE_WORD_2 : N := 0x0002013a.
Definition SIGNATURE : list byte := [x13; x5d; x65; x8c; x3a; x01; x02; x00].
Definition HEADER_SIZE : N := 59.
Definition DATA_START : N := 255.

Record ArchiveHeader : Type := {
  ah_entry_count : N;
  ah_directory_count : N;
  ah_archive_size : N;
  ah_expanded_size : N;
  ah_datetime : N;
  ah_multi_volume : N;
  ah_volume_count : N;
  ah_volume_number : N;
  ah_split_begin : N;
  ah_split_end : N;
  ah_toc_offset : N
}.

Definition toc_bytes (self : ArchiveHeader) : N := ah_archive_size self - ah_toc_offset self.

Definition is_multi_volume (self : ArchiveHeader) : bool :=
  negb (ah_multi_volume self =? 0) || (1 <? ah_volume_count self) || (1 <? ah_volume_number self).

Definition archive_header_validate (self : ArchiveHeader) (limits : IszLimits)
  : result IszError unit :=
  guard_err (zl_archive_bytes limits <? ah_archive_size self) (ZE_LimitExceeded ZL_ArchiveBytes);;
  guard_err (zl_directories limits <? ah_directory_count self) (ZE_LimitExceeded ZL_Directories);;
  guard_err (zl_entries limits <? ah_entry_count self) (ZE_LimitExceeded ZL_Entries);;
  guard_err (ah_archive_size self <? DATA_START) ZE_OutOfRange;;
  guard_err ((ah_toc_offset self <? DATA_START) || (ah_archive_size self <=? ah_toc_offset self))
    ZE_OutOfRange;;
  guard_err (zl_directory_bytes limits <? toc_bytes self) (ZE_LimitExceeded ZL_DirectoryBytes);;
  guard_err (negb (Bool.eqb (ah_directory_count self =? 0) (ah_entry_count self =? 0)))
    ZE_InvalidInput.

(** The fields, before they are validated. *)
Definition archive_header_fields (bytes : list byte) : ArchiveHeader :=
  {| ah_multi_volume := le16 bytes 0x0a;
     ah_entry_count := le16 bytes 0x0c;
     ah_datetime := le32 bytes 0x0e;
     ah_archive_size := le32 bytes 0x12;
     ah_expanded_size := le32 bytes 0x16;
     ah_volume_count := byte_at bytes 0x1e;
     ah_volume_number := byte_at bytes 0x1f;
     ah_split_begin := le32 bytes 0x21;
     ah_split_end := le32 bytes 0x25;
     ah_toc_offset := le32 bytes 0x29;
     ah_directory_count := le16 bytes 0x31 |}.

Definition archive_header_parse (bytes : list byte) (limits : IszLimits)
  : result IszError ArchiveHeader :=
  isz_limits_validate limits;;
  guard_err (len bytes <? HEADER_SIZE) ZE_Truncated;;
  guard_err (negb (le32 bytes 0x00 =? SIGNATURE_WORD_1) || negb (le32 bytes 0x04 =? SIGNATURE_WORD_2))
    ZE_BadSignature;;
  let header := archive_header_fields bytes in
  archive_header_validate header limits;;
  Ok header.

Definition archive_header_encode (self : ArchiveHeader) : list byte :=
  let bytes := replicate (N.to_nat HEADER_SIZE) x00 in
  let bytes := splice 0x00 (le_bytes 4 SIGNATURE_WORD_1) bytes in
  let bytes := splice 0x04 (le_bytes 4 SIGNATURE_WORD_2) bytes in
  let bytes := splice 0x0a (le_bytes 2 (ah_multi_volume self)) bytes in
  let bytes := splice 0x0c (le_bytes 2 (ah_entry_count self)) bytes in
  let bytes := splice 0x0e (le_bytes 4 (ah_datetime self)) bytes in
  let bytes := splice 0x12 (le_bytes 4 (ah_archive_size self)) bytes in
  let bytes := splice 0x16 (le_bytes 4 (ah_expanded_size self)) bytes in
  let bytes := splice 0x1e [byte_of_N (ah_volume_count self)] bytes in
  let bytes := splice 0x1f [byte_of_N (ah_volume_number self)] bytes in
  let bytes := splice 0x21 (le_bytes 4 (ah_split_begin self)) bytes in
  let bytes := splice 0x25 (le_bytes 4 (ah_split_end self)) bytes in
  let bytes := splice 0x29 (le_bytes 4 (ah_toc_offset self)) bytes in
  splice 0x31 (le_bytes 2 (ah_directory_count self)) bytes.

(** ** [source.rs] *)

(** [trait ArchiveSource]: what is in the buffer afterwards, and the count or
    the payload-free [SourceError]. *)
Class ArchiveSource (W : Type) : Type :=
  source_read_at : N → list byte → W → W * (list byte * result unit N).

(** [trait Cancellation]: every poll may answer differently. *)
Class Cancellation (W : Type) : Type := is_cancelled : W → W * bool.

Class ArchiveSourceLaws (W : Type) `{ArchiveSource W} : Prop :=
  source_keeps_length offset buf w :
    length (fst (snd (source_read_at offset buf w))) = length buf.

(** A slice never changes: its world is [unit]. *)
Definition SliceSource (bytes : list byte) : ArchiveSource unit := λ offset buf w,
  if len bytes <? offset then (w, (buf, Ok 0))
  else
    let available := drop (N.to_nat offset) bytes in
    let taken := N.min (len available) (len buf) in
    (w, (splice 0 (take (N.to_nat taken) available) buf, Ok taken)).

(** The token [NeverCancelled]. *)
Definition never_signalled : Cancellation unit := λ w, (w, false).

Section source.
Context {W : Type} `{ArchiveSource W} `{Cancellation W}.

Definition check_cancelled : M W IszError unit := λ w,
  let '(w, cancelled) := is_cancelled w in
  (w, if cancelled : bool then Err ZE_Cancelled else Ok tt).

(** [source.read_at(at, &mut buf[start..stop])?]. *)
Definition read_slice (at_ start stop : N) : M (W * list byte) IszError N := λ '(w, buf),
  let '(w, (filled, r)) := source_read_at at_ (subslice start (stop - start) buf) w in
  ((w, splice start filled buf), map_err (λ _, ZE_Source) r).

(** The loop of [read_exact_at]; every turn but the last reads a byte. *)
Fixpoint read_exact_loop (turns : nat) (offset done : N) : M (W * list byte) IszError unit :=
  match turns with
  | O => mret tt
  | S turns =>
      self ← get;
      if done <? len self.2 then
        at_ ← lift (ok_or (checked_add 64 offset done) ZE_OutOfRange);
        read ← read_slice at_ done (len self.2);
        (if read =? 0 then throw ZE_Truncated else mret tt);;
        done ← lift (ok_or (checked_add 64 done read) ZE_OutOfRange);
        (if len self.2 <? done then throw ZE_Truncated else mret tt);;
        read_exact_loop turns offset done
      else mret tt
  end.

Definition read_exact_at (offset : N) : M (W * list byte) IszError unit :=
  self ← get;
  read_exact_loop (S (length self.2)) offset 0.

(** *** [find_signature] *)

(** The inner loop, filling [buffer[..want]]. *)
Fixpoint fill_window (turns : nat) (position want filled : N) : M (W * list byte) IszError N :=
  match turns with
  | O => mret filled
  | S turns =>
      if filled <? want then
        at_ ← lift (ok_or (checked_add 64 position filled) ZE_OutOfRange);
        read ← read_slice at_ filled want;
        if read =? 0 then mret filled
        else
          filled ← lift (match checked_add 64 filled read with
                         | Some done => if done <=? want then Ok done else Err ZE_Truncated
                         | None => Err ZE_Truncated
                         end);
          fill_window turns position want filled
      else mret filled
  end.

(** [.windows(SIGNATURE.len()).position(|candidate| candidate == SIGNATURE)]. *)
Fixpoint signature_position (bytes : list byte) : option N :=
  if bool_decide (take (length SIGNATURE) bytes = SIGNATURE) then Some 0
  else match bytes with
       | [] => None
       | _ :: bytes => N.succ <$> signature_position bytes
       end.

(** The outer loop; [None] inside [Ok] is the code's, and running out of turns
    does not happen since every turn scans eight bytes of the budget. *)
Fixpoint scan_loop (turns : nat) (limits : IszLimits) (window position scanned : N)
  : M (W * list byte) IszError (option N) :=
  match turns with
  | O => mret None
  | S turns =>
      zoom fst (λ w s, (w, s.2)) check_cancelled;;
      if zl_scan_bytes limits <=? scanned then mret None
      else
        let budget := zl_scan_bytes limits - scanned in
        let want := N.min budget window in
        if want <? len SIGNATURE then mret None
        else
          filled ← fill_window (S (N.to_nat want)) position want 0;
          if filled <? len SIGNATURE then mret None
          else
            self ← get;
            match signature_position (take (N.to_nat filled) self.2) with
            | Some index =>
                hit ← lift (ok_or (checked_add 64 position index) ZE_OutOfRange);
                mret (Some hit)
            | None =>
                scanned ← lift (ok_or (checked_add 64 scanned filled)
                                  (ZE_LimitExceeded ZL_ScanBytes));
                if filled <? want then mret None
                else
                  let step := filled - (len SIGNATURE - 1) in
                  position ← lift (ok_or (checked_add 64 position step) ZE_OutOfRange);
                  scan_loop turns limits window position scanned
            end
  end.

(** A call on a buffer of the caller's own. *)
Definition with_buffer {A} (buffer : list byte) (m : M (W * list byte) IszError A)
  : M W IszError A := λ w, let '((w, _), r) := m (w, buffer) in (w, r).

Definition find_signature_from (start : N) (limits : IszLimits) : M W IszError (option N) :=
  lift (isz_limits_validate limits);;
  let window := N.max (zl_chunk_bytes limits) (len SIGNATURE) in
  with_buffer (replicate (N.to_nat window) x00)
    (scan_loop (S (N.to_nat (zl_scan_bytes limits))) limits window start 0).

Definition find_signature (limits : IszLimits) : M W IszError (option N) :=
  find_signature_from 0 limits.
End source.

(** ** [toc.rs] *)

Definition DIRECTORY_RECORD_FIXED : N := 6.
Definition ENTRY_RECORD_FIXED : N := 30.
Definition ATTRIBUTE_UNCOMPRESSED : N := 16.

(** [Name] is its bytes. *)
Definition name_new (bytes : list byte) (limits : IszLimits) : result IszError (list byte) :=
  guard_err (zl_name_bytes limits <? len bytes) (ZE_LimitExceeded ZL_NameBytes);;
  Ok bytes.

Record Directory : Type := {
  di_name : list byte;
  di_entry_count : N
}.

Record Entry : Type := {
  en_name : list byte;
  en_directory_index : N;
  en_index : N;
  en_expanded_size : N;
  en_stored_size : N;
  en_offset : N;
  en_datetime : N;
  en_attributes : N;
  en_split : bool;
  en_volume_start : N;
  en_volume_end : N
}.

Definition is_stored (self : Entry) : bool :=
  negb (N.land (en_attributes self) ATTRIBUTE_UNCOMPRESSED =? 0).
Definition spans_volumes (self : Entry) : bool :=
  en_split self || negb (en_volume_start self =? en_volume_end self).

Record TableOfContents : Type := {
  tc_directories : list Directory;
  tc_entries : list Entry
}.

Definition toc_directory (self : TableOfContents) (index : N) : result IszError Directory :=
  ok_or (tc_directories self !! N.to_nat index) ZE_NotFound.
Definition toc_entry (self : TableOfContents) (index : N) : result IszError Entry :=
  ok_or (tc_entries self !! N.to_nat index) ZE_NotFound.

(** [Cursor] over [bytes]: [at] is the state. *)
Definition cursor_peek (bytes : list byte) (len_ : N) : M N IszError (list byte) :=
  at_ ← get;
  end_ ← lift (ok_or (checked_add 64 at_ len_) ZE_OutOfRange);
  lift (ok_or (get_range at_ end_ bytes) ZE_Truncated).

Definition cursor_advance (bytes : list byte) (record_size minimum : N) : M N IszError unit :=
  at_ ← get;
  if record_size <? minimum then throw ZE_InvalidInput
  else
    next ← lift (ok_or (checked_add 64 at_ record_size) ZE_OutOfRange);
    if len bytes <? next then throw ZE_Truncated else modify (λ _, next).

Definition validate_entry (entry : Entry) (header : ArchiveHeader) (limits : IszLimits)
  : result IszError unit :=
  guard_err (zl_stored_bytes_per_entry limits <? en_stored_size entry)
    (ZE_LimitExceeded ZL_StoredBytesPerEntry);;
  guard_err (zl_expanded_bytes_per_entry limits <? en_expanded_size entry)
    (ZE_LimitExceeded ZL_ExpandedBytesPerEntry);;
  guard_err (en_offset entry <? DATA_START) ZE_OutOfRange;;
  end_ ← ok_or (checked_add 64 (en_offset entry) (en_stored_size entry)) ZE_OutOfRange;
  guard_err (ah_archive_size header <? end_) ZE_OutOfRange;;
  guard_err (is_stored entry && negb (en_stored_size entry =? en_expanded_size entry))
    ZE_InvalidInput.

(** One directory record. *)
Definition parse_directory (toc : list byte) (limits : IszLimits) : M N IszError Directory :=
  fixed ← cursor_peek toc DIRECTORY_RECORD_FIXED;
  let entry_count := le16 fixed 0x00 in
  let record_size := le16 fixed 0x02 in
  let name_len := le16 fixed 0x04 in
  lift (guard_err (zl_name_bytes limits <? name_len) (ZE_LimitExceeded ZL_NameBytes));;
  minimum ← lift (ok_or (checked_add 64 DIRECTORY_RECORD_FIXED name_len) ZE_OutOfRange);
  record ← cursor_peek toc minimum;
  name ← lift (name_new (subslice DIRECTORY_RECORD_FIXED name_len record) limits);
  cursor_advance toc record_size minimum;;
  mret {| di_name := name; di_entry_count := entry_count |}.

(** One entry record of directory [directory_index]. *)
Definition parse_entry (toc : list byte) (header : ArchiveHeader) (limits : IszLimits)
    (directory_index : N) : M N IszError Entry :=
  fixed ← cursor_peek toc ENTRY_RECORD_FIXED;
  let name_len := byte_at fixed 0x1d in
  lift (guard_err (zl_name_bytes limits <? name_len) (ZE_LimitExceeded ZL_NameBytes));;
  minimum ← lift (ok_or (checked_add 64 ENTRY_RECORD_FIXED name_len) ZE_OutOfRange);
  record ← cursor_peek toc minimum;
  let record_size := le16 record 0x17 in
  name ← lift (name_new (subslice ENTRY_RECORD_FIXED name_len record) limits);
  directory_index ← lift (ok_or (try_from 32 directory_index) ZE_OutOfRange);
  let entry :=
    {| en_name := name;
       en_directory_index := directory_index;
       en_index := le16 record 0x01;
       en_expanded_size := le32 record 0x03;
       en_stored_size := le32 record 0x07;
       en_offset := le32 record 0x0b;
       en_datetime := le32 record 0x0f;
       en_attributes := byte_at record 0x19;
       en_split := negb (byte_at record 0x1a =? 0);
       en_volume_start := byte_at record 0x1c;
       en_volume_end := byte_at record 0x00 |} in
  lift (validate_entry entry header limits);;
  cursor_advance toc record_size minimum;;
  mret entry.

Section archive.
Context {W : Type} `{ArchiveSource W} `{Cancellation W}.

(** The cursor next to the world. *)
Definition at_cursor {A} (m : M N IszError A) : M (N * W) IszError A := zoom fst (λ c s, (c, s.2)) m.
Definition poll : M (N * W) IszError unit := zoom snd (λ w s, (s.1, w)) check_cancelled.

Fixpoint parse_directories (count : nat) (toc : list byte) (limits : IszLimits)
    (declared_entries : N) (directories : list Directory)
  : M (N * W) IszError (N * list Directory) :=
  match count with
  | O => mret (declared_entries, directories)
  | S count =>
      poll;;
      directory ← at_cursor (parse_directory toc limits);
      declared_entries ← lift (ok_or (checked_add 32 declared_entries (di_entry_count directory))
                                 ZE_OutOfRange);
      lift (guard_err (zl_entries limits <? declared_entries) (ZE_LimitExceeded ZL_Entries));;
      parse_directories count toc limits declared_entries (directories ++ [directory])
  end.

Fixpoint parse_entries_of (count : nat) (toc : list byte) (header : ArchiveHeader)
    (limits : IszLimits) (directory_index : N) (entries : list Entry)
  : M (N * W) IszError (list Entry) :=
  match count with
  | O => mret entries
  | S count =>
      poll;;
      entry ← at_cursor (parse_entry toc header limits directory_index);
      parse_entries_of count toc header limits directory_index (entries ++ [entry])
  end.

Fixpoint parse_entries (directories : list Directory) (toc : list byte) (header : ArchiveHeader)
    (limits : IszLimits) (directory_index : N) (entries : list Entry)
  : M (N * W) IszError (list Entry) :=
  match directories with
  | [] => mret entries
  | directory :: directories =>
      entries ← parse_entries_of (N.to_nat (di_entry_count directory)) toc header limits
                  directory_index entries;
      parse_entries directories toc header limits (directory_index + 1) entries
  end.

Definition toc_parse (toc : list byte) (header : ArchiveHeader) (limits : IszLimits)
  : M W IszError TableOfContents :=
  lift (isz_limits_validate limits);;
  lift (guard_err (negb (len toc =? toc_bytes header)) ZE_InvalidInput);;
  zoom (λ w, (0, w)) (λ s _, s.2) (
    '(declared_entries, directories) ←
      parse_directories (N.to_nat (ah_directory_count header)) toc limits 0 [];
    lift (guard_err (negb (declared_entries =? ah_entry_count header)) ZE_InvalidInput);;
    entries ← parse_entries directories toc header limits 0 [];
    mret {| tc_directories := directories; tc_entries := entries |}).

(** ** [archive.rs] *)

Record Archive : Type := {
  ar_base : N;
  ar_header : ArchiveHeader;
  ar_toc : TableOfContents;
  ar_limits : IszLimits;
  ar_remaining_total : N
}.

(** [let mut buffer = [0; size]; read_exact_at(source, offset, &mut buffer)?]. *)
Definition read_new (offset size : N) : M W IszError (list byte) :=
  with_buffer (replicate (N.to_nat size) x00)
    (read_exact_at offset;; self ← get; mret self.2).

Definition archive_open (base : N) (limits : IszLimits) : M W IszError Archive :=
  lift (isz_limits_validate limits);;
  check_cancelled;;
  header_bytes ← read_new base HEADER_SIZE;
  header ← lift (archive_header_parse header_bytes limits);
  if is_multi_volume header then throw ZE_SplitArchiveUnsupported
  else if zl_directory_bytes limits <? toc_bytes header
  then throw (ZE_LimitExceeded ZL_DirectoryBytes)
  else
    toc_at ← lift (ok_or (checked_add 64 base (ah_toc_offset header)) ZE_OutOfRange);
    buffer ← read_new toc_at (toc_bytes header);
    check_cancelled;;
    toc ← toc_parse buffer header limits;
    mret {| ar_base := base; ar_header := header; ar_toc := toc; ar_limits := limits;
            ar_remaining_total := zl_total_expanded_bytes limits |}.
End archive.

(** *** [EntryReader] *)

Record EntryReader : Type := {
  er_at : N;
  er_stored_left : N;
  er_expanded_size : N;
  er_written : N;
  er_stored : bool;
  er_chunk : N;
  er_input : list byte;
  er_output : list byte;
  er_output_position : N;
  er_explode : Explode;
  er_finished : bool
}.

Definition er_put_place (at_ stored_left : N) (s : EntryReader) : EntryReader :=
  let (_, _, c, d, e, f, g, h, i, j, k) := s in
  Build_EntryReader at_ stored_left c d e f g h i j k.
Definition er_put_written (x : N) (s : EntryReader) : EntryReader :=
  let (a, b, c, _, e, f, g, h, i, j, k) := s in Build_EntryReader a b c x e f g h i j k.
Definition er_put_input (x : list byte) (s : EntryReader) : EntryReader :=
  let (a, b, c, d, e, f, _, h, i, j, k) := s in Build_EntryReader a b c d e f x h i j k.
Definition er_put_output (x : list byte) (position : N) (s : EntryReader) : EntryReader :=
  let (a, b, c, d, e, f, g, _, _, j, k) := s in Build_EntryReader a b c d e f g x position j k.
Definition er_put_explode (x : Explode) (s : EntryReader) : EntryReader :=
  let (a, b, c, d, e, f, g, h, i, _, k) := s in Build_EntryReader a b c d e f g h i x k.
Definition er_put_finished (x : bool) (s : EntryReader) : EntryReader :=
  let (a, b, c, d, e, f, g, h, i, j, _) := s in Build_EntryReader a b c d e f g h i j x.

(** [open_entry]: the budget charged stays charged even if the offset overflows. *)
Definition open_entry (index : N) : M Archive IszError EntryReader :=
  self ← get;
  entry ← lift (toc_entry (ar_toc self) index);
  if spans_volumes entry then throw ZE_SplitArchiveUnsupported
  else
    let expanded := en_expanded_size entry in
    if zl_expanded_bytes_per_entry (ar_limits self) <? expanded
    then throw (ZE_LimitExceeded ZL_ExpandedBytesPerEntry)
    else if ar_remaining_total self <? expanded
    then throw (ZE_LimitExceeded ZL_TotalExpandedBytes)
    else
      modify (λ self, {| ar_base := ar_base self; ar_header := ar_header self; ar_toc := ar_toc self;
                         ar_limits := ar_limits self;
                         ar_remaining_total := ar_remaining_total self - expanded |});;
      let chunk := N.max (zl_chunk_bytes (ar_limits self)) (MAX_MATCH * 2) in
      at_ ← lift (ok_or (checked_add 64 (ar_base self) (en_offset entry)) ZE_OutOfRange);
      mret {| er_at := at_; er_stored_left := en_stored_size entry; er_expanded_size := expanded;
              er_written := 0; er_stored := is_stored entry; er_chunk := chunk;
              er_input := []; er_output := []; er_output_position := 0;
              er_explode := explode_new; er_finished := false |}.

Section reader.
Context {W : Type} `{ArchiveSource W} `{Cancellation W}.
Abbreviation RM A := (M (EntryReader * W) IszError A).

Definition on_er {A} (m : M EntryReader IszError A) : RM A := zoom fst (λ r s, (r, s.2)) m.

Definition er_finish : RM unit :=
  self ← get;
  if er_written self.1 =? er_expanded_size self.1 then mret tt else throw ZE_SizeMismatch.

(** [self.at = ...; self.stored_left -= take]. *)
Definition er_move (take_ : N) : RM unit :=
  self ← get;
  at_ ← lift (ok_or (checked_add 64 (er_at self.1) take_) ZE_OutOfRange);
  on_er (modify (er_put_place at_ (er_stored_left self.1 - take_))).

(** [self.written = ...; if self.written > self.expanded_size { ... }]. *)
Definition er_count (produced : N) : RM unit :=
  self ← get;
  written ← lift (ok_or (checked_add 64 (er_written self.1) produced) ZE_OutOfRange);
  on_er (modify (er_put_written written));;
  if er_expanded_size self.1 <? written then throw ZE_SizeMismatch else mret tt.

Definition fill_input : RM N :=
  self ← get;
  let self := self.1 in
  if (er_stored_left self =? 0) || (er_chunk self <=? len (er_input self)) then mret 0
  else
    let take_ := N.min (er_stored_left self) (er_chunk self - len (er_input self)) in
    zoom (λ s, (s.2, replicate (N.to_nat take_) x00))
         (λ b s, (er_put_input (er_input self ++ b.2) s.1, b.1)) (read_exact_at (er_at self));;
    er_move take_;;
    mret take_.

(** [step] for a stored entry, not at its end. *)
Definition step_stored : RM unit :=
  self ← get;
  let take_ := N.min (er_stored_left self.1) (er_chunk self.1) in
  zoom (λ s, (s.2, replicate (N.to_nat take_) x00))
       (λ b s, (er_put_output b.2 0 s.1, b.1)) (read_exact_at (er_at self.1));;
  er_move take_;;
  er_count take_.

(** [step] for an imploded entry. *)
Definition step_imploded : RM unit :=
  read ← fill_input;
  self ← get;
  let last := er_stored_left self.1 =? 0 in
  progress ← zoom (λ s, (er_explode s.1, er_output s.1))
                  (λ d s, (er_put_explode d.1 (er_put_output d.2 0 s.1), s.2))
                  (ex_decode (er_input self.1) last (er_chunk self.1));
  if len (er_input self.1) <? pg_consumed progress then throw ZE_DecompressionFailed
  else
    on_er (modify (λ self, er_put_input (drop (N.to_nat (pg_consumed progress)) (er_input self)) self));;
    self ← get;
    er_count (len (er_output self.1));;
    if pg_finished progress then
      on_er (modify (er_put_finished true));; er_finish
    else if (pg_consumed progress =? 0) && (len (er_output self.1) =? 0) && (read =? 0)
    then throw ZE_DecompressionFailed
    else mret tt.

Definition er_step : RM unit :=
  on_er (modify (er_put_output [] 0));;
  self ← get;
  if er_stored self.1 then
    if er_stored_left self.1 =? 0 then on_er (modify (er_put_finished true));; er_finish
    else step_stored
  else step_imploded.

(** The loop of [read]: what is copied to the front of a buffer of [size] bytes;
    nothing at the end of the entry. [None] is out of fuel. *)
Fixpoint er_read (fuel : nat) (size : N) : RM (option (list byte)) :=
  if size =? 0 then mret (Some [])
  else
    match fuel with
    | O => mret None
    | S fuel =>
        self ← get;
        let pending := len (er_output self.1) - er_output_position self.1 in
        if 0 <? pending then
          let take_ := N.min pending size in
          let from := er_output_position self.1 in
          on_er (modify (er_put_output (er_output self.1) (from + take_)));;
          mret (Some (subslice from take_ (er_output self.1)))
        else if er_finished self.1 then mret (Some [])
        else
          zoom snd (λ w s, (s.1, w)) check_cancelled;;
          er_step;;
          er_read fuel size
    end.

(** [read_to_vec], [reads] being the fuel of its own loop. *)
Fixpoint er_read_to_vec (reads fuel : nat) (out : list byte) : RM (option (list byte)) :=
  match reads with
  | O => mret None
  | S reads =>
      self ← get;
      read ← er_read fuel (er_chunk self.1);
      match read with
      | None => mret None
      | Some [] => mret (Some out)
      | Some read => er_read_to_vec reads fuel (out ++ read)
      end
  end.
End reader.
