(* ===== verification/IszRead.v ===== *)
(** * Reading an entry

    What a caller gets out of an entry of an InstallShield 3 archive: the reader
    of [IszArchive.v] over any honest byte source, against the decoder's meaning
    of a stream in [ExplodeSpec.v]. *)

From S2P Require Export IszArchive ExplodeRuns.

(** ** Honest sources *)

(** A source that holds [bytes]: it delivers some of what is there from the
    offset on, at least one byte if one is there, and leaves the rest of the
    buffer alone. It may deliver less than asked. *)
Class HonestSource (W : Type) `{ArchiveSource W} (bytes : list byte) : Prop :=
  honest_read offset buf w : ∃ w' n,
    source_read_at offset buf w =
      (w', (take n (drop (N.to_nat offset) bytes) ++ drop n buf, Ok (N.of_nat n))) ∧
    (n ≤ length buf)%nat ∧ (n ≤ length bytes - N.to_nat offset)%nat ∧
    (n = 0%nat → buf = [] ∨ (length bytes ≤ N.to_nat offset)%nat).

Class NeverCancelled (W : Type) `{Cancellation W} : Prop :=
  never_cancelled w : ∃ w', is_cancelled w = (w', false).

Section honest.
Context {W : Type} `{ArchiveSource W} `{Cancellation W} (bytes : list byte)
  `{!HonestSource W bytes} `{!NeverCancelled W}.

Lemma check_cancelled_run w : ∃ w', check_cancelled w = (w', Ok tt).
Proof. destruct (never_cancelled w) as [w' E]. exists w'. unfold check_cancelled. by rewrite E. Qed.

Lemma read_slice_run at_ done stop (w : W) buf :
  (done ≤ stop)%nat → (stop ≤ length buf)%nat →
  take done buf = subslice (at_ - N.of_nat done) (N.of_nat done) bytes →
  N.of_nat done ≤ at_ →
  ∃ w' n buf', read_slice at_ (N.of_nat done) (N.of_nat stop) (w, buf) = ((w', buf'), Ok (N.of_nat n)) ∧
    length buf' = length buf ∧ (done + n ≤ stop)%nat ∧
    take (done + n) buf' = subslice (at_ - N.of_nat done) (N.of_nat (done + n)) bytes ∧
    (n ≤ length bytes - N.to_nat at_)%nat ∧
    (n = 0%nat → done = stop ∨ (length bytes ≤ N.to_nat at_)%nat).
Proof.
  intros Hd Hstop Ht Hle. unfold read_slice.
  set (slice := subslice _ _ buf). assert (Hslice : length slice = (stop - done)%nat).
  { subst slice. unfold subslice. rewrite length_take, length_drop. lia. }
  destruct (honest_read at_ slice w) as (w' & n & -> & Hn & Hn' & Hz).
  rewrite Hslice in Hn. cbn [map_err].
  set (new := take n (drop (N.to_nat at_) bytes)).
  assert (Hnew : length new = n) by (subst new; rewrite length_take, length_drop; lia).
  exists w', n, (splice (N.of_nat done) (new ++ drop n slice) buf).
  unfold splice. rewrite Nat2N.id.
  assert (Htd : length (take done buf) = done) by (rewrite length_take; lia).
  split; [done|]. split; [rewrite !length_app, Htd, Hnew, !length_drop, Hslice; lia|]. split; [lia|].
  split.
  { rewrite take_app_ge by lia. rewrite Htd. replace (done + n - done)%nat with n by lia.
    rewrite <-app_assoc, take_app_le by lia. rewrite (take_ge new) by lia. rewrite Ht.
    unfold subslice, new. rewrite !Nat2N.id.
    replace (drop (N.to_nat at_) bytes) with
      (drop done (drop (N.to_nat (at_ - N.of_nat done)) bytes)) by (rewrite drop_drop; f_equal; lia).
    by rewrite take_take_drop. }
  split; [done|]. intros E. destruct (Hz E) as [Hb|?]; [left|by right].
  apply (f_equal length) in Hb. rewrite Hslice in Hb. simpl in Hb. lia.
Qed.

Lemma read_exact_run turns offset done (w : W) buf :
  (done ≤ length buf)%nat → (length buf - done < turns)%nat →
  offset + len buf < 2 ^ 64 → len bytes < 2 ^ 64 →
  take done buf = subslice offset (N.of_nat done) bytes →
  (done = 0%nat ∨ offset + N.of_nat done ≤ len bytes) →
  ∃ w' buf', length buf' = length buf ∧
    read_exact_loop turns offset (N.of_nat done) (w, buf) =
      ((w', buf'), if (len buf =? 0) || (offset + len buf <=? len bytes) then Ok tt else Err ZE_Truncated) ∧
    (offset + len buf ≤ len bytes → buf' = subslice offset (len buf) bytes).
Proof.
  revert done w buf. induction turns as [|turns IH]; intros done w buf Hd Ht Hfit Hbytes Htake Hin; [lia|].
  cbn [read_exact_loop]. unfold mbind at 1, M_bind at 1, get. cbn [snd].
  destruct (N.ltb_spec (N.of_nat done) (len buf)) as [Hlt|Hge].
  - unfold checked_add. rewrite (proj2 (N.ltb_lt (offset + N.of_nat done) _)) by lia.
    unfold mbind at 1, M_bind at 1. cbn [ok_or lift snd]. unfold mbind at 1, M_bind at 1.
    destruct (read_slice_run (offset + N.of_nat done) done (length buf) w buf Hd) as
      (w' & n & buf' & E & Hl & Hn & Hs & Hav & Hz);
      [done|by replace (offset + N.of_nat done - N.of_nat done) with offset by lia|lia|].
    fold (len buf) in E. rewrite E. clear E.
    replace (offset + N.of_nat done - N.of_nat done) with offset in Hs by lia.
    destruct (N.eqb_spec (N.of_nat n) 0) as [Hn0|Hn0].
    + exists w', buf'. split; [done|]. destruct Hz as [Hz|Hz]; [lia|unfold len in *; lia|].
      rewrite (proj2 (N.eqb_neq (len buf) 0)), (proj2 (N.leb_gt _ _)) by (unfold len in *; lia).
      split; [done|]. unfold len in *. lia.
    + rewrite (proj2 (N.ltb_lt (N.of_nat done + N.of_nat n) _)) by (unfold len in *; lia).
      rewrite (M_bind_step (mret tt) _ _ (w', buf') tt) by done.
      rewrite (M_bind_step (lift _) _ _ (w', buf') (N.of_nat done + N.of_nat n)) by done.
      rewrite (proj2 (N.ltb_ge (len buf) _)) by (unfold len in *; lia).
      rewrite (M_bind_step (mret tt) _ _ (w', buf') tt) by done.
      rewrite <-Nat2N.inj_add. assert (Hlen : len buf' = len buf) by (unfold len; by rewrite Hl).
      rewrite <-Hlen. destruct (IH (done + n)%nat w' buf') as (w2 & buf2 & Hl2 & E2 & Hb2).
      * lia.
      * lia.
      * by rewrite Hlen.
      * done.
      * done.
      * right. unfold len in *. lia.
      * exists w2, buf2. split; [by rewrite Hl2|]. by split.
  - exists w, buf. split; [done|]. assert (N.of_nat done = len buf) as E by (unfold len in *; lia).
    split.
    + destruct (N.eqb_spec (len buf) 0); [done|]. simpl.
      rewrite (proj2 (N.leb_le _ _)); [done|]. destruct Hin; unfold len in *; lia.
    + intros _. rewrite <-E, <-Htake. symmetry. apply take_ge. unfold len in E. lia.
Qed.

Lemma read_exact_at_run offset (w : W) buf :
  offset + len buf ≤ len bytes → len bytes < 2 ^ 64 →
  ∃ w', read_exact_at offset (w, buf) = ((w', subslice offset (len buf) bytes), Ok tt).
Proof.
  intros Hin Hbytes. unfold read_exact_at, mbind, M_bind, get. cbn [snd].
  destruct (read_exact_run (S (length buf)) offset 0 w buf) as (w' & buf' & _ & E & Hb);
    [lia..|done|by left|].
  change (N.of_nat 0) with 0 in E. exists w'. rewrite E, <-Hb by done.
  by rewrite (proj2 (N.leb_le _ _)), orb_true_r by done.
Qed.
(** ** The reader *)

(** The stored bytes of an entry are [size] bytes of the source from [start]. *)
Context (start size : N) (Hinside : start + size ≤ len bytes) (Hbytes : len bytes < 2 ^ 64).

Definition stored_data : list byte := subslice start size bytes.

(** What is still to be fetched. *)
Definition unread (rd : EntryReader) : list byte := drop (N.to_nat (size - er_stored_left rd)) stored_data.

(** What the reader has produced, some of it delivered already. *)
Definition produced (delivered : list byte) (rd : EntryReader) : list byte :=
  delivered ++ drop (N.to_nat (er_output_position rd)) (er_output rd).

Record er_inv (delivered : list byte) (rd : EntryReader) : Prop := {
  ei_left : er_stored_left rd ≤ size;
  ei_at : er_at rd = start + (size - er_stored_left rd);
  ei_chunk : MAX_MATCH * 2 ≤ er_chunk rd;
  ei_position : er_output_position rd ≤ len (er_output rd);
  ei_written : er_written rd = len (produced delivered rd);
  ei_size : er_written rd ≤ er_expanded_size rd;
  ei_bound : er_expanded_size rd + er_chunk rd < 2 ^ 64;
  ei_finished : er_finished rd = true → er_written rd = er_expanded_size rd;
  ei_stored : er_stored rd = true → er_expanded_size rd = size ∧
    produced delivered rd = take (N.to_nat (size - er_stored_left rd)) stored_data;
  ei_imploded : er_stored rd = false → er_finished rd = ex_finished (er_explode rd) ∧
    stream_point stored_data (er_explode rd) (er_input rd ++ unread rd) (produced delivered rd)
}.

(** What the entry holds. *)
Definition contents (stored : bool) (out : list byte) : Prop :=
  if stored then out = stored_data else exploded stored_data out.

Definition read_error (stored : bool) (expanded : N) (e : IszError) : Prop :=
  e = ZE_DecompressionFailed ∧ (∀ out, ¬ contents stored out) ∨
  e = ZE_SizeMismatch ∧ (∀ out, contents stored out → len out ≠ expanded).

Definition same_entry (rd rd' : EntryReader) : Prop :=
  er_stored rd' = er_stored rd ∧ er_expanded_size rd' = er_expanded_size rd ∧
  er_chunk rd' = er_chunk rd.

(** Steps without output use up fetched or unfetched bytes. *)
Definition er_measure (rd : EntryReader) : N := 2 * er_stored_left rd + len (er_input rd).

Lemma stored_data_length : length stored_data = N.to_nat size.
Proof. unfold stored_data. rewrite <-len_to_nat, len_subslice by done. done. Qed.

Lemma fetched left k :
  left ≤ size → k ≤ left →
  subslice (start + (size - left)) k bytes = take (N.to_nat k) (drop (N.to_nat (size - left)) stored_data).
Proof.
  intros Hl Hk. unfold stored_data, subslice. rewrite skipn_firstn_comm, drop_drop, take_take.
  f_equal; [lia|]. f_equal. lia.
Qed.

Lemma fill_input_run rd (w : W) :
  er_stored_left rd ≤ size → er_at rd = start + (size - er_stored_left rd) →
  ∃ w' read, read ≤ er_stored_left rd ∧
    (read = 0 → er_stored_left rd = 0 ∨ er_chunk rd ≤ len (er_input rd)) ∧
    fill_input (rd, w) =
      ((er_put_place (er_at rd + read) (er_stored_left rd - read)
          (er_put_input (er_input rd ++ take (N.to_nat read) (unread rd)) rd), w'), Ok read).
Proof.
  intros Hl Ha. unfold fill_input. unfold mbind at 1, M_bind at 1, get. cbn [fst].
  destruct (N.eqb_spec (er_stored_left rd) 0) as [Hz|Hz].
  { exists w, 0. split; [lia|]. split; [by left|]. destruct rd; simpl.
    by rewrite app_nil_r, N.add_0_r, N.sub_0_r. }
  destruct (N.leb_spec (er_chunk rd) (len (er_input rd))) as [Hc|Hc]; cbn [orb].
  { exists w, 0. split; [lia|]. split; [by right|]. destruct rd; simpl.
    by rewrite app_nil_r, N.add_0_r, N.sub_0_r. }
  set (read := N.min _ _). assert (Hr : read ≤ er_stored_left rd ∧ read ≠ 0) by (subst read; lia).
  destruct Hr as [Hr Hr0].
  assert (Hlen : len (replicate (N.to_nat read) x00) = read) by (unfold len; rewrite length_replicate; lia).
  destruct (read_exact_at_run (er_at rd) w (replicate (N.to_nat read) x00)) as [w' E];
    [rewrite Hlen, Ha; lia|done|]. rewrite Hlen, Ha, fetched in E by done.
  exists w', read. split; [done|]. split; [done|].
  erewrite M_bind_step; [|unfold zoom; cbn [snd]; rewrite Ha, E; cbn [fst snd]; reflexivity].
  erewrite M_bind_step; [reflexivity|].
  unfold er_move, on_er. run_M. destruct rd as [a l x wr st ch i o p ex f]; simpl in *.
  unfold checked_add. rewrite (proj2 (N.ltb_lt _ _)) by lia. reflexivity.
Qed.

Lemma er_count_run produced_ rd (w : W) :
  er_written rd + produced_ < 2 ^ 64 →
  er_count produced_ (rd, w) =
    ((er_put_written (er_written rd + produced_) rd, w),
     if er_expanded_size rd <? er_written rd + produced_ then Err ZE_SizeMismatch else Ok tt).
Proof.
  intros Hb. unfold er_count, on_er. run_M. cbn [fst snd]. unfold checked_add.
  rewrite (proj2 (N.ltb_lt _ _)) by done. cbn [ok_or fst snd]. by destruct (_ <? _).
Qed.

Definition step_post (delivered : list byte) rd (o : (EntryReader * W) * result IszError unit) : Prop :=
  match o with
  | ((rd', _), Ok _) => er_inv delivered rd' ∧ er_output_position rd' = 0 ∧ same_entry rd rd' ∧
      er_measure rd' ≤ er_measure rd ∧
      (er_finished rd' = true ∨ er_output rd' ≠ [] ∨ er_measure rd' < er_measure rd)
  | (_, Err e) => read_error (er_stored rd) (er_expanded_size rd) e
  end.

(** A stored entry: its bytes, chunk by chunk. *)
Lemma step_stored_run delivered rd (w : W) :
  er_inv delivered rd → er_stored rd = true → er_finished rd = false →
  er_output rd = [] → er_output_position rd = 0 → er_stored_left rd ≠ 0 →
  step_post delivered rd (step_stored (rd, w)).
Proof.
  intros Hinv Hst Hfin Ho Hp Hl. pose proof (ei_stored _ _ Hinv Hst) as [Hexp Hprod].
  destruct Hinv as [Hleft Hat Hch _ Hwr Hsz Hbd _ _ _].
  unfold step_stored. unfold mbind at 1, M_bind at 1, get. cbn [fst].
  set (read := N.min _ _). assert (Hr : read ≤ er_stored_left rd ∧ 0 < read).
  { unfold MAX_MATCH in Hch. lia. }
  destruct Hr as [Hr Hr0].
  assert (Hlen : len (replicate (N.to_nat read) x00) = read) by (unfold len; rewrite length_replicate; lia).
  destruct (read_exact_at_run (er_at rd) w (replicate (N.to_nat read) x00)) as [w' E];
    [rewrite Hlen, Hat; lia|done|]. rewrite Hlen, Hat, fetched in E by done.
  set (new := take (N.to_nat read) _) in E.
  assert (Hnew : len new = read).
  { subst new. unfold len. rewrite length_take, length_drop, stored_data_length. lia. }
  erewrite M_bind_step; [|unfold zoom; cbn [snd]; rewrite Hat, E; cbn [fst snd]; reflexivity].
  set (rd1 := er_put_place (er_at rd + read) (er_stored_left rd - read) (er_put_output new 0 rd)).
  erewrite (M_bind_step (er_move read) _ _ (rd1, w') tt).
  2:{ unfold er_move, on_er, checked_add. run_M. destruct rd as [a l x wr st ch i o p ex f]; simpl in *.
      rewrite (proj2 (N.ltb_lt _ _)) by lia. reflexivity. }
  assert (Htake : produced delivered rd ++ new = take (N.to_nat (size - (er_stored_left rd - read))) stored_data).
  { rewrite Hprod. subst new. rewrite take_take_drop. f_equal. lia. }
  assert (Htot : er_written rd + read = len (take (N.to_nat (size - (er_stored_left rd - read))) stored_data)).
  { rewrite <-Htake, len_app, <-Hwr, Hnew. done. }
  assert (Hle : er_written rd + read ≤ size).
  { rewrite Htot. unfold len. rewrite length_take, stored_data_length. lia. }
  rewrite er_count_run by (destruct rd; simpl in *; lia).
  assert (er_expanded_size rd1 = er_expanded_size rd ∧ er_written rd1 = er_written rd) as [-> ->] by by destruct rd.
  rewrite (proj2 (N.ltb_ge _ _)) by lia. unfold step_post.
  unfold produced in Hwr, Htake, Hprod. rewrite Ho, Hp in Hwr, Htake, Hprod. rewrite drop_nil, app_nil_r in *.
  destruct rd as [a l x wr st ch i o p ex f]; simpl in *. subst o p st f x a. split; [|split_and!; try done].
  - split; unfold produced; simpl; try done; try lia.
    + change (drop (N.to_nat 0) new) with new. by rewrite len_app, Hnew, Hwr.
  - unfold er_measure. cbn [er_stored_left er_input]. lia.
  - right. left. intros ->. rewrite len_nil in Hnew. lia.
Qed.

(** An imploded entry: one call of the decoder on what was fetched. *)
Lemma step_imploded_run delivered rd (w : W) :
  er_inv delivered rd → er_stored rd = false → er_finished rd = false →
  er_output rd = [] → er_output_position rd = 0 →
  step_post delivered rd (step_imploded (rd, w)).
Proof.
  intros Hinv Hst Hfin Ho Hp. pose proof (ei_imploded _ _ Hinv Hst) as [Hexf Hpoint].
  destruct Hinv as [Hleft Hat Hch _ Hwr Hsz Hbd _ _ _].
  unfold step_imploded. destruct (fill_input_run rd w Hleft Hat) as (w1 & read & Hr & Hr0 & E).
  rewrite (M_bind_step _ _ _ _ _ E). clear E. unfold mbind at 1, M_bind at 1, get. cbn [fst].
  set (input := er_input rd ++ take (N.to_nat read) (unread rd)).
  set (tail := drop (N.to_nat (size - (er_stored_left rd - read))) stored_data).
  assert (Hsplit : er_input rd ++ unread rd = input ++ tail).
  { subst input tail. rewrite <-app_assoc. f_equal. unfold unread.
    rewrite <-(take_drop (N.to_nat read) (drop _ stored_data)) at 1. f_equal.
    rewrite drop_drop. f_equal. lia. }
  assert (Htail : (er_stored_left rd - read =? 0) = true → tail = []).
  { intros Hl%N.eqb_eq. apply drop_ge. rewrite stored_data_length. lia. }
  rewrite Hsplit in Hpoint.
  pose proof (ex_decode_point stored_data (er_explode rd) input tail (produced delivered rd)
    (er_stored_left rd - read =? 0)
    (er_chunk rd) [] Hpoint Htail ltac:(unfold MAX_MATCH in *; lia)) as [Hmax Hcall].
  assert (Hmu : len input = len (er_input rd) + read).
  { subst input. rewrite len_app. f_equal. unfold len, unread.
    rewrite length_take, length_drop, stored_data_length. lia. }
  assert (Htl : drop (N.to_nat (size - (er_stored_left rd - read))) stored_data = tail) by done.
  fold input. clearbody input tail.
  destruct rd as [a l x wr st ch i o p ex f]. cbn [er_at er_stored_left er_expanded_size er_written
    er_stored er_chunk er_input er_output er_output_position er_explode er_finished] in *. subst st f o p.
  cbn [er_put_input er_put_place]. unfold step_post.
  destruct (ex_decode input (l - read =? 0) ch (ex, [])) as [[ex' buf'] [p|e]] eqn:Edec.
  2:{ erewrite M_bind_fail; [|unfold zoom; cbn -[ex_decode]; by rewrite Edec].
      left. exact Hcall. }
  erewrite M_bind_step; [|unfold zoom; cbn -[ex_decode]; rewrite Edec; reflexivity].
  destruct Hcall as (new & -> & Hcons & Hpoint' & Hpf & Hstop & _). cbn [app] in *.
  unfold produced in *. cbn [er_output er_output_position drop fst snd] in *.
  rewrite drop_nil, app_nil_r in *.
  cbn [er_put_explode er_put_output er_input er_put_input fst snd len].
  rewrite (proj2 (N.ltb_ge (len input) _)) by done.
  erewrite M_bind_step; [|reflexivity]. unfold mbind at 1, M_bind at 1, get. cbn [fst snd er_output er_put_input].
  set (rd2 := Build_EntryReader _ _ _ _ _ _ _ _ _ _ _).
  assert (Hmax' : len new ≤ ch) by (cbn [fst snd] in Hmax; rewrite len_nil in Hmax; lia).
  assert (Hcnt := er_count_run (len new) rd2 w1 ltac:(subst rd2; simpl in *; lia)).
  change (er_written rd2) with wr in Hcnt. change (er_expanded_size rd2) with x in Hcnt.
  assert (Htot : wr + len new = len (delivered ++ new)) by (rewrite len_app; lia).
  destruct (N.ltb_spec x (wr + len new)) as [Hover|Hfits].
  { rewrite (M_bind_fail _ _ _ _ _ Hcnt). right. split; [done|]. intros out Hex.
    apply (point_prefix _ _ _ _ _ Hpoint') in Hex as [k ->]. rewrite len_app. cbn [er_expanded_size]. lia. }
  rewrite (M_bind_step _ _ _ _ _ Hcnt). subst rd2. cbn [er_put_written].
  rewrite drop_app_le in Hpoint' by (unfold len in *; lia).
  assert (Hbase : ∀ fin, (fin = true → wr + len new = x) → fin = ex_finished ex' →
    er_inv delivered {| er_at := a + read; er_stored_left := l - read; er_expanded_size := x;
      er_written := wr + len new; er_stored := false; er_chunk := ch;
      er_input := drop (N.to_nat (pg_consumed p)) input; er_output := new; er_output_position := 0;
      er_explode := ex'; er_finished := fin |}).
  { intros fin Hf1 Hf2. split; unfold produced; cbn [er_at er_stored_left er_expanded_size er_written
      er_stored er_chunk er_input er_output er_output_position er_explode er_finished];
      change (drop (N.to_nat 0) new) with new; try done; try lia.
    intros _. split; [done|]. unfold unread. cbn [er_stored_left]. by rewrite Htl. }
  assert (Hleq : 2 * (l - read) + len (drop (N.to_nat (pg_consumed p)) input) ≤ 2 * l + len i).
  { unfold len in *. rewrite length_drop. lia. }
  destruct (pg_finished p) eqn:Epf.
  - erewrite M_bind_step; [|reflexivity]. unfold er_finish. run_M.
    cbn [fst snd er_written er_expanded_size er_put_finished].
    destruct (N.eqb_spec (wr + len new) x) as [Heq|Hne].
    + split; [by apply Hbase|]. split; [done|]. split; [done|]. split; [done|]. by left.
    + right. split; [done|]. intros out Hex.
      rewrite (exploded_functional _ _ _ Hex (point_finished _ _ _ _ Hpoint' (eq_sym Hpf))). cbn [er_expanded_size]. lia.
  - destruct (N.eqb_spec (pg_consumed p) 0) as [Hc0|Hc0], (N.eqb_spec (len new) 0) as [Hn0|Hn0],
      (N.eqb_spec read 0) as [Hrd0|Hrd0]; cbn [andb].
    1:{ exfalso. unfold MAX_MATCH in *. destruct (Hstop eq_refl) as [Hfull|[Hl Hshort]]; [lia|].
        apply N.eqb_neq in Hl. destruct (Hr0 Hrd0); lia. }
    all: split; [by apply Hbase|]; split; [done|]; split; [done|]; split; [done|]; right.
    all: first [left; cbn [er_output]; intros ->; by apply Hn0|right].
    all: unfold er_measure; cbn [er_stored_left er_input]; unfold len in *; rewrite length_drop; lia.
Qed.

(** Clearing a delivered output loses nothing. *)
Lemma er_inv_cleared delivered rd :
  er_inv delivered rd → er_output_position rd = len (er_output rd) →
  er_inv delivered (er_put_output [] 0 rd).
Proof.
  intros [] Hp. assert (Hprod : produced delivered (er_put_output [] 0 rd) = produced delivered rd).
  { unfold produced. rewrite Hp. destruct rd; simpl. f_equal. rewrite drop_ge; [done|]. unfold len; lia. }
  destruct rd. split; rewrite ?Hprod; try done; simpl; lia.
Qed.

(** Delivering moves bytes from the output to the caller. *)
Lemma er_inv_delivered delivered rd k :
  er_inv delivered rd → er_output_position rd + k ≤ len (er_output rd) →
  er_inv (delivered ++ subslice (er_output_position rd) k (er_output rd))
    (er_put_output (er_output rd) (er_output_position rd + k) rd).
Proof.
  intros [] Hk.
  assert (Hprod : produced (delivered ++ subslice (er_output_position rd) k (er_output rd))
    (er_put_output (er_output rd) (er_output_position rd + k) rd) = produced delivered rd).
  { unfold produced, subslice. destruct rd; simpl. rewrite <-app_assoc. f_equal.
    rewrite N2Nat.inj_add, <-drop_drop. apply take_drop. }
  destruct rd. split; rewrite ?Hprod; try done; simpl in *; lia.
Qed.

Lemma er_inv_finished delivered rd :
  er_inv delivered rd → er_stored rd = true → er_written rd = er_expanded_size rd →
  er_inv delivered (er_put_finished true rd).
Proof. intros [] Hst Hw. destruct rd. split; try done. simpl in *. congruence. Qed.

Lemma er_step_run delivered rd (w : W) :
  er_inv delivered rd → er_finished rd = false → er_output_position rd = len (er_output rd) →
  step_post delivered rd (er_step (rd, w)).
Proof.
  intros Hinv Hfin Hp. pose proof (er_inv_cleared _ _ Hinv Hp) as Hc. clear Hinv.
  set (rd0 := er_put_output [] 0 rd) in Hc.
  assert (Hsame : ∀ o, step_post delivered rd0 o → step_post delivered rd o) by by destruct rd.
  assert (Hrd0 : er_stored rd0 = er_stored rd ∧ er_finished rd0 = false ∧ er_output rd0 = [] ∧
    er_output_position rd0 = 0 ∧ er_stored_left rd0 = er_stored_left rd).
  { by destruct rd. }
  destruct Hrd0 as (Hs & Hf & Ho & Hp0 & Hl). apply Hsame. unfold er_step.
  erewrite M_bind_step; [|reflexivity]. unfold mbind at 1, M_bind at 1, get. cbn [fst snd].
  fold rd0. destruct (er_stored rd0) eqn:Est; [|by apply step_imploded_run].
  destruct (N.eqb_spec (er_stored_left rd0) 0) as [Hz|Hz]; [|by apply step_stored_run].
  destruct (ei_stored _ _ Hc Est) as [Hexp Hprod]. rewrite Hz, N.sub_0_r in Hprod.
  assert (Hall : produced delivered rd0 = stored_data).
  { rewrite Hprod. apply take_ge. by rewrite stored_data_length. }
  assert (Hw : er_written rd0 = er_expanded_size rd0).
  { rewrite (ei_written _ _ Hc), Hall, Hexp. unfold len. rewrite stored_data_length. lia. }
  pose proof (er_inv_finished _ _ Hc Est Hw) as Hc'. clearbody rd0. clear Hsame Hc Hprod Hall.
  unfold er_finish. run_M. destruct rd0 as [a l x wr st ch i o p ex f]. cbn in Hw, Ho, Hp0 |- *.
  rewrite Hw, N.eqb_refl. rewrite Hw in Hc'. subst o p. split; [exact Hc'|]. split_and!; try done. by left.
Qed.

(** ** [read] *)

Definition read_post (delivered : list byte) rd
    (o : (EntryReader * W) * result IszError (option (list byte))) : Prop :=
  match o with
  | ((rd', _), Ok (Some bs)) => er_inv (delivered ++ bs) rd' ∧ same_entry rd rd' ∧
      er_measure rd' ≤ er_measure rd ∧
      (bs = [] → er_finished rd' = true ∧ er_output_position rd' = len (er_output rd'))
  | (_, Ok None) => False
  | (_, Err e) => read_error (er_stored rd) (er_expanded_size rd) e
  end.

(** One turn delivers what is pending, or ends at the end of the entry. *)
Lemma er_read_ready fuel chunk delivered rd (w : W) :
  er_inv delivered rd → 0 < chunk →
  er_output_position rd < len (er_output rd) ∨ er_finished rd = true →
  read_post delivered rd (er_read (S fuel) chunk (rd, w)).
Proof.
  intros Hinv Hchunk Hready. pose proof (ei_position _ _ Hinv) as Hpos. cbn [er_read].
  rewrite (proj2 (N.eqb_neq chunk 0)) by lia.
  unfold mbind at 1, M_bind at 1, get. cbn [fst snd].
  destruct (N.ltb_spec 0 (len (er_output rd) - er_output_position rd)) as [Hlt|Hge].
  - erewrite M_bind_step; [|reflexivity]. unfold mret, M_ret, read_post. cbn [fst snd].
    set (take_ := N.min _ _). assert (Ht : 0 < take_ ∧ er_output_position rd + take_ ≤ len (er_output rd)) by lia.
    clearbody take_. split; [apply er_inv_delivered; [done|lia]|]. split; [by destruct rd|].
    split; [by destruct rd|]. intros E. apply (f_equal len) in E. rewrite len_subslice in E by lia.
    rewrite len_nil in E. lia.
  - destruct Hready as [?|Hfin]; [lia|]. rewrite Hfin. unfold mret, M_ret, read_post. rewrite app_nil_r.
    split; [done|]. split; [done|]. split; [done|]. intros _. split; [done|]. lia.
Qed.

Lemma er_read_run fuel chunk delivered rd (w : W) :
  er_inv delivered rd → 0 < chunk → er_measure rd + 1 < N.of_nat fuel →
  read_post delivered rd (er_read fuel chunk (rd, w)).
Proof.
  revert rd w. induction fuel as [|fuel IH]; intros rd w Hinv Hchunk Hfuel; [lia|].
  destruct (er_finished rd) eqn:Hfin; [by apply er_read_ready; auto|].
  destruct (N.ltb_spec (er_output_position rd) (len (er_output rd))) as [Hlt|Hge];
    [by apply er_read_ready; auto|].
  pose proof (ei_position _ _ Hinv) as Hpos. cbn [er_read].
  rewrite (proj2 (N.eqb_neq chunk 0)) by lia.
  unfold mbind at 1, M_bind at 1, get. cbn [fst snd].
  rewrite (proj2 (N.ltb_ge 0 _)) by lia. rewrite Hfin.
  destruct (check_cancelled_run w) as [w1 Ec].
  erewrite (M_bind_step _ _ _ (rd, w1) tt); [|unfold zoom; cbn [snd]; by rewrite Ec].
  pose proof (er_step_run delivered rd w1 Hinv Hfin ltac:(lia)) as Hstep.
  unfold mbind at 1, M_bind at 1. destruct (er_step (rd, w1)) as [[rd2 w2] [u|e]]; [|exact Hstep].
  destruct Hstep as (Hinv2 & Hp2 & Hsame & Hle & Hready).
  assert (Hnext : read_post delivered rd2 (er_read fuel chunk (rd2, w2))).
  { destruct fuel as [|fuel]; [lia|].
    destruct Hready as [Hf2|[Ho2|Hlt]]; [apply er_read_ready; auto..|apply IH; [done|done|lia]].
    left. rewrite Hp2. destruct (er_output rd2); [done|]. unfold len; simpl; lia. }
  destruct (er_read fuel chunk (rd2, w2)) as [[rd3 w3] [[bs|]|e]]; cbn [read_post] in *; [|done|].
  - destruct Hnext as (? & Hsame3 & ? & ?). split; [done|]. split; [|split; [lia|done]].
    destruct Hsame as (? & ? & ?), Hsame3 as (? & ? & ?). repeat split; congruence.
  - destruct Hsame as (Hs & Hx & _). by rewrite Hs, Hx in Hnext.
Qed.

(** ** [read_to_vec] *)

(** At the end of the entry everything was delivered. *)
Lemma er_inv_end delivered rd :
  er_inv delivered rd → er_finished rd = true → er_output_position rd = len (er_output rd) →
  contents (er_stored rd) delivered ∧ len delivered = er_expanded_size rd.
Proof.
  intros [] Hf Hp.
  assert (Hprod : produced delivered rd = delivered).
  { unfold produced. rewrite drop_ge, app_nil_r; [done|]. unfold len in *. lia. }
  rewrite Hprod in *. specialize (ei_finished0 Hf). split; [|lia].
  unfold contents. destruct (er_stored rd).
  - destruct (ei_stored0 eq_refl) as [Hx E].
    assert (Hall : len (take (N.to_nat (size - er_stored_left rd)) stored_data) = size) by (rewrite <-E; lia).
    rewrite E. apply take_ge. unfold len in Hall. rewrite length_take in Hall.
    pose proof stored_data_length. lia.
  - destruct (ei_imploded0 eq_refl) as [E Hpt]. eapply point_finished; [done|congruence].
Qed.

Definition vec_post rd (o : (EntryReader * W) * result IszError (option (list byte))) : Prop :=
  match o with
  | (_, Ok (Some out)) => contents (er_stored rd) out ∧ len out = er_expanded_size rd
  | (_, Ok None) => False
  | (_, Err e) => read_error (er_stored rd) (er_expanded_size rd) e
  end.

Lemma er_read_to_vec_run reads fuel out rd (w : W) :
  er_inv out rd → er_expanded_size rd < len out + N.of_nat reads →
  er_measure rd + 1 < N.of_nat fuel →
  vec_post rd (er_read_to_vec reads fuel out (rd, w)).
Proof.
  revert out rd w. induction reads as [|reads IH]; intros out rd w Hinv Hreads Hfuel.
  { exfalso. destruct Hinv. rewrite ei_written0 in ei_size0. unfold produced in ei_size0.
    rewrite len_app in ei_size0. lia. }
  cbn [er_read_to_vec]. unfold mbind at 1, M_bind at 1, get. cbn [fst snd].
  pose proof (ei_chunk _ _ Hinv) as Hch.
  pose proof (er_read_run fuel (er_chunk rd) out rd w Hinv ltac:(unfold MAX_MATCH in *; lia) Hfuel) as Hr.
  unfold mbind, M_bind. destruct (er_read fuel _ _) as [[rd2 w2] [[bs|]|e]]; [|done|exact Hr].
  destruct Hr as (Hinv2 & (Hs & Hx & Hc) & Hm & Hend). destruct bs as [|b bs].
  - rewrite app_nil_r in Hinv2. destruct (Hend eq_refl) as [Hf Hp].
    unfold mret, M_ret, vec_post. rewrite <-Hs, <-Hx. by apply er_inv_end.
  - assert (Hpost : vec_post rd2 (er_read_to_vec reads fuel (out ++ b :: bs) (rd2, w2))).
    { apply IH; [done| |lia]. rewrite len_app, Hx. unfold len. simpl. unfold len in Hreads. lia. }
    unfold vec_post in *. by rewrite Hs, Hx in Hpost.
Qed.
End honest.
