(* ===== verification/IszOpen.v ===== *)
(** * Finding and opening an archive

    The header and the table of contents of [IszArchive.v]: what a parsed
    archive guarantees, that a written header reads back, where
    [find_signature] looks, and the reader of [IszRead.v] behind [open_entry];
    then that the search misses no occurrence of the signature. *)

From S2P Require Export IszRead.

(** ** The header *)

(** Fields that a header can hold. *)
Record header_fits (h : ArchiveHeader) : Prop := {
  hf_multi_volume : fits 16 (ah_multi_volume h);
  hf_entry_count : fits 16 (ah_entry_count h);
  hf_datetime : fits 32 (ah_datetime h);
  hf_archive_size : fits 32 (ah_archive_size h);
  hf_expanded_size : fits 32 (ah_expanded_size h);
  hf_volume_count : fits 8 (ah_volume_count h);
  hf_volume_number : fits 8 (ah_volume_number h);
  hf_split_begin : fits 32 (ah_split_begin h);
  hf_split_end : fits 32 (ah_split_end h);
  hf_toc_offset : fits 32 (ah_toc_offset h);
  hf_directory_count : fits 16 (ah_directory_count h)
}.

(** A word of a fixed number of bytes, byte by byte. *)
Lemma le_bytes_2 v : ∃ a b, le_bytes 2 v = [a; b].
Proof. pose proof (length_le_bytes 2 v). destruct (le_bytes 2 v) as [|a [|b [|]]]; naive_solver. Qed.
Lemma le_bytes_4 v : ∃ a b c d, le_bytes 4 v = [a; b; c; d].
Proof.
  pose proof (length_le_bytes 4 v).
  destruct (le_bytes 4 v) as [|a [|b [|c [|d [|]]]]]; try done. by exists a, b, c, d.
Qed.


(** The fields of a header are independent of each other. *)
Lemma archive_header_encoded h : ∃ bytes,
  archive_header_encode h = bytes ∧ len bytes = HEADER_SIZE ∧
  subslice 0x00 4 bytes = le_bytes 4 SIGNATURE_WORD_1 ∧
  subslice 0x04 4 bytes = le_bytes 4 SIGNATURE_WORD_2 ∧
  subslice 0x0a 2 bytes = le_bytes 2 (ah_multi_volume h) ∧
  subslice 0x0c 2 bytes = le_bytes 2 (ah_entry_count h) ∧
  subslice 0x0e 4 bytes = le_bytes 4 (ah_datetime h) ∧
  subslice 0x12 4 bytes = le_bytes 4 (ah_archive_size h) ∧
  subslice 0x16 4 bytes = le_bytes 4 (ah_expanded_size h) ∧
  subslice 0x1e 2 bytes = [byte_of_N (ah_volume_count h); byte_of_N (ah_volume_number h)] ∧
  subslice 0x21 4 bytes = le_bytes 4 (ah_split_begin h) ∧
  subslice 0x25 4 bytes = le_bytes 4 (ah_split_end h) ∧
  subslice 0x29 4 bytes = le_bytes 4 (ah_toc_offset h) ∧
  subslice 0x31 2 bytes = le_bytes 2 (ah_directory_count h).
Proof.
  eexists. split; [reflexivity|]. unfold archive_header_encode.
  generalize SIGNATURE_WORD_1, SIGNATURE_WORD_2, (byte_of_N (ah_volume_count h)),
    (byte_of_N (ah_volume_number h)). intros sw1 sw2 vc vn.
  destruct (le_bytes_4 sw1) as (? & ? & ? & ? & ->), (le_bytes_4 sw2) as (? & ? & ? & ? & ->),
    (le_bytes_2 (ah_multi_volume h)) as (? & ? & ->), (le_bytes_2 (ah_entry_count h)) as (? & ? & ->),
    (le_bytes_4 (ah_datetime h)) as (? & ? & ? & ? & ->),
    (le_bytes_4 (ah_archive_size h)) as (? & ? & ? & ? & ->),
    (le_bytes_4 (ah_expanded_size h)) as (? & ? & ? & ? & ->),
    (le_bytes_4 (ah_split_begin h)) as (? & ? & ? & ? & ->),
    (le_bytes_4 (ah_split_end h)) as (? & ? & ? & ? & ->),
    (le_bytes_4 (ah_toc_offset h)) as (? & ? & ? & ? & ->),
    (le_bytes_2 (ah_directory_count h)) as (? & ? & ->).
  repeat split; vm_compute; reflexivity.
Qed.

Lemma byte_at_subslice bytes at_ n b l :
  subslice at_ (N.succ n) bytes = b :: l → byte_at bytes at_ = Byte.to_N b.
Proof.
  unfold subslice, byte_at. intros E. f_equal. rewrite nth_lookup.
  rewrite <-(Nat.add_0_r (N.to_nat at_)), <-lookup_drop.
  destruct (drop (N.to_nat at_) bytes); simpl in *; [by rewrite take_nil in E|].
  rewrite N2Nat.inj_succ in E. by injection E.
Qed.

Lemma archive_header_fields_encode h :
  header_fits h → archive_header_fields (archive_header_encode h) = h.
Proof.
  intros Hfits. destruct (archive_header_encoded h) as (bytes & -> & _ & _ & _ & Emv & Een & Edt & Ear &
    Eex & Ev & Esb & Ese & Eto & Edi).
  pose proof (byte_at_subslice bytes 0x1e 1 _ _ Ev) as Evc.
  assert (Evn : subslice 0x1f 1 bytes = [byte_of_N (ah_volume_number h)]).
  { transitivity (drop 1 (subslice 0x1e 2 bytes)); [|by rewrite Ev].
    unfold subslice. by rewrite skipn_firstn_comm, drop_drop. }
  pose proof (byte_at_subslice bytes 0x1f 0 _ _ Evn) as Ebn. rewrite byte_to_of_N in Evc, Ebn.
  destruct Hfits. unfold archive_header_fields, le16, le32.
  rewrite Emv, Een, Edt, Ear, Eex, Esb, Ese, Eto, Edi, Evc, Ebn.
  rewrite !(of_le_bytes_id 2 16), !(of_le_bytes_id 4 32) by done.
  rewrite !N.mod_small by done. by destruct h.
Qed.

(** A written header reads back: every field, and then the validation of the
    reader decides. *)
Theorem archive_header_roundtrip h limits :
  header_fits h → isz_limits_validate limits = Ok tt →
  archive_header_parse (archive_header_encode h) limits =
    (archive_header_validate h limits;; Ok h).
Proof.
  intros Hfits Hl. unfold archive_header_parse. rewrite archive_header_fields_encode by done.
  destruct (archive_header_encoded h) as (bytes & -> & Hlen & E1 & E2 & _).
  unfold le32. rewrite Hl, Hlen, E1, E2, !(of_le_bytes_id 4 32) by done. done.
Qed.

(** ** The table of contents *)

Record entry_ok (header : ArchiveHeader) (limits : IszLimits) (e : Entry) : Prop := {
  eo_start : DATA_START ≤ en_offset e;
  eo_end : en_offset e + en_stored_size e ≤ ah_archive_size header;
  eo_stored_limit : en_stored_size e ≤ zl_stored_bytes_per_entry limits;
  eo_expanded_limit : en_expanded_size e ≤ zl_expanded_bytes_per_entry limits;
  eo_same : is_stored e = true → en_stored_size e = en_expanded_size e;
  eo_name : len (en_name e) ≤ zl_name_bytes limits
}.

(** The directory of every entry, in order: as many as the directory declares. *)
Fixpoint entry_directories (i : N) (directories : list Directory) : list N :=
  match directories with
  | [] => []
  | d :: directories =>
      replicate (N.to_nat (di_entry_count d)) i ++ entry_directories (i + 1) directories
  end.

Record toc_ok (header : ArchiveHeader) (limits : IszLimits) (t : TableOfContents) : Prop := {
  to_directories : len (tc_directories t) = ah_directory_count header;
  to_entries : len (tc_entries t) = ah_entry_count header;
  to_grouped : en_directory_index <$> tc_entries t = entry_directories 0 (tc_directories t);
  to_entry_ok : Forall (entry_ok header limits) (tc_entries t);
  to_names : Forall (λ d, len (di_name d) ≤ zl_name_bytes limits) (tc_directories t)
}.

Lemma validate_entry_ok header limits e :
  validate_entry e header limits = Ok tt → len (en_name e) ≤ zl_name_bytes limits →
  entry_ok header limits e.
Proof.
  unfold validate_entry. rewrite !guard_seq. intros (H1 & H2 & H3 & H4) Hname.
  destruct (checked_add 64 _ _) as [stop|] eqn:E; [|done].
  apply checked_add_Some in E as [_ ->]. cbn [ok_or mbind result_bind] in H4.
  rewrite guard_seq in H4. destruct H4 as [H4 H5]. rewrite guard_err_Ok in H5.
  apply N.ltb_ge in H1, H2, H3, H4. split; try done.
  intros Hs. rewrite Hs in H5. by apply negb_false_iff, N.eqb_eq in H5.
Qed.

Lemma name_new_ok bytes limits name :
  name_new bytes limits = Ok name → len name ≤ zl_name_bytes limits.
Proof. unfold name_new. rewrite guard_seq. intros [Hl%N.ltb_ge [= <-]]. done. Qed.

(** Any outcome of a step whose value is not used. *)
Lemma wp_any {S E A} (m : M S E A) (Q : A → S → Prop) s :
  (∀ a t, Q a t) → wp m Q (λ _ _, True) s.
Proof. intros HQ. apply wp_run; auto. Qed.

Lemma wp_Ok {S E A} (m : M S E A) (Q : A → S → Prop) (R : E → S → Prop) s s' a :
  wp m Q R s → m s = (s', Ok a) → Q a s'.
Proof. unfold wp. intros Hwp Hm. by rewrite Hm in Hwp. Qed.

Lemma wp_parse_entry toc header limits i s :
  wp (parse_entry toc header limits i)
    (λ e _, entry_ok header limits e ∧ en_directory_index e = i) (λ _ _, True) s.
Proof.
  unfold parse_entry. wp_step. apply wp_any. intros fixed s1. cbv zeta.
  wp_step. apply wp_lift; [intros _ _|done]. wp_step. apply wp_lift; [intros minimum _|done].
  wp_step. apply wp_any. intros record s2. wp_step. apply wp_lift; [intros name Hn%name_new_ok|done].
  wp_step. apply wp_lift; [intros j Hj%ok_or_Ok|done]. apply try_from_Some in Hj as [_ ->].
  wp_step. apply wp_lift; [intros [] Hv|done].
  wp_step. apply wp_any. intros _ s3. wp_step. split; [|done].
  apply validate_entry_ok; done.
Qed.

Lemma wp_parse_directory toc limits s :
  wp (parse_directory toc limits) (λ d _, len (di_name d) ≤ zl_name_bytes limits) (λ _ _, True) s.
Proof.
  unfold parse_directory. wp_step. apply wp_any. intros fixed s1. cbv zeta.
  wp_step. apply wp_lift; [intros _ _|done]. wp_step. apply wp_lift; [intros minimum _|done].
  wp_step. apply wp_any. intros record s2. wp_step. apply wp_lift; [intros name Hn%name_new_ok|done].
  wp_step. apply wp_any. intros _ s3. by wp_step.
Qed.

Section toc.
Context {W : Type} `{ArchiveSource W} `{Cancellation W}.

Definition declared (directories : list Directory) : N :=
  len (entry_directories 0 directories).

Lemma entry_directories_length i j directories :
  len (entry_directories i directories) = len (entry_directories j directories).
Proof.
  revert i j. induction directories as [|d ds IH]; intros i j; [done|]. cbn [entry_directories].
  rewrite !len_app. rewrite (IH (i + 1) (j + 1)). f_equal. unfold len. by rewrite !length_replicate.
Qed.

Lemma declared_snoc directories d : declared (directories ++ [d]) = declared directories + di_entry_count d.
Proof.
  unfold declared. generalize 0. induction directories as [|d' ds IH]; intros i.
  - cbn [app entry_directories]. rewrite app_nil_r. unfold len. rewrite length_replicate. simpl. lia.
  - cbn [app entry_directories]. rewrite !len_app, IH. lia.
Qed.

Lemma wp_parse_directories count toc limits declared_entries directories (s : N * W) :
  declared_entries = declared directories →
  Forall (λ d, len (di_name d) ≤ zl_name_bytes limits) directories →
  wp (parse_directories count toc limits declared_entries directories)
    (λ r _, r.1 = declared r.2 ∧ length r.2 = (length directories + count)%nat ∧
      Forall (λ d, len (di_name d) ≤ zl_name_bytes limits) r.2) (λ _ _, True) s.
Proof.
  revert declared_entries directories s.
  induction count as [|count IH]; intros de ds s Hd Hn; cbn [parse_directories].
  { wp_step. simpl. split; [done|]. split; [lia|done]. }
  wp_step. apply wp_any. intros _ s1. wp_step. unfold at_cursor. wp_step.
  eapply wp_mono; [apply wp_parse_directory|..]; [|done]. intros d s2 Hdn.
  wp_step. apply wp_lift; [intros de' He%ok_or_Ok|done]. apply checked_add_Some in He as [_ ->].
  wp_step. apply wp_lift; [intros _ _|done].
  eapply wp_mono; [apply IH|..]; [|by apply Forall_app_2; [|apply Forall_singleton]| |done].
  - by rewrite declared_snoc, Hd.
  - intros r s3 (? & Hl & ?). rewrite length_app in Hl. simpl in Hl. split; [done|]. split; [lia|done].
Qed.

Lemma wp_parse_entries_of count toc header limits i entries (s : N * W) :
  Forall (entry_ok header limits) entries →
  wp (parse_entries_of count toc header limits i entries)
    (λ r _, (en_directory_index <$> r) = (en_directory_index <$> entries) ++ replicate count i ∧
      Forall (entry_ok header limits) r) (λ _ _, True) s.
Proof.
  revert entries s. induction count as [|count IH]; intros es s He; cbn [parse_entries_of].
  { wp_step. by rewrite app_nil_r. }
  wp_step. apply wp_any. intros _ s1. wp_step. unfold at_cursor. wp_step.
  eapply wp_mono; [apply wp_parse_entry|..]; [|done]. intros e s2 [Hok Hi].
  eapply wp_mono; [apply IH|..]; [by apply Forall_app_2; [|apply Forall_singleton]| |done].
  intros r s3 [-> ?]. split; [|done]. rewrite fmap_app, <-app_assoc. simpl. by rewrite Hi.
Qed.

Lemma wp_parse_entries directories toc header limits i entries (s : N * W) :
  Forall (entry_ok header limits) entries →
  wp (parse_entries directories toc header limits i entries)
    (λ r _, (en_directory_index <$> r) =
        (en_directory_index <$> entries) ++ entry_directories i directories ∧
      Forall (entry_ok header limits) r) (λ _ _, True) s.
Proof.
  revert i entries s. induction directories as [|d ds IH]; intros i es s He; cbn [parse_entries].
  { wp_step. cbn [entry_directories]. by rewrite app_nil_r. }
  wp_step. eapply wp_mono; [by apply wp_parse_entries_of|..]; [|done]. intros es' s1 [Hi Hok].
  eapply wp_mono; [by apply IH|..]; [|done]. intros r s2 [-> ?]. split; [|done].
  cbn [entry_directories]. by rewrite Hi, app_assoc.
Qed.

Lemma wp_toc_parse toc header limits (w : W) :
  wp (toc_parse toc header limits) (λ t _, toc_ok header limits t) (λ _ _, True) w.
Proof.
  unfold toc_parse. wp_step. apply wp_lift; [intros _ _|done].
  wp_step. apply wp_lift; [intros _ _|done]. wp_step. wp_step.
  eapply wp_mono; [by apply wp_parse_directories|..]; [|done]. intros [de ds] s1 (Hd & Hl & Hn).
  cbn [fst snd] in *. wp_step. apply wp_lift; [intros _ Hde%guard_err_Ok|done].
  apply negb_false_iff, N.eqb_eq in Hde.
  wp_step. eapply wp_mono; [by apply wp_parse_entries|..]; [|done]. intros es s2 [Hi Hok].
  wp_step. simpl in Hi, Hl. split; cbn [tc_directories tc_entries]; try done.
  - unfold len. rewrite Hl. lia.
  - rewrite <-Hde, Hd. unfold declared. rewrite <-Hi. unfold len. by rewrite length_fmap.
Qed.

(** A table of contents that parses is consistent with the header: as many
    directories and entries as it counts, every directory holding as many entries
    as it declares, in order; and every entry lies in the archive behind the
    header, inside the limits, a stored one being as long as its contents. *)
Theorem toc_parse_consistent toc header limits (w w' : W) t :
  toc_parse toc header limits w = (w', Ok t) → toc_ok header limits t.
Proof. intros E. exact (wp_Ok _ _ _ _ _ _ (wp_toc_parse toc header limits w) E). Qed.
End toc.

(** ** Opening *)

(** [ar'] is [ar] with less of the budget left. *)
Definition spent (ar ar' : Archive) : Prop :=
  ar_base ar' = ar_base ar ∧ ar_header ar' = ar_header ar ∧ ar_toc ar' = ar_toc ar ∧
  ar_limits ar' = ar_limits ar ∧ ar_remaining_total ar' ≤ ar_remaining_total ar.

#[export] Instance spent_preorder : PreOrder spent.
Proof.
  split; [intros ar; by unfold spent|]. intros x y z (? & ? & ? & ? & ?) (? & ? & ? & ? & ?).
  unfold spent; split_and!; try congruence. by etrans.
Qed.

(** The reader of an entry before its first read. *)
Definition fresh_reader (ar : Archive) (entry : Entry) (rd : EntryReader) : Prop :=
  er_at rd = ar_base ar + en_offset entry ∧ er_stored_left rd = en_stored_size entry ∧
  er_expanded_size rd = en_expanded_size entry ∧ er_stored rd = is_stored entry ∧
  er_chunk rd = N.max (zl_chunk_bytes (ar_limits ar)) (MAX_MATCH * 2) ∧
  er_written rd = 0 ∧ er_input rd = [] ∧ er_output rd = [] ∧ er_output_position rd = 0 ∧
  er_explode rd = explode_new ∧ er_finished rd = false.

Lemma wp_open_entry index ar :
  wp (open_entry index)
    (λ rd ar', spent ar ar' ∧ ∃ entry, toc_entry (ar_toc ar) index = Ok entry ∧
      fresh_reader ar entry rd ∧
      ar_remaining_total ar' + en_expanded_size entry = ar_remaining_total ar)
    (λ _ ar', spent ar ar') ar.
Proof.
  unfold open_entry. do 2 wp_step. wp_step. apply wp_lift; [intros entry Hentry|done].
  destruct (spans_volumes entry); [by wp_step|]. cbv zeta.
  destruct (_ <? _); [by wp_step|].
  destruct (N.ltb_spec (ar_remaining_total ar) (en_expanded_size entry)) as [|Hle]; [by wp_step|].
  do 3 wp_step. assert (Hsp : spent ar {| ar_base := ar_base ar; ar_header := ar_header ar;
    ar_toc := ar_toc ar; ar_limits := ar_limits ar;
    ar_remaining_total := ar_remaining_total ar - en_expanded_size entry |}).
  { split_and!; try done. simpl. lia. }
  apply wp_lift; [|done]. intros at_ E%ok_or_Ok. apply checked_add_Some in E as [_ ->].
  wp_step. split; [done|]. exists entry. split; [done|]. split; [done|]. simpl. lia.
Qed.

(** Opening entries one after the other: the archive and the readers it gave. *)
Fixpoint open_all (indexes : list N) (ar : Archive) : Archive * list EntryReader :=
  match indexes with
  | [] => (ar, [])
  | index :: indexes =>
      let '(ar, r) := open_entry index ar in
      let '(ar, readers) := open_all indexes ar in
      (ar, match r with Ok rd => rd :: readers | Err _ => readers end)
  end.

Definition promised (readers : list EntryReader) : N :=
  foldr (λ rd total, er_expanded_size rd + total) 0 readers.

Lemma open_all_run indexes ar :
  let '(ar', readers) := open_all indexes ar in
  spent ar ar' ∧ ar_remaining_total ar' + promised readers ≤ ar_remaining_total ar ∧
  Forall (λ rd, ∃ entry, entry ∈ tc_entries (ar_toc ar) ∧ fresh_reader ar entry rd) readers.
Proof.
  revert ar. induction indexes as [|i indexes IH]; intros ar; cbn [open_all].
  { split; [done|]. split; [simpl; lia|constructor]. }
  pose proof (wp_open_entry i ar) as Ho. unfold wp in Ho.
  destruct (open_entry i ar) as [ar1 r]. specialize (IH ar1).
  destruct (open_all indexes ar1) as [ar2 readers]. destruct IH as (Hs2 & Hrem & Hall).
  assert (Hs1 : spent ar ar1) by (destruct r; naive_solver).
  assert (Hall' : Forall (λ rd, ∃ entry, entry ∈ tc_entries (ar_toc ar) ∧ fresh_reader ar entry rd) readers).
  { refine (List.Forall_impl _ _ Hall). intros rd (e & He & Hf).
    destruct Hs1 as (Eb & _ & Et & El & _). exists e. rewrite Et in He. split; [done|].
    unfold fresh_reader in *. by rewrite Eb, El in Hf. }
  split; [by etrans|]. destruct r as [rd|e]; cbn [promised foldr] in *.
  - destruct Ho as (_ & entry & Ht & Hf & Hr). split.
    + destruct Hf as (_ & _ & -> & _). fold (promised readers). lia.
    + constructor; [|done]. exists entry. split; [|done]. unfold toc_entry in Ht.
      apply ok_or_Ok in Ht. by apply list_elem_of_lookup_2 in Ht.
  - destruct Hs1 as (_ & _ & _ & _ & ?). split; [lia|done].
Qed.

(** The archive-wide budget: however often and in whatever order entries are
    opened, what the readers promise together is at most the limit. *)
Corollary open_all_budget indexes ar :
  promised (snd (open_all indexes ar)) ≤ ar_remaining_total ar.
Proof.
  pose proof (open_all_run indexes ar) as H. destruct (open_all indexes ar). simpl. lia.
Qed.

Lemma isz_limits_bounds limits :
  isz_limits_validate limits = Ok tt →
  zl_chunk_bytes limits ≤ zl_chunk_bytes isz_limits_hard ∧
  zl_expanded_bytes_per_entry limits ≤ zl_expanded_bytes_per_entry isz_limits_hard ∧
  0 < zl_scan_bytes limits ≤ zl_scan_bytes isz_limits_hard.
Proof.
  unfold isz_limits_validate. rewrite guard_err_Ok, negb_false_iff.
  rewrite !andb_true_iff, !N.leb_le, !negb_true_iff, !N.eqb_neq. intros H. split_and!; try apply H.
  destruct H as ((((((((([H _] & _) & _) & _) & _) & _) & _) & _) & _) & _). lia.
Qed.

Section opened.
Context {W : Type} `{ArchiveSource W} `{Cancellation W} (bytes : list byte)
  `{!HonestSource W bytes} `{!NeverCancelled W}.
Context (Hbytes : len bytes < 2 ^ 64).

Lemma read_new_run offset size (w : W) :
  offset + size ≤ len bytes → ∃ w', read_new offset size w = (w', Ok (subslice offset size bytes)).
Proof.
  intros Hin. assert (Hlen : len (replicate (N.to_nat size) x00) = size).
  { unfold len. rewrite length_replicate. lia. }
  destruct (read_exact_at_run bytes offset w (replicate (N.to_nat size) x00)) as [w' E];
    [by rewrite Hlen|done|]. rewrite Hlen in E. exists w'.
  unfold read_new, with_buffer. by rewrite (M_bind_step _ _ _ _ _ E).
Qed.

(** What an opened archive was read from. *)
Definition opened_at (base : N) (limits : IszLimits) (ar : Archive) : Prop :=
  isz_limits_validate limits = Ok tt ∧
  archive_header_parse (subslice base HEADER_SIZE bytes) limits = Ok (ar_header ar) ∧
  is_multi_volume (ar_header ar) = false ∧
  (∃ w w' : W, toc_parse (subslice (base + ah_toc_offset (ar_header ar)) (toc_bytes (ar_header ar)) bytes)
    (ar_header ar) limits w = (w', Ok (ar_toc ar))) ∧
  ar_base ar = base ∧ ar_limits ar = limits ∧
  ar_remaining_total ar = zl_total_expanded_bytes limits.

Lemma header_parse_bounds hb limits h :
  archive_header_parse hb limits = Ok h →
  DATA_START ≤ ah_toc_offset h ∧ ah_toc_offset h < ah_archive_size h.
Proof.
  unfold archive_header_parse. destruct (isz_limits_validate limits); [|done].
  cbn [mbind result_bind]. rewrite !guard_seq. intros (_ & _ & E). cbv zeta in E.
  destruct (archive_header_validate _ limits) eqn:Ev; [|done]. injection E as <-.
  unfold archive_header_validate in Ev. rewrite !guard_seq in Ev.
  destruct Ev as (_ & _ & _ & _ & Ho & _). apply orb_false_iff in Ho as [H1%N.ltb_ge H2%N.leb_gt]. done.
Qed.

Lemma archive_open_inv base limits (w w1 : W) ar :
  archive_open base limits w = (w1, Ok ar) →
  base + ah_archive_size (ar_header ar) ≤ len bytes → opened_at base limits ar.
Proof.
  intros Hopen. pose (Q := λ (ar : Archive) (_ : W),
    base + ah_archive_size (ar_header ar) ≤ len bytes → opened_at base limits ar).
  refine (wp_Ok _ Q (λ _ _, True) _ _ _ _ Hopen). clear Hopen ar w1. unfold archive_open, Q.
  wp_step. apply wp_lift; [intros [] Hlim|done]. wp_step. apply wp_any. intros _ w1.
  wp_step. apply wp_run; [|done]. intros hb w2 Ehb.
  wp_step. apply wp_lift; [intros h Hh|done]. pose proof (header_parse_bounds _ _ _ Hh) as [Hd Ht].
  destruct (is_multi_volume h) eqn:Hmv; [by wp_step|]. destruct (_ <? _); [by wp_step|].
  wp_step. apply wp_lift; [|done]. intros toc_at E%ok_or_Ok. apply checked_add_Some in E as [_ ->].
  wp_step. apply wp_run; [|done]. intros tb w3 Etb.
  wp_step. apply wp_any. intros _ w4. wp_step. apply wp_run; [|done]. intros toc w5 Etoc.
  wp_step. cbn [ar_header]. intros Hin. unfold DATA_START in Hd.
  destruct (read_new_run base HEADER_SIZE w1) as [w2' E1]; [unfold HEADER_SIZE; lia|].
  destruct (read_new_run (base + ah_toc_offset h) (toc_bytes h) w2) as [w3' E2]; [unfold toc_bytes; lia|].
  rewrite E1 in Ehb. rewrite E2 in Etb. injection Ehb as _ <-. injection Etb as _ <-.
  split_and!; try done. by exists w4, w5.
Qed.

(** A fresh reader has produced nothing yet. *)
Lemma fresh_reader_inv ar entry rd :
  isz_limits_validate (ar_limits ar) = Ok tt → entry_ok (ar_header ar) (ar_limits ar) entry →
  fresh_reader ar entry rd →
  er_inv bytes (ar_base ar + en_offset entry) (en_stored_size entry) [] rd.
Proof.
  intros Hlim Hok (Ha & Hl & Hx & Hs & Hc & Hw & Hi & Ho & Hp & Hex & Hf).
  destruct (isz_limits_bounds _ Hlim) as (Hcb & Heb & _). cbn [isz_limits_hard zl_chunk_bytes
    zl_expanded_bytes_per_entry] in Hcb, Heb. destruct Hok.
  destruct rd. simpl in *. subst. split; simpl; try done; try lia.
  - unfold MAX_MATCH. lia.
  - intros Hst. rewrite (eo_same0 Hst). split; [done|]. by rewrite N.sub_diag.
  - intros _. split; [done|]. unfold unread. simpl. rewrite N.sub_diag. apply explode_new_point.
Qed.

(** What an entry of an archive holds, and what reading it gives. *)
Definition entry_contents (ar : Archive) (entry : Entry) (out : list byte) : Prop :=
  let stored := subslice (ar_base ar + en_offset entry) (en_stored_size entry) bytes in
  if is_stored entry then out = stored else exploded stored out.

Lemma fresh_reader_reads ar entry rd reads fuel (w : W) :
  isz_limits_validate (ar_limits ar) = Ok tt → entry_ok (ar_header ar) (ar_limits ar) entry →
  ar_base ar + ah_archive_size (ar_header ar) ≤ len bytes →
  fresh_reader ar entry rd →
  en_expanded_size entry < N.of_nat reads → 2 * en_stored_size entry + 1 < N.of_nat fuel →
  match snd (er_read_to_vec reads fuel [] (rd, w)) with
  | Ok (Some out) => entry_contents ar entry out ∧ len out = en_expanded_size entry
  | Ok None => False
  | Err e =>
      e = ZE_DecompressionFailed ∧ (∀ out, ¬ entry_contents ar entry out) ∨
      e = ZE_SizeMismatch ∧ (∀ out, entry_contents ar entry out → len out ≠ en_expanded_size entry)
  end.
Proof.
  intros Hlim Hok Hin Hfresh Hreads Hfuel. pose proof (fresh_reader_inv _ _ _ Hlim Hok Hfresh) as Hinv.
  assert (Hin' : ar_base ar + en_offset entry + en_stored_size entry ≤ len bytes) by (destruct Hok; lia).
  destruct Hfresh as (_ & Hl & Hx & Hs & _ & _ & Hi & _).
  pose proof (er_read_to_vec_run bytes _ _ Hin' Hbytes reads fuel [] rd w Hinv) as Hr.
  specialize (Hr ltac:(rewrite len_nil, Hx; lia) ltac:(unfold er_measure; rewrite Hl, Hi, len_nil; lia)).
  unfold vec_post, read_error in Hr. rewrite Hs, Hx in Hr.
  by destruct (er_read_to_vec reads fuel [] (rd, w)) as [? [[out|]|e]].
Qed.

(** C16: Reading an entry. In an archive that lies in the container, whatever entries
    were opened before in whatever order, reading an entry to the end returns,
    however little the container delivers at a time: exactly the stored bytes or
    exactly what the imploded stream expands to, of the recorded length; or it
    says that the stream is malformed, when it is, or that the length is wrong,
    when it is. *)
Theorem isz_entry_read base limits (w w1 w2 : W) ar indexes rd reads fuel :
  archive_open base limits w = (w1, Ok ar) →
  base + ah_archive_size (ar_header ar) ≤ len bytes →
  rd ∈ snd (open_all indexes ar) →
  er_expanded_size rd < N.of_nat reads → 2 * er_stored_left rd + 1 < N.of_nat fuel →
  ∃ entry, entry ∈ tc_entries (ar_toc ar) ∧
    match snd (er_read_to_vec reads fuel [] (rd, w2)) with
    | Ok (Some out) => entry_contents ar entry out ∧ len out = en_expanded_size entry
    | Ok None => False
    | Err e =>
        e = ZE_DecompressionFailed ∧ (∀ out, ¬ entry_contents ar entry out) ∨
        e = ZE_SizeMismatch ∧ (∀ out, entry_contents ar entry out → len out ≠ en_expanded_size entry)
    end.
Proof.
  intros Hopen Hin Hrd Hreads Hfuel.
  destruct (archive_open_inv _ _ _ _ _ Hopen Hin) as (Hlim & _ & _ & (v & v' & Htoc) & Hb & El & _).
  pose proof (wp_Ok _ _ _ _ _ _ (wp_toc_parse _ _ _ v) Htoc) as Hok.
  pose proof (open_all_run indexes ar) as Ho. destruct (open_all indexes ar) as [ar' readers].
  destruct Ho as (_ & _ & Hall). destruct (proj1 (list.Forall_forall _ _) Hall rd Hrd) as (entry & He & Hf).
  exists entry. split; [done|]. pose proof Hf as (_ & Hl & Hx & _). rewrite Hl in Hfuel. rewrite Hx in Hreads.
  apply fresh_reader_reads; rewrite ?El, ?Hb; try done.
  exact (proj1 (list.Forall_forall _ _) (to_entry_ok _ _ _ Hok) entry He).
Qed.
End opened.

(** * Looking for the signature

    [find_signature_from] of [IszArchive.v] over an honest source: the windows
    overlap so that no occurrence of the signature falls between two of them. *)

Lemma checked_add_fits w a b : a + b < 2 ^ w → checked_add w a b = Some (a + b).
Proof. intros Hab. by apply checked_add_Some. Qed.

(** ** Occurrences *)

Definition occurs (bytes : list byte) (p : N) : Prop :=
  subslice p (len SIGNATURE) bytes = SIGNATURE.

Lemma occurs_bound bytes p : occurs bytes p → p + len SIGNATURE ≤ len bytes.
Proof.
  unfold occurs, subslice. intros E. apply (f_equal length) in E.
  rewrite length_take, length_drop in E. change (length SIGNATURE) with 8%nat in E.
  change (len SIGNATURE) with 8 in *. unfold len. lia.
Qed.

(** Inside a window an occurrence is one of the whole. *)
Lemma occurs_window bytes start size i :
  i + len SIGNATURE ≤ size →
  occurs (subslice start size bytes) i ↔ occurs bytes (start + i).
Proof.
  intros Hi. unfold occurs, subslice. rewrite skipn_firstn_comm, drop_drop, take_take.
  rewrite N2Nat.inj_add, Nat.min_l by lia. done.
Qed.

Lemma signature_position_spec bytes :
  match signature_position bytes with
  | Some i => occurs bytes i ∧ ∀ j, j < i → ¬ occurs bytes j
  | None => ∀ j, ¬ occurs bytes j
  end.
Proof.
  induction bytes as [|b bytes IH]; cbn [signature_position].
  { intros j Hj%occurs_bound. change (len SIGNATURE) with 8 in Hj. rewrite len_nil in Hj. lia. }
  case_bool_decide as Hhere.
  { split; [done|]. intros j Hj. lia. }
  assert (Hnext : ∀ j, occurs (b :: bytes) (N.succ j) ↔ occurs bytes j).
  { intros j. unfold occurs, subslice. by rewrite N2Nat.inj_succ. }
  assert (H0 : ¬ occurs (b :: bytes) 0) by done.
  destruct (signature_position bytes) as [i|]; cbn [fmap option_fmap option_map].
  - destruct IH as [Hi Hbefore]. split; [by apply Hnext|]. intros j Hj.
    destruct (N.eq_dec j 0) as [->|Hj0]; [done|].
    rewrite <-(N.succ_pred j) by done. rewrite Hnext. apply Hbefore. lia.
  - intros j. destruct (N.eq_dec j 0) as [->|Hj0]; [done|].
    rewrite <-(N.succ_pred j) by done. rewrite Hnext. apply IH.
Qed.

(** The first occurrence from [start] on. *)
Definition first_occurrence (bytes : list byte) (start hit : N) : Prop :=
  start ≤ hit ∧ occurs bytes hit ∧ ∀ p, start ≤ p → p < hit → ¬ occurs bytes p.

Section scan.
Context {W : Type} `{ArchiveSource W} `{Cancellation W} (bytes : list byte)
  `{!HonestSource W bytes} `{!NeverCancelled W}.
Context (Hbytes : len bytes < 2 ^ 64).

(** Short reads are made up for: a window holds what the source has there. *)
Lemma fill_window_run turns position want filled (w : W) buf :
  (want ≤ length buf)%nat → (filled ≤ want)%nat → (want - filled < turns)%nat →
  position < 2 ^ 64 →
  take filled buf = subslice position (N.of_nat filled) bytes →
  (filled = 0%nat ∨ position + N.of_nat filled ≤ len bytes) →
  ∃ w' buf', length buf' = length buf ∧
    let total := N.min (N.of_nat want) (len bytes - position) in
    fill_window turns position (N.of_nat want) (N.of_nat filled) (w, buf) = ((w', buf'), Ok total) ∧
    take (N.to_nat total) buf' = subslice position total bytes.
Proof.
  intros Hwant. revert filled w buf Hwant.
  induction turns as [|turns IH]; intros filled w buf Hwant Hf Ht Hpos Htake Hin; [lia|].
  cbn [fill_window]. destruct (N.ltb_spec (N.of_nat filled) (N.of_nat want)) as [Hlt|Hge].
  2:{ exists w, buf. split; [done|]. assert (filled = want) as -> by lia.
      assert (N.min (N.of_nat want) (len bytes - position) = N.of_nat want) as -> by (destruct Hin; lia).
      split; [done|]. by rewrite Nat2N.id. }
  rewrite (checked_add_fits 64 position) by (destruct Hin; lia).
  unfold mbind at 1, M_bind at 1. cbn [ok_or lift].
  destruct (read_slice_run bytes (position + N.of_nat filled) filled want w buf Hf Hwant) as
    (w' & n & buf' & E & Hl & Hn & Hs & Hav & Hz);
    [by replace (position + N.of_nat filled - N.of_nat filled) with position by lia|lia|].
  replace (position + N.of_nat filled - N.of_nat filled) with position in Hs by lia.
  rewrite (M_bind_step _ _ _ _ _ E). destruct (N.eqb_spec (N.of_nat n) 0) as [Hn0|Hn0].
  - assert (n = 0%nat) as -> by lia. rewrite Nat.add_0_r in Hs.
    exists w', buf'. split; [done|]. destruct (Hz eq_refl) as [?|Hend]; [lia|].
    assert (N.min (N.of_nat want) (len bytes - position) = N.of_nat filled) as ->.
    { unfold len in *. destruct Hin; lia. }
    split; [done|]. by rewrite Nat2N.id.
  - assert (Hle : position + N.of_nat (filled + n) ≤ len bytes) by (unfold len; lia).
    rewrite checked_add_fits by lia.
    rewrite (proj2 (N.leb_le (N.of_nat filled + N.of_nat n) _)) by lia.
    unfold mbind at 1, M_bind at 1. cbn [lift]. rewrite <-Nat2N.inj_add, <-Hl.
    apply IH; try lia; done.
Qed.

(** [windows] full windows from [position] on see everything that starts before
    this. *)
Definition scanned_to (window position windows : N) : N :=
  position + windows * (window - (len SIGNATURE - 1)).

Definition scan_post (window position windows : N) (r : result IszError (option N)) : Prop :=
  match r with
  | Ok (Some hit) => first_occurrence bytes position hit
  | Ok None => ∀ p, position ≤ p → p < scanned_to window position windows → ¬ occurs bytes p
  | Err _ => False
  end.

Lemma scan_loop_run turns limits window position scanned (w : W) buf :
  length buf = N.to_nat window → len SIGNATURE ≤ window →
  position < 2 ^ 64 → zl_scan_bytes limits < 2 ^ 63 → window < 2 ^ 63 →
  zl_scan_bytes limits - scanned < N.of_nat turns →
  scan_post window position ((zl_scan_bytes limits - scanned) / window)
    (snd (scan_loop turns limits window position scanned (w, buf))).
Proof.
  change (len SIGNATURE) with 8. intros Hbuf Hwin. revert position scanned w buf Hbuf.
  induction turns as [|turns IH]; intros position scanned w buf Hbuf Hpos Hscan Hw64 Hturns; [lia|].
  cbn [scan_loop]. destruct (check_cancelled_run w) as [w1 Ec].
  erewrite M_bind_step; [|unfold zoom; cbn [fst]; by rewrite Ec]. clear Ec. cbn [snd].
  assert (Hshort : zl_scan_bytes limits - scanned < window →
    scanned_to window position ((zl_scan_bytes limits - scanned) / window) = position).
  { intros Hlt. rewrite N.div_small by done. unfold scanned_to. lia. }
  destruct (N.leb_spec (zl_scan_bytes limits) scanned) as [Hdone|Hmore].
  { intros p Hp Hp'. rewrite Hshort in Hp' by lia. lia. }
  change (len SIGNATURE) with 8. set (want := N.min _ window).
  destruct (N.ltb_spec want 8) as [Hsmall|Hbig].
  { intros p Hp Hp'. rewrite Hshort in Hp' by lia. lia. }
  destruct (fill_window_run (S (N.to_nat want)) position (N.to_nat want) 0 w1 buf) as
    (w2 & buf2 & Hl2 & E2 & Ht2); [lia..|done|by left|].
  rewrite N2Nat.id in E2, Ht2. change (N.of_nat 0) with 0 in E2.
  set (filled := N.min want _) in E2, Ht2. cbv zeta in E2. rewrite (M_bind_step _ _ _ _ _ E2). clear E2.
  assert (Hend : filled < want → ∀ p, occurs bytes p → position + filled = len bytes ∨ p < position).
  { intros Hlt p Hp%occurs_bound. change (len SIGNATURE) with 8 in Hp. subst filled. lia. }
  destruct (N.ltb_spec filled 8) as [Hf8|Hf8].
  { intros p Hp _ Hocc%occurs_bound. change (len SIGNATURE) with 8 in Hocc. subst filled. lia. }
  unfold mbind at 1, M_bind at 1, get. cbn [snd]. rewrite Ht2.
  pose proof (signature_position_spec (subslice position filled bytes)) as Hsig.
  assert (Hfl : position + filled ≤ len bytes) by (subst filled; lia).
  destruct (signature_position _) as [i|].
  - destruct Hsig as [Hi Hbefore]. pose proof (occurs_bound _ _ Hi) as Hib.
    rewrite len_subslice in Hib by done. change (len SIGNATURE) with 8 in Hib.
    rewrite checked_add_fits by lia. cbn [ok_or].
    unfold mbind, M_bind, lift, mret, M_ret, scan_post. cbn [snd].
    split; [lia|]. split; [apply (occurs_window bytes position filled); [done|exact Hi]|].
    intros p Hp Hp' Hocc. apply (Hbefore (p - position)); [lia|].
    apply occurs_window; [change (len SIGNATURE) with 8; lia|].
    by replace (position + (p - position)) with p by lia.
  - assert (Hnone : ∀ p, position ≤ p → p + 8 ≤ position + filled → ¬ occurs bytes p).
    { intros p Hp Hp' Hocc. apply (Hsig (p - position)). apply occurs_window.
      - change (len SIGNATURE) with 8. lia.
      - by replace (position + (p - position)) with p by lia. }
    rewrite (checked_add_fits 64 scanned) by (subst filled want; lia). cbn [ok_or].
    unfold mbind at 1, M_bind at 1, lift.
    destruct (N.ltb_spec filled want) as [Hlt|Hge].
    { intros p Hp _ Hocc. pose proof (occurs_bound _ _ Hocc) as Hb. change (len SIGNATURE) with 8 in Hb.
      apply (Hnone p Hp); [|done]. subst filled. lia. }
    assert (Hfw : filled = want) by (subst filled; lia). rewrite Hfw in *. clear Hge Hend.
    rewrite checked_add_fits by lia. cbn [ok_or].
    unfold mbind at 1, M_bind at 1. change (8 - 1) with 7.
    specialize (IH (position + (want - 7)) (scanned + want) w2 buf2).
    rewrite Hl2, Hbuf in IH. specialize (IH eq_refl ltac:(lia) Hscan Hw64 ltac:(lia)).
    destruct (snd (scan_loop turns _ _ _ _ _)) as [[hit|]|e]; [| |done]; cbn [scan_post] in *.
    + destruct IH as (Hh & Hocc & Hbefore). split; [lia|]. split; [done|]. intros p Hp Hp'.
      destruct (N.ltb_spec p (position + (want - 7))); [apply Hnone; lia|by apply Hbefore].
    + intros p Hp Hp'. destruct (N.ltb_spec p (position + (want - 7))); [apply Hnone; lia|].
      apply IH; [done|]. destruct (N.ltb_spec (zl_scan_bytes limits - scanned) window) as [Hlt|Hfull].
      { rewrite Hshort in Hp' by done. lia. }
      assert (Hww : want = window) by (subst want; lia). rewrite Hww in *. clear Hww.
      unfold scanned_to in *. change (len SIGNATURE) with 8 in *.
      set (q := (zl_scan_bytes limits - (scanned + window)) / window).
      assert (Hq : (zl_scan_bytes limits - scanned) / window = q + 1).
      { subst q. rewrite <-N.div_add by lia. f_equal. lia. }
      rewrite Hq in Hp'. clearbody q. lia.
Qed.

(** [find_signature_from] is exact. Over a source that holds [bytes] it always
    answers, however little the source delivers at a time: an occurrence of the
    signature at or after [start] before which there is none, or no occurrence
    among the offsets that the full windows of its budget of reads cover. *)
Theorem find_signature_from_exact start limits (w : W) :
  start < 2 ^ 64 → isz_limits_validate limits = Ok tt →
  let window := N.max (zl_chunk_bytes limits) (len SIGNATURE) in
  match snd (find_signature_from start limits w) with
  | Ok (Some hit) => first_occurrence bytes start hit
  | Ok None => ∀ p, start ≤ p → p < scanned_to window start (zl_scan_bytes limits / window) →
      ¬ occurs bytes p
  | Err _ => False
  end.
Proof.
  intros Hstart Hlim window. destruct (isz_limits_bounds _ Hlim) as (Hc & _ & Hs).
  change (zl_chunk_bytes isz_limits_hard) with 8388608 in Hc.
  change (zl_scan_bytes isz_limits_hard) with 8589934592 in Hs.
  unfold find_signature_from. rewrite Hlim. unfold mbind at 1, M_bind at 1, lift. fold window.
  pose proof (scan_loop_run (S (N.to_nat (zl_scan_bytes limits))) limits window start 0 w
    (replicate (N.to_nat window) x00)) as Hr. rewrite N.sub_0_r in Hr.
  assert (Hw : 8 ≤ window ∧ window ≤ 8388608).
  { subst window. change (len SIGNATURE) with 8. lia. }
  clearbody window. unfold with_buffer, scan_post in *.
  destruct (scan_loop _ _ _ _ _ _) as [[w' buf'] r]. apply Hr; try lia.
  - by rewrite length_replicate.
  - apply Hw.
Qed.
End scan.
