(* ===== verification/IszSample.v ===== *)
(** * A sample container

    An archive of two entries, one imploded and one stored, behind three bytes
    of an installer: the theorems of [IszOpen.v] at work, and
    what a reader does after a failure of its source. *)

From S2P Require Export IszOpen.

(** ** The in-memory source is honest *)

#[export] Instance slice_honest bytes : @HonestSource unit (SliceSource bytes) bytes.
Proof.
  intros offset buf w. unfold source_read_at, SliceSource.
  destruct (N.ltb_spec (len bytes) offset) as [Hout|Hin].
  - exists w, 0%nat. rewrite take_0, drop_0. split; [done|]. split; [lia|]. split; [lia|].
    intros _. right. unfold len in Hout. lia.
  - set (available := drop _ bytes).
    assert (Hl : length available = (length bytes - N.to_nat offset)%nat) by (apply length_drop).
    exists w, (Nat.min (length available) (length buf)). unfold len.
    rewrite <-Nat2N.inj_min, Nat2N.id. split; [|split; [lia|split; [lia|]]].
    + unfold splice. rewrite length_take. simpl. do 4 f_equal. lia.
    + intros E. destruct buf; [by left|right]. simpl in E. lia.
Qed.

#[export] Instance never_signalled_never : @NeverCancelled unit never_signalled.
Proof. intros w. by exists w. Qed.

(** ** The sample *)

Definition sample_header : ArchiveHeader :=
  {| ah_entry_count := 2; ah_directory_count := 1; ah_archive_size := 334; ah_expanded_size := 15;
     ah_datetime := 0; ah_multi_volume := 0; ah_volume_count := 1; ah_volume_number := 1;
     ah_split_begin := 0; ah_split_end := 0; ah_toc_offset := 265 |}.

(** One record of the table of contents, the name of one letter. *)
Definition sample_entry (index expanded stored offset attributes : N) (name : byte) : list byte :=
  [x00] ++ le_bytes 2 index ++ le_bytes 4 expanded ++ le_bytes 4 stored ++ le_bytes 4 offset ++
  le_bytes 4 0 ++ le_bytes 4 0 ++ le_bytes 2 31 ++ [byte_of_N attributes; x00; x00; x00; x01; name].

Definition sample_container : list byte :=
  [x4d; x5a; x13] ++ archive_header_encode sample_header ++ replicate 196 x00 ++
  known_answer ++ [x61; x62] ++
  le_bytes 2 2 ++ le_bytes 2 7 ++ le_bytes 2 1 ++ [x64] ++
  sample_entry 0 13 8 255 0 x65 ++ sample_entry 1 2 2 263 16 x66.

Definition small_limits : IszLimits :=
  {| zl_scan_bytes := 64; zl_archive_bytes := 4096; zl_directories := 8; zl_entries := 8;
     zl_directory_bytes := 1024; zl_name_bytes := 16; zl_stored_bytes_per_entry := 1024;
     zl_expanded_bytes_per_entry := 1024; zl_total_expanded_bytes := 1024; zl_chunk_bytes := 16 |}.

Section sample.
#[local] Existing Instance never_signalled.
#[local] Instance sample_source : ArchiveSource unit := SliceSource sample_container.

Definition sample_open : result IszError Archive := snd (archive_open 3 small_limits tt).

Definition sample_read (indexes : list N) : result IszError (list (option (list byte))) :=
  ar ← sample_open;
  mapM (λ rd, snd (er_read_to_vec 32 32 [] (rd, tt))) (snd (open_all indexes ar)).

Example sample_reads : sample_read [0; 1; 7; 0] =
  Ok [Some known_expansion; Some [x61; x62]; Some known_expansion].
Proof. by vm_compute. Qed.
End sample.

Lemma replicate_subslice {A} (k n : N) (x : A) :
  k ≤ n → subslice 0 k (replicate (N.to_nat n) x) = replicate (N.to_nat k) x.
Proof. intros. unfold subslice. change (N.to_nat 0) with 0%nat. rewrite drop_0, take_replicate. f_equal. lia. Qed.

(** ** After a failure *)

Section failure.
Context {W : Type} `{ArchiveSource W} `{Cancellation W}.

(** C39: A failed read leaves bytes behind. When the source fails under a stored entry,
    [read] reports it; but the chunk it had made room for stays pending, and the
    next call hands these zeros to the caller as contents of the entry. *)
Theorem failed_read_serves_zeros rd size fuel (w w1 w2 : W) :
  er_stored rd = true → er_finished rd = false → er_output_position rd = len (er_output rd) →
  0 < er_stored_left rd → 0 < er_chunk rd → 0 < size → er_at rd < 2 ^ 64 →
  check_cancelled w = (w1, Ok tt) →
  (∀ buf, source_read_at (er_at rd) buf w1 = (w2, (buf, Err tt))) →
  ∃ rd', er_read (S fuel) size (rd, w) = ((rd', w2), Err ZE_Source) ∧
    ∀ w3, ∃ rd'', er_read 1 size (rd', w3) =
      ((rd'', w3), Ok (Some (replicate (N.to_nat (N.min (N.min (er_stored_left rd) (er_chunk rd)) size)) x00))).
Proof.
  intros Hst Hfin Hpos Hleft Hchunk Hsize Hat Hc Hfail.
  destruct rd as [a l x wr st ch i o p ex f]. simpl in *. subst st f p.
  set (take_ := N.min l ch). assert (Ht : 0 < take_) by lia.
  set (zeros := replicate (N.to_nat take_) x00).
  assert (Hlen : len zeros = take_) by (unfold len, zeros; rewrite length_replicate; lia).
  exists {| er_at := a; er_stored_left := l; er_expanded_size := x; er_written := wr; er_stored := true;
    er_chunk := ch; er_input := i; er_output := zeros; er_output_position := 0; er_explode := ex;
    er_finished := false |}. split.
  - rewrite (proj2 (N.eqb_neq size 0)) by lia.
    unfold mbind at 1, M_bind at 1, get. cbn [fst snd er_output er_output_position er_finished].
    rewrite N.sub_diag. cbn [N.ltb N.compare].
    erewrite M_bind_step; [|unfold zoom; cbn [snd]; by rewrite Hc].
    apply M_bind_fail. unfold er_step. erewrite M_bind_step; [|reflexivity].
    unfold mbind at 1, M_bind at 1, get. cbn [fst snd er_put_output er_stored er_stored_left].
    rewrite (proj2 (N.eqb_neq l 0)) by lia. unfold step_stored.
    unfold mbind at 1, M_bind at 1, get. cbn [fst snd er_stored_left er_chunk er_at]. fold take_ zeros.
    apply M_bind_fail. unfold zoom. cbn [snd].
    assert (E : read_exact_at a (w1, zeros) = ((w2, zeros), Err ZE_Source)); [|by rewrite E].
    unfold read_exact_at, mbind at 1, M_bind at 1, get. cbn [snd read_exact_loop].
    unfold mbind at 1, M_bind at 1, get. cbn [snd]. rewrite Hlen, (proj2 (N.ltb_lt 0 _)) by done.
    rewrite checked_add_fits, N.add_0_r by lia. unfold mbind at 1, M_bind at 1. cbn [ok_or lift].
    apply M_bind_fail. unfold read_slice. rewrite N.sub_0_r, Hfail. cbn [map_err].
    unfold subslice, splice. change (N.to_nat 0) with 0%nat. rewrite drop_0, take_0.
    rewrite (take_ge zeros) by (unfold len in Hlen; lia). simpl. by rewrite drop_ge, app_nil_r.
  - intros w3. eexists. cbn [er_read]. rewrite (proj2 (N.eqb_neq size 0)) by lia.
    unfold mbind at 1, M_bind at 1, get. cbn [fst snd er_output er_output_position].
    rewrite Hlen, N.sub_0_r, (proj2 (N.ltb_lt 0 _)) by done.
    erewrite M_bind_step; [|reflexivity]. unfold mret, M_ret. cbv zeta.
    unfold zeros; cbn [er_output]; rewrite replicate_subslice by lia. reflexivity.
Qed.
End failure.

(** ** Witnesses *)

(** A source that fails once. *)
Definition fails_once (bytes : list byte) : ArchiveSource bool := λ offset buf failed,
  if failed then let '(_, r) := SliceSource bytes offset buf tt in (true, r)
  else (true, (buf, Err tt)).
Definition bool_never : Cancellation bool := λ w, (w, false).

Definition stored_sample : EntryReader :=
  {| er_at := 3 + 263; er_stored_left := 2; er_expanded_size := 2; er_written := 0; er_stored := true;
     er_chunk := 1036; er_input := []; er_output := []; er_output_position := 0;
     er_explode := explode_new; er_finished := false |}.

Lemma failed_read_serves_zeros_witness :
  ∃ rd', @er_read bool (fails_once sample_container) bool_never 1 16 (stored_sample, false) =
      ((rd', true), Err ZE_Source) ∧
    ∃ rd'', @er_read bool (fails_once sample_container) bool_never 1 16 (rd', true) =
      ((rd'', true), Ok (Some [x00; x00])).
Proof.
  destruct (@failed_read_serves_zeros bool (fails_once sample_container) bool_never stored_sample 16 0
    false false true) as (rd' & E & Hnext); [done..|].
  exists rd'. split; [exact E|]. exact (Hnext true).
Defined.

Lemma isz_entry_read_witness :
  ∃ ar, sample_open = Ok ar ∧ ∃ rd entry, rd ∈ snd (open_all [1; 7; 0] ar) ∧ entry ∈ tc_entries (ar_toc ar) ∧
    entry_contents sample_container ar entry known_expansion ∧ len known_expansion = en_expanded_size entry.
Proof.
  assert (Hb : len sample_container < 2 ^ 64) by done.
  destruct sample_open as [ar|e] eqn:E; [|vm_compute in E; discriminate E].
  exists ar. split; [done|].
  assert (Eo : @archive_open unit (SliceSource sample_container) never_signalled 3 small_limits tt = (tt, Ok ar)).
  { unfold sample_open in E. rewrite <-E. by vm_compute. }
  vm_compute in E. injection E as <-.
  match type of Eo with _ = (_, Ok ?a) => set (ar := a) in * end.
  assert (Hr : ∃ r0 rd, snd (open_all [1; 7; 0] ar) = [r0; rd] ∧
    snd (@er_read_to_vec unit (SliceSource sample_container) never_signalled 32 32 [] (rd, tt)) =
      Ok (Some known_expansion) ∧ er_expanded_size rd = 13 ∧ er_stored_left rd = 8).
  { eexists _, _. split; [vm_compute; reflexivity|]. split; [vm_compute; reflexivity|]. split; vm_compute; reflexivity. }
  destruct Hr as (r0 & rd & Ers & Eread & Hx & Hl).
  assert (Hin : 3 + ah_archive_size (ar_header ar) ≤ len sample_container) by (vm_compute; discriminate).
  clearbody ar. clear - Eo Hin Ers Eread Hx Hl Hb.
  assert (Hrd : rd ∈ snd (open_all [1; 7; 0] ar)) by (rewrite Ers; right; left).
  assert (Hx' : er_expanded_size rd < N.of_nat 32) by by rewrite Hx.
  assert (Hl' : 2 * er_stored_left rd + 1 < N.of_nat 32) by by rewrite Hl.
  destruct (@isz_entry_read unit (SliceSource sample_container) never_signalled sample_container
    (slice_honest _) never_signalled_never Hb 3 small_limits tt tt tt ar [1; 7; 0] rd 32 32
    Eo Hin Hrd Hx' Hl') as (entry & He & Hres).
  rewrite Eread in Hres. exists rd, entry. split; [exact Hrd|]. split; [exact He|exact Hres].
Defined.

Lemma find_signature_from_exact_witness :
  @find_signature_from unit (SliceSource sample_container) never_signalled 0 small_limits tt =
    (tt, Ok (Some 3)) ∧ first_occurrence sample_container 0 3.
Proof.
  split; [by vm_compute|].
  exact (@find_signature_from_exact unit (SliceSource sample_container) never_signalled sample_container
    _ _ ltac:(done) 0 small_limits tt ltac:(done) ltac:(done)).
Defined.

Lemma toc_parse_consistent_witness :
  ∃ t, @toc_parse unit never_signalled
      (subslice (3 + 265) 69 sample_container) sample_header small_limits tt = (tt, Ok t) ∧
    toc_ok sample_header small_limits t.
Proof.
  destruct (@toc_parse unit never_signalled (subslice (3 + 265) 69 sample_container)
    sample_header small_limits tt) as [[] [t|e]] eqn:E; [|vm_compute in E; discriminate E].
  exists t. split; [done|]. exact (toc_parse_consistent _ _ _ _ _ _ E).
Defined.

Lemma archive_header_roundtrip_witness :
  archive_header_parse (archive_header_encode sample_header) small_limits = Ok sample_header.
Proof. by apply (archive_header_roundtrip sample_header small_limits). Defined.
