(* ===== verification/PayloadPath.v ===== *)
(** * Payload paths

    [crates/ohl-payload/src/path.rs]: the policy under which an archive's name
    becomes a destination name. A [&str] is the list of its UTF-8 bytes; every
    rule looks at ASCII bytes only. *)

From S2P Require Export Catalog.

Definition MAXIMUM_PATH_BYTES : N := 4096.
Definition MAXIMUM_COMPONENT_BYTES : N := 255.
Definition MAXIMUM_COMPONENT_COUNT : N := 32.

Definition space : byte := x20.
Definition colon : byte := x3a.

(** Angle brackets, colon, quote, bar, question mark and star. *)
Definition FORBIDDEN_BYTES : list byte := [x3c; x3e; x3a; x22; x7c; x3f; x2a].

Inductive PayloadPathError : Type :=
| PP_Empty | PP_TooLong | PP_Rooted | PP_EmptyComponent | PP_Traversal | PP_TooDeep
| PP_InvalidCharacter | PP_ComponentTooLong | PP_ReservedName.

Record PayloadPath : Type := {
  pp_relative_path : list byte;
  pp_portability_key : list byte
}.

Definition eq_ignore_ascii_case (a b : list byte) : bool :=
  bool_decide (to_ascii_lowercase a = to_ascii_lowercase b).

(** [CON], [PRN], [AUX], [NUL], [CLOCK$], [CONIN$], [CONOUT$]. *)
Definition RESERVED : list (list byte) :=
  [[x43; x4f; x4e]; [x50; x52; x4e]; [x41; x55; x58]; [x4e; x55; x4c];
   [x43; x4c; x4f; x43; x4b; x24]; [x43; x4f; x4e; x49; x4e; x24];
   [x43; x4f; x4e; x4f; x55; x54; x24]].
Definition COM : list byte := [x43; x4f; x4d].
Definition LPT : list byte := [x4c; x50; x54].

Definition is_ascii_digit (b : byte) : bool := (0x30 <=? Byte.to_N b) && (Byte.to_N b <=? 0x39).

(** [component.split('.').next()]. *)
Definition stem (component : list byte) : list byte :=
  match split_on (Byte.eqb dot) component with [] => component | part :: _ => part end.

Definition is_reserved_windows_name (component : list byte) : bool :=
  let stem := stem component in
  existsb (eq_ignore_ascii_case stem) RESERVED ||
  (len stem =? 4) &&
  (eq_ignore_ascii_case (take 3 stem) COM || eq_ignore_ascii_case (take 3 stem) LPT) &&
  is_ascii_digit (nth 3 stem x00).

Definition ends_with (b : byte) (l : list byte) : bool := bool_decide (list.last l = Some b).

Definition validate_component (component : list byte) : result PayloadPathError unit :=
  guard_err (len component =? 0) PP_EmptyComponent;;
  guard_err (is_relative component) PP_Traversal;;
  guard_err (MAXIMUM_COMPONENT_BYTES <? len component) PP_ComponentTooLong;;
  guard_err (ends_with dot component || ends_with space component) PP_InvalidCharacter;;
  guard_err (existsb (λ byte,
      negb ((0x20 <=? Byte.to_N byte) && (Byte.to_N byte <=? 0x7e)) ||
      contains_byte byte FORBIDDEN_BYTES) component) PP_InvalidCharacter;;
  guard_err (is_reserved_windows_name component) PP_ReservedName.

(** The loop of [parse], [components] having been seen. *)
Fixpoint parse_components (l : list (list byte)) (components : N) (relative_path portability_key : list byte)
  : result PayloadPathError PayloadPath :=
  match l with
  | [] => Ok {| pp_relative_path := relative_path; pp_portability_key := portability_key |}
  | component :: l =>
      let components := components + 1 in
      guard_err (MAXIMUM_COMPONENT_COUNT <? components) PP_TooDeep;;
      validate_component component;;
      let separator := if len relative_path =? 0 then [] else [slash] in
      parse_components l components (relative_path ++ separator ++ component)
        (portability_key ++ separator ++ to_ascii_lowercase component)
  end.

Definition is_rooted (bytes : list byte) : bool :=
  match bytes with
  | [] => false
  | b :: rest => is_separator b || match rest with [] => false | c :: _ => Byte.eqb c colon end
  end.

Definition payload_path_parse (path : list byte) : result PayloadPathError PayloadPath :=
  guard_err (len path =? 0) PP_Empty;;
  guard_err (MAXIMUM_PATH_BYTES <? len path) PP_TooLong;;
  guard_err (is_rooted path) PP_Rooted;;
  parse_components (split_on is_separator path) 0 [] [].

Definition pp_components (self : PayloadPath) : list (list byte) :=
  split_on (Byte.eqb slash) (pp_relative_path self).

(** [match_indices('/')]: the offsets of the separators. *)
Fixpoint slash_offsets (at_ : nat) (l : list byte) : list nat :=
  match l with
  | [] => []
  | b :: l => if Byte.eqb slash b then at_ :: slash_offsets (S at_) l else slash_offsets (S at_) l
  end.

Definition ancestor_keys (self : PayloadPath) : list (list byte * list byte) :=
  (λ offset, (take offset (pp_portability_key self), take offset (pp_relative_path self)))
    <$> slash_offsets 0 (pp_portability_key self).

(** ** What a payload path is *)

Fixpoint join (l : list (list byte)) : list byte :=
  match l with
  | [] => []
  | [part] => part
  | part :: l => part ++ slash :: join l
  end.

(** The names of devices. *)
Definition device_names : list (list byte) :=
  RESERVED ++ ((λ d, COM ++ [d]) <$> [x30; x31; x32; x33; x34; x35; x36; x37; x38; x39])
           ++ ((λ d, LPT ++ [d]) <$> [x30; x31; x32; x33; x34; x35; x36; x37; x38; x39]).

(** A component that is a name on every host. *)
Record legal_component (c : list byte) : Prop := {
  lc_nonempty : c ≠ [];
  lc_length : len c ≤ 255;
  lc_end : list.last c ≠ Some dot ∧ list.last c ≠ Some space;
  lc_bytes b : b ∈ c → 0x20 ≤ Byte.to_N b ≤ 0x7e ∧ b ∉ FORBIDDEN_BYTES;
  lc_device name : name ∈ device_names → to_ascii_lowercase (stem c) ≠ to_ascii_lowercase name
}.

Lemma to_ascii_lowercase_app a b :
  to_ascii_lowercase (a ++ b) = to_ascii_lowercase a ++ to_ascii_lowercase b.
Proof. apply fmap_app. Qed.

Lemma length_lowercase l : length (to_ascii_lowercase l) = length l.
Proof. apply length_fmap. Qed.

Definition digits : list byte := [x30; x31; x32; x33; x34; x35; x36; x37; x38; x39].

Lemma is_ascii_digit_spec d : is_ascii_digit d = true ↔ d ∈ digits.
Proof.
  rewrite <-(bool_decide_eq_true (d ∈ digits)).
  by destruct d; vm_compute.
Qed.

(** Only a digit has a digit for its lower case. *)
Lemma lowercase_digit b d : d ∈ digits → to_ascii_lowercase [b] = to_ascii_lowercase [d] → b = d.
Proof. intros Hd%is_ascii_digit_spec. destruct d; try done; destruct b; by intros. Qed.

(** A device with a number. *)
Lemma numbered_device s p : length p = 3%nat →
  (len s =? 4) && eq_ignore_ascii_case (take 3 s) p && is_ascii_digit (nth 3 s x00) = true ↔
  ∃ d, d ∈ digits ∧ to_ascii_lowercase s = to_ascii_lowercase (p ++ [d]).
Proof.
  intros Hp. rewrite !andb_true_iff, N.eqb_eq. unfold eq_ignore_ascii_case.
  rewrite bool_decide_eq_true, is_ascii_digit_spec. split.
  - intros [[Hl Ht] Hd]. unfold len in Hl.
    destruct s as [|a [|b [|c [|d [|]]]]]; simpl in *; try lia.
    exists d. split; [done|]. rewrite to_ascii_lowercase_app, <-Ht. done.
  - intros (d & Hd & E). pose proof (f_equal length E) as Hl.
    rewrite !length_lowercase, length_app, Hp in Hl. simpl in Hl. unfold len.
    destruct s as [|a [|b [|c [|e [|]]]]]; simpl in Hl; try lia.
    rewrite to_ascii_lowercase_app in E. change [a; b; c; e] with ([a; b; c] ++ [e]) in E.
    rewrite to_ascii_lowercase_app in E. apply app_inj_1 in E as [E1 E2];
      [|by rewrite !length_lowercase, Hp].
    apply lowercase_digit in E2 as ->; done.
Qed.

Lemma is_reserved_spec c :
  is_reserved_windows_name c = true ↔
  ∃ name, name ∈ device_names ∧ to_ascii_lowercase (stem c) = to_ascii_lowercase name.
Proof.
  unfold is_reserved_windows_name, device_names. cbv zeta. generalize (stem c). clear c. intros s.
  rewrite orb_true_iff. assert (Hnum :
    (len s =? 4) && (eq_ignore_ascii_case (take 3 s) COM || eq_ignore_ascii_case (take 3 s) LPT) &&
      is_ascii_digit (nth 3 s x00) = true ↔
    (∃ d, d ∈ digits ∧ to_ascii_lowercase s = to_ascii_lowercase (COM ++ [d])) ∨
    (∃ d, d ∈ digits ∧ to_ascii_lowercase s = to_ascii_lowercase (LPT ++ [d]))).
  { rewrite <-!numbered_device by done. rewrite !andb_true_iff, orb_true_iff. tauto. }
  rewrite Hnum, existsb_exists. unfold eq_ignore_ascii_case. fold digits. split.
  - intros [(x & Hx & E%bool_decide_eq_true)|[(d & Hd & E)|(d & Hd & E)]].
    + exists x. split; [|done]. rewrite !elem_of_app. left. by apply list_elem_of_In.
    + exists (COM ++ [d]). split; [|done]. rewrite !elem_of_app. right; left. by apply (list_elem_of_fmap_2 (λ d, COM ++ [d])).
    + exists (LPT ++ [d]). split; [|done]. rewrite !elem_of_app. right; right.
      by apply (list_elem_of_fmap_2 (λ d, LPT ++ [d])).
  - intros (name & [Hn|[Hn|Hn]%elem_of_app]%elem_of_app & E).
    + left. exists name. split; [by apply list_elem_of_In|by apply bool_decide_eq_true].
    + apply list_elem_of_fmap in Hn as (d & -> & Hd). right; left. by exists d.
    + apply list_elem_of_fmap in Hn as (d & -> & Hd). right; right. by exists d.
Qed.

(** [validate_component] is the policy. *)
Lemma validate_component_spec c : validate_component c = Ok tt ↔ legal_component c.
Proof.
  unfold validate_component. rewrite !guard_seq, guard_err_Ok.
  assert (Hbytes : existsb (λ byte,
      negb ((0x20 <=? Byte.to_N byte) && (Byte.to_N byte <=? 0x7e)) ||
      contains_byte byte FORBIDDEN_BYTES) c = false ↔
    ∀ b, b ∈ c → 0x20 ≤ Byte.to_N b ≤ 0x7e ∧ b ∉ FORBIDDEN_BYTES).
  { rewrite <-not_true_iff_false, existsb_exists. split.
    - intros Hn b Hb. apply list_elem_of_In in Hb. destruct (contains_byte b FORBIDDEN_BYTES) eqn:E.
      { destruct Hn. exists b. by rewrite E, orb_true_r. }
      assert (Hni : b ∉ FORBIDDEN_BYTES).
      { intros Hin%list_elem_of_In%contains_byte_spec. congruence. }
      split; [|done]. apply dec_stable. intros Hr. destruct Hn. exists b. split; [done|].
      rewrite E, orb_false_r, negb_true_iff, <-not_true_iff_false, andb_true_iff, !N.leb_le. done.
    - intros Hall (b & Hb & E). apply list_elem_of_In, Hall in Hb as [Hr Hni].
      apply orb_true_iff in E as [E|E].
      + rewrite negb_true_iff, <-not_true_iff_false, andb_true_iff, !N.leb_le in E. done.
      + apply contains_byte_spec, list_elem_of_In in E. done. }
  rewrite Hbytes. unfold is_relative, ends_with. rewrite !orb_false_iff, !bool_decide_eq_false, N.ltb_ge.
  unfold MAXIMUM_COMPONENT_BYTES. split.
  - intros (H1 & _ & H3 & [H4 H5] & H6 & H7). split; try done.
    + intros ->. done.
    + intros name Hn E. rewrite <-not_true_iff_false in H7. apply H7, is_reserved_spec. by exists name.
  - intros [Hne Hl [Hd Hs] Hb Hdev]. split; [by destruct c|]. split.
    { split; intros ->; apply Hd; done. }
    split; [done|]. split; [done|]. split; [done|].
    apply not_true_iff_false. intros (name & Hn & E)%is_reserved_spec. by apply (Hdev name).
Qed.

(** ** Parsing *)

Definition path_of (parts : list (list byte)) : PayloadPath :=
  {| pp_relative_path := join parts; pp_portability_key := to_ascii_lowercase (join parts) |}.

Lemma join_cons part l : l ≠ [] → join (part :: l) = part ++ slash :: join l.
Proof. by destruct l. Qed.

Lemma join_snoc l part : l ≠ [] → join (l ++ [part]) = join l ++ slash :: part.
Proof.
  induction l as [|q l IH]; [done|]. intros _. destruct l as [|q' l]; [done|].
  rewrite <-app_comm_cons, !join_cons by done. rewrite IH, <-app_assoc by done. done.
Qed.

Lemma join_nil l : Forall (λ part, part ≠ []) l → join l = [] → l = [].
Proof. intros [|part l' Hp _] E; [done|]. destruct l' as [|q l']; simpl in E; by destruct part. Qed.

Lemma split_join p l :
  p slash = true → l ≠ [] → Forall (Forall (λ b, p b = false)) l → split_on p (join l) = l.
Proof.
  intros Hs Hne Hl. induction Hl as [|part l Hp Hl IH]; [done|].
  destruct l as [|q l].
  - simpl. rewrite <-(app_nil_r part) at 1. rewrite split_on_app by done. simpl. by rewrite app_nil_r.
  - rewrite join_cons by done. rewrite split_on_app by done. cbn [split_on]. rewrite Hs, IH by done.
    by rewrite app_nil_r.
Qed.

Lemma join_split_length p path : length (join (split_on p path)) = length path.
Proof.
  induction path as [|b path IH]; [done|]. simpl.
  destruct (split_on_cons p path) as (q & qs & E). rewrite E in *.
  destruct (p b); [by rewrite <-IH|]. destruct qs; simpl in *; lia.
Qed.

(** The checks of the loop, apart from what it builds. *)
Fixpoint check_components (l : list (list byte)) (components : N) : result PayloadPathError unit :=
  match l with
  | [] => Ok tt
  | component :: l =>
      guard_err (MAXIMUM_COMPONENT_COUNT <? components + 1) PP_TooDeep;;
      validate_component component;;
      check_components l (components + 1)
  end.

Lemma parse_components_run l seen :
  Forall (λ part, part ≠ []) seen →
  parse_components l (len seen) (join seen) (to_ascii_lowercase (join seen)) =
    (check_components l (len seen);; Ok (path_of (seen ++ l))).
Proof.
  revert seen. induction l as [|c l IH]; intros seen Hseen; cbn [parse_components check_components].
  { by rewrite app_nil_r. }
  destruct (MAXIMUM_COMPONENT_COUNT <? len seen + 1); [done|]. cbn [guard_err mbind result_bind].
  destruct (validate_component c) as [[]|e] eqn:Ev; [|done]. cbn [mbind result_bind].
  assert (Hc : c ≠ []) by by apply validate_component_spec, lc_nonempty in Ev.
  assert (Hlen : len seen + 1 = len (seen ++ [c])) by by rewrite len_app.
  assert (Hrel : join seen ++ (if len (join seen) =? 0 then [] else [slash]) ++ c = join (seen ++ [c])).
  { destruct (N.eqb_spec (len (join seen)) 0) as [E|E].
    - apply len_0_nil, join_nil in E; [|done]. by subst.
    - rewrite join_snoc; [done|]. by intros ->. }
  assert (Hkey : to_ascii_lowercase (join seen) ++ (if len (join seen) =? 0 then [] else [slash]) ++
      to_ascii_lowercase c = to_ascii_lowercase (join (seen ++ [c]))).
  { rewrite <-Hrel, !to_ascii_lowercase_app. by destruct (_ =? 0). }
  rewrite Hlen, Hrel, Hkey, IH by (apply Forall_app_2; [done|by apply Forall_singleton]).
  by rewrite <-app_assoc.
Qed.

Lemma check_components_Ok l n :
  check_components l n = Ok tt ↔ Forall legal_component l ∧ (l = [] ∨ n + len l ≤ MAXIMUM_COMPONENT_COUNT).
Proof.
  revert n. induction l as [|c l IH]; intros n; cbn [check_components].
  { split; [intros _; split; [constructor|by left]|done]. }
  rewrite guard_seq, N.ltb_ge, len_cons.
  destruct (validate_component c) as [[]|e] eqn:Ev; cbn [mbind result_bind].
  - rewrite IH, list.Forall_cons, <-validate_component_spec. split.
    + intros (Hn & Hl & [->|Hle]); (split; [done|]); right; [rewrite len_nil|]; lia.
    + intros [[_ Hl] [?|Hle]]; [done|]. split; [lia|]. split; [done|]. right. lia.
  - split; [by intros [_ ?]|]. intros [[Hc _]%list.Forall_cons _].
    apply validate_component_spec in Hc. congruence.
Qed.

(** Legality of the components leaves nothing rooted. *)
Lemma legal_not_rooted path :
  Forall legal_component (split_on is_separator path) → is_rooted path = false.
Proof.
  destruct path as [|b path]; [done|]. simpl. destruct (is_separator b) eqn:Eb.
  { intros [Hc _]%list.Forall_cons. by destruct (lc_nonempty _ Hc). }
  destruct path as [|c path]; [done|]. simpl.
  destruct (Byte_eqb_spec c colon) as [->|]; [|done]. simpl.
  destruct (split_on_cons is_separator path) as (q & qs & ->). intros [Hc _]%list.Forall_cons.
  exfalso. destruct (lc_bytes _ Hc colon) as [_ Hno]; [by right; left|].
  apply Hno. by vm_compute; repeat constructor.
Qed.

Lemma payload_path_parse_Ok path p :
  payload_path_parse path = Ok p ↔
  let parts := split_on is_separator path in
  len path ≤ MAXIMUM_PATH_BYTES ∧ len parts ≤ MAXIMUM_COMPONENT_COUNT ∧
  Forall legal_component parts ∧ p = path_of parts.
Proof.
  cbv zeta. unfold payload_path_parse. rewrite !guard_seq, N.ltb_ge, N.eqb_neq.
  pose proof (parse_components_run (split_on is_separator path) [] ltac:(constructor)) as Hr.
  change (len []) with 0 in Hr. change (to_ascii_lowercase (join [])) with (@nil byte) in Hr.
  cbn [join app] in Hr. rewrite Hr.
  pose proof (check_components_Ok (split_on is_separator path) 0) as Hc. rewrite N.add_0_l in Hc.
  destruct (check_components _ 0) as [[]|e]; cbn [mbind result_bind].
  - destruct (proj1 Hc eq_refl) as [Hl Hn]. split.
    + intros (_ & Hlen & _ & [= <-]). split; [done|]. split; [|done].
      destruct Hn as [Hn|?]; [|done]. by destruct (split_on_cons is_separator path) as (q & qs & E); rewrite E in Hn.
    + intros (Hlen & _ & _ & ->). split; [|split; [done|split; [by apply legal_not_rooted|done]]].
      intros ->%len_0_nil. apply list.Forall_cons in Hl as [Hl _]. by destruct (lc_nonempty _ Hl).
  - split; [by intros (_ & _ & _ & ?)|]. intros (_ & Hn & Hl & _). discriminate (proj2 Hc (conj Hl (or_intror Hn))).
Qed.

(** ** Canonical spellings *)

(** What lower-casing does to a byte that matters to the policy. *)
Definition lower_byte (b : byte) : byte :=
  if (0x41 <=? Byte.to_N b) && (Byte.to_N b <=? 0x5a) then byte_of_N (Byte.to_N b + 32) else b.

Lemma lower_byte_table b :
  lower_byte (lower_byte b) = lower_byte b ∧
  is_separator (lower_byte b) = is_separator b ∧
  Byte.eqb slash (lower_byte b) = Byte.eqb slash b ∧
  Byte.eqb dot (lower_byte b) = Byte.eqb dot b ∧ Byte.eqb space (lower_byte b) = Byte.eqb space b ∧
  contains_byte (lower_byte b) FORBIDDEN_BYTES = contains_byte b FORBIDDEN_BYTES ∧
  (0x20 <=? Byte.to_N (lower_byte b)) && (Byte.to_N (lower_byte b) <=? 0x7e) =
    (0x20 <=? Byte.to_N b) && (Byte.to_N b <=? 0x7e).
Proof. destruct b; repeat split. Qed.

Lemma lowercase_idemp l : to_ascii_lowercase (to_ascii_lowercase l) = to_ascii_lowercase l.
Proof.
  unfold to_ascii_lowercase. rewrite <-list_fmap_compose. apply list_fmap_ext. intros i b _.
  apply (lower_byte_table b).
Qed.

(** Splitting commutes with lower-casing when the separators have no case. *)
Lemma split_on_lowercase p l :
  (∀ b, p (lower_byte b) = p b) →
  split_on p (to_ascii_lowercase l) = to_ascii_lowercase <$> split_on p l.
Proof.
  intros Hp. induction l as [|b l IH]; [done|].
  change (to_ascii_lowercase (b :: l)) with (lower_byte b :: to_ascii_lowercase l).
  cbn [split_on]. rewrite Hp, IH.
  destruct (p b); [done|]. destruct (split_on_cons p l) as (q & qs & ->). done.
Qed.

Lemma join_lowercase l : join (to_ascii_lowercase <$> l) = to_ascii_lowercase (join l).
Proof.
  induction l as [|c l IH]; [done|]. destruct l as [|d l]; [done|].
  rewrite fmap_cons, !join_cons by done. rewrite IH, to_ascii_lowercase_app. done.
Qed.

Lemma stem_lowercase c : stem (to_ascii_lowercase c) = to_ascii_lowercase (stem c).
Proof.
  unfold stem. rewrite split_on_lowercase by (intros b; apply (lower_byte_table b)).
  by destruct (split_on_cons (Byte.eqb dot) c) as (q & qs & ->).
Qed.

Lemma legal_lowercase c : legal_component c → legal_component (to_ascii_lowercase c).
Proof.
  intros [Hne Hl [Hd Hs] Hb Hdev].
  assert (Hlast : ∀ x, (∀ b, Byte.eqb x (lower_byte b) = Byte.eqb x b) →
    list.last c ≠ Some x → list.last (to_ascii_lowercase c) ≠ Some x).
  { intros x Hx Hc E. unfold to_ascii_lowercase in E. rewrite fmap_last in E.
    destruct (list.last c) as [b|]; [|done]. injection E as E. apply Hc. f_equal.
    specialize (Hx b). change (lower_byte b = x) in E. rewrite E in Hx.
    destruct (Byte_eqb_spec x x); [|done]. by destruct (Byte_eqb_spec x b). }
  split.
  - by destruct c.
  - unfold len. by rewrite length_lowercase.
  - split; apply Hlast; try done; intros b; apply (lower_byte_table b).
  - intros b' (b & -> & Hin)%list_elem_of_fmap. fold (lower_byte b). destruct (Hb b Hin) as [Hr Hf].
    destruct (lower_byte_table b) as (_ & _ & _ & _ & _ & Hfb & Hrb). split.
    + rewrite <-!N.leb_le, <-andb_true_iff in Hr. rewrite Hr in Hrb.
      by apply andb_true_iff in Hrb as [?%N.leb_le ?%N.leb_le].
    + intros Hc. apply list_elem_of_In, contains_byte_spec in Hc. rewrite Hfb in Hc.
      by apply contains_byte_spec, list_elem_of_In in Hc.
  - intros name Hn. rewrite stem_lowercase, lowercase_idemp. by apply Hdev.
Qed.

(** The components of a path hold no separator. *)
Lemma split_parts_clean p path : Forall (Forall (λ b, p b = false)) (split_on p path).
Proof.
  apply list.Forall_forall. intros part Hin%list_elem_of_In%split_on_parts.
  eapply Forall_impl; [|exact Hin]. by intros b [? _].
Qed.

Lemma path_of_components path p :
  payload_path_parse path = Ok p → pp_components p = split_on is_separator path.
Proof.
  intros (_ & _ & _ & ->)%payload_path_parse_Ok. unfold pp_components, path_of. cbn [pp_relative_path].
  apply split_join; [done|by destruct (split_on_cons is_separator path) as (? & ? & ->)|].
  refine (List.Forall_impl _ _ (split_parts_clean is_separator path)). intros c Hc.
  eapply Forall_impl; [|exact Hc]. intros b Hb. destruct (Byte_eqb_spec slash b) as [<-|]; done.
Qed.

(** A spelling parses to the path it spells. *)
Lemma reparse_path path p : payload_path_parse path = Ok p → payload_path_parse (pp_relative_path p) = Ok p.
Proof.
  intros (Hl & Hn & Hleg & ->)%payload_path_parse_Ok. apply payload_path_parse_Ok. cbn [path_of pp_relative_path].
  rewrite split_join; [|done|by destruct (split_on_cons is_separator path) as (? & ? & ->)|apply split_parts_clean].
  split; [|done]. unfold len in *. by rewrite join_split_length.
Qed.

(** C34: The path policy. A name becomes a payload path exactly if it is at most
    4096 bytes long and its components, whichever of the two separators divide
    them, are at most 32 and each legal on every host: not empty, printable
    ASCII without the forbidden bytes, not ending in a dot or a space (so neither
    [.] nor [..]), at most 255 bytes, and no device name, in whatever case and
    with whatever extension. The path then has exactly these components, spelled
    with slashes; its spelling parses to itself, and so does its collision key,
    which is the spelling in lower case. *)
Theorem payload_path_exact path :
  let parts := split_on is_separator path in
  let legal := len path ≤ 4096 ∧ len parts ≤ 32 ∧ Forall legal_component parts in
  (legal ↔ ∃ p, payload_path_parse path = Ok p) ∧
  ∀ p, payload_path_parse path = Ok p →
    pp_components p = parts ∧ pp_relative_path p = join parts ∧
    pp_portability_key p = to_ascii_lowercase (pp_relative_path p) ∧
    payload_path_parse (pp_relative_path p) = Ok p ∧
    payload_path_parse (pp_portability_key p) =
      Ok {| pp_relative_path := pp_portability_key p; pp_portability_key := pp_portability_key p |}.
Proof.
  cbv zeta. set (parts := split_on is_separator path). split.
  { split; [intros (Hl & Hn & Hp)|intros (p & (Hl & Hn & Hp & _)%payload_path_parse_Ok)]; [|done].
    exists (path_of parts). by apply payload_path_parse_Ok. }
  intros p Hp. pose proof (path_of_components _ _ Hp) as Hc.
  apply payload_path_parse_Ok in Hp as (Hl & Hn & Hleg & ->). fold parts in Hn, Hleg, Hc |- *.
  assert (Hne : parts ≠ []) by by unfold parts; destruct (split_on_cons is_separator path) as (? & ? & ->).
  pose proof (split_parts_clean is_separator path) as Hclean. fold parts in Hclean.
  assert (Hsj : split_on is_separator (join parts) = parts) by by apply split_join.
  assert (Hjl : len (join parts) = len path) by (unfold len, parts; by rewrite join_split_length).
  split; [done|]. split; [done|]. split; [done|]. cbn [path_of pp_relative_path pp_portability_key]. split.
  - apply payload_path_parse_Ok. by rewrite Hsj, Hjl.
  - apply payload_path_parse_Ok. rewrite split_on_lowercase, Hsj by (intros b; apply (lower_byte_table b)).
    split; [unfold len; by rewrite length_lowercase, <-(len_to_nat (join parts)), Hjl, N2Nat.id|].
    split; [unfold len; by rewrite length_fmap|]. split.
    + apply Forall_fmap. refine (List.Forall_impl _ _ Hleg). intros c. apply legal_lowercase.
    + unfold path_of. by rewrite join_lowercase, lowercase_idemp.
Qed.

(** ** Ancestors *)

Lemma slash_offsets_spec at_ l x :
  x ∈ slash_offsets at_ l ↔ ∃ n, x = (at_ + n)%nat ∧ l !! n = Some slash.
Proof.
  revert at_. induction l as [|b l IH]; intros at_; cbn [slash_offsets].
  { split; [by intros ?%elem_of_nil|]. intros (n & _ & E). by rewrite lookup_nil in E. }
  assert (Hrest : x ∈ slash_offsets (S at_) l ↔ ∃ n, x = (at_ + S n)%nat ∧ l !! n = Some slash).
  { rewrite IH. split; intros (n & -> & E); exists n; (split; [lia|done]). }
  assert (Hcons : (∃ n, x = (at_ + n)%nat ∧ (b :: l) !! n = Some slash) ↔
    (x = at_ ∧ b = slash) ∨ ∃ n, x = (at_ + S n)%nat ∧ l !! n = Some slash).
  { split.
    - intros ([|n] & -> & E); simpl in E; [left; split; [lia|congruence]|right; by exists n].
    - intros [[-> ->]|(n & -> & E)]; [exists 0%nat; split; [lia|done]|by exists (S n)]. }
  rewrite Hcons. destruct (Byte_eqb_spec slash b) as [<-|Hne].
  - rewrite elem_of_cons, Hrest. naive_solver.
  - rewrite Hrest. split; [by right|]. intros [[_ ->]|?]; done.
Qed.

Lemma lookup_slash_lowercase l n : to_ascii_lowercase l !! n = Some slash ↔ l !! n = Some slash.
Proof.
  unfold to_ascii_lowercase. rewrite list_lookup_fmap. destruct (l !! n) as [b|]; [|done]. simpl.
  change ((λ b, _) b) with (lower_byte b). fold (lower_byte b).
  pose proof (proj1 (proj2 (proj2 (lower_byte_table b)))) as E.
  split; intros [= Hb]; f_equal.
  - rewrite Hb in E. destruct (Byte_eqb_spec slash b) as [->|]; [done|].
    by destruct (Byte_eqb_spec slash slash).
  - by subst b.
Qed.

(** The ancestors are the directories the path is in. *)
Lemma ancestor_keys_spec p k s :
  pp_portability_key p = to_ascii_lowercase (pp_relative_path p) →
  (k, s) ∈ ancestor_keys p ↔
  (∃ rest, pp_relative_path p = s ++ slash :: rest) ∧ k = to_ascii_lowercase s.
Proof.
  intros Hkey. unfold ancestor_keys. rewrite list_elem_of_fmap. setoid_rewrite slash_offsets_spec.
  rewrite Hkey. set (l := pp_relative_path p). split.
  - intros (x & [= -> ->] & n & -> & E). rewrite lookup_slash_lowercase in E. simpl. split.
    + exists (drop (S n) l). symmetry. by apply take_drop_middle.
    + unfold to_ascii_lowercase. by rewrite <-fmap_take.
  - intros [[rest E] ->]. exists (length s). split.
    + unfold to_ascii_lowercase. rewrite <-fmap_take, E, take_app_length. done.
    + exists (length s). split; [done|]. rewrite lookup_slash_lowercase, E. by apply list_lookup_middle.
Qed.

Definition sample_path : list byte := [x41; x5c; x62; x2e; x54].

Lemma payload_path_exact_witness : ∃ p,
  payload_path_parse sample_path = Ok p ∧ pp_relative_path p = [x41; x2f; x62; x2e; x54] ∧
  pp_components p = [[x41]; [x62; x2e; x54]] ∧ payload_path_parse (pp_relative_path p) = Ok p ∧
  payload_path_parse [x6e; x75; x6c; x2e; x54] = Err PP_ReservedName.
Proof.
  destruct (payload_path_parse sample_path) as [p|e] eqn:E; [|vm_compute in E; discriminate E].
  destruct (proj2 (payload_path_exact sample_path) p E) as (Hc & Hr & _ & Hp & _).
  exists p. split; [done|]. split; [exact Hr|]. split; [exact Hc|]. split; [exact Hp|]. by vm_compute.
Defined.

(** The rules are tried component by component: the name of a device in front of
    too many components is what is reported. *)
Example components_in_order :
  payload_path_parse ([x6e; x75; x6c] ++ concat (replicate 32 [x2f; x61])) = Err PP_ReservedName.
Proof. by vm_compute. Qed.
