(* ===== verification/PayloadLayout.v ===== *)
(** * Layout planning

    [crates/ohl-payload/src/layout.rs]: from the entries an archive declares to
    an ordered plan of destinations that no file system can confuse. *)

From stdpp Require Import gmap sets sorting.
From S2P Require Export PayloadPath.

#[export] Instance byte_countable : Countable byte := inj_countable Byte.to_N Byte.of_N Byte.of_to_N.

Record PayloadEntryMetadata : Type := {
  pm_source_token : N;
  pm_archive_path : list byte;
  pm_size_bytes : N
}.

Record PayloadImportLimits : Type := {
  pi_maximum_entries : N;
  pi_maximum_path_bytes : N;
  pi_maximum_entry_bytes : N;
  pi_maximum_total_bytes : N
}.

Definition payload_import_limits_default : PayloadImportLimits :=
  {| pi_maximum_entries := 50000;
     pi_maximum_path_bytes := 64 * 1024 * 1024;
     pi_maximum_entry_bytes := 8 * 1024 * 1024 * 1024;
     pi_maximum_total_bytes := 32 * 1024 * 1024 * 1024 |}.

Definition coherent (self : PayloadImportLimits) : bool :=
  negb (pi_maximum_entries self =? 0) && negb (pi_maximum_path_bytes self =? 0) &&
  negb (pi_maximum_entry_bytes self =? 0) && negb (pi_maximum_total_bytes self =? 0) &&
  (pi_maximum_entry_bytes self <=? pi_maximum_total_bytes self).

Inductive PayloadLayoutError : Type :=
| PL_InvalidLimits | PL_TooManyEntries | PL_TooManyPathBytes | PL_SourceTokenConflict
| PL_InvalidPath (error : PayloadPathError)
| PL_PathConflict | PL_EntryTooLarge | PL_PayloadTooLarge.

Record PayloadLayoutRejection : Type := {
  rj_error : PayloadLayoutError;
  rj_entry_index : option N
}.

Record PlannedPayloadEntry : Type := {
  pp_source_token : N;
  pp_path : PayloadPath;
  pp_size_bytes : N
}.

Record PayloadLayout : Type := {
  ly_entries : list PlannedPayloadEntry;
  ly_total_bytes : N
}.

(** The locals of [plan_payload_layout]'s loop. *)
Record Planning : Type := {
  pn_source_tokens : gset N;
  pn_file_keys : gset (list byte);
  pn_directory_spellings : gmap (list byte) (list byte);
  pn_planned : list PlannedPayloadEntry;
  pn_total_bytes : N;
  pn_total_path_bytes : N
}.

Definition planning_start : Planning :=
  {| pn_source_tokens := ∅; pn_file_keys := ∅; pn_directory_spellings := ∅; pn_planned := [];
     pn_total_bytes := 0; pn_total_path_bytes := 0 |}.

(** The loop over [path.ancestor_keys()]. *)
Fixpoint claim_ancestors (file_keys : gset (list byte)) (ancestors : list (list byte * list byte))
    (directory_spellings : gmap (list byte) (list byte))
  : result PayloadLayoutError (gmap (list byte) (list byte)) :=
  match ancestors with
  | [] => Ok directory_spellings
  | (ancestor_key, ancestor_spelling) :: ancestors =>
      guard_err (bool_decide (ancestor_key ∈ file_keys)) PL_PathConflict;;
      match directory_spellings !! ancestor_key with
      | Some existing =>
          guard_err (bool_decide (existing ≠ ancestor_spelling)) PL_PathConflict;;
          claim_ancestors file_keys ancestors directory_spellings
      | None => claim_ancestors file_keys ancestors (<[ancestor_key := ancestor_spelling]> directory_spellings)
      end
  end.

(** One turn of the loop. *)
Definition plan_payload_entry (limits : PayloadImportLimits) (source : PayloadEntryMetadata)
    (self : Planning) : result PayloadLayoutError Planning :=
  guard_err (bool_decide (pm_source_token source ∈ pn_source_tokens self)) PL_SourceTokenConflict;;
  let path_bytes := len (pm_archive_path source) in
  guard_err (pi_maximum_path_bytes limits - pn_total_path_bytes self <? path_bytes) PL_TooManyPathBytes;;
  guard_err (pi_maximum_entry_bytes limits <? pm_size_bytes source) PL_EntryTooLarge;;
  guard_err (pi_maximum_total_bytes limits - pn_total_bytes self <? pm_size_bytes source) PL_PayloadTooLarge;;
  path ← map_err PL_InvalidPath (payload_path_parse (pm_archive_path source));
  guard_err (bool_decide (pp_portability_key path ∈ pn_file_keys self) ||
             bool_decide (is_Some (pn_directory_spellings self !! pp_portability_key path))) PL_PathConflict;;
  directory_spellings ← claim_ancestors (pn_file_keys self) (ancestor_keys path) (pn_directory_spellings self);
  Ok {| pn_source_tokens := {[pm_source_token source]} ∪ pn_source_tokens self;
        pn_file_keys := {[pp_portability_key path]} ∪ pn_file_keys self;
        pn_directory_spellings := directory_spellings;
        pn_planned := pn_planned self ++
          [{| pp_source_token := pm_source_token source; pp_path := path;
              pp_size_bytes := pm_size_bytes source |}];
        pn_total_bytes := pn_total_bytes self + pm_size_bytes source;
        pn_total_path_bytes := pn_total_path_bytes self + path_bytes |}.

Fixpoint plan_payload_entries (limits : PayloadImportLimits) (entries : list PayloadEntryMetadata)
    (index : N) (self : Planning) : result PayloadLayoutRejection Planning :=
  match entries with
  | [] => Ok self
  | source :: entries =>
      self ← map_err (λ error, {| rj_error := error; rj_entry_index := Some index |})
               (plan_payload_entry limits source self);
      plan_payload_entries limits entries (index + 1) self
  end.

(** [sort_by], which is stable. *)
Fixpoint insert_by_key (entry : PlannedPayloadEntry) (l : list PlannedPayloadEntry)
  : list PlannedPayloadEntry :=
  match l with
  | [] => [entry]
  | other :: l =>
      if string_ltb (pp_portability_key (pp_path other)) (pp_portability_key (pp_path entry))
      then other :: insert_by_key entry l
      else entry :: other :: l
  end.

Definition sort_by_key (l : list PlannedPayloadEntry) : list PlannedPayloadEntry :=
  foldr insert_by_key [] l.

Definition plan_payload_layout (entries : list PayloadEntryMetadata) (limits : PayloadImportLimits)
  : result PayloadLayoutRejection PayloadLayout :=
  let whole_set error := {| rj_error := error; rj_entry_index := None |} in
  guard_err (negb (coherent limits)) (whole_set PL_InvalidLimits);;
  guard_err (pi_maximum_entries limits <? len entries) (whole_set PL_TooManyEntries);;
  planned ← plan_payload_entries limits entries 0 planning_start;
  Ok {| ly_entries := sort_by_key (pn_planned planned); ly_total_bytes := pn_total_bytes planned |}.

(** ** What is refused *)

Definition ancestor_of (p : PayloadPath) (k s : list byte) : Prop := (k, s) ∈ ancestor_keys p.

(** Two destinations that no file system can confuse. *)
Record compatible (p q : PayloadPath) : Prop := {
  cp_files : pp_portability_key p ≠ pp_portability_key q;
  cp_below s : ¬ ancestor_of p (pp_portability_key q) s;
  cp_above s : ¬ ancestor_of q (pp_portability_key p) s;
  cp_directories k s s' : ancestor_of p k s → ancestor_of q k s' → s = s'
}.

#[export] Instance compatible_sym : Symmetric compatible.
Proof. intros p q [H1 H2 H3 H4]. split; [congruence|done..|]. intros k s s' Hp Hq. symmetry. by apply (H4 k). Qed.

(** A key's ancestors are shorter than it and have one spelling each. *)
Definition path_wf (p : PayloadPath) : Prop :=
  pp_portability_key p = to_ascii_lowercase (pp_relative_path p).

Lemma ancestor_shorter p k s : path_wf p → ancestor_of p k s → (length k < length (pp_portability_key p))%nat.
Proof.
  intros Hwf [[rest E] ->]%ancestor_keys_spec; [|done]. rewrite Hwf, E.
  rewrite !length_lowercase, length_app. simpl. lia.
Qed.

Lemma ancestor_one_spelling p k s s' : path_wf p → ancestor_of p k s → ancestor_of p k s' → s = s'.
Proof.
  intros Hwf [[rest E] Ek]%ancestor_keys_spec [[rest' E'] Ek']%ancestor_keys_spec; [|done..].
  assert (Hlen : length s = length s') by (apply (f_equal length) in Ek, Ek'; rewrite length_lowercase in *; lia).
  rewrite E in E'. by apply app_inj_1 in E' as [? _].
Qed.

(** What is claimed after the destinations [ps]. *)
Record claims (ps : list PayloadPath) (files : gset (list byte)) (dirs : gmap (list byte) (list byte)) : Prop := {
  cl_files k : k ∈ files ↔ ∃ p, p ∈ ps ∧ pp_portability_key p = k;
  cl_dirs k s : dirs !! k = Some s ↔ ∃ p, p ∈ ps ∧ ancestor_of p k s
}.

(** The loop over the ancestors claims them unless one is a file or spelled
    otherwise. *)
Lemma claim_ancestors_run files l dirs :
  (∀ k s s', (k, s) ∈ l → (k, s') ∈ l → s = s') →
  ((∀ k s, (k, s) ∈ l → ¬ (k ∈ files) ∧ (dirs !! k = None ∨ dirs !! k = Some s)) →
    ∃ dirs', claim_ancestors files l dirs = Ok dirs' ∧
      ∀ k s, dirs' !! k = Some s ↔ dirs !! k = Some s ∨ (k, s) ∈ l) ∧
  (∀ dirs', claim_ancestors files l dirs = Ok dirs' →
    ∀ k s, (k, s) ∈ l → ¬ (k ∈ files) ∧ (dirs !! k = None ∨ dirs !! k = Some s)).
Proof.
  revert dirs. induction l as [|[k0 s0] l IH]; intros dirs Hfun.
  { split; [|intros dirs' _ k s Hin; by apply elem_of_nil in Hin].
    intros _. exists dirs. split; [done|]. intros k s. split; [by left|].
    intros [?|Hin]; [done|by apply elem_of_nil in Hin]. }
  assert (Hfun' : ∀ k s s', (k, s) ∈ l → (k, s') ∈ l → s = s').
  { intros k s s' H1 H2. apply (Hfun k); by right. }
  cbn [claim_ancestors]. destruct (decide (k0 ∈ files)) as [Hk0|Hk0].
  { rewrite bool_decide_true by done. split; [|done]. intros Hall. by destruct (Hall k0 s0) as [? _]; [left|]. }
  rewrite bool_decide_false by done. cbn [guard_err mbind result_bind].
  destruct (dirs !! k0) as [s1|] eqn:E.
  - destruct (decide (s1 = s0)) as [->|Hs].
    2:{ rewrite bool_decide_true by done. split; [|done]. intros Hall.
        destruct (Hall k0 s0) as [_ [?|?]]; [left|congruence..]. }
    rewrite bool_decide_false by (by intros []). cbn [guard_err mbind result_bind].
    destruct (IH dirs Hfun') as [IH1 IH2]. split.
    + intros Hall. destruct IH1 as (dirs' & -> & Hd); [intros k s Hin; apply Hall; by right|].
      exists dirs'. split; [done|]. intros k s. rewrite Hd, elem_of_cons. naive_solver.
    + intros dirs' Hr k s [[= -> ->]|Hin]%elem_of_cons; [auto|]. by eapply IH2.
  - destruct (IH (<[k0:=s0]> dirs) Hfun') as [IH1 IH2]. split.
    + intros Hall. destruct IH1 as (dirs' & -> & Hd).
      { intros k s Hin. split; [by apply (Hall k s); right|]. destruct (decide (k = k0)) as [->|Hne].
        - right. rewrite lookup_insert_eq. f_equal. apply (Hfun k0); [left|by right].
        - rewrite lookup_insert_ne by done. by apply Hall; right. }
      exists dirs'. split; [done|]. intros k s. rewrite Hd, elem_of_cons.
      destruct (decide (k = k0)) as [->|Hne].
      * rewrite lookup_insert_eq. split; [intros [[= <-]|?]; auto|].
        intros [?|[[= ->]|?]]; [congruence|by left|by right].
      * rewrite lookup_insert_ne by done. naive_solver.
    + intros dirs' Hr k s [[= -> ->]|Hin]%elem_of_cons; [auto|].
      destruct (IH2 dirs' Hr k s Hin) as [Hf Hd]. split; [done|].
      destruct (decide (k = k0)) as [->|Hne]; [by left|]. by rewrite lookup_insert_ne in Hd.
Qed.

(** ** What is accepted *)

Definition sum_of {A} (f : A → N) (l : list A) : N := foldr (λ x s, f x + s) 0 l.

Lemma sum_of_app {A} (f : A → N) l k : sum_of f (l ++ k) = sum_of f l + sum_of f k.
Proof. induction l as [|x l IH]; simpl; [done|]. rewrite IH. lia. Qed.

Lemma sum_of_perm {A} (f : A → N) l k : l ≡ₚ k → sum_of f l = sum_of f k.
Proof. induction 1; simpl; lia. Qed.

(** Every two elements of a list, in either order. *)
Lemma pairs_snoc {A} (R : A → A → Prop) l x :
  ForallOrdPairs R (l ++ [x]) ↔ ForallOrdPairs R l ∧ ∀ y, y ∈ l → R y x.
Proof.
  induction l as [|y l IH]; simpl.
  - split; [intros _; split; [constructor|by intros y ?%elem_of_nil]|]. intros _. repeat constructor.
  - split.
    + intros Hp. inversion Hp as [|y' l' Hy Hl]; subst. apply IH in Hl as [Hl Hx].
      apply Forall_app in Hy as [Hy Hyx]. split; [by constructor|].
      intros z [->|Hz]%elem_of_cons; [by inversion Hyx|by apply Hx].
    + intros [Hp Hx]. inversion Hp as [|y' l' Hy Hl]; subst. constructor.
      * apply Forall_app; split; [done|]. constructor; [|done]. apply Hx. left.
      * apply IH. split; [done|]. intros z Hz. apply Hx. by right.
Qed.

Lemma pairs_perm {A} (R : A → A → Prop) `{!Symmetric R} l k :
  l ≡ₚ k → ForallOrdPairs R l → ForallOrdPairs R k.
Proof.
  induction 1 as [|x l k Hlk IH|x y l|l k j _ IH1 _ IH2]; intros Hp; [done|..].
  - inversion Hp as [|x' l' Hx Hl]; subst. constructor; [|by apply IH].
    by eapply (Permutation_Forall Hlk).
  - inversion Hp as [|x' l' Hx Hl]; subst. inversion Hl as [|y' l' Hy Hl']; subst.
    inversion Hx as [|z l' Hxy Hx']; subst. constructor; [by constructor|by constructor].
  - auto.
Qed.

(** The destination of an entry. *)
Definition planned_of (e : PayloadEntryMetadata) : option PlannedPayloadEntry :=
  match payload_path_parse (pm_archive_path e) with
  | Ok p => Some {| pp_source_token := pm_source_token e; pp_path := p; pp_size_bytes := pm_size_bytes e |}
  | Err _ => None
  end.

(** The entries that can be planned together. *)
Record admissible (limits : PayloadImportLimits) (es : list PayloadEntryMetadata) : Prop := {
  ad_tokens : NoDup (pm_source_token <$> es);
  ad_paths : Forall (λ e, ∃ p, payload_path_parse (pm_archive_path e) = Ok p) es;
  ad_path_bytes : sum_of (λ e, len (pm_archive_path e)) es ≤ pi_maximum_path_bytes limits;
  ad_sizes : Forall (λ e, pm_size_bytes e ≤ pi_maximum_entry_bytes limits) es;
  ad_total : sum_of pm_size_bytes es ≤ pi_maximum_total_bytes limits;
  ad_compatible : ForallOrdPairs compatible (pp_path <$> omap planned_of es)
}.

Lemma admissible_app limits es es' : admissible limits (es ++ es') → admissible limits es.
Proof.
  intros [Ht Hp Hpb Hs Htot Hc]. rewrite fmap_app in Ht. apply list.NoDup_app in Ht as (Ht & _ & _).
  apply Forall_app in Hp as [Hp _], Hs as [Hs _]. rewrite !sum_of_app in *. split; try done; try lia.
  clear -Hc. rewrite omap_app, fmap_app in Hc.
  revert Hc. generalize (pp_path <$> omap planned_of es'). intros k. induction k as [|x k IH] using rev_ind.
  - by rewrite app_nil_r.
  - rewrite app_assoc. intros [Hc _]%pairs_snoc. auto.
Qed.

Lemma admissible_perm limits es es' : es ≡ₚ es' → admissible limits es → admissible limits es'.
Proof.
  intros Hperm [Ht Hp Hpb Hs Htot Hc]. split.
  - by rewrite <-Hperm.
  - by rewrite <-Hperm.
  - by rewrite <-(sum_of_perm _ _ _ Hperm).
  - by rewrite <-Hperm.
  - by rewrite <-(sum_of_perm _ _ _ Hperm).
  - eapply pairs_perm; [apply _| |exact Hc]. by rewrite Hperm.
Qed.

(** ** The loop *)

(** What the locals are after the entries [es]. *)
Record planned_from (es : list PayloadEntryMetadata) (st : Planning) : Prop := {
  pf_planned : pn_planned st = omap planned_of es;
  pf_tokens t : t ∈ pn_source_tokens st ↔ t ∈ pm_source_token <$> es;
  pf_claims : claims (pp_path <$> pn_planned st) (pn_file_keys st) (pn_directory_spellings st);
  pf_total : pn_total_bytes st = sum_of pm_size_bytes es;
  pf_path_bytes : pn_total_path_bytes st = sum_of (λ e, len (pm_archive_path e)) es
}.

Lemma planned_from_start : planned_from [] planning_start.
Proof.
  split; [done| |split|done|done].
  - intros t. simpl. set_solver.
  - intros k. simpl. set_solver.
  - intros k s. simpl. rewrite lookup_empty. split; [done|]. intros (p & Hp & _). by apply elem_of_nil in Hp.
Qed.

(** A new destination is claimed exactly if it can be confused with none. *)
Lemma claims_compatible ps files dirs p :
  claims ps files dirs → path_wf p →
  ((¬ (pp_portability_key p ∈ files) ∧ dirs !! pp_portability_key p = None) ∧
    ∀ k s, (k, s) ∈ ancestor_keys p → ¬ (k ∈ files) ∧ (dirs !! k = None ∨ dirs !! k = Some s)) ↔
  ∀ q, q ∈ ps → compatible q p.
Proof.
  intros [Hf Hd] Hwf. split.
  - intros [[Hkey Hdir] Hanc] q Hq. split.
    + intros E. apply Hkey, Hf. by exists q.
    + intros s Hs. assert (E : dirs !! pp_portability_key p = Some s) by (apply Hd; by exists q).
      congruence.
    + intros s Hs. destruct (Hanc _ _ Hs) as [Hn _]. apply Hn, Hf. by exists q.
    + intros k s s' Hs Hs'. destruct (Hanc _ _ Hs') as [_ Hk].
      assert (E : dirs !! k = Some s) by (apply Hd; by exists q). destruct Hk; congruence.
  - intros Hall. split; [split|].
    + intros (q & Hq & E)%Hf. by destruct (cp_files _ _ (Hall q Hq)).
    + destruct (dirs !! pp_portability_key p) as [s|] eqn:E; [|done].
      apply Hd in E as (q & Hq & Hs). by destruct (cp_below _ _ (Hall q Hq) s).
    + intros k s Hs. split.
      * intros (q & Hq & <-)%Hf. by destruct (cp_above _ _ (Hall q Hq) s).
      * destruct (dirs !! k) as [s'|] eqn:E; [|by left]. right. f_equal.
        apply Hd in E as (q & Hq & Hs'). by apply (cp_directories _ _ (Hall q Hq) k).
Qed.

Lemma parsed_path_wf path p : payload_path_parse path = Ok p → path_wf p.
Proof. by intros (_ & _ & _ & ->)%payload_path_parse_Ok. Qed.

Lemma omap_snoc e es : omap planned_of (es ++ [e]) = omap planned_of es ++ option_list (planned_of e).
Proof. rewrite omap_app. simpl. by destruct (planned_of e). Qed.

Lemma plan_payload_entry_run limits es e st :
  planned_from es st → admissible limits es →
  match plan_payload_entry limits e st with
  | Ok st' => admissible limits (es ++ [e]) ∧ planned_from (es ++ [e]) st'
  | Err _ => ¬ admissible limits (es ++ [e])
  end.
Proof.
  intros [Hpl Htok Hcl Htot Hpb] Had. unfold plan_payload_entry.
  case_bool_decide as Ht.
  { intros Had'. pose proof (ad_tokens _ _ Had') as Hnd. rewrite fmap_app in Hnd.
    apply list.NoDup_app in Hnd as (_ & Hno & _). apply (Hno (pm_source_token e)); [by apply Htok|]. by left. }
  cbn [guard_err mbind result_bind]. rewrite Hpb, Htot.
  destruct (N.ltb_spec (pi_maximum_path_bytes limits - sum_of (λ e, len (pm_archive_path e)) es)
    (len (pm_archive_path e))) as [Hbig|Hpath].
  { intros Had'. pose proof (ad_path_bytes _ _ Had'). rewrite sum_of_app in *. simpl in *. lia. }
  cbn [guard_err mbind result_bind].
  destruct (N.ltb_spec (pi_maximum_entry_bytes limits) (pm_size_bytes e)) as [Hbig|Hsize].
  { intros Had'. pose proof (ad_sizes _ _ Had') as [_ Hs]%Forall_app. apply list.Forall_cons in Hs as [Hs _]. lia. }
  cbn [guard_err mbind result_bind].
  destruct (N.ltb_spec (pi_maximum_total_bytes limits - sum_of pm_size_bytes es) (pm_size_bytes e)) as [Hbig|Htotal].
  { intros Had'. pose proof (ad_total _ _ Had'). rewrite sum_of_app in *. simpl in *. lia. }
  cbn [guard_err mbind result_bind].
  destruct (payload_path_parse (pm_archive_path e)) as [p|err] eqn:Ep; cbn [map_err mbind result_bind].
  2:{ intros Had'. pose proof (ad_paths _ _ Had') as [_ Hs]%Forall_app.
      apply list.Forall_cons in Hs as [[p Hs] _]. congruence. }
  pose proof (parsed_path_wf _ _ Ep) as Hwf.
  assert (Hof : planned_of e = Some {| pp_source_token := pm_source_token e; pp_path := p;
    pp_size_bytes := pm_size_bytes e |}) by (unfold planned_of; by rewrite Ep).
  pose proof (claims_compatible _ _ _ p Hcl Hwf) as Hcompat.
  assert (Hbad : ¬ (∀ q, q ∈ pp_path <$> pn_planned st → compatible q p) → ¬ admissible limits (es ++ [e])).
  { intros Hn Had'. apply Hn. pose proof (ad_compatible _ _ Had') as Hc.
    rewrite omap_snoc, Hof, fmap_app in Hc. apply pairs_snoc in Hc as [_ Hc]. by rewrite Hpl. }
  destruct (claim_ancestors_run (pn_file_keys st) (ancestor_keys p) (pn_directory_spellings st)) as [Hyes Hno].
  { intros k s s'. by apply ancestor_one_spelling. }
  destruct (bool_decide (pp_portability_key p ∈ pn_file_keys st) ||
    bool_decide (is_Some (pn_directory_spellings st !! pp_portability_key p))) eqn:Eself.
  { apply Hbad. intros Hall. apply Hcompat in Hall as [[Hk Hd] _].
    apply orb_true_iff in Eself as [E%bool_decide_eq_true|E%bool_decide_eq_true]; [done|].
    rewrite Hd in E. by destruct E. }
  apply orb_false_iff in Eself as [Ek%bool_decide_eq_false Ed%bool_decide_eq_false].
  cbn [guard_err mbind result_bind].
  assert (Ed' : pn_directory_spellings st !! pp_portability_key p = None) by by apply eq_None_not_Some.
  destruct (claim_ancestors _ _ _) as [dirs'|err] eqn:Ec; cbn [mbind result_bind].
  2:{ apply Hbad. intros Hall. apply Hcompat in Hall as [_ Hanc].
      destruct (Hyes Hanc) as (dirs' & E & _). congruence. }
  pose proof (Hno _ eq_refl) as Hanc. destruct (Hyes Hanc) as (dirs'' & E & Hdirs).
  injection E as <-. pose proof (proj1 Hcompat (conj (conj Ek Ed') Hanc)) as Hall.
  split.
  - destruct Had. split; rewrite ?fmap_app, ?sum_of_app; simpl; try lia.
    + apply list.NoDup_app. split; [done|]. split; [|apply NoDup_singleton].
      intros t Hin ->%list_elem_of_singleton. by apply Ht, Htok.
    + apply Forall_app; split; [done|]. repeat constructor. by exists p.
    + apply Forall_app; split; [done|]. by repeat constructor.
    + rewrite omap_snoc, Hof, fmap_app. simpl. apply pairs_snoc. split; [done|]. by rewrite <-Hpl.
  - split; cbn [pn_planned pn_source_tokens pn_file_keys pn_directory_spellings pn_total_bytes pn_total_path_bytes].
    + by rewrite omap_snoc, Hof, Hpl.
    + intros t. rewrite elem_of_union, elem_of_singleton, Htok, fmap_app, elem_of_app. simpl.
      rewrite list_elem_of_singleton. tauto.
    + destruct Hcl as [Hf Hd]. rewrite fmap_app. simpl. split; intros k.
      * rewrite elem_of_union, elem_of_singleton, Hf. setoid_rewrite elem_of_app. simpl.
        setoid_rewrite list_elem_of_singleton. naive_solver.
      * intros s. rewrite Hdirs, Hd. setoid_rewrite elem_of_app. setoid_rewrite list_elem_of_singleton.
        unfold ancestor_of. naive_solver.
    + rewrite sum_of_app. simpl. lia.
    + rewrite sum_of_app. simpl. lia.
Qed.

Lemma plan_payload_entries_run limits es rest index st :
  planned_from es st → admissible limits es →
  match plan_payload_entries limits rest index st with
  | Ok st' => admissible limits (es ++ rest) ∧ planned_from (es ++ rest) st'
  | Err r => ∃ i, rj_entry_index r = Some (index + N.of_nat i) ∧ (i < length rest)%nat ∧
      admissible limits (es ++ take i rest) ∧ ¬ admissible limits (es ++ take (S i) rest)
  end.
Proof.
  revert es index st. induction rest as [|e rest IH]; intros es index st Hst Had; cbn [plan_payload_entries].
  { by rewrite app_nil_r. }
  pose proof (plan_payload_entry_run limits es e st Hst Had) as Hstep.
  destruct (plan_payload_entry limits e st) as [st1|err]; cbn [map_err mbind result_bind].
  - destruct Hstep as [Had1 Hst1]. specialize (IH (es ++ [e]) (index + 1) st1 Hst1 Had1).
    destruct (plan_payload_entries limits rest (index + 1) st1) as [st'|r].
    + by rewrite <-app_assoc in IH.
    + destruct IH as (i & Hi & Hl & H1 & H2). exists (S i). split; [rewrite Hi; f_equal; lia|].
      split; [simpl; lia|]. rewrite <-!app_assoc in *. done.
  - exists 0%nat. split; [simpl; f_equal; lia|]. split; [simpl; lia|]. simpl. by rewrite app_nil_r, take_0.
Qed.

(** ** The order of the plan *)

Definition key_of (e : PlannedPayloadEntry) : list byte := pp_portability_key (pp_path e).
Definition before (a b : PlannedPayloadEntry) : Prop := string_lt (key_of a) (key_of b).

Lemma insert_by_key_perm e l : insert_by_key e l ≡ₚ e :: l.
Proof.
  induction l as [|x l IH]; cbn [insert_by_key]; [done|]. destruct (string_ltb _ _); [|done].
  rewrite IH. apply perm_swap.
Qed.

Lemma sort_by_key_perm l : sort_by_key l ≡ₚ l.
Proof. induction l as [|x l IH]; [done|]. simpl. by rewrite insert_by_key_perm, IH. Qed.

Lemma insert_by_key_sorted e l :
  StronglySorted before l → (∀ x, x ∈ l → key_of x ≠ key_of e) → StronglySorted before (insert_by_key e l).
Proof.
  induction 1 as [|x l Hl IH Hx]; intros Hne; cbn [insert_by_key]; [by repeat constructor|].
  destruct (string_ltb _ _) eqn:E.
  - constructor.
    + apply IH. intros y Hy. apply Hne. by right.
    + apply list.Forall_forall. intros y. rewrite insert_by_key_perm. intros [->|Hy]%elem_of_cons; [done|].
      by apply (proj1 (list.Forall_forall _ _) Hx).
  - assert (Hex : before e x) by (apply string_lt_total; [done|apply Hne; left]).
    constructor; [by constructor|]. constructor; [done|].
    apply list.Forall_forall. intros y Hy. eapply string_lt_trans; [exact Hex|].
    by apply (proj1 (list.Forall_forall _ _) Hx).
Qed.

Lemma sort_by_key_sorted l :
  ForallOrdPairs (λ a b, key_of a ≠ key_of b) l → StronglySorted before (sort_by_key l).
Proof.
  induction 1 as [|x l Hx Hl IH]; [constructor|]. simpl. apply insert_by_key_sorted; [done|].
  intros y. rewrite sort_by_key_perm. intros Hy Hk.
  by apply (proj1 (list.Forall_forall _ _) Hx y Hy).
Qed.

Lemma sorted_unique l k : StronglySorted before l → StronglySorted before k → l ≡ₚ k → l = k.
Proof.
  intros Hl Hk Hp. apply (StronglySorted_unique_strong before); [|done..].
  intros a b _ _ H1 H2. exfalso. eapply string_lt_irrefl, string_lt_trans; [exact H1|exact H2].
Qed.

Lemma distinct_keys limits es : admissible limits es →
  ForallOrdPairs (λ a b, key_of a ≠ key_of b) (omap planned_of es).
Proof.
  intros Had. pose proof (ad_compatible _ _ Had) as Hc. revert Hc. generalize (omap planned_of es).
  induction l as [|x l IH]; simpl; intros Hc; [constructor|]. inversion Hc as [|y k Hx Hl]; subst.
  constructor; [|by apply IH]. apply list.Forall_forall. intros y Hy.
  apply (cp_files _ _ (proj1 (list.Forall_forall _ _) Hx (pp_path y) (list_elem_of_fmap_2 _ _ _ Hy))).
Qed.

Definition within_envelope (limits : PayloadImportLimits) (es : list PayloadEntryMetadata) : Prop :=
  coherent limits = true ∧ len es ≤ pi_maximum_entries limits.

Lemma plan_payload_layout_run entries limits :
  match plan_payload_layout entries limits with
  | Ok layout => within_envelope limits entries ∧ admissible limits entries ∧
      ly_entries layout = sort_by_key (omap planned_of entries) ∧
      ly_total_bytes layout = sum_of pm_size_bytes entries
  | Err {| rj_error := error; rj_entry_index := None |} =>
      ¬ within_envelope limits entries ∧ (error = PL_InvalidLimits ∨ error = PL_TooManyEntries)
  | Err {| rj_entry_index := Some i |} => within_envelope limits entries ∧ i < len entries ∧
      admissible limits (take (N.to_nat i) entries) ∧ ¬ admissible limits (take (S (N.to_nat i)) entries)
  end.
Proof.
  unfold plan_payload_layout, within_envelope. destruct (coherent limits) eqn:Hc; cbn [negb guard_err mbind result_bind].
  2:{ split; [by intros [? _]|by left]. }
  destruct (N.ltb_spec (pi_maximum_entries limits) (len entries)) as [Hmany|Hfew]; cbn [guard_err mbind result_bind].
  { split; [intros [_ ?]; lia|by right]. }
  assert (Hnil : admissible limits []).
  { split; simpl; try lia; constructor. }
  pose proof (plan_payload_entries_run limits [] entries 0 planning_start planned_from_start Hnil) as Hr.
  destruct (plan_payload_entries limits entries 0 planning_start) as [st|[error index]]; cbn [mbind result_bind].
  - destruct Hr as [Had [Hpl _ _ Htot _]]. simpl in Had, Hpl, Htot. split; [done|]. split; [done|].
    cbn [ly_entries ly_total_bytes]. by rewrite Hpl, Htot.
  - destruct Hr as (i & Hi & Hl & H1 & H2). cbn [rj_entry_index] in Hi. subst index.
    rewrite N.add_0_l, Nat2N.id. split; [done|]. split; [unfold len; lia|]. done.
Qed.

(** C33: Layout planning is exact. A set of entries is planned exactly if the limits
    are coherent, the entries not too many, their tokens distinct, their paths
    legal, their sizes and path lengths within the ceilings one by one and in sum,
    and every two destinations such that no file system can confuse them: not the
    same name in whatever case, none a directory of the other, and no directory
    spelled in two ways. The plan holds these destinations in the order of their
    collision keys, which are distinct, with the exact total. A refusal names the
    earliest entry without which the entries before it can be planned. *)
Theorem plan_payload_layout_exact entries limits :
  match plan_payload_layout entries limits with
  | Ok layout => within_envelope limits entries ∧ admissible limits entries ∧
      ly_entries layout ≡ₚ omap planned_of entries ∧ length (ly_entries layout) = length entries ∧
      StronglySorted before (ly_entries layout) ∧
      ly_total_bytes layout = sum_of pm_size_bytes entries
  | Err {| rj_error := error; rj_entry_index := None |} =>
      ¬ within_envelope limits entries ∧ (error = PL_InvalidLimits ∨ error = PL_TooManyEntries)
  | Err {| rj_entry_index := Some i |} => within_envelope limits entries ∧ i < len entries ∧
      admissible limits (take (N.to_nat i) entries) ∧ ¬ admissible limits (take (S (N.to_nat i)) entries)
  end.
Proof.
  pose proof (plan_payload_layout_run entries limits) as Hr.
  destruct (plan_payload_layout entries limits) as [layout|r]; [|exact Hr].
  destruct Hr as (Henv & Had & Hl & Htot). split; [done|]. split; [done|]. rewrite Hl.
  split; [apply sort_by_key_perm|]. split; [|split; [|done]].
  - rewrite sort_by_key_perm. clear -Had. pose proof (ad_paths _ _ Had) as Hp.
    induction Hp as [|e es [p Hp] _ IH]; [done|]. simpl. unfold planned_of at 1. rewrite Hp. simpl.
    f_equal. apply IH. apply (admissible_perm _ _ (es ++ [e])) in Had; [by apply admissible_app in Had|].
    by rewrite Permutation_app_comm.
  - eapply sort_by_key_sorted, distinct_keys, Had.
Qed.

(** The plan does not depend on the order the archive lists its entries in:
    a permutation of the entries is accepted or refused alike, and accepted with
    the identical plan. *)
Theorem plan_payload_layout_order entries entries' limits layout :
  entries ≡ₚ entries' → plan_payload_layout entries limits = Ok layout →
  plan_payload_layout entries' limits = Ok layout.
Proof.
  intros Hperm Hplan.
  pose proof (plan_payload_layout_run entries limits) as Hr. rewrite Hplan in Hr.
  destruct Hr as ([Hco Hlen] & Had & Hl & Htot). apply (admissible_perm _ _ _ Hperm) in Had as Had'.
  assert (Hlen' : len entries' = len entries) by (unfold len; by rewrite Hperm).
  pose proof (plan_payload_layout_run entries' limits) as Hr'.
  destruct (plan_payload_layout entries' limits) as [layout'|[error [i|]]].
  - destruct Hr' as (_ & _ & Hl' & Htot'). f_equal. destruct layout, layout'; simpl in *. f_equal.
    + rewrite Hl, Hl'. apply sorted_unique; [by eapply sort_by_key_sorted, distinct_keys..|].
      by rewrite !sort_by_key_perm, Hperm.
    + rewrite Htot, Htot'. symmetry. by apply sum_of_perm.
  - destruct Hr' as (_ & Hi & _ & Hno). destruct Hno.
    eapply (admissible_app _ _ (drop (S (N.to_nat i)) entries')). by rewrite take_drop.
  - destruct Hr' as [Hno _]. destruct Hno. split; [done|]. by rewrite Hlen'.
Qed.

(** ** Witnesses *)

Definition pack (token : N) (path : list byte) (size : N) : PayloadEntryMetadata :=
  {| pm_source_token := token; pm_archive_path := path; pm_size_bytes := size |}.

(** "b/C" and "a". *)
Definition sample_payload : list PayloadEntryMetadata :=
  [pack 1 [x62; x2f; x43] 10; pack 2 [x61] 5].

Definition sample_layout : PayloadLayout :=
  {| ly_entries :=
       [{| pp_source_token := 2; pp_path := path_of [[x61]]; pp_size_bytes := 5 |};
        {| pp_source_token := 1; pp_path := path_of [[x62]; [x43]]; pp_size_bytes := 10 |}];
     ly_total_bytes := 15 |}.

Lemma plan_payload_layout_order_witness :
  plan_payload_layout sample_payload payload_import_limits_default = Ok sample_layout ∧
  plan_payload_layout (reverse sample_payload) payload_import_limits_default = Ok sample_layout.
Proof.
  assert (E : plan_payload_layout sample_payload payload_import_limits_default = Ok sample_layout) by by vm_compute.
  split; [exact E|].
  apply (plan_payload_layout_order sample_payload (reverse sample_payload)); [|exact E].
  symmetry. apply reverse_Permutation.
Defined.

(** An alias of the kind the catalog of an enumeration lets pass is refused here. *)
Example layout_refuses_alias :
  plan_payload_layout [pack 1 [x61] 0; pack 2 [x61; x21] 0; pack 3 [x41; x2f; x62] 0]
    payload_import_limits_default =
  Err {| rj_error := PL_PathConflict; rj_entry_index := Some 2 |}.
Proof. by vm_compute. Qed.
