(* ===== verification/PayloadSelection.v ===== *)
(** * Component selection

    [crates/ohl-payload/src/selection.rs]: the recipe that says which components
    of an installation are imported, where to, and the identity it leaves. *)

From stdpp Require Import gmap sets sorting.
From S2P Require Export PayloadLayout Core.
From Stdlib Require Strings.String.
Import Strings.String.StringSyntax.

(** The [toml] crate: a document is the list of its keys with their values, in
    the order it keeps them in. *)
Class Toml : Type := {
  toml_value : Type;
  toml_parse : list byte → option (list (list byte * toml_value));
  toml_as_integer : toml_value → option Z;
  toml_as_str : toml_value → option (list byte);
  toml_as_array : toml_value → option (list toml_value);
  toml_as_table : toml_value → option (list (list byte * toml_value))
}.

Definition RECIPE_FORMAT_VERSION : N := 1.
Definition MAXIMUM_RECIPE_BYTES : N := 64 * 1024.
Definition MAXIMUM_RECIPE_COMPONENTS : N := 512.
Definition MAXIMUM_COMPONENT_NAME_BYTES : N := 128.
Definition MAXIMUM_DESTINATION_COMPONENTS : N := 8.
Definition MAXIMUM_SELECTABLE_ENTRIES : N := 50000.

(** A text of ASCII letters. *)
Definition ascii_text (s : String.string) : list byte := String.list_byte_of_string s.
Arguments ascii_text s%_string_scope.

Definition DIGEST_DOMAIN : list byte := ascii_text "open-half-life-payload-selection".
Definition IDENTITY_PREFIX : list byte := ascii_text "ohl-selection-v1-sha256:".

Inductive SelectionDecision : Type := Include | Exclude.
#[export] Instance SelectionDecision_eq_dec : EqDecision SelectionDecision.
Proof. solve_decision. Defined.

Definition decision_as_str (self : SelectionDecision) : list byte :=
  match self with Include => ascii_text "include" | Exclude => ascii_text "exclude" end.

Definition decision_parse (value : list byte) : option SelectionDecision :=
  if bool_decide (value = ascii_text "include") then Some Include
  else if bool_decide (value = ascii_text "exclude") then Some Exclude
  else None.

Inductive SelectionRecipeError : Type :=
| SR_ReadFailure | SR_TooLarge | SR_Malformed | SR_UnsupportedVersion | SR_MissingField
| SR_InvalidField | SR_UnknownField | SR_TooManyComponents | SR_DuplicateComponent
| SR_InvalidDestination.

Inductive SelectionError : Type := SE_TooManyEntries | SE_InvalidDestination.

Record ComponentRule : Type := {
  cr_folded_name : list byte;
  cr_decision : SelectionDecision;
  cr_destination : option PayloadPath
}.

(** [rules] in the order of its keys, the folded names. *)
Record SelectionRecipe : Type := {
  sr_rules : list ComponentRule;
  sr_default_decision : SelectionDecision
}.

(** [BTreeMap::insert]; [None] when the key was there, which the caller refuses. *)
Fixpoint rule_insert (rule : ComponentRule) (l : list ComponentRule) : option (list ComponentRule) :=
  match l with
  | [] => Some [rule]
  | other :: l =>
      if string_ltb (cr_folded_name rule) (cr_folded_name other) then Some (rule :: other :: l)
      else if bool_decide (cr_folded_name rule = cr_folded_name other) then None
      else l' ← rule_insert rule l; Some (other :: l')
  end.

Section toml.
Context `{Toml}.

(** [Table::get]. *)
Fixpoint toml_get (key : list byte) (table : list (list byte * toml_value)) : option toml_value :=
  match table with
  | [] => None
  | (k, v) :: table => if bool_decide (k = key) then Some v else toml_get key table
  end.

Definition known_keys (keys : list (list byte)) (table : list (list byte * toml_value)) : bool :=
  forallb (λ '(k, _), bool_decide (k ∈ keys)) table.

(** The destination of a rule. *)
Definition parse_destination (value : option toml_value)
  : result SelectionRecipeError (option PayloadPath) :=
  match value with
  | None => Ok None
  | Some value =>
      text ← ok_or (toml_as_str value) SR_InvalidField;
      if len text =? 0 then Ok None
      else
        path ← map_err (λ _, SR_InvalidDestination) (payload_path_parse text);
        guard_err (MAXIMUM_DESTINATION_COMPONENTS <? len (pp_components path)) SR_InvalidDestination;;
        Ok (Some path)
  end.

Definition parse_component (value : toml_value) : result SelectionRecipeError ComponentRule :=
  table ← ok_or (toml_as_table value) SR_InvalidField;
  guard_err (negb (known_keys [ascii_text "name"; ascii_text "decision"; ascii_text "destination"] table))
    SR_UnknownField;;
  name ← ok_or (toml_get (ascii_text "name") table) SR_MissingField;
  name ← ok_or (toml_as_str name) SR_InvalidField;
  guard_err ((len name =? 0) || (MAXIMUM_COMPONENT_NAME_BYTES <? len name) ||
    negb (forallb (λ byte, (0x21 <=? Byte.to_N byte) && (Byte.to_N byte <=? 0x7e)) name)) SR_InvalidField;;
  decision ← ok_or (toml_get (ascii_text "decision") table) SR_MissingField;
  decision ← ok_or (toml_as_str decision ≫= decision_parse) SR_InvalidField;
  destination ← parse_destination (toml_get (ascii_text "destination") table);
  Ok {| cr_folded_name := to_ascii_lowercase name; cr_decision := decision;
        cr_destination := destination |}.

Fixpoint parse_rules (components : list toml_value) (rules : list ComponentRule)
  : result SelectionRecipeError (list ComponentRule) :=
  match components with
  | [] => Ok rules
  | component :: components =>
      rule ← parse_component component;
      rules ← ok_or (rule_insert rule rules) SR_DuplicateComponent;
      parse_rules components rules
  end.

(** The version of a document, a non-negative 64-bit integer. *)
Definition recipe_version (document : list (list byte * toml_value)) : option N :=
  value ← toml_get (ascii_text "version") document;
  value ← toml_as_integer value;
  if (value <? 0)%Z then None else Some (Z.to_N value).

Definition recipe_parse (text : list byte) : result SelectionRecipeError SelectionRecipe :=
  guard_err (MAXIMUM_RECIPE_BYTES <? len text) SR_TooLarge;;
  document ← ok_or (toml_parse text) SR_Malformed;
  version ← ok_or (recipe_version document) SR_UnsupportedVersion;
  guard_err (negb (version =? RECIPE_FORMAT_VERSION)) SR_UnsupportedVersion;;
  default_decision ←
    match toml_get (ascii_text "default_decision") document with
    | None => Ok Exclude
    | Some value => ok_or (toml_as_str value ≫= decision_parse) SR_InvalidField
    end;
  guard_err (negb (known_keys [ascii_text "version"; ascii_text "default_decision"; ascii_text "component"] document))
    SR_UnknownField;;
  components ←
    match toml_get (ascii_text "component") document with
    | None => Ok []
    | Some value => ok_or (toml_as_array value) SR_InvalidField
    end;
  guard_err (MAXIMUM_RECIPE_COMPONENTS <? len components) SR_TooManyComponents;;
  rules ← parse_rules components [];
  Ok {| sr_rules := rules; sr_default_decision := default_decision |}.
End toml.

(** [self.rules.get(&component.to_ascii_lowercase())]. *)
Definition rule_for (self : SelectionRecipe) (component : list byte) : option ComponentRule :=
  snd <$> list_find (λ rule, cr_folded_name rule = to_ascii_lowercase component) (sr_rules self).

(** ** [select] *)

Record SelectableEntry : Type := {
  st_source_token : N;
  st_component : list byte;
  st_archive_path : list byte;
  st_size_bytes : N
}.

Record SelectionPlan : Type := {
  sp_entries : list PayloadEntryMetadata;
  sp_excluded : N;
  sp_digest : list byte
}.

(** A destination, the token and the size. *)
Abbreviation Selected := (PayloadPath * N * N)%type.

(** [a.key.cmp(b.key).then(a.token.cmp(b.token)) == Less]. *)
Definition selected_ltb (a b : Selected) : bool :=
  string_ltb (pp_portability_key a.1.1) (pp_portability_key b.1.1) ||
  (bool_decide (pp_portability_key a.1.1 = pp_portability_key b.1.1) && (a.1.2 <? b.1.2)).

Fixpoint insert_selected (entry : Selected) (l : list Selected) : list Selected :=
  match l with
  | [] => [entry]
  | other :: l =>
      if selected_ltb other entry then other :: insert_selected entry l else entry :: other :: l
  end.

Definition sort_selected (l : list Selected) : list Selected := foldr insert_selected [] l.

Definition entry_decision (recipe : SelectionRecipe) (entry : SelectableEntry) : SelectionDecision :=
  match rule_for recipe (st_component entry) with
  | Some rule => cr_decision rule
  | None => sr_default_decision recipe
  end.

(** Root, slash and archive path, where the rule has a root. *)
Definition joined_path (recipe : SelectionRecipe) (entry : SelectableEntry) : list byte :=
  match rule_for recipe (st_component entry) ≫= cr_destination with
  | Some root => pp_relative_path root ++ slash :: st_archive_path entry
  | None => st_archive_path entry
  end.

(** The loop, with what was selected and how many were excluded. *)
Fixpoint select_entries (recipe : SelectionRecipe) (entries : list SelectableEntry)
    (selected : list Selected) (excluded : N) : result SelectionError (list Selected * N) :=
  match entries with
  | [] => Ok (selected, excluded)
  | entry :: entries =>
      if bool_decide (entry_decision recipe entry = Exclude)
      then select_entries recipe entries selected (excluded + 1)
      else
        destination ← map_err (λ _, SE_InvalidDestination) (payload_path_parse (joined_path recipe entry));
        select_entries recipe entries
          (selected ++ [(destination, st_source_token entry, st_size_bytes entry)]) excluded
  end.

Section digest.
Context `{Sha2}.

(** [u64::to_be_bytes]. *)
Definition be_bytes_8 (v : N) : list byte := reverse (le_bytes 8 v).

Definition absorb (bytes : list byte) (hash : StreamingSha256) : StreamingSha256 :=
  sha256_update bytes (sha256_update (be_bytes_8 (len bytes)) hash).

Definition absorb_rule (hash : StreamingSha256) (rule : ComponentRule) : StreamingSha256 :=
  let hash := absorb (cr_folded_name rule) hash in
  let hash := absorb (decision_as_str (cr_decision rule)) hash in
  absorb (default [] (pp_relative_path <$> cr_destination rule)) hash.

Definition decision_digest (recipe : SelectionRecipe) : list byte :=
  let hash := absorb DIGEST_DOMAIN sha256_new in
  let hash := sha256_update (be_bytes_8 RECIPE_FORMAT_VERSION) hash in
  let hash := absorb (decision_as_str (sr_default_decision recipe)) hash in
  let hash := sha256_update (be_bytes_8 (len (sr_rules recipe))) hash in
  sha256_finalize (foldl absorb_rule hash (sr_rules recipe)).

Definition select (entries : list SelectableEntry) (recipe : SelectionRecipe)
  : result SelectionError SelectionPlan :=
  guard_err (MAXIMUM_SELECTABLE_ENTRIES <? len entries) SE_TooManyEntries;;
  '(selected, excluded) ← select_entries recipe entries [] 0;
  let digest := decision_digest recipe in
  Ok {| sp_entries :=
          (λ '(destination, source_token, size_bytes),
            {| pm_source_token := source_token; pm_archive_path := pp_relative_path destination;
               pm_size_bytes := size_bytes |}) <$> sort_selected selected;
        sp_excluded := excluded;
        sp_digest := digest |}.
End digest.

Definition hex_digit (n : N) : byte := nth (N.to_nat n) (ascii_text "0123456789abcdef") x00.

(** [SelectionPlan::recipe_identity]. *)
Definition recipe_identity (self : SelectionPlan) : list byte :=
  IDENTITY_PREFIX ++ (sp_digest self ≫= λ byte,
    [hex_digit (N.shiftr (Byte.to_N byte) 4); hex_digit (N.land (Byte.to_N byte) 0x0f)]).

(** ** What the recipe's identity binds *)

(** A field with its length, and the text the digest is taken of. *)
Definition field (bytes : list byte) : list byte := be_bytes_8 (len bytes) ++ bytes.

Definition rule_bytes (rule : ComponentRule) : list byte :=
  field (cr_folded_name rule) ++ field (decision_as_str (cr_decision rule)) ++
  field (default [] (pp_relative_path <$> cr_destination rule)).

Definition decision_bytes (recipe : SelectionRecipe) : list byte :=
  field DIGEST_DOMAIN ++ be_bytes_8 RECIPE_FORMAT_VERSION ++
  field (decision_as_str (sr_default_decision recipe)) ++
  be_bytes_8 (len (sr_rules recipe)) ++ concat (rule_bytes <$> sr_rules recipe).

Section binding.
Context `{Sha2, !Sha2Laws}.

Lemma update_app a b h : sha256_update b (sha256_update a h) = sha256_update (a ++ b) h.
Proof. unfold sha256_update. simpl. by rewrite sha2_update_app. Qed.

Lemma absorb_field bytes h : absorb bytes h = sha256_update (field bytes) h.
Proof. unfold absorb. by rewrite update_app. Qed.

Lemma absorb_rules rules h :
  foldl absorb_rule h rules = sha256_update (concat (rule_bytes <$> rules)) h.
Proof.
  revert h. induction rules as [|rule rules IH]; intros h; simpl.
  - destruct h. unfold sha256_update. simpl. by rewrite sha2_update_nil.
  - rewrite IH. unfold absorb_rule, rule_bytes. by rewrite !absorb_field, !update_app, <-!app_assoc.
Qed.

Lemma decision_digest_bytes recipe : decision_digest recipe = digest (decision_bytes recipe).
Proof.
  unfold decision_digest, digest, decision_bytes. cbv zeta. rewrite absorb_rules, !absorb_field.
  by rewrite !update_app.
Qed.
End binding.

Lemma length_be_bytes v : length (be_bytes_8 v) = 8%nat.
Proof. unfold be_bytes_8. by rewrite length_reverse, length_le_bytes. Qed.

Lemma be_bytes_inj a b : fits 64 a → fits 64 b → be_bytes_8 a = be_bytes_8 b → a = b.
Proof.
  intros Ha Hb E%(f_equal reverse). unfold be_bytes_8 in E. rewrite !reverse_involutive in E.
  apply (f_equal of_le_bytes) in E. by rewrite !(of_le_bytes_id 8 64) in E.
Qed.

(** A field ends where its length says. *)
Lemma field_inj a b x y :
  fits 64 (len a) → fits 64 (len b) → field a ++ x = field b ++ y → a = b ∧ x = y.
Proof.
  intros Ha Hb. unfold field. rewrite <-!app_assoc. intros E.
  apply app_inj_1 in E as [El E]; [|by rewrite !length_be_bytes].
  apply be_bytes_inj in El; [|done..]. apply app_inj_1 in E; [done|]. unfold len in El. lia.
Qed.

Record rule_wf (rule : ComponentRule) : Prop := {
  rw_name : cr_folded_name rule ≠ [] ∧ len (cr_folded_name rule) ≤ MAXIMUM_COMPONENT_NAME_BYTES;
  rw_destination p : cr_destination rule = Some p →
    payload_path_parse (pp_relative_path p) = Ok p ∧ len (pp_components p) ≤ MAXIMUM_DESTINATION_COMPONENTS
}.

Lemma decision_as_str_inj a b : decision_as_str a = decision_as_str b → a = b.
Proof. by destruct a, b. Qed.

Lemma decision_str_fits d : fits 64 (len (decision_as_str d)).
Proof. by destruct d. Qed.

Lemma parsed_bounds path p :
  payload_path_parse path = Ok p → path ≠ [] ∧ len path ≤ MAXIMUM_PATH_BYTES.
Proof.
  intros Hp. split; [by intros ->|]. by apply payload_path_parse_Ok in Hp as [? _].
Qed.

Lemma rule_bytes_inj r s x y :
  rule_wf r → rule_wf s → rule_bytes r ++ x = rule_bytes s ++ y → r = s ∧ x = y.
Proof.
  intros [[_ Hnr] Hdr] [[_ Hns] Hds]. unfold rule_bytes. rewrite <-!app_assoc. intros E.
  unfold MAXIMUM_COMPONENT_NAME_BYTES in *.
  assert (Hdest : ∀ d : option PayloadPath, (∀ p, d = Some p → payload_path_parse (pp_relative_path p) = Ok p ∧
      len (pp_components p) ≤ MAXIMUM_DESTINATION_COMPONENTS) →
    fits 64 (len (default [] (pp_relative_path <$> d)))).
  { intros [p|] Hd; simpl; [|done]. destruct (Hd p eq_refl) as [Hp _].
    apply parsed_bounds in Hp as [_ Hl]. unfold fits, MAXIMUM_PATH_BYTES in *. lia. }
  apply field_inj in E as [En E]; [|unfold fits; lia..].
  apply field_inj in E as [Ed E]; [|apply decision_str_fits..].
  apply field_inj in E as [Ep ->]; [|by apply Hdest..]. apply decision_as_str_inj in Ed.
  split; [|done]. destruct r as [nr dr pr], s as [ns ds ps]; simpl in *. f_equal; [done..|].
  destruct pr as [p|], ps as [q|]; simpl in *; [| | |done].
  - destruct (Hdr p eq_refl) as [Hp _], (Hds q eq_refl) as [Hq _]. rewrite Ep in Hp. congruence.
  - destruct (Hdr p eq_refl) as [Hp _]. apply parsed_bounds in Hp as [Hp _]. done.
  - destruct (Hds q eq_refl) as [Hq _]. apply parsed_bounds in Hq as [Hq _]. done.
Qed.

(** The text determines the decisions. *)
Lemma decision_bytes_inj r s :
  Forall rule_wf (sr_rules r) → Forall rule_wf (sr_rules s) →
  fits 64 (len (sr_rules r)) → fits 64 (len (sr_rules s)) →
  decision_bytes r = decision_bytes s → r = s.
Proof.
  intros Hr Hs Hlr Hls E. destruct r as [rr dr], s as [rs ds]. unfold decision_bytes in E. simpl in *.
  apply app_inv_head, app_inv_head in E. apply field_inj in E as [Ed E]; [|apply decision_str_fits..].
  apply decision_as_str_inj in Ed as ->. f_equal.
  apply app_inj_1 in E as [El E]; [|by rewrite !length_be_bytes].
  apply be_bytes_inj in El; [|done..]. clear Hlr Hls.
  revert rs Hs El E. induction Hr as [|rule rr Hrule Hr IH]; intros [|rule' rs] Hs El E; try (unfold len in El; simpl in El; lia); [done|].
  apply list.Forall_cons in Hs as [Hrule' Hs]. simpl in E. apply rule_bytes_inj in E as [-> E]; [|done..].
  f_equal. apply IH; [done| |done]. unfold len in *. simpl in El. lia.
Qed.

(** ** What a parsed recipe is *)

Definition name_before (a b : ComponentRule) : Prop := string_lt (cr_folded_name a) (cr_folded_name b).

Lemma rule_insert_Some rule l l' :
  rule_insert rule l = Some l' → StronglySorted name_before l →
  l' ≡ₚ rule :: l ∧ StronglySorted name_before l'.
Proof.
  revert l'. induction l as [|x l IH]; intros l' E Hs; cbn [rule_insert] in E.
  { injection E as <-. split; [done|]. repeat constructor. }
  inversion Hs as [|x' k Hl Hx]; subst.
  destruct (string_ltb (cr_folded_name rule) (cr_folded_name x)) eqn:Elt.
  { injection E as <-. split; [done|]. constructor; [done|]. constructor; [done|].
    refine (List.Forall_impl _ _ Hx). intros y Hy. eapply string_lt_trans; [exact Elt|exact Hy]. }
  case_bool_decide as Ene; [done|]. destruct (rule_insert rule l) as [k|] eqn:Ek; [|done].
  injection E as <-. destruct (IH k eq_refl Hl) as [Hp Hk]. split.
  { rewrite Hp. apply perm_swap. }
  constructor; [done|]. rewrite Hp. constructor; [|done].
  by apply string_lt_total.
Qed.

Section parsed.
Context `{Toml}.

Lemma parse_component_wf value rule : parse_component value = Ok rule → rule_wf rule.
Proof.
  unfold parse_component. destruct (toml_as_table value) as [table|]; [|done].
  cbn [ok_or mbind result_bind]. rewrite guard_seq. intros [_ E].
  destruct (toml_get (ascii_text "name") table) as [name|]; [|done]. cbn [ok_or mbind result_bind] in E.
  destruct (toml_as_str name) as [text|]; [|done]. cbn [ok_or mbind result_bind] in E.
  apply guard_seq in E as [Hname E]. apply orb_false_iff in Hname as [Hname _].
  apply orb_false_iff in Hname as [H0%N.eqb_neq Hlen%N.ltb_ge].
  destruct (toml_get (ascii_text "decision") table) as [value'|]; [|done]. cbn [ok_or mbind result_bind] in E.
  destruct (toml_as_str value' ≫= decision_parse) as [decision|]; [|done]. cbn [ok_or mbind result_bind] in E.
  destruct (parse_destination _) as [destination|] eqn:Ed; [|done]. cbn [mbind result_bind] in E.
  injection E as <-. split; cbn [cr_folded_name cr_destination].
  - split; [by destruct text|]. unfold len. by rewrite length_lowercase.
  - intros p ->. unfold parse_destination in Ed.
    destruct (toml_get (ascii_text "destination") table) as [v|]; [|done].
    destruct (toml_as_str v) as [t|]; [|done]. cbn [ok_or mbind result_bind] in Ed.
    destruct (len t =? 0); [done|].
    destruct (payload_path_parse t) as [q|] eqn:Ep; [|done]. cbn [map_err mbind result_bind] in Ed.
    apply guard_seq in Ed as [Hc%N.ltb_ge [= ->]]. split; [|done]. by eapply reparse_path.
Qed.

Lemma parse_rules_wf components rules rules' :
  parse_rules components rules = Ok rules' → StronglySorted name_before rules → Forall rule_wf rules →
  StronglySorted name_before rules' ∧ Forall rule_wf rules' ∧
  length rules' = (length rules + length components)%nat ∧
  ∀ rule, rule ∈ rules' ↔ rule ∈ rules ∨ ∃ c, c ∈ components ∧ parse_component c = Ok rule.
Proof.
  revert rules. induction components as [|c components IH]; intros rules E Hs Hwf; cbn [parse_rules] in E.
  { injection E as <-. split; [done|]. split; [done|]. split; [simpl; lia|]. intros rule.
    split; [by left|]. by intros [?|(c & ?%elem_of_nil & _)]. }
  destruct (parse_component c) as [rule|] eqn:Ec; [|done]. cbn [mbind result_bind] in E.
  destruct (rule_insert rule rules) as [k|] eqn:Ek; [|done]. cbn [ok_or mbind result_bind] in E.
  destruct (rule_insert_Some _ _ _ Ek Hs) as [Hp Hk].
  destruct (IH k E Hk) as (H1 & H2 & H3 & H4).
  { rewrite Hp. constructor; [by eapply parse_component_wf|done]. }
  split; [done|]. split; [done|]. split; [rewrite H3, Hp; simpl; lia|].
  intros r. rewrite H4, Hp. setoid_rewrite elem_of_cons. split.
  - intros [[->|?]|(c' & ? & ?)]; [right; exists c; auto|by left|right; exists c'; auto].
  - intros [?|(c' & [->|?] & ?)]; [auto|left; left; congruence|right; exists c'; auto].
Qed.

Lemma recipe_parse_wf text recipe : recipe_parse text = Ok recipe →
  len text ≤ MAXIMUM_RECIPE_BYTES ∧ StronglySorted name_before (sr_rules recipe) ∧
  Forall rule_wf (sr_rules recipe) ∧ len (sr_rules recipe) ≤ MAXIMUM_RECIPE_COMPONENTS.
Proof.
  unfold recipe_parse. rewrite guard_seq. intros [Hlen%N.ltb_ge E].
  destruct (toml_parse text) as [document|]; [|done]. cbn [ok_or mbind result_bind] in E.
  destruct (recipe_version document) as [version|]; [|done]. cbn [ok_or mbind result_bind] in E.
  apply guard_seq in E as [_ E].
  match type of E with (?m ≫= _) = _ => destruct m as [default_decision|] end; [|done].
  cbn [mbind result_bind] in E. apply guard_seq in E as [_ E].
  match type of E with (?m ≫= _) = _ => destruct m as [components|] end; [|done].
  cbn [mbind result_bind] in E. apply guard_seq in E as [Hn%N.ltb_ge E].
  destruct (parse_rules components []) as [rules|] eqn:Er; [|done]. injection E as <-.
  destruct (parse_rules_wf _ _ _ Er) as (Hs & Hwf & Hl & _); [constructor..|].
  split; [done|]. split; [done|]. split; [done|]. simpl in *. unfold len in *. lia.
Qed.
End parsed.

(** A rule is found by the component's name in any case, and by no other. *)
Lemma rule_for_spec recipe component rule :
  StronglySorted name_before (sr_rules recipe) →
  rule_for recipe component = Some rule ↔
  rule ∈ sr_rules recipe ∧ cr_folded_name rule = to_ascii_lowercase component.
Proof.
  unfold rule_for. generalize (sr_rules recipe). intros rules Hs. split.
  - intros E. destruct (list_find _ rules) as [[i r]|] eqn:Ef; [|done]. injection E as ->.
    apply list_find_Some in Ef as (Hl & Hn & _). split; [by eapply list_elem_of_lookup_2|done].
  - intros [Hin Hn]. induction Hs as [|x l Hl IH Hx]; [by apply elem_of_nil in Hin|].
    cbn [list_find]. case_decide as Ex; cbn [fmap option_fmap option_map].
    + simpl. f_equal. apply elem_of_cons in Hin as [->|Hin]; [done|]. exfalso.
      apply (proj1 (list.Forall_forall _ _) Hx) in Hin. unfold name_before in Hin.
      rewrite Ex, Hn in Hin. by eapply string_lt_irrefl.
    + apply elem_of_cons in Hin as [->|Hin]; [done|]. specialize (IH Hin).
      by destruct (list_find _ l) as [[i r]|].
Qed.

(** ** [select] *)

Section select.
Context `{Sha2} (recipe : SelectionRecipe).

(** The entries the recipe includes, and what becomes of one. *)
Definition included (entries : list SelectableEntry) : list SelectableEntry :=
  filter (λ e, entry_decision recipe e = Include) entries.

Definition selected_of (e : SelectableEntry) : option Selected :=
  match payload_path_parse (joined_path recipe e) with
  | Ok p => Some (p, st_source_token e, st_size_bytes e)
  | Err _ => None
  end.

Definition has_destination (e : SelectableEntry) : Prop :=
  ∃ p, payload_path_parse (joined_path recipe e) = Ok p.

Lemma select_entries_run entries selected excluded :
  match select_entries recipe entries selected excluded with
  | Ok (l, n) => Forall has_destination (included entries) ∧
      l = selected ++ omap selected_of (included entries) ∧
      n + len (included entries) = excluded + len entries
  | Err e => e = SE_InvalidDestination ∧ ¬ Forall has_destination (included entries)
  end.
Proof.
  revert selected excluded. induction entries as [|e entries IH]; intros selected excluded; cbn [select_entries].
  { split; [constructor|]. simpl. by rewrite app_nil_r. }
  unfold included in *. rewrite filter_cons. case_bool_decide as Hd.
  - rewrite decide_False by congruence. specialize (IH selected (excluded + 1)).
    destruct (select_entries recipe entries selected (excluded + 1)) as [[l n]|err]; [|done].
    destruct IH as (? & ? & Hn). split; [done|]. split; [done|]. rewrite len_cons. lia.
  - rewrite decide_True by (by destruct (entry_decision recipe e)).
    destruct (payload_path_parse (joined_path recipe e)) as [p|err] eqn:Ep; cbn [map_err mbind result_bind].
    + specialize (IH (selected ++ [(p, st_source_token e, st_size_bytes e)]) excluded).
      destruct (select_entries recipe entries _ excluded) as [[l n]|err].
      * destruct IH as (? & -> & Hn). split; [constructor; [by exists p|done]|]. split.
        -- rewrite <-app_assoc. f_equal. simpl. unfold selected_of at 2. by rewrite Ep.
        -- rewrite !len_cons. lia.
      * destruct IH as [-> Hno]. split; [done|]. intros [_ ?]%list.Forall_cons. done.
    + split; [done|]. intros [[p Hp] _]%list.Forall_cons. congruence.
Qed.

Lemma insert_selected_perm e l : insert_selected e l ≡ₚ e :: l.
Proof.
  induction l as [|x l IH]; cbn [insert_selected]; [done|]. destruct (selected_ltb x e); [|done].
  rewrite IH. apply perm_swap.
Qed.

Lemma sort_selected_perm l : sort_selected l ≡ₚ l.
Proof. induction l as [|x l IH]; [done|]. simpl. by rewrite insert_selected_perm, IH. Qed.

Definition selected_lt (a b : Selected) : Prop := selected_ltb a b = true.

Lemma selected_lt_spec a b : selected_lt a b ↔
  string_lt (pp_portability_key a.1.1) (pp_portability_key b.1.1) ∨
  pp_portability_key a.1.1 = pp_portability_key b.1.1 ∧ a.1.2 < b.1.2.
Proof.
  unfold selected_lt, selected_ltb. by rewrite orb_true_iff, andb_true_iff, bool_decide_eq_true, N.ltb_lt.
Qed.

Lemma selected_lt_trans a b c : selected_lt a b → selected_lt b c → selected_lt a c.
Proof.
  rewrite !selected_lt_spec. intros [H1|[E1 H1]] [H2|[E2 H2]].
  - left. by eapply string_lt_trans.
  - left. by rewrite <-E2.
  - left. by rewrite E1.
  - right. split; [congruence|lia].
Qed.

Lemma selected_lt_irrefl a : ¬ selected_lt a a.
Proof. rewrite selected_lt_spec. intros [?|[_ ?]]; [by eapply string_lt_irrefl|lia]. Qed.

Lemma selected_lt_total a b : selected_ltb a b = false → a.1.2 ≠ b.1.2 → selected_lt b a.
Proof.
  intros E Ht. apply selected_lt_spec.
  unfold selected_ltb in E. apply orb_false_iff in E as [E1 E2].
  destruct (decide (pp_portability_key a.1.1 = pp_portability_key b.1.1)) as [Ek|Ek].
  - right. split; [done|]. rewrite bool_decide_true in E2 by done. apply N.ltb_ge in E2. lia.
  - left. by apply string_lt_total.
Qed.

Lemma sort_selected_sorted l :
  NoDup (snd <$> (fst <$> l)) → StronglySorted selected_lt (sort_selected l).
Proof.
  induction l as [|x l IH]; [constructor|]. rewrite !fmap_cons, list.NoDup_cons. intros [Hx Hnd].
  specialize (IH Hnd). simpl. assert (Hne : ∀ y, y ∈ sort_selected l → y.1.2 ≠ x.1.2).
  { intros y Hy E. apply Hx. rewrite <-E. rewrite sort_selected_perm in Hy.
    by apply list_elem_of_fmap_2, list_elem_of_fmap_2. }
  induction IH as [|y k Hk IH Hy]; cbn [insert_selected]; [by repeat constructor|].
  destruct (selected_ltb y x) eqn:E.
  - constructor; [apply IH; intros z Hz; apply Hne; by right|].
    rewrite insert_selected_perm. constructor; [exact E|done].
  - assert (Hxy : selected_lt x y) by (apply selected_lt_total; [done|apply Hne; left]).
    constructor; [by constructor|]. constructor; [done|].
    refine (List.Forall_impl _ _ Hy). intros z Hz. by eapply selected_lt_trans.
Qed.

Lemma selected_le_trans a b c :
  selected_ltb b a = false → selected_ltb c b = false → selected_ltb c a = false.
Proof.
  intros Hba Hcb. destruct (selected_ltb c a) eqn:Hca; [|done]. exfalso.
  assert (selected_ltb c b = true) as E; [|congruence].
  destruct (decide (a.1.2 = b.1.2)) as [Et|Et].
  - destruct (decide (pp_portability_key a.1.1 = pp_portability_key b.1.1)) as [Ek|Ek].
    + unfold selected_ltb in *. by rewrite <-Ek, <-Et.
    + apply (selected_lt_trans _ a); [exact Hca|]. apply selected_lt_spec. left.
      unfold selected_ltb in Hba. apply orb_false_iff in Hba as [Hba _]. by apply string_lt_total.
  - apply (selected_lt_trans _ a); [exact Hca|]. by apply selected_lt_total.
Qed.

(** Sorted by collision key and, among equal keys, by token. *)
Definition selected_le (a b : Selected) : Prop := selected_ltb b a = false.

Lemma sort_selected_ordered l : StronglySorted selected_le (sort_selected l).
Proof.
  induction l as [|x l IH]; [constructor|]. cbn [sort_selected foldr]. fold (sort_selected l).
  induction IH as [|y k Hk IH Hy]; cbn [insert_selected]; [by repeat constructor|].
  destruct (selected_ltb y x) eqn:E.
  - constructor; [apply IH|]. rewrite insert_selected_perm. constructor; [|done].
    unfold selected_le. destruct (selected_ltb x y) eqn:E'; [|done].
    exfalso. by eapply selected_lt_irrefl, (selected_lt_trans x y x).
  - constructor; [by constructor|]. constructor; [exact E|].
    refine (List.Forall_impl _ _ Hy). intros z Hz. by eapply selected_le_trans.
Qed.

Definition entry_of (s : Selected) : PayloadEntryMetadata :=
  {| pm_source_token := s.1.2; pm_archive_path := pp_relative_path s.1.1; pm_size_bytes := s.2 |}.

Lemma select_run entries :
  match select entries recipe with
  | Ok plan => len entries ≤ MAXIMUM_SELECTABLE_ENTRIES ∧ Forall has_destination (included entries) ∧
      sp_entries plan = entry_of <$> sort_selected (omap selected_of (included entries)) ∧
      sp_excluded plan + len (included entries) = len entries ∧ sp_digest plan = decision_digest recipe
  | Err SE_TooManyEntries => MAXIMUM_SELECTABLE_ENTRIES < len entries
  | Err SE_InvalidDestination => len entries ≤ MAXIMUM_SELECTABLE_ENTRIES ∧
      ¬ Forall has_destination (included entries)
  end.
Proof.
  unfold select. destruct (N.ltb_spec MAXIMUM_SELECTABLE_ENTRIES (len entries)); cbn [guard_err mbind result_bind]; [done|].
  pose proof (select_entries_run entries [] 0) as Hr.
  destruct (select_entries recipe entries [] 0) as [[l n]|e]; cbn [mbind result_bind].
  - destruct Hr as (Hall & -> & Hn). split; [done|]. split; [done|]. cbn [sp_entries sp_excluded sp_digest].
    split; [|split; [lia|done]]. apply list_fmap_ext. by intros i [[p t] s].
  - by destruct Hr as [-> Hno].
Qed.
End select.

(** Two hexadecimal digits are a byte. *)
Lemma hex_byte_inj a b :
  hex_digit (N.shiftr (Byte.to_N a) 4) = hex_digit (N.shiftr (Byte.to_N b) 4) →
  hex_digit (N.land (Byte.to_N a) 0x0f) = hex_digit (N.land (Byte.to_N b) 0x0f) → a = b.
Proof.
  set (code x := (hex_digit (N.shiftr (Byte.to_N x) 4), hex_digit (N.land (Byte.to_N x) 0x0f))).
  intros E1 E2. assert (E : code a = code b) by (unfold code; congruence). clear E1 E2.
  set (value (d : byte) := if (Byte.to_N d <? 0x60) then Byte.to_N d - 0x30 else Byte.to_N d - 0x57).
  assert (Hdecode : ∀ x, byte_of_N (16 * value (code x).1 + value (code x).2) = x) by (intros x; by destruct x).
  rewrite <-(Hdecode a), <-(Hdecode b). by rewrite E.
Qed.

(** ** Properties *)

(** C35: Selection is exact. A plan exists exactly if the entries are not too many
    and every entry the recipe includes has a legal destination; it then lists
    exactly the included entries, each under its rule's root with its token and
    size, in the order of their collision keys and then their tokens, spelled
    canonically, so that planning its layout finds no illegal path; it counts the
    rest, and its digest is that of the recipe's decisions. *)
Theorem select_exact `{Sha2} entries recipe :
  match select entries recipe with
  | Ok plan => len entries ≤ MAXIMUM_SELECTABLE_ENTRIES ∧
      Forall (has_destination recipe) (included recipe entries) ∧
      (∃ chosen, sp_entries plan = entry_of <$> chosen ∧ chosen ≡ₚ omap (selected_of recipe) (included recipe entries) ∧
        length chosen = length (included recipe entries) ∧ StronglySorted selected_le chosen) ∧
      sp_excluded plan + len (included recipe entries) = len entries ∧
      Forall (λ e, ∃ p, payload_path_parse (pm_archive_path e) = Ok p ∧ pp_relative_path p = pm_archive_path e)
        (sp_entries plan) ∧
      sp_digest plan = decision_digest recipe
  | Err SE_TooManyEntries => MAXIMUM_SELECTABLE_ENTRIES < len entries
  | Err SE_InvalidDestination => len entries ≤ MAXIMUM_SELECTABLE_ENTRIES ∧
      ¬ Forall (has_destination recipe) (included recipe entries)
  end.
Proof.
  pose proof (select_run recipe entries) as Hr. destruct (select entries recipe) as [plan|e]; [|exact Hr].
  destruct Hr as (Hl & Hall & Hent & Hex & Hdigest). split; [done|]. split; [done|]. rewrite Hent.
  assert (length (omap (selected_of recipe) (included recipe entries)) = length (included recipe entries)) as Hlen.
  { clear -Hall. induction Hall as [|x l [p Hp] _ IH]; [done|].
    assert (E : selected_of recipe x = Some (p, st_source_token x, st_size_bytes x)) by (unfold selected_of; by rewrite Hp).
    cbn. rewrite E. cbn. f_equal. exact IH. }
  split; [|split; [done|split; [|done]]].
  - eexists. split; [done|]. split; [apply sort_selected_perm|].
    split; [by rewrite sort_selected_perm|apply sort_selected_ordered].
  - rewrite sort_selected_perm. apply Forall_fmap, list.Forall_forall. intros [[p t] s] Hin.
    apply list_elem_of_omap in Hin as (x & _ & Hx). unfold selected_of in Hx.
    destruct (payload_path_parse (joined_path recipe x)) as [q|] eqn:Eq; [|done]. injection Hx as <- <- <-.
    exists q. split; [by eapply reparse_path|done].
Qed.

(** Selection does not depend on the order the entries are offered in, when
    their tokens are distinct. *)
Theorem select_order `{Sha2} entries entries' recipe :
  entries ≡ₚ entries' → NoDup (st_source_token <$> entries) →
  select entries recipe = select entries' recipe.
Proof.
  intros Hperm Hnd.
  pose proof (select_run recipe entries) as H1. pose proof (select_run recipe entries') as H2.
  assert (Hlen : len entries' = len entries) by (unfold len; by rewrite Hperm).
  assert (Hinc : included recipe entries ≡ₚ included recipe entries') by (unfold included; by rewrite Hperm).
  assert (Htok : NoDup (snd <$> (fst <$> omap (selected_of recipe) (included recipe entries)))).
  { assert (Hsub : snd <$> (fst <$> omap (selected_of recipe) (included recipe entries)) `sublist_of`
      st_source_token <$> entries); [|by eapply sublist_NoDup].
    clear. induction entries as [|e es IH]; [done|]. unfold included. rewrite filter_cons.
    case_decide; simpl; [|by apply sublist_cons]. unfold selected_of at 1.
    destruct (payload_path_parse _); simpl; [by apply sublist_skip|by apply sublist_cons]. }
  assert (Hsort : sort_selected (omap (selected_of recipe) (included recipe entries)) =
    sort_selected (omap (selected_of recipe) (included recipe entries'))).
  { apply (StronglySorted_unique_strong selected_lt).
    - intros a b _ _ Hab Hba. exfalso. eapply selected_lt_irrefl, selected_lt_trans; [exact Hab|exact Hba].
    - by apply sort_selected_sorted.
    - apply sort_selected_sorted. by rewrite <-Hinc.
    - by rewrite !sort_selected_perm, Hinc. }
  assert (Hincl : len (included recipe entries') = len (included recipe entries)) by (unfold len; by rewrite Hinc).
  destruct (select entries recipe) as [p|[]], (select entries' recipe) as [q|[]]; try done; rewrite ?Hlen in H2.
  - destruct H1 as (_ & _ & He1 & Hx1 & Hd1), H2 as (_ & _ & He2 & Hx2 & Hd2).
    f_equal. destruct p, q; simpl in *. f_equal; [congruence|lia|congruence].
  - destruct H1 as [H1 _]. lia.
  - destruct H1 as (_ & H1 & _), H2 as [_ H2]. by rewrite Hinc in H1.
  - destruct H2 as [H2 _]. lia.
  - destruct H2 as [H2 _]. lia.
  - destruct H2 as (_ & H2 & _), H1 as [_ H1]. by rewrite Hinc in H1.
  - destruct H1 as [H1 _]. lia.
Qed.

(** The identity of a selection binds its recipe. The identity is the digest
    of a text of the recipe's decisions, and two parsed recipes that differ have
    different texts: a shared identity exhibits a collision of the digest. *)
Theorem selection_identity_binds `{Sha2, !Sha2Laws, Toml} text text' recipe recipe' entries entries' plan plan' :
  recipe_parse text = Ok recipe → recipe_parse text' = Ok recipe' →
  select entries recipe = Ok plan → select entries' recipe' = Ok plan' →
  recipe_identity plan = recipe_identity plan' → recipe ≠ recipe' →
  decision_bytes recipe ≠ decision_bytes recipe' ∧
  digest (decision_bytes recipe) = digest (decision_bytes recipe').
Proof.
  intros Hr Hr' Hp Hp' Hid Hne. split.
  - intros E. apply Hne.
    apply recipe_parse_wf in Hr as (_ & _ & Hwf & Hl), Hr' as (_ & _ & Hwf' & Hl').
    unfold MAXIMUM_RECIPE_COMPONENTS in *. apply decision_bytes_inj; unfold fits; try done; lia.
  - pose proof (select_run recipe entries) as Hs1. rewrite Hp in Hs1. destruct Hs1 as (_ & _ & _ & _ & Hd).
    pose proof (select_run recipe' entries') as Hs2. rewrite Hp' in Hs2. destruct Hs2 as (_ & _ & _ & _ & Hd').
    rewrite <-!decision_digest_bytes, <-Hd, <-Hd'.
    unfold recipe_identity in Hid. apply app_inv_head in Hid.
    revert Hid. generalize (sp_digest plan), (sp_digest plan'). clear.
    induction l as [|a l IH]; intros [|b k]; simpl; intros E; [done..|].
    injection E as E1 E2 E. f_equal; [|by apply IH]. by apply hex_byte_inj.
Qed.

(** ** Witnesses *)

Module Sample.
Inductive Value : Type :=
| Integer (z : Z) | Text (t : list byte) | Array (l : list Value) | Table (l : list (list byte * Value)).

Definition document (rule : list byte) : list (list byte * Value) :=
  [(ascii_text "version", Integer 1);
   (ascii_text "component",
    Array [Table [(ascii_text "name", Text rule); (ascii_text "decision", Text (ascii_text "include"));
                  (ascii_text "destination", Text (ascii_text "maps"))]])].

(** A parser that knows two recipes, [A] and [B]. *)
Definition toml : Toml :=
  {| toml_value := Value;
     toml_parse text :=
       if bool_decide (text = ascii_text "A") then Some (document (ascii_text "Alpha"))
       else if bool_decide (text = ascii_text "B") then Some (document (ascii_text "Beta")) else None;
     toml_as_integer v := match v with Integer z => Some z | _ => None end;
     toml_as_str v := match v with Text t => Some t | _ => None end;
     toml_as_array v := match v with Array l => Some l | _ => None end;
     toml_as_table v := match v with Table l => Some l | _ => None end |}.

(** A digest that keeps the first 32 bytes, padded. *)
Definition sha : Sha2 :=
  {| sha2_state := list byte; sha2_new := []; sha2_update b h := h ++ b;
     sha2_finalize h := take 32 (h ++ replicate 32 x00) |}.

Lemma sha_laws : @Sha2Laws sha.
Proof.
  split.
  - intros h. change (length (take 32 (h ++ replicate 32 x00)) = 32%nat). rewrite length_take, length_app, length_replicate. lia.
  - intros a b h. apply app_assoc.
  - intros h. apply app_nil_r.
Qed.

Definition offer (token : N) (component path : list byte) : SelectableEntry :=
  {| st_source_token := token; st_component := component; st_archive_path := path; st_size_bytes := 1 |}.
Definition offered : list SelectableEntry :=
  [offer 2 (ascii_text "ALPHA") (ascii_text "b.bsp"); offer 1 (ascii_text "alpha") (ascii_text "A.bsp");
   offer 3 (ascii_text "other") (ascii_text "../x")].
End Sample.

Section witnesses.
#[local] Existing Instance Sample.toml.
#[local] Existing Instance Sample.sha.

Definition sample_recipe (text : list byte) : option SelectionRecipe :=
  match recipe_parse text with Ok r => Some r | Err _ => None end.

Lemma select_order_witness : ∃ recipe plan, sample_recipe (ascii_text "A") = Some recipe ∧
  select Sample.offered recipe = Ok plan ∧ select (reverse Sample.offered) recipe = Ok plan ∧
  pm_archive_path <$> sp_entries plan = [ascii_text "maps/A.bsp"; ascii_text "maps/b.bsp"] ∧
  sp_excluded plan = 1.
Proof.
  destruct (sample_recipe (ascii_text "A")) as [recipe|] eqn:Er; [|vm_compute in Er; discriminate Er].
  destruct (select Sample.offered recipe) as [plan|e] eqn:E.
  2:{ vm_compute in Er. injection Er as <-. vm_compute in E. discriminate E. }
  exists recipe, plan. split; [done|]. split; [done|]. split.
  - rewrite <-E. symmetry. apply select_order; [symmetry; apply reverse_Permutation|].
    by vm_compute; repeat constructor; set_solver.
  - vm_compute in Er. injection Er as <-. vm_compute in E. injection E as <-. by vm_compute.
Defined.

Lemma selection_identity_binds_witness : ∃ recipe recipe',
  sample_recipe (ascii_text "A") = Some recipe ∧ sample_recipe (ascii_text "B") = Some recipe' ∧
  decision_bytes recipe ≠ decision_bytes recipe' ∧
  digest (decision_bytes recipe) = digest (decision_bytes recipe').
Proof.
  pose proof (@selection_identity_binds Sample.sha Sample.sha_laws Sample.toml
    (ascii_text "A") (ascii_text "B")) as H.
  destruct (recipe_parse (ascii_text "A")) as [r|] eqn:Er; [|vm_compute in Er; discriminate Er].
  destruct (recipe_parse (ascii_text "B")) as [r'|] eqn:Er'; [|vm_compute in Er'; discriminate Er'].
  exists r, r'. split; [unfold sample_recipe; by rewrite Er|]. split; [unfold sample_recipe; by rewrite Er'|].
  vm_compute in Er, Er'. injection Er as <-. injection Er' as <-.
  eapply (H _ _ [] [] _ _ eq_refl eq_refl eq_refl eq_refl); by vm_compute.
Defined.

(** Two entries of one token and one destination, in the order they were offered. *)
Example select_duplicate_order :
  let recipe := {| sr_rules := []; sr_default_decision := Include |} in
  let a := {| st_source_token := 1; st_component := []; st_archive_path := [x61]; st_size_bytes := 1 |} in
  let b := {| st_source_token := 1; st_component := []; st_archive_path := [x61]; st_size_bytes := 2 |} in
  select [a; b] recipe ≠ select [b; a] recipe.
Proof. by vm_compute. Qed.
End witnesses.
