(* ===== verification/WiseCrc.v ===== *)
(** * The checksum of a Wise package

    [crates/ohl-wise/src/crc32.rs]: the table-driven CRC-32 a stream is
    confirmed with, against the bit-serial division it abbreviates. *)

From S2P Require Export Prelude.

Definition POLYNOMIAL : N := 0xEDB88320.

(** One turn of the inner loop of [build_table]. *)
Definition crc_bit_step (value : N) : N :=
  if N.land value 1 =? 1 then N.lxor (N.shiftr value 1) POLYNOMIAL else N.shiftr value 1.

Definition build_table : list N :=
  map (λ index, Nat.iter 8 crc_bit_step (N.of_nat index)) (seq 0 256).

Definition CRC_TABLE : list N := Eval vm_compute in build_table.

(** [struct Crc32] is its one field. *)
Definition Crc32 : Type := N.

Definition crc32_new : Crc32 := 2 ^ 32 - 1.

Definition crc32_fold (state : Crc32) (b : byte) : Crc32 :=
  let index := N.land (N.lxor state (Byte.to_N b)) 0xff in
  N.lxor (N.shiftr state 8) (nth (N.to_nat index) CRC_TABLE 0).

Definition crc32_update (self : Crc32) (bytes : list byte) : Crc32 :=
  fold_left crc32_fold bytes self.

Definition crc32_finish (self : Crc32) : N := N.lxor self (2 ^ 32 - 1).

Definition crc32 (bytes : list byte) : N := crc32_finish (crc32_update crc32_new bytes).

(** ** The bit-serial definition *)

(** The bits of a byte, least significant first. *)
Definition byte_bits (b : byte) : list bool :=
  map (λ i, N.testbit (Byte.to_N b) (N.of_nat i)) (seq 0 8).

(** One bit of the message enters the remainder of the division by the
    (reflected) polynomial. *)
Definition crc_bit (state : N) (bit : bool) : N :=
  N.lxor (N.div2 state) (if xorb (N.odd state) bit then POLYNOMIAL else 0).

Definition crc32_serial (bytes : list byte) : N :=
  N.lxor (fold_left crc_bit (concat (map byte_bits bytes)) (2 ^ 32 - 1)) (2 ^ 32 - 1).

(** ** The step is linear and invertible *)

Lemma crc_bit_step_alt v :
  crc_bit_step v = N.lxor (N.div2 v) (if N.odd v then POLYNOMIAL else 0).
Proof.
  unfold crc_bit_step. rewrite <-N.div2_spec. change 1 with (N.ones 1) at 1.
  rewrite N.land_ones, N.pow_1_r, <-N.bit0_mod, N.bit0_odd.
  destruct (N.odd v); simpl; [done|by rewrite N.lxor_0_r].
Qed.

Lemma crc_bit_step_lxor a b : crc_bit_step (N.lxor a b) = N.lxor (crc_bit_step a) (crc_bit_step b).
Proof.
  rewrite !crc_bit_step_alt, <-!N.bit0_odd, N.lxor_spec. apply N.bits_inj. intros i.
  rewrite !N.lxor_spec, !N.div2_spec, !N.shiftr_spec', N.lxor_spec.
  generalize POLYNOMIAL. intros p.
  destruct (N.testbit a (i + 1)), (N.testbit b (i + 1)), (N.testbit a 0), (N.testbit b 0);
    cbn [xorb]; rewrite ?N.bits_0; by destruct (N.testbit p i).
Qed.

Lemma crc_iter_lxor n a b :
  Nat.iter n crc_bit_step (N.lxor a b) =
  N.lxor (Nat.iter n crc_bit_step a) (Nat.iter n crc_bit_step b).
Proof. induction n as [|n IH]; simpl; [done|]. by rewrite IH, crc_bit_step_lxor. Qed.

(** Bits above the ones being divided only move down. *)
Lemma crc_iter_shiftl n a : Nat.iter n crc_bit_step (N.shiftl a (N.of_nat n)) = a.
Proof.
  induction n as [|n IH]; [by rewrite N.shiftl_0_r|].
  rewrite Nat.iter_succ_r, Nat2N.inj_succ, N.shiftl_succ_r, crc_bit_step_alt.
  by rewrite N.div2_double, N.odd_even, N.lxor_0_r.
Qed.

Lemma crc_bit_spec state bit : crc_bit state bit = crc_bit_step (N.lxor state (N.b2n bit)).
Proof.
  rewrite crc_bit_step_alt. unfold crc_bit. f_equal.
  - apply N.bits_inj. intros i. rewrite !N.div2_spec, !N.shiftr_spec', N.lxor_spec.
    destruct bit; cbn [N.b2n]; [|by rewrite N.bits_0, xorb_false_r].
    replace (N.testbit 1 (i + 1)) with false; [by rewrite xorb_false_r|].
    symmetry. by destruct i.
  - rewrite <-!N.bit0_odd, N.lxor_spec. by destruct bit.
Qed.

Lemma crc_table_spec i : i < 256 → nth (N.to_nat i) CRC_TABLE 0 = Nat.iter 8 crc_bit_step i.
Proof.
  intros Hi. change CRC_TABLE with build_table. unfold build_table.
  rewrite (nth_indep _ 0 (Nat.iter 8 crc_bit_step (N.of_nat 0))) by (rewrite length_map, length_seq; lia).
  rewrite (map_nth (λ k, Nat.iter 8 crc_bit_step (N.of_nat k))), seq_nth by lia.
  f_equal. lia.
Qed.

(** The table advances the state by a whole byte. *)
Lemma crc32_fold_spec state b :
  crc32_fold state b = Nat.iter 8 crc_bit_step (N.lxor state (Byte.to_N b)).
Proof.
  unfold crc32_fold. set (x := N.lxor state (Byte.to_N b)). rewrite crc_table_spec.
  2:{ change 0xff with (N.ones 8). rewrite N.land_ones. apply N.mod_lt. done. }
  assert (N.shiftr state 8 = N.shiftr x 8) as ->.
  { unfold x. rewrite N.shiftr_lxor, (N.shiftr_div_pow2 (Byte.to_N b)), N.div_small, N.lxor_0_r; [done|].
    apply byte_to_N_lt. }
  assert (x = N.lxor (N.shiftl (N.shiftr x 8) 8) (N.land x 0xff)) as E.
  { apply N.bits_inj. intros i. rewrite N.lxor_spec, N.land_spec. change 0xff with (N.ones 8).
    destruct (N.lt_ge_cases i 8).
    - rewrite N.shiftl_spec_low, N.ones_spec_low, andb_true_r, xorb_false_l by lia. done.
    - rewrite N.shiftl_spec_high', N.shiftr_spec', N.ones_spec_high, andb_false_r, xorb_false_r by lia.
      f_equal. lia. }
  rewrite E at 3. rewrite crc_iter_lxor. change 8 with (N.of_nat 8) at 3.
  by rewrite crc_iter_shiftl.
Qed.

(** A block of bytes, folded in at once. *)
Lemma crc32_update_block state l :
  crc32_update state l = Nat.iter (8 * length l) crc_bit_step (N.lxor state (of_le_bytes l)).
Proof.
  revert state. induction l as [|b l IH]; intros state.
  { cbn. by rewrite N.lxor_0_r. }
  cbn [crc32_update fold_left]. fold (crc32_update (crc32_fold state b) l).
  rewrite IH, crc32_fold_spec.
  replace (8 * length (b :: l))%nat with (8 * length l + 8)%nat by (cbn [length]; lia).
  rewrite Nat.iter_add. f_equal.
  assert (of_le_bytes (b :: l) = N.lxor (Byte.to_N b) (N.shiftl (of_le_bytes l) 8)) as ->.
  { change (of_le_bytes (b :: l)) with (Byte.to_N b + 256 * of_le_bytes l).
    rewrite N.shiftl_mul_pow2. change (2 ^ 8) with 256. rewrite (N.mul_comm (of_le_bytes l)).
    apply N.add_nocarry_lxor. apply N.bits_inj_0. intros i. rewrite N.land_spec.
    change 256 with (2 ^ 8). rewrite N.mul_comm, <-N.shiftl_mul_pow2.
    destruct (N.lt_ge_cases i 8); [by rewrite N.shiftl_spec_low, andb_false_r by done|].
    rewrite <-(N.mod_small (Byte.to_N b) (2 ^ 8)) by apply byte_to_N_lt.
    by rewrite N.mod_pow2_bits_high by done. }
  rewrite <-N.lxor_assoc, (crc_iter_lxor 8 (N.lxor state _)). f_equal.
  symmetry. apply (crc_iter_shiftl 8).
Qed.

Lemma fits_lxor w a b : fits w a → fits w b → fits w (N.lxor a b).
Proof.
  unfold fits. intros Ha Hb. rewrite <-(N.mod_small a (2 ^ w)), <-(N.mod_small b (2 ^ w)) by done.
  rewrite <-!N.land_ones. replace (N.lxor _ _) with (N.land (N.lxor a b) (N.ones w)).
  - rewrite N.land_ones. apply N.mod_lt. apply N.pow_nonzero. done.
  - apply N.bits_inj. intros i. rewrite !N.lxor_spec, !N.land_spec, N.lxor_spec.
    by destruct (N.testbit a i), (N.testbit b i), (N.testbit (N.ones w) i).
Qed.

Lemma crc_bit_step_fits v : fits 32 v → fits 32 (crc_bit_step v).
Proof.
  intros Hv. rewrite crc_bit_step_alt. apply fits_lxor; [|by destruct (N.odd v)].
  unfold fits in *. rewrite N.div2_div. apply N.Div0.div_lt_upper_bound. lia.
Qed.

Lemma crc_iter_fits n v : fits 32 v → fits 32 (Nat.iter n crc_bit_step v).
Proof. intros Hv. induction n; simpl; [done|by apply crc_bit_step_fits]. Qed.

Lemma crc_bit_step_inj a b :
  fits 32 a → fits 32 b → crc_bit_step a = crc_bit_step b → a = b.
Proof.
  intros Ha Hb E.
  assert (∀ v, fits 32 v → N.testbit (crc_bit_step v) 31 = N.odd v) as Htop.
  { intros v Hv. rewrite crc_bit_step_alt, N.lxor_spec, N.div2_spec, N.shiftr_spec'.
    change (31 + 1) with 32. rewrite <-(N.mod_small v (2 ^ 32)) by done.
    rewrite N.mod_pow2_bits_high by done. rewrite N.mod_small by done. by destruct (N.odd v). }
  pose proof (Htop a Ha) as Ta. pose proof (Htop b Hb) as Tb. rewrite E in Ta.
  rewrite Ta in Tb. rewrite !crc_bit_step_alt, Tb in E. apply (f_equal (λ x, N.lxor x (if N.odd b then POLYNOMIAL else 0))) in E.
  rewrite !N.lxor_assoc, N.lxor_nilpotent, !N.lxor_0_r in E.
  rewrite (N.div2_odd a), (N.div2_odd b), E, Tb. done.
Qed.

Lemma crc_iter_inj n a b :
  fits 32 a → fits 32 b → Nat.iter n crc_bit_step a = Nat.iter n crc_bit_step b → a = b.
Proof.
  intros Ha Hb. induction n as [|n IH]; simpl; [done|]. intros E. apply IH.
  apply crc_bit_step_inj; auto using crc_iter_fits.
Qed.

Lemma crc32_update_fits s l : fits 32 s → (length l ≤ 4)%nat → fits 32 (crc32_update s l).
Proof.
  intros Hs Hl. rewrite crc32_update_block. apply crc_iter_fits, fits_lxor; [done|].
  eapply N.lt_le_trans; [apply of_le_bytes_lt|]. change (2 ^ 32) with (256 ^ 4).
  apply N.pow_le_mono_r; [done|]. unfold len. lia.
Qed.

Lemma crc32_update_app s l k : crc32_update s (l ++ k) = crc32_update (crc32_update s l) k.
Proof. apply fold_left_app. Qed.

Lemma crc32_state_fits s l : fits 32 s → fits 32 (crc32_update s l).
Proof.
  revert s. induction l as [|b l IH]; intros s Hs; [done|].
  apply (IH (crc32_fold s b)), (crc32_update_fits s [b]); [done|simpl; lia].
Qed.

Lemma crc32_fits l : fits 32 (crc32 l).
Proof. apply fits_lxor; [by apply crc32_state_fits|done]. Qed.

Lemma crc32_update_inj s s' l : fits 32 s → fits 32 s' → crc32_update s l = crc32_update s' l → s = s'.
Proof.
  revert s s'. induction l as [|b l IH]; intros s s' Hs Hs' E; [done|].
  apply (IH (crc32_fold s b) (crc32_fold s' b)) in E.
  - rewrite !crc32_fold_spec in E. apply crc_iter_inj in E.
    + apply (f_equal (λ x, N.lxor x (Byte.to_N b))) in E.
      by rewrite !N.lxor_assoc, N.lxor_nilpotent, !N.lxor_0_r in E.
    + apply fits_lxor; [done|]. pose proof (byte_to_N_lt b). unfold fits. lia.
    + apply fits_lxor; [done|]. pose proof (byte_to_N_lt b). unfold fits. lia.
  - by apply (crc32_update_fits s [b]); simpl; [|lia].
  - by apply (crc32_update_fits s' [b]); simpl; [|lia].
Qed.

(** ** Properties *)

Lemma fold_crc_bit_lxor bits a c :
  fold_left crc_bit bits (N.lxor a c) =
  N.lxor (Nat.iter (length bits) crc_bit_step a) (fold_left crc_bit bits c).
Proof.
  revert a c. induction bits as [|bit bits IH]; intros a c; [done|]. cbn [fold_left length].
  rewrite crc_bit_spec, N.lxor_assoc, crc_bit_step_lxor, IH, <-crc_bit_spec.
  by rewrite Nat.iter_succ_r.
Qed.

Lemma fold_byte_bits s b : fold_left crc_bit (byte_bits b) s = crc32_fold s b.
Proof.
  rewrite crc32_fold_spec, crc_iter_lxor. rewrite <-(N.lxor_0_r s) at 1. rewrite fold_crc_bit_lxor.
  f_equal. by destruct b.
Qed.

(** The table-driven checksum of the crate is the bit-serial division by the
    CRC-32 polynomial, message bits least significant first. *)
Theorem crc32_bit_serial bytes : crc32 bytes = crc32_serial bytes.
Proof.
  unfold crc32, crc32_finish, crc32_serial, crc32_new. f_equal. unfold crc32_update.
  generalize (2 ^ 32 - 1). induction bytes as [|b bytes IH]; intros s; [done|].
  cbn [map concat fold_left]. by rewrite fold_left_app, fold_byte_bits, IH.
Qed.

(** Folding the pieces of a message in is folding the message in. *)
Theorem crc32_pieces pieces :
  crc32_finish (fold_left crc32_update pieces crc32_new) = crc32 (concat pieces).
Proof.
  unfold crc32. f_equal. generalize crc32_new. induction pieces as [|l pieces IH]; intros s; [done|].
  cbn [fold_left concat]. by rewrite crc32_update_app, IH.
Qed.

(** Damage confined to four adjacent bytes is always detected: two streams of
    one length that differ within such a block never share a checksum. *)
Theorem crc32_detects_burst before block block' after :
  length block = length block' → (length block ≤ 4)%nat → block ≠ block' →
  crc32 (before ++ block ++ after) ≠ crc32 (before ++ block' ++ after).
Proof.
  intros Hl Hl4 Hne E. apply Hne. clear Hne. unfold crc32, crc32_finish in E.
  apply (f_equal (λ x, N.lxor x (2 ^ 32 - 1))) in E.
  rewrite !N.lxor_assoc, N.lxor_nilpotent, !N.lxor_0_r in E.
  rewrite !crc32_update_app in E. assert (fits 32 crc32_new) as Hnew by done.
  pose proof (crc32_state_fits crc32_new before Hnew) as Hs. revert Hs E.
  generalize (crc32_update crc32_new before). intros s Hs E.
  apply crc32_update_inj in E; [|by apply crc32_state_fits..].
  rewrite !crc32_update_block, <-Hl in E.
  assert (∀ l, (length l ≤ 4)%nat → fits 32 (of_le_bytes l)) as Hfit.
  { intros l Hl'. eapply N.lt_le_trans; [apply of_le_bytes_lt|]. change (2 ^ 32) with (256 ^ 4).
    apply N.pow_le_mono_r; [done|]. unfold len. lia. }
  apply crc_iter_inj in E; [|apply fits_lxor; [done|apply Hfit; lia]..].
  apply (f_equal (N.lxor s)) in E. rewrite <-!N.lxor_assoc, N.lxor_nilpotent, !N.lxor_0_l in E.
  rewrite <-(le_bytes_of_le_bytes block), <-(le_bytes_of_le_bytes block'), E. by rewrite Hl.
Qed.

Lemma crc32_detects_burst_witness :
  crc32 ([x00; x01] ++ [x41; x42] ++ [x02]) ≠ crc32 ([x00; x01] ++ [x42; x41] ++ [x02]).
Proof.
  apply (crc32_detects_burst [x00; x01] [x41; x42] [x42; x41] [x02]);
    [reflexivity|simpl; lia|discriminate].
Defined.

(** The published check values. *)
Example crc32_check_values :
  crc32 [x31; x32; x33; x34; x35; x36; x37; x38; x39] = 0xCBF43926 ∧
  crc32 [] = 0 ∧ crc32 (replicate 32 x00) = 0x190A55AD.
Proof. by vm_compute. Qed.
