(* ===== verification/Wise.v ===== *)
(** * Wise packages: vocabulary

    The shared parts of crate ohl-wise ([crates/ohl-wise/src/{error,limits,
    source}.rs]): its failures and ceilings, the byte source every reader is
    written over, and the bounded loops they run. *)

From S2P Require Export Core.

(** ** [error.rs] *)

Inductive WiseLimit : Type :=
| WL_PeHeaderBytes
| WL_Sections
| WL_HeaderScanBytes
| WL_Streams
| WL_CompressedBytesPerStream
| WL_InflatedBytesPerStream
| WL_TotalInflatedBytes
| WL_ScriptBytes
| WL_FileRecords
| WL_PathBytes.

Inductive WiseError : Type :=
| WE_NotExecutable
| WE_MalformedExecutable
| WE_NoOverlay
| WE_HeaderNotFound
| WE_ZipVariantUnsupported
| WE_Truncated
| WE_DecompressionFailed
| WE_ChecksumMismatch
| WE_ScriptMalformed
| WE_IndexOutOfRange
| WE_NoStreamForRecord
| WE_Cancelled
| WE_SourceFailed
| WE_LimitExceeded (limit : WiseLimit).

#[export] Instance WiseLimit_eq_dec : EqDecision WiseLimit.
Proof. solve_decision. Defined.
#[export] Instance WiseError_eq_dec : EqDecision WiseError.
Proof. solve_decision. Defined.

(** [impl From<SanitizedError> for Error], what [?] applies. *)
Definition wise_error_of_sanitized (error : SanitizedError) : WiseError :=
  match error with
  | SE_Unsupported => WE_ZipVariantUnsupported
  | SE_NotFound => WE_IndexOutOfRange
  | _ => WE_MalformedExecutable
  end.

(** A call that does not deliver: it returned an error, it panicked, or the
    model's loop ran out of turns, which no theorem accepts as an answer. *)
Inductive Stop (E : Type) : Type :=
| Fail (error : E)
| Panic
| OutOfFuel.
Arguments Fail {E} error.
Arguments Panic {E}.
Arguments OutOfFuel {E}.

#[export] Instance Stop_eq_dec {E} `{EqDecision E} : EqDecision (Stop E).
Proof. solve_decision. Defined.

(** A method of a Wise reader. *)
Abbreviation W S := (M S (Stop WiseError)).

Definition fail {S A} (error : WiseError) : W S A := throw (Fail error).

(** [if c { return Err(e) }]. *)
Definition reject {S} (c : bool) (error : WiseError) : W S unit :=
  if c then fail error else mret tt.

(** [checked_*_bounded(..)?]. *)
Definition bounded {S A} (r : result SanitizedError A) : W S A :=
  lift (map_err (λ error, Fail (wise_error_of_sanitized error)) r).

(** The [Result] of a call that is inspected with [match]: a panic is not one. *)
Definition returned {S A} (m : W S A) : W S (result WiseError A) := λ s,
  match m s with
  | (s', Ok a) => (s', Ok (Ok a))
  | (s', Err (Fail error)) => (s', Ok (Err error))
  | (s', Err Panic) => (s', Err Panic)
  | (s', Err OutOfFuel) => (s', Err OutOfFuel)
  end.

(** ** [limits.rs] *)

Record WiseLimits : Type := {
  wl_max_pe_header_bytes : N;
  wl_max_sections : N;
  wl_max_header_scan_bytes : N;
  wl_min_confirmed_inflated_bytes : N;
  wl_max_streams : N;
  wl_max_compressed_bytes_per_stream : N;
  wl_max_inflated_bytes_per_stream : N;
  wl_max_total_inflated_bytes : N;
  wl_max_script_bytes : N;
  wl_max_file_records : N;
  wl_max_path_bytes : N;
  wl_max_resync_skip : N;
  wl_max_chunk_bytes : N
}.

Definition wise_limits_default : WiseLimits :=
  {| wl_max_pe_header_bytes := 16 * 1024 * 1024;
     wl_max_sections := 96;
     wl_max_header_scan_bytes := 4 * 1024;
     wl_min_confirmed_inflated_bytes := 32;
     wl_max_streams := 262144;
     wl_max_compressed_bytes_per_stream := 4 * 1024 * 1024 * 1024;
     wl_max_inflated_bytes_per_stream := 4 * 1024 * 1024 * 1024;
     wl_max_total_inflated_bytes := 64 * 1024 * 1024 * 1024;
     wl_max_script_bytes := 64 * 1024 * 1024;
     wl_max_file_records := 200000;
     wl_max_path_bytes := 4096;
     wl_max_resync_skip := 3;
     wl_max_chunk_bytes := 64 * 1024 |}.

Definition wise_chunk_bytes (self : WiseLimits) : N :=
  if wl_max_chunk_bytes self =? 0 then 1 else wl_max_chunk_bytes self.

(** ** [source.rs] *)

(** [trait ImageSource]: the bytes a read puts at the front of the buffer,
    their number being what it returns. *)
Class ImageSource (S : Type) : Type := {
  image_read_at : N → N → W S (list byte);
  image_len : W S N
}.

(** A slice never changes: its state is [unit]. [usize] has 64 bits, so an
    offset always converts. *)
Definition image_slice (bytes : list byte) : ImageSource unit := {|
  image_read_at offset wanted s := (s, Ok (subslice offset wanted bytes));
  image_len s := (s, Ok (len bytes))
|}.

(** A source that shows [view], a prefix of an image of [size] bytes, and does
    not change: what a call sees that reads through one window. *)
Class ViewOf (S : Type) `{ImageSource S} (view : list byte) (size : N) : Prop := {
  view_read offset wanted s : image_read_at offset wanted s = (s, Ok (subslice offset wanted view));
  view_len s : image_len s = (s, Ok size);
  view_size : len view ≤ size
}.

#[export] Instance image_slice_view bytes : @ViewOf unit (image_slice bytes) bytes (len bytes).
Proof. by split. Qed.

(** [trait Cancellation]. *)
Class WiseCancellation (S : Type) : Type := wise_is_cancelled : S → S * bool.

(** The token [NeverCancelled]. *)
Definition wise_never_cancelled (S : Type) : WiseCancellation S := λ s, (s, false).

(** ** Loops

    [loop fuel step s] runs [step] until it answers on the right, at most
    [fuel] times; a binary counter, so that a ceiling of [2 ^ 72] turns costs
    nothing to write down. *)
Fixpoint loop {A R : Type} (fuel : positive) (step : A → A + R) (s : A) : A + R :=
  match fuel with
  | xH => step s
  | xO p => match loop p step s with inl s' => loop p step s' | inr r => inr r end
  | xI p =>
      match step s with
      | inl s' => match loop p step s' with inl s' => loop p step s' | inr r => inr r end
      | inr r => inr r
      end
  end.

Fixpoint turns {A R : Type} (n : nat) (step : A → A + R) (s : A) : A + R :=
  match n with
  | O => inl s
  | S n => match step s with inl s' => turns n step s' | inr r => inr r end
  end.

Section loops.
Context {A R : Type} (step : A → A + R).

Lemma turns_add n m s :
  turns (n + m) step s =
  match turns n step s with inl s' => turns m step s' | inr r => inr r end.
Proof. revert s. induction n as [|n IH]; intros s; simpl; [done|]. by destruct (step s). Qed.

Lemma loop_turns fuel s : loop fuel step s = turns (Pos.to_nat fuel) step s.
Proof.
  revert s. induction fuel as [p IH|p IH|]; intros s.
  - rewrite Pos2Nat.inj_xI. simpl loop. cbn [turns]. destruct (step s) as [s'|r]; [|done].
    replace (2 * Pos.to_nat p)%nat with (Pos.to_nat p + Pos.to_nat p)%nat by lia.
    rewrite turns_add, IH. by destruct (turns _ _ s').
  - rewrite Pos2Nat.inj_xO. simpl loop.
    replace (2 * Pos.to_nat p)%nat with (Pos.to_nat p + Pos.to_nat p)%nat by lia.
    rewrite turns_add, IH. by destruct (turns _ _ s).
  - simpl. by destruct (step s).
Qed.

(** A loop whose measure falls by every turn answers. *)
Lemma turns_measure (Inv : A → Prop) (μ : A → N) (P : R → Prop) n s :
  Inv s → μ s < N.of_nat n →
  (∀ s, Inv s → match step s with inl s' => Inv s' ∧ μ s' < μ s | inr r => P r end) →
  ∃ r, turns n step s = inr r ∧ P r.
Proof.
  intros Hs Hμ Hstep. revert s Hs Hμ. induction n as [|n IH]; intros s Hs Hμ; [lia|].
  specialize (Hstep s Hs) as H. simpl. destruct (step s) as [s'|r]; [|by eauto].
  destruct H as [Hs' ?]. apply IH; [done|lia].
Qed.

Lemma loop_measure (Inv : A → Prop) (μ : A → N) (P : R → Prop) fuel s :
  Inv s → μ s < N.pos fuel →
  (∀ s, Inv s → match step s with inl s' => Inv s' ∧ μ s' < μ s | inr r => P r end) →
  ∃ r, loop fuel step s = inr r ∧ P r.
Proof.
  intros Hs Hμ Hstep. rewrite loop_turns. apply (turns_measure Inv μ); [done| |done].
  by rewrite positive_nat_N.
Qed.

(** What holds of the answer, however many turns it took. *)
Lemma loop_inv (Inv : A → Prop) (P : R → Prop) fuel s r :
  Inv s → (∀ s, Inv s → match step s with inl s' => Inv s' | inr r => P r end) →
  loop fuel step s = inr r → P r.
Proof.
  intros Hs Hstep. rewrite loop_turns. generalize (Pos.to_nat fuel). intros n.
  revert s Hs. induction n as [|n IH]; intros s Hs; simpl; [done|].
  specialize (Hstep s Hs). destruct (step s) as [s'|r']; [by apply IH|]. by intros [= ->].
Qed.

(** More turns do not change an answer. *)
Lemma turns_more n m s r : turns n step s = inr r → (n ≤ m)%nat → turns m step s = inr r.
Proof. intros E ?. replace m with (n + (m - n))%nat by lia. by rewrite turns_add, E. Qed.

Lemma loop_of_turns n fuel s r :
  turns n step s = inr r → N.of_nat n ≤ N.pos fuel → loop fuel step s = inr r.
Proof. intros E ?. rewrite loop_turns. eapply turns_more; [done|]. lia. Qed.
End loops.

(** More turns than any counter of this crate can take. *)
Definition WISE_FUEL : positive := 2 ^ 72.

(** A loop of a method: [inl] goes round again, [inr] leaves it. *)
Definition loop_W {S E A R} (body : A → M S (Stop E) (A + R)) (a : A) : M S (Stop E) R := λ s,
  match loop WISE_FUEL (λ '(a, s),
          match body a s with
          | (s', Ok (inl a')) => inl (a', s')
          | (s', Ok (inr r)) => inr (s', Ok r)
          | (s', Err e) => inr (s', Err e)
          end) (a, s) with
  | inl (_, s') => (s', Err OutOfFuel)
  | inr answer => answer
  end.

(** ** Little-endian fields of a byte string *)

Definition u16_at (at_ : N) (bytes : list byte) : N := of_le_bytes (subslice at_ 2 bytes).
Definition u32_at (at_ : N) (bytes : list byte) : N := of_le_bytes (subslice at_ 4 bytes).

Lemma u16_at_lt at_ bytes : u16_at at_ bytes < 2 ^ 16.
Proof.
  eapply N.lt_le_trans; [apply of_le_bytes_lt|]. change (2 ^ 16) with (256 ^ 2).
  apply N.pow_le_mono_r; [done|]. unfold len, subslice. rewrite length_take. lia.
Qed.

Lemma u32_at_lt at_ bytes : u32_at at_ bytes < 2 ^ 32.
Proof.
  eapply N.lt_le_trans; [apply of_le_bytes_lt|]. change (2 ^ 32) with (256 ^ 4).
  apply N.pow_le_mono_r; [done|]. unfold len, subslice. rewrite length_take. lia.
Qed.

Lemma len_subslice_le {A} start size (l : list A) :
  len (subslice start size l) = N.min size (len l - start).
Proof. unfold len, subslice. rewrite length_take, length_drop. lia. Qed.

Lemma bounded_add {S} (s : S) a b : a + b < 2 ^ 64 →
  bounded (checked_add_bounded 64 a b) s = (s, Ok (a + b)).
Proof. intros. unfold bounded, lift, checked_add_bounded, checked_add. by rewrite (proj2 (N.ltb_lt _ _)). Qed.

Lemma bounded_sub {S} (s : S) a b : b ≤ a →
  bounded (checked_sub_bounded a b) s = (s, Ok (a - b)).
Proof. intros. unfold bounded, lift, checked_sub_bounded, checked_sub. by rewrite (proj2 (N.leb_le _ _)). Qed.

Lemma bounded_mul {S} (s : S) a b : a * b < 2 ^ 64 →
  bounded (checked_mul_bounded 64 a b) s = (s, Ok (a * b)).
Proof. intros. unfold bounded, lift, checked_mul_bounded, checked_mul. by rewrite (proj2 (N.ltb_lt _ _)). Qed.

(** A refused call against a statement about the ones that are not. *)
Lemma reject_seq {S A} (c : bool) error (k : W S A) s s' a (P : Prop) :
  (c = true → ¬ P) → (c = false → k s = (s', Ok a) ↔ P) →
  (reject c error;; k) s = (s', Ok a) ↔ P.
Proof.
  intros Ht Hf. destruct c.
  - split; [discriminate|]. intros HP. by destruct (Ht eq_refl).
  - by apply Hf.
Qed.

Lemma reject_Ok {S A} (c : bool) error (k : W S A) s s' a :
  (reject c error;; k) s = (s', Ok a) ↔ c = false ∧ k s = (s', Ok a).
Proof. destruct c; naive_solver. Qed.

(** A call that only looks. *)
Lemma M_bind_look {S E A B} (m : M S E A) (k : A → M S E B) s s' b (P : A → Prop) :
  (∀ s1 a, m s = (s1, Ok a) ↔ s1 = s ∧ P a) →
  (m ≫= k) s = (s', Ok b) ↔ ∃ a, P a ∧ k a s = (s', Ok b).
Proof.
  intros Hm. rewrite M_bind_Ok. split.
  - intros (s1 & a & [-> ?]%Hm & ?). eauto.
  - intros (a & ? & ?). exists s, a. by rewrite Hm.
Qed.

(** ** Slices of slices *)

Lemma subslice_take {A} a n (m : nat) (l : list A) :
  (N.to_nat a + N.to_nat n ≤ m)%nat → subslice a n (take m l) = subslice a n l.
Proof.
  intros. unfold subslice. rewrite skipn_firstn_comm, take_take. f_equal. lia.
Qed.

Lemma subslice_subslice {A} a n b m (l : list A) :
  a + n ≤ m → subslice a n (subslice b m l) = subslice (b + a) n l.
Proof.
  intros. unfold subslice at 2. rewrite subslice_take by lia.
  unfold subslice. rewrite drop_drop. do 2 f_equal. lia.
Qed.

Lemma subslice_min {A} start wanted (l : list A) :
  subslice start (N.min wanted (len l - start)) l = subslice start wanted l.
Proof.
  unfold subslice. destruct (N.le_ge_cases wanted (len l - start)).
  - by rewrite N.min_l.
  - rewrite N.min_r by done. rewrite !take_ge; [done|..]; rewrite length_drop; unfold len in *; lia.
Qed.

Lemma subslice_past {A} start wanted (l : list A) : len l ≤ start → subslice start wanted l = [].
Proof. intros. unfold subslice. rewrite drop_ge by (unfold len in *; lia). by rewrite take_nil. Qed.

Lemma subslice_0 {A} start (l : list A) : subslice start 0 l = [].
Proof. done. Qed.

Lemma subslice_app {A} a n c (l : list A) :
  subslice a n l ++ subslice (a + n) c l = subslice a (n + c) l.
Proof.
  unfold subslice. rewrite !N2Nat.inj_add, <-drop_drop. by rewrite take_take_drop.
Qed.

Lemma take_subslice {A} b k c (l : list A) :
  c ≤ k → take (N.to_nat c) (subslice b k l) = subslice b c l.
Proof. intros. unfold subslice. rewrite take_take. f_equal. lia. Qed.

Lemma drop_subslice {A} b k c (l : list A) :
  c ≤ k → drop (N.to_nat c) (subslice b k l) = subslice (b + c) (k - c) l.
Proof.
  intros. unfold subslice. rewrite skipn_firstn_comm, drop_drop. f_equal; [lia|]. f_equal. lia.
Qed.

(** A loop of a method, one turn at a time: a measure that falls keeps it within
    its fuel. *)
Lemma loop_W_wp {S X A B} (body : A → M S (Stop X) (A + B)) (Inv : A → S → Prop) (μ : A → S → N)
    (Q : B → S → Prop) (R : Stop X → S → Prop) a s :
  Inv a s → (∀ a s, Inv a s → μ a s < N.pos WISE_FUEL) →
  (∀ a s, Inv a s → wp (body a) (λ res s', match res with
     | inl a' => Inv a' s' ∧ μ a' s' < μ a s
     | inr b => Q b s'
     end) R s) →
  wp (loop_W body a) Q R s.
Proof.
  intros Ha Hμ Hbody. unfold wp, loop_W.
  destruct (loop_measure (λ '(a, s), match body a s with
      | (s', Ok (inl a')) => inl (a', s')
      | (s', Ok (inr r)) => inr (s', Ok r)
      | (s', Err e) => inr (s', Err e)
      end) (λ '(a, s), Inv a s) (λ '(a, s), μ a s)
      (λ '(s', r), match r with Ok b => Q b s' | Err e => R e s' end) WISE_FUEL (a, s))
    as ([s' r] & E & HP); [done|by apply Hμ|..].
  - intros [a1 s1] H1. specialize (Hbody a1 s1 H1). unfold wp in Hbody.
    by destruct (body a1 s1) as [s2 [[a2|b]|e]].
  - rewrite E. by destruct r.
Qed.

(** A loop answers as its first turn says, if it has the turns to. *)
Lemma loop_W_unfold {S X A B} (body : A → M S (Stop X) (A + B)) (Inv : A → S → Prop) (μ : A → S → N) a s :
  Inv a s → (∀ a s, Inv a s → μ a s < 2 ^ 71) →
  (∀ a s, Inv a s → match body a s with
     | (s', Ok (inl a')) => Inv a' s' ∧ μ a' s' < μ a s
     | _ => True
     end) →
  loop_W body a s =
  match body a s with
  | (s', Ok (inl a')) => loop_W body a' s'
  | (s', Ok (inr b)) => (s', Ok b)
  | (s', Err e) => (s', Err e)
  end.
Proof.
  intros Ha Hμ Hbody. set (step := λ '(a, s), match body a s with
      | (s', Ok (inl a')) => inl (a', s')
      | (s', Ok (inr r)) => inr (s', Ok r)
      | (s', Err e) => inr (s', Err e)
      end).
  assert (Hans : ∀ a s, Inv a s → ∃ n r, turns n step (a, s) = inr r ∧ N.of_nat n ≤ 2 ^ 71).
  { intros a1 s1 H1. exists (N.to_nat (μ a1 s1 + 1)).
    destruct (turns_measure step (λ '(a, s), Inv a s) (λ '(a, s), μ a s) (λ _, True)
      (N.to_nat (μ a1 s1 + 1)) (a1, s1)) as (r & E & _); [done|lia|..].
    - intros [a2 s2] H2. specialize (Hbody a2 s2 H2). cbn. by destruct (body a2 s2) as [s3 [[a3|b]|e]].
    - exists r. split; [done|]. specialize (Hμ a1 s1 H1). lia. }
  assert (Hloop : ∀ a s n r, turns n step (a, s) = inr r → N.of_nat n ≤ 2 ^ 71 + 1 →
    loop_W body a s = r).
  { intros a1 s1 n r E Hn. unfold loop_W. fold step.
    rewrite (loop_of_turns step n WISE_FUEL _ r); [by destruct r|done|].
    etrans; [exact Hn|]. by vm_compute. }
  specialize (Hbody a s Ha). destruct (body a s) as [s' [[a'|b]|e]] eqn:E.
  - destruct Hbody as [Ha' _]. destruct (Hans a' s' Ha') as (n & r & En & Hn).
    rewrite (Hloop a' s' n r En) by lia. apply (Hloop a s (Datatypes.S n) r); [|lia].
    cbn. by rewrite E.
  - apply (Hloop a s 1%nat); [|by vm_compute]. cbn. by rewrite E.
  - apply (Hloop a s 1%nat); [|by vm_compute]. cbn. by rewrite E.
Qed.

(** A loop keeps what each of its turns keeps. *)
Lemma keeps_loop_W {S X A B} (Rel : S → S → Prop) `{!PreOrder Rel} (body : A → M S (Stop X) (A + B)) a :
  (∀ a, keeps Rel (body a)) → keeps Rel (loop_W body a).
Proof.
  intros Hbody s. unfold loop_W. rewrite loop_turns. generalize (Pos.to_nat WISE_FUEL). intros n.
  revert a s. induction n as [|n IH]; intros a s; cbn [turns]; [reflexivity|].
  specialize (Hbody a s) as Hb. destruct (body a s) as [s' [[a'|b]|e]]; [|exact Hb..].
  etrans; [exact Hb|]. apply IH.
Qed.

(** Two loops that go round together answer alike. *)
Lemma loop_W_sim {S X A B T A' B'} (body : A → M S (Stop X) (A + B)) (body' : A' → M T (Stop X) (A' + B'))
    (Rel : A → S → A' → T → Prop) (Out : S * result (Stop X) B → T * result (Stop X) B' → Prop)
    a s a' t :
  Rel a s a' t →
  (∀ a s a' t, Rel a s a' t →
     match body a s, body' a' t with
     | (s1, Ok (inl a1)), (t1, Ok (inl a1')) => Rel a1 s1 a1' t1
     | (s1, Ok (inr b)), (t1, Ok (inr b')) => Out (s1, Ok b) (t1, Ok b')
     | (s1, Err e), (t1, Err e') => Out (s1, Err e) (t1, Err e')
     | _, _ => False
     end) →
  (∀ a s a' t, Rel a s a' t → Out (s, Err OutOfFuel) (t, Err OutOfFuel)) →
  Out (loop_W body a s) (loop_W body' a' t).
Proof.
  intros Hrel Hstep Hfuel. unfold loop_W. rewrite !loop_turns.
  generalize (Pos.to_nat WISE_FUEL). intros n. revert a s a' t Hrel.
  induction n as [|n IH]; intros a s a' t Hrel; cbn; [by eapply Hfuel|].
  specialize (Hstep a s a' t Hrel).
  destruct (body a s) as [s1 [[a1|b]|e]], (body' a' t) as [t1 [[a1'|b']|e']]; try done. by apply IH.
Qed.

(** A loop that answers, and one that does the same as long as the first goes on. *)
Lemma loop_W_follows {S X A B T A' B'} (body : A → M S (Stop X) (A + B)) (body' : A' → M T (Stop X) (A' + B'))
    (Rel : A → S → A' → T → Prop) (Out : S → B → T → B' → Prop) a s a' t s1 b :
  Rel a s a' t →
  (∀ a s a' t, Rel a s a' t →
     match body a s with
     | (s1, Ok (inl a1)) => ∃ t1 a1', body' a' t = (t1, Ok (inl a1')) ∧ Rel a1 s1 a1' t1
     | (s1, Ok (inr b)) => ∃ t1 b', body' a' t = (t1, Ok (inr b')) ∧ Out s1 b t1 b'
     | (_, Err _) => True
     end) →
  loop_W body a s = (s1, Ok b) → ∃ t1 b', loop_W body' a' t = (t1, Ok b') ∧ Out s1 b t1 b'.
Proof.
  intros Hrel Hstep. unfold loop_W. rewrite !loop_turns.
  generalize (Pos.to_nat WISE_FUEL). intros n. revert a s a' t Hrel.
  induction n as [|n IH]; intros a s a' t Hrel; cbn; [done|].
  specialize (Hstep a s a' t Hrel). destruct (body a s) as [s2 [[a2|b2]|e]]; [..|done].
  - destruct Hstep as (t1 & a1' & -> & Hrel'). by apply IH.
  - destruct Hstep as (t1 & b' & -> & Hout). intros [= <- <-]. by exists t1, b'.
Qed.

#[global] Opaque loop_W.
