(* ===== verification/WiseOverlay.v ===== *)
(** * Where a Wise package starts

    [crates/ohl-wise/src/overlay.rs]: the end of an executable's sections, read
    off its headers, against what those headers say. *)

From S2P Require Export Wise.

Definition DOS_SIGNATURE : N := 0x5A4D.
Definition PE_SIGNATURE : N := 0x00004550.
Definition E_LFANEW_AT : N := 0x3C.
Definition MIN_E_LFANEW : N := 0x40.
Definition COFF_HEADER_SIZE : N := 20.
Definition SECTION_HEADER_SIZE : N := 40.

Record Overlay : Type := {
  ov_offset : N;
  ov_len : N;
  ov_image_len : N
}.

#[export] Instance Overlay_eq_dec : EqDecision Overlay.
Proof. solve_decision. Defined.

Definition overlay_end (self : Overlay) : N := ov_image_len self.

Definition overlay_contains (self : Overlay) (offset : N) : bool :=
  (ov_offset self <=? offset) && (offset <? ov_image_len self).

Section overlay.
Context {S : Type} `{ImageSource S}.

Definition wise_read_exact (offset wanted : N) : W S (list byte) :=
  read ← image_read_at offset wanted;
  reject (negb (len read =? wanted)) WE_Truncated;;
  mret read.

Definition wise_read_u16 (offset : N) : W S N :=
  bytes ← wise_read_exact offset 2; mret (of_le_bytes bytes).

Definition wise_read_u32 (offset : N) : W S N :=
  bytes ← wise_read_exact offset 4; mret (of_le_bytes bytes).

Definition overlay_at (offset : N) : W S Overlay :=
  image_len ← image_len;
  reject (image_len <=? offset) WE_NoOverlay;;
  rest ← bounded (checked_sub_bounded image_len offset);
  mret {| ov_offset := offset; ov_len := rest; ov_image_len := image_len |}.

(** One turn of the section loop. *)
Definition section_step (table_start image_len index overlay_offset : N) : W S N :=
  at_ ← bounded (checked_mul_bounded 64 index SECTION_HEADER_SIZE);
  header ← bounded (checked_add_bounded 64 table_start at_);
  size_at ← bounded (checked_add_bounded 64 header 16);
  size_of_raw_data ← wise_read_u32 size_at;
  pointer_at ← bounded (checked_add_bounded 64 header 20);
  pointer_to_raw_data ← wise_read_u32 pointer_at;
  if (size_of_raw_data =? 0) || (pointer_to_raw_data =? 0) then mret overlay_offset
  else
    end_ ← bounded (checked_add_bounded 64 pointer_to_raw_data size_of_raw_data);
    reject (image_len <? end_) WE_MalformedExecutable;;
    mret (N.max overlay_offset end_).

Fixpoint section_loop (table_start image_len : N) (indexes : list N) (overlay_offset : N) : W S N :=
  match indexes with
  | [] => mret overlay_offset
  | index :: indexes =>
      overlay_offset ← section_step table_start image_len index overlay_offset;
      section_loop table_start image_len indexes overlay_offset
  end.

Definition find_overlay (limits : WiseLimits) : W S Overlay :=
  image_len ← image_len;
  reject (image_len <? E_LFANEW_AT + 4) WE_NotExecutable;;
  magic ← wise_read_u16 0;
  reject (negb (magic =? DOS_SIGNATURE)) WE_NotExecutable;;
  e_lfanew ← wise_read_u32 E_LFANEW_AT;
  reject ((e_lfanew <? MIN_E_LFANEW) || (wl_max_pe_header_bytes limits <? e_lfanew))
    (WE_LimitExceeded WL_PeHeaderBytes);;
  reject (image_len <=? e_lfanew) WE_MalformedExecutable;;
  signature ← wise_read_u32 e_lfanew;
  reject (negb (signature =? PE_SIGNATURE)) WE_MalformedExecutable;;
  coff ← bounded (checked_add_bounded 64 e_lfanew 4);
  count_at ← bounded (checked_add_bounded 64 coff 2);
  section_count ← wise_read_u16 count_at;
  reject (section_count =? 0) WE_MalformedExecutable;;
  reject (wl_max_sections limits <? section_count) (WE_LimitExceeded WL_Sections);;
  optional_at ← bounded (checked_add_bounded 64 coff 16);
  optional_header_size ← wise_read_u16 optional_at;
  optional_start ← bounded (checked_add_bounded 64 coff COFF_HEADER_SIZE);
  table_start ← bounded (checked_add_bounded 64 optional_start optional_header_size);
  table_bytes ← bounded (checked_mul_bounded 64 SECTION_HEADER_SIZE section_count);
  table_end ← bounded (checked_add_bounded 64 table_start table_bytes);
  reject (wl_max_pe_header_bytes limits <? table_end) (WE_LimitExceeded WL_PeHeaderBytes);;
  reject (image_len <? table_end) WE_Truncated;;
  overlay_offset ← section_loop table_start image_len
                     (map N.of_nat (seq 0 (N.to_nat section_count))) table_end;
  reject (image_len <=? overlay_offset) WE_NoOverlay;;
  rest ← bounded (checked_sub_bounded image_len overlay_offset);
  mret {| ov_offset := overlay_offset; ov_len := rest; ov_image_len := image_len |}.
End overlay.

(** ** What the headers say

    The fields of the headers are where the PE format puts them, whatever the
    reader does with them. *)
Definition pe_table_start (image : list byte) : N :=
  let e := u32_at E_LFANEW_AT image in e + 24 + u16_at (e + 20) image.

Definition pe_section_count (image : list byte) : N :=
  u16_at (u32_at E_LFANEW_AT image + 6) image.

Definition pe_table_end (image : list byte) : N :=
  pe_table_start image + 40 * pe_section_count image.

(** Where the data of section [i] starts and how long it is. *)
Definition pe_section (image : list byte) (i : N) : N * N :=
  let header := pe_table_start image + 40 * i in
  (u32_at (header + 20) image, u32_at (header + 16) image).

Definition section_end (section : N * N) : N :=
  if (section.2 =? 0) || (section.1 =? 0) then 0 else section.1 + section.2.

Definition pe_sections (image : list byte) : list (N * N) :=
  map (λ i, pe_section image (N.of_nat i)) (seq 0 (N.to_nat (pe_section_count image))).

(** Headers a reader accepts. *)
Record pe_headers (limits : WiseLimits) (image : list byte) : Prop := {
  ph_dos : 64 ≤ len image ∧ u16_at 0 image = DOS_SIGNATURE;
  ph_lfanew : MIN_E_LFANEW ≤ u32_at E_LFANEW_AT image;
  ph_signature : u32_at (u32_at E_LFANEW_AT image) image = PE_SIGNATURE;
  ph_sections : 0 < pe_section_count image ≤ wl_max_sections limits;
  ph_ceiling : pe_table_end image ≤ wl_max_pe_header_bytes limits
}.

(** The end of the headers and of every section with data. *)
Definition pe_end (image : list byte) : N :=
  fold_left N.max (map section_end (pe_sections image)) (pe_table_end image).

(** ** Reading them *)

Section view.
Context {S : Type} `{ImageSource S} (view : list byte) (size : N) `{!ViewOf S view size}.
Context (Hsize : size < 2 ^ 64).
Implicit Types s : S.

Lemma read_u16_run at_ s :
  wise_read_u16 at_ s =
  (s, if at_ + 2 <=? len view then Ok (u16_at at_ view) else Err (Fail WE_Truncated)).
Proof.
  unfold wise_read_u16, wise_read_exact, mbind, M_bind. rewrite view_read. cbn [fst snd].
  rewrite len_subslice_le. destruct (N.leb_spec (at_ + 2) (len view)).
  - rewrite N.min_l by lia. done.
  - rewrite (proj2 (N.eqb_neq _ 2)) by lia. done.
Qed.

Lemma read_u32_run at_ s :
  wise_read_u32 at_ s =
  (s, if at_ + 4 <=? len view then Ok (u32_at at_ view) else Err (Fail WE_Truncated)).
Proof.
  unfold wise_read_u32, wise_read_exact, mbind, M_bind. rewrite view_read. cbn [fst snd].
  rewrite len_subslice_le. destruct (N.leb_spec (at_ + 4) (len view)).
  - rewrite N.min_l by lia. done.
  - rewrite (proj2 (N.eqb_neq _ 4)) by lia. done.
Qed.

Lemma read_u16_seq {A} at_ (k : N → W S A) s s' a (P : Prop) :
  (P → at_ + 2 ≤ len view) → (at_ + 2 ≤ len view → k (u16_at at_ view) s = (s', Ok a) ↔ P) →
  (wise_read_u16 at_ ≫= k) s = (s', Ok a) ↔ P.
Proof.
  intros HP Hk. unfold mbind, M_bind. rewrite read_u16_run.
  destruct (N.leb_spec (at_ + 2) (len view)); [by apply Hk|].
  split; [discriminate|]. intros ?%HP. lia.
Qed.

Lemma read_u32_seq {A} at_ (k : N → W S A) s s' a (P : Prop) :
  (P → at_ + 4 ≤ len view) → (at_ + 4 ≤ len view → k (u32_at at_ view) s = (s', Ok a) ↔ P) →
  (wise_read_u32 at_ ≫= k) s = (s', Ok a) ↔ P.
Proof.
  intros HP Hk. unfold mbind, M_bind. rewrite read_u32_run.
  destruct (N.leb_spec (at_ + 4) (len view)); [by apply Hk|].
  split; [discriminate|]. intros ?%HP. lia.
Qed.

(** The section table is read up to the last field the loop looks at. *)
Lemma section_step_run index overlay_offset s s' r :
  index < pe_section_count view → pe_table_end view < 2 ^ 40 →
  section_step (pe_table_start view) size index overlay_offset s = (s', Ok r) ↔
  s' = s ∧ pe_table_start view + 40 * index + 24 ≤ len view ∧
  section_end (pe_section view index) ≤ size ∧
  r = N.max overlay_offset (section_end (pe_section view index)).
Proof.
  intros Hi Hend. assert (pe_table_start view + 40 * index + 40 ≤ 2 ^ 40) as Hin by (unfold pe_table_end in Hend; lia).
  unfold section_step, SECTION_HEADER_SIZE.
  rewrite (M_bind_step _ _ s s (index * 40)) by (apply bounded_mul; lia).
  rewrite (M_bind_step _ _ s s (pe_table_start view + index * 40)) by (apply bounded_add; lia).
  rewrite (N.mul_comm index 40).
  rewrite (M_bind_step _ _ s s (pe_table_start view + 40 * index + 16)) by (apply bounded_add; lia).
  apply read_u32_seq; [lia|intros Hr1].
  rewrite (M_bind_step _ _ s s (pe_table_start view + 40 * index + 20)) by (apply bounded_add; lia).
  apply read_u32_seq; [lia|intros Hr2].
  unfold section_end, pe_section. cbn [fst snd].
  pose proof (u32_at_lt (pe_table_start view + 40 * index + 16) view).
  pose proof (u32_at_lt (pe_table_start view + 40 * index + 20) view).
  destruct (_ || _).
  { rewrite N.max_l by lia. split; [intros [= <- <-]; repeat split; lia|intros (-> & _ & _ & ->); done]. }
  rewrite (M_bind_step _ _ s s (u32_at (pe_table_start view + 40 * index + 20) view +
    u32_at (pe_table_start view + 40 * index + 16) view)) by (apply bounded_add; lia).
  apply reject_seq; [rewrite N.ltb_lt; lia|rewrite N.ltb_ge; intros ?].
  split; [intros [= <- <-]; repeat split; lia|intros (-> & _ & _ & ->); done].
Qed.

Lemma section_loop_run indexes overlay_offset s s' end_ :
  Forall (λ i, i < pe_section_count view) indexes → pe_table_end view < 2 ^ 40 →
  section_loop (pe_table_start view) size indexes overlay_offset s = (s', Ok end_) ↔
  s' = s ∧ Forall (λ i, pe_table_start view + 40 * i + 24 ≤ len view) indexes ∧
  Forall (λ i, section_end (pe_section view i) ≤ size) indexes ∧
  end_ = fold_left N.max (map (λ i, section_end (pe_section view i)) indexes) overlay_offset.
Proof.
  intros Hi Hend. revert overlay_offset. induction indexes as [|i indexes IH]; intros o.
  { cbn. split; [intros [= <- <-]|intros (-> & _ & _ & ->)]; auto. }
  apply list.Forall_cons in Hi as [Hi Hr]. cbn [section_loop map fold_left].
  erewrite M_bind_look by (intros; by apply section_step_run). rewrite !list.Forall_cons.
  specialize (IH Hr). naive_solver.
Qed.

Definition located (limits : WiseLimits) (ov : Overlay) : Prop :=
  pe_headers limits view ∧ pe_table_end view ≤ size ∧ pe_table_end view ≤ len view + 16 ∧
  Forall (λ section, section_end section ≤ size) (pe_sections view) ∧
  pe_end view < size ∧
  ov = {| ov_offset := pe_end view; ov_len := size - pe_end view; ov_image_len := size |}.

Lemma located_bounds limits ov : located limits ov →
  let e := u32_at E_LFANEW_AT view in
  64 ≤ e ∧ e + 64 ≤ pe_table_end view ∧
  pe_table_end view ≤ wl_max_pe_header_bytes limits ∧ pe_table_end view ≤ size ∧
  pe_table_end view ≤ len view + 16.
Proof.
  intros ([_ ? _ ? ?] & ? & ? & _). unfold MIN_E_LFANEW in *. split; [done|]. split; [|done].
  unfold pe_table_end, pe_table_start in *. lia.
Qed.

Lemma pe_section_indexes :
  Forall (λ i, i < pe_section_count view)
    (map N.of_nat (seq 0 (N.to_nat (pe_section_count view)))).
Proof. apply list.Forall_forall. intros i (k & -> & Hk%elem_of_seq)%list_elem_of_fmap. lia. Qed.

Lemma section_reads : 0 < pe_section_count view →
  Forall (λ i, pe_table_start view + 40 * i + 24 ≤ len view)
    (map N.of_nat (seq 0 (N.to_nat (pe_section_count view)))) ↔
  pe_table_end view ≤ len view + 16.
Proof.
  intros Hn. unfold pe_table_end. rewrite list.Forall_forall. split.
  - intros Hi. specialize (Hi (pe_section_count view - 1)).
    assert (pe_table_start view + 40 * (pe_section_count view - 1) + 24 ≤ len view) as Hl.
    { apply Hi, list_elem_of_fmap. exists (N.to_nat (pe_section_count view - 1)).
      split; [lia|]. apply elem_of_seq. lia. }
    lia.
  - intros Hend i (k & -> & Hk%elem_of_seq)%list_elem_of_fmap. lia.
Qed.

Lemma section_ends :
  Forall (λ i, section_end (pe_section view i) ≤ size)
    (map N.of_nat (seq 0 (N.to_nat (pe_section_count view)))) ↔
  Forall (λ section, section_end section ≤ size) (pe_sections view).
Proof. unfold pe_sections. by rewrite !Forall_map. Qed.

Lemma pe_end_fold :
  fold_left N.max (map (λ i, section_end (pe_section view i))
    (map N.of_nat (seq 0 (N.to_nat (pe_section_count view))))) (pe_table_end view) = pe_end view.
Proof. unfold pe_end, pe_sections. by rewrite !map_map. Qed.

Lemma find_overlay_view limits s s' ov :
  find_overlay limits s = (s', Ok ov) ↔ s' = s ∧ located limits ov.
Proof.
  pose proof (view_size : len view ≤ size) as Hv. pose proof (u32_at_lt E_LFANEW_AT view) as He.
  pose proof (u16_at_lt (u32_at E_LFANEW_AT view + 6) view) as Hn.
  pose proof (u16_at_lt (u32_at E_LFANEW_AT view + 20) view) as Ho.
  unfold find_overlay. rewrite (M_bind_step _ _ s s size) by apply view_len.
  change (E_LFANEW_AT + 4) with 64.
  apply reject_seq; [rewrite N.ltb_lt; intros ? (_ & [[? ?]] & _); lia|rewrite N.ltb_ge; intros Hs64].
  apply read_u16_seq; [intros (_ & [[? ?]] & _); lia|intros Hr].
  apply reject_seq; [rewrite negb_true_iff, N.eqb_neq; intros ? (_ & [[? ?]] & _); lia|].
  rewrite negb_false_iff, N.eqb_eq. intros Hmagic.
  apply read_u32_seq; [intros (_ & [[? ?]] & _); change E_LFANEW_AT with 60; lia|intros Hr1].
  change E_LFANEW_AT with 60 in Hr1.
  pose proof (λ ov, located_bounds limits ov) as Hloc. set (e := u32_at E_LFANEW_AT view) in *.
  unfold MIN_E_LFANEW.
  apply reject_seq; [rewrite orb_true_iff, !N.ltb_lt; intros ? (_ & ?%Hloc); lia|].
  rewrite orb_false_iff, !N.ltb_ge. intros [He1 He2].
  apply reject_seq; [rewrite N.leb_le; intros ? (_ & ?%Hloc); lia|rewrite N.leb_gt; intros He3].
  apply read_u32_seq; [intros (_ & ?%Hloc); lia|intros Hr2].
  apply reject_seq; [rewrite negb_true_iff, N.eqb_neq; intros ? (_ & [] & _); done|].
  rewrite negb_false_iff, N.eqb_eq. intros Hsig.
  rewrite (M_bind_step _ _ s s (e + 4)) by (apply bounded_add; lia).
  rewrite (M_bind_step _ _ s s (e + 4 + 2)) by (apply bounded_add; lia).
  replace (e + 4 + 2) with (e + 6) by lia.
  apply read_u16_seq; [intros (_ & ?%Hloc); lia|intros Hr3].
  change (u16_at (e + 6) view) with (pe_section_count view) in *.
  apply reject_seq; [rewrite N.eqb_eq; intros ? (_ & [] & _); lia|rewrite N.eqb_neq; intros Hn0].
  apply reject_seq; [rewrite N.ltb_lt; intros ? (_ & [] & _); lia|rewrite N.ltb_ge; intros Hnmax].
  rewrite (M_bind_step _ _ s s (e + 4 + 16)) by (apply bounded_add; lia).
  replace (e + 4 + 16) with (e + 20) by lia.
  apply read_u16_seq; [intros (_ & ?%Hloc); lia|intros Hr4]. unfold COFF_HEADER_SIZE, SECTION_HEADER_SIZE.
  rewrite (M_bind_step _ _ s s (e + 4 + 20)) by (apply bounded_add; lia).
  rewrite (M_bind_step _ _ s s (pe_table_start view)).
  2:{ rewrite bounded_add by lia. unfold pe_table_start. fold e. do 2 f_equal. lia. }
  rewrite (M_bind_step _ _ s s (40 * pe_section_count view)) by (apply bounded_mul; lia).
  assert (pe_table_start view < 2 ^ 34) as Hts by (unfold pe_table_start; fold e; lia).
  assert (pe_table_end view < 2 ^ 40) as Hte by (unfold pe_table_end; lia).
  rewrite (M_bind_step _ _ s s (pe_table_end view)) by (apply bounded_add; lia).
  apply reject_seq; [rewrite N.ltb_lt; intros ? (_ & ?%Hloc); lia|rewrite N.ltb_ge; intros Hceil].
  apply reject_seq; [rewrite N.ltb_lt; intros ? (_ & ?%Hloc); lia|rewrite N.ltb_ge; intros Hins].
  assert (pe_headers limits view) as Hph by (split; [done|done|done|lia|done]).
  erewrite M_bind_look by (intros; apply section_loop_run; [apply pe_section_indexes|lia]).
  setoid_rewrite (section_reads ltac:(lia)). setoid_rewrite section_ends. setoid_rewrite pe_end_fold. split.
  - intros (o & (Hread & Hsec & ->) & [Hlt E]%reject_Ok). rewrite N.leb_gt in Hlt.
    rewrite (M_bind_step _ _ s s _ (bounded_sub _ _ _ (N.lt_le_incl _ _ Hlt))) in E.
    by injection E as <- <-.
  - intros (-> & _ & _ & Hread & Hsec & Hlt & ->). exists (pe_end view). split; [done|].
    apply reject_Ok. split; [by apply N.leb_gt|].
    by rewrite (M_bind_step _ _ s s _ (bounded_sub _ _ _ (N.lt_le_incl _ _ Hlt))).
Qed.
End view.

(** ** Properties *)

(** The overlay is found exactly if the image has acceptable headers whose
    section table and sections lie inside it and bytes follow them; it runs
    from the end of the last of these to the end of the image. *)
Theorem find_overlay_exact limits image ov :
  len image < 2 ^ 64 →
  find_overlay (H := image_slice image) limits tt = (tt, Ok ov) ↔
  pe_headers limits image ∧ pe_table_end image ≤ len image ∧
  Forall (λ section, section_end section ≤ len image) (pe_sections image) ∧
  pe_end image < len image ∧
  ov = {| ov_offset := pe_end image; ov_len := len image - pe_end image;
          ov_image_len := len image |}.
Proof.
  intros Hlen. rewrite (find_overlay_view image (len image) Hlen).
  split; [intros (_ & ? & ? & _ & ?); done|intros (Hph & Hte & Hrest)].
  refine (conj eq_refl (conj Hph (conj Hte (conj _ Hrest)))). lia.
Qed.

(** An offset the caller names is taken if a byte of the image is there. *)
Theorem overlay_at_exact image offset ov :
  len image < 2 ^ 64 →
  overlay_at (H := image_slice image) offset tt = (tt, Ok ov) ↔
  offset < len image ∧
  ov = {| ov_offset := offset; ov_len := len image - offset; ov_image_len := len image |}.
Proof.
  intros Hlen. unfold overlay_at. rewrite (M_bind_step _ _ tt tt (len image)) by done.
  rewrite reject_Ok, N.leb_gt. split.
  - intros [Hlt E]. rewrite (M_bind_step _ _ tt tt _ (bounded_sub _ _ _ (N.lt_le_incl _ _ Hlt))) in E.
    by injection E as <-.
  - intros [Hlt ->]. split; [done|].
    by rewrite (M_bind_step _ _ tt tt _ (bounded_sub _ _ _ (N.lt_le_incl _ _ Hlt))).
Qed.

(** An executable of one section and eight bytes behind it. *)
Definition sample_stub : list byte :=
  splice 0 (le_bytes 2 DOS_SIGNATURE)
    (splice E_LFANEW_AT (le_bytes 4 64)
      (splice 64 (le_bytes 4 PE_SIGNATURE)
        (splice 70 (le_bytes 2 1)
          (splice 104 (le_bytes 4 4)
            (splice 108 (le_bytes 4 128) (replicate 132 x00)))))) ++ replicate 8 x55.

Lemma find_overlay_exact_witness :
  find_overlay (H := image_slice sample_stub) wise_limits_default tt =
  (tt, Ok {| ov_offset := 132; ov_len := 8; ov_image_len := 140 |}).
Proof.
  apply (find_overlay_exact wise_limits_default sample_stub); [vm_compute; reflexivity|].
  split; [constructor|split; [|split; [|split]]].
  - by split; vm_compute.
  - by vm_compute.
  - by vm_compute.
  - by split; vm_compute.
  - by vm_compute.
  - by vm_compute.
  - vm_compute. by repeat constructor.
  - by vm_compute.
  - by vm_compute.
Defined.
