(* ===== verification/BackendWindow.v ===== *)
(** * The window over the pinned source

    [crates/ohl-parser-backends/src/window.rs]: a fixed buffer over a span of
    the source that answers a decoder's read or arms one bounded request for
    the parent. *)

From S2P Require Export WiseOverlay.

Definition DEFAULT_WINDOW_BYTES : N := 256 * 1024.
Definition MINIMUM_WINDOW_BYTES : N := 8 * 1024.

Record PendingRead : Type := { pr_offset : N; pr_length : N }.

#[export] Instance PendingRead_eq_dec : EqDecision PendingRead.
Proof. solve_decision. Defined.

Record WindowSource : Type := {
  ws_buffer : list byte;
  ws_base : N;
  ws_filled : N;
  ws_source_size : N;
  ws_pending : option PendingRead;
  ws_pinned : bool
}.

Definition window_new (source_size capacity : N) : WindowSource :=
  {| ws_buffer := replicate (N.to_nat (N.max capacity MINIMUM_WINDOW_BYTES)) x00;
     ws_base := 0; ws_filled := 0; ws_source_size := source_size;
     ws_pending := None; ws_pinned := false |}.

Definition window_capacity (self : WindowSource) : N := len (ws_buffer self).

Definition put_pending (pending : option PendingRead) (self : WindowSource) : WindowSource :=
  {| ws_buffer := ws_buffer self; ws_base := ws_base self; ws_filled := ws_filled self;
     ws_source_size := ws_source_size self; ws_pending := pending; ws_pinned := ws_pinned self |}.

Definition put_pinned (pinned : bool) (self : WindowSource) : WindowSource :=
  {| ws_buffer := ws_buffer self; ws_base := ws_base self; ws_filled := ws_filled self;
     ws_source_size := ws_source_size self; ws_pending := ws_pending self; ws_pinned := pinned |}.

Definition pin (self : WindowSource) : WindowSource := put_pinned true self.
Definition unpin (self : WindowSource) : WindowSource := put_pinned false self.

Definition buffered (self : WindowSource) : list byte :=
  take (N.to_nat (ws_filled self)) (ws_buffer self).

(** [miss]: the read is as wide as the window. *)
Definition miss (offset : N) (self : WindowSource) : WindowSource :=
  let capacity := len (ws_buffer self) in
  let available := ws_source_size self - offset in
  let length := N.min capacity available in
  put_pending (Some {| pr_offset := offset;
                       pr_length := default (2 ^ 32 - 1) (try_from 32 length) |}) self.

Definition ensure_at (offset : N) (self : WindowSource) : WindowSource * bool :=
  if (0 <? ws_filled self) && (ws_base self =? offset) then (self, true)
  else if ws_source_size self <=? offset then (self, true)
  else (miss offset self, false).

Definition take_pending (self : WindowSource) : WindowSource * option PendingRead :=
  (put_pending None self, ws_pending self).

Definition has_pending (self : WindowSource) : bool := bool_decide (is_Some (ws_pending self)).

Definition deliver (offset : N) (data : list byte) (self : WindowSource) : WindowSource * bool :=
  if (len data =? 0) || (len (ws_buffer self) <? len data) then (self, false)
  else
    ({| ws_buffer := splice 0 data (ws_buffer self);
        ws_base := offset; ws_filled := len data; ws_source_size := ws_source_size self;
        ws_pending := ws_pending self; ws_pinned := ws_pinned self |}, true).

(** How many buffered bytes start at [offset]. *)
Definition held_at (offset : N) (self : WindowSource) : N :=
  match checked_sub offset (ws_base self) with
  | Some start => if start <=? len (buffered self) then len (buffered self) - start else 0
  | None => 0
  end.

Definition window_read (offset wanted : N) : W WindowSource (list byte) := λ self,
  if wanted =? 0 then (self, Ok [])
  else
    let available := ws_source_size self - offset in
    if available =? 0 then (self, Ok [])
    else
      let wanted := N.min wanted available in
      let taken := N.min (held_at offset self) wanted in
      let short := (taken <? wanted) && (wanted <=? len (ws_buffer self)) in
      if ((taken =? 0) || short) && negb (ws_pinned self)
      then (miss offset self, Err (Fail WE_SourceFailed))
      else
        let from := offset - ws_base self in
        if len (ws_buffer self) <? from + taken then (self, Err Panic)
        else (self, Ok (subslice from taken (ws_buffer self))).

#[export] Instance window_image : ImageSource WindowSource := {|
  image_read_at := window_read;
  image_len self := (self, Ok (ws_source_size self))
|}.

(** ** What the window holds *)

(** The buffered bytes are bytes of [source] and the window knows its size. *)
Record window_of (source : list byte) (self : WindowSource) : Prop := {
  wo_size : ws_source_size self = len source;
  wo_fits : len source < 2 ^ 64;
  wo_filled : ws_filled self ≤ window_capacity self;
  wo_inside : ws_filled self = 0 ∨ ws_base self + ws_filled self ≤ len source;
  wo_bytes : buffered self = subslice (ws_base self) (ws_filled self) source;
  wo_capacity : MINIMUM_WINDOW_BYTES ≤ window_capacity self < 2 ^ 32
}.

(** The answer to a request: the bytes of the source it names. *)
Definition answer (source : list byte) (pending : PendingRead) : list byte :=
  subslice (pr_offset pending) (pr_length pending) source.

(** A request the parent can serve. *)
Record servable (source : list byte) (self : WindowSource) (pending : PendingRead) : Prop := {
  sv_length : 0 < pr_length pending ≤ window_capacity self;
  sv_inside : pr_offset pending + pr_length pending ≤ len source
}.

Lemma window_new_of source capacity :
  len source < 2 ^ 64 → capacity < 2 ^ 32 → window_of source (window_new (len source) capacity).
Proof.
  intros ??. split; unfold window_new, window_capacity, buffered; cbn; try done; [lia|by left|].
  unfold len. rewrite length_replicate, N2Nat.id. unfold MINIMUM_WINDOW_BYTES. lia.
Qed.

Lemma len_buffered source self : window_of source self → len (buffered self) = ws_filled self.
Proof. intros []. unfold buffered. by apply len_take_le. Qed.

Lemma miss_servable source self offset :
  window_of source self → offset < len source →
  ∃ pending, miss offset self = put_pending (Some pending) self ∧ pr_offset pending = offset ∧
    pr_length pending = N.min (window_capacity self) (len source - offset) ∧
    servable source self pending.
Proof.
  intros [Hs Hf _ _ _ [Hc Hc']] Hlt. unfold miss. unfold window_capacity in *. rewrite Hs.
  eexists. split; [done|]. cbn. split; [done|].
  assert (default (2 ^ 32 - 1) (try_from 32 (N.min (len (ws_buffer self)) (len source - offset))) =
    N.min (len (ws_buffer self)) (len source - offset)) as E.
  { unfold try_from. rewrite (proj2 (N.ltb_lt _ _)) by lia. done. }
  rewrite E. split; [done|]. unfold MINIMUM_WINDOW_BYTES in Hc. split; unfold window_capacity; cbn; lia.
Qed.

(** Delivering an answer moves the window there. *)
Lemma deliver_answer source self pending :
  window_of source self → servable source self pending →
  ∃ self', deliver (pr_offset pending) (answer source pending) self = (self', true) ∧
    window_of source self' ∧ ws_base self' = pr_offset pending ∧
    ws_filled self' = pr_length pending ∧ window_capacity self' = window_capacity self ∧
    ws_pinned self' = ws_pinned self ∧ ws_pending self' = ws_pending self.
Proof.
  intros [Hs Hf Hfi _ _ Hc] [Hl Hin].
  assert (len (answer source pending) = pr_length pending) as El by by apply len_subslice.
  assert (len (splice 0 (answer source pending) (ws_buffer self)) = window_capacity self) as Eb.
  { unfold len at 1. rewrite length_splice by (rewrite El; unfold window_capacity in *; lia). done. }
  unfold deliver. rewrite El.
  rewrite (proj2 (N.eqb_neq _ 0)), (proj2 (N.ltb_ge _ _)) by (unfold window_capacity in *; lia).
  eexists. split; [done|]. split; [|by repeat split]. split; try done.
  - unfold window_capacity in *. cbn [ws_filled ws_buffer]. lia.
  - right. done.
  - unfold buffered. cbn [ws_filled ws_buffer ws_base].
    replace (N.to_nat (pr_length pending)) with (length (answer source pending))
      by (rewrite <-len_to_nat, El; done).
    unfold splice. change (take (N.to_nat 0) (ws_buffer self)) with (@nil byte). cbn [app].
    by rewrite take_app_length.
  - unfold window_capacity in *. cbn [ws_buffer]. by rewrite Eb.
Qed.

(** What is held at an offset is the source from there. *)
Lemma held_bytes source self offset taken :
  window_of source self → taken ≤ held_at offset self → 0 < taken →
  ws_base self ≤ offset ∧ offset - ws_base self + taken ≤ ws_filled self ∧
  subslice (offset - ws_base self) taken (ws_buffer self) = subslice offset taken source.
Proof.
  intros Hw Ht Hpos. pose proof (len_buffered _ _ Hw) as Hl. destruct Hw as [Hs Hf Hfi Hin Hb Hc].
  unfold held_at in Ht. rewrite Hl in Ht.
  destruct (checked_sub offset (ws_base self)) as [start|] eqn:E; [|lia].
  apply checked_sub_Some in E as [Hle ->].
  destruct (N.leb_spec (offset - ws_base self) (ws_filled self)); [|lia].
  split; [done|]. split; [lia|].
  rewrite <-(subslice_take _ _ (N.to_nat (ws_filled self))) by lia. fold (buffered self).
  rewrite Hb, subslice_subslice by lia. f_equal. lia.
Qed.

(** A read through a window that may move. *)
Lemma window_read_cases source self offset wanted :
  window_of source self → ws_pinned self = false → wanted ≤ window_capacity self →
  window_read offset wanted self = (self, Ok (subslice offset wanted source)) ∨
  window_read offset wanted self = (miss offset self, Err (Fail WE_SourceFailed)) ∧
  offset < len source.
Proof.
  intros Hw Hp Hcap. unfold window_read. rewrite (wo_size _ _ Hw), Hp.
  destruct (N.eqb_spec wanted 0) as [->|]; [by left|].
  destruct (N.eqb_spec (len source - offset) 0) as [E|E].
  { left. by rewrite subslice_past by lia. }
  rewrite <-(subslice_min offset wanted). set (want := N.min wanted (len source - offset)).
  assert (0 < want ≤ window_capacity self) as [? Hwc] by lia. unfold window_capacity in *.
  rewrite (proj2 (N.leb_le want _)), andb_true_r by done.
  destruct (N.ltb_spec (N.min (held_at offset self) want) want).
  { right. rewrite orb_true_r. split; [done|lia]. }
  rewrite N.min_r by lia. rewrite (proj2 (N.eqb_neq want 0)) by lia. cbn [orb andb].
  destruct (held_bytes source self offset want Hw) as (? & ? & Eb); [lia..|].
  rewrite (proj2 (N.ltb_ge _ _)).
  - left. by rewrite Eb.
  - pose proof (wo_filled _ _ Hw). unfold window_capacity in *. lia.
Qed.

(** Whatever the window holds from the requested offset on, a read that fits it
    and starts where it starts is served. *)
Lemma window_read_at_base source self offset wanted :
  window_of source self → ws_base self = offset → wanted ≤ window_capacity self →
  ws_filled self = N.min (window_capacity self) (len source - offset) →
  window_read offset wanted self = (self, Ok (subslice offset wanted source)).
Proof.
  intros Hw Hbase Hcap Hfill. unfold window_read. rewrite (wo_size _ _ Hw).
  destruct (N.eqb_spec wanted 0) as [->|]; [done|].
  destruct (N.eqb_spec (len source - offset) 0) as [E|E].
  { by rewrite subslice_past by lia. }
  rewrite <-(subslice_min offset wanted). set (want := N.min wanted (len source - offset)).
  assert (held_at offset self = ws_filled self) as Eh.
  { unfold held_at, checked_sub. rewrite (len_buffered _ _ Hw), Hbase, N.leb_refl.
    rewrite (proj2 (N.leb_le _ _)) by lia. lia. }
  assert (want ≤ ws_filled self ∧ 0 < want) as [? ?] by lia.
  rewrite Eh, N.min_r by lia. rewrite N.ltb_irrefl, (proj2 (N.eqb_neq want 0)) by lia. cbn [orb andb].
  destruct (held_bytes source self offset want Hw) as (? & ? & Eb); [lia..|].
  pose proof (wo_filled _ _ Hw). unfold window_capacity in *.
  rewrite (proj2 (N.ltb_ge _ _)) by lia. by rewrite Eb.
Qed.

(** ** Properties *)

(** C11: A decoder's read no wider than the window, through a window that is not
    pinned, is exactly the read of the pinned source, once the one request it may
    arm is answered. It is served at once, or it arms a single request for a nonempty
    span inside the source no wider than the window, and after the bytes of
    that span are delivered the same call returns the source's bytes; a short
    answer means the end of the source. *)
Theorem window_read_exact source self offset wanted :
  window_of source self → ws_pinned self = false → wanted ≤ window_capacity self →
  window_read offset wanted self = (self, Ok (subslice offset wanted source)) ∨
  ∃ pending self',
    window_read offset wanted self =
      (put_pending (Some pending) self, Err (Fail WE_SourceFailed)) ∧
    pr_offset pending = offset ∧ servable source self pending ∧
    deliver offset (answer source pending) (take_pending (put_pending (Some pending) self)).1 =
      (self', true) ∧
    window_of source self' ∧ ws_pinned self' = false ∧
    window_read offset wanted self' = (self', Ok (subslice offset wanted source)).
Proof.
  intros Hw Hp Hcap. destruct (window_read_cases source self offset wanted Hw Hp Hcap) as [|[E Hlt]];
    [by left|right].
  destruct (miss_servable source self offset Hw Hlt) as (pending & Em & Ho & Hl & Hsv).
  rewrite Em in E. set (idle := (take_pending (put_pending (Some pending) self)).1).
  assert (window_of source idle) as Hidle by (destruct Hw; by split).
  destruct (deliver_answer source idle pending Hidle) as (self' & Ed & Hw' & Hb & Hf & Hc & Hp' & _).
  { by destruct Hsv. }
  exists pending, self'. rewrite <-Ho in *. split; [done|]. split; [done|]. split; [done|].
  split; [done|]. split; [done|]. split; [by rewrite Hp'|].
  apply window_read_at_base; [done|done|by rewrite Hc|]. by rewrite Hf, Hc, Hl.
Qed.

(** *** Witness *)

Definition sample_source : list byte := replicate (N.to_nat 20000) x2a.

Lemma window_read_exact_witness :
  window_read 12000 64 (window_new 20000 8192) =
    (window_new 20000 8192, Ok (subslice 12000 64 sample_source)) ∨
  ∃ pending self',
    window_read 12000 64 (window_new 20000 8192) =
      (put_pending (Some pending) (window_new 20000 8192), Err (Fail WE_SourceFailed)) ∧
    pr_offset pending = 12000 ∧ servable sample_source (window_new 20000 8192) pending ∧
    deliver 12000 (answer sample_source pending)
      (take_pending (put_pending (Some pending) (window_new 20000 8192))).1 = (self', true) ∧
    window_of sample_source self' ∧ ws_pinned self' = false ∧
    window_read 12000 64 self' = (self', Ok (subslice 12000 64 sample_source)).
Proof.
  apply (window_read_exact sample_source (window_new 20000 8192)).
  - change 20000 with (len sample_source). apply window_new_of; [vm_compute; reflexivity|lia].
  - reflexivity.
  - vm_compute. discriminate.
Defined.

(** ** The pinned window *)

(** A pinned window answers with what it holds, unless the read starts past its
    capacity: the slice index is then out of range. *)
Lemma window_read_pinned source self offset wanted :
  window_of source self → ws_pinned self = true → ws_base self ≤ offset →
  ws_filled self = N.min (window_capacity self) (len source - ws_base self) → 0 < wanted →
  window_read offset wanted self =
  (self, if (offset <? len source) && (window_capacity self <? offset - ws_base self)
         then Err Panic
         else Ok (subslice (offset - ws_base self) wanted (buffered self))).
Proof.
  intros Hw Hp Hle Hfill Hpos. unfold window_read. rewrite (wo_size _ _ Hw), Hp.
  rewrite (proj2 (N.eqb_neq wanted 0)) by lia.
  pose proof (len_buffered _ _ Hw) as Hl. pose proof (wo_filled _ _ Hw) as Hcap.
  destruct (N.eqb_spec (len source - offset) 0) as [E|E].
  { rewrite (proj2 (N.ltb_ge offset (len source))) by lia. cbn [andb].
    by rewrite subslice_past by lia. }
  rewrite (proj2 (N.ltb_lt offset (len source))) by lia. cbn [andb negb]. rewrite andb_false_r.
  assert (held_at offset self = ws_filled self - (offset - ws_base self)) as ->.
  { unfold held_at, checked_sub. rewrite Hl, (proj2 (N.leb_le (ws_base self) offset)) by done.
    destruct (N.leb_spec (offset - ws_base self) (ws_filled self)); lia. }
  unfold window_capacity in *. set (from := offset - ws_base self) in *.
  destruct (N.ltb_spec (len (ws_buffer self)) from).
  { rewrite (proj2 (N.ltb_lt _ _)) by lia. done. }
  rewrite (proj2 (N.ltb_ge _ _)) by lia. do 2 f_equal.
  rewrite <-(subslice_min from wanted (buffered self)), Hl. unfold buffered.
  assert (N.min (ws_filled self - from) (N.min wanted (len source - offset)) =
    N.min wanted (ws_filled self - from)) as -> by lia.
  destruct (N.le_ge_cases (ws_filled self) from).
  - replace (N.min wanted (ws_filled self - from)) with 0 by lia. done.
  - rewrite subslice_take by lia. done.
Qed.

(** The stage that finds the overlay runs over one pinned window at the start of
    the image. *)
Record overlay_stage (source : list byte) (self : WindowSource) : Prop := {
  os_window : window_of source self;
  os_pinned : ws_pinned self = true;
  os_base : ws_base self = 0;
  os_filled : ws_filled self = N.min (window_capacity self) (len source)
}.

(** C40: A pinned read past the window is documented to report the end of the
    source. It panics when it starts past the window's capacity, and the PE
    header walk makes such a read: every image with an [e_lfanew] beyond the
    window, inside the image and under the header ceiling (which is 64 windows)
    takes the worker down. *)
Theorem overlay_stage_panics limits source self :
  overlay_stage source self →
  u16_at 0 source = DOS_SIGNATURE →
  let e_lfanew := u32_at E_LFANEW_AT source in
  window_capacity self < e_lfanew → e_lfanew < len source →
  e_lfanew ≤ wl_max_pe_header_bytes limits →
  find_overlay limits self = (self, Err Panic).
Proof.
  intros [Hw Hp Hb Hf] Hmagic e Hcap Hin Hmax.
  pose proof (wo_capacity _ _ Hw) as [Hc _]. unfold MINIMUM_WINDOW_BYTES in Hc.
  assert (∀ at_ wanted, 0 < wanted → at_ + wanted ≤ window_capacity self →
    window_read at_ wanted self = (self, Ok (subslice at_ wanted source))) as Hread.
  { intros at_ wanted Hpos Hle. rewrite (window_read_pinned source) by (rewrite ?Hb, ?N.sub_0_r; done || lia).
    rewrite Hb, N.sub_0_r, (proj2 (N.ltb_ge (window_capacity self) at_)), andb_false_r by lia.
    do 2 f_equal. rewrite (wo_bytes _ _ Hw), Hb, Hf.
    by rewrite subslice_subslice by lia. }
  unfold find_overlay. rewrite (M_bind_step _ _ self self (len source)).
  2:{ cbn. by rewrite (wo_size _ _ Hw). }
  change (E_LFANEW_AT + 4) with 64. rewrite (proj2 (N.ltb_ge (len source) 64)) by lia.
  rewrite (M_bind_step (reject false _) _ self self tt) by done.
  rewrite (M_bind_step (wise_read_u16 0) _ self self (u16_at 0 source)).
  2:{ unfold wise_read_u16, wise_read_exact, mbind, M_bind. cbn [image_read_at window_image].
      rewrite Hread by lia. cbn [fst snd]. by rewrite len_subslice by lia. }
  rewrite Hmagic. rewrite (M_bind_step (reject _ _) _ self self tt) by done.
  rewrite (M_bind_step (wise_read_u32 E_LFANEW_AT) _ self self e).
  2:{ unfold wise_read_u32, wise_read_exact, mbind, M_bind. cbn [image_read_at window_image].
      change E_LFANEW_AT with 60. rewrite Hread by lia. cbn [fst snd]. by rewrite len_subslice by lia. }
  rewrite (proj2 (N.ltb_ge e MIN_E_LFANEW)), (proj2 (N.ltb_ge _ e)) by (unfold MIN_E_LFANEW; lia).
  rewrite (M_bind_step (reject _ _) _ self self tt) by done.
  rewrite (proj2 (N.leb_gt (len source) e)) by done.
  rewrite (M_bind_step (reject _ _) _ self self tt) by done.
  apply M_bind_fail. unfold wise_read_u32, wise_read_exact, mbind, M_bind.
  cbn [image_read_at window_image].
  rewrite (window_read_pinned source) by (rewrite ?Hb, ?N.sub_0_r; done || lia).
  by rewrite Hb, N.sub_0_r, (proj2 (N.ltb_lt e _)), (proj2 (N.ltb_lt _ e)) by done.
Qed.

(** A two-window image whose PE header is in the second window. *)
Definition far_header : list byte :=
  splice 0 (le_bytes 2 DOS_SIGNATURE) (splice E_LFANEW_AT (le_bytes 4 10000) (replicate (N.to_nat 12000) x00)).

Definition far_window : WindowSource :=
  {| ws_buffer := take (N.to_nat 8192) far_header; ws_base := 0; ws_filled := 8192;
     ws_source_size := 12000; ws_pending := None; ws_pinned := true |}.

Lemma overlay_stage_panics_witness :
  find_overlay wise_limits_default far_window = (far_window, Err Panic).
Proof.
  apply (overlay_stage_panics wise_limits_default far_header).
  - split; [split|..]; vm_compute; try reflexivity; try (right; discriminate); try discriminate.
    split; [discriminate|reflexivity].
  - vm_compute. reflexivity.
  - vm_compute. reflexivity.
  - vm_compute. reflexivity.
  - vm_compute. discriminate.
Defined.
