(* ===== verification/BackendSpelling.v ===== *)
(** * The spellings a worker offers

    [crates/ohl-parser-backends/src/spelling.rs]: which recorded names become
    entries of an enumeration, and the sorted set of keys that decides it. *)

From S2P Require Export EntryBatch PayloadLayout.

Definition MAXIMUM_SPELLING_BYTES : N := 4096.

Inductive SpellingRejection : Type := SR_Unusable | SR_Duplicate | SR_Alias.

#[export] Instance SpellingRejection_eq_dec : EqDecision SpellingRejection.
Proof. solve_decision. Defined.

(** [struct SpellingSet] is its sorted keys. *)
Definition SpellingSet : Type := list (list byte).

Definition spelling_set_new : SpellingSet := [].

(** ** [core::str::from_utf8]

    A well-formed sequence is of one to four bytes, the first giving the range
    of the second. *)
Definition in_range (b : byte) (lo hi : N) : bool := (lo <=? Byte.to_N b) && (Byte.to_N b <=? hi).

Definition utf8_continuation (b : byte) : bool := in_range b 0x80 0xbf.

Fixpoint is_utf8 (l : list byte) : bool :=
  match l with
  | [] => true
  | a :: l =>
      if Byte.to_N a <? 0x80 then is_utf8 l
      else
        match l with
        | [] => false
        | b :: l =>
            if in_range a 0xc2 0xdf then utf8_continuation b && is_utf8 l
            else
              match l with
              | [] => false
              | c :: l =>
                  if in_range a 0xe0 0xef then
                    in_range b (if Byte.to_N a =? 0xe0 then 0xa0 else 0x80)
                               (if Byte.to_N a =? 0xed then 0x9f else 0xbf) &&
                    utf8_continuation c && is_utf8 l
                  else
                    match l with
                    | [] => false
                    | d :: l =>
                        in_range a 0xf0 0xf4 &&
                        in_range b (if Byte.to_N a =? 0xf0 then 0x90 else 0x80)
                                   (if Byte.to_N a =? 0xf4 then 0x8f else 0xbf) &&
                        utf8_continuation c && utf8_continuation d && is_utf8 l
                    end
              end
        end
  end.

(** ** [slice::binary_search_by]

    [above held] is [Ordering::Greater]: the loop narrows [base], the first
    candidate, and [size], their number. *)
Fixpoint search_by {A} (fuel : nat) (above : A → bool) (l : list A) (base size : nat) : nat :=
  match fuel with
  | O => base
  | S fuel =>
      if (1 <? size)%nat then
        let half := (size / 2)%nat in
        let mid := (base + half)%nat in
        let base := match l !! mid with
                    | Some held => if above held then base else mid
                    | None => base
                    end in
        search_by fuel above l base (size - half)
      else base
  end.

(** [Ok] at an equal key, [Err] where it would be inserted. *)
Definition search_key (key : list byte) (keys : list (list byte)) : result nat nat :=
  let base := search_by (length keys) (string_ltb key) keys 0 (length keys) in
  match keys !! base with
  | None => Err base
  | Some held =>
      if bool_decide (held = key) then Ok base
      else Err (if string_ltb held key then S base else base)
  end.

(** ** [SpellingSet::accept] *)

Definition aliases (shorter longer : list byte) : bool :=
  (len shorter <? len longer) && bool_decide (take (length shorter) longer = shorter) &&
  match longer !! length shorter with Some b => Byte.eqb b slash | None => false end.

(** [Vec::insert]. *)
Definition insert_at {A} (at_ : nat) (x : A) (l : list A) : list A := take at_ l ++ x :: drop at_ l.

Definition accept (raw : list byte) : M SpellingSet SpellingRejection (list byte) :=
  lift (guard_err ((len raw =? 0) || (MAXIMUM_SPELLING_BYTES <? len raw)) SR_Unusable);;
  lift (guard_err (negb (is_utf8 raw)) SR_Unusable);;
  path ← lift (map_err (λ _, SR_Unusable) (payload_path_parse raw));
  lift (guard_err (MAXIMUM_SPELLING_BYTES <? len (pp_relative_path path)) SR_Unusable);;
  let key := pp_portability_key path in
  keys ← get;
  match search_key key keys with
  | Ok _ => throw SR_Duplicate
  | Err at_ =>
      let before := match at_ with O => None | S index => keys !! index end in
      let after := keys !! at_ in
      lift (guard_err (match before with Some held => aliases held key | None => false end ||
                       match after with Some held => aliases key held | None => false end) SR_Alias);;
      modify (insert_at at_ key);;
      mret (pp_relative_path path)
  end.

(** ** [unnamed_spelling] *)

(** [unnamed] and the slash behind it. *)
Definition UNNAMED_DIRECTORY : list byte := [x75; x6e; x6e; x61; x6d; x65; x64].

(** The digits of the loop, last digit first; a [u32] has at most ten. *)
Fixpoint digit_loop (fuel : nat) (value : N) : list byte :=
  match fuel with
  | O => []
  | S fuel =>
      byte_of_N (0x30 + value mod 10) ::
      (if value / 10 =? 0 then [] else digit_loop fuel (value / 10))
  end.

Definition unnamed_spelling (index : N) : list byte :=
  UNNAMED_DIRECTORY ++ slash :: reverse (digit_loop 10 index).

(** ** The search *)

Definition sorted (keys : list (list byte)) : Prop := Sorted.StronglySorted string_lt keys.

(** An index splits the keys at [key]. *)
Definition splits (key : list byte) (keys : list (list byte)) (i : nat) : Prop :=
  (i ≤ length keys)%nat ∧
  (∀ j held, keys !! j = Some held → (j < i)%nat → string_lt held key) ∧
  (∀ j held, keys !! j = Some held → (i ≤ j)%nat → string_lt key held).

Section search.
Context {A : Type} (above : A → bool) (l : list A).
Context (Hmono : ∀ i j x y, l !! i = Some x → l !! j = Some y → (i < j)%nat →
  above x = true → above y = true).

(** The candidate found: nothing behind it is at or below the sought key, and it
    is, unless it is the first element. *)
Lemma search_by_spec fuel base size :
  (0 < size)%nat → (size ≤ fuel)%nat → (base + size ≤ length l)%nat →
  (base = 0%nat ∨ ∃ x, l !! base = Some x ∧ above x = false) →
  (∀ j x, l !! j = Some x → (base + size ≤ j)%nat → above x = true) →
  let found := search_by fuel above l base size in
  (found < length l)%nat ∧ (found = 0%nat ∨ ∃ x, l !! found = Some x ∧ above x = false) ∧
  ∀ j x, l !! j = Some x → (found < j)%nat → above x = true.
Proof.
  revert base size; induction fuel as [|fuel IH]; intros base size Hpos Hf Hl Hbase Hup; [lia|].
  cbn [search_by]. destruct (Nat.ltb_spec 1 size) as [H1|H1].
  - pose proof (Nat.div_mod size 2 ltac:(lia)). pose proof (Nat.mod_upper_bound size 2 ltac:(lia)).
    set (half := (size / 2)%nat) in *.
    destruct (l !! (base + half)%nat) as [mid|] eqn:Hmid; [|apply lookup_ge_None in Hmid; lia].
    destruct (above mid) eqn:Eab.
    + apply IH; try lia; [done|]. intros j x Hj Hle.
      destruct (decide (j = base + half)%nat) as [->|]; [congruence|].
      apply (Hmono (base + half)%nat j mid x); [done|done|lia|done].
    + apply IH; try lia; [right; by eexists|]. intros j x Hj Hle. apply (Hup j x); [done|lia].
  - cbv zeta. split; [lia|]. split; [done|]. intros j x Hj Hlt. apply (Hup j x); [done|lia].
Qed.
End search.

Lemma search_key_spec key keys :
  sorted keys →
  match search_key key keys with
  | Ok i => keys !! i = Some key
  | Err i => (key ∉ keys) ∧ splits key keys i
  end.
Proof.
  intros Hs. unfold search_key. destruct keys as [|k0 rest] eqn:Ek.
  { cbn. split; [apply not_elem_of_nil|]. split; [done|]. by split; intros j held Hj; destruct j. }
  rewrite <-Ek in *. assert (0 < length keys)%nat as Hpos by (rewrite Ek; simpl; lia).
  assert (Hord : ∀ i j x y, keys !! i = Some x → keys !! j = Some y → (i < j)%nat → string_lt x y).
  { intros i j x y Hi Hj Hij. by apply (StronglySorted_nth string_lt keys i j). }
  destruct (search_by_spec (string_ltb key) keys) with (fuel := length keys) (base := 0%nat)
    (size := length keys) as (Hlt & Hbase & Hup); try lia.
  { intros i j x y Hi Hj Hij Hx. eapply string_lt_trans; [exact Hx|]. by apply (Hord i j). }
  { intros j x Hj%lookup_lt_Some. lia. }
  set (found := search_by _ _ _ _ _) in *.
  destruct (keys !! found) as [held|] eqn:Hheld;
    [|apply lookup_ge_None in Hheld; lia].
  case_bool_decide as Heq; [by rewrite Hheld, Heq|].
  assert (Hcmp : string_ltb held key = true ∨ found = 0%nat ∧ string_lt key held ∧ string_ltb held key = false).
  { destruct (string_ltb held key) eqn:E; [by left|right].
    destruct Hbase as [->|(x & Hx & Hab)]; [split; [done|]; split; [by apply string_lt_total|done]|].
    injection Hx as <-. exfalso. apply Heq.
    destruct (decide (held = key)); [done|]. apply string_lt_total in E; [|done].
    unfold string_lt in E. congruence. }
  assert (Hsplit : splits key keys (if string_ltb held key then S found else found)).
  { destruct Hcmp as [E|(E0 & E & ->)]; [rewrite E|].
    - split; [lia|]. split; intros j x Hj Hle; [|apply (Hup j x); [done|lia]].
      destruct (decide (j = found)) as [->|]; [congruence|]. eapply string_lt_trans; [|exact E].
      apply (Hord j found); [done|done|lia].
    - split; [lia|]. split; intros j x Hj Hle; [lia|].
      destruct (decide (j = found)) as [->|]; [congruence|]. apply (Hup j x); [done|lia]. }
  split; [|done]. intros (j & Hj)%list_elem_of_lookup_1. destruct Hsplit as (_ & Hlo & Hhi).
  destruct (decide (j < (if string_ltb held key then S found else found))%nat) as [Hj'|Hj'].
  - by apply (string_lt_irrefl key), (Hlo j).
  - apply (string_lt_irrefl key), (Hhi j); [done|lia].
Qed.

(** ** Insertion *)

Lemma insert_at_perm {A} i (x : A) l : insert_at i x l ≡ₚ x :: l.
Proof.
  unfold insert_at. rewrite <-Permutation_middle. by rewrite take_drop.
Qed.

Lemma lookup_insert_at {A} i (x : A) l j : (i ≤ length l)%nat →
  insert_at i x l !! j = if decide (j < i)%nat then l !! j
                         else if decide (j = i) then Some x else l !! pred j.
Proof.
  intros Hi. unfold insert_at. assert (length (take i l) = i) as Hl by (rewrite length_take; lia).
  destruct (decide (j < i)%nat).
  - rewrite lookup_app_l by lia. by apply lookup_take_lt.
  - rewrite lookup_app_r by lia. rewrite Hl. destruct (decide (j = i)) as [->|].
    + by rewrite Nat.sub_diag.
    + replace (j - i)%nat with (S (pred j - i)) by lia.
      change ((x :: drop i l) !! S (pred j - i)) with (drop i l !! (pred j - i)%nat).
      rewrite lookup_drop. f_equal. lia.
Qed.

Lemma insert_sorted key keys i : sorted keys → splits key keys i → sorted (insert_at i key keys).
Proof.
  intros Hs (Hi & Hlo & Hhi). unfold insert_at. revert i Hi Hlo Hhi.
  induction Hs as [|k keys Hs IH Hk]; intros i Hi Hlo Hhi.
  { rewrite take_nil, drop_nil. by repeat constructor. }
  destruct i as [|i].
  - cbn. constructor; [by constructor|]. apply List.Forall_forall. intros x Hx%list_elem_of_In.
    apply list_elem_of_lookup_1 in Hx as [j Hj]. apply (Hhi j); [done|lia].
  - cbn. constructor.
    + apply IH; [simpl in Hi; lia|..]; intros j x Hj Hle; [apply (Hlo (S j))|apply (Hhi (S j))]; cbn; auto; lia.
    + apply List.Forall_app. split; [by apply Forall_take|].
      constructor; [by apply (Hlo 0%nat); [|lia]|by apply Forall_drop].
Qed.

Lemma prefix_free_of_adjacent previous l :
  (∀ p x, previous = Some p → l !! 0%nat = Some x → is_below p x = false) →
  (∀ i a b, l !! i = Some a → l !! S i = Some b → is_below a b = false) →
  prefix_free previous l = Ok tt.
Proof.
  revert previous. induction l as [|x l IH]; intros previous Hp Ha; [done|]. cbn [prefix_free].
  destruct previous as [p|]; cbn.
  - rewrite (Hp p x) by done. apply IH; [|by intros i a b ??; apply (Ha (S i) a b)].
    intros q y [= <-] Hy. by apply (Ha 0%nat).
  - apply IH; [|by intros i a b ??; apply (Ha (S i) a b)]. intros q y [= <-] Hy. by apply (Ha 0%nat).
Qed.

Lemma aliases_is_below a b : aliases a b = is_below a b.
Proof.
  unfold aliases, is_below. f_equal. destruct (b !! length a) as [c|]; [|done].
  by destruct c; vm_compute.
Qed.

(** ** Accepting *)

(** What a set of accepted spellings keeps. *)
Record spelling_set (keys : list (list byte)) : Prop := {
  ss_sorted : sorted keys;
  ss_neighbours : prefix_free None keys = Ok tt
}.

(** The keys of one file and of something under it. *)
Definition conflict (a b : list byte) : Prop := is_below a b = true ∨ is_below b a = true.

Lemma insert_neighbours key keys i :
  prefix_free None keys = Ok tt → (i ≤ length keys)%nat →
  match i with O => True | S j => ∀ held, keys !! j = Some held → is_below held key = false end →
  (∀ held, keys !! i = Some held → is_below key held = false) →
  prefix_free None (insert_at i key keys) = Ok tt.
Proof.
  intros Hp Hi Hbefore Hafter. apply prefix_free_of_adjacent; [done|]. intros j a b.
  rewrite !lookup_insert_at by done. intros Ha Hb.
  destruct (decide (j < i)%nat), (decide (S j < i)%nat).
  - by apply (prefix_free_adjacent _ _ Hp a b j).
  - destruct (decide (S j = i)) as [<-|]; [|lia]. injection Hb as <-. by apply Hbefore.
  - lia.
  - destruct (decide (S j = i)); [lia|]. cbn in Hb. destruct (decide (j = i)) as [->|].
    + injection Ha as <-. by apply Hafter.
    + destruct j as [|j]; [lia|]. cbn in *. by apply (prefix_free_adjacent _ _ Hp a b j).
Qed.

(** Bytes of a path are separators or bytes of its components. *)
Lemma split_on_bytes p path b :
  b ∈ path → p b = true ∨ ∃ part, part ∈ split_on p path ∧ b ∈ part.
Proof.
  induction path as [|c path IH]; [by intros ?%elem_of_nil|]. intros Hb. cbn [split_on].
  destruct (split_on_cons p path) as (q & qs & E). rewrite E in *.
  apply elem_of_cons in Hb as [<-|Hb].
  - destruct (p b) eqn:Ep; [by left|right]. exists (b :: q). split; left.
  - destruct (IH Hb) as [|(part & Hpart & Hin)]; [by left|right].
    destruct (p c); [exists part; by split; [right|]|].
    apply elem_of_cons in Hpart as [->|Hpart].
    + exists (c :: q). split; [left|by right].
    + exists part. by split; [right|].
Qed.

Lemma is_utf8_ascii l : Forall (λ b, Byte.to_N b < 0x80) l → is_utf8 l = true.
Proof. induction 1 as [|b l Hb Hl IH]; [done|]. cbn [is_utf8]. by rewrite (proj2 (N.ltb_lt _ _)). Qed.

(** A name with a destination is printable. *)
Lemma payload_path_printable path p b :
  payload_path_parse path = Ok p → b ∈ path → 0x20 ≤ Byte.to_N b ≤ 0x7e.
Proof.
  intros (_ & _ & Hleg & _)%payload_path_parse_Ok [Hs|(part & Hpart & Hin)]%(split_on_bytes is_separator).
  - destruct b; try discriminate Hs; vm_compute; by split.
  - rewrite Forall_forall in Hleg. apply list_elem_of_In, Hleg in Hpart.
    by destruct (lc_bytes _ Hpart b Hin).
Qed.

Lemma usable raw p :
  payload_path_parse raw = Ok p →
  ((len raw =? 0) || (MAXIMUM_SPELLING_BYTES <? len raw)) = false ∧ is_utf8 raw = true ∧
  len (pp_relative_path p) = len raw.
Proof.
  intros Hp. pose proof (payload_path_printable raw p) as Hb.
  pose proof Hp as (Hl & _ & Hleg & ->)%payload_path_parse_Ok. split; [|split].
  - apply orb_false_iff. split; [|by apply N.ltb_ge]. apply N.eqb_neq. intros E%len_0_nil. by subst.
  - apply is_utf8_ascii, List.Forall_forall. intros b Hin%list_elem_of_In.
    destruct (Hb b Hp Hin). lia.
  - cbn. unfold len. by rewrite join_split_length.
Qed.

Lemma accept_run raw keys :
  spelling_set keys →
  accept raw keys =
  match payload_path_parse raw with
  | Err _ => (keys, Err SR_Unusable)
  | Ok p =>
      let key := pp_portability_key p in
      match search_key key keys with
      | Ok _ => (keys, Err SR_Duplicate)
      | Err i =>
          if (match i with O => false | S j => match keys !! j with Some held => is_below held key | None => false end end
              || match keys !! i with Some held => is_below key held | None => false end)
          then (keys, Err SR_Alias)
          else (insert_at i key keys, Ok (pp_relative_path p))
      end
  end.
Proof.
  intros Hs. unfold accept. destruct (payload_path_parse raw) as [p|e] eqn:Hp.
  - destruct (usable raw p Hp) as (Hl & Hu & Hr). rewrite Hl, Hu.
    apply orb_false_iff in Hl as [_ Hl]. unfold mbind, M_bind. cbn [guard_err lift map_err negb].
    rewrite Hr, Hl. cbn [guard_err lift get]. destruct (search_key _ keys) as [i|i]; [done|].
    destruct i as [|i]; cbn [lookup]; unfold lift; rewrite ?aliases_is_below.
    + destruct (keys !! 0%nat) as [held|]; cbn [orb]; [|done]. rewrite aliases_is_below.
      by destruct (is_below _ _).
    + destruct (keys !! i) as [held|]; rewrite ?aliases_is_below;
        destruct (keys !! S i) as [next|]; rewrite ?aliases_is_below; by destruct (_ || _).
  - unfold mbind, M_bind. destruct (_ || _); [done|]. cbn [guard_err lift].
    by destruct (is_utf8 raw).
Qed.

(** A name that is refused leaves the set as it is. *)
Lemma accept_Err raw keys keys' e : spelling_set keys → accept raw keys = (keys', Err e) → spelling_set keys'.
Proof.
  intros Hs. rewrite accept_run by done. destruct (payload_path_parse raw) as [p|e']; [|by intros [= <- _]].
  cbv zeta. destruct (search_key _ _); [by intros [= <- _]|]. destruct (_ || _); [by intros [= <- _]|done].
Qed.

(** A name that is accepted. *)
Lemma accept_Ok raw keys keys' spelling :
  spelling_set keys → accept raw keys = (keys', Ok spelling) → ∃ p,
    payload_path_parse raw = Ok p ∧ spelling = pp_relative_path p ∧
    (pp_portability_key p ∉ keys) ∧ keys' ≡ₚ pp_portability_key p :: keys ∧
    spelling_set keys' ∧ archive_spelling_new spelling = Ok spelling.
Proof.
  intros Hs. rewrite accept_run by done. destruct (payload_path_parse raw) as [p|e] eqn:Hp; [|done].
  cbv zeta. pose proof (search_key_spec (pp_portability_key p) keys (ss_sorted _ Hs)) as Hk.
  destruct (search_key _ keys) as [i|i]; [done|]. destruct Hk as [Hnew Hsplit].
  destruct (_ || _) eqn:Eal; [done|]. intros [= <- <-].
  apply orb_false_iff in Eal as [Ebefore Eafter]. exists p. split; [done|]. split; [done|].
  split; [done|]. split; [apply insert_at_perm|]. split.
  - split; [by apply insert_sorted; [apply Hs|]|]. apply insert_neighbours; [apply Hs|apply Hsplit|..].
    + destruct i as [|i]; [done|]. intros held Eh. by rewrite Eh in Ebefore.
    + intros held Eh. by rewrite Eh in Eafter.
  - apply archive_spelling_new_Ok. split; [|done]. pose proof (reparse_path _ _ Hp) as Hp'.
    destruct (usable _ _ Hp') as ([El0 Elm]%orb_false_iff & _ & _). split.
    + apply N.eqb_neq in El0. intros E. by rewrite E in El0.
    + split; [by apply N.ltb_ge in Elm|]. apply List.Forall_forall. intros b Hb%list_elem_of_In.
      by apply (payload_path_printable (pp_relative_path p) p).
Qed.

(** ** Properties *)

(** C32: What a name is offered as. A set of accepted keys refuses a name as
    unusable exactly if it has no destination, and as a duplicate exactly if
    another accepted name has its key; an alias is refused only if an accepted
    name really is its directory or under it. A name that is accepted is offered
    under its destination's spelling, which the wire accepts, its key is new and
    joins the set, and no two neighbours of the set conflict. *)
Theorem accept_exact raw keys :
  spelling_set keys →
  match accept raw keys with
  | (keys', Ok spelling) => ∃ p,
      payload_path_parse raw = Ok p ∧ spelling = pp_relative_path p ∧
      (pp_portability_key p ∉ keys) ∧ keys' ≡ₚ pp_portability_key p :: keys ∧
      spelling_set keys' ∧ archive_spelling_new spelling = Ok spelling
  | (keys', Err SR_Unusable) => keys' = keys ∧ ∀ p, payload_path_parse raw ≠ Ok p
  | (keys', Err SR_Duplicate) => keys' = keys ∧ ∃ p,
      payload_path_parse raw = Ok p ∧ pp_portability_key p ∈ keys
  | (keys', Err SR_Alias) => keys' = keys ∧ ∃ p held,
      payload_path_parse raw = Ok p ∧ (pp_portability_key p ∉ keys) ∧ held ∈ keys ∧ conflict held (pp_portability_key p)
  end.
Proof.
  intros Hs. destruct (accept raw keys) as [keys' [spelling|e]] eqn:E; [by apply accept_Ok|].
  rewrite accept_run in E by done. destruct (payload_path_parse raw) as [p|e'] eqn:Hp; [|by injection E as <- <-].
  cbv zeta in E. pose proof (search_key_spec (pp_portability_key p) keys (ss_sorted _ Hs)) as Hk.
  destruct (search_key _ keys) as [i|i].
  { injection E as <- <-. split; [done|]. exists p. split; [done|]. by eapply list_elem_of_lookup_2. }
  destruct (_ || _) eqn:Eal; [|done]. injection E as <- <-. split; [done|]. exists p.
  destruct Hk as [Hnew _]. apply orb_true_iff in Eal as [Eal|Eal].
  - destruct i as [|i]; [done|]. destruct (keys !! i) as [held|] eqn:Eh; [|done].
    exists held. split; [done|]. split; [done|]. split; [by eapply list_elem_of_lookup_2|by left].
  - destruct (keys !! i) as [held|] eqn:Eh; [|done].
    exists held. split; [done|]. split; [done|]. split; [by eapply list_elem_of_lookup_2|by right].
Qed.

(** What the neighbour check buys: an accepted file that is a directory of
    another has a third accepted name in between. *)
Theorem accepted_conflict keys a b :
  spelling_set keys → a ∈ keys → b ∈ keys → is_below a b = true →
  ∃ c m, a ++ c :: m ∈ keys ∧ Byte.to_N c < Byte.to_N slash.
Proof.
  intros [Hs Hp] Ha Hb [m ->]%is_below_spec.
  destruct (alias_between keys a m Hs Hp) as (c & m' & Hin & Hc); [by apply list_elem_of_In..|].
  exists c, m'. split; [by apply list_elem_of_In|done].
Qed.

(** Accepting one name after another. *)
Fixpoint accept_all (raws : list (list byte)) (keys : list (list byte))
  : list (list byte) * list (result SpellingRejection (list byte)) :=
  match raws with
  | [] => (keys, [])
  | raw :: raws =>
      let '(keys, r) := accept raw keys in
      let '(keys, rs) := accept_all raws keys in (keys, r :: rs)
  end.

(** The files [a], [a-b] and [a/c]. *)
Definition gap_names : list (list byte) := [[x61]; [x61; x2d; x62]; [x61; x2f; x63]].

Definition gap_entries : list PayloadEntryMetadata :=
  imap (λ token name, {| pm_source_token := N.of_nat token; pm_archive_path := name;
                         pm_size_bytes := 1 |}) gap_names.

(** The set exists so that no enumeration is lost to one alias. It looks at
    the neighbours of a new key only, and so offers a file [a] beside a file
    under [a/] when a third name sorts in between; the destination planner then
    refuses the whole enumeration for that very entry. *)
Example accept_misses_alias :
  (accept_all gap_names spelling_set_new).2 = Ok <$> gap_names ∧
  is_below [x61] [x61; x2f; x63] = true ∧
  plan_payload_layout gap_entries payload_import_limits_default =
    Err {| rj_error := PL_PathConflict; rj_entry_index := Some 2 |} ∧
  (accept_all [[x61]; [x61; x2f; x63]] spelling_set_new).2 = [Ok [x61]; Err SR_Alias].
Proof. split; [|split; [|split]]; vm_compute; reflexivity. Qed.

Lemma accept_exact_witness :
  match accept [x41; x5c; x62] [[x61; x2d]; [x63]] with
  | (keys', Ok spelling) => spelling = [x41; x2f; x62] ∧ keys' ≡ₚ [x61; x2f; x62] :: [[x61; x2d]; [x63]]
  | _ => False
  end.
Proof.
  assert (Hs : spelling_set [[x61; x2d]; [x63]]).
  { split; [|reflexivity]. repeat constructor. }
  pose proof (accept_exact [x41; x5c; x62] _ Hs) as H.
  destruct (accept _ _) as [keys' r] eqn:E. vm_compute in E. injection E as <- <-.
  destruct H as (p & Hp & _ & _ & Hperm & _). vm_compute in Hp. injection Hp as <-.
  split; [reflexivity|exact Hperm].
Defined.

(** ** Unnamed streams *)

(** The number a run of digits spells, last digit first. *)
Fixpoint digits_value (l : list byte) : N :=
  match l with [] => 0 | b :: l => (Byte.to_N b - 0x30) + 10 * digits_value l end.

Lemma digit_loop_value fuel v : v < 10 ^ N.of_nat fuel → digits_value (digit_loop fuel v) = v.
Proof.
  revert v; induction fuel as [|fuel IH]; intros v Hv; [cbn in *; lia|].
  rewrite Nat2N.inj_succ, N.pow_succ_r' in Hv. cbn [digit_loop digits_value].
  pose proof (N.mod_lt v 10 ltac:(lia)). rewrite byte_to_of_N, (N.mod_small (_ + _) 256) by lia.
  pose proof (N.div_mod v 10 ltac:(lia)) as Hdm.
  destruct (N.eqb_spec (v / 10) 0) as [E|E]; [cbn [digits_value]; lia|].
  rewrite IH.
  2:{ apply N.Div0.div_lt_upper_bound. lia. }
  revert H Hdm. generalize (v `div` 10), (v `mod` 10). intros q r ??. lia.
Qed.

Lemma digit_loop_digits fuel v : Forall (λ b, b ∈ digits) (digit_loop fuel v).
Proof.
  revert v; induction fuel as [|fuel IH]; intros v; [constructor|]. cbn [digit_loop]. constructor.
  - apply is_ascii_digit_spec. unfold is_ascii_digit.
    pose proof (N.mod_lt v 10 ltac:(lia)) as Hr. revert Hr. generalize (v `mod` 10). intros r Hr.
    rewrite byte_to_of_N, (N.mod_small (0x30 + r) 256) by lia.
    by rewrite (proj2 (N.leb_le 0x30 (0x30 + r))), (proj2 (N.leb_le (0x30 + r) 0x39)) by lia.
  - destruct (_ =? _); [constructor|apply IH].
Qed.

Lemma length_digit_loop fuel v : (length (digit_loop fuel v) ≤ fuel)%nat.
Proof.
  revert v; induction fuel as [|fuel IH]; intros v; [done|]. cbn [digit_loop length].
  destruct (_ =? _); [simpl; lia|]. specialize (IH (v / 10)). lia.
Qed.

Lemma device_not_digit name :
  name ∈ device_names → ∃ b rest, to_ascii_lowercase name = b :: rest ∧ is_ascii_digit b = false.
Proof.
  intros Hn. assert (forallb (λ name, match to_ascii_lowercase name with
    | b :: _ => negb (is_ascii_digit b) | [] => false end) device_names = true) as Hall by by vm_compute.
  rewrite forallb_forall in Hall. apply list_elem_of_In, Hall in Hn.
  destruct (to_ascii_lowercase name) as [|b rest]; [done|]. exists b, rest.
  by apply negb_true_iff in Hn.
Qed.

Lemma digits_legal d l :
  (length l ≤ 9)%nat → Forall (λ b, b ∈ digits) (d :: l) → legal_component (d :: l).
Proof.
  intros Hl Hd. assert (∀ b, b ∈ d :: l → is_ascii_digit b = true) as Hin.
  { intros b Hb. apply is_ascii_digit_spec. revert b Hb. by apply list.Forall_forall. }
  split; [done|unfold len; simpl; lia|..].
  - by split; intros E%last_Some_elem_of%Hin.
  - intros b Hb%Hin. by destruct b; try discriminate Hb; (split; [vm_compute; by split|]);
      apply (bool_decide_eq_false_1 (_ ∈ FORBIDDEN_BYTES)); vm_compute.
  - intros name Hn E. destruct (device_not_digit name Hn) as (b & rest & Eb & Hnd).
    assert (is_ascii_digit d = true) as Hdd by (apply Hin; left).
    assert (Byte.eqb dot d = false) as Hdot by by destruct d.
    unfold stem in E. cbn [split_on] in E. rewrite Hdot in E.
    destruct (split_on_cons (Byte.eqb dot) l) as (q & qs & Eq). rewrite Eq, Eb in E.
    cbn in E. injection E as E _. rewrite <-E in Hnd. by destruct d.
Qed.

(** The synthetic name of an unnamed stream is a legal destination in its
    reserved directory, spelled as it is and for every index, and two indexes
    never share a name. *)
Theorem unnamed_spelling_exact index :
  fits 32 index →
  (∃ digits, unnamed_spelling index = UNNAMED_DIRECTORY ++ slash :: digits ∧
     digits_value (reverse digits) = index) ∧
  payload_path_parse (unnamed_spelling index) =
    Ok {| pp_relative_path := unnamed_spelling index; pp_portability_key := unnamed_spelling index |} ∧
  ∀ index', fits 32 index' → unnamed_spelling index = unnamed_spelling index' → index = index'.
Proof.
  intros Hi. assert (∀ i, fits 32 i → digits_value (digit_loop 10 i) = i) as Hv.
  { intros i Hfit. apply digit_loop_value. eapply N.lt_trans; [exact Hfit|]. by vm_compute. }
  split; [|split].
  - eexists. split; [done|]. by rewrite reverse_involutive, Hv.
  - pose proof (digit_loop_digits 10 index) as Hd. pose proof (length_digit_loop 10 index) as Hl.
    rewrite <-list.Forall_reverse in Hd. rewrite <-length_reverse in Hl. unfold unnamed_spelling.
    destruct (reverse (digit_loop 10 index)) as [|d l] eqn:E.
    { apply (f_equal reverse) in E. by rewrite reverse_involutive in E. }
    assert (Hj : UNNAMED_DIRECTORY ++ slash :: d :: l = join [UNNAMED_DIRECTORY; d :: l]) by done.
    assert (Hclean : Forall (λ b, is_separator b = false) (d :: l)).
    { eapply List.Forall_impl; [|exact Hd]. cbn. intros b Hb%is_ascii_digit_spec. by destruct b. }
    apply payload_path_parse_Ok. rewrite Hj, split_join; [|done|done|].
    2:{ apply list.Forall_cons; split; [by repeat constructor|].
        apply list.Forall_cons; split; [exact Hclean|apply list.Forall_nil_2]. }
    simpl in Hl. split; [unfold len, MAXIMUM_PATH_BYTES; simpl; lia|]. split; [by vm_compute|]. split.
    + apply list.Forall_cons; split; [by apply validate_component_spec; vm_compute|].
      apply list.Forall_cons; split; [|constructor]. apply digits_legal; [lia|done].
    + assert (Hlow : to_ascii_lowercase (d :: l) = d :: l).
      { rewrite list.Forall_forall in Hd. clear -Hd. induction (d :: l) as [|b k IH]; [done|].
        change (lower_byte b :: to_ascii_lowercase k = b :: k). f_equal.
        - assert (is_ascii_digit b = true) by (apply is_ascii_digit_spec, Hd; left). by destruct b.
        - apply IH. intros x Hx. apply Hd. by right. }
      unfold path_of. rewrite <-Hj, to_ascii_lowercase_app.
      change (to_ascii_lowercase (slash :: d :: l)) with (slash :: to_ascii_lowercase (d :: l)).
      by rewrite Hlow.
  - intros index' Hi' E. apply app_inv_head, (f_equal tail) in E. cbn [tail] in E.
    apply (inj reverse) in E. by rewrite <-(Hv index Hi), E, Hv.
Qed.

Lemma unnamed_spelling_exact_witness :
  payload_path_parse (unnamed_spelling 1037) =
    Ok {| pp_relative_path := unnamed_spelling 1037; pp_portability_key := unnamed_spelling 1037 |} ∧
  unnamed_spelling 1037 = UNNAMED_DIRECTORY ++ [x2f; x31; x30; x33; x37].
Proof.
  split; [|vm_compute; reflexivity].
  exact (proj1 (proj2 (unnamed_spelling_exact 1037 (eq_refl : (1037 ?= 2 ^ 32) = Lt)))).
Defined.
