(* ===== verification/WiseStream.v ===== *)
(** * One compressed stream of a package

    [crates/ohl-wise/src/stream.rs]: a raw DEFLATE stream, inflated in bounded
    steps by the miniz_oxide crate (class [Inflater]) and confirmed by the
    checksum behind it. *)

From S2P Require Export Wise WiseCrc.

(** ** [miniz_oxide::inflate::stream] *)

Inductive InflateStatus : Type := IS_StreamEnd | IS_Ok | IS_Error.

(** [StreamResult]: the bytes it put at the front of the output buffer are
    [bytes_written] many. *)
Record InflateResult : Type := {
  ir_bytes_consumed : N;
  ir_output : list byte;
  ir_status : InflateStatus
}.

(** [InflateState::new_boxed], [reset] and [inflate(state, input, out, None)],
    the last argument here being the length of [out]. *)
Class Inflater (I : Type) : Type := {
  inflate_new : I;
  inflate_reset : I → I;
  inflate_step : I → list byte → N → I * InflateResult
}.

(** What the crate documents: a reset state is a new one, a step stays inside
    the two buffers it is given, and a step that is given bytes and room and
    does not fail makes progress. *)
Class InflaterLaws (I : Type) `{Inflater I} : Prop := {
  inflate_reset_new i : inflate_reset i = inflate_new;
  inflate_step_bounds i input out_len :
    let r := (inflate_step i input out_len).2 in
    ir_bytes_consumed r ≤ len input ∧ len (ir_output r) ≤ out_len;
  inflate_step_progress i input out_len :
    let r := (inflate_step i input out_len).2 in
    input ≠ [] → 0 < out_len → ir_status r = IS_Ok → ir_bytes_consumed r = 0 → ir_output r ≠ []
}.

(** ** Measurements *)

Inductive ChecksumStatus : Type := CS_Match | CS_Mismatch | CS_Absent.

#[export] Instance ChecksumStatus_eq_dec : EqDecision ChecksumStatus.
Proof. solve_decision. Defined.

Record StreamMetrics : Type := {
  sm_compressed_offset : N;
  sm_compressed_len : N;
  sm_inflated_len : N;
  sm_computed_crc32 : N;
  sm_stored_crc32 : N;
  sm_checksum : ChecksumStatus
}.

#[export] Instance StreamMetrics_eq_dec : EqDecision StreamMetrics.
Proof. solve_decision. Defined.

Definition is_match (self : ChecksumStatus) : bool :=
  match self with CS_Match => true | _ => false end.

Definition next_offset (self : StreamMetrics) : N :=
  let trailer := match sm_checksum self with CS_Absent => 0 | _ => 4 end in
  wrapping_add 64 (wrapping_add 64 (sm_compressed_offset self) (sm_compressed_len self)) trailer.

(** ** [StreamReader] *)

(** [sr_input] is the filled part of the staging buffer. *)
Record StreamReader (I : Type) : Type := {
  sr_state : I;
  sr_limits : WiseLimits;
  sr_start : N;
  sr_read_cursor : N;
  sr_input : list byte;
  sr_input_pos : N;
  sr_consumed : N;
  sr_inflated : N;
  sr_crc : Crc32;
  sr_finished : bool;
  sr_stalled : bool
}.
Arguments sr_state {I} _.
Arguments sr_limits {I} _.
Arguments sr_start {I} _.
Arguments sr_read_cursor {I} _.
Arguments sr_input {I} _.
Arguments sr_input_pos {I} _.
Arguments sr_consumed {I} _.
Arguments sr_inflated {I} _.
Arguments sr_crc {I} _.
Arguments sr_finished {I} _.
Arguments sr_stalled {I} _.

(** [own m r]: the reader is a local of the caller. *)
Definition own {R S A} (m : W (R * S) A) (r : R) : W S (R * A) := λ s,
  match m (r, s) with
  | ((r', s'), Ok a) => (s', Ok (r', a))
  | ((_, s'), Err e) => (s', Err e)
  end.

(** [trait Sink]. *)
Class Sink (K : Type) : Type := sink_write : list byte → K → K * result (Stop WiseError) unit.

(** [Discard] and [Vec<u8>]. *)
Definition discard_sink : Sink unit := λ chunk k, (k, Ok tt).
Definition vec_sink : Sink (list byte) := λ chunk k, (k ++ chunk, Ok tt).

Section reader.
Context {I : Type} `{Inflater I}.

Definition reader_new (offset : N) (limits : WiseLimits) : StreamReader I :=
  {| sr_state := inflate_new; sr_limits := limits; sr_start := offset; sr_read_cursor := offset;
     sr_input := []; sr_input_pos := 0; sr_consumed := 0; sr_inflated := 0; sr_crc := crc32_new;
     sr_finished := false; sr_stalled := false |}.

Definition restart (offset : N) (self : StreamReader I) : StreamReader I :=
  {| sr_state := inflate_reset (sr_state self); sr_limits := sr_limits self; sr_start := offset;
     sr_read_cursor := offset; sr_input := []; sr_input_pos := 0; sr_consumed := 0; sr_inflated := 0;
     sr_crc := crc32_new; sr_finished := false; sr_stalled := false |}.

Definition put_input (input : list byte) (pos : N) (self : StreamReader I) : StreamReader I :=
  {| sr_state := sr_state self; sr_limits := sr_limits self; sr_start := sr_start self;
     sr_read_cursor := sr_read_cursor self; sr_input := input; sr_input_pos := pos;
     sr_consumed := sr_consumed self; sr_inflated := sr_inflated self; sr_crc := sr_crc self;
     sr_finished := sr_finished self; sr_stalled := sr_stalled self |}.

Definition put_cursor (cursor : N) (self : StreamReader I) : StreamReader I :=
  {| sr_state := sr_state self; sr_limits := sr_limits self; sr_start := sr_start self;
     sr_read_cursor := cursor; sr_input := sr_input self; sr_input_pos := sr_input_pos self;
     sr_consumed := sr_consumed self; sr_inflated := sr_inflated self; sr_crc := sr_crc self;
     sr_finished := sr_finished self; sr_stalled := sr_stalled self |}.

Definition put_state (state : I) (self : StreamReader I) : StreamReader I :=
  {| sr_state := state; sr_limits := sr_limits self; sr_start := sr_start self;
     sr_read_cursor := sr_read_cursor self; sr_input := sr_input self;
     sr_input_pos := sr_input_pos self; sr_consumed := sr_consumed self;
     sr_inflated := sr_inflated self; sr_crc := sr_crc self; sr_finished := sr_finished self;
     sr_stalled := sr_stalled self |}.

Definition put_counts (consumed inflated : N) (crc : Crc32) (self : StreamReader I) : StreamReader I :=
  {| sr_state := sr_state self; sr_limits := sr_limits self; sr_start := sr_start self;
     sr_read_cursor := sr_read_cursor self; sr_input := sr_input self;
     sr_input_pos := sr_input_pos self; sr_consumed := consumed; sr_inflated := inflated;
     sr_crc := crc; sr_finished := sr_finished self; sr_stalled := sr_stalled self |}.

Definition put_flags (finished stalled : bool) (self : StreamReader I) : StreamReader I :=
  {| sr_state := sr_state self; sr_limits := sr_limits self; sr_start := sr_start self;
     sr_read_cursor := sr_read_cursor self; sr_input := sr_input self;
     sr_input_pos := sr_input_pos self; sr_consumed := sr_consumed self;
     sr_inflated := sr_inflated self; sr_crc := sr_crc self; sr_finished := finished;
     sr_stalled := stalled |}.

(** What a turn does with the decoder's answer: [inl] is another turn. *)
Definition absorb_result (out_len : N) (result : InflateResult)
  : W (StreamReader I) (unit + list byte) :=
  self ← get;
  input_pos ← lift (ok_or (checked_add 64 (sr_input_pos self) (ir_bytes_consumed result))
                      (Fail WE_DecompressionFailed));
  modify (λ self, put_input (sr_input self) input_pos self);;
  consumed ← bounded (checked_add_bounded 64 (sr_consumed self) (ir_bytes_consumed result));
  modify (λ self, put_counts consumed (sr_inflated self) (sr_crc self) self);;
  reject (wl_max_compressed_bytes_per_stream (sr_limits self) <? consumed)
    (WE_LimitExceeded WL_CompressedBytesPerStream);;
  let written := len (ir_output result) in
  reject (out_len <? written) WE_DecompressionFailed;;
  inflated ← bounded (checked_add_bounded 64 (sr_inflated self) written);
  modify (λ self, put_counts consumed inflated (sr_crc self) self);;
  reject (wl_max_inflated_bytes_per_stream (sr_limits self) <? inflated)
    (WE_LimitExceeded WL_InflatedBytesPerStream);;
  modify (λ self, put_counts consumed inflated (crc32_update (sr_crc self) (ir_output result)) self);;
  match ir_status result with
  | IS_StreamEnd =>
      modify (λ self, put_flags true (sr_stalled self) self);;
      mret (inr (ir_output result))
  | IS_Error => fail WE_DecompressionFailed
  | IS_Ok =>
      if 0 <? written then mret (inr (ir_output result))
      else if ir_bytes_consumed result =? 0 then
        if sr_stalled self then fail WE_DecompressionFailed
        else
          modify (λ self, put_flags (sr_finished self) true
                            (put_input (sr_input self) (len (sr_input self)) self));;
          mret (inl tt)
      else
        modify (λ self, put_flags (sr_finished self) false self);;
        mret (inl tt)
  end.

(** The rest of a turn, some input being staged. *)
Definition inflate_turn (out_len : N) : W (StreamReader I) (unit + list byte) :=
  self ← get;
  if len (sr_input self) <? sr_input_pos self then throw Panic
  else
    let available := drop (N.to_nat (sr_input_pos self)) (sr_input self) in
    let '(state, result) := inflate_step (sr_state self) available out_len in
    modify (put_state state);;
    absorb_result out_len result.

Context {S : Type} `{ImageSource S} `{WiseCancellation S}.

(** A method of the reader, and of the source it is handed. *)
Definition on_reader {A} (m : W (StreamReader I) A) : W (StreamReader I * S) A :=
  zoom fst (λ r s, (r, s.2)) m.
Definition on_source {A} (m : W S A) : W (StreamReader I * S) A :=
  zoom snd (λ t s, (s.1, t)) m.

Definition poll_cancelled : W S unit := λ s,
  let '(s, cancelled) := wise_is_cancelled s in
  (s, if cancelled : bool then Err (Fail WE_Cancelled) else Ok tt).

Definition refill : W (StreamReader I * S) bool :=
  self ← get;
  read ← on_source (image_read_at (sr_read_cursor self.1) (wise_chunk_bytes (sr_limits self.1)));
  on_reader (modify (put_input read 0));;
  if len read =? 0 then mret false
  else
    cursor ← bounded (checked_add_bounded 64 (sr_read_cursor self.1) (len read));
    on_reader (modify (put_cursor cursor));;
    mret true.

Definition read_turn (out_len : N) (_ : unit) : W (StreamReader I * S) (unit + list byte) :=
  on_source poll_cancelled;;
  self ← get;
  (if sr_input_pos self.1 =? len (sr_input self.1) then
     more ← refill;
     reject (negb more) WE_Truncated
   else mret tt);;
  on_reader (inflate_turn out_len).

(** [StreamReader::read], [out_len] being the length of the caller's buffer. *)
Definition stream_read (out_len : N) : W (StreamReader I * S) (list byte) :=
  self ← get;
  if sr_finished self.1 || (out_len =? 0) then mret []
  else loop_W (read_turn out_len) tt.

(** [StreamReader::finish]. *)
Definition stream_finish : W (StreamReader I * S) StreamMetrics :=
  self ← get;
  let self := self.1 in
  reject (negb (sr_finished self)) WE_Truncated;;
  trailer_at ← bounded (checked_add_bounded 64 (sr_start self) (sr_consumed self));
  trailer ← on_source (image_read_at trailer_at 4);
  let computed := crc32_finish (sr_crc self) in
  let '(stored, checksum) :=
    if len trailer =? 4 then
      let stored := of_le_bytes trailer in
      (stored, if stored =? computed then CS_Match else CS_Mismatch)
    else (0, CS_Absent) in
  mret {| sm_compressed_offset := sr_start self; sm_compressed_len := sr_consumed self;
          sm_inflated_len := sr_inflated self; sm_computed_crc32 := computed;
          sm_stored_crc32 := stored; sm_checksum := checksum |}.

Context {K : Type} `{Sink K}.

(** One turn of [inflate_stream]'s loop; it leaves with the reader. *)
Definition inflate_stream_turn (limits : WiseLimits) (reader : StreamReader I)
  : W (S * K) (StreamReader I + StreamReader I) :=
  '(reader, written) ← zoom fst (λ t s, (t, s.2))
                         (own (stream_read (wise_chunk_bytes limits)) reader);
  (if 0 <? len written then zoom snd (λ k s, (s.1, k)) (sink_write written) else mret tt);;
  mret (if sr_finished reader || (len written =? 0) then inr reader else inl reader).

Definition inflate_stream (offset : N) (limits : WiseLimits) : W (S * K) StreamMetrics :=
  reader ← loop_W (inflate_stream_turn limits) (reader_new offset limits);
  '(_, metrics) ← zoom fst (λ t s, (t, s.2)) (own stream_finish reader);
  mret metrics.
End reader.
