(* ===== verification/WiseInflate.v ===== *)
(** * What a stream reader delivers

    The reader of [WiseStream.v] over a source that serves the bytes of an
    image: every call ends, and what it hands out is the decoding of exactly the
    bytes it consumed, measured and confirmed. *)

From S2P Require Export WiseStream.

(** ** Decoding *)

Section decoding.
Context {I : Type} `{Inflater I}.

(** A run of the decompressor from its start: it consumed [fed], produced [out]
    and is in state [i]; the flag says that the last step reported the end. *)
Inductive decoding : list byte → list byte → I → bool → Prop :=
| decoding_new : decoding [] [] inflate_new false
| decoding_step fed out i input out_len i' r :
    decoding fed out i false →
    inflate_step i input out_len = (i', r) →
    ir_status r ≠ IS_Error →
    decoding (fed ++ take (N.to_nat (ir_bytes_consumed r)) input) (out ++ ir_output r) i'
      (match ir_status r with IS_StreamEnd => true | _ => false end).

(** [fed] is a whole stream and [out] what it holds. *)
Definition decoded (fed out : list byte) : Prop := ∃ i, decoding fed out i true.
End decoding.

(** ** Sources that serve an image *)

(** A read of at most [cap] bytes at an offset within [Reach] returns exactly the
    image's, or fails and may be tried again, if [Miss] allows for that; [Good]
    is what the source keeps. *)
Class Serves (S : Type) `{ImageSource S} (image : list byte) (cap : N) (Reach : N → Prop)
    (Good : S → Prop) (Miss : Prop) : Prop := {
  serves_read offset wanted s : Good s → Reach offset → wanted ≤ cap → ∃ s', Good s' ∧
    (image_read_at offset wanted s = (s', Ok (subslice offset wanted image)) ∨
     Miss ∧ image_read_at offset wanted s = (s', Err (Fail WE_SourceFailed)));
  serves_fits : len image < 2 ^ 64
}.

(** A token that never fires. *)
Class WiseNever (S : Type) `{WiseCancellation S} : Prop :=
  wise_never s : wise_is_cancelled s = (s, false).

#[export] Instance wise_never_never S : @WiseNever S (wise_never_cancelled S).
Proof. by intros s. Qed.

Lemma image_slice_serves image :
  len image < 2 ^ 64 → @Serves unit (image_slice image) image (2 ^ 64) (λ _, True) (λ _, True) False.
Proof. intros Hl. split; [|done]. intros offset wanted s _ _ _. exists s. auto. Qed.

(** Ceilings that are 64-bit values. *)
Record limits_fit (limits : WiseLimits) : Prop := {
  lf_compressed : wl_max_compressed_bytes_per_stream limits < 2 ^ 64;
  lf_inflated : wl_max_inflated_bytes_per_stream limits < 2 ^ 64;
  lf_chunk : wl_max_chunk_bytes limits < 2 ^ 63
}.

Section reader.
Context {I : Type} `{InflaterLaws I} {S : Type} `{ImageSource S} `{!WiseCancellation S, !WiseNever S}.
Context (image : list byte) (cap : N) (Reach : N → Prop) (Good : S → Prop) (Miss : Prop)
  `{!Serves S image cap Reach Good Miss}.

(** Reader [r] at [start] of the image has handed out [out]. *)
Record reader_at (start : N) (limits : WiseLimits) (out : list byte) (r : StreamReader I) : Prop := {
  ra_limits : sr_limits r = limits;
  ra_start : sr_start r = start;
  ra_fit : limits_fit limits;
  ra_chunk : wise_chunk_bytes limits ≤ cap;
  ra_reach o : start ≤ o → o ≤ N.max start (len image) → Reach o;
  ra_pos : sr_input_pos r ≤ len (sr_input r);
  ra_input : drop (N.to_nat (sr_input_pos r)) (sr_input r) =
    subslice (start + sr_consumed r) (len (sr_input r) - sr_input_pos r) image;
  ra_buffer : len (sr_input r) ≤ wise_chunk_bytes limits;
  ra_cursor : sr_read_cursor r = start + sr_consumed r + (len (sr_input r) - sr_input_pos r);
  ra_inside : sr_read_cursor r ≤ N.max start (len image);
  ra_decoding : decoding (subslice start (sr_consumed r) image) out (sr_state r) (sr_finished r);
  ra_consumed : sr_consumed r ≤ wl_max_compressed_bytes_per_stream limits;
  ra_inflated : sr_inflated r = len out ∧ len out ≤ wl_max_inflated_bytes_per_stream limits;
  ra_crc : sr_crc r = crc32_update crc32_new out;
  ra_stalled : sr_stalled r = false
}.

Lemma ok_or_Err {E A} (o : option A) (e e' : E) : ok_or o e = Err e' → e' = e.
Proof. destruct o; [done|]. by intros [= ->]. Qed.

(** An error a caller sees and that is not a failed read. *)
Definition refused (e : Stop WiseError) : Prop := ∃ error, e = Fail error ∧ error ≠ WE_SourceFailed.

Lemma wp_reject {T} (c : bool) error (Q : unit → T → Prop) (R : Stop WiseError → T → Prop) t :
  (c = true → R (Fail error) t) → (c = false → Q tt t) → wp (reject c error) Q R t.
Proof. intros Ht Hf. destruct c; [exact (Ht eq_refl)|exact (Hf eq_refl)]. Qed.

Lemma wp_bounded_add {T} a b (Q : N → T → Prop) (R : Stop WiseError → T → Prop) t :
  (a + b < 2 ^ 64 → Q (a + b) t) → R (Fail WE_MalformedExecutable) t →
  wp (bounded (checked_add_bounded 64 a b)) Q R t.
Proof.
  intros HQ HR. unfold wp, bounded, lift, checked_add_bounded, checked_add.
  destruct (N.ltb_spec (a + b) (2 ^ 64)); [by apply HQ|exact HR].
Qed.

Lemma wp_bounded_fit {T} a b (Q : N → T → Prop) (R : Stop WiseError → T → Prop) t :
  a + b < 2 ^ 64 → Q (a + b) t → wp (bounded (checked_add_bounded 64 a b)) Q R t.
Proof. intros Hf HQ. unfold wp. by rewrite bounded_add. Qed.

(** The reader after a step of the decompressor that did not fail. *)
Definition stepped (i' : I) (result : InflateResult) (r : StreamReader I) : StreamReader I :=
  put_flags (match ir_status result with IS_StreamEnd => true | _ => false end) false
    (put_counts (sr_consumed r + ir_bytes_consumed result) (sr_inflated r + len (ir_output result))
       (crc32_update (sr_crc r) (ir_output result))
       (put_input (sr_input r) (sr_input_pos r + ir_bytes_consumed result) (put_state i' r))).

Lemma stepped_at start limits out r i' result out_len :
  reader_at start limits out r → sr_finished r = false →
  inflate_step (sr_state r) (drop (N.to_nat (sr_input_pos r)) (sr_input r)) out_len = (i', result) →
  ir_status result ≠ IS_Error →
  sr_consumed r + ir_bytes_consumed result ≤ wl_max_compressed_bytes_per_stream limits →
  sr_inflated r + len (ir_output result) ≤ wl_max_inflated_bytes_per_stream limits →
  reader_at start limits (out ++ ir_output result) (stepped i' result r).
Proof.
  intros Hr Hfin E Hst Hcmax Himax. pose proof (inflate_step_bounds (sr_state r)
    (drop (N.to_nat (sr_input_pos r)) (sr_input r)) out_len) as [Hc _]. rewrite E in Hc. cbn [snd] in Hc.
  destruct Hr as [Hl Hs Hf Hch Hre Hp Hin Hb Hcur Hins Hd Hcons [Hinf Hinf'] Hcrc Hsta].
  assert (ir_bytes_consumed result ≤ len (sr_input r) - sr_input_pos r) as Hc'.
  { etrans; [exact Hc|]. unfold len at 1. rewrite length_drop. unfold len. lia. }
  split; cbn [stepped put_flags put_counts put_input put_state sr_limits sr_start sr_input_pos sr_input
    sr_consumed sr_read_cursor sr_state sr_finished sr_inflated sr_crc sr_stalled]; try done; try lia.
  - rewrite N2Nat.inj_add, <-drop_drop, Hin, drop_subslice by done. f_equal; lia.
  - rewrite <-subslice_app, <-(take_subslice (start + sr_consumed r) (len (sr_input r) - sr_input_pos r)), <-Hin by done.
    eapply decoding_step; [|exact E|done]. by rewrite <-Hfin.
  - rewrite len_app. lia.
  - by rewrite Hcrc, crc32_update_app.
Qed.

Lemma inflate_turn_wp start limits out r out_len :
  reader_at start limits out r → sr_finished r = false → 0 < out_len →
  sr_input_pos r < len (sr_input r) →
  wp (inflate_turn out_len)
    (λ res r', match res with
       | inl _ => reader_at start limits out r' ∧ sr_finished r' = false ∧
                  sr_consumed r < sr_consumed r'
       | inr l => reader_at start limits (out ++ l) r' ∧ len l ≤ out_len ∧
                  (l ≠ [] ∨ sr_finished r' = true)
       end)
    (λ e _, refused e) r.
Proof.
  intros Hr Hfin Hout Hpos. unfold inflate_turn. wp_step. wp_step.
  rewrite (proj2 (N.ltb_ge _ _)) by lia.
  set (available := drop _ _). destruct (inflate_step (sr_state r) available out_len) as [i' result] eqn:E.
  pose proof (inflate_step_bounds (sr_state r) available out_len) as [Hc Ho]. rewrite E in Hc, Ho.
  pose proof (inflate_step_progress (sr_state r) available out_len) as Hprog. rewrite E in Hprog.
  pose proof (stepped_at start limits out r i' result out_len Hr Hfin E) as Hat.
  pose proof Hr as [Hl Hs Hf Hch Hre Hp Hin Hb Hcur Hins Hd Hcons [Hinf Hinf'] Hcrc Hsta].
  assert (len available = len (sr_input r) - sr_input_pos r) as Hla.
  { unfold available, len. rewrite length_drop. lia. }
  assert (refused (Fail WE_MalformedExecutable)) as Hmal by by eexists.
  assert (∀ l, refused (Fail (WE_LimitExceeded l))) as Hlim by by eexists.
  assert (refused (Fail WE_DecompressionFailed)) as Hdec by by eexists.
  cbn [snd] in *. do 2 wp_step. unfold absorb_result. do 2 wp_step. wp_step.
  apply wp_lift; [|by intros e ->%ok_or_Err].
  intros pos' [Hfit ->]%ok_or_Ok%checked_add_Some. do 2 wp_step. wp_step. apply wp_bounded_add; [|done].
  intros _. do 2 wp_step. wp_step. apply wp_reject; [done|]. intros Hcm%N.ltb_ge.
  wp_step. apply wp_reject; [done|]. intros _.
  wp_step. apply wp_bounded_add; [|done]. intros _. do 2 wp_step. wp_step. apply wp_reject; [done|].
  intros Him%N.ltb_ge. do 2 wp_step.
  cbn [put_input put_state put_counts sr_limits sr_inflated sr_consumed sr_input sr_stalled sr_finished] in *.
  rewrite Hl in *. rewrite Hsta. destruct (ir_status result) eqn:Est.
  - do 2 wp_step. wp_step. split; [|split; [done|by right]].
    refine (eq_ind _ (reader_at start limits (out ++ ir_output result)) (Hat _ Hcm Him) _ _); [done|].
    unfold stepped, put_flags, put_counts, put_input, put_state. cbn. by rewrite Est, Hsta, Hl.
  - assert (reader_at start limits (out ++ ir_output result)
      (put_counts (sr_consumed r + ir_bytes_consumed result) (sr_inflated r + len (ir_output result))
        (crc32_update (sr_crc r) (ir_output result))
        (put_input (sr_input r) (sr_input_pos r + ir_bytes_consumed result) (put_state i' r)))) as Hat'.
    { refine (eq_ind _ (reader_at start limits (out ++ ir_output result)) (Hat _ Hcm Him) _ _); [done|].
      unfold stepped, put_flags, put_counts, put_input, put_state. cbn. by rewrite Est, Hsta, Hl, Hfin. }
    destruct (N.ltb_spec 0 (len (ir_output result))) as [Hw|Hw].
    + wp_step. split; [exact Hat'|]. split; [done|]. left. intros En. by rewrite En in Hw.
    + assert (ir_output result = []) as En by (apply len_0_nil; lia).
      destruct (N.eqb_spec (ir_bytes_consumed result) 0) as [E0|E0].
      { exfalso. apply Hprog; try done. intros Ea. rewrite Ea in Hla. change (len []) with 0 in Hla. lia. }
      do 2 wp_step. wp_step. rewrite En, app_nil_r in Hat'. split; [|split; [exact Hfin|cbn; lia]].
      refine (eq_ind _ (reader_at start limits out) Hat' _ _).
      unfold put_flags, put_counts, put_input, put_state. cbn. by rewrite Hsta, En, Hfin.
  - exact Hdec.
Qed.

(** A source failure is the only one that leaves the reader to be called again. *)
Definition stopped (out_kept : Prop) (e : Stop WiseError) : Prop :=
  refused e ∨ e = Fail WE_SourceFailed ∧ Miss ∧ out_kept.

Lemma wp_poll (Q : unit → S → Prop) (R : Stop WiseError → S → Prop) s :
  Q tt s → wp poll_cancelled Q R s.
Proof. unfold wp, poll_cancelled. by rewrite wise_never. Qed.

(** Staging the next bytes of the image. *)
Lemma refill_wp start limits out r s :
  reader_at start limits out r → sr_input_pos r = len (sr_input r) → Good s →
  wp refill
    (λ more '(r', s'), Good s' ∧ (more = true →
       reader_at start limits out r' ∧ sr_input_pos r' < len (sr_input r') ∧
       sr_consumed r' = sr_consumed r ∧ sr_finished r' = sr_finished r))
    (λ e '(r', s'), Good s' ∧ stopped (r' = r) e) (r, s).
Proof.
  intros [Hl Hs Hf Hch Hre Hp Hin Hb Hcur Hins Hd Hcons Hinf Hcrc Hsta] Hpos Hgood.
  unfold refill. do 2 wp_step. wp_step. apply wp_zoom. cbn [fst snd]. rewrite Hl.
  destruct (serves_read (sr_read_cursor r) (wise_chunk_bytes limits) s Hgood ltac:(apply Hre; lia) Hch) as (s' & Hs' & [E|[HM E]]);
    unfold wp at 1; rewrite E; cbn [fst snd].
  2:{ split; [done|right]. by destruct r. }
  pose proof (serves_fits : len image < 2 ^ 64) as Hfit.
  set (got := subslice (sr_read_cursor r) (wise_chunk_bytes limits) image) in *. wp_step. apply wp_zoom. wp_step. cbn [fst snd].
  destruct (N.eqb_spec (len got) 0) as [E0|E0]; [by wp_step|].
  assert (len got = N.min (wise_chunk_bytes limits) (len image - sr_read_cursor r)) as Hg
    by apply len_subslice_le.
  assert (sr_read_cursor r + len got ≤ len image) as Hcl by lia.
  wp_step. apply wp_bounded_fit; [lia|].
  wp_step. apply wp_zoom. wp_step. cbn [fst snd]. wp_step. split; [done|]. intros _.
  split; [|split; [cbn; lia|done]].
  split; cbn [put_cursor put_input sr_limits sr_start sr_input_pos sr_input sr_consumed sr_read_cursor
    sr_state sr_finished sr_inflated sr_crc sr_stalled]; try done; try lia.
  change (drop (N.to_nat 0) got) with got. rewrite N.sub_0_r, Hg. unfold got.
  replace (sr_read_cursor r) with (start + sr_consumed r) by lia. symmetry. apply subslice_min.
Qed.

Lemma read_turn_wp start limits out r s out_len :
  reader_at start limits out r → sr_finished r = false → 0 < out_len → Good s →
  wp (read_turn out_len tt)
    (λ res '(r', s'), Good s' ∧ match res with
       | inl _ => reader_at start limits out r' ∧ sr_finished r' = false ∧
                  sr_consumed r < sr_consumed r'
       | inr l => reader_at start limits (out ++ l) r' ∧ len l ≤ out_len ∧
                  (l ≠ [] ∨ sr_finished r' = true)
       end)
    (λ e '(r', s'), Good s' ∧ stopped (r' = r) e) (r, s).
Proof.
  intros Hr Hfin Hout Hs. unfold read_turn. wp_step.
  assert (Hturn : ∀ r1 s1, reader_at start limits out r1 → sr_finished r1 = false → Good s1 →
    sr_input_pos r1 < len (sr_input r1) → sr_consumed r1 = sr_consumed r →
    wp (on_reader (inflate_turn out_len))
      (λ res '(r', s'), Good s' ∧ match res with
         | inl _ => reader_at start limits out r' ∧ sr_finished r' = false ∧
                    sr_consumed r < sr_consumed r'
         | inr l => reader_at start limits (out ++ l) r' ∧ len l ≤ out_len ∧
                    (l ≠ [] ∨ sr_finished r' = true)
         end)
      (λ e '(r', s'), Good s' ∧ stopped (r' = r) e) (r1, s1)).
  { intros r1 s1 Hr1 Hf1 Hs1 Hp1 Hc1. apply wp_zoom. cbn [fst snd].
    eapply wp_mono; [by apply inflate_turn_wp|..].
    - intros res r'. rewrite Hc1. by destruct res.
    - intros e r' He. split; [done|by left]. }
  apply wp_zoom, wp_poll. cbn [fst snd]. do 2 wp_step. cbn [fst]. wp_step.
  destruct (N.eqb_spec (sr_input_pos r) (len (sr_input r))) as [E|E].
  - wp_step. eapply wp_mono; [by apply (refill_wp start limits out)|..|done].
    intros more [r1 s1] [Hs1 Hmore]. apply wp_reject.
    + intros Em. split; [done|]. left. by eexists.
    + intros Em%negb_false_iff. destruct (Hmore Em) as (Hr1 & Hp1 & Hc1 & Hf1).
      apply Hturn; auto. congruence.
  - wp_step. apply Hturn; auto. destruct Hr. lia.
Qed.

(** One call: some bytes of the stream, or its end; a failed read loses nothing. *)
Lemma stream_read_wp start limits out r s out_len :
  reader_at start limits out r → Good s → 0 < out_len →
  wp (stream_read out_len)
    (λ l '(r', s'), Good s' ∧ reader_at start limits (out ++ l) r' ∧ len l ≤ out_len ∧
       (sr_finished r = true → r' = r ∧ l = []) ∧ (l ≠ [] ∨ sr_finished r' = true))
    (λ e '(r', s'), Good s' ∧
       stopped (reader_at start limits out r' ∧ sr_finished r' = false) e) (r, s).
Proof.
  intros Hr Hs Hout. unfold stream_read. do 2 wp_step. cbn [fst].
  rewrite (proj2 (N.eqb_neq out_len 0)), orb_false_r by lia. destruct (sr_finished r) eqn:Hfin.
  { wp_step. rewrite app_nil_r. split; [done|]. split; [done|]. split; [apply N.le_0_l|]. by split; [|right]. }
  set (Inv := λ (_ : unit) '(r1, s1), Good s1 ∧ reader_at start limits out r1 ∧ sr_finished r1 = false).
  apply (loop_W_wp _ Inv
    (λ _ '(r1, _), wl_max_compressed_bytes_per_stream limits - sr_consumed r1)); [done|..].
  - intros _ [r1 s1] (_ & Hr1 & _). pose proof (lf_compressed _ (ra_fit _ _ _ _ Hr1)).
    eapply N.le_lt_trans; [apply N.le_sub_l|]. eapply N.lt_trans; [done|]. by vm_compute.
  - intros [] [r1 s1] (Hs1 & Hr1 & Hf1).
    eapply wp_mono; [by apply (read_turn_wp start limits out)|..].
    + intros [[]|l] [r2 s2] [Hs2 H2].
      * destruct H2 as (Hr2 & Hf2 & Hlt). split; [done|]. pose proof (ra_consumed _ _ _ _ Hr2).
        pose proof (ra_consumed _ _ _ _ Hr1). lia.
      * destruct H2 as (Hr2 & Hl & Hor). by split.
    + intros e [r2 s2] [Hs2 [He|(-> & HM & ->)]]; (split; [done|]); [by left|by right].
Qed.

(** ** Measurements *)

(** What [finish] says of a stream at [start] that held [out]. *)
Record measured (start : N) (limits : WiseLimits) (out : list byte) (m : StreamMetrics) : Prop := {
  me_offset : sm_compressed_offset m = start;
  me_decoded : decoded (subslice start (sm_compressed_len m) image) out;
  me_inside : start + sm_compressed_len m ≤ N.max start (len image);
  me_inflated : sm_inflated_len m = len out;
  me_computed : sm_computed_crc32 m = crc32 out;
  me_checksum : sm_checksum m =
    if start + sm_compressed_len m + 4 <=? len image then
      if u32_at (start + sm_compressed_len m) image =? crc32 out then CS_Match else CS_Mismatch
    else CS_Absent;
  me_ceilings : sm_compressed_len m ≤ wl_max_compressed_bytes_per_stream limits ∧
    len out ≤ wl_max_inflated_bytes_per_stream limits
}.

Lemma stream_finish_wp start limits out r s :
  reader_at start limits out r → sr_finished r = true → Good s → fits 64 start → 4 ≤ cap →
  wp stream_finish
    (λ m '(r', s'), r' = r ∧ Good s' ∧ measured start limits out m)
    (λ e '(r', s'), r' = r ∧ Good s' ∧ e = Fail WE_SourceFailed ∧ Miss) (r, s).
Proof.
  intros Hr Hfin Hs Hstart Hcap. pose proof (serves_fits : len image < 2 ^ 64) as Hfit.
  destruct Hr as [Hl Hst Hf Hch Hre Hp Hin Hb Hcur Hins Hd Hcons [Hinf Hinf'] Hcrc Hsta].
  unfold stream_finish. do 2 wp_step. cbn [fst]. rewrite Hfin, Hst. wp_step. apply wp_reject; [done|].
  intros _. wp_step. unfold fits in Hstart. apply wp_bounded_fit; [lia|]. wp_step. apply wp_zoom. cbn [fst snd].
  destruct (serves_read (start + sr_consumed r) 4 s Hs ltac:(apply Hre; lia) Hcap) as (s' & Hs' & [E|[HM E]]);
    unfold wp at 1; rewrite E; cbn [fst snd]; [|done].
  rewrite len_subslice_le. change (crc32_finish (sr_crc r)) with (N.lxor (sr_crc r) (2 ^ 32 - 1)).
  rewrite Hcrc. change (N.lxor _ _) with (crc32 out). fold (u32_at (start + sr_consumed r) image).
  destruct (N.leb_spec (start + sr_consumed r + 4) (len image)) as [H4|H4].
  - rewrite N.min_l by lia. cbn [N.eqb Pos.eqb]. wp_step. split; [done|]. split; [done|].
    rewrite Hfin in Hd. split; cbn; try done; try lia; [by eexists|].
    by rewrite (proj2 (N.leb_le _ _)).
  - rewrite (proj2 (N.eqb_neq _ 4)) by lia. wp_step. split; [done|]. split; [done|].
    rewrite Hfin in Hd. split; cbn; try done; try lia; [by eexists|].
    by rewrite (proj2 (N.leb_gt _ _)).
Qed.

(** ** A whole stream *)

(** A sink that takes everything; [Holds k out] is what it has got. *)
Class SinkLaws (K : Type) `{Sink K} (Holds : K → list byte → Prop) : Prop :=
  sink_takes chunk k out : Holds k out →
    ∃ k', sink_write chunk k = (k', Ok tt) ∧ Holds k' (out ++ chunk).

Context {K : Type} (Holds : K → list byte → Prop) `{SinkLaws K Holds}.

Lemma reader_new_at start limits :
  limits_fit limits → wise_chunk_bytes limits ≤ cap →
  (∀ o, start ≤ o → o ≤ N.max start (len image) → Reach o) →
  reader_at start limits [] (reader_new start limits : StreamReader I).
Proof.
  intros Hf Hch Hre. split; try done; try apply N.le_0_l.
  - change (start = start + 0 + (0 - 0)). lia.
  - change (start ≤ N.max start (len image)). lia.
  - apply decoding_new.
  - split; [done|apply N.le_0_l].
Qed.

Lemma inflate_stream_wp offset limits s k :
  limits_fit limits → wise_chunk_bytes limits ≤ cap → 4 ≤ cap → fits 64 offset →
  (∀ o, offset ≤ o → o ≤ N.max offset (len image) → Reach o) →
  Good s → Holds k [] →
  wp (inflate_stream (I := I) offset limits)
    (λ m '(s', k'), Good s' ∧ ∃ out, Holds k' out ∧ measured offset limits out m)
    (λ e '(s', _), Good s' ∧ (refused e ∨ e = Fail WE_SourceFailed ∧ Miss)) (s, k).
Proof.
  intros Hf Hch Hcap Hoff Hre Hs Hk. unfold inflate_stream.
  assert (0 < wise_chunk_bytes limits) as Hpos.
  { unfold wise_chunk_bytes. destruct (N.eqb_spec (wl_max_chunk_bytes limits) 0); lia. }
  set (Inv := λ (r : StreamReader I) '(s1, k1), Good s1 ∧ ∃ out, Holds k1 out ∧
    reader_at offset limits out r ∧ sr_finished r = false).
  wp_step. apply (loop_W_wp _ Inv (λ r _, wl_max_inflated_bytes_per_stream limits - sr_inflated r)).
  - split; [done|]. exists []. split; [done|]. by split; [apply reader_new_at|].
  - intros r [s1 k1] _. eapply N.le_lt_trans; [apply N.le_sub_l|].
    eapply N.lt_trans; [by destruct Hf|]. by vm_compute.
  - intros r [s1 k1] (Hs1 & out & Hk1 & Hr & Hfin). unfold inflate_stream_turn. wp_step. apply wp_zoom.
    pose proof (stream_read_wp offset limits out r s1 (wise_chunk_bytes limits) Hr Hs1 Hpos) as Hread.
    unfold wp at 1, own. cbn [fst snd]. unfold wp in Hread.
    destruct (stream_read (wise_chunk_bytes limits) (r, s1)) as [[r2 s2] [l|e]]; cbn [fst snd].
    2:{ destruct Hread as [Hs2 [He|(-> & HM & _)]]; (split; [done|]); [by left|by right]. }
    destruct Hread as (Hs2 & Hr2 & Hl & _ & Hor). wp_step.
    assert (Hend : ∀ k2, Holds k2 (out ++ l) →
      wp (mret (if sr_finished r2 || (len l =? 0) then inr r2 else inl r2))
        (λ res s', match res with
           | inl r' => Inv r' s' ∧ wl_max_inflated_bytes_per_stream limits - sr_inflated r' <
                                   wl_max_inflated_bytes_per_stream limits - sr_inflated r
           | inr r' => wp ('(_, metrics) ← zoom fst (λ t s, (t, s.2)) (own stream_finish r'); mret metrics)
               (λ m '(s', k'), Good s' ∧ ∃ out, Holds k' out ∧ measured offset limits out m)
               (λ e '(s', _), Good s' ∧ (refused e ∨ e = Fail WE_SourceFailed ∧ Miss)) s'
           end) (λ e '(s', _), Good s' ∧ (refused e ∨ e = Fail WE_SourceFailed ∧ Miss)) (s2, k2)).
    { intros k2 Hk2. wp_step. destruct (sr_finished r2) eqn:Hfin2; cbn [orb].
      - wp_step. apply wp_zoom. unfold wp at 1, own. cbn [fst snd].
        pose proof (stream_finish_wp offset limits (out ++ l) r2 s2 Hr2 Hfin2 Hs2 Hoff Hcap) as Hfi.
        unfold wp in Hfi. destruct (stream_finish (r2, s2)) as [[r3 s3] [m|e]]; cbn [fst snd].
        + destruct Hfi as (_ & Hs3 & Hm). wp_step. split; [done|]. by exists (out ++ l).
        + destruct Hfi as (_ & Hs3 & -> & HM). split; [done|by right].
      - destruct Hor as [Hne|]; [|done]. assert (len l ≠ 0) by by rewrite len_0_nil.
        rewrite (proj2 (N.eqb_neq (len l) 0)) by done. split.
        + split; [done|]. exists (out ++ l). done.
        + pose proof (ra_inflated _ _ _ _ Hr) as [E1 ?]. pose proof (ra_inflated _ _ _ _ Hr2) as [E2 E3].
          rewrite len_app in *. lia. }
    destruct (sink_takes l k1 out Hk1) as (k2 & Ew & Hk2).
    destruct (N.ltb_spec 0 (len l)).
    + apply wp_zoom. unfold wp at 1. cbn [fst snd]. rewrite Ew. by apply Hend.
    + wp_step. apply Hend. assert (l = []) as -> by (apply len_0_nil; lia). by rewrite app_nil_r.
Qed.
End reader.

#[export] Instance vec_sink_laws : @SinkLaws (list byte) vec_sink (λ k out, k = out).
Proof. intros chunk k out ->. by eexists. Qed.

#[export] Instance discard_sink_laws : @SinkLaws unit discard_sink (λ _ _, True).
Proof. intros chunk k out _. by eexists. Qed.

(** ** Images in memory *)

Section in_memory.
Context {I : Type} `{InflaterLaws I} (image : list byte).
#[local] Instance memory_source : ImageSource unit := image_slice image.
#[local] Instance memory_cancel : WiseCancellation unit := wise_never_cancelled unit.
#[local] Instance memory_sink : Sink (list byte) := vec_sink.

(** Inflating a stream of an image in memory always ends. If it succeeds, the
    sink has got what the decompressor makes of exactly the bytes the stream is
    measured to have, within the ceilings; the length and the checksum reported
    are those of what the sink has got; and the stream is confirmed exactly if
    the image continues with the four bytes of that checksum. If it fails it
    says why, and never as a failed read. *)
Theorem inflate_stream_exact offset limits :
  len image < 2 ^ 64 → limits_fit limits → fits 64 offset →
  ∃ out r, inflate_stream (I := I) offset limits (tt, []) = ((tt, out), r) ∧
    match r with
    | Ok m => measured (I := I) image offset limits out m
    | Err e => refused e
    end.
Proof.
  intros Himage Hlimits Hoffset.
  assert (wise_chunk_bytes limits ≤ 2 ^ 64) as Hchunk.
  { destruct Hlimits. unfold wise_chunk_bytes. destruct (_ =? 0); lia. }
  pose proof (@image_slice_serves image Himage) as Hserves.
  pose proof (inflate_stream_wp (I := I) image (2 ^ 64) (λ _, True) (λ _, True) False (λ k out : list byte, k = out)
    offset limits tt [] Hlimits Hchunk ltac:(by vm_compute) Hoffset (λ _ _ _, Logic.I) Logic.I eq_refl) as Hwp.
  unfold wp in Hwp. destruct (inflate_stream offset limits (tt, [])) as [[[] out] [m|e]] eqn:E.
  - destruct Hwp as (_ & out' & -> & Hm). by exists out', (Ok m).
  - exists out, (Err e). split; [done|]. by destruct Hwp as (_ & [He|(_ & [])]).
Qed.
End in_memory.
