(* ===== verification/WiseChain.v ===== *)
(** * The chain of streams

    [crates/ohl-wise/src/{header,chain}.rs]: finding the first stream behind the
    overlay's header, and walking the streams that follow it to the end of the
    image, resynchronising over padding. *)

From S2P Require Export WiseOverlay WiseInflate.

(** ** [header.rs] *)

Definition ZIP_LOCAL_FILE_SIGNATURE : list byte := [x50; x4b; x03; x04].
Definition SCAN_STREAM_CEILING : N := 64 * 1024 * 1024.

Record PackageHeader : Type := {
  ph_overlay_offset : N;
  ph_header_len : N;
  ph_first_stream_offset : N;
  ph_first_stream : StreamMetrics
}.

Definition plausible_first_byte (b : byte) : bool :=
  negb (N.land (N.shiftr (Byte.to_N b) 1) 3 =? 3).

(** [window.windows(4).any(|candidate| candidate == signature)]. *)
Fixpoint has_window (signature l : list byte) : bool :=
  match l with
  | [] => false
  | _ :: rest => bool_decide (take (length signature) l = signature) || has_window signature rest
  end.

Definition scan_limits (limits : WiseLimits) : WiseLimits :=
  {| wl_max_pe_header_bytes := wl_max_pe_header_bytes limits;
     wl_max_sections := wl_max_sections limits;
     wl_max_header_scan_bytes := wl_max_header_scan_bytes limits;
     wl_min_confirmed_inflated_bytes := wl_min_confirmed_inflated_bytes limits;
     wl_max_streams := wl_max_streams limits;
     wl_max_compressed_bytes_per_stream :=
       N.min (wl_max_compressed_bytes_per_stream limits) SCAN_STREAM_CEILING;
     wl_max_inflated_bytes_per_stream :=
       N.min (wl_max_inflated_bytes_per_stream limits) SCAN_STREAM_CEILING;
     wl_max_total_inflated_bytes := wl_max_total_inflated_bytes limits;
     wl_max_script_bytes := wl_max_script_bytes limits;
     wl_max_file_records := wl_max_file_records limits;
     wl_max_path_bytes := wl_max_path_bytes limits;
     wl_max_resync_skip := wl_max_resync_skip limits;
     wl_max_chunk_bytes := wl_max_chunk_bytes limits |}.

(** ** [chain.rs] *)

Definition MIN_STREAM_BYTES : N := 3.

Record StreamRecord : Type := {
  rec_index : N;
  rec_metrics : StreamMetrics;
  rec_resync_skip : N
}.

#[export] Instance StreamRecord_eq_dec : EqDecision StreamRecord.
Proof. solve_decision. Defined.

Definition rec_offset (self : StreamRecord) : N := sm_compressed_offset (rec_metrics self).
Definition rec_inflated_len (self : StreamRecord) : N := sm_inflated_len (rec_metrics self).
Definition rec_checksum (self : StreamRecord) : ChecksumStatus := sm_checksum (rec_metrics self).

Inductive ChainEvent : Type :=
| CE_Stream (record : StreamRecord)
| CE_Resynced (index skipped : N).

Record Chain : Type := {
  ch_limits : WiseLimits;
  ch_cursor : N;
  ch_end : N;
  ch_index : N;
  ch_total_inflated : N;
  ch_resyncs : N;
  ch_finished : bool;
  ch_pending : option StreamRecord
}.

Definition chain_new (first_stream_offset end_ : N) (limits : WiseLimits) : Chain :=
  {| ch_limits := limits; ch_cursor := first_stream_offset; ch_end := end_; ch_index := 0;
     ch_total_inflated := 0; ch_resyncs := 0; ch_finished := false; ch_pending := None |}.

Definition put_chain_counts (cursor index total resyncs : N) (self : Chain) : Chain :=
  {| ch_limits := ch_limits self; ch_cursor := cursor; ch_end := ch_end self; ch_index := index;
     ch_total_inflated := total; ch_resyncs := resyncs; ch_finished := ch_finished self;
     ch_pending := ch_pending self |}.

Definition put_chain_flags (finished : bool) (pending : option StreamRecord) (self : Chain) : Chain :=
  {| ch_limits := ch_limits self; ch_cursor := ch_cursor self; ch_end := ch_end self;
     ch_index := ch_index self; ch_total_inflated := ch_total_inflated self;
     ch_resyncs := ch_resyncs self; ch_finished := finished; ch_pending := pending |}.

(** [Cancelled | LimitExceeded(_)]. *)
Definition is_fatal (error : WiseError) : bool :=
  match error with WE_Cancelled | WE_LimitExceeded _ => true | _ => false end.

(** [Chain::accept]. *)
Definition chain_accept (metrics : StreamMetrics) (skip : N) : W Chain ChainEvent :=
  self ← get;
  total ← bounded (checked_add_bounded 64 (ch_total_inflated self) (sm_inflated_len metrics));
  modify (λ self, put_chain_counts (ch_cursor self) (ch_index self) total (ch_resyncs self) self);;
  reject (wl_max_total_inflated_bytes (ch_limits self) <? total)
    (WE_LimitExceeded WL_TotalInflatedBytes);;
  let record := {| rec_index := ch_index self; rec_metrics := metrics; rec_resync_skip := skip |} in
  index ← bounded (checked_add_bounded 32 (ch_index self) 1);
  modify (put_chain_counts (next_offset metrics) index total (ch_resyncs self));;
  if 0 <? skip then
    resyncs ← bounded (checked_add_bounded 32 (ch_resyncs self) 1);
    modify (put_chain_counts (next_offset metrics) index total resyncs);;
    modify (λ self, put_chain_flags (ch_finished self) (Some record) self);;
    mret (CE_Resynced (rec_index record) skip)
  else mret (CE_Stream record).

Section chain.
Context {I : Type} `{Inflater I} {S : Type} `{ImageSource S} `{WiseCancellation S}.

(** [inflate_stream(source, offset, limits, &mut Discard, cancel)]. *)
Definition measure_stream (offset : N) (limits : WiseLimits) : W S StreamMetrics :=
  zoom (λ s, (s, tt)) (λ t _, t.1) (inflate_stream (I := I) (H2 := discard_sink) offset limits).

(** The loop over the candidates of [locate_first_stream]. *)
Fixpoint locate_loop (overlay : Overlay) (limits : WiseLimits) (skip : N) (window : list byte)
  : W S PackageHeader :=
  match window with
  | [] => fail WE_HeaderNotFound
  | byte :: window =>
      poll_cancelled;;
      if negb (plausible_first_byte byte) then locate_loop overlay limits (skip + 1) window
      else
        let offset := wrapping_add 64 (ov_offset overlay) skip in
        result ← returned (measure_stream offset (scan_limits limits));
        match result with
        | Ok metrics =>
            if negb (is_match (sm_checksum metrics)) ||
               (sm_inflated_len metrics <? wl_min_confirmed_inflated_bytes limits)
            then locate_loop overlay limits (skip + 1) window
            else mret {| ph_overlay_offset := ov_offset overlay; ph_header_len := skip;
                         ph_first_stream_offset := offset; ph_first_stream := metrics |}
        | Err _ => locate_loop overlay limits (skip + 1) window
        end
  end.

Definition locate_first_stream (overlay : Overlay) (limits : WiseLimits) : W S PackageHeader :=
  reject (wl_max_header_scan_bytes limits =? 0) (WE_LimitExceeded WL_HeaderScanBytes);;
  let window_len := N.min (ov_len overlay) (wl_max_header_scan_bytes limits) in
  window ← image_read_at (ov_offset overlay) window_len;
  reject (len window =? 0) WE_Truncated;;
  reject (has_window ZIP_LOCAL_FILE_SIGNATURE window) WE_ZipVariantUnsupported;;
  locate_loop overlay limits 0 window.

Definition on_chain {A} (m : W Chain A) : W (Chain * S) A := zoom fst (λ r s, (r, s.2)) m.
Definition chain_source {A} (m : W S A) : W (Chain * S) A := zoom snd (λ t s, (s.1, t)) m.

(** [Chain::attempt], its [Result]. *)
Definition chain_attempt (offset : N) : W (Chain * S) (result WiseError StreamMetrics) :=
  self ← get;
  chain_source (returned (measure_stream offset (ch_limits self.1))).

(** The loop over the skips; [None] if it ends or breaks. *)
Fixpoint resync_loop (skips : list N) : W (Chain * S) (option ChainEvent) :=
  match skips with
  | [] => mret None
  | skip :: skips =>
      self ← get;
      offset ← bounded (checked_add_bounded 64 (ch_cursor self.1) skip);
      if ch_end self.1 <=? offset then mret None
      else
        outcome ← chain_attempt offset;
        match outcome with
        | Ok metrics =>
            if is_match (sm_checksum metrics) then
              event ← on_chain (chain_accept metrics skip); mret (Some event)
            else resync_loop skips
        | Err error => if is_fatal error then fail error else resync_loop skips
        end
  end.

(** [1..=max]. *)
Definition skips_to (max : N) : list N := map N.of_nat (seq 1 (N.to_nat max)).

Definition chain_step : W (Chain * S) (option ChainEvent) :=
  chain_source poll_cancelled;;
  self ← get;
  let self := self.1 in
  if (ch_end self <=? ch_cursor self) || (ch_end self - ch_cursor self <? MIN_STREAM_BYTES)
  then mret None
  else
    reject (wl_max_streams (ch_limits self) <=? ch_index self) (WE_LimitExceeded WL_Streams);;
    first ← chain_attempt (ch_cursor self);
    let resync :=
      found ← resync_loop (skips_to (wl_max_resync_skip (ch_limits self)));
      match found with
      | Some event => mret (Some event)
      | None =>
          match first with
          | Ok metrics => event ← on_chain (chain_accept metrics 0); mret (Some event)
          | Err error => fail error
          end
      end in
    match first with
    | Ok metrics =>
        if is_match (sm_checksum metrics) then
          event ← on_chain (chain_accept metrics 0); mret (Some event)
        else resync
    | Err error => if is_fatal error then fail error else resync
    end.

(** [Chain::next_event]: [None] at the end, [Some(Err)] once on a failure. *)
Definition next_event : W (Chain * S) (option (result WiseError ChainEvent)) :=
  self ← get;
  match ch_pending self.1 with
  | Some record =>
      on_chain (modify (λ self, put_chain_flags (ch_finished self) None self));;
      mret (Some (Ok (CE_Stream record)))
  | None =>
      if ch_finished self.1 then mret None
      else
        outcome ← returned chain_step;
        match outcome with
        | Ok None =>
            on_chain (modify (λ self, put_chain_flags true (ch_pending self) self));;
            mret None
        | Ok (Some event) => mret (Some (Ok event))
        | Err error =>
            on_chain (modify (λ self, put_chain_flags true (ch_pending self) self));;
            mret (Some (Err error))
        end
  end.
End chain.
