(* ===== verification/WiseWalk.v ===== *)
(** * What a walk of the chain finds

    The order in which a walk takes streams, as rules over the outcome of
    inflating at an offset, and that [Chain] of [WiseChain.v] follows them; then
    measuring and locating over a source that stays where it is. *)

From S2P Require Export WiseChain.

Section rules.
(** What inflating at an offset measures. *)
Context (attempt : N → result WiseError StreamMetrics) (limits : WiseLimits) (end_ : N).

Definition confirmed (r : result WiseError StreamMetrics) : bool :=
  match r with Ok m => is_match (sm_checksum m) | Err _ => false end.

(** The first later offset that settles the matter. *)
Fixpoint resynced (cursor : N) (skips : list N) : option (result WiseError (StreamMetrics * N)) :=
  match skips with
  | [] => None
  | skip :: skips =>
      if end_ <=? cursor + skip then None
      else
        match attempt (cursor + skip) with
        | Ok m => if is_match (sm_checksum m) then Some (Ok (m, skip)) else resynced cursor skips
        | Err e => if is_fatal e then Some (Err e) else resynced cursor skips
        end
  end.

(** The stream a walk takes at [cursor], and how many bytes it skips for it. *)
Definition chosen (cursor : N) : result WiseError (StreamMetrics * N) :=
  let first := attempt cursor in
  let resync :=
    match resynced cursor (skips_to (wl_max_resync_skip limits)) with
    | Some found => found
    | None => match first with Ok m => Ok (m, 0) | Err e => Err e end
    end in
  match first with
  | Ok m => if is_match (sm_checksum m) then Ok (m, 0) else resync
  | Err e => if is_fatal e then Err e else resync
  end.

Definition at_end (cursor : N) : bool :=
  (end_ <=? cursor) || (end_ - cursor <? MIN_STREAM_BYTES).

Definition record (index : N) (m : StreamMetrics) (skip : N) : StreamRecord :=
  {| rec_index := index; rec_metrics := m; rec_resync_skip := skip |}.

(** A walk from [cursor] on, [index] streams and [total] bytes into the chain. *)
Inductive walks : N → N → N → list StreamRecord → option WiseError → Prop :=
| walks_end cursor index total :
    at_end cursor = true → walks cursor index total [] None
| walks_many cursor index total :
    at_end cursor = false → wl_max_streams limits ≤ index →
    walks cursor index total [] (Some (WE_LimitExceeded WL_Streams))
| walks_stop cursor index total e :
    at_end cursor = false → index < wl_max_streams limits → chosen cursor = Err e →
    walks cursor index total [] (Some e)
| walks_total cursor index total m skip :
    at_end cursor = false → index < wl_max_streams limits → chosen cursor = Ok (m, skip) →
    wl_max_total_inflated_bytes limits < total + sm_inflated_len m →
    walks cursor index total [] (Some (WE_LimitExceeded WL_TotalInflatedBytes))
| walks_take cursor index total m skip rest o :
    at_end cursor = false → index < wl_max_streams limits → chosen cursor = Ok (m, skip) →
    total + sm_inflated_len m ≤ wl_max_total_inflated_bytes limits →
    walks (next_offset m) (index + 1) (total + sm_inflated_len m) rest o →
    walks cursor index total (record index m skip :: rest) o.

Lemma walks_det cursor index total l o l' o' :
  walks cursor index total l o → walks cursor index total l' o' → l = l' ∧ o = o'.
Proof.
  intros H. revert l' o'. induction H as [c i t He|c i t He Hm|c i t e He Hi Hc|c i t m k He Hi Hc Ht|
    c i t m k rest o He Hi Hc Ht Hw IH]; intros l' o' H'; inversion H'; subst; try congruence; try lia; try done.
  - split; [done|congruence].
  - assert (m0 = m ∧ skip = k) as [-> ->] by (split; congruence). lia.
  - assert (m0 = m ∧ skip = k) as [-> ->] by (split; congruence). lia.
  - assert (m0 = m ∧ skip = k) as [-> ->] by (split; congruence).
    by destruct (IH _ _ ltac:(eassumption)) as [-> ->].
Qed.

(** Every walk ends: a stream is taken or the walk stops, and the number of
    streams is bounded. *)
Lemma walks_total_fun cursor index total : ∃ l o, walks cursor index total l o.
Proof.
  remember (N.to_nat (wl_max_streams limits - index)) as n eqn:En.
  revert cursor index total En. induction n as [|n IH]; intros cursor index total En;
    destruct (at_end cursor) eqn:He; try by (eexists [], _; constructor).
  - eexists [], _. apply walks_many; [done|lia].
  - assert (index < wl_max_streams limits) as Hi by lia.
    destruct (chosen cursor) as [[m skip]|e] eqn:Hc; [|by eexists [], _; econstructor].
    destruct (N.lt_ge_cases (wl_max_total_inflated_bytes limits) (total + sm_inflated_len m)).
    + eexists [], _. by eapply walks_total.
    + destruct (IH (next_offset m) (index + 1) (total + sm_inflated_len m)) as (l & o & Hw); [lia|].
      eexists _, _. by eapply walks_take.
Qed.

(** ** The records of a walk *)

(** A stream that was taken: it is what inflating at its offset measures, it is
    within the reach of resynchronisation, and bytes are only skipped for a
    confirmed stream when nothing nearer is confirmed. *)
Record taken (cursor : N) (r : StreamRecord) : Prop := {
  tk_attempt : attempt (cursor + rec_resync_skip r) = Ok (rec_metrics r);
  tk_reach : rec_resync_skip r ≤ wl_max_resync_skip limits;
  tk_confirmed : rec_resync_skip r ≠ 0 → is_match (rec_checksum r) = true;
  tk_nearest k : k < rec_resync_skip r → confirmed (attempt (cursor + k)) = false;
  tk_inside : rec_resync_skip r ≠ 0 → cursor + rec_resync_skip r < end_
}.

Lemma resynced_Ok cursor m skip from n :
  resynced cursor (map N.of_nat (seq from n)) = Some (Ok (m, skip)) →
  attempt (cursor + skip) = Ok m ∧ is_match (sm_checksum m) = true ∧ cursor + skip < end_ ∧
  N.of_nat from ≤ skip < N.of_nat (from + n) ∧
  ∀ k, N.of_nat from ≤ k → k < skip → confirmed (attempt (cursor + k)) = false.
Proof.
  revert from. induction n as [|n IH]; intros from; cbn [seq map resynced]; [done|].
  destruct (N.leb_spec end_ (cursor + N.of_nat from)) as [|Hlt]; [done|].
  assert (Hrec : resynced cursor (map N.of_nat (seq (S from) n)) = Some (Ok (m, skip)) →
    confirmed (attempt (cursor + N.of_nat from)) = false →
    attempt (cursor + skip) = Ok m ∧ is_match (sm_checksum m) = true ∧ cursor + skip < end_ ∧
    N.of_nat from ≤ skip < N.of_nat (from + S n) ∧
    ∀ k, N.of_nat from ≤ k → k < skip → confirmed (attempt (cursor + k)) = false).
  { intros E Hf. destruct (IH (S from) E) as (Ha & Hm & Hin & Hr & Hk).
    split; [done|]. split; [done|]. split; [done|]. split; [lia|].
    intros k Hk1 Hk2. destruct (N.eq_dec k (N.of_nat from)) as [->|]; [done|]. apply Hk; lia. }
  destruct (attempt (cursor + N.of_nat from)) as [m'|e] eqn:Ea.
  - destruct (is_match (sm_checksum m')) eqn:Em; [|intros E; by apply Hrec].
    intros [= <- <-]. rewrite Ea. split; [done|]. split; [done|]. split; [done|]. split; [lia|]. lia.
  - destruct (is_fatal e); [done|]. intros E. by apply Hrec.
Qed.

Lemma chosen_Ok cursor m skip index :
  chosen cursor = Ok (m, skip) → taken cursor (record index m skip).
Proof.
  unfold chosen. destruct (attempt cursor) as [m'|e] eqn:Ea.
  - destruct (is_match (sm_checksum m')) eqn:Em.
    { intros [= <- <-]. split; cbn; rewrite ?N.add_0_r; try done; lia. }
    destruct (resynced _ _) as [found|] eqn:Er.
    + intros ->. apply (resynced_Ok cursor m skip 1) in Er as (Ha & Hm & Hin & Hr & Hk).
      split; cbn; try done; [lia|]. intros k Hlt. destruct (N.eq_dec k 0) as [->|].
      * by rewrite N.add_0_r, Ea.
      * apply Hk; lia.
    + intros [= <- <-]. split; cbn; rewrite ?N.add_0_r; try done; lia.
  - destruct (is_fatal e); [done|]. destruct (resynced _ _) as [found|] eqn:Er; [|done].
    intros ->. apply (resynced_Ok cursor m skip 1) in Er as (Ha & Hm & Hin & Hr & Hk).
    split; cbn; try done; [lia|]. intros k Hlt. destruct (N.eq_dec k 0) as [->|].
    + by rewrite N.add_0_r, Ea.
    + apply Hk; lia.
Qed.

(** The records of a chain: each where the one before it left the cursor. *)
Inductive chained : N → N → list StreamRecord → Prop :=
| chained_nil cursor index : chained cursor index []
| chained_cons cursor index r rest :
    rec_index r = index → taken cursor r →
    chained (next_offset (rec_metrics r)) (index + 1) rest →
    chained cursor index (r :: rest).

Definition inflated_sum (l : list StreamRecord) : N := foldr (λ r s, rec_inflated_len r + s) 0 l.

Lemma walks_chained cursor index total l o :
  walks cursor index total l o →
  chained cursor index l ∧
  (total ≤ wl_max_total_inflated_bytes limits → total + inflated_sum l ≤ wl_max_total_inflated_bytes limits) ∧
  (index ≤ wl_max_streams limits → index + len l ≤ wl_max_streams limits).
Proof.
  induction 1 as [c i t He|c i t He Hm|c i t e He Hi Hc|c i t m k He Hi Hc Ht|
    c i t m k rest o He Hi Hc Ht Hw (IH1 & IH2 & IH3)];
    try (split; [by constructor|]; change (inflated_sum []) with 0; change (len []) with 0; split; lia).
  split; [|split].
  - constructor; [done|by apply chosen_Ok|done].
  - intros _. specialize (IH2 Ht). cbn [inflated_sum foldr] in *. unfold rec_inflated_len at 1. cbn.
    fold (inflated_sum rest) in *. lia.
  - intros _. rewrite len_cons. specialize (IH3 ltac:(lia)). lia.
Qed.
End rules.

(** ** [Chain] follows the rules *)

Section chain.
Context {I : Type} `{Inflater I} {S : Type} `{ImageSource S} `{!WiseCancellation S, !WiseNever S}.
Context (limits : WiseLimits) (end_ : N) (s : S) (attempt : N → result WiseError StreamMetrics).

Definition as_result {A} (r : result WiseError A) : result (Stop WiseError) A := map_err Fail r.

(** At every offset, inflating measures what [attempt] says and leaves the
    source as it is. *)
Context (Hattempt : ∀ offset, fits 64 offset →
  measure_stream (I := I) offset limits s = (s, as_result (attempt offset))).
Context (Hsum : ∀ offset m, attempt offset = Ok m →
  wl_max_total_inflated_bytes limits + sm_inflated_len m < 2 ^ 64).
Context (Hstreams : wl_max_streams limits < 2 ^ 32).
Context (Hend : end_ + wl_max_resync_skip limits < 2 ^ 64).

(** A chain between two streams. *)
Record at_cursor (c : Chain) (cursor index total : N) : Prop := {
  ac_limits : ch_limits c = limits;
  ac_end : ch_end c = end_;
  ac_cursor : ch_cursor c = cursor;
  ac_index : ch_index c = index;
  ac_total : ch_total_inflated c = total;
  ac_bounds : index ≤ wl_max_streams limits ∧ total ≤ wl_max_total_inflated_bytes limits ∧
    ch_resyncs c ≤ index
}.

(** The chain once it has taken a stream. *)
Definition advanced (m : StreamMetrics) (skip : N) (c : Chain) : Chain :=
  {| ch_limits := ch_limits c; ch_cursor := next_offset m; ch_end := ch_end c;
     ch_index := ch_index c + 1; ch_total_inflated := ch_total_inflated c + sm_inflated_len m;
     ch_resyncs := if 0 <? skip then ch_resyncs c + 1 else ch_resyncs c;
     ch_finished := ch_finished c;
     ch_pending := if 0 <? skip then Some (record (ch_index c) m skip) else ch_pending c |}.

Definition event (m : StreamMetrics) (skip : N) (c : Chain) : ChainEvent :=
  if 0 <? skip then CE_Resynced (ch_index c) skip else CE_Stream (record (ch_index c) m skip).

Lemma chain_accept_run c cursor index total offset m skip :
  at_cursor c cursor index total → attempt offset = Ok m → index < wl_max_streams limits →
  ∃ c', chain_accept m skip c =
    if wl_max_total_inflated_bytes limits <? total + sm_inflated_len m
    then (c', Err (Fail (WE_LimitExceeded WL_TotalInflatedBytes)))
    else (advanced m skip c, Ok (event m skip c)).
Proof.
  intros [Hl He Hc Hi Ht (Hb1 & Hb2 & Hb3)] Ha Hlt. specialize (Hsum offset m Ha).
  unfold chain_accept. rewrite (M_bind_step _ _ c c c) by done.
  rewrite (M_bind_step _ _ c c (total + sm_inflated_len m)).
  2:{ rewrite Ht. apply bounded_add. lia. }
  rewrite (M_bind_step (modify _) _ c _ tt) by done. rewrite Hl.
  destruct (N.ltb_spec (wl_max_total_inflated_bytes limits) (total + sm_inflated_len m)).
  { eexists. by apply M_bind_fail. }
  exists c. rewrite (M_bind_step (reject false _) _ _ _ tt) by done.
  set (c1 := put_chain_counts _ _ _ _ _). rewrite Hi.
  rewrite (M_bind_step _ _ c1 c1 (index + 1)).
  2:{ unfold bounded, lift, checked_add_bounded, checked_add. by rewrite (proj2 (N.ltb_lt _ _)) by lia. }
  rewrite (M_bind_step (modify _) _ c1 _ tt) by done.
  unfold event, advanced. destruct (N.ltb_spec 0 skip).
  - rewrite (M_bind_step _ _ _ (put_chain_counts (next_offset m) (index + 1) (total + sm_inflated_len m)
      (ch_resyncs c) c1) (ch_resyncs c + 1)).
    2:{ unfold bounded, lift, checked_add_bounded, checked_add. by rewrite (proj2 (N.ltb_lt _ _)) by lia. }
    unfold put_chain_counts, put_chain_flags, modify, mbind, M_bind. cbn. by rewrite Hi, Ht.
  - unfold put_chain_counts. cbn. by rewrite Hi, Ht.
Qed.

Lemma chain_attempt_run c offset :
  ch_limits c = limits → fits 64 offset → chain_attempt (I := I) offset (c, s) = ((c, s), Ok (attempt offset)).
Proof.
  intros Hl Hf. unfold chain_attempt. rewrite (M_bind_step get _ _ (c, s) (c, s)) by done.
  cbn [fst snd]. unfold chain_source, zoom, returned. cbn [fst snd]. rewrite Hl, Hattempt by done.
  by destruct (attempt offset).
Qed.

(** What accepting a chosen stream comes to, as the whole step reports it. *)
Definition accepted (c : Chain) (total : N) (m : StreamMetrics) (skip : N)
    (out : (Chain * S) * result (Stop WiseError) (option ChainEvent)) : Prop :=
  if wl_max_total_inflated_bytes limits <? total + sm_inflated_len m
  then ∃ c', out = ((c', s), Err (Fail (WE_LimitExceeded WL_TotalInflatedBytes)))
  else out = ((advanced m skip c, s), Ok (Some (event m skip c))).

Lemma accept_event c cursor index total offset m skip :
  at_cursor c cursor index total → attempt offset = Ok m → index < wl_max_streams limits →
  accepted c total m skip ((event ← on_chain (chain_accept m skip); mret (Some event)) (c, s)).
Proof.
  intros Hat Ha Hlt. destruct (chain_accept_run c cursor index total offset m skip Hat Ha Hlt) as [c' E].
  unfold mbind, M_bind, on_chain, zoom, accepted. cbn [fst snd]. rewrite E.
  by destruct (_ <? _); [eexists|].
Qed.

Lemma resync_loop_run c cursor index total from n :
  at_cursor c cursor index total → index < wl_max_streams limits → cursor < end_ →
  N.of_nat (from + n) ≤ wl_max_resync_skip limits + 1 →
  let out := resync_loop (I := I) (map N.of_nat (seq from n)) (c, s) in
  match resynced attempt end_ cursor (map N.of_nat (seq from n)) with
  | None => out = ((c, s), Ok None)
  | Some (Err e) => out = ((c, s), Err (Fail e))
  | Some (Ok (m, skip)) => accepted c total m skip out
  end.
Proof.
  intros Hat Hlt Hin. pose proof Hat as [Hl He Hc Hi Ht _].
  revert from. induction n as [|n IH]; intros from Hmax; cbn [seq map resynced resync_loop]; [done|].
  rewrite (M_bind_step get _ _ (c, s) (c, s)) by done. cbn [fst].
  rewrite (M_bind_step _ _ (c, s) (c, s) (cursor + N.of_nat from)) by (rewrite Hc; apply bounded_add; lia).
  rewrite He. destruct (N.leb_spec end_ (cursor + N.of_nat from)); [done|].
  rewrite (M_bind_step _ _ (c, s) (c, s) (attempt (cursor + N.of_nat from)))
    by (apply chain_attempt_run; [done|unfold fits; lia]).
  specialize (IH (Datatypes.S from) ltac:(lia)).
  destruct (attempt (cursor + N.of_nat from)) as [m|e] eqn:Ea.
  - destruct (is_match (sm_checksum m)); [|done]. by eapply accept_event.
  - by destruct (is_fatal e).
Qed.

(** One step of the chain. *)
Lemma chain_step_run c cursor index total :
  at_cursor c cursor index total →
  let out := chain_step (I := I) (c, s) in
  if at_end end_ cursor then out = ((c, s), Ok None)
  else if wl_max_streams limits <=? index then
    out = ((c, s), Err (Fail (WE_LimitExceeded WL_Streams)))
  else
    match chosen attempt limits end_ cursor with
    | Err e => out = ((c, s), Err (Fail e))
    | Ok (m, skip) => accepted c total m skip out
    end.
Proof.
  intros Hat. pose proof Hat as [Hl He Hc Hi Ht _]. cbv zeta. unfold chain_step.
  rewrite (M_bind_step _ _ (c, s) (c, s) tt).
  2:{ unfold chain_source, zoom, poll_cancelled. cbn. by rewrite wise_never. }
  rewrite (M_bind_step get _ _ (c, s) (c, s)) by done. cbn [fst]. rewrite He, Hc, Hl, Hi.
  unfold at_end. destruct ((end_ <=? cursor) || _) eqn:Eend; [done|].
  apply orb_false_iff in Eend as [Hin%N.leb_gt _].
  destruct (N.leb_spec (wl_max_streams limits) index) as [|Hlt]; [by apply M_bind_fail|].
  rewrite (M_bind_step (reject false _) _ _ (c, s) tt) by done.
  rewrite (M_bind_step _ _ (c, s) (c, s) (attempt cursor))
    by (apply chain_attempt_run; [done|unfold fits; lia]).
  pose proof (resync_loop_run c cursor index total 1 (N.to_nat (wl_max_resync_skip limits))
    Hat Hlt Hin ltac:(lia)) as Hre. cbv zeta in Hre.
  fold (skips_to (wl_max_resync_skip limits)) in Hre. unfold chosen.
  set (skips := skips_to (wl_max_resync_skip limits)) in *.
  assert (Hresync : ∀ last fin,
    match fin with
    | Ok (m, skip) => accepted c total m skip (last (c, s))
    | Err e => last (c, s) = ((c, s), Err (Fail e))
    end →
    match match resynced attempt end_ cursor skips with Some found => found | None => fin end with
    | Err e => (found ← resync_loop (I := I) skips; match found with Some ev => mret (Some ev) | None => last end) (c, s) =
        ((c, s), Err (Fail e))
    | Ok (m, skip) => accepted c total m skip
        ((found ← resync_loop (I := I) skips; match found with Some ev => mret (Some ev) | None => last end) (c, s))
    end).
  { intros last fin Hfin. destruct (resynced attempt end_ cursor skips) as [[[m skip]|e]|].
    - unfold accepted in *. unfold mbind, M_bind. destruct (_ <? _).
      + destruct Hre as [c' ->]. by eexists.
      + by rewrite Hre.
    - by apply M_bind_fail.
    - destruct fin as [[m skip]|e]; by rewrite (M_bind_step _ _ _ _ _ Hre). }
  destruct (attempt cursor) as [m|e] eqn:Ea.
  - destruct (is_match (sm_checksum m)); [by eapply accept_event|].
    apply (Hresync _ (Ok (m, 0))). by eapply accept_event.
  - destruct (is_fatal e); [done|]. by apply (Hresync _ (Err e)).
Qed.
End chain.

(** * A source that stays where it is

    Measuring streams and locating the first one over a source whose reads
    neither move nor fail it: an image in memory, or a window that is pinned. *)

Lemma chunk_fits limits : limits_fit limits → wise_chunk_bytes limits ≤ 2 ^ 64.
Proof. intros []. unfold wise_chunk_bytes. destruct (_ =? 0); lia. Qed.

Lemma scan_limits_fit limits : limits_fit limits → limits_fit (scan_limits limits).
Proof.
  intros [Hc Hi Hch]. split; [| |exact Hch].
  - exact (N.le_lt_trans _ _ _ (N.le_min_l _ _) Hc).
  - exact (N.le_lt_trans _ _ _ (N.le_min_l _ _) Hi).
Qed.

Section still.
Context {I : Type} `{InflaterLaws I} {S : Type} `{ImageSource S} `{!WiseCancellation S, !WiseNever S}.
Context (image : list byte) (Reach : N → Prop) (s : S)
  `{!Serves S image (2 ^ 64) Reach (λ s', s' = s) False}.

(** What inflating at an offset of 64 bits measures. *)
Definition attempted (limits : WiseLimits) (offset : N) : result WiseError StreamMetrics :=
  if 2 ^ 64 <=? offset then Err WE_DecompressionFailed
  else match (measure_stream (I := I) offset limits s).2 with
  | Ok m => Ok m
  | Err (Fail error) => Err error
  | Err _ => Err WE_DecompressionFailed
  end.

Lemma measure_still limits offset :
  limits_fit limits → fits 64 offset → (∀ o, offset ≤ o → o ≤ N.max offset (len image) → Reach o) →
  measure_stream (I := I) offset limits s = (s, as_result (attempted limits offset)) ∧
  match attempted limits offset with
  | Ok m => ∃ out, measured (I := I) image offset limits out m
  | Err e => e ≠ WE_SourceFailed
  end.
Proof.
  intros Hf Hoff Hre.
  pose proof (inflate_stream_wp (I := I) (H2 := discard_sink) image (2 ^ 64) Reach (λ s', s' = s) False (λ _ _, True)
    offset limits s tt Hf (chunk_fits _ Hf) ltac:(by vm_compute) Hoff Hre eq_refl Logic.I) as Hwp.
  unfold wp in Hwp. unfold attempted, measure_stream, zoom. rewrite (proj2 (N.leb_gt _ _)) by exact Hoff.
  destruct (inflate_stream (H2 := discard_sink) offset limits (s, tt)) as [[s' []] [m|e]]; cbn.
  - destruct Hwp as (-> & out & _ & Hm). split; [done|]. by exists out.
  - destruct Hwp as (-> & [(error & -> & Hne)|(_ & [])]). by split.
Qed.

(** ** The header *)

(** Whether a candidate with first byte [b] is where the chain starts. *)
Definition starts_chain (limits : WiseLimits) (offset : N) (b : byte) : bool :=
  plausible_first_byte b &&
  match attempted (scan_limits limits) offset with
  | Ok m => is_match (sm_checksum m) && (wl_min_confirmed_inflated_bytes limits <=? sm_inflated_len m)
  | Err _ => false
  end.

(** The first candidate of [window], the bytes from [skip] on, that starts it. *)
Record header_found (limits : WiseLimits) (base skip : N) (window : list byte) (h : PackageHeader)
  : Prop := {
  hf_overlay : ph_overlay_offset h = base;
  hf_inside : skip ≤ ph_header_len h < skip + len window;
  hf_offset : ph_first_stream_offset h = base + ph_header_len h;
  hf_metrics : attempted (scan_limits limits) (ph_first_stream_offset h) = Ok (ph_first_stream h);
  hf_starts b : window !! N.to_nat (ph_header_len h - skip) = Some b →
    starts_chain limits (ph_first_stream_offset h) b = true;
  hf_first k b : k < ph_header_len h - skip → window !! N.to_nat k = Some b →
    starts_chain limits (base + skip + k) b = false
}.

Lemma header_found_later limits base skip b window h :
  starts_chain limits (base + skip) b = false → header_found limits base (skip + 1) window h →
  header_found limits base skip (b :: window) h.
Proof.
  intros Hb [Hov Hin Hoff Hm Hst Hfi].
  assert (Hnth : ∀ k, 0 < k → (b :: window) !! N.to_nat k = window !! N.to_nat (k - 1)).
  { intros k Hk. replace (N.to_nat k) with (Datatypes.S (N.to_nat (k - 1))) by lia. reflexivity. }
  split; [exact Hov| |exact Hoff|exact Hm|..].
  - rewrite len_cons. lia.
  - intros c. rewrite Hnth by lia. rewrite <-N.sub_add_distr. apply Hst.
  - intros k c Hk. destruct (N.eq_dec k 0) as [->|].
    + rewrite N.add_0_r. by intros [= <-].
    + rewrite Hnth by lia. intros Hc.
      replace (base + skip + k) with (base + (skip + 1) + (k - 1)) by lia. apply Hfi; [lia|]. exact Hc.
Qed.

Lemma locate_loop_wp overlay limits window skip :
  limits_fit limits → ov_offset overlay + skip + len window ≤ len image →
  (∀ o, ov_offset overlay ≤ o → o ≤ len image → Reach o) →
  wp (locate_loop (I := I) overlay limits skip window)
    (λ h s', s' = s ∧ header_found limits (ov_offset overlay) skip window h) (λ e s', s' = s ∧ refused e) s.
Proof.
  intros Hf Hlen Hre. revert skip Hlen. induction window as [|b window IH]; intros skip Hlen; cbn [locate_loop].
  { split; [done|by eexists]. }
  rewrite len_cons in Hlen. pose proof (serves_fits : len image < 2 ^ 64) as Hfits. wp_step. apply wp_poll.
  assert (Hlater : starts_chain limits (ov_offset overlay + skip) b = false →
    wp (locate_loop (I := I) overlay limits (skip + 1) window)
      (λ h s', s' = s ∧ header_found limits (ov_offset overlay) skip (b :: window) h)
      (λ e s', s' = s ∧ refused e) s).
  { intros Hb. eapply wp_mono; [apply IH; lia|..|done]. intros h s' [-> Hh]. split; [done|].
    by apply header_found_later. }
  destruct (plausible_first_byte b) eqn:Ep; cbn [negb]; [|apply Hlater; unfold starts_chain; by rewrite Ep].
  rewrite wrapping_add_small by lia.
  destruct (measure_still (scan_limits limits) (ov_offset overlay + skip)) as [Em _];
    [by apply scan_limits_fit|unfold fits; lia|intros o Ho1 Ho2; apply Hre; lia|].
  wp_step. unfold wp at 1, returned. rewrite Em.
  destruct (attempted (scan_limits limits) (ov_offset overlay + skip)) as [m|e] eqn:Ea; cbn [as_result map_err].
  2:{ apply Hlater. unfold starts_chain. by rewrite Ep, Ea. }
  destruct (negb (is_match (sm_checksum m)) || _) eqn:Eok.
  - apply Hlater. unfold starts_chain. rewrite Ep, Ea. cbn [andb]. rewrite N.leb_antisym.
    apply orb_true_iff in Eok as [->%negb_true_iff| ->]; [done|by rewrite andb_false_r].
  - apply orb_false_iff in Eok as [Eok%negb_false_iff Emin]. wp_step. split; [done|].
    split; cbn [ph_overlay_offset ph_header_len ph_first_stream_offset ph_first_stream]; try done.
    + rewrite len_cons. lia.
    + rewrite N.sub_diag. intros c [= <-]. unfold starts_chain. rewrite Ep, Ea, Eok, N.leb_antisym. cbn. by rewrite Emin.
    + intros k c. lia.
Qed.

Lemma locate_first_stream_wp overlay limits :
  limits_fit limits → ov_offset overlay ≤ len image →
  (∀ o, ov_offset overlay ≤ o → o ≤ len image → Reach o) →
  let window := subslice (ov_offset overlay) (N.min (ov_len overlay) (wl_max_header_scan_bytes limits)) image in
  N.min (ov_len overlay) (wl_max_header_scan_bytes limits) ≤ 2 ^ 64 →
  wp (locate_first_stream (I := I) overlay limits)
    (λ h s', s' = s ∧ has_window ZIP_LOCAL_FILE_SIGNATURE window = false ∧
             header_found limits (ov_offset overlay) 0 window h)
    (λ e s', s' = s ∧ refused e) s.
Proof.
  intros Hf Hlen Hre window Hcap. unfold locate_first_stream. wp_step.
  apply wp_reject; [split; [done|by eexists]|]. intros _.
  wp_step. destruct (@serves_read S _ image (2 ^ 64) Reach (λ s', s' = s) False _ (ov_offset overlay) _ s eq_refl
    (Hre _ (N.le_refl _) Hlen) Hcap)
    as (s' & -> & [E|[[] _]]). unfold wp at 1. rewrite E. fold window.
  assert (ov_offset overlay + len window ≤ len image) by (unfold window; rewrite len_subslice_le; lia).
  wp_step. apply wp_reject; [split; [done|by eexists]|]. intros _.
  wp_step. apply wp_reject; [split; [done|by eexists]|]. intros Hzip.
  eapply wp_mono; [apply locate_loop_wp; [done|lia|done]|..|done]. intros h s' [-> Hh]. by split.
Qed.
End still.
