(* ===== verification/WiseScript.v ===== *)
(** * The file table of a package

    [crates/ohl-wise/src/script.rs]: file records recognised by their shape
    among the opaque bytes of the script, with the measured streams as evidence
    where neighbouring positions compete. *)

From stdpp Require Import gmap sets.
From S2P Require Export WiseChain.

Definition RECORD_PREFIX_BYTES : N := 42.
Definition ZERO_RUN_AT : N := 18.
Definition ZERO_RUN_LEN : N := 20.
Definition ALIGNMENT_WINDOW : nat := 8.

(** [struct PathBytes] is its bytes. *)
Definition PathBytes : Type := list byte.

Definition dot : byte := x2e.
Definition backslash : byte := x5c.
Definition forward_slash : byte := x2f.

(** [to_ascii_lowercase]. *)
Definition ascii_lower (b : byte) : byte :=
  if (0x41 <=? Byte.to_N b) && (Byte.to_N b <=? 0x5a) then byte_of_N (Byte.to_N b + 32) else b.

(** What follows the last dot ([rposition]). *)
Fixpoint after_last_dot (l : list byte) : option (list byte) :=
  match l with
  | [] => None
  | b :: l =>
      match after_last_dot l with
      | Some rest => Some rest
      | None => if Byte.eqb b dot then Some l else None
      end
  end.

Definition extension (self : PathBytes) : option (list byte) :=
  extension ← after_last_dot self;
  if (len extension =? 0) || (8 <? len extension) then None
  else if existsb (λ byte, Byte.eqb byte backslash || Byte.eqb byte forward_slash) extension then None
  else Some (map ascii_lower extension).

Record FileRecord : Type := {
  fr_path : PathBytes;
  fr_deflate_start : N;
  fr_deflate_end : N;
  fr_inflated_size : N;
  fr_crc32 : N;
  fr_offsets_plausible : bool;
  fr_date : N;
  fr_time : N;
  fr_script_offset : N
}.

Definition fr_compressed_len (self : FileRecord) : N := fr_deflate_end self - fr_deflate_start self.
Definition has_checksum (self : FileRecord) : bool := negb (fr_crc32 self =? 0).

Record FileTable : Type := {
  ft_records : list FileRecord;
  ft_scanned_bytes : N;
  ft_monotonic : bool;
  ft_plausible : N
}.

Definition file_table_default : FileTable :=
  {| ft_records := []; ft_scanned_bytes := 0; ft_monotonic := false; ft_plausible := 0 |}.

Definition ft_len (self : FileTable) : N := len (ft_records self).

(** [FileTable::record]. *)
Definition table_record (self : FileTable) (index : N) : result WiseError FileRecord :=
  ok_or (ft_records self !! N.to_nat index) WE_IndexOutOfRange.

(** [struct StreamEvidence] is its set of pairs. *)
Definition StreamEvidence : Type := gset (N * N).

Definition from_streams (streams : list StreamRecord) : StreamEvidence :=
  list_to_set ((λ stream, (sm_inflated_len (rec_metrics stream),
                           sm_computed_crc32 (rec_metrics stream))) <$> streams).

Definition confirms (self : StreamEvidence) (inflated_size crc32 : N) : bool :=
  negb (crc32 =? 0) && bool_decide ((inflated_size, crc32) ∈ self).

Definition path_byte (b : byte) : bool :=
  (0x20 <=? Byte.to_N b) && negb (Byte.to_N b =? 0x7f).

(** [position(|byte| *byte == 0)]. *)
Fixpoint zero_position (l : list byte) : option N :=
  match l with
  | [] => None
  | b :: l => if Byte.eqb b x00 then Some 0 else position ← zero_position l; Some (1 + position)
  end.

(** [recognise]: the record at [at_] and the offset past its terminator. *)
Definition recognise (script : list byte) (at_ image_len : N) (limits : WiseLimits)
  : option (FileRecord * N) :=
  stop ← checked_add 64 at_ RECORD_PREFIX_BYTES;
  fixed ← get_range at_ stop script;
  if existsb (λ byte, negb (Byte.eqb byte x00)) (subslice ZERO_RUN_AT ZERO_RUN_LEN fixed) then None
  else
    let deflate_start := u32_at 2 fixed in
    let deflate_end := u32_at 6 fixed in
    let date := u16_at 10 fixed in
    let time := u16_at 12 fixed in
    let inflated_size := u32_at 14 fixed in
    let crc32 := u32_at 38 fixed in
    if (inflated_size =? 0) || (wl_max_inflated_bytes_per_stream limits <? inflated_size) then None
    else
      let offsets_plausible :=
        negb (deflate_start =? 0) && (deflate_start <? deflate_end) && (deflate_end <=? image_len) in
      let path_start := at_ + RECORD_PREFIX_BYTES in
      tail ← get_range path_start (len script) script;
      let scan := N.min (len tail) (saturating_add 64 (wl_max_path_bytes limits) 1) in
      terminator ← zero_position (take (N.to_nat scan) tail);
      if (terminator =? 0) || (wl_max_path_bytes limits <? terminator) then None
      else
        let path := take (N.to_nat terminator) tail in
        if negb (forallb path_byte path) then None
        else
          Some ({| fr_path := path; fr_deflate_start := deflate_start; fr_deflate_end := deflate_end;
                   fr_inflated_size := inflated_size; fr_crc32 := crc32;
                   fr_offsets_plausible := offsets_plausible; fr_date := date; fr_time := time;
                   fr_script_offset := at_ |},
                path_start + terminator + 1).

(** [score]. *)
Definition score (evidence : StreamEvidence) (record : FileRecord) : N :=
  (if confirms evidence (fr_inflated_size record) (fr_crc32 record) then 4 else 0) +
  (if negb (fr_crc32 record =? 0) then 1 else 0) +
  (if fr_offsets_plausible record then 1 else 0).

(** The loop over [1..ALIGNMENT_WINDOW]. *)
Fixpoint best_aligned (script : list byte) (at_ image_len : N) (limits : WiseLimits)
    (evidence : StreamEvidence) (deltas : list N) (best : FileRecord * N) : FileRecord * N :=
  match deltas with
  | [] => best
  | delta :: deltas =>
      let best :=
        match recognise script (at_ + delta) image_len limits with
        | Some candidate =>
            if score evidence best.1 <? score evidence candidate.1 then candidate else best
        | None => best
        end in
      best_aligned script at_ image_len limits evidence deltas best
  end.

Definition alignment_deltas : list N := map N.of_nat (seq 1 (ALIGNMENT_WINDOW - 1)).

(** The loop of [parse_with_evidence]: every turn moves on by a byte at least. *)
Fixpoint parse_loop (fuel : nat) (script : list byte) (image_len : N) (limits : WiseLimits)
    (evidence : StreamEvidence) (at_ : N) (records : list FileRecord)
  : result (Stop WiseError) (list FileRecord) :=
  match fuel with
  | O => Err OutOfFuel
  | S fuel =>
      if len script <=? at_ then Ok records
      else
        match recognise script at_ image_len limits with
        | None => parse_loop fuel script image_len limits evidence (at_ + 1) records
        | Some anchor =>
            let best := best_aligned script at_ image_len limits evidence alignment_deltas anchor in
            guard_err (wl_max_file_records limits <=? len records) (Fail (WE_LimitExceeded WL_FileRecords));;
            parse_loop fuel script image_len limits evidence (N.max best.2 (at_ + 1))
              (records ++ [best.1])
        end
  end.

(** [windows(2).all(..)]. *)
Fixpoint monotonic (records : list FileRecord) : bool :=
  match records with
  | a :: (b :: _) as rest => (fr_deflate_end a <=? fr_deflate_start b) && monotonic rest
  | _ => true
  end.

Definition parse_with_evidence (script : list byte) (overlay : Overlay) (limits : WiseLimits)
    (evidence : StreamEvidence) : result (Stop WiseError) FileTable :=
  guard_err (wl_max_script_bytes limits <? len script) (Fail (WE_LimitExceeded WL_ScriptBytes));;
  records ← parse_loop (S (length script)) script (ov_image_len overlay) limits evidence 0 [];
  Ok {| ft_records := records; ft_scanned_bytes := len script; ft_monotonic := monotonic records;
        ft_plausible := len (List.filter fr_offsets_plausible records) |}.

Definition parse (script : list byte) (overlay : Overlay) (limits : WiseLimits)
  : result (Stop WiseError) FileTable :=
  parse_with_evidence script overlay limits ∅.

(** ** The shape of a record *)

Definition zero_run : list byte := replicate 20 x00.

(** The documented layout: two unknown bytes, the fields, the terminated path. *)
Definition record_prefix (unknown : list byte) (r : FileRecord) : list byte :=
  unknown ++ le_bytes 4 (fr_deflate_start r) ++ le_bytes 4 (fr_deflate_end r) ++
  le_bytes 2 (fr_date r) ++ le_bytes 2 (fr_time r) ++ le_bytes 4 (fr_inflated_size r) ++
  zero_run ++ le_bytes 4 (fr_crc32 r).

Definition record_bytes (unknown : list byte) (r : FileRecord) : list byte :=
  record_prefix unknown r ++ fr_path r ++ [x00].

(** Fields of their widths, a size and a path within the ceilings. *)
Record record_ok (limits : WiseLimits) (image_len at_ : N) (r : FileRecord) : Prop := {
  ro_start : fits 32 (fr_deflate_start r);
  ro_end : fits 32 (fr_deflate_end r);
  ro_date : fits 16 (fr_date r);
  ro_time : fits 16 (fr_time r);
  ro_size : fits 32 (fr_inflated_size r);
  ro_crc : fits 32 (fr_crc32 r);
  ro_inflated : 0 < fr_inflated_size r ≤ wl_max_inflated_bytes_per_stream limits;
  ro_path : 0 < len (fr_path r) ≤ wl_max_path_bytes limits;
  ro_printable : Forall (λ b, 0x20 ≤ Byte.to_N b ∧ Byte.to_N b ≠ 0x7f) (fr_path r);
  ro_plausible : fr_offsets_plausible r = true ↔
    0 < fr_deflate_start r < fr_deflate_end r ∧ fr_deflate_end r ≤ image_len;
  ro_offset : fr_script_offset r = at_
}.

Lemma subslice_0_all {A} (l : list A) n : len l = n → subslice 0 n l = l.
Proof. intros <-. unfold subslice. rewrite len_to_nat. cbn. by apply take_ge. Qed.

Lemma subslice_split {A} a n m (l : list A) :
  n ≤ m → subslice a m l = subslice a n l ++ subslice (a + n) (m - n) l.
Proof. intros. rewrite subslice_app. f_equal. lia. Qed.

Lemma app_eq_split {A} (a b x y : list A) : len a = len x → a ++ b = x ++ y ↔ a = x ∧ b = y.
Proof.
  intros Hl. split; [|by intros [-> ->]]. intros E. apply app_inj_1 in E; [done|].
  unfold len in Hl. lia.
Qed.

(** A prefix is its fields. *)
Lemma prefix_pieces fixed unknown r :
  len fixed = 42 → len unknown = 2 →
  fixed = record_prefix unknown r ↔
  subslice 0 2 fixed = unknown ∧ subslice 2 4 fixed = le_bytes 4 (fr_deflate_start r) ∧
  subslice 6 4 fixed = le_bytes 4 (fr_deflate_end r) ∧ subslice 10 2 fixed = le_bytes 2 (fr_date r) ∧
  subslice 12 2 fixed = le_bytes 2 (fr_time r) ∧ subslice 14 4 fixed = le_bytes 4 (fr_inflated_size r) ∧
  subslice 18 20 fixed = zero_run ∧ subslice 38 4 fixed = le_bytes 4 (fr_crc32 r).
Proof.
  intros Hf Hu. unfold record_prefix. rewrite <-(subslice_0_all fixed 42) at 1 by done.
  rewrite (subslice_split 0 2 42), (subslice_split (0 + 2) 4), (subslice_split (0 + 2 + 4) 4),
    (subslice_split (0 + 2 + 4 + 4) 2), (subslice_split (0 + 2 + 4 + 4 + 2) 2),
    (subslice_split (0 + 2 + 4 + 4 + 2 + 2) 4), (subslice_split (0 + 2 + 4 + 4 + 2 + 2 + 4) 20) by done.
  rewrite !app_eq_split by (rewrite ?len_le_bytes, ?len_subslice by lia; done). done.
Qed.

Lemma no_nonzero l : existsb (λ byte, negb (Byte.eqb byte x00)) l = false ↔ l = replicate (length l) x00.
Proof.
  induction l as [|b l IH]; [done|]. cbn [existsb length replicate]. rewrite orb_false_iff, IH.
  rewrite negb_false_iff. split.
  - intros [Hb El]. f_equal; [by destruct b|done].
  - intros E. injection E as -> El. done.
Qed.

Lemma zero_position_Some l n :
  zero_position l = Some n ↔
  ∃ path rest, l = path ++ x00 :: rest ∧ len path = n ∧ Forall (λ b, b ≠ x00) path.
Proof.
  revert n. induction l as [|b l IH]; intros n; cbn [zero_position].
  { split; [done|]. intros (path & rest & E & _). by destruct path. }
  destruct (Byte.eqb b x00) eqn:Eb.
  - assert (b = x00) as -> by by destruct b. split.
    + intros [= <-]. by exists [], l.
    + intros (path & rest & E & <- & Hp). destruct path as [|c path]; [done|].
      injection E as <- _. by inversion Hp.
  - assert (b ≠ x00) as Hb by by intros ->. split.
    + intros (m & Hm & [= <-])%bind_Some. apply IH in Hm as (path & rest & -> & <- & Hp).
      exists (b :: path), rest. rewrite len_cons. split; [done|]. split; [done|by constructor].
    + intros (path & rest & E & <- & Hp). destruct path as [|c path].
      { injection E as -> _. done. }
      injection E as <- ->. inversion Hp; subst.
      rewrite (proj2 (IH (len path))) by by exists path, rest. cbn. by rewrite len_cons.
Qed.

Lemma path_bytes_spec l :
  forallb path_byte l = true ↔ Forall (λ b, 0x20 ≤ Byte.to_N b ∧ Byte.to_N b ≠ 0x7f) l.
Proof.
  rewrite forallb_forall, List.Forall_forall. apply forall_proper. intros b.
  unfold path_byte. by rewrite andb_true_iff, negb_true_iff, N.leb_le, N.eqb_neq.
Qed.

(** Nothing printable is a terminator. *)
Lemma printable_nonzero l :
  Forall (λ b, 0x20 ≤ Byte.to_N b ∧ Byte.to_N b ≠ 0x7f) l → Forall (λ b, b ≠ x00) l.
Proof. apply List.Forall_impl. intros b [Hb _] ->. by vm_compute in Hb. Qed.

(** The terminated path at the front of the bytes left. *)
Lemma path_scan tail max n :
  max < 2 ^ 64 - 1 →
  zero_position (take (N.to_nat (N.min (len tail) (saturating_add 64 max 1))) tail) = Some n ∧ n ≤ max ↔
  n ≤ max ∧ ∃ path rest, tail = path ++ x00 :: rest ∧ len path = n ∧ Forall (λ b, b ≠ x00) path.
Proof.
  intros Hmax. unfold saturating_add. rewrite (N.min_l (max + 1)) by lia. rewrite zero_position_Some. split.
  - intros [(path & rest & E & Hl & Hp) Hn]. split; [done|].
    exists path, (rest ++ drop (N.to_nat (N.min (len tail) (max + 1))) tail).
    split; [|done]. rewrite <-(take_drop (N.to_nat (N.min (len tail) (max + 1))) tail) at 1.
    by rewrite E, <-app_assoc.
  - intros [Hn (path & rest & -> & Hl & Hp)]. split; [|done].
    exists path, (take (N.to_nat (N.min (len (path ++ x00 :: rest)) (max + 1)) - S (length path)) rest).
    split; [|done]. rewrite len_app, len_cons.
    assert (length path < N.to_nat (N.min (len path + (1 + len rest)) (max + 1)))%nat by (unfold len in *; lia).
    rewrite take_app_ge by lia. f_equal.
    destruct (N.to_nat _ - length path)%nat eqn:Ed; [lia|]. cbn. f_equal. f_equal. lia.
Qed.

Lemma len_record unknown r : len unknown = 2 → len (record_bytes unknown r) = 42 + (len (fr_path r) + 1).
Proof.
  intros Hu. unfold record_bytes, record_prefix. rewrite !len_app, !len_le_bytes, Hu.
  change (len zero_run) with 20. change (len [x00]) with 1. lia.
Qed.

Lemma field_bytes n k w l : k + N.of_nat n ≤ len l → w = N.of_nat n →
  subslice k w l = le_bytes n (of_le_bytes (subslice k w l)).
Proof.
  intros Hl ->. symmetry. apply le_bytes_inj_len. apply Nat2N.inj. by apply len_subslice.
Qed.

Section recognise.
Context (script : list byte) (at_ image_len : N) (limits : WiseLimits).
Context (Hscript : len script < 2 ^ 64 - 42) (Hmax : wl_max_path_bytes limits < 2 ^ 64 - 1).

(** The documented layout at [at_], the next record at [next]. *)
Definition laid_out (r : FileRecord) (next : N) : Prop :=
  ∃ unknown, len unknown = 2 ∧ record_ok limits image_len at_ r ∧
    at_ + len (record_bytes unknown r) ≤ len script ∧ next = at_ + len (record_bytes unknown r) ∧
    subslice at_ (len (record_bytes unknown r)) script = record_bytes unknown r.

Lemma recognise_laid_out r next :
  recognise script at_ image_len limits = Some (r, next) → laid_out r next.
Proof.
  unfold recognise, RECORD_PREFIX_BYTES, ZERO_RUN_AT, ZERO_RUN_LEN.
  intros (stop & Hstop & E)%bind_Some. apply checked_add_Some in Hstop as [_ ->].
  apply bind_Some in E as (fixed & Hfixed & E). apply get_range_Some in Hfixed as (_ & Hin & ->).
  replace (at_ + 42 - at_) with 42 in E by lia. set (fixed := subslice at_ 42 script) in *.
  assert (len fixed = 42) as Hf by by apply len_subslice.
  destruct (existsb _ _) eqn:Hz; [done|]. apply no_nonzero in Hz.
  destruct (_ || _) eqn:Hsize; [done|]. apply orb_false_iff in Hsize as [Hs0%N.eqb_neq Hsm%N.ltb_ge].
  apply bind_Some in E as (tail & Htail & E). apply get_range_Some in Htail as (_ & _ & ->).
  set (tail := subslice (at_ + 42) _ script) in *.
  apply bind_Some in E as (n & Hn & E).
  destruct (_ || _) eqn:Hlen; [done|]. apply orb_false_iff in Hlen as [Hn0%N.eqb_neq Hnm%N.ltb_ge].
  destruct (proj1 (path_scan _ _ n Hmax) (conj Hn Hnm)) as (_ & path & rest & Et & El & Hnz).
  assert (take (N.to_nat n) tail = path) as Ep.
  { rewrite Et, <-El, len_to_nat. apply take_app_length. }
  rewrite Ep in E. destruct (forallb path_byte path) eqn:Hp; [|done]. apply path_bytes_spec in Hp.
  injection E as <- <-. exists (subslice 0 2 fixed).
  assert (len (subslice 0 2 fixed) = 2) as Hu by (apply len_subslice; lia). split; [done|].
  assert (len tail = len script - (at_ + 42)) as Htl by (apply len_subslice; lia).
  rewrite Et, len_app, len_cons in Htl.
  rewrite len_record by done. cbn [fr_path]. split; [|split; [lia|split; [lia|]]].
  - split; cbn [fr_deflate_start fr_deflate_end fr_date fr_time fr_inflated_size fr_crc32 fr_path
      fr_offsets_plausible fr_script_offset]; try apply u32_at_lt; try apply u16_at_lt; try done; try lia.
    rewrite !andb_true_iff, negb_true_iff, N.eqb_neq, N.ltb_lt, N.leb_le. lia.
  - rewrite (subslice_split at_ 42) by lia. fold fixed. unfold record_bytes. f_equal.
    + apply prefix_pieces; [done|done|]. cbn [fr_deflate_start fr_deflate_end fr_date fr_time fr_inflated_size fr_crc32].
      split; [done|]. unfold u16_at, u32_at.
      repeat split; try (apply field_bytes; [rewrite Hf; by vm_compute|done]).
      etrans; [exact Hz|]. unfold zero_run. f_equal. unfold subslice.
      rewrite length_take, length_drop. unfold len in Hf. lia.
    + cbn [fr_path]. replace (42 + (len path + 1) - 42) with (len path + 1) by lia.
      rewrite <-(take_subslice (at_ + 42) (len script - (at_ + 42))) by lia. fold tail. rewrite Et.
      replace (N.to_nat (len path + 1)) with (length path + 1)%nat by (unfold len; lia).
      rewrite take_app_ge by lia. f_equal.
      by replace (length path + 1 - length path)%nat with 1%nat by lia.
Qed.

Lemma laid_out_recognise r next :
  laid_out r next → recognise script at_ image_len limits = Some (r, next).
Proof.
  intros (unknown & Hu & Hok & Hin & -> & E). pose proof (len_record unknown r Hu) as Hl.
  rewrite Hl in *. destruct Hok as [Hst Hen Hda Hti Hsi Hcr Hinf Hpa Hpr Hpl Hof].
  rewrite (subslice_split at_ 42) in E by lia. unfold record_bytes in E.
  apply app_eq_split in E as [Efix Epath].
  2:{ rewrite len_subslice by lia. unfold record_prefix. rewrite !len_app, !len_le_bytes, Hu. by vm_compute. }
  set (fixed := subslice at_ 42 script) in *.
  assert (len fixed = 42) as Hf by (apply len_subslice; lia).
  apply prefix_pieces in Efix as (_ & E1 & E2 & E3 & E4 & E5 & E6 & E7); [|done|done].
  replace (42 + (len (fr_path r) + 1) - 42) with (len (fr_path r) + 1) in Epath by lia.
  unfold recognise, RECORD_PREFIX_BYTES, ZERO_RUN_AT, ZERO_RUN_LEN.
  rewrite (proj2 (checked_add_Some 64 at_ 42 (at_ + 42))) by lia. cbn [mbind option_bind].
  rewrite (proj2 (get_range_Some at_ (at_ + 42) script fixed)).
  2:{ unfold fixed. replace (at_ + 42 - at_) with 42 by lia. split; [lia|]. split; [lia|done]. }
  cbn [mbind option_bind]. rewrite E6. cbn [existsb zero_run replicate Byte.eqb negb orb].
  assert (∀ n w v, w = 8 * N.of_nat n → fits w v → of_le_bytes (le_bytes n v) = v) as Hid by apply of_le_bytes_id.
  unfold u16_at, u32_at. rewrite E1, E2, E3, E4, E5, E7.
  rewrite !(Hid 4%nat 32), !(Hid 2%nat 16) by done.
  rewrite (proj2 (N.eqb_neq _ 0)), (proj2 (N.ltb_ge _ _)) by lia. cbn [orb].
  set (tail := subslice (at_ + 42) (len script - (at_ + 42)) script).
  rewrite (proj2 (get_range_Some (at_ + 42) (len script) script tail)) by (split; [lia|split; [lia|done]]).
  cbn [mbind option_bind].
  assert (tail = fr_path r ++ x00 :: drop (S (length (fr_path r))) tail) as Et.
  { rewrite <-(take_subslice (at_ + 42) (len script - (at_ + 42))) in Epath by lia. fold tail in Epath.
    rewrite <-(take_drop (S (length (fr_path r))) tail) at 1.
    replace (N.to_nat (len (fr_path r) + 1)) with (S (length (fr_path r))) in Epath by (unfold len; lia).
    by rewrite Epath, <-app_assoc. }
  destruct (proj2 (path_scan tail (wl_max_path_bytes limits) (len (fr_path r)) Hmax)) as [-> _].
  { split; [lia|]. eexists _, _. split; [exact Et|]. split; [done|by apply printable_nonzero]. }
  cbn [mbind option_bind]. rewrite (proj2 (N.eqb_neq _ 0)), (proj2 (N.ltb_ge _ _)) by lia. cbn [orb].
  replace (take (N.to_nat (len (fr_path r))) tail) with (fr_path r)
    by (rewrite Et, len_to_nat, take_app_length; done).
  rewrite (proj2 (path_bytes_spec _)) by done. cbn [negb]. do 2 f_equal; [|lia].
  destruct r as [pa st en si cr pl da ti of_]. cbn in *. subst of_. f_equal. apply eq_true_iff_eq.
  rewrite Hpl, !andb_true_iff, negb_true_iff, N.eqb_neq, N.ltb_lt, N.leb_le. lia.
Qed.
End recognise.

(** ** The scan *)

Section scan.
Context (script : list byte) (image_len : N) (limits : WiseLimits) (evidence : StreamEvidence).
Context (Hscript : len script < 2 ^ 64 - 42) (Hmax : wl_max_path_bytes limits < 2 ^ 64 - 1).

Definition recognised (p : N) : option (FileRecord * N) := recognise script p image_len limits.

(** The records a scan finds from a position on. It passes over positions where
    nothing is recognised; at the first where something is, the records that
    begin within eight bytes compete, the best supported wins and of equals the
    first; and it goes on behind the winner. *)
Inductive scanned : N → list FileRecord → Prop :=
| scanned_end at_ :
    (∀ p, at_ ≤ p → p < len script → recognised p = None) → scanned at_ []
| scanned_take at_ anchor r next rest :
    at_ ≤ anchor → anchor < len script →
    (∀ p, at_ ≤ p → p < anchor → recognised p = None) → recognised anchor ≠ None →
    recognised (fr_script_offset r) = Some (r, next) →
    anchor ≤ fr_script_offset r < anchor + 8 →
    (∀ p c n, anchor ≤ p < anchor + 8 → recognised p = Some (c, n) →
       score evidence c ≤ score evidence r ∧
       (p < fr_script_offset r → score evidence c < score evidence r)) →
    scanned next rest → scanned at_ (r :: rest).

Lemma recognised_bounds p r next :
  recognised p = Some (r, next) → fr_script_offset r = p ∧ p + 43 ≤ next ∧ next ≤ len script.
Proof.
  intros E. apply recognise_laid_out in E; [|exact Hscript|exact Hmax]. destruct E as (unknown & Hu & Hok & Hin & -> & _).
  rewrite len_record in * by done. destruct Hok. split; [done|]. lia.
Qed.

(** The winner of the positions [anchor .. anchor + from + n) looked at so far. *)
Lemma best_aligned_run anchor from n best best_next :
  recognised (fr_script_offset best) = Some (best, best_next) →
  anchor ≤ fr_script_offset best < anchor + N.of_nat from →
  (∀ p c next, anchor ≤ p < anchor + N.of_nat from → recognised p = Some (c, next) →
     score evidence c ≤ score evidence best ∧
     (p < fr_script_offset best → score evidence c < score evidence best)) →
  ∃ r next, best_aligned script anchor image_len limits evidence (map N.of_nat (seq from n))
      (best, best_next) = (r, next) ∧
    recognised (fr_script_offset r) = Some (r, next) ∧
    anchor ≤ fr_script_offset r < anchor + N.of_nat (from + n) ∧
    ∀ p c next, anchor ≤ p < anchor + N.of_nat (from + n) → recognised p = Some (c, next) →
      score evidence c ≤ score evidence r ∧
      (p < fr_script_offset r → score evidence c < score evidence r).
Proof.
  revert from best best_next. induction n as [|n IH]; intros from best bn Hb Hin Hall.
  { exists best, bn. rewrite Nat.add_0_r. by cbn. }
  cbn [seq map best_aligned]. fold (recognised (anchor + N.of_nat from)).
  replace (from + S n)%nat with (S from + n)%nat by lia.
  assert (Hsplit : ∀ p, anchor ≤ p < anchor + N.of_nat (S from) →
    anchor ≤ p < anchor + N.of_nat from ∨ p = anchor + N.of_nat from) by lia.
  destruct (recognised (anchor + N.of_nat from)) as [[c cn]|] eqn:Ec.
  - destruct (recognised_bounds _ _ _ Ec) as [Ho _]. cbn [fst].
    destruct (N.ltb_spec (score evidence best) (score evidence c)).
    + apply IH; [by rewrite Ho|rewrite Ho; lia|].
      intros p c' n' [Hp| ->]%Hsplit Ep.
      * destruct (Hall p c' n' Hp Ep) as [? _]. lia.
      * rewrite Ec in Ep. injection Ep as <- <-. split; [lia|]. rewrite Ho. lia.
    + apply IH; [done|lia|]. intros p c' n' [Hp| ->]%Hsplit Ep; [by apply (Hall p c' n')|].
      rewrite Ec in Ep. injection Ep as <- <-. split; [done|lia].
  - apply IH; [done|lia|]. intros p c' n' [Hp| ->]%Hsplit Ep; [by apply (Hall p c' n')|congruence].
Qed.

Lemma parse_loop_run fuel at_ records :
  len script - at_ < N.of_nat fuel → len records ≤ wl_max_file_records limits →
  ∃ found, scanned at_ found ∧
    parse_loop fuel script image_len limits evidence at_ records =
    if wl_max_file_records limits <? len records + len found
    then Err (Fail (WE_LimitExceeded WL_FileRecords)) else Ok (records ++ found).
Proof.
  revert at_ records. induction fuel as [|fuel IH]; intros at_ records Hf Hr; [lia|].
  cbn [parse_loop]. destruct (N.leb_spec (len script) at_) as [Hend|Hin].
  { exists []. split; [constructor; lia|]. rewrite len_nil, app_nil_r.
    by rewrite (proj2 (N.ltb_ge _ _)) by lia. }
  fold (recognised at_). destruct (recognised at_) as [[anchor anchor_next]|] eqn:Ea.
  - destruct (recognised_bounds _ _ _ Ea) as (Ho & Hnext & _).
    destruct (best_aligned_run at_ 1 7 anchor anchor_next) as (r & next & Eb & Er & Hor & Hbest).
    { by rewrite Ho. } { lia. }
    { intros p c n Hp Ep. assert (p = at_) as -> by lia. rewrite Ea in Ep. injection Ep as <- <-.
      split; [done|]. rewrite Ho. lia. }
    change alignment_deltas with (map N.of_nat (seq 1 7)). rewrite Eb. cbn [fst snd].
    destruct (recognised_bounds _ _ _ Er) as (_ & Hrn & _).
    rewrite N.max_l by lia. destruct (N.leb_spec (wl_max_file_records limits) (len records)) as [Hfull|Hroom].
    + destruct (IH next []) as (found & Hs & _); [lia|rewrite len_nil; lia|].
      exists (r :: found). split.
      * apply (scanned_take at_ at_ r next found); 
          [lia|lia|lia|by rewrite Ea|exact Er|exact Hor|exact Hbest|exact Hs].
      * cbn [guard_err mbind result_bind]. rewrite len_cons.
        by rewrite (proj2 (N.ltb_lt _ _)) by lia.
    + cbn [guard_err mbind result_bind]. destruct (IH next (records ++ [r])) as (found & Hs & E); [lia|..].
      { rewrite len_app. change (len [r]) with 1. lia. }
      exists (r :: found). split.
      * apply (scanned_take at_ at_ r next found); 
          [lia|lia|lia|by rewrite Ea|exact Er|exact Hor|exact Hbest|exact Hs].
      * rewrite E, len_app, <-app_assoc. change (len [r]) with 1. rewrite len_cons.
        by replace (len records + 1 + len found) with (len records + (1 + len found)) by lia.
  - destruct (IH (at_ + 1) records) as (found & Hs & E); [lia|done|].
    exists found. split; [|done]. inversion Hs as [a Hnone|a anchor r next rest Hle Hlt Hnone Hsome Hrec Hoff Hbest Hrest];
      subst.
    + constructor. intros p H1 H2. destruct (N.eq_dec p at_) as [->|]; [done|]. apply Hnone; lia.
    + apply (scanned_take at_ anchor r next rest); try done; [lia|].
      intros p H1 H2. destruct (N.eq_dec p at_) as [->|]; [done|]. apply Hnone; lia.
Qed.
End scan.

(** ** Properties *)

(** A recognised record is the documented layout: recognising succeeds at a
    position exactly if the script continues there with two unknown bytes, the
    record's fields in their order and width, and its terminated path, all
    within the script and the ceilings; it returns these fields and the
    position behind the terminator. *)
Theorem recognise_exact script at_ image_len limits r next :
  len script < 2 ^ 64 - 42 → wl_max_path_bytes limits < 2 ^ 64 - 1 →
  recognise script at_ image_len limits = Some (r, next) ↔
  ∃ unknown, len unknown = 2 ∧ record_ok limits image_len at_ r ∧
    at_ + len (record_bytes unknown r) ≤ len script ∧ next = at_ + len (record_bytes unknown r) ∧
    subslice at_ (len (record_bytes unknown r)) script = record_bytes unknown r.
Proof.
  intros Hscript Hmax. split.
  - by apply recognise_laid_out.
  - by apply laid_out_recognise.
Qed.

(** Parsing a script always ends, and its table holds exactly the records a
    scan of the positions finds: nothing recognisable is passed over except in
    favour of a better supported record within eight bytes or inside a record
    already taken. It fails only for a script or a number of records over the
    ceiling. *)
Theorem parse_exact script overlay limits evidence :
  len script < 2 ^ 64 - 42 → wl_max_path_bytes limits < 2 ^ 64 - 1 →
  ∃ found, scanned script (ov_image_len overlay) limits evidence 0 found ∧
    parse_with_evidence script overlay limits evidence =
    if wl_max_script_bytes limits <? len script then Err (Fail (WE_LimitExceeded WL_ScriptBytes))
    else if wl_max_file_records limits <? len found then Err (Fail (WE_LimitExceeded WL_FileRecords))
    else Ok {| ft_records := found; ft_scanned_bytes := len script; ft_monotonic := monotonic found;
               ft_plausible := len (List.filter fr_offsets_plausible found) |}.
Proof.
  intros Hscript Hmax. unfold parse_with_evidence.
  destruct (parse_loop_run script (ov_image_len overlay) limits evidence Hscript Hmax
    (S (length script)) 0 []) as (found & Hs & E); [unfold len; lia|apply N.le_0_l|].
  exists found. split; [done|]. destruct (wl_max_script_bytes limits <? len script); [done|].
  cbn [guard_err mbind result_bind]. rewrite E, len_nil, N.add_0_l.
  by destruct (wl_max_file_records limits <? len found).
Qed.

(** The records found do not overlap, in script order. *)
Theorem scanned_disjoint script image_len limits evidence at_ found :
  len script < 2 ^ 64 - 42 → wl_max_path_bytes limits < 2 ^ 64 - 1 →
  scanned script image_len limits evidence at_ found →
  Sorted.StronglySorted (λ a b, fr_script_offset a + 43 ≤ fr_script_offset b) found ∧
  Forall (λ r, at_ ≤ fr_script_offset r) found.
Proof.
  intros Hscript Hmax. induction 1 as [|a anchor r next rest Hle _ _ _ Hrec [Hoff _] _ _ [IH1 IH2]].
  { by split; constructor. }
  destruct (recognised_bounds script image_len limits Hscript Hmax _ _ _ Hrec) as (_ & Hn & _). split.
  - constructor; [done|]. eapply List.Forall_impl; [|exact IH2]. cbn. intros b Hb. lia.
  - constructor; [lia|]. eapply List.Forall_impl; [|exact IH2]. cbn. intros b Hb. lia.
Qed.
