(* ===== verification/WiseExtract.v ===== *)
(** * Records and streams

    [crates/ohl-wise/src/extract.rs]: which stream of the chain holds a record's
    file, by content first and by stored offset second, and reading one file
    out with its checksums verified. *)

From stdpp Require Import gmap sets.
From S2P Require Export WiseScript.

Inductive OffsetOrigin : Type := OverlayRelative | ImageAbsolute | FirstStreamRelative.

#[export] Instance OffsetOrigin_eq_dec : EqDecision OffsetOrigin.
Proof. solve_decision. Defined.

Definition OFFSET_ORIGINS : list OffsetOrigin := [OverlayRelative; ImageAbsolute; FirstStreamRelative].

Definition origin_base (self : OffsetOrigin) (overlay : Overlay) (first_stream : N) : N :=
  match self with
  | OverlayRelative => ov_offset overlay
  | ImageAbsolute => 0
  | FirstStreamRelative => first_stream
  end.

Inductive MatchKind : Type := MK_Content | MK_Offset.

#[export] Instance MatchKind_eq_dec : EqDecision MatchKind.
Proof. solve_decision. Defined.

Record Entry : Type := {
  en_record_index : N;
  en_stream_index : option N;
  en_matched_by : option MatchKind;
  en_declared_inflated_size : N;
  en_stream_inflated_size : option N;
  en_declared_crc32 : N;
  en_path_len : N
}.

Record FileMap : Type := {
  fm_origin : option OffsetOrigin;
  fm_entries : list Entry;
  fm_streams : list StreamMetrics;
  fm_unnamed : list N
}.

(** Whether a stream is where a record says its data starts. *)
Definition offset_matches (base : N) (record : FileRecord) (stream : StreamRecord) : bool :=
  rec_offset stream =? wrapping_add 64 base (fr_deflate_start record).

Definition offset_match_count (table : FileTable) (streams : list StreamRecord) (overlay : Overlay)
    (first_stream : N) (origin : OffsetOrigin) : N :=
  let base := origin_base origin overlay first_stream in
  len (List.filter (λ record, existsb (offset_matches base record) streams)
         (List.filter fr_offsets_plausible (ft_records table))).

(** [Iterator::max_by_key]: of several greatest elements, the last. *)
Definition max_by_count {A} (l : list (N * A)) : option (N * A) :=
  fold_left (λ best x, match best with
    | None => Some x
    | Some best => if best.1 <=? x.1 then Some x else Some best
    end) l None.

Definition choose_origin (table : FileTable) (streams : list StreamRecord) (overlay : Overlay)
    (first_stream : N) : option OffsetOrigin :=
  match max_by_count (map (λ origin, (offset_match_count table streams overlay first_stream origin,
                                      origin)) OFFSET_ORIGINS) with
  | Some (count, origin) => if 0 <? count then Some origin else None
  | None => None
  end.

(** The first stream no record has claimed that passes a test. *)
Definition find_unclaimed (claimed : gset N) (test : StreamRecord → bool) (streams : list StreamRecord)
  : option StreamRecord :=
  List.find (λ stream, negb (bool_decide (rec_index stream ∈ claimed)) && test stream) streams.

Definition content_matches (record : FileRecord) (stream : StreamRecord) : bool :=
  (sm_computed_crc32 (rec_metrics stream) =? fr_crc32 record) &&
  (rec_inflated_len stream =? fr_inflated_size record).

Definition Resolved : Type := option (N * MatchKind).

(** Pass one, a record at a time. *)
Fixpoint content_pass (streams : list StreamRecord) (records : list FileRecord) (claimed : gset N)
  : gset N * list Resolved :=
  match records with
  | [] => (claimed, [])
  | record :: records =>
      let found :=
        if fr_crc32 record =? 0 then None
        else find_unclaimed claimed (content_matches record) streams in
      let '(claimed, resolved) :=
        match found with
        | Some stream => ({[rec_index stream]} ∪ claimed, Some (rec_index stream, MK_Content))
        | None => (claimed, None)
        end in
      let '(claimed, rest) := content_pass streams records claimed in
      (claimed, resolved :: rest)
  end.

(** Pass two, over what pass one left. *)
Fixpoint offset_pass (base : N) (streams : list StreamRecord) (records : list (FileRecord * Resolved))
    (claimed : gset N) : gset N * list Resolved :=
  match records with
  | [] => (claimed, [])
  | (record, resolved) :: records =>
      let found :=
        match resolved with
        | Some _ => None
        | None =>
            if negb (fr_offsets_plausible record) then None
            else find_unclaimed claimed (offset_matches base record) streams
        end in
      let '(claimed, resolved) :=
        match found with
        | Some stream => ({[rec_index stream]} ∪ claimed, Some (rec_index stream, MK_Offset))
        | None => (claimed, resolved)
        end in
      let '(claimed, rest) := offset_pass base streams records claimed in
      (claimed, resolved :: rest)
  end.

Definition entry_of (streams : list StreamRecord) (record_index : nat)
    (record : FileRecord * Resolved) : Entry :=
  let '(record, matched) := record in
  {| en_record_index := N.of_nat record_index;
     en_stream_index := fst <$> matched;
     en_matched_by := snd <$> matched;
     en_declared_inflated_size := fr_inflated_size record;
     en_stream_inflated_size :=
       '(index, _) ← matched;
       rec_inflated_len <$> List.find (λ stream, rec_index stream =? index) streams;
     en_declared_crc32 := fr_crc32 record;
     en_path_len := len (fr_path record) |}.

(** The two passes, the second only when an origin was chosen. *)
Definition resolve_records (streams : list StreamRecord) (records : list FileRecord)
    (base : option N) : gset N * list Resolved :=
  let '(claimed, resolved) := content_pass streams records ∅ in
  match base with
  | Some base => offset_pass base streams (zip records resolved) claimed
  | None => (claimed, resolved)
  end.

Definition first_stream_of (streams : list StreamRecord) (overlay : Overlay) : N :=
  match streams with
  | [] => ov_offset overlay
  | stream :: _ => rec_offset stream
  end.

Definition file_map_build (table : FileTable) (streams : list StreamRecord) (overlay : Overlay)
  : FileMap :=
  let first_stream := first_stream_of streams overlay in
  let origin := choose_origin table streams overlay first_stream in
  let '(claimed, resolved) :=
    resolve_records streams (ft_records table)
      ((λ origin, origin_base origin overlay first_stream) <$> origin) in
  {| fm_origin := origin;
     fm_entries := imap (entry_of streams) (zip (ft_records table) resolved);
     fm_streams := map rec_metrics streams;
     fm_unnamed := List.filter (λ index, negb (bool_decide (index ∈ claimed)))
                     (map rec_index streams) |}.

Definition content_matched_count (self : FileMap) : N :=
  len (List.filter (λ entry, bool_decide (en_matched_by entry = Some MK_Content)) (fm_entries self)).

Definition mapped_count (self : FileMap) : N :=
  len (List.filter (λ entry, bool_decide (is_Some (en_stream_index entry))) (fm_entries self)).

(** ** [FileReader] *)

Record FileReader (I : Type) : Type := {
  fd_reader : StreamReader I;
  fd_declared_crc32 : N;
  fd_declared_inflated_size : N
}.
Arguments fd_reader {I} _.
Arguments fd_declared_crc32 {I} _.
Arguments fd_declared_inflated_size {I} _.

Section file.
Context {I : Type} `{Inflater I}.

Definition open_file (self : FileMap) (table : FileTable) (index : N) (limits : WiseLimits)
  : result WiseError (FileReader I) :=
  entry ← ok_or (fm_entries self !! N.to_nat index) WE_IndexOutOfRange;
  record ← table_record table index;
  stream_index ← ok_or (en_stream_index entry) WE_NoStreamForRecord;
  metrics ← ok_or (fm_streams self !! N.to_nat stream_index) WE_NoStreamForRecord;
  Ok {| fd_reader := reader_new (sm_compressed_offset metrics) limits;
        fd_declared_crc32 := fr_crc32 record;
        fd_declared_inflated_size := fr_inflated_size record |}.

Definition open_stream (self : FileMap) (index : N) (limits : WiseLimits)
  : result WiseError (FileReader I) :=
  metrics ← ok_or (fm_streams self !! N.to_nat index) WE_IndexOutOfRange;
  Ok {| fd_reader := reader_new (sm_compressed_offset metrics) limits;
        fd_declared_crc32 := 0; fd_declared_inflated_size := 0 |}.

Context {S : Type} `{ImageSource S} `{WiseCancellation S}.

Definition put_fd_reader (reader : StreamReader I) (self : FileReader I) : FileReader I :=
  {| fd_reader := reader; fd_declared_crc32 := fd_declared_crc32 self;
     fd_declared_inflated_size := fd_declared_inflated_size self |}.

Definition fd_stream {A} (m : W (StreamReader I * S) A) : W (FileReader I * S) A :=
  zoom (λ s, (fd_reader s.1, s.2)) (λ t s, (put_fd_reader t.1 s.1, t.2)) m.

Definition file_read (out_len : N) : W (FileReader I * S) (list byte) := fd_stream (stream_read out_len).

Definition file_is_finished (self : FileReader I) : bool := sr_finished (fd_reader self).

Definition file_finish : W (FileReader I * S) StreamMetrics :=
  metrics ← fd_stream stream_finish;
  self ← get;
  reject (bool_decide (sm_checksum metrics = CS_Mismatch)) WE_ChecksumMismatch;;
  reject (negb (fd_declared_crc32 self.1 =? 0) &&
          negb (fd_declared_crc32 self.1 =? sm_computed_crc32 metrics)) WE_ChecksumMismatch;;
  reject (negb (fd_declared_inflated_size self.1 =? 0) &&
          negb (fd_declared_inflated_size self.1 =? sm_inflated_len metrics)) WE_ChecksumMismatch;;
  mret metrics.

Context {K : Type} `{Sink K}.

(** One turn of [read_all]'s loop. *)
Definition read_all_turn (limits : WiseLimits) (_ : unit) : W ((FileReader I * S) * K) (unit + unit) :=
  written ← zoom fst (λ t s, (t, s.2)) (file_read (wise_chunk_bytes limits));
  (if 0 <? len written then zoom snd (λ k s, (s.1, k)) (sink_write written) else mret tt);;
  self ← get;
  mret (if file_is_finished self.1.1 || (len written =? 0) then inr tt else inl tt).

Definition read_all (limits : WiseLimits) : W ((FileReader I * S) * K) StreamMetrics :=
  loop_W (read_all_turn limits) tt;;
  zoom fst (λ t s, (t, s.2)) file_finish.
End file.

(** ** What the passes do *)

Definition claims (rs : list Resolved) : list N := omap (fmap fst) rs.

Section passes.
Context (streams : list StreamRecord).

(** A stream with this index passes the test. *)
Definition holds_of (index : N) (test : StreamRecord → bool) : Prop :=
  ∃ stream, stream ∈ streams ∧ rec_index stream = index ∧ test stream = true.

(** Every stream that passes the test is claimed. *)
Definition exhausted (claimed : gset N) (test : StreamRecord → bool) : Prop :=
  ∀ stream, stream ∈ streams → test stream = true → rec_index stream ∈ claimed.

Lemma find_unclaimed_Some claimed test stream :
  find_unclaimed claimed test streams = Some stream →
  stream ∈ streams ∧ (rec_index stream ∉ claimed) ∧ test stream = true.
Proof.
  intros [Hin E]%List.find_some. apply andb_true_iff in E as [E Ht].
  apply negb_true_iff, bool_decide_eq_false in E. split; [by apply list_elem_of_In|done].
Qed.

Lemma find_unclaimed_None claimed test :
  find_unclaimed claimed test streams = None → exhausted claimed test.
Proof.
  intros E stream Hin Ht. apply list_elem_of_In in Hin.
  pose proof (List.find_none _ _ E stream Hin) as Hn. cbn in Hn. rewrite Ht, andb_true_r in Hn.
  by apply negb_false_iff, bool_decide_eq_true in Hn.
Qed.

Lemma exhausted_mono claimed claimed' test :
  claimed ⊆ claimed' → exhausted claimed test → exhausted claimed' test.
Proof. intros Hsub He stream Hin Ht. by apply Hsub, He. Qed.

(** What pass one says of a record. *)
Definition content_outcome (claimed : gset N) (record : FileRecord) (r : Resolved) : Prop :=
  match r with
  | Some (index, kind) =>
      kind = MK_Content ∧ fr_crc32 record ≠ 0 ∧ holds_of index (content_matches record)
  | None => fr_crc32 record = 0 ∨ exhausted claimed (content_matches record)
  end.

Lemma content_pass_spec records claimed :
  let out := content_pass streams records claimed in
  out.1 = claimed ∪ list_to_set (claims out.2) ∧
  NoDup (claims out.2) ∧ (∀ i, i ∈ claims out.2 → i ∉ claimed) ∧
  Forall2 (content_outcome out.1) records out.2.
Proof.
  revert claimed. induction records as [|record records IH]; intros claimed; cbn [content_pass].
  { cbn. split; [set_solver|]. split; [constructor|]. split; [set_solver|constructor]. }
  destruct (if fr_crc32 record =? 0 then None else _) as [stream|] eqn:Ef.
  - destruct (fr_crc32 record =? 0) eqn:Ec; [done|]. apply N.eqb_neq in Ec.
    apply find_unclaimed_Some in Ef as (Hin & Hnew & Ht).
    specialize (IH ({[rec_index stream]} ∪ claimed)).
    destruct (content_pass streams records _) as [claimed' rest]. cbn [fst snd] in *.
    destruct IH as (Ecl & Hnd & Hfresh & Hall). change (claims (Some ?p :: rest)) with (p.1 :: claims rest).
    cbn [fst]. split; [rewrite Ecl; set_solver|]. split.
    + constructor; [|done]. intros Hi. apply Hfresh in Hi. set_solver.
    + split; [set_solver|]. constructor; [|done]. split; [done|]. split; [done|]. by exists stream.
  - specialize (IH claimed). destruct (content_pass streams records claimed) as [claimed' rest].
    cbn [fst snd] in *. destruct IH as (Ecl & Hnd & Hfresh & Hall).
    change (claims (None :: rest)) with (claims rest). split; [done|]. split; [done|]. split; [done|].
    constructor; [|done]. cbn. destruct (N.eqb_spec (fr_crc32 record) 0); [by left|right].
    apply find_unclaimed_None in Ef. eapply exhausted_mono; [|exact Ef]. rewrite Ecl. set_solver.
Qed.

(** What pass two makes of a record and what pass one said of it. *)
Definition offset_outcome (base : N) (claimed : gset N) (p : FileRecord * Resolved) (r : Resolved) : Prop :=
  match p.2, r with
  | Some _, _ => r = p.2
  | None, Some (index, kind) =>
      kind = MK_Offset ∧ fr_offsets_plausible p.1 = true ∧ holds_of index (offset_matches base p.1)
  | None, None => fr_offsets_plausible p.1 = true → exhausted claimed (offset_matches base p.1)
  end.

Lemma offset_pass_spec base ps claimed :
  NoDup (claims (snd <$> ps)) → (∀ i, i ∈ claims (snd <$> ps) → i ∈ claimed) →
  let out := offset_pass base streams ps claimed in
  claimed ⊆ out.1 ∧ (∀ i, i ∈ out.1 → i ∈ claimed ∨ i ∈ claims out.2) ∧
  NoDup (claims out.2) ∧ (∀ i, i ∈ claims out.2 → i ∈ out.1 ∧ (i ∈ claims (snd <$> ps) ∨ i ∉ claimed)) ∧
  Forall2 (offset_outcome base out.1) ps out.2.
Proof.
  revert claimed. induction ps as [|[record r] ps IH]; intros claimed Hnd Hsub; cbn [offset_pass].
  { cbn. split; [done|]. split; [by left|]. split; [constructor|]. split; [set_solver|constructor]. }
  set (found := match r with Some _ => None | None => _ end).
  destruct r as [[j kind]|].
  - change (claims (snd <$> (record, Some (j, kind)) :: ps)) with (j :: claims (snd <$> ps)) in *.
    apply list.NoDup_cons in Hnd as [Hj Hnd]. specialize (IH claimed Hnd ltac:(set_solver)).
    subst found. cbn iota. destruct (offset_pass base streams ps claimed) as [claimed' rest]. cbn [fst snd] in *.
    destruct IH as (H1 & H2 & H3 & H4 & H5). change (claims (Some (j, kind) :: rest)) with (j :: claims rest).
    split; [done|]. split; [set_solver|]. split.
    + constructor; [|done]. intros Hi. destruct (H4 j Hi) as [_ [?|Hn]]; [done|]. apply Hn, Hsub. left.
    + split; [|by constructor]. intros i [->|Hi]%elem_of_cons.
      * split; [apply H1, Hsub; left|left; left].
      * destruct (H4 i Hi) as [? [?|?]]; (split; [done|]); [left; by right|by right].
  - change (claims (snd <$> (record, None) :: ps)) with (claims (snd <$> ps)) in *.
    destruct found as [stream|] eqn:Ef; subst found.
    + destruct (fr_offsets_plausible record) eqn:Ep; [|done]. cbn [negb] in Ef.
      apply find_unclaimed_Some in Ef as (Hin & Hnew & Ht).
      specialize (IH ({[rec_index stream]} ∪ claimed) Hnd ltac:(set_solver)).
      destruct (offset_pass base streams ps _) as [claimed' rest]. cbn [fst snd] in *.
      destruct IH as (H1 & H2 & H3 & H4 & H5).
      change (claims (Some (rec_index stream, MK_Offset) :: rest)) with (rec_index stream :: claims rest).
      split; [set_solver|]. split; [set_solver|]. split.
      * constructor; [|done]. intros Hi. destruct (H4 _ Hi) as [_ [Hc|Hn]]; [by apply Hsub in Hc|].
        apply Hn. set_solver.
      * split; [|constructor; [|done]].
        -- intros i [->|Hi]%elem_of_cons; [split; [set_solver|by right]|].
           destruct (H4 i Hi) as [? [?|?]]; (split; [done|]); [by left|right; set_solver].
        -- cbn. split; [done|]. split; [done|]. by exists stream.
    + specialize (IH claimed Hnd Hsub). destruct (offset_pass base streams ps claimed) as [claimed' rest].
      cbn [fst snd] in *. destruct IH as (H1 & H2 & H3 & H4 & H5).
      change (claims (None :: rest)) with (claims rest).
      split; [done|]. split; [done|]. split; [done|]. split; [done|]. constructor; [|done]. cbn.
      intros Hp. rewrite Hp in Ef. cbn [negb] in Ef. apply find_unclaimed_None in Ef.
      by eapply exhausted_mono.
Qed.

(** What the two passes together say of a record. *)
Definition outcome (base : option N) (claimed : gset N) (record : FileRecord) (r : Resolved) : Prop :=
  let no_content := fr_crc32 record = 0 ∨ exhausted claimed (content_matches record) in
  match r with
  | Some (index, MK_Content) => fr_crc32 record ≠ 0 ∧ holds_of index (content_matches record)
  | Some (index, MK_Offset) =>
      no_content ∧
      ∃ b, base = Some b ∧ fr_offsets_plausible record = true ∧ holds_of index (offset_matches b record)
  | None =>
      no_content ∧
      ∀ b, base = Some b → fr_offsets_plausible record = true → exhausted claimed (offset_matches b record)
  end.

Lemma elem_claims_cons i r rs : i ∈ claims (r :: rs) ↔ (∃ k, r = Some (i, k)) ∨ i ∈ claims rs.
Proof.
  destruct r as [[j k]|].
  - change (claims (Some (j, k) :: rs)) with (j :: claims rs). rewrite elem_of_cons.
    split; (intros [E|E]; [left|by right]); [subst; by exists k|by destruct E as [? [= <-]]].
  - change (claims (None :: rs)) with (claims rs). split; [by right|by intros [[k [=]]|]].
Qed.

Lemma claims_covered base claimed records rs :
  Forall2 (outcome base claimed) records rs → ∀ i, i ∈ claims rs → i ∈ rec_index <$> streams.
Proof.
  induction 1 as [|record r records rs Hr _ IH]; intros i Hi; [by apply elem_of_nil in Hi|].
  apply elem_claims_cons in Hi as [[k ->]|Hi]; [|by apply IH].
  assert (∃ test, holds_of i test) as (test & stream & Hin & <- & _).
  { destruct k; cbn in Hr; [by destruct Hr; eexists|]. destruct Hr as (_ & b & _ & _ & Hh). by eexists. }
  apply list_elem_of_fmap. by exists stream.
Qed.

Lemma offset_pass_keeps base claimed ps rs :
  Forall2 (offset_outcome base claimed) ps rs → ∀ i, i ∈ claims ps.*2 → i ∈ claims rs.
Proof.
  induction 1 as [|[record r] r' ps rs Hr _ IH]; intros i Hi; [by apply elem_of_nil in Hi|].
  rewrite fmap_cons in Hi. apply elem_claims_cons. apply elem_claims_cons in Hi as [[k E]|Hi]; [left|by right; apply IH].
  cbn in E. subst r. exists k. exact Hr.
Qed.

Lemma outcome_of_passes base claimed claimed' records rs rs' :
  claimed ⊆ claimed' →
  Forall2 (content_outcome claimed) records rs →
  Forall2 (offset_outcome base claimed') (zip records rs) rs' →
  Forall2 (outcome (Some base) claimed') records rs'.
Proof.
  intros Hsub Hc. revert rs'. induction Hc as [|record r records rs Hr _ IH]; intros rs' Ho; inversion Ho; subst;
    constructor; [|by apply IH].
  match goal with H : offset_outcome _ _ _ ?y |- outcome _ _ _ ?y => rename H into Hp; rename y into r' end.
  unfold offset_outcome in Hp. cbn [fst snd] in Hp.
  assert (Hmono : fr_crc32 record = 0 ∨ exhausted claimed (content_matches record) →
                  fr_crc32 record = 0 ∨ exhausted claimed' (content_matches record)).
  { intros [?|He]; [by left|right]. by eapply exhausted_mono. }
  destruct r as [[j kind]|].
  - subst r'. destruct Hr as (-> & Hr). exact Hr.
  - destruct r' as [[j kind]|].
    + destruct Hp as (-> & Hpl & Hh). split; [by apply Hmono|]. by exists base.
    + split; [by apply Hmono|]. by intros b [= <-].
Qed.

Lemma resolve_records_spec records base :
  let out := resolve_records streams records base in
  length out.2 = length records ∧
  NoDup (claims out.2) ∧ (∀ i, i ∈ out.1 ↔ i ∈ claims out.2) ∧
  (∀ i, i ∈ claims out.2 → i ∈ rec_index <$> streams) ∧
  Forall2 (outcome base out.1) records out.2.
Proof.
  pose proof (content_pass_spec records ∅) as Hc. unfold resolve_records.
  destruct (content_pass streams records ∅) as [claimed rs]. cbn [fst snd] in Hc.
  destruct Hc as (Ecl & Hnd & _ & Hall). assert (El : length records = length rs) by (eapply list.Forall2_length; exact Hall).
  destruct base as [base|]; cbn zeta.
  - assert (Esnd : (zip records rs).*2 = rs) by (apply snd_zip; lia).
    pose proof (offset_pass_spec base (zip records rs) claimed) as Ho. rewrite Esnd in Ho.
    specialize (Ho Hnd ltac:(set_solver)).
    destruct (offset_pass base streams (zip records rs) claimed) as [claimed' rs']. cbn [fst snd] in *.
    destruct Ho as (H1 & H2 & H3 & H4 & H5).
    pose proof (outcome_of_passes _ _ _ _ _ _ H1 Hall H5) as Hout.
    split; [symmetry; eapply list.Forall2_length; exact Hout|]. split; [done|]. split; [|split; [|done]].
    + intros i. split; [|by intros Hi; apply H4]. intros Hi. destruct (H2 i Hi) as [Hi'|]; [|done].
      apply (offset_pass_keeps _ _ _ _ H5). rewrite Esnd. rewrite Ecl in Hi'. set_solver.
    + exact (claims_covered _ _ _ _ Hout).
  - assert (Hout : Forall2 (outcome None claimed) records rs).
    { eapply list.Forall2_impl; [exact Hall|]. intros record [[j kind]|]; cbn; [by intros (-> & H)|by split]. }
    cbn [fst snd]. split; [done|]. split; [done|]. split; [intros i; rewrite Ecl; set_solver|].
    split; [exact (claims_covered _ _ _ _ Hout)|done].
Qed.
End passes.

(** ** The file map *)

(** An entry says of its record exactly what the streams bear out. *)
Definition entry_exact (streams : list StreamRecord) (base : option N) (unnamed : list N)
    (i : nat) (record : FileRecord) (e : Entry) : Prop :=
  let found (test : StreamRecord → bool) (index : N) :=
    ∃ stream, stream ∈ streams ∧ rec_index stream = index ∧ test stream = true ∧
      en_stream_inflated_size e = Some (rec_inflated_len stream) in
  let left_out (test : StreamRecord → bool) :=
    ∀ stream, stream ∈ streams → rec_index stream ∈ unnamed → test stream = false in
  let no_content := fr_crc32 record = 0 ∨ left_out (content_matches record) in
  en_record_index e = N.of_nat i ∧
  en_declared_inflated_size e = fr_inflated_size record ∧
  en_declared_crc32 e = fr_crc32 record ∧
  en_path_len e = len (fr_path record) ∧
  match en_stream_index e, en_matched_by e with
  | Some index, Some MK_Content => fr_crc32 record ≠ 0 ∧ found (content_matches record) index
  | Some index, Some MK_Offset =>
      no_content ∧ fr_offsets_plausible record = true ∧
      ∃ b, base = Some b ∧ found (offset_matches b record) index
  | None, None =>
      en_stream_inflated_size e = None ∧ no_content ∧
      ∀ b, base = Some b → fr_offsets_plausible record = true → left_out (offset_matches b record)
  | _, _ => False
  end.

Lemma find_index streams stream :
  NoDup (rec_index <$> streams) → stream ∈ streams →
  List.find (λ s, rec_index s =? rec_index stream) streams = Some stream.
Proof.
  induction streams as [|s streams IH]; intros Hnd Hin; [by apply elem_of_nil in Hin|].
  rewrite fmap_cons in Hnd. apply list.NoDup_cons in Hnd as [Hs Hnd]. cbn.
  apply elem_of_cons in Hin as [->|Hin]; [by rewrite N.eqb_refl|].
  destruct (N.eqb_spec (rec_index s) (rec_index stream)) as [E|]; [|by apply IH].
  destruct Hs. rewrite E. apply list_elem_of_fmap. by exists stream.
Qed.

Lemma unnamed_left_out streams (claimed : gset N) test :
  exhausted streams claimed test →
  ∀ stream, stream ∈ streams →
    rec_index stream ∈ List.filter (λ index, negb (bool_decide (index ∈ claimed))) (map rec_index streams) →
    test stream = false.
Proof.
  intros He stream Hin Hun. destruct (test stream) eqn:Et; [|done].
  apply list_elem_of_In, List.filter_In in Hun as [_ Hun].
  apply negb_true_iff, bool_decide_eq_false in Hun. by destruct Hun; apply He.
Qed.

Lemma entry_of_exact streams base claimed i record r :
  NoDup (rec_index <$> streams) → outcome streams base claimed record r →
  entry_exact streams base
    (List.filter (λ index, negb (bool_decide (index ∈ claimed))) (map rec_index streams))
    i record (entry_of streams i (record, r)).
Proof.
  intros Hnd Ho. unfold entry_exact. do 4 (split; [done|]). unfold entry_of. cbn.
  assert (Hfound : ∀ index test, holds_of streams index test → ∃ stream, stream ∈ streams ∧
    rec_index stream = index ∧ test stream = true ∧
    rec_inflated_len <$> List.find (λ s, rec_index s =? index) streams = Some (rec_inflated_len stream)).
  { intros index test (stream & Hin & <- & Ht). exists stream. split; [done|]. split; [done|]. split; [done|].
    by rewrite find_index. }
  assert (Hno : fr_crc32 record = 0 ∨ exhausted streams claimed (content_matches record) →
    fr_crc32 record = 0 ∨ ∀ stream, stream ∈ streams →
      rec_index stream ∈ List.filter (λ index, negb (bool_decide (index ∈ claimed))) (map rec_index streams) →
      content_matches record stream = false).
  { intros [?|He]; [by left|right]. by apply unnamed_left_out. }
  destruct r as [[index [|]]|]; cbn in *.
  - destruct Ho as [Hc Hh]. split; [done|]. by apply Hfound.
  - destruct Ho as (Hc & b & Hb & Hp & Hh). split; [by apply Hno|]. split; [done|]. exists b. split; [done|].
    by apply Hfound.
  - destruct Ho as [Hc Hh]. split; [done|]. split; [by apply Hno|]. intros b Hb Hp.
    by apply unnamed_left_out, Hh.
Qed.

Lemma omap_imap {A B C} (f : B → option C) (g : nat → A → B) (h : A → option C) l :
  (∀ i x, f (g i x) = h x) → omap f (imap g l) = omap h l.
Proof.
  revert g. induction l as [|x l IH]; intros g E; [done|].
  rewrite imap_cons. cbn. rewrite E. destruct (h x); [f_equal|]; by apply IH; intros; cbn.
Qed.

Lemma entry_of_streams streams records rs :
  length rs = length records →
  omap en_stream_index (imap (entry_of streams) (zip records rs)) = claims rs.
Proof.
  intros E. rewrite (omap_imap en_stream_index (entry_of streams) (λ p : FileRecord * Resolved, fst <$> p.2))
    by (by intros i [record r]).
  revert rs E. induction records as [|record records IH]; intros rs E; destruct rs as [|r rs]; try done.
  injection E as E. specialize (IH rs E). unfold claims in *. cbn. destruct r as [[j k]|]; cbn; by rewrite IH.
Qed.

(** The parts of the map. *)
Lemma file_map_parts table streams overlay (Hnd : NoDup (rec_index <$> streams)) :
  let m := file_map_build table streams overlay in
  let base := (λ o, origin_base o overlay (first_stream_of streams overlay)) <$> fm_origin m in
  length (fm_entries m) = length (ft_records table) ∧
  (∀ i record, ft_records table !! i = Some record →
     ∃ e, fm_entries m !! i = Some e ∧ entry_exact streams base (fm_unnamed m) i record e) ∧
  omap en_stream_index (fm_entries m) ++ fm_unnamed m ≡ₚ rec_index <$> streams.
Proof.
  unfold file_map_build.
  pose proof (resolve_records_spec streams (ft_records table)
    ((λ o, origin_base o overlay (first_stream_of streams overlay)) <$>
       choose_origin table streams overlay (first_stream_of streams overlay))) as Hr.
  destruct (resolve_records _ _ _) as [claimed rs]. cbn [fst snd] in Hr.
  destruct Hr as (Hl & Hndc & Hcl & Hcov & Hall). cbn [fm_entries fm_origin fm_unnamed].
  split; [rewrite length_imap, length_zip_with; lia|]. split.
  - intros i record Hi. destruct (Forall2_lookup_l _ _ _ _ _ Hall Hi) as (r & Hri & Ho).
    exists (entry_of streams i (record, r)). split; [|by apply entry_of_exact].
    rewrite list_lookup_imap, (lookup_zip_with pair), Hi. cbn. by rewrite Hri.
  - rewrite entry_of_streams by done. apply NoDup_Permutation; [|done|].
    + apply list.NoDup_app. split; [done|]. split.
      * intros x Hx Hf. apply list_elem_of_In, List.filter_In in Hf as [_ Hf].
        apply negb_true_iff, bool_decide_eq_false in Hf. by apply Hf, Hcl.
      * by apply NoDup_ListNoDup, List.NoDup_filter, NoDup_ListNoDup.
    + intros x. rewrite elem_of_app, (list_elem_of_In (List.filter _ _) x), List.filter_In, <-list_elem_of_In.
      rewrite negb_true_iff, bool_decide_eq_false, Hcl. split; [intros [Hx|[Hx _]]; [by apply Hcov|done]|].
      intros Hx. destruct (decide (x ∈ claims rs)); [by left|by right].
Qed.

Lemma file_map_entry table streams overlay (Hnd : NoDup (rec_index <$> streams)) i record :
  ft_records table !! i = Some record →
  let m := file_map_build table streams overlay in
  ∃ e, fm_entries m !! i = Some e ∧
    entry_exact streams ((λ o, origin_base o overlay (first_stream_of streams overlay)) <$> fm_origin m)
      (fm_unnamed m) i record e.
Proof. intros Hi. by apply file_map_parts. Qed.

(** The file map is exact. It has an entry for each record of the table, in
    order; a record is matched by content only to a stream with its checksum and
    length, by offset only when no unclaimed stream has its content, to a stream
    that starts where the chosen origin puts it; a record without a stream has
    none left over that would pass either test; and the streams of the entries
    together with the unnamed ones are the streams of the chain, each once. *)
Theorem file_map_exact table streams overlay (Hnd : NoDup (rec_index <$> streams)) :
  let m := file_map_build table streams overlay in
  let base := (λ o, origin_base o overlay (first_stream_of streams overlay)) <$> fm_origin m in
  length (fm_entries m) = length (ft_records table) ∧
  (∀ i record, ft_records table !! i = Some record →
     ∃ e, fm_entries m !! i = Some e ∧ entry_exact streams base (fm_unnamed m) i record e) ∧
  omap en_stream_index (fm_entries m) ++ fm_unnamed m ≡ₚ rec_index <$> streams.
Proof. by apply file_map_parts. Qed.

(** Of the origins, the one most records bear out; of several, the last listed. *)
Definition origin_rank (o : OffsetOrigin) : N :=
  match o with OverlayRelative => 0 | ImageAbsolute => 1 | FirstStreamRelative => 2 end.

(** The chosen origin is borne out by most records, and there is none only when
    no record bears any out. Between origins with the same count the last of
    the list wins. *)
Lemma choose_origin_best table streams overlay first_stream :
  let count := offset_match_count table streams overlay first_stream in
  match choose_origin table streams overlay first_stream with
  | Some o => 0 < count o ∧ ∀ o', count o' < count o ∨ (count o' = count o ∧ origin_rank o' ≤ origin_rank o)
  | None => ∀ o, count o = 0
  end.
Proof.
  cbv zeta. unfold choose_origin. cbn [map OFFSET_ORIGINS max_by_count fold_left fst snd].
  set (count := offset_match_count _ _ _ _).
  destruct (N.leb_spec (count OverlayRelative) (count ImageAbsolute)); cbn [fst snd];
    match goal with |- context [?a <=? ?b] => destruct (N.leb_spec a b) end;
    match goal with |- context [0 <? ?b] => destruct (N.ltb_spec 0 b) end;
    try (split; [done|]); intros []; cbn [origin_rank]; lia.
Qed.
