(* ===== verification/WisePackage.v ===== *)
(** * A whole package

    [crates/ohl-wise/src/package.rs]: overlay, header, chain, script and file
    map in one bounded pass; and what the pass says of an image in memory, down
    to the bytes of a file read out of it. *)

From stdpp Require Import gmap sets.
From S2P Require Export WiseWalk WiseExtract.

Record ChainSummary : Type := {
  cs_streams : N;
  cs_crc_matches : N;
  cs_crc_mismatches : N;
  cs_crc_absent : N;
  cs_resyncs : N;
  cs_total_inflated_bytes : N;
  cs_covered_bytes : N
}.

Definition summary_default : ChainSummary :=
  {| cs_streams := 0; cs_crc_matches := 0; cs_crc_mismatches := 0; cs_crc_absent := 0;
     cs_resyncs := 0; cs_total_inflated_bytes := 0; cs_covered_bytes := 0 |}.

Record Package : Type := {
  pk_overlay : Overlay;
  pk_header : PackageHeader;
  pk_streams : list StreamRecord;
  pk_summary : ChainSummary;
  pk_table : FileTable;
  pk_map : FileMap;
  pk_limits : WiseLimits
}.

(** [summary.resyncs += 1]. *)
Definition count_resync (self : ChainSummary) : ChainSummary :=
  {| cs_streams := cs_streams self; cs_crc_matches := cs_crc_matches self;
     cs_crc_mismatches := cs_crc_mismatches self; cs_crc_absent := cs_crc_absent self;
     cs_resyncs := wrapping_add 32 (cs_resyncs self) 1;
     cs_total_inflated_bytes := cs_total_inflated_bytes self;
     cs_covered_bytes := cs_covered_bytes self |}.

(** The [match] on a record's checksum. *)
Definition count_checksum (checksum : ChecksumStatus) (self : ChainSummary) : ChainSummary :=
  let bump status n := if decide (checksum = status) then wrapping_add 32 n 1 else n in
  {| cs_streams := cs_streams self;
     cs_crc_matches := bump CS_Match (cs_crc_matches self);
     cs_crc_mismatches := bump CS_Mismatch (cs_crc_mismatches self);
     cs_crc_absent := bump CS_Absent (cs_crc_absent self);
     cs_resyncs := cs_resyncs self; cs_total_inflated_bytes := cs_total_inflated_bytes self;
     cs_covered_bytes := cs_covered_bytes self |}.

Definition script_limits (limits : WiseLimits) : WiseLimits :=
  {| wl_max_pe_header_bytes := wl_max_pe_header_bytes limits;
     wl_max_sections := wl_max_sections limits;
     wl_max_header_scan_bytes := wl_max_header_scan_bytes limits;
     wl_min_confirmed_inflated_bytes := wl_min_confirmed_inflated_bytes limits;
     wl_max_streams := wl_max_streams limits;
     wl_max_compressed_bytes_per_stream := wl_max_compressed_bytes_per_stream limits;
     wl_max_inflated_bytes_per_stream :=
       N.min (wl_max_inflated_bytes_per_stream limits) (wl_max_script_bytes limits);
     wl_max_total_inflated_bytes := wl_max_total_inflated_bytes limits;
     wl_max_script_bytes := wl_max_script_bytes limits;
     wl_max_file_records := wl_max_file_records limits;
     wl_max_path_bytes := wl_max_path_bytes limits;
     wl_max_resync_skip := wl_max_resync_skip limits;
     wl_max_chunk_bytes := wl_max_chunk_bytes limits |}.

Section package.
Context {I : Type} `{Inflater I}.

Definition package_open_file (self : Package) (index : N) : result WiseError (FileReader I) :=
  open_file (pk_map self) (pk_table self) index (pk_limits self).

Definition package_open_stream (self : Package) (index : N) : result WiseError (FileReader I) :=
  open_stream (pk_map self) index (pk_limits self).

Context {S : Type} `{ImageSource S} `{WiseCancellation S}.

Definition Walked : Type := list StreamRecord * ChainSummary.

(** One turn of the [while let]. *)
Definition collect_turn (walked : Walked) : W (Chain * S) (Walked + Walked) :=
  let '(streams, summary) := walked in
  event ← next_event (I := I);
  match event with
  | None => mret (inr (streams, summary))
  | Some (Err error) => fail error
  | Some (Ok (CE_Resynced _ _)) => mret (inl (streams, count_resync summary))
  | Some (Ok (CE_Stream record)) =>
      mret (inl (streams ++ [record], count_checksum (rec_checksum record) summary))
  end.

Definition collect : W (Chain * S) Walked := loop_W collect_turn ([], summary_default).

(** [inflate_stream] into a vector of the caller's. *)
Definition inflate_bytes (offset : N) (limits : WiseLimits) : W S (list byte) := λ s,
  match inflate_stream (I := I) (H2 := vec_sink) offset limits (s, []) with
  | ((s', bytes), Ok _) => (s', Ok bytes)
  | ((s', _), Err e) => (s', Err e)
  end.

(** The file table, from the second stream if there is one. *)
Definition read_table (streams : list StreamRecord) (overlay : Overlay) (limits : WiseLimits)
  : W S FileTable :=
  match streams !! 1%nat with
  | Some script =>
      outcome ← returned (inflate_bytes (rec_offset script) (script_limits limits));
      match outcome with
      | Ok bytes => lift (parse_with_evidence bytes overlay limits (from_streams streams))
      | Err (WE_LimitExceeded WL_InflatedBytesPerStream) => fail (WE_LimitExceeded WL_ScriptBytes)
      | Err error => fail error
      end
  | None => mret file_table_default
  end.

Definition read_package (overlay_offset : option N) (limits : WiseLimits) : W S Package :=
  overlay ← match overlay_offset with
            | Some offset => overlay_at offset
            | None => find_overlay limits
            end;
  header ← locate_first_stream (I := I) overlay limits;
  '(chain, (streams, summary)) ←
    own collect (chain_new (ph_first_stream_offset header) (overlay_end overlay) limits);
  let summary :=
    {| cs_streams := ch_index chain; cs_crc_matches := cs_crc_matches summary;
       cs_crc_mismatches := cs_crc_mismatches summary; cs_crc_absent := cs_crc_absent summary;
       cs_resyncs := cs_resyncs summary;
       cs_total_inflated_bytes := ch_total_inflated chain;
       cs_covered_bytes := ch_cursor chain - ph_first_stream_offset header |} in
  table ← read_table streams overlay limits;
  let map := file_map_build table streams overlay in
  mret {| pk_overlay := overlay; pk_header := header; pk_streams := streams;
          pk_summary := summary; pk_table := table; pk_map := map; pk_limits := limits |}.
End package.

(** ** Collecting the events of a walk *)

(** What the counters of a summary become over records. *)
Definition summarise (summary : ChainSummary) (l : list StreamRecord) : ChainSummary :=
  fold_left (λ summary r, count_checksum (rec_checksum r)
    (if 0 <? rec_resync_skip r then count_resync summary else summary)) l summary.

Definition walk_end (cursor : N) (l : list StreamRecord) : N :=
  fold_left (λ _ r, next_offset (rec_metrics r)) l cursor.

Section collect.
Context {I : Type} `{Inflater I} {S : Type} `{ImageSource S} `{!WiseCancellation S, !WiseNever S}.
Context (limits : WiseLimits) (end_ : N) (s : S) (attempt : N → result WiseError StreamMetrics).
Context (Hattempt : ∀ offset, fits 64 offset →
  measure_stream (I := I) offset limits s = (s, as_result (attempt offset))).
Context (Hsum : ∀ offset m, attempt offset = Ok m →
  wl_max_total_inflated_bytes limits + sm_inflated_len m < 2 ^ 64).
Context (Hstreams : wl_max_streams limits < 2 ^ 32).
Context (Hend : end_ + wl_max_resync_skip limits < 2 ^ 64).

Abbreviation at_cursor := (at_cursor limits end_).

(** A chain that is still going. *)
Record going (c : Chain) (cursor index total : N) : Prop := {
  go_at : at_cursor c cursor index total;
  go_finished : ch_finished c = false;
  go_pending : ch_pending c = None
}.

Lemma next_event_run c cursor index total :
  going c cursor index total →
  let out := next_event (I := I) (c, s) in
  if at_end end_ cursor then out = ((put_chain_flags true None c, s), Ok None)
  else if wl_max_streams limits <=? index then
    ∃ c', out = ((c', s), Ok (Some (Err (WE_LimitExceeded WL_Streams))))
  else
    match chosen attempt limits end_ cursor with
    | Err e => ∃ c', out = ((c', s), Ok (Some (Err e)))
    | Ok (m, skip) =>
        if wl_max_total_inflated_bytes limits <? total + sm_inflated_len m
        then ∃ c', out = ((c', s), Ok (Some (Err (WE_LimitExceeded WL_TotalInflatedBytes))))
        else out = ((advanced m skip c, s), Ok (Some (Ok (event m skip c))))
    end.
Proof.
  intros [Hat Hfin Hpend]. cbv zeta.
  pose proof (chain_step_run limits end_ s attempt Hattempt Hsum Hstreams Hend c cursor index total Hat) as Hstep.
  cbv zeta in Hstep. unfold next_event. rewrite (M_bind_step get _ _ (c, s) (c, s)) by done. cbn [fst].
  rewrite Hfin, Hpend.
  assert (Herr : ∀ c' e, chain_step (I := I) (c, s) = ((c', s), Err (Fail e)) → ∃ c'',
    (outcome ← returned (chain_step (I := I));
     match outcome with
     | Ok None => on_chain (modify (λ self, put_chain_flags true (ch_pending self) self));; mret None
     | Ok (Some event) => mret (Some (Ok event))
     | Err error => on_chain (modify (λ self, put_chain_flags true (ch_pending self) self));;
                    mret (Some (Err error))
     end) (c, s) = ((c'', s), Ok (Some (Err e)))).
  { intros c' e E. unfold mbind at 1, M_bind at 1, returned. rewrite E. by eexists. }
  destruct (at_end end_ cursor).
  { unfold mbind at 1, M_bind at 1, returned. rewrite Hstep.
    rewrite (M_bind_step (on_chain _) _ (c, s) (put_chain_flags true (ch_pending c) c, s) tt) by done.
    by rewrite Hpend. }
  destruct (_ <=? index); [by eapply Herr|].
  destruct (chosen attempt limits end_ cursor) as [[m skip]|e]; [|by eapply Herr].
  unfold accepted in Hstep. destruct (_ <? _).
  - destruct Hstep as [c' Hstep]. by eapply Herr.
  - unfold mbind at 1, M_bind at 1, returned. by rewrite Hstep.
Qed.

Lemma next_event_pending c r :
  ch_pending c = Some r →
  next_event (I := I) (c, s) =
  ((put_chain_flags (ch_finished c) None c, s), Ok (Some (Ok (CE_Stream r)))).
Proof.
  intros E. unfold next_event. rewrite (M_bind_step get _ _ (c, s) (c, s)) by done. cbn [fst]. rewrite E.
  by rewrite (M_bind_step (on_chain _) _ (c, s) (put_chain_flags (ch_finished c) None c, s) tt) by done.
Qed.

Lemma advanced_at c cursor index total m skip :
  at_cursor c cursor index total → index < wl_max_streams limits →
  total + sm_inflated_len m ≤ wl_max_total_inflated_bytes limits →
  at_cursor (advanced m skip c) (next_offset m) (index + 1) (total + sm_inflated_len m).
Proof.
  intros [Hl He Hc Hi Ht Hb] Hlt Hle. split; cbn; try done; try congruence; try lia.
  split; [lia|]. split; [done|]. destruct (0 <? skip); lia.
Qed.

(** Where a loop over the events can be. *)
Definition walking (c : Chain) (s' : S) : Prop :=
  s' = s ∧ ch_finished c = false ∧ at_cursor c (ch_cursor c) (ch_index c) (ch_total_inflated c) ∧
  match ch_pending c with Some _ => 1 ≤ ch_index c | None => True end.

Definition walk_left (c : Chain) : N :=
  2 * (wl_max_streams limits - ch_index c) + match ch_pending c with Some _ => 1 | None => 0 end.

Lemma at_cursor_self c cursor index total :
  at_cursor c cursor index total → at_cursor c (ch_cursor c) (ch_index c) (ch_total_inflated c).
Proof. intros Hat. pose proof Hat as [_ _ -> -> -> _]. exact Hat. Qed.

Lemma put_flags_at finished pending c cursor index total :
  at_cursor c cursor index total → at_cursor (put_chain_flags finished pending c) cursor index total.
Proof. by intros [Hl He Hc Hi Ht Hb]. Qed.

Lemma collect_turn_walking walked c :
  walking c s →
  match collect_turn (I := I) walked (c, s) with
  | ((c', s'), Ok (inl walked')) => walking c' s' ∧ walk_left c' < walk_left c
  | _ => True
  end.
Proof.
  intros (_ & Hfin & Hat & Hp). destruct walked as [streams summary]. unfold collect_turn.
  unfold mbind, M_bind. destruct (ch_pending c) as [record|] eqn:Epend.
  - rewrite (next_event_pending _ record) by done. cbn [mret M_ret].
    split; [split; [done|]; split; [done|]; split; [by apply put_flags_at|done]|].
    unfold walk_left. cbn. rewrite Epend. lia.
  - pose proof (next_event_run c _ _ _ (Build_going _ _ _ _ Hat Hfin Epend)) as Hn. cbv zeta in Hn.
    destruct (at_end end_ (ch_cursor c)); [by rewrite Hn|].
    destruct (N.leb_spec (wl_max_streams limits) (ch_index c)) as [|Hlt]; [by destruct Hn as [c' ->]|].
    destruct (chosen _ _ _ _) as [[m skip]|e]; [|by destruct Hn as [c' ->]].
    destruct (N.ltb_spec (wl_max_total_inflated_bytes limits) (ch_total_inflated c + sm_inflated_len m));
      [by destruct Hn as [c' ->]|].
    rewrite Hn. pose proof (advanced_at c _ _ _ m skip Hat Hlt ltac:(done)) as Hadv.
    assert (walking (advanced m skip c) s) as Hw.
    { split; [done|]. split; [done|]. split; [by eapply at_cursor_self|]. cbn. rewrite Epend.
      destruct (0 <? skip); [lia|done]. }
    assert (walk_left (advanced m skip c) < walk_left c).
    { unfold walk_left. cbn. rewrite Epend. destruct (0 <? skip); lia. }
    unfold event. by destruct (0 <? skip).
Qed.

Lemma collect_unfold walked c :
  walking c s →
  loop_W (collect_turn (I := I)) walked (c, s) =
  match collect_turn (I := I) walked (c, s) with
  | (cs, Ok (inl walked')) => loop_W (collect_turn (I := I)) walked' cs
  | (cs, Ok (inr b)) => (cs, Ok b)
  | (cs, Err e) => (cs, Err e)
  end.
Proof.
  intros Hw. apply (loop_W_unfold _ (λ _ cs, walking cs.1 cs.2) (λ _ cs, walk_left cs.1)); [done|..].
  - intros _ [c1 s1] _. cbn. unfold walk_left. eapply N.lt_le_trans with (2 ^ 34); [|by vm_compute].
    destruct (ch_pending c1); lia.
  - intros w1 [c1 s1] Hw1. cbn in Hw1. pose proof Hw1 as (-> & _).
    pose proof (collect_turn_walking w1 c1 Hw1) as Hturn.
    by destruct (collect_turn w1 (c1, s)) as [[c2 s2] [[w2|b]|e]].
Qed.

(** The loop collects the records of the walk. *)
Lemma collect_run cursor index total l o : walks attempt limits end_ cursor index total l o →
  ∀ streams summary c, going c cursor index total →
  ∃ c', loop_W (collect_turn (I := I)) (streams, summary) (c, s) = ((c', s),
    match o with None => Ok (streams ++ l, summarise summary l) | Some e => Err (Fail e) end) ∧
    (o = None → ch_index c' = index + len l ∧ ch_total_inflated c' = total + inflated_sum l ∧
                ch_cursor c' = walk_end cursor l).
Proof.
  induction 1 as [c0 i t He|c0 i t He Hm|c0 i t e He Hi Hc|c0 i t m k He Hi Hc Ht|
    c0 i t m k rest o He Hi Hc Ht Hw IH]; intros streams summary c Hgo;
    pose proof (next_event_run c _ _ _ Hgo) as Hn; cbv zeta in Hn; rewrite He in Hn; pose proof Hgo as [Hat Hfin Hp];
    (assert (walking c s) as Hwk
      by (split; [done|]; split; [done|]; split; [by eapply at_cursor_self|by rewrite Hp]));
    rewrite collect_unfold by done; unfold collect_turn at 1; unfold mbind, M_bind.
  - rewrite Hn. cbn. eexists. rewrite app_nil_r. split; [done|]. intros _.
    destruct Hat. cbn. rewrite !N.add_0_r. done.
  - rewrite (proj2 (N.leb_le _ _)) in Hn by done. destruct Hn as [c' ->]. by exists c'.
  - rewrite (proj2 (N.leb_gt _ _)), Hc in Hn by done. destruct Hn as [c' ->]. by exists c'.
  - rewrite (proj2 (N.leb_gt _ _)), Hc, (proj2 (N.ltb_lt _ _)) in Hn by done. destruct Hn as [c' ->]. by exists c'.
  - rewrite (proj2 (N.leb_gt _ _)), Hc, (proj2 (N.ltb_ge _ _)) in Hn by done. rewrite Hn.
    pose proof (advanced_at c _ _ _ m k Hat Hi Ht) as Hadv.
    pose proof Hat as [_ _ _ Eidx _ _].
    set (rec := record i m k). set (c1 := put_chain_flags false None (advanced m k c)).
    assert (going c1 (next_offset m) (i + 1) (t + sm_inflated_len m)) as Hgo1
      by (by split; [apply put_flags_at|..]).
    destruct (IH (streams ++ [rec]) (summarise summary [rec]) c1 Hgo1) as (c' & E & Hlast).
    exists c'. split.
    + transitivity (loop_W (collect_turn (I := I)) (streams ++ [rec], summarise summary [rec]) (c1, s)).
      2:{ rewrite E. destruct o; [done|]. rewrite <-app_assoc. done. }
      unfold event. rewrite Eidx. fold rec. unfold summarise. cbn [fold_left rec_resync_skip rec record].
      destruct (0 <? k) eqn:Ek; cbn [mret M_ret].
      * rewrite collect_unfold.
        2:{ split; [done|]. split; [done|]. split; [by eapply at_cursor_self|]. cbn. rewrite Ek. lia. }
        unfold collect_turn at 1, mbind, M_bind.
        rewrite (next_event_pending _ rec) by (cbn; by rewrite Ek, Eidx).
        unfold c1. change (ch_finished (advanced m k c)) with (ch_finished c). by rewrite Hfin.
      * unfold c1, put_chain_flags, advanced. cbn. rewrite Ek, Hp, Hfin. done.
    + intros ->. destruct (Hlast eq_refl) as (-> & -> & ->). rewrite len_cons. cbn.
      unfold rec_inflated_len at 1. cbn. split; [lia|]. split; [|done]. fold (inflated_sum rest). lia.
Qed.
End collect.
