(* ===== verification/WiseMemory.v ===== *)
(** * A package in memory

    What [read_package] of [WisePackage.v] reports of an image in memory, and
    what reading a file out of the package delivers. *)

From stdpp Require Import gmap sets.
From S2P Require Export WisePackage WiseWalk.

(** ** Calls that only refuse *)

Section refusing.
Context {S : Type}.

(** A failure of the call is one it names itself. *)
Definition refusing {A} (m : W S A) : Prop := ∀ s, wp m (λ _ _, True) (λ e _, refused e) s.

Lemma refusing_bind {A B} (m : W S A) (k : A → W S B) :
  refusing m → (∀ a, refusing (k a)) → refusing (m ≫= k).
Proof. intros Hm Hk s. apply wp_bind. eapply wp_mono; [apply Hm|..|done]. intros a s' _. apply Hk. Qed.

Lemma refusing_ret {A} (a : A) : refusing (mret a).
Proof. done. Qed.

Lemma refusing_reject c error : error ≠ WE_SourceFailed → refusing (reject c error).
Proof. intros Hne s. apply wp_reject; [by eexists|done]. Qed.

Lemma refusing_fail {A} error : error ≠ WE_SourceFailed → refusing (fail (A := A) error).
Proof. intros Hne s. by eexists. Qed.

Lemma refusing_bounded {A} (r : result SanitizedError A) : refusing (bounded r).
Proof. intros s. unfold wp, bounded, lift. destruct r as [a|e]; [done|]. exists (wise_error_of_sanitized e). by destruct e. Qed.

Lemma refusing_returned {A} (m : W S A) : refusing m → refusing (returned m).
Proof.
  intros Hm s. specialize (Hm s). unfold wp, returned in *. destruct (m s) as [s' [a|e]]; [done|].
  by destruct Hm as (error & -> & _).
Qed.

Lemma refusing_if {A} (c : bool) (m k : W S A) : refusing m → refusing k → refusing (if c then m else k).
Proof. by destruct c. Qed.
End refusing.

Create HintDb refusing discriminated.
#[export] Hint Resolve refusing_bind refusing_ret refusing_reject refusing_fail refusing_bounded
  refusing_returned refusing_if : refusing.
#[export] Hint Extern 5 (_ ≠ WE_SourceFailed) => discriminate : refusing.

Section refusals.
Context (image : list byte).
#[local] Instance sliced_source : ImageSource unit := image_slice image.

Lemma refusing_read offset wanted : refusing (image_read_at offset wanted : W unit (list byte)).
Proof. done. Qed.
Lemma refusing_len : refusing (image_len : W unit N).
Proof. done. Qed.
#[local] Hint Resolve refusing_read refusing_len : refusing.

Lemma find_overlay_refusing limits : refusing (find_overlay limits).
Proof.
  assert (Hexact : ∀ offset wanted, refusing (wise_read_exact offset wanted)).
  { intros. unfold wise_read_exact. eauto 10 with refusing. }
  assert (H16 : ∀ offset, refusing (wise_read_u16 offset)) by (intros; unfold wise_read_u16; eauto with refusing).
  assert (H32 : ∀ offset, refusing (wise_read_u32 offset)) by (intros; unfold wise_read_u32; eauto with refusing).
  assert (Hstep : ∀ t l i o, refusing (section_step t l i o)).
  { intros. unfold section_step.
    repeat first [apply refusing_bind; [solve [eauto with refusing]|intro] | apply refusing_if]; eauto with refusing. }
  assert (Hloop : ∀ t l js o, refusing (section_loop t l js o)).
  { intros t l js. induction js; intros o; cbn; eauto with refusing. }
  unfold find_overlay. repeat (apply refusing_bind; [solve [eauto with refusing]|intro]). eauto with refusing.
Qed.

Lemma overlay_at_refusing offset : refusing (overlay_at offset).
Proof. unfold overlay_at. eauto 10 with refusing. Qed.
End refusals.

(** ** Measuring *)

Section memory.
Context {I : Type} `{InflaterLaws I} (image : list byte).
#[local] Instance memory_source : ImageSource unit := image_slice image.
#[local] Instance memory_cancel : WiseCancellation unit := wise_never_cancelled unit.
#[local] Instance memory_sink : Sink (list byte) := vec_sink.

(** What inflating at an offset measures. *)
Definition memory_attempt : WiseLimits → N → result WiseError StreamMetrics := attempted (I := I) tt.

Context (Himage : len image < 2 ^ 63).

Lemma memory_fits : len image < 2 ^ 64.
Proof. eapply N.lt_trans; [exact Himage|by vm_compute]. Qed.

#[local] Instance memory_still : Serves unit image (2 ^ 64) (λ _, True) (λ s, s = tt) False.
Proof. split; [|exact memory_fits]. intros offset wanted [] _ _ _. exists tt. auto. Qed.

Lemma measure_memory limits offset :
  limits_fit limits → fits 64 offset →
  measure_stream (I := I) offset limits tt = (tt, as_result (memory_attempt limits offset)) ∧
  match memory_attempt limits offset with
  | Ok m => ∃ out, measured (I := I) image offset limits out m
  | Err e => e ≠ WE_SourceFailed
  end.
Proof. intros Hf Hoff. exact (measure_still image (λ _, True) tt limits offset Hf Hoff (λ _ _ _, Logic.I)). Qed.

(** ** The streams *)

(** Ceilings within their machine integers, with room for one stream beyond the
    total. *)
Record limits_sane (limits : WiseLimits) : Prop := {
  ls_fit : limits_fit limits;
  ls_total : wl_max_total_inflated_bytes limits + wl_max_inflated_bytes_per_stream limits < 2 ^ 64;
  ls_streams : wl_max_streams limits < 2 ^ 32;
  ls_resync : wl_max_resync_skip limits < 2 ^ 8;
  ls_script : wl_max_script_bytes limits < 2 ^ 64 - 42;
  ls_path : wl_max_path_bytes limits < 2 ^ 64 - 1
}.

Definition stream_end (r : StreamRecord) : N :=
  rec_offset r + sm_compressed_len (rec_metrics r) +
  match rec_checksum r with CS_Absent => 0 | _ => 4 end.

(** The streams of a chain as the image has them: numbered in order, each behind
    the one before it but for the bytes skipped, inside the image, and measured
    as it is. *)
Fixpoint streams_laid_out (limits : WiseLimits) (cursor index : N) (l : list StreamRecord) : Prop :=
  match l with
  | [] => True
  | r :: l =>
      rec_index r = index ∧ rec_offset r = cursor + rec_resync_skip r ∧
      rec_resync_skip r ≤ wl_max_resync_skip limits ∧ stream_end r ≤ len image ∧
      memory_attempt limits (rec_offset r) = Ok (rec_metrics r) ∧
      (∃ out, measured (I := I) image (rec_offset r) limits out (rec_metrics r)) ∧
      streams_laid_out limits (stream_end r) (index + 1) l
  end.

Lemma measured_end start limits out m :
  start ≤ len image → measured (I := I) image start limits out m →
  start + sm_compressed_len m + match sm_checksum m with CS_Absent => 0 | _ => 4 end ≤ len image ∧
  next_offset m = start + sm_compressed_len m + match sm_checksum m with CS_Absent => 0 | _ => 4 end.
Proof.
  intros Hstart Hm. pose proof (me_inside _ _ _ _ _ Hm) as Hin. rewrite N.max_r in Hin by done.
  pose proof memory_fits as Hfits.
  assert (Hend : start + sm_compressed_len m + match sm_checksum m with CS_Absent => 0 | _ => 4 end ≤ len image).
  { rewrite (me_checksum _ _ _ _ _ Hm).
    destruct (N.leb_spec (start + sm_compressed_len m + 4) (len image)); [by destruct (_ =? _)|lia]. }
  split; [done|]. unfold next_offset. rewrite (me_offset _ _ _ _ _ Hm).
  rewrite (wrapping_add_small 64 start) by lia. apply wrapping_add_small. lia.
Qed.

Lemma walks_streams_laid_out limits cursor index total l o :
  limits_sane limits →
  walks (memory_attempt limits) limits (len image) cursor index total l o →
  streams_laid_out limits cursor index l.
Proof.
  intros Hls. induction 1 as [|c i t He Hm|c i t e He Hi Hc|c i t m k He Hi Hc Ht|
    c i t m k rest o He Hi Hc Ht Hw IH]; try done.
  apply orb_false_iff in He as [Hin%N.leb_gt _].
  apply (chosen_Ok _ _ _ _ _ _ i) in Hc as Htk. destruct Htk as [Ha Hreach _ _ Hlt].
  cbn [rec_resync_skip rec_metrics record] in *.
  assert (c + k < len image) as Hck by (destruct (N.eq_dec k 0) as [->|]; [lia|by apply Hlt]).
  pose proof memory_fits as Hfits.
  destruct (measure_memory limits (c + k)) as [_ Hm]; [by destruct Hls|unfold fits; lia|].
  rewrite Ha in Hm. destruct Hm as [out Hm].
  destruct (measured_end (c + k) limits out m) as [He' En]; [lia|done|].
  cbn [streams_laid_out]. unfold stream_end, rec_offset, rec_checksum. cbn [rec_resync_skip rec_metrics record rec_index].
  rewrite (me_offset _ _ _ _ _ Hm).
  do 5 (split; [done|]). split; [by exists out|]. by rewrite <-En.
Qed.

Lemma streams_laid_out_index limits cursor index l i r :
  streams_laid_out limits cursor index l → l !! i = Some r → rec_index r = index + N.of_nat i.
Proof.
  revert cursor index i. induction l as [|r' l IH]; intros cursor index i Hl Hi; [done|].
  destruct Hl as (E & _ & _ & _ & _ & _ & Hl). destruct i as [|i].
  - injection Hi as <-. rewrite E. lia.
  - rewrite (IH _ _ _ Hl Hi). lia.
Qed.

Lemma streams_laid_out_NoDup limits cursor index l :
  streams_laid_out limits cursor index l → NoDup (rec_index <$> l).
Proof.
  intros Hl. apply NoDup_alt. intros i j x Hi Hj.
  apply list_lookup_fmap_Some in Hi as (r & -> & Hi). apply list_lookup_fmap_Some in Hj as (r' & E & Hj).
  pose proof (streams_laid_out_index _ _ _ _ _ _ Hl Hi). pose proof (streams_laid_out_index _ _ _ _ _ _ Hl Hj). lia.
Qed.

(** ** The counts *)

Definition count_status (status : ChecksumStatus) (l : list StreamRecord) : N :=
  len (List.filter (λ r, bool_decide (rec_checksum r = status)) l).

Definition count_resyncs (l : list StreamRecord) : N :=
  len (List.filter (λ r, 0 <? rec_resync_skip r) l).

Lemma len_filter_cons {A} (f : A → bool) x l :
  len (List.filter f (x :: l)) = (if f x then 1 else 0) + len (List.filter f l).
Proof. cbn. destruct (f x); [by rewrite len_cons, N.add_comm|done]. Qed.

Lemma len_filter_le {A} (f : A → bool) (l : list A) : len (List.filter f l) ≤ len l.
Proof. induction l as [|x l IH]; [done|]. rewrite len_filter_cons, len_cons. destruct (f x); lia. Qed.

(** The fields of a summary no counter can wrap. *)
Record counted (base final : ChainSummary) (l : list StreamRecord) : Prop := {
  co_matches : cs_crc_matches final = cs_crc_matches base + count_status CS_Match l;
  co_mismatches : cs_crc_mismatches final = cs_crc_mismatches base + count_status CS_Mismatch l;
  co_absent : cs_crc_absent final = cs_crc_absent base + count_status CS_Absent l;
  co_resyncs : cs_resyncs final = cs_resyncs base + count_resyncs l
}.

Lemma summarise_counted l base bound :
  cs_crc_matches base ≤ bound → cs_crc_mismatches base ≤ bound → cs_crc_absent base ≤ bound →
  cs_resyncs base ≤ bound → bound + len l < 2 ^ 32 → counted base (summarise base l) l.
Proof.
  revert base bound. induction l as [|r l IH]; intros base bound Hm Hmi Ha Hr Hb.
  { split; change (len []) with 0; cbn; by rewrite N.add_0_r. }
  rewrite len_cons in Hb. unfold summarise. cbn [fold_left]. fold (summarise
    (count_checksum (rec_checksum r) (if 0 <? rec_resync_skip r then count_resync base else base)) l).
  set (base' := count_checksum _ _).
  assert (Hw : ∀ n, n ≤ bound → wrapping_add 32 n 1 = n + 1) by (intros; apply wrapping_add_small; lia).
  assert (cs_crc_matches base' = cs_crc_matches base + (if bool_decide (rec_checksum r = CS_Match) then 1 else 0) ∧
          cs_crc_mismatches base' = cs_crc_mismatches base + (if bool_decide (rec_checksum r = CS_Mismatch) then 1 else 0) ∧
          cs_crc_absent base' = cs_crc_absent base + (if bool_decide (rec_checksum r = CS_Absent) then 1 else 0) ∧
          cs_resyncs base' = cs_resyncs base + (if 0 <? rec_resync_skip r then 1 else 0)) as (E1 & E2 & E3 & E4).
  { unfold base'. destruct (0 <? rec_resync_skip r), (rec_checksum r); cbn; rewrite ?Hw, ?N.add_0_r by done; done. }
  specialize (IH base' (bound + 1)). destruct IH as [I1 I2 I3 I4].
  1-4: rewrite ?E1, ?E2, ?E3, ?E4; repeat case_match; lia.
  1: lia.
  split; unfold count_status, count_resyncs in *; rewrite len_filter_cons.
  - rewrite I1, E1. lia.
  - rewrite I2, E2. lia.
  - rewrite I3, E3. lia.
  - rewrite I4, E4. lia.
Qed.

(** ** A package *)

(** What a package says of the image it was read from. *)
Record package_of (overlay_offset : option N) (limits : WiseLimits) (p : Package) : Prop := {
  po_limits : pk_limits p = limits;
  po_overlay : match overlay_offset with
               | Some offset => ov_offset (pk_overlay p) = offset
               | None => pe_headers limits image ∧ ov_offset (pk_overlay p) = pe_end image
               end;
  po_inside : ov_offset (pk_overlay p) < len image ∧
    pk_overlay p = {| ov_offset := ov_offset (pk_overlay p);
                      ov_len := len image - ov_offset (pk_overlay p); ov_image_len := len image |};
  po_header : header_found (I := I) tt limits (ov_offset (pk_overlay p)) 0
    (subslice (ov_offset (pk_overlay p))
       (N.min (ov_len (pk_overlay p)) (wl_max_header_scan_bytes limits)) image) (pk_header p);
  po_walk : walks (memory_attempt limits) limits (len image)
    (ph_first_stream_offset (pk_header p)) 0 0 (pk_streams p) None;
  po_streams : streams_laid_out limits (ph_first_stream_offset (pk_header p)) 0 (pk_streams p);
  po_counts : counted summary_default (pk_summary p) (pk_streams p);
  po_totals : cs_streams (pk_summary p) = len (pk_streams p) ∧
    cs_total_inflated_bytes (pk_summary p) = inflated_sum (pk_streams p) ∧
    cs_covered_bytes (pk_summary p) =
      walk_end (ph_first_stream_offset (pk_header p)) (pk_streams p) - ph_first_stream_offset (pk_header p);
  po_table : match pk_streams p !! 1%nat with
    | Some script => ∃ bytes m,
        measured (I := I) image (rec_offset script) (script_limits limits) bytes m ∧
        scanned bytes (len image) limits (from_streams (pk_streams p)) 0 (ft_records (pk_table p)) ∧
        len (ft_records (pk_table p)) ≤ wl_max_file_records limits
    | None => pk_table p = file_table_default
    end;
  po_map : pk_map p = file_map_build (pk_table p) (pk_streams p) (pk_overlay p)
}.

Lemma script_limits_fit limits : limits_fit limits → limits_fit (script_limits limits).
Proof. intros [Hc Hi Hch]. split; [exact Hc| |exact Hch]. exact (N.le_lt_trans _ _ _ (N.le_min_l _ _) Hi). Qed.

Lemma inflate_bytes_wp limits offset :
  limits_fit limits → fits 64 offset →
  wp (inflate_bytes (I := I) offset limits) (λ bytes _, ∃ m, measured (I := I) image offset limits bytes m)
    (λ e _, refused e) tt.
Proof.
  intros Hf Hoff. pose proof (@image_slice_serves image memory_fits) as Hserves.
  pose proof (inflate_stream_wp (I := I) image (2 ^ 64) (λ _, True) (λ _, True) False (λ k out : list byte, k = out)
    offset limits tt [] Hf (chunk_fits _ Hf) ltac:(by vm_compute) Hoff (λ _ _ _, Logic.I) Logic.I eq_refl) as Hwp.
  unfold wp in Hwp. unfold wp, inflate_bytes.
  change (inflate_stream (I := I) (H2 := vec_sink) offset limits (tt, [])) with
    (inflate_stream (I := I) offset limits (tt, [])).
  destruct (inflate_stream offset limits (tt, [])) as [[[] out] [m|e]].
  - destruct Hwp as (_ & out' & -> & Hm). by exists m.
  - by destruct Hwp as (_ & [He|(_ & [])]).
Qed.

Lemma read_table_wp limits streams overlay :
  limits_sane limits → ov_image_len overlay = len image →
  (∀ i r, streams !! i = Some r → fits 64 (rec_offset r)) →
  wp (read_table (I := I) streams overlay limits)
    (λ table _, match streams !! 1%nat with
       | Some script => ∃ bytes m,
           measured (I := I) image (rec_offset script) (script_limits limits) bytes m ∧
           scanned bytes (len image) limits (from_streams streams) 0 (ft_records table) ∧
           len (ft_records table) ≤ wl_max_file_records limits
       | None => table = file_table_default
       end) (λ e _, refused e) tt.
Proof.
  intros Hls Hov Hoff. unfold read_table. destruct (streams !! 1%nat) as [script|] eqn:Es; [|done].
  wp_step. pose proof (inflate_bytes_wp (script_limits limits) (rec_offset script)) as Hin.
  specialize (Hin (script_limits_fit _ (ls_fit _ Hls)) (Hoff _ _ Es)).
  unfold wp at 1, returned. unfold wp in Hin.
  destruct (inflate_bytes (rec_offset script) (script_limits limits) tt) as [[] [bytes|e]].
  - destruct Hin as [m Hm]. pose proof (me_ceilings _ _ _ _ _ Hm) as [_ Hlen].
    cbn [script_limits wl_max_inflated_bytes_per_stream] in Hlen. pose proof (ls_script _ Hls).
    pose proof (ls_path _ Hls).
    destruct (parse_loop_run bytes (ov_image_len overlay) limits (from_streams streams) ltac:(lia) ltac:(done)
      (S (length bytes)) 0 []) as (found & Hs & E); [unfold len; lia|apply N.le_0_l|].
    apply wp_lift; unfold parse_with_evidence; rewrite (proj2 (N.ltb_ge _ _)) by lia;
      cbn [guard_err mbind result_bind]; rewrite E, len_nil, N.add_0_l;
      destruct (N.ltb_spec (wl_max_file_records limits) (len found)) as [|Hle]; try done.
    + intros table [= <-]. exists bytes, m. rewrite Hov in Hs. done.
    + intros e [= <-]. by eexists.
  - destruct Hin as (error & -> & Hne). unfold wp, fail.
    assert (Hr : ∀ e, e ≠ WE_SourceFailed → refused (Fail e)) by (intros; by eexists).
    destruct error; try (by apply Hr). destruct limit; by apply Hr.
Qed.

(** Reads of a slice never fail, and so no walk of one does for that reason. *)
Lemma resynced_Err limits cursor skips e :
  resynced (memory_attempt limits) (len image) cursor skips = Some (Err e) →
  ∃ offset, memory_attempt limits offset = Err e.
Proof.
  induction skips as [|skip skips IH]; cbn; [done|]. destruct (_ <=? _); [done|].
  destruct (memory_attempt limits (cursor + skip)) as [m|e'] eqn:Ea; [by destruct (is_match _)|].
  destruct (is_fatal e'); [|done]. intros [= <-]. by eexists.
Qed.

Lemma memory_attempt_Err limits offset e :
  limits_fit limits → memory_attempt limits offset = Err e → e ≠ WE_SourceFailed.
Proof.
  intros Hf Ea. destruct (N.le_gt_cases (2 ^ 64) offset) as [Hge|Hoff].
  - unfold memory_attempt, attempted in Ea. rewrite (proj2 (N.leb_le _ _)) in Ea by done. by injection Ea as <-.
  - destruct (measure_memory limits offset Hf Hoff) as [_ Hm]. by rewrite Ea in Hm.
Qed.

Lemma walks_never_failed limits cursor index total l e :
  limits_fit limits → walks (memory_attempt limits) limits (len image) cursor index total l (Some e) →
  e ≠ WE_SourceFailed.
Proof.
  intros Hf Hw. remember (Some e) as o eqn:Eo. induction Hw; simplify_eq; try done; [|by apply IHHw].
  match goal with Hc : chosen _ _ _ _ = Err _ |- _ => unfold chosen in Hc end.
  destruct (memory_attempt limits cursor) as [m|e'] eqn:Ea.
  - destruct (is_match (sm_checksum m)); [done|]. destruct (resynced _ _ _ _) as [found|] eqn:Er; [|done].
    subst found. apply resynced_Err in Er as [offset Er]. by eapply memory_attempt_Err.
  - destruct (is_fatal e').
    + simplify_eq. by eapply memory_attempt_Err.
    + destruct (resynced _ _ _ _) as [found|] eqn:Er; simplify_eq; [|by eapply memory_attempt_Err].
      apply resynced_Err in Er as [offset Er]. by eapply memory_attempt_Err.
Qed.

Lemma streams_laid_out_nth limits cursor index l i r :
  streams_laid_out limits cursor index l → l !! i = Some r →
  stream_end r ≤ len image ∧ memory_attempt limits (rec_offset r) = Ok (rec_metrics r).
Proof.
  revert cursor index i. induction l as [|r' l IH]; intros cursor index i Hl Hi; [done|].
  destruct Hl as (_ & _ & _ & He & Ha & _ & Hl). destruct i as [|i]; [by injection Hi as <-|by eapply IH].
Qed.

Lemma package_wp overlay_offset limits :
  limits_sane limits →
  wp (read_package (I := I) overlay_offset limits) (λ p _, package_of overlay_offset limits p)
    (λ e _, refused e) tt.
Proof.
  intros Hls. pose proof memory_fits as Hfits. unfold read_package. wp_step.
  set (overlay_ok := λ ov : Overlay, match overlay_offset with
      | Some offset => ov_offset ov = offset
      | None => pe_headers limits image ∧ ov_offset ov = pe_end image
      end ∧ ov_offset ov < len image ∧ ov = {| ov_offset := ov_offset ov;
        ov_len := len image - ov_offset ov; ov_image_len := len image |}).
  assert (wp (match overlay_offset with Some offset => overlay_at offset | None => find_overlay limits end)
    (λ ov _, overlay_ok ov) (λ e _, refused e) tt) as Hov.
  { apply wp_run.
    - intros ov [] E. unfold overlay_ok. destruct overlay_offset as [offset|].
      + apply overlay_at_exact in E as [Hlt ->]; [|done]. done.
      + apply (find_overlay_view image (len image) Hfits) in E as (_ & Hph & _ & _ & _ & Hlt & ->). done.
    - intros e [] E. assert (refusing (match overlay_offset with
        | Some offset => overlay_at offset | None => find_overlay limits end)) as Hr.
      { destruct overlay_offset; [apply overlay_at_refusing|apply find_overlay_refusing]. }
      specialize (Hr tt). unfold wp in Hr. by rewrite E in Hr. }
  eapply wp_mono; [exact Hov| |done]. intros ov [] (Hovo & Hlt & Eov).
  assert (overlay_end ov = len image) as Eend by (by rewrite Eov).
  assert (ov_len ov ≤ len image) as Hovl by (rewrite Eov; cbn; lia).
  wp_step. eapply wp_mono; [apply (locate_first_stream_wp (I := I) image (λ _, True) tt ov limits (ls_fit _ Hls));
    [lia|done|lia]| |by intros e [] [_ He]].
  intros h [] (_ & _ & Hh). pose proof (hf_inside _ _ _ _ _ _ Hh) as [_ Hin]. rewrite len_subslice_le in Hin.
  assert (ph_first_stream_offset h < len image) as Hfirst.
  { rewrite (hf_offset _ _ _ _ _ _ Hh). lia. }
  wp_step. set (first := ph_first_stream_offset h) in *. rewrite Eend.
  destruct (walks_total_fun (memory_attempt limits) limits (len image) first 0 0) as (l & o & Hw).
  assert (Hattempt : ∀ offset, fits 64 offset → measure_stream (I := I) offset limits tt =
    (tt, as_result (memory_attempt limits offset))).
  { intros offset Hoff. apply measure_memory; [apply Hls|done]. }
  assert (Hsum : ∀ offset m, memory_attempt limits offset = Ok m →
    wl_max_total_inflated_bytes limits + sm_inflated_len m < 2 ^ 64).
  { intros offset m Ea. destruct (N.le_gt_cases (2 ^ 64) offset) as [Hge|Hoff].
    - unfold memory_attempt, attempted in Ea. by rewrite (proj2 (N.leb_le _ _)) in Ea.
    - destruct (measure_memory limits offset (ls_fit _ Hls) Hoff) as [_ Hm]. rewrite Ea in Hm.
      destruct Hm as [out Hm]. rewrite (me_inflated _ _ _ _ _ Hm).
      pose proof (me_ceilings _ _ _ _ _ Hm) as [_ ?]. pose proof (ls_total _ Hls). lia. }
  assert (Hendr : len image + wl_max_resync_skip limits < 2 ^ 64).
  { pose proof (ls_resync _ Hls). lia. }
  assert (Hgo : going limits (len image) (chain_new first (len image) limits) first 0 0).
  { split; [|done|done]. split; try done. split; [apply N.le_0_l|]. split; apply N.le_0_l. }
  destruct (collect_run limits (len image) tt (memory_attempt limits) Hattempt Hsum (ls_streams _ Hls) Hendr
    first 0 0 l o Hw [] summary_default _ Hgo) as (c' & Ec & Hend).
  unfold wp at 1, own, collect. rewrite Ec. destruct o as [e|].
  { exists e. split; [done|]. intros ->. by apply (walks_never_failed _ _ _ _ _ _ (ls_fit _ Hls) Hw). }
  destruct (Hend eq_refl) as (Ei & Et & Ecur). cbn [app].
  pose proof (walks_streams_laid_out limits first 0 0 l None Hls Hw) as Hlaid.
  pose proof (walks_chained _ _ _ _ _ _ _ _ Hw) as (_ & _ & Hcount).
  wp_step. eapply wp_mono; [apply read_table_wp; [done|by rewrite Eov|]| |done].
  { intros i r Hi. destruct (streams_laid_out_nth _ _ _ _ _ _ Hlaid Hi) as [He _]. unfold stream_end in He. unfold fits. lia. }
  intros table [] Htable. wp_step. split; cbn; try done.
  - assert (counted summary_default (summarise summary_default l) l) as [] by
      (apply (summarise_counted l summary_default 0); try done; pose proof (ls_streams _ Hls);
       specialize (Hcount (N.le_0_l _)); lia).
    by split.
  - rewrite Ei, Et, Ecur. done.
Qed.
End memory.
