(* ===== verification/WiseRead.v ===== *)
(** * Files out of a package

    [FileReader::read_all] of [crates/ohl-wise/src/extract.rs] over an image in
    memory, and the two ends joined: a package read from an image and a file
    read out of the package. *)

From stdpp Require Import gmap sets.
From S2P Require Export WiseMemory.

Section read.
Context {I : Type} `{InflaterLaws I} (image : list byte).
#[local] Instance read_source : ImageSource unit := image_slice image.
#[local] Instance read_cancel : WiseCancellation unit := wise_never_cancelled unit.
#[local] Instance read_sink : Sink (list byte) := vec_sink.
Context (Himage : len image < 2 ^ 63).

(** What a file that was read to its end is. *)
Record file_read_of (start : N) (limits : WiseLimits) (crc size : N) (out : list byte)
    (m : StreamMetrics) : Prop := {
  fo_measured : measured (I := I) image start limits out m;
  fo_checksum : sm_checksum m ≠ CS_Mismatch;
  fo_crc : crc ≠ 0 → crc32 out = crc;
  fo_size : size ≠ 0 → len out = size
}.

Abbreviation reader_at := (reader_at (I := I) image (2 ^ 64) (λ _, True)).

(** Where [read_all] is with [out] in its sink. *)
Definition reading (start : N) (limits : WiseLimits) (crc size : N)
    (s : (FileReader I * unit) * list byte) : Prop :=
  reader_at start limits s.2 (fd_reader s.1.1) ∧
  fd_declared_crc32 s.1.1 = crc ∧ fd_declared_inflated_size s.1.1 = size.

Lemma read_all_turn_wp start limits crc size chunk s :
  reading start limits crc size s → sr_finished (fd_reader s.1.1) = false →
  wp (read_all_turn (I := I) chunk tt)
    (λ res s', reading start limits crc size s' ∧
       match res with
       | inl _ => sr_finished (fd_reader s'.1.1) = false ∧ len s.2 < len s'.2
       | inr _ => sr_finished (fd_reader s'.1.1) = true
       end)
    (λ e _, refused e) s.
Proof.
  intros (Hr & Hc & Hsz) Hfin. destruct s as [[fd []] out]. cbn [fst snd] in *.
  pose proof (@image_slice_serves image (memory_fits image Himage)) as Hserves.
  assert (0 < wise_chunk_bytes chunk) as Hpos.
  { unfold wise_chunk_bytes. destruct (N.eqb_spec (wl_max_chunk_bytes chunk) 0); lia. }
  pose proof (stream_read_wp image (2 ^ 64) (λ _, True) (λ _, True) False start limits out (fd_reader fd) tt
    (wise_chunk_bytes chunk) Hr Logic.I Hpos) as Hread.
  unfold read_all_turn. wp_step. apply wp_zoom. cbn [fst snd]. unfold file_read, fd_stream. apply wp_zoom.
  cbn [fst snd]. eapply wp_mono; [exact Hread|..].
  2:{ intros e [r' []] [_ [He|(_ & [] & _)]]. exact He. }
  intros l [r' []] (_ & Hr' & Hlen & _ & Hor). cbn [fst snd put_fd_reader].
  assert (Hend : ∀ out', out' = out ++ l →
    wp (self ← get; mret (if file_is_finished self.1.1 || (len l =? 0) then inr tt else inl tt))
      (λ res s', reading start limits crc size s' ∧
         match res with
         | inl _ => sr_finished (fd_reader s'.1.1) = false ∧ len out < len s'.2
         | inr _ => sr_finished (fd_reader s'.1.1) = true
         end)
      (λ e _, refused e) ((put_fd_reader r' fd, tt), out')).
  { intros out' ->. wp_step. wp_step. wp_step. unfold file_is_finished; cbn [fst snd put_fd_reader fd_reader].
    split; [by split|]. destruct (sr_finished r') eqn:Ef; [by cbn|]. cbn [orb].
    destruct Hor as [Hne|]; [|done]. assert (len l ≠ 0) as Hl by by rewrite len_0_nil.
    rewrite (proj2 (N.eqb_neq _ _)) by done. split; [done|]. rewrite len_app. lia. }
  wp_step. destruct (N.ltb_spec 0 (len l)) as [Hl|Hl].
  - apply wp_zoom. unfold wp at 1. cbn [fst snd sink_write read_sink vec_sink]. by apply Hend.
  - wp_step. apply Hend. assert (l = []) as -> by (apply len_0_nil; lia). by rewrite app_nil_r.
Qed.

Lemma file_finish_wp start limits crc size s :
  reading start limits crc size s → sr_finished (fd_reader s.1.1) = true → fits 64 start →
  wp (file_finish (I := I)) (λ m s', file_read_of start limits crc size s.2 m) (λ e _, refused e) s.1.
Proof.
  intros (Hr & Hc & Hsz) Hfin Hstart. destruct s as [[fd []] out]. cbn [fst snd] in *.
  pose proof (@image_slice_serves image (memory_fits image Himage)) as Hserves.
  pose proof (stream_finish_wp image (2 ^ 64) (λ _, True) (λ _, True) False start limits out (fd_reader fd) tt
    Hr Hfin Logic.I Hstart ltac:(by vm_compute)) as Hfi.
  unfold file_finish. wp_step. unfold fd_stream. apply wp_zoom. cbn [fst snd].
  eapply wp_mono; [exact Hfi|..].
  2:{ intros e [r' []] (_ & _ & _ & []). }
  intros m [r' []] (-> & _ & Hm). wp_step. wp_step. cbn [fst snd put_fd_reader fd_declared_crc32 fd_declared_inflated_size].
  rewrite Hc, Hsz. wp_step. apply wp_reject; [by eexists|]. intros Hmis%bool_decide_eq_false.
  wp_step. apply wp_reject; [by eexists|]. intros Hcrc.
  wp_step. apply wp_reject; [by eexists|]. intros Hsize. wp_step. split; [done|done|..].
  - intros Hne. apply andb_false_iff in Hcrc as [E%negb_false_iff%N.eqb_eq|E%negb_false_iff%N.eqb_eq]; [done|].
    rewrite E. symmetry. by destruct Hm.
  - intros Hne. apply andb_false_iff in Hsize as [E%negb_false_iff%N.eqb_eq|E%negb_false_iff%N.eqb_eq]; [done|].
    rewrite E. symmetry. by destruct Hm.
Qed.

(** Reading a whole file into an empty sink. *)
Lemma read_all_wp start limits crc size chunk :
  limits_fit limits → fits 64 start →
  wp (read_all (I := I) chunk)
    (λ m s', file_read_of start limits crc size s'.2 m) (λ e _, refused e)
    (({| fd_reader := reader_new start limits; fd_declared_crc32 := crc;
         fd_declared_inflated_size := size |}, tt), []).
Proof.
  intros Hf Hstart. unfold read_all. wp_step.
  apply (loop_W_wp _
    (λ _ s, reading start limits crc size s ∧ sr_finished (fd_reader s.1.1) = false)
    (λ _ s, wl_max_inflated_bytes_per_stream limits - len s.2)).
  - split; [|done]. split; [|done]. apply reader_new_at; [done|by apply chunk_fits|done].
  - intros _ s _. eapply N.le_lt_trans; [apply N.le_sub_l|].
    eapply N.lt_trans; [by destruct Hf|]. by vm_compute.
  - intros [] s [Hr Hfin]. eapply wp_mono; [by apply (read_all_turn_wp start limits crc size)|..|done].
    intros [[]|[]] s' [Hr' H'].
    + destruct H' as [Hf' Hlt]. split; [done|]. destruct Hr' as [Hr' _].
      pose proof (ra_inflated _ _ _ _ _ _ _ Hr') as [_ Hmax]. cbn [fst snd] in *. lia.
    + wp_step. eapply wp_mono; [by apply (file_finish_wp start limits crc size)|..].
      * intros m t Hm. exact Hm.
      * intros e t He. exact He.
Qed.

(** What [finish] makes of a measurement. *)
Definition verified (crc size : N) (r : result (Stop WiseError) StreamMetrics)
  : result (Stop WiseError) StreamMetrics :=
  m ← r;
  guard_err (bool_decide (sm_checksum m = CS_Mismatch)) (Fail WE_ChecksumMismatch);;
  guard_err (negb (crc =? 0) && negb (crc =? sm_computed_crc32 m)) (Fail WE_ChecksumMismatch);;
  guard_err (negb (size =? 0) && negb (size =? sm_inflated_len m)) (Fail WE_ChecksumMismatch);;
  Ok m.

Definition holds_reader (r : StreamReader I) (crc size : N) (s : (FileReader I * unit) * list byte) : Prop :=
  s.1.1 = {| fd_reader := r; fd_declared_crc32 := crc; fd_declared_inflated_size := size |}.

Lemma file_finish_run r crc size :
  (file_finish (I := I) ({| fd_reader := r; fd_declared_crc32 := crc; fd_declared_inflated_size := size |}, tt)).2 =
  verified crc size (stream_finish (r, tt)).2.
Proof.
  unfold file_finish, fd_stream, zoom, mbind, M_bind, get, reject. cbn [fst snd fd_reader].
  destruct (stream_finish (r, tt)) as [[r' []] [m|e]]; [|done]. cbn.
  destruct (bool_decide _); [done|]. cbn. destruct (_ && _); [done|]. cbn. by destruct (_ && _).
Qed.

(** Reading a file goes through the stream exactly as measuring it did. *)
Lemma read_all_measured start limits crc size :
  (read_all (I := I) limits
    (({| fd_reader := reader_new start limits; fd_declared_crc32 := crc;
         fd_declared_inflated_size := size |}, tt), [])).2 =
  verified crc size (measure_stream (I := I) start limits tt).2.
Proof.
  unfold read_all, measure_stream, inflate_stream, zoom. cbn [fst snd].
  set (fd0 := {| fd_reader := reader_new start limits |}).
  pose (Rel := λ (r : StreamReader I) (_ : unit * unit) (_ : unit) s, holds_reader r crc size s).
  pose (Out := λ (x : (unit * unit) * result (Stop WiseError) (StreamReader I))
                 (y : ((FileReader I * unit) * list byte) * result (Stop WiseError) unit),
    match x.2, y.2 with
    | Ok r, Ok _ => holds_reader r crc size y.1
    | Err e, Err e' => e = e'
    | _, _ => False
    end).
  pose proof (loop_W_sim (inflate_stream_turn (I := I) (H2 := discard_sink) limits) (read_all_turn (I := I) limits)
    Rel Out (reader_new start limits) (tt, tt) tt ((fd0, tt), []) eq_refl) as Hsim.
  assert (Out (loop_W (inflate_stream_turn (I := I) (H2 := discard_sink) limits) (reader_new start limits) (tt, tt))
              (loop_W (read_all_turn (I := I) limits) tt ((fd0, tt), []))) as Hout.
  { apply Hsim; [|done]. clear. intros r [[] []] [] [[fd []] out] Hr. unfold Rel, holds_reader in Hr. cbn in Hr. subst fd.
    unfold inflate_stream_turn, read_all_turn, file_read, fd_stream, mbind, M_bind, zoom, own.
    cbn [fst snd fd_reader]. destruct (stream_read (wise_chunk_bytes limits) (r, tt)) as [[r' []] [l|e]]; cbn [fst snd]; [|done].
    unfold file_is_finished. destruct (0 <? len l); cbn; destruct (sr_finished r' || (len l =? 0)); done. }
  clear Hsim. unfold mbind at 1 2, M_bind at 1 2.
  destruct (loop_W (inflate_stream_turn limits) _ _) as [[[] []] [r|e]],
    (loop_W (read_all_turn limits) tt _) as [[[fd []] out] [[]|e']]; try done; unfold Out in Hout; cbn in Hout.
  - unfold holds_reader in Hout. cbn in Hout. subst fd. unfold mbind, M_bind, own. cbn [fst snd].
    pose proof (file_finish_run r crc size) as Hf.
    destruct (file_finish _) as [[fd' []] res]. cbn [snd] in *. rewrite Hf.
    by destruct (stream_finish (r, tt)) as [[r' []] [m|e]].
  - by subst e'.
Qed.

(** ** A file of a package *)

(** The record, the entry and the stream behind an index that opens. *)
Record opened (p : Package) (index : N) (fd : FileReader I) (record : FileRecord) (entry : Entry)
    (stream : StreamRecord) : Prop := {
  op_record : ft_records (pk_table p) !! N.to_nat index = Some record;
  op_entry : fm_entries (pk_map p) !! N.to_nat index = Some entry;
  op_stream : pk_streams p !! N.to_nat (rec_index stream) = Some stream;
  op_index : en_stream_index entry = Some (rec_index stream);
  op_reader : fd = {| fd_reader := reader_new (rec_offset stream) (pk_limits p);
                      fd_declared_crc32 := fr_crc32 record;
                      fd_declared_inflated_size := fr_inflated_size record |}
}.

Lemma package_open overlay_offset limits p index fd :
  package_of (I := I) image overlay_offset limits p → package_open_file p index = Ok fd →
  ∃ record entry stream, opened p index fd record entry stream.
Proof.
  intros Hp Hopen. unfold package_open_file, open_file in Hopen.
  destruct (fm_entries (pk_map p) !! N.to_nat index) as [entry|] eqn:Ee; [|done]. cbn in Hopen.
  unfold table_record in Hopen.
  destruct (ft_records (pk_table p) !! N.to_nat index) as [record|] eqn:Er; [|done]. cbn in Hopen.
  destruct (en_stream_index entry) as [si|] eqn:Es; [|done]. cbn in Hopen.
  destruct (fm_streams (pk_map p) !! N.to_nat si) as [m|] eqn:Em; [|done]. cbn in Hopen. injection Hopen as <-.
  rewrite (po_map _ _ _ _ Hp) in Em. unfold file_map_build in Em.
  destruct (resolve_records _ _ _) as [claimed rs]. cbn in Em.
  apply list_lookup_fmap_Some in Em as (stream & -> & Hs).
  pose proof (streams_laid_out_index image Himage _ _ _ _ _ _ (po_streams _ _ _ _ Hp) Hs) as Eidx.
  rewrite N.add_0_l, N2Nat.id in Eidx. exists record, entry, stream. split; try done; congruence.
Qed.

(** The entry of a content match names the record's checksum and length. *)
Lemma content_entry overlay_offset limits p index fd record entry stream :
  package_of (I := I) image overlay_offset limits p → opened p index fd record entry stream →
  en_matched_by entry = Some MK_Content →
  sm_computed_crc32 (rec_metrics stream) = fr_crc32 record ∧
  sm_inflated_len (rec_metrics stream) = fr_inflated_size record.
Proof.
  intros Hp [Hr He Hst Hi _] Hk.
  pose proof (streams_laid_out_NoDup image Himage _ _ _ _ (po_streams _ _ _ _ Hp)) as Hnd.
  destruct (file_map_entry (pk_table p) (pk_streams p) (pk_overlay p) Hnd _ _ Hr) as (e & Ee & Hex).
  rewrite <-(po_map _ _ _ _ Hp), He in Ee. injection Ee as <-.
  unfold entry_exact in Hex. rewrite Hi, Hk in Hex.
  destruct Hex as (_ & _ & _ & _ & _ & stream' & Hin & Eidx & Hmatch & _).
  apply list_elem_of_lookup in Hin as [j Hj].
  pose proof (streams_laid_out_index image Himage _ _ _ _ _ _ (po_streams _ _ _ _ Hp) Hj) as E1.
  assert (stream' = stream) as ->.
  { replace (N.to_nat (rec_index stream)) with j in Hst by lia. congruence. }
  by apply andb_true_iff in Hmatch as [?%N.eqb_eq ?%N.eqb_eq].
Qed.
End read.

(** ** Properties *)

Section properties.
Context {I : Type} `{InflaterLaws I} (image : list byte).
#[local] Instance image_source : ImageSource unit := image_slice image.
#[local] Instance image_cancel : WiseCancellation unit := wise_never_cancelled unit.
#[local] Instance image_sink : Sink (list byte) := vec_sink.

(** C13: Reading a package from an image in memory always ends: it refuses the
    image for a reason it names, or the package says of the image what is
    there. The overlay is behind the executable's sections; the header ends
    where the first confirmed stream starts; the streams are the walk of the
    chain from there to the end of the image, each measured as it is, one
    behind the other; the counts are theirs; the table holds what a scan of
    the second stream finds, and the map is the one built from both. *)
Theorem package_exact overlay_offset limits :
  len image < 2 ^ 63 → limits_sane limits →
  ∃ r, read_package (I := I) overlay_offset limits tt = (tt, r) ∧
    match r with
    | Ok p => package_of (I := I) image overlay_offset limits p
    | Err e => refused e
    end.
Proof.
  intros Himage Hls. pose proof (package_wp (I := I) image Himage overlay_offset limits Hls) as Hwp.
  unfold wp in Hwp. change (read_package (I := I) overlay_offset limits tt) with
    (@read_package I _ unit (image_slice image) (wise_never_cancelled unit) overlay_offset limits tt).
  destruct (read_package overlay_offset limits tt) as [[] [p|e]]; eauto.
Qed.

(** C9: A file of a package reads back as its stream. Whatever index opens, the
    file is read to the end from the stream its entry names, and the outcome is
    that of verifying the stream's measurements; if it is accepted, the sink
    has got what the stream decodes to, with the checksum and the length the
    record declares. A record matched by content is only ever refused because
    the checksum behind the stream is wrong. *)
Theorem package_file_exact overlay_offset limits p index fd :
  len image < 2 ^ 63 → limits_sane limits →
  read_package (I := I) overlay_offset limits tt = (tt, Ok p) →
  package_open_file p index = Ok fd →
  ∃ record entry stream fd' out r,
    opened p index fd record entry stream ∧
    read_all (I := I) limits ((fd, tt), []) = (((fd', tt), out), r) ∧
    r = verified (fr_crc32 record) (fr_inflated_size record) (Ok (rec_metrics stream)) ∧
    (r = Ok (rec_metrics stream) →
      file_read_of (I := I) image (rec_offset stream) limits (fr_crc32 record) (fr_inflated_size record)
        out (rec_metrics stream)) ∧
    (en_matched_by entry = Some MK_Content → rec_checksum stream ≠ CS_Mismatch →
      r = Ok (rec_metrics stream)).
Proof.
  intros Himage Hls Hread Hopen.
  assert (wp (read_package (I := I) overlay_offset limits) (λ p _, package_of (I := I) image overlay_offset limits p)
    (λ e _, refused e) tt) as Hp by exact (package_wp (I := I) image Himage overlay_offset limits Hls).
  unfold wp in Hp. rewrite Hread in Hp. destruct (package_open image Himage overlay_offset limits p index fd Hp Hopen)
    as (record & entry & stream & Hop). exists record, entry, stream.
  pose proof (po_limits _ _ _ _ Hp) as El.
  destruct (streams_laid_out_nth _ _ _ _ _ _ _ (po_streams _ _ _ _ Hp) (op_stream _ _ _ _ _ _ Hop)) as [Hend Ha].
  pose proof (op_reader _ _ _ _ _ _ Hop) as Efd. rewrite El in Efd.
  assert (fits 64 (rec_offset stream)) as Hoff by (unfold stream_end in Hend; unfold fits; lia).
  assert ((read_all (I := I) limits
    (({| fd_reader := reader_new (rec_offset stream) limits; fd_declared_crc32 := fr_crc32 record;
         fd_declared_inflated_size := fr_inflated_size record |}, tt), [])).2 =
    verified (fr_crc32 record) (fr_inflated_size record)
      (@measure_stream I _ unit (image_slice image) (wise_never_cancelled unit) (rec_offset stream) limits tt).2) as Er
    by exact (read_all_measured image (rec_offset stream) limits _ _).
  assert (wp (read_all (I := I) limits)
    (λ m s', file_read_of (I := I) image (rec_offset stream) limits (fr_crc32 record) (fr_inflated_size record) s'.2 m)
    (λ e _, refused e)
    (({| fd_reader := reader_new (rec_offset stream) limits; fd_declared_crc32 := fr_crc32 record;
         fd_declared_inflated_size := fr_inflated_size record |}, tt), [])) as Hwp
    by exact (read_all_wp image Himage (rec_offset stream) limits _ _ limits (ls_fit _ Hls) Hoff).
  destruct (measure_memory image Himage limits (rec_offset stream) (ls_fit _ Hls) Hoff) as [Em _].
  unfold memory_source, memory_cancel in Em. rewrite Em, Ha in Er. cbn [snd as_result map_err] in Er. rewrite <-Efd in Er, Hwp. unfold wp in Hwp.
  destruct (read_all limits ((fd, tt), [])) as [[[fd' []] out] r]. cbn [snd fst] in *.
  exists fd', out, r. split; [done|]. split; [done|]. split; [done|]. split.
  - intros ->. exact Hwp.
  - intros Hk Hmis. destruct (content_entry image Himage _ _ _ _ _ _ _ _ Hp Hop Hk) as [Ec Es].
    rewrite Er. unfold verified. cbn [mbind result_bind].
    rewrite bool_decide_eq_false_2 by exact Hmis. cbn [guard_err mbind result_bind].
    by rewrite Ec, Es, !N.eqb_refl, !andb_false_r.
Qed.
End properties.
