(* ===== verification/WiseSample.v ===== *)
(** * A small package

    A decompressor of stored blocks, a package made for it, and the theorems of
    the Wise reader at work on it. *)

From stdpp Require Import gmap sets.
From S2P Require Export WiseRead.

(** ** A decompressor

    A stream is a length byte and that many bytes as they are. *)
Inductive Stored : Type := ST_Start | ST_Left (left : N).

Definition stored_copy (n : N) (consumed : N) (input : list byte) (out_len : N) : Stored * InflateResult :=
  let k := N.min n (N.min (len input) out_len) in
  (ST_Left (n - k),
   {| ir_bytes_consumed := consumed + k; ir_output := take (N.to_nat k) input;
      ir_status := if n - k =? 0 then IS_StreamEnd else IS_Ok |}).

Definition stored_step (i : Stored) (input : list byte) (out_len : N) : Stored * InflateResult :=
  match i, input with
  | ST_Start, [] => (ST_Start, {| ir_bytes_consumed := 0; ir_output := []; ir_status := IS_Ok |})
  | ST_Start, n :: input => stored_copy (Byte.to_N n) 1 input out_len
  | ST_Left n, _ => stored_copy n 0 input out_len
  end.

#[export] Instance stored_inflater : Inflater Stored :=
  {| inflate_new := ST_Start; inflate_reset _ := ST_Start; inflate_step := stored_step |}.

Lemma stored_copy_output n consumed input out_len :
  len (ir_output (stored_copy n consumed input out_len).2) = N.min n (N.min (len input) out_len).
Proof. cbn. unfold len. rewrite length_take. unfold len in *. lia. Qed.

#[export] Instance stored_laws : InflaterLaws Stored.
Proof.
  split; [done|..].
  - intros i input out_len. cbn zeta. destruct i as [|n]; [destruct input as [|b input]|]; cbn [inflate_step stored_inflater stored_step].
    + split; apply N.le_0_l.
    + rewrite stored_copy_output. cbn [ir_bytes_consumed snd stored_copy]. rewrite len_cons. lia.
    + rewrite stored_copy_output. cbn [ir_bytes_consumed snd stored_copy]. lia.
  - intros i input out_len. cbn zeta. intros Hin Hout. destruct i as [|n]; [destruct input as [|b input]; [done|]|];
      cbn [inflate_step stored_inflater stored_step]; intros Hst Hc; cbn [ir_bytes_consumed snd stored_copy] in Hc; [lia|].
    assert (len input ≠ 0) by by rewrite len_0_nil.
    cbn [ir_status snd stored_copy] in Hst. destruct (N.eqb_spec (n - N.min n (N.min (len input) out_len)) 0); [done|]. lia.
Qed.

(** ** A package *)

Definition stored (l : list byte) : list byte :=
  byte_of_N (len l) :: l ++ le_bytes 4 (crc32 l).

Definition sample_file : list byte := [x61; x62; x63; x64; x65].

Definition sample_record : FileRecord :=
  {| fr_path := [x61; x2e; x62]; fr_deflate_start := 7; fr_deflate_end := 9;
     fr_inflated_size := 5; fr_crc32 := crc32 sample_file; fr_offsets_plausible := true;
     fr_date := 1; fr_time := 2; fr_script_offset := 3 |}.

Definition sample_script : list byte :=
  [xff; xff; xff] ++ record_bytes [x00; x00] sample_record ++ [xff].

Definition sample_image : list byte :=
  take 132 sample_stub ++ [xff; xff] ++ stored (replicate 40 x20) ++ stored sample_script ++ stored sample_file.

Definition sample_package : result (Stop WiseError) Package :=
  (@read_package Stored _ unit (image_slice sample_image) (wise_never_cancelled unit) None wise_limits_default tt).2.

Lemma default_limits_fit : limits_fit wise_limits_default.
Proof. split; by vm_compute. Qed.

Lemma default_limits_sane : limits_sane wise_limits_default.
Proof. split; [exact default_limits_fit|by vm_compute..]. Qed.

(** ** The theorems at work *)

Section witnesses.
#[local] Instance sample_source : ImageSource unit := image_slice sample_image.
#[local] Instance sample_cancel : WiseCancellation unit := wise_never_cancelled unit.
#[local] Instance sample_sink : Sink (list byte) := vec_sink.

Definition first_metrics : StreamMetrics :=
  {| sm_compressed_offset := 134; sm_compressed_len := 41; sm_inflated_len := 40;
     sm_computed_crc32 := crc32 (replicate 40 x20); sm_stored_crc32 := crc32 (replicate 40 x20);
     sm_checksum := CS_Match |}.

(** The first stream of the package. *)
Lemma inflate_stream_exact_witness :
  measured (I := Stored) sample_image 134 wise_limits_default (replicate 40 x20) first_metrics.
Proof.
  destruct (inflate_stream_exact (I := Stored) sample_image 134 wise_limits_default) as (out & r & E & Hr);
    [by vm_compute|exact default_limits_fit|by vm_compute|].
  assert (inflate_stream (I := Stored) 134 wise_limits_default (tt, []) =
          ((tt, replicate 40 x20), Ok first_metrics)) as E' by by vm_compute.
  pose proof (eq_trans (eq_sym E) E') as Eq. assert (out = replicate 40 x20 ∧ r = Ok first_metrics) as [-> ->]
    by (clear -Eq; split; congruence).
  exact Hr.
Defined.

(** The record of its script. *)
Lemma recognise_exact_witness :
  recognise sample_script 3 247 wise_limits_default = Some (sample_record, 49).
Proof.
  apply (recognise_exact sample_script 3 247 wise_limits_default sample_record 49); [by vm_compute..|].
  exists [x00; x00]. split; [done|]. split; [|by vm_compute].
  assert (Forall (λ b, 0x20 ≤ Byte.to_N b ∧ Byte.to_N b ≠ 0x7f) (fr_path sample_record)) as Hp
    by (repeat constructor; vm_compute; discriminate).
  split; first [exact Hp|by vm_compute].
Defined.

Lemma parse_exact_witness :
  ∃ found, scanned sample_script 247 wise_limits_default ∅ 0 found ∧ found = [sample_record].
Proof.
  destruct (parse_exact sample_script {| ov_offset := 132; ov_len := 115; ov_image_len := 247 |}
    wise_limits_default ∅) as (found & Hs & E); [by vm_compute..|].
  exists found. split; [exact Hs|].
  assert (match parse_with_evidence sample_script {| ov_offset := 132; ov_len := 115; ov_image_len := 247 |}
      wise_limits_default ∅ with Ok t => ft_records t | Err _ => [] end = [sample_record]) as E' by by vm_compute.
  rewrite E in E'. destruct (_ <? _); [done|]. by destruct (_ <? _).
Defined.

(** The package, read. *)
Lemma package_exact_witness :
  ∃ p, read_package (I := Stored) None wise_limits_default tt = (tt, Ok p) ∧
    package_of (I := Stored) sample_image None wise_limits_default p ∧ map rec_offset (pk_streams p) = [134; 179; 234].
Proof.
  destruct (package_exact (I := Stored) sample_image None wise_limits_default) as (r & E & Hr);
    [by vm_compute|exact default_limits_sane|].
  assert (match (read_package (I := Stored) None wise_limits_default tt).2 with
          | Ok p => map rec_offset (pk_streams p) = [134; 179; 234] | Err _ => False end) as E' by by vm_compute.
  assert (read_package (I := Stored) None wise_limits_default tt = (tt, r)) as Er by exact E.
  rewrite Er in E'. destruct r as [p|e]; [|destruct E'].
  exists p. split; [exact Er|]. split; [exact Hr|exact E'].
Defined.

(** Its file, read out. *)
Lemma package_file_exact_witness :
  ∃ p fd fd', read_package (I := Stored) None wise_limits_default tt = (tt, Ok p) ∧
    package_open_file (I := Stored) p 0 = Ok fd ∧
    (∃ m, read_all (I := Stored) wise_limits_default ((fd, tt), []) = (((fd', tt), sample_file), Ok m)) ∧
    ∃ record entry stream, opened p 0 fd record entry stream.
Proof.
  destruct (read_package (I := Stored) None wise_limits_default tt) as [[] [p|e]] eqn:Ep.
  2:{ assert (match (read_package (I := Stored) None wise_limits_default tt).2 with
        | Ok p => true | Err _ => false end = true) as E' by by vm_compute.
      rewrite Ep in E'. discriminate. }
  destruct (package_open_file (I := Stored) p 0) as [fd|e] eqn:Efd.
  2:{ assert (match (read_package (I := Stored) None wise_limits_default tt).2 with
        | Ok p => match package_open_file (I := Stored) p 0 with Ok _ => true | Err _ => false end
        | Err _ => false end = true) as E' by by vm_compute.
      rewrite Ep in E'. cbn [snd] in E'. by rewrite Efd in E'. }
  destruct (package_file_exact (I := Stored) sample_image None wise_limits_default p 0 fd)
    as (record & entry & stream & fd' & out & r & Hop & Er & _ & Hr & _);
    [by vm_compute|exact default_limits_sane|exact Ep|exact Efd|].
  exists p, fd, fd'. split; [reflexivity|]. split; [exact Efd|].
  assert (match (read_package (I := Stored) None wise_limits_default tt).2 with
    | Ok p => match package_open_file (I := Stored) p 0 with
              | Ok fd => match read_all (I := Stored) wise_limits_default ((fd, tt), []) with
                         | ((_, out), Ok _) => out = sample_file | _ => False end
              | Err _ => False end
    | Err _ => False end) as E' by by vm_compute.
  rewrite Ep in E'. cbn [snd] in E'. rewrite Efd in E'.
  assert (read_all (I := Stored) wise_limits_default ((fd, tt), []) = (((fd', tt), out), r)) as Er' by exact Er.
  rewrite Er' in E' |- *. destruct r as [m|e]; [|destruct E']. subst out. split; [exists m; reflexivity|].
  exists record, entry, stream. exact Hop.
Defined.

(** The map of one record and its stream. *)
Lemma file_map_exact_witness :
  let streams := [record 0 first_metrics 0] in
  let m := file_map_build file_table_default streams {| ov_offset := 132; ov_len := 115; ov_image_len := 247 |} in
  fm_unnamed m = [0] ∧ omap en_stream_index (fm_entries m) ++ fm_unnamed m ≡ₚ [0].
Proof.
  split; [by vm_compute|].
  apply (file_map_exact file_table_default [record 0 first_metrics 0]
    {| ov_offset := 132; ov_len := 115; ov_image_len := 247 |}).
  by apply (bool_decide_unpack _).
Defined.
End witnesses.
