(* ===== verification/BackendWise.v ===== *)
(** * The Wise back end

    [crates/ohl-parser-backends/src/wise.rs]: the walk of a package as a state
    machine over the source window, one bounded unit a call, and the entries it
    ends in. *)

From stdpp Require Import gmap sets.
From S2P Require Export BackendWindow WiseExtract.

Definition UNNAMED_TOKEN_BASE : N := N.shiftl 1 32.

Record WiseEntry : Type := {
  we_token : N;
  we_size_bytes : N;
  we_compressed_offset : N;
  we_declared_crc32 : N
}.

#[export] Instance WiseEntry_eq_dec : EqDecision WiseEntry.
Proof. solve_decision. Defined.

Inductive Advance : Type := AD_Working | AD_NeedRead | AD_Ready.

Record Walk : Type := {
  wk_overlay : Overlay;
  wk_cursor : N;
  wk_index : N;
  wk_total_inflated : N;
  wk_skip : N;
  wk_started : bool;
  wk_first : option (result WiseError StreamMetrics)
}.

Record Script : Type := {
  sc_overlay : Overlay;
  sc_started : bool;
  sc_bytes : list byte
}.

Inductive Stage : Type :=
| SG_Overlay
| SG_Header (overlay : Overlay)
| SG_Walk (walk : Walk)
| SG_Script (script : Script)
| SG_Ready.

(** The scratch buffer is only ever the destination of a read. *)
Record WiseBackend (I : Type) : Type := {
  wb_limits : WiseLimits;
  wb_stage : Stage;
  wb_reader : StreamReader I;
  wb_streams : list StreamRecord;
  wb_table : FileTable;
  wb_map : option FileMap
}.
Arguments wb_limits {I} _.
Arguments wb_stage {I} _.
Arguments wb_reader {I} _.
Arguments wb_streams {I} _.
Arguments wb_table {I} _.
Arguments wb_map {I} _.

Definition is_window_miss (error : WiseError) : bool :=
  match error with WE_SourceFailed => true | _ => false end.

(** Fewest bytes that could still hold another stream. *)
Definition MINIMUM_STREAM_BYTES : N := 3.

(** ** An attempt *)

Section attempt.
Context {I : Type} `{Inflater I} {S : Type} `{ImageSource S} `{WiseCancellation S}.

(** One turn of [drive_attempt]. *)
Definition drive_turn (limits : WiseLimits) (_ : unit)
  : W (StreamReader I * S) (unit + option StreamMetrics) :=
  self ← get;
  if sr_finished self.1 then
    metrics ← stream_finish;
    mret (inr (Some metrics))
  else
    written ← stream_read (wise_chunk_bytes limits);
    self ← get;
    reject ((len written =? 0) && negb (sr_finished self.1)) WE_Truncated;;
    mret (inl tt).

Definition drive_attempt (limits : WiseLimits) : W (StreamReader I * S) (option StreamMetrics) :=
  loop_W (drive_turn limits) tt.
End attempt.

(** ** [WiseBackend] *)

#[export] Instance window_cancellation : WiseCancellation WindowSource := wise_never_cancelled WindowSource.

Section backend.
Context {I : Type} `{Inflater I}.

Definition wise_new (limits : WiseLimits) : WiseBackend I :=
  {| wb_limits := limits; wb_stage := SG_Overlay; wb_reader := reader_new 0 limits;
     wb_streams := []; wb_table := file_table_default; wb_map := None |}.

Definition put_stage (stage : Stage) (self : WiseBackend I) : WiseBackend I :=
  {| wb_limits := wb_limits self; wb_stage := stage; wb_reader := wb_reader self;
     wb_streams := wb_streams self; wb_table := wb_table self; wb_map := wb_map self |}.

Definition put_reader (reader : StreamReader I) (self : WiseBackend I) : WiseBackend I :=
  {| wb_limits := wb_limits self; wb_stage := wb_stage self; wb_reader := reader;
     wb_streams := wb_streams self; wb_table := wb_table self; wb_map := wb_map self |}.

Definition put_streams (streams : list StreamRecord) (self : WiseBackend I) : WiseBackend I :=
  {| wb_limits := wb_limits self; wb_stage := wb_stage self; wb_reader := wb_reader self;
     wb_streams := streams; wb_table := wb_table self; wb_map := wb_map self |}.

Definition put_mapping (table : FileTable) (map : FileMap) (self : WiseBackend I) : WiseBackend I :=
  {| wb_limits := wb_limits self; wb_stage := SG_Ready; wb_reader := wb_reader self;
     wb_streams := wb_streams self; wb_table := table; wb_map := Some map |}.

(** The back end and the window it is handed. *)
Definition on_backend {A} (m : W (WiseBackend I) A) : W (WiseBackend I * WindowSource) A :=
  zoom fst (λ b s, (b, s.2)) m.
Definition on_window {A} (m : W WindowSource A) : W (WiseBackend I * WindowSource) A :=
  zoom snd (λ w s, (s.1, w)) m.
Definition with_reader {A} (m : W (StreamReader I * WindowSource) A)
  : W (WiseBackend I * WindowSource) A :=
  zoom (λ s, (wb_reader s.1, s.2)) (λ t s, (put_reader t.1 s.1, t.2)) m.

Definition set_stage (stage : Stage) : W (WiseBackend I * WindowSource) unit :=
  on_backend (modify (put_stage stage)).

Definition window_ensure (offset : N) : W WindowSource bool := λ self,
  let '(self, ready) := ensure_at offset self in (self, Ok ready).

(** A call on the window while it is pinned; it is unpinned before its error is
    propagated. *)
Definition pinned {A} (m : W WindowSource A) : W WindowSource A :=
  modify pin;;
  located ← returned m;
  modify unpin;;
  lift (map_err Fail located).

Definition advance_overlay : W (WiseBackend I * WindowSource) Advance :=
  ready ← on_window (window_ensure 0);
  if negb ready then set_stage SG_Overlay;; mret AD_NeedRead
  else
    self ← get;
    overlay ← on_window (pinned (find_overlay (wb_limits self.1)));
    set_stage (SG_Header overlay);;
    mret AD_Working.

Definition advance_header (overlay : Overlay) : W (WiseBackend I * WindowSource) Advance :=
  ready ← on_window (window_ensure (ov_offset overlay));
  if negb ready then set_stage (SG_Header overlay);; mret AD_NeedRead
  else
    self ← get;
    header ← on_window (pinned (locate_first_stream (I := I) overlay (wb_limits self.1)));
    set_stage (SG_Walk {| wk_overlay := overlay; wk_cursor := ph_first_stream_offset header;
                          wk_index := 0; wk_total_inflated := 0; wk_skip := 0;
                          wk_started := false; wk_first := None |});;
    mret AD_Working.

(** [accept]; the walk it leaves behind. *)
Definition accept_stream (walk : Walk) (metrics : StreamMetrics) : W (WiseBackend I) Walk :=
  self ← get;
  total ← lift (ok_or (checked_add 64 (wk_total_inflated walk) (sm_inflated_len metrics))
                  (Fail (WE_LimitExceeded WL_TotalInflatedBytes)));
  reject (wl_max_total_inflated_bytes (wb_limits self) <? total)
    (WE_LimitExceeded WL_TotalInflatedBytes);;
  modify (λ self, put_streams (wb_streams self ++
    [{| rec_index := wk_index walk; rec_metrics := metrics; rec_resync_skip := wk_skip walk |}]) self);;
  index ← lift (ok_or (checked_add 32 (wk_index walk) 1) (Fail (WE_LimitExceeded WL_Streams)));
  mret {| wk_overlay := wk_overlay walk; wk_cursor := next_offset metrics; wk_index := index;
          wk_total_inflated := total; wk_skip := 0; wk_started := false; wk_first := None |}.

Definition put_walk (skip : N) (started : bool) (first : option (result WiseError StreamMetrics))
    (walk : Walk) : Walk :=
  {| wk_overlay := wk_overlay walk; wk_cursor := wk_cursor walk; wk_index := wk_index walk;
     wk_total_inflated := wk_total_inflated walk; wk_skip := skip; wk_started := started;
     wk_first := first |}.

Definition finish_attempts (walk : Walk) : W (WiseBackend I * WindowSource) Advance :=
  match wk_first walk with
  | Some (Ok metrics) =>
      walk ← on_backend (accept_stream (put_walk 0 false None walk) metrics);
      set_stage (SG_Walk walk);;
      mret AD_Working
  | Some (Err error) => fail error
  | None => fail WE_Truncated
  end.

Definition next_attempt (walk : Walk) : W (WiseBackend I * WindowSource) Advance :=
  self ← get;
  if wk_skip walk <? wl_max_resync_skip (wb_limits self.1) then
    set_stage (SG_Walk (put_walk (wk_skip walk + 1) false (wk_first walk) walk));;
    mret AD_Working
  else finish_attempts walk.

(** What [advance_walk] does with an attempt's outcome. *)
Definition conclude_attempt (walk : Walk) (outcome : result WiseError (option StreamMetrics))
  : W (WiseBackend I * WindowSource) Advance :=
  let keep first := if wk_skip walk =? 0 then Some first else wk_first walk in
  match outcome with
  | Ok (Some metrics) =>
      if is_match (sm_checksum metrics) then
        walk ← on_backend (accept_stream walk metrics);
        set_stage (SG_Walk walk);;
        mret AD_Working
      else next_attempt (put_walk (wk_skip walk) (wk_started walk) (keep (Ok metrics)) walk)
  | Ok None => fail WE_Truncated
  | Err error =>
      if is_window_miss error then set_stage (SG_Walk walk);; mret AD_NeedRead
      else if is_fatal error then fail error
      else next_attempt (put_walk (wk_skip walk) (wk_started walk) (keep (Err error)) walk)
  end.

Definition advance_walk (walk : Walk) : W (WiseBackend I * WindowSource) Advance :=
  self ← get;
  let end_ := overlay_end (wk_overlay walk) in
  if (end_ <=? wk_cursor walk) || (end_ - wk_cursor walk <? MINIMUM_STREAM_BYTES) then
    set_stage (SG_Script {| sc_overlay := wk_overlay walk; sc_started := false; sc_bytes := [] |});;
    mret AD_Working
  else
    reject (wl_max_streams (wb_limits self.1) <=? wk_index walk) (WE_LimitExceeded WL_Streams);;
    let attempt_offset := saturating_add 64 (wk_cursor walk) (wk_skip walk) in
    if end_ <=? attempt_offset then finish_attempts walk
    else
      (if wk_started walk then mret tt
       else on_backend (modify (λ self, put_reader (restart attempt_offset (wb_reader self)) self)));;
      outcome ← returned (with_reader (drive_attempt (wb_limits self.1)));
      conclude_attempt (put_walk (wk_skip walk) true (wk_first walk) walk) outcome.

Definition finish_mapping (overlay : Overlay) (script : list byte) (self : WiseBackend I) : WiseBackend I :=
  let table :=
    if len script =? 0 then file_table_default
    else
      match parse_with_evidence script overlay (wb_limits self) (from_streams (wb_streams self)) with
      | Ok table => table
      | Err _ => file_table_default
      end in
  put_mapping table (file_map_build table (wb_streams self) overlay) self.

Definition put_script (started : bool) (bytes : list byte) (script : Script) : Script :=
  {| sc_overlay := sc_overlay script; sc_started := started; sc_bytes := bytes |}.

(** One turn of [advance_script]'s loop. *)
Definition script_turn (ceiling : N) (script : Script)
  : W (WiseBackend I * WindowSource) (Script + Advance) :=
  self ← get;
  if sr_finished (wb_reader self.1) then
    on_backend (modify (finish_mapping (sc_overlay script) (sc_bytes script)));;
    mret (inr AD_Ready)
  else
    outcome ← returned (with_reader (stream_read (wise_chunk_bytes (wb_limits self.1))));
    match outcome with
    | Ok written =>
        self ← get;
        reject ((len written =? 0) && negb (sr_finished (wb_reader self.1))) WE_Truncated;;
        reject (ceiling <? len (sc_bytes script) + len written) (WE_LimitExceeded WL_ScriptBytes);;
        mret (inl (put_script (sc_started script) (sc_bytes script ++ written) script))
    | Err error =>
        if is_window_miss error then set_stage (SG_Script script);; mret (inr AD_NeedRead)
        else
          match error with
          | WE_LimitExceeded WL_InflatedBytesPerStream => fail (WE_LimitExceeded WL_ScriptBytes)
          | error => fail error
          end
    end.

Definition advance_script (script : Script) : W (WiseBackend I * WindowSource) Advance :=
  self ← get;
  match wb_streams self.1 !! 1%nat with
  | None =>
      on_backend (modify (finish_mapping (sc_overlay script) []));;
      mret AD_Ready
  | Some record =>
      (if sc_started script then mret tt
       else on_backend (modify (λ self, put_reader (restart (rec_offset record) (wb_reader self)) self)));;
      let ceiling := N.min (wl_max_inflated_bytes_per_stream (wb_limits self.1))
                       (wl_max_script_bytes (wb_limits self.1)) in
      loop_W (script_turn ceiling) (put_script true (sc_bytes script) script)
  end.

(** [WiseBackend::advance]: the stage is taken out and put back by its handler. *)
Definition wise_advance : W (WiseBackend I * WindowSource) Advance :=
  self ← get;
  set_stage SG_Ready;;
  match wb_stage self.1 with
  | SG_Overlay => advance_overlay
  | SG_Header overlay => advance_header overlay
  | SG_Walk walk => advance_walk walk
  | SG_Script script => advance_script script
  | SG_Ready => mret AD_Ready
  end.

(** ** Entries *)

Definition recorded_name (self : WiseBackend I) (token : N) : option (list byte) :=
  if UNNAMED_TOKEN_BASE <=? token then None
  else fr_path <$> ft_records (wb_table self) !! N.to_nat token.

Definition record_entry (self : WiseBackend I) (entry : Entry) : option WiseEntry :=
  stream_index ← en_stream_index entry;
  size ← en_stream_inflated_size entry;
  stream ← wb_streams self !! N.to_nat stream_index;
  if negb (is_match (rec_checksum stream)) then None
  else Some {| we_token := en_record_index entry; we_size_bytes := size;
               we_compressed_offset := rec_offset stream;
               we_declared_crc32 := en_declared_crc32 entry |}.

Definition unnamed_entry (self : WiseBackend I) (index : N) : option WiseEntry :=
  stream ← wb_streams self !! N.to_nat index;
  if negb (is_match (rec_checksum stream)) then None
  else Some {| we_token := saturating_add 64 UNNAMED_TOKEN_BASE index;
               we_size_bytes := rec_inflated_len stream;
               we_compressed_offset := rec_offset stream; we_declared_crc32 := 0 |}.

Definition wise_entries (self : WiseBackend I) : list WiseEntry :=
  match wb_map self with
  | None => []
  | Some map => omap (record_entry self) (fm_entries map) ++ omap (unnamed_entry self) (fm_unnamed map)
  end.
End backend.
