(* ===== verification/BackendMimic.v ===== *)
(** * Reading through the window as in memory

    A reader over the source window of [BackendWindow.v] does what it would do
    over the whole source in memory, or it stops at a read the window does not
    hold; answered and called again, it goes on as if nothing had happened, and
    the next such read is a later one. *)

From S2P Require Export BackendWise WiseWalk.

Section mimic.
Context {I : Type} `{InflaterLaws I} (source : list byte) (limits : WiseLimits) (capacity : N).
#[local] Instance source_slice : ImageSource unit := image_slice source.
#[local] Instance slice_cancel : WiseCancellation unit := wise_never_cancelled unit.
Context (Hsource : len source < 2 ^ 64) (Hlimits : limits_fit limits).
Context (Hchunk : wise_chunk_bytes limits ≤ capacity) (Hcapacity : 4 ≤ capacity).

#[local] Instance source_serves : Serves unit source (2 ^ 64) (λ _, True) (λ _, True) False.
Proof. by apply image_slice_serves. Qed.

(** ** The window between two reads *)

Record movable (w : WindowSource) : Prop := {
  mv_window : window_of source w;
  mv_pinned : ws_pinned w = false;
  mv_capacity : window_capacity w = capacity;
  mv_full : ws_filled w = 0 ∨ ws_filled w = N.min capacity (len source - ws_base w)
}.

(** The window holds what there is from an offset on. *)
Definition parked (o : N) (w : WindowSource) : Prop :=
  ws_base w = o ∧ ws_filled w = N.min capacity (len source - o).

(** A read of the window is that of the source, or it misses. *)
Lemma read_mimics w offset wanted :
  movable w → wanted ≤ capacity →
  window_read offset wanted w = (w, Ok (subslice offset wanted source)) ∨
  window_read offset wanted w = (miss offset w, Err (Fail WE_SourceFailed)) ∧
    offset < len source ∧ ¬ parked offset w.
Proof.
  intros [Hw Hp Hc _] Hwant. destruct (window_read_cases source w offset wanted Hw Hp) as [E|[E Hlt]];
    [lia|by left|].
  right. split; [done|]. split; [done|]. intros [Hb Hf]. rewrite <-Hc in Hf.
  rewrite (window_read_at_base source w offset wanted Hw Hb) in E by (done || lia). discriminate.
Qed.

(** Answering the read a miss has armed: the answer has the length asked for. *)
Definition served (w : WindowSource) : option WindowSource :=
  let '(w, pending) := take_pending w in
  pending ← pending;
  if negb (len (answer source pending) =? pr_length pending) then None
  else
    let '(w, taken) := deliver (pr_offset pending) (answer source pending) w in
    if taken : bool then Some w else None.

Lemma miss_served w o :
  movable w → o < len source → ∃ w', served (miss o w) = Some w' ∧ movable w' ∧ parked o w'.
Proof.
  intros [Hw Hp Hc _] Hlt.
  destruct (miss_servable source w o Hw Hlt) as (pending & Em & <- & Hl & Hsv). rewrite Em.
  set (idle := put_pending None (put_pending (Some pending) w)).
  assert (window_of source idle) as Hidle by (destruct Hw; by split).
  destruct (deliver_answer source idle pending Hidle) as (w' & Ed & Hw' & Hb & Hf & Hcw & Hpw & _).
  { by destruct Hsv. }
  assert (ws_filled w' = N.min capacity (len source - pr_offset pending)) as Hf'.
  { by rewrite Hf, Hl, Hc. }
  exists w'. unfold served. change (take_pending (put_pending (Some pending) w)) with (idle, Some pending).
  cbn [mbind option_bind]. assert (len (answer source pending) = pr_length pending) as ->.
  { apply len_subslice. by destruct Hsv. }
  rewrite N.eqb_refl. cbn [negb]. rewrite Ed. split; [done|]. split; [split; [done|by rewrite Hpw| |]|by split].
  - by rewrite Hcw.
  - right. by rewrite Hb.
Qed.

(** ** Readers *)

(** The reader's next act is a read at [o]. *)
Definition needs (r : StreamReader I) (o : N) : Prop :=
  if sr_finished r then o = sr_start r + sr_consumed r
  else sr_input_pos r = len (sr_input r) ∧ o = sr_read_cursor r.

(** What is left to read. *)
Definition unread (r : StreamReader I) : N :=
  if sr_finished r then 0 else 1 + (len source - sr_read_cursor r).

(** [r'] is further on than [r]: a reader at the end of its stream stays, and one
    that needed a read has read. *)
Definition later (r r' : StreamReader I) : Prop :=
  unread r' ≤ unread r ∧ ∀ o, needs r o → if sr_finished r then r' = r else unread r' < unread r.

Lemma later_trans r r' r'' : later r r' → later r' r'' → later r r''.
Proof.
  intros [H1 H2] [H3 H4]. split; [lia|]. intros o Hn. specialize (H2 o Hn).
  destruct (sr_finished r) eqn:Hf; [|lia]. subst r'. specialize (H4 o Hn). by rewrite Hf in H4.
Qed.

Lemma later_same_trans r r' r'' : later r r' → r'' = r' ∨ later r' r'' → later r r''.
Proof. intros Hl [->|Hl']; [done|by eapply later_trans]. Qed.

(** The call over the window, and in memory. *)
Definition mimics {A} (mw : W (StreamReader I * WindowSource) A) (mm : W (StreamReader I * unit) A)
    (Inv : StreamReader I → Prop) (r : StreamReader I) (w : WindowSource) : Prop :=
  (∃ r' res, mw (r, w) = ((r', w), res) ∧ mm (r, tt) = ((r', tt), res) ∧
     match res with Ok _ => later r r' | Err _ => True end) ∨
  (∃ r' o, mw (r, w) = ((r', miss o w), Err (Fail WE_SourceFailed)) ∧
     o < len source ∧ ¬ parked o w ∧ needs r' o ∧ Inv r' ∧ (r' = r ∨ later r r') ∧
     mm (r', tt) = mm (r, tt)).

Section loops.
Context {B : Type} (bw : unit → W (StreamReader I * WindowSource) (unit + B))
  (bm : unit → W (StreamReader I * unit) (unit + B)) (Inv : StreamReader I → Prop) (μ : StreamReader I → N).
Context (Hμ : ∀ r, Inv r → μ r < 2 ^ 71).
Context (Hbody : ∀ r, Inv r → match bm tt (r, tt) with
  | ((r', _), Ok (inl _)) => Inv r' ∧ μ r' < μ r
  | _ => True
  end).

Lemma memory_unfold r :
  Inv r → loop_W bm tt (r, tt) =
  match bm tt (r, tt) with
  | ((r', _), Ok (inl _)) => loop_W bm tt (r', tt)
  | (s, Ok (inr b)) => (s, Ok b)
  | (s, Err e) => (s, Err e)
  end.
Proof.
  intros Hr. rewrite (loop_W_unfold bm (λ _ s, Inv s.1) (λ _ s, μ s.1)).
  - by destruct (bm tt (r, tt)) as [[r' []] [[[]|b]|e]].
  - done.
  - intros _ s. apply Hμ.
  - intros [] [r1 []] H1. specialize (Hbody r1 H1). by destruct (bm tt (r1, tt)) as [[r' []] [[[]|b]|e]].
Qed.

Context (Hturn : ∀ r w, Inv r → movable w → mimics (bw tt) (bm tt) Inv r w).

Lemma window_unfold r w :
  Inv r → movable w → loop_W bw tt (r, w) =
  match bw tt (r, w) with
  | (s, Ok (inl _)) => loop_W bw tt s
  | (s, Ok (inr b)) => (s, Ok b)
  | (s, Err e) => (s, Err e)
  end.
Proof.
  intros Hr Hw. rewrite (loop_W_unfold bw (λ _ s, Inv s.1 ∧ movable s.2) (λ _ s, μ s.1)).
  - by destruct (bw tt (r, w)) as [s' [[[]|b]|e]].
  - done.
  - intros _ s [Hs _]. by apply Hμ.
  - intros [] [r1 w1] [H1 Hw1]. cbn [fst snd] in *. specialize (Hbody r1 H1).
    destruct (Hturn r1 w1 H1 Hw1) as [(r2 & res & E & Em & _)|(r2 & o & E & _)]; rewrite E; [|done].
    rewrite Em in Hbody. destruct res as [[[]|b]|e]; cbn; naive_solver.
Qed.

Lemma loop_mimics r w : Inv r → movable w → mimics (loop_W bw tt) (loop_W bm tt) Inv r w.
Proof.
  remember (N.to_nat (μ r)) as n eqn:En. revert r En.
  induction n as [n IH] using lt_wf_ind; intros r En Hr Hw. subst n.
  unfold mimics. rewrite window_unfold, memory_unfold by done. specialize (Hbody r Hr) as Hb.
  destruct (Hturn r w Hr Hw) as [(r1 & res & E & Em & Hlater)|(r1 & o & E & Ho & Hpk & Hn & Hi & Hl & Em)]; rewrite E.
  - rewrite Em in *. destruct res as [[[]|b]|e].
    + destruct Hb as [Hr1 Hlt]. destruct (IH (N.to_nat (μ r1)) ltac:(lia) r1 eq_refl Hr1 Hw)
        as [(r2 & res & E2 & Em2 & Hl2)|(r2 & o & E2 & Ho & Hpk & Hn & Hi & Hl2 & Em2)]; rewrite E2.
      * left. exists r2, res. split; [done|]. split; [done|]. destruct res; [|done]. by eapply later_trans.
      * right. exists r2, o. split; [done|]. split; [done|]. split; [done|]. split; [done|]. split; [done|].
        split; [right; by eapply later_same_trans|exact Em2].
    + left. exists r1, (Ok b). split; [reflexivity|]. split; [reflexivity|exact Hlater].
    + left. exists r1, (Err e). split; [reflexivity|]. split; [reflexivity|exact Logic.I].
  - right. exists r1, o. split; [done|]. split; [done|]. split; [done|]. split; [done|]. split; [done|].
    split; [done|]. rewrite memory_unfold, Em by done. reflexivity.
Qed.
End loops.

(** ** Reading a stream *)

(** Two sources that answer a read alike. *)
Definition same_read {S1 S2} `{ImageSource S1} `{ImageSource S2} (o n : N) (s1 : S1) (s2 : S2) : Prop :=
  ∃ got, image_read_at o n s1 = (s1, Ok got) ∧ image_read_at o n s2 = (s2, Ok got).

Lemma read_turn_same {S1 S2} `{ImageSource S1} `{ImageSource S2}
    `{!WiseCancellation S1, !WiseNever S1, !WiseCancellation S2, !WiseNever S2} out_len r (s1 : S1) (s2 : S2) :
  (sr_input_pos r = len (sr_input r) →
     same_read (sr_read_cursor r) (wise_chunk_bytes (sr_limits r)) s1 s2) →
  ∃ r' res, read_turn (I := I) out_len tt (r, s1) = ((r', s1), res) ∧
            read_turn (I := I) out_len tt (r, s2) = ((r', s2), res).
Proof.
  intros Hread. unfold read_turn, on_source, on_reader, zoom, mbind, M_bind, poll_cancelled, get.
  cbn [fst snd]. rewrite !wise_never. cbn [fst snd].
  destruct (N.eqb_spec (sr_input_pos r) (len (sr_input r))) as [E|E].
  - destruct (Hread E) as (got & E1 & E2).
    unfold refill, on_source, on_reader, zoom, mbind, M_bind, get, modify. cbn [fst snd].
    rewrite E1, E2. cbn [fst snd]. destruct (len got =? 0); [by eexists _, _|].
    unfold bounded, lift. destruct (map_err _ _) as [cursor|e]; [|by eexists _, _]. cbn.
    destruct (inflate_turn out_len _) as [r' res]. by exists r', res.
  - cbn. destruct (inflate_turn out_len r) as [r' res]. by exists r', res.
Qed.

Lemma inflate_turn_cursor out_len r :
  sr_read_cursor (inflate_turn out_len r).1 = sr_read_cursor r.
Proof.
  assert (keeps (λ r r' : StreamReader I, sr_read_cursor r' = sr_read_cursor r) (inflate_turn out_len)) as Hk.
  { assert (PreOrder (λ r r' : StreamReader I, sr_read_cursor r' = sr_read_cursor r)) as Hpre.
    { split; [by intros ?|]. intros r1 r2 r3 E1 E2. congruence. }
    unfold inflate_turn, absorb_result, bounded, reject, fail.
    repeat (keeps_step; try done); by destruct (ir_status _). }
  apply (Hk r).
Qed.

(** A reader in the middle of the stream at [start]. *)
Definition reading_at (start : N) (r : StreamReader I) : Prop :=
  sr_finished r = false ∧ ∃ out, reader_at source (2 ^ 64) (λ _, True) start limits out r.

Definition read_left (r : StreamReader I) : N :=
  wl_max_compressed_bytes_per_stream limits - sr_consumed r.

Lemma read_left_fuel start r : reading_at start r → read_left r < 2 ^ 71.
Proof.
  intros _. eapply N.le_lt_trans; [apply N.le_sub_l|]. eapply N.lt_trans; [by destruct Hlimits|]. by vm_compute.
Qed.

Lemma slice_read o n : image_read_at o n tt = (tt, Ok (subslice o n source) : result (Stop WiseError) (list byte)).
Proof. done. Qed.

Lemma read_turn_body start out_len r :
  0 < out_len → reading_at start r →
  match read_turn (I := I) out_len tt (r, tt) with
  | ((r', _), Ok (inl _)) => reading_at start r' ∧ read_left r' < read_left r
  | _ => True
  end.
Proof.
  intros Hout [Hfin [out Hr]].
  pose proof (read_turn_wp source (2 ^ 64) (λ _, True) (λ _, True) False start limits out r tt out_len
    Hr Hfin Hout Logic.I) as Hwp. unfold wp in Hwp.
  destruct (read_turn out_len tt (r, tt)) as [[r' []] [[[]|l]|e]]; [|done..].
  destruct Hwp as (_ & Hr' & Hf' & Hlt). split; [by split; [|exists out]|].
  pose proof (ra_consumed _ _ _ _ _ _ _ Hr') as Hmax. unfold read_left. lia.
Qed.

Lemma on_reader_inflate out_len r {S} (t : S) s' res :
  on_reader (inflate_turn (I := I) out_len) (r, t) = (s', res) →
  sr_read_cursor s'.1 = sr_read_cursor r.
Proof.
  unfold on_reader, zoom. cbn [fst snd]. pose proof (inflate_turn_cursor out_len r) as E.
  destruct (inflate_turn out_len r) as [r' res']. intros [= <- _]. exact E.
Qed.

Lemma read_turn_later start out_len r r' res :
  reading_at start r → read_turn (I := I) out_len tt (r, tt) = ((r', tt), Ok res) → later r r'.
Proof.
  intros [Hfin [out Hat]] E. pose proof (ra_limits _ _ _ _ _ _ _ Hat) as Hl.
  assert (Hcur : sr_read_cursor r ≤ sr_read_cursor r' ∧
    (sr_input_pos r = len (sr_input r) → sr_read_cursor r < len source ∧ sr_read_cursor r < sr_read_cursor r')).
  { unfold read_turn in E. rewrite (M_bind_step (on_source _) _ (r, tt) (r, tt) tt) in E by done.
    rewrite (M_bind_step get _ (r, tt) (r, tt) (r, tt)) in E by done. cbn [fst] in E.
    destruct (N.eqb_spec (sr_input_pos r) (len (sr_input r))) as [Epos|Epos].
    2:{ rewrite (M_bind_step (mret tt) _ _ _ tt eq_refl) in E. apply on_reader_inflate in E. cbn in E.
        rewrite E. split; [lia|]. by intros. }
    set (got := subslice (sr_read_cursor r) (wise_chunk_bytes limits) source).
    assert (Hrefill : refill (I := I) (r, tt) =
      if len got =? 0 then ((put_input got 0 r, tt), Ok false)
      else match bounded (S := unit) (checked_add_bounded 64 (sr_read_cursor r) (len got)) tt with
           | (_, Ok cursor) => ((put_cursor cursor (put_input got 0 r), tt), Ok true)
           | (_, Err e) => ((put_input got 0 r, tt), Err e)
           end).
    { unfold refill, on_source, on_reader, zoom, mbind, M_bind, get, modify. cbn [fst snd]. rewrite Hl.
      rewrite slice_read. fold got. destruct (len got =? 0); [done|]. unfold bounded, lift. by destruct (map_err _ _). }
    unfold mbind at 1 2, M_bind at 1 2 in E. rewrite Hrefill in E.
    destruct (N.eqb_spec (len got) 0) as [E0|E0]; [done|].
    destruct (bounded _ tt) as [[] [cursor|e]] eqn:Eb; [|done]. cbn in E.
    apply on_reader_inflate in E. cbn in E. rewrite E.
    unfold bounded, lift, checked_add_bounded, checked_add in Eb.
    destruct (N.ltb_spec (sr_read_cursor r + len got) (2 ^ 64)); [|done]. injection Eb as <-.
    assert (sr_read_cursor r < len source).
    { unfold got in E0. rewrite len_subslice_le in E0. lia. }
    split; [lia|]. intros _. lia. }
  destruct Hcur as [Hle Hlt]. unfold later, unread, needs. rewrite Hfin.
  destruct (sr_finished r'); (split; [lia|]); intros o [Hn _]; specialize (Hlt Hn); lia.
Qed.

Lemma read_turn_mimics start out_len r w :
  0 < out_len → reading_at start r → movable w →
  mimics (read_turn (I := I) out_len tt) (read_turn (I := I) out_len tt) (reading_at start) r w.
Proof.
  intros Hout Hr Hw. pose proof Hr as [Hfin [out Hat]].
  pose proof (ra_limits _ _ _ _ _ _ _ Hat) as Hl.
  destruct (decide (sr_input_pos r = len (sr_input r))) as [Epos|Epos].
  - destruct (read_mimics w (sr_read_cursor r) (wise_chunk_bytes limits) Hw Hchunk) as [E|(E & Ho & Hpk)].
    + destruct (read_turn_same out_len r w tt) as (r' & res & E1 & E2).
      { intros _. rewrite Hl. eexists. split; [exact E|]. apply slice_read. }
      left. exists r', res. split; [done|]. split; [done|]. destruct res as [res|]; [|done]. by eapply read_turn_later.
    + right. exists r, (sr_read_cursor r). split.
      { unfold read_turn. rewrite (M_bind_step (on_source _) _ (r, w) (r, w) tt) by done.
        rewrite (M_bind_step get _ (r, w) (r, w) (r, w)) by done. cbn [fst]. rewrite Epos, N.eqb_refl.
        unfold refill. apply M_bind_fail, M_bind_fail.
        rewrite (M_bind_step get _ (r, w) (r, w) (r, w)) by done. cbn [fst]. rewrite Hl.
        apply M_bind_fail. unfold on_source, zoom. cbn [snd].
        change (image_read_at (sr_read_cursor r) (wise_chunk_bytes limits) w)
          with (window_read (sr_read_cursor r) (wise_chunk_bytes limits) w). by rewrite E. }
      split; [done|]. split; [done|]. split; [unfold needs; by rewrite Hfin|]. split; [done|]. by split; [left|].
  - destruct (read_turn_same out_len r w tt) as (r' & res & E1 & E2); [done|].
    left. exists r', res. split; [done|]. split; [done|]. destruct res as [res|]; [|done]. by eapply read_turn_later.
Qed.

Lemma chunk_positive : 0 < wise_chunk_bytes limits.
Proof. unfold wise_chunk_bytes. destruct (N.eqb_spec (wl_max_chunk_bytes limits) 0); lia. Qed.

Lemma stream_read_loop {S} `{ImageSource S} `{!WiseCancellation S} out_len start r (s : S) :
  0 < out_len → reading_at start r →
  stream_read (I := I) out_len (r, s) = loop_W (read_turn out_len) tt (r, s).
Proof.
  intros Hout [Hfin _]. unfold stream_read. rewrite (M_bind_step get _ (r, s) (r, s) (r, s)) by done. cbn [fst].
  by rewrite Hfin, (proj2 (N.eqb_neq _ 0)) by lia.
Qed.

(** A read into a buffer of any size. *)
Lemma read_into_mimics out_len start r w :
  0 < out_len → reading_at start r → movable w →
  mimics (stream_read (I := I) out_len) (stream_read (I := I) out_len) (reading_at start) r w.
Proof.
  intros Hout Hr Hw.
  destruct (loop_mimics (read_turn (I := I) out_len) (read_turn (I := I) out_len)
    (reading_at start) read_left) with (r := r) (w := w)
    as [(r' & res & E & Em & Hl)|(r' & o & E & Ho & Hpk & Hn & Hi & Hl & Em)]; try done.
  - apply read_left_fuel.
  - intros r1 Hr1. by apply read_turn_body.
  - intros r1 w1 Hr1 Hw1. by apply (read_turn_mimics start).
  - left. exists r', res. by rewrite !(stream_read_loop out_len start).
  - right. exists r', o. rewrite !(stream_read_loop out_len start) by done. done.
Qed.

Lemma stream_read_mimics start r w :
  reading_at start r → movable w →
  mimics (stream_read (I := I) (wise_chunk_bytes limits)) (stream_read (I := I) (wise_chunk_bytes limits))
    (reading_at start) r w.
Proof. apply read_into_mimics, chunk_positive. Qed.

Lemma mimics_bind {A B} (mw : W (StreamReader I * WindowSource) A) (mm : W (StreamReader I * unit) A)
    (kw : A → W (StreamReader I * WindowSource) B) (km : A → W (StreamReader I * unit) B) (k : A → StreamReader I → result (Stop WiseError) B)
    Inv r w :
  mimics mw mm Inv r w →
  (∀ a r' w', kw a (r', w') = ((r', w'), k a r')) → (∀ a r', km a (r', tt) = ((r', tt), k a r')) →
  mimics (mw ≫= kw) (mm ≫= km) Inv r w.
Proof.
  intros [(r' & res & E & Em & Hl)|(r' & o & E & Ho & Hpk & Hn & Hi & Hl & Em)] Hkw Hkm;
    unfold mimics, mbind, M_bind; rewrite E.
  - left. rewrite Em. destruct res as [a|e].
    + rewrite Hkw, Hkm. exists r', (k a r'). split; [done|]. split; [done|]. by destruct (k a r').
    + by exists r', (Err e).
  - right. exists r', o. rewrite Em. done.
Qed.

(** ** Driving an attempt *)

Definition driving_at (start : N) (r : StreamReader I) : Prop :=
  ∃ out, reader_at source (2 ^ 64) (λ _, True) start limits out r.

Lemma driving_reading start r : driving_at start r → sr_finished r = false → reading_at start r.
Proof. by split. Qed.

Lemma stream_finish_mimics start r w :
  driving_at start r → sr_finished r = true → movable w →
  (∃ res, stream_finish (I := I) (r, w) = ((r, w), res) ∧ stream_finish (I := I) (r, tt) = ((r, tt), res)) ∨
  (stream_finish (I := I) (r, w) = ((r, miss (sr_start r + sr_consumed r) w), Err (Fail WE_SourceFailed)) ∧
   sr_start r + sr_consumed r < len source ∧ ¬ parked (sr_start r + sr_consumed r) w).
Proof.
  intros [out Hat] Hfin Hw. unfold stream_finish.
  rewrite !(M_bind_step get _ (r, _) (r, _) (r, _)) by done. cbn [fst]. rewrite Hfin. cbn [negb].
  rewrite !(M_bind_step (reject false _) _ _ _ tt eq_refl).
  unfold bounded, checked_add_bounded.
  destruct (checked_add 64 (sr_start r) (sr_consumed r)) as [o|] eqn:Eo; cbn [ok_or map_err].
  2:{ left. eexists. split; by apply M_bind_fail. }
  apply checked_add_Some in Eo as [_ ->].
  rewrite !(M_bind_step (lift (Ok _)) _ _ _ _ eq_refl).
  destruct (read_mimics w (sr_start r + sr_consumed r) 4 Hw Hcapacity) as [E|(E & Ho & Hpk)].
  - set (trailer := subslice (sr_start r + sr_consumed r) 4 source) in *.
    assert (on_source (image_read_at (sr_start r + sr_consumed r) 4) (r, w) = ((r, w), Ok trailer)) as Ew.
    { unfold on_source, zoom. cbn [snd fst].
      change (image_read_at (sr_start r + sr_consumed r) 4 w) with (window_read (sr_start r + sr_consumed r) 4 w).
      by rewrite E. }
    left. destruct (len trailer =? 4) eqn:E4; (eexists; split;
      [rewrite (M_bind_step (on_source _) _ (r, w) (r, w) trailer) by exact Ew
      |rewrite (M_bind_step (on_source _) _ (r, tt) (r, tt) trailer) by done]; rewrite E4; reflexivity).
  - right. split; [|done]. apply M_bind_fail. unfold on_source, zoom. cbn [snd fst].
    change (image_read_at (sr_start r + sr_consumed r) 4 w) with (window_read (sr_start r + sr_consumed r) 4 w).
    by rewrite E.
Qed.

Definition drive_left (r : StreamReader I) : N :=
  if sr_finished r then 0 else 1 + (wl_max_inflated_bytes_per_stream limits - sr_inflated r).

Lemma drive_turn_body start r :
  driving_at start r → fits 64 start →
  match drive_turn (I := I) limits tt (r, tt) with
  | ((r', _), Ok (inl _)) => driving_at start r' ∧ drive_left r' < drive_left r
  | ((r', _), Ok (inr om)) => ∃ m out, om = Some m ∧ measured (I := I) source start limits out m
  | (_, Err e) => refused e
  end.
Proof.
  intros [out Hr] Hstart. unfold drive_turn.
  rewrite (M_bind_step get _ (r, tt) (r, tt) (r, tt)) by done. cbn [fst].
  destruct (sr_finished r) eqn:Hfin.
  - pose proof (stream_finish_wp source (2 ^ 64) (λ _, True) (λ _, True) False start limits out r tt
      Hr Hfin Logic.I Hstart ltac:(by vm_compute)) as Hwp. unfold wp in Hwp. unfold mbind, M_bind.
    destruct (stream_finish (r, tt)) as [[r' []] [m|e]]; [|by destruct Hwp as (_ & _ & _ & [])].
    cbn. exists m, out. split; [done|]. apply Hwp.
  - pose proof (stream_read_wp source (2 ^ 64) (λ _, True) (λ _, True) False start limits out r tt
      (wise_chunk_bytes limits) Hr Logic.I chunk_positive) as Hwp. unfold wp in Hwp. unfold mbind, M_bind.
    destruct (stream_read _ (r, tt)) as [[r' []] [l|e]].
    2:{ by destruct Hwp as [_ [He|(_ & [] & _)]]. }
    destruct Hwp as (_ & Hr' & _ & _ & Hor). cbn.
    destruct ((len l =? 0) && negb (sr_finished r')) eqn:Et; cbn; [by eexists|].
    split; [by exists (out ++ l)|]. unfold drive_left. rewrite Hfin.
    destruct (sr_finished r') eqn:Hf'; [lia|]. destruct Hor as [Hne|]; [|done].
    assert (len l ≠ 0) by by rewrite len_0_nil.
    pose proof (ra_inflated _ _ _ _ _ _ _ Hr) as [E1 _]. pose proof (ra_inflated _ _ _ _ _ _ _ Hr') as [E2 E3].
    rewrite len_app in *. lia.
Qed.

Lemma drive_left_fuel start r : driving_at start r → drive_left r < 2 ^ 71.
Proof.
  intros _. unfold drive_left. destruct (sr_finished r); [by vm_compute|].
  pose proof (lf_inflated _ Hlimits). eapply N.le_lt_trans with (2 ^ 64); [lia|by vm_compute].
Qed.

Lemma drive_refuses start r :
  driving_at start r → fits 64 start → (drive_attempt (I := I) limits (r, tt)).2 ≠ Err (Fail WE_SourceFailed).
Proof.
  intros Hr Hstart.
  assert (wp (drive_attempt (I := I) limits) (λ _ _, True) (λ e _, refused e) (r, tt)) as Hwp.
  { unfold drive_attempt. apply (loop_W_wp _ (λ _ s, driving_at start s.1) (λ _ s, drive_left s.1)); [done|..].
    - intros _ [r1 []] H1. eapply N.lt_trans; [by eapply drive_left_fuel|by vm_compute].
    - intros [] [r1 []] H1. pose proof (drive_turn_body start r1 H1 Hstart) as Hb. unfold wp.
      by destruct (drive_turn limits tt (r1, tt)) as [[r' []] [[[]|om]|e]]. }
  unfold wp in Hwp. destruct (drive_attempt limits (r, tt)) as [s [m|e]]; [done|].
  destruct Hwp as (error & -> & Hne). cbn. congruence.
Qed.

Lemma drive_turn_mimics start r w :
  driving_at start r → movable w →
  mimics (drive_turn (I := I) limits tt) (drive_turn (I := I) limits tt) (driving_at start) r w.
Proof.
  intros Hr Hw. destruct (sr_finished r) eqn:Hfin.
  - destruct (stream_finish_mimics start r w Hr Hfin Hw) as [(res & E & Em)|(E & Ho & Hpk)].
    + left. unfold drive_turn. rewrite !(M_bind_step get _ (r, _) (r, _) (r, _)) by done. cbn [fst]. rewrite Hfin.
      exists r, (match res with Ok m => Ok (inr (Some m)) | Err e => Err e end).
      unfold mbind, M_bind. rewrite E, Em. destruct res; (split; [done|split; [done|]]); [|done].
      split; [done|]. by rewrite Hfin.
    + right. exists r, (sr_start r + sr_consumed r). split.
      { unfold drive_turn. rewrite (M_bind_step get _ (r, w) (r, w) (r, w)) by done. cbn [fst]. rewrite Hfin.
        by apply M_bind_fail. }
      split; [done|]. split; [done|]. split; [unfold needs; by rewrite Hfin|]. split; [done|]. by split; [left|].
  - assert (Hrd : reading_at start r) by (by apply driving_reading).
    destruct (mimics_bind _ _
      (λ written, self ← get; reject ((len written =? 0) && negb (sr_finished self.1)) WE_Truncated;; mret (inl tt))
      (λ written, self ← get; reject ((len written =? 0) && negb (sr_finished self.1)) WE_Truncated;; mret (inl tt))
      (λ written r', if (len written =? 0) && negb (sr_finished r') then Err (Fail WE_Truncated)
                     else Ok (inl tt : unit + option StreamMetrics))
      (reading_at start) r w (stream_read_mimics start r w Hrd Hw)) as
      [(r' & res & E & Em & Hl)|(r' & o & E & Ho & Hpk & Hn & Hi & Hl & Em)].
    1-2: intros; unfold mbind, M_bind, get; cbn; by destruct (_ && _).
    + left. exists r', res. unfold drive_turn. rewrite !(M_bind_step get _ (r, _) (r, _) (r, _)) by done.
      cbn [fst]. rewrite Hfin. done.
    + right. exists r', o. unfold drive_turn.
      rewrite !(M_bind_step get _ (r, _) (r, _) (r, _)), !(M_bind_step get _ (r', _) (r', _) (r', _)) by done.
      cbn [fst]. rewrite Hfin, (proj1 Hi). split; [done|]. split; [done|]. split; [done|]. split; [done|].
      split; [apply Hi|]. split; [done|]. exact Em.
Qed.

Lemma drive_mimics start r w :
  driving_at start r → fits 64 start → movable w →
  mimics (drive_attempt (I := I) limits) (drive_attempt (I := I) limits) (driving_at start) r w.
Proof.
  intros Hr Hstart Hw. apply (loop_mimics _ _ (driving_at start) drive_left); try done.
  - apply drive_left_fuel.
  - intros r1 Hr1. pose proof (drive_turn_body start r1 Hr1 Hstart) as Hb.
    by destruct (drive_turn limits tt (r1, tt)) as [[r' []] [[[]|om]|e]].
  - intros r1 w1. apply drive_turn_mimics.
Qed.
(** ** An attempt measures what the blocking reader measures *)

#[local] Instance drop_sink : Sink unit := discard_sink.

Lemma inflate_stream_turn_run r :
  inflate_stream_turn (I := I) limits r (tt, tt) =
  match stream_read (wise_chunk_bytes limits) (r, tt) with
  | ((r', _), Ok l) => ((tt, tt), Ok (if sr_finished r' || (len l =? 0) then inr r' else inl r'))
  | (_, Err e) => ((tt, tt), Err e)
  end.
Proof.
  unfold inflate_stream_turn, mbind, M_bind, zoom, own. cbn [fst snd].
  destruct (stream_read _ (r, tt)) as [[r' []] [l|e]]; cbn [fst snd]; [|done]. by destruct (0 <? len l).
Qed.

Lemma drive_turn_run r :
  drive_turn (I := I) limits tt (r, tt) =
  if sr_finished r then
    match stream_finish (r, tt) with
    | (s, Ok m) => (s, Ok (inr (Some m)))
    | (s, Err e) => (s, Err e)
    end
  else
    match stream_read (wise_chunk_bytes limits) (r, tt) with
    | ((r', t), Ok l) =>
        if (len l =? 0) && negb (sr_finished r') then ((r', t), Err (Fail WE_Truncated))
        else ((r', t), Ok (inl tt))
    | (s, Err e) => (s, Err e)
    end.
Proof.
  unfold drive_turn. rewrite (M_bind_step get _ (r, tt) (r, tt) (r, tt)) by done. cbn [fst].
  destruct (sr_finished r); unfold mbind, M_bind.
  - by destruct (stream_finish (r, tt)) as [s [m|e]].
  - destruct (stream_read _ (r, tt)) as [[r' t] [l|e]]; [|done]. cbn. by destruct (_ && _).
Qed.

(** What is done with the reader [inflate_stream]'s loop leaves with. *)
Definition settle (reader : StreamReader I) : W (unit * unit) StreamMetrics :=
  '(_, metrics) ← zoom fst (λ t s, (t, s.2)) (own stream_finish reader); mret metrics.

Lemma settle_run r :
  settle r (tt, tt) = ((tt, tt), (stream_finish (I := I) (r, tt)).2).
Proof.
  unfold settle, mbind, M_bind, zoom, own. cbn [fst snd].
  by destruct (stream_finish (r, tt)) as [[r' []] [m|e]].
Qed.

Lemma read_driving start r :
  driving_at start r → sr_finished r = false →
  match stream_read (I := I) (wise_chunk_bytes limits) (r, tt) with
  | ((r', _), Ok l) => driving_at start r' ∧ drive_left r' < drive_left r ∧ (sr_finished r' = true ∨ len l ≠ 0)
  | (_, Err e) => True
  end.
Proof.
  intros [out Hr] Hfin.
  pose proof (stream_read_wp source (2 ^ 64) (λ _, True) (λ _, True) False start limits out r tt
    (wise_chunk_bytes limits) Hr Logic.I chunk_positive) as Hwp. unfold wp in Hwp.
  destruct (stream_read _ (r, tt)) as [[r' []] [l|e]]; [|done].
  destruct Hwp as (_ & Hr' & _ & _ & Hor). split; [by exists (out ++ l)|]. unfold drive_left. rewrite Hfin.
  destruct (sr_finished r') eqn:Hf'; [split; [lia|by left]|]. destruct Hor as [Hne|]; [|done].
  assert (len l ≠ 0) by by rewrite len_0_nil.
  pose proof (ra_inflated _ _ _ _ _ _ _ Hr) as [E1 _]. pose proof (ra_inflated _ _ _ _ _ _ _ Hr') as [E2 E3].
  rewrite len_app in *. split; [lia|by right].
Qed.

Lemma inflate_loop_unfold start r :
  driving_at start r → loop_W (inflate_stream_turn (I := I) limits) r (tt, tt) =
  match inflate_stream_turn limits r (tt, tt) with
  | (s, Ok (inl r')) => loop_W (inflate_stream_turn limits) r' s
  | (s, Ok (inr b)) => (s, Ok b)
  | (s, Err e) => (s, Err e)
  end.
Proof.
  intros Hr. apply (loop_W_unfold _ (λ r _, driving_at start r) (λ r _, drive_left r)); [done|..].
  - intros r1 _. apply drive_left_fuel.
  - intros r1 [[] []] H1. rewrite inflate_stream_turn_run. destruct (sr_finished r1) eqn:Hf1.
    + unfold stream_read. rewrite (M_bind_step get _ (r1, tt) (r1, tt) (r1, tt)) by done. cbn [fst].
      rewrite Hf1. cbn. by rewrite Hf1.
    + pose proof (read_driving start r1 H1 Hf1) as Hb.
      destruct (stream_read _ (r1, tt)) as [[r' []] [l|e]]; [|done]. destruct (_ || _); [done|]. naive_solver.
Qed.

Lemma drive_unfold start r :
  driving_at start r → fits 64 start → drive_attempt (I := I) limits (r, tt) =
  match drive_turn limits tt (r, tt) with
  | ((r', _), Ok (inl _)) => drive_attempt limits (r', tt)
  | (s, Ok (inr b)) => (s, Ok b)
  | (s, Err e) => (s, Err e)
  end.
Proof.
  intros Hr Hstart. apply (memory_unfold (drive_turn limits) (driving_at start) drive_left); [|..|done].
  - apply drive_left_fuel.
  - intros r1 Hr1. pose proof (drive_turn_body start r1 Hr1 Hstart) as Hb.
    by destruct (drive_turn limits tt (r1, tt)) as [[r' []] [[[]|om]|e]].
Qed.

(** A turn of the loop that drives an attempt is one of [inflate_stream]'s. *)
Lemma drive_inflate start r :
  driving_at start r → fits 64 start →
  (drive_attempt (I := I) limits (r, tt)).2 =
  match (reader ← loop_W (inflate_stream_turn (I := I) limits) r; settle reader) (tt, tt) with
  | (_, Ok m) => Ok (Some m)
  | (_, Err e) => Err e
  end.
Proof.
  intros Hr Hstart. remember (N.to_nat (drive_left r)) as n eqn:En. revert r En Hr.
  induction n as [n IH] using lt_wf_ind; intros r En Hr. subst n.
  rewrite (drive_unfold start), drive_turn_run by done.
  unfold mbind, M_bind. rewrite (inflate_loop_unfold start), inflate_stream_turn_run by done.
  destruct (sr_finished r) eqn:Hfin.
  - unfold stream_read. rewrite (M_bind_step get _ (r, tt) (r, tt) (r, tt)) by done. cbn [fst].
    rewrite Hfin. cbn [orb mret M_ret]. rewrite Hfin. cbn [orb]. rewrite settle_run.
    by destruct (stream_finish (r, tt)) as [[r1 []] [m|e]].
  - pose proof (read_driving start r Hr Hfin) as Hb.
    destruct (stream_read _ (r, tt)) as [[r' []] [l|e]]; [|done].
    destruct Hb as (Hr' & Hlt & Hor). destruct (sr_finished r') eqn:Hfin'; cbn [orb negb andb].
    + rewrite andb_false_r, (drive_unfold start), drive_turn_run, Hfin', settle_run by done.
      by destruct (stream_finish (r', tt)) as [[r1 []] [m|e]].
    + destruct Hor as [|Hne]; [done|]. rewrite (proj2 (N.eqb_neq _ 0)) by done. cbn [andb].
      by apply (IH (N.to_nat (drive_left r')) ltac:(lia)).
Qed.

#[local] Instance source_still : Serves unit source (2 ^ 64) (λ _, True) (λ s, s = tt) False.
Proof. split; [|exact Hsource]. intros offset wanted [] _ _ _. exists tt. auto. Qed.

(** An attempt driven from the start of a stream to its end. *)
Lemma drive_measures offset :
  fits 64 offset →
  (drive_attempt (I := I) limits (reader_new offset limits, tt)).2 =
  match attempted (I := I) tt limits offset with
  | Ok m => Ok (Some m)
  | Err e => Err (Fail e)
  end.
Proof.
  intros Hoff. rewrite (drive_inflate offset).
  - destruct (measure_still (I := I) source (λ _, True) tt limits offset Hlimits Hoff) as [Em _]; [done|].
    change (measure_stream (I := I) offset limits tt)
      with (let '(t, r) := (reader ← loop_W (inflate_stream_turn (I := I) limits) (reader_new offset limits);
                            settle reader) (tt, tt) in (t.1, r)) in Em.
    destruct ((loop_W (inflate_stream_turn (I := I) limits) (reader_new offset limits) ≫= _) (tt, tt))
      as [[[] []] res]. cbn in Em. injection Em as ->.
    by destruct (attempted tt limits offset).
  - exists []. apply (reader_new_at source (2 ^ 64) (λ _, True)); [done| |done].
    by apply chunk_fits.
  - done.
Qed.
End mimic.
