(* ===== verification/BackendAlike.v ===== *)
(** * Two sources that answer alike

    Over two sources that give the same bytes, and stay where they are, the
    readers of a Wise package do the same. *)

From S2P Require Export BackendMimic.

Section alike.
Context {S1 S2 : Type} `{ImageSource S1} `{ImageSource S2} (s1 : S1) (s2 : S2).

(** Both calls leave their source as it is, and come to the same. *)
Definition alike {A} (m1 : W S1 A) (m2 : W S2 A) : Prop := ∃ r, m1 s1 = (s1, r) ∧ m2 s2 = (s2, r).

Lemma alike_bind {A B} (m1 : W S1 A) (m2 : W S2 A) (k1 : A → W S1 B) (k2 : A → W S2 B) :
  alike m1 m2 → (∀ a, m2 s2 = (s2, Ok a) → alike (k1 a) (k2 a)) → alike (m1 ≫= k1) (m2 ≫= k2).
Proof.
  intros ([a|e] & E1 & E2) Hk; unfold alike, mbind, M_bind; rewrite E1, E2; [by apply Hk|by exists (Err e)].
Qed.

Lemma alike_ret {A} (a : A) : alike (mret a) (mret a).
Proof. by eexists. Qed.

Lemma alike_reject c error : alike (reject c error) (reject c error).
Proof. destruct c; by eexists. Qed.

Lemma alike_bounded {A} (r : result SanitizedError A) : alike (bounded r) (bounded r).
Proof. by eexists. Qed.

Lemma alike_read offset wanted :
  same_read offset wanted s1 s2 → alike (image_read_at offset wanted) (image_read_at offset wanted).
Proof. intros (got & E1 & E2). by exists (Ok got). Qed.

(** ** The headers of an executable *)

Section overlay.
Context (view : list byte) (size bound : N).
Context (Hview : ∀ offset wanted, image_read_at offset wanted s2 = (s2, Ok (subslice offset wanted view))).
Context (Hsize : size < 2 ^ 64) (Hlen : image_len s1 = (s1, Ok size)) (Hlen2 : image_len s2 = (s2, Ok size)).
Context (Hsame : ∀ offset wanted, 0 < wanted → offset + wanted ≤ bound → same_read offset wanted s1 s2).
Context (Hbound : pe_table_end view ≤ bound) (H64 : 64 ≤ bound).

Lemma alike_exact offset wanted : 0 < wanted → offset + wanted ≤ bound →
  alike (wise_read_exact offset wanted) (wise_read_exact offset wanted).
Proof.
  intros. unfold wise_read_exact. apply alike_bind; [by apply alike_read, Hsame|]. intros got _.
  apply alike_bind; [apply alike_reject|]. intros _ _. apply alike_ret.
Qed.

Lemma alike_u16 offset : offset + 2 ≤ bound → alike (wise_read_u16 offset) (wise_read_u16 offset).
Proof. intros. apply alike_bind; [by apply alike_exact|]. intros ? _. apply alike_ret. Qed.

Lemma alike_u32 offset : offset + 4 ≤ bound → alike (wise_read_u32 offset) (wise_read_u32 offset).
Proof. intros. apply alike_bind; [by apply alike_exact|]. intros ? _. apply alike_ret. Qed.

Lemma exact_Ok offset wanted got s' :
  wise_read_exact offset wanted s2 = (s', Ok got) → got = subslice offset wanted view.
Proof.
  unfold wise_read_exact, mbind, M_bind. rewrite Hview. unfold reject. by destruct (negb _); [|intros [= _ <-]].
Qed.

Lemma u16_Ok offset n s' : wise_read_u16 offset s2 = (s', Ok n) → n = u16_at offset view.
Proof.
  unfold wise_read_u16, mbind, M_bind. destruct (wise_read_exact offset 2 s2) as [s [got|e]] eqn:E; [|done].
  apply exact_Ok in E as ->. by intros [= _ <-].
Qed.

Lemma u32_Ok offset n s' : wise_read_u32 offset s2 = (s', Ok n) → n = u32_at offset view.
Proof.
  unfold wise_read_u32, mbind, M_bind. destruct (wise_read_exact offset 4 s2) as [s [got|e]] eqn:E; [|done].
  apply exact_Ok in E as ->. by intros [= _ <-].
Qed.

Lemma bounded_add_Ok (s s' : S2) a b n :
  bounded (checked_add_bounded 64 a b) s = (s', Ok n) → n = a + b.
Proof.
  unfold bounded, lift, checked_add_bounded, checked_add. destruct (_ <? _); [by intros [= _ <-]|done].
Qed.

Lemma bounded_mul_Ok (s s' : S2) a b n :
  bounded (checked_mul_bounded 64 a b) s = (s', Ok n) → n = a * b.
Proof.
  unfold bounded, lift, checked_mul_bounded, checked_mul. destruct (_ <? _); [by intros [= _ <-]|done].
Qed.

Lemma alike_section table_start image_len index overlay_offset :
  table_start + 40 * index + 24 ≤ bound →
  alike (section_step table_start image_len index overlay_offset)
        (section_step table_start image_len index overlay_offset).
Proof.
  intros Hin. unfold section_step, SECTION_HEADER_SIZE.
  apply alike_bind; [apply alike_bounded|intros at_ ->%bounded_mul_Ok].
  apply alike_bind; [apply alike_bounded|intros header ->%bounded_add_Ok].
  apply alike_bind; [apply alike_bounded|intros size_at ->%bounded_add_Ok].
  apply alike_bind; [apply alike_u32; lia|intros raw _].
  apply alike_bind; [apply alike_bounded|intros pointer_at ->%bounded_add_Ok].
  apply alike_bind; [apply alike_u32; lia|intros pointer _].
  destruct (_ || _); [apply alike_ret|]. apply alike_bind; [apply alike_bounded|intros end_ _].
  apply alike_bind; [apply alike_reject|intros _ _]. apply alike_ret.
Qed.

Lemma alike_sections table_start image_len indexes overlay_offset :
  Forall (λ i, table_start + 40 * i + 24 ≤ bound) indexes →
  alike (section_loop table_start image_len indexes overlay_offset)
        (section_loop table_start image_len indexes overlay_offset).
Proof.
  intros Hi. revert overlay_offset. induction indexes as [|i indexes IH]; intros o; cbn; [apply alike_ret|].
  apply list.Forall_cons in Hi as [Hi Hr]. apply alike_bind; [by apply alike_section|]. intros o' _. by apply IH.
Qed.

(** Headers that end within the bound are read alike. *)
Lemma find_overlay_alike limits : alike (find_overlay limits) (find_overlay limits).
Proof.
  unfold find_overlay. apply alike_bind; [by exists (Ok size)|]. rewrite Hlen2. intros ? [= <-].
  apply alike_bind; [apply alike_reject|intros _ _].
  apply alike_bind; [apply alike_u16; lia|intros magic _].
  apply alike_bind; [apply alike_reject|intros _ _].
  apply alike_bind; [apply alike_u32; change E_LFANEW_AT with 60; lia|intros e ->%u32_Ok].
  unfold pe_table_end, pe_table_start, pe_section_count in Hbound.
  set (e := u32_at E_LFANEW_AT view) in *. cbv zeta in Hbound.
  apply alike_bind; [apply alike_reject|intros _ _].
  apply alike_bind; [apply alike_reject|intros _ _].
  apply alike_bind; [apply alike_u32; lia|intros signature _].
  apply alike_bind; [apply alike_reject|intros _ _].
  apply alike_bind; [apply alike_bounded|intros coff ->%bounded_add_Ok].
  apply alike_bind; [apply alike_bounded|intros count_at ->%bounded_add_Ok].
  apply alike_bind; [apply alike_u16; lia|intros count ->%u16_Ok].
  replace (e + 4 + 2) with (e + 6) by lia. set (count := u16_at (e + 6) view) in *.
  apply alike_bind; [apply alike_reject|intros _ _].
  apply alike_bind; [apply alike_reject|intros _ _].
  apply alike_bind; [apply alike_bounded|intros optional_at ->%bounded_add_Ok].
  apply alike_bind; [apply alike_u16; lia|intros optional ->%u16_Ok].
  replace (e + 4 + 16) with (e + 20) by lia. set (optional := u16_at (e + 20) view) in *.
  apply alike_bind; [apply alike_bounded|intros optional_start ->%bounded_add_Ok].
  apply alike_bind; [apply alike_bounded|intros table_start ->%bounded_add_Ok].
  apply alike_bind; [apply alike_bounded|intros table_bytes ->%bounded_mul_Ok].
  apply alike_bind; [apply alike_bounded|intros table_end ->%bounded_add_Ok].
  apply alike_bind; [apply alike_reject|intros _ _].
  apply alike_bind; [apply alike_reject|intros _ _].
  apply alike_bind.
  { apply alike_sections, list.Forall_forall.
    intros i (k & -> & Hk%elem_of_seq)%list_elem_of_fmap. unfold COFF_HEADER_SIZE. lia. }
  intros o _. apply alike_bind; [apply alike_reject|intros _ _].
  apply alike_bind; [apply alike_bounded|intros rest _]. apply alike_ret.
Qed.
End overlay.
End alike.

(** ** Streams *)

Section streams.
Context {I : Type} `{InflaterLaws I} (view : list byte) (limits : WiseLimits) (Reach : N → Prop).
#[local] Hint Extern 0 (ImageSource unit) => exact (source_slice view) : typeclass_instances.
#[local] Hint Extern 0 (WiseCancellation unit) => exact slice_cancel : typeclass_instances.
Context {S : Type} `{ImageSource S} `{!WiseCancellation S, !WiseNever S} (s : S).
Context (Hview : len view < 2 ^ 64) (Hlimits : limits_fit limits).
Context (Hsame : ∀ offset wanted, Reach offset → wanted ≤ 2 ^ 64 → same_read offset wanted s tt).

#[local] Instance view_serves : Serves unit view (2 ^ 64) Reach (λ t, t = tt) False.
Proof. split; [|exact Hview]. intros offset wanted [] _ _ _. exists tt. auto. Qed.

Abbreviation at_view := (reader_at view (2 ^ 64) Reach).

Lemma read_alike start out r :
  at_view start limits out r →
  ∃ r' res, stream_read (I := I) (wise_chunk_bytes limits) (r, s) = ((r', s), res) ∧
            stream_read (I := I) (wise_chunk_bytes limits) (r, tt) = ((r', tt), res).
Proof.
  intros Hr. unfold stream_read.
  rewrite (M_bind_step get _ (r, s) (r, s) (r, s)), (M_bind_step get _ (r, tt) (r, tt) (r, tt)) by done. cbn [fst].
  destruct (sr_finished r || _) eqn:Hgo; [exists r, (Ok []); auto|]. apply orb_false_iff in Hgo as [Hfin Hpos%N.eqb_neq].
  pose (Rel := λ (_ : unit) (x : StreamReader I * S) (_ : unit) (y : StreamReader I * unit), ∃ r,
    x = (r, s) ∧ y = (r, tt) ∧ sr_finished r = false ∧ at_view start limits out r).
  pose (Out := λ (x : (StreamReader I * S) * result (Stop WiseError) (list byte))
                 (y : (StreamReader I * unit) * result (Stop WiseError) (list byte)),
    ∃ r' res, x = ((r', s), res) ∧ y = ((r', tt), res)).
  change (Out (loop_W (read_turn (wise_chunk_bytes limits)) tt (r, s)) (loop_W (read_turn (wise_chunk_bytes limits)) tt (r, tt))).
  apply (loop_W_sim _ _ Rel Out).
  - by exists r.
  - intros [] _ [] _ (r1 & -> & -> & Hf1 & Hr1).
    destruct (read_turn_same (wise_chunk_bytes limits) r1 s tt) as (r2 & res & E1 & E2).
    { intros Epos. rewrite (ra_limits _ _ _ _ _ _ _ Hr1). apply Hsame; [|by apply chunk_fits].
      apply (ra_reach _ _ _ _ _ _ _ Hr1); [|apply (ra_inside _ _ _ _ _ _ _ Hr1)].
      pose proof (ra_cursor _ _ _ _ _ _ _ Hr1). lia. }
    rewrite E1, E2.
    pose proof (read_turn_wp view (2 ^ 64) Reach (λ t, t = tt) False start limits out r1 tt (wise_chunk_bytes limits)
      Hr1 Hf1 ltac:(lia) eq_refl) as Hwp. unfold wp in Hwp. rewrite E2 in Hwp.
    destruct res as [[[]|l]|e]; [|by eexists _, _..].
    destruct Hwp as (_ & Hr2 & Hf2 & _). by exists r2.
  - intros [] ? [] ? (r1 & -> & -> & _). by exists r1, (Err OutOfFuel).
Qed.

Lemma finish_alike start out r :
  at_view start limits out r →
  ∃ res, stream_finish (I := I) (r, s) = ((r, s), res) ∧ stream_finish (I := I) (r, tt) = ((r, tt), res).
Proof.
  intros Hr. unfold stream_finish.
  rewrite (M_bind_step get _ (r, s) (r, s) (r, s)), (M_bind_step get _ (r, tt) (r, tt) (r, tt)) by done. cbn [fst].
  destruct (sr_finished r); [|eexists; split; by apply M_bind_fail].
  rewrite !(M_bind_step (reject (negb true) _) _ _ _ tt eq_refl).
  unfold bounded, checked_add_bounded. pose proof (ra_cursor _ _ _ _ _ _ _ Hr) as Hcur.
  pose proof (ra_inside _ _ _ _ _ _ _ Hr) as Hin. rewrite (ra_start _ _ _ _ _ _ _ Hr).
  destruct (checked_add 64 start (sr_consumed r)) as [o|] eqn:Eo; cbn [ok_or map_err].
  2:{ eexists. split; by apply M_bind_fail. }
  apply checked_add_Some in Eo as [_ ->]. rewrite !(M_bind_step (lift (Ok _)) _ _ _ _ eq_refl).
  destruct (Hsame (start + sr_consumed r) 4) as (got & E1 & E2); [apply (ra_reach _ _ _ _ _ _ _ Hr); lia|by vm_compute|].
  rewrite (M_bind_step (on_source _) _ (r, s) (r, s) got)
    by (unfold on_source, zoom; cbn [fst snd]; by rewrite E1).
  rewrite (M_bind_step (on_source _) _ (r, tt) (r, tt) got)
    by (unfold on_source, zoom; cbn [fst snd]; by rewrite E2).
  destruct (len got =? 4); by eexists.
Qed.

Context {K : Type} `{Sink K}.

(** Inflating a whole stream. *)
Lemma inflate_alike offset (k : K) :
  (∀ o, offset ≤ o → o ≤ N.max offset (len view) → Reach o) →
  ∃ k' res, inflate_stream (I := I) offset limits (s, k) = ((s, k'), res) ∧
            inflate_stream (I := I) offset limits (tt, k) = ((tt, k'), res).
Proof.
  intros Hreach. unfold inflate_stream.
  assert (0 < wise_chunk_bytes limits) as Hpos.
  { unfold wise_chunk_bytes. destruct (N.eqb_spec (wl_max_chunk_bytes limits) 0); lia. }
  pose (Rel := λ (r : StreamReader I) (x : S * K) (r' : StreamReader I) (y : unit * K), r' = r ∧
    ∃ k out, x = (s, k) ∧ y = (tt, k) ∧ at_view offset limits out r).
  pose (Out := λ (x : (S * K) * result (Stop WiseError) (StreamReader I))
                 (y : (unit * K) * result (Stop WiseError) (StreamReader I)),
    ∃ k res, x = ((s, k), res) ∧ y = ((tt, k), res) ∧
      match res with Ok r => ∃ out, at_view offset limits out r | Err _ => True end).
  assert (Out (loop_W (inflate_stream_turn limits) (reader_new offset limits) (s, k))
              (loop_W (inflate_stream_turn limits) (reader_new offset limits) (tt, k))) as (k1 & res & E1 & E2 & Hres).
  { apply (loop_W_sim _ _ Rel Out).
    - split; [done|]. exists k, []. split; [done|]. split; [done|].
      apply (reader_new_at view (2 ^ 64) Reach); [done|by apply chunk_fits|done].
    - intros r _ _ _ (-> & k1 & out & -> & -> & Hr). unfold inflate_stream_turn.
      destruct (read_alike offset out r Hr) as (r1 & res & E1 & E2).
      unfold mbind, M_bind, mret, M_ret, zoom, own. cbn [fst snd]. rewrite E1, E2. destruct res as [l|e]; cbn [fst snd].
      2:{ by exists k1, (Err e). }
      pose proof (stream_read_wp view (2 ^ 64) Reach (λ t, t = tt) False offset limits out r tt (wise_chunk_bytes limits)
        Hr eq_refl Hpos) as Hwp. unfold wp in Hwp. rewrite E2 in Hwp.
      destruct Hwp as (_ & Hr1 & _).
      destruct (0 <? len l); cbn [fst snd]; [destruct (sink_write l k1) as [k2 [[]|e]]|].
      + destruct (sr_finished r1 || (len l =? 0)); cbn.
        * exists k2, (Ok r1). split; [done|]. split; [done|]. by exists (out ++ l).
        * split; [done|]. by exists k2, (out ++ l).
      + by exists k2, (Err e).
      + destruct (sr_finished r1 || (len l =? 0)); cbn.
        * exists k1, (Ok r1). split; [done|]. split; [done|]. by exists (out ++ l).
        * split; [done|]. by exists k1, (out ++ l).
    - intros r _ _ _ (-> & k1 & out & -> & -> & Hr). by exists k1, (Err OutOfFuel). }
  unfold mbind, M_bind. rewrite E1, E2. destruct res as [r|e]; [|by exists k1, (Err e)].
  destruct Hres as [out Hr]. destruct (finish_alike offset out r Hr) as (res & F1 & F2).
  unfold zoom, own. cbn [fst snd]. rewrite F1, F2. exists k1, (match res with Ok m => Ok m | Err e => Err e end).
  by destruct res.
Qed.
End streams.

Section measuring.
Context {I : Type} `{InflaterLaws I} (view : list byte) (Reach : N → Prop).
#[local] Hint Extern 0 (ImageSource unit) => exact (source_slice view) : typeclass_instances.
#[local] Hint Extern 0 (WiseCancellation unit) => exact slice_cancel : typeclass_instances.
Context {S : Type} `{ImageSource S} `{!WiseCancellation S, !WiseNever S} (s : S).
Context (Hview : len view < 2 ^ 64).
Context (Hsame : ∀ offset wanted, Reach offset → wanted ≤ 2 ^ 64 → same_read offset wanted s tt).

Lemma attempted_alike limits offset :
  limits_fit limits → (∀ o, offset ≤ o → o ≤ N.max offset (len view) → Reach o) →
  attempted (I := I) s limits offset = attempted (I := I) tt limits offset.
Proof.
  intros Hf Hre. unfold attempted, measure_stream, zoom.
  destruct (inflate_alike (I := I) (H2 := discard_sink) view limits Reach s Hview Hf Hsame offset tt Hre)
    as (k' & res & E1 & E2). rewrite E1, E2. done.
Qed.

Lemma measure_alike limits offset :
  limits_fit limits → (∀ o, offset ≤ o → o ≤ N.max offset (len view) → Reach o) →
  alike s tt (measure_stream (I := I) offset limits) (measure_stream (I := I) offset limits).
Proof.
  intros Hf Hre. unfold alike, measure_stream, zoom.
  destruct (inflate_alike (I := I) (H2 := discard_sink) view limits Reach s Hview Hf Hsame offset tt Hre)
    as (k' & res & E1 & E2). exists res. by rewrite E1, E2.
Qed.

Lemma returned_alike {A} (m1 : W S A) (m2 : W unit A) :
  alike s tt m1 m2 → alike s tt (returned m1) (returned m2).
Proof.
  intros (r & E1 & E2). unfold alike, returned. rewrite E1, E2. destruct r as [a|[e| |]]; by eexists.
Qed.

Lemma locate_loop_alike overlay limits window skip :
  limits_fit limits → ov_offset overlay + skip + len window ≤ len view →
  (∀ o, ov_offset overlay ≤ o → o ≤ len view → Reach o) →
  alike s tt (locate_loop (I := I) overlay limits skip window) (locate_loop (I := I) overlay limits skip window).
Proof.
  intros Hf Hlen Hre. revert skip Hlen. induction window as [|b window IH]; intros skip Hlen; cbn [locate_loop].
  { by eexists. }
  rewrite len_cons in Hlen. apply alike_bind.
  { exists (Ok tt). split; [|done]. unfold poll_cancelled. by rewrite wise_never. }
  intros _ _. destruct (negb _); [apply IH; lia|]. rewrite wrapping_add_small by lia.
  apply alike_bind.
  { apply returned_alike, measure_alike; [by apply scan_limits_fit|]. intros o Ho1 Ho2. apply Hre; lia. }
  intros [m|e] _; [|apply IH; lia]. destruct (_ || _); [apply IH; lia|apply alike_ret].
Qed.

(** The first stream is located alike. *)
Lemma locate_alike overlay limits :
  limits_fit limits → ov_offset overlay ≤ len view →
  (∀ o, ov_offset overlay ≤ o → o ≤ len view → Reach o) →
  N.min (ov_len overlay) (wl_max_header_scan_bytes limits) ≤ 2 ^ 64 →
  alike s tt (locate_first_stream (I := I) overlay limits) (locate_first_stream (I := I) overlay limits).
Proof.
  intros Hf Hlen Hre Hmin. unfold locate_first_stream.
  apply alike_bind; [apply alike_reject|intros _ _].
  apply alike_bind; [by apply alike_read, Hsame; [apply Hre|]|]. intros window [= <-].
  apply alike_bind; [apply alike_reject|intros _ _].
  apply alike_bind; [apply alike_reject|intros _ _].
  apply locate_loop_alike; [done| |done]. rewrite len_subslice_le. lia.
Qed.
End measuring.
