(* ===== verification/BackendWalk.v ===== *)
(** * The walk over the window

    Driven by a parent that answers its reads, the walk of [BackendWise.v] takes
    exactly the streams that the rules of [WiseWalk.v] give for the source in
    memory, or it ends in the same error. *)

From S2P Require Export BackendMimic.

(** ** Where a machine gets to *)

Section leads.
Context {A R : Type} (step : A → A + R).

(** After some number of turns. *)
Definition leads (a : A) (x : A + R) : Prop := ∃ n, turns n step a = x.

Lemma leads_refl a : leads a (inl a).
Proof. by exists O. Qed.

Lemma leads_step a : leads a (step a).
Proof. exists 1%nat. simpl. by destruct (step a). Qed.

Lemma leads_trans a b x : leads a (inl b) → leads b x → leads a x.
Proof. intros [n En] [m Em]. exists (n + m)%nat. by rewrite turns_add, En. Qed.

Lemma leads_via a b x : step a = inl b → leads b x → leads a x.
Proof. intros E. apply leads_trans. rewrite <-E. apply leads_step. Qed.

Lemma leads_end_det a r r' : leads a (inr r) → leads a (inr r') → r = r'.
Proof.
  intros [n En] [m Em]. assert (inr r = inr r' :> A + R) as [= ->]; [|done].
  rewrite <-(turns_more step n (n + m) a r En), <-(turns_more step m (n + m) a r' Em); [done|lia..].
Qed.
End leads.

(** ** Calls that are tried again *)

Section walk.
Context {I : Type} `{InflaterLaws I} (source : list byte) (limits : WiseLimits) (capacity : N).
#[local] Hint Extern 0 (ImageSource unit) => exact (source_slice source) : typeclass_instances.
#[local] Hint Extern 0 (WiseCancellation unit) => exact slice_cancel : typeclass_instances.
Context (Hsource : len source < 2 ^ 64) (Hlimits : limits_fit limits).
Context (Hchunk : wise_chunk_bytes limits ≤ capacity) (Hcapacity : 4 ≤ capacity).

Section retry.
Context {A : Type} (mw : W (StreamReader I * WindowSource) A) (Inv : StreamReader I → Prop).

(** The call is repeated, each time after the read it stopped at is answered. *)
Inductive retried : StreamReader I → WindowSource → StreamReader I → WindowSource →
    result (Stop WiseError) A → Prop :=
| retried_done r w r' res :
    mw (r, w) = ((r', w), res) → res ≠ Err (Fail WE_SourceFailed) → retried r w r' w res
| retried_miss r w r' wm w' r1 w1 res :
    mw (r, w) = ((r', wm), Err (Fail WE_SourceFailed)) → served source wm = Some w' →
    Inv r' → movable source capacity w' →
    retried r' w' r1 w1 res → retried r w r1 w1 res.

Context (mm : W (StreamReader I * unit) A).
Context (Hmimics : ∀ r w, Inv r → movable source capacity w → mimics source capacity mw mm Inv r w).
Context (Hanswer : ∀ r, Inv r → (mm (r, tt)).2 ≠ Err (Fail WE_SourceFailed)).

Lemma needs_det (r : StreamReader I) o o' : needs r o → needs r o' → o = o'.
Proof. unfold needs. destruct (sr_finished r); naive_solver. Qed.

Lemma retried_parked r w o :
  Inv r → movable source capacity w → needs r o → parked source capacity o w →
  ∃ r1 w1 res, mm (r, tt) = ((r1, tt), res) ∧ retried r w r1 w1 res ∧ movable source capacity w1.
Proof.
  remember (N.to_nat (unread source r)) as n eqn:En. revert r w o En.
  induction n as [n IH] using lt_wf_ind; intros r w o En Hr Hw Hn Hpk. subst n.
  specialize (Hanswer r Hr) as Ha.
  destruct (Hmimics r w Hr Hw) as [(r' & res & E & Em & _)|(r' & o' & E & Ho & Hnp & Hn' & Hi & Hl & Em)].
  { exists r', w, res. split; [done|]. split; [|done]. apply retried_done; [done|]. by rewrite Em in Ha. }
  destruct Hl as [->|[Hle Hl]]; [by rewrite (needs_det r o' o Hn' Hn) in Hnp|]. specialize (Hl o Hn).
  destruct (sr_finished r); [subst r'; by rewrite (needs_det r o' o Hn' Hn) in Hnp|].
  destruct (miss_served source capacity w o' Hw Ho) as (w' & Es & Hw' & Hp').
  destruct (IH (N.to_nat (unread source r')) ltac:(lia) r' w' o' eq_refl Hi Hw' Hn' Hp') as (r1 & w1 & res & E1 & Hre & Hw1).
  exists r1, w1, res. rewrite <-Em. split; [done|]. split; [|done]. by eapply retried_miss.
Qed.

(** Tried often enough, the call answers as it does in memory. *)
Lemma mimics_retried r w :
  Inv r → movable source capacity w →
  ∃ r1 w1 res, mm (r, tt) = ((r1, tt), res) ∧ retried r w r1 w1 res ∧ movable source capacity w1.
Proof.
  intros Hr Hw. specialize (Hanswer r Hr) as Ha.
  destruct (Hmimics r w Hr Hw) as [(r' & res & E & Em & _)|(r' & o & E & Ho & Hnp & Hn & Hi & Hl & Em)].
  { exists r', w, res. split; [done|]. split; [|done]. apply retried_done; [done|]. by rewrite Em in Ha. }
  destruct (miss_served source capacity w o Hw Ho) as (w' & Es & Hw' & Hp').
  destruct (retried_parked r' w' o Hi Hw' Hn Hp') as (r1 & w1 & res & E1 & Hre & Hw1).
  exists r1, w1, res. rewrite <-Em. split; [done|]. split; [|done]. by eapply retried_miss.
Qed.
End retry.

(** ** The machine *)

(** A turn of the parent: what is armed is answered. *)
Definition serve_after (out : (WiseBackend I * WindowSource) * result (Stop WiseError) Advance)
  : (WiseBackend I * WindowSource) + (WiseBackend I * WindowSource) * result (Stop WiseError) unit :=
  match out with
  | (s, Ok AD_Working) => inl s
  | ((backend, window), Ok AD_NeedRead) =>
      match served source window with
      | Some window => inl (backend, window)
      | None => inr ((backend, window), Err Panic)
      end
  | (s, Ok AD_Ready) => inr (s, Ok tt)
  | (s, Err error) => inr (s, Err error)
  end.

Definition serve_turn (s : WiseBackend I * WindowSource) := serve_after (wise_advance s).

(** A back end in the middle of a walk. *)
Definition at_stage (stage : Stage) (reader : StreamReader I) (streams : list StreamRecord) : WiseBackend I :=
  {| wb_limits := limits; wb_stage := stage; wb_reader := reader; wb_streams := streams;
     wb_table := file_table_default; wb_map := None |}.

Definition put_started (walk : Walk) : Walk := put_walk (wk_skip walk) true (wk_first walk) walk.

(** The guards of [advance_walk] that let it try a stream. *)
Record trying (walk : Walk) : Prop := {
  tr_end : at_end (overlay_end (wk_overlay walk)) (wk_cursor walk) = false;
  tr_streams : wk_index walk < wl_max_streams limits;
  tr_offset : wk_cursor walk + wk_skip walk < overlay_end (wk_overlay walk);
  tr_fits : overlay_end (wk_overlay walk) < 2 ^ 64
}.

Lemma trying_started walk : trying walk → trying (put_started walk).
Proof. by intros []. Qed.

(** One call while a stream is tried. *)
Lemma advance_attempt walk r streams w r' w' (outcome : result WiseError (option StreamMetrics)) :
  trying walk →
  let offset := wk_cursor walk + wk_skip walk in
  let r0 := if wk_started walk then r else restart offset r in
  drive_attempt limits (r0, w) = ((r', w'), as_result outcome) →
  wise_advance (at_stage (SG_Walk walk) r streams, w) =
  conclude_attempt (put_started walk) outcome (at_stage SG_Ready r' streams, w').
Proof.
  intros [He Hi Ho Hf] offset r0 E. unfold wise_advance.
  rewrite (M_bind_step get _ _ _ _ eq_refl), (M_bind_step (set_stage SG_Ready) _ _ _ tt eq_refl). cbn [fst].
  change (advance_walk walk (at_stage SG_Ready r streams, w) =
    conclude_attempt (put_started walk) outcome (at_stage SG_Ready r' streams, w')).
  unfold advance_walk. rewrite (M_bind_step get _ _ _ _ eq_refl). cbn [fst]. cbv zeta.
  unfold at_end in He. change MINIMUM_STREAM_BYTES with MIN_STREAM_BYTES. rewrite He.
  change (wb_limits (at_stage SG_Ready r streams)) with limits.
  rewrite (proj2 (N.leb_gt _ _) Hi), (M_bind_step (reject false _) _ _ _ tt eq_refl).
  assert (saturating_add 64 (wk_cursor walk) (wk_skip walk) = offset) as ->.
  { unfold saturating_add. apply N.min_l. unfold offset. lia. }
  rewrite (proj2 (N.leb_gt (overlay_end (wk_overlay walk)) offset) Ho).
  rewrite (M_bind_step _ _ _ (at_stage SG_Ready r0 streams, w) tt).
  2:{ unfold r0. by destruct (wk_started walk). }
  rewrite (M_bind_step _ _ _ (at_stage SG_Ready r' streams, w') outcome); [done|].
  unfold returned, with_reader, zoom. cbn [fst snd at_stage wb_reader]. rewrite E. by destruct outcome.
Qed.

Lemma started_twice walk : put_started (put_started walk) = put_started walk.
Proof. by destruct walk. Qed.

(** Calls while a stream is tried, over the reads they stop at. *)
Lemma attempt_retried Inv walk r streams w r1 w1 (outcome : result WiseError (option StreamMetrics)) :
  trying walk →
  retried (drive_attempt limits) Inv (if wk_started walk then r else restart (wk_cursor walk + wk_skip walk) r)
    w r1 w1 (as_result outcome) →
  leads serve_turn (at_stage (SG_Walk walk) r streams, w)
    (serve_after (conclude_attempt (put_started walk) outcome (at_stage SG_Ready r1 streams, w1))).
Proof.
  intros Hw. remember (if wk_started walk then r else _) as r0 eqn:E0. remember (as_result outcome) as res eqn:Er.
  intros Hre. revert walk r Hw E0 Er.
  induction Hre as [r0 w r1 res E Hne|r0 w r' wm w' r1 w1 res E Es _ _ Hre IH]; intros walk r Hw -> ->.
  - rewrite <-(advance_attempt walk r streams w r1 w outcome) by done. exact (leads_step serve_turn (at_stage (SG_Walk walk) r streams, w)).
  - apply (leads_via _ _ (at_stage (SG_Walk (put_started walk)) r' streams, w')).
    + unfold serve_turn. erewrite (advance_attempt walk r streams w r' wm (Err WE_SourceFailed)) by done.
      change (serve_after ((at_stage (SG_Walk (put_started walk)) r' streams, wm), Ok AD_NeedRead) =
        inl (at_stage (SG_Walk (put_started walk)) r' streams, w')).
      unfold serve_after. by rewrite Es.
    + rewrite <-(started_twice walk). by apply IH; [apply trying_started|..].
Qed.

Lemma drive_keeps_limits :
  keeps (λ s s' : StreamReader I * unit, sr_limits s'.1 = sr_limits s.1) (drive_attempt (I := I) limits).
Proof.
  assert (PreOrder (λ r r' : StreamReader I, sr_limits r' = sr_limits r)) as Hpre0.
  { split; [by intros ?|]. intros r1 r2 r3 E1 E2. congruence. }
  assert (PreOrder (λ s s' : StreamReader I * unit, sr_limits s'.1 = sr_limits s.1)) as Hpre.
  { split; [by intros ?|]. intros s1 s2 s3 E1 E2. congruence. }
  assert (Hturn : ∀ out_len, keeps (λ r r' : StreamReader I, sr_limits r' = sr_limits r) (inflate_turn out_len)).
  { intros out_len. unfold inflate_turn, absorb_result, bounded, reject, fail.
    repeat (keeps_step; try done); by destruct (ir_status _). }
  assert (Hreader : ∀ A (m : W (StreamReader I) A), keeps (λ r r', sr_limits r' = sr_limits r) m →
    keeps (λ s s' : StreamReader I * unit, sr_limits s'.1 = sr_limits s.1) (on_reader m)).
  { intros A m Hm [r []]. unfold on_reader, zoom. cbn. specialize (Hm r). by destruct (m r). }
  assert (Hsrc : ∀ A (m : W unit A),
    keeps (λ s s' : StreamReader I * unit, sr_limits s'.1 = sr_limits s.1) (on_source m)).
  { intros A m [r []]. unfold on_source, zoom. cbn. by destruct (m tt). }
  assert (Hread : ∀ out_len, keeps (λ s s' : StreamReader I * unit, sr_limits s'.1 = sr_limits s.1)
    (stream_read out_len)).
  { intros out_len. unfold stream_read. repeat (keeps_step; try done). apply keeps_loop_W; [done|].
    intros []. unfold read_turn, refill, bounded, reject, fail.
    repeat (keeps_step || apply Hsrc || apply Hreader || apply Hturn); done. }
  unfold drive_attempt. apply keeps_loop_W; [done|]. intros [].
  unfold drive_turn, stream_finish, bounded, reject, fail.
  repeat (keeps_step || apply Hsrc || apply Hread); done.
Qed.

(** ** One stream *)

Definition attempt : N → result WiseError StreamMetrics := attempted (I := I) tt limits.

Definition outcome_of (r : result WiseError StreamMetrics) : result WiseError (option StreamMetrics) :=
  match r with Ok m => Ok (Some m) | Err e => Err e end.

#[local] Instance walk_still : Serves unit source (2 ^ 64) (λ _, True) (λ s, s = tt) False.
Proof. split; [|exact Hsource]. intros offset wanted [] _ _ _. exists tt. auto. Qed.

Lemma attempt_not_failed offset : fits 64 offset → attempt offset ≠ Err WE_SourceFailed.
Proof.
  intros Hf. destruct (measure_still (I := I) source (λ _, True) tt limits offset Hlimits Hf) as [_ Hm]; [done|].
  unfold attempt. destruct (attempted tt limits offset); [done|]. naive_solver.
Qed.

Lemma restart_new offset (r : StreamReader I) : sr_limits r = limits → restart offset r = reader_new offset limits.
Proof. intros <-. unfold restart, reader_new. by rewrite inflate_reset_new. Qed.

(** A stream that is tried is measured. *)
Lemma attempt_leads walk r streams w :
  trying walk → wk_started walk = false → sr_limits r = limits → movable source capacity w →
  ∃ r1 w1, sr_limits r1 = limits ∧ movable source capacity w1 ∧
    leads serve_turn (at_stage (SG_Walk walk) r streams, w)
      (serve_after (conclude_attempt (put_started walk) (outcome_of (attempt (wk_cursor walk + wk_skip walk)))
                      (at_stage SG_Ready r1 streams, w1))).
Proof.
  intros Hw Hs Hl Hwin. set (offset := wk_cursor walk + wk_skip walk).
  assert (fits 64 offset) as Hoff by (destruct Hw; unfold fits, offset; lia).
  pose proof (drive_measures source limits capacity Hsource Hlimits Hchunk Hcapacity offset Hoff) as Hm.
  assert (as_result (outcome_of (attempt offset)) = (drive_attempt (I := I) limits (reader_new offset limits, tt)).2) as Ho.
  { rewrite Hm. unfold attempt. by destruct (attempted tt limits offset). }
  destruct (mimics_retried (drive_attempt (I := I) limits) (driving_at source limits offset)
    (drive_attempt limits)) with (r := reader_new offset limits : StreamReader I) (w := w)
    as (r1 & w1 & res & E & Hre & Hw1).
  - intros r2 w2 H2 Hw2. by eapply drive_mimics.
  - intros r2 H2. by eapply drive_refuses.
  - exists []. apply (reader_new_at source (2 ^ 64) (λ _, True)); [done|by apply chunk_fits|done].
  - done.
  - exists r1, w1. split; [|split; [done|]].
    + pose proof (drive_keeps_limits (reader_new offset limits, tt)) as Hk. by rewrite E in Hk.
    + eapply (attempt_retried _ walk r streams w r1 w1); [done|]. rewrite Hs, restart_new by done.
      fold offset. rewrite Ho, E. exact Hre.
Qed.

(** ** The stream a walk takes *)

Context (Hstreams : wl_max_streams limits < 2 ^ 32) (Htotal : wl_max_total_inflated_bytes limits < 2 ^ 64).
Context (overlay : Overlay) (Hend : overlay_end overlay + wl_max_resync_skip limits < 2 ^ 64).

Definition walk_at (cursor index total skip : N) (first : option (result WiseError StreamMetrics)) : Walk :=
  {| wk_overlay := overlay; wk_cursor := cursor; wk_index := index; wk_total_inflated := total;
     wk_skip := skip; wk_started := false; wk_first := first |}.

Abbreviation machine := ((WiseBackend I * WindowSource) +
  (WiseBackend I * WindowSource) * result (Stop WiseError) unit)%type.

(** The machine has stopped with an error. *)
Definition stopped_at (e : WiseError) (x : machine) : Prop := ∃ s, x = inr (s, Err (Fail e)).

(** The machine once a walk has made its choice. *)
Definition concluded (index total : N) (streams : list StreamRecord)
    (choice : result WiseError (StreamMetrics * N)) (x : machine) : Prop :=
  match choice with
  | Err e => stopped_at e x
  | Ok (m, skip) =>
      if wl_max_total_inflated_bytes limits <? total + sm_inflated_len m
      then stopped_at (WE_LimitExceeded WL_TotalInflatedBytes) x
      else ∃ r w, sr_limits r = limits ∧ movable source capacity w ∧
        x = inl (at_stage (SG_Walk (walk_at (next_offset m) (index + 1) (total + sm_inflated_len m) 0 None)) r
                   (streams ++ [record index m skip]), w)
  end.

Lemma accept_concluded walk m r w streams index total :
  wk_overlay walk = overlay → wk_index walk = index → wk_total_inflated walk = total →
  index < wl_max_streams limits → sr_limits r = limits → movable source capacity w →
  concluded index total streams (Ok (m, wk_skip walk))
    (serve_after ((walk ← on_backend (accept_stream walk m); set_stage (SG_Walk walk);; mret AD_Working)
                    (at_stage SG_Ready r streams, w))).
Proof.
  intros Ho <- <- Hi Hl Hw. unfold concluded.
  assert (Hrun : accept_stream walk m (at_stage SG_Ready r streams) =
    if wl_max_total_inflated_bytes limits <? wk_total_inflated walk + sm_inflated_len m
    then (at_stage SG_Ready r streams, Err (Fail (WE_LimitExceeded WL_TotalInflatedBytes)))
    else (at_stage SG_Ready r (streams ++ [record (wk_index walk) m (wk_skip walk)]),
          Ok (walk_at (next_offset m) (wk_index walk + 1) (wk_total_inflated walk + sm_inflated_len m) 0 None))).
  { unfold accept_stream. rewrite (M_bind_step get _ _ _ _ eq_refl).
    change (wb_limits (at_stage SG_Ready r streams)) with limits.
    destruct (N.ltb_spec (wl_max_total_inflated_bytes limits) (wk_total_inflated walk + sm_inflated_len m)) as [Ht|Ht].
    - unfold checked_add. destruct (N.ltb_spec (wk_total_inflated walk + sm_inflated_len m) (2 ^ 64)); cbn [ok_or].
      + rewrite (M_bind_step (lift (Ok _)) _ _ _ _ eq_refl), (proj2 (N.ltb_lt _ _) Ht). by apply M_bind_fail.
      + by apply M_bind_fail.
    - unfold checked_add. rewrite (proj2 (N.ltb_lt _ (2 ^ 64))) by lia. cbn [ok_or].
      rewrite (M_bind_step (lift (Ok _)) _ _ _ _ eq_refl), (proj2 (N.ltb_ge _ _) Ht).
      rewrite (M_bind_step (reject false _) _ _ _ tt eq_refl), (M_bind_step (modify _) _ _ _ tt eq_refl).
      rewrite (proj2 (N.ltb_lt (wk_index walk + 1) (2 ^ 32))) by lia. cbn [ok_or].
      rewrite (M_bind_step (lift (Ok _)) _ _ _ _ eq_refl). unfold walk_at. rewrite <-Ho. reflexivity. }
  destruct (wl_max_total_inflated_bytes limits <? _).
  - eexists. unfold mbind, M_bind, on_backend, zoom. cbn [fst snd]. rewrite Hrun. reflexivity.
  - exists r, w. split; [done|]. split; [done|]. unfold mbind, M_bind, on_backend, zoom. cbn [fst snd].
    rewrite Hrun. reflexivity.
Qed.

(** What is left when no skip settles the matter. *)
Definition kept (first : result WiseError StreamMetrics) : result WiseError (StreamMetrics * N) :=
  match first with Ok m => Ok (m, 0) | Err e => Err e end.

Lemma finish_concluded walk first r w streams index total :
  wk_overlay walk = overlay → wk_index walk = index → wk_total_inflated walk = total →
  wk_first walk = Some first → index < wl_max_streams limits → sr_limits r = limits → movable source capacity w →
  concluded index total streams (kept first)
    (serve_after (finish_attempts walk (at_stage SG_Ready r streams, w))).
Proof.
  intros Ho Hx Ht Hf Hi Hl Hw. unfold finish_attempts. rewrite Hf. destruct first as [m|e]; [|by eexists].
  by apply (accept_concluded (put_walk 0 false None walk)).
Qed.

(** The candidate that ends the search. *)
Definition settles (res : result WiseError StreamMetrics) : bool :=
  match res with Ok m => is_match (sm_checksum m) | Err e => is_fatal e end.

Definition at_skip (skip : N) (res : result WiseError StreamMetrics) : result WiseError (StreamMetrics * N) :=
  match res with Ok m => Ok (m, skip) | Err e => Err e end.

(** One candidate: it settles the matter, or the next one is tried, or there is none. *)
Lemma try_leads cursor index total skip first kept_first r w streams :
  at_end (overlay_end overlay) cursor = false → index < wl_max_streams limits →
  cursor + skip < overlay_end overlay → sr_limits r = limits → movable source capacity w →
  (if skip =? 0 then Some (attempt (cursor + skip)) else first) = Some kept_first →
  ∃ x, leads serve_turn (at_stage (SG_Walk (walk_at cursor index total skip first)) r streams, w) x ∧
    if settles (attempt (cursor + skip))
    then concluded index total streams (at_skip skip (attempt (cursor + skip))) x
    else if skip <? wl_max_resync_skip limits
    then ∃ r1 w1, sr_limits r1 = limits ∧ movable source capacity w1 ∧
      x = inl (at_stage (SG_Walk (walk_at cursor index total (skip + 1) (Some kept_first))) r1 streams, w1)
    else concluded index total streams (kept kept_first) x.
Proof.
  intros He Hi Ho Hl Hw Hk. set (walk := walk_at cursor index total skip first).
  destruct (attempt_leads walk r streams w) as (r1 & w1 & Hl1 & Hw1 & Hlead); [|done..|].
  { split; cbn; [done|done|done|]. lia. }
  eexists. split; [exact Hlead|]. cbn [walk walk_at wk_cursor wk_skip].
  assert (attempt (cursor + skip) ≠ Err WE_SourceFailed) as Hne by (apply attempt_not_failed; unfold fits; lia).
  assert (Hnext : serve_after (next_attempt (put_walk skip true (Some kept_first) walk) (at_stage SG_Ready r1 streams, w1)) =
    if skip <? wl_max_resync_skip limits
    then inl (at_stage (SG_Walk (walk_at cursor index total (skip + 1) (Some kept_first))) r1 streams, w1)
    else serve_after (finish_attempts (put_walk skip true (Some kept_first) walk) (at_stage SG_Ready r1 streams, w1))).
  { unfold next_attempt. rewrite (M_bind_step get _ _ _ _ eq_refl).
    change (wb_limits (at_stage SG_Ready r1 streams, w1).1) with limits.
    cbn [put_walk wk_skip]. by destruct (skip <? wl_max_resync_skip limits). }
  assert (Hgo : if skip <? wl_max_resync_skip limits
    then ∃ r2 w2, sr_limits r2 = limits ∧ movable source capacity w2 ∧
      serve_after (next_attempt (put_walk skip true (Some kept_first) walk) (at_stage SG_Ready r1 streams, w1)) =
      inl (at_stage (SG_Walk (walk_at cursor index total (skip + 1) (Some kept_first))) r2 streams, w2)
    else concluded index total streams (kept kept_first)
      (serve_after (next_attempt (put_walk skip true (Some kept_first) walk) (at_stage SG_Ready r1 streams, w1)))).
  { rewrite Hnext. destruct (skip <? wl_max_resync_skip limits); [by exists r1, w1|]. by apply finish_concluded. }
  unfold conclude_attempt, settles, at_skip. destruct (attempt (cursor + skip)) as [m|e] eqn:Ea; cbn [outcome_of].
  - destruct (is_match (sm_checksum m)).
    + exact (accept_concluded (put_started walk) m r1 w1 streams index total eq_refl eq_refl eq_refl Hi Hl1 Hw1).
    + cbn [put_started put_walk wk_skip wk_started wk_first walk walk_at]. rewrite Hk. exact Hgo.
  - destruct (is_window_miss e) eqn:Emiss; [by destruct e|]. destruct (is_fatal e); [by eexists|].
    cbn [put_started put_walk wk_skip wk_started wk_first walk walk_at]. rewrite Hk. exact Hgo.
Qed.

(** A skip past the overlay. *)
Lemma past_end_leads cursor index total skip first r w streams :
  at_end (overlay_end overlay) cursor = false → index < wl_max_streams limits →
  overlay_end overlay ≤ cursor + skip → cursor + skip < 2 ^ 64 → sr_limits r = limits → movable source capacity w →
  ∃ x, leads serve_turn (at_stage (SG_Walk (walk_at cursor index total skip (Some first))) r streams, w) x ∧
    concluded index total streams (kept first) x.
Proof.
  intros He Hi Ho Hf Hl Hw. set (walk := walk_at cursor index total skip (Some first)).
  exists (serve_after (finish_attempts walk (at_stage SG_Ready r streams, w))). split; [|by apply finish_concluded].
  assert (wise_advance (at_stage (SG_Walk walk) r streams, w) = finish_attempts walk (at_stage SG_Ready r streams, w)) as <-.
  { unfold wise_advance.
    rewrite (M_bind_step get _ _ _ _ eq_refl), (M_bind_step (set_stage SG_Ready) _ _ _ tt eq_refl). cbn [fst].
    change (advance_walk walk (at_stage SG_Ready r streams, w) = finish_attempts walk (at_stage SG_Ready r streams, w)).
    unfold advance_walk. rewrite (M_bind_step get _ _ _ _ eq_refl). cbn [fst]. cbv zeta.
    unfold at_end in He. change MINIMUM_STREAM_BYTES with MIN_STREAM_BYTES.
    cbn [walk walk_at wk_overlay wk_cursor wk_index wk_skip]. rewrite He.
    change (wb_limits (at_stage SG_Ready r streams)) with limits.
    rewrite (proj2 (N.leb_gt _ _) Hi), (M_bind_step (reject false _) _ _ _ tt eq_refl).
    assert (saturating_add 64 cursor skip = cursor + skip) as ->.
    { unfold saturating_add. apply N.min_l. lia. }
    by rewrite (proj2 (N.leb_le _ _) Ho). }
  exact (leads_step serve_turn (at_stage (SG_Walk walk) r streams, w)).
Qed.

Lemma resync_leads cursor index total n k first r w streams :
  at_end (overlay_end overlay) cursor = false → index < wl_max_streams limits →
  sr_limits r = limits → movable source capacity w → (0 < k)%nat → N.of_nat (k + n) = wl_max_resync_skip limits →
  ∃ x, leads serve_turn (at_stage (SG_Walk (walk_at cursor index total (N.of_nat k) (Some first))) r streams, w) x ∧
    concluded index total streams
      (match resynced attempt (overlay_end overlay) cursor (map N.of_nat (seq k (Datatypes.S n))) with
       | Some found => found
       | None => kept first
       end) x.
Proof.
  revert k r w. induction n as [|n IH]; intros k r w He Hi Hl Hw Hk Hmax.
  all: pose proof He as [Hin%N.leb_gt _]%orb_false_iff.
  all: cbn [seq map resynced]; destruct (N.leb_spec (overlay_end overlay) (cursor + N.of_nat k)) as [Ho|Ho];
    [by apply past_end_leads; try lia|].
  all: destruct (try_leads cursor index total (N.of_nat k) (Some first) first r w streams) as (x & Hlead & Hx);
    [done|done|done|done|done|by destruct (N.eqb_spec (N.of_nat k) 0); [lia|]|].
  all: unfold settles, at_skip in Hx.
  - rewrite (proj2 (N.ltb_ge _ _)) in Hx by lia. exists x. split; [done|].
    destruct (attempt (cursor + N.of_nat k)) as [m|e]; [by destruct (is_match _)|by destruct (is_fatal e)].
  - rewrite (proj2 (N.ltb_lt _ _)) in Hx by lia.
    assert (Hrec : (∃ r1 w1, sr_limits r1 = limits ∧ movable source capacity w1 ∧
        x = inl (at_stage (SG_Walk (walk_at cursor index total (N.of_nat k + 1) (Some first))) r1 streams, w1)) →
      ∃ x, leads serve_turn (at_stage (SG_Walk (walk_at cursor index total (N.of_nat k) (Some first))) r streams, w) x ∧
        concluded index total streams
          (match resynced attempt (overlay_end overlay) cursor (map N.of_nat (seq (Datatypes.S k) (Datatypes.S n))) with
           | Some found => found
           | None => kept first
           end) x).
    { intros (r1 & w1 & Hl1 & Hw1 & ->). destruct (IH (Datatypes.S k) r1 w1) as (x & Hlead' & Hx'); [done..|lia|lia|].
      exists x. split; [|done]. eapply leads_trans; [exact Hlead|].
      by replace (N.of_nat k + 1) with (N.of_nat (Datatypes.S k)) by lia. }
    destruct (attempt (cursor + N.of_nat k)) as [m|e].
    + destruct (is_match _); [by exists x|]. by apply Hrec.
    + destruct (is_fatal e); [by exists x|]. by apply Hrec.
Qed.

(** The stream chosen at a cursor is the one the rules choose. *)
Lemma chosen_leads cursor index total r w streams :
  at_end (overlay_end overlay) cursor = false → index < wl_max_streams limits →
  sr_limits r = limits → movable source capacity w →
  ∃ x, leads serve_turn (at_stage (SG_Walk (walk_at cursor index total 0 None)) r streams, w) x ∧
    concluded index total streams (chosen attempt limits (overlay_end overlay) cursor) x.
Proof.
  intros He Hi Hl Hw. pose proof He as [Hin%N.leb_gt _]%orb_false_iff.
  destruct (try_leads cursor index total 0 None (attempt cursor) r w streams) as (x & Hlead & Hx);
    [done|done|lia|done|done|by rewrite N.add_0_r|].
  rewrite N.add_0_r in Hx. unfold chosen, skips_to.
  assert (Hre : (if 0 <? wl_max_resync_skip limits
     then ∃ r1 w1, sr_limits r1 = limits ∧ movable source capacity w1 ∧
       x = inl (at_stage (SG_Walk (walk_at cursor index total (0 + 1) (Some (attempt cursor)))) r1 streams, w1)
     else concluded index total streams (kept (attempt cursor)) x) →
    ∃ x, leads serve_turn (at_stage (SG_Walk (walk_at cursor index total 0 None)) r streams, w) x ∧
      concluded index total streams
        (match resynced attempt (overlay_end overlay) cursor (map N.of_nat (seq 1 (N.to_nat (wl_max_resync_skip limits)))) with
         | Some found => found
         | None => kept (attempt cursor)
         end) x).
  { destruct (N.ltb_spec 0 (wl_max_resync_skip limits)) as [Hm|Hm].
    - intros (r1 & w1 & Hl1 & Hw1 & ->).
      destruct (resync_leads cursor index total (N.to_nat (wl_max_resync_skip limits) - 1) 1 (attempt cursor) r1 w1 streams)
        as (y & Hlead' & Hy); [done..|lia|lia|].
      replace (Datatypes.S (N.to_nat (wl_max_resync_skip limits) - 1)) with (N.to_nat (wl_max_resync_skip limits)) in Hy by lia.
      exists y. split; [|done]. eapply leads_trans; [exact Hlead|exact Hlead'].
    - intros Hc. exists x. split; [done|]. by replace (N.to_nat (wl_max_resync_skip limits)) with 0%nat by lia. }
  unfold settles, at_skip in Hx. destruct (attempt cursor) as [m|e].
  - destruct (is_match (sm_checksum m)); [by exists x|]. by apply Hre.
  - destruct (is_fatal e); [by exists x|]. by apply Hre.
Qed.

Definition script_at : Stage := SG_Script {| sc_overlay := overlay; sc_started := false; sc_bytes := [] |}.

(** The guards of [advance_walk] that end the walk. *)
Lemma guards_leads cursor index total r w streams :
  leads serve_turn (at_stage (SG_Walk (walk_at cursor index total 0 None)) r streams, w)
    (if at_end (overlay_end overlay) cursor then inl (at_stage script_at r streams, w)
     else if wl_max_streams limits <=? index
     then inr ((at_stage SG_Ready r streams, w), Err (Fail (WE_LimitExceeded WL_Streams)))
     else serve_turn (at_stage (SG_Walk (walk_at cursor index total 0 None)) r streams, w)).
Proof.
  set (walk := walk_at cursor index total 0 None).
  destruct (at_end (overlay_end overlay) cursor) eqn:He; [|destruct (wl_max_streams limits <=? index) eqn:Hi;
    [|apply leads_step]].
  - assert (serve_turn (at_stage (SG_Walk walk) r streams, w) = inl (at_stage script_at r streams, w)) as <-;
      [|apply leads_step].
    unfold serve_turn, wise_advance.
    rewrite (M_bind_step get _ _ _ _ eq_refl), (M_bind_step (set_stage SG_Ready) _ _ _ tt eq_refl). cbn [fst].
    change (serve_after (advance_walk walk (at_stage SG_Ready r streams, w)) = inl (at_stage script_at r streams, w)).
    unfold advance_walk. rewrite (M_bind_step get _ _ _ _ eq_refl). cbn [fst]. cbv zeta.
    unfold at_end in He. change MINIMUM_STREAM_BYTES with MIN_STREAM_BYTES.
    cbn [walk walk_at wk_overlay wk_cursor]. by rewrite He.
  - assert (serve_turn (at_stage (SG_Walk walk) r streams, w) =
      inr ((at_stage SG_Ready r streams, w), Err (Fail (WE_LimitExceeded WL_Streams)))) as <-; [|apply leads_step].
    unfold serve_turn, wise_advance.
    rewrite (M_bind_step get _ _ _ _ eq_refl), (M_bind_step (set_stage SG_Ready) _ _ _ tt eq_refl). cbn [fst].
    change (serve_after (advance_walk walk (at_stage SG_Ready r streams, w)) =
      inr ((at_stage SG_Ready r streams, w), Err (Fail (WE_LimitExceeded WL_Streams)))).
    unfold advance_walk. rewrite (M_bind_step get _ _ _ _ eq_refl). cbn [fst]. cbv zeta.
    unfold at_end in He. change MINIMUM_STREAM_BYTES with MIN_STREAM_BYTES.
    cbn [walk walk_at wk_overlay wk_cursor wk_index]. rewrite He.
    change (wb_limits (at_stage SG_Ready r streams)) with limits. by rewrite Hi.
Qed.

(** The walk takes the streams the rules take, in the same order, or stops for
    the same reason. *)
Lemma walk_leads cursor index total l o r w streams :
  walks attempt limits (overlay_end overlay) cursor index total l o →
  sr_limits r = limits → movable source capacity w →
  ∃ x, leads serve_turn (at_stage (SG_Walk (walk_at cursor index total 0 None)) r streams, w) x ∧
    match o with
    | Some e => stopped_at e x
    | None => ∃ r1 w1, sr_limits r1 = limits ∧ movable source capacity w1 ∧
        x = inl (at_stage script_at r1 (streams ++ l), w1)
    end.
Proof.
  intros Hwalks. revert r w streams.
  induction Hwalks as [c i t He|c i t He Hm|c i t e He Hi Hc|c i t m k He Hi Hc Ht|
    c i t m k rest o He Hi Hc Ht _ IH]; intros r w streams Hl Hw.
  - pose proof (guards_leads c i t r w streams) as Hlead. rewrite He in Hlead.
    eexists. split; [exact Hlead|]. exists r, w. by rewrite app_nil_r.
  - pose proof (guards_leads c i t r w streams) as Hlead. rewrite He, (proj2 (N.leb_le _ _) Hm) in Hlead.
    eexists. split; [exact Hlead|]. by eexists.
  - destruct (chosen_leads c i t r w streams He Hi Hl Hw) as (x & Hlead & Hx). rewrite Hc in Hx. by exists x.
  - destruct (chosen_leads c i t r w streams He Hi Hl Hw) as (x & Hlead & Hx). rewrite Hc in Hx.
    unfold concluded in Hx. rewrite (proj2 (N.ltb_lt _ _) Ht) in Hx. by exists x.
  - destruct (chosen_leads c i t r w streams He Hi Hl Hw) as (x & Hlead & Hx). rewrite Hc in Hx.
    unfold concluded in Hx. rewrite (proj2 (N.ltb_ge _ _) Ht) in Hx. destruct Hx as (r1 & w1 & Hl1 & Hw1 & ->).
    destruct (IH r1 w1 (streams ++ [record i m k]) Hl1 Hw1) as (y & Hlead' & Hy).
    exists y. split; [by eapply leads_trans|]. destruct o as [e|]; [done|].
    destruct Hy as (r2 & w2 & ? & ? & ->). exists r2, w2. by rewrite <-app_assoc.
Qed.
End walk.
