(* ===== verification/BackendScript.v ===== *)
(** * The script over the window

    The last stage of [BackendWise.v] gathers the bytes of the script stream
    over as many calls as the window takes; they are those the blocking reader
    gets in one. *)

From stdpp Require Import gmap sets.
From S2P Require Export BackendWalk WiseMemory.

Section script.
Context {I : Type} `{InflaterLaws I} (source : list byte) (limits : WiseLimits) (capacity : N).
#[local] Hint Extern 0 (ImageSource unit) => exact (source_slice source) : typeclass_instances.
#[local] Hint Extern 0 (WiseCancellation unit) => exact slice_cancel : typeclass_instances.
#[local] Instance gather_sink : Sink (list byte) := vec_sink.
Context (Hsource : len source < 2 ^ 64) (Hlimits : limits_fit limits).
Context (Hchunk : wise_chunk_bytes limits ≤ capacity) (Hcapacity : 4 ≤ capacity).

#[local] Instance script_serves : Serves unit source (2 ^ 64) (λ _, True) (λ _, True) False.
Proof. by apply image_slice_serves. Qed.

Lemma chunk_pos : 0 < wise_chunk_bytes limits.
Proof. unfold wise_chunk_bytes. destruct (N.eqb_spec (wl_max_chunk_bytes limits) 0); lia. Qed.

Abbreviation at_reader := (reader_at source (2 ^ 64) (λ _, True)).

(** ** In memory *)

(** The loop of the blocking reader, from a reader that has handed out [acc]. *)
Definition gathered (r : StreamReader I) (acc : list byte) : (unit * list byte) * result (Stop WiseError) (StreamReader I) :=
  loop_W (inflate_stream_turn limits) r (tt, acc).

Lemma gather_turn r acc :
  inflate_stream_turn (I := I) limits r (tt, acc) =
  match stream_read (wise_chunk_bytes limits) (r, tt) with
  | ((r', _), Ok l) => ((tt, acc ++ l), Ok (if sr_finished r' || (len l =? 0) then inr r' else inl r'))
  | (_, Err e) => ((tt, acc), Err e)
  end.
Proof.
  unfold inflate_stream_turn, mbind, M_bind, zoom, own. cbn [fst snd].
  destruct (stream_read _ (r, tt)) as [[r' []] [l|e]]; cbn [fst snd]; [|done].
  destruct (N.ltb_spec 0 (len l)) as [|Hl]; cbn; [done|].
  assert (l = []) as -> by (apply len_0_nil; lia). by rewrite app_nil_r.
Qed.

Lemma finished_read r : sr_finished r = true → stream_read (I := I) (wise_chunk_bytes limits) (r, tt) = ((r, tt), Ok []).
Proof.
  intros Hf. unfold stream_read. rewrite (M_bind_step get _ (r, tt) (r, tt) (r, tt)) by done. cbn [fst].
  by rewrite Hf.
Qed.

Lemma gather_unfold start r acc :
  at_reader start limits acc r →
  gathered r acc =
  if sr_finished r then ((tt, acc), Ok r)
  else match stream_read (wise_chunk_bytes limits) (r, tt) with
       | ((r', _), Ok l) => gathered r' (acc ++ l)
       | (_, Err e) => ((tt, acc), Err e)
       end.
Proof.
  intros Hr.
  assert (Hunf : ∀ r acc, at_reader start limits acc r → gathered r acc =
    match inflate_stream_turn limits r (tt, acc) with
    | ((_, acc'), Ok (inl r')) => gathered r' acc'
    | (s, Ok (inr b)) => (s, Ok b)
    | (s, Err e) => (s, Err e)
    end).
  { intros r1 acc1 H1. unfold gathered.
    rewrite (loop_W_unfold _ (λ r (s : unit * list byte), at_reader start limits s.2 r) (λ r _, drive_left limits r)) at 1; [|done|..].
    - destruct (inflate_stream_turn limits r1 (tt, acc1)) as [[[] acc2] [[r2|b]|e]]; done.
    - intros r2 s2 H2. eapply drive_left_fuel; try done. by eexists.
    - intros r2 [[] acc2] H2. rewrite gather_turn. destruct (sr_finished r2) eqn:Hf2.
      + rewrite finished_read by done. by rewrite Hf2.
      + pose proof (stream_read_wp source (2 ^ 64) (λ _, True) (λ _, True) False start limits acc2 r2 tt
          (wise_chunk_bytes limits) H2 Logic.I chunk_pos) as Hwp. unfold wp in Hwp.
        destruct (stream_read _ (r2, tt)) as [[r3 []] [l|e]]; [|done].
        destruct Hwp as (_ & H3 & _ & _ & Hor). destruct (sr_finished r3) eqn:Hf3; cbn [orb]; [done|].
        destruct Hor as [Hne|]; [|done]. assert (len l ≠ 0) by by rewrite len_0_nil.
        rewrite (proj2 (N.eqb_neq _ 0)) by done. split; [done|]. unfold drive_left. rewrite Hf2, Hf3.
        pose proof (ra_inflated _ _ _ _ _ _ _ H2) as [E1 _]. pose proof (ra_inflated _ _ _ _ _ _ _ H3) as [E2 E3].
        rewrite len_app in *. cbn [snd] in *. lia. }
  rewrite Hunf, gather_turn by done. destruct (sr_finished r) eqn:Hf.
  { rewrite finished_read by done. rewrite Hf. cbn [orb]. by rewrite app_nil_r. }
  pose proof (stream_read_wp source (2 ^ 64) (λ _, True) (λ _, True) False start limits acc r tt
    (wise_chunk_bytes limits) Hr Logic.I chunk_pos) as Hwp. unfold wp in Hwp.
  destruct (stream_read _ (r, tt)) as [[r' []] [l|e]]; [|done].
  destruct Hwp as (_ & Hr' & _ & _ & Hor). destruct (sr_finished r') eqn:Hf'; cbn [orb].
  - rewrite Hunf, gather_turn, finished_read by done. rewrite Hf'. cbn [orb]. by rewrite app_nil_r.
  - destruct Hor as [Hne|]; [|done]. assert (len l ≠ 0) by by rewrite len_0_nil.
    by rewrite (proj2 (N.eqb_neq _ 0)).
Qed.

(** What is gathered is put behind what there was, up to the end of the stream. *)
Lemma gathered_extends start r acc s' r' :
  at_reader start limits acc r → gathered r acc = (s', Ok r') →
  (∃ tail, s'.2 = acc ++ tail) ∧ at_reader start limits s'.2 r' ∧ sr_finished r' = true.
Proof.
  remember (N.to_nat (drive_left limits r)) as n eqn:En. revert r acc En.
  induction n as [n IH] using lt_wf_ind; intros r acc En Hr. subst n. rewrite (gather_unfold start) by done.
  destruct (sr_finished r) eqn:Hf; [intros [= <- <-]; split; [exists []; by rewrite app_nil_r|done]|].
  pose proof (read_driving source limits capacity Hsource Hchunk Hcapacity start r ltac:(by eexists) Hf) as Hd.
  pose proof (stream_read_wp source (2 ^ 64) (λ _, True) (λ _, True) False start limits acc r tt
    (wise_chunk_bytes limits) Hr Logic.I chunk_pos) as Hwp. unfold wp in Hwp.
  destruct (stream_read _ (r, tt)) as [[r1 []] [l|e]]; [|done].
  destruct Hwp as (_ & Hr1 & _). destruct Hd as (_ & Hlt & _). intros E.
  destruct (IH (N.to_nat (drive_left limits r1)) ltac:(lia) r1 (acc ++ l) eq_refl Hr1 E) as ([tail Et] & Hr' & Hf').
  split; [|done]. exists (l ++ tail). by rewrite Et, app_assoc.
Qed.

Lemma new_at_reader offset : at_reader offset limits [] (reader_new offset limits : StreamReader I).
Proof. apply (reader_new_at source (2 ^ 64) (λ _, True)); [done|by apply chunk_fits|done]. Qed.

(** A stream that can be measured can be gathered. *)
Lemma gathered_of_attempt offset m :
  fits 64 offset → attempted (I := I) tt limits offset = Ok m →
  ∃ bytes r, gathered (reader_new offset limits) [] = ((tt, bytes), Ok r) ∧
    inflate_bytes (I := I) offset limits tt = (tt, Ok bytes) ∧ (stream_finish (r, tt)).2 = Ok m.
Proof.
  intros Hoff Ha.
  assert (∃ s r, loop_W (inflate_stream_turn (I := I) (H2 := drop_sink) limits) (reader_new offset limits) (tt, tt) = (s, Ok r) ∧
    (stream_finish (r, tt)).2 = Ok m) as (s0 & r0 & El & Efin).
  { unfold attempted, measure_stream, zoom, inflate_stream in Ha. unfold fits in Hoff.
    rewrite (proj2 (N.leb_gt _ _)) in Ha by done. unfold mbind at 1, M_bind at 1 in Ha.
    change discard_sink with drop_sink in Ha. cbn [fst snd] in Ha.
    destruct (loop_W (inflate_stream_turn limits) (reader_new offset limits) (tt, tt)) as [[[] []] [r0|e]];
      [|by destruct e]. eexists _, r0. split; [done|]. revert Ha. unfold mbind, M_bind, zoom, own. cbn [fst snd].
    destruct (stream_finish (r0, tt)) as [[r2 []] [m'|e]]; cbn [fst snd]; [by intros [= ->]|by destruct e]. }
  assert (∃ t b, gathered (reader_new offset limits) [] = (t, Ok b) ∧ b = r0) as ([[] bytes] & r1 & Eg & ->).
  { unfold gathered. revert El.
    apply (loop_W_follows _ _ (λ (r : StreamReader I) (_ : unit * unit) r' (s : unit * list byte), r' = r)
      (λ _ b _ b', b' = b)); [done|].
    intros r [[] []] ? [[] acc] ->. rewrite (inflate_stream_turn_run source), gather_turn.
    destruct (stream_read _ (r, tt)) as [[r' []] [l|e]]; [|done].
    destruct (sr_finished r' || (len l =? 0)); eauto. }
  exists bytes, r0. split; [exact Eg|]. split; [|exact Efin].
  unfold inflate_bytes, inflate_stream, mbind, M_bind. change vec_sink with gather_sink.
  unfold gathered in Eg. rewrite Eg. unfold zoom, own. cbn [fst snd]. change tt with tt in Efin.
  destruct (stream_finish (r0, tt)) as [[r2 []] res]. cbn [snd] in Efin. by subst.
Qed.

(** What is gathered to the end is measured. *)
Lemma gathered_measured offset bytes r m :
  fits 64 offset → gathered (reader_new offset limits) [] = ((tt, bytes), Ok r) → (stream_finish (r, tt)).2 = Ok m →
  measured (I := I) source offset limits bytes m.
Proof.
  intros Hoff Eg Em.
  destruct (gathered_extends offset _ _ _ _ (new_at_reader offset) Eg) as (_ & Hr & Hf). cbn [snd] in Hr.
  pose proof (stream_finish_wp source (2 ^ 64) (λ _, True) (λ _, True) False offset limits bytes r tt
    Hr Hf Logic.I Hoff ltac:(by vm_compute)) as Hfin. unfold wp in Hfin.
  destruct (stream_finish (r, tt)) as [[r2 []] res]. cbn [snd] in Em. subst res. apply Hfin.
Qed.

(** ** Over the window *)

Context (overlay : Overlay) (streams : list StreamRecord) (start : N).

Abbreviation at_stage := (at_stage limits).
Abbreviation machine := ((WiseBackend I * WindowSource) +
  (WiseBackend I * WindowSource) * result (Stop WiseError) unit)%type.
Abbreviation leads := (leads (serve_turn source)).

Definition script_state (acc : list byte) : Script :=
  {| sc_overlay := overlay; sc_started := true; sc_bytes := acc |}.

Definition script_ceiling : N := N.min (wl_max_inflated_bytes_per_stream limits) (wl_max_script_bytes limits).

Definition script_error (e : WiseError) : WiseError :=
  match e with WE_LimitExceeded WL_InflatedBytesPerStream => WE_LimitExceeded WL_ScriptBytes | e => e end.

(** The loop of [advance_script]. *)
Definition script_run (acc : list byte) (r : StreamReader I) (w : WindowSource)
  : (WiseBackend I * WindowSource) * result (Stop WiseError) Advance :=
  loop_W (script_turn script_ceiling) (script_state acc) (at_stage SG_Ready r streams, w).

(** A turn of it, once the reader has answered. *)
Definition after_read (acc : list byte) (r : StreamReader I) (w : WindowSource)
    (res : result (Stop WiseError) (list byte))
  : (WiseBackend I * WindowSource) * result (Stop WiseError) (Script + Advance) :=
  match res with
  | Ok l =>
      if (len l =? 0) && negb (sr_finished r) then ((at_stage SG_Ready r streams, w), Err (Fail WE_Truncated))
      else if script_ceiling <? len acc + len l
      then ((at_stage SG_Ready r streams, w), Err (Fail (WE_LimitExceeded WL_ScriptBytes)))
      else ((at_stage SG_Ready r streams, w), Ok (inl (script_state (acc ++ l))))
  | Err (Fail WE_SourceFailed) => ((at_stage (SG_Script (script_state acc)) r streams, w), Ok (inr AD_NeedRead))
  | Err (Fail e) => ((at_stage SG_Ready r streams, w), Err (Fail (script_error e)))
  | Err e => ((at_stage SG_Ready r streams, w), Err e)
  end.

Lemma script_turn_run acc r w :
  script_turn script_ceiling (script_state acc) (at_stage SG_Ready r streams, w) =
  if sr_finished r then ((finish_mapping overlay acc (at_stage SG_Ready r streams), w), Ok (inr AD_Ready))
  else let '((r', w'), res) := stream_read (wise_chunk_bytes limits) (r, w) in after_read acc r' w' res.
Proof.
  unfold script_turn. rewrite (M_bind_step get _ _ _ _ eq_refl).
  change (sr_finished (wb_reader (at_stage SG_Ready r streams, w).1)) with (sr_finished r).
  destruct (sr_finished r); [done|].
  change (wb_limits (at_stage SG_Ready r streams, w).1) with limits.
  unfold mbind at 1, M_bind at 1, returned, with_reader, zoom. cbn [fst snd BackendWalk.at_stage wb_reader].
  destruct (stream_read (wise_chunk_bytes limits) (r, w)) as [[r' w'] [l|e]]; cbn [fst snd].
  - change (put_reader r' (at_stage SG_Ready r streams)) with (at_stage SG_Ready r' streams).
    rewrite (M_bind_step get _ _ _ _ eq_refl). cbn [fst]. unfold after_read.
    change (wb_reader (at_stage SG_Ready r' streams)) with r'.
    destruct (_ && negb _); [by apply M_bind_fail|]. rewrite (M_bind_step (reject false _) _ _ _ tt eq_refl).
    change (len (sc_bytes (script_state acc))) with (len acc).
    destruct (script_ceiling <? len acc + len l); [by apply M_bind_fail|].
    by rewrite (M_bind_step (reject false _) _ _ _ tt eq_refl).
  - destruct e as [e| |]; [|done..]. destruct e; try done. destruct limit; done.
Qed.

(** Where a call gets to. *)
Definition goes_to (out : (WiseBackend I * WindowSource) * result (Stop WiseError) Advance) (x : machine) : Prop :=
  match serve_after source out with inl s => leads s x | inr r => x = inr r end.

Lemma goes_leads s out x : wise_advance s = out → goes_to out x → leads s x.
Proof.
  intros <- Hg. unfold goes_to in Hg. change (serve_after source (wise_advance s)) with (serve_turn source s) in Hg.
  pose proof (leads_step (serve_turn source) s) as Hs. destruct (serve_turn source s) as [s'|r].
  - by eapply leads_trans.
  - by subst x.
Qed.

Lemma script_advance acc r w record :
  streams !! 1%nat = Some record →
  wise_advance (at_stage (SG_Script (script_state acc)) r streams, w) = script_run acc r w.
Proof.
  intros Hs. unfold wise_advance.
  rewrite (M_bind_step get _ _ _ _ eq_refl), (M_bind_step (set_stage SG_Ready) _ _ _ tt eq_refl). cbn [fst].
  change (advance_script (script_state acc) (at_stage SG_Ready r streams, w) = script_run acc r w).
  unfold advance_script. rewrite (M_bind_step get _ _ _ _ eq_refl).
  change (wb_streams (at_stage SG_Ready r streams, w).1) with streams. rewrite Hs.
  by rewrite (M_bind_step _ _ _ (at_stage SG_Ready r streams, w) tt) by done.
Qed.

Abbreviation movable := (movable source capacity).

(** The window's reader is read as the memory's. *)
Lemma window_read_mimics r w :
  reading_at source limits start r → movable w →
  mimics source capacity (stream_read (I := I) (wise_chunk_bytes limits)) (stream_read (wise_chunk_bytes limits))
    (reading_at source limits start) r w.
Proof. intros. by eapply stream_read_mimics. Qed.

Lemma reading_refuses r :
  reading_at source limits start r →
  (stream_read (I := I) (wise_chunk_bytes limits) (r, tt)).2 ≠ Err (Fail WE_SourceFailed).
Proof.
  intros [Hf [out Hr]].
  pose proof (stream_read_wp source (2 ^ 64) (λ _, True) (λ _, True) False start limits out r tt
    (wise_chunk_bytes limits) Hr Logic.I chunk_pos) as Hwp. unfold wp in Hwp.
  destruct (stream_read _ (r, tt)) as [[r1 []] [l|e]]; [done|].
  destruct Hwp as [_ [(error & -> & Hne)|(_ & [] & _)]]. cbn. congruence.
Qed.

Lemma script_unfold acc r w :
  driving_at source limits start r → movable w →
  script_run acc r w =
  match script_turn script_ceiling (script_state acc) (at_stage SG_Ready r streams, w) with
  | (s, Ok (inl script)) => loop_W (script_turn script_ceiling) script s
  | (s, Ok (inr b)) => (s, Ok b)
  | (s, Err e) => (s, Err e)
  end.
Proof.
  intros Hr Hw. unfold script_run.
  apply (loop_W_unfold _ (λ script s, ∃ acc r w, script = script_state acc ∧ s = (at_stage SG_Ready r streams, w) ∧
    driving_at source limits start r ∧ movable w) (λ _ s, drive_left limits (wb_reader s.1))).
  - by exists acc, r, w.
  - intros _ _ (acc1 & r1 & w1 & -> & -> & H1 & _). by eapply (drive_left_fuel source).
  - intros _ _ (acc1 & r1 & w1 & -> & -> & H1 & Hw1). rewrite script_turn_run.
    destruct (sr_finished r1) eqn:Hf1; [done|].
    pose proof (read_driving source limits capacity Hsource Hchunk Hcapacity start r1 H1 Hf1) as Hd.
    destruct (window_read_mimics r1 w1 (conj Hf1 H1) Hw1) as [(r2 & res & E & Em & _)|(r2 & o & E & _)]; rewrite E; [|done].
    rewrite Em in Hd. destruct res as [l|e]; cbn [after_read].
    + destruct (_ && negb _); [done|]. destruct (script_ceiling <? _); [done|].
      split; [|apply Hd]. exists (acc1 ++ l), r2, w1. split; [done|]. split; [done|]. split; [apply Hd|done].
    + destruct e as [e| |]; [|done..]. by destruct e.
Qed.

(** The rest of a call, once the reader has answered. *)
Definition resume (acc : list byte) (r : StreamReader I) (w : WindowSource)
    (res : result (Stop WiseError) (list byte)) : (WiseBackend I * WindowSource) * result (Stop WiseError) Advance :=
  match after_read acc r w res with
  | (s, Ok (inl script)) => loop_W (script_turn script_ceiling) script s
  | (s, Ok (inr b)) => (s, Ok b)
  | (s, Err e) => (s, Err e)
  end.

(** A read of the script, over the calls the window takes for it. *)
Lemma read_retried record acc r w r1 w1 res x :
  streams !! 1%nat = Some record → reading_at source limits start r → movable w →
  retried source capacity (stream_read (wise_chunk_bytes limits)) (reading_at source limits start) r w r1 w1 res →
  goes_to (resume acc r1 w1 res) x → goes_to (script_run acc r w) x.
Proof.
  intros Hs Hr Hw Hre. induction Hre as [r w r1 res E Hne|r w r' wm w' r1 w1 res E Es Hr' Hw' Hre IH]; intros Hx.
  - rewrite script_unfold, script_turn_run by (done || apply Hr). rewrite (proj1 Hr), E. exact Hx.
  - rewrite script_unfold, script_turn_run by (done || apply Hr). rewrite (proj1 Hr), E.
    unfold goes_to. cbn [after_read serve_after]. rewrite Es.
    eapply goes_leads; [by eapply script_advance|]. by apply IH.
Qed.

(** How the stage ends, given what the blocking reader gathers. *)
Definition script_ends (out : (unit * list byte) * result (Stop WiseError) (StreamReader I)) (x : machine) : Prop :=
  match out with
  | ((_, bytes), Ok _) =>
      if script_ceiling <? len bytes then stopped_at (WE_LimitExceeded WL_ScriptBytes) x
      else ∃ r w, movable w ∧ x = inr ((finish_mapping overlay bytes (at_stage SG_Ready r streams), w), Ok tt)
  | (_, Err _) => ∃ e, e ≠ WE_SourceFailed ∧ stopped_at e x
  end.

Lemma script_gathers record acc r w :
  streams !! 1%nat = Some record → at_reader start limits acc r → len acc ≤ script_ceiling → movable w →
  ∃ x, goes_to (script_run acc r w) x ∧ script_ends (gathered r acc) x.
Proof.
  intros Hs. remember (N.to_nat (drive_left limits r)) as n eqn:En. revert acc r w En.
  induction n as [n IH] using lt_wf_ind; intros acc r w En Hr Hacc Hw. subst n.
  assert (driving_at source limits start r) as Hd by (by eexists).
  destruct (sr_finished r) eqn:Hf.
  { eexists. split.
    - rewrite script_unfold, script_turn_run by done. rewrite Hf. reflexivity.
    - rewrite (gather_unfold start) by done. rewrite Hf. cbn [script_ends].
      rewrite (proj2 (N.ltb_ge _ _)) by done. eexists _, w. by split. }
  destruct (mimics_retried source limits capacity Hsource Hchunk Hcapacity (stream_read (I := I) (wise_chunk_bytes limits))
    (reading_at source limits start) (stream_read (wise_chunk_bytes limits)) window_read_mimics reading_refuses r w)
    as (r1 & w1 & res & Em & Hre & Hw1); [done|done|].
  enough (∃ x, goes_to (resume acc r1 w1 res) x ∧ script_ends (gathered r acc) x) as (x & Hx & He).
  { exists x. split; [|done]. by eapply read_retried. }
  rewrite (gather_unfold start), Hf by done.
  pose proof (stream_read_wp source (2 ^ 64) (λ _, True) (λ _, True) False start limits acc r tt
    (wise_chunk_bytes limits) Hr Logic.I chunk_pos) as Hwp. unfold wp in Hwp.
  pose proof (read_driving source limits capacity Hsource Hchunk Hcapacity start r Hd Hf) as Hrd.
  rewrite Em in *. destruct res as [l|e].
  - destruct Hwp as (_ & Hr1 & _ & _ & _). destruct Hrd as (Hd1 & Hlt & Hor). unfold resume, after_read.
    assert ((len l =? 0) && negb (sr_finished r1) = false) as ->.
    { destruct Hor as [->|Hne]; [by rewrite andb_false_r|]. by rewrite (proj2 (N.eqb_neq _ 0)). }
    destruct (N.ltb_spec script_ceiling (len acc + len l)) as [Hover|Hfit].
    + eexists. split; [reflexivity|]. unfold script_ends.
      destruct (gathered r1 (acc ++ l)) as [[[] bytes] [r2|e]] eqn:Eg.
      * destruct (gathered_extends start r1 (acc ++ l) _ _ Hr1 Eg) as [[tail Et] _]. cbn in Et. subst bytes.
        rewrite (proj2 (N.ltb_lt _ _)); [by eexists|]. rewrite !len_app. lia.
      * exists (WE_LimitExceeded WL_ScriptBytes). split; [done|]. by eexists.
    + apply (IH (N.to_nat (drive_left limits r1))); [lia|done|done|by rewrite len_app|done].
  - destruct Hwp as [_ [(error & -> & Hne)|(_ & [] & _)]].
    assert (resume acc r1 w1 (Err (Fail error)) = ((at_stage SG_Ready r1 streams, w1), Err (Fail (script_error error)))) as ->.
    { unfold resume, after_read. by destruct error. }
    eexists. split; [reflexivity|]. cbn [script_ends]. exists (script_error error). split; [|by eexists].
    unfold script_error. destruct error; try done; by destruct limit.
Qed.
End script.
