(* ===== verification/BackendReady.v ===== *)
(** * The Wise back end, from the first read to its entries

    What the back end of [BackendWise.v] ends in when its reads are answered
    from a source, and that it is what [read_package] of [WisePackage.v] makes
    of the source in memory. *)

From stdpp Require Import gmap sets.
From S2P Require Export BackendScript BackendAlike.

Section ready.
Context {I : Type} `{InflaterLaws I} (source : list byte) (limits : WiseLimits) (capacity : N).
#[local] Hint Extern 0 (ImageSource unit) => exact (source_slice source) : typeclass_instances.
#[local] Hint Extern 0 (WiseCancellation unit) => exact slice_cancel : typeclass_instances.
Context (Hsource : 0 < len source < 2 ^ 63) (Hsane : limits_sane limits).
Context (Hchunk : wise_chunk_bytes limits ≤ capacity) (Hcapacity : 64 ≤ capacity < 2 ^ 32).

Abbreviation at_stage := (at_stage limits).
Abbreviation leads := (leads (serve_turn source)).
Abbreviation movable := (movable source capacity).
Abbreviation parked := (parked source capacity).

(** ** Stages over a pinned window *)

Lemma ensure_parked w o :
  movable w → parked o w → o < len source → window_ensure o w = (w, Ok true).
Proof.
  intros _ [Hb Hf] Hlt. unfold window_ensure, ensure_at. rewrite Hb, N.eqb_refl.
  by rewrite (proj2 (N.ltb_lt 0 _)) by lia.
Qed.

Lemma ensure_cases w o :
  movable w → o < len source →
  parked o w ∨ window_ensure o w = (miss o w, Ok false).
Proof.
  intros [Hw Hp Hc Hfull] Hlt. unfold window_ensure, ensure_at.
  destruct (N.ltb_spec 0 (ws_filled w)) as [Hpos|]; cbn [andb].
  - destruct (N.eqb_spec (ws_base w) o) as [Hb|].
    + left. split; [done|]. destruct Hfull as [|Hf]; [lia|]. by rewrite <-Hb.
    + right. by rewrite (wo_size _ _ Hw), (proj2 (N.leb_gt _ _)).
  - right. by rewrite (wo_size _ _ Hw), (proj2 (N.leb_gt _ _)).
Qed.

(** A stage that waits for the window gets it. *)
Lemma park_leads stage (r : StreamReader I) streams w o :
  movable w → o < len source →
  (∀ w, window_ensure o w = (miss o w, Ok false) →
     wise_advance (at_stage stage r streams, w) = ((at_stage stage r streams, miss o w), Ok AD_NeedRead)) →
  ∃ w', movable w' ∧ parked o w' ∧ leads (at_stage stage r streams, w) (inl (at_stage stage r streams, w')).
Proof.
  intros Hw Ho Hmiss. destruct (ensure_cases w o Hw Ho) as [Hpk|E].
  - exists w. split; [done|]. split; [done|]. apply leads_refl.
  - destruct (miss_served source capacity w o Hw Ho) as (w' & Es & Hw' & Hpk).
    exists w'. split; [done|]. split; [done|].
    assert (serve_turn source (at_stage stage r streams, w) = inl (at_stage stage r streams, w')) as <-;
      [|apply leads_step].
    unfold serve_turn. rewrite Hmiss by done. unfold serve_after. by rewrite Es.
Qed.

Lemma pinned_run {A} (m : W WindowSource A) w res :
  movable w → m (pin w) = (pin w, res) → (∃ e, res = Err (Fail e)) ∨ (∃ a, res = Ok a) →
  pinned m w = (w, res).
Proof.
  intros Hw E Hres. assert (unpin (pin w) = w) as Eu.
  { destruct Hw as [_ Hp _ _]. destruct w. cbn in *. by subst. }
  unfold pinned, mbind, M_bind, returned, modify, lift. rewrite E.
  destruct Hres as [[e ->]|[a ->]]; cbn; by rewrite Eu.
Qed.

(** What a window at [o] shows of the source. *)
Definition view_at (o : N) : list byte := take (N.to_nat (o + capacity)) source.

Lemma len_view o : len (view_at o) = N.min (o + capacity) (len source).
Proof. unfold view_at, len. rewrite length_take. lia. Qed.

Lemma pinned_read w o offset wanted :
  movable w → parked o w → o ≤ offset → offset ≤ len (view_at o) →
  window_read offset wanted (pin w) = (pin w, Ok (subslice offset wanted (view_at o))).
Proof.
  intros [Hw Hp Hc _] [Hb Hf] Ho Hlen. rewrite len_view in Hlen.
  destruct (N.eqb_spec wanted 0) as [->|Hwant].
  { unfold window_read. cbn [N.eqb]. by rewrite subslice_0. }
  assert (window_of source (pin w)) as Hpw by (destruct Hw; by split).
  rewrite (window_read_pinned source); [|done|done|by cbn; rewrite Hb| |lia].
  2:{ change (ws_filled w = N.min (window_capacity w) (len source - ws_base w)). by rewrite Hb, Hc. }
  change (window_capacity (pin w)) with (window_capacity w). change (ws_base (pin w)) with (ws_base w).
  rewrite Hc, Hb, (proj2 (N.ltb_ge capacity (offset - o))), andb_false_r by lia.
  assert (view_at o = take (N.to_nat (o + N.min capacity (len source - o))) source) as ->.
  { unfold view_at. destruct (N.le_gt_cases capacity (len source - o)); [by rewrite N.min_l|].
    unfold len in *. rewrite !take_ge by lia. done. }
  do 2 f_equal. change (buffered (pin w)) with (buffered w). rewrite (wo_bytes _ _ Hw), Hb, Hf.
  unfold subslice. rewrite !skipn_firstn_comm, !take_take, drop_drop. f_equal; [|f_equal]; lia.
Qed.

(** ** The overlay *)

Lemma overlay_advance (r : StreamReader I) w :
  wise_advance (at_stage SG_Overlay r [], w) = advance_overlay (at_stage SG_Ready r [], w).
Proof.
  unfold wise_advance.
  by rewrite (M_bind_step get _ _ _ _ eq_refl), (M_bind_step (set_stage SG_Ready) _ _ _ tt eq_refl).
Qed.

Lemma overlay_leads (r : StreamReader I) w :
  movable w → pe_table_end source ≤ capacity →
  ∃ x, leads (at_stage SG_Overlay r [], w) x ∧
    match (find_overlay limits tt).2 with
    | Ok overlay => ∃ w1, movable w1 ∧ x = inl (at_stage (SG_Header overlay) r [], w1)
    | Err (Fail e) => e ≠ WE_SourceFailed ∧ stopped_at e x
    | Err _ => False
    end.
Proof.
  intros Hw Htable.
  destruct (park_leads SG_Overlay r [] w 0) as (w1 & Hw1 & Hpk & Hlead); [done|lia|..].
  { intros w2 E. rewrite overlay_advance. unfold advance_overlay.
    rewrite (M_bind_step (on_window _) _ _ (at_stage SG_Ready r [], miss 0 w2) false); [done|].
    unfold on_window, zoom. cbn [fst snd]. by rewrite E. }
  destruct (find_overlay_alike (pin w1) tt source (len source) capacity) with (limits := limits) as (res & E1 & E2);
    [done|lia| |done| |done|lia|].
  { change (image_len (pin w1)) with (pin w1, Ok (ws_source_size w1) : result (Stop WiseError) N).
    by rewrite (wo_size _ _ (mv_window _ _ _ Hw1)). }
  { intros offset wanted Hpos Hin. exists (subslice offset wanted source). split; [|done].
    change (image_read_at offset wanted (pin w1)) with (window_read offset wanted (pin w1)).
    destruct (N.le_gt_cases offset (len source)) as [Hle|Hgt].
    - rewrite (pinned_read w1 0) by (rewrite ?len_view; done || lia). do 2 f_equal. unfold view_at.
      by rewrite subslice_take by lia.
    - unfold window_read. change (ws_source_size (pin w1)) with (ws_source_size w1).
      rewrite (wo_size _ _ (mv_window _ _ _ Hw1)), (proj2 (N.eqb_neq wanted 0)) by lia.
      replace (len source - offset) with 0 by lia. cbn [N.eqb]. by rewrite subslice_past by lia. }
  pose proof (find_overlay_refusing source limits tt) as Hr. unfold wp in Hr.
  unfold sliced_source in Hr. change (image_slice source) with (source_slice source) in Hr.
  rewrite E2 in Hr |- *. cbn [snd].
  assert (Hstep : serve_turn source (at_stage SG_Overlay r [], w1) =
    serve_after source match res with
      | Ok overlay => ((at_stage (SG_Header overlay) r [], w1), Ok AD_Working)
      | Err e => ((at_stage SG_Ready r [], w1), Err e)
      end).
  { unfold serve_turn. rewrite overlay_advance. unfold advance_overlay.
    rewrite (M_bind_step (on_window _) _ _ (at_stage SG_Ready r [], w1) true).
    2:{ unfold on_window, zoom. cbn [fst snd]. by rewrite ensure_parked by (done || lia). }
    cbn [negb]. rewrite (M_bind_step get _ _ _ _ eq_refl). cbn [fst].
    change (wb_limits (at_stage SG_Ready r [])) with limits.
    assert (pinned (find_overlay limits) w1 = (w1, res)) as Ep.
    { apply pinned_run; [done|exact E1|]. destruct res as [ov|e]; [by right; eexists|left].
      destruct Hr as (error & -> & _). by eexists. }
    unfold mbind at 1, M_bind at 1, on_window, zoom. cbn [fst snd]. rewrite Ep. by destruct res. }
  exists (serve_turn source (at_stage SG_Overlay r [], w1)).
  split; [eapply leads_trans; [exact Hlead|apply leads_step]|]. rewrite Hstep. destruct res as [overlay|e].
  - by exists w1.
  - destruct Hr as (error & -> & Hne). split; [done|by eexists].
Qed.

(** ** The header *)

Lemma limits_fit_sane : limits_fit limits.
Proof. apply Hsane. Qed.

Lemma source_fits : len source < 2 ^ 64.
Proof. eapply N.lt_trans; [apply Hsource|by vm_compute]. Qed.

(** Locating the first stream in what the window shows. *)
Definition locate_in_view (overlay : Overlay) : result (Stop WiseError) PackageHeader :=
  (@locate_first_stream I _ unit (source_slice (view_at (ov_offset overlay))) slice_cancel overlay limits tt).2.

Lemma header_advance overlay (r : StreamReader I) w :
  wise_advance (at_stage (SG_Header overlay) r [], w) = advance_header overlay (at_stage SG_Ready r [], w).
Proof.
  unfold wise_advance.
  by rewrite (M_bind_step get _ _ _ _ eq_refl), (M_bind_step (set_stage SG_Ready) _ _ _ tt eq_refl).
Qed.

Lemma pinned_locate w overlay :
  movable w → parked (ov_offset overlay) w → ov_offset overlay < len source →
  N.min (ov_len overlay) (wl_max_header_scan_bytes limits) ≤ 2 ^ 64 →
  locate_first_stream (I := I) overlay limits (pin w) = (pin w, locate_in_view overlay) ∧
  match locate_in_view overlay with Ok _ => True | Err e => refused e end.
Proof.
  intros Hw Hpk Hlt Hmin. set (o := ov_offset overlay) in *.
  pose proof source_fits as Hfits. pose proof (len_view o) as Hlv.
  set (Reach := λ p, o ≤ p ∧ p ≤ len (view_at o)).
  assert (Serves WindowSource (view_at o) (2 ^ 64) Reach (λ s, s = pin w) False) as Hserves.
  { split; [|lia]. intros offset wanted s -> [Ho1 Ho2] _. exists (pin w). split; [done|]. left.
    by apply pinned_read. }
  pose proof (locate_first_stream_wp (I := I) (view_at o) Reach (pin w) overlay limits
    limits_fit_sane ltac:(fold o; lia) ltac:(done) Hmin) as Hwp. unfold wp in Hwp.
  destruct (locate_alike (I := I) (view_at o) Reach (pin w)) with (overlay := overlay) (limits := limits)
    as (res & E1 & E2); [lia| |apply limits_fit_sane|fold o; lia|done|done|].
  { intros offset wanted [Ho1 Ho2] _. exists (subslice offset wanted (view_at o)). split; [|done].
    by apply pinned_read. }
  assert (locate_in_view overlay = res) as -> by (unfold locate_in_view; fold o; by rewrite E2).
  split; [done|]. rewrite E1 in Hwp. destruct res; [done|]. apply Hwp.
Qed.

Lemma header_leads overlay (r : StreamReader I) w :
  movable w → ov_offset overlay < len source →
  N.min (ov_len overlay) (wl_max_header_scan_bytes limits) ≤ 2 ^ 64 →
  ∃ x, leads (at_stage (SG_Header overlay) r [], w) x ∧
    match locate_in_view overlay with
    | Ok h => ∃ w1, movable w1 ∧
        x = inl (at_stage (SG_Walk (walk_at overlay (ph_first_stream_offset h) 0 0 0 None)) r [], w1)
    | Err (Fail e) => e ≠ WE_SourceFailed ∧ stopped_at e x
    | Err _ => False
    end.
Proof.
  intros Hw Hlt Hmin.
  destruct (park_leads (SG_Header overlay) r [] w (ov_offset overlay)) as (w1 & Hw1 & Hpk & Hlead); [done|done|..].
  { intros w2 E. rewrite header_advance. unfold advance_header.
    rewrite (M_bind_step (on_window _) _ _ (at_stage SG_Ready r [], miss (ov_offset overlay) w2) false); [done|].
    unfold on_window, zoom. cbn [fst snd]. by rewrite E. }
  destruct (pinned_locate w1 overlay Hw1 Hpk Hlt Hmin) as [E Hres].
  set (res := locate_in_view overlay) in *.
  assert (Hstep : serve_turn source (at_stage (SG_Header overlay) r [], w1) =
    serve_after source match res with
      | Ok h => ((at_stage (SG_Walk (walk_at overlay (ph_first_stream_offset h) 0 0 0 None)) r [], w1), Ok AD_Working)
      | Err e => ((at_stage SG_Ready r [], w1), Err e)
      end).
  { unfold serve_turn. rewrite header_advance. unfold advance_header.
    rewrite (M_bind_step (on_window _) _ _ (at_stage SG_Ready r [], w1) true).
    2:{ unfold on_window, zoom. cbn [fst snd]. by rewrite ensure_parked. }
    cbn [negb]. rewrite (M_bind_step get _ _ _ _ eq_refl). cbn [fst].
    change (wb_limits (at_stage SG_Ready r [])) with limits.
    assert (pinned (locate_first_stream (I := I) overlay limits) w1 = (w1, res)) as Ep.
    { apply pinned_run; [done|exact E|]. destruct res as [h|e]; [by right; eexists|left].
      destruct Hres as (error & -> & _). by eexists. }
    unfold mbind at 1, M_bind at 1, on_window, zoom. cbn [fst snd]. rewrite Ep. by destruct res. }
  exists (serve_turn source (at_stage (SG_Header overlay) r [], w1)).
  split; [eapply leads_trans; [exact Hlead|apply leads_step]|]. rewrite Hstep. destruct res as [h|e].
  - by exists w1.
  - destruct Hres as (error & -> & Hne). split; [done|by eexists].
Qed.

(** ** The script *)

Definition attempt_at : N → result WiseError StreamMetrics := attempted (I := I) tt limits.

Definition script_bytes (script : StreamRecord) : result (Stop WiseError) (list byte) :=
  (inflate_bytes (I := I) (rec_offset script) limits tt).2.

(** How the last stage ends, given a walk's streams. *)
Definition script_outcome (overlay : Overlay) (streams : list StreamRecord) (b : WiseBackend I)
    (res : result (Stop WiseError) unit) : Prop :=
  match streams !! 1%nat with
  | None => res = Ok tt ∧ ∃ r, b = finish_mapping overlay [] (at_stage SG_Ready r streams)
  | Some script => ∃ bytes, script_bytes script = Ok bytes ∧
      if script_ceiling limits <? len bytes then res = Err (Fail (WE_LimitExceeded WL_ScriptBytes))
      else res = Ok tt ∧ ∃ r, b = finish_mapping overlay bytes (at_stage SG_Ready r streams)
  end.

Lemma script_start record overlay (r : StreamReader I) streams w :
  streams !! 1%nat = Some record → sr_limits r = limits →
  wise_advance (at_stage (script_at overlay) r streams, w) =
  script_run limits overlay streams [] (reader_new (rec_offset record) limits) w.
Proof.
  intros Hs Hl. unfold wise_advance.
  rewrite (M_bind_step get _ _ _ _ eq_refl), (M_bind_step (set_stage SG_Ready) _ _ _ tt eq_refl). cbn [fst].
  change (advance_script {| sc_overlay := overlay; sc_started := false; sc_bytes := [] |} (at_stage SG_Ready r streams, w) =
    script_run limits overlay streams [] (reader_new (rec_offset record) limits) w).
  unfold advance_script. rewrite (M_bind_step get _ _ _ _ eq_refl).
  change (wb_streams (at_stage SG_Ready r streams, w).1) with streams. rewrite Hs.
  assert (restart (rec_offset record) r = reader_new (rec_offset record) limits) as <- by (unfold restart, reader_new; rewrite inflate_reset_new; by rewrite Hl).
  by rewrite (M_bind_step _ _ _ (at_stage SG_Ready (restart (rec_offset record) r) streams, w) tt).
Qed.

Lemma script_leads overlay (r : StreamReader I) streams w :
  movable w → sr_limits r = limits →
  (∀ record, streams !! 1%nat = Some record → fits 64 (rec_offset record) ∧
     attempt_at (rec_offset record) = Ok (rec_metrics record)) →
  ∃ b w1 res, leads (at_stage (script_at overlay) r streams, w) (inr ((b, w1), res)) ∧
    script_outcome overlay streams b res ∧ match res with Ok _ => movable w1 | Err _ => True end.
Proof.
  intros Hw Hl Hrec. unfold script_outcome. destruct (streams !! 1%nat) as [record|] eqn:Es.
  - destruct (Hrec record eq_refl) as [Hoff Ha].
    destruct (gathered_of_attempt source limits capacity source_fits Hchunk ltac:(lia)
      (rec_offset record) _ Hoff Ha) as (bytes & r1 & Eg & Ei & _).
    destruct (script_gathers source limits capacity source_fits limits_fit_sane Hchunk ltac:(lia) overlay streams
      (rec_offset record) record [] (reader_new (rec_offset record) limits) w) as (x & Hx & He);
      [done|by apply new_at_reader, limits_fit_sane|apply N.le_0_l|done|].
    assert (leads (at_stage (script_at overlay) r streams, w) x) as Hlead
      by (eapply goes_leads; [by eapply script_start|exact Hx]).
    rewrite Eg in He. cbn [script_ends] in He. unfold script_bytes. rewrite Ei. cbn [snd].
    destruct (script_ceiling limits <? len bytes) eqn:Ec.
    + destruct He as [[b w1] ->]. exists b, w1, (Err (Fail (WE_LimitExceeded WL_ScriptBytes))).
      split; [done|]. split; [|done]. exists bytes. by rewrite Ec.
    + destruct He as (r2 & w2 & Hw2 & ->). eexists _, w2, (Ok tt). split; [done|]. split; [|done]. exists bytes. rewrite Ec.
      split; [done|]. split; [done|]. by exists r2.
  - exists (finish_mapping overlay [] (at_stage SG_Ready r streams)), w, (Ok tt). split.
    + assert (serve_turn source (at_stage (script_at overlay) r streams, w) =
        inr ((finish_mapping overlay [] (at_stage SG_Ready r streams), w), Ok tt)) as <-; [|apply leads_step].
      unfold serve_turn, wise_advance.
      rewrite (M_bind_step get _ _ _ _ eq_refl), (M_bind_step (set_stage SG_Ready) _ _ _ tt eq_refl). cbn [fst].
      change (serve_after source (advance_script {| sc_overlay := overlay; sc_started := false; sc_bytes := [] |}
        (at_stage SG_Ready r streams, w)) = inr ((finish_mapping overlay [] (at_stage SG_Ready r streams), w), Ok tt)).
      unfold advance_script. rewrite (M_bind_step get _ _ _ _ eq_refl).
      change (wb_streams (at_stage SG_Ready r streams, w).1) with streams. by rewrite Es.
    + split; [|done]. split; [done|]. by exists r.
Qed.

(** ** From the first read to the entries *)

(** The whole run, stage by stage, in terms of the source in memory: how it ends
    and with which back end. *)
Definition backend_outcome (b : WiseBackend I) (res : result (Stop WiseError) unit) : Prop :=
  match (find_overlay limits tt).2 with
  | Err e => res = Err e
  | Ok overlay =>
      match locate_in_view overlay with
      | Err e => res = Err e
      | Ok h => ∃ streams stop,
          walks attempt_at limits (len source) (ph_first_stream_offset h) 0 0 streams stop ∧
          match stop with
          | Some e => res = Err (Fail e)
          | None => script_outcome overlay streams b res
          end
      end
  end.

(** The streams of a walk were measured where they are. *)
Lemma walks_measured cursor index total l i r :
  walks attempt_at limits (len source) cursor index total l None → l !! i = Some r →
  fits 64 (rec_offset r) ∧ attempt_at (rec_offset r) = Ok (rec_metrics r).
Proof.
  intros Hw Hi.
  assert (Hw' : walks (memory_attempt (I := I) source limits) limits (len source) cursor index total l None) by exact Hw.
  pose proof (walks_streams_laid_out (I := I) source ltac:(apply Hsource) limits cursor index total l None Hsane Hw') as Hlaid.
  destruct (streams_laid_out_nth source limits cursor index l i r Hlaid Hi) as [He Ha].
  split; [|exact Ha]. pose proof source_fits. unfold stream_end in He. unfold fits. lia.
Qed.

Lemma backend_leads w :
  movable w → pe_table_end source ≤ capacity →
  ∃ b w1 res, leads (wise_new limits, w) (inr ((b, w1), res)) ∧ backend_outcome b res ∧
    match res with Ok _ => movable w1 | Err e => refused e end.
Proof.
  intros Hw Htable. change (wise_new limits) with (at_stage SG_Overlay (reader_new 0 limits : StreamReader I) []).
  set (r0 := reader_new 0 limits). pose proof source_fits as Hfits. unfold backend_outcome.
  assert (Hstop : ∀ e x, stopped_at e x → leads (at_stage SG_Overlay r0 [], w) x → e ≠ WE_SourceFailed →
    ∀ P : WiseBackend I → result (Stop WiseError) unit → Prop, (∀ b, P b (Err (Fail e))) →
    ∃ b w1 res, leads (at_stage SG_Overlay r0 [], w) (inr ((b, w1), res)) ∧ P b res ∧
      match res with Ok _ => movable w1 | Err e => refused e end).
  { intros e x [[b w1] ->] Hl Hne P HP. exists b, w1, (Err (Fail e)). split; [done|]. split; [done|by eexists]. }
  destruct (overlay_leads r0 w Hw Htable) as (x0 & Hlead0 & Hx0).
  destruct (find_overlay limits tt) as [[] [ov|e]] eqn:Eov; cbn [snd] in *.
  2:{ destruct e as [e| |]; try done. by eapply Hstop; [apply Hx0|..|apply Hx0|]. }
  destruct Hx0 as (w1 & Hw1 & ->).
  pose proof (proj1 (find_overlay_exact limits source ov Hfits) Eov) as (Hph & _ & _ & Hend & Eo).
  assert (ov_offset ov < len source ∧ ov_len ov < 2 ^ 64 ∧ overlay_end ov = len source) as (Hov & Hovl & Hove)
    by (rewrite Eo; cbn; lia).
  destruct (header_leads ov r0 w1) as (x1 & Hlead1 & Hx1); [done|done|lia|].
  pose proof (leads_trans _ _ _ _ Hlead0 Hlead1) as Hlead.
  destruct (locate_in_view ov) as [h|e].
  2:{ destruct e as [e| |]; try done. by eapply Hstop; [apply Hx1|..|apply Hx1|]. }
  destruct Hx1 as (w2 & Hw2 & ->).
  destruct (walks_total_fun attempt_at limits (len source) (ph_first_stream_offset h) 0 0) as (l & o & Hwalk).
  pose proof (ls_total _ Hsane). pose proof (ls_resync _ Hsane). pose proof Hwalk as Hwalk'. rewrite <-Hove in Hwalk'.
  destruct (walk_leads source limits capacity Hfits limits_fit_sane Hchunk ltac:(lia) (ls_streams _ Hsane) ltac:(lia) ov
    ltac:(lia) (ph_first_stream_offset h) 0 0 l o r0 w2 [] Hwalk' eq_refl Hw2) as (x2 & Hlead2 & Hx2).
  pose proof (leads_trans _ _ _ _ Hlead Hlead2) as Hlead'.
  destruct o as [e|].
  { eapply Hstop; [exact Hx2|exact Hlead'| |].
    2:{ intros b. by exists l, (Some e). }
    intros ->. by apply (walks_never_failed (I := I) source ltac:(apply Hsource) _ _ _ _ _ _ limits_fit_sane Hwalk). }
  destruct Hx2 as (r3 & w3 & Hl3 & Hw3 & ->). cbn [app] in Hlead'.
  destruct (script_leads ov r3 l w3 Hw3 Hl3) as (b & w4 & res & Hlead3 & Hres & Hw4).
  { intros record Hr. by eapply walks_measured. }
  exists b, w4, res. split; [by eapply leads_trans|]. split; [by exists l, None|].
  unfold script_outcome in Hres. destruct (l !! 1%nat); [|by destruct Hres as [-> _]].
  destruct Hres as (bytes & _ & Hres). destruct (_ <? _); [rewrite Hres; by eexists|by destruct Hres as [-> _]].
Qed.
End ready.
