(* ===== verification/BackendAgree.v ===== *)
(** * The back end and the blocking reader

    Where [read_package] of [WisePackage.v] accepts a source, the back end of
    [BackendWise.v] ends with the same streams, records and map. *)

From stdpp Require Import gmap sets.
From S2P Require Export BackendReady.

(** ** A lower ceiling

    The blocking reader gathers the script under the ceilings of
    [script_limits], the back end under its own. *)
Section relaxed.
Context {I : Type} `{InflaterLaws I} (source : list byte) (limits : WiseLimits).
#[local] Hint Extern 0 (ImageSource unit) => exact (source_slice source) : typeclass_instances.
#[local] Hint Extern 0 (WiseCancellation unit) => exact slice_cancel : typeclass_instances.
#[local] Instance relax_sink : Sink (list byte) := vec_sink.

Definition relax (r : StreamReader I) : StreamReader I :=
  {| sr_state := sr_state r; sr_limits := limits; sr_start := sr_start r; sr_read_cursor := sr_read_cursor r;
     sr_input := sr_input r; sr_input_pos := sr_input_pos r; sr_consumed := sr_consumed r;
     sr_inflated := sr_inflated r; sr_crc := sr_crc r; sr_finished := sr_finished r; sr_stalled := sr_stalled r |}.

Definition tight (r : StreamReader I) : Prop := sr_limits r = script_limits limits.

Lemma absorb_relaxed out_len res r r1 x :
  tight r → absorb_result out_len res r = (r1, Ok x) →
  absorb_result out_len res (relax r) = (relax r1, Ok x) ∧ tight r1.
Proof.
  unfold tight. intros Hl. destruct r as [st li sta cur inp pos con inf crc fin sta']. cbn in Hl. subst li.
  unfold absorb_result, mbind, M_bind, mret, M_ret, get, modify, lift, bounded, reject, fail, relax.
  cbn [sr_input_pos sr_consumed sr_inflated sr_limits sr_crc sr_stalled sr_input put_input put_counts put_flags
    script_limits wl_max_compressed_bytes_per_stream wl_max_inflated_bytes_per_stream].
  destruct (ok_or _ _); cbn; [|done]. destruct (map_err _ (checked_add_bounded _ con _)); cbn; [|done].
  destruct (wl_max_compressed_bytes_per_stream limits <? _); cbn; [done|].
  destruct (out_len <? _); cbn; [done|].
  destruct (map_err _ _); cbn; [|done].
  destruct (N.ltb_spec (N.min (wl_max_inflated_bytes_per_stream limits) (wl_max_script_bytes limits)) a1); cbn; [done|].
  rewrite (proj2 (N.ltb_ge (wl_max_inflated_bytes_per_stream limits) a1)) by lia. cbn.
  destruct (ir_status res); cbn; try by intros [= <- <-].
  destruct (0 <? _); cbn; [by intros [= <- <-]|]. destruct (_ =? 0); cbn; [|by intros [= <- <-]].
  destruct sta'; cbn; [done|]. by intros [= <- <-].
Qed.

Lemma inflate_turn_relaxed out_len r r1 x :
  tight r → inflate_turn out_len r = (r1, Ok x) →
  inflate_turn out_len (relax r) = (relax r1, Ok x) ∧ tight r1.
Proof.
  intros Hl. unfold inflate_turn, mbind at 1 3, M_bind at 1 3, get. cbn [relax sr_input sr_input_pos sr_state].
  destruct (len (sr_input r) <? sr_input_pos r); [done|].
  destruct (inflate_step (sr_state r) _ out_len) as [state res].
  rewrite !(M_bind_step (modify _) _ _ _ tt eq_refl). intros E. by apply absorb_relaxed in E.
Qed.

Lemma tight_chunk r : tight r → wise_chunk_bytes (sr_limits r) = wise_chunk_bytes limits.
Proof. by intros ->. Qed.

Lemma read_turn_relaxed out_len r s r1 s1 x :
  tight r → read_turn (S := unit) out_len tt (r, s) = ((r1, s1), Ok x) →
  read_turn (S := unit) out_len tt (relax r, s) = ((relax r1, s1), Ok x) ∧ tight r1.
Proof.
  intros Hl. destruct s. unfold read_turn.
  rewrite (M_bind_step (on_source _) _ (r, tt) (r, tt) tt), (M_bind_step (on_source _) _ (relax r, tt) (relax r, tt) tt) by done.
  rewrite !(M_bind_step get _ _ _ _ eq_refl).
  cbn [fst relax sr_input_pos sr_input].
  assert (Hrun : ∀ q, tight q → on_reader (inflate_turn out_len) (q, tt) = ((r1, s1), Ok x) →
    on_reader (inflate_turn out_len) (relax q, tt) = ((relax r1, s1), Ok x) ∧ tight r1).
  { intros q Hq. unfold on_reader, zoom. cbn [fst snd]. destruct (inflate_turn out_len q) as [q1 res] eqn:E.
    intros [= <- <- ->]. apply inflate_turn_relaxed in E as [-> ?]; [|done]. done. }
  destruct (sr_input_pos r =? len (sr_input r)).
  - unfold refill, on_source, on_reader at 1 2 4 5, zoom, mbind, M_bind, get, modify, mret, M_ret. cbn [fst snd].
    rewrite (tight_chunk r Hl). cbn [relax sr_limits sr_read_cursor].
    set (got := subslice (sr_read_cursor r) (wise_chunk_bytes limits) source).
    change (image_read_at (sr_read_cursor r) (wise_chunk_bytes limits) tt) with
      (tt, Ok got : result (Stop WiseError) (list byte)). cbn [fst snd].
    destruct (len got =? 0); cbn; [done|]. unfold bounded, lift. destruct (map_err _ _) as [cursor|e]; cbn; [|done].
    intros E. by apply Hrun in E.
  - intros E. by apply Hrun.
Qed.

Lemma stream_read_relaxed out_len r s r1 s1 l :
  tight r → stream_read (S := unit) out_len (r, s) = ((r1, s1), Ok l) →
  stream_read (S := unit) out_len (relax r, s) = ((relax r1, s1), Ok l) ∧ tight r1.
Proof.
  intros Hl. unfold stream_read. rewrite !(M_bind_step get _ _ _ _ eq_refl). cbn [fst relax sr_finished].
  destruct (sr_finished r || _); [by intros [= <- <- <-]|]. intros E.
  destruct (loop_W_follows (read_turn (S := unit) out_len) (read_turn (S := unit) out_len)
    (λ _ x _ y, tight x.1 ∧ y = (relax x.1, x.2)) (λ x b y b', tight x.1 ∧ y = (relax x.1, x.2) ∧ b' = b)
    tt (r, s) tt (relax r, s) (r1, s1) l (conj Hl eq_refl)) as (t & b & E' & Ht & -> & ->); [|done|].
  - intros [] [r2 s2] [] ? [Ht ->]. cbn [fst snd] in *. destruct (read_turn out_len tt (r2, s2)) as [[r3 s3] [x|e]] eqn:Et; [|done].
    apply read_turn_relaxed in Et as [Et Ht']; [|done]. rewrite Et. destruct x as [[]|x]; [by eexists _, tt|by eexists _, x].
  - by rewrite E'.
Qed.

(** What is gathered under the lower ceiling is gathered under the higher one. *)
Lemma inflate_bytes_relaxed offset bytes s :
  inflate_bytes (I := I) offset (script_limits limits) tt = (s, Ok bytes) →
  inflate_bytes (I := I) offset limits tt = (s, Ok bytes).
Proof.
  unfold inflate_bytes, inflate_stream. change vec_sink with relax_sink. unfold mbind at 1 3, M_bind at 1 3.
  destruct (loop_W (inflate_stream_turn (script_limits limits)) (reader_new offset (script_limits limits)) (tt, []))
    as [[[] bytes1] [r|e]] eqn:El; [|done].
  destruct (loop_W_follows (inflate_stream_turn (I := I) (S := unit) (script_limits limits)) (inflate_stream_turn limits)
    (λ r x r' y, tight r ∧ r' = relax r ∧ y = x) (λ x b y b', tight b ∧ y = x ∧ b' = relax b)
    (reader_new offset (script_limits limits)) (tt, []) (reader_new offset limits) (tt, []) (tt, bytes1) r)
    as (t & b & E' & Ht & -> & ->); [done| |exact El|].
  { intros r1 [[] k1] ? ? (Ht & -> & ->). unfold inflate_stream_turn, mbind, M_bind, zoom, own. cbn [fst snd].
    change (wise_chunk_bytes (script_limits limits)) with (wise_chunk_bytes limits).
    destruct (stream_read (wise_chunk_bytes limits) (r1, tt)) as [[r2 []] [l|e]] eqn:Er; [|done].
    apply stream_read_relaxed in Er as [Er Ht2]; [|done]. rewrite Er. cbn [fst snd relax sr_finished].
    destruct (0 <? len l); cbn; destruct (sr_finished r2 || (len l =? 0)); eauto 10. }
  rewrite E'. unfold mbind, M_bind, zoom, own. cbn [fst snd].
  assert (Hfin : ∀ r1 s1 res, stream_finish (I := I) (r, tt) = ((r1, s1), res) →
    stream_finish (I := I) (relax r, tt) = ((relax r1, s1), res)).
  { intros r1 s1 res. unfold stream_finish. rewrite !(M_bind_step get _ _ _ _ eq_refl).
    cbn [fst relax sr_finished sr_start sr_consumed sr_crc sr_inflated].
    destruct (sr_finished r); [|by intros [= <- <- <-]].
    rewrite !(M_bind_step (reject (negb true) _) _ _ _ tt eq_refl). unfold mbind, M_bind, bounded, lift.
    destruct (map_err _ _) as [at_|e]; [|by intros [= <- <- <-]]. unfold on_source, zoom. cbn [fst snd].
    change (image_read_at at_ 4 tt) with (tt, Ok (subslice at_ 4 source) : result (Stop WiseError) (list byte)).
    cbn [fst snd]. destruct (len _ =? 4); by intros [= <- <- <-]. }
  destruct (stream_finish (r, tt)) as [[r1 []] [m|e]] eqn:Ef; [|done]. rewrite (Hfin _ _ _ eq_refl). done.
Qed.
End relaxed.

(** ** The blocking reader *)

Section agree.
Context {I : Type} `{InflaterLaws I} (source : list byte) (limits : WiseLimits).
#[local] Hint Extern 0 (ImageSource unit) => exact (source_slice source) : typeclass_instances.
#[local] Hint Extern 0 (WiseCancellation unit) => exact slice_cancel : typeclass_instances.

(** The calls a package was read with. *)
Lemma read_package_parts p :
  read_package (I := I) None limits tt = (tt, Ok p) →
  find_overlay limits tt = (tt, Ok (pk_overlay p)) ∧
  read_table (I := I) (pk_streams p) (pk_overlay p) limits tt = (tt, Ok (pk_table p)) ∧
  pk_map p = file_map_build (pk_table p) (pk_streams p) (pk_overlay p).
Proof.
  unfold read_package. rewrite M_bind_Ok. intros ([] & overlay & Eo & E). revert E.
  rewrite M_bind_Ok. intros ([] & header & _ & E). revert E.
  rewrite M_bind_Ok. intros ([] & [chain [streams summary]] & _ & E). revert E.
  rewrite M_bind_Ok. intros ([] & table & Et & E). injection E as <-. done.
Qed.

Lemma read_table_parts streams overlay table :
  read_table (I := I) streams overlay limits tt = (tt, Ok table) →
  match streams !! 1%nat with
  | None => table = file_table_default
  | Some script => ∃ bytes, inflate_bytes (I := I) (rec_offset script) limits tt = (tt, Ok bytes) ∧
      inflate_bytes (I := I) (rec_offset script) (script_limits limits) tt = (tt, Ok bytes) ∧
      parse_with_evidence bytes overlay limits (from_streams streams) = Ok table
  end.
Proof.
  unfold read_table. destruct (streams !! 1%nat) as [script|]; [|by intros [= <-]].
  rewrite M_bind_Ok. intros ([] & outcome & Eo & E). unfold returned in Eo.
  destruct (inflate_bytes (rec_offset script) (script_limits limits) tt) as [[] [bytes|e]] eqn:Eb.
  - injection Eo as <-. exists bytes. split; [by apply inflate_bytes_relaxed|]. split; [done|].
    unfold lift in E. by injection E.
  - destruct e as [e| |]; [|done..]. injection Eo as <-. destruct e; try done. by destruct limit.
Qed.

Lemma parse_nothing overlay evidence table :
  parse_with_evidence [] overlay limits evidence = Ok table → ft_records table = [].
Proof.
  unfold parse_with_evidence. destruct (wl_max_script_bytes limits <? len []); [done|]. by intros [= <-].
Qed.

Lemma file_map_records table table' streams overlay :
  ft_records table = ft_records table' → file_map_build table streams overlay = file_map_build table' streams overlay.
Proof.
  intros E. unfold file_map_build, choose_origin. unfold offset_match_count. rewrite E. reflexivity.
Qed.

(** The script of an accepted package is within its ceiling. *)
Lemma gathered_ceiling offset bytes :
  len source < 2 ^ 63 → limits_sane limits → fits 64 offset →
  inflate_bytes (I := I) offset (script_limits limits) tt = (tt, Ok bytes) → len bytes ≤ script_ceiling limits.
Proof.
  intros Hsource Hsane Hoff E.
  assert (wp (inflate_bytes (I := I) offset (script_limits limits))
    (λ bytes _, ∃ m, measured (I := I) source offset (script_limits limits) bytes m) (λ e _, refused e) tt) as Hwp
    by exact (inflate_bytes_wp (I := I) source Hsource (script_limits limits) offset
                (script_limits_fit _ (ls_fit _ Hsane)) Hoff).
  unfold wp in Hwp. rewrite E in Hwp. destruct Hwp as [m Hm]. by destruct (me_ceilings _ _ _ _ _ Hm).
Qed.

#[local] Instance view_still view : len view < 2 ^ 64 →
  @Serves unit (source_slice view) view (2 ^ 64) (λ _, True) (λ s, s = tt) False.
Proof. intros Hv. split; [|exact Hv]. intros offset wanted [] _ _ _. exists tt. auto. Qed.

(** The first stream is only ever found whole, with its checksum, inside the
    window at the overlay: one that is longer is passed over. *)
Lemma located_in_window capacity overlay h :
  len source < 2 ^ 64 → limits_fit limits → ov_offset overlay ≤ len source →
  N.min (ov_len overlay) (wl_max_header_scan_bytes limits) ≤ 2 ^ 64 →
  locate_in_view (I := I) source limits capacity overlay = Ok h →
  ph_first_stream_offset h + sm_compressed_len (ph_first_stream h) + 4 ≤ ov_offset overlay + capacity.
Proof.
  intros Hsource Hf Hov Hmin E. set (view := view_at source capacity (ov_offset overlay)).
  assert (len view = N.min (ov_offset overlay + capacity) (len source)) as Hlv.
  { unfold view, view_at, len. rewrite length_take. lia. }
  assert (len view < 2 ^ 64) as Hv by lia. pose proof (view_still view Hv) as Hserves.
  assert (wp (@locate_first_stream I _ unit (source_slice view) slice_cancel overlay limits)
    (λ h s', s' = tt ∧ has_window ZIP_LOCAL_FILE_SIGNATURE
       (subslice (ov_offset overlay) (N.min (ov_len overlay) (wl_max_header_scan_bytes limits)) view) = false ∧
       @header_found I _ unit (source_slice view) slice_cancel tt limits (ov_offset overlay) 0
       (subslice (ov_offset overlay) (N.min (ov_len overlay) (wl_max_header_scan_bytes limits)) view) h)
    (λ e s', s' = tt ∧ refused e) tt) as Hwp.
  { apply (@locate_first_stream_wp I _ _ unit (source_slice view) slice_cancel _ view (λ _, True) tt _); [done|lia|done|done]. }
  unfold wp in Hwp. unfold locate_in_view in E. fold view in E.
  destruct (@locate_first_stream I _ unit (source_slice view) slice_cancel overlay limits tt) as [[] res].
  cbn [snd] in E. subst res. destruct Hwp as (_ & _ & [_ Hin Hoff Hm Hst _]).
  set (window := subslice _ _ view) in *.
  pose proof (len_subslice_le (ov_offset overlay) (N.min (ov_len overlay) (wl_max_header_scan_bytes limits)) view) as El.
  fold window in El.
  destruct (lookup_lt_is_Some_2 window (N.to_nat (ph_header_len h - 0))) as [b Hb].
  { clear -Hin. unfold len in Hin. lia. }
  specialize (Hst b Hb). unfold starts_chain in Hst. rewrite Hm in Hst.
  apply andb_true_iff in Hst as [_ [Hmatch _]%andb_true_iff].
  assert (fits 64 (ph_first_stream_offset h)) as Hfit by (unfold fits; rewrite Hoff; lia).
  destruct (@measure_still I _ _ unit (source_slice view) slice_cancel _ view (λ _, True) tt _ (scan_limits limits)
    (ph_first_stream_offset h) (scan_limits_fit _ Hf) Hfit ltac:(done)) as [_ Hmea].
  rewrite Hm in Hmea. destruct Hmea as [out Hmea]. pose proof (me_checksum _ _ _ _ _ Hmea) as Hc.
  destruct (N.leb_spec (ph_first_stream_offset h + sm_compressed_len (ph_first_stream h) + 4) (len view)); [lia|].
  by rewrite Hc in Hmatch.
Qed.

(** The run an accepted package implies. *)
Lemma outcome_agrees capacity p b res :
  len source < 2 ^ 63 → limits_sane limits →
  read_package (I := I) None limits tt = (tt, Ok p) →
  locate_in_view (I := I) source limits capacity (pk_overlay p) = Ok (pk_header p) →
  backend_outcome source limits capacity b res →
  res = Ok tt ∧ wb_streams b = pk_streams p ∧ ft_records (wb_table b) = ft_records (pk_table p) ∧
  wb_map b = Some (pk_map p).
Proof.
  intros Hsource Hsane Hread Hview Hout. destruct (read_package_parts p Hread) as (Eo & Et & Emap).
  assert (wp (read_package (I := I) None limits) (λ p _, package_of (I := I) source None limits p)
    (λ e _, refused e) tt) as Hp by exact (package_wp (I := I) source Hsource None limits Hsane).
  unfold wp in Hp. rewrite Hread in Hp. pose proof (po_walk _ _ _ _ Hp) as Hwalk.
  unfold backend_outcome in Hout. rewrite Eo in Hout. cbn [snd] in Hout. rewrite Hview in Hout.
  destruct Hout as (streams & stop & Hw & Hend).
  destruct (walks_det _ _ _ _ _ _ _ _ _ _ Hw Hwalk) as [-> ->].
  apply read_table_parts in Et. unfold script_outcome, script_bytes in Hend. rewrite Emap.
  destruct (pk_streams p !! 1%nat) as [script|] eqn:Es.
  - destruct Et as (bytes & Ei & Ei' & Ep). destruct Hend as (bytes' & Eb & Hend).
    rewrite Ei in Eb. injection Eb as <-.
    destruct (streams_laid_out_nth _ _ _ _ _ _ _ (po_streams _ _ _ _ Hp) Es) as [Hin _].
    assert (fits 64 (rec_offset script)) as Hoff by (unfold stream_end in Hin; unfold fits; lia).
    pose proof (gathered_ceiling _ _ Hsource Hsane Hoff Ei') as Hle.
    rewrite (proj2 (N.ltb_ge _ _)) in Hend by done. destruct Hend as [-> [r ->]].
    unfold finish_mapping, put_mapping. cbn [wb_streams wb_table wb_map wb_limits BackendWalk.at_stage].
    split; [done|]. split; [done|]. rewrite Ep.
    destruct (N.eqb_spec (len bytes) 0) as [E0|]; [|done].
    apply len_0_nil in E0 as ->. apply parse_nothing in Ep. rewrite Ep. split; [done|].
    f_equal. by apply file_map_records.
  - subst. destruct Hend as [-> [r ->]]. rewrite Et. done.
Qed.
End agree.

(** ** Properties *)

Section properties.
Context {I : Type} `{InflaterLaws I} (source : list byte) (limits : WiseLimits) (maximum_read : N).
#[local] Hint Extern 0 (ImageSource unit) => exact (source_slice source) : typeclass_instances.
#[local] Hint Extern 0 (WiseCancellation unit) => exact slice_cancel : typeclass_instances.

Definition window_bytes : N := N.max maximum_read MINIMUM_WINDOW_BYTES.

(** A source whose executable headers end within the first window, and limits
    whose chunk fits the window. *)
Record servable_source : Prop := {
  ss_source : 0 < len source < 2 ^ 63;
  ss_limits : limits_sane limits;
  ss_read : maximum_read < 2 ^ 32;
  ss_chunk : wise_chunk_bytes limits ≤ window_bytes;
  ss_headers : pe_table_end source ≤ window_bytes
}.

Lemma new_movable : servable_source → movable source window_bytes (window_new (len source) maximum_read).
Proof.
  intros [Hs _ Hr _ _].
  assert (len source < 2 ^ 64) as Hfits by (eapply N.lt_trans; [apply Hs|by vm_compute]).
  split; [by apply window_new_of|done| |by left].
  unfold window_capacity, window_new, window_bytes, len. cbn [ws_buffer]. rewrite length_replicate. lia.
Qed.

(** C12: Over a source whose executable headers end inside the first window, with
    a chunk no larger than the window, the back end comes to an end, the parent
    answering each of its reads: it stops at the error of the first stage that
    fails, the first stream being looked for in the window at the overlay's start
    and every other stage run over the source in memory, or its streams are the
    walk of the chain and its table and map those of the bytes the script stream
    decodes to. A failed read is never what it reports. Headers behind the window
    are what [overlay_stage_panics] is about. *)
Theorem wise_backend_exact :
  servable_source →
  ∃ b w res, leads (serve_turn source) (wise_new (I := I) limits, window_new (len source) maximum_read) (inr ((b, w), res)) ∧
    backend_outcome (I := I) source limits window_bytes b res ∧
    match res with Ok _ => True | Err e => refused e end.
Proof.
  intros Hss. pose proof Hss as [Hs Hl Hr Hc Hh].
  destruct (backend_leads (I := I) source limits window_bytes Hs Hl Hc
    ltac:(unfold window_bytes, MINIMUM_WINDOW_BYTES; lia) _ (new_movable Hss) Hh) as (b & w & res & Hlead & Ho & Hres).
  exists b, w, res. split; [done|]. split; [done|]. by destruct res.
Qed.

(** C2: The back end does what the blocking reader does, over a source whose
    executable headers end inside the first window and with a chunk no larger
    than the window: if the blocking reader accepts the source and the header it
    finds is the one found within the window, the back end ends ready, with the
    same streams, the same records and the same map. *)
Theorem wise_backend_agrees p :
  servable_source →
  read_package (I := I) None limits tt = (tt, Ok p) →
  locate_in_view (I := I) source limits window_bytes (pk_overlay p) = Ok (pk_header p) →
  ∃ b w, leads (serve_turn source) (wise_new limits, window_new (len source) maximum_read) (inr ((b, w), Ok tt)) ∧
    wb_streams b = pk_streams p ∧ ft_records (wb_table b) = ft_records (pk_table p) ∧ wb_map b = Some (pk_map p).
Proof.
  intros Hss Hread Hview. pose proof Hss as [Hs Hl Hr Hc Hh].
  assert (64 ≤ window_bytes < 2 ^ 32) as Hw by (unfold window_bytes, MINIMUM_WINDOW_BYTES; lia).
  destruct (backend_leads source limits window_bytes Hs Hl Hc Hw _ (new_movable Hss) Hh) as (b & w & res & Hlead & Hout & _).
  destruct (outcome_agrees source limits window_bytes p b res ltac:(apply Hs) Hl Hread Hview Hout) as (-> & ? & ? & ?).
  by exists b, w.
Qed.
End properties.
