(* ===== verification/BackendEntries.v ===== *)
(** * The entries of the Wise back end

    [WiseBackend::entries] of [BackendWise.v]: which streams it offers, under
    which tokens and in which order. *)

From stdpp Require Import gmap sets sorting.
From S2P Require Export BackendAgree.

(** ** Sorted selections *)

Lemma StronglySorted_omap {A B C} (R : C → C → Prop) (g : A → option B) (h : A → C) (f : B → C) l :
  StronglySorted R (h <$> l) → (∀ x y, x ∈ l → g x = Some y → f y = h x) → StronglySorted R (f <$> omap g l).
Proof.
  induction l as [|x l IH]; intros Hs Hg; [constructor|].
  apply StronglySorted_inv in Hs as [Hs Hx]. specialize (IH Hs (λ x y Hx, Hg x y (list_elem_of_further _ _ _ Hx))).
  cbn. destruct (g x) as [y|] eqn:Eg; [|done]. constructor; [done|].
  rewrite (Hg x y) by (done || left). apply list.Forall_forall. intros c (z & -> & Hz)%list_elem_of_fmap.
  apply list_elem_of_omap in Hz as (x' & Hx' & Ez).
  rewrite (Hg x' z) by (done || by right). rewrite list.Forall_forall in Hx. apply Hx.
  apply list_elem_of_fmap. by exists x'.
Qed.

Lemma counted_sorted (k : N) l :
  (∀ i x, l !! i = Some x → x = k + N.of_nat i) → StronglySorted N.lt l.
Proof.
  revert k. induction l as [|x l IH]; intros k Hl; constructor.
  - apply (IH (k + 1)). intros i y Hy. rewrite (Hl (S i) y Hy). lia.
  - apply list.Forall_forall. intros y [i Hi]%list_elem_of_lookup.
    rewrite (Hl O x eq_refl), (Hl (S i) y Hi). lia.
Qed.

Lemma StronglySorted_List_filter {A} (R : A → A → Prop) p l :
  StronglySorted R l → StronglySorted R (List.filter p l).
Proof.
  induction 1 as [|x l Hs IH Hx]; cbn; [constructor|]. destruct (p x); [|done]. constructor; [done|].
  apply list.Forall_forall. intros y Hy. rewrite list.Forall_forall in Hx. apply Hx.
  apply list_elem_of_In, List.filter_In in Hy as [Hy _]. by apply list_elem_of_In.
Qed.

(** ** The map *)

Lemma unnamed_filter table streams overlay :
  ∃ p, fm_unnamed (file_map_build table streams overlay) = List.filter p (map rec_index streams).
Proof. unfold file_map_build. destruct (resolve_records _ _ _) as [claimed rs]. by eexists. Qed.

Section entries.
Context {I : Type} `{Inflater I} (b : WiseBackend I) (overlay : Overlay).

(** A back end whose stages are done. *)
Record resolved : Prop := {
  re_map : wb_map b = Some (file_map_build (wb_table b) (wb_streams b) overlay);
  re_indexes i r : wb_streams b !! i = Some r → rec_index r = N.of_nat i;
  re_streams : len (wb_streams b) ≤ 2 ^ 32;
  re_records : len (ft_records (wb_table b)) ≤ 2 ^ 32
}.

Context (Hb : resolved).
Let m : FileMap := file_map_build (wb_table b) (wb_streams b) overlay.

Lemma entries_run :
  wise_entries b = omap (record_entry b) (fm_entries m) ++ omap (unnamed_entry b) (fm_unnamed m).
Proof. unfold wise_entries. by rewrite (re_map Hb). Qed.

Lemma indexes_NoDup : NoDup (rec_index <$> wb_streams b).
Proof.
  apply NoDup_alt. intros i j x (r & -> & Hi)%list_lookup_fmap_Some (r' & E & Hj)%list_lookup_fmap_Some.
  apply (re_indexes Hb) in Hi, Hj. lia.
Qed.

Lemma stream_index_lt r : r ∈ wb_streams b → rec_index r < 2 ^ 32 ∧ wb_streams b !! N.to_nat (rec_index r) = Some r.
Proof.
  intros [i Hi]%list_elem_of_lookup. rewrite (re_indexes Hb i r Hi), Nat2N.id. split; [|done].
  pose proof (lookup_lt_Some _ _ _ Hi). pose proof (re_streams Hb). unfold len in *. lia.
Qed.

Lemma unnamed_stream index : index ∈ fm_unnamed m → ∃ r, r ∈ wb_streams b ∧ rec_index r = index.
Proof.
  destruct (unnamed_filter (wb_table b) (wb_streams b) overlay) as [p E]. unfold m. rewrite E.
  intros [Hi _]%list_elem_of_In%List.filter_In.
  apply List.in_map_iff in Hi as (r & <- & Hr). exists r. split; [by apply list_elem_of_In|done].
Qed.

Lemma map_entry i e : fm_entries m !! i = Some e →
  en_record_index e = N.of_nat i ∧ N.of_nat i < 2 ^ 32 ∧
  match en_stream_index e with
  | Some index => ∃ r, r ∈ wb_streams b ∧ rec_index r = index ∧ en_stream_inflated_size e = Some (rec_inflated_len r)
  | None => True
  end.
Proof.
  intros Hi. destruct (file_map_parts (wb_table b) (wb_streams b) overlay indexes_NoDup) as (Hlen & Hall & _).
  fold m in Hlen, Hall. pose proof (lookup_lt_Some _ _ _ Hi) as Hlt. rewrite Hlen in Hlt.
  destruct (lookup_lt_is_Some_2 _ _ Hlt) as [record Hr]. destruct (Hall i record Hr) as (e' & Ee & Hex).
  rewrite Hi in Ee. injection Ee as <-. destruct Hex as (-> & _ & _ & _ & Hm). split; [done|].
  split; [pose proof (re_records Hb); unfold len in *; lia|].
  destruct (en_stream_index e) as [index|]; [|done].
  destruct (en_matched_by e) as [[]|]; [..|done].
  - destruct Hm as (_ & r & ? & ? & _ & ?). by exists r.
  - destruct Hm as (_ & _ & base & _ & r & ? & ? & _ & ?). by exists r.
Qed.

(** What an offered entry says of the stream behind it. *)
Definition offers (index : N) : option (N * N) :=
  r ← wb_streams b !! N.to_nat index;
  if is_match (rec_checksum r) then Some (rec_offset r, rec_inflated_len r) else None.

Definition offered (e : WiseEntry) : N * N := (we_compressed_offset e, we_size_bytes e).

Lemma record_entry_offers i e : fm_entries m !! i = Some e →
  offered <$> record_entry b e = en_stream_index e ≫= offers.
Proof.
  intros Hi. apply map_entry in Hi as (_ & _ & Hs). unfold record_entry, offers.
  destruct (en_stream_index e) as [index|]; [|done]. destruct Hs as (r & Hr & <- & ->).
  cbn [mbind option_bind]. destruct (stream_index_lt r Hr) as [_ ->]. cbn [mbind option_bind].
  by destruct (is_match _).
Qed.

Lemma unnamed_entry_offers index : offered <$> unnamed_entry b index = offers index.
Proof.
  unfold unnamed_entry, offers. destruct (wb_streams b !! N.to_nat index) as [r|]; [|done]. cbn.
  by destruct (is_match _).
Qed.

Lemma fmap_omap {A B C} (f : B → C) (g : A → option B) (l : list A) : f <$> omap g l = omap (λ x, f <$> g x) l.
Proof. induction l as [|x l IH]; [done|]. cbn. destruct (g x); cbn; by rewrite IH. Qed.

Lemma omap_indexed {A B} (f g : A → option B) (l : list A) :
  (∀ i x, l !! i = Some x → f x = g x) → omap f l = omap g l.
Proof.
  induction l as [|x l IH]; intros E; [done|]. cbn. rewrite (E O x eq_refl).
  rewrite IH; [done|]. intros i y Hy. by apply (E (S i)).
Qed.

Lemma omap_omap {A B C} (f : A → option B) (g : B → option C) (l : list A) : omap g (omap f l) = omap (λ x, f x ≫= g) l.
Proof. induction l as [|x l IH]; [done|]. cbn. destruct (f x); cbn; by rewrite IH. Qed.

Lemma offers_streams : omap offers (rec_index <$> wb_streams b) =
  (λ r, (rec_offset r, rec_inflated_len r)) <$> List.filter (λ r, is_match (rec_checksum r)) (wb_streams b).
Proof.
  assert (∀ r, r ∈ wb_streams b → offers (rec_index r) =
    if is_match (rec_checksum r) then Some (rec_offset r, rec_inflated_len r) else None) as Hall.
  { intros r Hr. unfold offers. by destruct (stream_index_lt r Hr) as [_ ->]. }
  revert Hall. generalize (wb_streams b). intros l. induction l as [|r l IH]; intros Hall; [done|].
  specialize (IH (λ r Hr, Hall r (list_elem_of_further _ _ _ Hr))). cbn. rewrite Hall by left.
  destruct (is_match (rec_checksum r)); cbn; by rewrite IH.
Qed.
End entries.

(** What a back end offers once it is ready. *)
Lemma wise_entries_exact {I} `{Inflater I} (b : WiseBackend I) overlay :
  resolved b overlay →
  StronglySorted N.lt (we_token <$> wise_entries b) ∧
  (∀ e, e ∈ wise_entries b → we_token e < UNNAMED_TOKEN_BASE ∨
     UNNAMED_TOKEN_BASE ≤ we_token e < 2 * UNNAMED_TOKEN_BASE ∧ we_declared_crc32 e = 0) ∧
  offered <$> wise_entries b ≡ₚ
    (λ r, (rec_offset r, rec_inflated_len r)) <$> List.filter (λ r, is_match (rec_checksum r)) (wb_streams b).
Proof.
  intros Hb. set (m := file_map_build (wb_table b) (wb_streams b) overlay).
  assert (Hrec : ∀ e x, e ∈ fm_entries m → record_entry b e = Some x →
    we_token x = en_record_index e ∧ en_record_index e < 2 ^ 32).
  { intros e x [i Hi]%list_elem_of_lookup. destruct (map_entry b overlay Hb i e Hi) as (E & Hlt & _).
    unfold record_entry. destruct (en_stream_index e); [|done]. cbn. destruct (en_stream_inflated_size e); [|done]. cbn.
    destruct (wb_streams b !! _); [|done]. cbn. destruct (negb _); [done|]. intros [= <-]. cbn. by rewrite E. }
  assert (Hun : ∀ i x, i ∈ fm_unnamed m → unnamed_entry b i = Some x →
    we_token x = UNNAMED_TOKEN_BASE + i ∧ i < 2 ^ 32 ∧ we_declared_crc32 x = 0).
  { intros i x Hi. destruct (unnamed_stream b overlay i Hi) as (r & Hr & <-).
    destruct (stream_index_lt b overlay Hb r Hr) as [Hlt El]. unfold unnamed_entry. rewrite El. cbn.
    destruct (negb _); [done|]. intros [= <-]. cbn. split; [|done]. unfold saturating_add.
    apply N.min_l. change UNNAMED_TOKEN_BASE with (2 ^ 32). lia. }
  rewrite (entries_run b overlay Hb). fold m. split; [|split].
  - rewrite fmap_app. apply StronglySorted_app. split; [|split].
    + intros t1 t2 (x & -> & Hx)%list_elem_of_fmap (y & -> & Hy)%list_elem_of_fmap.
      apply list_elem_of_omap in Hx as (e & He & Ex), Hy as (i & Hi & Ey).
      destruct (Hrec e x He Ex) as [-> ?], (Hun i y Hi Ey) as [-> _].
      change UNNAMED_TOKEN_BASE with (2 ^ 32). lia.
    + apply (StronglySorted_omap _ _ en_record_index); [|by intros; apply Hrec].
      apply (counted_sorted 0). intros i x (e & -> & Hi)%list_lookup_fmap_Some.
      by apply (map_entry b overlay Hb) in Hi as [-> _].
    + apply (StronglySorted_omap _ _ (λ i, UNNAMED_TOKEN_BASE + i)); [|by intros; apply Hun].
      assert (StronglySorted N.lt (fm_unnamed m)) as Hs.
      { unfold m. destruct (unnamed_filter (wb_table b) (wb_streams b) overlay) as [p ->].
        apply StronglySorted_List_filter, (counted_sorted 0).
        intros i x (r & -> & Hi)%list_lookup_fmap_Some. by rewrite (re_indexes b overlay Hb i r Hi). }
      clear -Hs. induction Hs as [|x l Hs IH Hx]; cbn; constructor; [done|].
      apply list.Forall_forall. intros y (z & -> & Hz)%list_elem_of_fmap. rewrite list.Forall_forall in Hx.
      specialize (Hx z Hz). lia.
  - intros x [Hx|Hx]%elem_of_app; apply list_elem_of_omap in Hx as (e & He & Ex).
    + left. by destruct (Hrec e x He Ex) as [-> ?].
    + right. destruct (Hun e x He Ex) as (-> & ? & ?). change UNNAMED_TOKEN_BASE with (2 ^ 32). lia.
  - rewrite fmap_app, !fmap_omap.
    rewrite (omap_indexed (λ e, offered <$> record_entry b e) (λ e, en_stream_index e ≫= offers b))
      by (intros i e Hi; by apply (record_entry_offers b overlay Hb i)).
    rewrite (omap_indexed (λ i, offered <$> unnamed_entry b i) (offers b))
      by (intros; apply unnamed_entry_offers).
    rewrite <-omap_omap, <-omap_app, <-(offers_streams b overlay Hb).
    apply omap_Permutation. by apply file_map_parts, (indexes_NoDup b overlay).
Qed.

(** ** A back end that ended ready *)

Lemma parse_records limits bytes overlay evidence table :
  limits_sane limits → parse_with_evidence bytes overlay limits evidence = Ok table →
  len (ft_records table) ≤ wl_max_file_records limits.
Proof.
  intros Hls. unfold parse_with_evidence. destruct (N.ltb_spec (wl_max_script_bytes limits) (len bytes)) as [|Hlen]; [done|].
  pose proof (ls_script _ Hls). pose proof (ls_path _ Hls). cbn [guard_err mbind result_bind].
  destruct (parse_loop_run bytes (ov_image_len overlay) limits evidence ltac:(lia) ltac:(done)
    (Datatypes.S (length bytes)) 0 []) as (found & _ & ->); [unfold len; lia|apply N.le_0_l|].
  rewrite len_nil, N.add_0_l. destruct (N.ltb_spec (wl_max_file_records limits) (len found)); [done|].
  by intros [= <-].
Qed.

Section ended.
Context {I : Type} `{InflaterLaws I} (source : list byte) (limits : WiseLimits).
#[local] Hint Extern 0 (ImageSource unit) => exact (source_slice source) : typeclass_instances.
#[local] Hint Extern 0 (WiseCancellation unit) => exact slice_cancel : typeclass_instances.
Context (Hsource : len source < 2 ^ 63) (Hsane : limits_sane limits) (Hrecords : wl_max_file_records limits ≤ 2 ^ 32).

Lemma finish_resolved overlay bytes streams (r : StreamReader I) :
  (∀ i s, streams !! i = Some s → rec_index s = N.of_nat i) → len streams ≤ 2 ^ 32 →
  resolved (finish_mapping overlay bytes (at_stage limits SG_Ready r streams)) overlay.
Proof.
  intros Hi Hs. split; [done|exact Hi|exact Hs|]. unfold finish_mapping, put_mapping. cbn [wb_table wb_limits at_stage wb_streams].
  destruct (len bytes =? 0); [apply N.le_0_l|].
  destruct (parse_with_evidence _ _ _ _) as [table|e] eqn:E; [|apply N.le_0_l].
  apply parse_records in E; [lia|done].
Qed.

Lemma outcome_resolved capacity b :
  backend_outcome (I := I) source limits capacity b (Ok tt) → ∃ overlay, resolved b overlay.
Proof.
  unfold backend_outcome. destruct (find_overlay limits tt).2 as [overlay|e]; [|done].
  destruct (locate_in_view source limits capacity overlay) as [h|e]; [|done].
  intros (streams & stop & Hw & Hend). destruct stop as [e|]; [done|].
  assert (Hw' : walks (memory_attempt (I := I) source limits) limits (len source) (ph_first_stream_offset h) 0 0 streams None)
    by exact Hw.
  pose proof (walks_streams_laid_out (I := I) source Hsource limits _ _ _ _ _ Hsane Hw') as Hlaid.
  pose proof (walks_chained _ _ _ _ _ _ _ _ Hw) as (_ & _ & Hcount). specialize (Hcount (N.le_0_l _)).
  pose proof (ls_streams _ Hsane).
  assert (Hi : ∀ i s, streams !! i = Some s → rec_index s = N.of_nat i).
  { intros i s Hs. rewrite (streams_laid_out_index source Hsource _ _ _ _ _ _ Hlaid Hs). lia. }
  exists overlay. unfold script_outcome in Hend. destruct (streams !! 1%nat) as [script|].
  - destruct Hend as (bytes & _ & Hend). destruct (_ <? _); [done|]. destruct Hend as [_ [r ->]].
    apply finish_resolved; [done|lia].
  - destruct Hend as [_ [r ->]]. apply finish_resolved; [done|lia].
Qed.
End ended.

(** ** Properties *)

(** C28: What a run of the back end offers: the entries are in strictly ascending order
    of their tokens, those of records below the reserved range and those of
    unnamed streams in it; and every stream of the chain whose trailing checksum
    was right is offered exactly once, with its measured size and where it
    starts, and no other stream is. *)
Theorem wise_offers_exact {I} `{InflaterLaws I} source limits maximum_read (b : WiseBackend I) w :
  servable_source source limits maximum_read → wl_max_file_records limits ≤ 2 ^ 32 →
  leads (serve_turn source) (wise_new limits, window_new (len source) maximum_read) (inr ((b, w), Ok tt)) →
  StronglySorted N.lt (we_token <$> wise_entries b) ∧
  (∀ e, e ∈ wise_entries b → we_token e < UNNAMED_TOKEN_BASE ∨
     UNNAMED_TOKEN_BASE ≤ we_token e < 2 * UNNAMED_TOKEN_BASE ∧ we_declared_crc32 e = 0) ∧
  offered <$> wise_entries b ≡ₚ
    (λ r, (rec_offset r, rec_inflated_len r)) <$> List.filter (λ r, is_match (rec_checksum r)) (wb_streams b).
Proof.
  intros Hss Hrec Hlead. pose proof Hss as [Hs Hl Hr Hc Hh].
  assert (64 ≤ window_bytes maximum_read < 2 ^ 32) as Hw by (unfold window_bytes, MINIMUM_WINDOW_BYTES; lia).
  destruct (backend_leads (I := I) source limits (window_bytes maximum_read) Hs Hl Hc Hw _
    (new_movable source limits maximum_read Hss) Hh) as (b' & w' & res & Hlead' & Hout & _).
  pose proof (leads_end_det _ _ _ _ Hlead Hlead') as [= <- <- <-].
  destruct (outcome_resolved source limits (proj2 Hs) Hl Hrec _ b Hout) as [overlay Hb].
  by apply (wise_entries_exact b overlay).
Qed.
