(* ===== verification/BackendBuffer.v ===== *)
(** * Containers that are buffered whole

    [crates/ohl-parser-backends/src/buffered.rs]: a container read into memory
    front to back, and the InstallShield 3 back end over it. The cabinet back
    end is what a class promises. *)

From S2P Require Export BackendWindow IszSample.

Definition MAXIMUM_BUFFERED_BYTES : N := 32 * 1024 * 1024.

Record BufferedEntry : Type := {
  bu_token : N;
  bu_size_bytes : N;
  bu_name : list byte
}.

#[export] Instance BufferedEntry_eq_dec : EqDecision BufferedEntry.
Proof. solve_decision. Defined.

Inductive BufferError : Type := BE_Empty | BE_TooLarge.

(** ** [ContainerBuffer] *)

Record ContainerBuffer : Type := { cb_bytes : list byte; cb_size : N }.

Definition container_buffer_new (size : N) : result BufferError ContainerBuffer :=
  if size =? 0 then Err BE_Empty
  else if MAXIMUM_BUFFERED_BYTES <? size then Err BE_TooLarge
  else Ok {| cb_bytes := []; cb_size := size |}.

Definition is_complete (self : ContainerBuffer) : bool := cb_size self <=? len (cb_bytes self).

Definition next_read (maximum_read : N) (self : ContainerBuffer) : PendingRead :=
  let offset := len (cb_bytes self) in
  let remaining := cb_size self - offset in
  let length := N.min remaining (N.max maximum_read 1) in
  {| pr_offset := offset; pr_length := default (2 ^ 32 - 1) (try_from 32 length) |}.

Definition append (data : list byte) (self : ContainerBuffer) : ContainerBuffer * bool :=
  if (len data =? 0) || (cb_size self <? len (cb_bytes self) + len data) then (self, false)
  else ({| cb_bytes := cb_bytes self ++ data; cb_size := cb_size self |}, true).

(** ** The InstallShield 3 back end *)

Section z_archive.
Context (bytes : list byte).
#[local] Instance z_source : ArchiveSource unit := SliceSource bytes.
#[local] Instance z_cancel : Cancellation unit := never_signalled.

Definition joined_name (archive : Archive) (entry : IszArchive.Entry) : list byte :=
  match tc_directories (ar_toc archive) !! N.to_nat (en_directory_index entry) with
  | Some directory => if len (di_name directory) =? 0 then [] else di_name directory ++ [x5c]
  | None => []
  end ++ IszArchive.en_name entry.

Definition z_archive_entries (limits : IszLimits) : result IszError (list BufferedEntry) :=
  archive ← (archive_open 0 limits tt).2;
  mret (imap (λ index entry,
    {| bu_token := N.of_nat index; bu_size_bytes := en_expanded_size entry;
       bu_name := joined_name archive entry |}) (tc_entries (ar_toc archive))).

(** The fuel of [er_read_to_vec] follows from what the reader is to expect. *)
Definition read_to_vec (reader : EntryReader) : result IszError (option (list byte)) :=
  (er_read_to_vec (S (N.to_nat (er_expanded_size reader)))
     (N.to_nat (2 * er_stored_left reader + 2)) [] (reader, tt)).2.

Definition z_archive_extract (limits : IszLimits) (token : N) : result IszError (list byte) :=
  archive ← (archive_open 0 limits tt).2;
  index ← ok_or (try_from 32 token) ZE_OutOfRange;
  reader ← (open_entry index archive).2;
  out ← read_to_vec reader;
  ok_or out ZE_DecompressionFailed.
End z_archive.

(** ** The cabinet back end

    [cabinet_entries] and [cabinet_extract] are the crate's use of ohl-mscab. *)

Class CabinetDecoder (L : Type) : Type := {
  CabError : Type;
  cabinet_entries : list byte → L → result CabError (list BufferedEntry);
  cabinet_extract : list byte → L → N → result CabError (list byte)
}.

(** ** The buffer and the source *)

(** The buffer holds the beginning of [source]. *)
Record buffers (source : list byte) (self : ContainerBuffer) : Prop := {
  bf_size : cb_size self = len source;
  bf_bytes : ∃ rest, source = cb_bytes self ++ rest;
  bf_bound : 0 < len source ≤ MAXIMUM_BUFFERED_BYTES
}.

Lemma container_buffer_new_Ok source self :
  container_buffer_new (len source) = Ok self → buffers source self ∧ cb_bytes self = [].
Proof.
  unfold container_buffer_new. destruct (N.eqb_spec (len source) 0); [done|].
  destruct (N.ltb_spec MAXIMUM_BUFFERED_BYTES (len source)); [done|]. intros [= <-].
  split; [split; [done|by exists source|cbn; lia]|done].
Qed.

Lemma buffers_complete source self :
  buffers source self → is_complete self = true → cb_bytes self = source.
Proof.
  intros [Hs [rest ->] _] Hc%N.leb_le. rewrite Hs, len_app in Hc.
  assert (rest = []) as -> by (apply len_0_nil; lia). by rewrite app_nil_r.
Qed.

(** The next read can be answered, and its answer is appended. *)
Lemma buffers_read source self maximum_read :
  buffers source self → is_complete self = false → maximum_read < 2 ^ 32 →
  let pending := next_read maximum_read self in
  pr_offset pending = len (cb_bytes self) ∧
  0 < pr_length pending ≤ N.max maximum_read 1 ∧ pr_offset pending + pr_length pending ≤ len source ∧
  len (answer source pending) = pr_length pending ∧
  ∃ self', append (answer source pending) self = (self', true) ∧ buffers source self' ∧
    len (cb_bytes self') = len (cb_bytes self) + pr_length pending.
Proof.
  intros [Hs [rest E] [Hpos Hmax]] Hc%N.leb_gt Hm. rewrite Hs in Hc. unfold next_read. cbv zeta. cbn [pr_offset pr_length].
  rewrite Hs. set (k := N.min (len source - len (cb_bytes self)) (N.max maximum_read 1)).
  assert (k < 2 ^ 32) as Hk by (unfold k; lia).
  assert (default (2 ^ 32 - 1) (try_from 32 k) = k) as Ek.
  { unfold try_from. by rewrite (proj2 (N.ltb_lt _ _) Hk). }
  rewrite Ek. split; [done|]. split; [lia|]. split; [lia|].
  unfold answer. cbn [pr_offset pr_length]. set (data := subslice _ k source).
  assert (len data = k) as Hd by (apply len_subslice; lia). split; [done|].
  unfold append. rewrite Hd, Hs, (proj2 (N.eqb_neq k 0)), (proj2 (N.ltb_ge _ _)) by lia.
  eexists. split; [done|]. cbn [orb cb_bytes cb_size]. split; [|by rewrite len_app, Hd].
  split; [done| |done]. exists (drop (N.to_nat (len (cb_bytes self) + k)) source). cbn [cb_bytes].
  assert (data = take (N.to_nat k) rest) as ->.
  { unfold data, subslice. rewrite E, len_to_nat. by rewrite drop_app_length. }
  rewrite E at 2. rewrite N2Nat.inj_add, len_to_nat, drop_app_add, <-app_assoc. by rewrite take_drop.
Qed.

(** ** What the InstallShield 3 back end offers and extracts *)

Section extract.
Context (bytes : list byte) (Hbytes : len bytes < 2 ^ 64).
#[local] Hint Extern 0 (ArchiveSource unit) => exact (z_source bytes) : typeclass_instances.
#[local] Hint Extern 0 (Cancellation unit) => exact z_cancel : typeclass_instances.
#[local] Instance z_honest : HonestSource unit bytes := slice_honest bytes.
#[local] Instance z_never : NeverCancelled unit := never_signalled_never.

Lemma opened_entries limits ar :
  opened_at (W := unit) bytes 0 limits ar → len (tc_entries (ar_toc ar)) ≤ 65535 ∧
  Forall (entry_ok (ar_header ar) limits) (tc_entries (ar_toc ar)).
Proof.
  intros (Hlim & Hh & _ & (v & v' & Htoc) & _).
  pose proof (wp_Ok _ _ _ _ _ _ (wp_toc_parse _ _ _ v) Htoc) as Hok.
  split; [|by destruct Hok]. rewrite (to_entries _ _ _ Hok). clear Hok Htoc.
  unfold archive_header_parse in Hh. rewrite Hlim in Hh. cbn [mbind result_bind] in Hh. rewrite !guard_seq in Hh.
  destruct Hh as (_ & _ & Hh). cbv zeta in Hh.
  destruct (archive_header_validate _ limits) eqn:Ev; [|done]. injection Hh as <-.
  unfold archive_header_validate in Ev. rewrite !guard_seq in Ev. destruct Ev as (_ & _ & He%N.ltb_ge & _).
  etrans; [exact He|]. unfold isz_limits_validate in Hlim. rewrite guard_err_Ok, negb_false_iff in Hlim.
  rewrite !andb_true_iff, !N.leb_le in Hlim. cbn in Hlim. lia.
Qed.

(** What extracting an entry of an opened archive gives. *)
Definition extracted (limits : IszLimits) (ar : Archive) (entry : IszArchive.Entry)
    (r : result IszError (list byte)) : Prop :=
  match r with
  | Ok out => entry_contents bytes ar entry out ∧ len out = en_expanded_size entry
  | Err e =>
      e = ZE_SplitArchiveUnsupported ∧ spans_volumes entry = true ∨
      e = ZE_LimitExceeded ZL_TotalExpandedBytes ∧ zl_total_expanded_bytes limits < en_expanded_size entry ∨
      e = ZE_DecompressionFailed ∧ (∀ out, ¬ entry_contents bytes ar entry out) ∨
      e = ZE_SizeMismatch ∧ (∀ out, entry_contents bytes ar entry out → len out ≠ en_expanded_size entry)
  end.

Lemma open_entry_exact limits ar i entry :
  opened_at (W := unit) bytes 0 limits ar → ah_archive_size (ar_header ar) ≤ len bytes →
  tc_entries (ar_toc ar) !! i = Some entry →
  match (open_entry (N.of_nat i) ar).2 with
  | Ok rd => fresh_reader ar entry rd
  | Err e =>
      e = ZE_SplitArchiveUnsupported ∧ spans_volumes entry = true ∨
      e = ZE_LimitExceeded ZL_TotalExpandedBytes ∧ zl_total_expanded_bytes limits < en_expanded_size entry
  end.
Proof.
  intros Hop Hin Hi. destruct (opened_entries _ _ Hop) as [_ Hall].
  destruct Hop as (_ & _ & _ & _ & Hb & El & Er).
  pose proof (proj1 (list.Forall_forall _ _) Hall entry (list_elem_of_lookup_2 _ _ _ Hi)) as Hok.
  unfold open_entry. rewrite (M_bind_step get _ _ _ _ eq_refl).
  assert (toc_entry (ar_toc ar) (N.of_nat i) = Ok entry) as Et.
  { unfold toc_entry. by rewrite Nat2N.id, Hi. }
  rewrite Et. rewrite (M_bind_step (lift (Ok entry)) _ ar ar entry) by done.
  destruct (spans_volumes entry) eqn:Esv; [by left|]. cbv zeta. rewrite El, Er.
  rewrite (proj2 (N.ltb_ge _ _)) by (by destruct Hok).
  destruct (N.ltb_spec (zl_total_expanded_bytes limits) (en_expanded_size entry)) as [|Htot]; [by right|].
  rewrite (M_bind_step (modify _) _ ar _ tt eq_refl).
  assert (checked_add 64 (ar_base ar) (en_offset entry) = Some (ar_base ar + en_offset entry)) as ->.
  { unfold checked_add. destruct Hok. by rewrite (proj2 (N.ltb_lt _ _)) by lia. }
  cbn. unfold fresh_reader. cbn. by rewrite ?El.
Qed.

(** The entries that are offered, and what extracting one of them gives. *)
Lemma z_archive_offers limits l :
  z_archive_entries bytes limits = Ok l → ∃ ar,
    (archive_open 0 limits tt).2 = Ok ar ∧
    l = imap (λ index entry,
      {| bu_token := N.of_nat index; bu_size_bytes := en_expanded_size entry;
         bu_name := joined_name ar entry |}) (tc_entries (ar_toc ar)) ∧
    (ah_archive_size (ar_header ar) ≤ len bytes → ∀ i entry, tc_entries (ar_toc ar) !! i = Some entry →
      extracted limits ar entry (z_archive_extract bytes limits (N.of_nat i))).
Proof.
  unfold z_archive_entries. destruct (archive_open 0 limits tt) as [w1 [ar|e]] eqn:Eo; [|done].
  cbn [snd mbind result_bind]. intros [= <-]. exists ar. split; [done|]. split; [done|].
  intros Hin i entry Hi. pose proof (archive_open_inv bytes Hbytes 0 limits tt w1 ar Eo Hin) as Hop.
  destruct (opened_entries _ _ Hop) as [Hcount Hall].
  assert (N.of_nat i < 2 ^ 32) as Hi32 by (apply lookup_lt_Some in Hi; unfold len in Hcount; lia).
  unfold z_archive_extract. rewrite Eo. cbn [snd mbind result_bind].
  unfold try_from. rewrite (proj2 (N.ltb_lt _ _) Hi32). cbn [ok_or mbind result_bind].
  pose proof (open_entry_exact limits ar i entry Hop Hin Hi) as Hoe.
  destruct (open_entry (N.of_nat i) ar).2 as [rd|e]; cbn [mbind result_bind].
  2:{ destruct Hoe; [by left|by right; left]. }
  pose proof Hop as (Hlim & _ & _ & _ & Hb & El & _). rewrite <-El in Hlim, Hall.
  pose proof (proj1 (list.Forall_forall _ _) Hall entry (list_elem_of_lookup_2 _ _ _ Hi)) as Hok.
  pose proof Hoe as (_ & Hl & Hx & _). unfold read_to_vec. rewrite Hl, Hx.
  pose proof (fresh_reader_reads bytes Hbytes ar entry rd (S (N.to_nat (en_expanded_size entry)))
    (N.to_nat (2 * en_stored_size entry + 2)) tt Hlim Hok ltac:(rewrite Hb; lia) Hoe ltac:(lia) ltac:(lia)) as Hr.
  destruct (snd (er_read_to_vec _ _ [] (rd, tt))) as [[out|]|e]; cbn [mbind result_bind ok_or]; [done..|].
  unfold extracted. destruct Hr; [by do 2 right; left|by do 3 right].
Qed.
End extract.
