(* ===== verification/BackendDispatcher.v ===== *)
(** * The container dispatcher

    [crates/ohl-parser-backends/src/dispatcher.rs]: the dispatcher of the shipped
    worker. It recognises the container, offers its entries in batches and
    streams one entry at a time, over the window or over a buffered container. *)

From stdpp Require Import gmap sets.
From S2P Require Export Service BackendBuffer BackendSpelling BackendWise.

Definition CHUNK_BYTES : N := 64 * 1024.
Definition BATCH_ENTRIES : N := 64.
Definition DETECT_BYTES : N := 4.

Inductive ContainerKind : Type := CK_WiseOverlay | CK_MicrosoftCabinet | CK_InstallShieldZ.

#[export] Instance ContainerKind_eq_dec : EqDecision ContainerKind.
Proof. solve_decision. Defined.

Record BackendLimits (L : Type) : Type := {
  bl_wise : WiseLimits;
  bl_cabinet : L;
  bl_z_archive : IszLimits;
  bl_maximum_entries : N
}.
Arguments bl_wise {L} _.
Arguments bl_cabinet {L} _.
Arguments bl_z_archive {L} _.
Arguments bl_maximum_entries {L} _.

Inductive Plan : Type :=
| PL_WiseStream (compressed_offset declared_crc32 size_bytes : N)
| PL_Buffered (token size_bytes : N).

Inductive Container (I : Type) : Type :=
| CT_Wise (backend : WiseBackend I)
| CT_Cabinet (buffer : ContainerBuffer)
| CT_ZArchive (buffer : ContainerBuffer).
Arguments CT_Wise {I} _.
Arguments CT_Cabinet {I} _.
Arguments CT_ZArchive {I} _.

Inductive EnumerateStage : Type := ES_Detect | ES_Load | ES_Walk | ES_Emit (from : N) | ES_Done.

Record StreamOp : Type := {
  so_plan : Plan;
  so_emitted : N;
  so_buffered : list byte;
  so_started : bool;
  so_verified : bool
}.

Inductive Active : Type :=
| AC_None
| AC_Enumerate (stage : EnumerateStage)
| AC_Stream (operation : StreamOp).

Inductive Emission : Type :=
| EM_NeedRead (offset length : N)
| EM_Batch (from to : N)
| EM_Chunk (length : N)
| EM_Complete.

(** ** [SpellingArena]

    The slices handed out are disjoint from what is free, so they keep the bytes
    they were given. *)
Record SpellingArena : Type := { sa_free : option (list byte) }.

Definition arena_new (storage : list byte) : SpellingArena := {| sa_free := Some storage |}.

Definition arena_put (bytes : list byte) (self : SpellingArena) : SpellingArena * option (list byte) :=
  match sa_free self with
  | None => (self, None)
  | Some free =>
      if len free <? len bytes then (self, None)
      else ({| sa_free := Some (drop (length bytes) free) |}, Some bytes)
  end.

(** ** [ContainerDispatcher] *)

Record ContainerDispatcher (I L : Type) : Type := {
  dp_limits : BackendLimits L;
  dp_arena : SpellingArena;
  dp_window : option WindowSource;
  dp_container : option (Container I);
  dp_kind : option ContainerKind;
  dp_entries : list EntryBatchEntry;
  dp_plans : list Plan;
  dp_active : Active;
  dp_reader : option (StreamReader I);
  dp_chunk : list byte;
  dp_armed : option PendingRead;
  dp_unsupported : bool
}.
Arguments dp_limits {I L} _.
Arguments dp_arena {I L} _.
Arguments dp_window {I L} _.
Arguments dp_container {I L} _.
Arguments dp_kind {I L} _.
Arguments dp_entries {I L} _.
Arguments dp_plans {I L} _.
Arguments dp_active {I L} _.
Arguments dp_reader {I L} _.
Arguments dp_chunk {I L} _.
Arguments dp_armed {I L} _.
Arguments dp_unsupported {I L} _.

Section dispatcher.
Context {I : Type} `{Inflater I} {L : Type} `{CabinetDecoder L}.
Abbreviation D := (ContainerDispatcher I L).
Abbreviation DM A := (M D (Stop DispatchError) A).

Definition dispatcher_new (storage : list byte) (limits : BackendLimits L) : D :=
  {| dp_limits := limits; dp_arena := arena_new storage; dp_window := None; dp_container := None;
     dp_kind := None; dp_entries := []; dp_plans := []; dp_active := AC_None; dp_reader := None;
     dp_chunk := replicate (N.to_nat CHUNK_BYTES) x00; dp_armed := None; dp_unsupported := false |}.

Definition set_arena (x : SpellingArena) (s : D) : D :=
  let (a, _, c, d, e, f, g, h, i, j, k, l) := s in Build_ContainerDispatcher I L a x c d e f g h i j k l.
Definition set_window (x : option WindowSource) (s : D) : D :=
  let (a, b, _, d, e, f, g, h, i, j, k, l) := s in Build_ContainerDispatcher I L a b x d e f g h i j k l.
Definition set_container (x : option (Container I)) (s : D) : D :=
  let (a, b, c, _, e, f, g, h, i, j, k, l) := s in Build_ContainerDispatcher I L a b c x e f g h i j k l.
Definition set_kind (x : option ContainerKind) (s : D) : D :=
  let (a, b, c, d, _, f, g, h, i, j, k, l) := s in Build_ContainerDispatcher I L a b c d x f g h i j k l.
Definition push_entry (x : EntryBatchEntry) (y : Plan) (s : D) : D :=
  let (a, b, c, d, e, f, g, h, i, j, k, l) := s in
  Build_ContainerDispatcher I L a b c d e (f ++ [x]) (g ++ [y]) h i j k l.
Definition set_active (x : Active) (s : D) : D :=
  let (a, b, c, d, e, f, g, _, i, j, k, l) := s in Build_ContainerDispatcher I L a b c d e f g x i j k l.
Definition set_reader (x : option (StreamReader I)) (s : D) : D :=
  let (a, b, c, d, e, f, g, h, _, j, k, l) := s in Build_ContainerDispatcher I L a b c d e f g h x j k l.
Definition set_chunk (x : list byte) (s : D) : D :=
  let (a, b, c, d, e, f, g, h, i, _, k, l) := s in Build_ContainerDispatcher I L a b c d e f g h i x k l.
Definition set_armed (x : option PendingRead) (s : D) : D :=
  let (a, b, c, d, e, f, g, h, i, j, _, l) := s in Build_ContainerDispatcher I L a b c d e f g h i j x l.
Definition set_unsupported (x : bool) (s : D) : D :=
  let (a, b, c, d, e, f, g, h, i, j, k, _) := s in Build_ContainerDispatcher I L a b c d e f g h i j k x.

Definition refuse {S A} (error : DispatchError) : M S (Stop DispatchError) A := throw (Fail error).
Definition failed {S A} : M S (Stop DispatchError) A := refuse DE_Failed.

(** [.ok_or(DispatchError::Failed)?] and [.map_err(|_| DispatchError::Failed)?]. *)
Definition expect {S A} (o : option A) : M S (Stop DispatchError) A := lift (ok_or o (Fail DE_Failed)).
Definition expect_ok {S E A} (r : result E A) : M S (Stop DispatchError) A :=
  lift (map_err (λ _, Fail DE_Failed) r).

(** A call into the Wise crate whose [Result] is matched. *)
Definition called {A} (r : result (Stop WiseError) A) : DM (result WiseError A) :=
  match r with
  | Ok a => mret (Ok a)
  | Err (Fail error) => mret (Err error)
  | Err Panic => throw Panic
  | Err OutOfFuel => throw OutOfFuel
  end.

(** *** Reads *)

Definition arm (pending : PendingRead) : DM Emission :=
  modify (set_armed (Some pending));;
  mret (EM_NeedRead (pr_offset pending) (pr_length pending)).

Definition arm_window : DM Emission :=
  self ← get;
  window ← expect (dp_window self);
  let '(window, pending) := take_pending window in
  modify (set_window (Some window));;
  pending ← expect pending;
  arm pending.

(** *** Recognition *)

(** [b"MSCF"], the first word of an InstallShield 3 signature, [b"MZ"]. *)
Definition kind_of (head : list byte) : option ContainerKind :=
  if bool_decide (head = [x4d; x53; x43; x46]) then Some CK_MicrosoftCabinet
  else if bool_decide (head = le_bytes 4 SIGNATURE_WORD_1) then Some CK_InstallShieldZ
  else if bool_decide (take 2 head = [x4d; x5a]) then Some CK_WiseOverlay
  else None.

Definition refuse_container {A} : DM A :=
  modify (set_unsupported true);;
  refuse DE_Unsupported.

Definition new_container (kind : ContainerKind) (source_size : N) (limits : BackendLimits L)
  : result (Stop DispatchError) (Container I) :=
  match kind with
  | CK_WiseOverlay => Ok (CT_Wise (wise_new (bl_wise limits)))
  | CK_MicrosoftCabinet =>
      CT_Cabinet <$> map_err (λ _, Fail DE_Unsupported) (container_buffer_new source_size)
  | CK_InstallShieldZ =>
      CT_ZArchive <$> map_err (λ _, Fail DE_Unsupported) (container_buffer_new source_size)
  end.

Definition detect : DM (option Emission) :=
  self ← get;
  window ← expect (dp_window self);
  let '(moved, head) := window_read 0 DETECT_BYTES window in
  modify (set_window (Some moved));;
  head ← called head;
  match head with
  | Err _ => emission ← arm_window; mret (Some emission)
  | Ok head =>
      if negb (len head =? DETECT_BYTES) then refuse_container
      else
        match kind_of head with
        | None => refuse_container
        | Some kind =>
            modify (set_kind (Some kind));;
            container ← lift (new_container kind (ws_source_size window) (dp_limits self));
            modify (set_container (Some container));;
            modify (set_active (AC_Enumerate
              match kind with CK_WiseOverlay => ES_Walk | _ => ES_Load end));;
            mret None
        end
  end.

(** *** Offers *)

Definition offer (token size_bytes : N) (spelling : list byte) (plan : Plan) : DM unit :=
  self ← get;
  let '(arena, stored) := arena_put spelling (dp_arena self) in
  modify (set_arena arena);;
  stored ← expect stored;
  archive_path ← expect_ok (archive_spelling_new stored);
  modify (push_entry {| be_source_token := token; be_size_bytes := size_bytes;
                        be_archive_path := archive_path |} plan).

Fixpoint offer_buffered (entries : list BufferedEntry) (spellings : SpellingSet) : DM unit :=
  match entries with
  | [] => mret tt
  | entry :: entries =>
      self ← get;
      if bl_maximum_entries (dp_limits self) <=? len (dp_entries self) then mret tt
      else
        match accept (bu_name entry) spellings with
        | (spellings, Err _) => offer_buffered entries spellings
        | (spellings, Ok spelling) =>
            offer (bu_token entry) (bu_size_bytes entry) spelling
              (PL_Buffered (bu_token entry) (bu_size_bytes entry));;
            offer_buffered entries spellings
        end
  end.

(** The name [offer_wise] tries for an entry. *)
Definition wise_name (backend : WiseBackend I) (entry : WiseEntry) : list byte :=
  match recorded_name backend (we_token entry) with
  | Some bytes => bytes
  | None => unnamed_spelling (default (2 ^ 32 - 1) (try_from 32 (we_token entry - UNNAMED_TOKEN_BASE)))
  end.

(** The loop of [offer_wise] that collects. *)
Fixpoint collect_offers (maximum : N) (backend : WiseBackend I) (entries : list WiseEntry)
    (spellings : SpellingSet) (offers : list (WiseEntry * list byte)) : list (WiseEntry * list byte) :=
  match entries with
  | [] => offers
  | entry :: entries =>
      if maximum <=? len offers then offers
      else
        match accept (wise_name backend entry) spellings with
        | (spellings, Ok spelling) =>
            collect_offers maximum backend entries spellings (offers ++ [(entry, spelling)])
        | (spellings, Err _) => collect_offers maximum backend entries spellings offers
        end
  end.

(** ... and the one that offers. *)
Fixpoint offer_all (offers : list (WiseEntry * list byte)) : DM unit :=
  match offers with
  | [] => mret tt
  | (entry, spelling) :: offers =>
      offer (we_token entry) (we_size_bytes entry) spelling
        (PL_WiseStream (we_compressed_offset entry) (we_declared_crc32 entry) (we_size_bytes entry));;
      offer_all offers
  end.

Definition offer_wise : DM unit :=
  self ← get;
  match dp_container self with
  | Some (CT_Wise backend) =>
      offer_all (collect_offers (bl_maximum_entries (dp_limits self)) backend (wise_entries backend)
                   spelling_set_new [])
  | _ => modify (set_container None);; failed
  end.

(** *** The stages of an enumeration *)

Definition load : DM (option Emission) :=
  self ← get;
  window ← expect (dp_window self);
  let maximum_read := default (2 ^ 32 - 1) (try_from 32 (window_capacity window)) in
  match dp_container self with
  | Some (CT_Cabinet buffer) =>
      if negb (is_complete buffer) then
        emission ← arm (next_read maximum_read buffer); mret (Some emission)
      else
        entries ← expect_ok (cabinet_entries (cb_bytes buffer) (bl_cabinet (dp_limits self)));
        offer_buffered entries spelling_set_new;;
        modify (set_active (AC_Enumerate (ES_Emit 0)));;
        mret None
  | Some (CT_ZArchive buffer) =>
      if negb (is_complete buffer) then
        emission ← arm (next_read maximum_read buffer); mret (Some emission)
      else
        entries ← expect_ok (z_archive_entries (cb_bytes buffer) (bl_z_archive (dp_limits self)));
        offer_buffered entries spelling_set_new;;
        modify (set_active (AC_Enumerate (ES_Emit 0)));;
        mret None
  | _ => failed
  end.

Definition walk : DM (option Emission) :=
  self ← get;
  match dp_container self with
  | Some (CT_Wise backend) =>
      modify (set_container None);;
      window ← expect (dp_window self);
      let '((backend, window), advance) := wise_advance (backend, window) in
      modify (set_window (Some window));;
      modify (set_container (Some (CT_Wise backend)));;
      advance ← called advance;
      match advance with
      | Ok AD_Working => mret None
      | Ok AD_NeedRead => emission ← arm_window; mret (Some emission)
      | Ok AD_Ready =>
          offer_wise;;
          modify (set_active (AC_Enumerate (ES_Emit 0)));;
          mret None
      | Err _ => failed
      end
  | _ => modify (set_container None);; failed
  end.

(** *** Streams *)

Definition so_put_emitted (emitted : N) (self : StreamOp) : StreamOp :=
  {| so_plan := so_plan self; so_emitted := emitted; so_buffered := so_buffered self;
     so_started := so_started self; so_verified := so_verified self |}.
Definition so_put_flags (started verified : bool) (self : StreamOp) : StreamOp :=
  {| so_plan := so_plan self; so_emitted := so_emitted self; so_buffered := so_buffered self;
     so_started := started; so_verified := verified |}.

(** A step of a stream, over the operation and the dispatcher it was taken from. *)
Abbreviation SM A := (M (StreamOp * D) (Stop DispatchError) A).

Definition on_operation (f : StreamOp → StreamOp) : SM unit := modify (λ s, (f s.1, s.2)).
Definition on_dispatcher {A} (m : DM A) : SM A := zoom snd (λ d s, (s.1, d)) m.

Definition buffered_step (size_bytes : N) : SM Emission :=
  s ← get;
  let operation := s.1 in
  if size_bytes <=? so_emitted operation then mret EM_Complete
  else
    let start := so_emitted operation in
    let end_ := N.min (saturating_add 64 start CHUNK_BYTES) (len (so_buffered operation)) in
    if end_ <=? start then failed
    else if len (dp_chunk s.2) <? end_ - start then throw Panic
    else
      on_dispatcher (modify (λ self,
        set_chunk (splice 0 (subslice start (end_ - start) (so_buffered operation)) (dp_chunk self)) self));;
      on_operation (so_put_emitted (saturating_add 64 start (end_ - start)));;
      mret (EM_Chunk (end_ - start)).

(** A method of the reader over the window; both exist where it is called. *)
Definition with_stream {A} (m : W (StreamReader I * WindowSource) A) : DM (result WiseError A) :=
  self ← get;
  reader ← expect (dp_reader self);
  window ← expect (dp_window self);
  let '((reader, window), res) := m (reader, window) in
  modify (set_reader (Some reader));;
  modify (set_window (Some window));;
  called res.

Definition reader_finished : DM bool :=
  self ← get;
  reader ← expect (dp_reader self);
  mret (sr_finished reader).

(** The end of a stream: nothing is delivered on trust. *)
Definition conclude_stream (declared_crc32 size_bytes : N) : SM Emission :=
  metrics ← on_dispatcher (with_stream stream_finish);
  match metrics with
  | Ok metrics =>
      s ← get;
      if negb (is_match (sm_checksum metrics)) ||
         (negb (declared_crc32 =? 0) && negb (declared_crc32 =? sm_computed_crc32 metrics)) ||
         negb (sm_inflated_len metrics =? size_bytes) || negb (so_emitted s.1 =? size_bytes)
      then failed
      else
        on_operation (λ operation, so_put_flags (so_started operation) true operation);;
        mret EM_Complete
  | Err WE_SourceFailed => on_dispatcher arm_window
  | Err _ => failed
  end.

(** The loop goes round at most once more: after an empty read of a finished
    stream. *)
Definition inflate_step_of (declared_crc32 size_bytes : N) : SM Emission :=
  finished ← on_dispatcher reader_finished;
  if finished : bool then conclude_stream declared_crc32 size_bytes
  else
    s ← get;
    written ← on_dispatcher (with_stream (stream_read (len (dp_chunk s.2))));
    match written with
    | Ok written =>
        if len written =? 0 then
          finished ← on_dispatcher reader_finished;
          if negb finished then failed else conclude_stream declared_crc32 size_bytes
        else
          on_dispatcher (modify (λ self, set_chunk (splice 0 written (dp_chunk self)) self));;
          on_operation (λ operation,
            so_put_emitted (saturating_add 64 (so_emitted operation) (len written)) operation);;
          s ← get;
          if size_bytes <? so_emitted s.1 then failed
          else mret (EM_Chunk (len written))
    | Err WE_SourceFailed => on_dispatcher arm_window
    | Err _ => failed
    end.

Definition wise_step (compressed_offset declared_crc32 size_bytes : N) : SM Emission :=
  s ← get;
  if so_verified s.1 then mret EM_Complete
  else
    (match dp_reader s.2 with
     | None => on_dispatcher (modify (λ self,
         set_reader (Some (reader_new compressed_offset (bl_wise (dp_limits self)))) self))
     | Some _ => mret tt
     end);;
    (if so_started s.1 then mret tt
     else
       on_dispatcher (modify (λ self, set_reader (restart compressed_offset <$> dp_reader self) self));;
       on_operation (λ operation, so_put_flags true (so_verified operation) operation));;
    inflate_step_of declared_crc32 size_bytes.

Definition stream_step : DM Emission := λ self,
  match dp_active self with
  | AC_Stream operation =>
      let step := match so_plan operation with
                  | PL_Buffered _ size_bytes => buffered_step size_bytes
                  | PL_WiseStream compressed_offset declared_crc32 size_bytes =>
                      wise_step compressed_offset declared_crc32 size_bytes
                  end in
      let '((operation, self), emission) := step (operation, set_active AC_None self) in
      (set_active (AC_Stream operation) self, emission)
  | _ => failed (set_active AC_None self)
  end.

Definition extract_of (container : option (Container I)) (limits : BackendLimits L) (token : N)
  : result (Stop DispatchError) (list byte) :=
  match container with
  | Some (CT_Cabinet buffer) =>
      map_err (λ _, Fail DE_Failed) (cabinet_extract (cb_bytes buffer) (bl_cabinet limits) token)
  | Some (CT_ZArchive buffer) =>
      map_err (λ _, Fail DE_Failed) (z_archive_extract (cb_bytes buffer) (bl_z_archive limits) token)
  | _ => Err (Fail DE_Failed)
  end.

Definition begin_stream (token : N) : DM N :=
  self ← get;
  found ← expect (list_find (λ entry, be_source_token entry = token) (dp_entries self));
  plan ← expect (dp_plans self !! found.1);
  operation ← lift match plan with
    | PL_WiseStream _ _ size_bytes => Ok (size_bytes, [])
    | PL_Buffered token size_bytes =>
        bytes ← extract_of (dp_container self) (dp_limits self) token;
        if negb (len bytes =? size_bytes) then Err (Fail DE_Failed) else Ok (size_bytes, bytes)
    end;
  modify (set_active (AC_Stream {| so_plan := plan; so_emitted := 0; so_buffered := operation.2;
                                   so_started := false; so_verified := false |}));;
  mret operation.1.

(** *** The state machine *)

(** One turn of [advance]'s loop; [inr] leaves it. *)
Definition advance_turn : DM (unit + Emission) :=
  self ← get;
  let again (emission : option Emission) : unit + Emission :=
    match emission with Some emission => inr emission | None => inl tt end in
  match dp_active self with
  | AC_Stream _ => emission ← stream_step; mret (inr emission)
  | AC_Enumerate ES_Detect => emission ← detect; mret (again emission)
  | AC_Enumerate ES_Load => emission ← load; mret (again emission)
  | AC_Enumerate ES_Walk => emission ← walk; mret (again emission)
  | AC_Enumerate (ES_Emit from) =>
      let to := N.min (saturating_add 64 from BATCH_ENTRIES) (len (dp_entries self)) in
      if to <=? from then
        modify (set_active (AC_Enumerate ES_Done));;
        mret (inr EM_Complete)
      else
        modify (set_active (AC_Enumerate (ES_Emit to)));;
        mret (inr (EM_Batch from to))
  | AC_None | AC_Enumerate ES_Done => failed
  end.

(** [advance]; [fuel] bounds the turns. *)
Fixpoint dispatch_advance (fuel : nat) : DM Emission :=
  match fuel with
  | O => throw OutOfFuel
  | S fuel =>
      turn ← advance_turn;
      match turn with inl _ => dispatch_advance fuel | inr emission => mret emission end
  end.

(** *** [impl Dispatcher] *)

Definition dispatch_begin (operation : Operation) (source_token : N) (source_policy : SourceReadPolicy)
  : DM N :=
  self ← get;
  if dp_unsupported self then refuse DE_Unsupported
  else
    (match dp_window self with
     | Some _ => mret tt
     | None =>
         let capacity := N.min (maximum_read_bytes source_policy) DEFAULT_WINDOW_BYTES in
         modify (set_window (Some (window_new (source_size source_policy) capacity)))
     end);;
    modify (set_armed None);;
    match operation with
    | Op_Enumerate =>
        modify (set_active (AC_Enumerate
          (if len (dp_entries self) =? 0 then
             match dp_kind self with
             | None => ES_Detect
             | Some CK_WiseOverlay => ES_Walk
             | Some _ => ES_Load
             end
           else ES_Emit 0)));;
        mret 0
    | Op_Stream => begin_stream source_token
    end.

(** What a step borrows from the dispatcher. *)
Definition action_of (emission : Emission) : DM DispatchAction :=
  self ← get;
  match emission with
  | EM_NeedRead offset length => mret (DA_NeedRead offset length)
  | EM_Batch from to =>
      if (to <? from) || (len (dp_entries self) <? to) then throw Panic
      else mret (DA_EntryBatch (subslice from (to - from) (dp_entries self)))
  | EM_Chunk length =>
      if len (dp_chunk self) <? length then throw Panic
      else mret (DA_DataChunk (take (N.to_nat length) (dp_chunk self)))
  | EM_Complete => mret DA_Complete
  end.

Definition dispatch_step (fuel : nat) : DM DispatchAction :=
  emission ← dispatch_advance fuel;
  action_of emission.

Definition accept_read_reply (reply : ReadReply) : DM unit :=
  self ← get;
  modify (set_armed None);;
  armed ← expect (dp_armed self);
  if negb (len (rp_data reply) =? pr_length armed) then failed
  else
    match dp_active self with
    | AC_Enumerate ES_Load =>
        match dp_container self with
        | Some (CT_Cabinet buffer) =>
            let '(buffer, taken) := append (rp_data reply) buffer in
            modify (set_container (Some (CT_Cabinet buffer)));;
            if taken : bool then mret tt else failed
        | Some (CT_ZArchive buffer) =>
            let '(buffer, taken) := append (rp_data reply) buffer in
            modify (set_container (Some (CT_ZArchive buffer)));;
            if taken : bool then mret tt else failed
        | _ => failed
        end
    | _ =>
        window ← expect (dp_window self);
        let '(window, taken) := deliver (pr_offset armed) (rp_data reply) window in
        modify (set_window (Some window));;
        if taken : bool then mret tt else failed
    end.

Definition dispatch_cancel (self : D) : D :=
  let window := match dp_window self with
                | Some window => Some (take_pending window).1
                | None => None
                end in
  set_window window (set_armed None (set_active AC_None self)).

Definition dispatch_end (self : D) : D := set_armed None (set_active AC_None self).
End dispatcher.
