(* ===== verification/BackendServe.v ===== *)
(** * A dispatcher, the parent that serves it, and what it offers

    The parent answers the reads of a dispatcher of [BackendDispatcher.v] from
    the source and collects what it is sent; its batches are the offers, and the
    offers are what the loops over the entries of a container take. *)

From stdpp Require Import gmap sets.
From S2P Require Export BackendDispatcher BackendReady.

(** ** The beginnings of a method *)

Section steps.
Context {S E A B : Type}.

Lemma get_bind (k : S → M S E B) s : (get ≫= k) s = k s s.
Proof. done. Qed.

Lemma modify_bind f (k : unit → M S E B) (s : S) : (modify f ≫= k) s = k tt (f s).
Proof. done. Qed.

Lemma mret_bind a (k : A → M S E B) (s : S) : (mret a ≫= k) s = k a s.
Proof. done. Qed.

Lemma expect_bind a (k : A → M S (Stop DispatchError) B) s : (expect (Some a) ≫= k) s = k a s.
Proof. done. Qed.

Lemma expect_ok_bind {F} a (k : A → M S (Stop DispatchError) B) s : (expect_ok (Ok a : result F A) ≫= k) s = k a s.
Proof. done. Qed.
End steps.

(** Executes the statements whose outcome is known. *)
Ltac run := repeat first [rewrite get_bind | rewrite modify_bind | rewrite mret_bind | rewrite expect_bind
  | rewrite expect_ok_bind].

Section serve.
Context {I : Type} `{Inflater I} {L : Type} `{CabinetDecoder L} (source : list byte).
Abbreviation D := (ContainerDispatcher I L).
Abbreviation DM A := (M D (Stop DispatchError) A).

(** What the parent has been sent so far, and how an operation ended. *)
Abbreviation served_state := (D * list DispatchAction)%type.
Abbreviation outcome := (served_state + served_state * result (Stop DispatchError) unit)%type.

Definition reply_to (offset length : N) : ReadReply :=
  {| rp_read_sequence := 1; rp_status := PS_Ok; rp_data := subslice offset length source |}.

(** The parent's answer to an action. *)
Definition respond (action : DispatchAction) (s : served_state) : outcome :=
  match action with
  | DA_NeedRead offset length =>
      match accept_read_reply (reply_to offset length) s.1 with
      | (d, Ok _) => inl (d, s.2)
      | (d, Err e) => inr ((d, s.2), Err e)
      end
  | DA_Complete => inr (s, Ok tt)
  | action => inl (s.1, s.2 ++ [action])
  end.

(** A step of the dispatcher and the answer to it. *)
Definition step_turn (fuel : nat) (s : served_state) : outcome :=
  match dispatch_step fuel s.1 with
  | (d, Ok action) => respond action (d, s.2)
  | (d, Err e) => inr ((d, s.2), Err e)
  end.

(** From dispatcher [d] the operation ends in [r], given the fuel it takes. *)
Definition serves_to (d : D) (r : served_state * result (Stop DispatchError) unit) : Prop :=
  ∃ n, ∀ fuel, (n ≤ fuel)%nat → turns fuel (step_turn fuel) (d, []) = inr r.

(** The same, one turn of the dispatcher's loop at a time. *)
Definition emit (emission : Emission) (s : served_state) : outcome :=
  match action_of emission s.1 with
  | (d, Ok action) => respond action (d, s.2)
  | (d, Err e) => inr ((d, s.2), Err e)
  end.

Definition loop_turn (s : served_state) : outcome :=
  match advance_turn s.1 with
  | (d, Ok (inl _)) => inl (d, s.2)
  | (d, Ok (inr emission)) => emit emission (d, s.2)
  | (d, Err e) => inr ((d, s.2), Err e)
  end.

Lemma step_turn_S fuel s :
  step_turn (S fuel) s =
  match advance_turn s.1 with
  | (d, Ok (inl _)) => step_turn fuel (d, s.2)
  | _ => loop_turn s
  end.
Proof.
  unfold step_turn, loop_turn, dispatch_step. cbn [dispatch_advance].
  unfold mbind, M_bind. destruct (advance_turn s.1) as [d [[[]|em]|e]]; done.
Qed.

(** What a step takes several turns for, turn by turn. *)
Lemma step_of_turns n fuel s r :
  turns n loop_turn s = inr r → (n ≤ fuel)%nat →
  step_turn fuel s = inr r ∨ ∃ s' m, step_turn fuel s = inl s' ∧ (m < n)%nat ∧ turns m loop_turn s' = inr r.
Proof.
  revert fuel s. induction n as [|n IH]; intros fuel s En Hle; [done|].
  destruct fuel as [|fuel]; [lia|]. cbn [turns] in En. rewrite step_turn_S.
  destruct (advance_turn s.1) as [d [[[]|em]|e]] eqn:Ea.
  - unfold loop_turn in En. rewrite Ea in En. destruct (IH fuel (d, s.2) En ltac:(lia)) as [|(s' & m & ? & ? & ?)]; [by left|].
    right. exists s', m. split; [done|]. split; [lia|done].
  - destruct (loop_turn s) as [s'|r'] eqn:El; [|left; congruence].
    right. exists s', n. split; [done|]. split; [lia|done].
  - left. destruct (loop_turn s) as [s'|r'] eqn:El; [|congruence].
    unfold loop_turn in El. by rewrite Ea in El.
Qed.

Lemma steps_of_turns n fuel k s r :
  turns n loop_turn s = inr r → (n ≤ fuel)%nat → (n ≤ k)%nat → turns k (step_turn fuel) s = inr r.
Proof.
  revert k s. induction n as [n IH] using lt_wf_ind; intros k s En Hf Hk.
  destruct n as [|n]; [done|]. destruct k as [|k]; [lia|]. cbn [turns].
  destruct (step_of_turns _ fuel s r En Hf) as [->|(s' & m & -> & Hm & Em)]; [done|].
  apply (IH m); [lia|done|lia|lia].
Qed.

Abbreviation leads := (leads loop_turn).

Lemma serves_of_leads d r : leads (d, []) (inr r) → serves_to d r.
Proof. intros [n En]. exists n. intros fuel Hf. by apply (steps_of_turns n). Qed.

(** An operation ends in one way. *)
Lemma serves_det d r r' : serves_to d r → serves_to d r' → r = r'.
Proof.
  intros [n Hn] [m Hm]. assert (inr r = inr r' :> outcome) as [= ->]; [|done].
  rewrite <-(Hn (n + m)%nat), <-(Hm (n + m)%nat); [done|lia..].
Qed.

(** ** Batches *)

Lemma set_active_twice x y (d : D) : set_active x (set_active y d) = set_active x d.
Proof. by destruct d. Qed.

(** Everything left is sent, in batches that are neither empty nor too large. *)
Lemma emit_leads d out from :
  dp_active d = AC_Enumerate (ES_Emit from) → from ≤ len (dp_entries d) → len (dp_entries d) < 2 ^ 63 →
  ∃ batches,
    leads (d, out) (inr ((set_active (AC_Enumerate ES_Done) d, out ++ (DA_EntryBatch <$> batches)), Ok tt)) ∧
    concat batches = drop (N.to_nat from) (dp_entries d) ∧
    Forall (λ batch, 0 < len batch ≤ BATCH_ENTRIES) batches.
Proof.
  remember (N.to_nat (len (dp_entries d) - from)) as n eqn:En. revert d out from En.
  induction n as [n IH] using lt_wf_ind; intros d out from En Ha Hle Hfit. subst n.
  set (to := N.min (saturating_add 64 from BATCH_ENTRIES) (len (dp_entries d))).
  assert (to = N.min (from + BATCH_ENTRIES) (len (dp_entries d))) as Eto.
  { unfold to. assert (saturating_add 64 from BATCH_ENTRIES = from + BATCH_ENTRIES) as ->; [|done].
    apply N.min_l. unfold BATCH_ENTRIES. lia. }
  assert (Hturn : advance_turn d =
    if to <=? from then (set_active (AC_Enumerate ES_Done) d, Ok (inr EM_Complete))
    else (set_active (AC_Enumerate (ES_Emit to)) d, Ok (inr (EM_Batch from to)))).
  { unfold advance_turn. rewrite (M_bind_step get _ _ _ _ eq_refl), Ha. fold to. by destruct (to <=? from). }
  unfold BATCH_ENTRIES in *. destruct (N.leb_spec to from) as [Hend|Hmore].
  - exists []. cbn [fmap list_fmap]. rewrite app_nil_r. split; [|split; [|constructor]].
    + assert (loop_turn (d, out) = inr ((set_active (AC_Enumerate ES_Done) d, out), Ok tt)) as <-; [|apply leads_step].
      unfold loop_turn. cbn [fst]. by rewrite Hturn.
    + symmetry. apply drop_ge. unfold len in *. lia.
  - set (d' := set_active (AC_Enumerate (ES_Emit to)) d).
    assert (dp_entries d' = dp_entries d) as Ed' by (by destruct d).
    set (batch := subslice from (to - from) (dp_entries d)).
    assert (len batch = to - from) as Hb by (apply len_subslice; lia).
    destruct (IH (N.to_nat (len (dp_entries d') - to)) ltac:(rewrite Ed'; lia) d' (out ++ [DA_EntryBatch batch]) to)
      as (batches & Hl & Hc & Hall); [done|by destruct d|rewrite Ed'; lia|by rewrite Ed'|].
    exists (batch :: batches). split; [|split].
    + apply (leads_via _ _ (d', out ++ [DA_EntryBatch batch])).
      * unfold loop_turn. cbn [fst]. rewrite Hturn. unfold emit, action_of, mbind, M_bind, get. cbn [fst snd].
        fold d'. rewrite Ed', (proj2 (N.ltb_ge to from)), (proj2 (N.ltb_ge _ to)) by lia. done.
      * rewrite <-app_assoc in Hl. unfold d' in Hl at 2. by rewrite set_active_twice in Hl.
    + cbn [concat]. rewrite Hc, Ed'. unfold batch, subslice.
      replace (N.to_nat to) with (N.to_nat from + N.to_nat (to - from))%nat by lia.
      rewrite <-drop_drop. apply take_drop.
    + constructor; [lia|done].
Qed.
End serve.

(** * What an enumeration offers

    The loops of [BackendDispatcher.v] that turn the entries of a container into
    offers: which entries they take, under which names, and that the arena is
    what can make them fail. *)

(** An offer is an entry of the enumeration and how it will be streamed. *)
Definition Offer : Type := EntryBatchEntry * Plan.

Definition wise_offer (offer : WiseEntry * list byte) : Offer :=
  let '(entry, spelling) := offer in
  ({| be_source_token := we_token entry; be_size_bytes := we_size_bytes entry;
      be_archive_path := spelling |},
   PL_WiseStream (we_compressed_offset entry) (we_declared_crc32 entry) (we_size_bytes entry)).

Definition buffered_offer (entry : BufferedEntry) (spelling : list byte) : Offer :=
  ({| be_source_token := bu_token entry; be_size_bytes := bu_size_bytes entry;
      be_archive_path := spelling |}, PL_Buffered (bu_token entry) (bu_size_bytes entry)).

(** The entries of a buffered container that are offered while there is room. *)
Fixpoint buffered_offers (room : N) (entries : list BufferedEntry) (spellings : SpellingSet) : list Offer :=
  match entries with
  | [] => []
  | entry :: entries =>
      if room =? 0 then []
      else
        match accept (bu_name entry) spellings with
        | (spellings, Err _) => buffered_offers room entries spellings
        | (spellings, Ok spelling) =>
            buffered_offer entry spelling :: buffered_offers (room - 1) entries spellings
        end
  end.

(** Bytes of the arena the offers take. *)
Definition spelling_bytes (l : list Offer) : N := 
  foldr (λ offer total, len (be_archive_path offer.1) + total) 0 l.

(** The wire takes the spelling. *)
Definition spelled (offer : Offer) : Prop :=
  archive_spelling_new (be_archive_path offer.1) = Ok (be_archive_path offer.1).

Section offers.
Context {I : Type} `{Inflater I} {L : Type} `{CabinetDecoder L}.
Abbreviation D := (ContainerDispatcher I L).

Fixpoint offer_seq (l : list Offer) : M D (Stop DispatchError) unit :=
  match l with
  | [] => mret tt
  | (e, plan) :: l =>
      offer (be_source_token e) (be_size_bytes e) (be_archive_path e) plan;;
      offer_seq l
  end.

Definition with_offers (l : list Offer) (d : D) : D :=
  {| dp_limits := dp_limits d;
     dp_arena := {| sa_free := drop (N.to_nat (spelling_bytes l)) <$> sa_free (dp_arena d) |};
     dp_window := dp_window d; dp_container := dp_container d; dp_kind := dp_kind d;
     dp_entries := dp_entries d ++ l.*1; dp_plans := dp_plans d ++ l.*2; dp_active := dp_active d;
     dp_reader := dp_reader d; dp_chunk := dp_chunk d; dp_armed := dp_armed d;
     dp_unsupported := dp_unsupported d |}.

Lemma offer_run e plan d free :
  sa_free (dp_arena d) = Some free → spelled (e, plan) →
  offer (be_source_token e) (be_size_bytes e) (be_archive_path e) plan d =
  if len free <? len (be_archive_path e) then (d, Err (Fail DE_Failed))
  else (with_offers [(e, plan)] d, Ok tt).
Proof.
  intros Hfree Hs. unfold offer. rewrite (M_bind_step get _ _ _ _ eq_refl).
  unfold arena_put. rewrite Hfree. destruct (_ <? _).
  - rewrite (M_bind_step (modify _) _ _ _ tt eq_refl). apply M_bind_fail. by destruct d.
  - rewrite (M_bind_step (modify _) _ _ _ tt eq_refl). unfold expect at 1. cbn [ok_or].
    rewrite (M_bind_step (lift _) _ _ _ _ eq_refl). unfold expect_ok, spelled in *. cbn [fst] in Hs. rewrite Hs.
    cbn [map_err]. rewrite (M_bind_step (lift _) _ _ _ _ eq_refl). unfold modify. destruct d, e. cbn in *.
    unfold with_offers, spelling_bytes. cbn. rewrite Hfree. cbn. by rewrite N.add_0_r, len_to_nat.
Qed.

Lemma with_offers_app l l' d : with_offers l' (with_offers l d) = with_offers (l ++ l') d.
Proof.
  unfold with_offers, spelling_bytes. cbn. f_equal.
  - f_equal. destruct (sa_free (dp_arena d)) as [free|]; [|done]. cbn. f_equal.
    rewrite drop_drop. f_equal. rewrite <-N2Nat.inj_add. f_equal.
    induction l as [|a l IH]; cbn; lia.
  - by rewrite fmap_app, app_assoc.
  - by rewrite fmap_app, app_assoc.
Qed.

Lemma with_offers_nil d : with_offers [] d = d.
Proof.
  destruct d as [? [free]]. unfold with_offers. cbn. rewrite !app_nil_r. f_equal. f_equal.
  by destruct free.
Qed.

(** Storing offers fails exactly if the arena cannot take them. *)
Lemma offer_seq_run l d free :
  sa_free (dp_arena d) = Some free → Forall spelled l →
  if len free <? spelling_bytes l then ∃ d', offer_seq l d = (d', Err (Fail DE_Failed))
  else offer_seq l d = (with_offers l d, Ok tt).
Proof.
  intros Hfree Hs. revert d free Hfree. induction Hs as [|[e plan] l He Hs IH]; intros d free Hfree.
  { change (spelling_bytes []) with 0. rewrite (proj2 (N.ltb_ge _ _)) by lia. cbn [offer_seq].
    by rewrite with_offers_nil. }
  change (spelling_bytes ((e, plan) :: l)) with (len (be_archive_path e) + spelling_bytes l).
  cbn [offer_seq]. unfold mbind at 1 2, M_bind at 1 2. rewrite (offer_run e plan d free) by done.
  destruct (N.ltb_spec (len free) (len (be_archive_path e))) as [Hlt|Hge].
  { rewrite (proj2 (N.ltb_lt _ _)) by lia. by eexists. }
  specialize (IH (with_offers [(e, plan)] d) (drop (length (be_archive_path e)) free)).
  assert (spelling_bytes [(e, plan)] = len (be_archive_path e)) as E1 by (unfold spelling_bytes; cbn; lia).
  assert (sa_free (dp_arena (with_offers [(e, plan)] d)) = Some (drop (length (be_archive_path e)) free)) as Hf.
  { unfold with_offers. cbn [dp_arena sa_free]. by rewrite E1, Hfree, len_to_nat. }
  specialize (IH Hf).
  assert (len (drop (length (be_archive_path e)) free) = len free - len (be_archive_path e)) as E2.
  { unfold len. rewrite length_drop. lia. }
  rewrite E2 in IH. destruct (N.ltb_spec (len free) (len (be_archive_path e) + spelling_bytes l)).
  - rewrite (proj2 (N.ltb_lt _ _)) in IH by lia. exact IH.
  - rewrite (proj2 (N.ltb_ge _ _)) in IH by lia. rewrite IH. by rewrite with_offers_app.
Qed.

(** The code's loops are such sequences. *)
Lemma offer_all_seq l d : offer_all l d = offer_seq (wise_offer <$> l) d.
Proof.
  revert d. induction l as [|[entry spelling] l IH]; intros d; [done|].
  cbn [offer_all offer_seq fmap list_fmap wise_offer be_source_token be_size_bytes be_archive_path].
  unfold mbind, M_bind. destruct (offer _ _ _ _ d) as [d' [[]|e]]; [apply IH|done].
Qed.

Lemma offer_buffered_seq entries spellings d free :
  sa_free (dp_arena d) = Some free → spelling_set spellings →
  offer_buffered entries spellings d =
  offer_seq (buffered_offers (bl_maximum_entries (dp_limits d) - len (dp_entries d)) entries spellings) d.
Proof.
  revert spellings d free. induction entries as [|entry entries IH]; intros spellings d free Hfree Hs; [done|].
  cbn [offer_buffered buffered_offers]. rewrite (M_bind_step get _ _ _ _ eq_refl).
  destruct (N.leb_spec (bl_maximum_entries (dp_limits d)) (len (dp_entries d))) as [Hfull|Hroom].
  { by rewrite (proj2 (N.eqb_eq _ 0)) by lia. }
  rewrite (proj2 (N.eqb_neq _ 0)) by lia.
  destruct (accept (bu_name entry) spellings) as [spellings' [spelling|e]] eqn:Ea.
  - destruct (accept_Ok _ _ _ _ Hs Ea) as (p & _ & _ & _ & _ & Hs' & Hsp).
    cbn [offer_seq buffered_offer be_source_token be_size_bytes be_archive_path].
    unfold mbind at 1 2, M_bind at 1 2.
    pose proof (offer_run (buffered_offer entry spelling).1 (buffered_offer entry spelling).2 d free Hfree Hsp) as Ho.
    cbn [buffered_offer fst snd be_source_token be_size_bytes be_archive_path] in Ho. rewrite Ho.
    destruct (_ <? _); [done|]. erewrite IH; [|by cbn; rewrite Hfree|done].
    cbn [with_offers dp_limits dp_entries]. rewrite len_app. cbn [fmap list_fmap fst].
    change (len [_]) with 1. by rewrite N.sub_add_distr.
  - eapply IH; [done|]. by eapply accept_Err.
Qed.
End offers.
