(* ===== verification/BackendEnumerate.v ===== *)
(** * An enumeration, from the first read to the last batch

    The stages of [BackendDispatcher.v] over a source the parent serves: the
    container is recognised by its first bytes, read or walked, and its offers
    are sent in batches. *)

From stdpp Require Import gmap sets.
From S2P Require Export BackendServe BackendAgree.

(** ** The offers *)

Lemma empty_set : spelling_set spelling_set_new.
Proof. split; [constructor|done]. Qed.

Lemma collect_offers_spec {I} maximum (b : WiseBackend I) entries spellings offers :
  spelling_set spellings → len offers ≤ maximum → ∃ l,
    collect_offers maximum b entries spellings offers = offers ++ l ∧ l.*1 `sublist_of` entries ∧
    Forall spelled (wise_offer <$> l) ∧ len (offers ++ l) ≤ maximum.
Proof.
  revert spellings offers. induction entries as [|entry entries IH]; intros spellings offers Hs Hle.
  { exists []. rewrite app_nil_r. repeat constructor; done. }
  cbn [collect_offers]. destruct (N.leb_spec maximum (len offers)) as [Hfull|Hroom].
  { exists []. rewrite app_nil_r. repeat constructor; try done. apply sublist_nil_l. }
  destruct (accept _ spellings) as [spellings' [spelling|e]] eqn:Ea.
  - destruct (accept_Ok _ _ _ _ Hs Ea) as (p & _ & _ & _ & _ & Hs' & Hsp).
    destruct (IH spellings' (offers ++ [(entry, spelling)]) Hs') as (l & -> & Hsub & Hall & Hlen).
    { rewrite len_app. change (len [_]) with 1. lia. }
    exists ((entry, spelling) :: l). rewrite <-app_assoc in *. split; [done|].
    split; [by constructor|]. split; [by constructor|done].
  - assert (spelling_set spellings') as Hs' by by eapply accept_Err.
    destruct (IH spellings' offers Hs' Hle) as (l & -> & Hsub & Hall & Hlen).
    exists l. split; [done|]. split; [by constructor|done].
Qed.

(** Every offer of a buffered container is one of its entries. *)
Lemma buffered_offers_spec room entries spellings :
  spelling_set spellings →
  let l := buffered_offers room entries spellings in
  Forall spelled l ∧ len l ≤ room ∧ (λ o, be_source_token o.1) <$> l `sublist_of` bu_token <$> entries ∧
  Forall (λ o, ∃ entry, entry ∈ entries ∧ o = buffered_offer entry (be_archive_path o.1)) l.
Proof.
  revert room spellings. induction entries as [|entry entries IH]; intros room spellings Hs.
  { split; [constructor|]. split; [apply N.le_0_l|]. split; constructor. }
  cbn [buffered_offers]. cbv zeta. destruct (N.eqb_spec room 0) as [->|Hroom].
  { split; [constructor|]. split; [done|]. split; [apply sublist_nil_l|constructor]. }
  assert (Hweak : ∀ l, Forall (λ o, ∃ e, e ∈ entries ∧ o = buffered_offer e (be_archive_path o.1)) l →
    Forall (λ o, ∃ e, e ∈ entry :: entries ∧ o = buffered_offer e (be_archive_path o.1)) l).
  { intros l. apply List.Forall_impl. intros o (e & He & Eo). exists e. split; [by constructor|done]. }
  destruct (accept _ spellings) as [spellings' [spelling|e]] eqn:Ea.
  - destruct (accept_Ok _ _ _ _ Hs Ea) as (p & _ & _ & _ & _ & Hs' & Hsp).
    destruct (IH (room - 1) spellings' Hs') as (Hall & Hlen & Hsub & Hin).
    split; [by constructor|]. split; [rewrite len_cons; lia|]. split; [by constructor|].
    constructor; [|by apply Hweak]. exists entry. split; [by constructor|done].
  - destruct (IH room spellings') as (Hall & Hlen & Hsub & Hin); [by eapply accept_Err|].
    split; [done|]. split; [done|]. split; [by constructor|by apply Hweak].
Qed.

(** ** The stages *)

Section enumerate.
Context {I : Type} `{InflaterLaws I} {L : Type} `{CabinetDecoder L} (source : list byte).
Abbreviation D := (ContainerDispatcher I L).
Abbreviation leads := (leads (loop_turn source)).
Abbreviation state := (D * list DispatchAction)%type.
Abbreviation outcome := (state + state * result (Stop DispatchError) unit)%type.

Lemma leads_to s x : loop_turn source s = x → leads s x.
Proof. intros <-. apply leads_step. Qed.

(** The dispatcher with its window at a place. *)
Definition with_window (w : WindowSource) (d : D) : D := set_window (Some w) d.

Lemma set_window_twice w w' (d : D) : set_window w (set_window w' d) = set_window w d.
Proof. by destruct d. Qed.

Lemma set_container_twice c c' (d : D) : set_container c (set_container c' d) = set_container c d.
Proof. by destruct d. Qed.

Lemma set_armed_same (d : D) : dp_armed d = None → set_armed None d = d.
Proof. by destruct d; cbn; intros ->. Qed.

Lemma arm_bind {B} pending (k : Emission → M D (Stop DispatchError) B) (d : D) :
  (arm pending ≫= k) d = k (EM_NeedRead (pr_offset pending) (pr_length pending)) (set_armed (Some pending) d).
Proof. done. Qed.

Lemma emit_read offset length s :
  emit source (EM_NeedRead offset length) s = respond (I := I) (L := L) source (DA_NeedRead offset length) s.
Proof. by destruct s. Qed.

(** What the window has armed is asked for ... *)
Lemma arm_run w pending (d : D) :
  ws_pending w = Some pending →
  arm_window (with_window w d) = (set_armed (Some pending) (with_window (put_pending None w) d),
    Ok (EM_NeedRead (pr_offset pending) (pr_length pending))).
Proof.
  intros Ep. unfold arm_window, take_pending. run.
  assert (dp_window (with_window w d) = Some w) as -> by (by destruct d).
  run. rewrite Ep. run. unfold arm. run. by destruct d.
Qed.

(** ... and delivered. *)
Lemma read_served w pending w' (d : D) out :
  dp_armed d = None → (∀ stage, dp_active d = AC_Enumerate stage → stage ≠ ES_Load) →
  ws_pending w = Some pending → served source w = Some w' →
  emit source (EM_NeedRead (pr_offset pending) (pr_length pending))
    (set_armed (Some pending) (with_window (put_pending None w) d), out) = inl (with_window w' d, out).
Proof.
  intros Harm Hload Ep Hs. unfold served, take_pending in Hs. rewrite Ep in Hs. cbn [mbind option_bind] in Hs.
  destruct (len (answer source pending) =? pr_length pending) eqn:El; [|done]. cbn [negb] in Hs.
  set (idle := with_window (put_pending None w) d).
  assert (Hreply : accept_read_reply (reply_to source (pr_offset pending) (pr_length pending))
    (set_armed (Some pending) idle) = (with_window w' d, Ok tt)).
  2:{ rewrite emit_read. unfold respond. cbn [fst snd]. by rewrite Hreply. }
  unfold accept_read_reply. run.
  assert (set_armed None (set_armed (Some pending) idle) = idle) as -> by (by destruct d; cbn in *; subst).
  assert (dp_armed (set_armed (Some pending) idle) = Some pending) as -> by (by destruct d). run.
  cbn [reply_to rp_data]. fold (answer source pending). rewrite El. cbn [negb].
  assert (dp_active (set_armed (Some pending) idle) = dp_active d) as -> by (by destruct d).
  assert (dp_window (set_armed (Some pending) idle) = Some (put_pending None w)) as -> by (by destruct d).
  assert (Hgo : (expect (Some (put_pending None w)) ≫= λ window : WindowSource,
     (let '(window, taken) := deliver (pr_offset pending) (answer source pending) window in
      modify (set_window (Some window));; if taken : bool then mret tt else failed))
    idle = (with_window w' d, Ok tt)).
  { run. destruct (deliver _ _ (put_pending None w)) as [w1 [|]]; [|done]. injection Hs as <-. run. by destruct d. }
  destruct (dp_active d) as [|[]|] eqn:Ea; try exact Hgo. exfalso. by eapply Hload.
Qed.

Lemma served_pending w w' : served source w = Some w' → ∃ pending, ws_pending w = Some pending.
Proof. unfold served, take_pending. destruct (ws_pending w) as [pending|]; [by exists pending|done]. Qed.

Lemma arm_served w w' (d : D) out :
  dp_armed d = None → (∀ stage, dp_active d = AC_Enumerate stage → stage ≠ ES_Load) → served source w = Some w' →
  ∃ emission, arm_window (with_window w d) = (set_armed (ws_pending w) (with_window (put_pending None w) d), Ok emission) ∧
    emit source emission (set_armed (ws_pending w) (with_window (put_pending None w) d), out) = inl (with_window w' d, out).
Proof.
  intros Harm Hload Hs. destruct (served_pending w w' Hs) as [pending Ep]. rewrite Ep. eexists.
  split; [by apply arm_run|by apply read_served].
Qed.

(** *** Walking *)

Definition walking (b : WiseBackend I) (w : WindowSource) (d : D) : D :=
  with_window w (set_container (Some (CT_Wise b)) (set_active (AC_Enumerate ES_Walk) d)).

Lemma walking_again b w b' w' d : walking b' w' (walking b w d) = walking b' w' d.
Proof. by destruct d. Qed.

(** What [walk] makes of the back end's answer. *)
Lemma walk_run b w d :
  walk (walking b w d) =
  let '((b', w'), advance) := wise_advance (b, w) in
  (advance ← called advance;
   match advance with
   | Ok AD_Working => mret None
   | Ok AD_NeedRead => emission ← arm_window; mret (Some emission)
   | Ok AD_Ready =>
       offer_wise;;
       modify (set_active (AC_Enumerate (ES_Emit 0)));;
       mret None
   | Err _ => failed
   end) (walking b' w' d).
Proof.
  unfold walk. run. assert (dp_container (walking b w d) = Some (CT_Wise b)) as -> by (by destruct d).
  run. assert (dp_window (walking b w d) = Some w) as -> by (by destruct d).
  run. destruct (wise_advance (b, w)) as [[b' w'] advance]. run. by destruct d.
Qed.

(** How the walk goes on once the back end is done. *)
Definition walked (b : WiseBackend I) (w : WindowSource) (d : D) (out : list DispatchAction) : outcome :=
  match offer_wise (walking b w d) with
  | (d', Ok _) => inl (set_active (AC_Enumerate (ES_Emit 0)) d', out)
  | (d', Err e) => inr ((d', out), Err e)
  end.

Lemma walk_stage n b w d out b1 w1 res :
  dp_armed d = None → turns n (serve_turn source) (b, w) = inr ((b1, w1), res) →
  match res with
  | Ok _ => leads (walking b w d, out) (walked b1 w1 d out)
  | Err (Fail _) => ∃ d', leads (walking b w d, out) (inr ((d', out), Err (Fail DE_Failed)))
  | Err _ => True
  end.
Proof.
  intros Harm. revert b w. induction n as [|n IH]; intros b w E; [done|]. cbn [turns] in E.
  assert (Hadv : loop_turn source (walking b w d, out) =
    match walk (walking b w d) with
    | (d', Ok None) => inl (d', out)
    | (d', Ok (Some emission)) => emit source emission (d', out)
    | (d', Err e) => inr ((d', out), Err e)
    end).
  { unfold loop_turn, advance_turn. cbn [fst snd]. run.
    assert (dp_active (walking b w d) = AC_Enumerate ES_Walk) as -> by (by destruct d).
    unfold mbind, M_bind. by destruct (walk (walking b w d)) as [d' [[em|]|e]]. }
  rewrite walk_run in Hadv. unfold serve_turn, serve_after in E.
  destruct (wise_advance (b, w)) as [[b' w'] [adv|e]] eqn:Ea; unfold called in Hadv.
  - destruct adv.
    + specialize (IH b' w' E). assert (leads (walking b w d, out) (inl (walking b' w' d, out))) as Hl
        by by apply leads_to; rewrite Hadv.
      destruct res as [u|[e| |]]; [by eapply leads_trans| |done..].
      destruct IH as [d' Hd']. exists d'. by eapply leads_trans.
    + destruct (served source w') as [w''|] eqn:Es; [|by injection E as <- <- <-].
      specialize (IH b' w'' E).
      destruct (arm_served w' w'' (walking b' w' d) out) as (em & Earm & Eem);
        [by destruct d|by destruct d; intros stage [= <-]|done|].
      assert (with_window w' (walking b' w' d) = walking b' w' d) as Ew by (by destruct d). rewrite Ew in Earm.
      assert (leads (walking b w d, out) (inl (walking b' w'' d, out))) as Hl.
      { apply leads_to. rewrite Hadv. run. rewrite (M_bind_step _ _ _ _ _ Earm). unfold mret, M_ret.
        rewrite Eem. by destruct d. }
      destruct res as [u|[e| |]]; [by eapply leads_trans| |done..].
      destruct IH as [d' Hd']. exists d'. by eapply leads_trans.
    + injection E as <- <- <-.
      apply leads_to. rewrite Hadv. run. unfold walked, mbind, M_bind.
      by destruct (offer_wise (walking b' w' d)) as [d' [[]|e]].
  - injection E as <- <- <-. destruct e as [e| |]; [|done..].
    exists (walking b' w' d). apply leads_to. by rewrite Hadv.
Qed.

(** *** From offers to batches *)

Definition goes (x : outcome) (r : state * result (Stop DispatchError) unit) : Prop :=
  match x with inl s => leads s (inr r) | inr r' => r' = r end.

Lemma sent_leads s x r : leads s x → goes x r → leads s (inr r).
Proof. destruct x as [s'|r']; [by eapply leads_trans|]. by intros Hl ->. Qed.

(** Offers that are stored and sent by dispatcher [d]. *)
Definition sends (storage : list byte) (l : list Offer) (d : D)
    (r : state * result (Stop DispatchError) unit) : Prop :=
  if len storage <? spelling_bytes l then r.1.2 = [] ∧ r.2 = Err (Fail DE_Failed)
  else ∃ batches,
    r = ((set_active (AC_Enumerate ES_Done) (with_offers l d), DA_EntryBatch <$> batches), Ok tt) ∧
    concat batches = l.*1 ∧ Forall (λ batch, 0 < len batch ≤ BATCH_ENTRIES) batches.

(** The rest of an enumeration that has its offers. *)
Definition offered_by (l : list Offer) (d : D) : outcome :=
  match offer_seq l d with
  | (d', Ok _) => inl (set_active (AC_Enumerate (ES_Emit 0)) d', [])
  | (d', Err e) => inr ((d', []), Err e)
  end.

Lemma offers_leads l d storage :
  sa_free (dp_arena d) = Some storage → dp_entries d = [] → Forall spelled l → len l < 2 ^ 63 →
  ∃ r, goes (offered_by l d) r ∧ sends storage l d r.
Proof.
  intros Hfree He Hs Hlen. pose proof (offer_seq_run l d storage Hfree Hs) as Hrun. unfold offered_by, sends.
  destruct (_ <? _).
  { destruct Hrun as [d' ->]. by eexists. }
  rewrite Hrun. set (d1 := set_active (AC_Enumerate (ES_Emit 0)) (with_offers l d)).
  assert (dp_entries d1 = l.*1) as Ed1 by (unfold d1, with_offers; cbn; by rewrite He).
  destruct (emit_leads source d1 [] 0) as (batches & Hl & Hc & Hall);
    [done|lia|rewrite Ed1; unfold len in *; by rewrite length_fmap|].
  unfold d1 in Hl at 2. rewrite set_active_twice in Hl. eexists. split; [exact Hl|].
  exists batches. split; [done|]. split; [|done]. by rewrite Hc, Ed1.
Qed.

Lemma walked_offers b w d :
  walked b w d [] =
  offered_by (wise_offer <$> collect_offers (bl_maximum_entries (dp_limits d)) b (wise_entries b) [] []) (walking b w d).
Proof.
  unfold walked, offered_by, offer_wise. run.
  assert (dp_container (walking b w d) = Some (CT_Wise b)) as -> by (by destruct d).
  assert (dp_limits (walking b w d) = dp_limits d) as -> by (by destruct d). by rewrite offer_all_seq.
Qed.

(** *** Loading *)

(** The two containers that are buffered. *)
Definition wrap (kind : ContainerKind) (buffer : ContainerBuffer) : Container I :=
  match kind with CK_MicrosoftCabinet => CT_Cabinet buffer | _ => CT_ZArchive buffer end.

Definition loading (kind : ContainerKind) (buffer : ContainerBuffer) (d : D) : D :=
  set_container (Some (wrap kind buffer)) (set_active (AC_Enumerate ES_Load) d).

Definition entries_of (kind : ContainerKind) (limits : BackendLimits L) (bytes : list byte)
  : result (Stop DispatchError) (list BufferedEntry) :=
  match kind with
  | CK_MicrosoftCabinet => map_err (λ _, Fail DE_Failed) (cabinet_entries bytes (bl_cabinet limits))
  | _ => map_err (λ _, Fail DE_Failed) (z_archive_entries bytes (bl_z_archive limits))
  end.

Lemma load_run kind buffer w d :
  dp_window d = Some w → window_capacity w < 2 ^ 32 →
  load (loading kind buffer d) =
  (if negb (is_complete buffer) then
     emission ← arm (next_read (window_capacity w) buffer); mret (Some emission)
   else
     entries ← lift (entries_of kind (dp_limits d) (cb_bytes buffer));
     offer_buffered entries spelling_set_new;;
     modify (set_active (AC_Enumerate (ES_Emit 0)));;
     mret None) (loading kind buffer d).
Proof.
  intros Hw Hc. unfold load. run.
  assert (dp_window (loading kind buffer d) = Some w) as -> by (by destruct d). run.
  unfold try_from. rewrite (proj2 (N.ltb_lt _ _) Hc). cbn [default from_option].
  assert (dp_container (loading kind buffer d) = Some (wrap kind buffer)) as -> by (by destruct d).
  assert (dp_limits (loading kind buffer d) = dp_limits d) as -> by (by destruct d).
  by destruct kind.
Qed.

Lemma loading_turn kind buffer d out :
  loop_turn source (loading kind buffer d, out) =
  match load (loading kind buffer d) with
  | (d', Ok None) => inl (d', out)
  | (d', Ok (Some emission)) => emit source emission (d', out)
  | (d', Err e) => inr ((d', out), Err e)
  end.
Proof.
  unfold loop_turn, advance_turn. cbn [fst snd]. run.
  assert (dp_active (loading kind buffer d) = AC_Enumerate ES_Load) as -> by (by destruct d).
  unfold mbind, M_bind. by destruct (load (loading kind buffer d)) as [d' [[em|]|e]].
Qed.

(** The buffer fills up with the source, front to back. *)
Lemma load_fills kind buffer w d out :
  dp_window d = Some w → window_capacity w < 2 ^ 32 → dp_armed d = None → buffers source buffer →
  ∃ full, leads (loading kind buffer d, out) (inl (loading kind full d, out)) ∧ buffers source full ∧
    is_complete full = true.
Proof.
  intros Hw Hc Harm. remember (N.to_nat (len source - len (cb_bytes buffer))) as n eqn:En. revert buffer En.
  induction n as [n IH] using lt_wf_ind; intros buffer En Hb. subst n.
  destruct (is_complete buffer) eqn:Ec; [exists buffer; split; [apply leads_refl|done]|].
  destruct (buffers_read source buffer (window_capacity w) Hb Ec Hc) as (Ho & [Hpos _] & Hin & Hlen & buffer' & Ea & Hb' & Hl').
  set (pending := next_read (window_capacity w) buffer) in *.
  destruct (IH (N.to_nat (len source - len (cb_bytes buffer'))) ltac:(lia) buffer' eq_refl Hb')
    as (full & Hlead & Hfull & Hcomp).
  exists full. split; [|done]. eapply leads_trans; [|exact Hlead]. apply leads_to.
  rewrite loading_turn, (load_run kind buffer w d Hw Hc), Ec. cbn [negb]. rewrite arm_bind. fold pending.
  unfold mret, M_ret. rewrite emit_read. unfold respond. cbn [fst snd].
  set (armed := set_armed (Some pending) (loading kind buffer d)).
  assert (Hreply : accept_read_reply (reply_to source (pr_offset pending) (pr_length pending)) armed =
    (loading kind buffer' d, Ok tt)); [|by rewrite Hreply].
  unfold accept_read_reply. run. assert (dp_armed armed = Some pending) as -> by (by destruct d).
  assert (set_armed None armed = loading kind buffer d) as -> by (by destruct d; cbn in *; subst). run.
  cbn [reply_to rp_data]. fold (answer source pending). rewrite Hlen, N.eqb_refl. cbn [negb].
  assert (dp_active armed = AC_Enumerate ES_Load) as -> by (by destruct d).
  assert (dp_container armed = Some (wrap kind buffer)) as -> by (by destruct d).
  destruct kind; cbn [wrap]; rewrite Ea; run; by destruct d.
Qed.

Lemma load_finish kind buffer w d storage :
  dp_window d = Some w → window_capacity w < 2 ^ 32 → sa_free (dp_arena d) = Some storage → dp_entries d = [] →
  buffers source buffer → is_complete buffer = true →
  loop_turn source (loading kind buffer d, []) =
  match entries_of kind (dp_limits d) source with
  | Err e => inr ((loading kind buffer d, []), Err e)
  | Ok entries => offered_by (buffered_offers (bl_maximum_entries (dp_limits d)) entries []) (loading kind buffer d)
  end.
Proof.
  intros Hw Hc Hfree He Hb Hcomp. rewrite loading_turn, (load_run kind buffer w d Hw Hc), Hcomp.
  rewrite (buffers_complete source buffer Hb Hcomp). cbn [negb].
  destruct (entries_of kind (dp_limits d) source) as [entries|e]; [|done].
  rewrite (M_bind_step (lift _) _ _ _ _ eq_refl). unfold offered_by. unfold mbind, M_bind.
  rewrite (offer_buffered_seq entries spelling_set_new (loading kind buffer d) storage); [|by destruct d|exact empty_set].
  assert (dp_limits (loading kind buffer d) = dp_limits d) as -> by (by destruct d).
  assert (dp_entries (loading kind buffer d) = []) as -> by (by destruct d). change (len (@nil EntryBatchEntry)) with 0.
  rewrite N.sub_0_r. by destruct (offer_seq _ (loading kind buffer d)) as [d' [[]|e]].
Qed.

(** *** Recognition *)

Definition recognised_kind : option ContainerKind :=
  if len source <? DETECT_BYTES then None else kind_of (take 4 source).

(** The dispatcher that has recognised its container. *)
Definition identified (kind : ContainerKind) (container : Container I) (d : D) : D :=
  set_active (AC_Enumerate match kind with CK_WiseOverlay => ES_Walk | _ => ES_Load end)
    (set_container (Some container) (set_kind (Some kind) d)).

Lemma detect_hit w d out :
  ws_source_size w = len source → window_read 0 DETECT_BYTES w = (w, Ok (subslice 0 DETECT_BYTES source)) →
  dp_active d = AC_Enumerate ES_Detect →
  match recognised_kind with
  | None => ∃ d', loop_turn source (with_window w d, out) = inr ((d', out), Err (Fail DE_Unsupported))
  | Some kind =>
      match new_container kind (len source) (dp_limits d) with
      | Ok container => loop_turn source (with_window w d, out) = inl (identified kind container (with_window w d), out)
      | Err e => ∃ d', loop_turn source (with_window w d, out) = inr ((d', out), Err e)
      end
  end.
Proof.
  intros Hsize Hread Ha.
  assert (Hturn : loop_turn source (with_window w d, out) =
    match detect (with_window w d) with
    | (d', Ok None) => inl (d', out)
    | (d', Ok (Some emission)) => emit source emission (d', out)
    | (d', Err e) => inr ((d', out), Err e)
    end).
  { unfold loop_turn, advance_turn. cbn [fst snd]. run.
    assert (dp_active (with_window w d) = AC_Enumerate ES_Detect) as -> by (by destruct d).
    unfold mbind, M_bind. by destruct (detect (with_window w d)) as [d' [[em|]|e]]. }
  rewrite Hturn. unfold detect. run. assert (dp_window (with_window w d) = Some w) as -> by (by destruct d). run.
  rewrite Hread. run. unfold called. run.
  assert (set_window (Some w) (with_window w d) = with_window w d) as -> by (by destruct d).
  assert (dp_limits (with_window w d) = dp_limits d) as -> by (by destruct d).
  unfold recognised_kind. assert (len (subslice 0 DETECT_BYTES source) = N.min DETECT_BYTES (len source)) as ->
    by (rewrite len_subslice_le; f_equal; lia).
  destruct (N.ltb_spec (len source) DETECT_BYTES) as [Hlt|Hge]; unfold DETECT_BYTES in *.
  { rewrite (proj2 (N.eqb_neq _ _)) by lia. eexists; reflexivity. }
  rewrite (proj2 (N.eqb_eq _ _)) by lia. cbn [negb]. change (subslice 0 4 source) with (take 4 source).
  destruct (kind_of (take 4 source)) as [kind|]; [|eexists; reflexivity]. rewrite Hsize. run.
  destruct (new_container kind (len source) (dp_limits d)) as [container|e]; [|eexists; reflexivity].
  rewrite (M_bind_step (lift _) _ _ _ _ eq_refl). by run.
Qed.

Lemma detect_leads capacity w d out :
  movable source capacity w → 4 ≤ capacity → dp_active d = AC_Enumerate ES_Detect → dp_armed d = None →
  ∃ w', movable source capacity w' ∧ leads (with_window w d, out) (inl (with_window w' d, out)) ∧
    window_read 0 DETECT_BYTES w' = (w', Ok (subslice 0 DETECT_BYTES source)).
Proof.
  intros Hw Hc Ha Harm. assert (Hfits : len source < 2 ^ 64) by (apply Hw).
  destruct (window_read_cases source w 0 DETECT_BYTES (mv_window _ _ _ Hw) (mv_pinned _ _ _ Hw)) as [E|[E Hlt]].
  { rewrite (mv_capacity _ _ _ Hw). done. }
  { exists w. split; [done|]. split; [apply leads_refl|done]. }
  destruct (miss_served source capacity w 0 Hw Hlt) as (w' & Es & Hw' & Hb & Hf). exists w'. split; [done|]. split.
  - apply leads_to. destruct (arm_served (miss 0 w) w' d out) as (em & Earm & Eem);
      [done|by rewrite Ha; intros stage [= <-]|done|].
    unfold loop_turn, advance_turn. cbn [fst snd]. run.
    assert (dp_active (with_window w d) = AC_Enumerate ES_Detect) as -> by (by destruct d).
    assert (Hdet : detect (with_window w d) =
      (set_armed (ws_pending (miss 0 w)) (with_window (put_pending None (miss 0 w)) d), Ok (Some em))).
    { unfold detect. run. assert (dp_window (with_window w d) = Some w) as -> by (by destruct d). run. rewrite E. run.
      unfold called. run. assert (set_window (Some (miss 0 w)) (with_window w d) = with_window (miss 0 w) d) as ->
        by (by destruct d). by rewrite (M_bind_step _ _ _ _ _ Earm). }
    rewrite (M_bind_step _ _ _ _ _ Hdet). unfold mret, M_ret. exact Eem.
  - destruct Hw' as [Hw' Hp' Hc' _]. apply window_read_at_base; [done|done|unfold DETECT_BYTES; lia|by rewrite Hc'].
Qed.
End enumerate.
