(* ===== verification/BackendImport.v ===== *)
(** * What the dispatcher promises an import

    The whole enumeration of a source the parent serves: which offers the
    dispatcher of [BackendDispatcher.v] sends, for every container and every
    source, and in which state it is left for the streams that follow. *)

From stdpp Require Import gmap sets.
From S2P Require Export BackendEnumerate.

Section import.
Context {I : Type} `{InflaterLaws I} {L : Type} `{CabinetDecoder L} (source : list byte).
Context (limits : BackendLimits L) (storage : list byte) (capacity : N).
Abbreviation D := (ContainerDispatcher I L).
Abbreviation leads := (leads (loop_turn source)).
Abbreviation state := (D * list DispatchAction)%type.
Abbreviation movable := (movable source capacity).

(** Between two operations. *)
Record ready (container : Container I) (l : list Offer) (d : D) : Prop := {
  rd_limits : dp_limits d = limits;
  rd_window : ∃ w, dp_window d = Some w ∧ movable w;
  rd_container : dp_container d = Some container;
  rd_entries : dp_entries d = l.*1;
  rd_plans : dp_plans d = l.*2;
  rd_chunk : len (dp_chunk d) = CHUNK_BYTES;
  rd_armed : dp_armed d = None;
  rd_supported : dp_unsupported d = false;
  rd_reader : ∀ r, dp_reader d = Some r → sr_limits r = bl_wise limits
}.

(** What a container of some kind makes of the source: the offers, and the
    container they are streamed from. *)
Definition resolves (kind : ContainerKind) (r : result (Stop DispatchError) (Container I * list Offer)) : Prop :=
  match kind with
  | CK_WiseOverlay => ∃ b res, backend_outcome (I := I) source (bl_wise limits) capacity b res ∧
      r = match res with
          | Ok _ => Ok (CT_Wise b, wise_offer <$>
                collect_offers (bl_maximum_entries limits) b (wise_entries b) [] [])
          | Err _ => Err (Fail DE_Failed)
          end
  | kind =>
      if MAXIMUM_BUFFERED_BYTES <? len source then r = Err (Fail DE_Unsupported)
      else
        match entries_of kind limits source with
        | Err e => r = Err e
        | Ok entries =>
            r = Ok (wrap kind {| cb_bytes := source; cb_size := len source |},
                    buffered_offers (bl_maximum_entries limits) entries [])
        end
  end.

(** How an enumeration ends. *)
Definition enumerated (out : state * result (Stop DispatchError) unit) : Prop :=
  match recognised_kind source with
  | None => out.1.2 = [] ∧ out.2 = Err (Fail DE_Unsupported)
  | Some kind => ∃ r, resolves kind r ∧
      match r with
      | Err e => out.1.2 = [] ∧ out.2 = Err e
      | Ok (container, l) =>
          if len storage <? spelling_bytes l then out.1.2 = [] ∧ out.2 = Err (Fail DE_Failed)
          else ready container l out.1.1 ∧ out.2 = Ok tt ∧ ∃ batches,
            out.1.2 = DA_EntryBatch <$> batches ∧ concat batches = l.*1 ∧
            Forall (λ batch, 0 < len batch ≤ BATCH_ENTRIES) batches
      end
  end.

(** A dispatcher that is about to enumerate for the first time. *)
Record unstarted (d : D) : Prop := {
  fr_limits : dp_limits d = limits;
  fr_arena : sa_free (dp_arena d) = Some storage;
  fr_entries : dp_entries d = [];
  fr_plans : dp_plans d = [];
  fr_chunk : len (dp_chunk d) = CHUNK_BYTES;
  fr_armed : dp_armed d = None;
  fr_supported : dp_unsupported d = false;
  fr_reader : dp_reader d = None
}.

Context (Hsource : 0 < len source < 2 ^ 63) (Hentries : bl_maximum_entries limits < 2 ^ 63).
Context (Hcapacity : 64 ≤ capacity < 2 ^ 32).

(** Sending offers, from a dispatcher that holds its container. *)
Lemma sends_ready container l d w r :
  unstarted d → dp_container d = Some container → dp_window d = Some w → movable w → sends storage l d r →
  if len storage <? spelling_bytes l then r.1.2 = [] ∧ r.2 = Err (Fail DE_Failed)
  else ready container l r.1.1 ∧ r.2 = Ok tt ∧ ∃ batches,
    r.1.2 = DA_EntryBatch <$> batches ∧ concat batches = l.*1 ∧
    Forall (λ batch, 0 < len batch ≤ BATCH_ENTRIES) batches.
Proof.
  intros [] Hc Hw Hm. unfold sends. destruct (_ <? _); [done|]. intros (batches & -> & Hcat & Hall).
  cbn [fst snd]. split; [|split; [done|by exists batches]].
  destruct d. cbn in *. subst. split; cbn; try done; by exists w.
Qed.

Lemma sends_leads container l d w :
  unstarted d → dp_container d = Some container → dp_window d = Some w → movable w →
  Forall spelled l → len l ≤ bl_maximum_entries limits →
  ∃ r, goes source (offered_by l d) r ∧
    if len storage <? spelling_bytes l then r.1.2 = [] ∧ r.2 = Err (Fail DE_Failed)
    else ready container l r.1.1 ∧ r.2 = Ok tt ∧ ∃ batches,
      r.1.2 = DA_EntryBatch <$> batches ∧ concat batches = l.*1 ∧
      Forall (λ batch, 0 < len batch ≤ BATCH_ENTRIES) batches.
Proof.
  intros Hf Hc Hw Hm Hs Hl.
  destruct (offers_leads source l d storage) as (r & Hg & Hr); [by destruct Hf|by destruct Hf|done|lia|].
  exists r. split; [done|]. by eapply sends_ready.
Qed.

Lemma wise_enumerated w d :
  unstarted d → movable w → limits_sane (bl_wise limits) → wise_chunk_bytes (bl_wise limits) ≤ capacity →
  pe_table_end source ≤ capacity → recognised_kind source = Some CK_WiseOverlay →
  ∃ r, leads (walking (wise_new (bl_wise limits)) w d, []) (inr r) ∧ enumerated r.
Proof.
  intros Hf Hw Hsane Hchunk Hpe Hk. unfold enumerated. rewrite Hk.
  destruct (backend_leads (I := I) source (bl_wise limits) capacity Hsource Hsane Hchunk Hcapacity w Hw Hpe)
    as (b & w1 & res & [n Hn] & Hout & Hres).
  pose proof (walk_stage source n (wise_new (bl_wise limits)) w d [] b w1 res ltac:(by destruct Hf) Hn) as Hwalk.
  destruct res as [[]|e].
  - rewrite walked_offers in Hwalk. rewrite (fr_limits _ Hf) in Hwalk.
    destruct (collect_offers_spec (bl_maximum_entries limits) b (wise_entries b) [] [] empty_set (N.le_0_l _))
      as (l & El & _ & Hs & Hlen). cbn [app] in El, Hlen. rewrite El in Hwalk.
    destruct (sends_leads (CT_Wise b) (wise_offer <$> l) (walking b w1 d) w1) as (r & Hg & Hr); try done.
    + destruct Hf, d. cbn in *. subst. by split.
    + by destruct d.
    + by destruct d.
    + unfold len in *. by rewrite length_fmap.
    + exists r. split; [by eapply sent_leads|]. exists (Ok (CT_Wise b, wise_offer <$> l)). split; [|done].
      exists b, (Ok tt). split; [done|]. by rewrite El.
  - destruct Hres as (error & -> & _). destruct Hwalk as [d' Hd']. exists ((d', []), Err (Fail DE_Failed)).
    split; [done|]. exists (Err (Fail DE_Failed)). split; [|done]. by exists b, (Err (Fail error)).
Qed.

Lemma buffered_enumerated kind w d :
  unstarted d → dp_window d = Some w → movable w → kind ≠ CK_WiseOverlay → recognised_kind source = Some kind →
  (MAXIMUM_BUFFERED_BYTES <? len source) = false →
  ∃ r, leads (loading kind {| cb_bytes := []; cb_size := len source |} d, []) (inr r) ∧ enumerated r.
Proof.
  intros Hf Hdw Hw Hkind Hk Hsize. unfold enumerated. rewrite Hk.
  assert (buffers source {| cb_bytes := []; cb_size := len source |}) as Hb.
  { split; [done|by exists source|]. apply N.ltb_ge in Hsize. lia. }
  assert (window_capacity w < 2 ^ 32) as Hcap by (rewrite (mv_capacity _ _ _ Hw); lia).
  destruct (load_fills source kind _ w d [] Hdw Hcap (fr_armed _ Hf) Hb) as (full & Hlead & Hfull & Hcomp).
  assert (full = {| cb_bytes := source; cb_size := len source |}) as ->.
  { pose proof (buffers_complete source full Hfull Hcomp). destruct full, Hfull. cbn in *. by subst. }
  pose proof (load_finish source kind _ w d storage Hdw Hcap (fr_arena _ Hf) (fr_entries _ Hf) Hfull Hcomp) as Hturn.
  rewrite (fr_limits _ Hf) in Hturn.
  assert (Hres : ∀ r, resolves kind r ↔ match entries_of kind limits source with
      | Err e => r = Err e
      | Ok entries => r = Ok (wrap kind {| cb_bytes := source; cb_size := len source |},
                              buffered_offers (bl_maximum_entries limits) entries [])
      end).
  { intros r. unfold resolves. rewrite Hsize. by destruct kind. }
  destruct (entries_of kind limits source) as [entries|e].
  - destruct (buffered_offers_spec (bl_maximum_entries limits) entries [] empty_set) as (Hs & Hlen & _).
    set (d1 := loading kind {| cb_bytes := source; cb_size := len source |} d) in *.
    destruct (sends_leads (wrap kind {| cb_bytes := source; cb_size := len source |})
      (buffered_offers (bl_maximum_entries limits) entries []) d1 w) as (r & Hg & Hr); try done.
    + destruct Hf, d. cbn in *. subst. by split.
    + by destruct d.
    + by destruct d.
    + exists r. split; [|eexists; split; [by apply Hres|done]].
      eapply leads_trans; [exact Hlead|]. eapply sent_leads; [|exact Hg]. by apply leads_to.
  - eexists. split; [eapply leads_trans; [exact Hlead|]; by apply leads_to|].
    exists (Err e). split; [by apply Hres|done].
Qed.

Lemma enumerate_leads w d :
  unstarted d → movable w → dp_active d = AC_Enumerate ES_Detect →
  (recognised_kind source = Some CK_WiseOverlay → limits_sane (bl_wise limits) ∧
     wise_chunk_bytes (bl_wise limits) ≤ capacity ∧ pe_table_end source ≤ capacity) →
  ∃ r, leads (with_window w d, []) (inr r) ∧ enumerated r.
Proof.
  intros Hf Hw Ha Hwise. destruct (detect_leads source capacity w d [] Hw ltac:(lia) Ha (fr_armed _ Hf))
    as (w1 & Hw1 & Hlead & Hread).
  pose proof (detect_hit source w1 d [] (wo_size _ _ (mv_window _ _ _ Hw1)) Hread Ha) as Hhit.
  destruct (recognised_kind source) as [kind|] eqn:Hk.
  2:{ destruct Hhit as [d' Hd']. exists ((d', []), Err (Fail DE_Unsupported)). split.
      - eapply leads_trans; [exact Hlead|]. by apply leads_to.
      - unfold enumerated. by rewrite Hk. }
  rewrite (fr_limits _ Hf) in Hhit.
  destruct (decide (kind = CK_WiseOverlay)) as [->|Hne].
  { destruct (Hwise eq_refl) as (Hsane & Hchunk & Hpe). cbn [new_container] in Hhit.
    destruct (wise_enumerated w1 (identified CK_WiseOverlay (CT_Wise (wise_new (bl_wise limits))) (with_window w1 d)))
      as (r & Hr & He); try done.
    { destruct Hf, d. cbn in *. subst. by split. }
    exists r. split; [|done]. eapply leads_trans; [exact Hlead|]. eapply leads_trans; [apply leads_to, Hhit|].
    assert (identified CK_WiseOverlay (CT_Wise (wise_new (bl_wise limits))) (with_window w1 d) =
      walking (wise_new (bl_wise limits)) w1 (identified CK_WiseOverlay (CT_Wise (wise_new (bl_wise limits)))
        (with_window w1 d))) as -> by (by destruct d). exact Hr. }
  assert (Hnew : new_container kind (len source) limits =
    wrap kind <$> map_err (λ _, Fail DE_Unsupported) (container_buffer_new (len source))) by by destruct kind.
  rewrite Hnew in Hhit. unfold container_buffer_new in Hhit. rewrite (proj2 (N.eqb_neq _ 0)) in Hhit by lia.
  destruct (MAXIMUM_BUFFERED_BYTES <? len source) eqn:Hsize; cbn [map_err fmap result_fmap] in Hhit.
  { destruct Hhit as [d' Hd']. exists ((d', []), Err (Fail DE_Unsupported)). split.
    - eapply leads_trans; [exact Hlead|]. by apply leads_to.
    - unfold enumerated. rewrite Hk. exists (Err (Fail DE_Unsupported)). split; [|done].
      unfold resolves. rewrite Hsize. by destruct kind. }
  destruct (buffered_enumerated kind w1 (identified kind (wrap kind {| cb_bytes := []; cb_size := len source |}) (with_window w1 d)))
    as (r & Hr & He); try done.
  { destruct Hf, d. cbn in *. subst. by split. }
  { by destruct d. }
  exists r. split; [|done]. eapply leads_trans; [exact Hlead|]. eapply leads_trans; [apply leads_to, Hhit|].
  set (empty := {| cb_bytes := []; cb_size := len source |}) in *.
  assert (identified kind (wrap kind empty) (with_window w1 d) =
    loading kind empty (identified kind (wrap kind empty) (with_window w1 d))) as ->; [|exact Hr].
  destruct d. by destruct kind.
Qed.
End import.
