(* ===== verification/BackendStream.v ===== *)
(** * Streaming an entry of a Wise package

    The steps of [BackendDispatcher.v] that inflate a chain stream over the
    window, the parent answering the reads they stop at: what is delivered is
    what the stream decodes to, and it is confirmed before the end is. *)

From stdpp Require Import gmap sets.
From S2P Require Export BackendImport.

Section stream.
Context {I : Type} `{InflaterLaws I} {L : Type} `{CabinetDecoder L} (source : list byte).
Context (limits : WiseLimits) (capacity : N).
#[local] Hint Extern 0 (ImageSource unit) => exact (source_slice source) : typeclass_instances.
#[local] Hint Extern 0 (WiseCancellation unit) => exact slice_cancel : typeclass_instances.
Context (Hsource : len source < 2 ^ 64) (Hlimits : limits_fit limits).
Context (Hchunk : wise_chunk_bytes limits = CHUNK_BYTES) (Hcapacity : CHUNK_BYTES ≤ capacity).
Context (start declared size : N).

#[local] Instance stream_serves : Serves unit source (2 ^ 64) (λ _, True) (λ _, True) False.
Proof. by apply image_slice_serves. Qed.

Abbreviation D := (ContainerDispatcher I L).
Abbreviation leads := (leads (loop_turn source)).
Abbreviation state := (D * list DispatchAction)%type.
Abbreviation outcome := (state + state * result (Stop DispatchError) unit)%type.
Abbreviation movable := (movable source capacity).
Abbreviation at_reader := (reader_at source (2 ^ 64) (λ _, True)).

(** A stream that has emitted so much. *)
Definition operation_at (emitted : N) : StreamOp :=
  {| so_plan := PL_WiseStream start declared size; so_emitted := emitted; so_buffered := [];
     so_started := true; so_verified := false |}.

Definition idle (r : StreamReader I) (w : WindowSource) (d : D) : D :=
  set_active AC_None (set_reader (Some r) (with_window w d)).

Definition streaming (emitted : N) (r : StreamReader I) (w : WindowSource) (d : D) : D :=
  set_active (AC_Stream (operation_at emitted)) (set_reader (Some r) (with_window w d)).

Lemma with_stream_run {A} (m : W (StreamReader I * WindowSource) A) r w d :
  with_stream m (idle r w d) = let '((r', w'), res) := m (r, w) in called res (idle r' w' d).
Proof.
  unfold with_stream. run. assert (dp_reader (idle r w d) = Some r) as -> by (by destruct d). run.
  assert (dp_window (idle r w d) = Some w) as -> by (by destruct d). run.
  destruct (m (r, w)) as [[r' w'] res]. run. by destruct d.
Qed.

(** A call of the stream's step. *)
Definition stream_call (emitted : N) (r : StreamReader I) (w : WindowSource) (d : D) :=
  inflate_step_of declared size (operation_at emitted, idle r w d).

Lemma streaming_turn emitted r w d out :
  loop_turn source (streaming emitted r w d, out) =
  match stream_call emitted r w d with
  | ((operation, d'), Ok emission) => emit source emission (set_active (AC_Stream operation) d', out)
  | ((operation, d'), Err e) => inr ((set_active (AC_Stream operation) d', out), Err e)
  end.
Proof.
  unfold loop_turn, advance_turn. cbn [fst snd]. run.
  assert (dp_active (streaming emitted r w d) = AC_Stream (operation_at emitted)) as -> by (by destruct d).
  unfold mbind at 1, M_bind at 1, stream_step.
  assert (dp_active (streaming emitted r w d) = AC_Stream (operation_at emitted)) as -> by (by destruct d).
  assert (set_active AC_None (streaming emitted r w d) = idle r w d) as -> by (by destruct d).
  cbn [so_plan operation_at]. unfold wise_step. run. cbn [fst snd so_verified].
  assert (dp_reader (idle r w d) = Some r) as -> by (by destruct d).
  change (so_verified (operation_at emitted)) with false. cbv iota. run.
  change (so_started (operation_at emitted)) with true. cbv iota. run.
  fold (stream_call emitted r w d). by destruct (stream_call emitted r w d) as [[operation d'] [emission|e]].
Qed.

Lemma reader_finished_run r w d : reader_finished (idle r w d) = (idle r w d, Ok (sr_finished r)).
Proof. unfold reader_finished. run. assert (dp_reader (idle r w d) = Some r) as -> by (by destruct d). by run. Qed.

Lemma finished_bind {B} (k : bool → M (StreamOp * D) (Stop DispatchError) B) op r w d :
  (on_dispatcher reader_finished ≫= k) (op, idle r w d) = k (sr_finished r) (op, idle r w d).
Proof. unfold mbind, M_bind, on_dispatcher, zoom. cbn [fst snd]. by rewrite reader_finished_run. Qed.

Lemma stream_bind {A B} (m : W (StreamReader I * WindowSource) A)
    (k : result WiseError A → M (StreamOp * D) (Stop DispatchError) B) op r w d r' w' res :
  m (r, w) = ((r', w'), res) →
  (on_dispatcher (with_stream m) ≫= k) (op, idle r w d) =
  match res with
  | Ok a => k (Ok a) (op, idle r' w' d)
  | Err (Fail e) => k (Err e) (op, idle r' w' d)
  | Err Panic => ((op, idle r' w' d), Err Panic)
  | Err OutOfFuel => ((op, idle r' w' d), Err OutOfFuel)
  end.
Proof.
  intros E. unfold mbind, M_bind, on_dispatcher, zoom. cbn [fst snd]. rewrite with_stream_run, E.
  destruct res as [a|[e| |]]; done.
Qed.

(** A call that stops at a read is called again once it is answered. *)
Lemma stream_miss emitted r w d out r1 w1 w' :
  dp_armed d = None → served source w1 = Some w' →
  stream_call emitted r w d = on_dispatcher arm_window (operation_at emitted, idle r1 w1 d) →
  loop_turn source (streaming emitted r w d, out) = inl (streaming emitted r1 w' d, out).
Proof.
  intros Harm Hs E. destruct (served_pending source w1 w' Hs) as [pending Ep].
  rewrite streaming_turn, E. unfold on_dispatcher, zoom. cbn [fst snd].
  assert (with_window w1 (idle r1 w1 d) = idle r1 w1 d) as <- by (by destruct d). rewrite (arm_run w1 pending _ Ep).
  assert (streaming emitted r1 w' d = with_window w' (streaming emitted r1 w1 d)) as -> by (by destruct d).
  rewrite <-(read_served source w1 pending w' (streaming emitted r1 w1 d) out); [|by destruct d|by destruct d|done..].
  f_equal. f_equal. by destruct d.
Qed.

(** The checks behind a stream that has emitted so much. *)
Definition stream_confirmed (metrics : StreamMetrics) (emitted : N) : bool :=
  is_match (sm_checksum metrics) && ((declared =? 0) || (declared =? sm_computed_crc32 metrics)) &&
  (sm_inflated_len metrics =? size) && (emitted =? size).

Lemma call_finish emitted r w d r1 w1 res :
  sr_finished r = true → stream_finish (r, w) = ((r1, w1), res) →
  stream_call emitted r w d =
  match res with
  | Ok metrics =>
      if stream_confirmed metrics emitted
      then ((so_put_flags true true (operation_at emitted), idle r1 w1 d), Ok EM_Complete)
      else ((operation_at emitted, idle r1 w1 d), Err (Fail DE_Failed))
  | Err (Fail WE_SourceFailed) => on_dispatcher arm_window (operation_at emitted, idle r1 w1 d)
  | Err (Fail _) => ((operation_at emitted, idle r1 w1 d), Err (Fail DE_Failed))
  | Err Panic => ((operation_at emitted, idle r1 w1 d), Err Panic)
  | Err OutOfFuel => ((operation_at emitted, idle r1 w1 d), Err OutOfFuel)
  end.
Proof.
  intros Hf E. unfold stream_call, inflate_step_of. rewrite finished_bind, Hf. unfold conclude_stream.
  rewrite (stream_bind _ _ _ _ _ _ _ _ _ E). destruct res as [m|[e| |]]; [|by destruct e|done..].
  run. unfold stream_confirmed. change (so_emitted (operation_at emitted, idle r1 w1 d).1) with emitted.
  destruct (is_match _), (declared =? 0), (declared =? _), (sm_inflated_len m =? size), (emitted =? size); done.
Qed.

Definition put_chunk (l : list byte) (d : D) : D := set_chunk (splice 0 l (dp_chunk d)) d.

Lemma call_read emitted r w d r1 w1 res :
  sr_finished r = false → len (dp_chunk d) = CHUNK_BYTES →
  stream_read CHUNK_BYTES (r, w) = ((r1, w1), res) →
  stream_call emitted r w d =
  match res with
  | Ok l =>
      if len l =? 0 then
        if sr_finished r1 then stream_call emitted r1 w1 d
        else ((operation_at emitted, idle r1 w1 d), Err (Fail DE_Failed))
      else
        let emitted' := saturating_add 64 emitted (len l) in
        ((operation_at emitted', idle r1 w1 (put_chunk l d)),
         if size <? emitted' then Err (Fail DE_Failed) else Ok (EM_Chunk (len l)))
  | Err (Fail WE_SourceFailed) => on_dispatcher arm_window (operation_at emitted, idle r1 w1 d)
  | Err (Fail _) => ((operation_at emitted, idle r1 w1 d), Err (Fail DE_Failed))
  | Err Panic => ((operation_at emitted, idle r1 w1 d), Err Panic)
  | Err OutOfFuel => ((operation_at emitted, idle r1 w1 d), Err OutOfFuel)
  end.
Proof.
  intros Hf Hc E. unfold stream_call at 1, inflate_step_of. rewrite finished_bind, Hf. run. cbn [snd].
  assert (len (dp_chunk (idle r w d)) = CHUNK_BYTES) as -> by (by destruct d).
  rewrite (stream_bind _ _ _ _ _ _ _ _ _ E). destruct res as [l|[e| |]]; [|by destruct e|done..].
  destruct (len l =? 0).
  - rewrite finished_bind. destruct (sr_finished r1) eqn:Hf1; [|done]. cbn [negb].
    unfold stream_call, inflate_step_of. by rewrite finished_bind, Hf1.
  - cbv zeta. unfold mbind at 1, M_bind at 1, on_dispatcher, zoom, modify. cbn [fst snd].
    assert (set_chunk (splice 0 l (dp_chunk (idle r1 w1 d))) (idle r1 w1 d) = idle r1 w1 (put_chunk l d)) as -> by (by destruct d).
    unfold mbind at 1, M_bind at 1, on_operation, modify. cbn [fst snd]. run.
    change (so_emitted (so_put_emitted (saturating_add 64 (so_emitted (operation_at emitted)) (len l)) (operation_at emitted),
      idle r1 w1 (put_chunk l d)).1) with (saturating_add 64 emitted (len l)).
    by destruct (size <? _).
Qed.

(** *** The turns of a stream *)

Lemma put_chunk_length l d : len l ≤ len (dp_chunk d) → len (dp_chunk (put_chunk l d)) = len (dp_chunk d).
Proof.
  clear. intros Hl. destruct d. cbn in *. unfold len in *. rewrite length_splice; [done|]. unfold len. lia.
Qed.

Lemma emit_chunk emitted r w l d out :
  len l ≤ len (dp_chunk d) →
  emit source (EM_Chunk (len l)) (streaming emitted r w (put_chunk l d), out) =
  inl (streaming emitted r w (put_chunk l d), out ++ [DA_DataChunk l]).
Proof.
  intros Hl. unfold emit, action_of. cbn [fst snd]. run.
  assert (dp_chunk (streaming emitted r w (put_chunk l d)) = splice 0 l (dp_chunk d)) as Ec by (by destruct d).
  rewrite Ec. assert (len (splice 0 l (dp_chunk d)) = len (dp_chunk d)) as ->.
  { unfold len. rewrite length_splice; [done|]. unfold len in *. lia. }
  rewrite (proj2 (N.ltb_ge _ _)) by done. unfold mret, M_ret, respond. cbn [fst snd].
  unfold splice. change (take (N.to_nat 0) (dp_chunk d)) with (@nil byte). cbn [app].
  by rewrite len_to_nat, take_app_length.
Qed.

(** The end of a stream, over the calls the window takes for it. *)
Lemma finish_leads emitted r w d out :
  driving_at source limits start r → sr_finished r = true → movable w → dp_armed d = None →
  (∀ e, (stream_finish (r, tt)).2 = Err e → False) →
  ∃ w1, movable w1 ∧ leads (streaming emitted r w d, out)
    match (stream_finish (r, tt)).2 with
    | Ok metrics =>
        if stream_confirmed metrics emitted
        then inr ((set_active (AC_Stream (so_put_flags true true (operation_at emitted))) (idle r w1 d), out), Ok tt)
        else inr ((streaming emitted r w1 d, out), Err (Fail DE_Failed))
    | Err e => inr ((streaming emitted r w1 d, out), Err (Fail DE_Failed))
    end.
Proof.
  intros Hr Hf Hw Harm Hok.
  assert (Hdone : ∀ w1, stream_finish (r, w1) = ((r, w1), (stream_finish (r, tt)).2) →
    loop_turn source (streaming emitted r w1 d, out) =
    match (stream_finish (r, tt)).2 with
    | Ok metrics =>
        if stream_confirmed metrics emitted
        then inr ((set_active (AC_Stream (so_put_flags true true (operation_at emitted))) (idle r w1 d), out), Ok tt)
        else inr ((streaming emitted r w1 d, out), Err (Fail DE_Failed))
    | Err e => inr ((streaming emitted r w1 d, out), Err (Fail DE_Failed))
    end).
  { intros w1 E. rewrite streaming_turn, (call_finish _ _ _ _ _ _ _ Hf E).
    destruct (stream_finish (r, tt)).2 as [m|e]; [|by destruct (Hok e)].
    destruct (stream_confirmed m emitted); [done|]. by destruct d. }
  assert (Hchunk' : wise_chunk_bytes limits ≤ capacity) by lia.
  assert (H4 : 4 ≤ capacity) by (unfold CHUNK_BYTES in Hcapacity; lia).
  destruct (stream_finish_mimics source limits capacity Hsource Hchunk' H4 start r w Hr Hf Hw)
    as [(res & E & Em)|(E & Ho & _)].
  { exists w. split; [done|]. apply leads_to, Hdone. by rewrite Em. }
  destruct (miss_served source capacity w _ Hw Ho) as (w' & Es & Hw' & Hpk). exists w'. split; [done|].
  eapply leads_via.
  - eapply (stream_miss emitted r w d out r _ w'); [done|exact Es|]. by rewrite (call_finish _ _ _ _ _ _ _ Hf E).
  - apply leads_to, Hdone.
    destruct (stream_finish_mimics source limits capacity Hsource Hchunk' H4 start r w' Hr Hf Hw')
      as [(res & E' & Em)|(_ & _ & [])]; [by rewrite Em|done].
Qed.

Lemma chunk_capacity : wise_chunk_bytes limits ≤ capacity.
Proof. by rewrite Hchunk. Qed.

Lemma trailer_capacity : 4 ≤ capacity.
Proof. by etrans; [|exact Hcapacity]. Qed.

(** The calls of a read, up to the last. *)
Lemma retried_last emitted r w d out r1 w1 res :
  dp_armed d = None → len (dp_chunk d) = CHUNK_BYTES → reading_at source limits start r →
  retried source capacity (stream_read CHUNK_BYTES) (reading_at source limits start) r w r1 w1 res →
  ∃ r0, leads (streaming emitted r w d, out) (inl (streaming emitted r0 w1 d, out)) ∧
    sr_finished r0 = false ∧ stream_read CHUNK_BYTES (r0, w1) = ((r1, w1), res).
Proof.
  intros Harm Hc Hr Hre. revert Hr.
  induction Hre as [r w r1 res E Hne|r w r' wm w' r1 w1 res E Es Hr' Hw' Hre IH]; intros Hr.
  - exists r. split; [apply leads_refl|]. by split; [apply Hr|].
  - destruct (IH Hr') as (r0 & Hlead & Hf & E0). exists r0. split; [|done].
    apply (leads_via _ _ (streaming emitted r' w' d, out)); [|done].
    eapply stream_miss; [done|exact Es|].
    by rewrite (call_read emitted r w d _ _ _ (proj1 Hr) Hc E).
Qed.

(** The turn after the last call of a read. *)
Lemma read_turn_emits emitted r0 r1 w1 d out l :
  sr_finished r0 = false → len (dp_chunk d) = CHUNK_BYTES → emitted + len l < 2 ^ 64 → l ≠ [] → len l ≤ CHUNK_BYTES →
  stream_read CHUNK_BYTES (r0, w1) = ((r1, w1), Ok l) →
  loop_turn source (streaming emitted r0 w1 d, out) =
  if size <? emitted + len l
  then inr ((streaming (emitted + len l) r1 w1 (put_chunk l d), out), Err (Fail DE_Failed))
  else inl (streaming (emitted + len l) r1 w1 (put_chunk l d), out ++ [DA_DataChunk l]).
Proof.
  intros Hf Hc Hfit Hne Hl E. rewrite streaming_turn, (call_read emitted r0 w1 d _ _ _ Hf Hc E).
  assert (len l ≠ 0) as Hn by by rewrite len_0_nil. rewrite (proj2 (N.eqb_neq _ _) Hn). cbv zeta.
  assert (saturating_add 64 emitted (len l) = emitted + len l) as -> by (apply N.min_l; lia).
  assert (set_active (AC_Stream (operation_at (emitted + len l))) (idle r1 w1 (put_chunk l d)) =
    streaming (emitted + len l) r1 w1 (put_chunk l d)) as Es by (by destruct d).
  destruct (size <? emitted + len l); rewrite Es; [done|]. apply emit_chunk. by rewrite Hc.
Qed.

(** The end is reached within the call that reads nothing more. *)
Lemma read_turn_ends emitted r0 r1 w1 d out :
  sr_finished r0 = false → sr_finished r1 = true → len (dp_chunk d) = CHUNK_BYTES →
  stream_read CHUNK_BYTES (r0, w1) = ((r1, w1), Ok []) →
  loop_turn source (streaming emitted r0 w1 d, out) = loop_turn source (streaming emitted r1 w1 d, out).
Proof.
  intros Hf Hf1 Hc E. rewrite !streaming_turn, (call_read emitted r0 w1 d _ _ _ Hf Hc E).
  change (len [] =? 0) with true. by rewrite Hf1.
Qed.

Lemma leads_same_turn (s s' : state) r : loop_turn source s = loop_turn source s' → leads s' (inr r) → leads s (inr r).
Proof. intros E [[|n] En]; [done|]. exists (S n). cbn [turns] in *. by rewrite E. Qed.

(** The dispatcher a stream leaves behind. *)
Definition left_by (d d' : D) : Prop := ∃ active r w l,
  d' = set_active active (set_reader (Some r) (with_window w (set_chunk l d))) ∧
  movable w ∧ sr_limits r = limits ∧ len l = len (dp_chunk d).

(** How a stream ends, given what the blocking reader gathers. *)
Definition stream_ends (d : D) (delivered : list byte)
    (gathered : (unit * list byte) * result (Stop WiseError) (StreamReader I))
    (r : state * result (Stop DispatchError) unit) : Prop :=
  match gathered with
  | ((_, bytes), Ok reader) =>
      match (stream_finish (reader, tt)).2 with
      | Ok metrics =>
          if stream_confirmed metrics (len bytes) then r.2 = Ok tt ∧ delivered = bytes ∧ left_by d r.1.1
          else r.2 = Err (Fail DE_Failed)
      | Err _ => r.2 = Err (Fail DE_Failed)
      end
  | (_, Err _) => r.2 = Err (Fail DE_Failed)
  end.

Lemma left_by_chunk l d d' : len l ≤ len (dp_chunk d) → left_by (put_chunk l d) d' → left_by d d'.
Proof.
  intros Hl (a & r & w & l' & -> & Hw & Hr & Hlen). exists a, r, w, l'. split; [by destruct d|].
  split; [done|]. split; [done|]. by rewrite Hlen, put_chunk_length.
Qed.

Abbreviation gathered := (gathered (I := I) source limits).

Lemma finish_wp acc r :
  at_reader start limits acc r → sr_finished r = true → fits 64 start →
  ∃ m, (stream_finish (r, tt)).2 = Ok m.
Proof.
  intros Hr Hf Hs.
  pose proof (stream_finish_wp source (2 ^ 64) (λ _, True) (λ _, True) False start limits acc r tt
    Hr Hf Logic.I Hs ltac:(by vm_compute)) as Hfin. unfold wp in Hfin.
  destruct (stream_finish (r, tt)) as [[r2 []] [m|e]]; [by exists m|]. by destruct Hfin as (_ & _ & _ & []).
Qed.

(** The whole stream. *)
Lemma stream_leads acc r w d out :
  fits 64 start → at_reader start limits acc r → len acc ≤ size → movable w → dp_armed d = None → len (dp_chunk d) = CHUNK_BYTES →
  ∃ chunks res, leads (streaming (len acc) r w d, out) (inr res) ∧
    Forall (λ chunk, 0 < len chunk ≤ CHUNK_BYTES) chunks ∧ res.1.2 = out ++ (DA_DataChunk <$> chunks) ∧
    len (acc ++ concat chunks) ≤ size ∧ stream_ends d (acc ++ concat chunks) (gathered r acc) res.
Proof.
  intros Hs. remember (N.to_nat (drive_left limits r)) as n eqn:En. revert acc r w d out En.
  induction n as [n IH] using lt_wf_ind; intros acc r w d out En Hr Hacc Hw Harm Hc. subst n.
  assert (driving_at source limits start r) as Hd by (by eexists).
  assert (Hend : ∀ r1 w1, at_reader start limits acc r1 → sr_finished r1 = true → movable w1 →
    ∃ chunks res, leads (streaming (len acc) r1 w1 d, out) (inr res) ∧
      Forall (λ chunk, 0 < len chunk ≤ CHUNK_BYTES) chunks ∧ res.1.2 = out ++ (DA_DataChunk <$> chunks) ∧
      len (acc ++ concat chunks) ≤ size ∧ stream_ends d (acc ++ concat chunks) (gathered r1 acc) res).
  { intros r1 w1 Hr1 Hf1 Hw1. destruct (finish_wp acc r1 Hr1 Hf1 Hs) as [m Em].
    destruct (finish_leads (len acc) r1 w1 d out ltac:(by eexists) Hf1 Hw1 Harm) as (w2 & Hw2 & Hlead).
    { intros e Ee. congruence. }
    rewrite Em in Hlead. exists []. cbn [concat fmap list_fmap]. rewrite !app_nil_r.
    rewrite (gather_unfold source limits capacity Hsource Hlimits chunk_capacity trailer_capacity start) by done.
    rewrite Hf1. unfold stream_ends. rewrite Em. destruct (stream_confirmed m (len acc)) eqn:Ec.
    - eexists. split; [exact Hlead|]. do 3 (split; [done|]). split; [done|]. split; [done|].
      exists (AC_Stream (so_put_flags true true (operation_at (len acc)))), r1, w2, (dp_chunk d).
      split; [by destruct d|]. split; [done|]. split; [by destruct Hr1|done].
    - eexists. split; [exact Hlead|]. done. }
  destruct (sr_finished r) eqn:Hf; [by apply Hend|].
  assert (reading_at source limits start r) as Hrd by (by split).
  assert (Hmim : ∀ r w, reading_at source limits start r → movable w →
    mimics source capacity (stream_read (I := I) CHUNK_BYTES) (stream_read CHUNK_BYTES) (reading_at source limits start) r w).
  { intros. apply (read_into_mimics source limits capacity Hsource Hlimits chunk_capacity trailer_capacity); done. }
  assert (Href : ∀ r, reading_at source limits start r →
    (stream_read (I := I) CHUNK_BYTES (r, tt)).2 ≠ Err (Fail WE_SourceFailed)).
  { intros r2 H2. rewrite <-Hchunk. by apply (reading_refuses source limits capacity Hsource chunk_capacity trailer_capacity start). }
  destruct (mimics_retried source limits capacity Hsource chunk_capacity trailer_capacity (stream_read (I := I) CHUNK_BYTES)
    (reading_at source limits start) (stream_read CHUNK_BYTES) Hmim Href r w Hrd Hw)
    as (r1 & w1 & res & Em & Hre & Hw1).
  destruct (retried_last (len acc) r w d out r1 w1 res Harm Hc Hrd Hre) as (r0 & Hlead & Hf0 & E0).
  pose proof (stream_read_wp source (2 ^ 64) (λ _, True) (λ _, True) False start limits acc r tt
    CHUNK_BYTES Hr Logic.I ltac:(done)) as Hwp. unfold wp in Hwp.
  pose proof (read_driving source limits capacity Hsource chunk_capacity trailer_capacity start r Hd Hf) as Hdr.
  rewrite (gather_unfold source limits capacity Hsource Hlimits chunk_capacity trailer_capacity start), Hf by done.
  rewrite Hchunk in *. rewrite Em in *. destruct res as [l|e].
  2:{ destruct Hwp as [_ [(error & -> & Hne)|(_ & [] & _)]]. exists [], ((streaming (len acc) r1 w1 d, out), Err (Fail DE_Failed)).
      cbn [concat fmap list_fmap]. rewrite !app_nil_r. split; [|done].
      eapply leads_trans; [exact Hlead|]. apply leads_to.
      rewrite streaming_turn, (call_read _ _ _ _ _ _ _ Hf0 Hc E0). destruct error; done || by destruct d. }
  destruct Hwp as (_ & Hr1 & Hlen & _ & Hor). destruct Hdr as (_ & Hlt & _).
  destruct (decide (l = [])) as [->|Hne].
  { rewrite app_nil_r in *. destruct Hor as [[]|Hf1]; [done|].
    destruct (Hend r1 w1 Hr1 Hf1 Hw1) as (chunks & res & Hl1 & Hrest). exists chunks, res. split; [|exact Hrest].
    eapply leads_trans; [exact Hlead|]. eapply leads_same_turn; [|exact Hl1]. by apply read_turn_ends. }
  assert (len acc + len l < 2 ^ 64) as Hfit.
  { destruct (ra_inflated _ _ _ _ _ _ _ Hr1) as [_ Hmax]. rewrite len_app in Hmax. destruct Hlimits. lia. }
  pose proof (read_turn_emits (len acc) r0 r1 w1 d out l Hf0 Hc Hfit Hne Hlen E0) as Hturn.
  destruct (N.ltb_spec size (len acc + len l)) as [Hover|Hroom].
  - eexists [], _. cbn [concat fmap list_fmap]. rewrite !app_nil_r.
    split; [eapply leads_trans; [exact Hlead|]; by apply leads_to|]. do 3 (split; [done|]).
    unfold stream_ends. destruct (gathered r1 (acc ++ l)) as [[[] bytes] [r2|e]] eqn:Eg; [|done].
    destruct (gathered_extends source limits capacity Hsource Hlimits chunk_capacity trailer_capacity start r1 (acc ++ l)
      _ _ Hr1 Eg) as [[tail Et] _]. cbn in Et. subst bytes.
    destruct (stream_finish (r2, tt)).2 as [m|]; [|done]. unfold stream_confirmed.
    rewrite (proj2 (N.eqb_neq (len _) size)), !andb_false_r; [done|]. rewrite !len_app. lia.
  - rewrite <-len_app in Hturn, Hroom.
    destruct (IH (N.to_nat (drive_left limits r1)) ltac:(lia) (acc ++ l) r1 w1 (put_chunk l d) (out ++ [DA_DataChunk l]) eq_refl
      Hr1 Hroom Hw1) as (chunks & res & Hl1 & Hall & Hout & Hsize & Hends); [by destruct d|by rewrite put_chunk_length by lia|].
    exists (l :: chunks), res. cbn [concat fmap list_fmap]. rewrite <-app_assoc in *. split.
    { eapply leads_trans; [exact Hlead|]. eapply leads_trans; [by apply leads_to|exact Hl1]. }
    split; [constructor; [|done]|].
    { split; [|done]. assert (len l ≠ 0) by by rewrite len_0_nil. lia. }
    split; [done|]. split; [done|]. unfold stream_ends in *.
    destruct (gathered r1 (acc ++ l)) as [[[] bytes] [r2|e]]; [|done].
    destruct (stream_finish (r2, tt)).2 as [m|]; [|done]. destruct (stream_confirmed m (len bytes)); [|done].
    destruct Hends as (? & ? & Hleft). split; [done|]. split; [done|]. apply (left_by_chunk l); [lia|done].
Qed.
End stream.
