(* ===== verification/BackendDispatch.v ===== *)
(** * The guarantees of the container dispatcher

    An enumeration offers what the container resolves to, and a stream delivers
    the entry that was offered: the properties of [BackendDispatcher.v]. *)

From stdpp Require Import gmap sets.
From S2P Require Export BackendStream BackendEntries.

Section begin.
Context {I : Type} `{InflaterLaws I} {L : Type} `{CabinetDecoder L} (source : list byte).
Abbreviation D := (ContainerDispatcher I L).

(** The capacity of the window a policy leads to. *)
Definition policy_window (policy : SourceReadPolicy) : N :=
  window_bytes (N.min (maximum_read_bytes policy) DEFAULT_WINDOW_BYTES).

(** Beginning a stream picks the offer with the token. *)
Lemma begin_ready limits capacity container l i e plan policy (d : D) :
  ready source limits capacity container l d → NoDup (be_source_token <$> l.*1) → l !! i = Some (e, plan) →
  dispatch_begin Op_Stream (be_source_token e) policy d =
  (operation ← lift match plan with
     | PL_WiseStream _ _ size_bytes => Ok (size_bytes, [])
     | PL_Buffered token size_bytes =>
         bytes ← extract_of (Some container) limits token;
         if negb (len bytes =? size_bytes) then Err (Fail DE_Failed) else Ok (size_bytes, bytes)
     end;
   modify (set_active (AC_Stream {| so_plan := plan; so_emitted := 0; so_buffered := operation.2;
                                    so_started := false; so_verified := false |}));;
   mret operation.1) d.
Proof.
  intros [Hlim (w & Hw & _) Hcont Hent Hplan _ Harm Hsup _] Hnd Hi. unfold dispatch_begin. run. rewrite Hsup, Hw. run.
  rewrite (set_armed_same d Harm). unfold begin_stream. run. rewrite Hent, Hplan, Hcont, Hlim.
  assert (l.*1 !! i = Some e) as Hie by (apply list_lookup_fmap_Some; by exists (e, plan)).
  assert (l.*2 !! i = Some plan) as Hip by (apply list_lookup_fmap_Some; by exists (e, plan)).
  assert (list_find (λ entry, be_source_token entry = be_source_token e) l.*1 = Some (i, e)) as ->.
  { apply list_find_Some. split; [done|]. split; [done|]. intros j e' Hj Hlt Et.
    assert (j = i); [|lia]. eapply (NoDup_lookup _ _ _ (be_source_token e) Hnd); apply list_lookup_fmap_Some; eauto. }
  run. cbn [fst]. rewrite Hip. by run.
Qed.

(** ** Streams of a buffered container *)

Section buffered.

Lemma chunk_bytes : CHUNK_BYTES = 65536.
Proof. done. Qed.

(** The rest of an entry, in chunks. *)
Definition buffered_at (plan : Plan) (bytes : list byte) (emitted : N) (d : D) : D :=
  set_active (AC_Stream {| so_plan := plan; so_emitted := emitted; so_buffered := bytes; so_started := false;
                           so_verified := false |}) d.

(** What is lent is what was put at the front of the chunk. *)
Lemma emit_lent l chunk (d : D) out :
  dp_chunk d = splice 0 l chunk → len l ≤ len chunk →
  emit source (EM_Chunk (len l)) (d, out) = inl (d, out ++ [DA_DataChunk l]).
Proof.
  intros Ec Hl. unfold emit, action_of. cbn [fst snd]. run. rewrite Ec.
  assert (len (splice 0 l chunk) = len chunk) as ->.
  { unfold len. rewrite length_splice; [done|]. unfold len in *. lia. }
  rewrite (proj2 (N.ltb_ge _ _)) by done. unfold mret, M_ret, respond. cbn [fst snd].
  unfold splice. change (take (N.to_nat 0) chunk) with (@nil byte). cbn [app].
  by rewrite len_to_nat, take_app_length.
Qed.

Definition buffered_op (plan : Plan) (bytes : list byte) (emitted : N) : StreamOp :=
  {| so_plan := plan; so_emitted := emitted; so_buffered := bytes; so_started := false; so_verified := false |}.

Lemma buffered_call plan bytes emitted (d : D) :
  len bytes < 2 ^ 63 → emitted ≤ len bytes → len (dp_chunk d) = CHUNK_BYTES →
  let chunk := subslice emitted CHUNK_BYTES bytes in
  buffered_step (len bytes) (buffered_op plan bytes emitted, d) =
  if emitted =? len bytes then ((buffered_op plan bytes emitted, d), Ok EM_Complete)
  else ((buffered_op plan bytes (emitted + len chunk), put_chunk chunk d), Ok (EM_Chunk (len chunk))).
Proof.
  intros Hlen He Hc chunk. unfold buffered_step. run. cbn [fst snd].
  change (so_emitted (buffered_op plan bytes emitted)) with emitted.
  change (so_buffered (buffered_op plan bytes emitted)) with bytes.
  destruct (N.eqb_spec emitted (len bytes)) as [->|Hne]; [by rewrite N.leb_refl|].
  rewrite (proj2 (N.leb_gt _ _)) by lia. pose proof chunk_bytes as Hfull.
  assert (len chunk = N.min CHUNK_BYTES (len bytes - emitted)) as Hk by apply len_subslice_le.
  assert (saturating_add 64 emitted CHUNK_BYTES = emitted + CHUNK_BYTES) as -> by (apply N.min_l; lia).
  assert (N.min (emitted + CHUNK_BYTES) (len bytes) - emitted = len chunk) as -> by lia.
  rewrite (proj2 (N.leb_gt _ _)) by lia.
  rewrite Hc, (proj2 (N.ltb_ge _ (len chunk))) by lia.
  assert (subslice emitted (len chunk) bytes = chunk) as -> by (rewrite Hk; apply subslice_min).
  unfold mbind at 1 2, M_bind at 1 2, on_dispatcher, on_operation, zoom, modify. cbn [fst snd].
  assert (saturating_add 64 emitted (len chunk) = emitted + len chunk) as -> by (apply N.min_l; lia).
  reflexivity.
Qed.

Lemma buffered_turn token bytes emitted (d : D) out :
  len bytes < 2 ^ 63 → emitted ≤ len bytes → len (dp_chunk d) = CHUNK_BYTES →
  let plan := PL_Buffered token (len bytes) in
  let chunk := subslice emitted CHUNK_BYTES bytes in
  loop_turn source (buffered_at plan bytes emitted d, out) =
  if emitted =? len bytes then inr ((buffered_at plan bytes emitted d, out), Ok tt)
  else inl (buffered_at plan bytes (emitted + len chunk) (put_chunk chunk d), out ++ [DA_DataChunk chunk]).
Proof.
  intros Hlen He Hc plan chunk. unfold loop_turn, advance_turn. cbn [fst snd]. run.
  change (buffered_at plan bytes emitted d) with (set_active (AC_Stream (buffered_op plan bytes emitted)) d).
  set (op := buffered_op plan bytes emitted).
  assert (dp_active (set_active (AC_Stream op) d) = AC_Stream op) as -> by (by destruct d).
  unfold mbind at 1, M_bind at 1, stream_step.
  assert (dp_active (set_active (AC_Stream op) d) = AC_Stream op) as -> by (by destruct d).
  rewrite set_active_twice. change (so_plan op) with (PL_Buffered token (len bytes)). cbv iota beta. unfold op.
  assert (len (dp_chunk (set_active AC_None d)) = CHUNK_BYTES) as Hc' by (by destruct d).
  rewrite (buffered_call plan bytes emitted (set_active AC_None d) Hlen He Hc'). fold chunk.
  destruct (emitted =? len bytes).
  { unfold mret, M_ret, emit, action_of. cbn [fst snd]. run. unfold mret, M_ret, respond. by rewrite set_active_twice. }
  unfold mret, M_ret. assert (set_active (AC_Stream (buffered_op plan bytes (emitted + len chunk)))
      (put_chunk chunk (set_active AC_None d)) =
    buffered_at plan bytes (emitted + len chunk) (put_chunk chunk d)) as -> by (by destruct d).
  apply (emit_lent chunk (dp_chunk d)); [by destruct d|]. rewrite Hc. unfold chunk. rewrite len_subslice_le. lia.
Qed.

Lemma buffered_leads token bytes emitted (d : D) out :
  len bytes < 2 ^ 63 → emitted ≤ len bytes → len (dp_chunk d) = CHUNK_BYTES →
  let plan := PL_Buffered token (len bytes) in
  ∃ chunks l, leads (loop_turn source) (buffered_at plan bytes emitted d, out)
      (inr ((buffered_at plan bytes (len bytes) (set_chunk l d), out ++ (DA_DataChunk <$> chunks)), Ok tt)) ∧
    len l = CHUNK_BYTES ∧ concat chunks = drop (N.to_nat emitted) bytes ∧
    Forall (λ chunk, 0 < len chunk ≤ CHUNK_BYTES) chunks.
Proof.
  intros Hlen He Hc plan. remember (N.to_nat (len bytes - emitted)) as n eqn:En. revert emitted d out En He Hc.
  induction n as [n IH] using lt_wf_ind; intros emitted d out En He Hc. subst n.
  pose proof (buffered_turn token bytes emitted d out Hlen He Hc) as Hturn. cbv zeta in Hturn.
  destruct (N.eqb_spec emitted (len bytes)) as [->|Hne].
  { exists [], (dp_chunk d). cbn [fmap list_fmap concat]. rewrite app_nil_r. split; [|split; [done|split; [|constructor]]].
    - assert (set_chunk (dp_chunk d) d = d) as -> by (by destruct d). by apply leads_to.
    - by rewrite len_to_nat, drop_all. }
  set (chunk := subslice emitted CHUNK_BYTES bytes) in *.
  assert (len chunk = N.min CHUNK_BYTES (len bytes - emitted)) as Hk by apply len_subslice_le.
  pose proof chunk_bytes as Hfull.
  destruct (IH (N.to_nat (len bytes - (emitted + len chunk))) ltac:(lia) (emitted + len chunk) (put_chunk chunk d)
    (out ++ [DA_DataChunk chunk]) eq_refl ltac:(lia)) as (chunks & l & Hl & Hll & Hcat & Hall).
  { rewrite put_chunk_length by lia. done. }
  exists (chunk :: chunks), l. split; [|split; [done|split]].
  - eapply leads_trans; [by apply leads_to|]. cbn [fmap list_fmap]. rewrite <-app_assoc in Hl.
    assert (set_chunk l (put_chunk chunk d) = set_chunk l d) as El by (by destruct d). by rewrite El in Hl.
  - cbn [concat]. rewrite Hcat. replace (N.to_nat (emitted + len chunk)) with (N.to_nat emitted + N.to_nat (len chunk))%nat by lia.
    rewrite <-drop_drop. assert (chunk = take (N.to_nat (len chunk)) (drop (N.to_nat emitted) bytes)) as Et.
    { rewrite Hk. symmetry. apply (subslice_min emitted CHUNK_BYTES bytes). }
    rewrite Et at 1. apply take_drop.
  - constructor; [lia|done].
Qed.
End buffered.

(** ** Streams of a package *)

Context (limits : BackendLimits L) (capacity : N).
Context (Hsource : 0 < len source < 2 ^ 63) (Hsane : limits_sane (bl_wise limits)).
Context (Hchunk : wise_chunk_bytes (bl_wise limits) = CHUNK_BYTES) (Hcapacity : CHUNK_BYTES ≤ capacity < 2 ^ 32).
Context (Hrecords : wl_max_file_records (bl_wise limits) ≤ 2 ^ 32).
#[local] Hint Extern 0 (ImageSource unit) => exact (source_slice source) : typeclass_instances.
#[local] Hint Extern 0 (WiseCancellation unit) => exact slice_cancel : typeclass_instances.

#[local] Instance dispatch_serves : Serves unit source (2 ^ 64) (λ _, True) (λ _, True) False.
Proof. apply image_slice_serves. lia. Qed.

Lemma source_in_64 : len source < 2 ^ 64.
Proof. lia. Qed.

Lemma chunk_in_window : wise_chunk_bytes (bl_wise limits) ≤ capacity.
Proof. rewrite Hchunk. apply Hcapacity. Qed.

Lemma window_bounds : 64 ≤ capacity < 2 ^ 32.
Proof. destruct Hcapacity. split; [|done]. by etrans; [|done]. Qed.

Lemma window_trailer : 4 ≤ capacity.
Proof. destruct window_bounds. lia. Qed.

(** The streams behind the offers of a package. *)
Lemma package_offers container l :
  resolves source limits capacity CK_WiseOverlay (Ok (container, l)) →
  NoDup (be_source_token <$> l.*1) ∧
  ∀ i e plan, l !! i = Some (e, plan) → ∃ offset declared m,
    plan = PL_WiseStream offset declared (be_size_bytes e) ∧ fits 64 offset ∧
    memory_attempt (I := I) source (bl_wise limits) offset = Ok m ∧ is_match (sm_checksum m) = true ∧
    sm_inflated_len m = be_size_bytes e.
Proof.
  intros (b & res & Hout & E). destruct res as [[]|]; [|done]. injection E as -> ->.
  destruct (outcome_resolved source (bl_wise limits) (proj2 Hsource) Hsane Hrecords capacity b Hout) as [overlay Hb].
  destruct (wise_entries_exact b overlay Hb) as (Hsort & _ & Hperm).
  destruct (collect_offers_spec (bl_maximum_entries limits) b (wise_entries b) [] [] empty_set (N.le_0_l _))
    as (l & El & Hsub & _ & _). rewrite El. cbn [app] in *.
  assert (be_source_token <$> (wise_offer <$> l).*1 = we_token <$> l.*1) as Et.
  { rewrite <-!list_fmap_compose. apply list_fmap_ext. by intros i [e sp] _. }
  rewrite Et. split.
  { eapply (sublist_NoDup _ (we_token <$> wise_entries b)); [|by apply (fmap_sublist we_token)]. clear -Hsort.
    induction Hsort as [|x xs _ IH Hall]; [constructor|]. constructor; [|done].
    intros Hin. pose proof (proj1 (list.Forall_forall _ _) Hall x Hin). lia. }
  intros i e plan Hi. apply list_lookup_fmap_Some in Hi as ([entry spelling] & [= -> ->] & Hi).
  assert (entry ∈ wise_entries b) as Hin.
  { eapply elem_of_sublist; [|exact Hsub]. apply list_elem_of_fmap. exists (entry, spelling).
    split; [done|]. by eapply list_elem_of_lookup_2. }
  assert (offered entry ∈ offered <$> wise_entries b) as Hoff by by apply list_elem_of_fmap_2.
  rewrite Hperm in Hoff. apply list_elem_of_fmap in Hoff as (r & Er & Hr).
  apply list_elem_of_In, List.filter_In in Hr as [Hr Hmatch]. apply list_elem_of_In in Hr.
  unfold offered in Er. injection Er as Eo Es. cbn [be_size_bytes].
  exists (we_compressed_offset entry), (we_declared_crc32 entry), (rec_metrics r). split; [done|].
  apply list_elem_of_lookup in Hr as [j Hj].
  assert (fits 64 (rec_offset r) ∧ memory_attempt (I := I) source (bl_wise limits) (rec_offset r) = Ok (rec_metrics r))
    as [Hf Ha]; [|rewrite Eo, Es; done].
  unfold backend_outcome in Hout. destruct (find_overlay (bl_wise limits) tt).2 as [ov|]; [|done].
  destruct (locate_in_view source (bl_wise limits) capacity ov) as [h|]; [|done].
  destruct Hout as (streams & stop & Hwalk & Hend). destruct stop as [|]; [done|].
  assert (wb_streams b = streams) as Estr.
  { unfold script_outcome in Hend. destruct (streams !! 1%nat) as [script|].
    - destruct Hend as (bytes & _ & Hend). destruct (_ <? _); [done|]. by destruct Hend as [_ [rd ->]].
    - by destruct Hend as [_ [rd ->]]. }
  rewrite Estr in Hj.
  exact (walks_measured source (bl_wise limits) capacity Hsource Hsane chunk_in_window window_bounds _ _ _ _ _ _ Hwalk Hj).
Qed.

(** *** The first step points the reader at the stream *)

Lemma first_step offset declared size container l w (d : D) :
  ready source limits capacity container l d → dp_window d = Some w →
  wise_step offset declared size
    ({| so_plan := PL_WiseStream offset declared size; so_emitted := 0; so_buffered := []; so_started := false;
        so_verified := false |}, set_active AC_None d) =
  inflate_step_of declared size
    (operation_at offset declared size 0, idle (reader_new offset (bl_wise limits)) w d).
Proof.
  intros Hd Hw. unfold wise_step. run. cbn [fst snd so_verified so_started].
  assert (dp_reader (set_active AC_None d) = dp_reader d) as -> by (by destruct d).
  assert (Hrest : ∀ r, sr_limits r = bl_wise limits → restart offset r = reader_new (I := I) offset (bl_wise limits)).
  { intros r Hr. unfold restart, reader_new. by rewrite inflate_reset_new, Hr. }
  assert (Hgo : ∀ r, sr_limits r = bl_wise limits → ∀ d', dp_reader d' = Some r → 
     set_reader (Some r) d' = set_reader (Some r) (set_active AC_None d) →
    ((on_dispatcher (modify (λ self, set_reader (restart offset <$> dp_reader self) self));;
      on_operation (λ operation, so_put_flags true (so_verified operation) operation));;
     inflate_step_of declared size)
      ({| so_plan := PL_WiseStream offset declared size; so_emitted := 0; so_buffered := []; so_started := false;
          so_verified := false |}, d') =
    inflate_step_of declared size
      (operation_at offset declared size 0, idle (reader_new offset (bl_wise limits)) w d)).
  { intros r Hr d' Hd' E. unfold mbind at 1 2, M_bind at 1 2, on_dispatcher, on_operation, zoom, modify. cbn [fst snd].
    rewrite Hd'. cbn [fmap option_fmap option_map]. rewrite (Hrest r Hr). f_equal.
    f_equal. unfold idle. clear -E Hw. destruct d, d'. cbn in *. injection E. intros. by subst. }
  destruct (dp_reader d) as [r|] eqn:Er.
  - run. apply (Hgo r); [by apply (rd_reader _ _ _ _ _ _ Hd)|by destruct d|done].
  - unfold mbind at 1, M_bind at 1, on_dispatcher at 1, zoom, modify at 1. cbn [fst snd].
    assert (dp_limits (set_active AC_None d) = limits) as -> by (destruct d, Hd; done).
    apply (Hgo (reader_new offset (bl_wise limits))); by destruct d.
Qed.

Lemma begun_turn offset declared size container l w (d : D) :
  ready source limits capacity container l d → dp_window d = Some w →
  loop_turn source (set_active (AC_Stream {| so_plan := PL_WiseStream offset declared size; so_emitted := 0;
    so_buffered := []; so_started := false; so_verified := false |}) d, []) =
  loop_turn source (streaming offset declared size 0 (reader_new offset (bl_wise limits)) w d, []).
Proof.
  intros Hd Hw. rewrite streaming_turn. unfold stream_call.
  rewrite <-(first_step offset declared size container l w d Hd Hw).
  unfold loop_turn, advance_turn. cbn [fst snd]. run. set (op := {| so_plan := _ |}).
  assert (dp_active (set_active (AC_Stream op) d) = AC_Stream op) as -> by (by destruct d).
  unfold mbind at 1, M_bind at 1, stream_step.
  assert (dp_active (set_active (AC_Stream op) d) = AC_Stream op) as -> by (by destruct d).
  rewrite set_active_twice. change (so_plan op) with (PL_WiseStream offset declared size). cbv iota beta.
  by destruct (wise_step offset declared size (op, set_active AC_None d)) as [[operation d'] [emission|e]].
Qed.

Lemma left_ready container l (d d' : D) :
  ready source limits capacity container l d → left_by source (bl_wise limits) capacity d d' →
  ready source limits capacity container l d'.
Proof.
  intros [] (a & r & w & chunk & -> & Hw & Hr & Hl). destruct d. cbn in *. subst.
  split; cbn; try done; [by exists w|by rewrite Hl|by intros ? [= <-]].
Qed.
End begin.

(** ** Properties *)

Section properties.
Context {I : Type} `{InflaterLaws I} {L : Type} `{CabinetDecoder L} (source : list byte) (limits : BackendLimits L).
Abbreviation D := (ContainerDispatcher I L).
#[local] Hint Extern 0 (ImageSource unit) => exact (source_slice source) : typeclass_instances.
#[local] Hint Extern 0 (WiseCancellation unit) => exact slice_cancel : typeclass_instances.

(** A source and a policy a session may have; for a package, the hypotheses of
    the back end over the window. *)
Record session_source (policy : SourceReadPolicy) : Prop := {
  sn_source : 0 < len source < 2 ^ 63;
  sn_policy : source_size policy = len source;
  sn_entries : bl_maximum_entries limits < 2 ^ 63;
  sn_wise : recognised_kind source = Some CK_WiseOverlay →
    servable_source source (bl_wise limits) (N.min (maximum_read_bytes policy) DEFAULT_WINDOW_BYTES)
}.

(** C4: The first enumeration of a session, whatever the container is, comes to an
    end, the parent answering each read, provided that the executable headers of a
    Wise package end inside the first window and its chunk fits the window: it is
    unsupported if the container is not recognised or is too large to buffer,
    and otherwise its batches, none empty and none above the limit, are exactly
    the offers the container resolves to, in order, provided they resolve and
    their spellings fit the arena; if not it fails without a batch. The
    dispatcher is then ready to stream each of them. *)
Theorem dispatch_enumerates storage policy :
  session_source policy →
  ∃ d r, dispatch_begin Op_Enumerate 0 policy (dispatcher_new (I := I) storage limits) = (d, Ok 0) ∧
    serves_to source d r ∧ enumerated source limits storage (policy_window policy) r.
Proof.
  intros [Hs Hp He Hw]. set (w := window_new (len source) (N.min (maximum_read_bytes policy) DEFAULT_WINDOW_BYTES)).
  set (d := set_active (AC_Enumerate ES_Detect) (set_armed None (with_window w (dispatcher_new (I := I) storage limits)))).
  assert (64 ≤ policy_window policy < 2 ^ 32) as Hc.
  { unfold policy_window, window_bytes, MINIMUM_WINDOW_BYTES, DEFAULT_WINDOW_BYTES. lia. }
  assert (movable source (policy_window policy) w) as Hm.
  { split; [apply window_new_of; unfold DEFAULT_WINDOW_BYTES; lia|done| |by left].
    unfold window_capacity, w, window_new, policy_window, window_bytes, len. cbn [ws_buffer]. rewrite length_replicate. lia. }
  assert (Hf : unstarted limits storage (set_active (AC_Enumerate ES_Detect) (set_armed None (dispatcher_new (I := I) storage limits)))).
  { split; [reflexivity..| |reflexivity|reflexivity|reflexivity].
    change (len (replicate (N.to_nat CHUNK_BYTES) x00) = CHUNK_BYTES). unfold len. by rewrite length_replicate, N2Nat.id. }
  destruct (enumerate_leads source limits storage (policy_window policy) Hs He Hc w _ Hf Hm eq_refl) as (r & Hl & Hr).
  { intros Hk. by destruct (Hw Hk). }
  exists d, r. split; [|split; [by apply serves_of_leads|done]].
  unfold dispatch_begin. run. cbn [dp_unsupported dispatcher_new dp_window]. run. rewrite Hp. run. done.
Qed.

(** The default chunk of the Wise reader, and a window that holds one. *)
Record wise_session (capacity : N) : Prop := {
  wn_source : 0 < len source < 2 ^ 63;
  wn_limits : limits_sane (bl_wise limits);
  wn_chunk : wise_chunk_bytes (bl_wise limits) = CHUNK_BYTES;
  wn_capacity : CHUNK_BYTES ≤ capacity < 2 ^ 32;
  wn_records : wl_max_file_records (bl_wise limits) ≤ 2 ^ 32
}.

(** C5: Streaming an entry that was offered of a package, in any order and as often
    as wanted: the request is accepted with the offered size and comes to an
    end, the parent answering each read. The chunks are exactly the bytes the
    entry's stream in the source decodes to, of that size and confirmed by the
    checksum behind them, unless the record declares another checksum; only
    then does the request fail, and never after more bytes than were offered. *)
Theorem dispatch_streams capacity container l (d : D) i e plan policy :
  wise_session capacity →
  resolves source limits capacity CK_WiseOverlay (Ok (container, l)) →
  ready source limits capacity container l d → l !! i = Some (e, plan) →
  ∃ offset declared bytes m d' r chunks,
    plan = PL_WiseStream offset declared (be_size_bytes e) ∧
    inflate_bytes (I := I) offset (bl_wise limits) tt = (tt, Ok bytes) ∧
    measured (I := I) source offset (bl_wise limits) bytes m ∧ sm_checksum m = CS_Match ∧ len bytes = be_size_bytes e ∧
    dispatch_begin Op_Stream (be_source_token e) policy d = (d', Ok (be_size_bytes e)) ∧
    serves_to source d' r ∧ r.1.2 = DA_DataChunk <$> chunks ∧
    Forall (λ chunk, 0 < len chunk ≤ CHUNK_BYTES) chunks ∧ len (concat chunks) ≤ be_size_bytes e ∧
    if (declared =? 0) || (declared =? crc32 bytes)
    then r.2 = Ok tt ∧ concat chunks = bytes ∧ ready source limits capacity container l r.1.1
    else r.2 = Err (Fail DE_Failed).
Proof.
  intros [Hs Hl Hch Hcap Hrec] Hres Hd Hi.
  destruct (package_offers source limits capacity Hs Hl Hch Hcap Hrec container l Hres) as [Hnd Hoffers].
  destruct (Hoffers i e plan Hi) as (offset & declared & m & -> & Hoff & Ha & Hmatch & Hsize).
  assert (len source < 2 ^ 64) as Hfits by lia.
  assert (wise_chunk_bytes (bl_wise limits) ≤ capacity) as Hcw by (rewrite Hch; apply Hcap).
  assert (4 ≤ capacity) as H4 by (destruct Hcap as [Hc1 _]; by etrans; [|exact Hc1]).
  pose proof (ls_fit _ Hl) as Hfit.
  destruct (gathered_of_attempt (I := I) source (bl_wise limits) capacity Hfits Hcw H4 offset m Hoff Ha)
    as (bytes & rd & Eg & Ei & Em).
  pose proof (gathered_measured source (bl_wise limits) capacity Hfits Hfit Hcw H4 offset bytes rd m Hoff Eg Em) as Hm.
  pose proof (begin_ready source limits capacity container l i e _ policy d Hd Hnd Hi) as Hbegin. cbv iota beta in Hbegin.
  rewrite (M_bind_step (lift _) _ _ _ _ eq_refl) in Hbegin. cbn [fst snd] in Hbegin.
  destruct (rd_window _ _ _ _ _ _ Hd) as (w & Hw & Hmv).
  destruct (stream_leads (I := I) source (bl_wise limits) capacity Hfits Hfit Hch (proj1 Hcap) offset declared (be_size_bytes e)
    [] (reader_new offset (bl_wise limits)) w d []) as (chunks & res & Hlead & Hall & Hout & Hlen & Hends); try done.
  { apply (new_at_reader source (bl_wise limits)); done. }
  { apply N.le_0_l. }
  { by destruct Hd. }
  { by destruct Hd. }
  exists offset, declared, bytes, m. eexists. exists res, chunks.
  split; [done|]. split; [done|]. split; [done|]. split; [by destruct (sm_checksum m)|].
  split; [by rewrite <-Hsize, (me_inflated _ _ _ _ _ Hm)|]. split; [exact Hbegin|]. split.
  { apply serves_of_leads. eapply leads_same_turn; [|exact Hlead]. by eapply begun_turn. }
  split; [done|]. split; [done|]. split; [done|].
  unfold stream_ends in Hends. rewrite Eg, Em in Hends. unfold stream_confirmed in Hends.
  rewrite Hmatch, Hsize, N.eqb_refl in Hends.
  assert (len bytes = be_size_bytes e) as Hb by by rewrite <-Hsize, (me_inflated _ _ _ _ _ Hm).
  rewrite Hb, N.eqb_refl, (me_computed _ _ _ _ _ Hm), !andb_true_r in Hends. cbn [andb] in Hends.
  destruct ((declared =? 0) || _); [|done]. destruct Hends as (? & ? & ?). split; [done|]. split; [done|].
  by eapply left_ready.
Qed.

(** C29: Streaming an entry that was offered of a buffered container: the request is
    refused if the entry cannot be extracted or has another size than offered;
    otherwise it is accepted with that size, comes to an end without a read, and
    its chunks are exactly the extracted bytes. *)
Theorem dispatch_extracts capacity container l (d : D) i e token size policy :
  ready source limits capacity container l d → NoDup (be_source_token <$> l.*1) →
  l !! i = Some (e, PL_Buffered token size) → size < 2 ^ 63 →
  match extract_of (Some container) limits token with
  | Ok bytes =>
      if len bytes =? size then
        ∃ d' r chunks,
          dispatch_begin Op_Stream (be_source_token e) policy d = (d', Ok size) ∧
          serves_to source d' r ∧ r.1.2 = DA_DataChunk <$> chunks ∧ r.2 = Ok tt ∧ concat chunks = bytes ∧
          Forall (λ chunk, 0 < len chunk ≤ CHUNK_BYTES) chunks ∧ ready source limits capacity container l r.1.1
      else dispatch_begin Op_Stream (be_source_token e) policy d = (d, Err (Fail DE_Failed))
  | Err error => dispatch_begin Op_Stream (be_source_token e) policy d = (d, Err error)
  end.
Proof.
  intros Hd Hnd Hi Hsize.
  pose proof (begin_ready source limits capacity container l i e _ policy d Hd Hnd Hi) as Hbegin. cbv iota beta in Hbegin.
  destruct (extract_of (Some container) limits token) as [bytes|error]; cbn [mbind result_bind] in Hbegin; [|exact Hbegin].
  destruct (N.eqb_spec (len bytes) size) as [Es|]; cbn [negb] in Hbegin; [|exact Hbegin].
  rewrite (M_bind_step (lift _) _ _ _ _ eq_refl) in Hbegin. cbn [fst snd] in Hbegin. subst size.
  destruct (buffered_leads source token bytes 0 d []) as (chunks & c & Hlead & Hc & Hcat & Hall);
    [done|apply N.le_0_l|by destruct Hd|].
  eexists _, _, chunks. split; [exact Hbegin|]. split; [by apply serves_of_leads|]. cbn [fst snd].
  split; [done|]. split; [done|]. split; [by rewrite Hcat|]. split; [done|].
  destruct Hd as [? ? ? ? ? ? ? ? ?]. destruct d. cbn in *. subst. by split.
Qed.
End properties.
