(* ===== verification/CabFormat.v ===== *)
(** * Microsoft cabinets: vocabulary and tables

    Crate ohl-mscab, [crates/ohl-mscab/src/{error,limits,bytes,source,
    cabinet}.rs]: the failures and ceilings of the decoder, its field reader,
    the volumes it reads, and the three tables of a cabinet. *)

From S2P Require Export Wise.

(** ** [error.rs] *)

Inductive CabinetError : Type :=
| CE_Truncated
| CE_BadSignature
| CE_UnsupportedVersion
| CE_OutOfBounds
| CE_InvalidField
| CE_FolderIndexOutOfRange
| CE_LimitExceeded
| CE_ChecksumMismatch
| CE_DecompressionFailed
| CE_Unsupported
| CE_Cancelled
| CE_SourceFailed
| CE_Internal.

#[export] Instance CabinetError_eq_dec : EqDecision CabinetError.
Proof. solve_decision. Defined.

(** [impl From<CabError> for SanitizedError]. *)
Definition sanitize_cabinet_error (error : CabinetError) : SanitizedError :=
  match error with
  | CE_Unsupported | CE_UnsupportedVersion => SE_Unsupported
  | CE_Internal => SE_Internal
  | _ => SE_InvalidInput
  end.

(** ** [limits.rs] *)

Definition MAX_BLOCK_UNCOMPRESSED : N := 32768.
Definition MAX_BLOCK_COMPRESSED : N := 32768 + 6144.

Record CabLimits : Type := {
  cl_max_folders : N;
  cl_max_files : N;
  cl_max_name_bytes : N;
  cl_max_header_string_bytes : N;
  cl_max_header_reserve_bytes : N;
  cl_max_blocks_per_folder : N;
  cl_max_folder_uncompressed_bytes : N;
  cl_max_file_bytes : N;
  cl_max_cabinet_bytes : N;
  cl_max_lzx_window_bits : N
}.

Definition cab_limits_default : CabLimits :=
  {| cl_max_folders := 4096;
     cl_max_files := 65535;
     cl_max_name_bytes := 255;
     cl_max_header_string_bytes := 255;
     cl_max_header_reserve_bytes := 60000;
     cl_max_blocks_per_folder := 2 ^ 20;
     cl_max_folder_uncompressed_bytes := 4 * 2 ^ 30;
     cl_max_file_bytes := 4 * 2 ^ 30;
     cl_max_cabinet_bytes := 2 ^ 32;
     cl_max_lzx_window_bits := 21 |}.

(** ** [bytes.rs] *)

Record CabReader : Type := { cr_bytes : list byte; cr_position : N }.

Definition cab_reader_new (bytes : list byte) : CabReader := {| cr_bytes := bytes; cr_position := 0 |}.

Definition cab_reader_at (position : N) (self : CabReader) : CabReader :=
  {| cr_bytes := cr_bytes self; cr_position := position |}.

Definition cab_take (count : N) : M CabReader CabinetError (list byte) :=
  self ← get;
  end_ ← lift (ok_or (checked_add 64 (cr_position self) count) CE_OutOfBounds);
  slice ← lift (ok_or (get_range (cr_position self) end_ (cr_bytes self)) CE_Truncated);
  modify (cab_reader_at end_);;
  mret slice.

Definition cab_uint (count : N) : M CabReader CabinetError N :=
  bytes ← cab_take count; mret (of_le_bytes bytes).

Definition cab_u8 : M CabReader CabinetError N := cab_uint 1.
Definition cab_u16 : M CabReader CabinetError N := cab_uint 2.
Definition cab_u32 : M CabReader CabinetError N := cab_uint 4.

(** [iter().position(|byte| *byte == 0)]. *)
Definition terminator_in (window : list byte) : option N :=
  N.of_nat ∘ fst <$> list_find (λ b, b = x00) window.

Definition nul_terminated (max_len : N) : M CabReader CabinetError (list byte) :=
  self ← get;
  let start := cr_position self in
  let available := len (cr_bytes self) - start in
  let scan_len := N.min (saturating_add 64 max_len 1) available in
  window ← lift (ok_or (get_range start (start + scan_len) (cr_bytes self)) CE_Truncated);
  terminator ← lift (ok_or (terminator_in window) CE_LimitExceeded);
  modify (cab_reader_at (start + terminator + 1));;
  mret (take (N.to_nat terminator) window).

(** A terminated string and the position behind it. *)
Definition terminated (max_len : N) : M CabReader CabinetError (list byte * N) :=
  value ← nul_terminated max_len;
  self ← get;
  mret (value, cr_position self).

(** A reader made, used and dropped. *)
Definition read_fields {A} (bytes : list byte) (m : M CabReader CabinetError A) : result CabinetError A :=
  (m (cab_reader_new bytes)).2.

(** ** [source.rs] *)

(** [trait VolumeSource]: a read fills the whole buffer it is given the length
    of, or fails. *)
Class VolumeSource (W : Type) : Type := {
  volume_len : N → M W CabinetError N;
  volume_read_at : N → N → N → M W CabinetError (list byte)
}.

(** [trait Cancellation]. *)
Class CabCancellation (W : Type) : Type := cab_is_cancelled : W → W * bool.

Definition cab_never_cancelled (W : Type) : CabCancellation W := λ w, (w, false).

(** What the trait demands, of a source whose volumes hold [volumes]; it may fail. *)
Class ServesVolumes (W : Type) `{VolumeSource W} (volumes : N → option (list byte)) : Prop := {
  serves_len volume w :
    match (volume_len volume w).2 with
    | Ok n => ∃ bytes, volumes volume = Some bytes ∧ n = len bytes
    | Err _ => True
    end;
  serves_read volume offset size w :
    match (volume_read_at volume offset size w).2 with
    | Ok data => ∃ bytes, volumes volume = Some bytes ∧ offset + size ≤ len bytes ∧ data = subslice offset size bytes
    | Err _ => True
    end
}.

Definition slice_volume_read (bytes : list byte) (offset size : N) : result CabinetError (list byte) :=
  end_ ← ok_or (checked_add 64 offset size) CE_OutOfBounds;
  ok_or (get_range offset end_ bytes) CE_OutOfBounds.

(** [SliceSource] and [SliceSetSource]. *)
Definition slice_volume (bytes : list byte) : VolumeSource unit := {|
  volume_len volume := lift (if volume =? 0 then Ok (len bytes) else Err CE_Unsupported);
  volume_read_at volume offset size :=
    lift (if negb (volume =? 0) then Err CE_Unsupported else slice_volume_read bytes offset size)
|}.

Definition set_volume (volumes : list (list byte)) (volume : N) : result CabinetError (list byte) :=
  ok_or (volumes !! N.to_nat volume) CE_Unsupported.

Definition slice_set_volume (volumes : list (list byte)) : VolumeSource unit := {|
  volume_len volume := lift (len <$> set_volume volumes volume);
  volume_read_at volume offset size :=
    lift (bytes ← set_volume volumes volume; slice_volume_read bytes offset size)
|}.

Lemma slice_volume_read_Ok bytes offset size data :
  slice_volume_read bytes offset size = Ok data → offset + size ≤ len bytes ∧ data = subslice offset size bytes.
Proof.
  unfold slice_volume_read. unfold checked_add. destruct (_ <? _); [|done]. cbn.
  unfold get_range. destruct (N.leb_spec offset (offset + size)); [|lia].
  destruct (N.leb_spec (offset + size) (len bytes)); [|done]. cbn. intros [= <-]. split; [done|]. f_equal. lia.
Qed.

#[export] Instance slice_volume_serves bytes :
  @ServesVolumes unit (slice_volume bytes) (λ volume, if volume =? 0 then Some bytes else None).
Proof.
  split; intros volume; [intros ?|intros offset size ?]; cbn; destruct (volume =? 0); try done; cbn; [by eexists|].
  destruct (slice_volume_read bytes offset size) eqn:E; [|done]. apply slice_volume_read_Ok in E. by eexists.
Qed.

#[export] Instance slice_set_serves volumes :
  @ServesVolumes unit (slice_set_volume volumes) (λ volume, volumes !! N.to_nat volume).
Proof.
  split; intros volume; [intros ?|intros offset size ?]; cbn; unfold set_volume;
    destruct (volumes !! N.to_nat volume) as [bytes|]; try done; cbn; [by eexists|].
  destruct (slice_volume_read bytes offset size) eqn:E; [|done]. apply slice_volume_read_Ok in E. by eexists.
Qed.

(** ** [cabinet.rs] *)

(** [b"MSCF"]. *)
Definition CABINET_SIGNATURE : list byte := [x4d; x53; x43; x46].

Definition HEADER_FIXED_LEN : N := 36.
Definition FOLDER_FIXED_LEN : N := 8.
Definition FILE_FIXED_LEN : N := 16.

Definition FLAG_PREV_CABINET : N := 0x1.
Definition FLAG_NEXT_CABINET : N := 0x2.
Definition FLAG_RESERVE_PRESENT : N := 0x4.
Definition FLAGS_KNOWN : N := N.lor (N.lor FLAG_PREV_CABINET FLAG_NEXT_CABINET) FLAG_RESERVE_PRESENT.

Definition IFOLD_CONTINUED_FROM_PREV : N := 0xFFFD.
Definition IFOLD_CONTINUED_TO_NEXT : N := 0xFFFE.
Definition IFOLD_CONTINUED_PREV_AND_NEXT : N := 0xFFFF.

Definition ATTR_NAME_IS_UTF : N := 0x80.

Inductive Compression : Type :=
| CM_None
| CM_MsZip
| CM_Quantum (raw : N)
| CM_Lzx (window_bits : N)
| CM_Unknown (raw : N).

#[export] Instance Compression_eq_dec : EqDecision Compression.
Proof. solve_decision. Defined.

Definition TYPE_MASK : N := 0xF.
Definition LZX_WINDOW_MASK : N := 0x1F00.
Definition LZX_WINDOW_SHIFT : N := 8.

Definition compression_from_raw (raw : N) : Compression :=
  match N.land raw TYPE_MASK with
  | 0 => CM_None
  | 1 => CM_MsZip
  | 2 => CM_Quantum raw
  | 3 => CM_Lzx (N.shiftr (N.land raw LZX_WINDOW_MASK) LZX_WINDOW_SHIFT mod 2 ^ 8)
  | _ => CM_Unknown raw
  end.

Record CabHeader : Type := {
  ch_cabinet_bytes : N;
  ch_first_file_offset : N;
  ch_version_major : N;
  ch_version_minor : N;
  ch_folder_count : N;
  ch_file_count : N;
  ch_flags : N;
  ch_set_id : N;
  ch_cabinet_index : N;
  ch_header_reserve_bytes : N;
  ch_folder_reserve_bytes : N;
  ch_data_reserve_bytes : N;
  ch_previous_cabinet_name_len : option N;
  ch_previous_disk_name_len : option N;
  ch_next_cabinet_name_len : option N;
  ch_next_disk_name_len : option N
}.

Definition has_flag (flag flags : N) : bool := negb (N.land flags flag =? 0).

Definition has_previous_cabinet (self : CabHeader) : bool := has_flag FLAG_PREV_CABINET (ch_flags self).
Definition has_next_cabinet (self : CabHeader) : bool := has_flag FLAG_NEXT_CABINET (ch_flags self).
Definition has_reserved_areas (self : CabHeader) : bool := has_flag FLAG_RESERVE_PRESENT (ch_flags self).

Record Folder : Type := {
  fo_first_data_offset : N;
  fo_data_block_count : N;
  fo_compression : Compression
}.

Inductive FolderRef : Type :=
| FR_Index (index : N)
| FR_ContinuedFromPrevious
| FR_ContinuedToNext
| FR_ContinuedPreviousAndNext.

#[export] Instance FolderRef_eq_dec : EqDecision FolderRef.
Proof. solve_decision. Defined.

Definition folder_ref_from_raw (raw : N) : FolderRef :=
  if raw =? IFOLD_CONTINUED_FROM_PREV then FR_ContinuedFromPrevious
  else if raw =? IFOLD_CONTINUED_TO_NEXT then FR_ContinuedToNext
  else if raw =? IFOLD_CONTINUED_PREV_AND_NEXT then FR_ContinuedPreviousAndNext
  else FR_Index raw.

Definition index_in (folder_count : N) (self : FolderRef) : option N :=
  match self with
  | FR_Index index => if index <? folder_count then Some index else None
  | FR_ContinuedFromPrevious | FR_ContinuedPreviousAndNext => if 0 <? folder_count then Some 0 else None
  | FR_ContinuedToNext => if 0 <? folder_count then Some (folder_count - 1) else None
  end.

Definition continues_from_previous (self : FolderRef) : bool :=
  match self with FR_ContinuedFromPrevious | FR_ContinuedPreviousAndNext => true | _ => false end.
Definition continues_to_next (self : FolderRef) : bool :=
  match self with FR_ContinuedToNext | FR_ContinuedPreviousAndNext => true | _ => false end.

Record DateTime : Type := {
  dt_year : N;
  dt_month : N;
  dt_day : N;
  dt_hour : N;
  dt_minute : N;
  dt_second : N
}.

(** [.to_le_bytes()[0]] keeps the low byte. *)
Definition date_time_decode (date time : N) : DateTime :=
  {| dt_year := 1980 + N.shiftr date 9;
     dt_month := N.land (N.shiftr date 5) 0x0F mod 2 ^ 8;
     dt_day := N.land date 0x1F mod 2 ^ 8;
     dt_hour := N.shiftr time 11 mod 2 ^ 8;
     dt_minute := N.land (N.shiftr time 5) 0x3F mod 2 ^ 8;
     dt_second := (N.land time 0x1F * 2) mod 2 ^ 8 |}.

Record FileEntry : Type := {
  fe_uncompressed_bytes : N;
  fe_folder_offset : N;
  fe_folder : FolderRef;
  fe_date : N;
  fe_time : N;
  fe_attributes : N;
  fe_name : list byte
}.

Definition name_is_utf8 (self : FileEntry) : bool := has_flag ATTR_NAME_IS_UTF (fe_attributes self).

Definition date_time (self : FileEntry) : DateTime := date_time_decode (fe_date self) (fe_time self).

Record Cabinet : Type := {
  ca_header : CabHeader;
  ca_folders : list Folder;
  ca_files : list FileEntry
}.

Definition files_in_folder (folder_index : N) (self : Cabinet) : list FileEntry :=
  filter (λ file, index_in (ch_folder_count (ca_header self)) (fe_folder file) = Some folder_index) (ca_files self).

Definition folder_of (file : FileEntry) (self : Cabinet) : result CabinetError Folder :=
  index ← ok_or (index_in (ch_folder_count (ca_header self)) (fe_folder file)) CE_FolderIndexOutOfRange;
  ok_or (ca_folders self !! N.to_nat index) CE_FolderIndexOutOfRange.

(** The fixed part of a header, as it is read. *)
Record FixedHeader : Type := {
  fh_cabinet_bytes : N;
  fh_first_file_offset : N;
  fh_version_minor : N;
  fh_version_major : N;
  fh_folder_count : N;
  fh_file_count : N;
  fh_flags : N;
  fh_set_id : N;
  fh_cabinet_index : N
}.

Definition fixed_header : M CabReader CabinetError FixedHeader :=
  signature ← cab_take 4;
  lift (guard_err (negb (bool_decide (signature = CABINET_SIGNATURE))) CE_BadSignature);;
  cab_u32;;
  cabinet_bytes ← cab_u32;
  cab_u32;;
  first_file_offset ← cab_u32;
  cab_u32;;
  version_minor ← cab_u8;
  version_major ← cab_u8;
  folder_count ← cab_u16;
  file_count ← cab_u16;
  flags ← cab_u16;
  set_id ← cab_u16;
  cabinet_index ← cab_u16;
  mret {| fh_cabinet_bytes := cabinet_bytes; fh_first_file_offset := first_file_offset;
          fh_version_minor := version_minor; fh_version_major := version_major;
          fh_folder_count := folder_count; fh_file_count := file_count; fh_flags := flags;
          fh_set_id := set_id; fh_cabinet_index := cabinet_index |}.

(** What [parse_header] demands of them. *)
Definition check_header (limits : CabLimits) (source_len : N) (h : FixedHeader) : result CabinetError unit :=
  guard_err (negb (fh_version_major h =? 1)) CE_UnsupportedVersion;;
  guard_err (negb (N.ldiff (fh_flags h) FLAGS_KNOWN =? 0)) CE_InvalidField;;
  guard_err (cl_max_cabinet_bytes limits <? fh_cabinet_bytes h) CE_LimitExceeded;;
  guard_err ((source_len <? fh_cabinet_bytes h) || (fh_cabinet_bytes h <? HEADER_FIXED_LEN)) CE_OutOfBounds;;
  guard_err ((cl_max_folders limits <? fh_folder_count h) || (cl_max_files limits <? fh_file_count h)) CE_LimitExceeded;;
  guard_err (fh_folder_count h =? 0) CE_InvalidField.

Definition cab_advance (offset delta cabinet_bytes : N) : result CabinetError N :=
  next ← ok_or (checked_add 64 offset delta) CE_OutOfBounds;
  guard_err (cabinet_bytes <? next) CE_OutOfBounds;;
  mret next.

Section parse.
Context {W : Type} `{VolumeSource W} (volume : N) (limits : CabLimits).
Abbreviation CM A := (M W CabinetError A).

Definition table_read_within (offset size cabinet_bytes : N) : CM (list byte) :=
  end_ ← lift (ok_or (checked_add 64 offset size) CE_OutOfBounds);
  lift (guard_err (cabinet_bytes <? end_) CE_OutOfBounds);;
  volume_read_at volume offset size.

(** [scratch] is only as long as it says; what is returned is the length and the
    offset behind the string. *)
Definition read_string_len (offset cabinet_bytes scratch_len : N) : CM (N * N) :=
  let scan := N.min (cabinet_bytes - offset) scratch_len in
  window ← volume_read_at volume offset scan;
  '(value, position) ← lift (read_fields window (terminated (scan - 1)));
  offset ← lift (cab_advance offset position cabinet_bytes);
  mret (len value, offset).

Definition name_pair (present : bool) (offset cabinet_bytes scratch_len : N) : CM (option N * option N * N) :=
  if present then
    '(first, offset) ← read_string_len offset cabinet_bytes scratch_len;
    '(second, offset) ← read_string_len offset cabinet_bytes scratch_len;
    mret (Some first, Some second, offset)
  else mret (None, None, offset).

Definition read_optional_names (flags offset cabinet_bytes : N)
  : CM (option N * option N * option N * option N * N) :=
  let scratch_len := saturating_add 64 (cl_max_header_string_bytes limits) 1 in
  '(previous_cabinet, previous_disk, offset) ←
    name_pair (has_flag FLAG_PREV_CABINET flags) offset cabinet_bytes scratch_len;
  '(next_cabinet, next_disk, offset) ←
    name_pair (has_flag FLAG_NEXT_CABINET flags) offset cabinet_bytes scratch_len;
  mret (previous_cabinet, previous_disk, next_cabinet, next_disk, offset).

(** The reserved sizes of header, folders and blocks, and what follows them. *)
Definition read_reserves (h : FixedHeader) : CM (N * N * N * N) :=
  if has_flag FLAG_RESERVE_PRESENT (fh_flags h) then
    sizes ← table_read_within HEADER_FIXED_LEN 4 (fh_cabinet_bytes h);
    '(header_reserve, folder_reserve, data_reserve) ← lift (read_fields sizes (
      header_reserve ← cab_u16; folder_reserve ← cab_u8; data_reserve ← cab_u8;
      mret (header_reserve, folder_reserve, data_reserve)));
    lift (guard_err (cl_max_header_reserve_bytes limits <? header_reserve) CE_LimitExceeded);;
    offset ← lift (cab_advance HEADER_FIXED_LEN (4 + header_reserve) (fh_cabinet_bytes h));
    mret (header_reserve, folder_reserve, data_reserve, offset)
  else mret (0, 0, 0, HEADER_FIXED_LEN).

Definition parse_header : CM (CabHeader * N) :=
  source_len ← volume_len volume;
  lift (guard_err (source_len <? HEADER_FIXED_LEN) CE_Truncated);;
  fixed ← volume_read_at volume 0 HEADER_FIXED_LEN;
  h ← lift (read_fields fixed fixed_header);
  lift (check_header limits source_len h);;
  '(header_reserve, folder_reserve, data_reserve, offset) ← read_reserves h;
  '(previous_cabinet, previous_disk, next_cabinet, next_disk, offset) ←
    read_optional_names (fh_flags h) offset (fh_cabinet_bytes h);
  mret ({| ch_cabinet_bytes := fh_cabinet_bytes h;
           ch_first_file_offset := fh_first_file_offset h;
           ch_version_major := fh_version_major h;
           ch_version_minor := fh_version_minor h;
           ch_folder_count := fh_folder_count h;
           ch_file_count := fh_file_count h;
           ch_flags := fh_flags h;
           ch_set_id := fh_set_id h;
           ch_cabinet_index := fh_cabinet_index h;
           ch_header_reserve_bytes := header_reserve;
           ch_folder_reserve_bytes := folder_reserve;
           ch_data_reserve_bytes := data_reserve;
           ch_previous_cabinet_name_len := previous_cabinet;
           ch_previous_disk_name_len := previous_disk;
           ch_next_cabinet_name_len := next_cabinet;
           ch_next_disk_name_len := next_disk |}, offset).

Definition folder_entry (cabinet_bytes : N) (entry : list byte) : result CabinetError Folder :=
  '(first_data_offset, data_block_count, type_compress) ← read_fields entry (
    first_data_offset ← cab_u32; data_block_count ← cab_u16; type_compress ← cab_u16;
    mret (first_data_offset, data_block_count, type_compress));
  guard_err (cl_max_blocks_per_folder limits <? data_block_count) CE_LimitExceeded;;
  guard_err (cabinet_bytes <=? first_data_offset) CE_OutOfBounds;;
  mret {| fo_first_data_offset := first_data_offset; fo_data_block_count := data_block_count;
          fo_compression := compression_from_raw type_compress |}.

(** The read keeps [offset + entry_len] within the cabinet. *)
Fixpoint folder_loop (count : nat) (cabinet_bytes entry_len offset : N) : CM (list Folder) :=
  match count with
  | O => mret []
  | S count =>
      entry ← table_read_within offset entry_len cabinet_bytes;
      folder ← lift (folder_entry cabinet_bytes entry);
      folders ← folder_loop count cabinet_bytes entry_len (offset + entry_len);
      mret (folder :: folders)
  end.

Definition parse_folders (header : CabHeader) (table_offset : N) : CM (list Folder) :=
  let cabinet_bytes := ch_cabinet_bytes header in
  let folder_entry_len := FOLDER_FIXED_LEN + ch_folder_reserve_bytes header in
  folder_area_len ← lift (ok_or (checked_mul 64 folder_entry_len (ch_folder_count header)) CE_OutOfBounds);
  folder_area_end ← lift (ok_or (checked_add 64 table_offset folder_area_len) CE_OutOfBounds);
  lift (guard_err (cabinet_bytes <? folder_area_end) CE_OutOfBounds);;
  lift (guard_err ((ch_first_file_offset header <? folder_area_end) ||
                   (cabinet_bytes <=? ch_first_file_offset header)) CE_OutOfBounds);;
  folder_loop (N.to_nat (ch_folder_count header)) cabinet_bytes folder_entry_len table_offset.

Definition fixed_file : M CabReader CabinetError FileEntry :=
  uncompressed_bytes ← cab_u32;
  folder_offset ← cab_u32;
  folder ← cab_u16;
  date ← cab_u16;
  time ← cab_u16;
  attributes ← cab_u16;
  mret {| fe_uncompressed_bytes := uncompressed_bytes; fe_folder_offset := folder_offset;
          fe_folder := folder_ref_from_raw folder; fe_date := date; fe_time := time;
          fe_attributes := attributes; fe_name := [] |}.

Definition file_named (name : list byte) (self : FileEntry) : FileEntry :=
  {| fe_uncompressed_bytes := fe_uncompressed_bytes self; fe_folder_offset := fe_folder_offset self;
     fe_folder := fe_folder self; fe_date := fe_date self; fe_time := fe_time self;
     fe_attributes := fe_attributes self; fe_name := name |}.

(** One round of the loop over the file table: the entry and where it ends. *)
Definition file_entry (folder_count cabinet_bytes offset : N) : CM (FileEntry * N) :=
  fixed ← table_read_within offset FILE_FIXED_LEN cabinet_bytes;
  entry ← lift (read_fields fixed fixed_file);
  offset ← lift (cab_advance offset FILE_FIXED_LEN cabinet_bytes);
  lift (guard_err (cl_max_file_bytes limits <? fe_uncompressed_bytes entry) CE_LimitExceeded);;
  lift (guard_err (cl_max_folder_uncompressed_bytes limits <?
    fe_folder_offset entry + fe_uncompressed_bytes entry) CE_LimitExceeded);;
  lift (guard_err (negb (bool_decide (is_Some (index_in folder_count (fe_folder entry))))) CE_FolderIndexOutOfRange);;
  let scan := N.min (cabinet_bytes - offset) (saturating_add 64 (cl_max_name_bytes limits) 1) in
  window ← volume_read_at volume offset scan;
  '(name, position) ← lift (read_fields window (terminated (cl_max_name_bytes limits)));
  lift (guard_err (len name =? 0) CE_InvalidField);;
  offset ← lift (cab_advance offset position cabinet_bytes);
  mret (file_named name entry, offset).

Fixpoint file_loop (count : nat) (folder_count cabinet_bytes offset : N) : CM (list FileEntry) :=
  match count with
  | O => mret []
  | S count =>
      '(file, offset) ← file_entry folder_count cabinet_bytes offset;
      files ← file_loop count folder_count cabinet_bytes offset;
      mret (file :: files)
  end.

Definition parse_files (header : CabHeader) : CM (list FileEntry) :=
  file_loop (N.to_nat (ch_file_count header)) (ch_folder_count header) (ch_cabinet_bytes header)
    (ch_first_file_offset header).

Definition cabinet_parse : CM Cabinet :=
  '(header, table_offset) ← parse_header;
  folders ← parse_folders header table_offset;
  files ← parse_files header;
  mret {| ca_header := header; ca_folders := folders; ca_files := files |}.
End parse.
