(* ===== verification/CabParse.v ===== *)
(** * Microsoft cabinets: which images are cabinets

    The tables of a cabinet as they lie in the bytes, and that [cabinet_parse] of
    [CabFormat.v] accepts exactly the images that have them. *)

From S2P Require Export CabFormat.

Definition u8_at (at_ : N) (bytes : list byte) : N := of_le_bytes (subslice at_ 1 bytes).

(** A volume in memory. *)
Class MemoryVolume `{VolumeSource unit} (volume : N) (bytes : list byte) : Prop := {
  memory_len : volume_len volume tt = (tt, Ok (len bytes));
  memory_read offset size : volume_read_at volume offset size tt = (tt, slice_volume_read bytes offset size)
}.

#[export] Instance slice_memory bytes : @MemoryVolume (slice_volume bytes) 0 bytes.
Proof. by split. Qed.

Lemma slice_set_memory volumes volume bytes :
  volumes !! N.to_nat volume = Some bytes → @MemoryVolume (slice_set_volume volumes) volume bytes.
Proof. intros E. split; intros; cbn; unfold set_volume; by rewrite E. Qed.

(** ** Where the tables are *)

Section image.
Context (bytes : list byte) (limits : CabLimits).

(** A terminated string of [n] bytes. *)
Record string_at (cabinet_bytes limit offset n : N) : Prop := {
  sa_bound : n ≤ limit;
  sa_inside : offset + n + 1 ≤ cabinet_bytes;
  sa_body : x00 ∉ subslice offset n bytes;
  sa_end : subslice (offset + n) 1 bytes = [x00]
}.

Definition names_at (present : bool) (cabinet_bytes offset : N) (a b : option N) (next : N) : Prop :=
  if present then
    ∃ n m, a = Some n ∧ b = Some m ∧ next = offset + n + 1 + m + 1 ∧
      string_at cabinet_bytes (cl_max_header_string_bytes limits) offset n ∧
      string_at cabinet_bytes (cl_max_header_string_bytes limits) (offset + n + 1) m
  else a = None ∧ b = None ∧ next = offset.

Record header_image (h : CabHeader) (table : N) : Prop := {
  hi_signature : subslice 0 4 bytes = CABINET_SIGNATURE;
  hi_cabinet_bytes : ch_cabinet_bytes h = u32_at 8 bytes;
  hi_first_file : ch_first_file_offset h = u32_at 16 bytes;
  hi_minor : ch_version_minor h = u8_at 24 bytes;
  hi_major : ch_version_major h = 1 ∧ u8_at 25 bytes = 1;
  hi_folder_count : ch_folder_count h = u16_at 26 bytes;
  hi_file_count : ch_file_count h = u16_at 28 bytes;
  hi_flags : ch_flags h = u16_at 30 bytes;
  hi_set_id : ch_set_id h = u16_at 32 bytes;
  hi_cabinet_index : ch_cabinet_index h = u16_at 34 bytes;
  hi_known : N.ldiff (ch_flags h) FLAGS_KNOWN = 0;
  hi_size : HEADER_FIXED_LEN ≤ ch_cabinet_bytes h ≤ len bytes;
  hi_limits : ch_cabinet_bytes h ≤ cl_max_cabinet_bytes limits ∧
    0 < ch_folder_count h ≤ cl_max_folders limits ∧ ch_file_count h ≤ cl_max_files limits;
  hi_tail : ∃ after_reserves after_previous,
    (if has_reserved_areas h then
       ch_header_reserve_bytes h = u16_at 36 bytes ∧ ch_folder_reserve_bytes h = u8_at 38 bytes ∧
       ch_data_reserve_bytes h = u8_at 39 bytes ∧
       ch_header_reserve_bytes h ≤ cl_max_header_reserve_bytes limits ∧
       after_reserves = 40 + ch_header_reserve_bytes h ∧ after_reserves ≤ ch_cabinet_bytes h
     else ch_header_reserve_bytes h = 0 ∧ ch_folder_reserve_bytes h = 0 ∧ ch_data_reserve_bytes h = 0 ∧
       after_reserves = 36) ∧
    names_at (has_previous_cabinet h) (ch_cabinet_bytes h) after_reserves
      (ch_previous_cabinet_name_len h) (ch_previous_disk_name_len h) after_previous ∧
    names_at (has_next_cabinet h) (ch_cabinet_bytes h) after_previous
      (ch_next_cabinet_name_len h) (ch_next_disk_name_len h) table
}.

Record folder_image (cabinet_bytes offset : N) (f : Folder) : Prop := {
  fi_first_data : fo_first_data_offset f = u32_at offset bytes;
  fi_blocks : fo_data_block_count f = u16_at (offset + 4) bytes;
  fi_compression : fo_compression f = compression_from_raw (u16_at (offset + 6) bytes);
  fi_limit : fo_data_block_count f ≤ cl_max_blocks_per_folder limits;
  fi_inside : fo_first_data_offset f < cabinet_bytes
}.

Record folders_image (h : CabHeader) (table : N) (folders : list Folder) : Prop := {
  fs_count : len folders = ch_folder_count h;
  fs_area : table + ch_folder_count h * (8 + ch_folder_reserve_bytes h) ≤ ch_first_file_offset h;
  fs_files : ch_first_file_offset h < ch_cabinet_bytes h;
  fs_folder i f : folders !! i = Some f →
    folder_image (ch_cabinet_bytes h) (table + N.of_nat i * (8 + ch_folder_reserve_bytes h)) f
}.

Record file_image (h : CabHeader) (offset : N) (f : FileEntry) (next : N) : Prop := {
  fl_size : fe_uncompressed_bytes f = u32_at offset bytes;
  fl_offset : fe_folder_offset f = u32_at (offset + 4) bytes;
  fl_folder : fe_folder f = folder_ref_from_raw (u16_at (offset + 8) bytes);
  fl_date : fe_date f = u16_at (offset + 10) bytes;
  fl_time : fe_time f = u16_at (offset + 12) bytes;
  fl_attributes : fe_attributes f = u16_at (offset + 14) bytes;
  fl_limits : fe_uncompressed_bytes f ≤ cl_max_file_bytes limits ∧
    fe_folder_offset f + fe_uncompressed_bytes f ≤ cl_max_folder_uncompressed_bytes limits;
  fl_index : is_Some (index_in (ch_folder_count h) (fe_folder f));
  fl_name : fe_name f = subslice (offset + 16) (len (fe_name f)) bytes;
  fl_string : string_at (ch_cabinet_bytes h) (cl_max_name_bytes limits) (offset + 16) (len (fe_name f));
  fl_named : fe_name f ≠ [];
  fl_next : next = offset + 16 + len (fe_name f) + 1
}.

(** The records follow each other. *)
Inductive files_image (h : CabHeader) : N → list FileEntry → Prop :=
| files_none offset : files_image h offset []
| files_one offset f next files :
    file_image h offset f next → files_image h next files → files_image h offset (f :: files).

Definition cabinet_image (c : Cabinet) : Prop :=
  ∃ table, header_image (ca_header c) table ∧ folders_image (ca_header c) table (ca_folders c) ∧
    len (ca_files c) = ch_file_count (ca_header c) ∧
    files_image (ca_header c) (ch_first_file_offset (ca_header c)) (ca_files c).
End image.

(** ** Reading fields *)

Lemma subslice_window {A} (l : list A) o s a n :
  a + n ≤ s → subslice a n (subslice o s l) = subslice (o + a) n l.
Proof. apply subslice_subslice. Qed.

Lemma cab_uint_run n bytes p :
  p + n ≤ len bytes → p + n < 2 ^ 64 →
  cab_uint n {| cr_bytes := bytes; cr_position := p |} =
  ({| cr_bytes := bytes; cr_position := p + n |}, Ok (of_le_bytes (subslice p n bytes))).
Proof.
  intros Hp H64. unfold cab_uint, cab_take, mbind, M_bind, get, lift, modify, mret, M_ret. cbn [cr_position cr_bytes].
  rewrite (proj2 (checked_add_Some 64 p n (p + n))) by done. cbn [ok_or].
  rewrite (proj2 (get_range_Some p (p + n) bytes (subslice p n bytes))) by (split; [lia|split; [done|f_equal; lia]]).
  reflexivity.
Qed.

Lemma cab_take_run n bytes p :
  p + n ≤ len bytes → p + n < 2 ^ 64 →
  cab_take n {| cr_bytes := bytes; cr_position := p |} =
  ({| cr_bytes := bytes; cr_position := p + n |}, Ok (subslice p n bytes)).
Proof.
  intros Hp H64. unfold cab_take, mbind, M_bind, get, lift, modify, mret, M_ret. cbn [cr_position cr_bytes].
  rewrite (proj2 (checked_add_Some 64 p n (p + n))) by done. cbn [ok_or].
  rewrite (proj2 (get_range_Some p (p + n) bytes (subslice p n bytes))) by (split; [lia|split; [done|f_equal; lia]]).
  reflexivity.
Qed.

Lemma cab_uint_step {A} n bytes p q (k : N → M CabReader CabinetError A) :
  q = p + n → q ≤ len bytes → q < 2 ^ 64 →
  (cab_uint n ≫= k) {| cr_bytes := bytes; cr_position := p |} =
  k (of_le_bytes (subslice p n bytes)) {| cr_bytes := bytes; cr_position := q |}.
Proof. intros -> Hp H64. by apply M_bind_step, cab_uint_run. Qed.

(** Bytes of a known length have no surprises: a script of fields. *)
Ltac fields Hlen :=
  unfold cab_u8, cab_u16, cab_u32, read_fields, cab_reader_new;
  repeat match goal with
  | |- context [(cab_uint ?n ≫= ?k) {| cr_bytes := ?b; cr_position := ?p |}] =>
      let q := eval compute in (p + n) in
      rewrite (cab_uint_step n b p q k) by (rewrite ?Hlen; (reflexivity || lia))
  end.

Lemma cab_take_step {A} n bytes p q (k : list byte → M CabReader CabinetError A) :
  q = p + n → q ≤ len bytes → q < 2 ^ 64 →
  (cab_take n ≫= k) {| cr_bytes := bytes; cr_position := p |} =
  k (subslice p n bytes) {| cr_bytes := bytes; cr_position := q |}.
Proof. intros -> Hp H64. by apply M_bind_step, cab_take_run. Qed.

(** Fields of what was read of the volume. *)
Lemma field_of_window n p o s bytes :
  p + n ≤ s → of_le_bytes (subslice p n (subslice o s bytes)) = of_le_bytes (subslice (o + p) n bytes).
Proof. intros. by rewrite subslice_subslice. Qed.

Lemma fixed_file_run o bytes (Hin : o + 16 ≤ len bytes) :
  read_fields (subslice o 16 bytes) fixed_file =
  Ok {| fe_uncompressed_bytes := u32_at o bytes; fe_folder_offset := u32_at (o + 4) bytes;
        fe_folder := folder_ref_from_raw (u16_at (o + 8) bytes); fe_date := u16_at (o + 10) bytes;
        fe_time := u16_at (o + 12) bytes; fe_attributes := u16_at (o + 14) bytes; fe_name := [] |}.
Proof.
  assert (len (subslice o 16 bytes) = 16) as Hlen by by apply len_subslice.
  unfold fixed_file. fields Hlen.  unfold mret, M_ret. cbn [snd]. rewrite !field_of_window by lia.
  by rewrite N.add_0_r.
Qed.

Definition fixed_header_of (bytes : list byte) : FixedHeader :=
  {| fh_cabinet_bytes := u32_at 8 bytes; fh_first_file_offset := u32_at 16 bytes;
     fh_version_minor := u8_at 24 bytes; fh_version_major := u8_at 25 bytes;
     fh_folder_count := u16_at 26 bytes; fh_file_count := u16_at 28 bytes; fh_flags := u16_at 30 bytes;
     fh_set_id := u16_at 32 bytes; fh_cabinet_index := u16_at 34 bytes |}.

Lemma fixed_header_Ok bytes h (Hin : 36 ≤ len bytes) :
  read_fields (subslice 0 36 bytes) fixed_header = Ok h ↔
  subslice 0 4 bytes = CABINET_SIGNATURE ∧ h = fixed_header_of bytes.
Proof.
  assert (len (subslice 0 36 bytes) = 36) as Hlen by by apply len_subslice.
  unfold fixed_header, read_fields, cab_reader_new.
  rewrite (cab_take_step 4 _ 0 4) by (rewrite ?Hlen; (reflexivity || lia)).
  rewrite (subslice_subslice 0 4 0 36) by lia. rewrite N.add_0_r.
  destruct (bool_decide_reflect (subslice 0 4 bytes = CABINET_SIGNATURE)) as [Hs|Hs]; cbn [negb guard_err].
  - rewrite (M_bind_step (lift _) _ _ _ _ eq_refl). fields Hlen. unfold mret, M_ret. cbn [snd].
    rewrite !field_of_window by lia. change (0 + 8) with 8. change (0 + 16) with 16. change (0 + 24) with 24.
    change (0 + 25) with 25. change (0 + 26) with 26. change (0 + 28) with 28. change (0 + 30) with 30.
    change (0 + 32) with 32. change (0 + 34) with 34.
    split; [by intros [= <-]|]. by intros [_ ->].
  - rewrite (M_bind_fail (lift _) _ _ _ CE_BadSignature eq_refl). cbn [snd]. split; [done|]. by intros [? _].
Qed.

Lemma reserves_run bytes (Hin : 40 ≤ len bytes) :
  read_fields (subslice 36 4 bytes) (header_reserve ← cab_u16; folder_reserve ← cab_u8; data_reserve ← cab_u8;
    mret (header_reserve, folder_reserve, data_reserve)) =
  Ok (u16_at 36 bytes, u8_at 38 bytes, u8_at 39 bytes).
Proof.
  assert (len (subslice 36 4 bytes) = 4) as Hlen by by apply len_subslice.
  fields Hlen. unfold mret, M_ret. cbn [snd]. by rewrite !field_of_window by lia.
Qed.

(** ** Terminated strings *)

Lemma terminated_Ok window max name position :
  N.min (saturating_add 64 max 1) (len window) = len window →
  read_fields window (terminated max) = Ok (name, position) ↔
  position = len name + 1 ∧ len name < len window ∧ name = take (length name) window ∧ (x00 ∉ name) ∧
    subslice (len name) 1 window = [x00].
Proof.
  intros Hscan. unfold read_fields, terminated, nul_terminated, cab_reader_new, mbind, M_bind, get, lift, modify, mret, M_ret.
  cbn [cr_position cr_bytes]. rewrite N.sub_0_r, Hscan, N.add_0_l.
  rewrite (proj2 (get_range_Some 0 (len window) window window)).
  2:{ split; [lia|]. split; [done|]. unfold subslice. rewrite drop_0, N.sub_0_r, len_to_nat. by rewrite firstn_all. }
  cbn [ok_or]. unfold terminator_in.
  destruct (list_find (λ b, b = x00) window) as [[i b]|] eqn:Ef; cbn [fmap option_fmap option_map ok_or snd fst compose].
  - apply list_find_Some in Ef as (Hi & -> & Hmin).
    assert (i < length window)%nat as Hlt by (apply lookup_lt_Some in Hi; lia).
    assert (length (take i window) = i) as Hti by (rewrite length_take; lia).
    cbn [cr_position cab_reader_at]. rewrite N.add_0_l, Nat2N.id. split.
    + intros [= <- <-]. unfold len. rewrite Hti. split; [done|]. split; [lia|]. split; [done|]. split.
      * intros (j & Hj)%list_elem_of_lookup. apply lookup_take_Some in Hj as [Hj Hlt'].
        eapply Hmin; [exact Hj|lia|done].
      * unfold subslice. rewrite Nat2N.id. by rewrite (drop_S _ _ _ Hi).
    + intros (-> & Hl & Hn & Hnot & Hend).
      assert (i = length name) as ->; [|by rewrite <-Hn].
      unfold len in *. unfold subslice in Hend. rewrite Nat2N.id in Hend.
      assert (window !! length name = Some x00) as Hat.
      { assert (drop (length name) window !! 0%nat = Some x00) as E.
        { change (N.to_nat 1) with 1%nat in Hend. destruct (drop (length name) window) as [|c l]; [done|]. by injection Hend as ->. }
        by rewrite lookup_drop, Nat.add_0_r in E. }
      destruct (lt_eq_lt_dec i (length name)) as [[Hlt'|]|Hlt']; [exfalso|done|exfalso].
      * apply Hnot. rewrite Hn. apply list_elem_of_lookup. exists i. apply lookup_take_Some. by split.
      * by eapply Hmin.
  - split; [done|]. intros (_ & Hl & _ & _ & Hend). exfalso.
    eapply list_find_None in Ef. rewrite list.Forall_forall in Ef. apply (Ef x00); [|done].
    eapply elem_of_sublist; [|apply sublist_drop]. unfold subslice in Hend.
    eapply elem_of_sublist; [|apply (sublist_take _ (N.to_nat 1))]. rewrite Hend. apply list_elem_of_singleton. done.
Qed.

(** ** Runs over the volume *)

Section run.
Context `{MemoryVolume volume bytes} (limits : CabLimits) (Hbytes : len bytes < 2 ^ 64).

Lemma unit_bind_Ok {A B} (m : M unit CabinetError A) (k : A → M unit CabinetError B) b :
  ((m ≫= k) tt).2 = Ok b ↔ ∃ a, (m tt).2 = Ok a ∧ (k a tt).2 = Ok b.
Proof.
  unfold mbind, M_bind. destruct (m tt) as [[] [a|e]]; cbn; [|naive_solver].
  split; [by eauto|]. by intros (? & [= ->] & ?).
Qed.

Lemma volume_read_Ok offset size data :
  (volume_read_at volume offset size tt).2 = Ok data ↔ offset + size ≤ len bytes ∧ data = subslice offset size bytes.
Proof.
  rewrite memory_read. cbn [snd]. split; [by apply slice_volume_read_Ok|]. intros [Hin ->].
  unfold slice_volume_read. rewrite (proj2 (checked_add_Some 64 offset size (offset + size))) by lia.
  cbn. rewrite (proj2 (get_range_Some offset (offset + size) bytes (subslice offset size bytes))); [done|].
  split; [lia|]. split; [done|]. f_equal. lia.
Qed.

Lemma cab_advance_Ok offset delta cabinet_bytes next :
  cabinet_bytes < 2 ^ 64 →
  cab_advance offset delta cabinet_bytes = Ok next ↔ next = offset + delta ∧ next ≤ cabinet_bytes.
Proof.
  intros H64. unfold cab_advance, checked_add. destruct (N.ltb_spec (offset + delta) (2 ^ 64)); cbn [ok_or mbind result_bind].
  - rewrite guard_seq. destruct (N.ltb_spec cabinet_bytes (offset + delta)); unfold mret, result_ret; naive_solver lia.
  - split; [done|]. lia.
Qed.

Lemma read_within_Ok offset size cabinet_bytes data :
  cabinet_bytes ≤ len bytes →
  (table_read_within volume offset size cabinet_bytes tt).2 = Ok data ↔
  offset + size ≤ cabinet_bytes ∧ data = subslice offset size bytes.
Proof.
  intros Hc. unfold table_read_within. rewrite unit_bind_Ok. setoid_rewrite unit_bind_Ok. setoid_rewrite volume_read_Ok.
  cbn [lift snd]. setoid_rewrite ok_or_Ok. setoid_rewrite checked_add_Some. setoid_rewrite guard_err_Ok.
  setoid_rewrite N.ltb_ge. split.
  - intros (? & [? ->] & [] & ? & ? & ->). by split.
  - intros [? ->]. exists (offset + size). split; [lia|]. exists tt. split; [done|]. split; [lia|done].
Qed.

(** A string read through a window of the volume. *)
Lemma string_Ok cabinet_bytes limit max offset name position :
  offset ≤ cabinet_bytes → cabinet_bytes ≤ len bytes →
  let scan := N.min (cabinet_bytes - offset) (saturating_add 64 limit 1) in
  N.min (saturating_add 64 max 1) scan = scan →
  (∃ window, (volume_read_at volume offset scan tt).2 = Ok window ∧ read_fields window (terminated max) = Ok (name, position)) ↔
  string_at bytes cabinet_bytes limit offset (len name) ∧ name = subslice offset (len name) bytes ∧ position = len name + 1.
Proof.
  intros Ho Hc scan Hscan. setoid_rewrite volume_read_Ok.
  assert (offset + scan ≤ len bytes) as Hin by lia.
  assert (len (subslice offset scan bytes) = scan) as Hlen by by apply len_subslice.
  assert (Hn : len name < scan ↔ len name ≤ limit ∧ offset + len name + 1 ≤ cabinet_bytes).
  { unfold scan, saturating_add. lia. }
  split.
  - intros (? & [_ ->] & Ht). apply terminated_Ok in Ht as (-> & Hl & En & Hnot & Hend); [|by rewrite Hlen].
    rewrite Hlen in Hl. rewrite <-len_to_nat, take_subslice in En by lia.
    rewrite subslice_subslice in Hend by lia. apply Hn in Hl as [? ?].
    split; [|done]. split; [done|done|by rewrite <-En|done].
  - intros ([Hb Hi Hbody Hend] & En & ->). exists (subslice offset scan bytes). split; [done|].
    assert (len name < scan) as Hl by by apply Hn.
    apply terminated_Ok; [by rewrite Hlen|]. rewrite Hlen. split; [done|]. split; [done|].
    rewrite <-len_to_nat, take_subslice, subslice_subslice by lia. split; [done|]. split; [|done]. by rewrite En.
Qed.

(** *** The header *)

Lemma string_len_Ok cabinet_bytes limit offset n next :
  offset ≤ cabinet_bytes → cabinet_bytes ≤ len bytes →
  (read_string_len volume offset cabinet_bytes (saturating_add 64 limit 1) tt).2 = Ok (n, next) ↔
  string_at bytes cabinet_bytes limit offset n ∧ next = offset + n + 1.
Proof.
  intros Ho Hc. unfold read_string_len. cbv zeta. set (scan := N.min (cabinet_bytes - offset) _).
  assert (N.min (saturating_add 64 (scan - 1) 1) scan = scan) as Hscan.
  { unfold scan, saturating_add. lia. }
  pose proof (string_Ok cabinet_bytes limit (scan - 1) offset) as Hstring.
  rewrite unit_bind_Ok. setoid_rewrite unit_bind_Ok. cbn [lift snd]. split.
  - intros (window & Hw & [name position] & Hn & Hr). rewrite unit_bind_Ok in Hr. cbn [lift snd] in Hr.
    destruct Hr as (next' & Hnext & Hr). injection Hr as <- ->. apply cab_advance_Ok in Hnext as [-> _]; [|lia].
    destruct (proj1 (Hstring name position Ho Hc Hscan)) as (Hs & _ & ->); [by eauto|]. split; [done|lia].
  - intros [Hs ->]. pose proof Hs as [_ Hin _ _]. set (name := subslice offset n bytes).
    assert (len name = n) as Hlen by (apply len_subslice; lia).
    destruct (proj2 (Hstring name (n + 1) Ho Hc Hscan)) as (window & Hw & Hn); [by rewrite Hlen|].
    exists window. split; [done|]. exists (name, n + 1). split; [done|]. rewrite unit_bind_Ok. cbn [lift snd].
    exists (offset + n + 1). split; [|by rewrite Hlen]. apply cab_advance_Ok; lia.
Qed.

Lemma name_pair_Ok (present : bool) cabinet_bytes offset a b next :
  offset ≤ cabinet_bytes → cabinet_bytes ≤ len bytes →
  (name_pair volume present offset cabinet_bytes (saturating_add 64 (cl_max_header_string_bytes limits) 1) tt).2 =
    Ok (a, b, next) ↔ names_at bytes limits present cabinet_bytes offset a b next.
Proof.
  intros Ho Hc. unfold name_pair, names_at. destruct present; [|cbn; naive_solver].
  rewrite unit_bind_Ok. split.
  - intros ([n o] & Hn & Hr). rewrite unit_bind_Ok in Hr. destruct Hr as ([m o'] & Hm & [= <- <- <-]).
    apply string_len_Ok in Hn as [Hn ->]; [|done..]. pose proof (sa_inside _ _ _ _ _ Hn).
    apply string_len_Ok in Hm as [Hm ->]; [|lia|done]. exists n, m. split; [done|]. split; [done|]. split; [done|]. by split.
  - intros (n & m & -> & -> & -> & Hn & Hm). exists (n, offset + n + 1).
    split; [by apply string_len_Ok|]. rewrite unit_bind_Ok. pose proof (sa_inside _ _ _ _ _ Hn).
    exists (m, offset + n + 1 + m + 1). split; [|done]. apply string_len_Ok; [lia|done|by split].
Qed.

Lemma names_at_bound present cabinet_bytes offset a b next :
  offset ≤ cabinet_bytes → names_at bytes limits present cabinet_bytes offset a b next → next ≤ cabinet_bytes.
Proof. unfold names_at. destruct present; [|naive_solver]. intros _ (n & m & _ & _ & -> & _ & []). lia. Qed.

Lemma optional_names_Ok flags cabinet_bytes offset a b c d next :
  offset ≤ cabinet_bytes → cabinet_bytes ≤ len bytes →
  (read_optional_names volume limits flags offset cabinet_bytes tt).2 = Ok (a, b, c, d, next) ↔
  ∃ o, names_at bytes limits (has_flag FLAG_PREV_CABINET flags) cabinet_bytes offset a b o ∧
    names_at bytes limits (has_flag FLAG_NEXT_CABINET flags) cabinet_bytes o c d next.
Proof.
  intros Ho Hc. unfold read_optional_names. cbv zeta. rewrite unit_bind_Ok. split.
  - intros ([[a' b'] o] & Hp & Hr). rewrite unit_bind_Ok in Hr. destruct Hr as ([[c' d'] o'] & Hn & [= <- <- <- <- <-]).
    apply name_pair_Ok in Hp; [|done..]. pose proof (names_at_bound _ _ _ _ _ _ Ho Hp).
    apply name_pair_Ok in Hn; [|done..]. by exists o.
  - intros (o & Hp & Hn). exists (a, b, o). split; [by apply name_pair_Ok|]. rewrite unit_bind_Ok.
    pose proof (names_at_bound _ _ _ _ _ _ Ho Hp). exists (c, d, next). split; [|done]. by apply name_pair_Ok.
Qed.

Lemma reserves_Ok h a b c o :
  HEADER_FIXED_LEN ≤ fh_cabinet_bytes h ≤ len bytes →
  (read_reserves volume limits h tt).2 = Ok (a, b, c, o) ↔
  if has_flag FLAG_RESERVE_PRESENT (fh_flags h) then
    a = u16_at 36 bytes ∧ b = u8_at 38 bytes ∧ c = u8_at 39 bytes ∧ a ≤ cl_max_header_reserve_bytes limits ∧
    o = 40 + a ∧ o ≤ fh_cabinet_bytes h
  else a = 0 ∧ b = 0 ∧ c = 0 ∧ o = 36.
Proof.
  intros Hc. unfold read_reserves. destruct (has_flag _ _); [|cbn; naive_solver].
  rewrite unit_bind_Ok. unfold HEADER_FIXED_LEN in *. split.
  - intros (? & Hread & Hr). rewrite unit_bind_Ok in Hr. destruct Hr as ([[a' b'] c'] & Hf & Hr). cbn [lift snd] in Hf. apply read_within_Ok in Hread as [Hin ->]; [|lia]. rewrite reserves_run in Hf by lia. injection Hf as <- <- <-.
    rewrite unit_bind_Ok in Hr. destruct Hr as ([] & Hg%guard_err_Ok%N.ltb_ge & Hr). rewrite unit_bind_Ok in Hr.
    destruct Hr as (o' & Ho & [= <- <- <- <-]). cbn [lift snd] in Ho. apply cab_advance_Ok in Ho; [|lia].
    repeat split; lia.
  - intros (-> & -> & -> & Hg & -> & Ho). exists (subslice 36 4 bytes). split; [apply read_within_Ok; [lia|split; [lia|done]]|].
    rewrite unit_bind_Ok. exists (u16_at 36 bytes, u8_at 38 bytes, u8_at 39 bytes). split; [apply reserves_run; lia|].
    rewrite unit_bind_Ok. exists tt. split; [by apply guard_err_Ok, N.ltb_ge|]. rewrite unit_bind_Ok.
    exists (40 + u16_at 36 bytes). split; [|done]. cbn [lift snd]. apply cab_advance_Ok; lia.
Qed.

Lemma check_header_Ok size h u :
  check_header limits size h = Ok u ↔
  fh_version_major h = 1 ∧ N.ldiff (fh_flags h) FLAGS_KNOWN = 0 ∧
  fh_cabinet_bytes h ≤ cl_max_cabinet_bytes limits ∧ HEADER_FIXED_LEN ≤ fh_cabinet_bytes h ≤ size ∧
  fh_folder_count h ≤ cl_max_folders limits ∧ fh_file_count h ≤ cl_max_files limits ∧ fh_folder_count h ≠ 0.
Proof.
  unfold check_header. rewrite !guard_seq, guard_err_Ok, !orb_false_iff, !negb_false_iff, !N.eqb_eq, !N.ltb_ge, N.eqb_neq.
  naive_solver.
Qed.

Lemma parse_header_Ok h table :
  (parse_header volume limits tt).2 = Ok (h, table) ↔ header_image bytes limits h table.
Proof.
  unfold parse_header. rewrite unit_bind_Ok. split.
  - intros (size & Hsize & Hr). rewrite memory_len in Hsize. injection Hsize as <-.
    rewrite unit_bind_Ok in Hr. destruct Hr as ([] & Hg%guard_err_Ok%N.ltb_ge & Hr). unfold HEADER_FIXED_LEN in Hg.
    rewrite unit_bind_Ok in Hr. destruct Hr as (fixed & [_ ->]%volume_read_Ok & Hr).
    rewrite unit_bind_Ok in Hr. destruct Hr as (fh & Hfh & Hr). apply fixed_header_Ok in Hfh as [Hsig ->]; [|done].
    rewrite unit_bind_Ok in Hr. destruct Hr as ([] & Hcheck & Hr).
    apply check_header_Ok in Hcheck as (Hmajor & Hknown & Hcab & Hsize & Hfo & Hfi & Hno).
    rewrite unit_bind_Ok in Hr. destruct Hr as ([[[a b] c] o] & Hres & Hr). apply reserves_Ok in Hres; [|done].
    rewrite unit_bind_Ok in Hr. destruct Hr as ([[[[n1 n2] n3] n4] o'] & Hnames & Hr). injection Hr as <- <-.
    assert (o ≤ fh_cabinet_bytes (fixed_header_of bytes)) as Ho.
    { unfold HEADER_FIXED_LEN in Hsize. destruct (has_flag _ _); lia. }
    apply optional_names_Ok in Hnames as (o1 & Hp & Hn); [|done|lia].
    split; cbn in *; try done; [lia|]. exists o, o1. split; [|done].
    unfold has_reserved_areas. cbn. destruct (has_flag _ _); naive_solver.
  - intros [Hsig Hcab Hfirst Hminor [Hmajor Hm1] Hfo Hfi Hflags Hset Hindex Hknown Hsize Hlim (o & o1 & Hres & Hp & Hn)].
    assert (fixed_header_of bytes = {| fh_cabinet_bytes := ch_cabinet_bytes h; fh_first_file_offset := ch_first_file_offset h;
      fh_version_minor := ch_version_minor h; fh_version_major := ch_version_major h; fh_folder_count := ch_folder_count h;
      fh_file_count := ch_file_count h; fh_flags := ch_flags h; fh_set_id := ch_set_id h;
      fh_cabinet_index := ch_cabinet_index h |}) as Efh.
    { unfold fixed_header_of. by rewrite Hcab, Hfirst, Hminor, Hmajor, Hm1, Hfo, Hfi, Hflags, Hset, Hindex. }
    unfold HEADER_FIXED_LEN in *.
    exists (len bytes). split; [by rewrite memory_len|]. rewrite unit_bind_Ok. exists tt.
    split; [apply guard_err_Ok, N.ltb_ge; lia|]. rewrite unit_bind_Ok. exists (subslice 0 36 bytes).
    split; [apply volume_read_Ok; split; [lia|done]|]. rewrite unit_bind_Ok. exists (fixed_header_of bytes).
    split; [apply fixed_header_Ok; [lia|done]|]. rewrite unit_bind_Ok. exists tt. rewrite Efh.
    split; [apply check_header_Ok; cbn; unfold HEADER_FIXED_LEN; naive_solver lia|]. rewrite unit_bind_Ok.
    exists (ch_header_reserve_bytes h, ch_folder_reserve_bytes h, ch_data_reserve_bytes h, o).
    assert (o ≤ ch_cabinet_bytes h) as Ho by (destruct (has_reserved_areas h); lia).
    split. { apply reserves_Ok; [done|]. cbn. unfold has_reserved_areas in Hres. destruct (has_flag _ _); naive_solver. }
    rewrite unit_bind_Ok. exists (ch_previous_cabinet_name_len h, ch_previous_disk_name_len h, ch_next_cabinet_name_len h,
      ch_next_disk_name_len h, table). split; [|by destruct h].
    apply optional_names_Ok; [done|cbn; lia|]. exists o1. by split.
Qed.

(** *** The folder table *)

Lemma folder_entry_Ok cabinet_bytes offset entry_len f :
  8 ≤ entry_len → offset + entry_len ≤ len bytes →
  folder_entry limits cabinet_bytes (subslice offset entry_len bytes) = Ok f ↔
  folder_image bytes limits cabinet_bytes offset f.
Proof.
  intros He Hin. assert (len (subslice offset entry_len bytes) = entry_len) as Hlen by by apply len_subslice.
  unfold folder_entry. fields Hlen. unfold mret, M_ret, result_ret. cbn [snd mbind result_bind].
  rewrite !field_of_window, N.add_0_r, !guard_seq, !N.ltb_ge, N.leb_gt by lia. split.
  - intros (? & ? & [= <-]). by split.
  - intros [E1 E2 E3 ? ?]. unfold u32_at, u16_at in *. rewrite <-E1, <-E2, <-E3. split; [done|]. split; [done|]. by destruct f.
Qed.

Lemma folder_loop_Ok count cabinet_bytes entry_len offset folders :
  8 ≤ entry_len → cabinet_bytes ≤ len bytes →
  (folder_loop volume limits count cabinet_bytes entry_len offset tt).2 = Ok folders ↔
  length folders = count ∧
  (∀ i f, folders !! i = Some f →
     offset + N.of_nat i * entry_len + entry_len ≤ cabinet_bytes ∧
     folder_image bytes limits cabinet_bytes (offset + N.of_nat i * entry_len) f).
Proof.
  intros He Hc. revert offset folders. induction count as [|count IH]; intros offset folders; cbn [folder_loop].
  { cbn. split; [by intros [= <-]|]. intros [->%nil_length_inv _]. done. }
  rewrite unit_bind_Ok. split.
  - intros (entry & Hentry & Hr). apply read_within_Ok in Hentry as [Hin ->]; [|done].
    rewrite unit_bind_Ok in Hr. destruct Hr as (f & Hf & Hr). apply folder_entry_Ok in Hf; [|lia..].
    rewrite unit_bind_Ok in Hr. destruct Hr as (fs & Hfs & [= <-]). apply IH in Hfs as [<- Hall].
    split; [done|]. intros [|i] g Hg; cbn in Hg.
    + injection Hg as <-. by rewrite N.mul_0_l, N.add_0_r.
    + specialize (Hall i g Hg). replace (offset + N.of_nat (S i) * entry_len) with (offset + entry_len + N.of_nat i * entry_len) by lia.
      done.
  - intros [Hcount Hall]. destruct folders as [|f fs]; [done|]. injection Hcount as Hcount.
    destruct (Hall 0%nat f eq_refl) as [Hin Hf]. rewrite N.mul_0_l, N.add_0_r in Hin, Hf.
    exists (subslice offset entry_len bytes). split; [by apply read_within_Ok|]. rewrite unit_bind_Ok.
    exists f. split; [apply folder_entry_Ok; [done|lia|done]|]. rewrite unit_bind_Ok. exists fs. split; [|done].
    apply IH. split; [done|]. intros i g Hg. specialize (Hall (S i) g Hg).
    replace (offset + entry_len + N.of_nat i * entry_len) with (offset + N.of_nat (S i) * entry_len) by lia. done.
Qed.

Lemma parse_folders_Ok h table folders :
  ch_cabinet_bytes h ≤ len bytes →
  (parse_folders volume limits h table tt).2 = Ok folders ↔ folders_image bytes limits h table folders.
Proof.
  intros Hc. unfold parse_folders. cbv zeta. unfold FOLDER_FIXED_LEN. rewrite unit_bind_Ok. split.
  - intros (area & Harea & Hr). cbn [lift snd] in Harea. apply ok_or_Ok in Harea. unfold checked_mul in Harea.
    destruct (N.ltb_spec ((8 + ch_folder_reserve_bytes h) * ch_folder_count h) (2 ^ 64)); [|done]. injection Harea as <-.
    rewrite unit_bind_Ok in Hr. destruct Hr as (stop & [_ ->]%ok_or_Ok%checked_add_Some & Hr).
    rewrite unit_bind_Ok in Hr. destruct Hr as ([] & Hg%guard_err_Ok%N.ltb_ge & Hr).
    rewrite unit_bind_Ok in Hr. destruct Hr as ([] & Hg2%guard_err_Ok & Hr).
    apply orb_false_iff in Hg2 as [Hg2%N.ltb_ge Hg3%N.leb_gt].
    apply folder_loop_Ok in Hr as [Hcount Hall]; [|lia|done]. split; [unfold len; lia|lia|done|].
    intros i f Hf. by apply Hall.
  - intros [Hcount Harea Hfiles Hall]. exists ((8 + ch_folder_reserve_bytes h) * ch_folder_count h).
    split. { apply ok_or_Ok. unfold checked_mul. by rewrite (proj2 (N.ltb_lt _ _)) by lia. }
    rewrite unit_bind_Ok. eexists. split; [apply ok_or_Ok, checked_add_Some; split; [lia|done]|].
    rewrite unit_bind_Ok. exists tt. split; [apply guard_err_Ok, N.ltb_ge; lia|].
    rewrite unit_bind_Ok. exists tt. split; [apply guard_err_Ok, orb_false_iff; rewrite N.ltb_ge, N.leb_gt; lia|].
    apply folder_loop_Ok; [lia|done|]. split; [unfold len in Hcount; lia|]. intros i f Hf. split; [|by apply Hall].
    apply lookup_lt_Some in Hf. unfold len in Hcount.
    assert (N.of_nat i * (8 + ch_folder_reserve_bytes h) + (8 + ch_folder_reserve_bytes h) ≤
      ch_folder_count h * (8 + ch_folder_reserve_bytes h)); [|lia].
    replace (N.of_nat i * (8 + ch_folder_reserve_bytes h) + (8 + ch_folder_reserve_bytes h))
      with ((N.of_nat i + 1) * (8 + ch_folder_reserve_bytes h)) by lia.
    apply N.mul_le_mono_r. lia.
Qed.

(** *** The file table *)

Lemma file_entry_Ok h offset f next :
  offset ≤ ch_cabinet_bytes h → ch_cabinet_bytes h ≤ len bytes →
  (file_entry volume limits (ch_folder_count h) (ch_cabinet_bytes h) offset tt).2 = Ok (f, next) ↔
  file_image bytes limits h offset f next.
Proof.
  intros Ho Hc. unfold file_entry. cbv zeta. unfold FILE_FIXED_LEN. rewrite unit_bind_Ok.
  assert (Hscan : ∀ a, N.min (saturating_add 64 (cl_max_name_bytes limits) 1)
    (N.min a (saturating_add 64 (cl_max_name_bytes limits) 1)) = N.min a (saturating_add 64 (cl_max_name_bytes limits) 1)).
  { intros a. lia. }
  split.
  - intros (fixed & Hfixed & Hr). apply read_within_Ok in Hfixed as [Hin ->]; [|done].
    rewrite unit_bind_Ok in Hr. destruct Hr as (entry & Hentry & Hr). cbn [lift snd] in Hentry.
    rewrite fixed_file_run in Hentry by lia. injection Hentry as <-.
    rewrite unit_bind_Ok in Hr. destruct Hr as (o & Hadv & Hr). apply cab_advance_Ok in Hadv as [-> _]; [|lia].
    rewrite unit_bind_Ok in Hr. destruct Hr as ([] & Hg1%guard_err_Ok%N.ltb_ge & Hr).
    rewrite unit_bind_Ok in Hr. destruct Hr as ([] & Hg2%guard_err_Ok%N.ltb_ge & Hr).
    rewrite unit_bind_Ok in Hr. destruct Hr as ([] & Hg3%guard_err_Ok%negb_false_iff%bool_decide_eq_true & Hr).
    rewrite unit_bind_Ok in Hr. destruct Hr as (window & Hwindow & Hr).
    rewrite unit_bind_Ok in Hr. destruct Hr as ([name position] & Hname & Hr). cbn [lift snd] in Hname.
    rewrite unit_bind_Ok in Hr. destruct Hr as ([] & Hg4%guard_err_Ok%N.eqb_neq & Hr).
    rewrite unit_bind_Ok in Hr. destruct Hr as (o & Hadv & [= <- <-]).
    apply cab_advance_Ok in Hadv as [-> _]; [|lia].
    destruct (proj1 (string_Ok (ch_cabinet_bytes h) (cl_max_name_bytes limits) (cl_max_name_bytes limits) (offset + 16)
      name position ltac:(lia) Hc (Hscan _))) as (Hs & En & ->); [exists window; exact (conj Hwindow Hname)|].
    split; cbn; try done; [|lia]. intros ->. done.
  - intros [E1 E2 E3 E4 E5 E6 [Hl1 Hl2] Hindex En Hs Hne ->]. pose proof (sa_inside _ _ _ _ _ Hs) as Hin.
    exists (subslice offset 16 bytes). split; [apply read_within_Ok; [done|split; [lia|done]]|].
    rewrite unit_bind_Ok. eexists. split; [cbn [lift snd]; apply fixed_file_run; lia|].
    rewrite <-E1, <-E2, <-E3, <-E4, <-E5, <-E6. rewrite unit_bind_Ok. exists (offset + 16).
    split; [apply cab_advance_Ok; lia|]. rewrite unit_bind_Ok. exists tt. split; [by apply guard_err_Ok, N.ltb_ge|].
    rewrite unit_bind_Ok. exists tt. split; [by apply guard_err_Ok, N.ltb_ge|].
    rewrite unit_bind_Ok. exists tt. split; [by apply guard_err_Ok, negb_false_iff, bool_decide_eq_true|].
    destruct (proj2 (string_Ok (ch_cabinet_bytes h) (cl_max_name_bytes limits) (cl_max_name_bytes limits) (offset + 16)
      (fe_name f) (len (fe_name f) + 1) ltac:(lia) Hc (Hscan _))) as (window & Hw & Hn); [by split|].
    rewrite unit_bind_Ok. exists window. split; [done|]. rewrite unit_bind_Ok. exists (fe_name f, len (fe_name f) + 1).
    split; [done|]. rewrite unit_bind_Ok. exists tt. split.
    { apply guard_err_Ok, N.eqb_neq. by rewrite len_0_nil. }
    rewrite unit_bind_Ok. exists (offset + 16 + len (fe_name f) + 1). split; [apply cab_advance_Ok; lia|].
    unfold mret, M_ret. cbn [snd]. by destruct f.
Qed.

Lemma file_loop_Ok h count offset files :
  offset ≤ ch_cabinet_bytes h → ch_cabinet_bytes h ≤ len bytes →
  (file_loop volume limits count (ch_folder_count h) (ch_cabinet_bytes h) offset tt).2 = Ok files ↔
  length files = count ∧ files_image bytes limits h offset files.
Proof.
  intros Ho Hc. revert offset files Ho. induction count as [|count IH]; intros offset files Ho; cbn [file_loop].
  { cbn. split; [intros [= <-]; split; [done|constructor]|]. intros [->%nil_length_inv _]. done. }
  assert (Hnext : ∀ f next, file_image bytes limits h offset f next → next ≤ ch_cabinet_bytes h).
  { intros f next Hf. pose proof (sa_inside _ _ _ _ _ (fl_string _ _ _ _ _ _ Hf)). rewrite (fl_next _ _ _ _ _ _ Hf). lia. }
  rewrite unit_bind_Ok. split.
  - intros ([f next] & Hf & Hr). apply file_entry_Ok in Hf; [|done..]. rewrite unit_bind_Ok in Hr.
    destruct Hr as (fs & Hfs & [= <-]). apply IH in Hfs as [<- Hfs]; [|by eapply Hnext]. split; [done|]. by econstructor.
  - intros [Hcount Hfiles]. destruct Hfiles as [|offset f next fs Hf Hfs]; [done|]. injection Hcount as Hcount.
    exists (f, next). split; [by apply file_entry_Ok|]. rewrite unit_bind_Ok. exists fs. split; [|done].
    apply IH; [by eapply Hnext|by split].
Qed.

Lemma cabinet_parse_Ok c : (cabinet_parse volume limits tt).2 = Ok c ↔ cabinet_image bytes limits c.
Proof.
  unfold cabinet_parse, cabinet_image. rewrite unit_bind_Ok. split.
  - intros ([h table] & Hh & Hr). apply parse_header_Ok in Hh. pose proof (proj2 (hi_size _ _ _ _ Hh)) as Hc.
    rewrite unit_bind_Ok in Hr. destruct Hr as (folders & Hfo & Hr). apply parse_folders_Ok in Hfo; [|done].
    rewrite unit_bind_Ok in Hr. destruct Hr as (files & Hfi & [= <-]). unfold parse_files in Hfi.
    apply file_loop_Ok in Hfi as [Hcount Hfi]; [|by apply N.lt_le_incl, (fs_files _ _ _ _ _ Hfo)|done].
    exists table. cbn. split; [done|]. split; [done|]. split; [unfold len; lia|done].
  - intros (table & Hh & Hfo & Hcount & Hfi). pose proof (proj2 (hi_size _ _ _ _ Hh)) as Hc.
    exists (ca_header c, table). split; [by apply parse_header_Ok|]. rewrite unit_bind_Ok.
    exists (ca_folders c). split; [by apply parse_folders_Ok|]. rewrite unit_bind_Ok. exists (ca_files c).
    split; [|by destruct c]. unfold parse_files. apply file_loop_Ok; [by apply N.lt_le_incl, (fs_files _ _ _ _ _ Hfo)|done|].
    split; [unfold len in Hcount; lia|done].
Qed.
End run.

(** ** What is a cabinet *)

(** C31: Parsing a volume in memory accepts exactly the images of cabinets: the
    tables it returns are those that lie in the bytes, header, folders at their
    stride and files one behind the other, every one of them inside the cabinet
    and within the ceilings; and any image that has such tables is accepted with
    them. *)
Theorem cabinet_parse_exact `{MemoryVolume volume bytes} limits c :
  len bytes < 2 ^ 64 → cabinet_parse volume limits tt = (tt, Ok c) ↔ cabinet_image bytes limits c.
Proof.
  intros Hb. rewrite <-(cabinet_parse_Ok limits Hb c). destruct (cabinet_parse volume limits tt) as [[] r]. cbn. naive_solver.
Qed.
