(* ===== verification/CabMszip.v ===== *)
(** * Microsoft cabinets: MSZIP blocks

    [crates/ohl-mscab/src/mszip.rs]: one RFC 1951 stream for each block, the
    history carried from block to block in a ring. The raw inflater is
    miniz_oxide's [decompress]. *)

From S2P Require Export CabFormat.

(** [TINFLStatus], what the code tells apart. *)
Inductive RawStatus : Type := RS_Done | RS_HasMoreOutput | RS_Other.

Record RawResult : Type := {
  rr_status : RawStatus;
  rr_used : N;
  rr_written : list byte
}.

(** [DecompressorOxide::new], [init] and [decompress(state, input, ring, at, 0)]:
    what is written starts at [at] and stays in front of the end of the ring. *)
Class RawInflater (Y : Type) : Type := {
  raw_new : Y;
  raw_init : Y → Y;
  raw_decompress : Y → list byte → list byte → N → Y * RawResult
}.

Class RawInflaterLaws (Y : Type) `{RawInflater Y} : Prop := {
  raw_bounds z input ring at_ :
    at_ ≤ len ring → let r := (raw_decompress z input ring at_).2 in
    rr_used r ≤ len input ∧ at_ + len (rr_written r) ≤ len ring
}.

(** [b"CK"]. *)
Definition MSZIP_SIGNATURE : list byte := [x43; x4b].

Definition MSZIP_WINDOW : N := MAX_BLOCK_UNCOMPRESSED.

Record MsZipDecoder (Y : Type) : Type := {
  mz_state : Y;
  mz_window : list byte;
  mz_position : N
}.
Arguments mz_state {Y} _.
Arguments mz_window {Y} _.
Arguments mz_position {Y} _.

Definition cab_fail {S A} (error : CabinetError) : M S (Stop CabinetError) A := throw (Fail error).

(** [?] on a [Result]. *)
Definition cab_try {S A} (r : result CabinetError A) : M S (Stop CabinetError) A := lift (map_err Fail r).

(** [if c { return Err(e) }]. *)
Definition cab_reject {S} (c : bool) (error : CabinetError) : M S (Stop CabinetError) unit :=
  cab_try (guard_err c error).

Section mszip.
Context {Y : Type} `{RawInflater Y}.

(** The decoder and the buffer it fills. *)
Abbreviation MZ A := (M (MsZipDecoder Y * list byte) (Stop CabinetError) A).

Definition mszip_new : MsZipDecoder Y :=
  {| mz_state := raw_new; mz_window := replicate (N.to_nat MSZIP_WINDOW) x00; mz_position := 0 |}.

Definition copy_from_ring (window : list byte) (start size : N) (out : list byte) : result CabinetError (list byte) :=
  let first := N.min size (MSZIP_WINDOW - start) in
  head ← ok_or (get_range start (start + first) window) CE_Internal;
  if first <? size then
    tail ← ok_or (get_range 0 (size - first) window) CE_Internal;
    mret (out ++ head ++ tail)
  else mret (out ++ head).

(** One call of [decompress]: how far the payload is consumed. *)
Definition mszip_turn (payload : list byte) (expected consumed : N) : MZ (N + unit) :=
  s ← get;
  let start := mz_position s.1 in
  input ← lift (ok_or (get_range consumed (len payload) payload) Panic);
  let '(state, r) := raw_decompress (mz_state s.1) input (mz_window s.1) start in
  let written := len (rr_written r) in
  modify (λ s, ({| mz_state := state; mz_window := splice start (rr_written r) (mz_window s.1);
                   mz_position := mz_position s.1 |}, s.2));;
  consumed ← cab_try (ok_or (checked_add 64 consumed (rr_used r)) CE_DecompressionFailed);
  (if 0 <? written then
     s ← get;
     cab_reject (expected <? len s.2 + written) CE_DecompressionFailed;;
     out ← cab_try (copy_from_ring (mz_window s.1) start written s.2);
     modify (λ s, ({| mz_state := mz_state s.1; mz_window := mz_window s.1;
                      mz_position := (start + written) mod MSZIP_WINDOW |}, out))
   else mret tt);;
  match rr_status r with
  | RS_Done => mret (inr tt)
  | RS_HasMoreOutput =>
      if written =? 0 then cab_fail CE_DecompressionFailed else mret (inl consumed)
  | RS_Other => cab_fail CE_DecompressionFailed
  end.

Definition mszip_decode_block (input : list byte) (expected : N) : MZ unit :=
  modify (λ s, (s.1, []));;
  cab_reject (MSZIP_WINDOW <? expected) CE_LimitExceeded;;
  payload ← cab_try (
    if (2 <=? len input) && bool_decide (take 2 input = MSZIP_SIGNATURE) then Ok (drop 2 input)
    else Err CE_DecompressionFailed);
  modify (λ s, ({| mz_state := raw_init (mz_state s.1); mz_window := mz_window s.1;
                   mz_position := mz_position s.1 |}, s.2));;
  loop_W (mszip_turn payload expected) 0;;
  s ← get;
  cab_reject (negb (len s.2 =? expected)) CE_DecompressionFailed.
End mszip.

Lemma wp_cab_try {S A} (r : result CabinetError A) (Q : A → S → Prop) R (s : S) :
  match r with Ok a => Q a s | Err e => R (Fail e) s end → wp (cab_try r) Q R s.
Proof. by destruct r. Qed.

Lemma wp_cab_reject {S} c e (Q : unit → S → Prop) R (s : S) :
  (if c : bool then R (Fail e) s else Q tt s) → wp (cab_reject c e) Q R s.
Proof. by destruct c. Qed.

(** ** A block comes to an end *)

Section total.
Context {Y : Type} `{RawInflaterLaws Y}.

Record mszip_wf (d : MsZipDecoder Y) : Prop := {
  mw_window : len (mz_window d) = MSZIP_WINDOW;
  mw_position : mz_position d < MSZIP_WINDOW
}.

Lemma mszip_new_wf : mszip_wf mszip_new.
Proof. split; [|done]. cbn [mz_window mszip_new]. unfold len. by rewrite length_replicate, N2Nat.id. Qed.

Lemma copy_written window start written out :
  start + len written ≤ len window → len window = MSZIP_WINDOW →
  copy_from_ring (splice start written window) start (len written) out = Ok (out ++ written).
Proof.
  intros Hin Hw. unfold copy_from_ring. rewrite N.min_l by lia. cbv zeta.
  assert (len (splice start written window) = len window) as Hl.
  { unfold len. by rewrite (length_splice _ _ _ Hin). }
  rewrite (proj2 (get_range_Some start (start + len written) _ written)).
  2:{ split; [lia|]. split; [by rewrite Hl|]. unfold splice, subslice.
      assert (length (take (N.to_nat start) window) = N.to_nat start) as Ht by (rewrite length_take; unfold len in *; lia).
      rewrite drop_app_length' by done. replace (start + len written - start) with (len written) by lia.
      by rewrite len_to_nat, take_app_length. }
  cbn [ok_or mbind result_bind]. by rewrite N.ltb_irrefl.
Qed.

(** Whatever the data, a block ends: with as many bytes as expected, or with an
    error and no more than those. *)
Lemma mszip_decode_block_total input expected d out :
  mszip_wf d →
  wp (mszip_decode_block input expected)
    (λ _ s, mszip_wf s.1 ∧ len s.2 = expected ∧ expected ≤ MSZIP_WINDOW)
    (λ e s, mszip_wf s.1 ∧ len s.2 ≤ expected ∧ ∃ error, e = Fail error) (d, out).
Proof.
  intros Hd. unfold mszip_decode_block.
  set (Q := λ (_ : unit) (s : MsZipDecoder Y * list byte), mszip_wf s.1 ∧ len s.2 = expected ∧ expected ≤ MSZIP_WINDOW).
  set (R := λ (e : Stop CabinetError) (s : MsZipDecoder Y * list byte), mszip_wf s.1 ∧ len s.2 ≤ expected ∧ ∃ error, e = Fail error).
  assert (Hfail : ∀ error d out, mszip_wf d → len out ≤ expected → R (Fail error) (d, out)).
  { intros error d' out' Hd' Hout. split; [done|]. split; [done|by eexists]. }
  apply wp_bind, wp_modify. cbn [fst snd].
  apply wp_bind, wp_cab_reject. destruct (N.ltb_spec MSZIP_WINDOW expected) as [|Hexp]; [apply Hfail; [done|apply N.le_0_l]|].
  apply wp_bind, wp_cab_try. destruct (_ && _); [|apply Hfail; [done|apply N.le_0_l]].
  set (payload := drop 2 input). apply wp_bind, wp_modify. apply wp_bind.
  assert (Hdone : ∀ s, mszip_wf s.1 → len s.2 ≤ expected →
    wp (s ← get; cab_reject (negb (len s.2 =? expected)) CE_DecompressionFailed) Q R s).
  { intros [d' out'] Hd' Hout. apply wp_bind, wp_get, wp_cab_reject. cbn [fst snd].
    destruct (N.eqb_spec (len out') expected) as [E|]; cbn [negb]; [by split|by apply Hfail]. }
  eapply (loop_W_wp _ (λ (consumed : N) s, consumed ≤ len payload ∧ mszip_wf s.1 ∧ len s.2 ≤ expected) (λ _ s, expected - len s.2)).
  { split; [apply N.le_0_l|]. split; [by destruct Hd|apply N.le_0_l]. }
  { intros _ s _. assert (MSZIP_WINDOW < N.pos WISE_FUEL) by (by vm_compute). lia. }
  clear d out Hd. intros consumed [d out] (Hconsumed & [Hw Hp] & Hout). cbn [fst snd] in *. unfold mszip_turn.
  apply wp_bind, wp_get. cbv zeta. cbn [fst snd].
  rewrite (proj2 (get_range_Some consumed (len payload) payload (subslice consumed (len payload - consumed) payload))) by done.
  set (input' := subslice _ _ payload). assert (len input' = len payload - consumed) as Hin' by (apply len_subslice; lia).
  apply wp_bind, wp_lift; [|done]. intros ? [= <-].
  pose proof (raw_bounds (mz_state d) input' (mz_window d) (mz_position d) ltac:(lia)) as Hr.
  cbv zeta in Hr. destruct (raw_decompress _ _ _ _) as [state r]. cbn [snd] in Hr. destruct Hr as [Hused Hr].
  apply wp_bind, wp_modify. cbn [fst snd].
  assert (len (splice (mz_position d) (rr_written r) (mz_window d)) = MSZIP_WINDOW) as Hw'.
  { rewrite <-Hw. unfold len. by rewrite (length_splice _ _ _ Hr). }
  apply wp_bind, wp_cab_try. destruct (checked_add _ _ _) as [consumed'|] eqn:Ec; cbn [ok_or]; [|by apply Hfail].
  apply checked_add_Some in Ec as [_ ->].
  apply wp_bind. destruct (N.ltb_spec 0 (len (rr_written r))) as [Hpos|Hzero].
  - apply wp_bind, wp_get. cbn [fst snd]. apply wp_bind, wp_cab_reject.
    destruct (N.ltb_spec expected (len out + len (rr_written r))) as [|Hfit]; [by apply Hfail|].
    apply wp_bind, wp_cab_try. cbn [mz_window]. rewrite copy_written by done.
    apply wp_modify. cbn [fst snd mz_state mz_window]. rewrite (proj2 (N.eqb_neq _ 0)) by lia.
    set (d' := {| mz_state := state |}). assert (mszip_wf d') as Hd' by (split; [done|by apply N.mod_lt]).
    assert (len (out ++ rr_written r) ≤ expected) as Hout' by by rewrite len_app.
    destruct (rr_status r); [apply wp_ret; by apply Hdone| |apply wp_throw; by apply Hfail].
    apply wp_ret. cbn [fst snd]. split; [split; [lia|by split]|]. rewrite len_app in *. lia.
  - assert (len (rr_written r) = 0) as E0 by lia. rewrite E0. apply wp_ret. cbn [N.eqb].
    destruct (rr_status r); [apply wp_ret; by apply Hdone|by apply wp_throw, Hfail|by apply wp_throw, Hfail].
Qed.
End total.
