(* ===== verification/CabLzx.v ===== *)
(** * Microsoft cabinets: the LZX decoder

    [crates/ohl-mscab/src/lzx.rs]: Huffman tables built from path lengths, the
    bit reader, the sliding window and the frames of a folder. *)

From S2P Require Export CabMszip.

Definition MIN_WINDOW_BITS : N := 15.
Definition MAX_WINDOW_BITS : N := 21.
Definition FRAME_SIZE : N := 32768.
Definition NUM_CHARS : N := 256.
Definition LENGTH_TREE_ELEMENTS : N := 249.
Definition ALIGNED_TREE_ELEMENTS : N := 8.
Definition PRETREE_ELEMENTS : N := 20.
Definition MAX_CODE_BITS : N := 16.
Definition E8_FRAME_LIMIT : N := 32768.

Inductive BlockType : Type := BT_Verbatim | BT_Aligned | BT_Uncompressed.

#[export] Instance BlockType_eq_dec : EqDecision BlockType.
Proof. solve_decision. Defined.

(** [l[i]]: out of range it panics. *)
Definition index {S A} (l : list A) (i : N) : M S (Stop CabinetError) A := lift (ok_or (l !! N.to_nat i) Panic).

(** Whether the build keeps debug assertions. The rest of the arithmetic is that
    of a release build; [fill]'s assertion is what keeps its shift in range. *)
Class Build : Type := debug_assertions : bool.

#[export] Instance release_build : Build | 100 := false.

Definition debug_assert `{Build} {S} (c : bool) : M S (Stop CabinetError) unit :=
  if debug_assertions && negb c then throw Panic else mret tt.

(** ** [HuffmanTable] *)

Record HuffmanTable : Type := {
  ht_counts : list N;
  ht_symbols : list N
}.

(** The first loop of [new], an array of one counter for each length. *)
Definition length_counts (lengths : list N) : list N :=
  <[0%nat := 0]> (foldl (λ counts length, alter N.succ (N.to_nat length) counts)
    (replicate (N.to_nat (MAX_CODE_BITS + 1)) 0) lengths).

(** The second: whether some length has more codes than are left. *)
Fixpoint oversubscribed (left : Z) (counts : list N) : bool :=
  match counts with
  | [] => false
  | count :: counts =>
      let left := (2 * left - Z.of_N count)%Z in
      (left <? 0)%Z || oversubscribed left counts
  end.

(** [offsets], behind [offsets[0]]: where the symbols of each length start. *)
Fixpoint running_offsets (start : N) (counts : list N) : list N :=
  start :: match counts with [] => [] | count :: counts => running_offsets (start + count) counts end.

Definition table_offsets (counts : list N) : list N := 0 :: running_offsets 0 (drop 1 counts).

(** The third: a symbol goes to the cursor of its length. *)
Definition place (s : list N * list N) (symbol length : N) : list N * list N :=
  let '(symbols, cursor) := s in
  if length =? 0 then (symbols, cursor)
  else
    let slot := cursor !!! N.to_nat length in
    (<[N.to_nat slot := symbol]> symbols, <[N.to_nat length := slot + 1]> cursor).

Fixpoint place_all (symbol : N) (lengths : list N) (s : list N * list N) : list N * list N :=
  match lengths with
  | [] => s
  | length :: lengths => place_all (symbol + 1) lengths (place s symbol length)
  end.

Definition huffman_new (lengths : list N) : result CabinetError HuffmanTable :=
  guard_err (existsb (λ length, MAX_CODE_BITS <? length) lengths) CE_DecompressionFailed;;
  let counts := length_counts lengths in
  guard_err (oversubscribed 1 (drop 1 counts)) CE_DecompressionFailed;;
  let offsets := table_offsets counts in
  let total := offsets !!! N.to_nat (MAX_CODE_BITS + 1) in
  mret {| ht_counts := counts;
          ht_symbols := (place_all 0 lengths (replicate (N.to_nat total) 0, offsets)).1 |}.

(** ** [BitReader] *)

Record LzxBits : Type := {
  lb_data : list byte;
  lb_byte_position : N;
  lb_buffer : N;
  lb_bits : N;
  lb_overrun_words : N
}.

Definition MAX_OVERRUN_WORDS : N := 4.

Definition bits_new (data : list byte) : LzxBits :=
  {| lb_data := data; lb_byte_position := 0; lb_buffer := 0; lb_bits := 0; lb_overrun_words := 0 |}.

Definition lb_put_position (position overrun : N) (self : LzxBits) : LzxBits :=
  {| lb_data := lb_data self; lb_byte_position := position; lb_buffer := lb_buffer self;
     lb_bits := lb_bits self; lb_overrun_words := overrun |}.
Definition lb_put_buffer (buffer bits : N) (self : LzxBits) : LzxBits :=
  {| lb_data := lb_data self; lb_byte_position := lb_byte_position self; lb_buffer := buffer;
     lb_bits := bits; lb_overrun_words := lb_overrun_words self |}.

Abbreviation BM A := (M LzxBits (Stop CabinetError) A).

Definition next_byte : BM N :=
  self ← get;
  match lb_data self !! N.to_nat (lb_byte_position self) with
  | Some byte =>
      modify (lb_put_position (lb_byte_position self + 1) (lb_overrun_words self));;
      mret (Byte.to_N byte)
  | None =>
      let position := lb_byte_position self + 1 in
      let overrun := if N.even position then lb_overrun_words self + 1 else lb_overrun_words self in
      modify (lb_put_position position overrun);;
      cab_reject (N.even position && (MAX_OVERRUN_WORDS <? overrun)) CE_DecompressionFailed;;
      mret 0
  end.

(** The shift of the word wraps, and so does its distance. *)
Definition fill_word : BM unit :=
  low ← next_byte;
  high ← next_byte;
  modify (λ self,
    let word := low + 256 * high in
    let shift := wrapping_sub 32 16 (lb_bits self) mod 32 in
    lb_put_buffer (N.lor (lb_buffer self) (N.shiftl word shift mod 2 ^ 32)) (lb_bits self + 16) self).

(** [while self.bits < count]; each turn adds sixteen bits. *)
Fixpoint fill_bits (turns : nat) (count : N) : BM unit :=
  match turns with
  | O => mret tt
  | S turns =>
      self ← get;
      if lb_bits self <? count then fill_word;; fill_bits turns count else mret tt
  end.

Definition fill `{Build} (count : N) : BM unit :=
  debug_assert (count <=? 17);;
  fill_bits (N.to_nat count) count.

Definition read_bits `{Build} (count : N) : BM N :=
  if count =? 0 then mret 0
  else
    fill count;;
    self ← get;
    modify (lb_put_buffer (N.shiftl (lb_buffer self) count mod 2 ^ 32) (lb_bits self - count));;
    mret (N.shiftr (lb_buffer self) (32 - count)).

Definition read_u24 `{Build} : BM N :=
  high ← read_bits 8;
  middle ← read_bits 8;
  low ← read_bits 8;
  mret (N.lor (N.lor (N.shiftl high 16) (N.shiftl middle 8)) low).

Definition align_to_word `{Build} : BM unit :=
  self ← get;
  let remainder := lb_bits self mod 16 in
  (if remainder =? 0 then read_bits 16 else read_bits remainder);;
  mret tt.

Definition aligned_byte_position : BM N :=
  self ← get;
  cab_reject (negb (lb_bits self mod 16 =? 0)) CE_Internal;;
  cab_try (ok_or (checked_sub (lb_byte_position self) (lb_bits self / 8)) CE_Internal).

Definition resume_at (position : N) (self : LzxBits) : LzxBits :=
  {| lb_data := lb_data self; lb_byte_position := position; lb_buffer := 0; lb_bits := 0;
     lb_overrun_words := lb_overrun_words self |}.

Fixpoint lzx_decode_from `{Build} (counts symbols : list N) (code first index : N) : BM N :=
  match counts with
  | [] => cab_fail CE_DecompressionFailed
  | count :: counts =>
      bit ← read_bits 1;
      let code := N.lor code bit in
      delta ← cab_try (ok_or (checked_sub code first) CE_DecompressionFailed);
      if delta <? count then cab_try (ok_or (symbols !! N.to_nat (index + delta)) CE_DecompressionFailed)
      else lzx_decode_from counts symbols (2 * code) (2 * (first + count)) (index + count)
  end.

(** [BitReader::decode]. *)
Definition lzx_decode `{Build} (table : HuffmanTable) : BM N :=
  lzx_decode_from (drop 1 (ht_counts table)) (ht_symbols table) 0 0 0.

(** ** [LzxDecoder] *)

Record LzxDecoder : Type := {
  lz_window : list byte;
  lz_window_mask : N;
  lz_window_position : N;
  lz_output_total : N;
  lz_position_slots : N;
  lz_base_position : list N;
  lz_footer_bits : list N;
  lz_main_lengths : list N;
  lz_length_lengths : list N;
  lz_main_table : option HuffmanTable;
  lz_length_table : option HuffmanTable;
  lz_aligned_table : option HuffmanTable;
  lz_repeated : N * N * N;
  lz_block_type : BlockType;
  lz_block_remaining : N;
  lz_header_read : bool;
  lz_e8_translation : bool;
  lz_e8_file_size : N;
  lz_frames_done : N
}.

(** The slots from [slot] on, the next one starting at [position]. *)
Fixpoint slots_from (count : nat) (slot position : N) : list (N * N) :=
  match count with
  | O => []
  | S count =>
      let bits := if slot <? 4 then 0 else default (2 ^ 8 - 1) (try_from 8 (slot / 2 - 1)) in
      (position, bits) :: slots_from count (slot + 1) (saturating_add 32 position (2 ^ bits))
  end.

Definition slot_tables (slots : N) : list N * list N :=
  let entries := slots_from (N.to_nat slots) 0 0 in (entries.*1, entries.*2).

Definition lzx_new (window_bits : N) (limits : CabLimits) : result CabinetError LzxDecoder :=
  guard_err (negb ((MIN_WINDOW_BITS <=? window_bits) && (window_bits <=? MAX_WINDOW_BITS)) ||
             (cl_max_lzx_window_bits limits <? window_bits)) CE_Unsupported;;
  let window_size := 2 ^ window_bits in
  let position_slots := 2 * window_bits in
  let '(base_position, footer_bits) := slot_tables position_slots in
  let main_elements := NUM_CHARS + 8 * position_slots in
  mret {| lz_window := replicate (N.to_nat window_size) x00;
          lz_window_mask := window_size - 1;
          lz_window_position := 0;
          lz_output_total := 0;
          lz_position_slots := position_slots;
          lz_base_position := base_position;
          lz_footer_bits := footer_bits;
          lz_main_lengths := replicate (N.to_nat main_elements) 0;
          lz_length_lengths := replicate (N.to_nat LENGTH_TREE_ELEMENTS) 0;
          lz_main_table := None;
          lz_length_table := None;
          lz_aligned_table := None;
          lz_repeated := (1, 1, 1);
          lz_block_type := BT_Verbatim;
          lz_block_remaining := 0;
          lz_header_read := false;
          lz_e8_translation := false;
          lz_e8_file_size := 0;
          lz_frames_done := 0 |}.

Definition lz_put_window (window : list byte) (position total : N) (s : LzxDecoder) : LzxDecoder :=
  let (_, b, _, _, e, f, g, h, i, j, k, l, m, n, o, p, q, r, t) := s in
  Build_LzxDecoder window b position total e f g h i j k l m n o p q r t.
Definition lz_put_lengths (main length_ : list N) (s : LzxDecoder) : LzxDecoder :=
  let (a, b, c, d, e, f, g, _, _, j, k, l, m, n, o, p, q, r, t) := s in
  Build_LzxDecoder a b c d e f g main length_ j k l m n o p q r t.
Definition lz_put_tables (main length_ aligned : option HuffmanTable) (s : LzxDecoder) : LzxDecoder :=
  let (a, b, c, d, e, f, g, h, i, _, _, _, m, n, o, p, q, r, t) := s in
  Build_LzxDecoder a b c d e f g h i main length_ aligned m n o p q r t.
Definition lz_put_repeated (repeated : N * N * N) (s : LzxDecoder) : LzxDecoder :=
  let (a, b, c, d, e, f, g, h, i, j, k, l, _, n, o, p, q, r, t) := s in
  Build_LzxDecoder a b c d e f g h i j k l repeated n o p q r t.
Definition lz_put_block (type : BlockType) (remaining : N) (s : LzxDecoder) : LzxDecoder :=
  let (a, b, c, d, e, f, g, h, i, j, k, l, m, _, _, p, q, r, t) := s in
  Build_LzxDecoder a b c d e f g h i j k l m type remaining p q r t.
Definition lz_put_header (read translation : bool) (file_size : N) (s : LzxDecoder) : LzxDecoder :=
  let (a, b, c, d, e, f, g, h, i, j, k, l, m, n, o, _, _, _, t) := s in
  Build_LzxDecoder a b c d e f g h i j k l m n o read translation file_size t.
Definition lz_put_frames (frames : N) (s : LzxDecoder) : LzxDecoder :=
  let (a, b, c, d, e, f, g, h, i, j, k, l, m, n, o, p, q, r, _) := s in
  Build_LzxDecoder a b c d e f g h i j k l m n o p q r frames.

(** A method of the decoder that is given the bit reader. *)
Abbreviation LM A := (M (LzxDecoder * LzxBits) (Stop CabinetError) A).

Definition on_bits {A} (m : BM A) : LM A := zoom snd (λ b s, (s.1, b)) m.
Definition on_lzx (f : LzxDecoder → LzxDecoder) : LM unit := modify (λ s, (f s.1, s.2)).

(** *** Trees *)

(** The lengths a method is given a slice of, next to the bit reader. *)
Abbreviation TM A := (M (list N * LzxBits) (Stop CabinetError) A).

Definition from_bits {A} (m : BM A) : TM A := zoom snd (λ b s, (s.1, b)) m.

(** [fill]: a run of one value, and the index behind it. *)
Definition fill_run (at_ stop run value : N) : TM N :=
  end_ ← cab_try (ok_or (checked_add 64 at_ run) CE_DecompressionFailed);
  cab_reject (stop <? end_) CE_DecompressionFailed;;
  modify (λ s, (splice at_ (replicate (N.to_nat run) value) s.1, s.2));;
  mret end_.

(** [(previous - code + 17) % 17] for a code below 17. *)
Definition delta_length (previous code : N) : N := Z.to_N (Z.rem (Z.of_N previous - Z.of_N code + 17) 17).

Fixpoint read_many (count : nat) (m : BM N) : BM (list N) :=
  match count with
  | O => mret []
  | S count => v ← m; rest ← read_many count m; mret (v :: rest)
  end.

(** One turn of the loop of [read_lengths]: the next index. *)
Definition lengths_turn `{Build} (table : HuffmanTable) (stop at_ : N) : TM N :=
  code ← from_bits (lzx_decode table);
  if code <=? 16 then
    s ← get;
    previous ← index s.1 at_;
    modify (λ s, (<[N.to_nat at_ := delta_length previous code]> s.1, s.2));;
    mret (at_ + 1)
  else if code =? 17 then
    more ← from_bits (read_bits 4);
    fill_run at_ stop (4 + more) 0
  else if code =? 18 then
    more ← from_bits (read_bits 5);
    fill_run at_ stop (20 + more) 0
  else if code =? 19 then
    more ← from_bits (read_bits 1);
    code ← from_bits (lzx_decode table);
    cab_reject (16 <? code) CE_DecompressionFailed;;
    s ← get;
    previous ← index s.1 at_;
    fill_run at_ stop (4 + more) (delta_length previous code)
  else cab_fail CE_DecompressionFailed.

(** Every turn moves the index on. *)
Fixpoint lengths_loop `{Build} (turns : nat) (table : HuffmanTable) (at_ stop : N) : TM unit :=
  if stop <=? at_ then mret tt
  else
    match turns with
    | O => throw OutOfFuel
    | S turns => at_ ← lengths_turn table stop at_; lengths_loop turns table at_ stop
    end.

Definition read_lengths `{Build} (start stop : N) : TM unit :=
  pretree ← from_bits (read_many (N.to_nat PRETREE_ELEMENTS) (read_bits 4));
  table ← cab_try (huffman_new pretree);
  lengths_loop (N.to_nat (stop - start)) table start stop.

Definition on_main {A} (m : TM A) : LM A :=
  zoom (λ s, (lz_main_lengths s.1, s.2)) (λ t s, (lz_put_lengths t.1 (lz_length_lengths s.1) s.1, t.2)) m.
Definition on_length {A} (m : TM A) : LM A :=
  zoom (λ s, (lz_length_lengths s.1, s.2)) (λ t s, (lz_put_lengths (lz_main_lengths s.1) t.1 s.1, t.2)) m.

Definition read_main_and_length_trees `{Build} : LM unit :=
  s ← get;
  let main_elements := NUM_CHARS + 8 * lz_position_slots s.1 in
  on_main (read_lengths 0 NUM_CHARS);;
  on_main (read_lengths NUM_CHARS main_elements);;
  s ← get;
  table ← cab_try (huffman_new (lz_main_lengths s.1));
  on_lzx (λ self, lz_put_tables (Some table) (lz_length_table self) (lz_aligned_table self) self);;
  on_length (read_lengths 0 LENGTH_TREE_ELEMENTS);;
  s ← get;
  table ← cab_try (huffman_new (lz_length_lengths s.1));
  on_lzx (λ self, lz_put_tables (lz_main_table self) (Some table) (lz_aligned_table self) self).

(** *** Blocks *)

Definition block_type_of (code : N) : result CabinetError BlockType :=
  match code with
  | 1 => Ok BT_Verbatim
  | 2 => Ok BT_Aligned
  | 3 => Ok BT_Uncompressed
  | _ => Err CE_DecompressionFailed
  end.

(** One of the three offsets in front of an uncompressed block. *)
Definition stored_offset (data : list byte) (cursor : N) : result CabinetError N :=
  bytes ← ok_or (get_range cursor (cursor + 4) data) CE_DecompressionFailed;
  guard_err (of_le_bytes bytes =? 0) CE_DecompressionFailed;;
  mret (of_le_bytes bytes).

Definition read_block_header `{Build} : LM unit :=
  code ← on_bits (read_bits 3);
  block_type ← cab_try (block_type_of code);
  on_lzx (λ self, lz_put_block block_type (lz_block_remaining self) self);;
  remaining ← on_bits read_u24;
  on_lzx (λ self, lz_put_block (lz_block_type self) remaining self);;
  match block_type with
  | BT_Aligned =>
      aligned ← on_bits (read_many (N.to_nat ALIGNED_TREE_ELEMENTS) (read_bits 3));
      table ← cab_try (huffman_new aligned);
      on_lzx (λ self, lz_put_tables (lz_main_table self) (lz_length_table self) (Some table) self);;
      read_main_and_length_trees
  | BT_Verbatim => read_main_and_length_trees
  | BT_Uncompressed =>
      on_bits align_to_word;;
      position ← on_bits aligned_byte_position;
      s ← get;
      let data := lb_data s.2 in
      first ← cab_try (stored_offset data position);
      second ← cab_try (stored_offset data (position + 4));
      third ← cab_try (stored_offset data (position + 8));
      on_lzx (lz_put_repeated (first, second, third));;
      on_bits (modify (resume_at (position + 12)))
  end.

Definition push_byte (byte : byte) : LM unit :=
  s ← get;
  let self := s.1 in
  (if len (lz_window self) <=? lz_window_position self then throw Panic else mret tt);;
  on_lzx (lz_put_window (<[N.to_nat (lz_window_position self) := byte]> (lz_window self))
    (N.land (lz_window_position self + 1) (lz_window_mask self)) (lz_output_total self + 1)).

Fixpoint push_bytes (bytes : list byte) : LM unit :=
  match bytes with
  | [] => mret tt
  | byte :: bytes => push_byte byte;; push_bytes bytes
  end.

(** The copy of a match, a byte at a time. *)
Fixpoint push_match (length : nat) (offset : N) : LM unit :=
  match length with
  | O => mret tt
  | S length =>
      s ← get;
      let self := s.1 in
      byte ← index (lz_window self)
        (N.land (lz_window_position self + len (lz_window self) - offset) (lz_window_mask self));
      push_byte byte;;
      push_match length offset
  end.

(** *** Tokens *)

Definition match_length_of `{Build} (length_header : N) (length_table : option HuffmanTable) : BM N :=
  if length_header =? 7 then
    table ← cab_try (ok_or length_table CE_DecompressionFailed);
    v ← lzx_decode table;
    mret (v + 7 + 2)
  else mret (length_header + 2).

(** [formatted], from the slot's base and footer. *)
Definition formatted_offset `{Build} (block_type : BlockType) (base footer : N) (aligned_table : option HuffmanTable) : BM N :=
  if bool_decide (block_type = BT_Aligned) && (3 <? footer) then
    verbatim ← read_bits (footer - 3);
    table ← cab_try (ok_or aligned_table CE_DecompressionFailed);
    aligned ← lzx_decode table;
    cab_try (ok_or (with_verbatim ← checked_add 32 base (N.shiftl verbatim 3); checked_add 32 with_verbatim aligned)
      CE_DecompressionFailed)
  else
    verbatim ← read_bits footer;
    cab_try (ok_or (checked_add 32 base verbatim) CE_DecompressionFailed).

Definition match_offset_of `{Build} (position_slot : N) (aligned_table : option HuffmanTable) : LM N :=
  s ← get;
  let self := s.1 in
  let '(r0, r1, r2) := lz_repeated self in
  if position_slot =? 0 then mret r0
  else if position_slot =? 1 then on_lzx (lz_put_repeated (r1, r0, r2));; mret r1
  else if position_slot =? 2 then on_lzx (lz_put_repeated (r2, r1, r0));; mret r2
  else
    footer ← index (lz_footer_bits self) position_slot;
    base ← index (lz_base_position self) position_slot;
    formatted ← on_bits (formatted_offset (lz_block_type self) base footer aligned_table);
    offset ← cab_try (ok_or (checked_sub formatted 2) CE_DecompressionFailed);
    on_lzx (lz_put_repeated (offset, r0, r1));;
    mret offset.

Definition extra_length `{Build} : BM N :=
  a ← read_bits 1;
  if negb (a =? 0) then
    b ← read_bits 1;
    if negb (b =? 0) then
      c ← read_bits 1;
      if negb (c =? 0) then read_bits 15
      else v ← read_bits 12; mret (v + 1024 + 256)
    else v ← read_bits 10; mret (v + 256)
  else read_bits 8.

(** One turn of [decode_tokens_with]: how many bytes the token was. *)
Definition lzx_token `{Build} (remaining : N) (main_table : HuffmanTable)
    (length_table aligned_table : option HuffmanTable) : LM N :=
  element ← on_bits (lzx_decode main_table);
  if element <? NUM_CHARS then push_byte (byte_of_N element);; mret 1
  else
    let symbol := element - NUM_CHARS in
    let length_header := N.land symbol 7 in
    match_length ← on_bits (match_length_of length_header length_table);
    let position_slot := N.shiftr symbol 3 in
    s ← get;
    cab_reject (lz_position_slots s.1 <=? position_slot) CE_DecompressionFailed;;
    match_offset ← match_offset_of position_slot aligned_table;
    match_length ← (if match_length =? 257 then extra ← on_bits extra_length; mret (257 + extra) else mret match_length);
    cab_reject (remaining <? match_length) CE_DecompressionFailed;;
    s ← get;
    cab_reject ((match_offset =? 0) || (len (lz_window s.1) <? match_offset) || (lz_output_total s.1 <? match_offset))
      CE_DecompressionFailed;;
    push_match (N.to_nat match_length) match_offset;;
    mret match_length.

(** Every token is at least a byte. *)
Fixpoint token_loop `{Build} (turns : nat) (remaining : N) (main_table : HuffmanTable)
    (length_table aligned_table : option HuffmanTable) : LM unit :=
  if remaining =? 0 then mret tt
  else
    match turns with
    | O => throw OutOfFuel
    | S turns =>
        taken ← lzx_token remaining main_table length_table aligned_table;
        token_loop turns (remaining - taken) main_table length_table aligned_table
    end.

(** The tables are moved out and back; nothing sees that they are gone. *)
Definition decode_tokens `{Build} (todo : N) : LM unit :=
  s ← get;
  main ← cab_try (ok_or (lz_main_table s.1) CE_DecompressionFailed);
  token_loop (N.to_nat todo) todo main (lz_length_table s.1) (lz_aligned_table s.1).

Definition copy_stored (todo : N) : LM unit :=
  s ← get;
  cab_reject (negb (lb_bits s.2 =? 0)) CE_Internal;;
  let start := lb_byte_position s.2 in
  end_ ← cab_try (ok_or (checked_add 64 start todo) CE_OutOfBounds);
  bytes ← cab_try (ok_or (get_range start end_ (lb_data s.2)) CE_DecompressionFailed);
  push_bytes bytes;;
  on_bits (modify (resume_at end_)).

Definition finish_stored_block (bits : LzxBits) : LzxBits :=
  if N.even (lb_byte_position bits) then bits else resume_at (lb_byte_position bits + 1) bits.

(** *** Frames *)

(** One turn of the loop of [decode_block]: how many bytes it made. *)
Definition frame_turn `{Build} (left : N) : LM N :=
  s ← get;
  (if lz_block_remaining s.1 =? 0 then
     read_block_header;;
     s ← get;
     cab_reject (lz_block_remaining s.1 =? 0) CE_DecompressionFailed
   else mret tt);;
  s ← get;
  let todo := N.min left (lz_block_remaining s.1) in
  match lz_block_type s.1 with
  | BT_Verbatim | BT_Aligned => decode_tokens todo
  | BT_Uncompressed => copy_stored todo
  end;;
  on_lzx (λ self, lz_put_block (lz_block_type self) (lz_block_remaining self - todo) self);;
  s ← get;
  (if (lz_block_remaining s.1 =? 0) && bool_decide (lz_block_type s.1 = BT_Uncompressed)
   then on_bits (modify finish_stored_block) else mret tt);;
  mret todo.

Fixpoint frame_loop `{Build} (turns : nat) (left : N) : LM unit :=
  if left =? 0 then mret tt
  else
    match turns with
    | O => throw OutOfFuel
    | S turns => made ← frame_turn left; frame_loop turns (left - made)
    end.

Definition read_e8_header `{Build} : LM unit :=
  s ← get;
  if lz_header_read s.1 then mret tt
  else
    on_lzx (λ self, lz_put_header true (lz_e8_translation self) (lz_e8_file_size self) self);;
    bit ← on_bits (read_bits 1);
    if bit =? 1 then
      high ← on_bits (read_bits 16);
      low ← on_bits (read_bits 16);
      on_lzx (lz_put_header true true (N.lor (N.shiftl high 16) low))
    else mret tt.

(** A frame into the window; where it starts there. *)
Definition lzx_frame `{Build} (expected : N) : LM N :=
  read_e8_header;;
  s ← get;
  let frame_start := lz_window_position s.1 in
  frame_loop (N.to_nat expected) expected;;
  mret frame_start.

(** *** The translation of x86 calls *)

Definition signed_32 (v : N) : Z := if v <? 2 ^ 31 then Z.of_N v else (Z.of_N v - 2 ^ 32)%Z.

(** The bytes of an [i32], if it is one. *)
Definition signed_bytes (v : Z) : option (list byte) :=
  if ((- 2 ^ 31 <=? v) && (v <? 2 ^ 31))%Z then Some (le_bytes 4 (Z.to_N (v mod 2 ^ 32))) else None.

(** What the four bytes behind a call at [current] become. *)
Definition e8_displacement (current file_size : Z) (bytes : list byte) : list byte :=
  let value := signed_32 (of_le_bytes bytes) in
  if ((- current <=? value) && (value <? file_size))%Z then
    default bytes (signed_bytes (if (0 <=? value)%Z then value - current else value + file_size)%Z)
  else bytes.

(** The loop over a frame, up to its last ten bytes; [translate] is
    given the position of a call and the four bytes behind its opcode. *)
Fixpoint e8_loop (translate : Z → list byte → list byte) (turns : nat) (limit index : N) (chunk_offset : Z)
    (frame : list byte) : list byte :=
  match turns with
  | O => frame
  | S turns =>
      if limit <=? index then frame
      else if bool_decide (frame !! N.to_nat index = Some xe8) then
        let current := (chunk_offset + Z.of_N index)%Z in
        let bytes := translate current (subslice (index + 1) 4 frame) in
        e8_loop translate turns limit (index + 5) chunk_offset (splice (index + 1) bytes frame)
      else e8_loop translate turns limit (index + 1) chunk_offset frame
  end.

Definition e8_reverse (frame : list byte) (chunk_offset file_size : N) : list byte :=
  if len frame <=? 10 then frame
  else if 2 ^ 63 <=? chunk_offset then frame
  else e8_loop (λ current, e8_displacement current (Z.of_N file_size)) (length frame) (len frame - 10) 0
         (Z.of_N chunk_offset) frame.

(** *** [decode_block] *)

(** The decoder and the buffer it fills. *)
Definition lzx_decode_block `{Build} (input : list byte) (expected : N)
  : M (LzxDecoder * list byte) (Stop CabinetError) unit :=
  modify (λ s, (s.1, []));;
  cab_reject (FRAME_SIZE <? expected) CE_LimitExceeded;;
  if expected =? 0 then mret tt
  else
    frame_start ← (λ s, let '((self, _), r) := lzx_frame expected (s.1, bits_new input) in ((self, s.2), r));
    s ← get;
    let window := lz_window s.1 in
    let first := N.min expected (len window - frame_start) in
    let out := subslice frame_start first window ++
               (if first <? expected then subslice 0 (expected - first) window else []) in
    let translated := if lz_e8_translation s.1 && (lz_frames_done s.1 <? E8_FRAME_LIMIT)
                      then e8_reverse out (lz_output_total s.1 - expected) (lz_e8_file_size s.1) else out in
    modify (λ s, (lz_put_frames (lz_frames_done s.1 + 1) s.1, translated)).
