(* ===== verification/CabExtract.v ===== *)
(** * Microsoft cabinets: data blocks and extraction

    [crates/ohl-mscab/src/data.rs] and [extract.rs]: the header of a block and its
    checksum, with what the checksum detects; then a folder as one stream decoded
    block by block, and a file as a range of it. *)

From S2P Require Export CabFormat CabLzx.

Definition DATA_FIXED_LEN : N := 8.

Record DataHeader : Type := {
  da_checksum : N;
  da_compressed_bytes : N;
  da_uncompressed_bytes : N
}.

Definition data_header_parse (bytes : list byte) : result CabinetError DataHeader :=
  read_fields bytes (
    checksum ← cab_u32;
    compressed_bytes ← cab_u16;
    uncompressed_bytes ← cab_u16;
    lift (guard_err ((MAX_BLOCK_COMPRESSED <? compressed_bytes) || (MAX_BLOCK_UNCOMPRESSED <? uncompressed_bytes))
      CE_LimitExceeded);;
    mret {| da_checksum := checksum; da_compressed_bytes := compressed_bytes;
            da_uncompressed_bytes := uncompressed_bytes |}).

(** [checksum]: the whole words, least significant byte first, and the tail the
    other way round. *)
Fixpoint checksum (data : list byte) (seed : N) : N :=
  match data with
  | a :: b :: c :: d :: rest => checksum rest (N.lxor seed (of_le_bytes [a; b; c; d]))
  | [first; second; third] =>
      N.lxor seed (N.lor (N.lor (N.shiftl (Byte.to_N first) 16) (N.shiftl (Byte.to_N second) 8)) (Byte.to_N third))
  | [first; second] => N.lxor seed (N.lor (N.shiftl (Byte.to_N first) 8) (Byte.to_N second))
  | [first] => N.lxor seed (Byte.to_N first)
  | [] => seed
  end.

Definition verify_block_checksum (header : DataHeader) (reserve data : list byte) : result CabinetError bool :=
  if da_checksum header =? 0 then Ok false
  else
    let partial := checksum data 0 in
    let fields := le_bytes 2 (da_compressed_bytes header) ++ le_bytes 2 (da_uncompressed_bytes header) in
    if checksum fields partial =? da_checksum header then Ok true
    else if negb (len reserve =? 0) && (checksum reserve (checksum fields partial) =? da_checksum header) then Ok true
    else Err CE_ChecksumMismatch.

(** ** What the checksum detects *)

(** The words of a block fold into the seed: it is a sum. *)
Lemma checksum_seed data seed : checksum data seed = N.lxor seed (checksum data 0).
Proof.
  remember (length data) as n eqn:En. revert data seed En.
  induction n as [n IH] using lt_wf_ind; intros data seed ->.
  destruct data as [|a [|b [|c [|d rest]]]]; cbn [checksum]; rewrite ?N.lxor_0_r, ?N.lxor_0_l; try done.
  rewrite (IH (length rest) ltac:(cbn; lia) rest (N.lxor seed _) eq_refl), N.lxor_assoc. f_equal.
  by rewrite (IH (length rest) ltac:(cbn; lia) rest (of_le_bytes _) eq_refl).
Qed.

Lemma lxor_cancel a b c : N.lxor a b = N.lxor a c → b = c.
Proof.
  intros E. rewrite <-(N.lxor_0_l b), <-(N.lxor_0_l c), <-(N.lxor_nilpotent a), !N.lxor_assoc. by rewrite E.
Qed.

Lemma lxor_cancel_r a b c : N.lxor b a = N.lxor c a → b = c.
Proof. rewrite !(N.lxor_comm _ a). apply lxor_cancel. Qed.

Lemma byte_N_inj a b : Byte.to_N a = Byte.to_N b → a = b.
Proof. intros E. rewrite <-(byte_of_to_N a), <-(byte_of_to_N b). by rewrite E. Qed.

Lemma tail_two a b : N.lor (N.shiftl (Byte.to_N a) 8) (Byte.to_N b) = Byte.to_N b + 256 * Byte.to_N a.
Proof. rewrite N.lor_comm. apply (lor_shiftl _ _ 8), byte_to_N_lt. Qed.

Lemma tail_three a b c :
  N.lor (N.lor (N.shiftl (Byte.to_N a) 16) (N.shiftl (Byte.to_N b) 8)) (Byte.to_N c) =
  Byte.to_N c + 256 * Byte.to_N b + 65536 * Byte.to_N a.
Proof.
  rewrite <-N.lor_assoc, tail_two, N.lor_comm. pose proof (byte_to_N_lt b). pose proof (byte_to_N_lt c).
  apply (lor_shiftl _ _ 16). change (2 ^ 16) with 65536. lia.
Qed.

Lemma checksum_word a b c d rest seed :
  checksum (a :: b :: c :: d :: rest) seed = checksum rest (N.lxor seed (of_le_bytes [a; b; c; d])).
Proof. done. Qed.

(** Another byte is another sum. *)
Lemma checksum_byte before after x y seed :
  checksum (before ++ x :: after) seed = checksum (before ++ y :: after) seed → x = y.
Proof.
  remember (length before) as n eqn:En. revert before seed En.
  induction n as [n IH] using lt_wf_ind; intros before seed ->.
  destruct (decide (4 ≤ length before)%nat) as [Hlong|Hshort].
  { destruct before as [|a [|b [|c [|d rest]]]]; cbn in Hlong; try lia. cbn [checksum app].
    by apply (IH (length rest) ltac:(cbn; lia) rest). }
  pose proof (byte_to_N_lt x). pose proof (byte_to_N_lt y).
  assert (Hrest : ∀ u v rest, checksum rest (N.lxor seed u) = checksum rest (N.lxor seed v) → u = v).
  { intros u v rest. rewrite (checksum_seed rest (N.lxor seed u)), (checksum_seed rest (N.lxor seed v)).
    intros E%lxor_cancel_r. by apply lxor_cancel in E. }
  destruct before as [|a [|b [|c [|? ?]]]]; cbn in Hshort; try lia;
    destruct after as [|d [|e [|f ?]]]; cbn [app]; intros E;
    first [rewrite !checksum_word in E; apply Hrest in E|cbn [checksum] in E; apply lxor_cancel in E]; rewrite ?tail_two, ?tail_three in E; cbn [of_le_bytes] in E;
    apply byte_N_inj; lia.
Qed.

(** A verified block: with one byte of its data or of its sizes changed the
    checksum fails, where no reserved area offers a second reading. *)
Lemma verified_detects header before after x y :
  verify_block_checksum header [] (before ++ x :: after) = Ok true → x ≠ y →
  verify_block_checksum header [] (before ++ y :: after) = Err CE_ChecksumMismatch.
Proof.
  unfold verify_block_checksum. destruct (da_checksum header =? 0); [done|]. cbv zeta. cbn [len length N.of_nat N.eqb negb andb].
  set (fields := _ ++ _). intros Hx Hne.
  destruct (N.eqb_spec (checksum fields (checksum (before ++ x :: after) 0)) (da_checksum header)) as [Ex|]; [|done].
  destruct (N.eqb_spec (checksum fields (checksum (before ++ y :: after) 0)) (da_checksum header)) as [Ey|]; [|done].
  exfalso. apply Hne. rewrite <-Ey, (checksum_seed fields), (checksum_seed fields (checksum (before ++ y :: after) 0)) in Ex.
  apply lxor_cancel_r in Ex. by eapply checksum_byte.
Qed.

(** * Microsoft cabinets: extraction

    [crates/ohl-mscab/src/extract.rs]: a folder as one stream decoded block by
    block, and a file as a range of it. *)

Record FolderSegment : Type := {
  sg_volume : N;
  sg_first_data_offset : N;
  sg_data_block_count : N;
  sg_cabinet_bytes : N;
  sg_data_reserve_bytes : N
}.

Definition folder_segment_new (cabinet : Cabinet) (volume folder_index : N) : result CabinetError FolderSegment :=
  folder ← ok_or (ca_folders cabinet !! N.to_nat folder_index) CE_FolderIndexOutOfRange;
  mret {| sg_volume := volume;
          sg_first_data_offset := fo_first_data_offset folder;
          sg_data_block_count := fo_data_block_count folder;
          sg_cabinet_bytes := ch_cabinet_bytes (ca_header cabinet);
          sg_data_reserve_bytes := ch_data_reserve_bytes (ca_header cabinet) |}.

Record ExtractionStats : Type := {
  es_blocks_read : N;
  es_checksums_verified : N;
  es_checksums_absent : N;
  es_uncompressed_bytes : N
}.

Definition extraction_stats_default : ExtractionStats :=
  {| es_blocks_read := 0; es_checksums_verified := 0; es_checksums_absent := 0; es_uncompressed_bytes := 0 |}.

Inductive Decoder (Y : Type) : Type :=
| DC_Stored
| DC_MsZip (decoder : MsZipDecoder Y)
| DC_Lzx (decoder : LzxDecoder).
Arguments DC_Stored {Y}.
Arguments DC_MsZip {Y} _.
Arguments DC_Lzx {Y} _.

(** [self.source] is the world the methods run in. *)
Record FolderStream (Y : Type) : Type := {
  fs_limits : CabLimits;
  fs_segments : list FolderSegment;
  fs_segment : N;
  fs_blocks_left : N;
  fs_offset : N;
  fs_decoder : Decoder Y;
  fs_block : list byte;
  fs_block_position : N;
  fs_position : N;
  fs_stats : ExtractionStats;
  fs_finished : bool
}.
Arguments fs_limits {Y} _.
Arguments fs_segments {Y} _.
Arguments fs_segment {Y} _.
Arguments fs_blocks_left {Y} _.
Arguments fs_offset {Y} _.
Arguments fs_decoder {Y} _.
Arguments fs_block {Y} _.
Arguments fs_block_position {Y} _.
Arguments fs_position {Y} _.
Arguments fs_stats {Y} _.
Arguments fs_finished {Y} _.

Section extract.
Context {Y : Type} `{RawInflater Y}.
Abbreviation FS := (FolderStream Y).

Definition decoder_new (compression : Compression) (limits : CabLimits) : result CabinetError (Decoder Y) :=
  match compression with
  | CM_None => Ok DC_Stored
  | CM_MsZip => Ok (DC_MsZip mszip_new)
  | CM_Lzx window_bits => DC_Lzx <$> lzx_new window_bits limits
  | CM_Quantum _ | CM_Unknown _ => Err CE_Unsupported
  end.

Definition total_blocks (segments : list FolderSegment) : N :=
  foldl (λ total segment, total + sg_data_block_count segment) 0 segments.

Definition folder_stream_new (compression : Compression) (limits : CabLimits) (segments : list FolderSegment)
  : result CabinetError FS :=
  first ← ok_or (head segments) CE_InvalidField;
  decoder ← decoder_new compression limits;
  guard_err (cl_max_blocks_per_folder limits <? total_blocks segments) CE_LimitExceeded;;
  mret {| fs_limits := limits;
          fs_segments := segments;
          fs_segment := 0;
          fs_blocks_left := sg_data_block_count first;
          fs_offset := sg_first_data_offset first;
          fs_decoder := decoder;
          fs_block := [];
          fs_block_position := 0;
          fs_position := 0;
          fs_stats := extraction_stats_default;
          fs_finished := false |}.

Definition from_cabinet (cabinet : Cabinet) (volume folder_index : N) (limits : CabLimits) : result CabinetError FS :=
  folder ← ok_or (ca_folders cabinet !! N.to_nat folder_index) CE_FolderIndexOutOfRange;
  segment ← folder_segment_new cabinet volume folder_index;
  folder_stream_new (fo_compression folder) limits [segment].

Definition fs_put_segment (segment blocks_left offset : N) (s : FS) : FS :=
  let (a, b, _, _, _, f, g, h, i, j, k) := s in Build_FolderStream Y a b segment blocks_left offset f g h i j k.
Definition fs_put_decoded (decoder : Decoder Y) (block : list byte) (s : FS) : FS :=
  let (a, b, c, d, e, _, _, h, i, j, k) := s in Build_FolderStream Y a b c d e decoder block h i j k.
Definition fs_put_block_position (x : N) (s : FS) : FS :=
  let (a, b, c, d, e, f, g, _, i, j, k) := s in Build_FolderStream Y a b c d e f g x i j k.
Definition fs_put_position (x : N) (s : FS) : FS :=
  let (a, b, c, d, e, f, g, h, _, j, k) := s in Build_FolderStream Y a b c d e f g h x j k.
Definition fs_put_stats (x : ExtractionStats) (s : FS) : FS :=
  let (a, b, c, d, e, f, g, h, i, _, k) := s in Build_FolderStream Y a b c d e f g h i x k.
Definition fs_put_finished (x : bool) (s : FS) : FS :=
  let (a, b, c, d, e, f, g, h, i, j, _) := s in Build_FolderStream Y a b c d e f g h i j x.

(** The match over the decoder; the block buffer belongs to the state. *)
Definition decode_data (compressed : list byte) (expected : N)
  : M (Decoder Y * list byte) (Stop CabinetError) unit := λ '(decoder, block),
  match decoder with
  | DC_Stored =>
      if negb (len compressed =? expected) then ((decoder, block), Err (Fail CE_InvalidField))
      else ((decoder, compressed), Ok tt)
  | DC_MsZip d =>
      let '((d, block), r) := mszip_decode_block compressed expected (d, block) in ((DC_MsZip d, block), r)
  | DC_Lzx d =>
      let '((d, block), r) := lzx_decode_block compressed expected (d, block) in ((DC_Lzx d, block), r)
  end.

Context {W : Type} `{VolumeSource W} `{CabCancellation W}.
Abbreviation EM A := (M (FS * W) (Stop CabinetError) A).

Definition on_source {A} (m : M W CabinetError A) : EM A := zoom snd (λ w s, (s.1, w)) (map_errM Fail m).
Definition on_stream (f : FS → FS) : EM unit := modify (λ s, (f s.1, s.2)).

Definition read_within (segment : FolderSegment) (offset size : N) : EM (list byte) :=
  on_source (table_read_within (sg_volume segment) offset size (sg_cabinet_bytes segment)).

Definition poll_cancelled : EM unit :=
  cancelled ← zoom snd (λ w s, (s.1, w)) (λ w, let '(w, c) := cab_is_cancelled w in (w, Ok c));
  cab_reject cancelled CE_Cancelled.

(** One [CFDATA] block: its data, checked, and how far it reaches. The two scratch
    buffers are refilled for every block, so they are not part of the state. *)
Definition read_block : EM (DataHeader * list byte * N) :=
  s ← get;
  segment ← cab_try (ok_or (fs_segments s.1 !! N.to_nat (fs_segment s.1)) CE_Internal);
  let reserve_len := sg_data_reserve_bytes segment in
  let header_len := DATA_FIXED_LEN + reserve_len in
  let offset := fs_offset s.1 in
  raw ← read_within segment offset DATA_FIXED_LEN;
  header ← cab_try (data_header_parse raw);
  reserve ← (if 0 <? reserve_len then read_within segment (offset + DATA_FIXED_LEN) reserve_len else mret []);
  compressed ← read_within segment (offset + header_len) (da_compressed_bytes header);
  verified ← cab_try (verify_block_checksum header reserve compressed);
  on_stream (λ self, fs_put_stats (let stats := fs_stats self in
    {| es_blocks_read := es_blocks_read stats;
       es_checksums_verified := es_checksums_verified stats + (if verified : bool then 1 else 0);
       es_checksums_absent := es_checksums_absent stats + (if verified : bool then 0 else 1);
       es_uncompressed_bytes := es_uncompressed_bytes stats |}) self);;
  mret (header, compressed, header_len + da_compressed_bytes header).

(** ... decoded into the block buffer. [inr true] is a block with bytes in it. *)
Definition decode_next : EM (unit + bool) :=
  '(header, compressed, extent) ← read_block;
  let expected := da_uncompressed_bytes header in
  s ← get;
  cab_reject (cl_max_folder_uncompressed_bytes (fs_limits s.1) <? es_uncompressed_bytes (fs_stats s.1) + expected)
    CE_LimitExceeded;;
  zoom (λ s, (fs_decoder s.1, fs_block s.1)) (λ d s, (fs_put_decoded d.1 d.2 s.1, s.2)) (decode_data compressed expected);;
  on_stream (λ self, fs_put_stats (let stats := fs_stats self in
    {| es_blocks_read := es_blocks_read stats + 1;
       es_checksums_verified := es_checksums_verified stats;
       es_checksums_absent := es_checksums_absent stats;
       es_uncompressed_bytes := es_uncompressed_bytes stats + expected |}) (fs_put_block_position 0 self));;
  on_stream (λ self, fs_put_segment (fs_segment self) (fs_blocks_left self - 1) (fs_offset self) self);;
  s ← get;
  offset ← cab_try (ok_or (checked_add 64 (fs_offset s.1) extent) CE_OutOfBounds);
  on_stream (λ self, fs_put_segment (fs_segment self) (fs_blocks_left self) offset self);;
  mret (if expected =? 0 then inl tt else inr true).

(** One turn of the loop of [fill_next_block]. *)
Definition fill_turn (_ : unit) : EM (unit + bool) :=
  s ← get;
  let self := s.1 in
  if fs_finished self then mret (inr false)
  else if fs_blocks_left self =? 0 then
    let next := fs_segment self + 1 in
    match fs_segments self !! N.to_nat next with
    | None => on_stream (λ self, fs_put_finished true (fs_put_segment next (fs_blocks_left self) (fs_offset self) self));;
              mret (inr false)
    | Some segment =>
        on_stream (fs_put_segment next (sg_data_block_count segment) (sg_first_data_offset segment));;
        mret (inl tt)
    end
  else
    poll_cancelled;;
    decode_next.

Definition fill_next_block : EM bool := loop_W fill_turn tt.

(** One turn of the loop of [read]: what was copied so far. A buffer position
    behind the block cannot be sliced. *)
Definition read_turn (out_len : N) (copied : list byte) : EM (list byte + list byte) :=
  if out_len <=? len copied then mret (inr copied)
  else
    s ← get;
    let self := s.1 in
    if fs_block_position self =? len (fs_block self) then
      more ← fill_next_block;
      mret (if more : bool then inl copied else inr copied)
    else
      let available := wrapping_sub 64 (len (fs_block self)) (fs_block_position self) in
      let take_ := N.min available (out_len - len copied) in
      bytes ← lift (ok_or (get_range (fs_block_position self) (wrapping_add 64 (fs_block_position self) take_)
        (fs_block self)) Panic);
      on_stream (λ self, fs_put_block_position (wrapping_add 64 (fs_block_position self) take_) self);;
      mret (inl (copied ++ bytes)).

(** [FolderStream::read] into a buffer of [out_len] bytes: what is at its front. *)
Definition folder_read (out_len : N) : EM (list byte) :=
  copied ← loop_W (read_turn out_len) [];
  on_stream (λ self, fs_put_position (wrapping_add 64 (fs_position self) (len copied)) self);;
  mret copied.

Definition skip_turn (count skipped : N) : EM (N + N) :=
  if count <=? skipped then mret (inr skipped)
  else
    s ← get;
    let self := s.1 in
    if fs_block_position self =? len (fs_block self) then
      more ← fill_next_block;
      mret (if more : bool then inl skipped else inr skipped)
    else
      let available := wrapping_sub 64 (len (fs_block self)) (fs_block_position self) in
      let take_ := N.min available (count - skipped) in
      on_stream (λ self, fs_put_block_position (wrapping_add 64 (fs_block_position self) take_) self);;
      mret (inl (skipped + take_)).

Definition folder_skip (count : N) : EM N :=
  skipped ← loop_W (skip_turn count) 0;
  on_stream (λ self, fs_put_position (wrapping_add 64 (fs_position self) skipped) self);;
  mret skipped.

(** ** [FileStream] *)

(** [seek_to]: the stream is moved in; what is left of the file. *)
Definition seek_to (file : FileEntry) : EM N :=
  let start := fe_folder_offset file in
  s ← get;
  cab_reject (start <? fs_position s.1) CE_Internal;;
  skipped ← folder_skip (start - fs_position s.1);
  s ← get;
  cab_reject (negb (fs_position s.1 =? start) || negb (skipped =? start)) CE_OutOfBounds;;
  mret (fe_uncompressed_bytes file).

(** [FileStream::read], [remaining] being the stream's other field: what it leaves
    of it and what was read. *)
Definition file_stream_read (out_len remaining : N) : EM (N * list byte) :=
  if remaining =? 0 then mret (0, [])
  else
    let want := N.min remaining out_len in
    read ← folder_read want;
    cab_reject (len read =? 0) CE_Truncated;;
    mret (remaining - len read, read).

(** A turn of the loop of [extract_file]. *)
Definition extract_turn {T} (sink : list byte → M T CabinetError unit) (s : N * N)
  : M ((FS * W) * T) (Stop CabinetError) (N * N + N) :=
  let '(remaining, total) := s in
  '(remaining, read) ← zoom fst (λ f s, (f, s.2)) (file_stream_read MAX_BLOCK_UNCOMPRESSED remaining);
  if len read =? 0 then mret (inr total)
  else
    zoom snd (λ t s, (s.1, t)) (map_errM Fail (sink read));;
    mret (inl (remaining, wrapping_add 64 total (len read))).

(** [extract_file]; the stream lives on the stack, the sink with its own state. *)
Definition extract_file {T} (compression : Compression) (limits : CabLimits) (segments : list FolderSegment)
    (file : FileEntry) (sink : list byte → M T CabinetError unit) : M (W * T) (Stop CabinetError) N := λ '(w, t),
  match folder_stream_new compression limits segments with
  | Err e => ((w, t), Err (Fail e))
  | Ok folder =>
      let run : M ((FS * W) * T) (Stop CabinetError) N :=
        remaining ← zoom fst (λ f s, (f, s.2)) (seek_to file);
        loop_W (extract_turn sink) (remaining, 0) in
      let '(((_, w), t), r) := run ((folder, w), t) in ((w, t), r)
  end.
End extract.
