(* ===== verification/CabWindow.v ===== *)
(** * Microsoft cabinets: the window of the LZX decoder

    The decoder of [CabLzx.v] never indexes out of range, every one of its loops
    ends, and its ring of a window is a faithful history: whatever a block's bits
    are, it adds the expansion of some tokens to everything decoded before, with
    the calls of x86 code put back. Which tokens, [CabBlocks.v] says. *)

From S2P Require Export CabLzx.

Definition is_fail (e : Stop CabinetError) : Prop := ∃ error, e = Fail error.

Lemma fails_with error : is_fail (Fail error).
Proof. by exists error. Qed.

#[export] Hint Resolve fails_with : ohl.

(** ** Bits

    Nothing is claimed of the value here; in a release build a reader fails, it
    does not panic. [CabBits.v] says what it reads. *)
Definition quiet {A} (m : BM A) : Prop := ∀ b, wp m (λ _ _, True) (λ e _, is_fail e) b.

Lemma quiet_bind {A B} (m : BM A) (k : A → BM B) : quiet m → (∀ a, quiet (k a)) → quiet (m ≫= k).
Proof. intros Hm Hk b. apply wp_bind. eapply wp_mono; [apply Hm|..|done]. intros a b' _. apply Hk. Qed.
Lemma quiet_ret {A} (a : A) : quiet (mret a).
Proof. by intros b. Qed.
Lemma quiet_get : quiet get.
Proof. by intros b. Qed.
Lemma quiet_modify f : quiet (modify f).
Proof. by intros b. Qed.
Lemma quiet_try {A} (r : result CabinetError A) : quiet (cab_try r).
Proof. intros b. apply wp_cab_try. destruct r; [done|apply fails_with]. Qed.
Lemma quiet_reject c e : quiet (cab_reject c e).
Proof. intros b. apply wp_cab_reject. destruct c; [apply fails_with|done]. Qed.
Lemma quiet_fail {A} e : quiet (cab_fail e : BM A).
Proof. intros b. apply fails_with. Qed.

Create HintDb quiet.
#[export] Hint Resolve quiet_ret quiet_get quiet_modify quiet_try quiet_reject quiet_fail : quiet.

Ltac quiet :=
  repeat match goal with
  | |- quiet (_ ≫= _) => apply quiet_bind; [|intros ?]
  | |- quiet (match ?x with _ => _ end) => destruct x
  | |- quiet (let '(_, _) := ?x in _) => destruct x
  | |- quiet (if ?c then _ else _) => destruct c
  | |- quiet _ => solve [eauto with quiet]
  end.

Lemma quiet_next_byte : quiet next_byte.
Proof. unfold next_byte. quiet. Qed.
#[export] Hint Resolve quiet_next_byte : quiet.

Lemma quiet_fill turns count : quiet (fill_bits turns count).
Proof. induction turns as [|turns IH]; cbn [fill_bits]; [quiet|]. unfold fill_word. quiet. Qed.
#[export] Hint Resolve quiet_fill : quiet.

Lemma quiet_debug_assert c : quiet (debug_assert c).
Proof. by intros b. Qed.
#[export] Hint Resolve quiet_debug_assert : quiet.

Lemma quiet_read_bits count : quiet (read_bits count).
Proof. unfold read_bits, fill. quiet. Qed.
#[export] Hint Resolve quiet_read_bits : quiet.

Lemma quiet_read_u24 : quiet read_u24.
Proof. unfold read_u24. quiet. Qed.

Lemma quiet_align : quiet align_to_word.
Proof. unfold align_to_word. quiet. Qed.

Lemma quiet_aligned_position : quiet aligned_byte_position.
Proof. unfold aligned_byte_position. quiet. Qed.

Lemma quiet_decode_from counts symbols code first index : quiet (lzx_decode_from counts symbols code first index).
Proof.
  revert code first index. induction counts as [|count counts IH]; intros code first index; cbn [lzx_decode_from]; quiet.
Qed.

Lemma quiet_decode table : quiet (lzx_decode table).
Proof. apply quiet_decode_from. Qed.

Lemma quiet_read_many count m : quiet m → quiet (read_many count m).
Proof. intros Hm. induction count as [|count IH]; cbn [read_many]; quiet; eauto. Qed.
#[export] Hint Resolve quiet_read_u24 quiet_align quiet_aligned_position quiet_decode quiet_read_many : quiet.

Lemma quiet_match_length header table : quiet (match_length_of header table).
Proof. unfold match_length_of. quiet. Qed.
Lemma quiet_formatted type base footer table : quiet (formatted_offset type base footer table).
Proof. unfold formatted_offset. quiet. Qed.
Lemma quiet_extra : quiet extra_length.
Proof. unfold extra_length. quiet. Qed.
#[export] Hint Resolve quiet_match_length quiet_formatted quiet_extra : quiet.

Lemma wp_on_bits {A} (m : BM A) (Q : A → LzxDecoder * LzxBits → Prop) R d b :
  quiet m → (∀ a b', Q a (d, b')) → (∀ e b', is_fail e → R e (d, b')) → wp (on_bits m) Q R (d, b).
Proof. intros Hm HQ HR. apply wp_zoom. eapply wp_mono; [apply Hm|..]; cbn [fst snd]; auto. Qed.

Lemma wp_from_bits {A} (m : BM A) (Q : A → list N * LzxBits → Prop) R l b :
  quiet m → (∀ a b', Q a (l, b')) → (∀ e b', is_fail e → R e (l, b')) → wp (from_bits m) Q R (l, b).
Proof. intros Hm HQ HR. apply wp_zoom. eapply wp_mono; [apply Hm|..]; cbn [fst snd]; auto. Qed.

Lemma wp_index {S A} (l : list A) i (Q : A → S → Prop) R (s : S) :
  i < len l → (∀ a, Q a s) → wp (index l i) Q R s.
Proof.
  intros Hi HQ. apply wp_lift; [auto|]. intros e He. exfalso.
  destruct (lookup_lt_is_Some_2 l (N.to_nat i)) as [a Ha]; [unfold len in Hi; lia|]. by rewrite Ha in He.
Qed.

(** ** Path lengths *)

(** A list of lengths keeps its length. *)
Definition keeps_len (n : N) {A} (m : TM A) (Q : A → Prop) : Prop :=
  ∀ s, len s.1 = n → wp m (λ a s', Q a ∧ len s'.1 = n) (λ e s', is_fail e ∧ len s'.1 = n) s.

Lemma fill_run_keeps n at_ stop run value :
  stop ≤ n → at_ < stop → 0 < run → keeps_len n (fill_run at_ stop run value) (λ next, at_ < next).
Proof.
  intros Hn Ha Hr [l b] Hl. cbn [fst] in Hl. unfold fill_run. apply wp_bind, wp_cab_try.
  destruct (checked_add 64 at_ run) as [next|] eqn:E; cbn [ok_or]; [|by split; auto with ohl].
  apply checked_add_Some in E as [_ ->]. apply wp_bind, wp_cab_reject.
  destruct (N.ltb_spec stop (at_ + run)); [by split; auto with ohl|]. apply wp_bind, wp_modify, wp_ret. cbn [fst].
  split; [lia|]. unfold len. rewrite length_splice; [done|].
  unfold len at 1. rewrite length_replicate, N2Nat.id. lia.
Qed.

Lemma lengths_turn_keeps n table stop at_ :
  stop ≤ n → at_ < stop → keeps_len n (lengths_turn table stop at_) (λ next, at_ < next).
Proof.
  intros Hn Ha [l b] Hl. cbn [fst] in Hl. unfold lengths_turn.
  assert (Hfail : ∀ e b', is_fail e → is_fail e ∧ len (l, b' : LzxBits).1 = n) by (by split).
  apply wp_bind, wp_from_bits; [apply quiet_decode| |done]. intros code b1.
  destruct (code <=? 16).
  { apply wp_bind, wp_get. cbn [fst]. apply wp_bind, wp_index; [lia|]. intros previous. apply wp_bind, wp_modify, wp_ret.
    cbn [fst]. split; [lia|]. unfold len in *. by rewrite length_insert. }
  destruct (code =? 17).
  { apply wp_bind, wp_from_bits; [apply quiet_read_bits| |done]. intros more b2. apply fill_run_keeps; [done|done|lia|done]. }
  destruct (code =? 18).
  { apply wp_bind, wp_from_bits; [apply quiet_read_bits| |done]. intros more b2. apply fill_run_keeps; [done|done|lia|done]. }
  destruct (code =? 19); [|by split; [apply fails_with|]].
  apply wp_bind, wp_from_bits; [apply quiet_read_bits| |done]. intros more b2.
  apply wp_bind, wp_from_bits; [apply quiet_decode| |done]. intros code' b3.
  apply wp_bind, wp_cab_reject. destruct (16 <? code'); [by split; [apply fails_with|]|].
  apply wp_bind, wp_get. cbn [fst]. apply wp_bind, wp_index; [lia|]. intros previous.
  apply fill_run_keeps; [done|done|lia|done].
Qed.

Lemma lengths_loop_keeps n turns table at_ stop :
  stop ≤ n → stop ≤ at_ + N.of_nat turns → keeps_len n (lengths_loop turns table at_ stop) (λ _, True).
Proof.
  intros Hn. revert at_. induction turns as [|turns IH]; intros at_ Ht s Hs; cbn [lengths_loop].
  { by rewrite (proj2 (N.leb_le stop at_)) by lia. }
  destruct (N.leb_spec stop at_) as [|Ha]; [done|]. apply wp_bind.
  eapply wp_mono; [apply (lengths_turn_keeps n table stop at_ Hn Ha s Hs)|..|done]. intros next s' [Hnext Hs']. cbv beta in Hnext. apply IH; [lia|done].
Qed.

Lemma read_lengths_keeps n start stop : stop ≤ n → keeps_len n (read_lengths start stop) (λ _, True).
Proof.
  intros Hn [l b] Hl. unfold read_lengths. apply wp_bind, wp_from_bits.
  { apply quiet_read_many, quiet_read_bits. }
  2:{ intros e b'. by split. }
  intros pretree b1. apply wp_bind, wp_cab_try. destruct (huffman_new pretree); [|by split; [apply fails_with|]].
  apply lengths_loop_keeps; [done|lia|done].
Qed.

(** ** The window

    The ring holds the end of everything decoded so far. *)
Record lzx_holds (bits : N) (d : LzxDecoder) (hist : list byte) : Prop := {
  lh_bits : MIN_WINDOW_BITS ≤ bits ≤ MAX_WINDOW_BITS;
  lh_window : len (lz_window d) = 2 ^ bits;
  lh_mask : lz_window_mask d = 2 ^ bits - 1;
  lh_position : lz_window_position d = len hist mod 2 ^ bits;
  lh_total : lz_output_total d = len hist;
  lh_lookup j : j < len hist → len hist ≤ j + 2 ^ bits →
    lz_window d !! N.to_nat (j mod 2 ^ bits) = hist !! N.to_nat j;
  lh_slots : lz_position_slots d = 2 * bits;
  lh_base : len (lz_base_position d) = 2 * bits;
  lh_footer : len (lz_footer_bits d) = 2 * bits;
  lh_main : len (lz_main_lengths d) = NUM_CHARS + 8 * (2 * bits);
  lh_lengths : len (lz_length_lengths d) = LENGTH_TREE_ELEMENTS
}.

(** What tokens leave alone. *)
Definition lzx_frozen (d d' : LzxDecoder) : Prop :=
  lz_block_type d' = lz_block_type d ∧ lz_block_remaining d' = lz_block_remaining d ∧
  lz_header_read d' = lz_header_read d ∧ lz_e8_translation d' = lz_e8_translation d ∧
  lz_e8_file_size d' = lz_e8_file_size d ∧ lz_frames_done d' = lz_frames_done d.

#[export] Instance lzx_frozen_preorder : PreOrder lzx_frozen.
Proof. split; [by intros d|]. intros d1 d2 d3 (?&?&?&?&?&?) (?&?&?&?&?&?). repeat split; congruence. Qed.

Section window.
Context (bits : N).
Abbreviation holds := (lzx_holds bits).

Lemma window_positive : 0 < 2 ^ bits.
Proof. apply N.neq_0_lt_0. by apply N.pow_nonzero. Qed.

Lemma mask_mod d hist n : holds d hist → N.land n (lz_window_mask d) = n mod 2 ^ bits.
Proof. intros Hd. rewrite (lh_mask _ _ _ Hd), N.sub_1_r, <-N.ones_equiv. apply N.land_ones. Qed.

Lemma push_byte_run d b hist byte :
  holds d hist → ∃ d', push_byte byte (d, b) = ((d', b), Ok tt) ∧ holds d' (hist ++ [byte]) ∧ lzx_frozen d d'.
Proof.
  intros Hd. pose proof window_positive as Hpos. pose proof Hd as [? Hw Hm Hp Ht Hl ? ? ? ? ?].
  assert (len (hist ++ [byte]) = len hist + 1) as Hlen by by rewrite len_app.
  assert (lz_window_position d < len (lz_window d)) as Hin by (rewrite Hp, Hw; apply N.mod_lt; lia).
  unfold push_byte. rewrite (M_bind_step get _ (d, b) (d, b) (d, b)) by done. cbv zeta. cbn [fst].
  rewrite (proj2 (N.leb_gt _ _)) by done. rewrite (M_bind_step (mret tt) _ (d, b) (d, b) tt) by done.
  rewrite (mask_mod d hist) by done. eexists. split; [reflexivity|]. cbn [fst snd]. split; [|by destruct d].
  assert (Hin' : (N.to_nat (lz_window_position d) < length (lz_window d))%nat) by (unfold len in Hin; lia).
  destruct d as [w mask p t sl ba fo ml ll mt lt at_ re bt br hr e8 es fd]; cbn in *. split; cbn; try done.
  - unfold len in *. by rewrite length_insert.
  - by rewrite Hlen, Hp, N.Div0.add_mod_idemp_l.
  - by rewrite Hlen, Ht.
  - intros j Hj Hj'. rewrite Hlen in *. destruct (N.eq_dec j (len hist)) as [->|Hne].
    + rewrite <-Hp, list_lookup_insert_eq by done. unfold len. by rewrite Nat2N.id, list_lookup_middle.
    + rewrite list_lookup_insert_ne.
      * rewrite Hl by lia. rewrite lookup_app_l; [done|]. unfold len in *. lia.
      * rewrite Hp. intros E%N2Nat.inj. symmetry in E. revert E. apply mod_distinct; lia.
Qed.

Lemma push_bytes_run bytes d b hist :
  holds d hist → ∃ d', push_bytes bytes (d, b) = ((d', b), Ok tt) ∧ holds d' (hist ++ bytes) ∧ lzx_frozen d d'.
Proof.
  revert d hist. induction bytes as [|byte bytes IH]; intros d hist Hd; cbn [push_bytes].
  { exists d. rewrite app_nil_r. split; [done|]. split; [done|reflexivity]. }
  destruct (push_byte_run d b hist byte Hd) as (d1 & E1 & Hd1 & Hf1). rewrite (M_bind_step _ _ _ _ _ E1).
  destruct (IH d1 (hist ++ [byte]) Hd1) as (d2 & E2 & Hd2 & Hf2). exists d2.
  rewrite <-app_assoc in Hd2. split; [done|]. split; [done|]. by etrans.
Qed.

(** A match copies from the history. *)
Lemma push_match_run n offset d b hist :
  holds d hist → 1 ≤ offset → offset ≤ 2 ^ bits → offset ≤ len hist →
  ∃ d' new, push_match n offset (d, b) = ((d', b), Ok tt) ∧ copied n offset hist = Some (hist ++ new) ∧
    length new = n ∧ holds d' (hist ++ new) ∧ lzx_frozen d d'.
Proof.
  revert d hist. induction n as [|n IH]; intros d hist Hd Ho Hw Hh; cbn [push_match copied].
  { exists d, []. rewrite app_nil_r. split; [done|]. split; [done|]. split; [done|]. split; [done|reflexivity]. }
  pose proof window_positive as Hpos.
  rewrite (proj2 (N.leb_le _ _) Ho), (proj2 (N.leb_le _ _) Hh). cbn [andb].
  destruct (hist !! N.to_nat (len hist - offset)) as [byte|] eqn:Eb.
  2:{ apply lookup_ge_None in Eb. unfold len in *. lia. }
  cbn [mbind option_bind]. rewrite (M_bind_step get _ (d, b) (d, b) (d, b)) by done. cbv zeta. cbn [fst].
  rewrite (mask_mod d hist), (lh_window _ _ _ Hd), (lh_position _ _ _ Hd) by done.
  assert ((len hist mod 2 ^ bits + 2 ^ bits - offset) mod 2 ^ bits = (len hist - offset) mod 2 ^ bits) as ->.
  { rewrite <-N.add_sub_assoc by lia. rewrite N.Div0.add_mod_idemp_l.
    replace (len hist + (2 ^ bits - offset)) with ((len hist - offset) + 1 * 2 ^ bits) by lia. apply N.Div0.mod_add. }
  unfold index at 1. rewrite (lh_lookup _ _ _ Hd), Eb by lia. cbn [ok_or].
  rewrite (M_bind_step (lift (Ok byte)) _ (d, b) (d, b) byte) by done.
  destruct (push_byte_run d b hist byte Hd) as (d1 & E1 & Hd1 & Hf1). rewrite (M_bind_step _ _ _ _ _ E1).
  destruct (IH d1 (hist ++ [byte]) Hd1 Ho Hw) as (d2 & new & E2 & Hc & Hn & Hd2 & Hf2).
  { rewrite len_app. lia. }
  exists d2, (byte :: new). rewrite <-app_assoc in *. split; [done|]. split; [done|]. split; [by cbn; rewrite Hn|].
  split; [done|]. by etrans.
Qed.

(** Fields the window does not depend on. *)
Lemma holds_tables d hist m l a : holds d hist → holds (lz_put_tables m l a d) hist.
Proof. intros []. by destruct d. Qed.
Lemma holds_repeated d hist r : holds d hist → holds (lz_put_repeated r d) hist.
Proof. intros []. by destruct d. Qed.
Lemma holds_block d hist t r : holds d hist → holds (lz_put_block t r d) hist.
Proof. intros []. by destruct d. Qed.
Lemma holds_header d hist r t s : holds d hist → holds (lz_put_header r t s d) hist.
Proof. intros []. by destruct d. Qed.
Lemma holds_frames d hist n : holds d hist → holds (lz_put_frames n d) hist.
Proof. intros []. by destruct d. Qed.
Lemma holds_lengths d hist m l :
  holds d hist → len m = NUM_CHARS + 8 * (2 * bits) → len l = LENGTH_TREE_ELEMENTS → holds (lz_put_lengths m l d) hist.
Proof. intros []. by destruct d. Qed.
End window.

#[export] Hint Resolve holds_tables holds_repeated holds_block holds_header holds_frames : ohl.

(** ** Tokens *)

Inductive LzxToken : Type := LT_Literal (byte : byte) | LT_Match (length offset : N).

Definition expand_lzx_token (hist : list byte) (token : LzxToken) : option (list byte) :=
  match token with
  | LT_Literal byte => Some (hist ++ [byte])
  | LT_Match length offset => copied (N.to_nat length) offset hist
  end.

Fixpoint expand_lzx (hist : list byte) (tokens : list LzxToken) : option (list byte) :=
  match tokens with
  | [] => Some hist
  | token :: tokens => hist ← expand_lzx_token hist token; expand_lzx hist tokens
  end.

(** A token the format has: matches are of two bytes and more, and reach no
    further back than the window. *)
Definition lzx_token_ok (bits : N) (token : LzxToken) : Prop :=
  match token with
  | LT_Literal _ => True
  | LT_Match length offset => 2 ≤ length ∧ 1 ≤ offset ≤ 2 ^ bits
  end.

Lemma expand_lzx_app hist tokens tokens' :
  expand_lzx hist (tokens ++ tokens') = (hist ← expand_lzx hist tokens; expand_lzx hist tokens').
Proof.
  revert hist. induction tokens as [|token tokens IH]; intros hist; cbn [expand_lzx app]; [done|].
  destruct (expand_lzx_token hist token); [apply IH|done].
Qed.

Section tokens.
Context (bits : N).
Abbreviation holds := (lzx_holds bits).
Abbreviation St := (LzxDecoder * LzxBits)%type.

(** Decoding went on from [hist] by [made] bytes that are an expansion. *)
Definition lzx_made (Rel : LzxDecoder → LzxDecoder → Prop) (d0 : LzxDecoder) (hist : list byte) (made : N) (s : St) : Prop :=
  ∃ tokens new, holds s.1 (hist ++ new) ∧ len new = made ∧ expand_lzx hist tokens = Some (hist ++ new) ∧
    Forall (lzx_token_ok bits) tokens ∧ Rel d0 s.1.

Abbreviation lzx_went := (lzx_made lzx_frozen).

(** An error leaves a window, too. *)
Definition lzx_failed (hist : list byte) (e : Stop CabinetError) (s : St) : Prop :=
  is_fail e ∧ ∃ new, holds s.1 (hist ++ new).

Lemma failed_here hist e d b : is_fail e → holds d hist → lzx_failed hist e (d, b).
Proof. intros He Hd. split; [done|]. exists []. by rewrite app_nil_r. Qed.

Lemma match_offset_wp d b hist slot table (Q : N → St → Prop) R :
  holds d hist → slot < 2 * bits →
  (∀ offset d' b', holds d' hist → lzx_frozen d d' → Q offset (d', b')) →
  (∀ e d' b', is_fail e → holds d' hist → R e (d', b')) →
  wp (match_offset_of slot table) Q R (d, b).
Proof.
  intros Hd Hs HQ HR. unfold match_offset_of. apply wp_bind, wp_get. cbv zeta. cbn [fst].
  destruct (lz_repeated d) as [[r0 r1] r2] eqn:Er.
  assert (Hrep : ∀ r offset b', wp (on_lzx (lz_put_repeated r);; mret offset) Q R (d, b')).
  { intros r offset b'. apply wp_bind, wp_modify, wp_ret. cbn [fst snd].
    apply HQ; [by apply holds_repeated|by destruct d]. }
  destruct (slot =? 0); [by apply wp_ret, HQ|]. destruct (slot =? 1); [apply Hrep|].
  destruct (slot =? 2); [apply Hrep|].
  apply wp_bind, wp_index; [by rewrite (lh_footer _ _ _ Hd)|]. intros footer.
  apply wp_bind, wp_index; [by rewrite (lh_base _ _ _ Hd)|]. intros base.
  apply wp_bind, wp_on_bits; [apply quiet_formatted| |by intros; apply HR]. intros formatted b'.
  apply wp_bind, wp_cab_try. destruct (checked_sub formatted 2); cbn [ok_or]; [apply Hrep|].
  apply HR; [apply fails_with|done].
Qed.

Lemma match_length_two header table b :
  wp (match_length_of header table) (λ v _, 2 ≤ v) (λ e _, is_fail e) b.
Proof.
  unfold match_length_of. destruct (header =? 7); [|apply wp_ret; lia].
  apply wp_bind, wp_cab_try. destruct table; [|apply fails_with]. cbn [ok_or]. apply wp_bind.
  eapply wp_mono; [apply quiet_decode|..|done]. intros v b' _. apply wp_ret. lia.
Qed.

Lemma lzx_token_wp d b hist remaining main length_ aligned :
  holds d hist → 0 < remaining →
  wp (lzx_token remaining main length_ aligned)
    (λ taken s, 0 < taken ≤ remaining ∧ lzx_went d hist taken s) (lzx_failed hist) (d, b).
Proof.
  intros Hd Hr. unfold lzx_token. apply wp_bind, wp_on_bits; [apply quiet_decode| |by intros; apply failed_here].
  intros element b1. destruct (element <? NUM_CHARS).
  { destruct (push_byte_run bits d b1 hist (byte_of_N element) Hd) as (d1 & E1 & Hd1 & Hf1).
    apply wp_bind. unfold wp at 1. rewrite E1. apply wp_ret. split; [lia|].
    exists [LT_Literal (byte_of_N element)], [byte_of_N element]. split; [done|]. split; [done|]. split; [done|].
    split; [by repeat constructor|done]. }
  cbv zeta. apply wp_bind, wp_zoom. cbn [fst snd]. eapply wp_mono; [apply match_length_two|..].
  2:{ intros e b' He. by apply failed_here. }
  intros mlen b2 Hmlen. cbv beta in Hmlen. apply wp_bind, wp_get. cbn [fst]. apply wp_bind, wp_cab_reject.
  rewrite (lh_slots _ _ _ Hd). destruct (N.leb_spec (2 * bits) (N.shiftr (element - NUM_CHARS) 3)) as [|Hslot].
  { apply failed_here; [apply fails_with|done]. }
  apply wp_bind, (match_offset_wp _ _ hist); [done|done| |by intros; apply failed_here].
  intros offset d1 b3 Hd1 Hf1.
  set (k := (if mlen =? 257 then _ else _) : LM N). apply wp_bind.
  assert (wp k (λ v s, 2 ≤ v ∧ ∃ b', s = (d1, b')) (lzx_failed hist) (d1, b3)) as Hk.
  { unfold k. destruct (mlen =? 257); [|by apply wp_ret; eauto].
    apply wp_bind, wp_on_bits; [apply quiet_extra| |by intros; apply failed_here].
    intros extra b'. apply wp_ret. split; [lia|]. by exists b'. }
  eapply wp_mono; [exact Hk|..|done]. clear k Hk. intros total s [Htotal [b4 ->]].
  apply wp_bind, wp_cab_reject. destruct (N.ltb_spec remaining total) as [|Hfit].
  { apply failed_here; [apply fails_with|done]. }
  apply wp_bind, wp_get. cbn [fst]. apply wp_bind, wp_cab_reject.
  rewrite (lh_window _ _ _ Hd1), (lh_total _ _ _ Hd1).
  destruct (N.eqb_spec offset 0) as [|Hne]; [apply failed_here; [apply fails_with|done]|].
  destruct (N.ltb_spec (2 ^ bits) offset) as [|Hwin]; [apply failed_here; [apply fails_with|done]|].
  destruct (N.ltb_spec (len hist) offset) as [|Hhist]; [apply failed_here; [apply fails_with|done]|]. cbn [orb].
  destruct (push_match_run bits (N.to_nat total) offset d1 b4 hist Hd1 ltac:(lia) Hwin Hhist)
    as (d2 & new & E2 & Hc & Hn & Hd2 & Hf2).
  apply wp_bind. unfold wp at 1. rewrite E2. apply wp_ret. split; [lia|].
  exists [LT_Match total offset], new. split; [done|]. split; [unfold len; lia|]. split; [by cbn; rewrite Hc|].
  split; [repeat constructor; cbn; lia|]. by etrans.
Qed.

Lemma lzx_made_none Rel `{!Reflexive Rel} d hist b : holds d hist → lzx_made Rel d hist 0 (d, b).
Proof. intros Hd. exists [], []. rewrite app_nil_r. split; [done|]. split; [done|]. split; [done|]. split; [constructor|done]. Qed.

Lemma lzx_made_trans Rel `{!Transitive Rel} d0 d1 hist new tokens made s :
  expand_lzx hist tokens = Some (hist ++ new) → Forall (lzx_token_ok bits) tokens → Rel d0 d1 →
  lzx_made Rel d1 (hist ++ new) made s → lzx_made Rel d0 hist (len new + made) s.
Proof.
  intros He Hok Hf (tokens' & new' & Hs & Hl & He' & Hok' & Hf'). exists (tokens ++ tokens'), (new ++ new').
  rewrite <-app_assoc in Hs, He'. split; [done|]. split; [by rewrite len_app, Hl|].
  split; [by rewrite expand_lzx_app, He|]. split; [by apply Forall_app|]. by etrans.
Qed.

Lemma lzx_failed_later hist new e s : lzx_failed (hist ++ new) e s → lzx_failed hist e s.
Proof. intros [He [new' Hs]]. split; [done|]. exists (new ++ new'). by rewrite app_assoc. Qed.

Lemma token_loop_wp turns remaining main length_ aligned d b hist :
  holds d hist → remaining ≤ N.of_nat turns →
  wp (token_loop turns remaining main length_ aligned)
    (λ _ s, lzx_went d hist remaining s) (lzx_failed hist) (d, b).
Proof.
  revert remaining d b hist. induction turns as [|turns IH]; intros remaining d b hist Hd Hr; cbn [token_loop].
  { assert (remaining = 0) as -> by lia. apply wp_ret, lzx_made_none; [apply _|done]. }
  destruct (N.eqb_spec remaining 0) as [->|Hne]; [apply wp_ret, lzx_made_none; [apply _|done]|].
  apply wp_bind. eapply wp_mono; [apply (lzx_token_wp d b hist); [done|lia]|..|done].
  intros taken [d1 b1] [Ht (tokens & new & Hd1 & Hl & He & Hok & Hf)]. cbn [fst] in *.
  eapply wp_mono; [apply (IH (remaining - taken) d1 b1 (hist ++ new)); [done|lia]|..].
  - intros [] s Hs. cbv beta in Hs. replace remaining with (len new + (remaining - taken)) by lia. by eapply lzx_made_trans; [apply _|..].
  - intros e s. apply lzx_failed_later.
Qed.

(** ** Blocks and frames *)

(** What the blocks of a frame leave alone. *)
Definition lzx_settled (d d' : LzxDecoder) : Prop :=
  lz_header_read d' = lz_header_read d ∧ lz_e8_translation d' = lz_e8_translation d ∧
  lz_e8_file_size d' = lz_e8_file_size d ∧ lz_frames_done d' = lz_frames_done d.

#[local] Instance lzx_settled_preorder : PreOrder lzx_settled.
Proof. split; [by intros d|]. intros d1 d2 d3 (?&?&?&?) (?&?&?&?). repeat split; congruence. Qed.

Lemma frozen_settled d d' : lzx_frozen d d' → lzx_settled d d'.
Proof. by intros (_ & _ & ? & ? & ? & ?). Qed.

Lemma on_main_wp start stop d b hist (Q : unit → St → Prop) :
  holds d hist → stop ≤ NUM_CHARS + 8 * (2 * bits) →
  (∀ d' b', holds d' hist → lzx_settled d d' → Q tt (d', b')) →
  wp (on_main (read_lengths start stop)) Q (lzx_failed hist) (d, b).
Proof.
  intros Hd Hstop HQ. apply wp_zoom. cbn [fst snd].
  eapply wp_mono; [apply (read_lengths_keeps _ start stop Hstop); cbn; apply (lh_main _ _ _ Hd)|..].
  - intros [] [l b'] [_ Hl]. cbn in *. apply HQ; [|by destruct d].
    apply holds_lengths; [done|done|apply (lh_lengths _ _ _ Hd)].
  - intros e [l b'] [He Hl]. cbn in *. apply failed_here; [done|].
    apply holds_lengths; [done|done|apply (lh_lengths _ _ _ Hd)].
Qed.

Lemma on_length_wp d b hist (Q : unit → St → Prop) :
  holds d hist → (∀ d' b', holds d' hist → lzx_settled d d' → Q tt (d', b')) →
  wp (on_length (read_lengths 0 LENGTH_TREE_ELEMENTS)) Q (lzx_failed hist) (d, b).
Proof.
  intros Hd HQ. apply wp_zoom. cbn [fst snd].
  eapply wp_mono; [apply (read_lengths_keeps _ 0 LENGTH_TREE_ELEMENTS (N.le_refl _)); cbn; apply (lh_lengths _ _ _ Hd)|..].
  - intros [] [l b'] [_ Hl]. cbn in *. apply HQ; [|by destruct d].
    apply holds_lengths; [done|apply (lh_main _ _ _ Hd)|done].
  - intros e [l b'] [He Hl]. cbn in *. apply failed_here; [done|].
    apply holds_lengths; [done|apply (lh_main _ _ _ Hd)|done].
Qed.

Lemma trees_wp d b hist (Q : unit → St → Prop) :
  holds d hist → (∀ d' b', holds d' hist → lzx_settled d d' → Q tt (d', b')) →
  wp read_main_and_length_trees Q (lzx_failed hist) (d, b).
Proof.
  intros Hd HQ. unfold read_main_and_length_trees. apply wp_bind, wp_get. cbv zeta. cbn [fst].
  rewrite (lh_slots _ _ _ Hd).
  apply wp_bind, (on_main_wp _ _ d b hist); [done|lia|]. intros d1 b1 Hd1 Hs1.
  apply wp_bind, (on_main_wp _ _ d1 b1 hist); [done|lia|].
  intros d2 b2 Hd2 Hs2.
  apply wp_bind, wp_get. cbn [fst]. apply wp_bind, wp_cab_try.
  destruct (huffman_new (lz_main_lengths d2)) as [t|]; [|apply failed_here; [apply fails_with|done]].
  apply wp_bind, wp_modify. cbn [fst snd]. set (d3 := lz_put_tables _ _ _ d2).
  assert (holds d3 hist) as Hd3 by by apply holds_tables. assert (lzx_settled d2 d3) as Hs3 by by destruct d2.
  apply wp_bind, (on_length_wp d3 b2 hist); [done|].
  intros d4 b4 Hd4 Hs4. apply wp_bind, wp_get. cbn [fst]. apply wp_bind, wp_cab_try.
  destruct (huffman_new (lz_length_lengths d4)) as [t'|]; [|apply failed_here; [apply fails_with|done]].
  apply wp_modify. cbn [fst snd]. apply HQ; [by apply holds_tables|].
  transitivity d1; [done|]. transitivity d2; [done|]. transitivity d3; [done|]. transitivity d4; [done|]. by destruct d4.
Qed.

Lemma block_header_wp d b hist (Q : unit → St → Prop) :
  holds d hist → (∀ d' b', holds d' hist → lzx_settled d d' → Q tt (d', b')) →
  wp read_block_header Q (lzx_failed hist) (d, b).
Proof.
  intros Hd HQ. unfold read_block_header.
  apply wp_bind, wp_on_bits; [apply quiet_read_bits| |by intros; apply failed_here]. intros code b1.
  apply wp_bind, wp_cab_try. destruct (block_type_of code) as [type|]; [|apply failed_here; [apply fails_with|done]].
  apply wp_bind, wp_modify. cbn [fst snd]. set (d1 := lz_put_block type _ d).
  assert (holds d1 hist) as Hd1 by by apply holds_block.
  apply wp_bind, wp_on_bits; [apply quiet_read_u24| |by intros; apply failed_here]. intros remaining b2.
  apply wp_bind, wp_modify. cbn [fst snd]. set (d2 := lz_put_block _ remaining d1).
  assert (holds d2 hist) as Hd2 by by apply holds_block. assert (lzx_settled d d2) as Hs2 by by destruct d.
  destruct type.
  - apply (trees_wp d2 b2 hist); [done|].
    intros d3 b3 Hd3 Hs3. apply HQ; [done|by transitivity d2].
  - apply wp_bind, wp_on_bits; [apply quiet_read_many, quiet_read_bits| |by intros; apply failed_here]. intros aligned b3.
    apply wp_bind, wp_cab_try. destruct (huffman_new aligned) as [t|]; [|apply failed_here; [apply fails_with|done]].
    apply wp_bind, wp_modify. cbn [fst snd]. set (d3 := lz_put_tables _ _ (Some t) d2).
    assert (holds d3 hist) as Hd3 by by apply holds_tables. assert (lzx_settled d2 d3) as Hs3 by by destruct d2.
    apply (trees_wp d3 b3 hist); [done|].
    intros d4 b4 Hd4 Hs4. apply HQ; [done|]. transitivity d2; [done|]. by transitivity d3.
  - apply wp_bind, wp_on_bits; [apply quiet_align| |by intros; apply failed_here]. intros _ b3.
    apply wp_bind, wp_on_bits; [apply quiet_aligned_position| |by intros; apply failed_here]. intros position b4.
    apply wp_bind, wp_get. cbv zeta. cbn [fst snd].
    apply wp_bind, wp_cab_try. destruct (stored_offset _ _) as [r0|]; [|apply failed_here; [apply fails_with|done]].
    apply wp_bind, wp_cab_try. destruct (stored_offset _ _) as [r1|]; [|apply failed_here; [apply fails_with|done]].
    apply wp_bind, wp_cab_try. destruct (stored_offset _ _) as [r2|]; [|apply failed_here; [apply fails_with|done]].
    apply wp_bind, wp_modify. cbn [fst snd]. apply wp_on_bits; [apply quiet_modify| |by intros; apply failed_here, holds_repeated].
    intros [] b5. apply HQ; [by apply holds_repeated|]. transitivity d2; [done|by destruct d2].
Qed.

Lemma literals_expand hist bytes : expand_lzx hist (LT_Literal <$> bytes) = Some (hist ++ bytes).
Proof.
  revert hist. induction bytes as [|byte bytes IH]; intros hist; cbn; [by rewrite app_nil_r|].
  by rewrite IH, <-app_assoc.
Qed.

Lemma copy_stored_wp todo d b hist :
  holds d hist → wp (copy_stored todo) (λ _ s, lzx_went d hist todo s) (lzx_failed hist) (d, b).
Proof.
  intros Hd. unfold copy_stored. apply wp_bind, wp_get. cbv zeta. cbn [fst snd].
  apply wp_bind, wp_cab_reject. destruct (negb _); [apply failed_here; [apply fails_with|done]|].
  apply wp_bind, wp_cab_try. destruct (checked_add 64 _ todo) as [stop|] eqn:E1; cbn [ok_or];
    [|apply failed_here; [apply fails_with|done]]. apply checked_add_Some in E1 as [_ ->].
  apply wp_bind, wp_cab_try. destruct (get_range _ _ _) as [bytes|] eqn:E2; cbn [ok_or];
    [|apply failed_here; [apply fails_with|done]]. apply get_range_Some in E2 as (_ & Hin & ->).
  set (bytes := subslice _ _ _). assert (len bytes = todo) as Hl by (unfold bytes; rewrite len_subslice; lia).
  destruct (push_bytes_run bits bytes d b hist Hd) as (d1 & E & Hd1 & Hf).
  apply wp_bind. unfold wp at 1. rewrite E. apply wp_on_bits; [apply quiet_modify| |].
  - intros [] b'. exists (LT_Literal <$> bytes), bytes. split; [done|]. split; [done|]. split; [apply literals_expand|].
    split; [|done]. apply list.Forall_fmap, list.Forall_forall. done.
  - intros e b' He. split; [done|]. by exists bytes.
Qed.

Lemma frame_turn_wp left d b hist :
  holds d hist → 0 < left →
  wp (frame_turn left) (λ made s, 0 < made ≤ left ∧ lzx_made lzx_settled d hist made s) (lzx_failed hist) (d, b).
Proof.
  intros Hd Hleft. unfold frame_turn. apply wp_bind, wp_get. cbn [fst]. apply wp_bind.
  set (k := if lz_block_remaining d =? 0 then _ else _).
  assert (wp k (λ _ s, ∃ d' b', s = (d', b') ∧ holds d' hist ∧ lzx_settled d d' ∧ lz_block_remaining d' ≠ 0)
    (lzx_failed hist) (d, b)) as Hk.
  { unfold k. destruct (N.eqb_spec (lz_block_remaining d) 0) as [|Hne].
    - apply wp_bind, (block_header_wp d b hist); [done|]. intros d' b' Hd' Hs. apply wp_bind, wp_get. cbn [fst].
      apply wp_cab_reject. destruct (N.eqb_spec (lz_block_remaining d') 0); [apply failed_here; [apply fails_with|done]|].
      by exists d', b'.
    - apply wp_ret. exists d, b. split; [done|]. split; [done|]. split; [reflexivity|done]. }
  eapply wp_mono; [exact Hk|..|done]. clear k Hk. intros [] s (d1 & b1 & -> & Hd1 & Hs1 & Hne).
  apply wp_bind, wp_get. cbv zeta. cbn [fst]. set (todo := N.min left (lz_block_remaining d1)).
  apply wp_bind.
  assert (wp match lz_block_type d1 with BT_Verbatim | BT_Aligned => decode_tokens todo | BT_Uncompressed => copy_stored todo end
    (λ _ s, lzx_went d1 hist todo s) (lzx_failed hist) (d1, b1)) as Hbody.
  { assert (wp (decode_tokens todo) (λ _ s, lzx_went d1 hist todo s) (lzx_failed hist) (d1, b1)) as Htokens.
    { unfold decode_tokens. apply wp_bind, wp_get. cbn [fst]. apply wp_bind, wp_cab_try.
      destruct (lz_main_table d1); cbn [ok_or]; [|apply failed_here; [apply fails_with|done]].
      apply token_loop_wp; [done|lia]. }
    destruct (lz_block_type d1); [done|done|by apply copy_stored_wp]. }
  eapply wp_mono; [exact Hbody|..|done]. intros [] [d2 b2] (tokens & new & Hd2 & Hl & He & Hok & Hf). cbn [fst] in *.
  apply wp_bind, wp_modify. cbn [fst snd]. set (d3 := lz_put_block _ _ d2).
  assert (lzx_settled d d3) as Hs3.
  { transitivity d1; [done|]. transitivity d2; [by apply frozen_settled|by destruct d2]. }
  assert (holds d3 (hist ++ new)) as Hd3 by by apply holds_block.
  apply wp_bind, wp_get. cbn [fst]. apply wp_bind.
  assert (Hend : ∀ b', wp (mret todo : LM N) (λ made s, 0 < made ≤ left ∧ lzx_made lzx_settled d hist made s)
    (lzx_failed hist) (d3, b')).
  { intros b'. apply wp_ret. split; [lia|]. by exists tokens, new. }
  destruct (_ && _); [|apply wp_ret, Hend]. apply wp_on_bits; [apply quiet_modify|by intros []|].
  intros e b' He'. split; [done|]. by exists new.
Qed.

Lemma frame_loop_wp turns left d b hist :
  holds d hist → left ≤ N.of_nat turns →
  wp (frame_loop turns left) (λ _ s, lzx_made lzx_settled d hist left s) (lzx_failed hist) (d, b).
Proof.
  revert left d b hist. induction turns as [|turns IH]; intros left d b hist Hd Hr; cbn [frame_loop].
  { assert (left = 0) as -> by lia. apply wp_ret, lzx_made_none; [apply _|done]. }
  destruct (N.eqb_spec left 0) as [->|Hne]; [apply wp_ret, lzx_made_none; [apply _|done]|].
  apply wp_bind. eapply wp_mono; [apply (frame_turn_wp left d b hist); [done|lia]|..|done].
  intros made [d1 b1] [Ht (tokens & new & Hd1 & Hl & He & Hok & Hf)]. cbn [fst] in *.
  eapply wp_mono; [apply (IH (left - made) d1 b1 (hist ++ new)); [done|lia]|..].
  - intros [] s Hs. cbv beta in Hs. replace left with (len new + (left - made)) by lia.
    by eapply lzx_made_trans; [apply _|..].
  - intros e s. apply lzx_failed_later.
Qed.
End tokens.

(** * Microsoft cabinets: LZX blocks

    What a call of [decode_block] hands out: the bytes a list of tokens adds to
    everything decoded before, with the calls of x86 code put back. *)

Lemma length_slots_from count slot position : length (slots_from count slot position) = count.
Proof. revert slot position. induction count as [|count IH]; intros; cbn [slots_from length]; [done|by rewrite IH]. Qed.

Lemma len_slot_tables slots : len (slot_tables slots).1 = slots ∧ len (slot_tables slots).2 = slots.
Proof. unfold slot_tables, len. cbn [fst snd]. rewrite !length_fmap, length_slots_from. lia. Qed.

(** A new decoder has decoded nothing. *)
Lemma lzx_new_holds bits limits d :
  lzx_new bits limits = Ok d → lzx_holds bits d [] ∧ bits ≤ cl_max_lzx_window_bits limits.
Proof.
  unfold lzx_new. pose proof (len_slot_tables (2 * bits)) as [Hbase Hfooter].
  destruct (slot_tables (2 * bits)) as [base footer]. cbn [fst snd] in Hbase, Hfooter.
  intros H. apply bind_Ok in H as ([] & Hguard & E). apply guard_err_Ok in Hguard.
  apply orb_false_iff in Hguard as [Hr Hlimit]. apply negb_false_iff, andb_true_iff in Hr as [Hmin Hmax].
  apply N.leb_le in Hmin, Hmax. apply N.ltb_ge in Hlimit. injection E as <-. split; [|done].
  assert (Hrep : ∀ A n (a : A), len (replicate (N.to_nat n) a) = n) by (intros; unfold len; rewrite length_replicate; lia).
  split; cbn [lz_window lz_window_mask lz_window_position lz_output_total lz_position_slots lz_base_position lz_footer_bits lz_main_lengths lz_length_lengths];
    rewrite ?Hrep; try done.
  unfold len. cbn. lia.
Qed.

(** ** The bytes a frame is cut from *)

Lemma lookup_subslice {A} start size (l : list A) j :
  (j < N.to_nat size)%nat → subslice start size l !! j = l !! (N.to_nat start + j)%nat.
Proof. intros Hj. unfold subslice. by rewrite lookup_take_lt, lookup_drop by done. Qed.

Lemma window_cut bits d hist frame :
  lzx_holds bits d (hist ++ frame) → len frame ≤ 2 ^ bits →
  let start := len hist mod 2 ^ bits in
  let first := N.min (len frame) (len (lz_window d) - start) in
  subslice start first (lz_window d) ++
    (if first <? len frame then subslice 0 (len frame - first) (lz_window d) else []) = frame.
Proof.
  intros Hd Hfit start first. pose proof (window_positive bits) as Hpos. pose proof (lh_window _ _ _ Hd) as Hw.
  assert (start < 2 ^ bits) as Hstart by (apply N.mod_lt; lia).
  assert (Hat : ∀ i, i < len frame → lz_window d !! N.to_nat ((len hist + i) mod 2 ^ bits) = frame !! N.to_nat i).
  { intros i Hi. rewrite (lh_lookup _ _ _ Hd) by (rewrite ?len_app; lia). rewrite lookup_app_r by (unfold len; lia).
    f_equal. unfold len. lia. }
  assert (Hlow : ∀ i, start + i < 2 ^ bits → (len hist + i) mod 2 ^ bits = start + i).
  { intros i Hi. unfold start in *. rewrite <-N.Div0.add_mod_idemp_l. by apply N.mod_small. }
  assert (Hhigh : ∀ i, 2 ^ bits ≤ start + i → i < 2 ^ bits → (len hist + i) mod 2 ^ bits = start + i - 2 ^ bits).
  { intros i Hi Hi'. unfold start in *. rewrite <-N.Div0.add_mod_idemp_l.
    replace (len hist mod 2 ^ bits + i) with (len hist mod 2 ^ bits + i - 2 ^ bits + 1 * 2 ^ bits) at 1 by lia.
    rewrite N.Div0.mod_add. apply N.mod_small. lia. }
  assert (Hsub : length (subslice start first (lz_window d)) = N.to_nat first).
  { unfold subslice. rewrite length_take, length_drop. unfold len in *. lia. }
  apply list_eq. intros i. destruct (decide (i < N.to_nat first)%nat) as [Hi|Hi].
  { rewrite lookup_app_l, lookup_subslice by lia. rewrite <-(Nat2N.id i) at 2. rewrite <-Hat, Hlow by lia. f_equal. lia. }
  rewrite lookup_app_r, Hsub by lia. destruct (N.ltb_spec first (len frame)) as [Hwrap|Hwrap].
  - destruct (decide (i < length frame)%nat) as [Hin|Hin].
    + rewrite lookup_subslice by (unfold len; lia). rewrite <-(Nat2N.id i) at 2.
      rewrite <-Hat, Hhigh by (unfold len in *; lia). f_equal. unfold len in *. lia.
    + rewrite !(proj2 (lookup_ge_None _ _)); [done|lia|].
      unfold subslice. rewrite length_take, length_drop. unfold len in *. lia.
  - rewrite lookup_nil. symmetry. apply lookup_ge_None. unfold len in *. lia.
Qed.

(** The translation of calls keeps the length. *)
Lemma length_e8_displacement current file_size bytes :
  length bytes = 4%nat → length (e8_displacement current file_size bytes) = 4%nat.
Proof.
  intros Hb. unfold e8_displacement. destruct (_ && _)%Z; [|done]. unfold signed_bytes.
  destruct (_ && _)%Z; cbn [default]; [|done]. apply length_le_bytes.
Qed.

Lemma length_e8_loop translate turns limit i chunk_offset frame :
  (∀ current bytes, length bytes = 4%nat → length (translate current bytes) = 4%nat) →
  limit + 10 ≤ len frame → length (e8_loop translate turns limit i chunk_offset frame) = length frame.
Proof.
  intros Htr. revert i frame. induction turns as [|turns IH]; intros i frame Hl; cbn [e8_loop]; [done|].
  destruct (N.leb_spec limit i) as [|Hi]; [done|]. destruct (bool_decide _); [|by apply IH].
  set (bytes := translate _ _). assert (length bytes = 4%nat) as Hb.
  { apply Htr. unfold subslice. rewrite length_take, length_drop. unfold len in Hl. lia. }
  assert (length (splice (i + 1) bytes frame) = length frame) as Hs.
  { apply length_splice. unfold len in *. rewrite Hb. lia. }
  rewrite IH; [done|]. unfold len in *. by rewrite Hs.
Qed.

Lemma len_e8_reverse frame chunk_offset file_size : len (e8_reverse frame chunk_offset file_size) = len frame.
Proof.
  unfold e8_reverse. destruct (N.leb_spec (len frame) 10); [done|]. destruct (_ <=? _); [done|].
  unfold len at 1. rewrite length_e8_loop; [done| |lia]. intros. by apply length_e8_displacement.
Qed.

(** ** Frames *)
Section frames.
Context (bits : N).
Abbreviation holds := (lzx_holds bits).
Abbreviation St := (LzxDecoder * LzxBits)%type.

(** The translation header settles once, and the count of frames is not its business. *)
Definition lzx_counted (d d' : LzxDecoder) : Prop := lz_frames_done d' = lz_frames_done d.

Lemma read_e8_header_wp d b hist :
  holds d hist →
  wp read_e8_header (λ _ s, holds s.1 hist ∧ lz_frames_done s.1 = lz_frames_done d) (lzx_failed bits hist) (d, b).
Proof.
  intros Hd. unfold read_e8_header. apply wp_bind, wp_get. cbn [fst].
  destruct (lz_header_read d); [by apply wp_ret|]. apply wp_bind, wp_modify. cbn [fst snd]. set (d1 := lz_put_header _ _ _ d).
  assert (holds d1 hist) as Hd1 by by apply holds_header. assert (lz_frames_done d1 = lz_frames_done d) as Hf by by destruct d.
  apply wp_bind, wp_on_bits; [apply quiet_read_bits| |by intros; apply failed_here]. intros bit b1.
  destruct (bit =? 1); [|by apply wp_ret].
  apply wp_bind, wp_on_bits; [apply quiet_read_bits| |by intros; apply failed_here]. intros high b2.
  apply wp_bind, wp_on_bits; [apply quiet_read_bits| |by intros; apply failed_here]. intros low b3.
  apply wp_modify. cbn [fst snd]. split; [by apply holds_header|by destruct d1].
Qed.

Lemma lzx_frame_wp expected d b hist :
  holds d hist →
  wp (lzx_frame expected)
    (λ start s, start = len hist mod 2 ^ bits ∧ lzx_made bits lzx_counted d hist expected s)
    (lzx_failed bits hist) (d, b).
Proof.
  intros Hd. unfold lzx_frame. apply wp_bind.
  eapply wp_mono; [by apply read_e8_header_wp|..|done]. intros [] [d1 b1] [Hd1 Hf1]. cbn [fst] in Hd1, Hf1.
  apply wp_bind, wp_get. cbv zeta. cbn [fst]. apply wp_bind.
  eapply wp_mono; [apply (frame_loop_wp bits _ expected d1 b1 hist); [done|lia]|..|done].
  intros [] s (tokens & new & Hs & Hl & He & Hok & Hset). apply wp_ret. split; [apply (lh_position _ _ _ Hd1)|].
  exists tokens, new. split; [done|]. split; [done|]. split; [done|]. split; [done|].
  unfold lzx_counted. destruct Hset as (_ & _ & _ & ->). done.
Qed.
End frames.

(** The bytes of a frame, once the calls in it are put back. *)
Definition lzx_translated (d : LzxDecoder) (frames : N) (hist frame : list byte) : list byte :=
  if lz_e8_translation d && (frames <? E8_FRAME_LIMIT) then e8_reverse frame (len hist) (lz_e8_file_size d) else frame.

Record lzx_block (bits : N) (d : LzxDecoder) (hist : list byte) (expected : N) (d' : LzxDecoder) (out : list byte)
    (tokens : list LzxToken) (frame : list byte) : Prop := {
  bk_len : len frame = expected;
  bk_expands : expand_lzx hist tokens = Some (hist ++ frame);
  bk_tokens : Forall (lzx_token_ok bits) tokens;
  bk_holds : lzx_holds bits d' (hist ++ frame);
  bk_frames : lz_frames_done d' = lz_frames_done d + (if expected =? 0 then 0 else 1);
  bk_out : out = lzx_translated d' (lz_frames_done d) hist frame
}.

Lemma lzx_decode_block_wp bits d hist buffer input expected :
  lzx_holds bits d hist →
  wp (lzx_decode_block input expected)
    (λ _ s, expected ≤ FRAME_SIZE ∧ ∃ tokens frame, lzx_block bits d hist expected s.1 s.2 tokens frame)
    (λ e s, is_fail e ∧ s.2 = [] ∧ ∃ new, lzx_holds bits s.1 (hist ++ new)) (d, buffer).
Proof.
  intros Hd.
  unfold lzx_decode_block. apply wp_bind, wp_modify. cbn [fst].
  apply wp_bind, wp_cab_reject. destruct (N.ltb_spec FRAME_SIZE expected) as [|Hfit].
  { split; [apply fails_with|]. split; [done|]. exists []. by rewrite app_nil_r. }
  destruct (N.eqb_spec expected 0) as [->|Hne].
  { apply wp_ret. split; [done|]. exists [], []. split; cbn [fst snd N.eqb]; rewrite ?app_nil_r; try done; [lia|].
    unfold lzx_translated. by destruct (_ && _). }
  apply wp_bind. pose proof (lzx_frame_wp bits expected d (bits_new input) hist Hd) as Hframe. unfold wp in Hframe |- *.
  cbn [fst snd]. destruct (lzx_frame expected (d, bits_new input)) as [[d' b'] [start|e]]; cbn [fst snd].
  2:{ destruct Hframe as [He Hnew]. by split. }
  destruct Hframe as [-> (tokens & frame & Hd' & Hl & He & Hok & Hf)]. cbn [fst] in *.
  cbv beta iota zeta. rewrite (M_bind_step get _ (d', []) (d', []) (d', [])) by done. cbv zeta. cbn [fst snd].
  assert (len frame ≤ 2 ^ bits) as Hwin.
  { pose proof (lh_bits _ _ _ Hd) as [Hmin _]. rewrite Hl. etrans; [exact Hfit|].
    change FRAME_SIZE with (2 ^ 15). by apply N.pow_le_mono_r. }
  pose proof (window_cut bits d' hist frame Hd' Hwin) as Hcut. cbv zeta in Hcut. rewrite Hl in Hcut. rewrite Hcut.
  unfold modify. cbn [fst snd]. split; [done|]. exists tokens, frame.
  split; try done.
  - by apply holds_frames.
  - rewrite (proj2 (N.eqb_neq _ _) Hne), <-Hf. by destruct d'.
  - unfold lzx_translated. rewrite (lh_total _ _ _ Hd'), len_app, Hl, N.add_sub, Hf. by destruct d'.
Qed.
