(* ===== verification/CabBits.v ===== *)
(** * Microsoft cabinets: the bits of an LZX block

    What the fields and the Huffman symbols of an LZX block are, stated on the
    block's bits and on canonical codes, and the proof that [BitReader] and
    [HuffmanTable] of [crates/ohl-mscab/src/lzx.rs] read them, in every build. *)

From S2P Require Export CabWindow.

(** ** Two runs in step

    [follows m f Q s t]: the method [m], run from [s], does what the meaning [f]
    does from [t]. If [f] succeeds, so does [m], and [Q] holds of the results and
    the states; if [f] refuses, [m] fails with an error, and does not panic. *)
Definition follows {S T A B} (m : M S (Stop CabinetError) A) (f : M T unit B)
    (Q : A → B → S → T → Prop) (s : S) (t : T) : Prop :=
  match f t with
  | (t', Ok b) => ∃ s' a, m s = (s', Ok a) ∧ Q a b s' t'
  | (_, Err _) => ∃ s' error, m s = (s', Err (Fail error))
  end.

Definition refuse {T} (c : bool) : M T unit unit := if c then throw tt else mret tt.

Section follows.
Context {S T : Type}.
Implicit Types (s : S) (t : T).

Lemma follows_bind {A A' B B'} (m : M S (Stop CabinetError) A) (k : A → M S (Stop CabinetError) A')
    (f : M T unit B) (g : B → M T unit B') Q s t :
  follows m f (λ a b, follows (k a) (g b) Q) s t → follows (m ≫= k) (f ≫= g) Q s t.
Proof.
  unfold follows, mbind, M_bind. destruct (f t) as [t1 [b|u]].
  - intros (s1 & a & -> & H). exact H.
  - by intros (s1 & e & ->); eauto.
Qed.

Lemma follows_mono {A B} (m : M S (Stop CabinetError) A) (f : M T unit B) (Q Q' : A → B → S → T → Prop) s t :
  follows m f Q s t → (∀ a b s' t', Q a b s' t' → Q' a b s' t') → follows m f Q' s t.
Proof. unfold follows. destruct (f t) as [t1 [b|u]]; naive_solver. Qed.

Lemma follows_ret {A B} a b (Q : A → B → S → T → Prop) s t : Q a b s t → follows (mret a) (mret b) Q s t.
Proof. intros H. by exists s, a. Qed.

(** A step only the method takes. *)
Lemma follows_left {A A' B} (m : M S (Stop CabinetError) A) (k : A → M S (Stop CabinetError) A') (f : M T unit B) Q s t s1 a :
  m s = (s1, Ok a) → follows (k a) f Q s1 t → follows (m ≫= k) f Q s t.
Proof. intros E H. unfold follows. by rewrite (M_bind_step _ _ _ _ _ E). Qed.

(** A step only the meaning takes. *)
Lemma follows_right {A B B'} (m : M S (Stop CabinetError) A) (f : M T unit B) (g : B → M T unit B') Q s t t1 b :
  f t = (t1, Ok b) → follows m (g b) Q s t1 → follows m (f ≫= g) Q s t.
Proof. intros E H. unfold follows. by rewrite (M_bind_step _ _ _ _ _ E). Qed.

Lemma follows_reject {A B} c e c' (k : M S (Stop CabinetError) A) (g : M T unit B) Q s t :
  c = c' → (c = false → follows k g Q s t) → follows (cab_reject c e;; k) (refuse c';; g) Q s t.
Proof. intros <- H. destruct c; [by do 2 eexists|by apply H]. Qed.

Lemma follows_map {A B B'} (m : M S (Stop CabinetError) A) (f : M T unit B) (g : B → B') (Q : A → B' → S → T → Prop) s t :
  follows m f (λ a b, Q a (g b)) s t → follows m (b ← f; mret (g b)) Q s t.
Proof. unfold follows, mbind, M_bind. by destruct (f t) as [? [|]]. Qed.

(** A [Result] the meaning decides on. *)
Lemma follows_try {A A' B} (r : result CabinetError A) c (k : A → M S (Stop CabinetError) A') (g : M T unit B) Q s t :
  (if c : bool then ∃ e, r = Err e else ∃ a, r = Ok a ∧ follows (k a) g Q s t) →
  follows (cab_try r ≫= k) (refuse c;; g) Q s t.
Proof. destruct c; [intros [e ->]; by do 2 eexists|intros (a & -> & H); exact H]. Qed.

Lemma follows_zoom {V A B} (view : S → V) (put : V → S → S) (m : M V (Stop CabinetError) A) (f : M T unit B)
    (Q : A → B → S → T → Prop) s t :
  follows m f (λ a b (v : V) t', Q a b (put v s) t') (view s) t → follows (zoom view put m) f Q s t.
Proof.
  unfold follows, zoom. destruct (f t) as [t1 [b|u]].
  - intros (s' & a & -> & H). by do 2 eexists.
  - intros (s' & e & ->). by do 2 eexists.
Qed.
End follows.

Lemma follows_assoc {S T A B B' B''} (m : M S (Stop CabinetError) A) (f : M T unit B) (g : B → M T unit B') (h : B' → M T unit B'')
    (Q : A → B'' → S → T → Prop) s t :
  follows m (f ≫= λ b, g b ≫= h) Q s t → follows m ((f ≫= g) ≫= h) Q s t.
Proof. unfold follows, mbind, M_bind. by destruct (f t) as [? [|]]. Qed.

Lemma follows_assoc_left {S T A A' A'' B} (m : M S (Stop CabinetError) A) (k : A → M S (Stop CabinetError) A') (h : A' → M S (Stop CabinetError) A'')
    (f : M T unit B) (Q : A'' → B → S → T → Prop) s t :
  follows (m ≫= λ a, k a ≫= h) f Q s t → follows ((m ≫= k) ≫= h) f Q s t.
Proof. unfold follows, mbind, M_bind. by destruct (m s) as [? [|]]. Qed.

(** ** Fields *)

(** The byte at [i], and zeros behind the end. *)
Definition data_byte (data : list byte) (i : N) : N := from_option Byte.to_N 0 (data !! N.to_nat i).

(** The block is a sequence of words of two bytes, the low byte first. *)
Definition word_at (data : list byte) (k : N) : N := data_byte data (2 * k) + 256 * data_byte data (2 * k + 1).

(** The bits of a word come from its top. *)
Definition bit_at (data : list byte) (p : N) : bool := N.testbit (word_at data (p / 16)) (15 - p mod 16).

(** The number that the [n] bits from [p] on spell, the most significant first. *)
Fixpoint field_at (data : list byte) (p : N) (n : nat) : N :=
  match n with
  | O => 0
  | S n => 2 * field_at data p n + N.b2n (bit_at data (p + N.of_nat n))
  end.

(** Where a reader is: the next bit, and the words it took that are not wholly
    in the block. *)
Record LzxCursor : Type := {
  lc_bit : N;
  lc_overrun : N
}.

(** The meaning of a method of the reader. *)
Abbreviation LR A := (M LzxCursor unit A).

(** The words from [from] up to [to] that are not wholly in the block. *)
Definition words_behind (data : list byte) (from to : N) : N := to - N.max from (len data / 2).

Definition words_of (p : N) : N := (p + 15) / 16.

(** A field of [n] bits; it may touch four words behind the end. *)
Definition take_field (data : list byte) (n : N) : LR N := λ c,
  let stop := lc_bit c + n in
  let overrun := lc_overrun c + words_behind data (words_of (lc_bit c)) (words_of stop) in
  if MAX_OVERRUN_WORDS <? overrun then (c, Err tt)
  else ({| lc_bit := stop; lc_overrun := overrun |}, Ok (field_at data (lc_bit c) (N.to_nat n))).

(** ** Canonical codes *)

(** The symbols with a code of [l] bits, in order. *)
Definition symbols_from (first : nat) (lengths : list N) (l : N) : list N :=
  omap (λ '(symbol, length), if length =? l then Some (N.of_nat symbol) else None) (zip (seq first (length lengths)) lengths).
Definition symbols_of : list N → N → list N := symbols_from 0.

(** The first code of [l] bits: behind the shorter codes, one bit longer. *)
Fixpoint first_code (lengths : list N) (l : nat) : N :=
  match l with
  | O => 0
  | S l => 2 * (first_code lengths l + (if bool_decide (l = 0%nat) then 0 else len (symbols_of lengths (N.of_nat l))))
  end.

(** The symbol of the code [v] of [l] bits: codes of a length are consecutive. *)
Definition symbol_of (lengths : list N) (l : nat) (v : N) : option N :=
  if first_code lengths l <=? v then symbols_of lengths (N.of_nat l) !! N.to_nat (v - first_code lengths l) else None.

(** Lengths that code something: at most sixteen bits, and no more codes than fit. *)
Definition code_share (lengths : list N) : N :=
  foldr (λ l share, len (symbols_of lengths (N.of_nat l)) * 2 ^ (16 - N.of_nat l) + share) 0 (seq 1 16).
Definition lengths_ok (lengths : list N) : bool :=
  forallb (λ length, length <=? MAX_CODE_BITS) lengths && (code_share lengths <=? 2 ^ 16).

(** The symbol whose code comes next, the shortest code first. *)
Fixpoint find_code (data : list byte) (lengths : list N) (ls : list nat) : LR N := λ c,
  match ls with
  | [] => (c, Err tt)
  | l :: ls =>
      match take_field data (N.of_nat l) c with
      | (c', Ok v) =>
          match symbol_of lengths l v with
          | Some symbol => (c', Ok symbol)
          | None => find_code data lengths ls c
          end
      | (c', Err _) => (c', Err tt)
      end
  end.

Definition take_symbol (data : list byte) (lengths : list N) : LR N := find_code data lengths (seq 1 16).

(** ** Fields: lemmas *)

Lemma field_app data p m n :
  field_at data p (m + n) = field_at data p m * 2 ^ N.of_nat n + field_at data (p + N.of_nat m) n.
Proof.
  induction n as [|n IH]; [rewrite Nat.add_0_r; cbn; lia|]. rewrite Nat.add_succ_r. cbn [field_at].
  rewrite IH, Nat2N.inj_succ, N.pow_succ_r', Nat2N.inj_add, N.add_assoc. lia.
Qed.

Lemma field_lt data p n : field_at data p n < 2 ^ N.of_nat n.
Proof.
  induction n as [|n IH]; [done|]. cbn [field_at]. rewrite Nat2N.inj_succ, N.pow_succ_r'.
  destruct (bit_at data _); cbn [N.b2n]; lia.
Qed.

(** The top [n] bits of a word. *)
Lemma field_word_top data k n :
  (n ≤ 16)%nat → word_at data k < 2 ^ 16 → field_at data (16 * k) n = word_at data k / 2 ^ (16 - N.of_nat n).
Proof.
  intros Hn Hw. induction n as [|n IH]; cbn [field_at]; [by rewrite N.div_small|].
  rewrite IH by lia. set (w := word_at data k) in *. unfold bit_at.
  replace ((16 * k + N.of_nat n) / 16) with k by (rewrite N.mul_comm, N.add_comm, N.div_add, N.div_small; lia).
  replace ((16 * k + N.of_nat n) mod 16) with (N.of_nat n).
  2:{ rewrite N.mul_comm, N.add_comm, N.Div0.mod_add, N.mod_small; lia. }
  fold w. replace (16 - N.of_nat n) with (N.succ (16 - N.of_nat (S n))) by lia.
  replace (15 - N.of_nat n) with (16 - N.of_nat (S n)) by lia. set (j := 16 - N.of_nat (S n)).
  rewrite N.testbit_spec', N.pow_succ_r', (N.mul_comm 2 (2 ^ j)), <-N.Div0.div_div.
  pose proof (N.div_mod (w / 2 ^ j) 2 ltac:(lia)). lia.
Qed.

Lemma byte_at_lt data i : data_byte data i < 256.
Proof. unfold data_byte. destruct (data !! _); cbn; [apply byte_to_N_lt|lia]. Qed.

Lemma word_at_lt data k : word_at data k < 2 ^ 16.
Proof. unfold word_at. pose proof (byte_at_lt data (2 * k)). pose proof (byte_at_lt data (2 * k + 1)). change (2 ^ 16) with 65536. lia. Qed.

Lemma field_word data k : field_at data (16 * k) 16 = word_at data k.
Proof. rewrite field_word_top by (apply word_at_lt || lia). cbn. apply N.div_1_r. Qed.

(** *** Two fields are one *)

Lemma words_behind_trans data a b c : a ≤ b → b ≤ c → words_behind data a b + words_behind data b c = words_behind data a c.
Proof. unfold words_behind. lia. Qed.

Lemma words_of_mono p q : p ≤ q → words_of p ≤ words_of q.
Proof. intros. unfold words_of. apply N.Div0.div_le_mono. lia. Qed.

Lemma take_field_app data m n c :
  match take_field data m c with
  | (c', Ok v) =>
      take_field data (m + n) c = match take_field data n c' with
        | (c'', Ok w) => (c'', Ok (v * 2 ^ n + w))
        | (_, Err u) => (c, Err u)
        end
  | (_, Err u) => take_field data (m + n) c = (c, Err u)
  end.
Proof.
  unfold take_field. cbv zeta. cbn [lc_bit lc_overrun].
  pose proof (words_behind_trans data (words_of (lc_bit c)) (words_of (lc_bit c + m)) (words_of (lc_bit c + m + n))
    (words_of_mono _ _ (N.le_add_r _ _)) (words_of_mono _ _ (N.le_add_r _ _))) as Hw.
  rewrite !N.add_assoc, <-Hw. set (x := words_behind data _ _). set (y := words_behind data _ _).
  destruct (N.ltb_spec MAX_OVERRUN_WORDS (lc_overrun c + x)) as [H1|H1]; cbn [lc_bit lc_overrun].
  { by rewrite (proj2 (N.ltb_lt _ _)) by lia. }
  fold y. rewrite <-(N.add_assoc (lc_overrun c) x y).
  destruct (N.ltb_spec MAX_OVERRUN_WORDS (lc_overrun c + (x + y))) as [H2|H2]; [done|].
  by rewrite N2Nat.inj_add, field_app, !N2Nat.id.
Qed.

(** ** The reader *)

(** The reader is at the cursor: fewer than sixteen bits are buffered, at the top
    of the buffer, and the words behind them have not been touched. *)
Record stands_at (data : list byte) (b : LzxBits) (c : LzxCursor) : Prop := {
  ac_data : lb_data b = data;
  ac_bits : lb_bits b < 16;
  ac_word : ∃ k, lb_byte_position b = 2 * k ∧ lc_bit c + lb_bits b = 16 * k;
  ac_buffer : lb_buffer b = field_at data (lc_bit c) (N.to_nat (lb_bits b)) * 2 ^ (32 - lb_bits b);
  ac_overrun : lb_overrun_words b = lc_overrun c;
  ac_limit : lc_overrun c ≤ MAX_OVERRUN_WORDS
}.

Lemma bits_new_at data : stands_at data (bits_new data) {| lc_bit := 0; lc_overrun := 0 |}.
Proof. split; try done. by exists 0. Qed.

(** Between the two, while a field is filled: the buffer holds [n] bits from [p] on. *)
Record filling (data : list byte) (p : N) (n w o : N) (b : LzxBits) : Prop := {
  fg_data : lb_data b = data;
  fg_position : lb_byte_position b = 2 * w;
  fg_word : p + n = 16 * w;
  fg_bits : lb_bits b = n;
  fg_buffer : lb_buffer b = field_at data p (N.to_nat n) * 2 ^ (32 - n);
  fg_overrun : lb_overrun_words b = o
}.

Lemma lookup_byte_at (data : list byte) i :
  match data !! N.to_nat i with
  | Some byte => i < len data ∧ data_byte data i = Byte.to_N byte
  | None => len data ≤ i ∧ data_byte data i = 0
  end.
Proof.
  unfold data_byte. destruct (data !! N.to_nat i) as [byte|] eqn:E; cbn.
  - apply lookup_lt_Some in E. unfold len. lia.
  - apply lookup_ge_None in E. unfold len. lia.
Qed.

(** The byte at a position, and the count of words when it is the second of one. *)
Lemma next_byte_run data b :
  lb_data b = data →
  let q := lb_byte_position b in
  let o := lb_overrun_words b + (if (len data <=? q) && N.even (q + 1) then 1 else 0) in
  next_byte b =
    (lb_put_position (q + 1) o b,
     if (len data <=? q) && N.even (q + 1) && (MAX_OVERRUN_WORDS <? o) then Err (Fail CE_DecompressionFailed) else Ok (data_byte data q)).
Proof.
  intros <-. cbv zeta. unfold next_byte. rewrite (M_bind_step get _ b b b) by done.
  pose proof (lookup_byte_at (lb_data b) (lb_byte_position b)) as H.
  destruct (lb_data b !! _) as [byte|]; destruct H as [Hq ->].
  - rewrite (proj2 (N.leb_gt _ _)) by done. cbn [andb]. by rewrite N.add_0_r.
  - rewrite (proj2 (N.leb_le _ _)) by done. cbn [andb]. rewrite (M_bind_step (modify _) _ b _ tt) by done.
    destruct (N.even _); cbn [andb]; rewrite ?N.add_0_r; [|done]. by destruct (_ <? _).
Qed.

(** A word behind the end counts, and the fifth is refused. *)
Lemma fill_word_run data p n w o b :
  filling data p n w o b → n ≤ 16 →
  let o' := o + words_behind data w (w + 1) in
  match fill_word b with
  | (b', Ok _) => (o < o' → o' ≤ MAX_OVERRUN_WORDS) ∧ filling data p (n + 16) (w + 1) o' b'
  | (_, Err e) => e = Fail CE_DecompressionFailed ∧ MAX_OVERRUN_WORDS < o'
  end.
Proof.
  intros [Hd Hq Hw Hn Hbuf Ho] H16 o'. unfold fill_word.
  assert (N.even (2 * w + 1) = false) as Hodd by (rewrite N.add_1_r, N.even_succ, N.odd_mul; done).
  assert (N.even (2 * w + 1 + 1) = true) as Heven by (rewrite <-N.add_assoc, N.even_add, N.even_mul; done).
  pose proof (next_byte_run data b Hd) as E. cbv zeta in E. rewrite Hq, Hodd, !andb_false_r, N.add_0_r in E. cbn [andb] in E.
  rewrite (M_bind_step _ _ _ _ _ E). set (b1 := lb_put_position _ _ b) in *.
  pose proof (next_byte_run data b1 ltac:(by destruct b)) as E1. cbv zeta in E1.
  change (lb_byte_position b1) with (2 * w + 1) in E1. change (lb_overrun_words b1) with (lb_overrun_words b) in E1.
  rewrite Heven, !andb_true_r, Ho in E1.
  assert (o + (if len data <=? 2 * w + 1 then 1 else 0) = o') as Ho'.
  { unfold o', words_behind. pose proof (N.div_mod (len data) 2 ltac:(lia)). pose proof (N.mod_lt (len data) 2 ltac:(lia)).
    revert H H0. generalize (len data / 2) (len data mod 2). clear. intros half r H H0. destruct (N.leb_spec (len data) (2 * w + 1)); lia. }
  rewrite Ho' in E1. destruct ((len data <=? 2 * w + 1) && (MAX_OVERRUN_WORDS <? o')) eqn:Eo.
  { rewrite (M_bind_fail _ _ _ _ _ E1). split; [done|]. apply andb_true_iff in Eo as [_ Eo]. by apply N.ltb_lt. }
  rewrite (M_bind_step _ _ _ _ _ E1). unfold modify. split.
  { intros Hgt. apply andb_false_iff in Eo as [Eo|Eo]; [rewrite Eo in Ho'; lia|by apply N.ltb_ge]. }
  set (b2 := lb_put_position _ _ b1). change (data_byte data (2 * w) + 256 * data_byte data (2 * w + 1)) with (word_at data w).
  change (lb_bits b2) with (lb_bits b). change (lb_buffer b2) with (lb_buffer b). rewrite Hn, Hbuf.
  rewrite wrapping_sub_small by (done || lia). rewrite (N.mod_small (16 - n)) by lia.
  pose proof (word_at_lt data w) as Hlt.
  assert (field_at data p (N.to_nat (n + 16)) = field_at data p (N.to_nat n) * 2 ^ 16 + word_at data w) as Hf.
  { rewrite N2Nat.inj_add, field_app, <-field_word. by rewrite !N2Nat.id, Hw. }
  rewrite (N.mod_small (N.shiftl _ _)).
  2:{ rewrite N.shiftl_mul_pow2. apply N.lt_le_trans with (2 ^ 16 * 2 ^ (16 - n)).
      - apply N.mul_lt_mono_pos_r; [|done]. apply N.neq_0_lt_0. by apply N.pow_nonzero.
      - rewrite <-N.pow_add_r. apply N.pow_le_mono_r; lia. }
  split; cbn; try done; try lia.
  rewrite Hf. replace (32 - n) with (16 + (16 - n)) by lia.
  rewrite N.pow_add_r, N.mul_assoc, <-!N.shiftl_mul_pow2, <-N.shiftl_lor, N.lor_comm, lor_shiftl by done.
  rewrite !N.shiftl_mul_pow2. replace (32 - (n + 16)) with (16 - n) by lia. lia.
Qed.

Lemma words_of_bits p n w : p + n = 16 * w → n < 16 → words_of p = w.
Proof.
  intros E Hn. unfold words_of. replace (p + 15) with (15 - n + w * 16) by lia.
  rewrite N.div_add, N.div_small by lia. lia.
Qed.

Lemma words_of_spec p : 16 * words_of p < p + 16 ∧ p ≤ 16 * words_of p.
Proof. unfold words_of. pose proof (N.div_mod (p + 15) 16 ltac:(lia)). pose proof (N.mod_lt (p + 15) 16 ltac:(lia)) as Hr.
  revert H Hr. generalize ((p + 15) / 16) ((p + 15) mod 16). lia. Qed.

Lemma fill_bits_run data p count turns n w o b :
  filling data p n w o b → count ≤ 17 → n < count + 16 → count ≤ n + N.of_nat turns →
  let o' := o + words_behind data w (words_of (p + count)) in
  match fill_bits turns count b with
  | (b', Ok _) => (o < o' → o' ≤ MAX_OVERRUN_WORDS) ∧ ∃ n', count ≤ n' < count + 16 ∧
      filling data p n' (N.max w (words_of (p + count))) o' b'
  | (_, Err e) => e = Fail CE_DecompressionFailed ∧ MAX_OVERRUN_WORDS < o'
  end.
Proof.
  intros Hb H17. cbv zeta. pose proof (words_of_spec (p + count)) as [Hlo Hhi]. set (stop := words_of (p + count)) in *.
  revert n w o b Hb. induction turns as [|turns IH]; intros n w o b Hb Hn Hturns;
    pose proof (fg_word _ _ _ _ _ _ Hb) as Hw; cbn [fill_bits].
  { assert (stop ≤ w) by lia. replace (words_behind data w stop) with 0 by (unfold words_behind; lia).
    rewrite N.add_0_r, N.max_l by done. split; [lia|]. exists n. split; [lia|done]. }
  rewrite (M_bind_step get _ b b b) by done. rewrite (fg_bits _ _ _ _ _ _ Hb). destruct (N.ltb_spec n count) as [Hlt|Hge].
  2:{ assert (stop ≤ w) by lia. replace (words_behind data w stop) with 0 by (unfold words_behind; lia).
      rewrite N.add_0_r, N.max_l by done. split; [lia|]. exists n. split; [lia|done]. }
  assert (w + 1 ≤ stop) as Hstep by lia.
  pose proof (fill_word_run data p n w o b Hb ltac:(lia)) as H. cbv zeta in H.
  pose proof (words_behind_trans data w (w + 1) stop ltac:(lia) Hstep) as Htrans.
  unfold mbind, M_bind. destruct (fill_word b) as [b1 [[]|e]].
  - destruct H as [Ho1 Hb1]. specialize (IH (n + 16) (w + 1) _ b1 Hb1 ltac:(lia) ltac:(lia)).
    rewrite <-N.add_assoc, Htrans, N.max_r in IH by lia. rewrite N.max_r by lia.
    destruct (fill_bits turns count b1) as [b' [[]|e]].
    + destruct IH as [Ho' IH]. split; [lia|exact IH].
    + exact IH.
  - destruct H as [He Ho]. split; [done|]. lia.
Qed.

(** ** Fields read *)
Section reads.
Context {build : Build} (data : list byte).

(** A method of the reader does what its meaning says. *)
Definition reads {A} (m : BM A) (f : LR A) : Prop :=
  ∀ b c, stands_at data b c → follows m f (λ a a' b' c', a = a' ∧ stands_at data b' c') b c.

Lemma reads_bind {A B} (m : BM A) (k : A → BM B) (f : LR A) (g : A → LR B) :
  reads m f → (∀ a, reads (k a) (g a)) → reads (m ≫= k) (f ≫= g).
Proof.
  intros Hm Hk b c Hb. apply follows_bind. eapply follows_mono; [by apply Hm|].
  intros a a' b' c' [<- Hb']. by apply Hk.
Qed.

Lemma reads_ret {A} (a : A) : reads (mret a) (mret a).
Proof. intros b c Hb. by apply follows_ret. Qed.

(** [read_bits] of up to seventeen bits reads a field, and the assertion holds. *)
Lemma reads_bits count : count ≤ 17 → reads (read_bits count) (take_field data count).
Proof.
  intros H17 b c [Hd Hbits (k & Hk & Hword) Hbuf Ho Hlimit]. unfold follows, take_field, read_bits. cbv zeta.
  pose proof (words_of_bits _ _ _ Hword Hbits) as Hstart. rewrite Hstart.
  destruct (N.eqb_spec count 0) as [->|Hne].
  { rewrite N.add_0_r, Hstart. replace (words_behind data k k) with 0 by (unfold words_behind; lia).
    rewrite N.add_0_r, (proj2 (N.ltb_ge _ _)) by done. exists b, 0. split; [done|]. split; [done|]. split; try done. by exists k. }
  assert (filling data (lc_bit c) (lb_bits b) k (lc_overrun c) b) as Hfill by by split.
  pose proof (fill_bits_run data (lc_bit c) count (N.to_nat count) _ _ _ _ Hfill H17 ltac:(lia) ltac:(lia)) as H. cbv zeta in H.
  assert (fill count b = fill_bits (N.to_nat count) count b) as Efill.
  { unfold fill, debug_assert. rewrite (proj2 (N.leb_le _ _)), andb_false_r by done. done. }
  set (o := lc_overrun c + _) in *. set (p := lc_bit c) in *. set (stop := words_of (p + count)) in *.
  destruct (fill_bits _ _ b) as [b' [[]|e]].
  2:{ destruct H as [-> Ho']. rewrite (proj2 (N.ltb_lt _ _)) by done. exists b', CE_DecompressionFailed.
      apply (M_bind_fail _ _ _ _ _ Efill). }
  rewrite (M_bind_step _ _ _ _ _ Efill). destruct H as [Ho' (n & [Hge Hlt] & [Hd' Hq' Hw' Hn' Hbuf' Ho''])].
  assert (o ≤ MAX_OVERRUN_WORDS) as Hle by (destruct (N.lt_ge_cases (lc_overrun c) o); [by apply Ho'|lia]).
  rewrite (proj2 (N.ltb_ge _ _)) by done. rewrite (M_bind_step get _ b' b' b') by done.
  rewrite (M_bind_step (modify _) _ b' _ tt) by done. eexists _, _. split; [done|].
  rewrite Hn', Hbuf', N.shiftr_div_pow2, N.shiftl_mul_pow2.
  assert (N.to_nat n = (N.to_nat count + N.to_nat (n - count))%nat) as En by lia. rewrite En, field_app, N2Nat.id.
  set (v := field_at data p (N.to_nat count)). pose proof (field_lt data (p + count) (N.to_nat (n - count))) as Hlow.
  pose proof (field_lt data p (N.to_nat count)) as Hv. fold v in Hv.
  rewrite N2Nat.id in *. set (low := field_at data (p + count) _) in *.
  set (half := 2 ^ (n - count)) in *. set (rest := 2 ^ (32 - n)).
  assert (half ≠ 0) as Hhalf by by apply N.pow_nonzero. assert (rest ≠ 0) as Hrest by by apply N.pow_nonzero.
  assert (2 ^ (32 - count) = rest * half) as E1 by (unfold rest, half; rewrite <-N.pow_add_r; f_equal; lia).
  assert (2 ^ 32 = rest * 2 ^ count * half) as E2 by (unfold rest, half; rewrite <-!N.pow_add_r; f_equal; lia).
  assert (2 ^ (32 - (n - count)) = rest * 2 ^ count) as E3 by (unfold rest; rewrite <-N.pow_add_r; f_equal; lia).
  assert (rest * 2 ^ count ≠ 0) as Hshift by by (apply N.neq_mul_0; split; [done|by apply N.pow_nonzero]).
  split.
  { rewrite E1, <-N.Div0.div_div, N.div_mul, N.div_add_l, N.div_small by done. lia. }
  split; cbn; try done; [lia| |].
  - exists (N.max k stop). split; [done|]. lia.
  - rewrite E2, E3. replace ((v * half + low) * rest * 2 ^ count) with (low * (rest * 2 ^ count) + v * (rest * 2 ^ count * half)) by lia.
    rewrite N.Div0.mod_add. apply N.mod_small. rewrite (N.mul_comm _ half). by apply N.mul_lt_mono_pos_r; [apply N.neq_0_lt_0|].
Qed.
End reads.

(** ** Tables *)

Abbreviation code_count lengths l := (len (symbols_of lengths (N.of_nat l))).

Lemma symbols_from_cons n x lengths l :
  symbols_from n (x :: lengths) l = (if x =? l then [N.of_nat n] else []) ++ symbols_from (S n) lengths l.
Proof. unfold symbols_from. cbn. by destruct (x =? l). Qed.

Lemma symbols_from_app n k lengths l :
  symbols_from n (k ++ lengths) l = symbols_from n k l ++ symbols_from (n + length k) lengths l.
Proof.
  revert n. induction k as [|x k IH]; intros n; [by rewrite Nat.add_0_r|].
  cbn [app length]. rewrite !symbols_from_cons, IH, <-app_assoc. do 3 f_equal. lia.
Qed.

Lemma len_symbols_from n m lengths l : len (symbols_from n lengths l) = len (symbols_from m lengths l).
Proof.
  revert n m. induction lengths as [|x lengths IH]; intros n m; [done|].
  rewrite !symbols_from_cons, !len_app, (IH (S n) (S m)). by destruct (x =? l).
Qed.

Lemma symbols_of_snoc pre x l :
  symbols_of (pre ++ [x]) l = symbols_of pre l ++ (if x =? l then [len pre] else []).
Proof. unfold symbols_of. rewrite symbols_from_app, symbols_from_cons. by rewrite app_nil_r. Qed.

Lemma counts_lookup lengths (counts : list N) i :
  foldl (λ counts length, alter N.succ (N.to_nat length) counts) counts lengths !! i =
    (λ n, n + code_count lengths i) <$> counts !! i.
Proof.
  revert counts. induction lengths as [|x lengths IH]; intros counts; cbn [foldl].
  { destruct (counts !! i) as [n|]; [|done]. cbn [fmap option_fmap option_map]. by rewrite N.add_0_r. }
  rewrite IH. unfold symbols_of. rewrite symbols_from_cons, len_app, (len_symbols_from 1 0).
  destruct (N.eqb_spec x (N.of_nat i)) as [->|Hne].
  - rewrite Nat2N.id, list_lookup_alter_eq, <-option_fmap_compose.
    destruct (counts !! i) as [n|]; [|done]. cbn [fmap option_fmap option_map compose]. f_equal. rewrite len_cons, len_nil. lia.
  - by rewrite list_lookup_alter_ne by lia.
Qed.

Lemma length_alters lengths (counts : list N) :
  length (foldl (λ counts length, alter N.succ (N.to_nat length) counts) counts lengths) = length counts.
Proof. revert counts. induction lengths as [|x lengths IH]; intros; cbn; [done|]. by rewrite IH, length_alter. Qed.

Lemma length_counts_eq lengths : length_counts lengths = 0 :: ((λ l, code_count lengths l) <$> seq 1 16).
Proof.
  apply list_eq. intros i. unfold length_counts.
  set (counts := foldl _ _ lengths).
  assert (length counts = 17%nat) as Hl by by unfold counts; rewrite length_alters.
  destruct i as [|i]; [by rewrite list_lookup_insert_eq by lia|]. rewrite list_lookup_insert_ne by done.
  rewrite lookup_cons. rewrite list_lookup_fmap. destruct (decide (i < 16)%nat) as [Hi|Hi].
  - rewrite lookup_seq_lt by done. unfold counts. rewrite counts_lookup.
    rewrite lookup_replicate_2 by (change (N.to_nat (MAX_CODE_BITS + 1)) with 17%nat; lia). done.
  - rewrite !(proj2 (lookup_ge_None _ _)); [done|rewrite length_seq; lia|lia].
Qed.

(** *** Not more codes than fit *)

Fixpoint code_room (left : Z) (counts : list N) : Z :=
  match counts with [] => left | count :: counts => code_room (2 * left - Z.of_N count) counts end.

Lemma code_room_neg left counts : (left < 0)%Z → (code_room left counts < 0)%Z.
Proof. revert left. induction counts as [|count counts IH]; intros left Hl; cbn [code_room]; [done|]. apply IH. lia. Qed.

Lemma oversubscribed_room left counts :
  (0 ≤ left)%Z → oversubscribed left counts = (code_room left counts <? 0)%Z.
Proof.
  revert left. induction counts as [|count counts IH]; intros left Hl; cbn [oversubscribed code_room].
  { symmetry. apply Z.ltb_ge. done. }
  destruct (Z.ltb_spec (2 * left - Z.of_N count) 0) as [Hneg|Hpos]; cbn [orb]; [|by apply IH].
  symmetry. apply Z.ltb_lt. by apply code_room_neg.
Qed.

Lemma code_room_share lengths :
  code_room 1 ((λ l, code_count lengths l) <$> seq 1 16) = (2 ^ 16 - Z.of_N (code_share lengths))%Z.
Proof.
  unfold code_share. cbn [seq fmap list_fmap foldr code_room].
  repeat match goal with |- context [len ?l] => generalize (len l); intros ? end.
  repeat match goal with |- context [2 ^ ?e] => let v := eval vm_compute in (2 ^ e) in change (2 ^ e) with v end.
  change (2 ^ 16)%Z with 65536%Z. lia.
Qed.

(** *** Where the symbols of a length start *)

Fixpoint code_offset (lengths : list N) (l : nat) : N :=
  match l with
  | O => 0
  | S l => code_offset lengths l + (if bool_decide (l = 0%nat) then 0 else code_count lengths l)
  end.

Lemma code_offset_step lengths l l' : (1 ≤ l)%nat → (l < l')%nat → code_offset lengths l + code_count lengths l ≤ code_offset lengths l'.
Proof.
  intros Hl. induction l' as [|l' IH]; [lia|]. intros Hlt. cbn [code_offset].
  destruct (decide (l = l')) as [->|Hne]; [rewrite bool_decide_eq_false_2 by lia; lia|].
  specialize (IH ltac:(lia)). lia.
Qed.

Lemma running_offsets_lookup lengths k n i :
  (1 ≤ k)%nat → (i ≤ n)%nat →
  running_offsets (code_offset lengths k) ((λ l, code_count lengths l) <$> seq k n) !! i = Some (code_offset lengths (k + i)).
Proof.
  revert k i. induction n as [|n IH]; intros k i Hk Hi; cbn [seq fmap list_fmap running_offsets].
  { assert (i = 0%nat) as -> by lia. by rewrite Nat.add_0_r. }
  destruct i as [|i]; [by rewrite Nat.add_0_r|]. rewrite lookup_cons.
  replace (code_offset lengths k + code_count lengths k) with (code_offset lengths (S k)).
  2:{ cbn [code_offset]. by rewrite bool_decide_eq_false_2 by lia. }
  rewrite (IH (S k) i) by lia. do 2 f_equal. lia.
Qed.

Lemma table_offsets_lookup lengths l :
  (1 ≤ l ≤ 17)%nat → table_offsets (length_counts lengths) !! l = Some (code_offset lengths l).
Proof.
  intros Hl. rewrite length_counts_eq. unfold table_offsets. cbn [drop]. destruct l as [|l]; [lia|]. rewrite lookup_cons.
  apply (running_offsets_lookup lengths 1 16 l); lia.
Qed.

Record placed (lengths pre : list N) (s : list N * list N) : Prop := {
  pl_length : len s.1 = code_offset lengths 17;
  pl_cursor l : (1 ≤ l ≤ 16)%nat → s.2 !! l = Some (code_offset lengths l + code_count pre l);
  pl_symbol l j : (1 ≤ l ≤ 16)%nat → j < code_count pre l →
    s.1 !! N.to_nat (code_offset lengths l + j) = symbols_of pre (N.of_nat l) !! N.to_nat j
}.

Lemma code_count_app pre rest l : code_count (pre ++ rest) l = code_count pre l + code_count rest l.
Proof. unfold symbols_of. rewrite symbols_from_app, len_app. f_equal. apply len_symbols_from. Qed.

Lemma place_placed lengths pre x rest s :
  lengths = pre ++ x :: rest → x ≤ 16 → placed lengths pre s → placed lengths (pre ++ [x]) (place s (len pre) x).
Proof.
  intros El Hx [Hlen Hcursor Hsymbol]. destruct s as [symbols cursor]. cbn [fst snd] in *. unfold place.
  assert (Hsnoc : ∀ l : nat, (1 ≤ l)%nat → x ≠ N.of_nat l → symbols_of (pre ++ [x]) (N.of_nat l) = symbols_of pre (N.of_nat l)).
  { intros l Hl Hne. by rewrite symbols_of_snoc, (proj2 (N.eqb_neq _ _)), app_nil_r by done. }
  destruct (N.eqb_spec x 0) as [->|Hx0].
  { split; cbn [fst snd]; [done|intros l Hl; rewrite Hsnoc by lia; by apply Hcursor|].
    intros l j Hl. rewrite Hsnoc by lia. by apply Hsymbol. }
  set (lx := N.to_nat x). assert (1 ≤ lx ≤ 16)%nat as Hlx by lia. assert (x = N.of_nat lx) as Ex by lia.
  pose proof (Hcursor lx Hlx) as Hslot. rewrite (list_lookup_total_correct _ _ _ Hslot).
  assert (symbols_of (pre ++ [x]) (N.of_nat lx) = symbols_of pre (N.of_nat lx) ++ [len pre]) as Hown.
  { rewrite symbols_of_snoc, <-Ex, N.eqb_refl. done. }
  assert (Hroom : code_count pre lx < code_count lengths lx).
  { rewrite El, code_count_app. unfold symbols_of at 3. rewrite symbols_from_cons, <-Ex, N.eqb_refl, len_app, len_cons. lia. }
  assert (Hle : ∀ l, code_count pre l ≤ code_count lengths l) by (intros l; rewrite El, code_count_app; lia).
  pose proof (code_offset_step lengths lx 17 ltac:(lia) ltac:(lia)) as Hend.
  split; cbn [fst snd].
  - unfold len in *. by rewrite length_insert.
  - intros l Hl. destruct (decide (l = lx)) as [->|Hne].
    + rewrite list_lookup_insert_eq by (apply lookup_lt_is_Some; by eexists). rewrite Hown, len_app, len_cons, len_nil. f_equal. lia.
    + rewrite list_lookup_insert_ne by done. rewrite Hsnoc by lia. by apply Hcursor.
  - intros l j Hl Hj. destruct (decide (l = lx)) as [->|Hne].
    + rewrite Hown in *. rewrite len_app, len_cons, len_nil in Hj. destruct (N.eq_dec j (code_count pre lx)) as [->|Hjne].
      * rewrite list_lookup_insert_eq by (unfold len in *; lia). unfold len. by rewrite Nat2N.id, list_lookup_middle.
      * rewrite list_lookup_insert_ne by lia. rewrite Hsymbol by lia. rewrite lookup_app_l; [done|]. unfold len in *. lia.
    + rewrite Hsnoc in * by lia. rewrite list_lookup_insert_ne; [by apply Hsymbol|]. pose proof (Hle l).
      destruct (decide (l < lx)%nat) as [Hlt|Hgt].
      * pose proof (code_offset_step lengths l lx ltac:(lia) Hlt). lia.
      * pose proof (code_offset_step lengths lx l ltac:(lia) ltac:(lia)). lia.
Qed.

Lemma place_all_placed lengths pre rest s :
  lengths = pre ++ rest → Forall (λ x, x ≤ 16) rest → placed lengths pre s → placed lengths lengths (place_all (len pre) rest s).
Proof.
  intros El Hrest. revert pre s El. induction Hrest as [|x rest Hx _ IH]; intros pre s El Hs; cbn [place_all].
  { rewrite app_nil_r in El. by subst. }
  replace (len pre + 1) with (len (pre ++ [x])) by (rewrite len_app, len_cons, len_nil; lia).
  apply IH; [by rewrite <-app_assoc|]. by apply (place_placed lengths pre x rest).
Qed.

(** A table, and the lengths it is built from. *)
Record table_of (lengths : list N) (table : HuffmanTable) : Prop := {
  tb_counts : drop 1 (ht_counts table) = (λ l, code_count lengths l) <$> seq 1 16;
  tb_symbol l j : (1 ≤ l ≤ 16)%nat → j < code_count lengths l →
    ht_symbols table !! N.to_nat (code_offset lengths l + j) = symbols_of lengths (N.of_nat l) !! N.to_nat j
}.

(** [HuffmanTable::new] succeeds on the lengths that code something. *)
Lemma huffman_new_table lengths :
  if lengths_ok lengths then ∃ table, huffman_new lengths = Ok table ∧ table_of lengths table
  else huffman_new lengths = Err CE_DecompressionFailed.
Proof.
  unfold lengths_ok, huffman_new.
  assert (existsb (λ length, MAX_CODE_BITS <? length) lengths = negb (forallb (λ length, length <=? MAX_CODE_BITS) lengths)) as ->.
  { induction lengths as [|x lengths IH]; [done|]. cbn [existsb forallb]. rewrite IH, negb_andb. f_equal. by rewrite N.leb_antisym, negb_involutive. }
  destruct (forallb _ _) eqn:Eall; cbn [negb andb guard_err]; [|done]. cbn [mbind result_bind].
  assert (drop 1 (length_counts lengths) = (λ l, code_count lengths l) <$> seq 1 16) as -> by by rewrite length_counts_eq.
  rewrite oversubscribed_room, code_room_share by done.
  assert ((2 ^ 16 - Z.of_N (code_share lengths) <? 0)%Z = negb (code_share lengths <=? 2 ^ 16)) as ->.
  { change (2 ^ 16)%Z with (Z.of_N (2 ^ 16)). destruct (N.leb_spec (code_share lengths) (2 ^ 16)); cbn [negb]; [apply Z.ltb_ge|apply Z.ltb_lt]; lia. }
  destruct (code_share lengths <=? 2 ^ 16); cbn [negb guard_err mbind result_bind]; [|done]. eexists. split; [done|].
  set (total := table_offsets _ !!! _).
  assert (total = code_offset lengths 17) as Htotal.
  { apply list_lookup_total_correct, table_offsets_lookup. change (N.to_nat (MAX_CODE_BITS + 1)) with 17%nat. lia. }
  assert (Forall (λ x, x ≤ 16) lengths) as H16.
  { apply list.Forall_forall. intros x Hx. apply N.leb_le. by apply (proj1 (forallb_forall _ _) Eall), list_elem_of_In. }
  destruct (place_all_placed lengths [] lengths (replicate (N.to_nat total) 0, table_offsets (length_counts lengths)) eq_refl H16) as [Hl Hc Hs].
  { split; cbn [fst snd].
    - unfold len. rewrite length_replicate, Htotal. lia.
    - intros l Hl. rewrite table_offsets_lookup by lia. cbn. by rewrite N.add_0_r.
    - intros l j _ Hj. change (len (symbols_of [] _)) with 0 in Hj. lia. }
  split; cbn [ht_counts ht_symbols]; [by rewrite length_counts_eq|exact Hs].
Qed.

(** *** Symbols read *)

Lemma first_code_step lengths k : (1 ≤ k)%nat → first_code lengths (S k) = 2 * (first_code lengths k + code_count lengths k).
Proof. intros Hk. cbn [first_code]. by rewrite bool_decide_eq_false_2 by lia. Qed.

Lemma code_offset_next lengths k : (1 ≤ k)%nat → code_offset lengths (S k) = code_offset lengths k + code_count lengths k.
Proof. intros Hk. cbn [code_offset]. by rewrite bool_decide_eq_false_2 by lia. Qed.

Lemma bit_or v bit : bit < 2 → N.lor (2 * v) bit = 2 * v + bit.
Proof.
  intros Hbit. assert (2 * v = N.shiftl v 1) as -> by (rewrite N.shiftl_mul_pow2; change (2 ^ 1) with 2; lia).
  rewrite N.lor_comm, lor_shiftl by done. rewrite N.shiftl_mul_pow2. change (2 ^ 1) with 2. lia.
Qed.

(** The codes of a list of lengths are prefix-free: a longer code does not begin
    with a shorter one. *)
Lemma first_code_behind lengths l l' :
  (1 ≤ l)%nat → (l < l')%nat →
  (first_code lengths l + code_count lengths l) * 2 ^ N.of_nat (l' - l) ≤ first_code lengths l'.
Proof.
  intros Hl Hlt. induction l' as [|l' IH]; [lia|]. destruct (decide (l = l')) as [->|Hne].
  - rewrite first_code_step by lia. replace (N.of_nat (S l' - l')) with 1 by lia. change (2 ^ 1) with 2. lia.
  - specialize (IH ltac:(lia)). rewrite first_code_step by lia.
    replace (N.of_nat (S l' - l)) with (N.succ (N.of_nat (l' - l))) by lia. rewrite N.pow_succ_r'. lia.
Qed.

Lemma codes_prefix_free lengths l l' v w symbol symbol' :
  (1 ≤ l)%nat → (l < l')%nat → w < 2 ^ N.of_nat (l' - l) →
  symbol_of lengths l v = Some symbol → symbol_of lengths l' (v * 2 ^ N.of_nat (l' - l) + w) ≠ Some symbol'.
Proof.
  intros Hl Hlt Hw. unfold symbol_of. destruct (N.leb_spec (first_code lengths l) v) as [Hv|]; [|done].
  intros Hin%lookup_lt_Some. pose proof (first_code_behind lengths l l' Hl Hlt) as Hb.
  destruct (N.leb_spec (first_code lengths l') (v * 2 ^ N.of_nat (l' - l) + w)) as [Hv'|]; [|done].
  assert (v + 1 ≤ first_code lengths l + code_count lengths l) as Hv1 by (unfold len; lia).
  assert ((v + 1) * 2 ^ N.of_nat (l' - l) ≤ first_code lengths l') as H1.
  { etrans; [|exact Hb]. by apply N.mul_le_mono_r. }
  lia.
Qed.

Section symbols.
Context {build : Build} (data : list byte) (lengths : list N) (table : HuffmanTable) (Htable : table_of lengths table).

(** From the code [v] of the first [k] bits, none of which are a code. *)
Lemma decode_from_follows n k v b c ck :
  (k + n = 16)%nat → stands_at data b ck → take_field data (N.of_nat k) c = (ck, Ok v) → first_code lengths (S k) ≤ 2 * v →
  follows (lzx_decode_from ((λ l, code_count lengths l) <$> seq (S k) n) (ht_symbols table) (2 * v) (first_code lengths (S k))
      (code_offset lengths (S k)))
    (λ _, find_code data lengths (seq (S k) n) c) (λ a a' b' c', a = a' ∧ stands_at data b' c') b ck.
Proof.
  revert k v b ck. induction n as [|n IH]; intros k v b ck Hk Hb Ev Hfirst; cbn [seq fmap list_fmap lzx_decode_from find_code].
  { by do 2 eexists. }
  pose proof (take_field_app data (N.of_nat k) 1 c) as Happ. rewrite Ev in Happ.
  replace (N.of_nat k + 1) with (N.of_nat (S k)) in Happ by lia.
  pose proof (reads_bits data 1 ltac:(done) b ck Hb) as Hbit. unfold follows in Hbit |- *.
  assert (Hrun : match take_field data 1 ck with (c1, Ok bit) => bit < 2 | _ => True end).
  { unfold take_field. cbv zeta. destruct (_ <? _); [done|]. apply (field_lt data (lc_bit ck) 1). }
  destruct (take_field data 1 ck) as [c1 [bit|u]] eqn:E1; rewrite Happ.
  2:{ destruct Hbit as (b1 & e & E). exists b1, e. by rewrite (M_bind_fail _ _ _ _ _ E). }
  destruct Hbit as (b1 & bit' & E & <- & Hb1). rewrite (M_bind_step _ _ _ _ _ E), bit_or by done. cbv zeta.
  replace (v * 2 ^ 1 + bit') with (2 * v + bit') by (change (2 ^ 1) with 2; lia). set (code := 2 * v + bit') in *.
  assert (first_code lengths (S k) ≤ code) as Hle by lia.
  unfold checked_sub, symbol_of. rewrite (proj2 (N.leb_le _ _)) by done. cbn [ok_or].
  rewrite (M_bind_step (cab_try (Ok _)) _ b1 b1 (code - first_code lengths (S k))) by done.
  set (delta := code - first_code lengths (S k)).
  destruct (N.ltb_spec delta (code_count lengths (S k))) as [Hin|Hout].
  - rewrite (tb_symbol _ _ Htable) by (done || lia).
    destruct (lookup_lt_is_Some_2 (symbols_of lengths (N.of_nat (S k))) (N.to_nat delta)) as [symbol Es]; [unfold len in Hin; lia|].
    rewrite Es. cbn [ok_or]. by exists b1, symbol.
  - rewrite (proj2 (lookup_ge_None _ _)) by (unfold len in Hout; lia).
    rewrite <-first_code_step, <-code_offset_next by lia.
    assert (take_field data (N.of_nat (S k)) c = (c1, Ok code)) as Ev1.
    { rewrite Happ. unfold code. do 2 f_equal. change (2 ^ 1) with 2. lia. }
    apply (IH (S k) code b1 c1); [lia|done|done|].
    rewrite first_code_step by lia. unfold delta in Hout. lia.
Qed.

(** The symbol [decode] answers is the one whose canonical code comes next. *)
Lemma reads_symbol : reads data (lzx_decode table) (take_symbol data lengths).
Proof.
  intros b c Hb. unfold lzx_decode. rewrite (tb_counts _ _ Htable).
  assert (take_field data (N.of_nat 0) c = (c, Ok 0)) as E.
  { unfold take_field. cbv zeta. change (N.of_nat 0) with 0. rewrite N.add_0_r.
    replace (words_behind data _ _) with 0 by (unfold words_behind; lia).
    rewrite N.add_0_r, (proj2 (N.ltb_ge _ _)) by apply (ac_limit _ _ _ Hb). by destruct c. }
  pose proof (decode_from_follows 16 0 0 b c c eq_refl Hb E (N.le_refl _)) as H. exact H.
Qed.
End symbols.
