(* ===== verification/CabBlocks.v ===== *)
(** * Microsoft cabinets: what an LZX block means

    The blocks, trees and tokens of the LZX format, over the fields and symbols of
    [CabBits.v], and the proof that the decoder of
    [crates/ohl-mscab/src/lzx.rs] decodes every block to what it means. *)

From S2P Require Export CabBits.

(** ** Trees *)

(** What the delta code of a path length makes of the length before. *)
Definition delta_of (previous code : N) : N := (previous + 17 - code) mod 17.

(** A run of path lengths: how many, and the length they get. *)
Definition take_run (data : list byte) (tree : list N) (previous : N) : LR (N * N) :=
  code ← take_symbol data tree;
  if code <=? 16 then mret (1, delta_of previous code)
  else if code =? 17 then more ← take_field data 4; mret (4 + more, 0)
  else if code =? 18 then more ← take_field data 5; mret (20 + more, 0)
  else if code =? 19 then
    more ← take_field data 1;
    code ← take_symbol data tree;
    refuse (16 <? code);;
    mret (4 + more, delta_of previous code)
  else throw tt.

(** A run from [at_] on: where it ends, and the lengths with it. *)
Definition take_turn (data : list byte) (tree : list N) (at_ stop : N) (lengths : list N) : LR (N * list N) :=
  '(run, value) ← take_run data tree (nth (N.to_nat at_) lengths 0);
  refuse (stop <? at_ + run);;
  mret (at_ + run, splice at_ (replicate (N.to_nat run) value) lengths).

(** The path lengths from [at_] up to [stop], in the place of those before. *)
Fixpoint take_runs (data : list byte) (turns : nat) (tree : list N) (at_ stop : N) (lengths : list N) : LR (list N) :=
  if stop <=? at_ then mret lengths
  else
    match turns with
    | O => throw tt
    | S turns => '(at_, lengths) ← take_turn data tree at_ stop lengths; take_runs data turns tree at_ stop lengths
    end.

Fixpoint take_fields (data : list byte) (count : nat) (n : N) : LR (list N) :=
  match count with
  | O => mret []
  | S count => v ← take_field data n; rest ← take_fields data count n; mret (v :: rest)
  end.

(** A pretree of twenty lengths of four bits, and the runs it codes. *)
Definition take_lengths (data : list byte) (start stop : N) (lengths : list N) : LR (list N) :=
  pretree ← take_fields data 20 4;
  refuse (negb (lengths_ok pretree));;
  take_runs data (N.to_nat (stop - start)) pretree start stop lengths.

(** The lengths of the trees; a block changes those of the block before. *)
Record LzxTrees : Type := {
  lt_main : list N;
  lt_length : list N;
  lt_aligned : list N
}.

(** The main tree in two parts, the elements of literals and those of matches. *)
Definition take_trees (data : list byte) (bits : N) (trees : LzxTrees) : LR LzxTrees :=
  main ← take_lengths data 0 256 (lt_main trees);
  main ← take_lengths data 256 (256 + 8 * (2 * bits)) main;
  refuse (negb (lengths_ok main));;
  length ← take_lengths data 0 249 (lt_length trees);
  refuse (negb (lengths_ok length));;
  mret {| lt_main := main; lt_length := length; lt_aligned := lt_aligned trees |}.

(** ** Tokens *)

(** The bits behind a position slot, and the first offset, plus two, of the slot. *)
Definition slot_footer (slot : N) : N := if slot <? 4 then 0 else slot / 2 - 1.
Definition slot_base (slot : N) : N := if slot <? 4 then slot else (2 + slot mod 2) * 2 ^ (slot / 2 - 1).

Abbreviation Offsets := (N * N * N)%type.

(** An offset that is not one of the last three, plus two. *)
Definition take_formatted (data : list byte) (trees : LzxTrees) (type : BlockType) (slot : N) : LR N :=
  let footer := slot_footer slot in
  if bool_decide (type = BT_Aligned) && (3 <? footer) then
    high ← take_field data (footer - 3);
    low ← take_symbol data (lt_aligned trees);
    mret (slot_base slot + 8 * high + low)
  else
    low ← take_field data footer;
    mret (slot_base slot + low).

(** The offset of a slot, and the last three offsets behind it. *)
Definition take_offset (data : list byte) (trees : LzxTrees) (type : BlockType) (slot : N) (recent : Offsets) : LR (N * Offsets) :=
  let '(r0, r1, r2) := recent in
  if slot =? 0 then mret (r0, (r0, r1, r2))
  else if slot =? 1 then mret (r1, (r1, r0, r2))
  else if slot =? 2 then mret (r2, (r2, r1, r0))
  else formatted ← take_formatted data trees type slot; mret (formatted - 2, (formatted - 2, r0, r1)).

(** The length a match element has, most of the time. *)
Definition take_length (data : list byte) (trees : LzxTrees) (symbol : N) : LR N :=
  if symbol mod 8 =? 7 then v ← take_symbol data (lt_length trees); mret (v + 9) else mret (symbol mod 8 + 2).

(** What a match of 257 bytes is longer. *)
Definition take_extra (data : list byte) : LR N :=
  a ← take_field data 1;
  if a =? 0 then take_field data 8
  else
    b ← take_field data 1;
    if b =? 0 then v ← take_field data 10; mret (v + 256)
    else
      c ← take_field data 1;
      if c =? 0 then v ← take_field data 12; mret (v + 1280) else take_field data 15.

Definition take_token (data : list byte) (bits : N) (trees : LzxTrees) (type : BlockType) (recent : Offsets) : LR (LzxToken * Offsets) :=
  element ← take_symbol data (lt_main trees);
  if element <? 256 then mret (LT_Literal (byte_of_N element), recent)
  else
    let symbol := element - 256 in
    length ← take_length data trees symbol;
    refuse (2 * bits <=? symbol / 8);;
    '(offset, recent) ← take_offset data trees type (symbol / 8) recent;
    length ← (if length =? 257 then extra ← take_extra data; mret (257 + extra) else mret length);
    mret (LT_Match length offset, recent).

Definition token_len (token : LzxToken) : N :=
  match token with LT_Literal _ => 1 | LT_Match length _ => length end.
Definition token_reach (token : LzxToken) : N :=
  match token with LT_Literal _ => 0 | LT_Match _ offset => offset end.

(** A token of up to [left] bytes that reaches back into the window: its length,
    and the history and the offsets behind it. *)
Definition take_piece (data : list byte) (bits : N) (trees : LzxTrees) (type : BlockType) (left : N)
    (hist : list byte) (recent : Offsets) : LR (N * (list byte * Offsets)) :=
  '(token, recent) ← take_token data bits trees type recent;
  refuse ((left <? token_len token) || (2 ^ bits <? token_reach token));;
  hist ← lift (ok_or (expand_lzx_token hist token) tt);
  mret (token_len token, (hist, recent)).

(** Tokens of [left] bytes. *)
Fixpoint take_tokens (data : list byte) (bits : N) (trees : LzxTrees) (type : BlockType) (turns : nat) (left : N)
    (hist : list byte) (recent : Offsets) : LR (list byte * Offsets) :=
  if left =? 0 then mret (hist, recent)
  else
    match turns with
    | O => throw tt
    | S turns =>
        '(taken, (hist, recent)) ← take_piece data bits trees type left hist recent;
        take_tokens data bits trees type turns (left - taken) hist recent
    end.

(** ** Blocks *)

(** What is kept from one block of a folder to the next. *)
Record LzxState : Type := {
  ls_history : list byte;
  ls_trees : LzxTrees;
  ls_recent : Offsets;
  ls_type : BlockType;
  ls_left : N;
  ls_calls : option (option N);
  ls_frames : N
}.

(** A folder of a window of [2 ^ bits] bytes begins. *)
Definition lzx_initial (bits : N) : LzxState := {|
  ls_history := [];
  ls_trees := {| lt_main := replicate (N.to_nat (256 + 8 * (2 * bits))) 0; lt_length := replicate 249 0; lt_aligned := [] |};
  ls_recent := (1, 1, 1); ls_type := BT_Verbatim; ls_left := 0; ls_calls := None; ls_frames := 0 |}.

Definition ls_block (trees : LzxTrees) (recent : Offsets) (type : BlockType) (left : N) (st : LzxState) : LzxState :=
  {| ls_history := ls_history st; ls_trees := trees; ls_recent := recent; ls_type := type; ls_left := left;
     ls_calls := ls_calls st; ls_frames := ls_frames st |}.

Definition ls_decoded (hist : list byte) (recent : Offsets) (left : N) (st : LzxState) : LzxState :=
  {| ls_history := hist; ls_trees := ls_trees st; ls_recent := recent; ls_type := ls_type st; ls_left := left;
     ls_calls := ls_calls st; ls_frames := ls_frames st |}.

(** The bytes from the next one on; the fields before them end at a word. *)
Definition take_raw (data : list byte) (n : N) : LR (list byte) := λ c,
  if (lc_bit c mod 16 =? 0) && (lc_bit c / 8 + n <=? len data) then
    ({| lc_bit := lc_bit c + 8 * n; lc_overrun := lc_overrun c |}, Ok (subslice (lc_bit c / 8) n data))
  else (c, Err tt).

(** On to the next word, one whole word at least a bit further. *)
Definition take_padding (data : list byte) : LR unit := λ c,
  match take_field data (16 - lc_bit c mod 16) c with
  | (c', Ok _) => (c', Ok tt)
  | (c', Err u) => (c', Err u)
  end.

Definition take_offset_bytes (data : list byte) : LR N :=
  bytes ← take_raw data 4;
  refuse (of_le_bytes bytes =? 0);;
  mret (of_le_bytes bytes).

Definition take_header (data : list byte) (bits : N) (st : LzxState) : LR LzxState :=
  code ← take_field data 3;
  type ← (match code with 1 => mret BT_Verbatim | 2 => mret BT_Aligned | 3 => mret BT_Uncompressed | _ => throw tt end : LR BlockType);
  size ← take_field data 24;
  match type with
  | BT_Verbatim =>
      trees ← take_trees data bits (ls_trees st);
      mret (ls_block trees (ls_recent st) type size st)
  | BT_Aligned =>
      aligned ← take_fields data 8 3;
      refuse (negb (lengths_ok aligned));;
      trees ← take_trees data bits {| lt_main := lt_main (ls_trees st); lt_length := lt_length (ls_trees st); lt_aligned := aligned |};
      mret (ls_block trees (ls_recent st) type size st)
  | BT_Uncompressed =>
      take_padding data;;
      r0 ← take_offset_bytes data; r1 ← take_offset_bytes data; r2 ← take_offset_bytes data;
      mret (ls_block (ls_trees st) (r0, r1, r2) type size st)
  end.

(** Behind a stored block of an odd size, a byte is skipped. *)
Definition skip_odd : LR unit := modify (λ c,
  {| lc_bit := 16 * words_of (lc_bit c); lc_overrun := lc_overrun c |}).

(** Up to [left] bytes of a block, with its header if it begins here: how many, and what is kept. *)
Definition take_part (data : list byte) (bits left : N) (st : LzxState) : LR (N * LzxState) :=
  st ← (if ls_left st =? 0 then
          st ← take_header data bits st;
          refuse (ls_left st =? 0);;
          mret st
        else mret st);
  let todo := N.min left (ls_left st) in
  '(hist, recent) ←
    match ls_type st with
    | BT_Verbatim | BT_Aligned =>
        take_tokens data bits (ls_trees st) (ls_type st) (N.to_nat todo) todo (ls_history st) (ls_recent st)
    | BT_Uncompressed => bytes ← take_raw data todo; mret (ls_history st ++ bytes, ls_recent st)
    end;
  (if (ls_left st - todo =? 0) && bool_decide (ls_type st = BT_Uncompressed) then skip_odd else mret tt);;
  mret (todo, ls_decoded hist recent (ls_left st - todo) st).

Fixpoint take_parts (data : list byte) (bits : N) (turns : nat) (left : N) (st : LzxState) : LR LzxState :=
  if left =? 0 then mret st
  else
    match turns with
    | O => throw tt
    | S turns => '(made, st) ← take_part data bits left st; take_parts data bits turns (left - made) st
    end.

(** The first block says whether calls were translated, and the size they were translated for. *)
Definition take_start (data : list byte) (st : LzxState) : LR LzxState :=
  match ls_calls st with
  | Some _ => mret st
  | None =>
      bit ← take_field data 1;
      calls ← (if bit =? 1 then high ← take_field data 16; low ← take_field data 16; mret (Some (2 ^ 16 * high + low)) else mret None);
      mret {| ls_history := ls_history st; ls_trees := ls_trees st; ls_recent := ls_recent st; ls_type := ls_type st;
              ls_left := ls_left st; ls_calls := Some calls; ls_frames := ls_frames st |}
  end.

(** [lzx_meaning bits data expected st]: what is kept behind the block [data] of
    [expected] bytes, and the bytes; [None] if it is no such block. *)
Definition lzx_meaning (bits : N) (data : list byte) (expected : N) (st : LzxState) : option (LzxState * list byte) :=
  if FRAME_SIZE <? expected then None
  else if expected =? 0 then Some (st, [])
  else
    match (st ← take_start data st; take_parts data bits (N.to_nat expected) expected st) {| lc_bit := 0; lc_overrun := 0 |} with
    | (_, Ok st') =>
        let frame := drop (length (ls_history st)) (ls_history st') in
        Some ({| ls_history := ls_history st'; ls_trees := ls_trees st'; ls_recent := ls_recent st'; ls_type := ls_type st';
                 ls_left := ls_left st'; ls_calls := ls_calls st'; ls_frames := ls_frames st + 1 |},
              match ls_calls st' with
              | Some (Some size) => if ls_frames st <? E8_FRAME_LIMIT then e8_reverse frame (len (ls_history st)) size else frame
              | _ => frame
              end)
    | (_, Err _) => None
    end.

(** ** Methods of the reader *)
Section readers.
Context {build : Build} (data : list byte).
Abbreviation reads := (CabBits.reads data).

(** What a method does is what another meaning says. *)
Lemma reads_same {A} (m : BM A) (f f' : LR A) :
  reads m f → (∀ c, match f' c, f c with (c1, Ok a), (c2, Ok a') => c1 = c2 ∧ a = a' | (_, Err _), (_, Err _) => True | _, _ => False end) →
  reads m f'.
Proof.
  intros Hm Hsame b c Hb. specialize (Hm b c Hb). specialize (Hsame c). unfold follows in *.
  destruct (f' c) as [c1 [a|]], (f c) as [c2 [a'|]]; try done. by destruct Hsame as [-> ->].
Qed.

Lemma reads_fields count n : n ≤ 17 → reads (read_many count (read_bits n)) (take_fields data count n).
Proof.
  intros Hn. induction count as [|count IH]; cbn [read_many take_fields]; [apply reads_ret|].
  apply reads_bind; [by apply reads_bits|]. intros v. apply reads_bind; [done|]. intros rest. apply reads_ret.
Qed.

Lemma take_field_lt n c : match take_field data n c with (_, Ok v) => v < 2 ^ n | _ => True end.
Proof.
  unfold take_field. cbv zeta. destruct (_ <? _); [done|]. pose proof (field_lt data (lc_bit c) (N.to_nat n)) as H. by rewrite N2Nat.id in H.
Qed.

Lemma take_fields_len count n c c' l : take_fields data count n c = (c', Ok l) → len l = N.of_nat count.
Proof.
  revert c c' l. induction count as [|count IH]; intros c c' l; cbn [take_fields]; [by intros [= _ <-]|].
  intros (c1 & v & _ & H)%M_bind_Ok. apply M_bind_Ok in H as (c2 & rest & Hrest & [= <- <-]). rewrite len_cons, (IH _ _ _ Hrest). lia.
Qed.

Lemma reads_u24 : reads read_u24 (take_field data 24).
Proof.
  eapply reads_same.
  { unfold read_u24. apply reads_bind; [by apply reads_bits|]. intros high. apply reads_bind; [by apply reads_bits|].
    intros middle. apply reads_bind; [by apply reads_bits|]. intros low. apply reads_ret. }
  intros c. pose proof (take_field_app data 8 16 c) as H1. unfold mbind, M_bind. change (8 + 16) with 24 in H1.
  destruct (take_field data 8 c) as [c1 [high|u]]; [|by rewrite H1]. rewrite H1. clear H1.
  pose proof (take_field_app data 8 8 c1) as H2. change (8 + 8) with 16 in H2. pose proof (take_field_lt 8 c1) as Hm.
  destruct (take_field data 8 c1) as [c2 [middle|u]]; [|by rewrite H2]. rewrite H2. clear H2.
  pose proof (take_field_lt 8 c2) as Hl. destruct (take_field data 8 c2) as [c3 [low|u]]; [|done]. split; [done|].
  rewrite (N.lor_comm (N.shiftl high 16)), N.lor_comm.
  assert (N.lor (N.shiftl middle 8) (N.shiftl high 16) = N.shiftl (middle + 2 ^ 8 * high) 8) as ->.
  { replace (N.shiftl high 16) with (N.shiftl (N.shiftl high 8) 8) by by rewrite N.shiftl_shiftl.
    rewrite <-N.shiftl_lor, lor_shiftl by done. done. }
  rewrite lor_shiftl by done. change (2 ^ 16) with (2 ^ 8 * 2 ^ 8). lia.
Qed.

(** A step of the reader, next to something else. *)
Lemma follows_reader {X A A' B'} (m : BM A) (f : LR A) (k : A → M (X * LzxBits) (Stop CabinetError) A') (g : A → LR B') Q (x : X) b c :
  reads m f → stands_at data b c → (∀ a b' c', stands_at data b' c' → f c = (c', Ok a) → follows (k a) (g a) Q (x, b') c') →
  follows (zoom snd (λ b s, (s.1, b)) m ≫= k) (f ≫= g) Q (x, b) c.
Proof.
  intros Hm Hb Hk. apply follows_bind, follows_zoom. specialize (Hm b c Hb). unfold follows at 1 in Hm. unfold follows at 1.
  destruct (f c) as [c' [a|u]] eqn:E; [|exact Hm]. destruct Hm as (b' & a' & Ea & <- & Hb'). exists b', a'. split; [done|]. by apply Hk.
Qed.

Lemma field_bound n c c' v : take_field data n c = (c', Ok v) → v < 2 ^ n.
Proof. intros E. pose proof (take_field_lt n c) as H. by rewrite E in H. Qed.

(** Building a table. *)
Lemma follows_table {S T A B} lengths (k : HuffmanTable → M S (Stop CabinetError) A) (g : M T unit B) Q s t :
  (∀ table, table_of lengths table → follows (k table) g Q s t) →
  follows (cab_try (huffman_new lengths) ≫= k) (refuse (negb (lengths_ok lengths));; g) Q s t.
Proof.
  intros Hk. pose proof (huffman_new_table lengths) as H. apply follows_try. destruct (lengths_ok lengths); cbn [negb].
  - destruct H as (table & -> & Htable). exists table. split; [done|by apply Hk].
  - rewrite H. by eexists.
Qed.

(** ** Path lengths *)

Lemma index_run {S A} (l : list A) d i (s : S) : i < len l → index l i s = (s, Ok (nth (N.to_nat i) l d)).
Proof.
  intros Hi. unfold index. destruct (lookup_lt_is_Some_2 l (N.to_nat i)) as [a Ha]; [unfold len in Hi; lia|].
  rewrite Ha. cbn [ok_or]. by rewrite (nth_lookup_Some _ _ d _ Ha).
Qed.

Lemma insert_splice {A} at_ (v : A) (l : list A) : at_ < len l → <[N.to_nat at_ := v]> l = splice at_ [v] l.
Proof. intros Hi. unfold splice. cbn [length app]. rewrite insert_take_drop by (unfold len in Hi; lia). do 2 f_equal. by rewrite Nat.add_1_r. Qed.

Lemma delta_same previous code : code ≤ 16 → delta_length previous code = delta_of previous code.
Proof.
  intros Hc. unfold delta_length, delta_of. replace (Z.of_N previous - Z.of_N code + 17)%Z with (Z.of_N (previous + 17 - code)) by lia.
  change 17%Z with (Z.of_N 17). by rewrite <-N2Z.inj_rem, N2Z.id.
Qed.

Lemma fill_run_follows at_ stop run value (l : list N) b c Q :
  stop ≤ 2 ^ 32 → at_ < stop → run ≤ 64 →
  (at_ + run ≤ stop → Q (at_ + run) (at_ + run, splice at_ (replicate (N.to_nat run) value) l) (splice at_ (replicate (N.to_nat run) value) l, b) c) →
  follows (fill_run at_ stop run value)
    (refuse (stop <? at_ + run);; mret (at_ + run, splice at_ (replicate (N.to_nat run) value) l) : LR (N * list N)) Q (l, b) c.
Proof.
  intros Hs Ha Hr HQ. unfold fill_run.
  rewrite (proj2 (checked_add_Some 64 at_ run (at_ + run))) by (split; [change (2 ^ 64) with (2 ^ 32 * 2 ^ 32); lia|done]). cbn [ok_or].
  eapply follows_left; [done|]. apply follows_reject; [done|]. intros Hin%N.ltb_ge.
  eapply follows_left; [done|]. apply follows_ret. by apply HQ.
Qed.

Definition turned (n : N) (next : N) (r : N * list N) (s : list N * LzxBits) (c : LzxCursor) : Prop :=
  next = r.1 ∧ s.1 = r.2 ∧ len s.1 = n ∧ stands_at data s.2 c.

Lemma len_splice_run at_ run value (l : list N) : at_ + run ≤ len l → len (splice at_ (replicate (N.to_nat run) value) l) = len l.
Proof. intros H. unfold len. rewrite length_splice; [done|]. unfold len at 1. rewrite length_replicate. lia. Qed.

Lemma lengths_turn_follows tree table at_ stop l b c :
  table_of tree table → stop ≤ 2 ^ 32 → at_ < stop → stop ≤ len l → stands_at data b c →
  follows (lengths_turn table stop at_) (take_turn data tree at_ stop l)
    (λ next r s c', at_ < next ∧ turned (len l) next r s c') (l, b) c.
Proof.
  intros Ht Hs Ha Hl Hb. unfold lengths_turn, take_turn, take_run.
  assert (Hfill : ∀ run value b' c', 0 < run → run ≤ 64 → stands_at data b' c' →
    follows (fill_run at_ stop run value)
      (refuse (stop <? at_ + run);; mret (at_ + run, splice at_ (replicate (N.to_nat run) value) l) : LR (N * list N))
      (λ next r s c', at_ < next ∧ turned (len l) next r s c') (l, b') c').
  { intros run value b' c' Hpos Hr Hb'. apply fill_run_follows; [done..|]. intros Hin. split; [lia|].
    split; [done|]. split; [done|]. split; [|done]. cbn [fst]. apply len_splice_run. lia. }
  apply follows_assoc, follows_reader; [by apply reads_symbol|done|]. intros code b1 c1 Hb1 _.
  destruct (N.leb_spec code 16) as [Hcode|_].
  { eapply follows_left; [done|]. cbn [fst]. eapply follows_left; [by apply (index_run _ 0); lia|].
    eapply (follows_left _ _ _ _ _ _ (splice at_ [delta_of (nth (N.to_nat at_) l 0) code] l, b1)).
    { unfold modify. cbn [fst snd]. by rewrite insert_splice, delta_same by (done || lia). }
    eapply follows_right; [done|]. cbn [fst snd]. rewrite (proj2 (N.ltb_ge _ _)) by lia. eapply follows_right; [done|].
    apply follows_ret. split; [lia|]. split; [done|]. split; [done|]. split; [|done]. cbn [fst].
    apply (len_splice_run at_ 1). lia. }
  destruct (code =? 17).
  { apply follows_assoc, follows_reader; [by apply reads_bits|done|]. intros more b2 c2 Hb2 Hmore%field_bound.
    eapply follows_right; [done|]. apply Hfill; [lia|change (2 ^ 4) with 16 in Hmore; lia|done]. }
  destruct (code =? 18).
  { apply follows_assoc, follows_reader; [by apply reads_bits|done|]. intros more b2 c2 Hb2 Hmore%field_bound.
    eapply follows_right; [done|]. apply Hfill; [lia|change (2 ^ 5) with 32 in Hmore; lia|done]. }
  destruct (code =? 19); [|by do 2 eexists].
  apply follows_assoc, follows_reader; [by apply reads_bits|done|]. intros more b2 c2 Hb2 Hmore%field_bound.
  apply follows_assoc, follows_reader; [by apply reads_symbol|done|]. intros code' b3 c3 Hb3 _.
  apply follows_assoc, follows_reject; [done|]. intros Hcode%N.ltb_ge.
  eapply follows_left; [done|]. cbn [fst]. eapply follows_left; [by apply (index_run _ 0); lia|].
  eapply follows_right; [done|]. rewrite delta_same by done. apply Hfill; [lia|change (2 ^ 1) with 2 in Hmore; lia|done].
Qed.

Definition kept (n : N) (l' : list N) (s : list N * LzxBits) (c : LzxCursor) : Prop :=
  s.1 = l' ∧ len s.1 = n ∧ stands_at data s.2 c.

Lemma lengths_loop_follows tree table turns at_ stop l b c :
  table_of tree table → stop ≤ 2 ^ 32 → stop ≤ len l → stop ≤ at_ + N.of_nat turns → stands_at data b c →
  follows (lengths_loop turns table at_ stop) (take_runs data turns tree at_ stop l) (λ _, kept (len l)) (l, b) c.
Proof.
  intros Ht Hs. revert at_ l b c. induction turns as [|turns IH]; intros at_ l b c Hl Hturns Hb; cbn [lengths_loop take_runs].
  { rewrite (proj2 (N.leb_le _ _)) by lia. by apply follows_ret. }
  destruct (N.leb_spec stop at_) as [|Ha]; [by apply follows_ret|]. apply follows_bind.
  eapply follows_mono; [by apply lengths_turn_follows|]. intros next [next' l'] [l1 b1] c1 (Hnext & E & El & Hlen & Hb1).
  cbn [fst snd] in *. subst next' l1. rewrite <-Hlen. apply IH; [lia|lia|done].
Qed.

Lemma read_lengths_follows start stop l b c :
  stop ≤ 2 ^ 32 → stop ≤ len l → stands_at data b c →
  follows (read_lengths start stop) (take_lengths data start stop l) (λ _, kept (len l)) (l, b) c.
Proof.
  intros Hs Hl Hb. unfold read_lengths, take_lengths. apply follows_reader; [by apply reads_fields|done|].
  intros pretree b1 c1 Hb1 _. apply follows_table. intros table Ht. by apply lengths_loop_follows; [..|lia|].
Qed.
End readers.

(** ** Position slots *)

Lemma slots_from_lookup count count' slot position i :
  (i < count)%nat → (i < count')%nat → slots_from count slot position !! i = slots_from count' slot position !! i.
Proof.
  revert count count' slot position. induction i as [|i IH]; intros [|count] [|count'] slot position; try lia; cbn [slots_from]; [done|].
  intros H H'. rewrite !lookup_cons. apply IH; lia.
Qed.

Lemma slots_checked :
  forallb (λ i, bool_decide (slots_from 42 0 0 !! i = Some (slot_base (N.of_nat i), slot_footer (N.of_nat i)))) (seq 0 42) = true.
Proof. by vm_compute. Qed.

(** The tables hold the base and the footer of every slot. *)
Lemma slot_tables_lookup slots slot :
  slots ≤ 42 → slot < slots →
  (slot_tables slots).1 !! N.to_nat slot = Some (slot_base slot) ∧ (slot_tables slots).2 !! N.to_nat slot = Some (slot_footer slot).
Proof.
  intros Hs Hi. unfold slot_tables. cbn [fst snd]. rewrite !list_lookup_fmap, (slots_from_lookup _ 42) by lia.
  pose proof (proj1 (forallb_forall _ _) slots_checked (N.to_nat slot) ltac:(apply in_seq; lia)) as H%bool_decide_eq_true.
  by rewrite H, N2Nat.id.
Qed.

Lemma slot_footer_le slot : slot < 38 → slot_footer slot ≤ 17.
Proof.
  intros Hs. unfold slot_footer. destruct (slot <? 4); [lia|]. assert (slot / 2 ≤ 18) as H; [|lia].
  apply N.lt_succ_r, N.Div0.div_lt_upper_bound. lia.
Qed.

Lemma slot_base_range slot : 3 ≤ slot → slot < 38 → 3 ≤ slot_base slot < 2 ^ 20.
Proof.
  intros Hlo Hhi. assert (forallb (λ i, (3 <=? slot_base (N.of_nat i)) && (slot_base (N.of_nat i) <? 2 ^ 20)) (seq 3 35) = true) as H by by vm_compute.
  pose proof (proj1 (forallb_forall _ _) H (N.to_nat slot) ltac:(apply in_seq; lia)) as [H1 H2]%andb_true_iff.
  rewrite N2Nat.id in *. by apply N.leb_le in H1; apply N.ltb_lt in H2.
Qed.

(** A symbol is one of the lengths'. *)
Lemma symbols_from_lt n lengths l symbol : symbol ∈ symbols_from n lengths l → symbol < N.of_nat n + len lengths.
Proof.
  revert n. induction lengths as [|x lengths IH]; intros n; [by intros H%elem_of_nil|].
  rewrite symbols_from_cons, len_cons. intros [Hin|Hin]%elem_of_app.
  - destruct (x =? l); [|by apply elem_of_nil in Hin]. apply list_elem_of_singleton in Hin as ->. lia.
  - specialize (IH _ Hin). lia.
Qed.

Section tokens.
Context {build : Build} (data : list byte) (bits : N) (Hbits : bits ≤ 19).
Abbreviation reads := (CabBits.reads data).

Lemma take_symbol_lt lengths c c' symbol : take_symbol data lengths c = (c', Ok symbol) → symbol < len lengths.
Proof.
  unfold take_symbol. induction (seq 1 16) as [|l ls IH]; cbn [find_code]; [done|].
  destruct (take_field data (N.of_nat l) c) as [c1 [v|u]]; [|done].
  destruct (symbol_of lengths l v) as [symbol'|] eqn:E; [|exact IH]. intros [= _ <-].
  unfold symbol_of in E. destruct (_ <=? _); [|done]. apply list_elem_of_lookup_2 in E. by apply symbols_from_lt in E.
Qed.

Lemma reads_if {A} (c : bool) (m m' : BM A) f f' : reads m f → reads m' f' → reads (if c then m else m') (if c then f else f').
Proof. by destruct c. Qed.

Lemma reads_bind_known {A B} (m : BM A) (k : A → BM B) f g :
  reads m f → (∀ a c c', f c = (c', Ok a) → reads (k a) (g a)) → reads (m ≫= k) (f ≫= g).
Proof.
  intros Hm Hk b c Hb. apply follows_bind. specialize (Hm b c Hb). unfold follows at 1 in Hm. unfold follows at 1.
  destruct (f c) as [c' [a|u]] eqn:E; [|exact Hm]. destruct Hm as (b' & a' & Ea & <- & Hb'). exists b', a'. split; [done|].
  by apply (Hk _ _ _ E).
Qed.

Lemma reads_left {A B} (m : BM A) (k : A → BM B) f a : (∀ b, m b = (b, Ok a)) → reads (k a) f → reads (m ≫= k) f.
Proof. intros Hm Hk b c Hb. eapply follows_left; [apply Hm|by apply Hk]. Qed.

Lemma reads_extra : reads extra_length (take_extra data).
Proof.
  unfold extra_length, take_extra. apply reads_bind; [by apply reads_bits|]. intros a.
  destruct (a =? 0); cbn [negb]; [by apply reads_bits|]. apply reads_bind; [by apply reads_bits|]. intros b.
  destruct (b =? 0); cbn [negb].
  { apply reads_bind; [by apply reads_bits|]. intros v. apply reads_ret. }
  apply reads_bind; [by apply reads_bits|]. intros c. destruct (c =? 0); cbn [negb]; [|by apply reads_bits].
  apply reads_bind; [by apply reads_bits|]. intros v. rewrite <-N.add_assoc. apply reads_ret.
Qed.

(** The trees of a block of tokens, and the tables the decoder has of them. *)
Record tables_of (trees : LzxTrees) (type : BlockType) (main : HuffmanTable) (length aligned : option HuffmanTable) : Prop := {
  to_main : table_of (lt_main trees) main;
  to_length : ∃ table, length = Some table ∧ table_of (lt_length trees) table;
  to_aligned : type = BT_Aligned → ∃ table, aligned = Some table ∧ table_of (lt_aligned trees) table ∧ len (lt_aligned trees) = 8
}.

Context (trees : LzxTrees) (type : BlockType) (main : HuffmanTable) (length_ aligned : option HuffmanTable).
Context (Htables : tables_of trees type main length_ aligned).

Lemma reads_length symbol : reads (match_length_of (N.land symbol 7) length_) (take_length data trees symbol).
Proof.
  unfold match_length_of, take_length. change 7 with (N.ones 3). rewrite N.land_ones. change (2 ^ 3) with 8. change (N.ones 3) with 7.
  destruct (to_length _ _ _ _ _ Htables) as (table & -> & Ht). apply reads_if; [|apply reads_ret].
  intros b c Hb. eapply follows_left; [done|]. revert b c Hb. apply reads_bind; [by apply reads_symbol|]. intros v.
  rewrite <-N.add_assoc. apply reads_ret.
Qed.

Lemma take_length_two symbol c c' v : take_length data trees symbol c = (c', Ok v) → 2 ≤ v.
Proof.
  unfold take_length. destruct (_ =? 7).
  - intros (c1 & v' & _ & [= _ <-])%M_bind_Ok. lia.
  - intros [= _ <-]. apply N.le_add_l.
Qed.

Lemma reads_formatted slot :
  3 ≤ slot → slot < 38 →
  reads (formatted_offset type (slot_base slot) (slot_footer slot) aligned) (take_formatted data trees type slot).
Proof.
  intros Hlo Hhi. pose proof (slot_footer_le slot Hhi) as Hf. pose proof (slot_base_range slot Hlo Hhi) as [_ Hbase].
  unfold formatted_offset, take_formatted. cbv zeta.
  assert (Hadd : ∀ a b, a < 2 ^ 21 → b < 2 ^ 21 → checked_add 32 a b = Some (a + b)).
  { intros a b Ha Hb. apply checked_add_Some. split; [|done]. change (2 ^ 32) with (2 ^ 11 * 2 ^ 21). lia. }
  assert (Hplain : reads (verbatim ← read_bits (slot_footer slot);
      cab_try (ok_or (checked_add 32 (slot_base slot) verbatim) CE_DecompressionFailed))
    (low ← take_field data (slot_footer slot); mret (slot_base slot + low))).
  { apply reads_bind_known; [by apply reads_bits; lia|]. intros low c c' Hlow%field_bound. rewrite Hadd; [apply reads_ret|..].
    - eapply N.lt_trans; [exact Hbase|done].
    - eapply N.lt_le_trans; [exact Hlow|]. apply N.pow_le_mono_r; lia. }
  destruct (bool_decide_reflect (type = BT_Aligned)) as [Etype|]; cbn [andb].
  - destruct (N.ltb_spec 3 (slot_footer slot)) as [H3|_].
    + destruct (to_aligned _ _ _ _ _ Htables Etype) as (table & -> & Ht & H8).
      apply reads_bind_known; [by apply reads_bits; lia|]. intros high c c' Hhigh%field_bound.
      apply reads_left with (a := table); [done|]. apply reads_bind_known; [by apply reads_symbol|].
      intros low c1 c1' Hlow%take_symbol_lt. rewrite H8 in Hlow.
      assert (high < 2 ^ 14) as H14 by (eapply N.lt_le_trans; [exact Hhigh|]; apply N.pow_le_mono_r; lia).
      rewrite N.shiftl_mul_pow2. change (2 ^ 3) with 8. change (2 ^ 14) with 16384 in H14. change (2 ^ 21) with 2097152 in Hadd.
      change (2 ^ 20) with 1048576 in Hbase. rewrite Hadd by lia. cbn [mbind option_bind].
      rewrite Hadd by lia. rewrite (N.mul_comm high). apply reads_ret.
    + apply Hplain.
  - apply Hplain.
Qed.

Lemma take_formatted_base slot c c' v : take_formatted data trees type slot c = (c', Ok v) → slot_base slot ≤ v.
Proof.
  unfold take_formatted. cbv zeta. destruct (_ && _).
  - intros (c1 & high & _ & H)%M_bind_Ok. apply M_bind_Ok in H as (c2 & low & _ & [= _ <-]). lia.
  - intros (c1 & low & _ & [= _ <-])%M_bind_Ok. lia.
Qed.

(** *** The decoder between two tokens *)

(** What tokens leave alone. *)
Definition unmoved (d : LzxDecoder) :=
  (lz_base_position d, lz_footer_bits d, lz_main_lengths d, lz_length_lengths d,
   (lz_main_table d, lz_length_table d, lz_aligned_table d, lz_block_type d, lz_block_remaining d),
   (lz_header_read d, lz_e8_translation d, lz_e8_file_size d, lz_frames_done d)).

(** Pushing bytes moves neither these nor the repeated offsets. *)
Definition same_rest (s s' : LzxDecoder * LzxBits) : Prop :=
  unmoved s'.1 = unmoved s.1 ∧ lz_repeated s'.1 = lz_repeated s.1.

#[local] Instance same_rest_preorder : PreOrder same_rest.
Proof. split; [by intros s|]. intros s1 s2 s3 [? ?] [? ?]. split; congruence. Qed.

Lemma push_byte_rest byte : keeps same_rest (push_byte byte).
Proof. unfold push_byte, on_lzx. repeat keeps_step. by destruct s as [[] ?]. Qed.

Lemma push_bytes_rest bytes : keeps same_rest (push_bytes bytes).
Proof. induction bytes as [|byte bytes IH]; cbn [push_bytes]; repeat keeps_step; [apply push_byte_rest|done]. Qed.

Lemma push_match_rest length offset : keeps same_rest (push_match length offset).
Proof. induction length as [|length IH]; cbn [push_match]; unfold index; repeat keeps_step; [apply push_byte_rest|done]. Qed.

(** In the middle of the block that [d0] began: the history and the offsets so far. *)
Record coding (d0 d : LzxDecoder) (hist : list byte) (recent : Offsets) : Prop := {
  cg_holds : lzx_holds bits d hist;
  cg_unmoved : unmoved d = unmoved d0;
  cg_recent : lz_repeated d = recent
}.

Definition at_token (d0 : LzxDecoder) (r : list byte * Offsets) (s : LzxDecoder * LzxBits) (c : LzxCursor) : Prop :=
  coding d0 s.1 r.1 r.2 ∧ stands_at data s.2 c.

Lemma coding_pushed d0 d d' hist hist' recent b :
  coding d0 d hist recent → lzx_holds bits d' hist' → same_rest (d, b) (d', b) → coding d0 d' hist' recent.
Proof. intros [_ Hu Hr] Hd' [Hu' Hr']. cbn [fst] in *. split; [done|congruence|congruence]. Qed.

Context (d0 : LzxDecoder) (Hslots : (lz_base_position d0, lz_footer_bits d0) = slot_tables (2 * bits)) (Htype : lz_block_type d0 = type).

Lemma offset_follows d hist recent slot b c :
  coding d0 d hist recent → slot < 2 * bits → stands_at data b c →
  follows (match_offset_of slot aligned) (take_offset data trees type slot recent)
    (λ offset r s c', offset = r.1 ∧ at_token d0 (hist, r.2) s c') (d, b) c.
Proof.
  intros Hd Hslot Hb. unfold match_offset_of, take_offset. pose proof (cg_recent _ _ _ _ Hd) as Er. 
  eapply follows_left; [done|]. cbv zeta. cbn [fst]. rewrite Er. destruct recent as [[r0 r1] r2].
  assert (Hrep : ∀ r offset b' c', stands_at data b' c' →
    follows (on_lzx (lz_put_repeated r);; mret offset) (mret (offset, r) : LR (N * Offsets))
      (λ offset r s c', offset = r.1 ∧ at_token d0 (hist, r.2) s c') (d, b') c').
  { intros r offset b' c' Hb'. eapply follows_left; [done|]. apply follows_ret. split; [done|]. split; [|done]. cbn [fst snd].
    destruct Hd as [Hh Hu _]. split; [by apply holds_repeated|by destruct d|by destruct d]. }
  destruct (N.eqb_spec slot 0); [apply follows_ret; split; [done|]; by split|].
  destruct (N.eqb_spec slot 1); [by apply Hrep|]. destruct (N.eqb_spec slot 2); [by apply Hrep|].
  pose proof (slot_tables_lookup (2 * bits) slot ltac:(lia) Hslot) as [Hbase Hfooter]. rewrite <-Hslots in Hbase, Hfooter. cbn [fst snd] in Hbase, Hfooter.
  pose proof (cg_unmoved _ _ _ _ Hd) as Hu. unfold unmoved in Hu. injection Hu as Eb Ef _ _ _ _ _ Et _ _ _ _ _. rewrite Eb, Ef, Et, Htype.
  eapply follows_left; [unfold index; by rewrite Hfooter|]. eapply follows_left; [unfold index; by rewrite Hbase|].
  apply (follows_reader data); [by apply reads_formatted; lia|done|]. intros formatted b1 c1 Hb1 Hf.
  assert (2 ≤ formatted) as Hge.
  { pose proof (slot_base_range slot ltac:(lia) ltac:(lia)) as [H3 _]. pose proof (take_formatted_base slot _ _ _ Hf). lia. }
  rewrite (proj2 (checked_sub_Some formatted 2 (formatted - 2))) by done. cbn [ok_or].
  eapply follows_left; [done|]. by apply Hrep.
Qed.

Lemma copied_refused n offset hist : (0 < n)%nat → offset = 0 ∨ len hist < offset → copied n offset hist = None.
Proof.
  intros Hn Ho. destruct n as [|n]; [lia|]. cbn [copied].
  destruct (N.leb_spec 1 offset), (N.leb_spec offset (len hist)); cbn [andb]; done || lia.
Qed.

(** A match of the right length either copies from the history or is refused. *)
Lemma match_follows d hist recent length offset left b c :
  coding d0 d hist recent → stands_at data b c → 2 ≤ length →
  follows
    (cab_reject (left <? length) CE_DecompressionFailed;;
     s ← get;
     cab_reject ((offset =? 0) || (len (lz_window s.1) <? offset) || (lz_output_total s.1 <? offset)) CE_DecompressionFailed;;
     push_match (N.to_nat length) offset;;
     mret length)
    (refuse ((left <? length) || (2 ^ bits <? offset));;
     hist ← lift (ok_or (expand_lzx_token hist (LT_Match length offset)) tt);
     mret (length, (hist, recent)) : LR (N * (list byte * Offsets)))
    (λ taken r s c', taken = r.1 ∧ 0 < taken ≤ left ∧ at_token d0 r.2 s c') (d, b) c.
Proof.
  intros Hd Hb Hlen. pose proof (cg_holds _ _ _ _ Hd) as Hh. cbn [expand_lzx_token].
  destruct (N.ltb_spec left length) as [|Hfit]; cbn [orb]; [by do 2 eexists|]. eapply follows_left; [done|].
  eapply follows_left; [done|]. cbn [fst]. rewrite (lh_window _ _ _ Hh), (lh_total _ _ _ Hh).
  destruct (N.ltb_spec (2 ^ bits) offset) as [|Hwin]; [rewrite orb_true_r; by do 2 eexists|]. rewrite orb_false_r.
  eapply follows_right; [done|]. destruct ((offset =? 0) || (len hist <? offset)) eqn:Eoff.
  { rewrite copied_refused; [by do 2 eexists|lia|]. apply orb_true_iff in Eoff as [E%N.eqb_eq|E%N.ltb_lt]; auto. }
  apply orb_false_iff in Eoff as [Hne%N.eqb_neq Hback%N.ltb_ge]. eapply follows_left; [done|].
  destruct (push_match_run bits (N.to_nat length) offset d b hist Hh ltac:(lia) Hwin Hback) as (d' & new & E & Hc & _ & Hd' & _).
  pose proof (push_match_rest (N.to_nat length) offset (d, b)) as Hrest. rewrite E in Hrest.
  rewrite Hc. eapply follows_left; [exact E|]. eapply follows_right; [done|]. apply follows_ret. split; [done|]. split; [lia|].
  split; [|done]. by eapply coding_pushed.
Qed.

Lemma token_follows d hist recent left b c :
  coding d0 d hist recent → stands_at data b c → 0 < left →
  follows (lzx_token left main length_ aligned) (take_piece data bits trees type left hist recent)
    (λ taken r s c', taken = r.1 ∧ 0 < taken ≤ left ∧ at_token d0 r.2 s c') (d, b) c.
Proof.
  intros Hd Hb Hleft. unfold lzx_token, take_piece, take_token. apply follows_assoc, (follows_reader data).
  { apply reads_symbol, (to_main _ _ _ _ _ Htables). } { done. }
  intros element b1 c1 Hb1 _. change NUM_CHARS with 256. destruct (element <? 256).
  { eapply follows_right; [done|]. cbv beta iota. cbn [token_len token_reach expand_lzx_token].
    rewrite (proj2 (N.ltb_ge left 1)), (proj2 (N.ltb_ge _ 0)) by lia. eapply follows_right; [done|]. eapply follows_right; [done|].
    destruct (push_byte_run bits d b1 hist (byte_of_N element) (cg_holds _ _ _ _ Hd)) as (d' & E & Hd' & _).
    pose proof (push_byte_rest (byte_of_N element) (d, b1)) as Hrest. rewrite E in Hrest.
    eapply follows_left; [exact E|]. apply follows_ret. split; [done|]. split; [lia|]. split; [|done]. by eapply coding_pushed. }
  cbv zeta. apply follows_assoc, (follows_reader data); [apply reads_length|done|]. intros length b2 c2 Hb2 Htwo%take_length_two.
  eapply follows_left; [done|]. cbn [fst]. rewrite (lh_slots _ _ _ (cg_holds _ _ _ _ Hd)), N.shiftr_div_pow2. change (2 ^ 3) with 8.
  apply follows_assoc, follows_reject; [done|]. intros Hslot%N.leb_gt.
  apply follows_assoc, follows_bind. eapply follows_mono; [by apply (offset_follows d hist recent)|].
  intros offset [offset' recent'] [d3 b3] c3 [-> [Hd3 Hb3]]. cbn [fst snd] in *.
  destruct (length =? 257).
  - apply follows_assoc, follows_assoc, follows_assoc_left, (follows_reader data); [apply reads_extra|done|]. intros extra b4 c4 Hb4 _.
    eapply follows_left; [done|]. eapply follows_right; [done|]. eapply follows_right; [done|]. apply match_follows; [done|done|cbn [token_len]; lia].
  - apply follows_assoc. eapply follows_left; [done|]. eapply follows_right; [done|]. eapply follows_right; [done|]. by apply match_follows.
Qed.

Lemma tokens_follow turns left d hist recent b c :
  coding d0 d hist recent → stands_at data b c → left ≤ N.of_nat turns →
  follows (token_loop turns left main length_ aligned) (take_tokens data bits trees type turns left hist recent)
    (λ _, at_token d0) (d, b) c.
Proof.
  revert left d hist recent b c. induction turns as [|turns IH]; intros left d hist recent b c Hd Hb Hl; cbn [token_loop take_tokens].
  { assert (left = 0) as -> by lia. by apply follows_ret. }
  destruct (N.eqb_spec left 0) as [->|Hne]; [by apply follows_ret|]. apply follows_bind.
  eapply follows_mono; [by apply token_follows; [..|lia]|]. intros taken [taken' [hist' recent']] [d1 b1] c1 (-> & Ht & Hd1 & Hb1).
  cbn [fst snd] in *. apply IH; [done|done|lia].
Qed.
End tokens.

(** ** Blocks and the decoder *)

Definition calls_read (d : LzxDecoder) (calls : option (option N)) : Prop :=
  match calls with
  | None => lz_header_read d = false ∧ lz_e8_translation d = false
  | Some None => lz_header_read d = true ∧ lz_e8_translation d = false
  | Some (Some size) => lz_header_read d = true ∧ lz_e8_translation d = true ∧ lz_e8_file_size d = size
  end.

(** The decoder keeps a folder's history, trees, offsets and header. *)
Record keeping (bits : N) (d : LzxDecoder) (hist : list byte) (trees : LzxTrees) (recent : Offsets) (calls : option (option N)) (frames : N) : Prop := {
  kp_holds : lzx_holds bits d hist;
  kp_slots : (lz_base_position d, lz_footer_bits d) = slot_tables (2 * bits);
  kp_main : lz_main_lengths d = lt_main trees;
  kp_length : lz_length_lengths d = lt_length trees;
  kp_recent : lz_repeated d = recent;
  kp_calls : calls_read d calls;
  kp_frames : lz_frames_done d = frames
}.

(** The tables are those of the trees, in the middle of a block of tokens. *)
Definition decodes (d : LzxDecoder) (trees : LzxTrees) (type : BlockType) : Prop :=
  ∃ main, lz_main_table d = Some main ∧ tables_of trees type main (lz_length_table d) (lz_aligned_table d).

(** The decoder has kept what a folder's blocks so far mean. *)
Record lzx_refines (bits : N) (d : LzxDecoder) (st : LzxState) : Prop := {
  rf_keeping : keeping bits d (ls_history st) (ls_trees st) (ls_recent st) (ls_calls st) (ls_frames st);
  rf_type : lz_block_type d = ls_type st;
  rf_left : lz_block_remaining d = ls_left st;
  rf_tables : ls_left st ≠ 0 → ls_type st ≠ BT_Uncompressed → decodes d (ls_trees st) (ls_type st)
}.

(** A new decoder has kept nothing. *)
Lemma lzx_new_refines bits limits d : lzx_new bits limits = Ok d → lzx_refines bits d (lzx_initial bits).
Proof.
  intros H. pose proof (lzx_new_holds _ _ _ H) as [Hd _]. revert H. unfold lzx_new.
  destruct (slot_tables (2 * bits)) as [base footer] eqn:Eslots.
  intros H. apply bind_Ok in H as ([] & _ & [= <-]). split; [|done..].
  split; cbn [ls_history ls_trees ls_recent ls_calls ls_frames lzx_initial lt_main lt_length calls_read]; try done.
Qed.

Section blocks.
Context {build : Build} (data : list byte) (bits : N) (Hbits : bits ≤ 19).
Abbreviation reads := (CabBits.reads data).
Abbreviation keeping := (keeping bits).
Abbreviation refines := (lzx_refines bits).
Abbreviation St := (LzxDecoder * LzxBits)%type.

(** *** Trees *)

Lemma main_follows {A B} start stop (k : unit → M St (Stop CabinetError) A) (g : list N → LR B) Q d b c :
  stop ≤ 2 ^ 32 → stop ≤ len (lz_main_lengths d) → stands_at data b c →
  (∀ l b' c', len l = len (lz_main_lengths d) → stands_at data b' c' →
    follows (k tt) (g l) Q (lz_put_lengths l (lz_length_lengths d) d, b') c') →
  follows (on_main (read_lengths start stop) ≫= k) (take_lengths data start stop (lz_main_lengths d) ≫= g) Q (d, b) c.
Proof.
  intros Hs Hl Hb Hk. apply follows_bind, follows_zoom. cbn [fst snd]. eapply follows_mono; [by apply read_lengths_follows|].
  intros [] l' [l b'] c' (El & Hlen & Hb'). cbn [fst snd] in *. subst l'. by apply Hk.
Qed.

Lemma length_follows {A B} start stop (k : unit → M St (Stop CabinetError) A) (g : list N → LR B) Q d b c :
  stop ≤ 2 ^ 32 → stop ≤ len (lz_length_lengths d) → stands_at data b c →
  (∀ l b' c', len l = len (lz_length_lengths d) → stands_at data b' c' →
    follows (k tt) (g l) Q (lz_put_lengths (lz_main_lengths d) l d, b') c') →
  follows (on_length (read_lengths start stop) ≫= k) (take_lengths data start stop (lz_length_lengths d) ≫= g) Q (d, b) c.
Proof.
  intros Hs Hl Hb Hk. apply follows_bind, follows_zoom. cbn [fst snd]. eapply follows_mono; [by apply read_lengths_follows|].
  intros [] l' [l b'] c' (El & Hlen & Hb'). cbn [fst snd] in *. subst l'. by apply Hk.
Qed.

Definition trees_read (d : LzxDecoder) hist recent calls frames (trees : LzxTrees) (s : St) (c : LzxCursor) : Prop :=
  keeping s.1 hist trees recent calls frames ∧
  (∃ main, lz_main_table s.1 = Some main ∧ table_of (lt_main trees) main) ∧
  (∃ table, lz_length_table s.1 = Some table ∧ table_of (lt_length trees) table) ∧
  lz_aligned_table s.1 = lz_aligned_table d ∧ lz_block_type s.1 = lz_block_type d ∧
  lz_block_remaining s.1 = lz_block_remaining d ∧ stands_at data s.2 c.

Lemma trees_follow d hist trees recent calls frames b c :
  keeping d hist trees recent calls frames → stands_at data b c →
  follows read_main_and_length_trees (take_trees data bits trees)
    (λ _ trees' s c', lt_aligned trees' = lt_aligned trees ∧ trees_read d hist recent calls frames trees' s c') (d, b) c.
Proof.
  intros [Hd Hslots Hmain Hlength Hrecent Hcalls Hframes] Hb. unfold read_main_and_length_trees, take_trees.
  pose proof (lh_main _ _ _ Hd) as Hlm. pose proof (lh_lengths _ _ _ Hd) as Hll.
  eapply follows_left; [done|]. cbv zeta. cbn [fst]. rewrite (lh_slots _ _ _ Hd), <-Hmain, <-Hlength. change NUM_CHARS with 256 in *.
  change LENGTH_TREE_ELEMENTS with 249 in *.
  apply main_follows; [done|lia|done|]. intros l1 b1 c1 Hl1 Hb1.
  destruct d as [w mask p t sl ba fo ml ll mt lt at_ re bt br hr e8 es fd]. cbn in *.
  apply (main_follows _ _ _ _ _ (Build_LzxDecoder w mask p t sl ba fo l1 ll mt lt at_ re bt br hr e8 es fd)); cbn;
    [change (2 ^ 32) with 4294967296; lia|lia|done|]. intros l2 b2 c2 Hl2 Hb2.
  eapply follows_left; [done|]. cbn. apply follows_table. intros main Htm. eapply follows_left; [done|]. cbn.
  apply (length_follows _ _ _ _ _ (Build_LzxDecoder w mask p t sl ba fo l2 ll (Some main) lt at_ re bt br hr e8 es fd)); cbn;
    [done|lia|done|]. intros l3 b3 c3 Hl3 Hb3.
  eapply follows_left; [done|]. cbn. apply follows_table. intros table Htl.
  unfold on_lzx, modify, follows. cbn. do 2 eexists. split; [done|]. split; [done|].
  assert (lzx_holds bits (Build_LzxDecoder w mask p t sl ba fo l2 l3 (Some main) (Some table) at_ re bt br hr e8 es fd) hist) as Hh.
  { destruct Hd. split; cbn in *; try done; rewrite ?Hl2, ?Hl1, ?Hl3; done. }
  split; [by split|]. cbn. split; [by eexists|]. by split; [eexists|].
Qed.

(** *** Stored blocks *)

(** A reader between two words, as [resume_at] leaves it. *)
Lemma resumed_at b q o : lb_data b = data → N.even q = true → lb_overrun_words b = o → o ≤ MAX_OVERRUN_WORDS →
  stands_at data (resume_at q b) {| lc_bit := 8 * q; lc_overrun := o |}.
Proof.
  intros Hd [k ->]%N.even_spec <- Ho. split; cbn; try done. exists k. split; [done|]. lia.
Qed.

Lemma aligned_cursor b c : stands_at data b c → lc_bit c mod 16 = 0 → lb_bits b = 0 ∧ lc_bit c = 8 * lb_byte_position b ∧ N.even (lb_byte_position b) = true.
Proof.
  intros [_ Hbits' (k & Hk & Hw) _ _ _] Hm.
  assert (lb_bits b = 0) as H0.
  { rewrite <-(N.mod_small _ _ Hbits'). replace (lb_bits b) with (lc_bit c + lb_bits b - lc_bit c) by lia.
    pose proof (N.div_mod (lc_bit c) 16 ltac:(lia)) as E. rewrite Hm, N.add_0_r in E. rewrite Hw, E.
    replace (16 * k - 16 * (lc_bit c / 16)) with ((k - lc_bit c / 16) * 16) by lia. apply N.Div0.mod_mul. }
  split; [done|]. split; [lia|]. rewrite Hk. by rewrite N.even_mul.
Qed.

Lemma cursor_padding b c : stands_at data b c → 16 - lc_bit c mod 16 = if lb_bits b mod 16 =? 0 then 16 else lb_bits b mod 16.
Proof.
  intros Hb. pose proof (ac_bits _ _ _ Hb) as Hlt. destruct (ac_word _ _ _ Hb) as (k & _ & Hw). rewrite (N.mod_small _ _ Hlt).
  destruct (N.eqb_spec (lb_bits b) 0) as [E|Hne].
  - replace (lc_bit c) with (k * 16) by lia. by rewrite N.Div0.mod_mul.
  - replace (lc_bit c) with (16 - lb_bits b + (k - 1) * 16) by lia. rewrite N.Div0.mod_add, N.mod_small; lia.
Qed.

Lemma reads_padding : reads align_to_word (take_padding data).
Proof.
  intros b c Hb. pose proof (cursor_padding b c Hb) as Hpad. pose proof (ac_bits _ _ _ Hb) as Hlt.
  unfold align_to_word. eapply follows_left; [done|]. cbv zeta. rewrite (N.mod_small _ _ Hlt) in *. set (n := 16 - lc_bit c mod 16) in *.
  assert (n ≤ 16) as Hn by apply N.le_sub_l.
  assert ((if lb_bits b =? 0 then read_bits 16 else read_bits (lb_bits b)) = read_bits n) as -> by (rewrite Hpad; by destruct (_ =? 0)).
  pose proof (reads_bits data n ltac:(lia) b c Hb) as H. unfold follows in *. unfold take_padding. fold n.
  destruct (take_field data n c) as [c' [v|u]].
  - destruct H as (b' & v' & E & _ & Hb'). exists b', tt. by rewrite (M_bind_step _ _ _ _ _ E).
  - destruct H as (b' & e & E). exists b', e. by rewrite (M_bind_fail _ _ _ _ _ E).
Qed.

Lemma padding_aligned c c' u : take_padding data c = (c', Ok u) → lc_bit c' mod 16 = 0.
Proof.
  unfold take_padding, take_field. cbv zeta. destruct (_ <? _); [done|]. intros [= <-]. cbn [lc_bit].
  pose proof (N.div_mod (lc_bit c) 16 ltac:(lia)) as E. pose proof (N.mod_lt (lc_bit c) 16 ltac:(lia)) as Hr.
  replace (lc_bit c + (16 - lc_bit c mod 16)) with ((lc_bit c / 16 + 1) * 16) by lia. apply N.Div0.mod_mul.
Qed.

(** The three offsets in front of a stored block. *)
Lemma stored_offset_follows {A B} (k : N → M St (Stop CabinetError) A) (g : N → LR B) Q s q o :
  N.even q = true →
  (∀ r, follows (k r) (g r) Q s {| lc_bit := 8 * (q + 4); lc_overrun := o |}) →
  follows (cab_try (stored_offset data q) ≫= k) (take_offset_bytes data ≫= g) Q s {| lc_bit := 8 * q; lc_overrun := o |}.
Proof.
  intros [j ->]%N.even_spec Hk. unfold take_offset_bytes, stored_offset.
  assert (take_raw data 4 {| lc_bit := 8 * (2 * j); lc_overrun := o |} =
    (if 2 * j + 4 <=? len data then {| lc_bit := 8 * (2 * j + 4); lc_overrun := o |} else {| lc_bit := 8 * (2 * j); lc_overrun := o |},
     if 2 * j + 4 <=? len data then Ok (subslice (2 * j) 4 data) else Err tt)) as E.
  { unfold take_raw. cbn [lc_bit lc_overrun]. replace (8 * (2 * j)) with (j * 16) at 1 by lia. rewrite N.Div0.mod_mul. cbn [N.eqb andb].
    replace (8 * (2 * j) / 8) with (2 * j) by (by rewrite (N.mul_comm 8), N.div_mul).
    destruct (_ <=? _); [|done]. do 2 f_equal. lia. }
  apply follows_assoc. unfold get_range. rewrite (proj2 (N.leb_le (2 * j) _)) by lia. cbn [andb].
  replace (2 * j + 4 - 2 * j) with 4 by lia.
  destruct (2 * j + 4 <=? len data); cbn [ok_or mbind result_bind].
  2:{ unfold follows. rewrite (M_bind_fail _ _ _ _ _ E). by do 2 eexists. }
  eapply follows_right; [exact E|]. apply follows_assoc. destruct (of_le_bytes (subslice (2 * j) 4 data) =? 0); cbn [guard_err mbind result_bind].
  { by do 2 eexists. }
  eapply follows_left; [done|]. eapply follows_right; [done|]. eapply follows_right; [done|]. apply Hk.
Qed.

Lemma copy_stored_follows todo d hist b c :
  lzx_holds bits d hist → stands_at data b c → len data < 2 ^ 64 →
  follows (copy_stored todo) (take_raw data todo)
    (λ _ bytes s c', lzx_holds bits s.1 (hist ++ bytes) ∧ same_rest (d, b) s ∧ ∃ q, s.2 = resume_at q b ∧ c' = {| lc_bit := 8 * q; lc_overrun := lc_overrun c |})
    (d, b) c.
Proof.
  intros Hd Hb Hdata. unfold copy_stored. eapply follows_left; [done|]. cbv zeta. cbn [fst snd]. rewrite (ac_data _ _ _ Hb).
  unfold follows, take_raw. destruct (N.eqb_spec (lc_bit c mod 16) 0) as [Hm|Hm]; cbn [andb].
  2:{ destruct (N.eqb_spec (lb_bits b) 0) as [E|]; cbn [negb].
      - destruct Hm. destruct (ac_word _ _ _ Hb) as (k & _ & Hw). rewrite E, N.add_0_r, N.mul_comm in Hw. rewrite Hw. apply N.Div0.mod_mul.
      - by do 2 eexists. }
  destruct (aligned_cursor b c Hb Hm) as (-> & Ec & _). cbn [N.eqb negb]. rewrite (M_bind_step (cab_reject false _) _ _ (d, b) tt) by done.
  rewrite Ec. replace (8 * lb_byte_position b / 8) with (lb_byte_position b) by (by rewrite (N.mul_comm 8), N.div_mul).
  set (q := lb_byte_position b). unfold checked_add. destruct (N.leb_spec (q + todo) (len data)) as [Hin|Hout].
  - rewrite (proj2 (N.ltb_lt _ _)) by lia. cbn [ok_or]. rewrite (M_bind_step (cab_try (Ok _)) _ _ (d, b) (q + todo)) by done.
    assert (get_range q (q + todo) data = Some (subslice q todo data)) as ->.
    { apply get_range_Some. split; [lia|]. split; [done|]. f_equal. lia. }
    cbn [ok_or]. rewrite (M_bind_step (cab_try (Ok _)) _ _ (d, b) (subslice q todo data)) by done.
    destruct (push_bytes_run bits (subslice q todo data) d b hist Hd) as (d' & E & Hd' & _).
    pose proof (push_bytes_rest (subslice q todo data) (d, b)) as Hrest. rewrite E in Hrest.
    rewrite (M_bind_step _ _ _ _ _ E). eexists _, _. split; [done|]. cbn [fst snd]. split; [done|]. split; [done|].
    exists (q + todo). split; [done|]. f_equal. lia.
  - destruct (N.ltb_spec (q + todo) (2 ^ 64)); cbn [ok_or]; [|by do 2 eexists].
    rewrite (M_bind_step (cab_try (Ok _)) _ _ (d, b) (q + todo)) by done.
    unfold get_range. rewrite (proj2 (N.leb_gt (q + todo) (len data))), andb_false_r by done. by do 2 eexists.
Qed.

(** *** Headers *)

Definition at_block (st : LzxState) (s : St) (c : LzxCursor) : Prop := refines s.1 st ∧ stands_at data s.2 c.

Lemma keeping_block d hist trees recent calls frames type left :
  keeping d hist trees recent calls frames → keeping (lz_put_block type left d) hist trees recent calls frames.
Proof. intros [? ? ? ? ? Hc ?]. split; [by apply holds_block|by destruct d..|by destruct calls as [[]|], d|by destruct d]. Qed.

Lemma trees_refine d hist trees recent calls frames type left s c trees' :
  trees_read (lz_put_block type left d) hist recent calls frames trees' s c → lt_aligned trees' = lt_aligned trees →
  (type = BT_Aligned → ∃ table, lz_aligned_table d = Some table ∧ table_of (lt_aligned trees) table ∧ len (lt_aligned trees) = 8) →
  at_block {| ls_history := hist; ls_trees := trees'; ls_recent := recent; ls_type := type; ls_left := left; ls_calls := calls; ls_frames := frames |} s c.
Proof.
  intros (Hk & (main & Em & Htm) & Hlen & Ea & Et & El & Hb) Eal Hal. split; [|done]. destruct d; cbn in *.
  split; cbn; [done|done|done|]. intros _ _. exists main. split; [done|]. split; [done|done|].
  intros Ht. rewrite Eal, Ea. by apply Hal.
Qed.

Lemma header_follows d st b c :
  refines d st → stands_at data b c →
  follows read_block_header (take_header data bits st) (λ _ st' s c', at_block st' s c' ∧ ls_calls st' = ls_calls st) (d, b) c.
Proof.
  intros [Hk _ _ _] Hb. unfold read_block_header, take_header.
  apply (follows_reader data); [by apply reads_bits|done|]. intros code b1 c1 Hb1 _.
  assert (∃ r : result CabinetError BlockType, block_type_of code = r) as [r Er] by eauto.
  assert ((match code with 1 => mret BT_Verbatim | 2 => mret BT_Aligned | 3 => mret BT_Uncompressed | _ => throw tt end : LR BlockType) =
    match r with Ok type => mret type | Err _ => throw tt end) as ->.
  { rewrite <-Er. unfold block_type_of. by repeat case_match. }
  rewrite Er. destruct r as [type|e]; [|by do 2 eexists]. eapply follows_left; [done|]. eapply follows_right; [done|].
  eapply follows_left; [done|]. cbn [fst snd]. apply (follows_reader data); [apply reads_u24|done|]. intros size b2 c2 Hb2 _.
  eapply follows_left; [done|]. cbn [fst snd].
  replace (lz_put_block (lz_block_type _) size _) with (lz_put_block type size d) by by destruct d.
  set (d1 := lz_put_block type size d). pose proof (keeping_block _ _ _ _ _ _ type size Hk) as Hk1. fold d1 in Hk1.
  destruct type.
  - apply follows_map. eapply follows_mono; [by apply (trees_follow d1 _ _ _ _ _ b2 c2 Hk1)|].
    intros [] trees' s c' [Eal Hs]. split; [|done]. by apply (trees_refine d _ (ls_trees st) _ _ _ BT_Verbatim size).
  - apply (follows_reader data); [by apply reads_fields|done|]. intros aligned b3 c3 Hb3 Hal%take_fields_len.
    apply follows_table. intros table Ht. eapply follows_left; [done|]. cbn [fst snd]. apply follows_map.
    set (d2 := lz_put_tables (lz_main_table d) (lz_length_table d) (Some table) d).
    replace (lz_put_tables _ _ (Some table) d1) with (lz_put_block BT_Aligned size d2) by by destruct d.
    set (trees := {| lt_main := lt_main (ls_trees st) |}).
    assert (keeping d2 (ls_history st) trees (ls_recent st) (ls_calls st) (ls_frames st)) as Hk2.
    { destruct Hk as [? ? ? ? ? Hc ?]. split; [by apply holds_tables|by destruct d..|by destruct (ls_calls st) as [[]|], d|by destruct d]. }
    pose proof (keeping_block _ _ _ _ _ _ BT_Aligned size Hk2) as Hk3.
    eapply follows_mono; [by apply (trees_follow _ _ _ _ _ _ b3 c3 Hk3)|].
    intros [] trees' s c' [Eal Hs]. split; [|done]. apply (trees_refine d2 _ trees _ _ _ BT_Aligned size); [done|done|].
    intros _. exists table. split; [by destruct d|]. by split.
  - apply (follows_reader data); [apply reads_padding|done|]. intros [] b3 c3 Hb3 Hm%padding_aligned.
    destruct (aligned_cursor b3 c3 Hb3 Hm) as (Hz & Ec & Heven).
    eapply (follows_left _ _ _ _ _ _ (d1, b3) (lb_byte_position b3)).
    { unfold on_bits, zoom, aligned_byte_position. cbn [snd]. rewrite (M_bind_step get _ b3 b3 b3) by done. rewrite Hz. change (0 / 8) with 0.
      rewrite (proj2 (checked_sub_Some (lb_byte_position b3) 0 (lb_byte_position b3))); [done|lia]. }
    eapply follows_left; [done|]. cbv zeta. cbn [snd]. rewrite (ac_data _ _ _ Hb3). set (q := lb_byte_position b3) in *.
    destruct c3 as [p o]. cbn [lc_bit] in Ec. subst p.
    apply stored_offset_follows; [done|]. intros r0. apply stored_offset_follows; [by rewrite N.even_add, Heven|]. intros r1.
    replace (q + 4 + 4) with (q + 8) by lia. apply stored_offset_follows; [by rewrite N.even_add, Heven|]. intros r2.
    eapply follows_left; [done|]. cbn [fst snd]. unfold follows, on_bits, zoom, modify. cbn. do 2 eexists. split; [done|]. split; [|done].
    destruct Hk1 as [Hh ? ? ? ? Hc ?]. split; cbn [fst snd].
    + split; cbn [ls_history ls_trees ls_recent ls_type ls_left ls_calls ls_frames ls_block]; [|by destruct d..|done].
      split; [by apply holds_repeated|by destruct d..|by destruct (ls_calls st) as [[]|], d|by destruct d].
    + replace (8 * (q + 8 + 4)) with (8 * (q + 12)) by lia. apply resumed_at; [apply (ac_data _ _ _ Hb3)|by rewrite N.even_add, Heven|apply (ac_overrun _ _ _ Hb3)|apply (ac_limit _ _ _ Hb3)].
Qed.

(** *** Parts of a block *)

Lemma follows_stored d st b c :
  refines d st → ls_type st = BT_Uncompressed → stands_at data b c → len data < 2 ^ 64 →
  ∀ todo, follows (copy_stored todo) (bytes ← take_raw data todo; mret (ls_history st ++ bytes, ls_recent st))
    (λ _ r s c', lzx_holds bits s.1 r.1 ∧ r.2 = ls_recent st ∧ same_rest (d, b) s ∧
      ∃ q, s.2 = resume_at q b ∧ c' = {| lc_bit := 8 * q; lc_overrun := lc_overrun c |}) (d, b) c.
Proof.
  intros [Hk _ _ _] _ Hb Hdata todo. apply (follows_map _ _ (λ bytes, (ls_history st ++ bytes, ls_recent st))).
  eapply follows_mono; [by apply copy_stored_follows, Hdata; [apply (kp_holds _ _ _ _ _ _ _ Hk)|]|].
  by intros [] bytes s c' (? & ? & ?).
Qed.

(** What a part makes of the decoder: the history and the offsets. *)
Definition part_made (d : LzxDecoder) (recent : Offsets) (hist : list byte) (s : LzxDecoder) : Prop :=
  lzx_holds bits s hist ∧ unmoved s = unmoved d ∧ lz_repeated s = recent.

Lemma part_refines d st s hist recent left :
  refines d st → ls_left st ≠ 0 → part_made d recent hist s →
  refines (lz_put_block (lz_block_type s) left s) (ls_decoded hist recent left st).
Proof.
  intros [[Hh Hs Hm Hl Hr Hc Hf] Ht _ Htab] Hne (Hh' & Hu & Hr'). unfold unmoved in Hu.
  injection Hu as Eb Efo Em El Emt Elt Eat Et Er Ehd Ee Ez Ef.
  assert (Hc' : calls_read s (ls_calls st)).
  { destruct (ls_calls st) as [[]|]; cbn in *; by rewrite Ehd, Ee, ?Ez. }
  split; cbn [ls_history ls_trees ls_recent ls_type ls_left ls_calls ls_frames ls_decoded].
  - split; [by apply holds_block|..]; destruct s; cbn in *; try congruence; done.
  - destruct s; cbn in *; congruence.
  - by destruct s.
  - intros _ Hty. destruct (Htab Hne Hty) as (main & Emain & [Htm Htl Hta]). exists main.
    destruct s; cbn in *; subst. split; [done|]. split; [done|done|]. done.
Qed.

(** Whether the block is used up, the reader is at the cursor, unless the frame is at its end. *)
Definition part_done (left : N) (made : N) (r : N * LzxState) (s : St) (c : LzxCursor) : Prop :=
  made = r.1 ∧ 0 < made ≤ left ∧ refines s.1 r.2 ∧ (made < left → stands_at data s.2 c).

(** The end of a part: the bytes are counted, and behind an odd stored block one is skipped. *)
Lemma part_ends d st left todo hist recent d' b' c' :
  refines d st → ls_left st ≠ 0 → todo = N.min left (ls_left st) → 0 < left → part_made d recent hist d' →
  (if bool_decide (ls_type st = BT_Uncompressed)
   then ∃ q b o, b' = resume_at q b ∧ c' = {| lc_bit := 8 * q; lc_overrun := o |} ∧ lb_data b = data ∧ lb_overrun_words b = o ∧ o ≤ MAX_OVERRUN_WORDS
   else stands_at data b' c') →
  follows
    (on_lzx (λ self, lz_put_block (lz_block_type self) (lz_block_remaining self - todo) self);;
     s ← get;
     (if (lz_block_remaining s.1 =? 0) && bool_decide (lz_block_type s.1 = BT_Uncompressed)
      then on_bits (modify finish_stored_block) else mret tt);;
     mret todo)
    ((if (ls_left st - todo =? 0) && bool_decide (ls_type st = BT_Uncompressed) then skip_odd else mret tt);;
     mret (todo, ls_decoded hist recent (ls_left st - todo) st))
    (part_done left) (d', b') c'.
Proof.
  intros Hd Hne -> Hleft Hmade Hreader. set (todo := N.min left (ls_left st)).
  pose proof (part_refines d st d' hist recent (ls_left st - todo) Hd Hne Hmade) as Hd'.
  destruct Hmade as (_ & Hu & _). unfold unmoved in Hu. injection Hu as _ _ _ _ _ _ _ Et Er _ _ _ _.
  rewrite (rf_type _ _ _ Hd) in Et. rewrite (rf_left _ _ _ Hd) in Er.
  eapply follows_left; [done|]. cbn [fst snd]. rewrite Er. set (d2 := lz_put_block _ _ d') in *.
  eapply follows_left; [done|]. cbn [fst].
  replace (lz_block_remaining d2) with (ls_left st - todo) by by destruct d'. replace (lz_block_type d2) with (lz_block_type d') by by destruct d'. rewrite Et.
  assert (Hdone : ∀ b1 c1, (todo < left → stands_at data b1 c1) →
    follows (mret todo) (mret (todo, ls_decoded hist recent (ls_left st - todo) st) : LR (N * LzxState)) (part_done left) (d2, b1) c1).
  { intros b1 c1 Hc. apply follows_ret. split; [done|]. split; [lia|]. by split. }
  destruct (bool_decide (ls_type st = BT_Uncompressed)); [|rewrite andb_false_r; eapply follows_left; [done|]; eapply follows_right; [done|]; by apply Hdone].
  rewrite andb_true_r. destruct Hreader as (q & b & o & -> & -> & Hdat & Ho & Hlim).
  destruct (N.eqb_spec (ls_left st - todo) 0) as [_|Hmore].
  2:{ eapply follows_left; [done|]. eapply follows_right; [done|]. apply Hdone. lia. }
  eapply follows_left; [done|]. eapply follows_right; [done|]. cbn [fst snd lc_bit lc_overrun]. apply Hdone. intros _.
  unfold finish_stored_block. cbn [lb_byte_position resume_at].
  destruct (N.even q) eqn:Eq.
  - pose proof (resumed_at b q o Hdat Eq Ho Hlim) as H. replace (16 * words_of (8 * q)) with (8 * q); [done|].
    apply N.even_spec in Eq as [j ->]. rewrite (words_of_bits (8 * (2 * j)) 0 j); lia.
  - assert (N.even (q + 1) = true) as Eq1 by by rewrite N.add_1_r, N.even_succ, <-N.negb_even, Eq.
    replace (16 * words_of (8 * q)) with (8 * (q + 1)); [by apply resumed_at|].
    apply N.even_spec in Eq1 as [j Ej]. rewrite (words_of_bits (8 * q) 8 j); lia.
Qed.

Lemma part_follows left d st b c :
  refines d st → stands_at data b c → 0 < left → len data < 2 ^ 64 →
  follows (frame_turn left) (take_part data bits left st) (part_done left) (d, b) c.
Proof.
  intros Hd Hb Hleft Hdata. unfold frame_turn, take_part. eapply follows_left; [done|]. cbn [fst]. rewrite (rf_left _ _ _ Hd).
  apply follows_bind.
  assert (follows (if ls_left st =? 0 then read_block_header;; s ← get; cab_reject (lz_block_remaining s.1 =? 0) CE_DecompressionFailed else mret tt)
    (if ls_left st =? 0 then st ← take_header data bits st; refuse (ls_left st =? 0);; mret st else mret st)
    (λ _ st' s c', at_block st' s c' ∧ ls_left st' ≠ 0) (d, b) c) as Hbegin.
  { destruct (N.eqb_spec (ls_left st) 0) as [_|Hne]; [|by apply follows_ret; split].
    apply follows_bind. eapply follows_mono; [by apply header_follows|]. intros [] st' [d' b'] c' [[Hd' Hb'] _]. cbn [fst snd] in *.
    eapply follows_left; [done|]. cbn [fst]. rewrite (rf_left _ _ _ Hd').
    destruct (N.eqb_spec (ls_left st') 0); [by do 2 eexists|]. by do 2 eexists. }
  eapply follows_mono; [exact Hbegin|]. clear Hbegin Hd Hb d b c. intros [] st1 [d b] c [[Hd Hb] Hne]. cbn [fst snd] in *. clear st.
  eapply follows_left; [done|]. cbv zeta. cbn [fst]. rewrite (rf_left _ _ _ Hd), (rf_type _ _ _ Hd).
  set (todo := N.min left (ls_left st1)). assert (0 < todo ≤ left) as Htodo by lia. pose proof (rf_keeping _ _ _ Hd) as Hk.
  assert (Htokens : ls_type st1 ≠ BT_Uncompressed →
    follows (decode_tokens todo) (take_tokens data bits (ls_trees st1) (ls_type st1) (N.to_nat todo) todo (ls_history st1) (ls_recent st1))
      (λ _ r s c', part_made d r.2 r.1 s.1 ∧ stands_at data s.2 c') (d, b) c).
  { intros Hty. destruct (rf_tables _ _ _ Hd Hne Hty) as (main & Emain & Htab). unfold decode_tokens. eapply follows_left; [done|]. cbn [fst].
    rewrite Emain. eapply follows_left; [done|].
    eapply follows_mono; [apply (tokens_follow data bits Hbits _ _ _ _ _ Htab d (kp_slots _ _ _ _ _ _ _ Hk) (rf_type _ _ _ Hd))|].
    - split; [apply (kp_holds _ _ _ _ _ _ _ Hk)|done|apply (kp_recent _ _ _ _ _ _ _ Hk)].
    - done.
    - lia.
    - by intros _ r s c' [[? ? ?] ?]. }
  apply follows_bind. destruct (ls_type st1) eqn:Ety.
  1,2: eapply follows_mono; [by apply Htokens|]; intros [] [hist recent] [d2 b2] c2 [Hmade Hb2]; cbn [fst snd] in *;
    pose proof (part_ends d st1 left todo hist recent d2 b2 c2 Hd Hne eq_refl Hleft Hmade) as Hend; rewrite Ety in Hend; by apply Hend.
  eapply follows_mono; [by apply follows_stored|]. intros [] [hist recent] [d2 b2] c2 (Hh & Hr & [Hu Hrest] & q & Eb & Ec).
  cbn [fst snd] in *. assert (part_made d recent hist d2) as Hmade.
  { split; [done|]. split; [done|]. rewrite Hrest, Hr. apply (kp_recent _ _ _ _ _ _ _ Hk). }
  pose proof (part_ends d st1 left todo hist recent d2 b2 c2 Hd Hne eq_refl Hleft Hmade) as Hend. rewrite Ety in Hend. apply Hend.
  exists q, b, (lc_overrun c). split; [done|]. split; [done|]. split; [apply (ac_data _ _ _ Hb)|].
  split; [apply (ac_overrun _ _ _ Hb)|apply (ac_limit _ _ _ Hb)].
Qed.

Lemma parts_follow turns left d st b c :
  refines d st → (0 < left → stands_at data b c) → left ≤ N.of_nat turns → len data < 2 ^ 64 →
  follows (frame_loop turns left) (take_parts data bits turns left st) (λ _ st' s _, refines s.1 st') (d, b) c.
Proof.
  intros Hd Hb Hl Hdata. revert left d st b c Hd Hb Hl. induction turns as [|turns IH]; intros left d st b c Hd Hb Hl; cbn [frame_loop take_parts].
  { assert (left = 0) as -> by lia. by apply follows_ret. }
  destruct (N.eqb_spec left 0) as [->|Hne]; [by apply follows_ret|]. apply follows_bind.
  eapply follows_mono; [apply (part_follows left d st b c Hd); [apply Hb; lia|lia|done]|].
  intros made [made' st'] [d1 b1] c1 (-> & Hm & Hd1 & Hb1). cbn [fst snd] in *. apply IH; [done| |lia]. intros. apply Hb1. lia.
Qed.

Lemma start_follows d st b c :
  refines d st → stands_at data b c → follows read_e8_header (take_start data st) (λ _, at_block) (d, b) c.
Proof.
  intros Hd Hb. unfold read_e8_header, take_start. pose proof (kp_calls _ _ _ _ _ _ _ (rf_keeping _ _ _ Hd)) as Hc.
  eapply follows_left; [done|]. cbn [fst]. destruct (ls_calls st) as [calls|] eqn:Ecalls.
  { assert (lz_header_read d = true) as -> by by destruct calls; destruct Hc. by apply follows_ret. }
  destruct Hc as [-> He]. eapply follows_left; [done|]. cbn [fst snd]. rewrite He.
  assert (Hput : ∀ e8 size calls, calls_read (lz_put_header true e8 size d) (Some calls) →
    refines (lz_put_header true e8 size d) {| ls_history := ls_history st; ls_trees := ls_trees st; ls_recent := ls_recent st; ls_type := ls_type st;
              ls_left := ls_left st; ls_calls := Some calls; ls_frames := ls_frames st |}).
  { intros e8 size calls Hcalls. destruct Hd as [[Hh ? ? ? ? _ ?] ? ? Htab]. split; cbn [ls_history ls_trees ls_recent ls_type ls_left ls_calls ls_frames].
    - split; [by apply holds_header|by destruct d..|done|by destruct d].
    - by destruct d.
    - by destruct d.
    - intros H1 H2. specialize (Htab H1 H2). by destruct d. }
  apply (follows_reader data); [by apply reads_bits|done|]. intros bit b1 c1 Hb1 _.
  destruct (bit =? 1).
  - apply follows_assoc, (follows_reader data); [by apply reads_bits|done|]. intros high b2 c2 Hb2 _.
    apply follows_assoc, (follows_reader data); [by apply reads_bits|done|]. intros low b3 c3 Hb3 Hlow%field_bound.
    eapply follows_right; [done|]. unfold on_lzx, modify, follows. cbn [fst snd]. do 2 eexists. split; [done|]. split; [|done]. cbn [fst].
    rewrite N.lor_comm, lor_shiftl, N.add_comm by done.
    replace (lz_put_header true true _ (lz_put_header _ _ _ d)) with (lz_put_header true true (2 ^ 16 * high + low) d) by by destruct d.
    apply Hput. by destruct d.
  - eapply follows_right; [done|]. apply follows_ret. split; [|done]. cbn [fst]. apply Hput. by destruct d.
Qed.
End blocks.

(** ** What a block adds *)

Lemma copied_adds n offset hist out : copied n offset hist = Some out → ∃ new, out = hist ++ new ∧ len new = N.of_nat n.
Proof.
  revert hist. induction n as [|n IH]; intros hist; cbn [copied]; [intros [= <-]; exists []; by rewrite app_nil_r|].
  destruct (_ && _); [|done]. intros (byte & _ & H)%bind_Some. apply IH in H as (new & -> & Hn). exists (byte :: new).
  rewrite <-app_assoc, len_cons. split; [done|]. lia.
Qed.

Section adds.
Context (data : list byte) (bits : N).

(** The folder's history grows by [made] bytes, and its header and count stay. *)
Definition adds (made : N) (st st' : LzxState) : Prop :=
  ls_calls st' = ls_calls st ∧ ls_frames st' = ls_frames st ∧
  ∃ new, ls_history st' = ls_history st ++ new ∧ len new = made.

Lemma piece_adds trees type left hist recent c c' taken hist' recent' :
  take_piece data bits trees type left hist recent c = (c', Ok (taken, (hist', recent'))) →
  taken ≤ left ∧ ∃ new, hist' = hist ++ new ∧ len new = taken.
Proof.
  unfold take_piece. intros (c1 & [token recent1] & _ & H)%M_bind_Ok. cbv beta iota in H.
  apply M_bind_Ok in H as (c2 & [] & Hr & H). apply M_bind_Ok in H as (c3 & hist1 & He & [= _ <- <- _]).
  unfold refuse in Hr. destruct ((left <? token_len token) || _) eqn:E; [done|]. apply orb_false_iff in E as [Hle%N.ltb_ge _]. split; [done|].
  unfold lift in He. injection He as _ He. apply ok_or_Ok in He. destruct token as [byte|length offset]; cbn in He |- *.
  - injection He as <-. by exists [byte].
  - apply copied_adds in He as (new & -> & Hn). exists new. split; [done|]. lia.
Qed.

Lemma tokens_add trees type turns left hist recent c c' hist' recent' :
  take_tokens data bits trees type turns left hist recent c = (c', Ok (hist', recent')) →
  ∃ new, hist' = hist ++ new ∧ len new = left.
Proof.
  revert left hist recent c. induction turns as [|turns IH]; intros left hist recent c; cbn [take_tokens];
    (destruct (N.eqb_spec left 0) as [->|Hne]; [intros [= _ <- _]; exists []; by rewrite app_nil_r|]); [done|].
  intros (c1 & [taken [hist1 recent1]] & (Hle & new1 & -> & Hn1)%piece_adds & (new2 & -> & Hn2)%IH)%M_bind_Ok.
  exists (new1 ++ new2). rewrite <-app_assoc, len_app. split; [done|]. lia.
Qed.

Lemma trees_keep_calls st c c' st' : take_header data bits st c = (c', Ok st') →
  ls_history st' = ls_history st ∧ ls_calls st' = ls_calls st ∧ ls_frames st' = ls_frames st.
Proof.
  unfold take_header. intros (c1 & code & _ & H)%M_bind_Ok. apply M_bind_Ok in H as (c2 & type & _ & H).
  apply M_bind_Ok in H as (c3 & size & _ & H). destruct type.
  - by apply M_bind_Ok in H as (c4 & trees & _ & [= _ <-]).
  - apply M_bind_Ok in H as (c4 & aligned & _ & H). apply M_bind_Ok in H as (c5 & [] & _ & H).
    by apply M_bind_Ok in H as (c6 & trees & _ & [= _ <-]).
  - apply M_bind_Ok in H as (c4 & [] & _ & H). apply M_bind_Ok in H as (c5 & r0 & _ & H). apply M_bind_Ok in H as (c6 & r1 & _ & H).
    by apply M_bind_Ok in H as (c7 & r2 & _ & [= _ <-]).
Qed.

Lemma part_adds left st c c' made st' :
  take_part data bits left st c = (c', Ok (made, st')) → made ≤ left ∧ adds made st st'.
Proof.
  unfold take_part. intros (c1 & st1 & H1 & H)%M_bind_Ok.
  assert (ls_history st1 = ls_history st ∧ ls_calls st1 = ls_calls st ∧ ls_frames st1 = ls_frames st) as (Eh & Ec & Ef).
  { destruct (ls_left st =? 0); [|by injection H1 as _ <-].
    apply M_bind_Ok in H1 as (c2 & st2 & H2%trees_keep_calls & H1). by apply M_bind_Ok in H1 as (c3 & [] & _ & [= _ <-]). }
  cbv zeta in H. set (todo := N.min left (ls_left st1)) in *. apply M_bind_Ok in H as (c2 & [hist recent] & H2 & H). cbv beta iota in H.
  apply M_bind_Ok in H as (c3 & [] & _ & [= _ <- <-]). split; [lia|]. split; [done|]. split; [done|]. cbn [ls_history ls_decoded]. rewrite <-Eh.
  destruct (ls_type st1).
  - by apply tokens_add in H2.
  - by apply tokens_add in H2.
  - apply M_bind_Ok in H2 as (c4 & bytes & Hb & [= _ <- _]). exists bytes. split; [done|].
    unfold take_raw in Hb. destruct ((_ =? 0) && _) eqn:E; [|done]. injection Hb as _ <-.
    apply andb_true_iff in E as [_ E%N.leb_le]. by apply len_subslice.
Qed.

Lemma parts_add turns left st c c' st' : take_parts data bits turns left st c = (c', Ok st') → adds left st st'.
Proof.
  revert left st c. induction turns as [|turns IH]; intros left st c; cbn [take_parts];
    (destruct (N.eqb_spec left 0) as [->|Hne]; [intros [= _ <-]; split; [done|]; split; [done|]; exists []; by rewrite app_nil_r|]); [done|].
  intros (c1 & [made st1] & (Hle & Ec & Ef & new1 & E1 & Hn1)%part_adds & (Ec2 & Ef2 & new2 & E2 & Hn2)%IH)%M_bind_Ok.
  split; [congruence|]. split; [congruence|]. exists (new1 ++ new2). rewrite E2, E1, <-app_assoc, len_app. split; [done|]. lia.
Qed.

Lemma start_adds st c c' st' : take_start data st c = (c', Ok st') → ls_history st' = ls_history st ∧ ls_frames st' = ls_frames st.
Proof.
  unfold take_start. destruct (ls_calls st); [by intros [= _ <-]|].
  intros (c1 & bit & _ & H)%M_bind_Ok. by apply M_bind_Ok in H as (c2 & calls & _ & [= _ <-]).
Qed.
End adds.

(** A frame: where it starts in the window, and what is kept behind it. *)
Lemma frame_follows {build : Build} bits d st b c data expected :
  bits ≤ 19 → len data < 2 ^ 64 → lzx_refines bits d st → stands_at data b c →
  follows (lzx_frame expected) (st ← take_start data st; take_parts data bits (N.to_nat expected) expected st)
    (λ start st' s _, start = len (ls_history st) mod 2 ^ bits ∧ ls_frames st' = ls_frames st ∧
      (∃ frame, ls_history st' = ls_history st ++ frame ∧ len frame = expected) ∧ lzx_refines bits s.1 st') (d, b) c.
Proof.
  intros Hbits Hdata Hd Hb. unfold lzx_frame. pose proof (start_follows data bits d st b c Hd Hb) as H1. unfold follows in H1.
  destruct (take_start data st c) as [c1 [st1|u]] eqn:E1.
  2:{ destruct H1 as (s & e & E). unfold follows. rewrite (M_bind_fail _ _ _ _ _ E1). exists s, e. by rewrite (M_bind_fail _ _ _ _ _ E). }
  destruct H1 as ([d1 b1] & [] & E & [Hd1 Hb1]). cbn [fst snd] in *. apply start_adds in E1 as E2. destruct E2 as [Eh Ef].
  eapply follows_right; [exact E1|]. eapply follows_left; [exact E|]. eapply follows_left; [done|]. cbv zeta. cbn [fst].
  pose proof (parts_follow data bits Hbits (N.to_nat expected) expected d1 st1 b1 c1 Hd1 (λ _, Hb1) ltac:(lia) Hdata) as H2. unfold follows in *.
  destruct (take_parts _ _ _ _ _ c1) as [c2 [st2|u]] eqn:E2.
  2:{ destruct H2 as (s & e & E'). exists s, e. by rewrite (M_bind_fail _ _ _ _ _ E'). }
  destruct H2 as (s & [] & E' & Hs). rewrite (M_bind_step _ _ _ _ _ E'). eexists s, _. split; [done|].
  split; [rewrite <-Eh; apply (lh_position _ _ _ (kp_holds _ _ _ _ _ _ _ (rf_keeping _ _ _ Hd1)))|].
  apply parts_add in E2 as (_ & Ef2 & new & En & Hn). split; [by etrans|]. split; [|done]. exists new. by rewrite <-Eh.
Qed.

(** C15: the LZX decoder is exact. A block of a folder is decoded to what its bits
    mean: the header of the folder, blocks with their path lengths and canonical
    codes, literals, matches at new and at repeated offsets, stored bytes, and the
    x86 calls of a translated folder put back; what is kept for the next block is
    what the block means to it. A block that means nothing is refused with an
    error and an empty buffer. The decoder ends, does not panic and keeps its debug
    assertion in every build. Windows are those of up to 512 KiB: a block of a
    larger one may hold a field wider than the reader's seventeen bits. *)
Theorem lzx_decode_block_exact {build : Build} bits d st buffer input expected :
  bits ≤ 19 → len input < 2 ^ 64 → lzx_refines bits d st →
  match lzx_meaning bits input expected st with
  | Some (st', out) => ∃ d', lzx_decode_block input expected (d, buffer) = ((d', out), Ok tt) ∧ lzx_refines bits d' st'
  | None => ∃ d' error, lzx_decode_block input expected (d, buffer) = ((d', []), Err (Fail error))
  end.
Proof.
  intros Hbits Hdata Hd. unfold lzx_decode_block, lzx_meaning. rewrite (M_bind_step (modify _) _ _ (d, []) tt) by done.
  destruct (N.ltb_spec FRAME_SIZE expected) as [|Hfit]; [by do 2 eexists|].
  rewrite (M_bind_step (cab_reject false _) _ _ (d, []) tt) by done.
  destruct (N.eqb_spec expected 0) as [->|Hne]; [by exists d|].
  pose proof (frame_follows bits d st _ _ input expected Hbits Hdata Hd (bits_new_at input)) as H. unfold follows in H.
  destruct ((st ← take_start input st; _) _) as [c' [st'|u]].
  2:{ destruct H as ([d' b'] & e & E). exists d', e. unfold mbind, M_bind. cbn [fst snd]. by rewrite E. }
  destruct H as ([d' b'] & start & E & -> & Ef & (frame & Eh & Hlen) & Hd'). cbn [fst snd] in *.
  pose proof (rf_keeping _ _ _ Hd') as Hk. rewrite Eh in Hk.
  assert (len frame ≤ 2 ^ bits) as Hwin.
  { pose proof (lh_bits _ _ _ (kp_holds _ _ _ _ _ _ _ Hk)) as [Hmin _]. rewrite Hlen. etrans; [exact Hfit|].
    change FRAME_SIZE with (2 ^ 15). by apply N.pow_le_mono_r. }
  pose proof (window_cut bits d' _ frame (kp_holds _ _ _ _ _ _ _ Hk) Hwin) as Hcut. cbv zeta in Hcut. rewrite Hlen in Hcut.
  unfold mbind at 1, M_bind at 1. cbn [fst snd]. rewrite E. rewrite (M_bind_step get _ _ (d', []) (d', [])) by done.
  cbv zeta. cbn [fst]. rewrite Hcut, Eh, drop_app_length. unfold modify. cbn [fst snd].
  rewrite (lh_total _ _ _ (kp_holds _ _ _ _ _ _ _ Hk)), len_app, Hlen, N.add_sub, (kp_frames _ _ _ _ _ _ _ Hk), Ef.
  eexists. split.
  - do 3 f_equal. pose proof (kp_calls _ _ _ _ _ _ _ Hk) as Hc. destruct (ls_calls st') as [[size|]|]; cbn [calls_read] in Hc.
    + destruct Hc as (_ & -> & ->). done.
    + by destruct Hc as [_ ->].
    + by destruct Hc as [_ ->].
  - destruct Hd' as [Hk' Ht Hl Htab]. destruct Hk' as [Hh ? ? ? ? Hc ?]. split; cbn [ls_history ls_trees ls_recent ls_type ls_left ls_calls ls_frames].
    + split; [apply holds_frames; by rewrite <-Eh|by destruct d'..|by destruct (ls_calls st') as [[]|], d'|by destruct d'].
    + by destruct d'.
    + by destruct d'.
    + intros H1 H2. specialize (Htab H1 H2). by destruct d'.
Qed.
