(* ===== verification/CabContents.v ===== *)
(** * Microsoft cabinets: what a folder holds

    The contents of a folder as a specification over the bytes of its volumes,
    and that [read_block], [decode_next] and [fill_next_block] move a stream
    along them block by block. *)

From S2P Require Export CabExtract CabWindow.

(** ** Blocks in the bytes *)

Section area.
Context (volumes : N → option (list byte)).

(** [size] bytes at [offset] of a segment's cabinet. *)
Definition area (segment : FolderSegment) (offset size : N) : option (list byte) :=
  bytes ← volumes (sg_volume segment);
  if offset + size <=? N.min (sg_cabinet_bytes segment) (len bytes) then Some (subslice offset size bytes) else None.

Definition accepted {E A} (r : result E A) : option A := match r with Ok a => Some a | Err _ => None end.

(** A [CFDATA] block: its header, its data, and how far it reaches. *)
Definition block_at (segment : FolderSegment) (offset : N) : option (DataHeader * list byte * N) :=
  let header_len := DATA_FIXED_LEN + sg_data_reserve_bytes segment in
  raw ← area segment offset DATA_FIXED_LEN;
  header ← accepted (data_header_parse raw);
  reserve ← area segment (offset + DATA_FIXED_LEN) (sg_data_reserve_bytes segment);
  compressed ← area segment (offset + header_len) (da_compressed_bytes header);
  _ ← accepted (verify_block_checksum header reserve compressed);
  Some (header, compressed, header_len + da_compressed_bytes header).

(** ** The folder as a sequence of blocks *)

Context {Y : Type} `{RawInflater Y} (limits : CabLimits) (segments : list FolderSegment).

(** Where decoding stands. *)
Record Cursor : Type := {
  cu_segment : N;
  cu_left : N;
  cu_offset : N;
  cu_decoder : Decoder Y;
  cu_produced : N
}.

(** The next block decodes to these bytes; or the next segment begins. *)
Definition next_cursor (c : Cursor) : option (list byte * Cursor) :=
  if cu_left c =? 0 then
    segment ← segments !! N.to_nat (cu_segment c + 1);
    Some ([], {| cu_segment := cu_segment c + 1; cu_left := sg_data_block_count segment;
                 cu_offset := sg_first_data_offset segment; cu_decoder := cu_decoder c; cu_produced := cu_produced c |})
  else
    segment ← segments !! N.to_nat (cu_segment c);
    '(header, data, extent) ← block_at segment (cu_offset c);
    let expected := da_uncompressed_bytes header in
    if cl_max_folder_uncompressed_bytes limits <? cu_produced c + expected then None
    else
      match decode_data data expected (cu_decoder c, []) with
      | ((decoder, out), Ok _) =>
          Some (out, {| cu_segment := cu_segment c; cu_left := cu_left c - 1; cu_offset := cu_offset c + extent;
                        cu_decoder := decoder; cu_produced := cu_produced c + expected |})
      | (_, Err _) => None
      end.

(** The bytes between two cursors. *)
Inductive folder_bytes : Cursor → list byte → Cursor → Prop :=
| FB_here c : folder_bytes c [] c
| FB_next c bytes c' rest c'' :
    next_cursor c = Some (bytes, c') → folder_bytes c' rest c'' → folder_bytes c (bytes ++ rest) c''.

Lemma folder_bytes_app c bytes c' rest c'' :
  folder_bytes c bytes c' → folder_bytes c' rest c'' → folder_bytes c (bytes ++ rest) c''.
Proof. induction 1; intros; [done|]. rewrite <-app_assoc. by econstructor; eauto. Qed.

Lemma folder_bytes_one c bytes c' : next_cursor c = Some (bytes, c') → folder_bytes c bytes c'.
Proof. intros E. rewrite <-(app_nil_r bytes). by econstructor; [|constructor]. Qed.

(** There is one folder: of two readings one goes on where the other ends. *)
Lemma folder_bytes_linear c p c1 q c2 :
  folder_bytes c p c1 → folder_bytes c q c2 →
  (∃ rest, q = p ++ rest ∧ folder_bytes c1 rest c2) ∨ (∃ rest, p = q ++ rest ∧ folder_bytes c2 rest c1).
Proof.
  intros Hp. revert q c2. induction Hp as [c|c bytes c' rest c'' Hnext Hp IH]; intros q c2 Hq; [by left; exists q|].
  destruct Hq as [c|c bytes' c2' rest' c2 Hnext' Hq].
  { right. exists (bytes ++ rest). split; [done|]. by econstructor. }
  rewrite Hnext in Hnext'. injection Hnext' as <- <-.
  destruct (IH _ _ Hq) as [(more & -> & Hm)|(more & -> & Hm)]; [left|right]; exists more; by rewrite app_assoc.
Qed.

(** Nothing comes after the cursor. *)
Definition stuck (c : Cursor) : Prop := ∀ more c', folder_bytes c more c' → more = [].

Lemma no_next_stuck c : next_cursor c = None → stuck c.
Proof. intros E more c' Hm. destruct Hm as [|????? E']; [done|]. by rewrite E in E'. Qed.

Lemma stuck_longest c p c1 q c2 : folder_bytes c p c1 → stuck c1 → folder_bytes c q c2 → len q ≤ len p.
Proof.
  intros Hp Hs Hq. destruct (folder_bytes_linear _ _ _ _ _ Hp Hq) as [(rest & -> & Hr)|(rest & -> & _)].
  - apply Hs in Hr as ->. by rewrite app_nil_r.
  - rewrite len_app. lia.
Qed.

Definition cursor_of (s : FolderStream Y) : Cursor :=
  {| cu_segment := fs_segment s; cu_left := fs_blocks_left s; cu_offset := fs_offset s;
     cu_decoder := fs_decoder s; cu_produced := es_uncompressed_bytes (fs_stats s) |}.
End area.

Arguments Cursor : clear implicits.
Arguments cursor_of {Y} s.

(** What a folder of these segments can be decoded to; [data] is the beginning of it. *)
Definition folder_holds {Y} `{RawInflater Y} (volumes : N → option (list byte)) (compression : Compression)
    (limits : CabLimits) (segments : list FolderSegment) (data : list byte) : Prop :=
  ∃ s c, folder_stream_new compression limits segments = Ok s ∧
    folder_bytes volumes limits segments (cursor_of s) data c.

(** ** Decoders *)

Section decoders.
Context {Y : Type} `{RawInflaterLaws Y}.

Definition decoder_wf (d : Decoder Y) : Prop :=
  match d with
  | DC_Stored => True
  | DC_MsZip d => mszip_wf d
  | DC_Lzx d => ∃ bits hist, lzx_holds bits d hist
  end.

Lemma decoder_new_wf compression limits d : decoder_new compression limits = Ok d → decoder_wf d.
Proof.
  destruct compression; cbn; try done; [by intros [= <-]|intros [= <-]; apply mszip_new_wf|].
  destruct (lzx_new window_bits limits) as [lzx|] eqn:E; [|done]. intros [= <-]. apply lzx_new_holds in E as [E _].
  by exists window_bits, [].
Qed.

(** A block is decoded to as many bytes as its header says, or refused; what the
    buffer held before does not matter. *)
Lemma decode_data_wp data expected d block :
  decoder_wf d →
  wp (decode_data data expected)
    (λ _ s, decode_data data expected (d, []) = (s, Ok tt) ∧ decoder_wf s.1 ∧ len s.2 = expected)
    (λ e s, is_fail e ∧ ∃ s', decode_data data expected (d, []) = (s', Err e)) (d, block).
Proof.
  intros Hd. destruct d as [|d|d]; cbn [decoder_wf] in Hd; unfold wp, decode_data.
  - destruct (N.eqb_spec (len data) expected); cbn [negb]; [done|]. split; [apply fails_with|by eexists].
  - pose proof (mszip_decode_block_total data expected d block Hd) as Hw. unfold wp in Hw.
    change (mszip_decode_block data expected (d, [])) with (mszip_decode_block data expected (d, block)).
    destruct (mszip_decode_block data expected (d, block)) as [[d' out] [[]|e]]; cbn [fst snd] in *.
    + by destruct Hw as (? & ? & _).
    + destruct Hw as (_ & _ & He). split; [done|by eexists].
  - destruct Hd as (bits & hist & Hd). pose proof (lzx_decode_block_wp bits d hist block data expected Hd) as Hw. unfold wp in Hw.
    change (lzx_decode_block data expected (d, [])) with (lzx_decode_block data expected (d, block)).
    destruct (lzx_decode_block data expected (d, block)) as [[d' out] [[]|e]]; cbn [fst snd] in *.
    + destruct Hw as (_ & tokens & frame & Hb). split; [done|]. split; [eexists _, _; apply Hb|].
      rewrite (bk_out _ _ _ _ _ _ _ _ Hb). unfold lzx_translated.
      destruct (_ && _); [|apply Hb]. rewrite len_e8_reverse. apply Hb.
    + destruct Hw as (He & _ & _). split; [done|by eexists].
Qed.
End decoders.

(** * Microsoft cabinets: block by block

    [read_block], [decode_next] and [fill_next_block] move a stream along the
    contents of its folder. *)

(** The widths of a segment's fields. *)
Record segment_fits (segment : FolderSegment) : Prop := {
  sf_bytes : fits 32 (sg_cabinet_bytes segment);
  sf_offset : fits 32 (sg_first_data_offset segment);
  sf_blocks : fits 16 (sg_data_block_count segment);
  sf_reserve : fits 8 (sg_data_reserve_bytes segment)
}.

(** A source that never fails inside a volume, and a run nobody cancels. *)
Definition volumes_steady (W : Type) `{VolumeSource W} (volumes : N → option (list byte)) : Prop :=
  ∀ volume bytes offset size w, volumes volume = Some bytes → offset + size ≤ len bytes →
    ∃ data, (volume_read_at volume offset size w).2 = Ok data.
Definition uncancelled (W : Type) `{CabCancellation W} : Prop := ∀ w : W, (cab_is_cancelled w).2 = false.

Section steps.
Context {Y : Type} `{RawInflaterLaws Y}.
Context {W : Type} `{VolumeSource W} `{CabCancellation W} (volumes : N → option (list byte)) `{!ServesVolumes W volumes}.
Context (limits : CabLimits) (segments : list FolderSegment) (Hsegments : Forall segment_fits segments).
Abbreviation St := (FolderStream Y * W)%type.
Abbreviation next := (next_cursor volumes limits segments).

(** Nothing but the folder itself can stop the stream. *)
Definition steady : Prop := volumes_steady W volumes ∧ uncancelled W.

(** An error that the folder is the reason of, if the environment is steady. *)
Definition refuses (P : Prop) (e : Stop CabinetError) : Prop := is_fail e ∧ (steady → P).

Lemma refuses_with (P : Prop) error : (steady → P) → refuses P (Fail error).
Proof. split; [apply fails_with|done]. Qed.

Lemma refuses_mono (P Q : Prop) e : refuses P e → (P → Q) → refuses Q e.
Proof. intros [He Hp] Hpq. split; [done|]. intros Hs. by apply Hpq, Hp. Qed.

Lemma read_within_wp segment offset size (self : FolderStream Y) (w : W) :
  segment_fits segment →
  wp (read_within segment offset size)
    (λ data s, s.1 = self ∧ area volumes segment offset size = Some data)
    (λ e _, refuses (area volumes segment offset size = None) e) (self, w).
Proof.
  intros Hfits. unfold read_within, on_source. apply wp_zoom, wp_map_errM. cbn [fst snd]. unfold table_read_within.
  pose proof (sf_bytes _ Hfits) as Hb. unfold fits in Hb. change (2 ^ 32) with 4294967296 in Hb.
  apply wp_bind, wp_lift.
  2:{ intros e He. apply refuses_with. intros _. unfold area. destruct (volumes _); [|done]. cbn.
      destruct (N.leb_spec (offset + size) (N.min (sg_cabinet_bytes segment) (len l))) as [Hle|]; [|done]. exfalso.
      unfold checked_add in He. rewrite (proj2 (N.ltb_lt _ _)) in He; [done|]. change (2 ^ 64) with 18446744073709551616. lia. }
  intros stop E. apply ok_or_Ok, checked_add_Some in E as [_ ->]. apply wp_bind, wp_lift.
  2:{ intros e He. apply refuses_with. intros _. unfold area. destruct (volumes _); [|done]. cbn.
      destruct (N.leb_spec (offset + size) (N.min (sg_cabinet_bytes segment) (len l))) as [Hle|]; [|done]. exfalso.
      rewrite (proj2 (N.ltb_ge _ _)) in He; [done|lia]. }
  intros [] Hc%guard_err_Ok%N.ltb_ge.
  pose proof (serves_read (volumes := volumes) (sg_volume segment) offset size w) as Hserves. unfold wp.
  destruct (volume_read_at (sg_volume segment) offset size w) as [w' [data|e]] eqn:E; cbn [snd fst] in *.
  - destruct Hserves as (bytes & Ev & Hin & ->). split; [done|]. unfold area. rewrite Ev. cbn.
    by rewrite (proj2 (N.leb_le _ _)) by lia.
  - apply refuses_with. intros [Hsteady _]. unfold area. destruct (volumes (sg_volume segment)) as [bytes|] eqn:Ev; [|done]. cbn.
    destruct (N.leb_spec (offset + size) (N.min (sg_cabinet_bytes segment) (len bytes))); [|done].
    destruct (Hsteady _ bytes offset size w Ev) as [data Hdata]; [lia|]. by rewrite E in Hdata.
Qed.

Lemma area_inside segment offset size data :
  area volumes segment offset size = Some data → offset + size ≤ sg_cabinet_bytes segment.
Proof.
  unfold area. destruct (volumes _); [|done]. cbn. destruct (N.leb_spec (offset + size) (N.min (sg_cabinet_bytes segment) (len l))); [lia|done].
Qed.

Lemma block_at_inside segment offset header data extent :
  block_at volumes segment offset = Some (header, data, extent) → offset + extent ≤ sg_cabinet_bytes segment.
Proof.
  unfold block_at. intros E. repeat (apply bind_Some in E as (? & ? & E)). injection E as -> -> <-.
  match goal with H : area _ _ _ (da_compressed_bytes _) = _ |- _ => apply area_inside in H end. lia.
Qed.

(** No bytes are read of an empty reserved area. *)
Lemma area_nothing segment offset size data :
  area volumes segment offset size = Some data → area volumes segment (offset + size) 0 = Some [].
Proof.
  unfold area. destruct (volumes _); [|done]. cbn. rewrite N.add_0_r. by destruct (_ <=? _).
Qed.

Lemma read_block_wp segment self w :
  fs_segments self = segments → segments !! N.to_nat (fs_segment self) = Some segment →
  wp (read_block (Y := Y))
    (λ r s, block_at volumes segment (fs_offset self) = Some r ∧
       ∃ stats, s.1 = fs_put_stats stats self ∧ es_uncompressed_bytes stats = es_uncompressed_bytes (fs_stats self))
    (λ e _, refuses (block_at volumes segment (fs_offset self) = None) e) (self, w).
Proof.
  intros Hs Hsegment. assert (segment_fits segment) as Hfits by by eapply list.Forall_lookup_1.
  unfold read_block. apply wp_bind, wp_get. cbn [fst]. rewrite Hs, Hsegment. apply wp_bind, wp_cab_try. cbn [ok_or]. cbv zeta.
  unfold block_at. set (offset := fs_offset self).
  apply wp_bind. eapply wp_mono; [by apply read_within_wp|..].
  2:{ intros e s He. eapply refuses_mono; [exact He|]. by intros ->. }
  intros raw [f1 w1] [Ef1 Eraw]. cbn [fst] in Ef1. subst f1. rewrite Eraw. cbn [mbind option_bind].
  apply wp_bind, wp_cab_try. destruct (data_header_parse raw) as [header|]; [|by apply refuses_with]. cbn [accepted mbind option_bind].
  set (reserve_len := sg_data_reserve_bytes segment). apply wp_bind.
  assert (wp (if 0 <? reserve_len then read_within segment (offset + DATA_FIXED_LEN) reserve_len else mret [])
    (λ reserve s, s.1 = self ∧ area volumes segment (offset + DATA_FIXED_LEN) reserve_len = Some reserve)
    (λ e _, refuses (area volumes segment (offset + DATA_FIXED_LEN) reserve_len = None) e) (self, w1)) as Hreserve.
  { destruct (N.ltb_spec 0 reserve_len) as [|Hz]; [by apply read_within_wp|]. apply wp_ret. split; [done|].
    assert (reserve_len = 0) as -> by lia. by eapply area_nothing. }
  eapply wp_mono; [exact Hreserve|..].
  2:{ intros e s He. eapply refuses_mono; [exact He|]. by intros ->. }
  clear Hreserve. intros reserve [f2 w2] [Ef2 Er]. cbn [fst] in Ef2. subst f2. rewrite Er. cbn [mbind option_bind].
  apply wp_bind. eapply wp_mono; [by apply read_within_wp|..].
  2:{ intros e s He. eapply refuses_mono; [exact He|]. by intros ->. }
  intros data [f3 w3] [Ef3 Ed]. cbn [fst] in Ef3. subst f3. rewrite Ed. cbn [mbind option_bind].
  apply wp_bind, wp_cab_try. destruct (verify_block_checksum header reserve data); [|by apply refuses_with]. cbn [accepted mbind option_bind].
  apply wp_bind, wp_modify, wp_ret. cbn [fst snd]. split; [done|]. by eexists.
Qed.

Lemma poll_wp self w (Q : unit → St → Prop) (R : Stop CabinetError → St → Prop) :
  (∀ w', Q tt (self, w')) → (∀ e w', refuses False e → R e (self, w')) → wp (poll_cancelled (Y := Y)) Q R (self, w).
Proof.
  intros HQ HR. unfold poll_cancelled. apply wp_bind, wp_zoom. cbn [snd fst]. unfold wp at 1.
  destruct (cab_is_cancelled w) as [w' c] eqn:E. apply wp_cab_reject. destruct c; [|apply HQ].
  apply HR, refuses_with. intros [_ Hc]. specialize (Hc w). by rewrite E in Hc.
Qed.

(** ** Moving on *)

Definition segment_turns (segment : FolderSegment) : N := sg_data_block_count segment + 1.
Definition turns_of (l : list FolderSegment) : N := foldr (λ segment n, segment_turns segment + n) 0 l.

(** How many turns are left. *)
Definition turns_left (self : FolderStream Y) : N :=
  fs_blocks_left self + turns_of (drop (N.to_nat (fs_segment self + 1)) segments).

Lemma turns_of_drop i segment :
  segments !! i = Some segment → turns_of (drop i segments) = segment_turns segment + turns_of (drop (S i) segments).
Proof. intros E. by rewrite (drop_S segments segment i E). Qed.

(** The stream stands at the cursor [c] of its folder. *)
Record tracks (c : Cursor Y) (self : FolderStream Y) : Prop := {
  tr_segments : fs_segments self = segments;
  tr_limits : fs_limits self = limits;
  tr_decoder : decoder_wf (fs_decoder self);
  tr_cursor : if fs_finished self then stuck volumes limits segments c else c = cursor_of self;
  tr_turns : turns_left self < 2 ^ 70;
  tr_block : len (fs_block self) ≤ MAX_BLOCK_UNCOMPRESSED
}.

(** The stream [self] went on to [self'] over [bytes]. *)
Record stepped (self : FolderStream Y) (bytes : list byte) (self' : FolderStream Y) : Prop := {
  sp_next : next (cursor_of self) = Some (bytes, cursor_of self');
  sp_tracks : tracks (cursor_of self') self';
  sp_finished : fs_finished self' = false;
  sp_position : fs_position self' = fs_position self;
  sp_turns : turns_left self' < turns_left self
}.

Lemma data_header_size raw header :
  data_header_parse raw = Ok header → da_uncompressed_bytes header ≤ MAX_BLOCK_UNCOMPRESSED.
Proof.
  unfold data_header_parse, read_fields. intros E.
  match type of E with (?m ?s).2 = _ => destruct (m s) as [s' r] eqn:Em end. cbn [snd] in E. subst r.
  repeat (apply M_bind_Ok in Em as (? & ? & ? & Em)). cbn in Em. injection Em as _ <-. cbn.
  match goal with H : lift (guard_err (_ || _) _) _ = _ |- _ => injection H as _ H; apply guard_err_Ok, orb_false_iff in H as [_ H] end.
  by apply N.ltb_ge.
Qed.

Lemma block_at_size segment offset header data extent :
  block_at volumes segment offset = Some (header, data, extent) → da_uncompressed_bytes header ≤ MAX_BLOCK_UNCOMPRESSED.
Proof.
  unfold block_at. intros E. apply bind_Some in E as (raw & _ & E). apply bind_Some in E as (header' & Eh & E).
  repeat (apply bind_Some in E as (? & ? & E)). injection E as -> _ _.
  destruct (data_header_parse raw) as [h|] eqn:Er; [|done]. injection Eh as ->. by eapply data_header_size.
Qed.

Lemma decode_next_wp segment self w :
  tracks (cursor_of self) self → fs_blocks_left self ≠ 0 → fs_finished self = false →
  segments !! N.to_nat (fs_segment self) = Some segment →
  wp decode_next
    (λ r s, ∃ bytes, stepped self bytes s.1 ∧ fs_block s.1 = bytes ∧ fs_block_position s.1 = 0 ∧
       match r with inl _ => bytes = [] | inr more => more = true ∧ bytes ≠ [] end)
    (λ e _, refuses (next (cursor_of self) = None) e) (self, w).
Proof.
  intros Hok Hleft Hfin Hsegment. pose proof Hok as [Hs Hl Hd _ Ht _]. unfold decode_next.
  assert (Hnext : next (cursor_of self) = '(header, data, extent) ← block_at volumes segment (fs_offset self);
    if cl_max_folder_uncompressed_bytes limits <? es_uncompressed_bytes (fs_stats self) + da_uncompressed_bytes header then None
    else match decode_data data (da_uncompressed_bytes header) (fs_decoder self, []) with
      | ((decoder, out), Ok _) =>
          Some (out, {| cu_segment := fs_segment self; cu_left := fs_blocks_left self - 1; cu_offset := fs_offset self + extent;
                        cu_decoder := decoder; cu_produced := es_uncompressed_bytes (fs_stats self) + da_uncompressed_bytes header |})
      | (_, Err _) => None
      end).
  { unfold next_cursor. cbn [cu_left cu_segment cu_offset cu_decoder cu_produced cursor_of].
    by rewrite (proj2 (N.eqb_neq _ _) Hleft), Hsegment. }
  rewrite Hnext. apply wp_bind. eapply wp_mono; [by apply (read_block_wp segment self w)|..].
  2:{ intros e s He. eapply refuses_mono; [exact He|]. by intros ->. }
  intros [[header data] extent] [f1 w1] (Eblock & stats & Ef1 & Hstats). cbn [fst] in Ef1. subst f1. rewrite Eblock. cbn [mbind option_bind].
  cbv zeta. apply wp_bind, wp_get. cbn [fst]. set (expected := da_uncompressed_bytes header).
  assert (es_uncompressed_bytes (fs_stats (fs_put_stats stats self)) = es_uncompressed_bytes (fs_stats self)) as -> by by destruct self.
  assert (fs_limits (fs_put_stats stats self) = limits) as -> by by destruct self.
  apply wp_bind, wp_cab_reject. destruct (_ <? _) eqn:Elimit; [by apply refuses_with|].
  apply wp_bind, wp_zoom. cbn [fst snd].
  assert (fs_decoder (fs_put_stats stats self) = fs_decoder self) as -> by by destruct self.
  eapply wp_mono; [by apply decode_data_wp|..].
  2:{ intros e s [He [s' Es]]. split; [done|]. intros _. rewrite Es. by destruct s'. }
  intros [] [decoder out] (Edec & Hdec & Hlen). cbn [fst snd] in *. rewrite Edec.
  apply wp_bind, wp_modify. cbn [fst snd]. apply wp_bind, wp_modify. cbn [fst snd]. apply wp_bind, wp_get. cbn [fst].
  assert (fs_offset self + extent < 2 ^ 64) as Hextent.
  { apply block_at_inside in Eblock.
    pose proof (sf_bytes _ (Forall_lookup_1 _ _ _ _ Hsegments Hsegment)) as Hb. unfold fits in Hb.
    change (2 ^ 32) with 4294967296 in Hb. change (2 ^ 64) with 18446744073709551616. lia. }
  destruct self as [li sg sn bl off de bk bp po st fi].
  cbn [fs_put_segment fs_put_decoded fs_put_stats fs_put_block_position fs_offset fs_blocks_left fs_segment fs_stats
    fs_limits fs_segments fs_block fs_position fs_finished fs_decoder es_uncompressed_bytes] in *.
  rewrite (proj2 (checked_add_Some 64 off extent (off + extent))) by done.
  apply wp_bind, wp_cab_try. cbn [ok_or]. apply wp_bind, wp_modify, wp_ret. cbn [fst snd fs_put_segment fs_block fs_block_position fs_finished].
  assert (len out ≤ MAX_BLOCK_UNCOMPRESSED) as Hsize by by rewrite Hlen; eapply block_at_size.
  exists out. split.
  { split.
    - rewrite Hnext, Eblock. cbn [mbind option_bind]. fold expected. rewrite Elimit, Edec.
      unfold cursor_of. cbn. by rewrite Hstats.
    - unfold turns_left in *. cbn in *. split; unfold turns_left; cbn; [done|done|done|by rewrite Hfin|lia|done].
    - done.
    - done.
    - unfold turns_left. cbn. lia. }
  split; [done|]. split; [done|].
  destruct (N.eqb_spec expected 0) as [E0|Hne].
  - by apply len_0_nil; rewrite Hlen.
  - split; [done|]. intros ->. by apply Hne.
Qed.

(** [fill_next_block] on a buffer that is used up. *)
Lemma fill_next_block_wp c self w :
  tracks c self → fs_block_position self = len (fs_block self) →
  wp fill_next_block
    (λ more s, ∃ bytes c', folder_bytes volumes limits segments c bytes c' ∧ tracks c' s.1 ∧
       fs_position s.1 = fs_position self ∧
       if more : bool then bytes ≠ [] ∧ fs_block s.1 = bytes ∧ fs_block_position s.1 = 0
       else bytes = [] ∧ stuck volumes limits segments c' ∧ fs_block_position s.1 = len (fs_block s.1))
    (λ e _, refuses (stuck volumes limits segments c) e) (self, w).
Proof.
  intros Htr Hbuf. unfold fill_next_block.
  set (Inv := λ (_ : unit) (s : St), ∃ c', folder_bytes volumes limits segments c [] c' ∧ tracks c' s.1 ∧
    fs_position s.1 = fs_position self ∧ fs_block_position s.1 = len (fs_block s.1)).
  apply (loop_W_wp _ Inv (λ _ s, turns_left s.1)).
  { exists c. split; [constructor|done]. }
  { intros _ s (c' & _ & Ht & _). eapply N.lt_trans; [apply (tr_turns _ _ Ht)|]. by vm_compute. }
  clear w Htr Hbuf. intros [] [s w] (c' & Hc & Htr & Hpos & Hbuf). cbn [fst] in *.
  assert (Hstuck : stuck volumes limits segments c' → stuck volumes limits segments c).
  { intros Hs more c'' Hmore. apply len_0_nil. pose proof (stuck_longest _ _ _ _ _ _ _ _ Hc Hs Hmore) as Hl. unfold len in *. cbn in Hl. lia. }
  unfold fill_turn. apply wp_bind, wp_get. cbv zeta. cbn [fst]. pose proof (tr_cursor _ _ Htr) as Hcur.
  destruct (fs_finished s) eqn:Efin.
  { apply wp_ret. exists [], c'. cbn [fst]. done. }
  subst c'. destruct (N.eqb_spec (fs_blocks_left s) 0) as [E0|Hleft].
  - rewrite (tr_segments _ _ Htr). destruct (segments !! N.to_nat (fs_segment s + 1)) as [segment|] eqn:Eseg.
    + apply wp_bind, wp_modify, wp_ret. cbn [fst snd].
      set (s' := fs_put_segment _ _ _ s).
      assert (next (cursor_of s) = Some ([], cursor_of s')) as En.
      { unfold next_cursor. cbn [cursor_of cu_left cu_segment]. rewrite E0, Eseg. cbn. by destruct s. }
      assert (turns_left s' < turns_left s) as Hturns.
      { unfold turns_left. destruct s. cbn in *. rewrite (turns_of_drop _ segment Eseg). unfold segment_turns.
        replace (N.to_nat (fs_segment + 1 + 1)) with (S (N.to_nat (fs_segment + 1))) by lia. lia. }
      split; [|done]. exists (cursor_of s'). split; [|split; [|by destruct s]].
      * change (@nil byte) with ([] ++ [] : list byte). eapply folder_bytes_app; [done|]. by apply folder_bytes_one.
      * destruct Htr as [? ? ? _ Ht ?]. split; [by destruct s..| |by eapply N.lt_trans|by destruct s].
        destruct s. cbn in *. by rewrite Efin.
    + apply wp_bind, wp_modify, wp_ret. cbn [fst snd]. exists [], (cursor_of s). split; [done|].
      assert (stuck volumes limits segments (cursor_of s)) as Hst.
      { apply no_next_stuck. unfold next_cursor. cbn [cursor_of cu_left cu_segment]. by rewrite E0, Eseg. }
      split; [|by destruct s]. destruct Htr as [? ? ? _ Ht ?]. split; [by destruct s..| |by destruct s].
      unfold turns_left in *. destruct s. cbn in *. apply lookup_ge_None in Eseg.
      rewrite drop_ge in * by lia. cbn. lia.
  - destruct (segments !! N.to_nat (fs_segment s)) as [segment|] eqn:Eseg.
    2:{ apply wp_bind, poll_wp; [|intros e w' He; eapply refuses_mono; [exact He|done]]. intros w'.
        unfold decode_next, read_block. apply wp_bind, wp_bind, wp_get. cbn [fst]. rewrite (tr_segments _ _ Htr), Eseg.
        apply wp_bind, wp_cab_try, refuses_with. intros _. apply Hstuck, no_next_stuck. unfold next_cursor.
        cbn [cursor_of cu_left cu_segment]. by rewrite (proj2 (N.eqb_neq _ _) Hleft), Eseg. }
    apply wp_bind, poll_wp; [|intros e w' He; eapply refuses_mono; [exact He|done]].
    intros w'. eapply wp_mono; [by apply (decode_next_wp segment s w')|..].
    2:{ intros e s' He. eapply refuses_mono; [exact He|]. intros En. by apply Hstuck, no_next_stuck. }
    intros r [s' w''] (bytes & Hstep & Hblock & Hposition & Hr). cbn [fst] in *.
    assert (folder_bytes volumes limits segments c bytes (cursor_of s')) as Hc'.
    { change bytes with ([] ++ bytes). eapply folder_bytes_app; [done|]. apply folder_bytes_one, Hstep. }
    destruct r as [[]|more].
    + subst bytes. rewrite Hr in Hc'. unfold Inv. cbn [fst]. split; [|apply Hstep]. exists (cursor_of s'). split; [done|]. split; [apply Hstep|].
      split; [by etrans; [apply (sp_position _ _ _ Hstep)|]|]. by rewrite Hposition, Hr.
    + destruct Hr as [-> Hne]. exists bytes, (cursor_of s'). split; [done|]. split; [apply Hstep|].
      split; [by etrans; [apply (sp_position _ _ _ Hstep)|]|]. done.
Qed.
End steps.
