(* ===== verification/CabFile.v ===== *)
(** * Microsoft cabinets: a file is a range of its folder

    [FolderStream::read], [skip], [FileStream] and [extract_file] against the
    contents of the folder: exactly the file's bytes, or a reason. *)

From S2P Require Export CabContents.

Lemma subslice_app_front {A} a n (l m : list A) : a + n ≤ len l → subslice a n (l ++ m) = subslice a n l.
Proof.
  intros Hin. unfold subslice, len in *. rewrite drop_app_le by lia. by rewrite take_app_le by (rewrite length_drop; lia).
Qed.

Section file.
Context {Y : Type} `{RawInflaterLaws Y}.
Context {W : Type} `{VolumeSource W} `{CabCancellation W} (volumes : N → option (list byte)) `{!ServesVolumes W volumes}.
Context (limits : CabLimits) (segments : list FolderSegment) (Hsegments : Forall segment_fits segments).
Context (c0 : Cursor Y).
Abbreviation St := (FolderStream Y * W)%type.
Abbreviation bytes_to := (folder_bytes volumes limits segments c0).
Abbreviation tracks := (tracks volumes limits segments).
Abbreviation refuses := (refuses (W := W) volumes).

(** The folder ends in front of [size]. *)
Definition shorter (size : N) : Prop := ∀ data c, bytes_to data c → len data < size.

Lemma shorter_le a b : shorter a → a ≤ b → shorter b.
Proof. intros Ha Hab data c Hd. specialize (Ha data c Hd). lia. Qed.

(** The reader has taken [n] bytes of the [data] decoded so far; the rest of it is
    in the block buffer. *)
Record positioned (data : list byte) (n : N) (s : FolderStream Y) : Prop := {
  ps_cursor : ∃ c, bytes_to data c ∧ tracks c s;
  ps_block : fs_block_position s ≤ len (fs_block s);
  ps_size : len (fs_block s) ≤ MAX_BLOCK_UNCOMPRESSED;
  ps_taken : n ≤ len data;
  ps_rest : drop (N.to_nat (fs_block_position s)) (fs_block s) = drop (N.to_nat n) data
}.

Lemma drop_len {A} (l : list A) k m n : k ≤ len l → n ≤ len m → drop (N.to_nat k) l = drop (N.to_nat n) m → len l - k = len m - n.
Proof. intros Hk Hn E. apply (f_equal length) in E. rewrite !length_drop in E. unfold len in *. lia. Qed.

(** Nothing is left in the buffer. *)
Lemma positioned_end data n s : positioned data n s → fs_block_position s = len (fs_block s) → n = len data.
Proof. intros [_ Hb _ Ht Hr] E. pose proof (drop_len _ _ _ _ Hb Ht Hr). lia. Qed.

Lemma cab_refill_wp data n self w :
  positioned data n self → fs_block_position self = len (fs_block self) →
  wp fill_next_block
    (λ more s, fs_position s.1 = fs_position self ∧
       if more : bool then ∃ extra, positioned (data ++ extra) n s.1 ∧ fs_block_position s.1 < len (fs_block s.1)
       else positioned data n s.1 ∧ fs_block_position s.1 = len (fs_block s.1) ∧ shorter (n + 1))
    (λ e _, refuses (shorter (n + 1)) e) (self, w).
Proof.
  intros Hp Hbuf. pose proof (positioned_end _ _ _ Hp Hbuf) as ->. destruct Hp as [(c & Hc & Htr) _ _ _ _].
  assert (Hstuck : ∀ c', bytes_to data c' → stuck volumes limits segments c' → shorter (len data + 1)).
  { intros c' Hc' Hs q cq Hq. pose proof (stuck_longest _ _ _ _ _ _ _ _ Hc' Hs Hq). lia. }
  eapply wp_mono; [by apply (fill_next_block_wp volumes limits segments Hsegments c self w)|..].
  2:{ intros e _ [He Hst]. split; [done|]. intros Hsteady. by eapply Hstuck, Hst. }
  intros more [s w'] (bytes & c' & Hmore & Htr' & Hpos & Hr). cbn [fst] in *. split; [done|].
  assert (bytes_to (data ++ bytes) c') as Hc' by by eapply folder_bytes_app.
  destruct more.
  - destruct Hr as (Hne & Hblock & Hposition). exists bytes. split.
    + split; [by exists c'|rewrite Hposition; apply N.le_0_l|apply Htr'|rewrite len_app; lia|].
      by rewrite Hposition, Hblock, len_to_nat, drop_app_length.
    + rewrite Hposition, Hblock. apply N.neq_0_lt_0. by rewrite len_0_nil.
  - destruct Hr as (-> & Hst & Hposition). rewrite app_nil_r in Hc'. split; [|split; [done|by eapply Hstuck]].
    split; [by exists c'|by rewrite Hposition|apply Htr'|done|].
    by rewrite Hposition, !len_to_nat, !drop_all.
Qed.

(** Bytes of the buffer are the next bytes of the folder. *)
Lemma advance data n s k :
  positioned data n s → k ≤ len (fs_block s) - fs_block_position s →
  positioned data (n + k) (fs_put_block_position (fs_block_position s + k) s) ∧
  subslice (fs_block_position s) k (fs_block s) = subslice n k data.
Proof.
  intros [(c & Hc & Htr) Hb Hz Ht Hr] Hk. pose proof (drop_len _ _ _ _ Hb Ht Hr) as Hl. split.
  - split.
    + exists c. split; [done|]. destruct Htr. by split; destruct s.
    + destruct s. cbn in *. lia.
    + by destruct s.
    + lia.
    + assert (∀ A (l : list A) a b, drop (N.to_nat (a + b)) l = drop (N.to_nat b) (drop (N.to_nat a) l)) as Hd.
      { intros. by rewrite drop_drop, N2Nat.inj_add. }
      destruct s. cbn in *. rewrite !Hd. by rewrite Hr.
  - unfold subslice. by rewrite Hr.
Qed.

(** Two turns' progress: bytes taken, or a buffer filled. *)
Definition effort (goal taken : N) (s : FolderStream Y) : N :=
  2 * (goal - taken) + (if fs_block_position s =? len (fs_block s) then 1 else 0).

Lemma effort_bound goal taken s : goal < 2 ^ 64 → effort goal taken s < N.pos WISE_FUEL.
Proof.
  intros Hg. unfold effort. change (N.pos WISE_FUEL) with 4722366482869645213696.
  change (2 ^ 64) with 18446744073709551616 in Hg. destruct (_ =? _); lia.
Qed.

Lemma effort_filled goal taken s s' :
  fs_block_position s = len (fs_block s) → fs_block_position s' < len (fs_block s') → effort goal taken s' < effort goal taken s.
Proof. intros E Hlt. unfold effort. rewrite E, N.eqb_refl, (proj2 (N.eqb_neq _ _)) by lia. lia. Qed.

Lemma effort_taken goal taken k s s' : 0 < k → taken + k ≤ goal → effort goal (taken + k) s' < effort goal taken s.
Proof. intros. unfold effort. destruct (_ =? _), (_ =? _); lia. Qed.

Lemma available_exact data n s : positioned data n s →
  wrapping_sub 64 (len (fs_block s)) (fs_block_position s) = len (fs_block s) - fs_block_position s.
Proof.
  intros Hp. apply wrapping_sub_small; [apply (ps_block _ _ _ Hp)|].
  eapply N.le_lt_trans; [apply (ps_size _ _ _ Hp)|]. done.
Qed.

Lemma position_exact data n s k : positioned data n s → k ≤ len (fs_block s) - fs_block_position s →
  wrapping_add 64 (fs_block_position s) k = fs_block_position s + k.
Proof.
  intros Hp Hk. apply wrapping_add_small. pose proof (ps_block _ _ _ Hp). pose proof (ps_size _ _ _ Hp) as Hz.
  apply N.le_lt_trans with MAX_BLOCK_UNCOMPRESSED; [lia|done].
Qed.

Lemma positioned_put_position data n s x : positioned data n s → positioned data n (fs_put_position x s).
Proof.
  intros [(c & Hc & []) ? ? ? ?]. split; [|by destruct s..]. exists c. split; [done|]. by split; destruct s.
Qed.

(** [skip] passes over bytes of the folder; short of [count] only at its end. *)
Lemma folder_skip_wp count data n self w :
  positioned data n self → count < 2 ^ 64 →
  wp (folder_skip count)
    (λ skipped s, ∃ more, positioned (data ++ more) (n + skipped) s.1 ∧ skipped ≤ count ∧
       fs_position s.1 = wrapping_add 64 (fs_position self) skipped ∧ (skipped < count → shorter (n + count)))
    (λ e _, refuses (shorter (n + count)) e) (self, w).
Proof.
  intros Hp Hcount. unfold folder_skip. apply wp_bind.
  set (Inv := λ (skipped : N) (s : St), skipped ≤ count ∧ fs_position s.1 = fs_position self ∧
    ∃ more, positioned (data ++ more) (n + skipped) s.1).
  eapply (loop_W_wp _ Inv (λ skipped s, effort count skipped s.1)).
  { split; [apply N.le_0_l|]. split; [done|]. exists []. by rewrite app_nil_r, N.add_0_r. }
  { intros skipped s _. by apply effort_bound. }
  clear Hp w. intros skipped [s w] (Hle & Hpos & more & Hp). cbn [fst] in *. unfold skip_turn.
  assert (Hdone : ∀ s, fs_position s = fs_position self → positioned (data ++ more) (n + skipped) s →
    (skipped < count → shorter (n + count)) → ∃ more, positioned (data ++ more) (n + skipped)
      (fs_put_position (wrapping_add 64 (fs_position s) skipped) s) ∧ skipped ≤ count ∧
      fs_position (fs_put_position (wrapping_add 64 (fs_position s) skipped) s) = wrapping_add 64 (fs_position self) skipped ∧
      (skipped < count → shorter (n + count))).
  { intros s' Hs' Hp' Hshort. exists more. split; [by apply positioned_put_position|]. split; [done|].
    split; [|done]. rewrite <-Hs'. by destruct s'. }
  destruct (N.leb_spec count skipped) as [|Hlt].
  { apply wp_ret, wp_bind, wp_modify, wp_ret. cbn [fst snd]. apply Hdone; [done|done|lia]. }
  apply wp_bind, wp_get. cbv zeta. cbn [fst].
  destruct (N.eqb_spec (fs_block_position s) (len (fs_block s))) as [Hbuf|Hbuf].
  - apply wp_bind. eapply wp_mono; [by apply (cab_refill_wp _ _ s w Hp)|..].
    2:{ intros e s' He. eapply refuses_mono; [exact He|]. intros Hs. eapply shorter_le; [exact Hs|lia]. }
    intros m [s' w'] [Hpos' Hm]. cbn [fst] in *. apply wp_ret. destruct m.
    + destruct Hm as (extra & Hp' & Hfull). split; [|by apply effort_filled]. split; [lia|]. split; [by etrans|].
      exists (more ++ extra). by rewrite app_assoc.
    + destruct Hm as (Hp' & _ & Hshort). apply wp_bind, wp_modify, wp_ret. cbn [fst snd].
      apply Hdone; [by etrans|done|]. intros _. eapply shorter_le; [exact Hshort|lia].
  - rewrite (available_exact _ _ _ Hp). pose proof (ps_block _ _ _ Hp) as Hb.
    set (k := N.min _ _). apply wp_bind, wp_modify, wp_ret. cbn [fst snd]. rewrite (position_exact _ _ _ k Hp) by lia.
    destruct (advance _ _ _ k Hp) as [Hp' _]; [lia|].
    split; [|apply effort_taken; lia]. split; [lia|]. split; [by destruct s|].
    exists more. by rewrite N.add_assoc.
Qed.

(** [read] copies the next bytes of the folder; fewer than asked for only at its end. *)
Lemma folder_read_wp out_len data n self w :
  positioned data n self → out_len < 2 ^ 64 →
  wp (folder_read out_len)
    (λ copied s, ∃ more, positioned (data ++ more) (n + len copied) s.1 ∧ len copied ≤ out_len ∧
       copied = subslice n (len copied) (data ++ more) ∧ (len copied < out_len → shorter (n + out_len)))
    (λ e _, refuses (shorter (n + out_len)) e) (self, w).
Proof.
  intros Hp Hout. unfold folder_read. apply wp_bind.
  set (Inv := λ (copied : list byte) (s : St), len copied ≤ out_len ∧
    ∃ more, positioned (data ++ more) (n + len copied) s.1 ∧ copied = subslice n (len copied) (data ++ more)).
  eapply (loop_W_wp _ Inv (λ copied s, effort out_len (len copied) s.1)).
  { split; [apply N.le_0_l|]. exists []. by rewrite app_nil_r, N.add_0_r. }
  { intros skipped s _. by apply effort_bound. }
  clear Hp self w. intros copied [s w] (Hle & more & Hp & Hcopied). cbn [fst] in *. unfold read_turn.
  assert (Hdone : ∀ s, positioned (data ++ more) (n + len copied) s →
    (len copied < out_len → shorter (n + out_len)) → ∃ more, positioned (data ++ more) (n + len copied)
      (fs_put_position (wrapping_add 64 (fs_position s) (len copied)) s) ∧ len copied ≤ out_len ∧
      copied = subslice n (len copied) (data ++ more) ∧ (len copied < out_len → shorter (n + out_len))).
  { intros s' Hp' Hshort. exists more. split; [by apply positioned_put_position|]. by split. }
  destruct (N.leb_spec out_len (len copied)) as [|Hlt].
  { apply wp_ret, wp_bind, wp_modify, wp_ret. cbn [fst snd]. apply Hdone; [done|lia]. }
  apply wp_bind, wp_get. cbv zeta. cbn [fst].
  destruct (N.eqb_spec (fs_block_position s) (len (fs_block s))) as [Hbuf|Hbuf].
  - apply wp_bind. eapply wp_mono; [by apply (cab_refill_wp _ _ s w Hp)|..].
    2:{ intros e s' He. eapply refuses_mono; [exact He|]. intros Hs. eapply shorter_le; [exact Hs|lia]. }
    intros m [s' w'] [_ Hm]. cbn [fst] in *. apply wp_ret. destruct m.
    + destruct Hm as (extra & Hp' & Hfull). split; [|by apply effort_filled]. split; [lia|].
      exists (more ++ extra). rewrite app_assoc. split; [done|].
      rewrite subslice_app_front; [done|]. apply (ps_taken _ _ _ Hp).
    + destruct Hm as (Hp' & _ & Hshort). apply wp_bind, wp_modify, wp_ret. cbn [fst snd].
      apply Hdone; [done|]. intros _. eapply shorter_le; [exact Hshort|lia].
  - rewrite (available_exact _ _ _ Hp). pose proof (ps_block _ _ _ Hp) as Hb.
    set (k := N.min _ _). rewrite (position_exact _ _ _ k Hp) by lia.
    destruct (advance _ _ _ k Hp) as [Hp' Hbytes]; [lia|].
    apply wp_bind, wp_lift.
    2:{ intros e He. exfalso. rewrite (proj2 (get_range_Some _ _ _ (subslice (fs_block_position s) k (fs_block s)))) in He; [done|].
        split; [lia|]. split; [lia|]. f_equal. lia. }
    intros bytes E. apply ok_or_Ok, get_range_Some in E as (_ & _ & ->). apply wp_bind, wp_modify, wp_ret. cbn [fst snd].
    rewrite (position_exact _ _ _ k Hp) by lia. replace (fs_block_position s + k - fs_block_position s) with k by lia. rewrite Hbytes.
    assert (len (subslice (n + len copied) k (data ++ more)) = k) as Hk.
    { apply len_subslice. pose proof (ps_taken _ _ _ Hp'). lia. }
    split; [|rewrite len_app, Hk; apply effort_taken; lia]. unfold Inv. rewrite len_app, Hk. split; [lia|].
    exists more. rewrite N.add_assoc. split; [done|]. rewrite Hcopied at 1. apply subslice_app.
Qed.

(** ** A file *)

Lemma seek_to_wp file self w :
  positioned [] 0 self → fs_position self = 0 → fits 32 (fe_folder_offset file) →
  wp (seek_to file)
    (λ remaining s, remaining = fe_uncompressed_bytes file ∧ ∃ data, positioned data (fe_folder_offset file) s.1)
    (λ e _, refuses (shorter (fe_folder_offset file)) e) (self, w).
Proof.
  intros Hp Hpos Hfits. unfold seek_to. cbv zeta. set (start := fe_folder_offset file).
  assert (start < 2 ^ 64) as Hstart by by eapply N.lt_trans.
  apply wp_bind, wp_get. cbn [fst]. rewrite Hpos, N.sub_0_r.
  apply wp_bind, wp_cab_reject. rewrite (proj2 (N.ltb_ge _ _)) by apply N.le_0_l.
  apply wp_bind. eapply wp_mono; [by apply (folder_skip_wp start [] 0 self w Hp)|..].
  2:{ intros e s He. by rewrite N.add_0_l in He. }
  intros skipped [s w'] (more & Hs & Hle & Hposition & Hshort). cbn [fst app] in *.
  rewrite Hpos, wrapping_add_small, N.add_0_l in Hposition by lia. rewrite N.add_0_l in Hs, Hshort.
  apply wp_bind, wp_get. cbn [fst]. apply wp_bind, wp_cab_reject. rewrite Hposition.
  destruct (N.eqb_spec skipped start) as [->|Hne]; cbn [negb orb].
  - apply wp_ret. split; [done|]. by exists more.
  - apply refuses_with. intros _. apply Hshort. lia.
Qed.

Lemma file_stream_read_wp out_len remaining data n self w :
  positioned data n self → 0 < out_len → remaining < 2 ^ 64 →
  wp (file_stream_read out_len remaining)
    (λ r s, ∃ more, positioned (data ++ more) (n + len r.2) s.1 ∧ r.2 = subslice n (len r.2) (data ++ more) ∧
       r.1 = remaining - len r.2 ∧ len r.2 ≤ remaining ∧ (len r.2 = 0 → remaining = 0))
    (λ e _, refuses (shorter (n + remaining)) e) (self, w).
Proof.
  intros Hp Hout Hrem. unfold file_stream_read. destruct (N.eqb_spec remaining 0) as [->|Hne].
  { apply wp_ret. exists []. cbn [fst snd]. by rewrite app_nil_r, N.add_0_r. }
  cbv zeta. set (want := N.min remaining out_len). apply wp_bind.
  eapply wp_mono; [apply (folder_read_wp want data n self w Hp); lia|..].
  2:{ intros e s He. eapply refuses_mono; [exact He|]. intros Hs. eapply shorter_le; [exact Hs|lia]. }
  intros read [s w'] (more & Hs & Hle & Hread & Hshort). cbn [fst] in *.
  apply wp_bind, wp_cab_reject. destruct (N.eqb_spec (len read) 0) as [E0|Hsome].
  - apply refuses_with. intros _. eapply shorter_le; [apply Hshort; lia|lia].
  - apply wp_ret. exists more. cbn [fst snd]. split; [done|]. split; [done|]. split; [done|]. split; [lia|done].
Qed.

(** ** [extract_file] *)

(** A sink that keeps what it accepts. *)
Definition collects {T} (sink : list byte → M T CabinetError unit) (view : T → list byte) : Prop :=
  ∀ bytes t t', sink bytes t = (t', Ok tt) → view t' = view t ++ bytes.
Definition accepts_all {T} (sink : list byte → M T CabinetError unit) : Prop :=
  ∀ bytes t, ∃ t', sink bytes t = (t', Ok tt).

Lemma extract_loop_wp {T} (sink : list byte → M T CabinetError unit) view offset size data self w t :
  collects sink view → positioned data offset self → size < 2 ^ 64 →
  wp (loop_W (extract_turn sink) (size, 0))
    (λ total s, total = size ∧ ∃ data, (∃ c, bytes_to data c) ∧ offset + size ≤ len data ∧
       view s.2 = view t ++ subslice offset size data)
    (λ e _, refuses (accepts_all sink → shorter (offset + size)) e) ((self, w), t).
Proof.
  intros Hsink Hp Hsize.
  set (Inv := λ (a : N * N) (s : (FolderStream Y * W) * T), a.1 + a.2 = size ∧ ∃ data, positioned data (offset + a.2) s.1.1 ∧
    view s.2 = view t ++ subslice offset a.2 data).
  apply (loop_W_wp _ Inv (λ a _, a.1)).
  { split; [cbn; lia|]. exists data. cbn [fst snd]. by rewrite N.add_0_r, subslice_0, app_nil_r. }
  { intros [remaining total] s [Hsum _]. cbn [fst snd] in *. eapply N.le_lt_trans with size; [lia|]. by eapply N.lt_trans. }
  clear self w data Hp. intros [remaining total] [[self w] t1] [Hsum (data & Hp & Hview)]. cbn [fst snd] in *.
  unfold extract_turn. apply wp_bind, wp_zoom. cbn [fst snd].
  eapply wp_mono; [apply (file_stream_read_wp MAX_BLOCK_UNCOMPRESSED remaining data _ self w Hp); [done|lia]|..].
  2:{ intros e s He. eapply refuses_mono; [exact He|]. intros Hs _. eapply shorter_le; [exact Hs|lia]. }
  intros [rem' read] [s w'] (more & Hs & Hread & Erem & Hle & Hzero). cbn [fst snd] in *. subst rem'.
  destruct (N.eqb_spec (len read) 0) as [E0|Hsome].
  - apply wp_ret. cbn [fst snd]. specialize (Hzero E0). assert (total = size) as -> by lia. split; [done|].
    exists data. destruct Hp as [(c & Hc & _) _ _ Ht _]. split; [by exists c|]. by split.
  - apply wp_bind, wp_zoom, wp_map_errM. cbn [snd fst]. unfold wp at 1.
    destruct (sink read t1) as [t2 [[]|e]] eqn:Es.
    + apply wp_ret. cbn [fst snd]. rewrite wrapping_add_small by lia. split; [|lia]. split; [cbn; lia|].
      exists (data ++ more). cbn [fst snd]. rewrite N.add_assoc. split; [done|].
      rewrite (Hsink _ _ _ Es), Hview, <-app_assoc. f_equal. rewrite Hread at 1.
      rewrite <-(subslice_app_front offset total data more) by apply (ps_taken _ _ _ Hp). apply subslice_app.
    + apply refuses_with. intros _ Hall. destruct (Hall read t1) as [t' E']. by rewrite E' in Es.
Qed.
End file.

(** A new stream is in front of its folder. *)
Lemma new_positioned {Y} `{RawInflaterLaws Y} volumes compression limits segments (s : FolderStream Y) :
  folder_stream_new compression limits segments = Ok s → Forall segment_fits segments → fits 32 (len segments) →
  positioned volumes limits segments (cursor_of s) [] 0 s ∧ fs_position s = 0.
Proof.
  intros E Hfits Hlen. unfold folder_stream_new in E. apply bind_Ok in E as (first & Ef%ok_or_Ok & E).
  apply bind_Ok in E as (decoder & Ed & E). apply guard_seq in E as [_ E]. injection E as <-.
  split; [|done]. split; [|done..]. exists (cursor_of {| fs_limits := limits; fs_segments := segments; fs_segment := 0; fs_blocks_left := sg_data_block_count first;
    fs_offset := sg_first_data_offset first; fs_decoder := decoder; fs_block := []; fs_block_position := 0; fs_position := 0;
    fs_stats := extraction_stats_default; fs_finished := false |}).
  split; [constructor|]. split; try done; [by eapply decoder_new_wf|].
  unfold turns_left. cbn [fs_blocks_left fs_segment]. destruct segments as [|first' rest]; [done|]. injection Ef as ->.
  change (N.to_nat (0 + 1)) with 1%nat. cbn [drop].
  assert (Hturns : ∀ l, Forall segment_fits l → turns_of l ≤ 65536 * len l).
  { induction 1 as [|segment l Hs Hl IH]; [done|]. cbn [turns_of foldr]. fold (turns_of l). rewrite len_cons.
    pose proof (sf_blocks _ Hs) as Hb. unfold fits in Hb. change (2 ^ 16) with 65536 in Hb. unfold segment_turns. lia. }
  inversion Hfits as [|? ? Hfirst Hrest]; subst. specialize (Hturns rest Hrest). rewrite len_cons in Hlen.
  pose proof (sf_blocks _ Hfirst) as Hb. unfold fits in *. change (2 ^ 16) with 65536 in Hb. change (2 ^ 32) with 4294967296 in Hlen.
  apply N.lt_trans with (2 ^ 49); [|done]. change (2 ^ 49) with 562949953421312. rewrite drop_0. lia.
Qed.

(** C14: extracting a file delivers exactly the bytes the folder holds at the
    file's offset, block by block as the chunks come, across segments and
    cabinets. An error of the extraction means, for a source that does not fail
    and a run nobody cancels, that the folder cannot be decoded up to the end of
    the file: no block is skipped, repeated or handed out unverified. Whatever
    the volumes hold, extraction ends, and never out of bounds. *)
Theorem extract_file_exact {Y W T} `{RawInflaterLaws Y} `{VolumeSource W} `{CabCancellation W}
    volumes `{!ServesVolumes W volumes} (sink : list byte → M T CabinetError unit) view
    compression limits segments file (w : W) (t : T) :
  Forall segment_fits segments → fits 32 (len segments) →
  fits 32 (fe_folder_offset file) → fits 32 (fe_uncompressed_bytes file) → collects sink view →
  let offset := fe_folder_offset file in
  let size := fe_uncompressed_bytes file in
  match extract_file compression limits segments file sink (w, t) with
  | ((_, t'), Ok total) =>
      total = size ∧ ∃ data, folder_holds volumes compression limits segments data ∧ offset + size ≤ len data ∧
        view t' = view t ++ subslice offset size data
  | (_, Err e) =>
      (∃ error, e = Fail error) ∧
      (steady (W := W) volumes → accepts_all sink →
       ∀ data, folder_holds volumes compression limits segments data → len data < offset + size)
  end.
Proof.
  intros Hsegments Hlen Hoffset Hsize Hsink offset size. unfold extract_file.
  destruct (folder_stream_new compression limits segments) as [s|e] eqn:Es.
  2:{ split; [by exists e|]. intros _ _ data (s & c & E & _). by rewrite E in Es. }
  destruct (new_positioned volumes compression limits segments s Es Hsegments Hlen) as [Hp Hpos].
  cbv zeta. match goal with |- context [?m ((s, w), t)] => set (run := m) end.
  assert (wp run (λ total s', total = size ∧ ∃ data, (∃ c, folder_bytes volumes limits segments (cursor_of s) data c) ∧
      offset + size ≤ len data ∧ view s'.2 = view t ++ subslice offset size data)
    (λ e _, refuses (W := W) volumes (accepts_all sink → shorter volumes limits segments (cursor_of s) (offset + size)) e)
    ((s, w), t)) as Hrun.
  { unfold run. apply wp_bind, wp_zoom. cbn [fst snd].
    eapply wp_mono; [by apply (seek_to_wp volumes limits segments Hsegments (cursor_of s) file s w Hp Hpos)|..].
    2:{ intros e s' He. eapply refuses_mono; [exact He|]. intros Hs _. eapply shorter_le; [exact Hs|unfold offset; lia]. }
    intros remaining [s' w'] [-> (data & Hp')]. cbn [fst snd] in *.
    apply (extract_loop_wp volumes limits segments Hsegments (cursor_of s) sink view offset size data); [done|done|].
    by eapply N.lt_trans. }
  unfold wp in Hrun. destruct (run ((s, w), t)) as [[[s' w'] t'] [total|e]]; cbn [fst snd] in Hrun.
  - destruct Hrun as [-> (data & (c & Hc) & Hin & Hview)]. split; [done|]. exists data. split; [by exists s, c|]. by split.
  - destruct Hrun as [He Hshort]. split; [done|]. intros Hsteady Hall data (s1 & c & E & Hc).
    rewrite E in Es. injection Es as ->. by eapply Hshort.
Qed.
