(* ===== verification/CabWriter.v ===== *)
(** * Microsoft cabinets: the LZX test encoder

    [crates/ohl-mscab/src/lzx_writer.rs], the encoder the decoder's tests are
    built with; and that the decoder undoes its translation of calls. *)

From S2P Require Export CabWindow.

(** ** The translation of calls *)

(** What the four bytes behind a call at [current] are written as. *)
Definition e8_target (current file_size : Z) (bytes : list byte) : list byte :=
  let displacement := signed_32 (of_le_bytes bytes) in
  let target := (current + displacement)%Z in
  if ((0 <=? target) && (target <? file_size + current))%Z then
    let target := if (file_size <=? target)%Z then (displacement - file_size)%Z else target in
    le_bytes 4 (Z.to_N (target mod 2 ^ 32))
  else bytes.

Definition e8_forward (frame : list byte) (chunk_offset file_size : N) : list byte :=
  if len frame <=? 10 then frame
  else e8_loop (λ current, e8_target current (Z.of_N file_size)) (length frame) (len frame - 10) 0
         (Z.of_N chunk_offset) frame.

(** ** The encoder *)

Inductive WriterBlock : Type := WB_Verbatim | WB_Aligned.

#[export] Instance WriterBlock_eq_dec : EqDecision WriterBlock.
Proof. solve_decision. Defined.

Definition MAIN_CODE_BITS : N := 10.
Definition LENGTH_CODE_BITS : N := 8.
Definition PRETREE_CODE_BITS : N := 5.

Record LzxEncoder : Type := {
  le_out : list byte;
  le_accumulator : N;
  le_bits : N;
  le_frames : list (list byte);
  le_frame_start : N;
  le_base_position : list N;
  le_footer_bits : list N;
  le_main_previous : list N;
  le_length_previous : list N;
  le_block : WriterBlock
}.

(** [LzxEncoder::new]: its slot tables are made as the decoder's are. *)
Definition encoder_new (window_bits : N) : LzxEncoder :=
  let slots := 2 * window_bits in
  {| le_out := []; le_accumulator := 0; le_bits := 0; le_frames := []; le_frame_start := 0;
     le_base_position := (slot_tables slots).1; le_footer_bits := (slot_tables slots).2;
     le_main_previous := replicate (N.to_nat (NUM_CHARS + 8 * slots)) 0;
     le_length_previous := replicate (N.to_nat LENGTH_TREE_ELEMENTS) 0;
     le_block := WB_Verbatim |}.

Definition le_put_bits (out : list byte) (accumulator bits : N) (s : LzxEncoder) : LzxEncoder :=
  let (_, _, _, d, e, f, g, h, i, j) := s in Build_LzxEncoder out accumulator bits d e f g h i j.
Definition le_put_frames (frames : list (list byte)) (start : N) (s : LzxEncoder) : LzxEncoder :=
  let (a, b, c, _, _, f, g, h, i, j) := s in Build_LzxEncoder a b c frames start f g h i j.
Definition le_put_previous (main length_ : list N) (s : LzxEncoder) : LzxEncoder :=
  let (a, b, c, d, e, f, g, _, _, j) := s in Build_LzxEncoder a b c d e f g main length_ j.
Definition le_put_block (block : WriterBlock) (s : LzxEncoder) : LzxEncoder :=
  let (a, b, c, d, e, f, g, h, i, _) := s in Build_LzxEncoder a b c d e f g h i block.

(** A failed [assert!] or [expect]. *)
Abbreviation EW A := (M LzxEncoder (Stop CabinetError) A).
Definition ensure (c : bool) : EW unit := if c then mret tt else throw Panic.

(** [put]: the loop writes a word while sixteen bits are there, twice at most. *)
Fixpoint flush_words (turns : nat) (s : LzxEncoder) : LzxEncoder :=
  match turns with
  | O => s
  | S turns =>
      if 16 <=? le_bits s then
        flush_words turns (le_put_bits (le_out s ++ le_bytes 2 (N.shiftr (le_accumulator s) 16 mod 2 ^ 16))
          (N.shiftl (le_accumulator s) 16 mod 2 ^ 32) (le_bits s - 16) s)
      else s
  end.

Definition put (value count : N) : EW unit :=
  s ← get;
  ensure ((count <=? 17) && (le_bits s + count <=? 32));;
  (if 0 <? count then
     modify (λ s, le_put_bits (le_out s)
       (N.lor (le_accumulator s) (N.shiftl value (32 - le_bits s - count) mod 2 ^ 32)) (le_bits s + count) s)
   else mret tt);;
  modify (flush_words 2).

Definition header (e8_file_size : option N) : EW unit :=
  match e8_file_size with
  | Some size =>
      put 1 1;;
      put (N.shiftr size 16) 16;;
      put (N.land size 0xFFFF) 16
  | None => put 0 1
  end.

Fixpoint put_all (values : list (N * N)) : EW unit :=
  match values with
  | [] => mret tt
  | (value, count) :: values => put value count;; put_all values
  end.

(** The twenty-four bits of a size. *)
Definition put_size (size : N) : EW unit :=
  put (N.land (N.shiftr size 16) 0xFF) 8;;
  put (N.land (N.shiftr size 8) 0xFF) 8;;
  put (N.land size 0xFF) 8.

Definition write_lengths (previous : list N) (new_length : N) : EW unit :=
  put_all (replicate 20 (PRETREE_CODE_BITS, 4));;
  put_all ((λ previous, (delta_length previous new_length, PRETREE_CODE_BITS)) <$> previous).

Definition begin_block (block : WriterBlock) (size : N) : EW unit :=
  modify (le_put_block block);;
  put (match block with WB_Verbatim => 1 | WB_Aligned => 2 end) 3;;
  put_size size;;
  (if bool_decide (block = WB_Aligned) then put_all (replicate 8 (3, 3)) else mret tt);;
  s ← get;
  write_lengths (take (N.to_nat NUM_CHARS) (le_main_previous s)) MAIN_CODE_BITS;;
  write_lengths (drop (N.to_nat NUM_CHARS) (le_main_previous s)) MAIN_CODE_BITS;;
  write_lengths (le_length_previous s) LENGTH_CODE_BITS;;
  modify (λ s, le_put_previous ((λ _, MAIN_CODE_BITS) <$> le_main_previous s)
    ((λ _, LENGTH_CODE_BITS) <$> le_length_previous s) s).

Definition stored_block (data : list byte) (repeated : list N) : EW unit :=
  put 3 3;;
  put_size (len data mod 2 ^ 32);;
  s ← get;
  (if le_bits s =? 0 then put 0 16 else put 0 (16 - le_bits s));;
  s ← get;
  ensure (le_bits s =? 0);;
  modify (λ s, le_put_bits (le_out s ++ concat (le_bytes 4 <$> repeated) ++ data ++
    (if N.even (len data) then [] else [x00])) (le_accumulator s) (le_bits s) s).

Definition literal (byte : byte) : EW unit := put (Byte.to_N byte) MAIN_CODE_BITS.

Definition emit_token (slot length_ : N) : EW unit :=
  ensure (2 <=? length_);;
  let header := if length_ - 2 <? 7 then length_ - 2 else 7 in
  put (NUM_CHARS + slot * 8 + header) MAIN_CODE_BITS;;
  if header =? 7 then put (N.min length_ 257 - 9) LENGTH_CODE_BITS else mret tt.

Definition emit_extra_length (length_ : N) : EW unit :=
  if 257 <=? length_ then
    ensure (length_ - 257 <? 256);;
    put 0 1;;
    put (length_ - 257) 8
  else mret tt.

(** [rposition]: the last slot whose base is not past the offset. *)
Definition slot_of (formatted : N) (base_position : list N) : option N :=
  '(i, _) ← list_find (λ base, base ≤ formatted) (rev base_position);
  Some (len base_position - 1 - N.of_nat i).

Definition emit_match (length_ offset : N) : EW unit :=
  let formatted := offset + 2 in
  s ← get;
  slot ← lift (ok_or (slot_of formatted (le_base_position s)) Panic);
  emit_token slot length_;;
  footer ← lift (ok_or (le_footer_bits s !! N.to_nat slot) Panic);
  base ← lift (ok_or (le_base_position s !! N.to_nat slot) Panic);
  let value := formatted - base in
  (if bool_decide (le_block s = WB_Aligned) && (3 <? footer) then
     put (N.shiftr value 3) (footer - 3);;
     put (N.land value 7) 3
   else put value footer);;
  emit_extra_length length_.

Definition emit_repeat_match (index length_ : N) : EW unit :=
  ensure (index <? 3);;
  emit_token index length_;;
  emit_extra_length length_.

Definition end_frame : EW unit :=
  s ← get;
  (if 0 <? le_bits s then put 0 (16 - le_bits s) else mret tt);;
  modify (λ s, le_put_frames (le_frames s ++ [drop (N.to_nat (le_frame_start s)) (le_out s)]) (len (le_out s)) s).

Definition finish : EW (list (list byte)) :=
  s ← get;
  (if (le_frame_start s <? len (le_out s)) || (0 <? le_bits s) then end_frame else mret tt);;
  s ← get;
  mret (le_frames s).

(** ** The translation undone *)

Lemma signed_of_mod v : (- 2 ^ 31 ≤ v < 2 ^ 31)%Z → signed_32 (Z.to_N (v mod 2 ^ 32)) = v.
Proof.
  intros Hv. unfold signed_32. change (2 ^ 31)%Z with 2147483648%Z in *. change (2 ^ 32)%Z with 4294967296%Z in *.
  change (2 ^ 31) with 2147483648. change (2 ^ 32) with 4294967296.
  assert (0 ≤ v ∧ v mod 4294967296 = v ∨ v < 0 ∧ v mod 4294967296 = v + 4294967296)%Z as [[Hs ->]|[Hs ->]].
  { destruct (Z.le_gt_cases 0 v); [left; split; [done|apply Z.mod_small; lia]|right; split; [done|]].
    rewrite <-(Z.mod_add v 1) by lia. apply Z.mod_small. lia. }
  - rewrite (proj2 (N.ltb_lt _ _)) by lia. lia.
  - rewrite (proj2 (N.ltb_ge _ _)) by lia. lia.
Qed.

Lemma signed_range v : v < 2 ^ 32 → (- 2 ^ 31 ≤ signed_32 v < 2 ^ 31)%Z.
Proof.
  intros Hv. unfold signed_32. change (2 ^ 31)%Z with 2147483648%Z in *. change (2 ^ 32)%Z with 4294967296%Z in *.
  change (2 ^ 31) with 2147483648. change (2 ^ 32) with 4294967296 in Hv. destruct (N.ltb_spec v 2147483648); lia.
Qed.

Lemma signed_mod v : v < 2 ^ 32 → Z.to_N (signed_32 v mod 2 ^ 32) = v.
Proof.
  intros Hv. unfold signed_32. change (2 ^ 32)%Z with 4294967296%Z in *.
  change (2 ^ 31) with 2147483648. change (2 ^ 32) with 4294967296 in Hv. destruct (N.ltb_spec v 2147483648).
  - rewrite Z.mod_small; lia.
  - rewrite <-(Z.mod_add _ 1) by lia. rewrite Z.mod_small; lia.
Qed.

(** One call: wherever it stands in front of 2 GiB, its bytes come back. *)
Lemma e8_target_undone current file_size bytes :
  (0 ≤ current ≤ 2 ^ 31)%Z → (0 ≤ file_size ≤ 2 ^ 31)%Z → length bytes = 4%nat →
  e8_displacement current file_size (e8_target current file_size bytes) = bytes.
Proof.
  intros Hc Hf Hb. unfold e8_target. set (d := signed_32 (of_le_bytes bytes)).
  assert (of_le_bytes bytes < 2 ^ 32) as Hv by apply (of_le_bytes_fits 4 bytes Hb).
  pose proof (signed_range _ Hv) as Hd. fold d in Hd. change (2 ^ 31)%Z with 2147483648%Z in *.
  assert (Hback : ∀ v, (- 2147483648 ≤ v < 2147483648)%Z → v = d → signed_bytes v = Some bytes).
  { intros v Hr ->. unfold signed_bytes. change (2 ^ 31)%Z with 2147483648%Z.
    rewrite (proj2 (Z.leb_le _ _)), (proj2 (Z.ltb_lt _ _)) by lia. cbn [andb]. f_equal. unfold d. rewrite signed_mod by done.
    rewrite <-Hb. apply le_bytes_of_le_bytes. }
  assert (Hsame : ¬ (- current ≤ d < file_size)%Z → e8_displacement current file_size bytes = bytes).
  { intros Hn. unfold e8_displacement. fold d. destruct (Z.leb_spec (- current) d), (Z.ltb_spec d file_size); try done. lia. }
  assert (Hwrite : ∀ v, (- 2147483648 ≤ v < 2147483648)%Z → (- current ≤ v < file_size)%Z →
    ((if (0 <=? v)%Z then v - current else v + file_size) = d)%Z →
    e8_displacement current file_size (le_bytes 4 (Z.to_N (v mod 2 ^ 32))) = bytes).
  { intros v Hr Hin E. unfold e8_displacement. rewrite (of_le_bytes_id 4 32).
    2:{ done. }
    2:{ unfold fits. change (2 ^ 32)%Z with 4294967296%Z. change (2 ^ 32) with 4294967296. pose proof (Z.mod_pos_bound v 4294967296). lia. }
    rewrite signed_of_mod by done. rewrite (proj2 (Z.leb_le _ _)), (proj2 (Z.ltb_lt _ _)) by lia. cbn [andb].
    rewrite E, Hback by done. done. }
  destruct (Z.leb_spec 0 (current + d)), (Z.ltb_spec (current + d) (file_size + current)); cbn [andb]; try (apply Hsame; lia).
  destruct (Z.leb_spec file_size (current + d)).
  - apply Hwrite; [lia|lia|]. rewrite (proj2 (Z.leb_gt _ _)) by lia. lia.
  - apply Hwrite; [lia|lia|]. rewrite (proj2 (Z.leb_le _ _)) by lia. lia.
Qed.

Lemma splice_front {A} (pre suf v : list A) at_ : splice (len pre + at_) v (pre ++ suf) = pre ++ splice at_ v suf.
Proof.
  unfold splice. replace (N.to_nat (len pre + at_)) with (length pre + N.to_nat at_)%nat by (unfold len; lia).
  rewrite <-Nat.add_assoc.
  rewrite take_app_add, drop_app_add, <-app_assoc. done.
Qed.

Lemma e8_loop_app translate turns limit i off pre suf :
  e8_loop translate turns (len pre + limit) (len pre + i) off (pre ++ suf) =
  pre ++ e8_loop translate turns limit i (off + Z.of_N (len pre)) suf.
Proof.
  revert i suf. induction turns as [|turns IH]; intros i suf; cbn [e8_loop]; [done|].
  destruct (N.leb_spec limit i) as [Hi|Hi]; [by rewrite (proj2 (N.leb_le _ _)) by lia|].
  rewrite (proj2 (N.leb_gt _ _)) by lia.
  assert ((pre ++ suf) !! N.to_nat (len pre + i) = suf !! N.to_nat i) as ->.
  { rewrite lookup_app_r by (unfold len; lia). f_equal. unfold len. lia. }
  case_bool_decide; [|by rewrite <-N.add_assoc, IH].
  assert (subslice (len pre + i + 1) 4 (pre ++ suf) = subslice (i + 1) 4 suf) as ->.
  { unfold subslice. replace (N.to_nat (len pre + i + 1)) with (length pre + N.to_nat (i + 1))%nat by (unfold len; lia).
    by rewrite drop_app_add. }
  rewrite <-!N.add_assoc, splice_front, IH. by rewrite N2Z.inj_add, Z.add_assoc.
Qed.

Lemma e8_loop_stop translate turns limit i off frame : limit ≤ i → e8_loop translate turns limit i off frame = frame.
Proof. intros Hi. destruct turns; cbn [e8_loop]; [done|]. by rewrite (proj2 (N.leb_le _ _)). Qed.

(** From the call at the front on. *)
Lemma e8_loop_call translate turns limit off bytes rest :
  length bytes = 4%nat → length (translate off bytes) = 4%nat → 0 < limit →
  e8_loop translate (S turns) limit 0 off (xe8 :: bytes ++ rest) =
  xe8 :: translate off bytes ++ e8_loop translate turns (limit - 5) 0 (off + 5) rest.
Proof.
  intros Hb Ht Hl. cbn [e8_loop]. rewrite (proj2 (N.leb_gt _ _)) by done. change (N.to_nat 0) with 0%nat. cbn [lookup list_lookup].
  rewrite bool_decide_eq_true_2 by done. rewrite Z.add_0_r.
  assert (subslice (0 + 1) 4 (xe8 :: bytes ++ rest) = bytes) as ->.
  { change (take 4 (bytes ++ rest) = bytes). by rewrite take_app_length'. }
  set (v := translate off bytes) in *.
  assert (splice (0 + 1) v (xe8 :: bytes ++ rest) = (xe8 :: v) ++ rest) as ->.
  { change (xe8 :: v ++ drop (length v) (bytes ++ rest) = xe8 :: v ++ rest). by rewrite drop_app_length' by congruence. }
  assert (len (xe8 :: v) = 5) as Hv by (unfold len; cbn; lia). change (0 + 5) with 5.
  destruct (N.le_gt_cases limit 5) as [Hs|Hs].
  - rewrite !e8_loop_stop by lia. done.
  - replace limit with (len (xe8 :: v) + (limit - 5)) at 1 by lia.
    replace 5 with (len (xe8 :: v) + 0) at 2 by lia. rewrite e8_loop_app, Hv. done.
Qed.

Lemma e8_loop_other translate turns limit off x rest :
  x ≠ xe8 → 0 < limit →
  e8_loop translate (S turns) limit 0 off (x :: rest) = x :: e8_loop translate turns (limit - 1) 0 (off + 1) rest.
Proof.
  intros Hx Hl. cbn [e8_loop]. rewrite (proj2 (N.leb_gt _ _)) by done. change (N.to_nat 0) with 0%nat. cbn [lookup list_lookup].
  rewrite bool_decide_eq_false_2 by congruence.
  pose proof (e8_loop_app translate turns (limit - 1) 0 off [x] rest) as E. change (len [x]) with 1 in E.
  replace (1 + (limit - 1)) with limit in E by lia. exact E.
Qed.

(** A translation that a second undoes, call by call, is undone over a frame. *)
Lemma e8_loop_undone forward reverse turns limit off frame :
  (∀ i bytes, (off ≤ i < off + Z.of_N limit)%Z → length bytes = 4%nat →
     length (forward i bytes) = 4%nat ∧ reverse i (forward i bytes) = bytes) →
  limit + 4 ≤ len frame →
  e8_loop reverse turns limit 0 off (e8_loop forward turns limit 0 off frame) = frame.
Proof.
  revert limit off frame. induction turns as [|turns IH]; intros limit off frame Hfr Hl; [done|].
  destruct (N.eq_dec limit 0) as [->|Hne]; [by rewrite !e8_loop_stop by done|].
  destruct frame as [|x rest]; [unfold len in Hl; cbn in Hl; lia|]. rewrite len_cons in Hl.
  destruct (decide (x = xe8)) as [->|Hx].
  - rewrite <-(take_drop 4 rest). set (bytes := take 4 rest). set (suf := drop 4 rest).
    assert (length bytes = 4%nat) as Hb by (unfold bytes; rewrite length_take; unfold len in Hl; lia).
    assert (len suf = len rest - 4) as Hs by (unfold suf, len; rewrite length_drop; lia).
    destruct (Hfr off bytes ltac:(lia) Hb) as [Hf Hr].
    rewrite (e8_loop_call forward), (e8_loop_call reverse) by (try lia; by rewrite ?Hr). rewrite Hr. f_equal. f_equal.
    destruct (N.le_gt_cases limit 5) as [Hshort|Hlong].
    + replace (limit - 5) with 0 by lia. by rewrite !e8_loop_stop by done.
    + apply IH; [|lia]. intros i b Hi. apply Hfr. lia.
  - rewrite !e8_loop_other by (try done; lia). f_equal. apply IH; [|lia]. intros i b Hi. apply Hfr. lia.
Qed.

(** C27: the decoder's reversal of the translation of x86 calls gives back, byte
    for byte, every frame the encoder's translation is applied to, for frames
    and translation sizes within the first 2 GiB of a folder, which is all the
    positions of translated frames and more: calls near the ends of the range,
    targets that wrap around the translation size and bytes that only look like
    a call included. *)
Theorem e8_round_trip frame chunk_offset file_size :
  chunk_offset + len frame ≤ 2 ^ 31 → file_size ≤ 2 ^ 31 →
  e8_reverse (e8_forward frame chunk_offset file_size) chunk_offset file_size = frame.
Proof.
  intros Hc Hf. change (2 ^ 31) with 2147483648 in *. unfold e8_forward.
  destruct (N.leb_spec (len frame) 10) as [Hs|Hs].
  { unfold e8_reverse. by rewrite (proj2 (N.leb_le _ _)). }
  set (out := e8_loop _ _ _ _ _ _).
  assert (Hlen : ∀ current bytes, length bytes = 4%nat → length (e8_target current (Z.of_N file_size) bytes) = 4%nat).
  { intros current bytes Hb. unfold e8_target. destruct (_ && _)%Z; [apply length_le_bytes|done]. }
  assert (length out = length frame) as Hout by (apply length_e8_loop; [done|lia]).
  unfold e8_reverse. unfold len. rewrite Hout. fold (len frame). rewrite (proj2 (N.leb_gt _ _)) by done.
  rewrite (proj2 (N.leb_gt _ _)) by (change (2 ^ 63) with 9223372036854775808; lia).
  apply e8_loop_undone; [|lia]. intros i bytes Hi Hb. split; [by apply Hlen|].
  apply e8_target_undone; [|change (2 ^ 31)%Z with 2147483648%Z; lia|done]. change (2 ^ 31)%Z with 2147483648%Z. lia.
Qed.
