(* ===== verification/BackendCabinet.v ===== *)
(** * The cabinet back end

    [crates/ohl-parser-backends/src/buffered.rs]: the entries and the extraction
    of a Microsoft cabinet that is in memory, over the decoder of ohl-mscab. *)

From S2P Require Export BackendBuffer CabParse CabFile.

Section cabinet.
Context {Y : Type} `{RawInflater Y} (bytes : list byte).
#[local] Instance c_source : VolumeSource unit := slice_volume bytes.
#[local] Instance c_cancel : CabCancellation unit := cab_never_cancelled unit.

Definition cabinet_entries_of (limits : CabLimits) : result (Stop CabinetError) (list BufferedEntry) :=
  map_err Fail (
    cabinet ← (cabinet_parse 0 limits tt).2;
    mret (imap (λ index file,
      {| bu_token := N.of_nat index; bu_size_bytes := fe_uncompressed_bytes file; bu_name := fe_name file |})
      (ca_files cabinet))).

(** A reference to a folder is the index of its element; the search by
    [core::ptr::eq] finds that element. *)
Definition folder_index (folder : N) : result CabinetError N := ok_or (try_from 16 folder) CE_OutOfBounds.

(** The closure that appends a chunk. *)
Definition collect_chunk (chunk : list byte) : M (list byte) CabinetError unit := modify (λ out, out ++ chunk).

Definition cabinet_extract_of (limits : CabLimits) (token : N) : result (Stop CabinetError) (list byte) :=
  cabinet ← map_err Fail (cabinet_parse 0 limits tt).2;
  file ← ok_or (ca_files cabinet !! N.to_nat token) (Fail CE_OutOfBounds);
  folder ← map_err Fail (folder_of file cabinet);
  index ← ok_or (index_in (ch_folder_count (ca_header cabinet)) (fe_folder file)) (Fail CE_FolderIndexOutOfRange);
  index ← map_err Fail (folder_index index);
  segment ← map_err Fail (folder_segment_new cabinet 0 index);
  match extract_file (fo_compression folder) limits [segment] file collect_chunk (tt, []) with
  | ((_, out), Ok _) => Ok out
  | (_, Err e) => Err e
  end.
End cabinet.

(** What the dispatcher asks for. *)
#[export] Instance mscab_decoder {Y} `{RawInflater Y} : CabinetDecoder CabLimits := {|
  CabError := Stop CabinetError;
  cabinet_entries := cabinet_entries_of;
  cabinet_extract bytes := cabinet_extract_of (Y := Y) bytes
|}.

(** ** A cabinet in memory *)

Lemma collect_collects : collects collect_chunk (λ out, out).
Proof. by intros bytes t t' [= <-]. Qed.

Lemma collect_accepts : accepts_all collect_chunk.
Proof. intros bytes t. by eexists. Qed.

Section memory.
Context (bytes : list byte).
#[local] Hint Extern 0 (VolumeSource unit) => exact (c_source bytes) : typeclass_instances.
#[local] Hint Extern 0 (CabCancellation unit) => exact c_cancel : typeclass_instances.

(** The one volume. *)
Definition only_volume (volume : N) : option (list byte) := if volume =? 0 then Some bytes else None.

Lemma slice_steady : len bytes < 2 ^ 64 → volumes_steady unit only_volume.
Proof.
  intros Hbytes volume bytes' offset size w Hv Hin. unfold only_volume in Hv. cbn.
  destruct (volume =? 0); [|done]. injection Hv as <-. cbn. exists (subslice offset size bytes).
  unfold slice_volume_read. rewrite (proj2 (checked_add_Some 64 offset size (offset + size))) by (split; [lia|done]).
  cbn. rewrite (proj2 (get_range_Some _ _ _ (subslice offset size bytes))); [done|].
  split; [lia|]. split; [done|]. f_equal. lia.
Qed.

Lemma never_cancelled_uncancelled : uncancelled unit.
Proof. by intros w. Qed.

Lemma uint_at_fits n w at_ (l : list byte) : w = 8 * n → fits w (of_le_bytes (subslice at_ n l)).
Proof.
  intros ->. unfold fits. rewrite N.pow_mul_r. eapply N.lt_le_trans; [apply of_le_bytes_lt|].
  apply N.pow_le_mono_r; [done|]. rewrite len_subslice_le. lia.
Qed.

(** The fields of a parsed cabinet have their widths. *)
Lemma image_segment limits c index folder :
  cabinet_image bytes limits c → ca_folders c !! N.to_nat index = Some folder →
  ∃ segment, folder_segment_new c 0 index = Ok segment ∧ segment_fits segment.
Proof.
  intros (table & Hh & Hfo & _) Hf. unfold folder_segment_new. rewrite Hf. cbn [ok_or mbind result_bind]. eexists. split; [done|].
  pose proof (fs_folder _ _ _ _ _ Hfo _ _ Hf) as Hfolder. split; cbn.
  - rewrite (hi_cabinet_bytes _ _ _ _ Hh). by apply uint_at_fits.
  - rewrite (fi_first_data _ _ _ _ _ Hfolder). by apply uint_at_fits.
  - rewrite (fi_blocks _ _ _ _ _ Hfolder). by apply uint_at_fits.
  - destruct (hi_tail _ _ _ _ Hh) as (a & b & Ht & _). destruct (has_reserved_areas _).
    + destruct Ht as (_ & _ & -> & _). by apply uint_at_fits.
    + by destruct Ht as (_ & _ & -> & _).
Qed.

Lemma files_image_lookup limits h offset files i file :
  files_image bytes limits h offset files → files !! i = Some file → ∃ o next, file_image bytes limits h o file next.
Proof.
  intros Hfiles. revert i. induction Hfiles as [|offset f next files Hf Hfiles IH]; intros i Hi; [done|].
  destruct i as [|i]; cbn in Hi; [injection Hi as <-; by exists offset, next|by eapply IH].
Qed.

Lemma image_file limits c i file :
  cabinet_image bytes limits c → ca_files c !! i = Some file →
  fits 32 (fe_folder_offset file) ∧ fits 32 (fe_uncompressed_bytes file) ∧
  ∃ index folder, index_in (ch_folder_count (ca_header c)) (fe_folder file) = Some index ∧ fits 16 index ∧
    ca_folders c !! N.to_nat index = Some folder.
Proof.
  intros (table & Hh & Hfo & Hcount & Hfiles) Hi. destruct (files_image_lookup _ _ _ _ _ _ Hfiles Hi) as (o & next & Hf).
  split; [rewrite (fl_offset _ _ _ _ _ _ Hf); by apply uint_at_fits|].
  split; [rewrite (fl_size _ _ _ _ _ _ Hf); by apply uint_at_fits|].
  destruct (fl_index _ _ _ _ _ _ Hf) as [index Hindex].
  assert (index < ch_folder_count (ca_header c)) as Hlt.
  { destruct (fe_folder file); cbn in Hindex; [destruct (N.ltb_spec index0 (ch_folder_count (ca_header c)))|
      destruct (N.ltb_spec 0 (ch_folder_count (ca_header c)))..]; try done; injection Hindex as <-; lia. }
  destruct (lookup_lt_is_Some_2 (ca_folders c) (N.to_nat index)) as [folder Hfolder].
  { pose proof (fs_count _ _ _ _ _ Hfo). unfold len in *. lia. }
  exists index, folder. split; [done|]. split; [|done].
  eapply N.lt_trans; [exact Hlt|]. rewrite (hi_folder_count _ _ _ _ Hh). by apply uint_at_fits.
Qed.
End memory.

(** No file of the cabinet says of the folder that it continues into another. *)
Definition folder_whole (c : Cabinet) (index : N) : Prop :=
  Forall (λ file, index_in (ch_folder_count (ca_header c)) (fe_folder file) = Some index → fe_folder file = FR_Index index)
    (ca_files c).

(** C30: the entries a worker offers of a buffered cabinet are the files of its
    table, in order, with their sizes and recorded names; and a file of a folder
    that lies wholly in the cabinet is extracted exactly when the folder can be
    decoded up to the end of it, and then it is exactly its range of the folder's
    bytes. Whatever the cabinet holds, and of files of continued folders, too, the
    back end answers, with an error of the decoder at worst. *)
Theorem cabinet_back_end_exact {Y} `{RawInflaterLaws Y} bytes limits entries :
  len bytes < 2 ^ 64 → cabinet_entries_of bytes limits = Ok entries →
  ∃ c, cabinet_image bytes limits c ∧
    entries = imap (λ index file,
      {| bu_token := N.of_nat index; bu_size_bytes := fe_uncompressed_bytes file; bu_name := fe_name file |}) (ca_files c) ∧
    ∀ i file, ca_files c !! i = Some file → ∃ index folder segment,
      index_in (ch_folder_count (ca_header c)) (fe_folder file) = Some index ∧
      ca_folders c !! N.to_nat index = Some folder ∧ folder_segment_new c 0 index = Ok segment ∧
      let holds := folder_holds (Y := Y) (only_volume bytes) (fo_compression folder) limits [segment] in
      let stop := fe_folder_offset file + fe_uncompressed_bytes file in
      match cabinet_extract_of (Y := Y) bytes limits (N.of_nat i) with
      | Ok out => folder_whole c index →
          ∃ data, holds data ∧ stop ≤ len data ∧ out = subslice (fe_folder_offset file) (fe_uncompressed_bytes file) data
      | Err e => (∃ error, e = Fail error) ∧ (folder_whole c index → ∀ data, holds data → len data < stop)
      end.
Proof.
  intros Hbytes He. unfold cabinet_entries_of in He.
  destruct ((cabinet_parse (H := c_source bytes) 0 limits tt).2) as [c|] eqn:Ep; [|done]. injection He as <-.
  pose proof Ep as Himage. apply (cabinet_parse_Ok (volume := 0) limits Hbytes c) in Himage.
  exists c. split; [done|]. split; [done|]. intros i file Hi.
  destruct (image_file bytes limits c i file Himage Hi) as (Hoffset & Hsize & index & folder & Hindex & Hfits & Hfolder).
  destruct (image_segment bytes limits c index folder Himage Hfolder) as (segment & Hsegment & Hsfits).
  exists index, folder, segment. split; [done|]. split; [done|]. split; [done|]. cbv zeta.
  unfold cabinet_extract_of. rewrite Ep. cbn [map_err mbind result_bind]. rewrite Nat2N.id, Hi. cbn [ok_or mbind result_bind].
  unfold folder_of. rewrite Hindex. cbn [ok_or mbind result_bind]. rewrite Hfolder. cbn [ok_or mbind result_bind map_err].
  unfold folder_index, try_from. unfold fits in Hfits. rewrite (proj2 (N.ltb_lt _ _) Hfits). cbn [ok_or mbind result_bind map_err].
  rewrite Hsegment. cbn [mbind result_bind map_err].
  assert (Forall segment_fits [segment]) as Hall by (apply list.Forall_singleton; done).
  pose proof (extract_file_exact (H1 := c_source bytes) (H2 := c_cancel) (only_volume bytes)
    collect_chunk (λ out, out) (fo_compression folder) limits [segment] file tt []
    Hall ltac:(done) Hoffset Hsize collect_collects) as Hx.
  cbv zeta in Hx. destruct (extract_file _ _ _ _ _ _) as [[[] out] [total|e]].
  - destruct Hx as (_ & data & Hdata & Hin & ->). intros _. by exists data.
  - destruct Hx as [Hfail Hshort]. split; [done|]. intros _. apply Hshort; [|apply collect_accepts].
    split; [by apply slice_steady|apply never_cancelled_uncancelled].
Qed.
