(* ===== verification/CabSample.v ===== *)
(** * Microsoft cabinets: runs

    A cabinet with a stored folder, blocks of the kinds the LZX encoder writes,
    a stream read on after it failed, and the witnesses of the cabinet properties. *)

From S2P Require Export CabBlocks CabWriter BackendCabinet.

Definition text (s : list N) : list byte := byte_of_N <$> s.

(** ** A cabinet of one stored folder in two blocks and two files *)

Definition sample_blocks : list (list byte) := [text [72; 101; 108; 108; 111]; text [87; 111; 114; 108; 100; 33]].

Definition sample_block (data : list byte) : list byte :=
  let sizes := le_bytes 2 (len data) ++ le_bytes 2 (len data) in
  le_bytes 4 (checksum sizes (checksum data 0)) ++ sizes ++ data.

Definition sample_file (size offset folder : N) (name : list byte) : list byte :=
  le_bytes 4 size ++ le_bytes 4 offset ++ le_bytes 2 folder ++ le_bytes 2 0x2F1A ++ le_bytes 2 0x4A21 ++ le_bytes 2 0x20 ++ name ++ [x00].

Definition cabinet_of (folder : N) : list byte :=
  let files := sample_file 3 0 0 (text [97]) ++ sample_file 6 3 folder (text [98; 46; 99]) in
  let data := concat (sample_block <$> sample_blocks) in
  CABINET_SIGNATURE ++ le_bytes 4 0 ++ le_bytes 4 (44 + len files + len data) ++ le_bytes 4 0 ++ le_bytes 4 44 ++ le_bytes 4 0 ++
  [x03; x01] ++ le_bytes 2 1 ++ le_bytes 2 2 ++ le_bytes 2 0 ++ le_bytes 2 7 ++ le_bytes 2 0 ++
  le_bytes 4 (44 + len files) ++ le_bytes 2 2 ++ le_bytes 2 0 ++
  files ++ data.

Definition sample_cabinet : list byte := cabinet_of 0.

#[local] Instance sample_volume : VolumeSource unit := slice_volume sample_cabinet.
#[local] Instance sample_cancellation : CabCancellation unit := cab_never_cancelled unit.

Definition sample_tables : result CabinetError Cabinet := (cabinet_parse 0 cab_limits_default tt).2.

(** An inflater of single stored blocks: enough to run MSZIP on. *)
#[local] Instance stored_inflater : RawInflater unit := {|
  raw_new := tt;
  raw_init _ := tt;
  raw_decompress _ input ring at_ :=
    let n := of_le_bytes (subslice 1 2 input) in
    if bool_decide (take 1 input = [x01]) && (5 + n <=? len input) && (at_ + n <=? len ring)
    then (tt, {| rr_status := RS_Done; rr_used := 5 + n; rr_written := subslice 5 n input |})
    else (tt, {| rr_status := RS_Other; rr_used := 0; rr_written := [] |})
|}.

#[local] Instance stored_laws : RawInflaterLaws unit.
Proof.
  split. intros z input ring at_ Hat. cbn [raw_decompress stored_inflater]. cbv zeta.
  destruct (bool_decide _ && _ && _) eqn:E; cbn [snd rr_used rr_written].
  - apply andb_true_iff in E as [[_ E1%N.leb_le]%andb_true_iff E2%N.leb_le]. split; [done|].
    by rewrite len_subslice.
  - split; [apply N.le_0_l|]. change (len []) with 0. lia.
Qed.

(** The file at [index], through a sink that keeps it. *)
Definition keep (bytes : list byte) : M (list byte) CabinetError unit := modify (λ kept, kept ++ bytes).

Definition sample_extract (index : nat) : result (Stop CabinetError) (list byte) :=
  match sample_tables with
  | Ok c =>
      match ca_files c !! index, folder_segment_new c 0 0 with
      | Some file, Ok segment =>
          match extract_file CM_None cab_limits_default [segment] file keep (tt, []) with
          | ((_, kept), Ok _) => Ok kept
          | (_, Err e) => Err e
          end
      | _, _ => Err Panic
      end
  | Err e => Err (Fail e)
  end.

(** A file of a folder that another cabinet begins is extracted like any other: from
    the part of the folder that is here. *)
Lemma continued_file_extracted :
  cabinet_extract_of (cabinet_of IFOLD_CONTINUED_FROM_PREV) cab_limits_default 1 = Ok (text [108; 111; 87; 111; 114; 108]).
Proof. by vm_compute. Qed.

(** ** LZX blocks of the encoder *)

Fixpoint emit_all {A} (m : A → M LzxEncoder (Stop CabinetError) unit) (l : list A) : M LzxEncoder (Stop CabinetError) unit :=
  match l with
  | [] => mret tt
  | a :: l => m a;; emit_all m l
  end.

Definition encoded (window_bits : N) (m : M LzxEncoder (Stop CabinetError) unit) : list (list byte) :=
  match (m;; finish) (encoder_new window_bits) with (_, Ok frames) => frames | _ => [] end.

(** The frames decoded one after the other, each with its size. *)
Fixpoint decoded (d : LzxDecoder) (frames : list (list byte * N)) : result (Stop CabinetError) (list byte) :=
  match frames with
  | [] => Ok []
  | (input, expected) :: frames =>
      match lzx_decode_block input expected (d, []) with
      | ((d, out), Ok _) => app out <$> decoded d frames
      | (_, Err e) => Err e
      end
  end.

Definition lzx_run (window_bits : N) (m : M LzxEncoder (Stop CabinetError) unit) (sizes : list N) : result (Stop CabinetError) (list byte) :=
  match lzx_new window_bits cab_limits_default with
  | Ok d => decoded d (zip (encoded window_bits m) sizes)
  | Err e => Err (Fail e)
  end.

Definition ramp (n m : N) : list byte := (λ i, byte_of_N (N.of_nat i mod m)) <$> seq 0 (N.to_nat n).

(** Literals, matches and repeated offsets, as the decoder's own test has them. *)
Definition matches_program (block : WriterBlock) : M LzxEncoder (Stop CabinetError) unit :=
  header None;;
  begin_block block 122;;
  emit_all literal (ramp 100 97);;
  emit_match 6 50;;
  emit_match 4 12;;
  emit_repeat_match 1 8;;
  emit_repeat_match 0 4;;
  end_frame.

Definition matches_model : option (list byte) :=
  expand_lzx [] ((LT_Literal <$> ramp 100 97) ++ [LT_Match 6 50; LT_Match 4 12; LT_Match 8 50; LT_Match 4 50]).

(** The encoder's frames decode to what its tokens stand for. *)
Example matches_decode :
  lzx_run 15 (matches_program WB_Verbatim) [122] = lzx_run 15 (matches_program WB_Aligned) [122] ∧
  (∃ data, matches_model = Some data ∧ lzx_run 15 (matches_program WB_Verbatim) [122] = Ok data).
Proof. split; [by vm_compute|]. eexists. split; by vm_compute. Qed.

(** A stored block of an odd size, and tokens of the next block that reach into it. *)
Definition stored_program : M LzxEncoder (Stop CabinetError) unit :=
  header None;;
  stored_block (ramp 5 7) [1; 1; 1];;
  begin_block WB_Verbatim 6;;
  emit_match 4 5;;
  emit_repeat_match 0 2;;
  end_frame.

Example stored_decode : lzx_run 15 stored_program [11] = Ok (text [0; 1; 2; 3; 4; 0; 1; 2; 3; 4; 0]).
Proof. by vm_compute. Qed.

(** A footer of eighteen bits, of the position slots only windows of a megabyte
    and more have, does not fit the bit buffer when one bit of the last word is
    still in it: the word behind is shifted out of place. *)
Definition after_fifteen {A} (m : M LzxBits (Stop CabinetError) A) : result (Stop CabinetError) A :=
  ((read_bits 15;; m) (bits_new (text [0xff; 0xff; 0; 0; 0xff; 0xff]))).2.

Lemma wide_read_garbled :
  after_fifteen (read_bits 18) ≠ after_fifteen (high ← read_bits 9; low ← read_bits 9; mret (512 * high + low)).
Proof. by vm_compute. Qed.

(** A debug build panics on it. *)
Lemma wide_read_asserts : after_fifteen (@read_bits true 18) = Err Panic.
Proof. by vm_compute. Qed.

(** ** A read after a failed block *)

Definition mszip_blocks : list (list byte) :=
  [text [67; 75; 1; 2; 0; 0xfd; 0xff; 7; 8]; text [67; 75; 0]].

Definition broken_folder : list byte := concat ((λ data, le_bytes 4 0 ++ le_bytes 2 (len data) ++ le_bytes 2 2 ++ data) <$> mszip_blocks).

Definition broken_segment : FolderSegment :=
  {| sg_volume := 0; sg_first_data_offset := 0; sg_data_block_count := 2; sg_cabinet_bytes := len broken_folder;
     sg_data_reserve_bytes := 0 |}.

(** The outcomes of reads of [sizes], the errors among them. *)
Fixpoint read_outcomes `{VolumeSource unit} (sizes : list N) (s : FolderStream unit * unit)
  : list (result (Stop CabinetError) (list byte)) :=
  match sizes with
  | [] => []
  | size :: sizes => let '(s, r) := folder_read size s in r :: read_outcomes sizes s
  end.

Lemma read_after_failure_panics :
  match folder_stream_new CM_MsZip cab_limits_default [broken_segment] with
  | Ok s => read_outcomes (H := slice_volume broken_folder) [2; 1; 1] (s, tt) =
      [Ok (text [7; 8]); Err (Fail CE_DecompressionFailed); Err Panic]
  | Err _ => False
  end.
Proof. by vm_compute. Qed.

(** ** Witnesses *)

Lemma cabinet_parse_exact_witness :
  ∃ c, cabinet_parse 0 cab_limits_default tt = (tt, Ok c) ∧ cabinet_image sample_cabinet cab_limits_default c.
Proof.
  eexists. split; [by vm_compute|].
  apply (cabinet_parse_exact (bytes := sample_cabinet) cab_limits_default); by vm_compute.
Defined.

(** The first block of the encoder's program, on a new decoder. *)
Definition sample_frame : list byte := default [] (head (encoded 15 (matches_program WB_Verbatim))).

(** What it means is what the program's tokens stand for, and so it is decoded, in
    a debug build, too. *)
Lemma sample_means : option_map snd (lzx_meaning 15 sample_frame 122 (lzx_initial 15)) = matches_model.
Proof. by vm_compute. Qed.

Lemma lzx_decode_block_exact_witness :
  ∃ d st' out, lzx_new 15 cab_limits_default = Ok d ∧ lzx_meaning 15 sample_frame 122 (lzx_initial 15) = Some (st', out) ∧
    Some out = matches_model ∧
    ∃ d', @lzx_decode_block true sample_frame 122 (d, []) = ((d', out), Ok tt) ∧ lzx_refines 15 d' st'.
Proof.
  destruct (lzx_new 15 cab_limits_default) as [d|e] eqn:E; [|discriminate E].
  pose proof (@lzx_decode_block_exact true 15 d (lzx_initial 15) [] sample_frame 122 ltac:(done) ltac:(by vm_compute)
    (lzx_new_refines _ _ _ E)) as H.
  pose proof sample_means as Em. destruct (lzx_meaning 15 sample_frame 122 (lzx_initial 15)) as [[st' out]|].
  - exists d, st', out. split; [reflexivity|]. split; [reflexivity|]. split; [exact Em|exact H].
  - discriminate Em.
Defined.

Definition sample_segment : FolderSegment :=
  {| sg_volume := 0; sg_first_data_offset := 82; sg_data_block_count := 2; sg_cabinet_bytes := 109; sg_data_reserve_bytes := 0 |}.

Definition sample_entry : FileEntry :=
  {| fe_uncompressed_bytes := 6; fe_folder_offset := 3; fe_folder := FR_Index 0; fe_date := 0x2F1A; fe_time := 0x4A21;
     fe_attributes := 0x20; fe_name := text [98; 46; 99] |}.

Lemma keep_collects : collects keep (λ kept, kept).
Proof. by intros bytes t t' [= <-]. Qed.

Lemma extract_file_exact_witness :
  Forall segment_fits [sample_segment] ∧
  (extract_file CM_None cab_limits_default [sample_segment] sample_entry keep (tt, [])).2 = Ok 6 ∧
  match extract_file CM_None cab_limits_default [sample_segment] sample_entry keep (tt, []) with
  | ((_, t'), Ok total) =>
      total = 6 ∧ ∃ data, folder_holds (Y := unit) (λ volume, if volume =? 0 then Some sample_cabinet else None)
        CM_None cab_limits_default [sample_segment] data ∧ 3 + 6 ≤ len data ∧ t' = [] ++ subslice 3 6 data
  | (_, Err e) =>
      (∃ error, e = Fail error) ∧
      (steady (W := unit) (λ volume, if volume =? 0 then Some sample_cabinet else None) → accepts_all keep →
       ∀ data, folder_holds (Y := unit) (λ volume, if volume =? 0 then Some sample_cabinet else None)
         CM_None cab_limits_default [sample_segment] data → len data < 3 + 6)
  end.
Proof.
  assert (Forall segment_fits [sample_segment]) as Hfits by (repeat constructor; by vm_compute).
  split; [exact Hfits|]. split; [by vm_compute|].
  apply (extract_file_exact (Y := unit) (W := unit) _ keep (λ kept, kept) CM_None cab_limits_default [sample_segment] sample_entry tt []);
    [exact Hfits|by vm_compute..|exact keep_collects].
Defined.

Lemma e8_round_trip_witness :
  let frame := text [0xe8; 0xf0; 0xff; 0xff; 0xff; 0xe8; 0x10; 0; 0; 0; 0xe8; 0xe8; 0; 1; 0; 0; 0; 0; 0; 0; 0; 0] in
  e8_forward frame 100 200 ≠ frame ∧ e8_reverse (e8_forward frame 100 200) 100 200 = frame.
Proof. split; [by vm_compute|]. by apply (e8_round_trip _ 100 200); vm_compute. Defined.

(** The folder of the sample is whole; where its second file continues into
    another cabinet it is not. *)
Definition tables_of (bytes : list byte) : result CabinetError Cabinet :=
  (cabinet_parse (H := slice_volume bytes) 0 cab_limits_default tt).2.

Example sample_folder_whole : match tables_of sample_cabinet with Ok c => folder_whole c 0 | Err _ => False end.
Proof. vm_compute. repeat constructor. Qed.

Example continued_folder_not_whole :
  match tables_of (cabinet_of IFOLD_CONTINUED_FROM_PREV) with Ok c => ¬ folder_whole c 0 | Err _ => False end.
Proof. vm_compute. intros [_ [H _]%list.Forall_cons]%list.Forall_cons. by specialize (H eq_refl). Qed.

Lemma cabinet_back_end_exact_witness :
  ∃ entries, cabinet_entries_of sample_cabinet cab_limits_default = Ok entries ∧
    cabinet_extract_of sample_cabinet cab_limits_default 1 = Ok (text [108; 111; 87; 111; 114; 108]) ∧
    ∃ c, cabinet_image sample_cabinet cab_limits_default c ∧ entries =
      imap (λ index file, {| bu_token := N.of_nat index; bu_size_bytes := fe_uncompressed_bytes file; bu_name := fe_name file |})
        (ca_files c).
Proof.
  eexists. split; [vm_compute; reflexivity|]. split; [by vm_compute|].
  destruct (cabinet_back_end_exact (Y := unit) sample_cabinet cab_limits_default
    _ ltac:(by vm_compute) ltac:(vm_compute; reflexivity)) as (c & Hc & He & _).
  exists c. exact (conj Hc He).
Defined.
