(* ===== verification/BackendSample.v ===== *)
(** * The back ends on small containers

    The package of [WiseSample.v] served through a window, and the package and
    the InstallShield 3 archive of [IszSample.v] enumerated and streamed by the
    dispatcher: the theorems of the back ends at work on them. *)

From stdpp Require Import gmap sets sorting.
From S2P Require Export BackendEntries WiseSample BackendDispatch CabSample.

Definition sample_read : N := 65536.

Definition sample_start : WiseBackend Stored * WindowSource :=
  (wise_new wise_limits_default, window_new (len sample_image) sample_read).

Lemma sample_servable : servable_source sample_image wise_limits_default sample_read.
Proof. split; [by vm_compute|exact default_limits_sane|vm_compute; (reflexivity || discriminate)..]. Qed.

(** A run long enough. *)
Definition sample_run : (WiseBackend Stored * WindowSource) + (WiseBackend Stored * WindowSource) * result (Stop WiseError) unit :=
  turns 12 (serve_turn sample_image) sample_start.

Section witnesses.
#[local] Hint Extern 0 (ImageSource unit) => exact (source_slice sample_image) : typeclass_instances.
#[local] Hint Extern 0 (WiseCancellation unit) => exact slice_cancel : typeclass_instances.

Lemma wise_backend_exact_witness :
  ∃ b w res, leads (serve_turn sample_image) sample_start (inr ((b, w), res)) ∧
    backend_outcome (I := Stored) sample_image wise_limits_default (window_bytes sample_read) b res.
Proof.
  destruct (wise_backend_exact (I := Stored) sample_image wise_limits_default sample_read) as (b & w & res & Hl & Ho & _);
    [exact sample_servable|].
  exists b, w, res. exact (conj Hl Ho).
Defined.

Lemma wise_backend_agrees_witness :
  ∃ b w, leads (serve_turn sample_image) sample_start (inr ((b, w), Ok tt)) ∧
    map rec_offset (wb_streams b) = [134; 179; 234] ∧ map fr_path (ft_records (wb_table b)) = [[x61; x2e; x62]].
Proof.
  destruct (read_package (I := Stored) None wise_limits_default tt) as [[] [p|e]] eqn:Ep.
  2:{ assert (match (read_package (I := Stored) None wise_limits_default tt).2 with
        | Ok p => true | Err _ => false end = true) as E' by by vm_compute.
      rewrite Ep in E'. discriminate. }
  destruct (wise_backend_agrees (I := Stored) sample_image wise_limits_default sample_read p)
    as (b & w & Hl & Hs & Hr & _); [exact sample_servable|exact Ep| |].
  - assert (match (read_package (I := Stored) None wise_limits_default tt).2 with
      | Ok p => locate_in_view (I := Stored) sample_image wise_limits_default (window_bytes sample_read) (pk_overlay p) = Ok (pk_header p)
      | Err _ => False end) as E' by (vm_compute; reflexivity).
    rewrite Ep in E'. exact E'.
  - exists b, w. split; [exact Hl|]. rewrite Hs, Hr.
    assert (match (read_package (I := Stored) None wise_limits_default tt).2 with
      | Ok p => map rec_offset (pk_streams p) = [134; 179; 234] ∧ map fr_path (ft_records (pk_table p)) = [[x61; x2e; x62]]
      | Err _ => False end) as E' by (vm_compute; split; reflexivity).
    rewrite Ep in E'. exact E'.
Defined.

Lemma wise_offers_exact_witness :
  ∃ b w, leads (serve_turn sample_image) sample_start (inr ((b, w), Ok tt)) ∧
    StronglySorted N.lt (we_token <$> wise_entries b) ∧
    offered <$> wise_entries b ≡ₚ [(134, 40); (179, 50); (234, 5)].
Proof.
  destruct sample_run as [s|[[b w] res]] eqn:Er.
  { assert (match sample_run with inl _ => false | inr _ => true end = true) as E' by (vm_compute; reflexivity).
    rewrite Er in E'. discriminate. }
  assert (match sample_run with
    | inl _ => False
    | inr ((b, _), res) => res = Ok tt ∧ (λ r, (rec_offset r, rec_inflated_len r)) <$>
        List.filter (λ r, is_match (rec_checksum r)) (wb_streams b) = [(134, 40); (179, 50); (234, 5)]
    end) as E' by (clear; vm_compute; split; reflexivity).
  rewrite Er in E'. destruct E' as [-> E']. exists b, w.
  assert (leads (serve_turn sample_image) sample_start (inr ((b, w), Ok tt))) as Hl by (exists 12%nat; exact Er).
  destruct (wise_offers_exact (I := Stored) sample_image wise_limits_default sample_read b w) as (Hs & _ & Hp);
    [exact sample_servable|by vm_compute|exact Hl|].
  rewrite E' in Hp. exact (conj Hl (conj Hs Hp)).
Defined.
End witnesses.

(** * The container dispatcher on small containers

    The package of [WiseSample.v] and the InstallShield 3 archive of
    [IszSample.v] enumerated and streamed: the theorems of [BackendDispatch.v]
    at work. *)

(** The cabinet back end, its raw inflater one of stored blocks. *)
#[local] Instance dispatch_decoder : CabinetDecoder CabLimits := @mscab_decoder unit stored_inflater.

Definition dispatch_limits : BackendLimits CabLimits :=
  {| bl_wise := wise_limits_default; bl_cabinet := cab_limits_default; bl_z_archive := small_limits; bl_maximum_entries := 50000 |}.

Definition dispatch_policy : SourceReadPolicy :=
  {| source_size := len sample_image; maximum_read_bytes := BackendSample.sample_read |}.

Lemma sample_session : session_source sample_image dispatch_limits dispatch_policy.
Proof.
  split; [by vm_compute|reflexivity|by vm_compute|]. intros _. exact sample_servable.
Qed.

(** A dispatcher between two operations. *)
Definition idle_dispatcher (container : Container Stored) (l : list Offer) (w : WindowSource)
    : ContainerDispatcher Stored CabLimits :=
  {| dp_limits := dispatch_limits; dp_arena := arena_new []; dp_window := Some w; dp_container := Some container;
     dp_kind := None; dp_entries := l.*1; dp_plans := l.*2; dp_active := AC_None; dp_reader := None;
     dp_chunk := replicate (N.to_nat CHUNK_BYTES) x00; dp_armed := None; dp_unsupported := false |}.

Lemma idle_ready source capacity container l w :
  movable source capacity w → ready source dispatch_limits capacity container l (idle_dispatcher container l w).
Proof.
  intros Hw. split; [reflexivity|by exists w|reflexivity..| |reflexivity|reflexivity|discriminate].
  unfold idle_dispatcher. cbn [dp_chunk]. unfold len. by rewrite length_replicate, N2Nat.id.
Qed.

(** ** The archive *)

Definition z_bytes : list byte := drop 3 sample_container.

Definition z_policy : SourceReadPolicy := {| source_size := len z_bytes; maximum_read_bytes := 8192 |}.

Lemma z_session : session_source z_bytes dispatch_limits z_policy.
Proof.
  split; [by vm_compute|reflexivity|by vm_compute|]. intros Hk. exfalso.
  assert (recognised_kind z_bytes = Some CK_InstallShieldZ) as E by (vm_compute; reflexivity). congruence.
Qed.

Definition z_offers : list Offer :=
  match z_archive_entries z_bytes small_limits with
  | Ok entries => buffered_offers 50000 entries []
  | Err _ => []
  end.

Lemma z_offers_are :
  z_offers = [({| be_source_token := 0; be_size_bytes := 13; be_archive_path := [x64; x2f; x65] |}, PL_Buffered 0 13);
              ({| be_source_token := 1; be_size_bytes := 2; be_archive_path := [x64; x2f; x66] |}, PL_Buffered 1 2)].
Proof. vm_compute. reflexivity. Qed.

Lemma dispatch_enumerates_witness :
  ∃ (d : ContainerDispatcher Stored CabLimits) r batches,
    dispatch_begin Op_Enumerate 0 z_policy (dispatcher_new (I := Stored) (replicate 64 x00) dispatch_limits) =
      (d, Ok 0) ∧
    serves_to z_bytes d r ∧ r.2 = Ok tt ∧ r.1.2 = DA_EntryBatch <$> batches ∧
    concat batches = [{| be_source_token := 0; be_size_bytes := 13; be_archive_path := [x64; x2f; x65] |};
                      {| be_source_token := 1; be_size_bytes := 2; be_archive_path := [x64; x2f; x66] |}].
Proof.
  destruct (dispatch_enumerates (I := Stored) z_bytes dispatch_limits (replicate 64 x00) z_policy z_session)
    as (d & r & Hb & Hs & He).
  unfold enumerated in He.
  assert (recognised_kind z_bytes = Some CK_InstallShieldZ) as E by (vm_compute; reflexivity). rewrite E in He.
  destruct He as (x & Hx & He). unfold resolves in Hx.
  assert ((MAXIMUM_BUFFERED_BYTES <? len z_bytes) = false) as E' by (vm_compute; reflexivity). rewrite E' in Hx.
  assert (x = Ok (CT_ZArchive {| cb_bytes := z_bytes; cb_size := len z_bytes |}, z_offers)) as ->.
  { assert (match entries_of CK_InstallShieldZ dispatch_limits z_bytes with
      | Ok entries => buffered_offers (bl_maximum_entries dispatch_limits) entries [] = z_offers
      | Err _ => False end) as Eo by (vm_compute; reflexivity).
    destruct (entries_of CK_InstallShieldZ dispatch_limits z_bytes) as [entries|]; [|destruct Eo].
    by rewrite Hx, Eo. }
  assert ((len (replicate 64 x00) <? spelling_bytes z_offers) = false) as E'' by (vm_compute; reflexivity).
  rewrite E'' in He. destruct He as (_ & Hr & batches & Ho & Hc & _). exists d, r, batches.
  rewrite z_offers_are in Hc. exact (conj Hb (conj Hs (conj Hr (conj Ho Hc)))).
Defined.

Lemma dispatch_extracts_witness :
  let container := CT_ZArchive {| cb_bytes := z_bytes; cb_size := len z_bytes |} in
  let d := idle_dispatcher container z_offers (window_new (len z_bytes) 8192) in
  ∃ d' r chunks, dispatch_begin Op_Stream 0 z_policy d = (d', Ok 13) ∧
    serves_to z_bytes d' r ∧ r.1.2 = DA_DataChunk <$> chunks ∧ r.2 = Ok tt ∧ concat chunks = known_expansion.
Proof.
  intros container d.
  assert (movable z_bytes 8192 (window_new (len z_bytes) 8192)) as Hm.
  { split; [apply window_new_of; reflexivity|reflexivity|vm_compute; reflexivity|by left]. }
  pose proof (idle_ready z_bytes 8192 container z_offers _ Hm) as Hd. fold d in Hd.
  assert (NoDup (be_source_token <$> z_offers.*1)) as Hnd.
  { rewrite z_offers_are. cbn. repeat constructor; set_solver. }
  assert (z_offers !! 0%nat = Some ({| be_source_token := 0; be_size_bytes := 13; be_archive_path := [x64; x2f; x65] |}, PL_Buffered 0 13)) as Hi
    by (rewrite z_offers_are; reflexivity).
  pose proof (dispatch_extracts (I := Stored) z_bytes dispatch_limits 8192 container z_offers d 0 _ 0 13 z_policy Hd Hnd Hi
    ltac:(reflexivity)) as H.
  assert (match extract_of (Some container) dispatch_limits 0 with Ok b => b = known_expansion | Err _ => False end) as E
    by (vm_compute; reflexivity).
  destruct (extract_of (Some container) dispatch_limits 0) as [bytes|e]; [|destruct E]. subst bytes.
  assert ((len known_expansion =? 13) = true) as E' by (vm_compute; reflexivity). rewrite E' in H.
  destruct H as (d' & r & chunks & H1 & H2 & H3 & H4 & H5 & _). exists d', r, chunks.
  exact (conj H1 (conj H2 (conj H3 (conj H4 H5)))).
Defined.

(** ** A policy below the smallest window

    [begin] bounds the window by the reads the policy allows, but the window is
    never made smaller than [MINIMUM_WINDOW_BYTES], and it asks for as much as it
    holds: the first read is then one the protocol refuses. *)
Lemma small_policy_refused :
  let policy := {| source_size := 5000; maximum_read_bytes := 4096 |} in
  let d := (dispatch_begin Op_Enumerate 0 policy (dispatcher_new (I := Stored) [] dispatch_limits)).1 in
  (dispatch_step 1 d).2 = Ok (DA_NeedRead 0 5000) ∧
  validate_read_request {| rq_read_sequence := 1; rq_offset := 0; rq_length := 5000 |} policy 1 = Err NoncanonicalValue.
Proof. split; vm_compute; reflexivity. Qed.

(** ** The package *)

Lemma sample_wise : wise_session sample_image dispatch_limits 65536.
Proof. split; [by vm_compute|exact default_limits_sane|reflexivity|by vm_compute|by vm_compute]. Qed.

Definition package_offer : Offer :=
  ({| be_source_token := 0; be_size_bytes := 5; be_archive_path := [x61; x2e; x62] |}, PL_WiseStream 234 2240272485 5).

(** The package as an enumeration leaves it. *)
Lemma sample_resolves :
  ∃ b w l, movable sample_image 65536 w ∧
    resolves (I := Stored) sample_image dispatch_limits 65536 CK_WiseOverlay (Ok (CT_Wise b, l)) ∧
    l !! 0%nat = Some package_offer.
Proof.
  destruct (backend_leads (I := Stored) sample_image wise_limits_default 65536 ltac:(by vm_compute) default_limits_sane
    ltac:(vm_compute; discriminate) ltac:(by vm_compute) (snd sample_start)
    (new_movable sample_image wise_limits_default 65536 sample_servable) ltac:(vm_compute; discriminate))
    as (b & w & res & Hl & Hb & Hw).
  destruct sample_run as [s|[[b' w'] res']] eqn:Er.
  { assert (match sample_run with inl _ => false | inr _ => true end = true) as E' by (vm_compute; reflexivity).
    rewrite Er in E'. discriminate. }
  assert (match sample_run with
    | inl _ => False
    | inr ((b, _), res) => res = Ok tt ∧
        (wise_offer <$> collect_offers 50000 b (wise_entries b) [] []) !! 0%nat = Some package_offer
    end) as E' by (clear; vm_compute; split; reflexivity).
  rewrite Er in E'. destruct E' as [-> E'].
  assert (leads (serve_turn sample_image) sample_start (inr ((b', w'), Ok tt))) as Hl' by (exists 12%nat; exact Er).
  pose proof (leads_end_det _ _ _ _ Hl Hl') as E. injection E as -> -> ->.
  eexists b', w', _. split; [exact Hw|]. split; [|exact E'].
  exists b', (Ok tt). split; [exact Hb|reflexivity].
Qed.

Section package.
#[local] Hint Extern 0 (ImageSource unit) => exact (source_slice sample_image) : typeclass_instances.
#[local] Hint Extern 0 (WiseCancellation unit) => exact slice_cancel : typeclass_instances.

Lemma dispatch_streams_witness :
  ∃ (d d' : ContainerDispatcher Stored CabLimits) r chunks,
    dispatch_begin Op_Stream 0 dispatch_policy d = (d', Ok 5) ∧
    serves_to sample_image d' r ∧ r.1.2 = DA_DataChunk <$> chunks ∧ r.2 = Ok tt ∧
    concat chunks = [x61; x62; x63; x64; x65].
Proof.
  destruct sample_resolves as (b & w & l & Hw & Hres & Hi).
  pose proof (idle_ready sample_image 65536 (CT_Wise b) l w Hw) as Hd.
  destruct (dispatch_streams (I := Stored) sample_image dispatch_limits 65536 (CT_Wise b) l _ 0 _ _ dispatch_policy
    sample_wise Hres Hd Hi) as (offset & declared & bytes & m & d' & r & chunks & E & Hb & _ & _ & _ & Hbegin & Hs & Hr & _ & _ & Hend).
  injection E as <- <-.
  assert ((inflate_bytes (I := Stored) 234 wise_limits_default tt).2 = Ok [x61; x62; x63; x64; x65]) as Eb
    by (vm_compute; reflexivity).
  change (bl_wise dispatch_limits) with wise_limits_default in Hb. rewrite Hb in Eb. injection Eb as ->.
  assert (((2240272485 =? 0) || (2240272485 =? crc32 [x61; x62; x63; x64; x65])) = true) as Ec by (vm_compute; reflexivity).
  rewrite Ec in Hend. destruct Hend as (Hok & Hc & _).
  eexists _, d', r, chunks. exact (conj Hbegin (conj Hs (conj Hr (conj Hok Hc)))).
Defined.
End package.
